(* ===== verification/_CoqProject ===== *)
-Q . S2P
Prelude.v
Strings.v
BitSet.v
Wyhash.v
SemverString.v
SemverVersion.v
SemverRange.v
SemverQuery.v
Glob.v
LinearFifo.v
PairingHeap.v
HiveArray.v
Base64.v
Vlq.v
Valkey.v
ValkeyClient.v
Wyhash4.v
QueryString.v
MultiBitSet.v
DynamicBitSet.v
Interleaving.v
Counting.v
FutexMutex.v
FutexCondition.v
RwLock.v
Monitor.v
WaitGroup.v
Semaphore.v
UnboundedQueue.v
PoolEvent.v
PoolBuffer.v
PoolWord.v
PoolSync.v
PoolRest.v
Paths.v
PathJoin.v
PathRelative.v
