(* ===== verification/Prelude.v ===== *)
(** * A verification library for the algorithmic core of Bun (Rust sources under [src/src])

    Bun is a JavaScript runtime, package manager and bundler.  Most of the repository drives
    an engine, sockets and files; this library models the self-contained algorithms that the
    package manager, the file globber and the event loop rest on, and proves them correct.

    ** Parts and how they interact

    The package manager reads a dependency range such as [^1.2.3 || >=2]: [semver/SemverQuery.rs]
    tokenises it, calls the version parser ([semver/Version.rs]) on each piece, and stores ranges
    ([semver/SemverRange.rs]) in linked OR and AND chains.  Prerelease and build texts are 8-byte
    handles into the input ([semver/lib.rs]), hashed with Wyhash11 ([wyhash/lib.rs]); the group's
    flags are a small bit set ([collections/bit_set.rs]).  Trimming, number parsing, splitting and
    WTF-8 come from [bun_core] and [bun_alloc].  The glob matcher ([glob/matcher.rs]) uses the
    WTF-8 helpers.  The ring buffer ([collections/linear_fifo.rs]) queues the tasks of the event
    loop, the pairing heap ([io/heap.rs]) orders its timers, and slot arrays
    ([collections/hive_array.rs]) hold its sockets and tasks.  The runtime encodes bytes and source
    maps with [base64/lib.rs], and speaks to Valkey servers through [valkey/valkey_protocol.rs],
    which reads numbers with [bun_core]; the socket callbacks ([runtime/valkey_jsc/valkey.rs]) buffer
    what has not arrived whole.  Query strings ([url/lib.rs]) are keyed by the newer Wyhash.
    Threads share work through [threading]: a mutex and a condition variable on futexes, the wait group,
    the semaphore and the reader-writer lock built on them, the unbounded queue of concurrent tasks, and the
    thread pool, whose threads sleep on an event, steal from each other's run buffers and wake each other through
    one packed word.
    The path functions ([paths/resolve_path.rs]) serve the resolver, the installer and [node:path].

    ** Files

    - [Prelude] (this file): bytes, machine integers, the outcome monad, checked slicing,
      little-endian words, comparison functions as total preorders (class [TotalPreorderCmp] with
      instances for pairs, sums, lists), the hint databases [len], [outcomes] and [words].
    - [Strings]: the byte-string helpers.  Theorems: WTF-8 round trip, the language of
      [parse_unsigned], the fields a split iterator yields.
    - [BitSet]: [IntegerBitSet] and its iterator.  A set is its mask; [elems] is the finite set it
      stands for, and every operation refines the set operation of the same name.
    - [Wyhash]: the stateless and the streaming Wyhash11, and their agreement; the one-shot hasher.
    - [SemverString]: [String], [ExternalString], [SlicedString], [Buf] and [Builder].  A slice is
      its address and its bytes because [Pointer::init] subtracts addresses.  Theorems: a handle
      reads back as the slice it stores, equality of handles is equality of contents, the
      count / allocate / append protocol is safe for the texts a handle can hold; the package that is copied
      with a builder of its own ([resolver/package_json.rs]).
    - [SemverVersion]: versions, tags, the parser, the orders.  Theorems: the order is the
      precedence of the semver specification, for identifiers of its characters with numbers of up to 64 bits, and a
      total preorder; the parser is total and well typed; printing then parsing is the identity when the build has no hyphen.
    - [SemverRange]: comparators and ranges; wildcard ranges contain what they should.
    - [SemverQuery]: chains, groups and the query parser.  The owning [next] pointers are an
      inductive list; a raw [tail] pointer is the index of the node it aliases, and following a
      tail that is not in the chain is a panic, proved not to happen.  Theorems: the meaning of
      operators from text to answer, totality of the parser, exact queries, chain operations.
    - [Glob]: the matcher.  Theorems: for texts below [2^32 - 6] bytes, where its 32-bit indices do not wrap, it
      returns (no index out of range, no endless backtracking), and on one segment it decides the declarative relation [wmatch].
    - [LinearFifo]: the ring buffer over its three kinds of storage (class [LinearFifoBuffer] with
      three instances).  A slot that is not initialised is [None].  Theorems: any trace of
      operations refines a list, bounded by [N] items for a fixed buffer.
    - [PairingHeap]: the intrusive pairing heap of the timers, over a memory of nodes linked by raw
      pointers (dangling ones panic).  Theorem: a trace of operations refines a priority queue.
    - [HiveArray]: the slot array with its occupancy words, and the pool that spills to the heap.
      Theorems: both refine a finite map from addresses to values.
    - [Base64]: the scalar codecs and the entry points that fall back to them when simdutf (a
      parameter) refuses.  Theorems: the codec is canonical, the fallback is lenient.
    - [Vlq]: the variable-length quantities of source maps.  Theorems: round trip, bounds.
    - [Valkey]: the RESP protocol.  [ValkeyReader] builds values, [ReplyScanner] only finds the end of
      a reply and resumes where it stopped, [Command::write] serialises.  Theorems: the scanner's
      answer does not depend on how the stream is cut into segments; parser and scanner agree on
      every buffer; commands are read back as they were written.
    - [ValkeyClient]: the read buffer and the two paths of [on_data].  Theorem: every reply of a stream
      is handled once, in order, whatever the segments it comes in.
    - [Wyhash4]: Wyhash final4, streaming, one-shot and [const fn], and the integer mixers.  Theorems:
      all ways to hash a string agree, the mixers are permutations.
    - [QueryString]: percent-decoding over any byte sink (class [Writer], with its laws for a vector and a
      cursor), the scanner, the map.  Theorems: what is decoded; what the map answers,
      when every parameter has a name.
    - [MultiBitSet]: [ArrayBitSet], [DynamicBitSetUnmanaged] over its allocation (an uninitialised word is
      [None]), [DynamicBitSetList], [AutoBitSet] and their iterator, with what each word operation does to
      each bit.  [DynamicBitSet]: the theorems. Any number of dynamic sets under any operations, the sets
      of a list, and inline-or-heap sets are finite sets; copying from a shorter set reads behind it.
    - [Interleaving]: threads as partial step functions over a shared state (class [System]), runs, invariants,
      sums over threads, the futex's waking of sleepers, [inevitable] and its proof by a measure.
    - [FutexMutex], [FutexCondition], [RwLock]: the futex mutex, the futex condition variable (a refinement of
      the counters of waiters and signals) and the reader-writer lock, each with safety and progress;
      [try_write] breaks the last one.
    - [Monitor]: a mutex with a condition, as promised by the two.  [WaitGroup] and [Semaphore] are built on it:
      no signal is lost.
    - [UnboundedQueue]: the intrusive queue with many producers and one consumer.  The nodes and their
      links are explicit; the abstract queue is kept as history.  Theorem: first in first out, no node is lost
      or in two places, empty answers are right, pops end.
    - [Counting]: how often a node occurs in a list; taking nodes out of one's hands.
    - [PoolEvent], [PoolBuffer]: of the thread pool, the event that idle threads sleep on and the ring of tasks of
      each worker, from which others steal.  Theorems: a posted token is taken; no task is lost or run twice
      whatever races, and every call ends when the others pause.
    - [PoolWord]: the packed word of the pool, with the laws of its setters.  [PoolSync]: schedule, notify, wait, the
      loop of a worker, shutdown and unregister as a system of threads; the queues are the count of their tasks; that a [pop] fails
      only when there are none or another worker is busy is assumed of [Thread::pop], not derived from the queues; the event is a token
      ([PoolEvent]).  Invariant: the counts of the word are right, one thread at most passes the waking on, and a task that
      waits has a notification or a thread that will look for it.  At most 16383 workers, the width of the count.
    - [PoolRest]: a measure that every step decreases, so the pool comes to rest without a task left behind; after a
      shutdown the workers leave; two races that break this.
    - [Paths]: [normalize_string_generic_tz] and the platforms.  A path means its list of elements; [normal] resolves the
      dots.  Theorems: the loop that edits the buffer in place writes the normal form, it is idempotent; on every
      platform the call returns within ten units more than the path, and the paths at which a build with debug assertions
      aborts are exactly known.
    - [PathJoin]: Node's [normalize], [join] and [resolve], posix and Windows.  Theorems: join (posix) is its
      definition on lists of elements; resolve (posix) is Node's [path_resolve] when no backslash is about, but for a slash at
      the end; in buffers of any size.
    - [PathRelative]: the common path, [relative], [is_parent_or_equal], [dirname], [basename].  Theorems, for
      paths of plain names: resolving the relative path gives the target back, directory and name give the path back, what
      counts as a child and what is unrelated.

    ** Conventions

    The model is the release profile on a 64-bit little-endian target: arithmetic on a fixed
    width wraps ([wrap]), [debug_assert!] is absent (it shows up as a hypothesis where a caller
    must respect it; the normalisation of paths has a second definition for builds with assertions), shifts take their amount modulo the width.  A byte string is a [list Z] of
    bytes; [usize] indices are [nat] where the code only compares and adds below lengths.  A
    function that can panic or loops with fuel returns an [outcome]: [Ok], [Panic] (a bounds
    check, [unreachable!], a division by zero, a read of uninitialised memory) or [OutOfFuel].
    Totality theorems rule out the last two.

    Threads interleave atomic step by atomic step, in one order that all see (sequential consistency: the
    orderings weaker than that are not modelled).  A local state is a point of the code; a blocked thread,
    or one in a spin loop, has no step until what it waits for is there.  Whoever sleeps on a futex may
    also wake for no reason, and a weak exchange may fail for no reason.  A lock or queue is shown safe in
    every reachable state; that it makes progress is [inevitable]: whatever order the threads go on
    in, the aim is reached after finitely many steps, without counting on spurious events.  Bounds: the condition counts at most
    65535 waiters and an epoch of 32 bits, the reader-writer lock 2^31 - 1 readers and writers, counts of tasks and
    permits are below 2^64; the 32-bit indices of a run buffer have not wrapped around (a thief that sleeps for
    2^32 pushes could take the wrong tasks).  [MAX] stands for the number of threads a broadcast wakes.

    ** Fuel

    The parsers' loops get the input length as fuel: each round consumes a byte.  Two rounds are
    enough for the copies of the ring buffer and [head] rounds for its rotation.  The matcher's
    main loop may run for an exponential number of iterations in the number of brace branches; its
    fuel [2 ^ fuel_bits] (run by doubling, so that it is still executable) is bounded by a
    lexicographic measure on the wildcard, the globstar and the two indices; its recursion is
    bounded by the ten entries of the brace stack.  The heap's loops get the size of the memory.  The
    reply scanner and the vectors of the reader get the length of the buffer and one (each round
    reads a byte), the reader's recursion 129 levels (aggregates are refused from depth 128 on).  The
    client's loops get the number of bytes held and one, a loop over a bit set its length, a call of the query scanner two rounds.  A
    VLQ has at most 7 digits to write, a byte of base64 at most 3 sextets to emit.  The loop over the
    elements of a path gets its length and one, the search for the last absolute part the number of parts and one,
    [dirname] the length of the path.

    ** Findings

    The manifest lists them with their lines.  Theorems record that the code does not do what it
    means to in: the parse of build metadata with a hyphen, the lost alternative after a caret star,
    comparisons with a star, the Display of alternatives, a globstar behind an exclamation mark, an
    8-byte string the builder never copies, short texts of a package that are copied but not counted, prerelease numbers
    above 64 bits that compare as text, [shrink] to a size that breaks the index mask, a verbatim
    string cut by a segment boundary, a bad escape that shifts the parameters behind it, a
    parameter without a name that ends the query, a copy between bit sets that reads behind its
    source, and [try_write], which can take the lock beside a reader.  Also proved: [finish] of a wait group
    signals one waiter only, so a second one would stay blocked, and [wait] can return while [finish]
    still uses the wait group.  The event of the thread pool lets one thread alone go on when all are to be woken,
    and a [notify] after [shutdown] takes the shutdown back, so that a worker sleeps for ever ([PoolRest.pool_faults]); a
    thread that cannot be spawned leaves the pool signalled for good.  Of the paths ([PathRelative.path_faults]): [..] leaves a UNC share,
    [normalize_buf] hands its flag over the wrong way round, the common path of nine or more paths is wrong or panics,
    [is_parent_or_equal] looks for the parent anywhere in the child, resolving on posix splits names at backslashes
    (and keeps a slash at the end, which Node's [path.resolve] does not),
    and [relative] treats the last slash, paths above the root and very deep ones inconsistently.

    ** Not modelled

    Of the paths: [get_if_exists_longest_common_path], 16-bit joins, [PosixToWinNormalizer], [dirname] on other
    platforms, the owned path types; the host is Linux.  Of [threading]: the thread pool's [warm], overflow queues and the chain that releases joined threads, the channel, [ResetEvent], the guards, the Windows and Darwin locks and
    the system calls of the futex.  The walker around the glob matcher, the package manager around semver, the JavaScript and CSS
    front ends, the runtime and its bindings (system calls, the engine, allocation).  Of the
    modelled files: coloured diffs of versions, JSON printers, [pump] and the io traits of the
    ring buffer, [emplace] and the reference-counted
    handles of the slot array, [wyhash_url_safe], the Display of RESP values, the URL struct, the iterator
    over the names of a query and the map of route parameters.  What the client does with a reply is a
    parameter (promises of the engine).  [simdutf] and the
    engine's number parser are parameters.  [Drop] only frees memory, unless a component says
    otherwise. *)

From Stdlib Require Export ZArith Lia.
From stdpp Require Export base tactics list numbers.
From Stdlib Require Ascii String.
Export (notations) Ascii String.

Global Open Scope Z_scope.

(** ** Bytes and characters *)

(** A byte slice ([&[u8]]) is a list of integers; [bytes_ok] says they are bytes. *)
Abbreviation bytes := (list Z).

Definition byte_ok (c : Z) : Prop := 0 <= c < 256.
Definition bytes_ok (s : list Z) : Prop := Forall byte_ok s.

(** A boolean property of all bytes is decided by checking the 256 of them. *)
Definition all_bytes (P : Z -> bool) : bool := forallb (fun n => P (Z.of_nat n)) (seq 0 256).

Lemma all_bytes_spec (P : Z -> bool) : all_bytes P = true -> forall b, byte_ok b -> P b = true.
Proof.
  unfold all_bytes. rewrite forallb_forall. intros H b Hb. unfold byte_ok in Hb.
  specialize (H (Z.to_nat b)). rewrite Z2Nat.id in H by lia. apply H, in_seq. lia.
Qed.

Definition code_of (a : Ascii.ascii) : Z := Z.of_N (Ascii.N_of_ascii a).

(** [ch "x"] is the byte literal [b'x'], already evaluated to a numeral. *)
Notation "'ch' x" :=
  (ltac:(let v := eval vm_compute in (code_of x%char) in exact v))
  (at level 10, x at level 9, only parsing).

(** [str "abc"] is the byte-string literal [b"abc"]. *)
Definition str (s : String.string) : list Z := map code_of (String.list_ascii_of_string s).
Arguments str s%_string_scope.

Lemma str_ok s : bytes_ok (str s).
Proof.
  unfold str, bytes_ok. apply Forall_fmap, list.Forall_forall. intros a _. unfold compose, byte_ok, code_of.
  pose proof (Ascii.N_ascii_bounded a). lia.
Qed.

(** ** Machine integers *)

Definition U8_MAX : Z := 255.
Definition U32_MAX : Z := 4294967295.
Definition U64_MAX : Z := 18446744073709551615.

(** Wrap-around of the release profile (no overflow checks). *)
Definition wrap (w x : Z) : Z := x mod 2 ^ w.

Definition u64_ok (x : Z) : Prop := 0 <= x < 2 ^ 64.
Definition u32_ok (x : Z) : Prop := 0 <= x < 2 ^ 32.

(** [u64::saturating_add(x, 1)] *)
Definition sat_succ64 (x : Z) : Z := Z.min U64_MAX (x + 1).

(** ** Outcomes

    [Panic] is a Rust panic (slice index out of range, [unreachable!],
    [expect]); [OutOfFuel] is the artefact of a fuelled loop and is proved
    unreachable for every loop of the development. *)
Inductive outcome (A : Type) : Type :=
| Ok (a : A)
| Panic
| OutOfFuel.
Arguments Ok {A} a.
Arguments Panic {A}.
Arguments OutOfFuel {A}.

#[export] Instance outcome_ret : MRet outcome := fun A a => Ok a.
#[export] Instance outcome_bind : MBind outcome :=
  fun A B f m => match m with Ok a => f a | Panic => Panic | OutOfFuel => OutOfFuel end.
#[export] Instance outcome_fmap : FMap outcome :=
  fun A B f m => match m with Ok a => Ok (f a) | Panic => Panic | OutOfFuel => OutOfFuel end.

#[export] Instance outcome_eq_dec `{EqDecision A} : EqDecision (outcome A).
Proof. intros x y. unfold Decision. decide equality. apply (decide (_ = _)). Defined.

(** The computation returns a value: no panic, and the fuel was enough. *)
Definition returns {A} (m : outcome A) : Prop := exists a, m = Ok a.
Definition returns_with {A} (m : outcome A) (P : A -> Prop) : Prop := exists a, m = Ok a /\ P a.

Lemma outcome_bind_Ok {A B} (m : outcome A) (f : A -> outcome B) b :
  (m ≫= f) = Ok b <-> exists a, m = Ok a /\ f a = Ok b.
Proof.
  destruct m as [a| |]; unfold mbind; simpl; split; try done.
  - intros H. by exists a.
  - intros (a' & [= ->] & H). done.
  - by intros (a' & ? & _).
  - by intros (a' & ? & _).
Qed.

Lemma returns_with_bind {A B} (m : outcome A) (f : A -> outcome B) (P : A -> Prop) (Q : B -> Prop) :
  returns_with m P -> (forall a, P a -> returns_with (f a) Q) -> returns_with (m ≫= f) Q.
Proof. intros (a & -> & Ha) Hf. apply Hf, Ha. Qed.

Lemma returns_with_mono {A} (m : outcome A) (P Q : A -> Prop) :
  returns_with m P -> (forall a, P a -> Q a) -> returns_with m Q.
Proof. intros (a & -> & Ha) H. exists a. auto. Qed.

Lemma returns_with_Ok {A} (a : A) (P : A -> Prop) : P a -> returns_with (Ok a) P.
Proof. exists a. auto. Qed.

(** ** Checked slicing: [&s[a..b]], [&s[a..]], [s[i]] *)

Definition slice_range (s : bytes) (a b : nat) : outcome bytes :=
  if decide (a <= b <= length s)%nat then Ok (take (b - a) (drop a s)) else Panic.

Definition slice_from (s : bytes) (a : nat) : outcome bytes :=
  if decide (a <= length s)%nat then Ok (drop a s) else Panic.

Definition index_at {A} (s : list A) (i : nat) : outcome A :=
  match s !! i with Some c => Ok c | None => Panic end.

Lemma slice_from_ok (s : bytes) a : (a <= length s)%nat -> slice_from s a = Ok (drop a s).
Proof. intros. unfold slice_from. by rewrite decide_True. Qed.

Lemma slice_range_ok (s : bytes) a b :
  (a <= b <= length s)%nat -> slice_range s a b = Ok (take (b - a) (drop a s)).
Proof. intros. unfold slice_range. by rewrite decide_True. Qed.

Lemma index_at_ok {A} (s : list A) i c : s !! i = Some c -> index_at s i = Ok c.
Proof. unfold index_at. by intros ->. Qed.

(** [s[i] = x] *)
Definition store_at {A} (s : list A) (i : nat) (x : A) : outcome (list A) :=
  if decide (i < length s)%nat then Ok (<[i := x]> s) else Panic.

Lemma store_at_ok {A} (s : list A) i x : (i < length s)%nat -> store_at s i x = Ok (<[i := x]> s).
Proof. intros. unfold store_at. by rewrite decide_True. Qed.

(** ** Character classes of the standard library *)

Definition is_ascii_digit (c : Z) : bool := (48 <=? c) && (c <=? 57).
Definition is_ascii_lower (c : Z) : bool := (97 <=? c) && (c <=? 122).
Definition is_ascii_upper (c : Z) : bool := (65 <=? c) && (c <=? 90).
Definition is_ascii_alphabetic (c : Z) : bool := is_ascii_lower c || is_ascii_upper c.
Definition is_ascii_alphanumeric (c : Z) : bool := is_ascii_alphabetic c || is_ascii_digit c.
(** [u8::is_ascii_whitespace]: space, tab, LF, FF, CR. *)
Definition is_ascii_whitespace (c : Z) : bool :=
  (c =? 32) || (c =? 9) || (c =? 10) || (c =? 12) || (c =? 13).

Definition memb (c : Z) (l : list Z) : bool := existsb (Z.eqb c) l.

(** The length of the run of characters satisfying [p]. *)
Fixpoint run_length (p : Z -> bool) (l : list Z) : nat :=
  match l with
  | [] => 0
  | c :: l => if p c then S (run_length p l) else 0
  end.

Lemma run_length_le p (l : list Z) : (run_length p l <= length l)%nat.
Proof. induction l as [|c l IH]; simpl; [lia|]. destruct (p c); lia. Qed.

(** ** Tactics *)

(** Case analysis on the boolean comparisons of integers in sight. *)
Ltac zcases :=
  repeat match goal with
  | H : context [Z.eqb ?a ?b] |- _ => destruct (Z.eqb_spec a b); try lia
  | H : context [Z.leb ?a ?b] |- _ => destruct (Z.leb_spec a b); try lia
  | H : context [Z.ltb ?a ?b] |- _ => destruct (Z.ltb_spec a b); try lia
  | |- context [Z.eqb ?a ?b] => destruct (Z.eqb_spec a b); try lia
  | |- context [Z.leb ?a ?b] => destruct (Z.leb_spec a b); try lia
  | |- context [Z.ltb ?a ?b] => destruct (Z.ltb_spec a b); try lia
  end.

(** [len] settles inequalities between lengths of built lists. *)
Create HintDb len.
#[export] Hint Rewrite @length_app @length_take @length_drop @length_fmap @length_replicate @length_insert
  @length_cons @length_nil : len.
Ltac len := autorewrite with len in *; lia.

(** The lemmas that close "this returns" goals. *)
Create HintDb outcomes.
#[export] Hint Resolve returns_with_Ok : outcomes.

(** The lemmas that keep a value in its word, filled by the components. *)
Create HintDb words.

(** ** Bit fields as arithmetic *)

Lemma lor_shiftl_add a b n : 0 <= n -> 0 <= b < 2 ^ n -> Z.lor (Z.shiftl a n) b = a * 2 ^ n + b.
Proof.
  intros Hn Hb. rewrite Z.shiftl_mul_pow2 by done.
  rewrite <- Z.lxor_lor, <- Z.add_nocarry_lxor; [done|..].
  all: apply Z.bits_inj'; intros i Hi; rewrite Z.land_spec, Z.bits_0.
  all: destruct (decide (i < n)).
  all: try (rewrite Z.mul_pow2_bits_low by lia; done).
  all: rewrite <- (Z.mod_small b (2 ^ n)), Z.mod_pow2_bits_high by lia; apply andb_false_r.
Qed.

Lemma land_ones_mod a m n : m = Z.ones n -> 0 <= n -> Z.land a m = a mod 2 ^ n.
Proof. intros -> Hn. by rewrite Z.land_ones. Qed.

Lemma lor_high_add h b n m : h = m * 2 ^ n -> 0 <= n -> 0 <= b < 2 ^ n -> Z.lor h b = h + b.
Proof. intros -> Hn Hb. rewrite <- Z.shiftl_mul_pow2 by done. rewrite lor_shiftl_add by done.
  by rewrite Z.shiftl_mul_pow2. Qed.

(** ** Little-endian words and byte copies *)

(** [uN::from_le_bytes] *)
Fixpoint le_value (bs : list Z) : Z :=
  match bs with
  | [] => 0
  | b :: bs' => b + 256 * le_value bs'
  end.

(** [uN::to_le_bytes], [n] bytes. *)
Fixpoint le_bytes (n : nat) (x : Z) : list Z :=
  match n with
  | O => []
  | S n' => x mod 256 :: le_bytes n' (x / 256)
  end.

Lemma le_bytes_length n x : length (le_bytes n x) = n.
Proof. revert x. induction n; intros; simpl; [done|]. by rewrite IHn. Qed.

Lemma le_bytes_ok n x : bytes_ok (le_bytes n x).
Proof.
  revert x. induction n; intros; constructor; [|apply IHn].
  apply Z.mod_pos_bound. lia.
Qed.

Lemma le_value_bytes n x : le_value (le_bytes n x) = x mod 2 ^ (8 * Z.of_nat n).
Proof.
  revert x. induction n as [|n IH]; intros x; simpl le_value.
  - by rewrite Z.mod_1_r.
  - rewrite IH. replace (8 * Z.of_nat (S n)) with (8 + 8 * Z.of_nat n) by lia.
    rewrite Z.pow_add_r by lia. change (2 ^ 8) with 256.
    rewrite Z.rem_mul_r by lia. done.
Qed.

Lemma le_bytes_value (bs : list Z) : bytes_ok bs -> le_bytes (length bs) (le_value bs) = bs.
Proof.
  induction 1 as [|b bs Hb Hbs IH]; simpl; [done|]. unfold byte_ok in Hb.
  rewrite (Z.mul_comm 256), Z.mod_add, Z.mod_small, Z.div_add, Z.div_small, Z.add_0_l by lia.
  by rewrite IH.
Qed.

Lemma le_value_bound (bs : list Z) : bytes_ok bs -> 0 <= le_value bs < 2 ^ (8 * Z.of_nat (length bs)).
Proof.
  induction 1 as [|b bs Hb Hbs IH]; simpl le_value; [done|]. unfold byte_ok in Hb.
  simpl length. replace (8 * Z.of_nat (S (length bs))) with (8 + 8 * Z.of_nat (length bs)) by lia.
  rewrite Z.pow_add_r by lia. change (2 ^ 8) with 256. lia.
Qed.

(** [dst[at..at + src.len()].copy_from_slice(src)] *)
Definition copy_at {A} (dst : list A) (at_ : nat) (src : list A) : list A :=
  take at_ dst ++ src ++ drop (at_ + length src) dst.

Lemma copy_at_length {A} (dst : list A) i (src : list A) :
  (i + length src <= length dst)%nat -> length (copy_at dst i src) = length dst.
Proof. intros. unfold copy_at. rewrite !length_app, length_take, length_drop. lia. Qed.

Lemma copy_at_take {A} (dst : list A) i (src : list A) :
  (i + length src <= length dst)%nat ->
  take (i + length src) (copy_at dst i src) = take i dst ++ src.
Proof.
  intros. unfold copy_at. rewrite app_assoc, take_app_length'; [done|].
  rewrite length_app, length_take. lia.
Qed.

Lemma copy_at_nil {A} (dst : list A) i : copy_at dst i [] = dst.
Proof. unfold copy_at. simpl. by rewrite Nat.add_0_r, take_drop. Qed.

(** A store followed by a copy behind it is one copy. *)
Lemma copy_at_cons {A} (dst : list A) i x (src : list A) :
  (i < length dst)%nat -> copy_at (<[i := x]> dst) (i + 1) src = copy_at dst i (x :: src).
Proof.
  intros Hi. unfold copy_at. rewrite drop_insert_lt by lia.
  replace (i + 1)%nat with (S i) by lia. rewrite (take_S_r _ i x) by (by rewrite list_lookup_insert_eq).
  rewrite take_insert_ge by done. rewrite <- app_assoc. cbn [app length]. do 3 f_equal. by rewrite Nat.add_succ_r.
Qed.

Lemma copy_at_app {A} (dst : list A) i (l1 l2 : list A) :
  (i + length l1 <= length dst)%nat -> copy_at (copy_at dst i l1) (i + length l1) l2 = copy_at dst i (l1 ++ l2).
Proof.
  intros Hi. unfold copy_at at 1. rewrite copy_at_take by done. unfold copy_at. rewrite length_app, <- !app_assoc.
  do 3 f_equal. replace (i + length l1 + length l2)%nat with (length (take i dst ++ l1) + length l2)%nat
    by (rewrite length_app, length_take; lia).
  rewrite app_assoc, <- drop_drop, drop_app_length, drop_drop. f_equal. lia.
Qed.

(** ** Comparison functions as total preorders *)

(** Rust's [Ordering] is [comparison]; a comparison function is lawful when
    swapping the arguments reverses it and "not greater" is transitive. *)
Class TotalPreorderCmp {A} (cmp : A -> A -> comparison) : Prop := {
  cmp_opp : forall a b, cmp b a = CompOpp (cmp a b);
  cmp_trans : forall a b c, cmp a b <> Gt -> cmp b c <> Gt -> cmp a c <> Gt;
}.

Arguments cmp_opp {A} cmp {_} a b.
Arguments cmp_trans {A} cmp {_} a b c.

Section cmp_facts.
Context {A : Type} (cmp : A -> A -> comparison) `{!TotalPreorderCmp cmp}.

Lemma cmp_refl a : cmp a a = Eq.
Proof. pose proof (cmp_opp cmp a a). destruct (cmp a a); simpl in *; congruence. Qed.

Lemma cmp_Eq_sym a b : cmp a b = Eq -> cmp b a = Eq.
Proof. intros H. by rewrite (cmp_opp cmp a b), H. Qed.

Lemma cmp_Lt_Gt a b : cmp a b = Lt <-> cmp b a = Gt.
Proof. rewrite (cmp_opp cmp a b). destruct (cmp a b); simpl; split; congruence. Qed.

Lemma cmp_Eq_trans a b c : cmp a b = Eq -> cmp b c = Eq -> cmp a c = Eq.
Proof.
  intros H1 H2.
  assert (cmp a c <> Gt) by (apply (cmp_trans cmp a b c); congruence).
  assert (cmp c a <> Gt).
  { apply (cmp_trans cmp c b a); [rewrite (cmp_opp cmp b c), H2|rewrite (cmp_opp cmp a b), H1]; simpl; congruence. }
  rewrite (cmp_opp cmp a c) in *. destruct (cmp a c); simpl in *; congruence.
Qed.

Lemma cmp_Lt_le_trans a b c : cmp a b = Lt -> cmp b c <> Gt -> cmp a c = Lt.
Proof.
  intros H1 H2.
  assert (H3 : cmp a c <> Gt) by (apply (cmp_trans cmp a b c); congruence).
  destruct (cmp a c) eqn:E; [|done|done]. exfalso.
  assert (cmp b a <> Gt).
  { apply (cmp_trans cmp b c a); [done|]. rewrite (cmp_opp cmp a c), E. done. }
  rewrite (cmp_opp cmp a b), H1 in *. done.
Qed.

Lemma cmp_le_Lt_trans a b c : cmp a b <> Gt -> cmp b c = Lt -> cmp a c = Lt.
Proof.
  intros H1 H2.
  assert (H3 : cmp a c <> Gt) by (apply (cmp_trans cmp a b c); congruence).
  destruct (cmp a c) eqn:E; [|done|done]. exfalso.
  assert (cmp c b <> Gt).
  { apply (cmp_trans cmp c a b); [|done]. rewrite (cmp_opp cmp a c), E. done. }
  rewrite (cmp_opp cmp b c), H2 in *. done.
Qed.

Lemma cmp_Eq_l a b c : cmp a b = Eq -> cmp a c = cmp b c.
Proof.
  intros H. destruct (cmp b c) eqn:E.
  - eapply cmp_Eq_trans; eauto.
  - eapply cmp_le_Lt_trans; eauto. congruence.
  - apply cmp_Lt_Gt in E. apply cmp_Lt_Gt.
    eapply cmp_Lt_le_trans; eauto. rewrite (cmp_opp cmp a b), H. done.
Qed.
End cmp_facts.

(** Sequential composition: the second result decides when the first is [Eq]. *)
Definition cmp_then (c d : comparison) : comparison :=
  match c with Eq => d | _ => c end.

Definition cmp_pair {A B} (ca : A -> A -> comparison) (cb : B -> B -> comparison)
    (x y : A * B) : comparison :=
  cmp_then (ca x.1 y.1) (cb x.2 y.2).

Definition cmp_on {A B} (f : A -> B) (cb : B -> B -> comparison) (x y : A) : comparison :=
  cb (f x) (f y).

(** Lexicographic order of lists, the shorter prefix first ([<[T] as Ord>::cmp]). *)
Fixpoint cmp_list {A} (ca : A -> A -> comparison) (l k : list A) : comparison :=
  match l, k with
  | [], [] => Eq
  | [], _ :: _ => Lt
  | _ :: _, [] => Gt
  | a :: l, b :: k => cmp_then (ca a b) (cmp_list ca l k)
  end.

(** [inl] values before [inr] values. *)
Definition cmp_sum {A B} (ca : A -> A -> comparison) (cb : B -> B -> comparison)
    (x y : A + B) : comparison :=
  match x, y with
  | inl a, inl b => ca a b
  | inr a, inr b => cb a b
  | inl _, inr _ => Lt
  | inr _, inl _ => Gt
  end.

#[export] Instance cmp_Z : TotalPreorderCmp Z.compare.
Proof.
  split.
  - intros a b. apply Z.compare_antisym.
  - intros a b c. rewrite !Z.compare_gt_iff. lia.
Qed.

#[export] Instance cmp_on_preorder {A B} (f : A -> B) cb `{!TotalPreorderCmp cb} :
  TotalPreorderCmp (cmp_on f cb).
Proof.
  split; unfold cmp_on.
  - intros. apply (cmp_opp _).
  - intros a b c. apply (cmp_trans _).
Qed.

#[export] Instance cmp_pair_preorder {A B} ca cb
    `{!TotalPreorderCmp (A:=A) ca} `{!TotalPreorderCmp (A:=B) cb} :
  TotalPreorderCmp (cmp_pair ca cb).
Proof.
  split; unfold cmp_pair, cmp_then.
  - intros a b. rewrite (cmp_opp ca a.1 b.1), (cmp_opp cb a.2 b.2).
    by destruct (ca a.1 b.1); simpl.
  - intros a b c H1 H2.
    destruct (ca a.1 b.1) eqn:E1; [|destruct (ca b.1 c.1) eqn:E2|done].
    + rewrite (cmp_Eq_l ca a.1 b.1 c.1 E1).
      destruct (ca b.1 c.1) eqn:E2; [|done|done]. eapply (cmp_trans _); eauto.
    + rewrite (cmp_Lt_le_trans ca a.1 b.1 c.1); [done|done|congruence].
    + rewrite (cmp_Lt_le_trans ca a.1 b.1 c.1); [done|done|congruence].
    + done.
Qed.

#[export] Instance cmp_sum_preorder {A B} ca cb
    `{!TotalPreorderCmp (A:=A) ca} `{!TotalPreorderCmp (A:=B) cb} :
  TotalPreorderCmp (cmp_sum ca cb).
Proof.
  split; unfold cmp_sum.
  - intros [a|a] [b|b]; try done; apply (cmp_opp _).
  - intros [a|a] [b|b] [c|c]; try done; apply (cmp_trans _).
Qed.

#[export] Instance cmp_list_preorder {A} ca `{!TotalPreorderCmp (A:=A) ca} :
  TotalPreorderCmp (cmp_list ca).
Proof.
  split.
  - intros l. induction l as [|a l IH]; intros [|b k]; simpl; try done.
    rewrite (cmp_opp ca a b), IH. by destruct (ca a b).
  - intros l. induction l as [|a l IH]; intros [|b k] [|c m]; simpl; try done.
    intros H1 H2.
    unfold cmp_then in *.
    destruct (ca a b) eqn:E1; [|destruct (ca b c) eqn:E2|done].
    + rewrite (cmp_Eq_l ca a b c E1).
      destruct (ca b c) eqn:E2; [|done|done]. eapply IH; eauto.
    + rewrite (cmp_Lt_le_trans ca a b c); [done|done|congruence].
    + rewrite (cmp_Lt_le_trans ca a b c); [done|done|congruence].
    + done.
Qed.

Lemma cmp_list_Eq (l k : list Z) : cmp_list Z.compare l k = Eq <-> l = k.
Proof.
  revert k. induction l as [|a l IH]; intros [|b k]; simpl; try naive_solver.
  unfold cmp_then. destruct (Z.compare_spec a b); subst.
  - rewrite IH. naive_solver.
  - split; [done|]. intros [=]; lia.
  - split; [done|]. intros [=]; lia.
Qed.

(** A mask of [k] ones from bit [n] on takes out a field. *)
Lemma land_field a k n : 0 <= k -> 0 <= n -> Z.land a (Z.shiftl (Z.ones k) n) = (a / 2 ^ n) mod 2 ^ k * 2 ^ n.
Proof.
  intros Hk Hn. apply Z.bits_inj'. intros i Hi. rewrite Z.land_spec, Z.shiftl_spec by done.
  destruct (Z.ltb_spec i n) as [Hlo|Hhi].
  - rewrite (Z.testbit_neg_r (Z.ones k)), andb_false_r by lia. by rewrite Z.mul_pow2_bits_low.
  - rewrite Z.testbit_ones_nonneg, Z.mul_pow2_bits, Z.testbit_mod_pow2 by lia. rewrite Z.div_pow2_bits by lia.
    replace (i - n + n) with i by lia. by rewrite andb_comm.
Qed.

(** Arithmetic that stays in a machine word. *)
Lemma wrap32_small x : 0 <= x < 4294967296 -> wrap 32 x = x.
Proof. apply Z.mod_small. Qed.
Lemma wrap64_small x : 0 <= x < 18446744073709551616 -> wrap 64 x = x.
Proof. apply Z.mod_small. Qed.
