(* ===== verification/Strings.v ===== *)
(** * Byte-string helpers ([bun_core], [bun_alloc])

    The slice helpers that the components of the library call: comparison and
    trimming ([bun_core/string/immutable.rs], [bun_alloc/lib.rs]), splitting
    ([SplitIterator]), integer parsing ([bun_core/fmt.rs]) and WTF-8 decoding
    ([bun_core/lib.rs], [bun_core/string/immutable/unicode.rs]). *)

From S2P Require Import Prelude.

(** ** Comparison and trimming *)

Definition WHITESPACE_CHARS : list Z := [32; 9; 10; 13; 11; 12].

(** [order]: [a.cmp(b)] on [&[u8]], the lexicographic order. *)
Definition order (a b : bytes) : comparison := cmp_list Z.compare a b.

Fixpoint trim_left (s chars : list Z) : list Z :=
  match s with
  | [] => []
  | c :: s' => if memb c chars then trim_left s' chars else s
  end.

(** The loop of [trim_right]: [end] goes down while [s[end - 1]] is in [chars]. *)
Fixpoint trim_right_end (s chars : list Z) (e : nat) : nat :=
  match e with
  | O => O
  | S e' =>
      match s !! e' with
      | Some c => if memb c chars then trim_right_end s chars e' else e
      | None => e
      end
  end.

Definition trim_right (s chars : list Z) : list Z :=
  take (trim_right_end s chars (length s)) s.

Definition trim (s chars : list Z) : list Z := trim_right (trim_left s chars) chars.

Fixpoint length_of_leading_whitespace_ascii (s : list Z) : nat :=
  match s with
  | [] => O
  | c :: s' => if memb c WHITESPACE_CHARS then S (length_of_leading_whitespace_ascii s') else O
  end.

(** ** Searching and splitting *)

(** [index_of_char_usize]: the first index of [c]. *)
Fixpoint index_of_char_usize (s : list Z) (c : Z) : option nat :=
  match s with
  | [] => None
  | x :: s' => if x =? c then Some O else S <$> index_of_char_usize s' c
  end.

Record SplitIterator := mkSplitIterator {
  sp_buffer : list Z;
  sp_index : option nat;
  sp_delimiter : Z;
}.

Definition split (s : list Z) (delimiter : Z) : SplitIterator :=
  mkSplitIterator s (Some O) delimiter.

(** [SplitIterator::next] with a one-byte delimiter. *)
Definition split_next (it : SplitIterator) : option (list Z) * SplitIterator :=
  match sp_index it with
  | None => (None, it)
  | Some start =>
      match index_of_char_usize (drop start (sp_buffer it)) (sp_delimiter it) with
      | Some delim_start =>
          let del := (delim_start + start)%nat in
          (Some (take (del - start) (drop start (sp_buffer it))),
           mkSplitIterator (sp_buffer it) (Some (del + 1)%nat) (sp_delimiter it))
      | None =>
          (Some (take (length (sp_buffer it) - start) (drop start (sp_buffer it))),
           mkSplitIterator (sp_buffer it) None (sp_delimiter it))
      end
  end.

(** The fields between the delimiters, the reference for [SplitIterator]. *)
Fixpoint fields (s : list Z) (d : Z) : list (list Z) :=
  match s with
  | [] => [[]]
  | c :: s' =>
      if c =? d then [] :: fields s' d
      else match fields s' d with
           | f :: fs => (c :: f) :: fs
           | [] => [[c]]
           end
  end.

(** The fields an iterator has still to yield. *)
Definition split_rest (it : SplitIterator) : list (list Z) :=
  match sp_index it with
  | None => []
  | Some start => fields (drop start (sp_buffer it)) (sp_delimiter it)
  end.

(** ** Integer parsing *)

Variant ParseIntError := InvalidCharacter | Overflow.

Definition U128_MAX : Z := 2 ^ 128 - 1.

Definition digit_value (c : Z) : option Z :=
  if is_ascii_digit c then Some (c - 48)
  else if is_ascii_lower c then Some (c - 97 + 10)
  else if is_ascii_upper c then Some (c - 65 + 10)
  else None.

(** The digit loop of [parse_with_sign]. *)
Fixpoint parse_digits (digits : list Z) (radix acc : Z) : Z + ParseIntError :=
  match digits with
  | [] => inl acc
  | c :: digits' =>
      if c =? ch "_" then parse_digits digits' radix acc
      else match digit_value c with
           | None => inr InvalidCharacter
           | Some d =>
               if radix <=? d then inr InvalidCharacter
               else if U128_MAX <? acc * radix then inr Overflow
               else if U128_MAX <? acc * radix + d then inr Overflow
               else parse_digits digits' radix (acc * radix + d)
           end
  end.

Definition parse_with_sign (digits : list Z) (radix : Z) : Z + ParseIntError :=
  match digits, list.last digits with
  | c :: _, Some l =>
      if (c =? ch "_") || (l =? ch "_") then inr InvalidCharacter
      else parse_digits digits radix 0
  | _, _ => inr InvalidCharacter
  end.

Definition auto_radix (digits : list Z) (radix : Z) : list Z * Z :=
  if negb (radix =? 0) then (digits, radix)
  else match digits with
       | 48 :: c :: rest =>
           if (c =? ch "x") || (c =? ch "X") then (rest, 16)
           else if (c =? ch "o") || (c =? ch "O") then (rest, 8)
           else if (c =? ch "b") || (c =? ch "B") then (rest, 2)
           else (digits, 10)
       | _ => (digits, 10)
       end.

Definition I128_MAX : Z := 2 ^ 127 - 1.

(** [parse_int::<T>], [T::MIN] and [T::MAX] given. *)
Definition parse_int (min max : Z) (buf : list Z) (radix : Z) : Z + ParseIntError :=
  match buf with
  | [] => inr InvalidCharacter
  | c :: buf' =>
      let '(neg, rest) := if c =? ch "+" then (false, buf') else if c =? ch "-" then (true, buf') else (false, buf) in
      let '(digits, radix) := auto_radix rest radix in
      match parse_with_sign digits radix with
      | inr e => inr e
      | inl acc =>
          if neg then
            if negb (acc =? I128_MAX + 1) && (I128_MAX <? acc) then inr Overflow
            else if (min <=? - acc) && (- acc <=? max) then inl (- acc) else inr Overflow
          else if (min <=? acc) && (acc <=? max) then inl acc else inr Overflow
      end
  end.

(** [parse_unsigned::<T>], [T::MAX] given. *)
Definition parse_unsigned (max : Z) (buf : list Z) (radix : Z) : Z + ParseIntError :=
  let '(digits, radix) := auto_radix buf radix in
  match parse_with_sign digits radix with
  | inr e => inr e
  | inl acc => if acc <=? max then inl acc else inr Overflow
  end.

(** ** WTF-8 *)

Definition wtf8_byte_sequence_length (first_byte : Z) : Z :=
  if first_byte <=? 127 then 1
  else if (192 <=? first_byte) && (first_byte <=? 223) then 2
  else if (224 <=? first_byte) && (first_byte <=? 239) then 3
  else if (240 <=? first_byte) && (first_byte <=? 247) then 4
  else 1.

(** [decode_wtf8_rune_t_multibyte::<u32>] on the four bytes [p0..p3]. *)
Definition decode_wtf8_rune_t_multibyte (p0 p1 p2 p3 : Z) (len zero : Z) : Z :=
  if negb (Z.land p1 192 =? 128) then zero
  else if len =? 2 then
    let cp := Z.lor (Z.shiftl (Z.land p0 31) 6) (Z.land p1 63) in
    if cp <? 128 then zero else cp
  else if negb (Z.land p2 192 =? 128) then zero
  else if len =? 3 then
    let cp := Z.lor (Z.lor (Z.shiftl (Z.land p0 15) 12) (Z.shiftl (Z.land p1 63) 6))
                    (Z.land p2 63) in
    if cp <? 2048 then zero else cp
  else if negb (Z.land p3 192 =? 128) then zero
  else
    let cp := Z.lor (Z.lor (Z.lor (Z.shiftl (Z.land p0 7) 18) (Z.shiftl (Z.land p1 63) 12))
                           (Z.shiftl (Z.land p2 63) 6))
                    (Z.land p3 63) in
    if (cp <? 65536) || (1114111 <? cp) then zero else cp.

Definition decode_wtf8_rune_t (p0 p1 p2 p3 : Z) (len zero : Z) : Z :=
  if len =? 0 then zero
  else if len =? 1 then p0
  else decode_wtf8_rune_t_multibyte p0 p1 p2 p3 len zero.

(** [codepoint_size] *)
Definition codepoint_size (r : Z) : Z :=
  if r <=? 127 then 1
  else if r <=? 2047 then 2
  else if r <=? 65535 then 3
  else if r <=? 1114111 then 4
  else 0.

(** [wtf8_sequence], the encoder of one code point: four bytes, zero-padded. *)
Definition wtf8_sequence (code_point : Z) : Z * Z * Z * Z :=
  if code_point <=? 127 then (code_point, 0, 0, 0)
  else if code_point <=? 2047 then
    (Z.lor 192 (Z.shiftr code_point 6), Z.lor 128 (Z.land code_point 63), 0, 0)
  else if code_point <=? 65535 then
    (Z.lor 224 (Z.shiftr code_point 12),
     Z.lor 128 (Z.land (Z.shiftr code_point 6) 63),
     Z.lor 128 (Z.land code_point 63), 0)
  else
    (wrap 8 (Z.lor 240 (Z.shiftr code_point 18)),
     Z.lor 128 (Z.land (Z.shiftr code_point 12) 63),
     Z.lor 128 (Z.land (Z.shiftr code_point 6) 63),
     Z.lor 128 (Z.land code_point 63)).

(** [is_sep_native]; the flag is [cfg!(windows)]. *)
Definition is_sep_native (windows : bool) (c : Z) : bool :=
  (c =? ch "/") || (windows && (c =? ch "\")).

(** ** Lemmas *)

#[export] Instance order_preorder : TotalPreorderCmp order.
Proof. apply cmp_list_preorder, _. Qed.

Lemma order_Eq (a b : bytes) : order a b = Eq <-> a = b.
Proof. apply cmp_list_Eq. Qed.

Lemma memb_spec (c : Z) (l : list Z) : memb c l = true <-> c ∈ l.
Proof.
  unfold memb. rewrite existsb_exists, list_elem_of_In. split.
  - intros (x & Hx & E). apply Z.eqb_eq in E. by subst.
  - intros H. exists c. by rewrite Z.eqb_refl.
Qed.

Lemma index_of_char_usize_Some (s : list Z) c i :
  index_of_char_usize s c = Some i <-> s !! i = Some c /\ forall j, (j < i)%nat -> s !! j <> Some c.
Proof.
  revert i. induction s as [|x s IH]; intros i; simpl.
  { split; [done|]. by intros [? _]. }
  destruct (Z.eqb_spec x c) as [->|Hne].
  - split.
    + intros [= <-]. split; [done|]. lia.
    + intros [_ H]. destruct i; [done|]. exfalso. apply (H O); [lia|done].
  - destruct i as [|i]; simpl.
    + split; [|naive_solver]. destruct (index_of_char_usize s c); naive_solver.
    + specialize (IH i). destruct (index_of_char_usize s c) as [k|] eqn:E; simpl.
      * split.
        -- intros [= ->]. destruct (proj1 IH eq_refl) as [H1 H2]. split; [done|]. intros [|j] Hj; simpl; [congruence|]. apply H2. lia.
        -- intros [H1 H2]. enough (Some k = Some i) by congruence. apply IH.
           split; [done|]. intros j Hj. apply (H2 (S j)). lia.
      * split; [done|]. intros [H1 H2]. enough (None = Some i) by congruence. apply IH.
        split; [done|]. intros j Hj. apply (H2 (S j)). lia.
Qed.

(** *** Splitting *)

Lemma fields_not_nil (s : list Z) d : fields s d <> [].
Proof. destruct s as [|c s]; simpl; [done|]. destruct (c =? d); [done|]. by destruct (fields s d). Qed.

Lemma fields_index_None (s : list Z) d : index_of_char_usize s d = None -> fields s d = [s].
Proof.
  induction s as [|c s IH]; simpl; [done|].
  destruct (c =? d); [done|]. destruct (index_of_char_usize s d); simpl; [done|].
  intros _. by rewrite IH.
Qed.

Lemma fields_index_Some (s : list Z) d i :
  index_of_char_usize s d = Some i -> fields s d = take i s :: fields (drop (S i) s) d.
Proof.
  revert i. induction s as [|c s IH]; intros i; simpl; [done|].
  destruct (c =? d); [by intros [= <-]|].
  destruct (index_of_char_usize s d) as [k|]; simpl; [|done]. intros [= <-].
  by rewrite (IH k).
Qed.

(** One call of [next] yields the next field and leaves an iterator that yields the
    remaining ones; it yields [None] exactly when no field is left. *)
Theorem split_next_fields (it : SplitIterator) :
  match split_rest it with
  | [] => (split_next it).1 = None
  | f :: fs => (split_next it).1 = Some f /\ split_rest (split_next it).2 = fs
  end.
Proof.
  destruct it as [buf [start|] d]; unfold split_rest, split_next; simpl; [|done].
  destruct (index_of_char_usize (drop start buf) d) as [i|] eqn:E.
  - rewrite (fields_index_Some _ _ _ E). cbn [fst snd sp_index sp_buffer sp_delimiter].
    split; [f_equal; f_equal; lia|]. f_equal. rewrite drop_drop. f_equal. lia.
  - rewrite (fields_index_None _ _ E). cbn. split; [|done].
    f_equal. apply firstn_all2. rewrite length_skipn. lia.
Qed.

(** *** Decimal numbers *)

Definition all_digits (s : list Z) : Prop := Forall (fun c => is_ascii_digit c = true) s.

(** The number a digit string denotes, read from the accumulator [acc]. *)
Fixpoint dec_value (acc : Z) (s : list Z) : Z :=
  match s with
  | [] => acc
  | c :: s' => dec_value (acc * 10 + (c - 48)) s'
  end.

Lemma is_ascii_digit_spec c : is_ascii_digit c = true <-> 48 <= c <= 57.
Proof. unfold is_ascii_digit. rewrite andb_true_iff, !Z.leb_le. done. Qed.

Lemma dec_value_ge (s : list Z) acc : 0 <= acc -> all_digits s -> acc <= dec_value acc s.
Proof.
  intros Hacc Hs. revert acc Hacc.
  induction Hs as [|c s Hc Hs IH]; intros acc Hacc; simpl; [lia|].
  apply is_ascii_digit_spec in Hc. etrans; [|apply IH]; lia.
Qed.

Lemma parse_digits_decimal (s : list Z) acc :
  0 <= acc -> all_digits s ->
  parse_digits s 10 acc =
    if dec_value acc s <=? U128_MAX then inl (dec_value acc s)
    else if (acc <=? U128_MAX) then inr Overflow else parse_digits s 10 acc.
Proof.
  intros Hacc Hs. revert acc Hacc. induction Hs as [|c s Hc Hs IH]; intros acc Hacc; simpl.
  - by destruct (acc <=? U128_MAX).
  - pose proof Hc as Hc'. apply is_ascii_digit_spec in Hc'.
    replace (c =? 95) with false by (symmetry; apply Z.eqb_neq; lia).
    unfold digit_value. rewrite Hc.
    replace (10 <=? c - 48) with false by (symmetry; apply Z.leb_gt; lia).
    pose proof (dec_value_ge s (acc * 10 + (c - 48)) ltac:(lia) Hs) as Hge.
    destruct (Z.ltb_spec U128_MAX (acc * 10)).
    { destruct (Z.leb_spec (dec_value (acc * 10 + (c - 48)) s) U128_MAX); [lia|].
      by destruct (acc <=? U128_MAX). }
    destruct (Z.ltb_spec U128_MAX (acc * 10 + (c - 48))).
    { destruct (Z.leb_spec (dec_value (acc * 10 + (c - 48)) s) U128_MAX); [lia|].
      by destruct (acc <=? U128_MAX). }
    rewrite IH by lia. destruct (dec_value _ s <=? U128_MAX) eqn:E; [done|].
    rewrite (proj2 (Z.leb_le (acc * 10 + (c - 48)) U128_MAX)) by lia.
    by rewrite (proj2 (Z.leb_le acc U128_MAX)) by lia.
Qed.

(** A non-empty digit string parses to its value, or overflows. *)
Lemma parse_unsigned_digits max (s : list Z) :
  0 <= max <= U128_MAX -> s <> [] -> all_digits s ->
  parse_unsigned max s 10 = if dec_value 0 s <=? max then inl (dec_value 0 s) else inr Overflow.
Proof.
  intros Hmax Hne Hs. unfold parse_unsigned, auto_radix, parse_with_sign. simpl.
  destruct s as [|c s]; [done|].
  destruct (list.last (c :: s)) as [l|] eqn:El.
  2:{ apply last_None in El. done. }
  assert (Hl : is_ascii_digit l = true).
  { rewrite last_lookup in El. eapply (proj1 (Forall_lookup _ _)) in El; [exact El|done]. }
  assert (Hc : is_ascii_digit c = true) by (by inversion Hs).
  apply is_ascii_digit_spec in Hc, Hl.
  rewrite (proj2 (Z.eqb_neq c 95)), (proj2 (Z.eqb_neq l 95)) by lia. simpl orb.
  rewrite parse_digits_decimal by (done || lia).
  destruct (Z.leb_spec (dec_value 0 (c :: s)) U128_MAX); [done|].
  destruct (Z.leb_spec (dec_value 0 (c :: s)) max); [lia|]. reflexivity.
Qed.

(** [Display] of an unsigned integer: its decimal digits, no leading zero. *)
Fixpoint fmt_digits (fuel : nat) (n : Z) (acc : list Z) : list Z :=
  match fuel with
  | O => acc
  | S fuel =>
      let acc := (48 + n mod 10) :: acc in
      if n <? 10 then acc else fmt_digits fuel (n / 10) acc
  end.

(** Forty digits are enough for every value up to [u128::MAX]. *)
Definition fmt_uint (n : Z) : list Z := fmt_digits 40 n [].

Lemma fmt_digits_spec fuel n (acc : list Z) :
  0 <= n < 10 ^ Z.of_nat fuel -> (0 < fuel)%nat ->
  exists ds, fmt_digits fuel n acc = ds ++ acc /\ ds <> [] /\ all_digits ds /\ (length ds <= fuel)%nat /\
    dec_value 0 ds = n.
Proof.
  assert (Happ : forall a ds b, dec_value a (ds ++ [b]) = dec_value a ds * 10 + (b - 48)).
  { intros a ds. revert a. induction ds; intros; simpl; [done|]. apply IHds. }
  revert n acc. induction fuel as [|fuel IH]; intros n acc Hn Hf; [lia|]. simpl.
  assert (0 <= n mod 10 < 10) by (apply Z.mod_pos_bound; lia).
  assert (is_ascii_digit (48 + n mod 10) = true) by (apply is_ascii_digit_spec; lia).
  destruct (Z.ltb_spec n 10).
  - exists [48 + n mod 10]. split; [done|]. split; [done|].
    split; [by constructor|]. split; [simpl; lia|]. simpl. rewrite Z.mod_small by lia. lia.
  - rewrite Nat2Z.inj_succ, Z.pow_succ_r in Hn by lia.
    destruct (IH (n / 10) ((48 + n mod 10) :: acc)) as (ds & E & ? & ? & ? & Hv).
    { split; [apply Z.div_pos; lia|]. apply Z.div_lt_upper_bound; lia. }
    { destruct fuel; [simpl in Hn; lia|lia]. }
    exists (ds ++ [48 + n mod 10]). rewrite E, <- app_assoc. split; [done|].
    split; [by destruct ds|]. split; [apply Forall_app; split; [done|by constructor]|].
    split; [rewrite length_app; simpl; lia|]. rewrite Happ, Hv.
    pose proof (Z.div_mod n 10). lia.
Qed.

Lemma fmt_uint_spec n : 0 <= n <= U128_MAX ->
  fmt_uint n <> [] /\ all_digits (fmt_uint n) /\ dec_value 0 (fmt_uint n) = n.
Proof.
  intros Hn. destruct (fmt_digits_spec 40 n []) as (ds & E & ? & ? & ? & ?).
  - split; [lia|]. apply Z.le_lt_trans with U128_MAX; [lia|]. by vm_compute.
  - lia.
  - unfold fmt_uint. rewrite E, app_nil_r. done.
Qed.

Lemma fmt_uint_length n k : (0 < k <= 40)%nat -> 0 <= n < 10 ^ Z.of_nat k -> (length (fmt_uint n) <= k)%nat.
Proof.
  intros Hk Hn. assert (Hmono : forall f1 f2 m acc, (f1 <= f2)%nat -> 0 <= m < 10 ^ Z.of_nat f1 -> (0 < f1)%nat ->
    fmt_digits f1 m acc = fmt_digits f2 m acc).
  { induction f1 as [|f1 IH]; intros f2 m acc Hf Hm H0; [lia|]. destruct f2 as [|f2]; [lia|]. simpl.
    destruct (Z.ltb_spec m 10); [done|]. rewrite Nat2Z.inj_succ, Z.pow_succ_r in Hm by lia.
    apply IH; [lia| |destruct f1; [simpl in Hm; lia|lia]].
    split; [apply Z.div_pos; lia|]. apply Z.div_lt_upper_bound; lia. }
  unfold fmt_uint. rewrite <- (Hmono k) by lia.
  destruct (fmt_digits_spec k n []) as (ds & -> & ? & ? & ? & ?); [lia..|].
  by rewrite app_nil_r.
Qed.

Lemma parse_int_digits min max s :
  min <= 0 -> 0 <= max <= U128_MAX -> s <> [] -> all_digits s ->
  parse_int min max s 10 = if dec_value 0 s <=? max then inl (dec_value 0 s) else inr Overflow.
Proof.
  intros Hmin Hmax Hne Hs. rewrite <- parse_unsigned_digits by done. unfold parse_int, parse_unsigned.
  pose proof (parse_unsigned_digits max s Hmax Hne Hs) as H. unfold parse_unsigned in H.
  pose proof (dec_value_ge s 0 ltac:(lia) Hs) as Hv.
  destruct s as [|c s]; [done|]. apply list.Forall_cons in Hs as Hc. destruct Hc as [Hc _]. apply is_ascii_digit_spec in Hc.
  rewrite (proj2 (Z.eqb_neq c (ch "+"))), (proj2 (Z.eqb_neq c (ch "-"))) by (cbn; lia).
  destruct (auto_radix (c :: s) 10) as [digits r]. destruct (parse_with_sign digits r) as [acc|e]; [|done].
  destruct (Z.leb_spec acc max); [|by rewrite andb_false_r]. rewrite andb_true_r.
  rewrite (proj2 (Z.leb_le min acc)); [done|]. destruct (_ <=? max) in H; [|done]. assert (acc = dec_value 0 (c :: s)) by congruence. lia.
Qed.

Lemma parse_int_range min max s radix v : parse_int min max s radix = inl v -> min <= v <= max.
Proof.
  unfold parse_int. destruct s as [|c s]; [done|].
  destruct (if c =? ch "+" then _ else _) as [neg rest]. destruct (auto_radix rest radix) as [digits r].
  destruct (parse_with_sign digits r) as [acc|]; [|done].
  destruct neg; repeat match goal with |- context [if ?x then _ else _] => destruct x eqn:? end; intros; simplify_eq; lia.
Qed.

(** *** The language of [parse_unsigned] *)

(** The digits of [s] in base [radix], underscores skipped. *)
Definition radix_digit (radix c : Z) : option Z :=
  match digit_value c with
  | Some d => if d <? radix then Some d else None
  | None => None
  end.

Definition radix_digits (radix : Z) (s : list Z) : option (list Z) :=
  mapM (radix_digit radix) (filter (fun c => c <> ch "_") s).

Definition radix_value (radix acc : Z) (ds : list Z) : Z := fold_left (fun a d => a * radix + d) ds acc.

(** The number [s] denotes: a non-empty digit string that neither starts nor ends with an
    underscore. *)
Definition numeral (radix : Z) (s : list Z) : option Z :=
  if bool_decide (s = []) || bool_decide (s !! 0%nat = Some (ch "_")) || bool_decide (list.last s = Some (ch "_"))
  then None else radix_value radix 0 <$> radix_digits radix s.

Lemma digit_value_bounds c d : digit_value c = Some d -> 0 <= d < 36.
Proof.
  unfold digit_value, is_ascii_digit, is_ascii_lower, is_ascii_upper.
  repeat match goal with |- context [?a <=? ?b] => destruct (Z.leb_spec a b); cbn [andb] end; intros [= <-]; lia.
Qed.

Lemma radix_value_ge radix ds acc :
  1 <= radix -> 0 <= acc -> Forall (fun d => 0 <= d) ds -> acc <= radix_value radix acc ds.
Proof.
  intros Hr Hacc Hds. revert acc Hacc. induction Hds as [|d ds Hd Hds IH]; intros acc Hacc; [done|].
  unfold radix_value in *. cbn. etrans; [|apply IH]; nia.
Qed.

Lemma radix_digits_nonneg radix s ds : radix_digits radix s = Some ds -> Forall (fun d => 0 <= d) ds.
Proof.
  unfold radix_digits. intros H. apply mapM_Some in H. eapply Forall2_Forall_r; [exact H|].
  apply list.Forall_forall. intros c _ d. unfold radix_digit. destruct (digit_value c) eqn:E; [|done].
  apply digit_value_bounds in E. destruct (_ <? _); [|done]. intros [= <-]. lia.
Qed.

Lemma radix_digits_cons radix c s :
  radix_digits radix (c :: s) =
    if c =? ch "_" then radix_digits radix s
    else d ← radix_digit radix c; ds ← radix_digits radix s; Some (d :: ds).
Proof.
  unfold radix_digits. rewrite filter_cons. destruct (Z.eqb_spec c (ch "_")) as [->|Hc].
  - by rewrite decide_False by (intros H; by apply H).
  - by rewrite decide_True by done.
Qed.

Lemma parse_digits_accepts radix s acc v :
  1 <= radix -> 0 <= acc <= U128_MAX ->
  parse_digits s radix acc = inl v <->
  exists ds, radix_digits radix s = Some ds /\ v = radix_value radix acc ds /\ v <= U128_MAX.
Proof.
  intros Hr. revert acc. induction s as [|c s IH]; intros acc Hacc.
  { cbn. split; [intros [= <-]; exists []; cbn; split_and!; (done || lia)|]. intros (ds & [= <-] & -> & _). done. }
  rewrite radix_digits_cons. cbn [parse_digits]. destruct (Z.eqb_spec c (ch "_")) as [->|Hc]; [by apply IH|].
  unfold radix_digit at 1. destruct (digit_value c) as [d|] eqn:Ed; [|split; [done|intros (? & Hds & _); discriminate Hds]].
  apply digit_value_bounds in Ed. destruct (Z.leb_spec radix d), (Z.ltb_spec d radix); try lia; cbn [mbind option_bind].
  { split; [done|intros (? & Hds & _); discriminate Hds]. }
  assert (Hbig : U128_MAX < acc * radix + d ->
    ~ exists ds, (ds ← radix_digits radix s; Some (d :: ds)) = Some ds /\ v = radix_value radix acc ds /\ v <= U128_MAX).
  { intros Hlt (ds & Hds & -> & Hle). destruct (radix_digits radix s) as [ds'|] eqn:E; [|done]. injection Hds as <-.
    apply radix_digits_nonneg in E. pose proof (radix_value_ge radix ds' (acc * radix + d) Hr ltac:(nia) E).
    unfold radix_value in *. cbn [fold_left] in Hle. lia. }
  destruct (Z.ltb_spec U128_MAX (acc * radix)) as [Ho|Ho]; [split; [done|intros Hx; exfalso; apply Hbig; [lia|exact Hx]]|].
  destruct (Z.ltb_spec U128_MAX (acc * radix + d)) as [Ho'|Ho']; [split; [done|intros Hx; by exfalso; apply Hbig]|].
  rewrite IH by nia. split.
  - intros (ds & -> & -> & Hle). by exists (d :: ds).
  - intros (ds & Hds & -> & Hle). destruct (radix_digits radix s) as [ds'|]; [|done]. injection Hds as <-. by exists ds'.
Qed.

(** [parse_unsigned] in a given base returns a number exactly for the texts
    that denote it (digits of the base, inner underscores skipped) and only up to the maximum of
    the integer type; every other text is an error. *)
Theorem parse_unsigned_accepts (max radix : Z) (s : list Z) (v : Z) :
  0 <= max <= U128_MAX -> 2 <= radix <= 36 ->
  parse_unsigned max s radix = inl v <-> numeral radix s = Some v /\ v <= max.
Proof.
  intros Hmax Hr. unfold parse_unsigned, auto_radix, numeral, parse_with_sign.
  rewrite (proj2 (Z.eqb_neq radix 0)) by lia. cbn [negb].
  destruct s as [|c s]; [cbn; naive_solver|]. rewrite (bool_decide_eq_false_2 (c :: s = [])) by done. cbn [orb lookup list_lookup].
  destruct (list.last (c :: s)) as [l|] eqn:El; [|by apply last_None in El].
  destruct (Z.eqb_spec c (ch "_")) as [->|Hc]; [rewrite bool_decide_eq_true_2 by done; cbn; naive_solver|].
  rewrite bool_decide_eq_false_2 by congruence. cbn [orb].
  destruct (Z.eqb_spec l (ch "_")) as [->|Hl]; [rewrite bool_decide_eq_true_2 by done; cbn; naive_solver|].
  rewrite bool_decide_eq_false_2 by congruence.
  pose proof (fun v => parse_digits_accepts radix (c :: s) 0 v ltac:(lia) ltac:(lia)) as Hp.
  destruct (parse_digits (c :: s) radix 0) as [v'|e].
  - destruct (proj1 (Hp v') eq_refl) as (ds & -> & Hv & Hle). cbn. rewrite <- Hv.
    destruct (Z.leb_spec v' max); split; [by intros [= <-]|intros [[= <-] _]; done|done|intros [[= <-] ?]; lia].
  - split; [done|]. intros [Hn Hle]. destruct (radix_digits radix (c :: s)) as [ds|]; [|done]. cbn in Hn. injection Hn as Hn.
    discriminate (proj2 (Hp v)). exists ds. split_and!; [done|done|lia].
Qed.

Lemma parse_unsigned_accepts_witness :
  parse_unsigned 255 (str "1_9") 10 = inl 19 /\ parse_unsigned 255 (str "f0") 16 = inl 240.
Proof.
  split; [apply (parse_unsigned_accepts 255 10 (str "1_9") 19)|apply (parse_unsigned_accepts 255 16 (str "f0") 240)];
    (split; [reflexivity|lia]) || (unfold U128_MAX; lia).
Defined.

(** *** WTF-8 *)

Lemma continuation_byte x :
  0 <= x < 64 ->
  Z.lor 128 x = 128 + x /\ Z.land (128 + x) 192 = 128 /\ Z.land (128 + x) 63 = x.
Proof.
  intros Hx. split; [by apply (lor_high_add _ _ 6 2)|].
  assert (forall y, Z.land y 192 = y mod 256 - y mod 64) as ->.
  { intros y. change 256 with (2 ^ 8). change 64 with (2 ^ 6). rewrite <- (land_ones_mod y 255 8), <- (land_ones_mod y 63 6) by done.
    replace (Z.land y 63) with (Z.land (Z.land y 255) 63) by (by rewrite <- Z.land_assoc).
    assert (Z.land y 192 = Z.ldiff (Z.land y 255) 63) as ->.
    { change 192 with (Z.ldiff 255 63). apply Z.bits_inj'. intros i Hi.
      rewrite !Z.land_spec, !Z.ldiff_spec, !Z.land_spec. by rewrite andb_assoc. }
    set (w := Z.land y 255). rewrite Z.sub_nocarry_ldiff.
    - apply Z.bits_inj'. intros i Hi. rewrite !Z.ldiff_spec, Z.land_spec.
      by destruct (Z.testbit w i), (Z.testbit 63 i).
    - apply Z.bits_inj'. intros i Hi. rewrite !Z.ldiff_spec, Z.land_spec, Z.bits_0.
      by destruct (Z.testbit w i), (Z.testbit 63 i). }
  rewrite (land_ones_mod _ 63 6) by done. change (2 ^ 6) with 64.
  Z.div_mod_to_equations. lia.
Qed.

(** The sequence of [cp] decodes to [cp]. *)
Definition sequence_decodes (cp zero : Z) : Prop :=
  let '(p0, p1, p2, p3) := wtf8_sequence cp in
  wtf8_byte_sequence_length p0 = codepoint_size cp /\
  decode_wtf8_rune_t p0 p1 p2 p3 (wtf8_byte_sequence_length p0) zero = cp.

(** Unfolds the encoder, with its shifts and masks as divisions. *)
Ltac wtf8_encode cp :=
  unfold sequence_decodes, wtf8_sequence, codepoint_size;
  rewrite !(land_ones_mod _ 63 6), !Z.shiftr_div_pow2 by done;
  change (2 ^ 6) with 64; change (2 ^ 12) with 4096; change (2 ^ 18) with 262144;
  pose proof (Z.mod_pos_bound cp 64 eq_refl);
  destruct (continuation_byte _ (Z.mod_pos_bound cp 64 eq_refl)) as (-> & L0 & M0);
  pose proof (Z.mod_pos_bound (cp / 64) 64 eq_refl);
  destruct (continuation_byte _ (Z.mod_pos_bound (cp / 64) 64 eq_refl)) as (-> & L1 & M1);
  pose proof (Z.mod_pos_bound (cp / 4096) 64 eq_refl);
  destruct (continuation_byte _ (Z.mod_pos_bound (cp / 4096) 64 eq_refl)) as (-> & L2 & M2);
  destruct (Z.leb_spec cp 127); [|destruct (Z.leb_spec cp 2047); [|destruct (Z.leb_spec cp 65535)]]; try lia.

Lemma sequence_decodes_one cp zero : 0 <= cp <= 127 -> sequence_decodes cp zero.
Proof.
  intros Hcp. wtf8_encode cp.
  unfold wtf8_byte_sequence_length, decode_wtf8_rune_t. by rewrite (proj2 (Z.leb_le _ _)).
Qed.

Lemma sequence_decodes_two cp zero : 127 < cp <= 2047 -> sequence_decodes cp zero.
Proof.
  intros Hcp. wtf8_encode cp.
  assert (0 <= cp / 64 < 2 ^ 5) by (change (2 ^ 5) with 32; Z.div_mod_to_equations; lia).
  rewrite (lor_high_add 192 (cp / 64) 5 6) by done.
  unfold wtf8_byte_sequence_length, decode_wtf8_rune_t, decode_wtf8_rune_t_multibyte.
  rewrite L0, M0, (land_ones_mod _ 31 5) by done. change (2 ^ 5) with 32 in *.
  rewrite (proj2 (Z.leb_gt (192 + cp / 64) 127)), (proj2 (Z.leb_le 192 _)), (proj2 (Z.leb_le _ 223)) by lia.
  simpl. rewrite lor_shiftl_add by (done || lia). change (2 ^ 6) with 64.
  split; [done|]. replace ((192 + cp / 64) mod 32 * 64 + cp mod 64) with cp by (Z.div_mod_to_equations; lia).
  by rewrite (proj2 (Z.ltb_ge _ _)) by lia.
Qed.

Lemma sequence_decodes_three cp zero : 2047 < cp <= 65535 -> sequence_decodes cp zero.
Proof.
  intros Hcp. wtf8_encode cp.
  assert (0 <= cp / 4096 < 2 ^ 4) by (change (2 ^ 4) with 16; Z.div_mod_to_equations; lia).
  rewrite (lor_high_add 224 (cp / 4096) 4 14) by done.
  unfold wtf8_byte_sequence_length, decode_wtf8_rune_t, decode_wtf8_rune_t_multibyte.
  rewrite L0, M0, L1, M1, (land_ones_mod _ 15 4) by done. change (2 ^ 4) with 16 in *.
  rewrite (proj2 (Z.leb_gt (224 + cp / 4096) 127)), (proj2 (Z.leb_gt (224 + cp / 4096) 223)),
    (proj2 (Z.leb_le 224 _)), (proj2 (Z.leb_le _ 239)), andb_false_r by lia.
  simpl. rewrite <- Z.lor_assoc, (lor_shiftl_add _ _ 6), lor_shiftl_add by (done || lia).
  change (2 ^ 6) with 64; change (2 ^ 12) with 4096. split; [done|].
  replace ((224 + cp / 4096) mod 16 * 4096 + (cp / 64 mod 64 * 64 + cp mod 64)) with cp
    by (Z.div_mod_to_equations; lia).
  by rewrite (proj2 (Z.ltb_ge _ _)) by lia.
Qed.

Lemma sequence_decodes_four cp zero : 65535 < cp <= 1114111 -> sequence_decodes cp zero.
Proof.
  intros Hcp. wtf8_encode cp.
  assert (0 <= cp / 262144 < 2 ^ 3) by (change (2 ^ 3) with 8; Z.div_mod_to_equations; lia).
  rewrite (lor_high_add 240 (cp / 262144) 3 30) by done. unfold wrap.
  rewrite (Z.mod_small (240 + cp / 262144)) by lia. change (2 ^ 3) with 8 in *.
  unfold wtf8_byte_sequence_length, decode_wtf8_rune_t, decode_wtf8_rune_t_multibyte.
  rewrite L0, M0, L1, M1, L2, M2, (land_ones_mod _ 7 3) by done. change (2 ^ 3) with 8 in *.
  rewrite (proj2 (Z.leb_gt (240 + cp / 262144) 127)), (proj2 (Z.leb_gt (240 + cp / 262144) 223)),
    (proj2 (Z.leb_gt (240 + cp / 262144) 239)),
    (proj2 (Z.leb_le 240 _)), (proj2 (Z.leb_le _ 247)), !andb_false_r by lia.
  rewrite (proj2 (Z.leb_le cp 1114111)) by lia.
  simpl. rewrite <- !Z.lor_assoc, (lor_shiftl_add _ (cp mod 64) 6), (lor_shiftl_add _ _ 12), lor_shiftl_add
    by (done || lia).
  change (2 ^ 6) with 64; change (2 ^ 12) with 4096; change (2 ^ 18) with 262144. split; [done|].
  replace ((240 + cp / 262144) mod 8 * 262144 + (cp / 4096 mod 64 * 4096 + (cp / 64 mod 64 * 64 + cp mod 64)))
    with cp by (Z.div_mod_to_equations; lia).
  rewrite (proj2 (Z.ltb_ge cp 65536)), (proj2 (Z.ltb_ge 1114111 cp)) by lia. done.
Qed.

(** Encoding any code point, surrogates included, as a WTF-8 sequence and decoding it
    gives the code point back, and the length read off the first byte is the encoded length. *)
Theorem wtf8_sequence_decode cp zero :
  0 <= cp <= 1114111 ->
  let '(p0, p1, p2, p3) := wtf8_sequence cp in
  wtf8_byte_sequence_length p0 = codepoint_size cp /\
  decode_wtf8_rune_t p0 p1 p2 p3 (wtf8_byte_sequence_length p0) zero = cp.
Proof.
  intros Hcp. change (sequence_decodes cp zero).
  destruct (decide (cp <= 127)); [apply sequence_decodes_one; lia|].
  destruct (decide (cp <= 2047)); [apply sequence_decodes_two; lia|].
  destruct (decide (cp <= 65535)); [apply sequence_decodes_three; lia|apply sequence_decodes_four; lia].
Qed.

Lemma wtf8_sequence_decode_witness :
  wtf8_byte_sequence_length 226 = codepoint_size 8364 /\
  decode_wtf8_rune_t 226 130 172 0 (wtf8_byte_sequence_length 226) 0 = 8364.
Proof. exact (wtf8_sequence_decode 8364 0 ltac:(lia)). Defined.
