(* ===== verification/BitSet.v ===== *)
(** * Integer bit sets ([collections/bit_set.rs])

    [IntegerBitSet<SIZE>], a set of indices below [SIZE <= 64] in one [usize], with its
    iterator.  The abstract specification is a [gset nat]; every operation is proved to
    compute the corresponding set operation. *)

From S2P Require Import Prelude.
From stdpp Require Import sets gmap fin_sets.
From Stdlib Require Import Sorted.

Local Open Scope Z_scope.

(** ** [usize] bit operations of the standard library *)

(** [!x] *)
Definition unot (x : Z) : Z := Z.lxor x (Z.ones 64).

(** The set bits of a word, in ascending order. *)
Definition word_bits (x : Z) : list nat := List.filter (fun i => Z.testbit x (Z.of_nat i)) (seq 0 64).

Definition trailing_zeros (x : Z) : nat := default 64%nat (head (word_bits x)).
Definition leading_zeros (x : Z) : nat :=
  match list.last (word_bits x) with Some i => (63 - i)%nat | None => 64%nat end.
Definition count_ones (x : Z) : nat := length (word_bits x).

(** [x << n] and [x >> n]: the shift amount is taken modulo the width in release builds. *)
Definition ushl (x : Z) (n : nat) : Z := wrap 64 (Z.shiftl x (Z.of_nat n mod 64)).
Definition ushr (x : Z) (n : nat) : Z := Z.shiftr x (Z.of_nat n mod 64).

Definition bool_mask_usize (b : bool) : Z := if b then U64_MAX else 0.

(** ** The type and its operations *)

Record IntegerBitSet := mkBitSet { mask : Z }.

#[export] Instance IntegerBitSet_eq_dec : EqDecision IntegerBitSet.
Proof. solve_decision. Defined.

Section operations.
Context (SIZE : nat).

Definition FULL_MASK : Z := if (64 <=? SIZE)%nat then U64_MAX else ushl 1 SIZE - 1.

Definition mask_bit (index : nat) : Z := if (SIZE =? 0)%nat then 0 else ushl 1 index.

Definition init_empty : IntegerBitSet := mkBitSet 0.
Definition init_full : IntegerBitSet := mkBitSet FULL_MASK.
Definition capacity (s : IntegerBitSet) : nat := SIZE.

Definition is_set (s : IntegerBitSet) (index : nat) : bool :=
  negb (Z.land (mask s) (mask_bit index) =? 0).

Definition count (s : IntegerBitSet) : nat := count_ones (mask s).

Definition set_value (s : IntegerBitSet) (index : nat) (value : bool) : IntegerBitSet :=
  if (SIZE =? 0)%nat then s
  else
    let bit := mask_bit index in
    let new_bit := Z.land bit (bool_mask_usize value) in
    mkBitSet (Z.lor (Z.land (mask s) (unot bit)) new_bit).

Definition set (s : IntegerBitSet) (index : nat) : IntegerBitSet :=
  mkBitSet (Z.lor (mask s) (mask_bit index)).

(** The mask of [start..end] with all bits equal to [value]. *)
Definition range_mask (start end_ : nat) (value : bool) : Z :=
  let mask := ushl (bool_mask_usize value) start in
  let mask := if (end_ =? SIZE)%nat then mask
              else Z.land mask (ushr (bool_mask_usize value) (64 - end_)) in
  Z.land mask FULL_MASK.

Definition set_range_value (s : IntegerBitSet) (start end_ : nat) (value : bool) : IntegerBitSet :=
  if (start =? end_)%nat then s
  else if (SIZE =? 0)%nat then s
  else mkBitSet (Z.lor (Z.land (mask s) (unot (range_mask start end_ true)))
                       (range_mask start end_ value)).

Definition unset (s : IntegerBitSet) (index : nat) : IntegerBitSet :=
  if (SIZE =? 0)%nat then s else mkBitSet (Z.land (mask s) (unot (mask_bit index))).

Definition toggle (s : IntegerBitSet) (index : nat) : IntegerBitSet :=
  mkBitSet (Z.lxor (mask s) (mask_bit index)).
Definition toggle_set (s toggles : IntegerBitSet) : IntegerBitSet :=
  mkBitSet (Z.lxor (mask s) (mask toggles)).
Definition toggle_all (s : IntegerBitSet) : IntegerBitSet :=
  mkBitSet (Z.land (unot (mask s)) FULL_MASK).
Definition set_union (s other : IntegerBitSet) : IntegerBitSet :=
  mkBitSet (Z.lor (mask s) (mask other)).
Definition set_intersection (s other : IntegerBitSet) : IntegerBitSet :=
  mkBitSet (Z.land (mask s) (mask other)).

Definition find_first_set (s : IntegerBitSet) : option nat :=
  if mask s =? 0 then None else Some (trailing_zeros (mask s)).
Definition find_first_unset (s : IntegerBitSet) : option nat :=
  let mask := Z.land (unot (mask s)) FULL_MASK in
  if mask =? 0 then None else Some (trailing_zeros mask).
Definition toggle_first_set (s : IntegerBitSet) : option nat * IntegerBitSet :=
  if mask s =? 0 then (None, s)
  else (Some (trailing_zeros (mask s)), mkBitSet (Z.land (mask s) (mask s - 1))).

Definition eql (s other : IntegerBitSet) : bool := (SIZE =? 0)%nat || (mask s =? mask other).

Definition complement (s : IntegerBitSet) : IntegerBitSet := toggle_all s.
Definition union_with (s other : IntegerBitSet) : IntegerBitSet := set_union s other.
Definition intersect_with (s other : IntegerBitSet) : IntegerBitSet := set_intersection s other.
Definition xor_with (s other : IntegerBitSet) : IntegerBitSet := toggle_set s other.
Definition difference_with (s other : IntegerBitSet) : IntegerBitSet :=
  set_intersection s (complement other).
Definition subset_of (s other : IntegerBitSet) : bool := eql (intersect_with s other) s.
Definition superset_of (s other : IntegerBitSet) : bool := subset_of other s.

(** [SingleWordIterator]: the state is [bits_remain]. *)
Definition iterator (kind_set : bool) (s : IntegerBitSet) : Z :=
  if kind_set then mask s else Z.land (unot (mask s)) FULL_MASK.
Definition iter_set (s : IntegerBitSet) : Z := iterator true s.

Definition iter_next (dir_fwd : bool) (bits_remain : Z) : option (nat * Z) :=
  if bits_remain =? 0 then None
  else if dir_fwd then
    Some (trailing_zeros bits_remain, Z.land bits_remain (bits_remain - 1))
  else
    let top_bit := (63 - leading_zeros bits_remain)%nat in
    Some (top_bit, Z.land bits_remain (ushl 1 top_bit - 1)).

(** The indices a loop over the iterator sees. *)
Fixpoint iter_collect (fuel : nat) (dir_fwd : bool) (bits_remain : Z) : outcome (list nat) :=
  match iter_next dir_fwd bits_remain with
  | None => Ok []
  | Some (i, bits_remain) =>
      match fuel with
      | O => OutOfFuel
      | S fuel => l ← iter_collect fuel dir_fwd bits_remain; Ok (i :: l)
      end
  end.
End operations.

(** ** Words as sets of bits *)

Definition word_ok (x : Z) : Prop := 0 <= x < 2 ^ 64.

Lemma word_testbit_high x i : word_ok x -> 64 <= i -> Z.testbit x i = false.
Proof.
  intros [H0 H] Hi. destruct (decide (x = 0)) as [->|]; [apply Z.bits_0|].
  apply Z.bits_above_log2; [lia|]. apply Z.lt_le_trans with 64; [|lia]. apply Z.log2_lt_pow2; lia.
Qed.

Lemma word_ok_bits x : 0 <= x -> (forall i, 64 <= i -> Z.testbit x i = false) -> word_ok x.
Proof.
  intros H0 Hx. split; [done|]. destruct (decide (x = 0)) as [->|]; [lia|].
  apply Z.log2_lt_pow2; [lia|]. destruct (Z.ltb_spec (Z.log2 x) 64); [done|].
  pose proof (Z.bit_log2 x ltac:(lia)). rewrite Hx in *; [done|lia].
Qed.

Lemma unot_testbit x i : 0 <= i < 64 -> Z.testbit (unot x) i = negb (Z.testbit x i).
Proof. intros Hi. unfold unot. rewrite Z.lxor_spec, Z.ones_spec_low by lia. by rewrite xorb_true_r. Qed.

Lemma ushl1_testbit n i : (n < 64)%nat -> 0 <= i -> Z.testbit (ushl 1 n) i = (i =? Z.of_nat n).
Proof.
  intros Hn Hi. unfold ushl, wrap. rewrite (Z.mod_small (Z.of_nat n)) by lia.
  rewrite Z.mod_small by (rewrite Z.shiftl_mul_pow2 by lia; split; [lia|];
    rewrite Z.mul_1_l; apply Z.pow_lt_mono_r; lia).
  rewrite Z.shiftl_1_l, Z.pow2_bits_eqb by lia. apply Z.eqb_sym.
Qed.

Lemma elem_of_word_bits x i : i ∈ word_bits x <-> (i < 64)%nat /\ Z.testbit x (Z.of_nat i) = true.
Proof. unfold word_bits. rewrite list_elem_of_In, filter_In, in_seq. split; intros [? ?]; split; (lia || done). Qed.

Lemma word_bits_nil x : word_ok x -> word_bits x = [] <-> x = 0.
Proof.
  intros Hx. split; [|by intros ->]. intros E. apply Z.bits_inj'. intros i Hi. rewrite Z.bits_0.
  destruct (Z.ltb_spec i 64); [|by apply word_testbit_high].
  apply not_true_iff_false. intros Hb. assert (Hin : Z.to_nat i ∈ word_bits x).
  { apply elem_of_word_bits. rewrite Z2Nat.id by done. split; [lia|done]. }
  rewrite E in Hin. by apply elem_of_nil in Hin.
Qed.

(** Words with equal bit lists are equal. *)
Lemma word_bits_inj x y : word_ok x -> word_ok y -> word_bits x = word_bits y -> x = y.
Proof.
  intros Hx Hy E. apply Z.bits_inj'. intros i Hi.
  destruct (Z.ltb_spec i 64); [|by rewrite !word_testbit_high].
  assert (Z.to_nat i ∈ word_bits x <-> Z.to_nat i ∈ word_bits y) as H2 by by rewrite E.
  rewrite !elem_of_word_bits, Z2Nat.id in H2 by done.
  destruct (Z.testbit x i), (Z.testbit y i); naive_solver lia.
Qed.

Lemma word_ok_bitop (f : Z -> Z -> Z) (g : bool -> bool -> bool) x y :
  (forall i, 0 <= i -> Z.testbit (f x y) i = g (Z.testbit x i) (Z.testbit y i)) -> g false false = false ->
  0 <= f x y -> word_ok x -> word_ok y -> word_ok (f x y).
Proof.
  intros Hf Hg H0 Hx Hy. apply word_ok_bits; [done|]. intros i Hi.
  by rewrite Hf, !word_testbit_high by (done || lia).
Qed.

Lemma word_ok_land x y : word_ok x -> word_ok y -> word_ok (Z.land x y).
Proof. intros Hx Hy. apply (word_ok_bitop Z.land andb); try done; [intros; apply Z.land_spec|]. apply Z.land_nonneg. left. apply Hx. Qed.
Lemma word_ok_lor x y : word_ok x -> word_ok y -> word_ok (Z.lor x y).
Proof. intros Hx Hy. apply (word_ok_bitop Z.lor orb); try done; [intros; apply Z.lor_spec|]. apply Z.lor_nonneg. destruct Hx, Hy. done. Qed.
Lemma word_ok_lxor x y : word_ok x -> word_ok y -> word_ok (Z.lxor x y).
Proof. intros Hx Hy. apply (word_ok_bitop Z.lxor xorb); try done; [intros; apply Z.lxor_spec|]. apply Z.lxor_nonneg. destruct Hx, Hy. done. Qed.
Lemma word_ok_unot x : word_ok x -> word_ok (unot x).
Proof. intros Hx. apply word_ok_lxor; [done|]. done. Qed.
Lemma word_ok_ushl x n : word_ok (ushl x n).
Proof. apply Z.mod_pos_bound. lia. Qed.
Lemma word_ok_mask_bit SIZE i : word_ok (mask_bit SIZE i).
Proof. unfold mask_bit. destruct (SIZE =? 0)%nat; [done|apply word_ok_ushl]. Qed.

Lemma ushl1_value n : (n < 64)%nat -> ushl 1 n = 2 ^ Z.of_nat n.
Proof.
  intros Hn. unfold ushl, wrap. rewrite (Z.mod_small (Z.of_nat n)) by lia. rewrite Z.shiftl_1_l.
  apply Z.mod_small. split; [lia|]. apply Z.pow_lt_mono_r; lia.
Qed.

Lemma FULL_MASK_ones SIZE : (SIZE <= 64)%nat -> FULL_MASK SIZE = Z.ones (Z.of_nat SIZE).
Proof.
  intros H. unfold FULL_MASK. destruct (Nat.leb_spec 64 SIZE).
  - by replace SIZE with 64%nat by lia.
  - rewrite ushl1_value by lia. by rewrite Z.ones_equiv, Z.sub_1_r.
Qed.

Lemma word_ok_ones n : (n <= 64)%nat -> word_ok (Z.ones (Z.of_nat n)).
Proof.
  intros H. rewrite Z.ones_equiv. split; [pose proof (Z.pow_pos_nonneg 2 (Z.of_nat n)); lia|].
  pose proof (Z.pow_le_mono_r 2 (Z.of_nat n) 64). lia.
Qed.

Lemma ones_testbit n i : 0 <= i -> Z.testbit (Z.ones (Z.of_nat n)) i = (i <? Z.of_nat n).
Proof.
  intros Hi. destruct (Z.ltb_spec i (Z.of_nat n)); [by apply Z.ones_spec_low|by apply Z.ones_spec_high; lia].
Qed.

Lemma bool_mask_testbit v i : 0 <= i < 64 -> Z.testbit (bool_mask_usize v) i = v.
Proof.
  intros Hi. destruct v; [|apply Z.bits_0]. change (bool_mask_usize true) with (Z.ones 64).
  apply Z.ones_spec_low. lia.
Qed.

Lemma land_bool_mask x v : word_ok x -> Z.land x (bool_mask_usize v) = if v then x else 0.
Proof.
  intros Hx. destruct v; [|apply Z.land_0_r]. change (bool_mask_usize true) with (Z.ones 64).
  rewrite Z.land_ones by lia. apply Z.mod_small, Hx.
Qed.

(** ** The abstract set *)

(** The elements of a bit set. *)
Definition elems (s : IntegerBitSet) : gset nat := list_to_set (word_bits (mask s)).

(** Representation invariant: no bit at or above [SIZE] is set. *)
Definition bitset_ok (SIZE : nat) (s : IntegerBitSet) : Prop :=
  (SIZE <= 64)%nat /\ word_ok (mask s) /\ elems s ⊆ set_seq 0 SIZE.

Lemma elem_of_elems s i : word_ok (mask s) -> i ∈ elems s <-> Z.testbit (mask s) (Z.of_nat i) = true.
Proof.
  intros Hs. unfold elems. rewrite elem_of_list_to_set, elem_of_word_bits. split; [by intros []|].
  intros H. split; [|done]. destruct (Nat.ltb_spec i 64); [done|].
  by rewrite word_testbit_high in H by (done || lia).
Qed.

Lemma bitset_ok_bits SIZE s :
  bitset_ok SIZE s <-> (SIZE <= 64)%nat /\ word_ok (mask s) /\
    (forall i, 0 <= i -> Z.testbit (mask s) i = true -> i < Z.of_nat SIZE).
Proof.
  unfold bitset_ok. split; intros (H1 & H2 & H3); split_and!; try done.
  - intros i Hi Hb. specialize (H3 (Z.to_nat i)). rewrite elem_of_set_seq, elem_of_elems, Z2Nat.id in H3 by done.
    apply H3 in Hb. lia.
  - intros i. rewrite elem_of_set_seq, elem_of_elems by done. intros Hb. apply H3 in Hb; lia.
Qed.

(** Two good sets with the same elements are the same word. *)
Lemma bitset_ok_word SIZE s : bitset_ok SIZE s -> word_ok (mask s).
Proof. intros (_ & H & _). exact H. Qed.

#[export] Hint Resolve word_ok_land word_ok_lor word_ok_lxor word_ok_unot word_ok_mask_bit word_ok_ones word_ok_ushl
  bitset_ok_word : words.

Lemma elems_inj SIZE s t : bitset_ok SIZE s -> bitset_ok SIZE t -> elems s = elems t -> s = t.
Proof.
  intros (_ & Hs & _) (_ & Ht & _) E. destruct s as [x], t as [y]. cbn [mask] in *. f_equal.
  apply Z.bits_inj'. intros i Hi. rewrite set_eq in E. specialize (E (Z.to_nat i)).
  rewrite !elem_of_elems, Z2Nat.id in E by done. cbn [mask] in E.
  destruct (Z.testbit x i), (Z.testbit y i); naive_solver.
Qed.

(** A word operation computes the set that its bits describe. *)
Lemma elems_by_bits SIZE m (X : gset nat) :
  (SIZE <= 64)%nat -> word_ok m -> X ⊆ set_seq 0 SIZE ->
  (forall i : nat, (i < 64)%nat -> Z.testbit m (Z.of_nat i) = bool_decide (i ∈ X)) ->
  bitset_ok SIZE (mkBitSet m) /\ elems (mkBitSet m) = X.
Proof.
  intros HS Hm HX Hbits.
  assert (E : elems (mkBitSet m) = X).
  { apply set_eq. intros i. rewrite elem_of_elems by done. cbn [mask]. destruct (Nat.ltb_spec i 64) as [Hi|Hi].
    - rewrite Hbits by done. by rewrite bool_decide_eq_true.
    - rewrite word_testbit_high by (done || lia). split; [done|]. intros HiX. apply HX in HiX.
      rewrite elem_of_set_seq in HiX. lia. }
  split; [|done]. split_and!; [done..|]. by rewrite E.
Qed.

Lemma mask_bit_testbit SIZE i j :
  (i < SIZE)%nat -> (SIZE <= 64)%nat -> 0 <= j -> Z.testbit (mask_bit SIZE i) j = (j =? Z.of_nat i).
Proof. intros Hi HS Hj. unfold mask_bit. destruct (Nat.eqb_spec SIZE 0); [lia|]. apply ushl1_testbit; lia. Qed.

(** The bit of a good set, as membership. *)
Lemma testbit_elems SIZE s i : bitset_ok SIZE s -> Z.testbit (mask s) (Z.of_nat i) = bool_decide (i ∈ elems s).
Proof.
  intros (_ & Hs & _). destruct (Z.testbit (mask s) (Z.of_nat i)) eqn:E; symmetry.
  - apply bool_decide_eq_true. by apply elem_of_elems.
  - apply bool_decide_eq_false. rewrite elem_of_elems, E by done. done.
Qed.

Section refinement.
Context (SIZE : nat) (HSIZE : (SIZE <= 64)%nat).

Implicit Types s t : IntegerBitSet.

Lemma elems_sub s i : bitset_ok SIZE s -> i ∈ elems s -> (i < SIZE)%nat.
Proof. intros (_ & _ & H) Hi. apply H in Hi. rewrite elem_of_set_seq in Hi. lia. Qed.

(** Reduces a refinement goal to the membership of one index. *)
Ltac by_bits :=
  apply (elems_by_bits SIZE); [done|eauto 6 with words|
    let j := fresh "j" in intros j;
    repeat match goal with H : bitset_ok SIZE ?x |- _ => pose proof (elems_sub x j H); revert H end; intros;
    rewrite ?elem_of_union, ?elem_of_intersection, ?elem_of_difference, ?elem_of_singleton, ?elem_of_set_seq in *;
    naive_solver lia|
    intros ? ?; rewrite ?Z.lor_spec, ?Z.land_spec, ?Z.lxor_spec, ?unot_testbit, ?(FULL_MASK_ones SIZE), ?ones_testbit,
      ?mask_bit_testbit, ?unot_testbit, ?(testbit_elems SIZE) by (done || lia)].

Lemma init_empty_ok : bitset_ok SIZE init_empty /\ elems init_empty = ∅.
Proof. split; [|done]. split; [done|]. split; [done|]. intros i Hi. by apply elem_of_empty in Hi. Qed.

Lemma init_full_ok : bitset_ok SIZE (init_full SIZE) /\ elems (init_full SIZE) = set_seq 0 SIZE.
Proof.
  unfold init_full. rewrite FULL_MASK_ones by done. by_bits.
  apply eq_true_iff_eq. rewrite bool_decide_eq_true, elem_of_set_seq, Z.ltb_lt. lia.
Qed.

Lemma is_set_elems s i : bitset_ok SIZE s -> (i < SIZE)%nat -> is_set SIZE s i = bool_decide (i ∈ elems s).
Proof.
  intros Hs Hi. rewrite <- (testbit_elems SIZE s i) by done. unfold is_set.
  assert (E : Z.land (mask s) (mask_bit SIZE i) = if Z.testbit (mask s) (Z.of_nat i) then 2 ^ Z.of_nat i else 0).
  { apply Z.bits_inj'. intros j Hj. rewrite Z.land_spec, mask_bit_testbit by lia.
    destruct (Z.eqb_spec j (Z.of_nat i)) as [->|].
    - rewrite andb_true_r. destruct (Z.testbit (mask s) (Z.of_nat i)); [by rewrite Z.pow2_bits_true by lia|by rewrite Z.bits_0].
    - rewrite andb_false_r. destruct (Z.testbit (mask s) (Z.of_nat i)); [by rewrite Z.pow2_bits_false by lia|by rewrite Z.bits_0]. }
  rewrite E. destruct (Z.testbit _ _); [|done].
  pose proof (Z.pow_pos_nonneg 2 (Z.of_nat i)). by rewrite (proj2 (Z.eqb_neq _ _)) by lia.
Qed.

Lemma set_ok s i : bitset_ok SIZE s -> (i < SIZE)%nat ->
  bitset_ok SIZE (set SIZE s i) /\ elems (set SIZE s i) = elems s ∪ {[i]}.
Proof.
  intros Hs Hi. by_bits.
  apply eq_true_iff_eq. rewrite orb_true_iff, !bool_decide_eq_true, elem_of_union, elem_of_singleton, Z.eqb_eq.
  naive_solver lia.
Qed.

Lemma unset_ok s i : bitset_ok SIZE s -> (i < SIZE)%nat ->
  bitset_ok SIZE (unset SIZE s i) /\ elems (unset SIZE s i) = elems s ∖ {[i]}.
Proof.
  intros Hs Hi. unfold unset. destruct (Nat.eqb_spec SIZE 0); [lia|]. by_bits.
  apply eq_true_iff_eq.
  rewrite andb_true_iff, negb_true_iff, !bool_decide_eq_true, elem_of_difference, elem_of_singleton, Z.eqb_neq.
  naive_solver lia.
Qed.

Lemma set_value_ok s i v : bitset_ok SIZE s -> (i < SIZE)%nat ->
  bitset_ok SIZE (set_value SIZE s i v) /\
  elems (set_value SIZE s i v) = if v then elems s ∪ {[i]} else elems s ∖ {[i]}.
Proof.
  intros Hs Hi. unfold set_value. destruct (Nat.eqb_spec SIZE 0); [lia|].
  rewrite land_bool_mask by eauto 6 with words. destruct v.
  - replace (Z.lor (Z.land (mask s) (unot (mask_bit SIZE i))) (mask_bit SIZE i)) with (mask (set SIZE s i)).
    + by apply (set_ok s i).
    + cbn [mask set]. apply Z.bits_inj'. intros j Hj. rewrite !Z.lor_spec, Z.land_spec, !mask_bit_testbit by lia.
      destruct (Z.ltb_spec j 64).
      * rewrite unot_testbit, mask_bit_testbit by lia. by destruct (Z.testbit (mask s) j), (j =? Z.of_nat i).
      * by rewrite (word_testbit_high (mask s)) by (lia || apply Hs).
  - rewrite Z.lor_0_r. pose proof (unset_ok s i Hs Hi) as H. unfold unset in H.
    by destruct (Nat.eqb_spec SIZE 0); [lia|].
Qed.

Lemma toggle_all_ok s : bitset_ok SIZE s ->
  bitset_ok SIZE (toggle_all SIZE s) /\ elems (toggle_all SIZE s) = set_seq 0 SIZE ∖ elems s.
Proof.
  intros Hs. unfold toggle_all. rewrite FULL_MASK_ones by done. by_bits.
  apply eq_true_iff_eq.
  rewrite andb_true_iff, negb_true_iff, bool_decide_eq_false, bool_decide_eq_true, elem_of_difference, elem_of_set_seq, Z.ltb_lt.
  naive_solver lia.
Qed.

Lemma set_union_ok s t : bitset_ok SIZE s -> bitset_ok SIZE t ->
  bitset_ok SIZE (set_union s t) /\ elems (set_union s t) = elems s ∪ elems t.
Proof.
  intros Hs Ht. by_bits. apply eq_true_iff_eq. rewrite orb_true_iff, !bool_decide_eq_true. set_solver.
Qed.

Lemma set_intersection_ok s t : bitset_ok SIZE s -> bitset_ok SIZE t ->
  bitset_ok SIZE (set_intersection s t) /\ elems (set_intersection s t) = elems s ∩ elems t.
Proof.
  intros Hs Ht. by_bits. apply eq_true_iff_eq. rewrite andb_true_iff, !bool_decide_eq_true. set_solver.
Qed.

Lemma toggle_set_ok s t : bitset_ok SIZE s -> bitset_ok SIZE t ->
  bitset_ok SIZE (toggle_set s t) /\ elems (toggle_set s t) = (elems s ∖ elems t) ∪ (elems t ∖ elems s).
Proof.
  intros Hs Ht. by_bits. repeat case_bool_decide; try done; set_solver.
Qed.

(** The composed operations. *)
Lemma difference_with_ok s t : bitset_ok SIZE s -> bitset_ok SIZE t ->
  bitset_ok SIZE (difference_with SIZE s t) /\ elems (difference_with SIZE s t) = elems s ∖ elems t.
Proof.
  intros Hs Ht. destruct (toggle_all_ok t Ht) as [Hc Ec].
  destruct (set_intersection_ok s (complement SIZE t) Hs Hc) as [Hd Ed].
  split; [done|]. unfold difference_with. rewrite Ed. unfold complement. rewrite Ec.
  destruct Hs as (_ & _ & Hsub). set_solver.
Qed.

Lemma eql_ok s t : bitset_ok SIZE s -> bitset_ok SIZE t -> eql SIZE s t = bool_decide (elems s = elems t).
Proof.
  intros Hs Ht. apply eq_true_iff_eq. unfold eql. rewrite bool_decide_eq_true, orb_true_iff, Nat.eqb_eq, Z.eqb_eq.
  split.
  - intros [H0|E]; [|by unfold elems; rewrite E].
    apply set_eq. intros i. split; intros Hi; apply elems_sub in Hi; try done; lia.
  - intros E. right. by rewrite (elems_inj SIZE s t Hs Ht E).
Qed.

Lemma subset_of_ok s t : bitset_ok SIZE s -> bitset_ok SIZE t -> subset_of SIZE s t = bool_decide (elems s ⊆ elems t).
Proof.
  intros Hs Ht. destruct (set_intersection_ok s t Hs Ht) as [Hi Ei]. unfold subset_of, intersect_with.
  rewrite eql_ok by done. rewrite Ei. apply bool_decide_ext. set_solver.
Qed.

(** The mask of [start..end]. *)
Lemma range_mask_testbit start end_ v i :
  (start < end_ <= SIZE)%nat -> 0 <= i < 64 ->
  Z.testbit (range_mask SIZE start end_ v) i = v && (Z.of_nat start <=? i) && (i <? Z.of_nat end_).
Proof.
  intros He Hi. unfold range_mask. rewrite Z.land_spec, FULL_MASK_ones, ones_testbit by (done || lia).
  assert (Hl : Z.testbit (ushl (bool_mask_usize v) start) i = v && (Z.of_nat start <=? i)).
  { unfold ushl, wrap. rewrite (Z.mod_small (Z.of_nat start)), Z.mod_pow2_bits_low by lia.
    destruct (Z.leb_spec (Z.of_nat start) i).
    - rewrite Z.shiftl_spec, bool_mask_testbit by lia. by rewrite andb_true_r.
    - rewrite Z.shiftl_spec_low by lia. by rewrite andb_false_r. }
  destruct (Nat.eqb_spec end_ SIZE) as [->|]; [by rewrite Hl|].
  rewrite Z.land_spec, Hl.
  assert (Hr : Z.testbit (ushr (bool_mask_usize v) (64 - end_)) i = v && (i <? Z.of_nat end_)).
  { unfold ushr. rewrite Z.mod_small, Z.shiftr_spec by lia.
    destruct (Z.ltb_spec i (Z.of_nat end_)).
    - rewrite bool_mask_testbit by lia. by rewrite andb_true_r.
    - rewrite andb_false_r. destruct v; [|apply Z.bits_0]. apply word_testbit_high; [done|]. lia. }
  rewrite Hr. destruct v; simpl; [|done]. zcases; simpl; done.
Qed.

Lemma set_range_value_ok s start end_ v :
  bitset_ok SIZE s -> (start <= end_ <= SIZE)%nat ->
  bitset_ok SIZE (set_range_value SIZE s start end_ v) /\
  elems (set_range_value SIZE s start end_ v) =
    if v then elems s ∪ set_seq start (end_ - start) else elems s ∖ set_seq start (end_ - start).
Proof.
  intros Hs He. unfold set_range_value. destruct (Nat.eqb_spec start end_) as [->|].
  { split; [done|]. rewrite Nat.sub_diag. destruct v; set_solver. }
  destruct (Nat.eqb_spec SIZE 0); [lia|].
  assert (Hw : forall v, word_ok (range_mask SIZE start end_ v)).
  { intros w. unfold range_mask. rewrite FULL_MASK_ones by done. split; [|].
    - apply Z.land_nonneg. right. by apply word_ok_ones.
    - rewrite Z.land_ones by lia. pose proof (Z.mod_pos_bound
        (if (end_ =? SIZE)%nat then ushl (bool_mask_usize w) start
         else Z.land (ushl (bool_mask_usize w) start) (ushr (bool_mask_usize w) (64 - end_))) (2 ^ Z.of_nat SIZE)) as Hb.
      pose proof (Z.pow_le_mono_r 2 (Z.of_nat SIZE) 64). lia. }
  pose proof elems_sub as Hsub.
  apply (elems_by_bits SIZE); [done| | |].
  - apply word_ok_lor; [apply word_ok_land; [apply Hs|]; apply word_ok_unot|]; apply Hw.
  - intros i. rewrite elem_of_set_seq. destruct v; rewrite ?elem_of_union, ?elem_of_difference, elem_of_set_seq;
      pose proof (Hsub s i Hs); naive_solver lia.
  - intros i Hi. rewrite Z.lor_spec, Z.land_spec, unot_testbit, !range_mask_testbit, (testbit_elems SIZE) by (done || lia).
    apply eq_true_iff_eq.
    destruct v; simpl; rewrite bool_decide_eq_true, ?elem_of_union, ?elem_of_difference, elem_of_set_seq;
      case_bool_decide; zcases; simpl; naive_solver lia.
Qed.
End refinement.

(** ** The iterator *)

Lemma filter_neq_notin (l : list nat) i : i ∉ l -> List.filter (fun j => negb (j =? i)%nat) l = l.
Proof.
  induction l as [|a l IH]; intros H; simpl; [done|]. apply not_elem_of_cons in H as [H1 H2].
  rewrite (proj2 (Nat.eqb_neq a i)) by done. simpl. by rewrite IH.
Qed.

Lemma word_bits_NoDup x : NoDup (word_bits x).
Proof. unfold word_bits. apply NoDup_ListNoDup, List.NoDup_filter, seq_NoDup. Qed.

(** Clearing bit [i] removes [i] from the list of bits. *)
Lemma word_bits_clear x y i :
  (forall j : nat, (j < 64)%nat -> Z.testbit y (Z.of_nat j) = Z.testbit x (Z.of_nat j) && negb (j =? i)%nat) ->
  word_bits y = List.filter (fun j => negb (j =? i)%nat) (word_bits x).
Proof.
  intros H. unfold word_bits.
  assert (Hall : Forall (fun j => (j < 64)%nat) (seq 0 64)) by (apply list.Forall_forall; intros j; rewrite elem_of_seq; lia).
  induction Hall as [|j l Hj Hall IH]; [done|]. cbn [List.filter]. rewrite H by done.
  destruct (Z.testbit x (Z.of_nat j)); cbn [andb List.filter]; [|done]. destruct (negb _); by rewrite IH.
Qed.

Lemma word_bits_clear_head x y i (l : list nat) :
  word_bits x = i :: l ->
  (forall j : nat, (j < 64)%nat -> Z.testbit y (Z.of_nat j) = Z.testbit x (Z.of_nat j) && negb (j =? i)%nat) ->
  word_bits y = l.
Proof.
  intros E H. rewrite (word_bits_clear x y i H), E. pose proof (word_bits_NoDup x) as Hnd.
  rewrite E in Hnd. apply NoDup_cons in Hnd as [Hni _]. simpl. rewrite Nat.eqb_refl. by apply filter_neq_notin.
Qed.

Lemma word_bits_clear_last x y i (l : list nat) :
  word_bits x = l ++ [i] ->
  (forall j : nat, (j < 64)%nat -> Z.testbit y (Z.of_nat j) = Z.testbit x (Z.of_nat j) && negb (j =? i)%nat) ->
  word_bits y = l.
Proof.
  intros E H. rewrite (word_bits_clear x y i H), E. pose proof (word_bits_NoDup x) as Hnd.
  rewrite E in Hnd. apply NoDup_app in Hnd as (_ & Hni & _). rewrite List.filter_app. simpl.
  rewrite Nat.eqb_refl. simpl. rewrite app_nil_r. apply filter_neq_notin. intros Hi. apply (Hni i Hi). by left.
Qed.

Lemma word_bits_sorted x : StronglySorted lt (word_bits x).
Proof.
  assert (H : forall n m, StronglySorted lt (List.filter (fun i => Z.testbit x (Z.of_nat i)) (seq m n))).
  { induction n as [|n IH]; intros m; [constructor|]. cbn [seq List.filter]. destruct (Z.testbit x (Z.of_nat m)); [|apply IH].
    constructor; [apply IH|]. apply list.Forall_forall. intros j. rewrite list_elem_of_In, filter_In, in_seq. lia. }
  apply H.
Qed.

Lemma word_bits_head_least x i (l : list nat) :
  word_bits x = i :: l ->
  (i < 64)%nat /\ Z.testbit x (Z.of_nat i) = true /\ (forall j : nat, (j < i)%nat -> Z.testbit x (Z.of_nat j) = false).
Proof.
  intros E. pose proof (word_bits_sorted x) as Hs. rewrite E in Hs. inversion Hs as [|? ? _ Hl]; subst.
  assert (Hi : i ∈ word_bits x) by (rewrite E; left). apply elem_of_word_bits in Hi as [Hi Hb].
  split_and!; [done..|]. intros j Hj. apply not_true_iff_false. intros Hbj.
  assert (Hin : j ∈ word_bits x) by (apply elem_of_word_bits; split; [lia|done]).
  rewrite E in Hin. apply elem_of_cons in Hin as [->|Hin]; [lia|].
  rewrite list.Forall_forall in Hl. apply Hl in Hin. lia.
Qed.

Lemma word_bits_last_greatest x i (l : list nat) :
  word_bits x = l ++ [i] ->
  (i < 64)%nat /\ Z.testbit x (Z.of_nat i) = true /\
  (forall j : nat, (i < j < 64)%nat -> Z.testbit x (Z.of_nat j) = false).
Proof.
  intros E. pose proof (word_bits_sorted x) as Hs. rewrite E in Hs.
  assert (Hi : i ∈ word_bits x) by (rewrite E; apply elem_of_app; right; left).
  apply elem_of_word_bits in Hi as [Hi Hb].
  split_and!; [done..|]. intros j Hj. apply not_true_iff_false. intros Hbj.
  assert (Hin : j ∈ word_bits x) by (apply elem_of_word_bits; split; [lia|done]).
  rewrite E in Hin. apply elem_of_app in Hin as [Hin|Hin]; [|apply list_elem_of_singleton in Hin; lia].
  assert (j < i)%nat; [|lia].
  clear -Hs Hin. induction l as [|a l IH]; [by apply elem_of_nil in Hin|].
  inversion Hs as [|? ? Hs' Hf]; subst. apply elem_of_cons in Hin as [->|Hin]; [|by apply IH].
  rewrite list.Forall_forall in Hf. apply Hf, elem_of_app. right. left.
Qed.

(** [x & (x - 1)] clears the lowest set bit. *)
Lemma land_pred_testbit x i j :
  word_ok x -> 0 <= j -> Z.testbit x (Z.of_nat i) = true ->
  (forall k : nat, (k < i)%nat -> Z.testbit x (Z.of_nat k) = false) ->
  Z.testbit (Z.land x (x - 1)) j = Z.testbit x j && negb (j =? Z.of_nat i).
Proof.
  intros Hx Hj Hi Hlow. set (n := Z.of_nat i) in *.
  assert (Hmod : x mod 2 ^ (n + 1) = 2 ^ n).
  { apply Z.bits_inj'. intros k Hk. rewrite Z.pow2_bits_eqb by lia. destruct (Z.ltb_spec k (n + 1)).
    - rewrite Z.mod_pow2_bits_low by lia. destruct (Z.eqb_spec n k) as [<-|]; [done|].
      replace k with (Z.of_nat (Z.to_nat k)) by lia. apply Hlow. lia.
    - rewrite Z.mod_pow2_bits_high by lia. symmetry. apply Z.eqb_neq. lia. }
  assert (Ex : x = x / 2 ^ (n + 1) * 2 ^ (n + 1) + 2 ^ n).
  { pose proof (Z.div_mod x (2 ^ (n + 1))). lia. }
  set (y := x / 2 ^ (n + 1)) in *.
  assert (Hp : 2 ^ (n + 1) = 2 * 2 ^ n) by (rewrite Z.pow_add_r; lia).
  assert (0 < 2 ^ n) by (apply Z.pow_pos_nonneg; lia).
  assert (Ex1 : x - 1 = y * 2 ^ (n + 1) + (2 ^ n - 1)) by lia.
  rewrite Z.land_spec, Ex1, Ex.
  rewrite <- !(lor_shiftl_add _ _ (n + 1)) by lia.
  rewrite !Z.lor_spec, Z.shiftl_spec, Z.pow2_bits_eqb by lia.
  replace (2 ^ n - 1) with (Z.ones n) by (rewrite Z.ones_equiv; lia).
  destruct (Z.eqb_spec j n) as [->|].
  - rewrite Z.ones_spec_high, (Z.testbit_neg_r y) by lia. simpl. by rewrite !andb_false_r.
  - rewrite (proj2 (Z.eqb_neq n j)), orb_false_r by lia. cbn [negb]. rewrite andb_true_r.
    destruct (Z.testbit y (j - (n + 1))) eqn:E; [done|done].
Qed.

(** ** Indices and words *)

Local Open Scope nat_scope.

Lemma mod_lt_64 i : i mod 64 < 64.
Proof. by apply Nat.mod_upper_bound. Qed.

Lemma same_word i j : i / 64 = j / 64 -> i mod 64 = j mod 64 -> i = j.
Proof. intros H1 H2. rewrite (Nat.div_mod_eq i 64), (Nat.div_mod_eq j 64). by rewrite H1, H2. Qed.

Lemma trailing_zeros_lt m : word_ok m -> m <> 0%Z -> trailing_zeros m < 64.
Proof.
  intros Hm Hne. unfold trailing_zeros. destruct (word_bits m) as [|i l] eqn:E; [by apply word_bits_nil in E|].
  by destruct (word_bits_head_least m i l E).
Qed.

(** Clearing the lowest set bit of a word. *)
Lemma clear_lowest m :
  word_ok m -> m <> 0%Z ->
  word_ok (Z.land m (m - 1)) /\
  forall k, k < 64 -> Z.testbit (Z.land m (m - 1)) (Z.of_nat k) = if k =? trailing_zeros m then false else Z.testbit m (Z.of_nat k).
Proof.
  intros Hm Hne. assert (word_ok (m - 1)%Z) by (unfold word_ok in *; lia).
  split; [by apply word_ok_land|]. intros k Hk. unfold trailing_zeros.
  destruct (word_bits m) as [|i l] eqn:E; [by apply word_bits_nil in E|]. change (default 64 (head (i :: l))) with i.
  destruct (word_bits_head_least m i l E) as (Hi & Hb & Hlow).
  rewrite (land_pred_testbit m i _ Hm (Nat2Z.is_nonneg k) Hb Hlow).
  destruct (Nat.eqb_spec k i) as [->|]; [by rewrite Z.eqb_refl, andb_false_r|].
  rewrite (proj2 (Z.eqb_neq _ _)) by lia. apply andb_true_r.
Qed.

Local Close Scope nat_scope.

(** [x & ((1 << top) - 1)] clears the highest set bit. *)
Lemma land_below_testbit x i j :
  word_ok x -> (i < 64)%nat -> (j < 64)%nat ->
  (forall k : nat, (i < k < 64)%nat -> Z.testbit x (Z.of_nat k) = false) ->
  Z.testbit (Z.land x (ushl 1 i - 1)) (Z.of_nat j) = Z.testbit x (Z.of_nat j) && negb (j =? i)%nat.
Proof.
  intros Hx Hi Hj Hhigh. rewrite ushl1_value by done. rewrite Z.land_spec.
  replace (2 ^ Z.of_nat i - 1) with (Z.ones (Z.of_nat i)) by (rewrite Z.ones_equiv; lia).
  rewrite ones_testbit by lia. destruct (Nat.eqb_spec j i) as [->|].
  - rewrite Z.ltb_irrefl. done.
  - destruct (Z.ltb_spec (Z.of_nat j) (Z.of_nat i)); [done|]. rewrite Hhigh by lia. done.
Qed.

Lemma iter_next_fwd x i (l : list nat) :
  word_ok x -> word_bits x = i :: l ->
  exists y, iter_next true x = Some (i, y) /\ word_ok y /\ word_bits y = l.
Proof.
  intros Hx E. destruct (word_bits_head_least x i l E) as (Hi & Hb & Hlow).
  assert (x <> 0) by (intros ->; done).
  assert (word_ok (x - 1)) by (unfold word_ok in *; lia).
  exists (Z.land x (x - 1)). unfold iter_next, trailing_zeros. rewrite (proj2 (Z.eqb_neq x 0)), E by done.
  split_and!; [done|by apply word_ok_land|]. apply (word_bits_clear_head x _ i l E).
  intros j Hj. rewrite (land_pred_testbit x i) by (done || lia).
  f_equal. f_equal. apply eq_true_iff_eq. rewrite Z.eqb_eq, Nat.eqb_eq. lia.
Qed.

Lemma iter_next_bwd x i (l : list nat) :
  word_ok x -> word_bits x = l ++ [i] ->
  exists y, iter_next false x = Some (i, y) /\ word_ok y /\ word_bits y = l.
Proof.
  intros Hx E. destruct (word_bits_last_greatest x i l E) as (Hi & Hb & Hhigh).
  assert (x <> 0) by (intros ->; symmetry in E; by apply app_nil in E as [_ ?]).
  exists (Z.land x (ushl 1 i - 1)). unfold iter_next, leading_zeros.
  rewrite (proj2 (Z.eqb_neq x 0)), E, last_snoc by done.
  replace (63 - (63 - i))%nat with i by lia. split_and!; [done| |].
  - apply word_ok_land; [done|]. rewrite ushl1_value by done.
    pose proof (Z.pow_lt_mono_r 2 (Z.of_nat i) 64). pose proof (Z.pow_pos_nonneg 2 (Z.of_nat i)). unfold word_ok. lia.
  - apply (word_bits_clear_last x _ i l E). intros j Hj. by apply land_below_testbit.
Qed.

Lemma iter_collect_bits fuel (dir_fwd : bool) x :
  word_ok x -> (length (word_bits x) <= fuel)%nat ->
  iter_collect fuel dir_fwd x = Ok (if dir_fwd then word_bits x else rev (word_bits x)).
Proof.
  revert x. induction fuel as [|fuel IH]; intros x Hx Hf.
  - destruct (word_bits x) eqn:E; [|simpl in Hf; lia]. apply word_bits_nil in E; [|done]. subst. by destruct dir_fwd.
  - destruct (decide (word_bits x = [])) as [E|E].
    { rewrite E. apply word_bits_nil in E; [|done]. subst. by destruct dir_fwd. }
    destruct dir_fwd.
    + destruct (word_bits x) as [|i l] eqn:Eb; [done|].
      destruct (iter_next_fwd x i l Hx Eb) as (y & Hn & Hy & El). cbn [iter_collect]. rewrite Hn.
      simpl in Hf. rewrite IH, El by (done || rewrite El; lia). done.
    + destruct (exists_last E) as (l & i & Eb).
      destruct (iter_next_bwd x i l Hx Eb) as (y & Hn & Hy & El). cbn [iter_collect]. rewrite Hn.
      rewrite Eb, length_app in Hf. simpl in Hf. rewrite IH, El by (done || rewrite El; lia).
      cbn [mbind outcome_bind]. by rewrite Eb, rev_app_distr.
Qed.

Lemma word_bits_length SIZE s : bitset_ok SIZE s -> (length (word_bits (mask s)) <= SIZE)%nat.
Proof.
  intros (HS & Hw & Hsub). transitivity (length (seq 0 SIZE)); [|by rewrite length_seq].
  apply submseteq_length, NoDup_submseteq; [apply word_bits_NoDup|].
  intros i Hi. assert (Hi' : i ∈ elems s) by by apply elem_of_list_to_set.
  apply Hsub in Hi'. rewrite elem_of_set_seq in Hi'. apply elem_of_seq. lia.
Qed.

Lemma StronglySorted_rev (l : list nat) : StronglySorted lt l -> StronglySorted gt (rev l).
Proof.
  induction 1 as [|i l Hl IH Hf]; simpl; [constructor|].
  assert (Hf' : Forall (fun j => i < j)%nat (rev l)).
  { apply list.Forall_forall. intros j Hj. rewrite list.Forall_forall in Hf. apply Hf.
    by rewrite list_elem_of_In, in_rev, <- list_elem_of_In. }
  clear Hf Hl. induction IH as [|j k Hk IH Hj]; simpl; [by repeat constructor|].
  inversion Hf'; subst. constructor; [by apply IH|]. apply Forall_app. split; [done|]. by repeat constructor.
Qed.

(** A loop over the iterator yields each index of the chosen kind exactly once, in
    ascending order forwards and in descending order backwards. *)
Theorem iterator_complete (SIZE : nat) (s : IntegerBitSet) (kind_set dir_fwd : bool) :
  bitset_ok SIZE s ->
  exists l, iter_collect SIZE dir_fwd (iterator SIZE kind_set s) = Ok l /\
    StronglySorted (if dir_fwd then lt else gt) l /\
    list_to_set l = if kind_set then elems s else set_seq 0 SIZE ∖ elems s.
Proof.
  intros Hs. assert (Hc : exists t, mask t = iterator SIZE kind_set s /\ bitset_ok SIZE t /\
    elems t = if kind_set then elems s else set_seq 0 SIZE ∖ elems s).
  { destruct kind_set; [by exists s|]. exists (toggle_all SIZE s). split; [done|].
    apply toggle_all_ok; [apply Hs|done]. }
  destruct Hc as (t & <- & Ht & <-). eexists. split; [apply iter_collect_bits|split].
  - apply Ht.
  - by apply word_bits_length.
  - destruct dir_fwd; [apply word_bits_sorted|]. apply StronglySorted_rev, word_bits_sorted.
  - destruct dir_fwd; [exact eq_refl|]. unfold elems. apply set_eq. intros i. rewrite !elem_of_list_to_set, list_elem_of_In, <- in_rev.
    by rewrite <- list_elem_of_In.
Qed.

(** A sample set: the indices 0 and 3 of ten. *)
Lemma sample_ok : bitset_ok 10 (set 10 (set 10 init_empty 0) 3).
Proof.
  assert (H10 : (10 <= 64)%nat) by lia. destruct (init_empty_ok 10 H10) as [H0 _].
  apply set_ok; [done| |lia]. apply set_ok; [done|done|lia].
Qed.

Lemma iterator_complete_witness :
  exists l, iter_collect 10 false (iterator 10 true (set 10 (set 10 init_empty 0) 3)) = Ok l /\
    StronglySorted gt l /\ list_to_set l = elems (set 10 (set 10 init_empty 0) 3).
Proof. exact (iterator_complete 10 _ true false sample_ok). Defined.

Lemma find_first_set_spec SIZE s :
  bitset_ok SIZE s ->
  match find_first_set s with
  | None => elems s = ∅
  | Some i => i ∈ elems s /\ (forall j, (j < i)%nat -> j ∉ elems s)
  end.
Proof.
  intros (_ & Hw & _). unfold find_first_set, trailing_zeros.
  destruct (Z.eqb_spec (mask s) 0) as [E|E]; [unfold elems; by rewrite E|].
  destruct (word_bits (mask s)) as [|i l] eqn:Eb; [by apply word_bits_nil in Eb|].
  destruct (word_bits_head_least _ _ _ Eb) as (Hi & Hb & Hlow). cbn [head default].
  split; [by apply elem_of_elems|]. intros j Hj. rewrite elem_of_elems by done. rewrite Hlow by done. done.
Qed.

Lemma find_first_unset_complement SIZE s : find_first_unset SIZE s = find_first_set (toggle_all SIZE s).
Proof. reflexivity. Qed.

Lemma toggle_first_set_ok SIZE s :
  bitset_ok SIZE s ->
  bitset_ok SIZE (toggle_first_set s).2 /\
  elems (toggle_first_set s).2 = match find_first_set s with None => elems s | Some i => elems s ∖ {[i]} end.
Proof.
  intros Hs. pose proof Hs as (HS & Hw & Hsub). unfold toggle_first_set, find_first_set, trailing_zeros.
  destruct (Z.eqb_spec (mask s) 0) as [E|E]; [done|].
  destruct (word_bits (mask s)) as [|i l] eqn:Eb; [by apply word_bits_nil in Eb|].
  destruct (word_bits_head_least _ _ _ Eb) as (Hi & Hb & Hlow). cbn [head default snd].
  apply (elems_by_bits SIZE); [done| |set_solver|].
  - apply word_ok_land; [done|]. unfold word_ok in *. lia.
  - intros j Hj. rewrite (land_pred_testbit _ i), (testbit_elems SIZE) by (done || lia).
    apply eq_true_iff_eq. rewrite andb_true_iff, negb_true_iff, !bool_decide_eq_true, elem_of_difference, elem_of_singleton, Z.eqb_neq.
    naive_solver lia.
Qed.

(** The searches return the least index in, or missing from, the set, and
    [toggle_first_set] removes exactly the index it returns. *)
Theorem find_first_spec (SIZE : nat) (s : IntegerBitSet) :
  bitset_ok SIZE s ->
  match find_first_set s with
  | None => elems s = ∅
  | Some i => i ∈ elems s /\ (forall j, (j < i)%nat -> j ∉ elems s)
  end /\
  match find_first_unset SIZE s with
  | None => elems s = set_seq 0 SIZE
  | Some i => (i < SIZE)%nat /\ i ∉ elems s /\ (forall j, (j < i)%nat -> j ∈ elems s)
  end /\
  (toggle_first_set s).1 = find_first_set s /\
  bitset_ok SIZE (toggle_first_set s).2 /\
  elems (toggle_first_set s).2 = match find_first_set s with None => elems s | Some i => elems s ∖ {[i]} end /\
  count s = size (elems s).
Proof.
  intros Hs. assert (HS : (SIZE <= 64)%nat) by apply Hs.
  split; [|split; [|split; [|split; [|split]]]].
  - by apply (find_first_set_spec SIZE).
  - rewrite find_first_unset_complement. destruct (toggle_all_ok SIZE HS s Hs) as [Hc Ec].
    pose proof (find_first_set_spec SIZE _ Hc) as Hf. destruct (find_first_set (toggle_all SIZE s)) as [i|].
    + rewrite Ec, elem_of_difference, elem_of_set_seq in Hf. destruct Hf as [[Hi Hni] Hlt].
      split_and!; [lia|done|]. intros j Hj. specialize (Hlt j Hj).
      rewrite elem_of_difference, elem_of_set_seq in Hlt. destruct (decide (j ∈ elems s)); [done|]. exfalso. apply Hlt. split; [lia|done].
    + rewrite Ec in Hf. apply set_eq. intros j. split; [apply Hs|]. intros Hj.
      destruct (decide (j ∈ elems s)) as [|Hn]; [done|]. exfalso. apply (not_elem_of_empty (C:=gset nat) j).
      rewrite <- Hf. by apply elem_of_difference.
  - unfold toggle_first_set, find_first_set. by destruct (mask s =? 0).
  - by apply (toggle_first_set_ok SIZE).
  - by apply (toggle_first_set_ok SIZE).
  - unfold count, count_ones, elems. rewrite size_list_to_set by apply word_bits_NoDup. done.
Qed.

Lemma find_first_spec_witness :
  count (set 10 (set 10 init_empty 0) 3) = size (elems (set 10 (set 10 init_empty 0) 3)).
Proof. exact (proj2 (proj2 (proj2 (proj2 (proj2 (find_first_spec 10 _ sample_ok)))))). Defined.

(** Every operation on good bit sets yields a good bit set whose elements are the
    ones the set operation of the same name gives; the queries decide membership, equality and
    inclusion. *)
Theorem operations_refine_sets (SIZE : nat) (s t : IntegerBitSet) (i start end_ : nat) (v : bool) :
  bitset_ok SIZE s -> bitset_ok SIZE t -> (i < SIZE)%nat -> (start <= end_ <= SIZE)%nat ->
  let refines r (X : gset nat) := bitset_ok SIZE r /\ elems r = X in
  refines (set SIZE s i) (elems s ∪ {[i]}) /\
  refines (unset SIZE s i) (elems s ∖ {[i]}) /\
  refines (set_value SIZE s i v) (if v then elems s ∪ {[i]} else elems s ∖ {[i]}) /\
  refines (set_range_value SIZE s start end_ v)
          (if v then elems s ∪ set_seq start (end_ - start) else elems s ∖ set_seq start (end_ - start)) /\
  refines (complement SIZE s) (set_seq 0 SIZE ∖ elems s) /\
  refines (union_with s t) (elems s ∪ elems t) /\
  refines (intersect_with s t) (elems s ∩ elems t) /\
  refines (xor_with s t) ((elems s ∖ elems t) ∪ (elems t ∖ elems s)) /\
  refines (difference_with SIZE s t) (elems s ∖ elems t) /\
  is_set SIZE s i = bool_decide (i ∈ elems s) /\
  eql SIZE s t = bool_decide (elems s = elems t) /\
  subset_of SIZE s t = bool_decide (elems s ⊆ elems t) /\
  superset_of SIZE s t = bool_decide (elems t ⊆ elems s).
Proof.
  intros Hs Ht Hi He. assert (HS : (SIZE <= 64)%nat) by apply Hs. cbv zeta.
  repeat match goal with |- _ /\ _ => split end.
  all: first
    [ by apply (set_ok SIZE HS) | by apply (unset_ok SIZE HS) | by apply (set_value_ok SIZE HS)
    | by apply (set_range_value_ok SIZE HS) | by apply (toggle_all_ok SIZE HS) | by apply (set_union_ok SIZE HS)
    | by apply (set_intersection_ok SIZE HS) | by apply (toggle_set_ok SIZE HS) | by apply (difference_with_ok SIZE HS)
    | by apply (is_set_elems SIZE HS) | by apply (eql_ok SIZE HS) | by apply (subset_of_ok SIZE HS) ].
Qed.

Lemma operations_refine_sets_witness :
  bitset_ok 10 (set 10 (set 10 (set 10 init_empty 0) 3) 7) /\
  elems (set 10 (set 10 (set 10 init_empty 0) 3) 7) = elems (set 10 (set 10 init_empty 0) 3) ∪ {[7%nat]}.
Proof.
  exact (proj1 (operations_refine_sets 10 _ _ 7 2 5 true sample_ok sample_ok ltac:(lia) ltac:(lia))).
Defined.
