(* ===== verification/Wyhash.v ===== *)
(** * Wyhash11 ([wyhash/lib.rs])

    The 32-byte-round variant that [SlicedString::external] and the semver
    string builder hash with: the stateless core, the one-shot [hash] and the
    buffered streaming hasher, with the theorem that streaming any split of the
    input computes the one-shot hash.  Words are integers modulo [2^64]. *)

From S2P Require Import Prelude.

Definition PRIMES0 : Z := 11562461410679940143.
Definition PRIMES1 : Z := 16646288086500911323.
Definition PRIMES2 : Z := 10285213230658275043.
Definition PRIMES3 : Z := 6384245875588680899.
Definition PRIMES4 : Z := 2129725606500045391.

(** [read_bytes::<n>]: the little-endian word of the first [n] bytes. *)
Definition read_bytes (n : nat) (data : list Z) : Z := le_value (take n data).

Definition read_8bytes_swapped (data : list Z) : Z :=
  Z.lor (wrap 64 (Z.shiftl (read_bytes 4 data) 32)) (read_bytes 4 (drop 4 data)).

Definition mum (a b : Z) : Z :=
  let r := wrap 128 (a * b) in
  wrap 64 (Z.lxor (Z.shiftr r 64) r).

Definition mix0 (a b seed : Z) : Z :=
  mum (Z.lxor (Z.lxor a seed) PRIMES0) (Z.lxor (Z.lxor b seed) PRIMES1).

Definition mix1 (a b seed : Z) : Z :=
  mum (Z.lxor (Z.lxor a seed) PRIMES2) (Z.lxor (Z.lxor b seed) PRIMES3).

(** [(hi << s) | lo] on [u64] *)
Definition shl_or (hi s lo : Z) : Z := Z.lor (wrap 64 (Z.shiftl hi s)) lo.

(** The 17..=31-byte arms; the unreachable arm of other lengths is [0]. *)
Definition final_long (seed : Z) (key : list Z) : Z :=
  let r n at_ := read_bytes n (drop at_ key) in
  let head := mix0 (read_8bytes_swapped key) (read_8bytes_swapped (drop 8 key)) seed in
  let sw := read_8bytes_swapped (drop 16 key) in
  let tail :=
    match length key with
    | 17%nat => mix1 (r 1%nat 16%nat) PRIMES4 seed
    | 18%nat => mix1 (r 2%nat 16%nat) PRIMES4 seed
    | 19%nat => mix1 (shl_or (r 2%nat 16%nat) 8 (r 1%nat 18%nat)) PRIMES4 seed
    | 20%nat => mix1 (r 4%nat 16%nat) PRIMES4 seed
    | 21%nat => mix1 (shl_or (r 4%nat 16%nat) 8 (r 1%nat 20%nat)) PRIMES4 seed
    | 22%nat => mix1 (shl_or (r 4%nat 16%nat) 16 (r 2%nat 20%nat)) PRIMES4 seed
    | 23%nat => mix1 (Z.lor (shl_or (r 4%nat 16%nat) 24 (wrap 64 (Z.shiftl (r 2%nat 20%nat) 8)))
                            (r 1%nat 22%nat)) PRIMES4 seed
    | 24%nat => mix1 sw PRIMES4 seed
    | 25%nat => mix1 sw (r 1%nat 24%nat) seed
    | 26%nat => mix1 sw (r 2%nat 24%nat) seed
    | 27%nat => mix1 sw (shl_or (r 2%nat 24%nat) 8 (r 1%nat 26%nat)) seed
    | 28%nat => mix1 sw (r 4%nat 24%nat) seed
    | 29%nat => mix1 sw (shl_or (r 4%nat 24%nat) 8 (r 1%nat 28%nat)) seed
    | 30%nat => mix1 sw (shl_or (r 4%nat 24%nat) 16 (r 2%nat 28%nat)) seed
    | 31%nat => mix1 sw (Z.lor (shl_or (r 4%nat 24%nat) 24 (wrap 64 (Z.shiftl (r 2%nat 28%nat) 8)))
                               (r 1%nat 30%nat)) seed
    | _ => 0
    end in
  Z.lxor head tail.

Record WyhashStateless := mkStateless { seed : Z; msg_len : Z }.

Definition stateless_init (s : Z) : WyhashStateless := mkStateless s 0.

Definition stateless_round (st : WyhashStateless) (b : list Z) : WyhashStateless :=
  mkStateless
    (Z.lxor (mix0 (read_bytes 8 b) (read_bytes 8 (drop 8 b)) (seed st))
            (mix1 (read_bytes 8 (drop 16 b)) (read_bytes 8 (drop 24 b)) (seed st)))
    (msg_len st).

(** The block loop of [update], [n] the number of blocks. *)
Fixpoint stateless_rounds (n : nat) (st : WyhashStateless) (b : list Z) : WyhashStateless :=
  match n with
  | O => st
  | S n => stateless_rounds n (stateless_round st (take 32 b)) (drop 32 b)
  end.

(** [WyhashStateless::update]; [b.len()] is a multiple of 32. *)
Definition stateless_update (st : WyhashStateless) (b : list Z) : WyhashStateless :=
  let st := stateless_rounds (length b / 32) st b in
  mkStateless (seed st) (wrap 64 (msg_len st + Z.of_nat (length b))).

Definition stateless_final (st : WyhashStateless) (b : list Z) : Z :=
  let s := seed st in
  let r n at_ := read_bytes n (drop at_ b) in
  let sw := read_8bytes_swapped b in
  let s' :=
    match length b with
    | 0%nat => s
    | 1%nat => mix0 (r 1%nat 0%nat) PRIMES4 s
    | 2%nat => mix0 (r 2%nat 0%nat) PRIMES4 s
    | 3%nat => mix0 (shl_or (r 2%nat 0%nat) 8 (r 1%nat 2%nat)) PRIMES4 s
    | 4%nat => mix0 (r 4%nat 0%nat) PRIMES4 s
    | 5%nat => mix0 (shl_or (r 4%nat 0%nat) 8 (r 1%nat 4%nat)) PRIMES4 s
    | 6%nat => mix0 (shl_or (r 4%nat 0%nat) 16 (r 2%nat 4%nat)) PRIMES4 s
    | 7%nat => mix0 (Z.lor (shl_or (r 4%nat 0%nat) 24 (wrap 64 (Z.shiftl (r 2%nat 4%nat) 8)))
                           (r 1%nat 6%nat)) PRIMES4 s
    | 8%nat => mix0 sw PRIMES4 s
    | 9%nat => mix0 sw (r 1%nat 8%nat) s
    | 10%nat => mix0 sw (r 2%nat 8%nat) s
    | 11%nat => mix0 sw (shl_or (r 2%nat 8%nat) 8 (r 1%nat 10%nat)) s
    | 12%nat => mix0 sw (r 4%nat 8%nat) s
    | 13%nat => mix0 sw (shl_or (r 4%nat 8%nat) 8 (r 1%nat 12%nat)) s
    | 14%nat => mix0 sw (shl_or (r 4%nat 8%nat) 16 (r 2%nat 12%nat)) s
    | 15%nat => mix0 sw (Z.lor (shl_or (r 4%nat 8%nat) 24 (wrap 64 (Z.shiftl (r 2%nat 12%nat) 8)))
                               (r 1%nat 14%nat)) s
    | 16%nat => mix0 sw (read_8bytes_swapped (drop 8 b)) s
    | _ => final_long s b
    end in
  mum (Z.lxor s' (wrap 64 (msg_len st + Z.of_nat (length b)))) PRIMES4.

(** [WyhashStateless::hash], also [Wyhash11::hash]. *)
Definition hash (s : Z) (input : list Z) : Z :=
  let aligned_len := (length input - length input mod 32)%nat in
  stateless_final (stateless_update (stateless_init s) (take aligned_len input))
    (drop aligned_len input).

(** ** The streaming hasher *)

Record Wyhash11 := mkWyhash11 { state : WyhashStateless; buf : list Z; buf_len : nat }.

Definition init (s : Z) : Wyhash11 := mkWyhash11 (stateless_init s) (replicate 32 0) 0.

Definition update (h : Wyhash11) (b : list Z) : Wyhash11 :=
  let '(h, off) :=
    if (negb (buf_len h =? 0) && (32 <=? buf_len h + length b))%nat then
      let off := (32 - buf_len h)%nat in
      let buf' := copy_at (buf h) (buf_len h) (take off b) in
      (mkWyhash11 (stateless_update (state h) buf') buf' 0, off)
    else (h, 0%nat) in
  let remain_len := (length b - off)%nat in
  let aligned_len := (remain_len - remain_len mod 32)%nat in
  let st := stateless_update (state h) (take aligned_len (drop off b)) in
  let tail := drop (off + aligned_len) b in
  mkWyhash11 st (copy_at (buf h) (buf_len h) tail) (buf_len h + length tail).

Definition final (h : Wyhash11) : Z :=
  stateless_final (state h) (take (buf_len h) (buf h)).

(** ** [OneShotHasher]: the hasher of the in-memory tables *)

(** The calls that a key's [Hash] implementation makes. *)
Inductive HasherCall :=
| write (bytes : list Z)
| write_u8 (n : Z)
| write_u16 (n : Z)
| write_u32 (n : Z)
| write_u64 (n : Z)
| write_usize (n : Z)
| write_length_prefix (len : Z).

Record OneShotHasher := mkOneShot { running : Z }.

Definition one_shot_default : OneShotHasher := mkOneShot 0.

Definition one_shot_call (h : OneShotHasher) (c : HasherCall) : OneShotHasher :=
  match c with
  | write bytes => mkOneShot (hash (running h) bytes)
  | write_u8 n | write_u16 n | write_u32 n | write_u64 n | write_usize n => mkOneShot (mum (Z.lxor (running h) n) PRIMES4)
  | write_length_prefix _ => h
  end.

(** [key.hash(&mut h)] makes the calls of the key. *)
Definition auto_hash (key : list HasherCall) : Z := running (foldl one_shot_call one_shot_default key).

(** A byte slice announces its length and writes itself. *)
Lemma auto_hash_slice s : auto_hash [write_length_prefix (Z.of_nat (length s)); write s] = hash 0 s.
Proof. done. Qed.

(** ** Streaming computes the one-shot hash *)

(** The stateless hasher fed with [b] in one go, the remainder left out. *)
Definition absorbed (s : Z) (b : list Z) : WyhashStateless :=
  stateless_update (stateless_init s) (take (length b - length b mod 32) b).

(** What the hasher holds after the input [m]. *)
Definition holds (s : Z) (h : Wyhash11) (m : list Z) : Prop :=
  length (buf h) = 32%nat /\
  state h = absorbed s m /\
  buf_len h = (length m mod 32)%nat /\
  take (buf_len h) (buf h) = drop (length m - length m mod 32) m.

Lemma stateless_rounds_app n k st (a b : list Z) :
  length a = (32 * n)%nat ->
  stateless_rounds (n + k) st (a ++ b) = stateless_rounds k (stateless_rounds n st a) b.
Proof.
  revert st a. induction n as [|n IH]; intros st a Ha; simpl.
  - by destruct a.
  - rewrite take_app_le, drop_app_le by lia. apply IH. rewrite length_drop. lia.
Qed.

Lemma stateless_rounds_msg_len n st (b : list Z) :
  msg_len (stateless_rounds n st b) = msg_len st.
Proof. revert st b. induction n; intros; simpl; [done|]. by rewrite IHn. Qed.

Lemma stateless_rounds_seed n st st' (b : list Z) :
  seed st = seed st' -> seed (stateless_rounds n st b) = seed (stateless_rounds n st' b).
Proof.
  revert st st' b. induction n as [|n IH]; intros st st' b E; simpl; [done|].
  apply IH. unfold stateless_round. simpl. by rewrite E.
Qed.

(** Feeding two block-aligned pieces is feeding their concatenation. *)
Lemma stateless_update_app st (a b : list Z) :
  (length a mod 32 = 0)%nat -> (length b mod 32 = 0)%nat ->
  stateless_update (stateless_update st a) b = stateless_update st (a ++ b).
Proof.
  intros Ha Hb. unfold stateless_update.
  rewrite !stateless_rounds_msg_len. f_equal.
  - rewrite length_app.
    pose proof (Nat.div_mod_eq (length a) 32). pose proof (Nat.div_mod_eq (length b) 32).
    replace ((length a + length b) / 32)%nat with (length a / 32 + length b / 32)%nat.
    2:{ apply (Nat.div_unique _ _ _ 0); lia. }
    rewrite stateless_rounds_app by lia. by apply stateless_rounds_seed.
  - simpl. rewrite length_app, Nat2Z.inj_add. unfold wrap.
    rewrite Z.add_mod_idemp_l by lia. f_equal. lia.
Qed.

Lemma sub_mod32 n : ((n - n mod 32) mod 32 = 0)%nat.
Proof.
  pose proof (Nat.div_mod_eq n 32). replace (n - n mod 32)%nat with (n / 32 * 32)%nat by lia.
  apply Nat.Div0.mod_mul.
Qed.

Lemma aligned_length (m : list Z) :
  (length (take (length m - length m mod 32) m) mod 32 = 0)%nat.
Proof. rewrite length_take_le by lia. apply sub_mod32. Qed.

Lemma absorbed_split s (m : list Z) n :
  (n mod 32 = 0)%nat -> (n <= length m)%nat -> (length m < n + 32)%nat ->
  absorbed s m = stateless_update (stateless_init s) (take n m).
Proof.
  intros Hn H1 H2. unfold absorbed. do 2 f_equal.
  pose proof (Nat.div_mod_eq n 32). pose proof (Nat.div_mod_eq (length m) 32).
  pose proof (Nat.mod_upper_bound (length m) 32 ltac:(lia)). lia.
Qed.

Lemma holds_init s : holds s (init s) [].
Proof. repeat split; done. Qed.

(** A short tail that does not complete a block is only buffered. *)
Lemma holds_append s h (m t : list Z) :
  holds s h m -> (buf_len h + length t < 32)%nat ->
  holds s (mkWyhash11 (state h) (copy_at (buf h) (buf_len h) t) (buf_len h + length t)) (m ++ t).
Proof.
  intros (Hlen & Hst & Hbl & Hbuf) Ht.
  pose proof (Nat.div_mod_eq (length m) 32) as Em.
  assert (Hmod : ((length m + length t) mod 32 = buf_len h + length t)%nat).
  { symmetry. apply (Nat.mod_unique _ _ (length m / 32)%nat); lia. }
  repeat split; cbn [buf state buf_len].
  - rewrite copy_at_length; lia.
  - rewrite Hst. symmetry. rewrite (absorbed_split s (m ++ t) (length m - length m mod 32)).
    + rewrite take_app_le by lia. done.
    + apply sub_mod32.
    + rewrite length_app. lia.
    + rewrite length_app. lia.
  - rewrite length_app. by rewrite Hmod.
  - rewrite copy_at_take by lia. rewrite Hbuf, length_app, Hmod.
    replace (length m + length t - (buf_len h + length t))%nat with (length m - length m mod 32)%nat by lia.
    rewrite drop_app_le by lia. done.
Qed.

(** With an empty buffer, the aligned part is absorbed and the rest buffered. *)
Lemma holds_fresh s h (m b : list Z) :
  holds s h m -> buf_len h = 0%nat ->
  let aligned := (length b - length b mod 32)%nat in
  holds s (mkWyhash11 (stateless_update (state h) (take aligned b))
             (copy_at (buf h) 0 (drop aligned b)) (length (drop aligned b))) (m ++ b).
Proof.
  intros (Hlen & Hst & Hbl & Hbuf) H0 aligned.
  pose proof (Nat.div_mod_eq (length m) 32) as Em.
  pose proof (Nat.div_mod_eq (length b) 32) as Eb.
  pose proof (Nat.mod_upper_bound (length b) 32 ltac:(lia)).
  assert (Hd : length (drop aligned b) = (length b mod 32)%nat) by (rewrite length_drop; lia).
  assert (Hm : take (length m - length m mod 32) m = m) by (apply take_ge; lia).
  assert (Hmod : ((length m + length b) mod 32 = length b mod 32)%nat).
  { symmetry. apply (Nat.mod_unique _ _ (length m / 32 + length b / 32)%nat); lia. }
  repeat split; cbn [buf state buf_len].
  - rewrite copy_at_length; lia.
  - rewrite Hst. unfold absorbed at 1. rewrite Hm.
    rewrite stateless_update_app.
    + rewrite (absorbed_split s (m ++ b) (length m + aligned)).
      * by rewrite take_app_add.
      * symmetry. apply (Nat.mod_unique _ _ (length m / 32 + length b / 32)%nat); lia.
      * rewrite length_app. lia.
      * rewrite length_app. lia.
    + lia.
    + apply aligned_length.
  - by rewrite Hd, length_app, Hmod.
  - pose proof (copy_at_take (buf h) 0 (drop aligned b)) as E. simpl in E.
    rewrite E by lia. rewrite length_app, Hmod.
    replace (length m + length b - length b mod 32)%nat with (length m + aligned)%nat by lia.
    by rewrite drop_app_add.
Qed.

(** Completing the buffered block. *)
Lemma holds_fill s h (m b : list Z) :
  holds s h m -> buf_len h <> 0%nat -> (32 <= buf_len h + length b)%nat ->
  let off := (32 - buf_len h)%nat in
  let buf' := copy_at (buf h) (buf_len h) (take off b) in
  holds s (mkWyhash11 (stateless_update (state h) buf') buf' 0) (m ++ take off b).
Proof.
  intros (Hlen & Hst & Hbl & Hbuf) H0 Hb off buf'.
  pose proof (Nat.div_mod_eq (length m) 32) as Em.
  pose proof (Nat.mod_upper_bound (length m) 32 ltac:(lia)).
  assert (Ho : length (take off b) = off) by (apply length_take_le; lia).
  assert (Hb' : buf' = drop (length m - length m mod 32) m ++ take off b).
  { unfold buf'. rewrite <- Hbuf, <- (copy_at_take (buf h) (buf_len h)) by lia.
    symmetry. apply take_ge. rewrite copy_at_length; lia. }
  assert (Hl' : length buf' = 32%nat) by (unfold buf'; rewrite copy_at_length; lia).
  assert (Hmod : (length (m ++ take off b) mod 32 = 0)%nat).
  { rewrite length_app, Ho. symmetry. apply (Nat.mod_unique _ _ (length m / 32 + 1)%nat); lia. }
  repeat split; cbn [buf state buf_len].
  - done.
  - rewrite Hst. unfold absorbed at 1. rewrite stateless_update_app.
    + rewrite Hb', app_assoc, take_drop. unfold absorbed. rewrite Hmod, Nat.sub_0_r.
      by rewrite (take_ge (m ++ _)).
    + apply aligned_length.
    + by rewrite Hl'.
  - by rewrite Hmod.
  - rewrite Hmod, Nat.sub_0_r. by rewrite drop_all.
Qed.

Lemma update_buffered h (b : list Z) s m :
  holds s h m -> (buf_len h + length b < 32)%nat ->
  update h b = mkWyhash11 (state h) (copy_at (buf h) (buf_len h) b) (buf_len h + length b).
Proof.
  intros (Hlen & Hst & _) Hb. unfold update.
  replace (32 <=? buf_len h + length b)%nat with false by (symmetry; apply Nat.leb_gt; lia).
  rewrite andb_false_r. cbv iota beta zeta. rewrite Nat.sub_0_r, Nat.mod_small, Nat.sub_diag by lia.
  simpl drop. simpl take. f_equal. rewrite Hst.
  unfold absorbed, stateless_update. simpl. f_equal.
  unfold wrap. rewrite Z.add_0_r. apply Z.mod_mod. lia.
Qed.

Lemma update_fresh h (b : list Z) :
  buf_len h = 0%nat ->
  let aligned := (length b - length b mod 32)%nat in
  update h b = mkWyhash11 (stateless_update (state h) (take aligned b))
                 (copy_at (buf h) 0 (drop aligned b)) (length (drop aligned b)).
Proof.
  intros H0 aligned. unfold update. rewrite H0. cbn [Nat.eqb negb andb].
  cbv iota beta zeta. by rewrite Nat.sub_0_r, drop_0, H0.
Qed.

(** One [update] call extends what the hasher holds. *)
Lemma holds_update s h (m b : list Z) : holds s h m -> holds s (update h b) (m ++ b).
Proof.
  intros H. destruct (decide (buf_len h = 0%nat)) as [H0|H0].
  { rewrite update_fresh by done. by apply holds_fresh. }
  destruct (decide (buf_len h + length b < 32)%nat) as [Hb|Hb].
  { rewrite (update_buffered _ _ _ _ H Hb). by apply holds_append. }
  pose proof (holds_fill s h m b H H0 ltac:(lia)) as Hf. cbv zeta in Hf.
  set (off := (32 - buf_len h)%nat) in *.
  pose proof (holds_fresh _ _ _ (drop off b) Hf eq_refl) as Hg.
  rewrite <- app_assoc, take_drop in Hg. cbv zeta in Hg. rewrite length_drop in Hg.
  unfold update.
  replace (negb (buf_len h =? 0)%nat && (32 <=? buf_len h + length b)%nat) with true.
  2:{ symmetry. rewrite andb_true_iff, negb_true_iff, Nat.eqb_neq, Nat.leb_le. lia. }
  fold off. cbv iota beta zeta. cbn [state buf buf_len] in *.
  rewrite drop_drop in Hg. by rewrite Nat.add_0_l.
Qed.

Lemma final_holds s h (m : list Z) : holds s h m -> final h = hash s m.
Proof.
  intros (_ & Hst & _ & Hbuf). unfold final, hash. by rewrite Hbuf, Hst.
Qed.

(** (C38) Splitting the input into any sequence of [update] calls does not change the
    hash: the streaming hasher agrees with the one-shot [Wyhash11::hash]. *)
Theorem streaming_hash (s : Z) (chunks : list (list Z)) :
  final (fold_left update chunks (init s)) = hash s (concat chunks).
Proof.
  apply final_holds.
  assert (H : forall h m, holds s h m -> holds s (fold_left update chunks h) (m ++ concat chunks)).
  { induction chunks as [|c cs IH]; intros h m Hh; simpl.
    - by rewrite app_nil_r.
    - rewrite app_assoc. apply IH, holds_update, Hh. }
  apply (H _ []), holds_init.
Qed.

Lemma hash_u64 s (m : list Z) : u64_ok (hash s m).
Proof. apply Z.mod_pos_bound. lia. Qed.
