(* ===== verification/SemverString.v ===== *)
(** * Semver strings ([semver/lib.rs])

    The 8-byte [String] handle (inline bytes, or offset and length into an
    external buffer), [ExternalString] (a handle with its hash), [SlicedString]
    (a slice together with the buffer it lies in), the deduplicating [Buf] and
    the two-pass [Builder].

    A Rust slice is a [memory_slice]: its address and its contents, since
    [Pointer::init] subtracts addresses. *)

From stdpp Require Import gmap.
From S2P Require Import Prelude Strings Wyhash.

(** [&[u8]] with the address of its first byte. *)
Record memory_slice := mkSlice { addr : Z; data : list Z }.

(** [&s[a..]] and [&s[a..b]] *)
Definition ms_from (s : memory_slice) (a : nat) : outcome memory_slice :=
  d ← slice_from (data s) a; Ok (mkSlice (addr s + Z.of_nat a) d).
Definition ms_range (s : memory_slice) (a b : nat) : outcome memory_slice :=
  d ← slice_range (data s) a b; Ok (mkSlice (addr s + Z.of_nat a) d).

(** [s] lies in [buf]: [bun_alloc::is_slice_in_buffer]. *)
Definition slice_in (s buf : memory_slice) : Prop :=
  exists off : nat, addr s = addr buf + Z.of_nat off /\
    (off + length (data s) <= length (data buf))%nat /\
    data s = take (length (data s)) (drop off (data buf)).

(** ** [String.Pointer] *)

Record Pointer := mkPointer { ptr_off : Z; ptr_len : Z }.

Definition Pointer_init (buf in_ : memory_slice) : Pointer :=
  mkPointer (wrap 32 (wrap 64 (addr in_ - addr buf))) (wrap 32 (Z.of_nat (length (data in_)))).

Definition Pointer_to_bits (p : Pointer) : Z :=
  le_value (le_bytes 4 (ptr_off p) ++ le_bytes 4 (ptr_len p)).

Definition Pointer_from_bits (bits : Z) : Pointer :=
  let b := le_bytes 8 bits in
  mkPointer (le_value (take 4 b)) (le_value (drop 4 b)).

(** ** [String] *)

Definition MAX_INLINE_LEN : nat := 8.
Definition MAX_ADDRESSABLE_SPACE_MASK : Z := 2 ^ 63 - 1.

(** The handle's [bytes: [u8; 8]]. *)
Record SString := mkString { s_bytes : list Z }.

#[export] Instance SString_eq_dec : EqDecision SString.
Proof. solve_decision. Defined.

Definition String_default : SString := mkString (replicate 8 0).

(** The byte that holds the tag bit. *)
Definition last_byte (s : SString) : Z := nth 7 (s_bytes s) 0.

Definition is_inline (s : SString) : bool := Z.land (last_byte s) 128 =? 0.

Definition can_inline (buf : list Z) : bool :=
  if (length buf <=? 7)%nat then true
  else if (length buf =? 8)%nat then Z.land (nth 7 buf 0) 128 =? 0
  else false.

(** The bytes [[in_[0], .., in_[n-1], 0, ..]] of an inline handle. *)
Definition inline_bytes (in_ : list Z) : SString :=
  mkString (in_ ++ replicate (8 - length in_) 0).

(** [(ptr_bits & MAX_ADDRESSABLE_SPACE_MASK) | (1u64 << 63)], as bytes. *)
Definition external_bytes (p : Pointer) : SString :=
  mkString (le_bytes 8 (Z.lor (Z.land (Pointer_to_bits p) MAX_ADDRESSABLE_SPACE_MASK) (2 ^ 63))).

(** [String::init] *)
Definition String_init (buf in_ : memory_slice) : SString :=
  let d := data in_ in
  if (length d =? 0)%nat then String_default
  else if (length d <=? 7)%nat then inline_bytes d
  else if (length d =? 8)%nat then
    if 128 <=? nth 7 d 0 then external_bytes (Pointer_init buf in_)
    else inline_bytes d
  else external_bytes (Pointer_init buf in_).

(** [String::init_inline]; longer inputs are [unreachable!()]. *)
Definition init_inline (in_ : list Z) : outcome SString :=
  if (length in_ =? 0)%nat then Ok String_default
  else if (length in_ <=? 8)%nat then Ok (inline_bytes in_)
  else Panic.

(** [String::init_append]: the address [at_] of the buffer cancels out. *)
Definition init_append (buf in_ : list Z) : list Z * SString :=
  let items := buf ++ in_ in
  let in_buf := mkSlice (Z.of_nat (length items - length in_)) in_ in
  (items, external_bytes (Pointer_init (mkSlice 0 items) in_buf)).

Definition init_append_if_needed (buf in_ : list Z) : list Z * SString :=
  if (length in_ =? 0)%nat then (buf, String_default)
  else if (length in_ <=? 7)%nat then (buf, inline_bytes in_)
  else if (length in_ =? 8)%nat then
    if 128 <=? nth 7 in_ 0 then init_append buf in_ else (buf, inline_bytes in_)
  else init_append buf in_.

Definition String_is_empty (s : SString) : bool := le_value (s_bytes s) =? 0.

Definition String_ptr (s : SString) : Pointer :=
  Pointer_from_bits (Z.land (le_value (s_bytes s)) MAX_ADDRESSABLE_SPACE_MASK).

(** The bytes before the first zero byte: the scan of [len] and [slice]. *)
Fixpoint until_zero (l : list Z) : list Z :=
  match l with
  | [] => []
  | b :: l' => if b =? 0 then [] else b :: until_zero l'
  end.

Definition String_len (s : SString) : nat :=
  if is_inline s then length (until_zero (s_bytes s)) else Z.to_nat (ptr_len (String_ptr s)).

(** [buf.get(off..off + len)] *)
Definition get_range (buf : list Z) (p : Pointer) : option (list Z) :=
  if ptr_off p + ptr_len p <=? Z.of_nat (length buf)
  then Some (take (Z.to_nat (ptr_len p)) (drop (Z.to_nat (ptr_off p)) buf))
  else None.

(** [String::slice] *)
Definition String_slice (s : SString) (buf : list Z) : list Z :=
  if is_inline s then until_zero (s_bytes s)
  else default [] (get_range buf (String_ptr s)).

(** [String::eql] *)
Definition String_eql (s that : SString) (this_buf that_buf : list Z) : bool :=
  if is_inline s && is_inline that then le_value (s_bytes s) =? le_value (s_bytes that)
  else if negb (Bool.eqb (is_inline s) (is_inline that)) then false
  else match get_range this_buf (String_ptr s), get_range that_buf (String_ptr that) with
       | Some a, Some b => bool_decide (a = b)
       | _, _ => false
       end.

Definition String_order (s rhs : SString) (lhs_buf rhs_buf : list Z) : comparison :=
  order (String_slice s lhs_buf) (String_slice rhs rhs_buf).

(** ** [ExternalString] and [SlicedString] *)

Record ExternalString := mkExternal { ext_value : SString; ext_hash : Z }.

#[export] Instance ExternalString_eq_dec : EqDecision ExternalString.
Proof. solve_decision. Defined.

Definition External_default : ExternalString := mkExternal String_default 0.

Definition External_init (buf in_ : memory_slice) (h : Z) : ExternalString :=
  mkExternal (String_init buf in_) h.

Definition External_order (e rhs : ExternalString) (lhs_buf rhs_buf : list Z) : comparison :=
  if (ext_hash e =? ext_hash rhs) && (0 <? ext_hash e) then Eq
  else String_order (ext_value e) (ext_value rhs) lhs_buf rhs_buf.

Definition External_is_empty (e : ExternalString) : bool := String_is_empty (ext_value e).
Definition External_is_inline (e : ExternalString) : bool := is_inline (ext_value e).
Definition External_len (e : ExternalString) : nat := String_len (ext_value e).
Definition External_slice (e : ExternalString) (buf : list Z) : list Z := String_slice (ext_value e) buf.

Record SlicedString := mkSliced { sl_buf : memory_slice; sl_slice : memory_slice }.

Definition Sliced_external (s : SlicedString) : ExternalString :=
  External_init (sl_buf s) (sl_slice s) (hash 0 (data (sl_slice s))).

Definition Sliced_value (s : SlicedString) : SString := String_init (sl_buf s) (sl_slice s).

Definition Sliced_sub (s : SlicedString) (input : memory_slice) : SlicedString :=
  mkSliced (sl_buf s) input.

(** ** [String.Buf]: append with deduplication by hash *)

Record Buf := mkBuf { buf_bytes : list Z; buf_pool : gmap Z SString }.

Definition string_hash (s : list Z) : Z := hash 0 s.

Definition Buf_append_with_hash (b : Buf) (s : list Z) (h : Z) : outcome (Buf * SString) :=
  if can_inline s then v ← init_inline s; Ok (b, v)
  else match buf_pool b !! h with
       | Some v => Ok (b, v)
       | None =>
           let '(bytes', new) := init_append (buf_bytes b) s in
           Ok (mkBuf bytes' (<[h := new]> (buf_pool b)), new)
       end.

Definition Buf_append (b : Buf) (s : list Z) : outcome (Buf * SString) :=
  if can_inline s then v ← init_inline s; Ok (b, v)
  else match buf_pool b !! string_hash s with
       | Some v => Ok (b, v)
       | None =>
           let '(bytes', new) := init_append (buf_bytes b) s in
           Ok (mkBuf bytes' (<[string_hash s := new]> (buf_pool b)), new)
       end.

Definition Buf_append_external_with_hash (b : Buf) (s : list Z) (h : Z) : outcome (Buf * ExternalString) :=
  if can_inline s then v ← init_inline s; Ok (b, mkExternal v h)
  else match buf_pool b !! h with
       | Some v => Ok (b, mkExternal v h)
       | None =>
           let '(bytes', new) := init_append (buf_bytes b) s in
           Ok (mkBuf bytes' (<[h := new]> (buf_pool b)), mkExternal new h)
       end.

Definition Buf_append_external (b : Buf) (s : list Z) : outcome (Buf * ExternalString) :=
  let h := string_hash s in
  if can_inline s then v ← init_inline s; Ok (b, mkExternal v h)
  else match buf_pool b !! h with
       | Some v => Ok (b, mkExternal v h)
       | None =>
           let '(bytes', new) := init_append (buf_bytes b) s in
           Ok (mkBuf bytes' (<[h := new]> (buf_pool b)), mkExternal new h)
       end.

Definition is_all_ascii (s : list Z) : bool := forallb (fun c => c <? 128) s.

(** ** [String.Builder]: count, allocate, append *)

(** The trait [BuilderStringType]. *)
Class BuilderStringType (T : Type) := {
  from_init : memory_slice -> memory_slice -> Z -> T;
  from_pooled : SString -> Z -> T;
}.

#[export] Instance builder_String : BuilderStringType SString := {
  from_init allocated slice_ _ := String_init allocated slice_;
  from_pooled value _ := value;
}.

#[export] Instance builder_External : BuilderStringType ExternalString := {
  from_init allocated slice_ h := External_init allocated slice_ h;
  from_pooled value h := mkExternal value h;
}.

Record Builder := mkBuilder {
  b_len : nat;
  b_cap : nat;
  b_ptr : option memory_slice;
  string_pool : gmap Z SString;
}.

Definition Builder_default : Builder := mkBuilder 0 0 None ∅.

Definition Builder_count_with_hash (b : Builder) (slice_ : list Z) (h : Z) : Builder :=
  if (length slice_ <=? MAX_INLINE_LEN)%nat then b
  else match string_pool b !! h with
       | None => mkBuilder (b_len b) (b_cap b + length slice_) (b_ptr b) (string_pool b)
       | Some _ => b
       end.

Definition Builder_count (b : Builder) (slice_ : list Z) : Builder :=
  Builder_count_with_hash b slice_
    (if (MAX_INLINE_LEN <=? length slice_)%nat then string_hash slice_ else U64_MAX).

(** [allocate]; the allocator picks the address [at_]. *)
Definition Builder_allocate (b : Builder) (at_ : Z) : Builder :=
  mkBuilder (b_len b) (b_cap b) (Some (mkSlice at_ (replicate (b_cap b) 0))) (string_pool b).

(** [allocated_slice]; the empty slice literal has no meaningful address. *)
Definition Builder_allocated_slice (b : Builder) : outcome memory_slice :=
  if (0 <? b_cap b)%nat then
    match b_ptr b with Some p => ms_range p 0 (b_cap b) | None => Panic end
  else Ok (mkSlice 1 []).

(** [dst = &mut ptr[start..end]; dst[..s.len()].copy_from_slice(s)] *)
Definition Builder_write (b : Builder) (s : list Z) : outcome memory_slice :=
  match b_ptr b with
  | None => Panic
  | Some p =>
      dst ← slice_range (data p) (b_len b) (b_cap b);
      if (length s <=? length dst)%nat
      then Ok (mkSlice (addr p) (copy_at (data p) (b_len b) s))
      else Panic
  end.

Section append.
Context {T : Type} `{BuilderStringType T}.

Definition Builder_append_without_pool (b : Builder) (slice_ : memory_slice) (h : Z) : outcome (Builder * T) :=
  if (length (data slice_) <=? MAX_INLINE_LEN)%nat then
    al ← Builder_allocated_slice b; Ok (b, from_init al slice_ h)
  else
    p ← Builder_write b (data slice_);
    let b := mkBuilder (b_len b + length (data slice_)) (b_cap b) (Some p) (string_pool b) in
    allocated ← ms_range p 0 (b_cap b);
    final_slice ← ms_range allocated (b_len b - length (data slice_)) (b_len b);
    Ok (b, from_init allocated final_slice h).

Definition Builder_append_with_hash (b : Builder) (slice_ : memory_slice) (h : Z) : outcome (Builder * T) :=
  if (length (data slice_) <=? MAX_INLINE_LEN)%nat then
    al ← Builder_allocated_slice b; Ok (b, from_init al slice_ h)
  else
    match string_pool b !! h with
    | Some value =>
        match b_ptr b with
        | None => Panic
        | Some p =>
            allocated ← ms_range p 0 (b_cap b);
            if bool_decide (String_slice value (data allocated) = data slice_)
            then Ok (b, from_pooled value h)
            else Builder_append_without_pool b slice_ h
        end
    | None =>
        p ← Builder_write b (data slice_);
        let start := b_len b in
        let b := mkBuilder (b_len b + length (data slice_)) (b_cap b) (Some p) (string_pool b) in
        allocated ← ms_range p 0 (b_cap b);
        final_slice ← ms_range allocated start (start + length (data slice_));
        let value := String_init allocated final_slice in
        let b := mkBuilder (b_len b) (b_cap b) (b_ptr b) (<[h := value]> (string_pool b)) in
        Ok (b, from_pooled value h)
    end.

Definition Builder_append (b : Builder) (slice_ : memory_slice) : outcome (Builder * T) :=
  Builder_append_with_hash b slice_ (string_hash (data slice_)).

(** Only an ASCII text is stored in the handle without being copied. *)
Definition Builder_append_utf8_without_pool (b : Builder) (slice_ : memory_slice) (h : Z) : outcome (Builder * T) :=
  if (length (data slice_) <=? MAX_INLINE_LEN)%nat && is_all_ascii (data slice_) then
    al ← Builder_allocated_slice b; Ok (b, from_init al slice_ h)
  else
    p ← Builder_write b (data slice_);
    let start := b_len b in
    let b := mkBuilder (b_len b + length (data slice_)) (b_cap b) (Some p) (string_pool b) in
    allocated ← ms_range p 0 (b_cap b);
    final_slice ← ms_range allocated start (start + length (data slice_));
    Ok (b, from_init allocated final_slice h).
End append.

(** ** [Package] ([resolver/package_json.rs]): three texts copied by a builder of their own *)

Record Package := mkPackage { name : memory_slice; version : memory_slice; subpath : memory_slice }.
Record PackageExternal := mkPackageExternal { ext_name : SString; ext_version : SString; ext_subpath : SString }.

Definition Package_count (p : Package) (b : Builder) : Builder :=
  Builder_count (Builder_count (Builder_count b (data (name p))) (data (version p))) (data (subpath p)).

Definition Package_clone (p : Package) (b : Builder) : outcome (Builder * PackageExternal) :=
  '(b, n) ← Builder_append_utf8_without_pool (T:=SString) b (name p) 0;
  '(b, v) ← Builder_append_utf8_without_pool (T:=SString) b (version p) 0;
  '(b, s) ← Builder_append_utf8_without_pool (T:=SString) b (subpath p) 0;
  Ok (b, mkPackageExternal n v s).

(** The handles and the bytes of the builder. *)
Definition Package_copy (p : Package) (at_ : Z) : outcome (PackageExternal * list Z) :=
  '(b, cloned) ← Package_clone p (Builder_allocate (Package_count p Builder_default) at_);
  Ok (cloned, match b_ptr b with Some q => data q | None => [] end).

(** ** Handles and their contents *)

Lemma tag_bit b : byte_ok b -> (Z.land b 128 =? 0) = (b <? 128).
Proof.
  intros Hb. apply eqb_true_iff.
  revert b Hb. apply (all_bytes_spec (fun b => Bool.eqb _ _)). by vm_compute.
Qed.

Lemma le_value_app (a b : list Z) :
  le_value (a ++ b) = le_value a + 2 ^ (8 * Z.of_nat (length a)) * le_value b.
Proof.
  induction a as [|x a IH]; cbn [app le_value length]; [lia|].
  rewrite IH. replace (8 * Z.of_nat (S (length a))) with (8 + 8 * Z.of_nat (length a)) by lia.
  rewrite Z.pow_add_r by lia. lia.
Qed.

Lemma Pointer_to_bits_value p :
  u32_ok (ptr_off p) -> u32_ok (ptr_len p) ->
  Pointer_to_bits p = ptr_off p + 2 ^ 32 * ptr_len p.
Proof.
  unfold u32_ok, Pointer_to_bits. intros Ho Hl.
  rewrite le_value_app, le_bytes_length, !le_value_bytes.
  change (8 * Z.of_nat 4) with 32. rewrite !Z.mod_small by done. done.
Qed.

Lemma le_bytes_app n m x :
  le_bytes (n + m) x = le_bytes n x ++ le_bytes m (x / 2 ^ (8 * Z.of_nat n)).
Proof.
  revert x. induction n as [|n IH]; intros x; cbn [le_bytes Nat.add app].
  { by rewrite Z.div_1_r. }
  rewrite IH. do 3 f_equal. rewrite Z.div_div by lia.
  f_equal. replace (8 * Z.of_nat (S n)) with (8 + 8 * Z.of_nat n) by lia.
  by rewrite Z.pow_add_r by lia.
Qed.

Lemma Pointer_roundtrip p :
  u32_ok (ptr_off p) -> u32_ok (ptr_len p) -> Pointer_from_bits (Pointer_to_bits p) = p.
Proof.
  intros Ho Hl. rewrite Pointer_to_bits_value by done. unfold Pointer_from_bits.
  rewrite (le_bytes_app 4 4), take_app_length', drop_app_length' by (symmetry; apply le_bytes_length).
  rewrite !le_value_bytes. change (8 * Z.of_nat 4) with 32. unfold u32_ok in *.
  rewrite Z.add_comm, Z.mul_comm, Z.div_add_l, (Z.div_small (ptr_off p)), Z.add_0_r by lia.
  rewrite Z.add_comm, Z.mod_add, !Z.mod_small by lia. by destruct p.
Qed.

(** An external handle carries the tag bit and gives its pointer back. *)
Lemma external_bytes_spec p :
  u32_ok (ptr_off p) -> 0 <= ptr_len p < 2 ^ 31 ->
  is_inline (external_bytes p) = false /\ String_ptr (external_bytes p) = p /\
  length (s_bytes (external_bytes p)) = 8%nat /\ bytes_ok (s_bytes (external_bytes p)).
Proof.
  intros Ho Hl. assert (Hl' : u32_ok (ptr_len p)) by (unfold u32_ok; lia).
  pose proof (Pointer_to_bits_value p Ho Hl') as Hbits. unfold u32_ok in Ho.
  assert (Hb : 0 <= Pointer_to_bits p < 2 ^ 63) by lia.
  assert (Hmask : forall x, Z.land x MAX_ADDRESSABLE_SPACE_MASK = x mod 2 ^ 63).
  { intros x. by apply land_ones_mod. }
  assert (Hval : Z.lor (Z.land (Pointer_to_bits p) MAX_ADDRESSABLE_SPACE_MASK) (2 ^ 63) =
                 2 ^ 63 + Pointer_to_bits p).
  { rewrite Hmask, Z.mod_small, Z.lor_comm by done. by apply (lor_high_add _ _ 63 1). }
  unfold is_inline, last_byte, String_ptr, external_bytes. rewrite Hval. cbn [s_bytes].
  split_and!.
  - replace (nth 7 (le_bytes 8 (2 ^ 63 + Pointer_to_bits p)) 0) with ((2 ^ 63 + Pointer_to_bits p) / 2 ^ 56 mod 256).
    2:{ rewrite (le_bytes_app 7 1), app_nth2 by (rewrite le_bytes_length; lia). by rewrite le_bytes_length. }
    rewrite tag_bit by (apply Z.mod_pos_bound; lia). apply Z.ltb_ge.
    assert (128 <= (2 ^ 63 + Pointer_to_bits p) / 2 ^ 56 < 256) by (Z.div_mod_to_equations; lia).
    rewrite Z.mod_small by lia. lia.
  - rewrite le_value_bytes, Hmask. change (8 * Z.of_nat 8) with 64.
    rewrite (Z.mod_small _ (2 ^ 64)) by lia.
    rewrite Z.add_comm, <- (Z.mul_1_l (2 ^ 63)) at 1. rewrite Z.mod_add, Z.mod_small by lia.
    by apply Pointer_roundtrip.
  - apply le_bytes_length.
  - apply le_bytes_ok.
Qed.

Lemma until_zero_app (a b : list Z) : Forall (fun c => c <> 0) a -> until_zero (a ++ 0 :: b) = a.
Proof.
  induction 1 as [|c a Hc Ha IH]; simpl; [done|].
  rewrite (proj2 (Z.eqb_neq c 0)) by done. by rewrite IH.
Qed.

Lemma until_zero_id (a : list Z) : Forall (fun c => c <> 0) a -> until_zero a = a.
Proof.
  induction 1 as [|c a Hc Ha IH]; simpl; [done|].
  rewrite (proj2 (Z.eqb_neq c 0)) by done. by rewrite IH.
Qed.

(** The strings [init] stores inline. *)
Definition inlinable (d : list Z) : Prop :=
  (length d <= 7)%nat \/ (length d = 8%nat /\ nth 7 d 0 < 128).

#[export] Instance inlinable_dec d : Decision (inlinable d).
Proof. unfold inlinable. apply _. Defined.

(** The strings whose inline handle keeps every byte. *)
Definition no_nul (d : list Z) : Prop := Forall (fun c => c <> 0) d.

Lemma nth_byte_ok (d : list Z) i : bytes_ok d -> byte_ok (nth i d 0).
Proof.
  intros Hd. destruct (nth_in_or_default i d 0) as [Hin| ->]; [|unfold byte_ok; lia].
  apply list_elem_of_In in Hin. unfold bytes_ok in Hd. by apply (proj1 (list.Forall_forall _ _) Hd).
Qed.

Lemma inline_bytes_spec (d : list Z) :
  bytes_ok d -> inlinable d ->
  is_inline (inline_bytes d) = true /\ length (s_bytes (inline_bytes d)) = 8%nat /\
  bytes_ok (s_bytes (inline_bytes d)) /\
  (no_nul d -> until_zero (s_bytes (inline_bytes d)) = d).
Proof.
  intros Hok Hd. unfold inline_bytes, is_inline, last_byte. cbn [s_bytes].
  assert (length d <= 8)%nat by (destruct Hd; lia).
  split_and!.
  - destruct Hd as [Hd|[Hd H7]].
    + rewrite app_nth2 by lia.
      by rewrite nth_lookup, lookup_replicate_2 by lia.
    + rewrite app_nth1 by lia. rewrite tag_bit by by apply nth_byte_ok. by apply Z.ltb_lt.
  - rewrite length_app, length_replicate. lia.
  - apply Forall_app. split; [done|]. apply Forall_replicate. done.
  - intros Hnz. destruct (8 - length d)%nat as [|n]; simpl.
    + rewrite app_nil_r. by apply until_zero_id.
    + by apply until_zero_app.
Qed.

(** [init] either copies the bytes inline or stores a pointer. *)
Lemma String_init_cases buf in_ :
  String_init buf in_ =
    if decide (inlinable (data in_)) then inline_bytes (data in_)
    else external_bytes (Pointer_init buf in_).
Proof.
  unfold String_init. set (d := data in_).
  destruct (Nat.eqb_spec (length d) 0) as [H0|H0].
  { apply nil_length_inv in H0. rewrite H0. by rewrite decide_True by (left; simpl; lia). }
  destruct (Nat.leb_spec (length d) 7).
  { by rewrite decide_True by (left; lia). }
  destruct (Nat.eqb_spec (length d) 8).
  - destruct (Z.leb_spec 128 (nth 7 d 0)).
    + rewrite decide_False; [done|]. unfold inlinable. lia.
    + rewrite decide_True; [done|]. right. lia.
  - rewrite decide_False; [done|]. unfold inlinable. lia.
Qed.

(** The handles the theorems are about: byte strings that, when short, hold no NUL. *)
Definition storable (d : list Z) : Prop := bytes_ok d /\ (inlinable d -> no_nul d).

Lemma inline_slice d buf : storable d -> inlinable d -> String_slice (inline_bytes d) buf = d.
Proof.
  intros [Hok Hnz] Hi. destruct (inline_bytes_spec d Hok Hi) as (E & _ & _ & Hz).
  unfold String_slice. rewrite E. auto.
Qed.

Lemma Pointer_init_in buf in_ :
  slice_in in_ buf -> Z.of_nat (length (data buf)) < 2 ^ 31 ->
  u32_ok (ptr_off (Pointer_init buf in_)) /\ 0 <= ptr_len (Pointer_init buf in_) < 2 ^ 31 /\
  get_range (data buf) (Pointer_init buf in_) = Some (data in_).
Proof.
  intros (off & Ha & Hl & Hd) Hb. unfold Pointer_init, get_range, u32_ok, wrap. cbn [ptr_off ptr_len].
  rewrite Ha. replace (addr buf + Z.of_nat off - addr buf) with (Z.of_nat off) by lia.
  rewrite (Z.mod_small (Z.of_nat off) (2 ^ 64)), !Z.mod_small by lia. split; [lia|]. split; [lia|].
  rewrite (proj2 (Z.leb_le _ _)) by lia. rewrite !Nat2Z.id. by rewrite <- Hd.
Qed.

Lemma external_slice buf in_ :
  slice_in in_ buf -> Z.of_nat (length (data buf)) < 2 ^ 31 ->
  is_inline (external_bytes (Pointer_init buf in_)) = false /\
  get_range (data buf) (String_ptr (external_bytes (Pointer_init buf in_))) = Some (data in_).
Proof.
  intros Hin Hb. destruct (Pointer_init_in buf in_ Hin Hb) as (Ho & Hl & Hg).
  destruct (external_bytes_spec _ Ho Hl) as (Hi & Hp & _). by rewrite Hp.
Qed.

Lemma String_init_read (buf in_ : memory_slice) :
  slice_in in_ buf -> Z.of_nat (length (data buf)) < 2 ^ 31 -> storable (data in_) ->
  String_slice (String_init buf in_) (data buf) = data in_.
Proof.
  intros Hin Hb Hst. rewrite String_init_cases. case_decide as Hd; [by apply inline_slice|].
  destruct (external_slice buf in_ Hin Hb) as [Hi Hg].
  unfold String_slice. by rewrite Hi, Hg.
Qed.

(** Storing a slice of a buffer in a [String] handle and reading it back
    through the same buffer returns the slice, inline and external handles alike. *)
Theorem String_init_slice (buf in_ : memory_slice) :
  slice_in in_ buf -> Z.of_nat (length (data buf)) < 2 ^ 31 -> storable (data in_) ->
  String_slice (String_init buf in_) (data buf) = data in_.
Proof. intros Hin Hb Hst. by apply String_init_read. Qed.

(** A sample: the tail of a ten-byte buffer, too long to be inlined. *)
Definition sample_buf : memory_slice := mkSlice 1000 (str "x123456789").
Definition sample_slice : memory_slice := mkSlice 1001 (str "123456789").

Lemma sample_in : slice_in sample_slice sample_buf.
Proof. exists 1%nat. split; [reflexivity|]. split; [cbn; lia|reflexivity]. Qed.

Lemma sample_storable : storable (data sample_slice).
Proof.
  split; [by repeat constructor|]. intros _. by repeat constructor.
Qed.

Lemma String_init_slice_witness : String_slice (String_init sample_buf sample_slice) (str "x123456789") = str "123456789".
Proof. exact (String_init_slice sample_buf sample_slice sample_in ltac:(cbn; lia) sample_storable). Defined.

Lemma le_value_inj (a b : list Z) :
  bytes_ok a -> bytes_ok b -> length a = length b -> le_value a = le_value b -> a = b.
Proof. intros Ha Hb Hl E. rewrite <- (le_bytes_value a), <- (le_bytes_value b) by done. by rewrite Hl, E. Qed.

(** [String::eql] decides equality of the contents, whatever the two buffers. *)
Theorem String_eql_correct (buf1 in1 buf2 in2 : memory_slice) :
  slice_in in1 buf1 -> Z.of_nat (length (data buf1)) < 2 ^ 31 -> storable (data in1) ->
  slice_in in2 buf2 -> Z.of_nat (length (data buf2)) < 2 ^ 31 -> storable (data in2) ->
  String_eql (String_init buf1 in1) (String_init buf2 in2) (data buf1) (data buf2) =
    bool_decide (data in1 = data in2).
Proof.
  intros Hin1 Hb1 Hst1 Hin2 Hb2 Hst2. rewrite !String_init_cases. unfold String_eql.
  destruct (decide (inlinable (data in1))) as [Hi1|Hi1], (decide (inlinable (data in2))) as [Hi2|Hi2].
  - destruct (inline_bytes_spec _ (proj1 Hst1) Hi1) as (-> & L1 & O1 & Z1).
    destruct (inline_bytes_spec _ (proj1 Hst2) Hi2) as (-> & L2 & O2 & Z2). cbn [andb].
    destruct (Z.eqb_spec (le_value (s_bytes (inline_bytes (data in1)))) (le_value (s_bytes (inline_bytes (data in2)))))
      as [E|E]; symmetry.
    + apply bool_decide_eq_true. apply le_value_inj in E; [|done|done|congruence].
      rewrite <- Z1, <- Z2 by (by apply Hst1 || by apply Hst2). by rewrite E.
    + apply bool_decide_eq_false. intros Eq. apply E. by rewrite Eq.
  - destruct (inline_bytes_spec _ (proj1 Hst1) Hi1) as (-> & _).
    destruct (external_slice _ _ Hin2 Hb2) as [-> _]. simpl. symmetry.
    apply bool_decide_eq_false. congruence.
  - destruct (inline_bytes_spec _ (proj1 Hst2) Hi2) as (-> & _).
    destruct (external_slice _ _ Hin1 Hb1) as [-> _]. simpl. symmetry.
    apply bool_decide_eq_false. congruence.
  - destruct (external_slice _ _ Hin1 Hb1) as [-> ->].
    destruct (external_slice _ _ Hin2 Hb2) as [-> ->]. done.
Qed.

Lemma String_eql_correct_witness :
  String_eql (String_init sample_buf sample_slice) (String_init sample_slice sample_slice)
    (data sample_buf) (data sample_slice) = true.
Proof.
  exact (String_eql_correct sample_buf sample_slice sample_slice sample_slice
    sample_in ltac:(cbn; lia) sample_storable
    ltac:(exists 0%nat; split; [reflexivity|]; split; [cbn; lia|reflexivity]) ltac:(cbn; lia) sample_storable).
Defined.

(** The type invariant of a handle: eight bytes. *)
Definition handle_ok (s : SString) : Prop := length (s_bytes s) = 8%nat /\ bytes_ok (s_bytes s).

Lemma String_init_ok buf in_ :
  slice_in in_ buf -> Z.of_nat (length (data buf)) < 2 ^ 31 -> bytes_ok (data in_) ->
  handle_ok (String_init buf in_).
Proof.
  intros Hin Hb Hok. rewrite String_init_cases. case_decide as Hd.
  - destruct (inline_bytes_spec _ Hok Hd) as (_ & ? & ? & _). done.
  - destruct (Pointer_init_in buf in_ Hin Hb) as (Ho & Hl & _).
    destruct (external_bytes_spec _ Ho Hl) as (_ & _ & ? & ?). done.
Qed.

(** [is_empty] holds of the all-zero handle only, which reads as the empty string. *)
Lemma String_is_empty_spec s : handle_ok s -> String_is_empty s = true <-> s = String_default.
Proof.
  intros [Hl Hok]. unfold String_is_empty. rewrite Z.eqb_eq. destruct s as [bs]. cbn [s_bytes] in *.
  unfold String_default. split; [|by intros [= ->]]. intros H0. f_equal. apply le_value_inj; [done| |done|by rewrite H0].
  apply Forall_replicate. unfold byte_ok. lia.
Qed.

Lemma String_empty_slice s buf : handle_ok s -> String_is_empty s = true -> String_slice s buf = [].
Proof. intros Hok He. apply String_is_empty_spec in He; [|done]. by subst. Qed.

(** The stored string is empty exactly when the handle is. *)
Lemma String_init_empty buf in_ :
  slice_in in_ buf -> Z.of_nat (length (data buf)) < 2 ^ 31 -> storable (data in_) ->
  String_is_empty (String_init buf in_) = bool_decide (data in_ = []).
Proof.
  intros Hin Hb Hst. assert (Hok := String_init_ok buf in_ Hin Hb (proj1 Hst)).
  case_bool_decide as Hd.
  - apply String_is_empty_spec; [done|]. rewrite String_init_cases, Hd. by rewrite decide_True by (left; simpl; lia).
  - apply not_true_iff_false. intros He. apply Hd. rewrite <- (String_init_read buf in_ Hin Hb Hst).
    by apply String_empty_slice.
Qed.

(** ** The builder protocol *)

(** Allocated, [b_len] bytes written, and every pooled handle lies in the written part. *)
Definition Builder_wf (b : Builder) : Prop :=
  exists p, b_ptr b = Some p /\ length (data p) = b_cap b /\ (b_len b <= b_cap b)%nat /\
    Z.of_nat (b_cap b) < 2 ^ 31 /\
    forall h v, string_pool b !! h = Some v ->
      is_inline v = false /\ 0 <= ptr_off (String_ptr v) /\ 0 <= ptr_len (String_ptr v) /\
      ptr_off (String_ptr v) + ptr_len (String_ptr v) <= Z.of_nat (b_len b).

(** A handle that lies in the written part of the buffer. *)
Definition handle_in (b : Builder) (v : SString) (d : list Z) : Prop :=
  (is_inline v = true /\ until_zero (s_bytes v) = d) \/
  (is_inline v = false /\ exists p, b_ptr b = Some p /\
    0 <= ptr_off (String_ptr v) /\ 0 <= ptr_len (String_ptr v) /\
    ptr_off (String_ptr v) + ptr_len (String_ptr v) <= Z.of_nat (b_len b) /\
    get_range (take (b_len b) (data p)) (String_ptr v) = Some d).

Lemma get_range_prefix (l : list Z) n p d :
  0 <= ptr_off p -> 0 <= ptr_len p -> get_range (take n l) p = Some d -> get_range l p = Some d.
Proof.
  unfold get_range. intros Ho Hl. rewrite length_take.
  destruct (Z.leb_spec (ptr_off p + ptr_len p) (Z.of_nat (n `min` length l))); [|done].
  intros [= <-]. rewrite (proj2 (Z.leb_le _ _)) by lia. f_equal.
  rewrite drop_take_drop_comm || rewrite skipn_firstn_comm. rewrite take_take. f_equal. lia.
Qed.

Lemma get_range_written (l : list Z) n p :
  0 <= ptr_off p -> 0 <= ptr_len p -> ptr_off p + ptr_len p <= Z.of_nat n -> (n <= length l)%nat ->
  get_range (take n l) p = get_range l p.
Proof.
  intros Ho Hl Hn Hlen. unfold get_range. rewrite length_take.
  rewrite !(proj2 (Z.leb_le _ _)) by lia. f_equal.
  rewrite skipn_firstn_comm, take_take. f_equal. lia.
Qed.

Lemma handle_in_slice b v d p :
  b_ptr b = Some p -> handle_in b v d -> String_slice v (data p) = d.
Proof.
  intros Hp [(Hi & Hz)|(Hi & p' & Hp' & Ho & Hl & _ & Hg)]; unfold String_slice; rewrite Hi; [done|].
  rewrite Hp in Hp'. injection Hp' as <-. by rewrite (get_range_prefix _ _ _ _ Ho Hl Hg).
Qed.

(** [b'] extends [b]: the written part of [b] is unchanged. *)
Definition extends (b b' : Builder) : Prop :=
  b_cap b' = b_cap b /\ (b_len b <= b_len b')%nat /\
  exists p p', b_ptr b = Some p /\ b_ptr b' = Some p' /\
    take (b_len b) (data p') = take (b_len b) (data p).

Lemma extends_refl b : Builder_wf b -> extends b b.
Proof. intros (p & Hp & _). split; [done|]. split; [lia|]. by exists p, p. Qed.

Lemma extends_trans b1 b2 b3 : extends b1 b2 -> extends b2 b3 -> extends b1 b3.
Proof.
  intros (C1 & L1 & p1 & p2 & P1 & P2 & T1) (C2 & L2 & p2' & p3 & P2' & P3 & T2).
  rewrite P2 in P2'. injection P2' as <-. split; [congruence|]. split; [lia|].
  exists p1, p3. split_and!; [done|done|].
  rewrite <- T1. replace (b_len b1) with (b_len b1 `min` b_len b2)%nat by lia.
  by rewrite <- !take_take, T2.
Qed.

Lemma handle_in_extends b b' v d : extends b b' -> handle_in b v d -> handle_in b' v d.
Proof.
  intros (_ & Hlen & p & p' & Hp & Hp' & Ht) [H|(Hi & q & Hq & Ho & Hl & Hn & Hg)]; [by left|right].
  rewrite Hp in Hq. injection Hq as <-. split; [done|]. exists p'. split_and!; [done..|lia|].
  apply (get_range_prefix _ (b_len b)); [done|done|].
  rewrite take_take, Nat.min_l, Ht by lia. done.
Qed.

(** The bytes an append needs in the buffer. *)
Definition need (d : list Z) : nat := if (length d <=? MAX_INLINE_LEN)%nat then 0%nat else length d.

(** What a builder can take: storable, and inlinable when at most 8 bytes long. *)
Definition appendable (d : list Z) : Prop :=
  storable d /\ ((length d <= MAX_INLINE_LEN)%nat -> inlinable d).

(** A write of [d] at the end of the written part. *)
Definition wrote (b : Builder) (d : list Z) (b' : Builder) (v : SString) : Prop :=
  Builder_wf b' /\ extends b b' /\ handle_in b' v d /\ is_inline v = false /\
  b_len b' = (b_len b + length d)%nat /\ string_pool b' = string_pool b.

(** What a write does to the builder, whatever the handle that is then made. *)
Lemma Builder_write_frame b p (d : list Z) :
  Builder_wf b -> b_ptr b = Some p -> (b_len b + length d <= b_cap b)%nat ->
  let p' := mkSlice (addr p) (copy_at (data p) (b_len b) d) in
  let b' := mkBuilder (b_len b + length d) (b_cap b) (Some p') (string_pool b) in
  Builder_write b d = Ok p' /\
  ms_range p' 0 (b_cap b) = Ok (mkSlice (addr p + 0) (data p')) /\
  ms_range (mkSlice (addr p + 0) (data p')) (b_len b) (b_len b + length d) =
    Ok (mkSlice (addr p + 0 + Z.of_nat (b_len b)) d) /\
  Builder_wf b' /\ extends b b' /\ length (data p') = b_cap b /\ take (length d) (drop (b_len b) (data p')) = d.
Proof.
  intros (p0 & Hp0 & Hlen & Hle & Hcap & Hpool) Hp Hroom p' b'.
  rewrite Hp in Hp0. injection Hp0 as <-.
  assert (Hcl : length (data p') = b_cap b) by (unfold p'; cbn [data]; rewrite copy_at_length; lia).
  assert (Htk : take (b_len b + length d) (data p') = take (b_len b) (data p) ++ d).
  { unfold p'. cbn [data]. apply copy_at_take. lia. }
  assert (Hdr : take (length d) (drop (b_len b) (data p')) = d).
  { replace (take (length d) (drop (b_len b) (data p'))) with (drop (b_len b) (take (b_len b + length d) (data p'))).
    - rewrite Htk, drop_app_length'; [done|]. rewrite length_take. lia.
    - rewrite skipn_firstn_comm. f_equal. lia. }
  split_and!; [| | | | |done|done].
  - unfold Builder_write. rewrite Hp, slice_range_ok by lia. cbn [mbind outcome_bind].
    rewrite length_take, length_drop. rewrite (proj2 (Nat.leb_le _ _)) by lia. done.
  - unfold ms_range. rewrite slice_range_ok by lia. cbn [mbind outcome_bind]. rewrite drop_0, Nat.sub_0_r.
    by rewrite take_ge by lia.
  - unfold ms_range. cbn [data addr]. rewrite slice_range_ok by lia. cbn [mbind outcome_bind].
    by replace (b_len b + length d - b_len b)%nat with (length d) by lia; rewrite Hdr.
  - exists p'. split_and!; cbn [b_ptr b_cap b_len b' string_pool]; [done|done|lia|done|].
    intros h v Hv. destruct (Hpool h v Hv) as (? & ? & ? & ?). split_and!; [done..|lia].
  - split; [done|]. split; [cbn [b_len b']; lia|]. exists p, p'. split_and!; [done..|].
    replace (b_len b) with (b_len b `min` (b_len b + length d))%nat at 1 by lia.
    by rewrite <- take_take, Htk, take_app_length' by (rewrite length_take; lia).
Qed.

Lemma Builder_write_spec b p (d : list Z) :
  Builder_wf b -> b_ptr b = Some p -> ~ inlinable d -> (b_len b + length d <= b_cap b)%nat ->
  let p' := mkSlice (addr p) (copy_at (data p) (b_len b) d) in
  let b' := mkBuilder (b_len b + length d) (b_cap b) (Some p') (string_pool b) in
  Builder_write b d = Ok p' /\
  ms_range p' 0 (b_cap b) = Ok (mkSlice (addr p + 0) (data p')) /\
  ms_range (mkSlice (addr p + 0) (data p')) (b_len b) (b_len b + length d) =
    Ok (mkSlice (addr p + 0 + Z.of_nat (b_len b)) d) /\
  wrote b d b' (String_init (mkSlice (addr p + 0) (data p')) (mkSlice (addr p + 0 + Z.of_nat (b_len b)) d)).
Proof.
  intros Hwf Hp Hni Hroom p' b'. destruct (Builder_write_frame b p d Hwf Hp Hroom) as (E1 & E2 & E3 & Hwf' & Hext & Hcl & Hdr).
  fold p' in E1, E2, E3, Hwf', Hext, Hcl, Hdr. fold b' in Hwf', Hext. destruct Hwf as (_ & _ & _ & _ & Hcap & _).
  split_and!; [exact E1|exact E2|exact E3|].
  rewrite String_init_cases, decide_False by done. set (buf := mkSlice _ (data p')). set (in_ := mkSlice _ d).
  assert (Hin : slice_in in_ buf).
  { exists (b_len b). unfold in_, buf. cbn [data addr]. split_and!; [lia|lia|by rewrite Hdr]. }
  destruct (Pointer_init_in buf in_ Hin) as (Ho & Hl & Hg); [cbn [data buf]; lia|].
  destruct (external_bytes_spec _ Ho Hl) as (Hi & Hptr & _).
  assert (Hoff : ptr_off (Pointer_init buf in_) + ptr_len (Pointer_init buf in_) = Z.of_nat (b_len b + length d)).
  { unfold Pointer_init, in_, buf, wrap. cbn [ptr_off ptr_len data addr].
    replace (addr p + 0 + Z.of_nat (b_len b) - (addr p + 0)) with (Z.of_nat (b_len b)) by lia.
    rewrite (Z.mod_small _ (2 ^ 64)), !Z.mod_small by lia. lia. }
  unfold u32_ok in Ho. split_and!; [exact Hwf'|exact Hext| |done|done|done].
  right. split; [done|]. exists p'. rewrite Hptr. cbn [b_ptr b' b_len].
  split_and!; [done|lia|lia|lia|].
  rewrite get_range_written by (cbn [b_len]; lia). exact Hg.
Qed.

Lemma ms_range_all p n :
  length (data p) = n -> ms_range p 0 n = Ok (mkSlice (addr p + 0) (data p)).
Proof.
  intros H. unfold ms_range. rewrite slice_range_ok by lia. cbn [mbind outcome_bind].
  rewrite drop_0, Nat.sub_0_r. by rewrite take_ge by lia.
Qed.

Lemma handle_in_inline b d : storable d -> inlinable d -> handle_in b (inline_bytes d) d.
Proof.
  intros [Hok Hnz] Hi. left. destruct (inline_bytes_spec d Hok Hi) as (-> & _ & _ & Hz). auto.
Qed.

(** What [append] promises: the returned handle reads back as the input, earlier handles
    keep their contents, and at most [need] bytes are used. *)
Definition appended (b : Builder) (d : list Z) (r : Builder * SString) : Prop :=
  Builder_wf r.1 /\ extends b r.1 /\ handle_in r.1 r.2 d /\ (b_len r.1 <= b_len b + need d)%nat.

Lemma Builder_append_inline b s :
  Builder_wf b -> appendable (data s) -> (length (data s) <= 8)%nat ->
  exists al, Builder_allocated_slice b = Ok al /\ appended b (data s) (b, String_init al s).
Proof.
  intros Hwf [Hst Hi] Hl. specialize (Hi Hl).
  assert (exists al, Builder_allocated_slice b = Ok al) as [al Hal].
  { destruct Hwf as (p & Hp & Hlen & _). unfold Builder_allocated_slice. rewrite Hp.
    destruct (0 <? b_cap b)%nat; [|by eexists]. rewrite (ms_range_all p) by done. by eexists. }
  exists al. split; [done|]. split_and!; simpl; [done|by apply extends_refl| |lia].
  rewrite String_init_cases, decide_True by done. by apply handle_in_inline.
Qed.

Lemma need_long (d : list Z) : (8 < length d)%nat -> need d = length d.
Proof. intros H. unfold need, MAX_INLINE_LEN. by rewrite (proj2 (Nat.leb_gt _ _)). Qed.

Lemma Builder_append_without_pool_spec b s h :
  Builder_wf b -> appendable (data s) -> (b_len b + need (data s) <= b_cap b)%nat ->
  returns_with (Builder_append_without_pool b s h) (appended b (data s)).
Proof.
  intros Hwf Ha Hroom. unfold Builder_append_without_pool, MAX_INLINE_LEN.
  destruct (Nat.leb_spec (length (data s)) 8) as [Hl|Hl].
  { destruct (Builder_append_inline b s Hwf Ha Hl) as (al & -> & Happ). by apply returns_with_Ok. }
  rewrite need_long in Hroom by done.
  assert (Hni : ~ inlinable (data s)) by (unfold inlinable; lia).
  pose proof Hwf as (p & Hp & _).
  destruct (Builder_write_spec b p (data s) Hwf Hp Hni Hroom) as (-> & E1 & E2 & W1 & W2 & W3 & _).
  cbn [mbind outcome_bind b_cap b_len]. cbn [data addr] in E1, E2, W1, W2, W3. rewrite E1. cbn [mbind outcome_bind].
  rewrite Nat.add_sub, E2. cbn [mbind outcome_bind].
  apply returns_with_Ok. unfold appended. rewrite need_long by done. cbn [fst snd b_len]. split_and!; [done..|lia].
Qed.

(** Appending: pooled, pooled under a colliding hash, or new. *)
Lemma Builder_append_with_hash_spec b s h :
  Builder_wf b -> appendable (data s) -> (b_len b + need (data s) <= b_cap b)%nat ->
  returns_with (Builder_append_with_hash b s h) (appended b (data s)).
Proof.
  intros Hwf Ha Hroom. unfold Builder_append_with_hash, MAX_INLINE_LEN.
  destruct (Nat.leb_spec (length (data s)) 8) as [Hl|Hl].
  { destruct (Builder_append_inline b s Hwf Ha Hl) as (al & -> & Happ). by apply returns_with_Ok. }
  pose proof Hwf as (p & Hp & Hlen & Hle & Hcap & Hpool).
  assert (Hni : ~ inlinable (data s)) by (unfold inlinable; lia).
  destruct (string_pool b !! h) as [v|] eqn:Ev.
  - rewrite Hp, (ms_range_all p) by done. cbn [mbind outcome_bind data].
    case_bool_decide as Heq; [|by apply Builder_append_without_pool_spec].
    destruct (Hpool h v Ev) as (Hi & Ho & Hl' & Hsum).
    apply returns_with_Ok. split_and!; cbn [fst snd from_pooled builder_String]; [done|by apply extends_refl| |lia].
    right. split; [done|]. exists p. split_and!; [done..|].
    unfold String_slice in Heq. rewrite Hi in Heq.
    rewrite get_range_written by lia. unfold get_range in *.
    rewrite (proj2 (Z.leb_le _ _)) in * by lia. by rewrite <- Heq.
  - rewrite need_long in Hroom by done.
    destruct (Builder_write_spec b p (data s) Hwf Hp Hni Hroom) as (-> & E1 & E2 & W1 & W2 & W3 & Hi & Hb' & _).
    cbn [mbind outcome_bind b_cap b_len b_ptr string_pool]. cbn [data addr] in E1, E2, W1, W2, W3, Hi. rewrite E1. cbn [mbind outcome_bind].
    rewrite E2. cbn [mbind outcome_bind].
    apply returns_with_Ok. unfold appended. rewrite need_long by done. cbn [fst snd b_len from_pooled builder_String].
    split_and!; [|exact W2|exact W3|lia].
    destruct W1 as (p1 & P1 & P2 & P3 & P4 & P5). exists p1. split_and!; [done..|].
    intros h' v'. cbn [string_pool b_len]. rewrite lookup_insert. case_decide as Hh; [|apply P5].
    intros [= <-]. split; [done|]. destruct W3 as [[W3 _]|(_ & q & _ & ? & ? & ? & _)]; [by rewrite Hi in W3|]. done.
Qed.

(** The counting pass over a fresh builder. *)
Definition count_all (inputs : list memory_slice) : Builder :=
  fold_left (fun b s => Builder_count b (data s)) inputs Builder_default.

(** The append pass. *)
Fixpoint append_all (b : Builder) (inputs : list memory_slice) : outcome (Builder * list SString) :=
  match inputs with
  | [] => Ok (b, [])
  | s :: rest =>
      '(b, v) ← Builder_append (T:=SString) b s;
      '(b, vs) ← append_all b rest;
      Ok (b, v :: vs)
  end.

Definition total_need (inputs : list memory_slice) : nat :=
  foldr (fun s n => need (data s) + n)%nat 0%nat inputs.

Lemma count_all_spec inputs b :
  string_pool b = ∅ ->
  let b' := fold_left (fun b s => Builder_count b (data s)) inputs b in
  b_len b' = b_len b /\ b_cap b' = (b_cap b + total_need inputs)%nat /\ string_pool b' = ∅.
Proof.
  revert b. induction inputs as [|s inputs IH]; intros b Hb; simpl; [split_and!; [done|lia|done]|].
  assert (Hc : Builder_count b (data s) =
            mkBuilder (b_len b) (b_cap b + need (data s)) (b_ptr b) (string_pool b)).
  { unfold Builder_count, Builder_count_with_hash, need.
    destruct (length (data s) <=? MAX_INLINE_LEN)%nat; [by destruct b; rewrite Nat.add_0_r|].
    by rewrite Hb, lookup_empty. }
  rewrite Hc. destruct (IH (mkBuilder (b_len b) (b_cap b + need (data s)) (b_ptr b) (string_pool b)) Hb)
    as (-> & -> & ->). cbn [b_len b_cap]. split_and!; [done|lia|done].
Qed.

Lemma append_all_spec inputs b :
  Builder_wf b -> Forall (fun s => appendable (data s)) inputs ->
  (b_len b + total_need inputs <= b_cap b)%nat ->
  returns_with (append_all b inputs)
    (fun r => extends b r.1 /\ Forall2 (fun s v => handle_in r.1 v (data s)) inputs r.2).
Proof.
  revert b. induction inputs as [|s inputs IH]; intros b Hwf Hin Hroom; simpl in *.
  { apply returns_with_Ok. split; [by apply extends_refl|constructor]. }
  inversion_clear Hin as [|? ? Hs Hrest].
  apply (returns_with_bind _ _ (appended b (data s))).
  { apply Builder_append_with_hash_spec; [done|done|lia]. }
  intros [b1 v] (Hwf1 & Hext & Hv & Hlen). simpl in *.
  eapply returns_with_bind; [apply IH; [done|done|]|].
  { destruct Hext as (-> & _). lia. }
  intros [b2 vs] [Hext2 Hvs]. apply returns_with_Ok. simpl in *. split.
  - by eapply extends_trans.
  - constructor; [|done]. by eapply handle_in_extends.
Qed.

(** (C37) The count / allocate / append protocol, for texts that a handle can hold: one of at most eight bytes has no zero
    byte in it, and one of exactly eight ends in an ASCII byte.  After counting a list of such strings and
    allocating, appending the same strings never panics, whatever hashes collide, and
    every returned handle reads back as its string in the final buffer. *)
Theorem builder_protocol (inputs : list memory_slice) (at_ : Z) :
  Forall (fun s => appendable (data s)) inputs ->
  Z.of_nat (total_need inputs) < 2 ^ 31 ->
  returns_with (append_all (Builder_allocate (count_all inputs) at_) inputs)
    (fun r => exists p, b_ptr r.1 = Some p /\
       Forall2 (fun s v => String_slice v (data p) = data s) inputs r.2).
Proof.
  intros Hin Hneed. destruct (count_all_spec inputs Builder_default eq_refl) as (Hl & Hc & Hp).
  fold (count_all inputs) in Hl, Hc, Hp. cbn [b_len b_cap Builder_default] in Hl, Hc.
  eapply returns_with_mono; [apply append_all_spec; [|done|]|].
  - exists (mkSlice at_ (replicate (b_cap (count_all inputs)) 0)). unfold Builder_allocate. cbn.
    rewrite length_replicate, Hp. split_and!; [done|done|lia|lia|].
    intros h v. by rewrite lookup_empty.
  - unfold Builder_allocate. cbn. lia.
  - intros [b vs] [(_ & _ & p & p' & _ & Hp' & _) Hvs]. cbn [fst snd] in *. exists p'. split; [done|].
    eapply Forall2_impl; [|exact Hvs]. intros s v Hv. by eapply handle_in_slice.
Qed.

Lemma builder_protocol_witness :
  returns_with (append_all (Builder_allocate (count_all [sample_slice; sample_slice]) 5000) [sample_slice; sample_slice])
    (fun r => exists p, b_ptr r.1 = Some p /\
       Forall2 (fun s v => String_slice v (data p) = data s) [sample_slice; sample_slice] r.2).
Proof.
  apply (builder_protocol [sample_slice; sample_slice] 5000); [|vm_compute; reflexivity].
  assert (Ha : appendable (data sample_slice)).
  { split; [exact sample_storable|]. intros H. unfold MAX_INLINE_LEN in H. cbn in H. lia. }
  constructor; [exact Ha|]. constructor; [exact Ha|constructor].
Defined.

(** An 8-byte string that ends in a non-ASCII byte cannot be inlined, but the
    builder never copies it: the handle's offset is the distance to the caller's slice, and
    reading it back through the builder's buffer gives the empty string. *)
Theorem builder_nonascii8_lost (b : Builder) (s p : memory_slice) :
  Builder_wf b -> b_ptr b = Some p -> (0 < b_cap b)%nat ->
  length (data s) = 8%nat -> 128 <= nth 7 (data s) 0 ->
  addr p + Z.of_nat (b_cap b) <= addr s < addr p + 2 ^ 32 ->
  exists v, Builder_append (T:=SString) b s = Ok (b, v) /\ String_slice v (data p) = [].
Proof.
  intros (p0 & Hp0 & Hlen & _) Hp Hcap H8 H7 Haddr. rewrite Hp in Hp0. injection Hp0 as <-.
  unfold Builder_append, Builder_append_with_hash, MAX_INLINE_LEN.
  rewrite (proj2 (Nat.leb_le _ _)) by lia.
  unfold Builder_allocated_slice. rewrite (proj2 (Nat.ltb_lt _ _)), Hp, (ms_range_all p) by done.
  cbn [mbind outcome_bind]. eexists. split; [done|]. cbn [from_init builder_String].
  rewrite String_init_cases, decide_False by (unfold inlinable; lia).
  set (q := Pointer_init _ s).
  assert (Hoff : ptr_off q = addr s - addr p).
  { unfold q, Pointer_init, wrap. cbn [ptr_off addr].
    replace (addr s - (addr p + 0)) with (addr s - addr p) by lia.
    by rewrite (Z.mod_small _ (2 ^ 64)), Z.mod_small by lia. }
  assert (Hl : ptr_len q = 8).
  { unfold q, Pointer_init, wrap. cbn [ptr_len]. by rewrite H8. }
  destruct (external_bytes_spec q) as (Hi & Hq & _); [unfold u32_ok; lia|lia|].
  unfold String_slice, get_range. rewrite Hi, Hq, Hoff, Hl.
  by rewrite (proj2 (Z.leb_gt _ _)) by lia.
Qed.

Lemma builder_nonascii8_lost_witness :
  exists v, Builder_append (T:=SString) (mkBuilder 0 8 (Some (mkSlice 1000 (replicate 8 0))) ∅)
              (mkSlice 2000 [97; 98; 99; 100; 101; 102; 195; 169]) =
            Ok (mkBuilder 0 8 (Some (mkSlice 1000 (replicate 8 0))) ∅, v) /\
            String_slice v (replicate 8 0) = [].
Proof.
  apply (builder_nonascii8_lost (mkBuilder 0 8 (Some (mkSlice 1000 (replicate 8 0))) ∅)
           (mkSlice 2000 [97; 98; 99; 100; 101; 102; 195; 169]) (mkSlice 1000 (replicate 8 0)));
    try reflexivity; cbn; try lia.
  eexists. split; [reflexivity|]. split; [reflexivity|]. split; [cbn; lia|]. split; [cbn; lia|].
  intros h v Hv. cbn in Hv. by rewrite lookup_empty in Hv.
Defined.

(** ** Appending without the pool, and [Package] *)

(** The bytes that [append_utf8_without_pool] takes of the buffer: short texts that are not ASCII are copied too. *)
Definition utf8_need (d : list Z) : nat := if (length d <=? MAX_INLINE_LEN)%nat && is_all_ascii d then 0%nat else length d.

Lemma ascii_inlinable (d : list Z) : (length d <= 8)%nat -> is_all_ascii d = true -> inlinable d.
Proof.
  intros Hl Ha. unfold inlinable. destruct (decide (length d = 8%nat)) as [E|]; [right|left; lia]. split; [done|].
  unfold is_all_ascii in Ha. rewrite forallb_forall in Ha. apply Z.ltb_lt, Ha, nth_In. lia.
Qed.

Lemma Builder_append_utf8_spec b s h :
  Builder_wf b -> storable (data s) -> (b_len b + utf8_need (data s) <= b_cap b)%nat ->
  returns_with (Builder_append_utf8_without_pool b s h)
    (fun r => Builder_wf r.1 /\ extends b r.1 /\ handle_in r.1 r.2 (data s) /\ b_len r.1 = (b_len b + utf8_need (data s))%nat).
Proof.
  intros Hwf Hst Hroom. unfold Builder_append_utf8_without_pool, utf8_need, MAX_INLINE_LEN in *.
  destruct ((length (data s) <=? 8)%nat && is_all_ascii (data s)) eqn:Ec.
  - apply andb_true_iff in Ec as [Hl%Nat.leb_le Ha]. pose proof (ascii_inlinable _ Hl Ha) as Hi.
    destruct (Builder_append_inline b s Hwf) as (al & -> & (H1 & H2 & H3 & _)); [by split|done|]. apply returns_with_Ok. split_and!; [done..|cbn; lia].
  - pose proof Hwf as (p & Hp & _).
    destruct (Builder_write_frame b p (data s) Hwf Hp Hroom) as (E1 & E2 & E3 & W1 & W2 & _). rewrite E1. cbn [mbind outcome_bind b_cap b_len]. rewrite E2. cbn [mbind outcome_bind]. rewrite E3. cbn [mbind outcome_bind].
    apply returns_with_Ok. cbn [fst snd from_init builder_String]. split_and!; [exact W1|exact W2| |done].
    destruct (decide (inlinable (data s))) as [Hi|Hni].
    + rewrite String_init_cases, decide_True by done. by apply handle_in_inline.
    + destruct (Builder_write_spec b p (data s) Hwf Hp Hni Hroom) as (_ & _ & _ & _ & _ & W & _). exact W.
Qed.

(** A package copied into a buffer of its own, when its short texts are ASCII: the three handles read back. *)
Theorem package_copy (p : Package) (at_ : Z) :
  let texts := [name p; version p; subpath p] in
  Forall (fun s => storable (data s) /\ utf8_need (data s) = need (data s)) texts -> Z.of_nat (total_need texts) < 2 ^ 31 ->
  returns_with (Package_copy p at_) (fun '(ext, buf) =>
    String_slice (ext_name ext) buf = data (name p) /\ String_slice (ext_version ext) buf = data (version p) /\ String_slice (ext_subpath ext) buf = data (subpath p)).
Proof.
  intros texts Hf Hn. inversion_clear Hf as [|? ? [Sn Un] Hf1]. inversion_clear Hf1 as [|? ? [Sv Uv] Hf2]. inversion_clear Hf2 as [|? ? [Ss Us] _]. unfold Package_copy, Package_clone.
  destruct (count_all_spec texts Builder_default eq_refl) as (Hl & Hc & Hp). cbn [texts fold_left] in Hl, Hc, Hp. fold (Package_count p Builder_default) in Hl, Hc, Hp.
  cbn [b_len b_cap Builder_default Nat.add] in Hl, Hc. cbn [texts total_need foldr] in Hc, Hn. set (b0 := Builder_allocate (Package_count p Builder_default) at_).
  assert (Hwf : Builder_wf b0).
  { exists (mkSlice at_ (replicate (b_cap (Package_count p Builder_default)) 0)). unfold b0, Builder_allocate. cbn [b_ptr b_cap b_len data string_pool]. rewrite length_replicate, Hp. split_and!; [done|done|lia|lia|]. intros h v. by rewrite lookup_empty. }
  assert (Hcap : b_cap b0 = (need (data (name p)) + (need (data (version p)) + (need (data (subpath p)) + 0)))%nat) by exact Hc.
  assert (Hlen : b_len b0 = 0%nat) by exact Hl.
  apply (returns_with_bind _ _ (fun r => exists q, b_ptr r.1 = Some q /\ String_slice (ext_name r.2) (data q) = data (name p) /\
    String_slice (ext_version r.2) (data q) = data (version p) /\ String_slice (ext_subpath r.2) (data q) = data (subpath p))).
  2: { intros [b3 ext] (q & Hq & H). cbn [fst snd] in *. apply returns_with_Ok. by rewrite Hq. }
  eapply returns_with_bind; [apply Builder_append_utf8_spec; [exact Hwf|exact Sn|lia]|].
  intros [b1 n] (W1 & X1 & I1 & L1). cbn [fst snd] in *. pose proof (proj1 X1) as C1.
  eapply returns_with_bind; [apply Builder_append_utf8_spec; [exact W1|exact Sv|lia]|]. intros [b2 v] (W2 & X2 & I2 & L2). cbn [fst snd] in *. pose proof (proj1 X2) as C2.
  eapply returns_with_bind; [apply Builder_append_utf8_spec; [exact W2|exact Ss|lia]|]. intros [b3 sp] (W3 & X3 & I3 & L3). cbn [fst snd] in *.
  apply returns_with_Ok. pose proof W3 as (q & Hq & _). cbn [fst snd ext_name ext_version ext_subpath]. exists q. split; [exact Hq|].
  split_and!; eapply handle_in_slice; try exact Hq; [|by eapply handle_in_extends|done]. eapply handle_in_extends; [exact X3|by eapply handle_in_extends].
Qed.

Lemma package_copy_witness :
  returns_with (Package_copy (mkPackage sample_slice sample_slice (mkSlice 7 (str "."))) 5000) (fun '(ext, buf) =>
    String_slice (ext_name ext) buf = str "123456789" /\ String_slice (ext_version ext) buf = str "123456789" /\ String_slice (ext_subpath ext) buf = str ".").
Proof.
  apply (package_copy (mkPackage sample_slice sample_slice (mkSlice 7 (str "."))) 5000); [|vm_compute; reflexivity].
  apply Forall_cons_2; [by split; [exact sample_storable|]|]. apply Forall_cons_2; [by split; [exact sample_storable|]|]. apply Forall_cons_2; [|by apply Forall_nil_2].
  split; [|done]. split; [by repeat constructor|]. intros _. by repeat constructor.
Defined.

(** [count] leaves every short text out, but a short text that is not ASCII is copied: there is no room for it. *)
Theorem package_copy_overruns :
  Package_copy (mkPackage (mkSlice 100 [195; 169]) (mkSlice 200 (str "1.0")) (mkSlice 300 (str "."))) 5000 = Panic.
Proof. reflexivity. Qed.
