(* ===== verification/SemverVersion.v ===== *)
(** * Semver versions ([semver/Version.rs])

    [VersionType<T>] and its parser, the prerelease/build [Tag] parser, the
    precedence order, the comparison helpers of the package manager and the
    [Display] formatter.  The version integer [T] ([u64] or [u32]) is the
    record [VersionInt]. *)

From S2P Require Import Prelude Strings Wyhash SemverString.

(** ** The integer parameter *)

Record VersionInt := mkVersionInt { vi_MAX : Z }.
Definition u64_int : VersionInt := mkVersionInt U64_MAX.
Definition u32_int : VersionInt := mkVersionInt U32_MAX.

(** [T::parse_ascii] *)
Definition parse_ascii (T : VersionInt) (s : list Z) : option Z :=
  match parse_unsigned (vi_MAX T) s 10 with inl v => Some v | inr _ => None end.

(** ** Data *)

Record Tag := mkTag { pre : ExternalString; build : ExternalString }.
Definition Tag_default : Tag := mkTag External_default External_default.

Record Version := mkVersion { major : Z; minor : Z; patch : Z; tag : Tag }.
Definition Version_default : Version := mkVersion 0 0 0 Tag_default.

Record Partial := mkPartial {
  p_major : option Z; p_minor : option Z; p_patch : option Z; p_tag : Tag }.
Definition Partial_default : Partial := mkPartial None None None Tag_default.

Variant Wildcard := WNone | WMajor | WMinor | WPatch.

Record TagResult := mkTagResult { tr_tag : Tag; tr_len : nat }.

Record ParseResult := mkParseResult {
  pr_wildcard : Wildcard; pr_valid : bool; pr_version : Partial; pr_len : nat }.
Definition ParseResult_default : ParseResult := mkParseResult WNone true Partial_default 0.

Variant ChangedVersion := ChMajor | ChMinor | ChPatch | ChPre | ChBuild | ChNone.
Variant PinnedVersion := PinMajor | PinMinor | PinPatch.

#[export] Instance Tag_eq_dec : EqDecision Tag.
Proof. solve_decision. Defined.
#[export] Instance Version_eq_dec : EqDecision Version.
Proof. solve_decision. Defined.
#[export] Instance Wildcard_eq_dec : EqDecision Wildcard.
Proof. solve_decision. Defined.
#[export] Instance PinnedVersion_eq_dec : EqDecision PinnedVersion.
Proof. solve_decision. Defined.

(** ** Partial versions *)

Definition Partial_min (p : Partial) : Version :=
  mkVersion (default 0 (p_major p)) (default 0 (p_minor p)) (default 0 (p_patch p)) (p_tag p).

Definition Partial_max (T : VersionInt) (p : Partial) : Version :=
  mkVersion (default (vi_MAX T) (p_major p)) (default (vi_MAX T) (p_minor p))
            (default (vi_MAX T) (p_patch p)) (p_tag p).

(** ** Order *)

Definition has_pre (t : Tag) : bool := negb (External_is_empty (pre t)).
Definition has_build (t : Tag) : bool := negb (External_is_empty (build t)).

Definition Tag_eql (t rhs : Tag) : bool := ext_hash (pre t) =? ext_hash (pre rhs).

(** The loop of [order_pre]: the arguments are the fields the two split iterators have
    still to yield. *)
Fixpoint order_pre_loop (lhs_itr rhs_itr : list (list Z)) : comparison :=
  match lhs_itr, rhs_itr with
  | [], [] => Eq
  | _, [] => Gt
  | [], _ => Lt
  | lhs_part :: lhs_itr, rhs_part :: rhs_itr =>
      match parse_ascii u64_int lhs_part, parse_ascii u64_int rhs_part with
      | Some _, None => Lt
      | None, Some _ => Gt
      | None, None =>
          match order lhs_part rhs_part with
          | Eq => order_pre_loop lhs_itr rhs_itr
          | not_equal => not_equal
          end
      | Some l, Some r =>
          match Z.compare l r with
          | Eq => order_pre_loop lhs_itr rhs_itr
          | not_equal => not_equal
          end
      end
  end.

Definition order_pre (t rhs : Tag) (lhs_buf rhs_buf : list Z) : comparison :=
  order_pre_loop (split_rest (split (External_slice (pre t) lhs_buf) (ch ".")))
                 (split_rest (split (External_slice (pre rhs) rhs_buf) (ch "."))).

Definition Tag_order (t rhs : Tag) (lhs_buf rhs_buf : list Z) : comparison :=
  if negb (External_is_empty (pre t)) && negb (External_is_empty (pre rhs))
  then order_pre t rhs lhs_buf rhs_buf
  else match External_order (pre t) (pre rhs) lhs_buf rhs_buf with
       | Eq => External_order (build t) (build rhs) lhs_buf rhs_buf
       | pre_order => pre_order
       end.

Definition Tag_order_without_build (t rhs : Tag) (lhs_buf rhs_buf : list Z) : comparison :=
  if negb (External_is_empty (pre t)) && negb (External_is_empty (pre rhs))
  then order_pre t rhs lhs_buf rhs_buf
  else External_order (pre t) (pre rhs) lhs_buf rhs_buf.

Definition order_without_tag (lhs rhs : Version) : comparison :=
  if major lhs <? major rhs then Lt
  else if major rhs <? major lhs then Gt
  else if minor lhs <? minor rhs then Lt
  else if minor rhs <? minor lhs then Gt
  else if patch lhs <? patch rhs then Lt
  else if patch rhs <? patch lhs then Gt
  else if has_pre (tag lhs) then (if negb (has_pre (tag rhs)) then Lt else Eq)
  else if has_pre (tag rhs) then Gt
  else Eq.

Definition Version_order (v rhs : Version) (lhs_buf rhs_buf : list Z) : comparison :=
  match order_without_tag v rhs with
  | Eq => Tag_order (tag v) (tag rhs) lhs_buf rhs_buf
  | c => c
  end.

Definition order_without_build (v rhs : Version) (lhs_buf rhs_buf : list Z) : comparison :=
  match order_without_tag v rhs with
  | Eq => Tag_order_without_build (tag v) (tag rhs) lhs_buf rhs_buf
  | c => c
  end.

Definition order_fn (ctx : list Z) (lhs rhs : Version) : comparison := Version_order lhs rhs ctx ctx.

Definition sort_gt (ctx : list Z) (lhs rhs : Version) : bool :=
  match order_fn ctx lhs rhs with Gt => true | _ => false end.

Definition is_zero (v : Version) : bool := (patch v =? 0) && (minor v =? 0) && (major v =? 0).

Definition Version_eql (v rhs : Version) : bool :=
  (major v =? major rhs) && (minor v =? minor rhs) && (patch v =? patch rhs) &&
  Tag_eql (tag rhs) (tag v).

(** [VersionType::<u32>::migrate] *)
Definition migrate (v : Version) : Version :=
  mkVersion (major v) (minor v) (patch v) (mkTag (pre (tag v)) (build (tag v))).

Definition Version_len (v : Version) : Z :=
  wrap 32 (Z.of_nat (External_len (build (tag v)) + External_len (pre (tag v)))).

Definition is_Eq (c : comparison) : bool := match c with Eq => true | _ => false end.

Definition which_version_is_different (left right : Version) (left_buf right_buf : list Z)
    : option ChangedVersion :=
  if negb (major left =? major right) then Some ChMajor
  else if negb (minor left =? minor right) then Some ChMinor
  else if negb (patch left =? patch right) then Some ChPatch
  else if negb (Bool.eqb (has_pre (tag left)) (has_pre (tag right))) then Some ChPre
  else if negb (has_pre (tag left)) && negb (has_pre (tag right)) then None
  else if negb (is_Eq (order_pre (tag left) (tag right) left_buf right_buf)) then Some ChPre
  else if negb (Bool.eqb (has_build (tag left)) (has_build (tag right))) then Some ChBuild
  else if negb (has_build (tag left)) && negb (has_build (tag right)) then None
  else if negb (is_Eq (External_order (build (tag left)) (build (tag right)) left_buf right_buf))
       then Some ChBuild
  else None.

(** [Display] for [Formatter] *)
Definition Version_fmt (v : Version) (input : list Z) : list Z :=
  fmt_uint (major v) ++ [ch "."] ++ fmt_uint (minor v) ++ [ch "."] ++ fmt_uint (patch v) ++
  (if has_pre (tag v) then ch "-" :: External_slice (pre (tag v)) input else []) ++
  (if has_build (tag v) then ch "+" :: External_slice (build (tag v)) input else []).

(** ** Parsing the tag *)

Variant TagState := SNone | SPre | SBuild.

#[export] Instance TagState_eq_dec : EqDecision TagState.
Proof. solve_decision. Defined.

(** The counting loop: [+] and [-] up to the first space. *)
Fixpoint count_qualifiers (input : list Z) (build_count pre_count : nat) : nat * nat :=
  match input with
  | [] => (build_count, pre_count)
  | c :: input =>
      if c =? ch " " then (build_count, pre_count)
      else if c =? ch "+" then count_qualifiers input (S build_count) pre_count
      else if c =? ch "-" then count_qualifiers input build_count (S pre_count)
      else count_qualifiers input build_count pre_count
  end.

(** [sliced_string.sub(&input[a..b]).external()] *)
Definition sub_external (s : SlicedString) (a b : nat) : outcome ExternalString :=
  sub ← ms_range (sl_slice s) a b; Ok (Sliced_external (Sliced_sub s sub)).

Definition valid_tag_char (c : Z) : bool := is_ascii_alphanumeric c || (c =? ch ".").

(** The scanning loop of [parse_with_pre_count] over the bytes [rest] from index [i]: the
    tag so far, the state, [start] and [i] at the exit. *)
Fixpoint tag_loop (s : SlicedString) (initial_pre_count : nat) (rest : list Z)
    (t : Tag) (st : TagState) (start i : nat) : outcome (Tag * TagState * nat * nat) :=
  match rest with
  | [] => Ok (t, st, start, i)
  | c :: rest =>
      if c =? ch "+" then
        t ← (if bool_decide (st = SPre) || (bool_decide (st = SNone) && (0 <? initial_pre_count)%nat)
             then p ← sub_external s start i; Ok (mkTag p (build t))
             else Ok t);
        if bool_decide (st = SBuild) then tag_loop s initial_pre_count rest t st start (i + 1)
        else tag_loop s initial_pre_count rest t SBuild (i + 1) (i + 1)
      else if c =? ch "-" then
        if bool_decide (st = SPre) then tag_loop s initial_pre_count rest t st start (i + 1)
        else tag_loop s initial_pre_count rest t SPre (i + 1) (i + 1)
      else if valid_tag_char c then tag_loop s initial_pre_count rest t st start (i + 1)
      else match st with
           | SNone => Ok (t, SNone, start, i)
           | SPre => p ← sub_external s start i; Ok (mkTag p (build t), SNone, start, i)
           | SBuild => b ← sub_external s start i; Ok (mkTag (pre t) b, SNone, start, i)
           end
  end.

(** The epilogue of [parse_with_pre_count] after the scanning loop. *)
Definition tag_finish (s : SlicedString) (initial_pre_count : nat)
    (exit : Tag * TagState * nat * nat) : outcome TagResult :=
  let '(t, st, start, i) := exit in
  let '(st, start) :=
    if bool_decide (st = SNone) && (0 <? initial_pre_count)%nat then (SPre, 0%nat) else (st, start) in
  match st with
  | SNone => Ok (mkTagResult t i)
  | SPre => p ← sub_external s start i; Ok (mkTagResult (mkTag p (build t)) i)
  | SBuild => b ← sub_external s start i; Ok (mkTagResult (mkTag (pre t) b) i)
  end.

Definition parse_with_pre_count (s : SlicedString) (initial_pre_count : nat) : outcome TagResult :=
  let input := data (sl_slice s) in
  let '(build_count, pre_count) := count_qualifiers input 0 initial_pre_count in
  if (build_count =? 0)%nat && (pre_count =? 0)%nat then Ok (mkTagResult Tag_default 0)
  else
    exit ← tag_loop s initial_pre_count input Tag_default SNone 0 0;
    tag_finish s initial_pre_count exit.

Definition Tag_parse (s : SlicedString) : outcome TagResult := parse_with_pre_count s 0.

(** ** Parsing the version *)

(** The copying loop of [parse_version_number]: the digits kept, [None] for the early
    returns (a wildcard character, or a 21st digit). *)
Fixpoint collect_digits (input bytes : list Z) : option (list Z) :=
  match input with
  | [] => Some bytes
  | c :: input =>
      if (c =? ch "X") || (c =? ch "x") || (c =? ch "*") then None
      else if is_ascii_digit c then
        if (20 <? length bytes + 1)%nat then None else collect_digits input (bytes ++ [c])
      else if (c =? ch " ") || (c =? ch ".") then Some bytes
      else collect_digits input bytes
  end.

Definition parse_version_number (T : VersionInt) (input : list Z) : option Z :=
  match collect_digits input [] with
  | None => None
  | Some bytes =>
      if (length bytes =? 0)%nat then None else Some (default 0 (parse_ascii T bytes))
  end.

Definition is_version_space (c : Z) : bool :=
  memb c [ch " "; 9; 10; 13; 11; 12; ch "v"; ch "="].

(** The first index that is neither whitespace nor [v] nor [=]; [0] when there is none. *)
Fixpoint first_version_char (input : list Z) (c : nat) : nat :=
  match input with
  | [] => 0
  | x :: input => if is_version_space x then first_version_char input (S c) else c
  end.

Definition is_stop_char (c : Z) : bool :=
  memb c [ch "|"; ch "^"; ch "#"; ch "&"; ch "%"; ch "!"].
Definition is_x_char (c : Z) : bool := memb c [ch "x"; ch "*"; ch "X"].

(** The parser's state in the main loop. *)
Record PState := mkPState { ps_result : ParseResult; ps_part_i : nat; ps_i : nat }.

Definition set_version (r : ParseResult) (p : Partial) : ParseResult :=
  mkParseResult (pr_wildcard r) (pr_valid r) p (pr_len r).
Definition set_invalid (r : ParseResult) : ParseResult :=
  mkParseResult (pr_wildcard r) false (pr_version r) (pr_len r).
Definition set_wildcard (r : ParseResult) (w : Wildcard) : ParseResult :=
  mkParseResult w (pr_valid r) (pr_version r) (pr_len r).
Definition set_len (r : ParseResult) (n : nat) : ParseResult :=
  mkParseResult (pr_wildcard r) (pr_valid r) (pr_version r) n.

(** [result.version.<part> = n; part_i += 1] for the [part_i]-th number. *)
Definition set_part (T : VersionInt) (r : ParseResult) (part_i : nat) (num : list Z) : ParseResult * nat :=
  let p := pr_version r in
  let n := parse_version_number T num in
  match part_i with
  | 0%nat => (set_version r (mkPartial n (p_minor p) (p_patch p) (p_tag p)), 1%nat)
  | 1%nat => (set_version r (mkPartial (p_major p) n (p_patch p) (p_tag p)), 2%nat)
  | 2%nat => (set_version r (mkPartial (p_major p) (p_minor p) n (p_tag p)), 3%nat)
  | _ => (r, part_i)
  end.

Definition set_tag (r : ParseResult) (t : Tag) : ParseResult :=
  let p := pr_version r in set_version r (mkPartial (p_major p) (p_minor p) (p_patch p) t).

(** The wildcard of a missing or [x] part. *)
Definition part_wildcard (part_i : nat) : Wildcard :=
  match part_i with 0%nat => WMajor | 1%nat => WMinor | 2%nat => WPatch | _ => WNone end.

(** One iteration of the main loop: [inl] continues, [inr] breaks. *)
Definition parse_step (T : VersionInt) (s : SlicedString) (st : PState) : outcome (PState + PState) :=
  let input := data (sl_slice s) in
  let '(mkPState r part_i i) := st in
  c ← index_at input i;
  if c =? ch " " then Ok (inr st)
  else if is_stop_char c then Ok (inr (mkPState r part_i (Nat.pred i)))
  else if is_ascii_digit c then
    let last_char_i := (i + 1 + run_length is_ascii_digit (drop (i + 1) input))%nat in
    num ← slice_range input i last_char_i;
    let '(r, part_i) := set_part T r part_i num in
    let dot := match input !! last_char_i with Some d => (d =? ch ".") && negb (part_i =? 3)%nat | None => false end in
    Ok (inl (mkPState r part_i (if dot then last_char_i + 1 else last_char_i)%nat))
  else if c =? ch "." then Ok (inr (mkPState (set_invalid r) part_i i))
  else if (c =? ch "-") || (c =? ch "+") then
    if (part_i <? 2)%nat && bool_decide (pr_wildcard r = WNone)
    then Ok (inr (mkPState (set_invalid r) part_i i))
    else
      let i' := (i + run_length (Z.eqb (ch " ")) (drop i input))%nat in
      sub ← ms_from (sl_slice s) i;
      tr ← Tag_parse (Sliced_sub s sub);
      Ok (inr (mkPState (set_tag r (tr_tag tr)) part_i (i' + tr_len tr)%nat))
  else if is_x_char c then
    let last_char_i := (i + 1 + run_length is_x_char (drop (i + 1) input))%nat in
    let i' := if bool_decide (input !! last_char_i = Some (ch ".")) then (last_char_i + 1)%nat else last_char_i in
    if bool_decide (pr_wildcard r = WNone) then
      match part_i with
      | 0%nat | 1%nat | 2%nat => Ok (inl (mkPState (set_wildcard r (part_wildcard part_i)) (part_i + 1) i'))
      | _ => Ok (inl (mkPState r part_i i'))
      end
    else Ok (inl (mkPState r part_i i'))
  else if bool_decide (pr_wildcard r = WNone) && (2 <=? part_i)%nat && is_ascii_alphabetic c then
    sub ← ms_from (sl_slice s) i;
    tr ← parse_with_pre_count (Sliced_sub s sub) 1;
    Ok (inr (mkPState (set_tag r (tr_tag tr)) part_i (i + tr_len tr)%nat))
  else Ok (inr (mkPState (set_invalid r) part_i i)).

(** [while i < input.len()] *)
Fixpoint parse_loop (fuel : nat) (T : VersionInt) (s : SlicedString) (st : PState) : outcome PState :=
  if (ps_i st <? length (data (sl_slice s)))%nat then
    match fuel with
    | O => OutOfFuel
    | S fuel =>
        r ← parse_step T s st;
        match r with inl st => parse_loop fuel T s st | inr st => Ok st end
    end
  else Ok st.

(** [Version::parse]; every iteration that continues advances [i], so the input's length
    is enough fuel. *)
Definition parse (T : VersionInt) (s : SlicedString) : outcome ParseResult :=
  let input := data (sl_slice s) in
  if (length input =? 0)%nat then Ok (set_invalid ParseResult_default)
  else
    let i := first_version_char input 0 in
    if (i =? length input)%nat then Ok (set_invalid ParseResult_default)
    else
      st ← parse_loop (length input) T s (mkPState ParseResult_default 0 i);
      let '(mkPState r part_i i) := st in
      let r := if bool_decide (pr_wildcard r = WNone) then set_wildcard r (part_wildcard part_i) else r in
      if Z.of_nat i <=? U32_MAX then Ok (set_len r i) else Panic.

Definition parse_utf8 (T : VersionInt) (slice : memory_slice) : outcome ParseResult :=
  parse T (mkSliced slice slice).

(** ** Pinned versions and tags *)

Definition valid_pre_or_build_tag_character (c : Z) : bool :=
  (c =? ch "-") || (c =? ch "+") || (c =? ch ".") || is_ascii_alphanumeric c.

Definition is_pin_space (c : Z) : bool := memb c WHITESPACE_CHARS.

(** The scan for the first significant character: [inr] is an early return. *)
Fixpoint pin_prefix (version : list Z) (j : nat) : (PinnedVersion * nat) + PinnedVersion :=
  match version with
  | [] => inr PinMajor
  | c :: rest =>
      if is_version_space c then pin_prefix rest (S j)
      else if (c =? ch "~") || (c =? ch "^") then
        let k := run_length is_pin_space rest in
        if (k =? length rest)%nat then inr PinMajor
        else inl (if c =? ch "~" then PinMinor else PinMajor, (S j + k)%nat)
      else if is_ascii_digit c then inl (PinPatch, j)
      else inr PinMajor
  end.

(** One core number at [i]: [None] when there is no digit, otherwise the index after it. *)
Definition pin_number (version : list Z) (i : nat) : option nat :=
  match version !! i with
  | Some d =>
      if is_ascii_digit d
      then Some (i + run_length is_ascii_digit (drop i version))%nat
      else None
  | None => None
  end.

Definition pin_or (pinned other : PinnedVersion) : PinnedVersion :=
  if bool_decide (pinned = PinPatch) then other else pinned.

Definition which_version_is_pinned (input : list Z) : PinnedVersion :=
  let version := trim input WHITESPACE_CHARS in
  match pin_prefix version 0 with
  | inr p => p
  | inl (pinned, i) =>
      match pin_number version i with
      | None => PinMajor
      | Some i =>
          match version !! i with
          | None => pin_or pinned PinMajor
          | Some d =>
              if negb (d =? ch ".") then PinMajor
              else match pin_number version (i + 1) with
              | None => PinMajor
              | Some i =>
                  match version !! i with
                  | None => pin_or pinned PinMinor
                  | Some d =>
                      if negb (d =? ch ".") then PinMajor
                      else match pin_number version (i + 1) with
                      | None => PinMajor
                      | Some i =>
                          match version !! i with
                          | None => pinned
                          | Some d =>
                              let ok c := valid_pre_or_build_tag_character c && negb (is_ascii_whitespace c) in
                              if negb (ok d) then PinMajor
                              else if (i + 1 + run_length ok (drop (i + 1) version) =? length version)%nat
                                   then pinned
                              else PinMajor
                          end
                      end
                  end
              end
          end
      end
  end.

Definition is_tagged_version_only (input : list Z) : bool :=
  match trim input WHITESPACE_CHARS with
  | [] => false
  | c :: rest => is_ascii_alphabetic c && forallb is_ascii_alphanumeric rest
  end.

(** ** Precedence: the specification of the order *)

(** A prerelease identifier: numeric ones compare as numbers and come first. *)
Definition ident : Type := Z + list Z.

(** As the semver specification reads it: digits only is a number of any size, the rest is text. *)
Definition numeric_ident (part : list Z) : bool := negb (bool_decide (part = [])) && forallb is_ascii_digit part.

Definition semver_ident (part : list Z) : ident :=
  if numeric_ident part then inl (dec_value 0 part) else inr part.

(** An identifier of the specification ([[0-9A-Za-z-]]), whose number fits into 64 bits. *)
Definition ident_ok (part : list Z) : Prop :=
  Forall (fun c => is_ascii_alphanumeric c || (c =? ch "-") = true) part /\
  (numeric_ident part = true -> dec_value 0 part <= U64_MAX).

(** As the code reads it: larger numbers are text. *)
Definition ident_of (part : list Z) : ident :=
  match parse_ascii u64_int part with Some n => inl n | None => inr part end.

Definition ident_cmp : ident -> ident -> comparison := cmp_sum Z.compare order.

(** What precedence looks at: the core numbers, then the prerelease identifiers; a
    version without a prerelease comes after all its prereleases. *)
Definition precedence : Type := Z * (Z * (Z * (list ident + unit))).

Definition precedence_cmp : precedence -> precedence -> comparison :=
  cmp_pair Z.compare (cmp_pair Z.compare (cmp_pair Z.compare
    (cmp_sum (cmp_list ident_cmp) (fun _ _ => Eq)))).

Definition precedence_of (v : Version) (buf : list Z) : precedence :=
  (major v, (minor v, (patch v,
    if has_pre (tag v)
    then inl (map ident_of (fields (External_slice (pre (tag v)) buf) (ch ".")))
    else inr tt))).

(** The same with the identifiers of the specification. *)
Definition semver_precedence_of (v : Version) (buf : list Z) : precedence :=
  (major v, (minor v, (patch v,
    if has_pre (tag v)
    then inl (map semver_ident (fields (External_slice (pre (tag v)) buf) (ch ".")))
    else inr tt))).

Definition idents_ok (v : Version) (buf : list Z) : Prop :=
  has_pre (tag v) = true -> Forall ident_ok (fields (External_slice (pre (tag v)) buf) (ch ".")).

#[export] Instance ident_cmp_preorder : TotalPreorderCmp ident_cmp.
Proof. apply cmp_sum_preorder; apply _. Qed.

#[export] Instance cmp_unit_preorder : TotalPreorderCmp (fun _ _ : unit => Eq).
Proof. by split. Qed.

#[export] Instance precedence_cmp_preorder : TotalPreorderCmp precedence_cmp.
Proof. unfold precedence_cmp. repeat (apply cmp_pair_preorder; [apply _|]). apply _. Qed.

Lemma order_pre_loop_spec (l r : list (list Z)) :
  order_pre_loop l r = cmp_list ident_cmp (map ident_of l) (map ident_of r).
Proof.
  revert r. induction l as [|a l IH]; intros [|b r]; simpl; try done.
  assert (Hi : forall p, ident_of p = match parse_ascii u64_int p with Some n => inl n | None => inr p end)
    by done.
  rewrite (Hi a), (Hi b), IH.
  destruct (parse_ascii u64_int a) as [n|], (parse_ascii u64_int b) as [m|]; [|done|done|].
  - by destruct (n ?= m) eqn:E; simpl; rewrite E.
  - by destruct (order a b) eqn:E; simpl; rewrite E.
Qed.

Lemma order_pre_spec (t rhs : Tag) lb rb :
  order_pre t rhs lb rb =
    cmp_list ident_cmp (map ident_of (fields (External_slice (pre t) lb) (ch ".")))
                       (map ident_of (fields (External_slice (pre rhs) rb) (ch "."))).
Proof. unfold order_pre. apply order_pre_loop_spec. Qed.

(** The type invariant of a version: its string handles are eight bytes. *)
Definition external_ok (e : ExternalString) : Prop := handle_ok (ext_value e).
Definition version_ok (v : Version) : Prop := external_ok (pre (tag v)) /\ external_ok (build (tag v)).

Lemma External_order_empty (e f : ExternalString) lb rb :
  external_ok e -> external_ok f -> External_is_empty e = true -> External_is_empty f = true ->
  External_order e f lb rb = Eq.
Proof.
  intros He Hf Ee Ef. unfold External_order. destruct (_ && _); [done|].
  unfold String_order. by rewrite !String_empty_slice.
Qed.

Lemma order_without_tag_spec (v w : Version) :
  order_without_tag v w =
    cmp_then (major v ?= major w) (cmp_then (minor v ?= minor w) (cmp_then (patch v ?= patch w)
      (match has_pre (tag v), has_pre (tag w) with true, false => Lt | false, true => Gt | _, _ => Eq end))).
Proof.
  unfold order_without_tag, Z.ltb, cmp_then.
  rewrite (Z.compare_antisym (major v) (major w)), (Z.compare_antisym (minor v) (minor w)),
    (Z.compare_antisym (patch v) (patch w)).
  destruct (major v ?= major w); [|reflexivity..].
  destruct (minor v ?= minor w); [|reflexivity..].
  destruct (patch v ?= patch w); [|reflexivity..].
  by destruct (has_pre (tag v)), (has_pre (tag w)).
Qed.

(** [order_without_build], on handles of two unrelated buffers, is the precedence
    order of the semver specification on the versions' contents. *)
Lemma order_without_build_spec (v w : Version) (lhs_buf rhs_buf : list Z) :
  version_ok v -> version_ok w ->
  order_without_build v w lhs_buf rhs_buf =
    precedence_cmp (precedence_of v lhs_buf) (precedence_of w rhs_buf).
Proof.
  intros [Hv _] [Hw _]. unfold order_without_build. rewrite order_without_tag_spec.
  unfold precedence_cmp, precedence_of, cmp_pair, cmp_then. cbn [fst snd].
  destruct (major v ?= major w); [|reflexivity..].
  destruct (minor v ?= minor w); [|reflexivity..].
  destruct (patch v ?= patch w); [|reflexivity..].
  unfold Tag_order_without_build, has_pre.
  destruct (External_is_empty (pre (tag v))) eqn:Ev, (External_is_empty (pre (tag w))) eqn:Ew; simpl; try done.
  - by apply External_order_empty.
  - apply order_pre_spec.
Qed.

Lemma decimal_digit c d : radix_digit 10 c = Some d -> is_ascii_digit c = true.
Proof.
  unfold radix_digit, digit_value, is_ascii_lower, is_ascii_upper. destruct (is_ascii_digit c); [done|].
  destruct (Z.leb_spec 97 c), (Z.leb_spec c 122), (Z.leb_spec 65 c), (Z.leb_spec c 90); cbn [andb]; try done; repeat match goal with |- context [?a <? 10] => destruct (Z.ltb_spec a 10) end; done || lia.
Qed.

(** The code reads the identifiers of the specification as it does, up to 64 bits. *)
Lemma ident_of_semver part : ident_ok part -> ident_of part = semver_ident part.
Proof.
  intros [Hc Hb]. unfold ident_of, semver_ident, parse_ascii. cbn [u64_int vi_MAX]. destruct (numeric_ident part) eqn:En.
  - specialize (Hb eq_refl). unfold numeric_ident in En. apply andb_true_iff in En as [Hne Hd].
    apply negb_true_iff, bool_decide_eq_false in Hne.
    assert (Hd' : all_digits part) by (apply list.Forall_forall; intros c Hin; rewrite forallb_forall in Hd; by apply Hd, list_elem_of_In).
    rewrite parse_unsigned_digits by (done || (unfold U64_MAX, U128_MAX; lia)). by rewrite (proj2 (Z.leb_le _ _)).
  - destruct (parse_unsigned U64_MAX part 10) as [v|] eqn:Ev; [|done]. exfalso.
    apply parse_unsigned_accepts in Ev as [Hn _]; [|unfold U64_MAX, U128_MAX; lia|lia].
    enough (numeric_ident part = true) by congruence. unfold numeric_ident, numeral in *.
    destruct (bool_decide (part = [])) eqn:E0; [done|]. cbn [orb negb andb] in *.
    destruct (_ || _); [done|]. destruct (radix_digits 10 part) as [ds|] eqn:Er; [|done]. clear -Er Hc.
    revert ds Er. induction Hc as [|c part Hc _ IH]; intros ds; [done|]. rewrite radix_digits_cons.
    destruct (Z.eqb_spec c (ch "_")) as [->|_]; [done|]. intros (d & Hd & Hrest)%bind_Some. apply bind_Some in Hrest as (ds' & Hds & _).
    cbn [forallb]. by rewrite (IH _ Hds), (decimal_digit c d Hd).
Qed.

Lemma precedence_of_semver v buf : idents_ok v buf -> precedence_of v buf = semver_precedence_of v buf.
Proof.
  intros H. unfold precedence_of, semver_precedence_of. destruct (has_pre (tag v)) eqn:E; [|done]. do 4 f_equal.
  apply map_ext_Forall. eapply Forall_impl; [|exact (H E)]. exact ident_of_semver.
Qed.

(** (C2) [order_without_build], on versions whose strings live in two unrelated buffers,
    is the precedence order of the semver specification on what the versions denote, when the
    prereleases are identifiers of that specification and their numbers fit into 64 bits. *)
Theorem order_without_build_precedence (v w : Version) (lhs_buf rhs_buf : list Z) :
  version_ok v -> version_ok w -> idents_ok v lhs_buf -> idents_ok w rhs_buf ->
  order_without_build v w lhs_buf rhs_buf =
    precedence_cmp (semver_precedence_of v lhs_buf) (semver_precedence_of w rhs_buf).
Proof. intros Hv Hw Iv Iw. rewrite <- !precedence_of_semver by done. by apply order_without_build_spec. Qed.

(** Samples: the prerelease [1.2.3-rc.1] and the release [1.2.3]. *)
Definition sample_tag : memory_slice := mkSlice 1000 (str "rc.1").
Definition sample_pre : Version := mkVersion 1 2 3 (mkTag (External_init sample_tag sample_tag 0) External_default).
Definition sample_release : Version := mkVersion 1 2 3 Tag_default.

Lemma sample_pre_ok : version_ok sample_pre.
Proof. split; (split; [reflexivity|]); vm_compute; by repeat constructor. Qed.
Lemma sample_release_ok : version_ok sample_release.
Proof. split; (split; [reflexivity|]); by repeat constructor. Qed.

Lemma sample_pre_idents : idents_ok sample_pre [].
Proof.
  intros _. change (fields _ _) with [str "rc"; str "1"]. repeat constructor; cbv; discriminate.
Qed.

Lemma order_without_build_precedence_witness :
  order_without_build sample_pre sample_release [] [] = Lt /\
  precedence_cmp (semver_precedence_of sample_pre []) (semver_precedence_of sample_release []) = Lt.
Proof.
  split; [|vm_compute; reflexivity].
  rewrite (order_without_build_precedence sample_pre sample_release [] [] sample_pre_ok sample_release_ok sample_pre_idents);
    [vm_compute; reflexivity|intros H; discriminate H].
Defined.

(** Beyond 64 bits numeric identifiers compare as text: [1.0.0-99999999999999999999] comes after
    [1.0.0-100000000000000000000]. *)
Theorem large_identifiers_misordered :
  let version txt := mkVersion 1 0 0 (mkTag (External_init (mkSlice 1000 txt) (mkSlice 1000 txt) 0) External_default) in
  let small := str "99999999999999999999" in
  let large := str "100000000000000000000" in
  order_without_build (version small) (version large) small large = Gt /\
  precedence_cmp (semver_precedence_of (version small) small) (semver_precedence_of (version large) large) = Lt.
Proof. split; vm_compute; reflexivity. Qed.

(** For versions of one buffer, [order_without_build] is a total preorder: swapping
    the arguments reverses the answer, and "not greater" is transitive. *)
Theorem order_without_build_total_preorder (buf : list Z) (u v w : Version) :
  version_ok u -> version_ok v -> version_ok w ->
  order_without_build v u buf buf = CompOpp (order_without_build u v buf buf) /\
  (order_without_build u v buf buf <> Gt -> order_without_build v w buf buf <> Gt ->
   order_without_build u w buf buf <> Gt).
Proof.
  intros Hu Hv Hw. rewrite !order_without_build_spec by done. split.
  - apply (cmp_opp _).
  - apply (cmp_trans _).
Qed.

Lemma order_without_build_total_preorder_witness :
  order_without_build sample_release sample_pre [] [] = CompOpp (order_without_build sample_pre sample_release [] []).
Proof.
  exact (proj1 (order_without_build_total_preorder [] sample_pre sample_release sample_release
    sample_pre_ok sample_release_ok sample_release_ok)).
Defined.

(** The full order only refines precedence. *)
Lemma Version_order_refines (v w : Version) lb rb :
  order_without_build v w lb rb <> Eq -> Version_order v w lb rb = order_without_build v w lb rb.
Proof.
  unfold order_without_build, Version_order. destruct (order_without_tag v w); try done.
  unfold Tag_order, Tag_order_without_build. destruct (_ && _); [done|].
  by destruct (External_order (pre (tag v)) _ _ _).
Qed.

(** [which_version_is_different] finds no difference only between versions of equal
    precedence, and names a core or prerelease change only when precedence differs. *)
Theorem which_version_is_different_sound (v w : Version) (lb rb : list Z) :
  version_ok v -> version_ok w ->
  match which_version_is_different v w lb rb with
  | None | Some ChBuild => order_without_build v w lb rb = Eq
  | Some ChMajor => major v <> major w
  | Some ChMinor => major v = major w /\ minor v <> minor w
  | Some ChPatch => major v = major w /\ minor v = minor w /\ patch v <> patch w
  | Some ChPre => major v = major w /\ minor v = minor w /\ patch v = patch w /\
                  order_without_build v w lb rb <> Eq
  | Some ChNone => False
  end.
Proof.
  intros [Hv _] [Hw _]. unfold which_version_is_different.
  destruct (Z.eqb_spec (major v) (major w)) as [E1|E1]; simpl; [|done].
  destruct (Z.eqb_spec (minor v) (minor w)) as [E2|E2]; simpl; [|done].
  destruct (Z.eqb_spec (patch v) (patch w)) as [E3|E3]; simpl; [|done].
  unfold order_without_build. rewrite order_without_tag_spec, E1, E2, E3, !Z.compare_refl. simpl.
  unfold Tag_order_without_build, has_pre, has_build.
  destruct (External_is_empty (pre (tag v))) eqn:Ev, (External_is_empty (pre (tag w))) eqn:Ew; simpl; try done.
  - by apply External_order_empty.
  - destruct (order_pre _ _ _ _); simpl; try done.
    destruct (External_is_empty (build (tag v))), (External_is_empty (build (tag w))); simpl; try done.
    by destruct (External_order _ _ _ _).
Qed.

Lemma which_version_is_different_sound_witness :
  which_version_is_different sample_pre sample_release [] [] = Some ChPre /\
  order_without_build sample_pre sample_release [] [] <> Eq.
Proof.
  split; [vm_compute; reflexivity|].
  exact (proj2 (proj2 (proj2 (which_version_is_different_sound sample_pre sample_release [] [] sample_pre_ok sample_release_ok)))).
Defined.

(** ** The parser is total *)

Lemma ms_range_returns s a b :
  (a <= b <= length (data s))%nat ->
  ms_range s a b = Ok (mkSlice (addr s + Z.of_nat a) (take (b - a) (drop a (data s)))).
Proof. intros. unfold ms_range. by rewrite slice_range_ok. Qed.

Lemma ms_from_returns s a :
  (a <= length (data s))%nat -> ms_from s a = Ok (mkSlice (addr s + Z.of_nat a) (drop a (data s))).
Proof. intros. unfold ms_from. by rewrite slice_from_ok. Qed.

(** The handle [sub_external] builds. *)
Definition external_of (s : SlicedString) (a b : nat) : ExternalString :=
  Sliced_external (Sliced_sub s (mkSlice (addr (sl_slice s) + Z.of_nat a) (take (b - a) (drop a (data (sl_slice s)))))).

Lemma sub_external_returns s a b :
  (a <= b <= length (data (sl_slice s)))%nat -> sub_external s a b = Ok (external_of s a b).
Proof. intros. unfold sub_external. by rewrite ms_range_returns. Qed.

Lemma tag_loop_returns s ipc rest t st start i :
  (start <= i)%nat -> (i + length rest = length (data (sl_slice s)))%nat ->
  returns_with (tag_loop s ipc rest t st start i)
    (fun '(_, _, start', i') => (start' <= i' <= length (data (sl_slice s)))%nat).
Proof.
  revert t st start i. induction rest as [|c rest IH]; intros t st start i Hs Hi; cbn [tag_loop].
  { apply returns_with_Ok. simpl in Hi. lia. }
  simpl in Hi. destruct (c =? 43).
  { apply (returns_with_bind _ _ (fun _ => True)).
    - destruct (_ || _); [|by apply returns_with_Ok]. rewrite sub_external_returns by lia. by apply returns_with_Ok.
    - intros t' _. case_bool_decide; apply IH; lia. }
  destruct (c =? 45); [case_bool_decide; apply IH; lia|].
  destruct (valid_tag_char c); [apply IH; lia|].
  destruct st; rewrite ?sub_external_returns by lia; apply returns_with_Ok; lia.
Qed.

Lemma parse_with_pre_count_returns s ipc :
  returns_with (parse_with_pre_count s ipc) (fun tr => (tr_len tr <= length (data (sl_slice s)))%nat).
Proof.
  unfold parse_with_pre_count. destruct (count_qualifiers _ _ _) as [bc pc].
  destruct (_ && _); [apply returns_with_Ok; simpl; lia|].
  eapply returns_with_bind; [apply tag_loop_returns; simpl; lia|].
  intros [[[t st] start] i] Hi. unfold tag_finish.
  destruct (bool_decide (st = SNone) && _);
    [|destruct st]; rewrite ?sub_external_returns by lia; apply returns_with_Ok; simpl; lia.
Qed.

(** One step breaks inside the input, or advances inside it. *)
Lemma parse_step_returns T s st :
  (ps_i st < length (data (sl_slice s)))%nat ->
  returns_with (parse_step T s st)
    (fun r => match r with
              | inl st' => (ps_i st < ps_i st' <= length (data (sl_slice s)))%nat
              | inr st' => (ps_i st' <= length (data (sl_slice s)))%nat
              end).
Proof.
  destruct st as [r part_i i]. cbn [ps_i]. intros Hi. unfold parse_step.
  destruct (data (sl_slice s) !! i) as [c|] eqn:Ec; [|apply lookup_ge_None in Ec; lia].
  rewrite (index_at_ok _ _ _ Ec). cbn [mbind outcome_bind].
  destruct (c =? 32) eqn:E32; [apply returns_with_Ok; simpl; lia|].
  destruct (is_stop_char c); [apply returns_with_Ok; simpl; lia|].
  assert (Hrun : forall p, (i + 1 + run_length p (drop (i + 1) (data (sl_slice s))) <= length (data (sl_slice s)))%nat).
  { intros p. pose proof (run_length_le p (drop (i + 1) (data (sl_slice s)))). rewrite length_drop in *. lia. }
  destruct (is_ascii_digit c).
  { rewrite slice_range_ok by (pose proof (Hrun is_ascii_digit); lia). cbn [mbind outcome_bind].
    destruct (set_part T r part_i _) as [r' part_i']. apply returns_with_Ok. cbn [ps_i].
    pose proof (Hrun is_ascii_digit).
    destruct (data (sl_slice s) !! (i + 1 + run_length is_ascii_digit (drop (i + 1) (data (sl_slice s))))%nat)
      as [d|] eqn:Ed; [|lia].
    apply lookup_lt_Some in Ed. destruct (_ && _); lia. }
  destruct (c =? 46); [apply returns_with_Ok; simpl; lia|].
  destruct ((c =? 45) || (c =? 43)).
  { destruct (_ && _); [apply returns_with_Ok; simpl; lia|].
    rewrite ms_from_returns by lia. cbn [mbind outcome_bind].
    eapply returns_with_bind; [apply parse_with_pre_count_returns|]. intros tr Htr. apply returns_with_Ok.
    cbn [ps_i]. simpl in Htr. rewrite length_drop in Htr.
    rewrite (drop_S _ _ _ Ec). cbn [run_length]. rewrite Z.eqb_sym, E32. lia. }
  destruct (is_x_char c).
  { pose proof (Hrun is_x_char) as Hx.
    set (last := (i + 1 + run_length is_x_char (drop (i + 1) (data (sl_slice s))))%nat) in *.
    set (i' := if bool_decide (data (sl_slice s) !! last = Some 46) then (last + 1)%nat else last).
    assert (Hi' : (i < i' <= length (data (sl_slice s)))%nat).
    { unfold i'. case_bool_decide as Ed; [apply lookup_lt_Some in Ed|]; lia. }
    clearbody i'. destruct (bool_decide (pr_wildcard r = WNone)); [destruct part_i as [|[|[|]]]|]; apply returns_with_Ok; exact Hi'. }
  destruct (_ && _ && _); [|apply returns_with_Ok; simpl; lia].
  rewrite ms_from_returns by lia. cbn [mbind outcome_bind].
  eapply returns_with_bind; [apply parse_with_pre_count_returns|]. intros tr Htr. apply returns_with_Ok.
  cbn [ps_i]. simpl in Htr. rewrite length_drop in Htr. lia.
Qed.

Lemma parse_loop_returns fuel T s st :
  (length (data (sl_slice s)) <= fuel + ps_i st)%nat -> (ps_i st <= length (data (sl_slice s)))%nat ->
  returns_with (parse_loop fuel T s st) (fun st' => (ps_i st' <= length (data (sl_slice s)))%nat).
Proof.
  revert st. induction fuel as [|fuel IH]; intros st Hf Hi; simpl.
  { rewrite (proj2 (Nat.ltb_ge _ _)) by lia. by apply returns_with_Ok. }
  destruct (Nat.ltb_spec (ps_i st) (length (data (sl_slice s)))); [|by apply returns_with_Ok].
  eapply returns_with_bind; [by apply parse_step_returns|]. intros [st'|st'] Hst'.
  - apply IH; lia.
  - by apply returns_with_Ok.
Qed.

Lemma first_version_char_le (l : list Z) c n :
  (length l + c <= n)%nat -> (first_version_char l c <= n)%nat.
Proof. revert c. induction l as [|x l IH]; intros c H; simpl in *; [lia|]. destruct (is_version_space x); [apply IH|]; lia. Qed.

Lemma parse_returns (T : VersionInt) (s : SlicedString) :
  Z.of_nat (length (data (sl_slice s))) < 2 ^ 32 ->
  returns_with (parse T s) (fun r => (pr_len r <= length (data (sl_slice s)))%nat).
Proof.
  intros Hlen. unfold parse.
  destruct (Nat.eqb_spec (length (data (sl_slice s))) 0); [apply returns_with_Ok; simpl; lia|].
  pose proof (first_version_char_le (data (sl_slice s)) 0 (length (data (sl_slice s))) ltac:(lia)).
  destruct (Nat.eqb_spec (first_version_char (data (sl_slice s)) 0) (length (data (sl_slice s))));
    [apply returns_with_Ok; simpl; lia|].
  eapply returns_with_bind; [apply parse_loop_returns; simpl; lia|].
  intros [r part_i i] Hi. cbn [ps_i] in Hi.
  rewrite (proj2 (Z.leb_le _ _)) by (unfold U32_MAX; lia). apply returns_with_Ok. done.
Qed.

(** [Version::parse] returns on every input below 4 GiB: it never panics, its
    loops end, and the consumed length is inside the input. *)
Theorem parse_total (T : VersionInt) (s : SlicedString) :
  Z.of_nat (length (data (sl_slice s))) < 2 ^ 32 ->
  returns_with (parse T s) (fun r => (pr_len r <= length (data (sl_slice s)))%nat).
Proof. apply parse_returns. Qed.

Lemma parse_total_witness :
  returns_with (parse u64_int (mkSliced (mkSlice 1000 (str " v1.x||")) (mkSlice 1000 (str " v1.x||")))) (fun r => (pr_len r <= 7)%nat).
Proof. exact (parse_total u64_int (mkSliced (mkSlice 1000 (str " v1.x||")) (mkSlice 1000 (str " v1.x||"))) ltac:(cbn; lia)). Defined.

(** ** Printing and parsing back *)

Definition sliced_ok (s : SlicedString) : Prop :=
  slice_in (sl_slice s) (sl_buf s) /\ Z.of_nat (length (data (sl_buf s))) < 2 ^ 31 /\
  bytes_ok (data (sl_slice s)).

Lemma slice_in_sub (s buf : memory_slice) a n :
  slice_in s buf -> (a + n <= length (data s))%nat ->
  slice_in (mkSlice (addr s + Z.of_nat a) (take n (drop a (data s)))) buf.
Proof.
  intros (off & Ha & Hl & Hd) Han. exists (off + a)%nat. cbn [addr data].
  rewrite length_take, length_drop. split_and!; [lia|lia|].
  rewrite Hd at 1. rewrite skipn_firstn_comm, take_take, drop_drop.
  rewrite Nat.min_l by lia. f_equal; lia.
Qed.

Lemma sliced_ok_from (s : SlicedString) a :
  sliced_ok s -> (a <= length (data (sl_slice s)))%nat ->
  sliced_ok (Sliced_sub s (mkSlice (addr (sl_slice s) + Z.of_nat a) (drop a (data (sl_slice s))))).
Proof.
  intros (Hin & Hb & Hok) Ha. split_and!; cbn [sl_buf sl_slice Sliced_sub]; [|done|by apply Forall_drop].
  pose proof (slice_in_sub _ _ a (length (data (sl_slice s)) - a) Hin ltac:(lia)) as H.
  by rewrite take_ge in H by (rewrite length_drop; lia).
Qed.

(** The parser's handle for [input[a..b]] reads back as those bytes. *)
Lemma external_of_slice (s : SlicedString) a b :
  sliced_ok s -> (a <= b <= length (data (sl_slice s)))%nat ->
  no_nul (take (b - a) (drop a (data (sl_slice s)))) ->
  External_slice (external_of s a b) (data (sl_buf s)) = take (b - a) (drop a (data (sl_slice s))) /\
  External_is_empty (external_of s a b) = bool_decide (a = b) /\
  external_ok (external_of s a b) /\
  ext_hash (external_of s a b) = hash 0 (take (b - a) (drop a (data (sl_slice s)))).
Proof.
  intros (Hin & Hb & Hok) Hab Hnz.
  pose proof (slice_in_sub _ _ a (b - a) Hin ltac:(lia)) as Hsub.
  set (sub := mkSlice _ _) in Hsub.
  assert (Hs : bytes_ok (data sub)) by (apply Forall_take, Forall_drop, Hok).
  assert (Hst : storable (data sub)) by by split.
  unfold external_of, External_slice, External_is_empty, external_ok, Sliced_external, External_init.
  cbn [ext_value ext_hash sl_buf sl_slice Sliced_sub]. fold sub. split_and!.
  - by rewrite String_init_read.
  - rewrite String_init_empty by done. apply bool_decide_ext. unfold sub. cbn [data].
    rewrite <- length_zero_iff_nil, length_take, length_drop. lia.
  - by apply String_init_ok.
  - done.
Qed.

(** The characters that keep the tag scanner in a state. *)
Definition stays (st : TagState) (c : Z) : bool :=
  valid_tag_char c || match st with SNone => false | SPre => c =? ch "-" | SBuild => c =? ch "+" end.

Lemma valid_tag_char_cases c : valid_tag_char c = true -> c <> 43 /\ c <> 45 /\ c <> 0 /\ c <> 32.
Proof.
  unfold valid_tag_char, is_ascii_alphanumeric, is_ascii_alphabetic, is_ascii_lower, is_ascii_upper, is_ascii_digit.
  rewrite !orb_true_iff, !andb_true_iff, !Z.leb_le, Z.eqb_eq. lia.
Qed.

Lemma stays_nonzero st c : stays st c = true -> c <> 0.
Proof.
  unfold stays. rewrite orb_true_iff. intros [H|H]; [apply valid_tag_char_cases in H; lia|].
  destruct st; [done|..]; apply Z.eqb_eq in H; lia.
Qed.

Lemma stays_no_nul st (l : list Z) : Forall (fun c => stays st c = true) l -> no_nul l.
Proof. intros H. eapply Forall_impl; [|exact H]. intros c. apply stays_nonzero. Qed.

Lemma tag_loop_run s ipc (run rest : list Z) t st start i :
  Forall (fun c => stays st c = true) run ->
  tag_loop s ipc (run ++ rest) t st start i = tag_loop s ipc rest t st start (i + length run).
Proof.
  intros Hrun. revert i. induction Hrun as [|c run Hc Hrun IH]; intros i.
  { simpl. by rewrite Nat.add_0_r. }
  cbn [app tag_loop length]. replace (i + S (length run))%nat with (i + 1 + length run)%nat by lia.
  rewrite <- IH. unfold stays in Hc. apply orb_true_iff in Hc as [Hc|Hc].
  - pose proof (valid_tag_char_cases c Hc). rewrite !(proj2 (Z.eqb_neq c _)) by lia. by rewrite Hc.
  - destruct st; [done| |].
    + apply Z.eqb_eq in Hc. subst c. done.
    + apply Z.eqb_eq in Hc. subst c. simpl. done.
Qed.

Lemma count_qualifiers_ge input b p :
  (b <= (count_qualifiers input b p).1)%nat /\ (p <= (count_qualifiers input b p).2)%nat.
Proof.
  revert b p. induction input as [|c input IH]; intros b p; cbn [count_qualifiers]; [done|].
  destruct (c =? 32); [done|]. destruct (c =? 43); [|destruct (c =? 45); [|apply IH]].
  - destruct (IH (S b) p). split; lia.
  - destruct (IH b (S p)). split; lia.
Qed.

(** The scanner's result on [-pre], [+build] and [-pre+build]. *)
Definition tag_text (ps bs : list Z) : list Z :=
  (if bool_decide (ps = []) then [] else ch "-" :: ps) ++
  (if bool_decide (bs = []) then [] else ch "+" :: bs).

Lemma tag_loop_minus s ipc rest t start i :
  tag_loop s ipc (ch "-" :: rest) t SNone start i = tag_loop s ipc rest t SPre (i + 1) (i + 1).
Proof. reflexivity. Qed.

Lemma tag_loop_plus s rest t start i :
  tag_loop s 0 (ch "+" :: rest) t SNone start i = tag_loop s 0 rest t SBuild (i + 1) (i + 1).
Proof. reflexivity. Qed.

Lemma tag_loop_pre_plus s ipc rest t start i :
  (start <= i <= length (data (sl_slice s)))%nat ->
  tag_loop s ipc (ch "+" :: rest) t SPre start i =
    tag_loop s ipc rest (mkTag (external_of s start i) (build t)) SBuild (i + 1) (i + 1).
Proof. intros H. cbn [tag_loop]. simpl (43 =? 43). cbn iota. by rewrite sub_external_returns. Qed.

Lemma tag_finish_pre s ipc t start i :
  (start <= i <= length (data (sl_slice s)))%nat ->
  tag_finish s ipc (t, SPre, start, i) = Ok (mkTagResult (mkTag (external_of s start i) (build t)) i).
Proof. intros H. unfold tag_finish. simpl. by rewrite sub_external_returns. Qed.

Lemma tag_finish_build s ipc t start i :
  (start <= i <= length (data (sl_slice s)))%nat ->
  tag_finish s ipc (t, SBuild, start, i) = Ok (mkTagResult (mkTag (pre t) (external_of s start i)) i).
Proof. intros H. unfold tag_finish. simpl. by rewrite sub_external_returns. Qed.

(** The handles of a text cut into [a ++ l ++ tl]. *)
Lemma external_of_piece s (a l tl : list Z) :
  sliced_ok s -> data (sl_slice s) = a ++ l ++ tl -> no_nul l ->
  External_slice (external_of s (length a) (length a + length l)) (data (sl_buf s)) = l /\
  External_is_empty (external_of s (length a) (length a + length l)) = bool_decide (l = []).
Proof.
  intros Hok E Hnz.
  assert (Et : take (length a + length l - length a) (drop (length a) (data (sl_slice s))) = l).
  { rewrite E, drop_app_length. replace (length a + length l - length a)%nat with (length l) by lia.
    apply take_app_length. }
  destruct (external_of_slice s (length a) (length a + length l) Hok) as (-> & -> & _).
  - rewrite E, !length_app. lia.
  - by rewrite Et.
  - rewrite Et. split; [done|]. apply bool_decide_ext. rewrite <- length_zero_iff_nil. lia.
Qed.

(** A tag text is never taken for "no qualifier". *)
Lemma count_qualifiers_tag ps bs :
  tag_text ps bs <> [] ->
  ((count_qualifiers (tag_text ps bs) 0 0).1 =? 0)%nat && ((count_qualifiers (tag_text ps bs) 0 0).2 =? 0)%nat = false.
Proof.
  intros Hne. apply not_true_iff_false. rewrite andb_true_iff, !Nat.eqb_eq. intros [H1 H2]. revert H1 H2.
  unfold tag_text in *. case_bool_decide; case_bool_decide; cbn [app] in *; [done|..].
  - destruct (count_qualifiers_ge bs 1 0). simpl. lia.
  - destruct (count_qualifiers_ge (ps ++ []) 0 1). simpl. lia.
  - destruct (count_qualifiers_ge (ps ++ 43 :: bs) 0 1). simpl. lia.
Qed.

(** The tag's handles, read in [buf], are the prerelease [ps] and the build metadata [bs]. *)
Definition tag_is (t : Tag) (buf ps bs : list Z) : Prop :=
  External_slice (pre t) buf = ps /\ External_is_empty (pre t) = bool_decide (ps = []) /\
  External_slice (build t) buf = bs /\ External_is_empty (build t) = bool_decide (bs = []).

Lemma external_default_ok : external_ok External_default.
Proof. split; [done|]. by repeat constructor. Qed.

Lemma Tag_default_is buf : tag_is Tag_default buf [] [].
Proof.
  assert (External_slice External_default buf = []) as E
    by (apply String_empty_slice; [apply external_default_ok|reflexivity]).
  split_and!; by try apply E.
Qed.

Lemma Tag_parse_text s (ps bs : list Z) :
  data (sl_slice s) = tag_text ps bs -> tag_text ps bs <> [] -> sliced_ok s ->
  Forall (fun c => stays SPre c = true) ps -> Forall (fun c => stays SBuild c = true) bs ->
  returns_with (Tag_parse s) (fun tr =>
    tr_len tr = length (tag_text ps bs) /\ tag_is (tr_tag tr) (data (sl_buf s)) ps bs).
Proof.
  intros Hd Hne Hok Hps Hbs. unfold Tag_parse, parse_with_pre_count. rewrite Hd.
  pose proof (count_qualifiers_tag ps bs Hne) as Hcq.
  destruct (count_qualifiers (tag_text ps bs) 0 0) as [bc pc]. cbn [fst snd] in Hcq. rewrite Hcq. clear Hcq.
  pose proof (stays_no_nul _ _ Hps) as Zps. pose proof (stays_no_nul _ _ Hbs) as Zbs.
  assert (Hlen : length (data (sl_slice s)) = length (tag_text ps bs)) by by rewrite Hd.
  unfold tag_text, tag_is in *.
  case_bool_decide as Hp; case_bool_decide as Hb; cbn [app length] in *; [done|..].
  - rewrite tag_loop_plus. rewrite <- (app_nil_r bs) at 1. rewrite tag_loop_run by done.
    cbn [tag_loop mbind outcome_bind]. rewrite tag_finish_build by lia. apply returns_with_Ok.
    destruct (external_of_piece s [43] bs [] Hok) as [H1 H2]; [by rewrite Hd, app_nil_r|done|].
    cbn in H1, H2. cbn [tr_len tr_tag pre build Tag_default Nat.add]. rewrite H1, H2.
    split_and!; [done|by subst|done|done|]. by apply bool_decide_eq_false.
  - rewrite app_nil_r in *. rewrite tag_loop_minus. rewrite <- (app_nil_r ps) at 1. rewrite tag_loop_run by done.
    cbn [tag_loop mbind outcome_bind]. rewrite tag_finish_pre by lia. apply returns_with_Ok.
    destruct (external_of_piece s [45] ps [] Hok) as [H1 H2]; [by rewrite Hd, app_nil_r|done|].
    cbn in H1, H2. cbn [tr_len tr_tag pre build Tag_default Nat.add]. rewrite H1, H2.
    split_and!; [done|done| |by subst|done]. by apply bool_decide_eq_false.
  - rewrite length_app in Hlen. cbn [length] in Hlen.
    rewrite tag_loop_minus, tag_loop_run, tag_loop_pre_plus by (done || lia).
    rewrite <- (app_nil_r bs) at 1. rewrite tag_loop_run by done.
    cbn [tag_loop mbind outcome_bind]. rewrite tag_finish_build by lia. apply returns_with_Ok.
    destruct (external_of_piece s [45] ps (43 :: bs) Hok Hd Zps) as [H1 H2].
    destruct (external_of_piece s (45 :: ps ++ [43]) bs [] Hok) as [H3 H4]; [|done|].
    { rewrite Hd, app_nil_r. cbn. by rewrite <- app_assoc. }
    replace (length (45 :: ps ++ [43])) with (0 + 1 + length ps + 1)%nat in H3, H4
      by (cbn; rewrite length_app; cbn; lia).
    cbn [length] in H1, H2. cbn [tr_len tr_tag pre build]. change (0 + 1)%nat with 1%nat in *. rewrite H1, H2, H3, H4.
    split_and!; [rewrite length_app; cbn; lia|done| |done|]; by apply bool_decide_eq_false.
Qed.

(** A core number of the text. *)
Definition core_number (T : VersionInt) (n : Z) : Prop := 0 <= n <= vi_MAX T /\ n < 10 ^ 20.

Lemma digit_plain c : is_ascii_digit c = true ->
  (c =? 32) = false /\ is_stop_char c = false /\ is_x_char c = false /\ (c =? 46) = false /\
  is_version_space c = false.
Proof. rewrite is_ascii_digit_spec. intros H. unfold is_stop_char, is_x_char, is_version_space, memb. simpl.
  rewrite !(proj2 (Z.eqb_neq c _)) by lia. done. Qed.

Lemma collect_digits_all (l acc : list Z) :
  all_digits l -> (length acc + length l <= 20)%nat -> collect_digits l acc = Some (acc ++ l).
Proof.
  intros Hl. revert acc. induction Hl as [|c l Hc Hl IH]; intros acc Hn; cbn [collect_digits]; [by rewrite app_nil_r|].
  destruct (digit_plain c Hc) as (_ & _ & Hx & _). unfold is_x_char, memb in Hx. simpl in Hx.
  apply orb_false_iff in Hx as [H1 Hx]. apply orb_false_iff in Hx as [H2 Hx]. rewrite orb_false_r in Hx.
  rewrite H1, H2, Hx, Hc. simpl in *. rewrite (proj2 (Nat.ltb_ge _ _)) by lia.
  rewrite IH by (rewrite length_app; simpl; lia). by rewrite <- app_assoc.
Qed.

Lemma parse_version_number_fmt T n :
  0 <= vi_MAX T <= U128_MAX -> core_number T n -> parse_version_number T (fmt_uint n) = Some n.
Proof.
  intros HT [Hn Hn']. destruct (fmt_uint_spec n ltac:(lia)) as (Hne & Hd & Hv).
  unfold parse_version_number.
  rewrite collect_digits_all; [|done|apply (fmt_uint_length n 20); lia]. cbn [app].
  destruct (Nat.eqb_spec (length (fmt_uint n)) 0) as [E|E]; [by apply length_zero_iff_nil in E|].
  unfold parse_ascii. rewrite parse_unsigned_digits by done. rewrite Hv.
  by rewrite (proj2 (Z.leb_le _ _)) by lia.
Qed.

(** [p] fails at the head of [l]. *)
Definition stops (p : Z -> bool) (l : list Z) : Prop :=
  match l with [] => True | c :: _ => p c = false end.

Lemma run_length_app p (l k : list Z) :
  Forall (fun c => p c = true) l -> stops p k -> run_length p (l ++ k) = length l.
Proof.
  intros Hl Hk. induction Hl as [|c l Hc Hl IH]; simpl; [|by rewrite Hc, IH].
  destruct k as [|c k]; simpl in *; [done|by rewrite Hk].
Qed.

Definition starts_with_dot (l : list Z) : bool :=
  match l with d :: _ => d =? ch "." | [] => false end.

(** One step over a core number. *)
Lemma parse_step_number T s r part_i (a num rest : list Z) :
  data (sl_slice s) = a ++ num ++ rest -> num <> [] -> all_digits num -> stops is_ascii_digit rest ->
  parse_step T s (mkPState r part_i (length a)) =
    Ok (inl (mkPState (set_part T r part_i num).1 (set_part T r part_i num).2
      (length a + length num +
       if starts_with_dot rest && negb ((set_part T r part_i num).2 =? 3)%nat then 1 else 0)%nat)).
Proof.
  intros E Hne Hnum Hstop. destruct num as [|c num]; [done|].
  assert (Hc : is_ascii_digit c = true) by by inversion Hnum.
  destruct (digit_plain c Hc) as (H1 & H2 & _ & _).
  unfold parse_step. rewrite E. rewrite (index_at_ok _ _ c) by (by apply list_lookup_middle).
  cbn [mbind outcome_bind]. rewrite H1, H2, Hc.
  assert (Hd : drop (length a + 1) (a ++ (c :: num) ++ rest) = num ++ rest).
  { rewrite skipn_app, drop_ge, Nat.add_sub_swap, Nat.sub_diag by lia. done. }
  rewrite Hd, run_length_app by (done || by inversion Hnum).
  rewrite slice_range_ok by (rewrite !length_app; simpl; lia).
  assert (Hs : take (length a + 1 + length num - length a) (drop (length a) (a ++ (c :: num) ++ rest)) = c :: num).
  { rewrite drop_app_length. replace (length a + 1 + length num - length a)%nat with (length (c :: num)) by (simpl; lia).
    apply take_app_length. }
  rewrite Hs. cbn [mbind outcome_bind].
  assert (Hl : (a ++ (c :: num) ++ rest) !! (length a + 1 + length num)%nat = head rest).
  { rewrite app_assoc, lookup_app_r by (rewrite length_app; simpl; lia).
    replace (_ - _)%nat with 0%nat by (rewrite length_app; simpl; lia). by destruct rest. }
  rewrite Hl. destruct (set_part T r part_i (c :: num)) as [r' p']. cbn [fst snd].
  do 3 f_equal. destruct rest as [|d rest]; cbn [head starts_with_dot andb length]; [lia|].
  destruct ((d =? 46) && negb (p' =? 3)%nat); lia.
Qed.

Lemma parse_loop_step fuel T s st st' :
  (ps_i st < length (data (sl_slice s)))%nat -> parse_step T s st = Ok (inl st') ->
  parse_loop (S fuel) T s st = parse_loop fuel T s st'.
Proof. intros Hi E. cbn [parse_loop]. rewrite (proj2 (Nat.ltb_lt _ _)) by done. by rewrite E. Qed.

Lemma parse_loop_break fuel T s st st' :
  (ps_i st < length (data (sl_slice s)))%nat -> parse_step T s st = Ok (inr st') ->
  parse_loop (S fuel) T s st = Ok st'.
Proof. intros Hi E. cbn [parse_loop]. rewrite (proj2 (Nat.ltb_lt _ _)) by done. by rewrite E. Qed.

Lemma parse_loop_end fuel T s st :
  (length (data (sl_slice s)) <= ps_i st)%nat -> parse_loop fuel T s st = Ok st.
Proof. intros Hi. destruct fuel; cbn [parse_loop]; by rewrite (proj2 (Nat.ltb_ge _ _)). Qed.

(** [M.m.p] in decimal. *)
Definition core_text (n1 n2 n3 : Z) : list Z :=
  fmt_uint n1 ++ [ch "."] ++ fmt_uint n2 ++ [ch "."] ++ fmt_uint n3.

Definition core_result (n1 n2 n3 : Z) : ParseResult :=
  mkParseResult WNone true (mkPartial (Some n1) (Some n2) (Some n3) Tag_default) 0.

Lemma core_text_head n1 n2 n3 : 0 <= n1 <= U128_MAX ->
  exists d l, core_text n1 n2 n3 = d :: l /\ is_ascii_digit d = true.
Proof.
  intros H. destruct (fmt_uint_spec n1 H) as (Hne & Hd & _). unfold core_text.
  destruct (fmt_uint n1) as [|d l]; [done|]. inversion Hd; subst. by exists d, (l ++ [46] ++ fmt_uint n2 ++ [46] ++ fmt_uint n3).
Qed.

(** The main loop over a full core leaves the three numbers and the index after them. *)
Lemma parse_loop_core fuel T s n1 n2 n3 rest :
  0 <= vi_MAX T <= U128_MAX -> core_number T n1 -> core_number T n2 -> core_number T n3 ->
  data (sl_slice s) = core_text n1 n2 n3 ++ rest -> stops is_ascii_digit rest ->
  parse_loop (3 + fuel) T s (mkPState ParseResult_default 0 0) =
    parse_loop fuel T s (mkPState (core_result n1 n2 n3) 3 (length (core_text n1 n2 n3))).
Proof.
  intros HT H1 H2 H3 E Hstop.
  pose proof (parse_version_number_fmt T n1 HT H1) as P1.
  pose proof (parse_version_number_fmt T n2 HT H2) as P2.
  pose proof (parse_version_number_fmt T n3 HT H3) as P3.
  destruct H1 as [H1 _], H2 as [H2 _], H3 as [H3 _].
  destruct (fmt_uint_spec n1 ltac:(lia)) as (Ne1 & D1 & _).
  destruct (fmt_uint_spec n2 ltac:(lia)) as (Ne2 & D2 & _).
  destruct (fmt_uint_spec n3 ltac:(lia)) as (Ne3 & D3 & _).
  assert (L : forall l : list Z, l <> [] -> (0 < length l)%nat) by (intros [|]; simpl; [done|lia]).
  pose proof (L _ Ne1). pose proof (L _ Ne2). pose proof (L _ Ne3). clear L.
  assert (Hlen : length (data (sl_slice s)) = (length (fmt_uint n1) + 1 + length (fmt_uint n2) + 1 + length (fmt_uint n3) + length rest)%nat)
    by (rewrite E; unfold core_text; rewrite !length_app; simpl; lia).
  unfold core_text in *. rewrite <- !app_assoc in E. cbn [Nat.add].
  erewrite parse_loop_step; [|cbn [ps_i]; lia|apply (parse_step_number T s _ _ [] (fmt_uint n1)); [exact E|done..]].
  cbn [set_part fst snd starts_with_dot app]. rewrite P1. cbn [Nat.add length].
  erewrite parse_loop_step; [|cbn [ps_i]; simpl; lia|].
  2: { cbn [Nat.eqb negb andb Z.eqb Pos.eqb].
       replace (length (fmt_uint n1) + 1)%nat with (length (fmt_uint n1 ++ [46])) by (rewrite length_app; done).
       apply (parse_step_number T s _ _ (fmt_uint n1 ++ [46]) (fmt_uint n2));
         [rewrite E, <- app_assoc; reflexivity|done..]. }
  cbn [set_part fst snd starts_with_dot app]. rewrite P2.
  erewrite parse_loop_step; [|cbn [ps_i]; rewrite length_app; simpl; lia|].
  2: { cbn [Nat.eqb negb andb Z.eqb Pos.eqb].
       replace (length (fmt_uint n1 ++ [46%Z]) + length (fmt_uint n2) + 1)%nat
         with (length (fmt_uint n1 ++ [46] ++ fmt_uint n2 ++ [46])) by (rewrite !length_app; simpl; lia).
       apply (parse_step_number T s _ _ (fmt_uint n1 ++ [46] ++ fmt_uint n2 ++ [46]) (fmt_uint n3));
         [rewrite E, <- !app_assoc; reflexivity|done..]. }
  cbn [set_part fst snd]. rewrite P3, andb_false_r. f_equal. f_equal.
  rewrite !length_app. simpl. rewrite length_app. simpl. lia.
Qed.

(** The whole parse of a full core followed by [rest], given what the loop does there. *)
Lemma parse_core_rest T s n1 n2 n3 rest st :
  0 <= vi_MAX T <= U128_MAX -> core_number T n1 -> core_number T n2 -> core_number T n3 ->
  data (sl_slice s) = core_text n1 n2 n3 ++ rest -> stops is_ascii_digit rest ->
  Z.of_nat (length (data (sl_slice s))) < 2 ^ 32 -> (ps_i st <= length (data (sl_slice s)))%nat ->
  (forall fuel, (length rest <= fuel)%nat ->
    parse_loop fuel T s (mkPState (core_result n1 n2 n3) 3 (length (core_text n1 n2 n3))) = Ok st) ->
  parse T s = Ok (set_len (if bool_decide (pr_wildcard (ps_result st) = WNone)
                           then set_wildcard (ps_result st) (part_wildcard (ps_part_i st))
                           else ps_result st) (ps_i st)).
Proof.
  intros HT H1 H2 H3 E Hstop Hlen Hi Hloop. unfold parse.
  destruct (core_text_head n1 n2 n3) as (d & l & Ed & Hd); [destruct H1; lia|].
  destruct (digit_plain d Hd) as (_ & _ & _ & _ & Hsp).
  assert (Hl : length (core_text n1 n2 n3) = S (length l)) by by rewrite Ed.
  assert (Hf : first_version_char (data (sl_slice s)) 0 = 0%nat).
  { rewrite E, Ed. cbn [app first_version_char]. by rewrite Hsp. }
  rewrite Hf.
  assert (Hn : length (data (sl_slice s)) = (length (core_text n1 n2 n3) + length rest)%nat) by by rewrite E, length_app.
  destruct (Nat.eqb_spec (length (data (sl_slice s))) 0); [lia|].
  destruct (Nat.eqb_spec 0 (length (data (sl_slice s)))); [lia|].
  assert (H5 : (5 <= length (core_text n1 n2 n3))%nat).
  { destruct H1 as [H1 _], H2 as [H2 _], H3 as [H3 _].
    destruct (fmt_uint_spec n1 ltac:(lia)) as (Ne1 & _).
    destruct (fmt_uint_spec n2 ltac:(lia)) as (Ne2 & _).
    destruct (fmt_uint_spec n3 ltac:(lia)) as (Ne3 & _).
    unfold core_text. rewrite !length_app.
    destruct (fmt_uint n1), (fmt_uint n2), (fmt_uint n3); try done. simpl. lia. }
  replace (length (data (sl_slice s))) with (3 + (length (data (sl_slice s)) - 3))%nat at 1 by lia.
  rewrite (parse_loop_core _ T s n1 n2 n3 rest) by done.
  rewrite Hloop by lia. cbn [mbind outcome_bind]. destruct st as [r part_i i]. cbn [ps_result ps_part_i ps_i] in *.
  by rewrite (proj2 (Z.leb_le _ _)) by (unfold U32_MAX; lia).
Qed.

(** The version a parsed core and tag denote. *)
Definition parsed_version (n1 n2 n3 : Z) (t : Tag) : Partial := mkPartial (Some n1) (Some n2) (Some n3) t.

(** A full core at the end of the input, before a space or before an operator. *)
Lemma parse_core_only T s n1 n2 n3 rest :
  0 <= vi_MAX T <= U128_MAX -> core_number T n1 -> core_number T n2 -> core_number T n3 ->
  data (sl_slice s) = core_text n1 n2 n3 ++ rest ->
  rest = [] \/ (exists rest', rest = ch " " :: rest') ->
  Z.of_nat (length (data (sl_slice s))) < 2 ^ 32 ->
  parse T s = Ok (mkParseResult WNone true (parsed_version n1 n2 n3 Tag_default) (length (core_text n1 n2 n3))).
Proof.
  intros HT H1 H2 H3 E Hrest Hlen.
  set (st := mkPState (core_result n1 n2 n3) 3 (length (core_text n1 n2 n3))).
  rewrite (parse_core_rest T s n1 n2 n3 rest st); [done|try done..].
  - by destruct Hrest as [->|(? & ->)].
  - unfold st. cbn [ps_i]. rewrite E, length_app. lia.
  - intros fuel Hf. fold st. destruct Hrest as [->|(rest' & ->)].
    + apply parse_loop_end. unfold st. cbn [ps_i]. rewrite E, app_nil_r. lia.
    + destruct fuel as [|fuel]; [simpl in Hf; lia|].
      apply parse_loop_break; unfold st; cbn [ps_i]; [rewrite E, length_app; simpl; lia|].
      unfold parse_step. rewrite E. rewrite (index_at_ok _ _ (ch " ")) by (by apply list_lookup_middle). done.
Qed.

Lemma stays_byte_ok st (l : list Z) : Forall (fun c => stays st c = true) l -> bytes_ok l.
Proof.
  intros H. eapply Forall_impl; [|exact H]. intros c Hc. unfold stays in Hc. apply orb_true_iff in Hc as [Hc|Hc].
  - unfold valid_tag_char, is_ascii_alphanumeric, is_ascii_alphabetic, is_ascii_lower, is_ascii_upper, is_ascii_digit in Hc.
    rewrite !orb_true_iff, !andb_true_iff, !Z.leb_le, Z.eqb_eq in Hc. unfold byte_ok. lia.
  - destruct st; [done|..]; apply Z.eqb_eq in Hc; subst c; done.
Qed.

Lemma all_digits_byte_ok (l : list Z) : all_digits l -> bytes_ok l.
Proof. intros H. eapply Forall_impl; [|exact H]. intros c Hc. apply is_ascii_digit_spec in Hc. unfold byte_ok. lia. Qed.

Lemma core_tag_bytes_ok n1 n2 n3 ps bs :
  0 <= n1 <= U128_MAX -> 0 <= n2 <= U128_MAX -> 0 <= n3 <= U128_MAX ->
  Forall (fun c => stays SPre c = true) ps -> Forall (fun c => stays SBuild c = true) bs ->
  bytes_ok (core_text n1 n2 n3 ++ tag_text ps bs).
Proof.
  intros H1 H2 H3 Hps Hbs.
  destruct (fmt_uint_spec n1 H1) as (_ & D1 & _).
  destruct (fmt_uint_spec n2 H2) as (_ & D2 & _).
  destruct (fmt_uint_spec n3 H3) as (_ & D3 & _).
  apply all_digits_byte_ok in D1, D2, D3. apply stays_byte_ok in Hps, Hbs.
  unfold core_text, tag_text, bytes_ok in *. rewrite !Forall_app. split_and!; try done.
  - by repeat constructor.
  - by repeat constructor.
  - case_bool_decide; [done|]. by constructor.
  - case_bool_decide; [done|]. by constructor.
Qed.

(** The sliced string of the input from index [i]. *)
Definition sub_from (s : SlicedString) (i : nat) : SlicedString :=
  Sliced_sub s (mkSlice (addr (sl_slice s) + Z.of_nat i) (drop i (data (sl_slice s)))).

(** A full core followed by a qualifier is the core with what [Tag_parse] makes of the rest. *)
Lemma parse_core_qualified T s n1 n2 n3 c rest tr :
  0 <= vi_MAX T <= U128_MAX -> core_number T n1 -> core_number T n2 -> core_number T n3 ->
  data (sl_slice s) = core_text n1 n2 n3 ++ c :: rest -> c = ch "-" \/ c = ch "+" ->
  Tag_parse (sub_from s (length (core_text n1 n2 n3))) = Ok tr -> (tr_len tr <= S (length rest))%nat ->
  Z.of_nat (length (data (sl_slice s))) < 2 ^ 32 ->
  parse T s = Ok (mkParseResult WNone true (parsed_version n1 n2 n3 (tr_tag tr))
                                (length (core_text n1 n2 n3) + tr_len tr)).
Proof.
  intros HT H1 H2 H3 E Hc Htr Hl Hlen. set (i := length (core_text n1 n2 n3)) in *.
  assert (Hn : length (data (sl_slice s)) = (i + S (length rest))%nat) by (rewrite E, length_app; done).
  assert (Hd : drop i (data (sl_slice s)) = c :: rest) by (unfold i; by rewrite E, drop_app_length).
  set (st := mkPState (set_tag (core_result n1 n2 n3) (tr_tag tr)) 3 (i + tr_len tr)).
  rewrite (parse_core_rest T s n1 n2 n3 (c :: rest) st); [done|try done..].
  - by destruct Hc as [-> | ->].
  - unfold st. cbn [ps_i]. lia.
  - intros [|fuel] Hf; [simpl in Hf; lia|]. unfold st.
    apply parse_loop_break; cbn [ps_i]; fold i; [lia|].
    unfold parse_step. fold i. rewrite (index_at_ok _ _ c) by (rewrite E; by apply list_lookup_middle).
    cbn [mbind outcome_bind]. rewrite ms_from_returns by lia.
    assert (Hr : run_length (Z.eqb 32) (drop i (data (sl_slice s))) = 0%nat)
      by (rewrite Hd; simpl; by destruct Hc as [-> | ->]).
    rewrite Hr. cbn [mbind outcome_bind]. fold (sub_from s i). rewrite Htr. cbn [mbind outcome_bind].
    rewrite Nat.add_0_r. by destruct Hc as [-> | ->].
Qed.

(** A full core followed by a tag. *)
Lemma parse_core_tag T s n1 n2 n3 ps bs :
  0 <= vi_MAX T <= U128_MAX -> core_number T n1 -> core_number T n2 -> core_number T n3 ->
  data (sl_slice s) = core_text n1 n2 n3 ++ tag_text ps bs -> tag_text ps bs <> [] -> sliced_ok s ->
  Forall (fun c => stays SPre c = true) ps -> Forall (fun c => stays SBuild c = true) bs ->
  Z.of_nat (length (data (sl_slice s))) < 2 ^ 32 ->
  exists t, parse T s = Ok (mkParseResult WNone true (parsed_version n1 n2 n3 t) (length (data (sl_slice s)))) /\
    tag_is t (data (sl_buf s)) ps bs.
Proof.
  intros HT H1 H2 H3 E Hne Hok Hps Hbs Hlen.
  set (i := length (core_text n1 n2 n3)).
  assert (Hi : (i <= length (data (sl_slice s)))%nat) by (rewrite E, length_app; lia).
  assert (Hd : data (sl_slice (sub_from s i)) = tag_text ps bs) by (unfold i; simpl; by rewrite E, drop_app_length).
  destruct (Tag_parse_text _ ps bs Hd Hne (sliced_ok_from s i Hok Hi) Hps Hbs) as (tr & Htr & Hl & Htag).
  exists (tr_tag tr). split; [|exact Htag].
  assert (exists c l, tag_text ps bs = c :: l /\ (c = 45 \/ c = 43)) as (c & l & Ec & Hc).
  { unfold tag_text in *. case_bool_decide; [case_bool_decide|]; [done|eexists _, _; split; [done|by right]|].
    eexists _, _. split; [done|by left]. }
  rewrite Ec in *.
  rewrite (parse_core_qualified T s n1 n2 n3 c l tr); try done; [|rewrite Hl; done].
  by rewrite Hl, E, length_app.
Qed.

(** A [+] state that meets a [-]: the build metadata read so far is dropped. *)
Lemma tag_loop_build_minus s ipc rest t start i :
  tag_loop s ipc (ch "-" :: rest) t SBuild start i = tag_loop s ipc rest t SPre (i + 1) (i + 1).
Proof. reflexivity. Qed.

Lemma Tag_parse_build_minus s (a b : list Z) :
  data (sl_slice s) = ch "+" :: a ++ ch "-" :: b -> sliced_ok s ->
  Forall (fun c => stays SBuild c = true) a -> Forall (fun c => stays SPre c = true) b ->
  returns_with (Tag_parse s) (fun tr =>
    tr_len tr = length (data (sl_slice s)) /\ tag_is (tr_tag tr) (data (sl_buf s)) b []).
Proof.
  intros Hd Hok Ha Hb. unfold Tag_parse, parse_with_pre_count.
  assert (Hcq : (0 < (count_qualifiers (data (sl_slice s)) 0 0).1)%nat).
  { rewrite Hd. destruct (count_qualifiers_ge (a ++ 45 :: b) 1 0). simpl. lia. }
  destruct (count_qualifiers (data (sl_slice s)) 0 0) as [bc pc]. cbn [fst] in Hcq.
  rewrite (proj2 (Nat.eqb_neq bc 0)) by lia. cbn [andb].
  assert (Hlen : length (data (sl_slice s)) = (1 + length a + 1 + length b)%nat)
    by (rewrite Hd; cbn [length]; rewrite length_app; simpl; lia).
  rewrite Hd at 1. rewrite tag_loop_plus, tag_loop_run, tag_loop_build_minus by done.
  rewrite <- (app_nil_r b) at 1. rewrite tag_loop_run by done.
  cbn [tag_loop mbind outcome_bind]. rewrite tag_finish_pre by lia. apply returns_with_Ok.
  destruct (external_of_piece s (43 :: a ++ [45]) b [] Hok) as [H1 H2]; [|by eapply stays_no_nul|].
  { rewrite Hd, app_nil_r. cbn. by rewrite <- app_assoc. }
  replace (length (43 :: a ++ [45])) with (0 + 1 + length a + 1)%nat in H1, H2
    by (cbn; rewrite length_app; cbn; lia).
  cbn [tr_len tr_tag]. split; [lia|]. destruct (Tag_default_is (data (sl_buf s))) as (_ & _ & H3 & H4).
  by split_and!.
Qed.

Lemma sliced_ok_self a (txt : list Z) :
  Z.of_nat (length txt) < 2 ^ 31 -> bytes_ok txt -> sliced_ok (mkSliced (mkSlice a txt) (mkSlice a txt)).
Proof.
  intros Hl Hb. split_and!; [exists 0%nat; cbn; split_and!; [lia|lia|by rewrite take_ge]|exact Hl|done].
Qed.

(** A full core followed by an optional tag. *)
Lemma parse_core_text T s n1 n2 n3 ps bs :
  0 <= vi_MAX T <= U128_MAX -> core_number T n1 -> core_number T n2 -> core_number T n3 ->
  data (sl_slice s) = core_text n1 n2 n3 ++ tag_text ps bs -> sliced_ok s ->
  Forall (fun c => stays SPre c = true) ps -> Forall (fun c => stays SBuild c = true) bs ->
  Z.of_nat (length (data (sl_slice s))) < 2 ^ 32 ->
  exists t, parse T s = Ok (mkParseResult WNone true (parsed_version n1 n2 n3 t) (length (data (sl_slice s)))) /\
    tag_is t (data (sl_buf s)) ps bs.
Proof.
  intros HT H1 H2 H3 E Hok Hps Hbs Hlen.
  destruct (decide (tag_text ps bs = [])) as [Et|Et]; [|by eapply parse_core_tag].
  exists Tag_default. rewrite (parse_core_only T s n1 n2 n3 []); try done; [|by rewrite E, Et|by left].
  rewrite E, Et, app_nil_r. split; [done|]. unfold tag_text in Et.
  do 2 case_bool_decide; try done. subst ps bs. apply Tag_default_is.
Qed.

(** The [Display] text of a version. *)
Lemma Version_fmt_text v buf ps bs :
  tag_is (tag v) buf ps bs -> Version_fmt v buf = core_text (major v) (minor v) (patch v) ++ tag_text ps bs.
Proof.
  intros (Ep & Eep & Eb & Eeb).
  unfold Version_fmt, core_text, tag_text, has_pre, has_build. rewrite Eep, Eeb, Ep, Eb, <- !app_assoc.
  do 5 f_equal. by do 2 case_bool_decide.
Qed.

Lemma core_number_u128 T n : vi_MAX T <= U128_MAX -> core_number T n -> 0 <= n <= U128_MAX.
Proof. unfold core_number. lia. Qed.

(** The characters of a prerelease or of build metadata in the semver specification. *)
Definition semver_char (c : Z) : bool := is_ascii_alphanumeric c || (c =? ch "-") || (c =? ch ".").

Lemma semver_char_pre (l : list Z) : Forall (fun c => semver_char c = true) l -> Forall (fun c => stays SPre c = true) l.
Proof.
  intros H. eapply Forall_impl; [|exact H]. intros c. unfold semver_char, stays, valid_tag_char.
  destruct (is_ascii_alphanumeric c), (c =? ch "-"), (c =? ch "."); done.
Qed.

Lemma semver_char_build (l : list Z) :
  Forall (fun c => semver_char c = true) l -> ch "-" ∉ l -> Forall (fun c => stays SBuild c = true) l.
Proof.
  intros H Hno. apply list.Forall_forall. intros c Hin. rewrite list.Forall_forall in H. specialize (H c Hin).
  unfold semver_char, stays, valid_tag_char in *. destruct (Z.eqb_spec c (ch "-")) as [Hc|Hc]; [by subst c|].
  destruct (is_ascii_alphanumeric c), (c =? ch "."); done.
Qed.

(** (C7) Parsing the [Display] text of a version returns its numbers and tag
    contents, with no wildcard, and consumes the whole text, for tags of the semver specification
    without a hyphen in the build metadata ([parse_build_hyphen] is about those). *)
Theorem parse_fmt (T : VersionInt) (v : Version) (buf : list Z) (a : Z) (ps bs : list Z) :
  0 <= vi_MAX T <= U128_MAX ->
  core_number T (major v) -> core_number T (minor v) -> core_number T (patch v) ->
  tag_is (tag v) buf ps bs ->
  Forall (fun c => semver_char c = true) ps -> Forall (fun c => semver_char c = true) bs -> ch "-" ∉ bs ->
  Z.of_nat (length (Version_fmt v buf)) < 2 ^ 31 ->
  returns_with (parse_utf8 T (mkSlice a (Version_fmt v buf))) (fun r =>
    pr_valid r = true /\ pr_wildcard r = WNone /\ pr_len r = length (Version_fmt v buf) /\
    exists t, pr_version r = parsed_version (major v) (minor v) (patch v) t /\
      tag_is t (Version_fmt v buf) ps bs).
Proof.
  intros HT H1 H2 H3 Htag Hps%semver_char_pre Hbs Hno Hlen. apply semver_char_build in Hbs; [|done]. pose proof (Version_fmt_text v buf ps bs Htag) as Etxt.
  set (txt := Version_fmt v buf) in *.
  destruct (parse_core_text T (mkSliced (mkSlice a txt) (mkSlice a txt)) (major v) (minor v) (patch v) ps bs)
    as (t & Ht & Hr); try done.
  - apply sliced_ok_self; [done|]. rewrite Etxt. destruct HT.
    apply core_tag_bytes_ok; try done; by eapply core_number_u128.
  - cbn [sl_slice data]. lia.
  - unfold parse_utf8. rewrite Ht. apply returns_with_Ok. cbn [pr_valid pr_wildcard pr_len pr_version].
    split_and!; [done..|]. by exists t.
Qed.

Lemma parse_fmt_witness :
  Version_fmt sample_pre [] = str "1.2.3-rc.1" /\
  returns_with (parse_utf8 u32_int (mkSlice 64 (str "1.2.3-rc.1"))) (fun r =>
    pr_valid r = true /\ pr_wildcard r = WNone /\ pr_len r = 10%nat /\
    exists t, pr_version r = parsed_version 1 2 3 t /\ tag_is t (str "1.2.3-rc.1") (str "rc.1") []).
Proof.
  split; [vm_compute; reflexivity|].
  refine (parse_fmt u32_int sample_pre [] 64 (str "rc.1") [] _ _ _ _ _ _ _ _ _);
    try (by repeat constructor); try (by apply not_elem_of_nil); try (unfold core_number; cbn; unfold U32_MAX, U128_MAX; lia).
Defined.

(** Build metadata containing a hyphen ([1.0.0+a-b], valid in semver, where it
    has no prerelease) is parsed as the prerelease [b], and the metadata is lost. *)
Theorem parse_build_hyphen (T : VersionInt) (n1 n2 n3 addr_ : Z) (a b : list Z) :
  0 <= vi_MAX T <= U128_MAX -> core_number T n1 -> core_number T n2 -> core_number T n3 ->
  Forall (fun c => valid_tag_char c = true) a -> Forall (fun c => valid_tag_char c = true) b ->
  let txt := core_text n1 n2 n3 ++ ch "+" :: a ++ ch "-" :: b in
  Z.of_nat (length txt) < 2 ^ 31 ->
  returns_with (parse_utf8 T (mkSlice addr_ txt)) (fun r =>
    pr_valid r = true /\ pr_len r = length txt /\ tag_is (p_tag (pr_version r)) txt b []).
Proof.
  intros HT H1 H2 H3 Ha Hb txt Hlen. unfold parse_utf8. set (s := mkSliced _ _).
  assert (Hst : forall st (l : list Z), Forall (fun c => valid_tag_char c = true) l -> Forall (fun c => stays st c = true) l).
  { intros st l Hl. eapply Forall_impl; [|exact Hl]. intros c Hc. unfold stays. by rewrite Hc. }
  assert (Hok : sliced_ok s).
  { apply sliced_ok_self; [done|]. destruct H1, H2, H3. unfold txt. apply Forall_app. split.
    - pose proof (core_tag_bytes_ok n1 n2 n3 [] [] ltac:(lia) ltac:(lia) ltac:(lia) ltac:(constructor) ltac:(constructor)) as Hcb.
      by apply Forall_app in Hcb as [Hcb _].
    - constructor; [done|]. apply Forall_app. split; [eapply (stays_byte_ok SPre), Hst, Ha|].
      constructor; [done|]. eapply (stays_byte_ok SPre), Hst, Hb. }
  set (i := length (core_text n1 n2 n3)).
  assert (Hi : (i <= length (data (sl_slice s)))%nat) by (cbn [sl_slice data s]; unfold txt; rewrite length_app; lia).
  assert (Hd : data (sl_slice (sub_from s i)) = ch "+" :: a ++ ch "-" :: b)
    by (unfold i; simpl; unfold txt; by rewrite drop_app_length).
  destruct (Tag_parse_build_minus (sub_from s i) a b Hd (sliced_ok_from s i Hok Hi) (Hst _ _ Ha) (Hst _ _ Hb))
    as (tr & Htr & Hl & Htag).
  rewrite Hd in Hl.
  rewrite (parse_core_qualified T s n1 n2 n3 (ch "+") (a ++ ch "-" :: b) tr);
    [|done..|by right|done|by rewrite Hl|cbn [sl_slice data s]; lia].
  apply returns_with_Ok. cbn [pr_valid pr_len pr_version]. split_and!; [done| |exact Htag].
  rewrite Hl. unfold txt. by rewrite length_app.
Qed.

Lemma parse_build_hyphen_witness :
  returns_with (parse_utf8 u64_int (mkSlice 64 (str "1.0.0+a-b"))) (fun r =>
    pr_valid r = true /\ pr_len r = 9%nat /\ tag_is (p_tag (pr_version r)) (str "1.0.0+a-b") (str "b") []).
Proof.
  refine (parse_build_hyphen u64_int 1 0 0 64 (str "a") (str "b") _ _ _ _ _ _ _);
    try (by repeat constructor); try (unfold core_number; cbn; unfold U64_MAX, U128_MAX; lia).
Defined.

(** ** Parsed versions are well formed *)

Definition tag_ok (t : Tag) : Prop := external_ok (pre t) /\ external_ok (build t).

Definition part_ok (T : VersionInt) (n : option Z) : Prop :=
  match n with Some n => 0 <= n <= vi_MAX T | None => True end.

Definition partial_ok (T : VersionInt) (p : Partial) : Prop :=
  part_ok T (p_major p) /\ part_ok T (p_minor p) /\ part_ok T (p_patch p) /\ tag_ok (p_tag p).

Lemma external_of_ok s a b :
  sliced_ok s -> (a <= b <= length (data (sl_slice s)))%nat -> external_ok (external_of s a b).
Proof.
  intros (Hin & Hb & Hok) Hab. pose proof (slice_in_sub _ _ a (b - a) Hin ltac:(lia)) as Hsub.
  apply String_init_ok; [exact Hsub|done|]. apply Forall_take, Forall_drop, Hok.
Qed.

Lemma tag_loop_ok s ipc rest t st start i :
  sliced_ok s -> tag_ok t -> (start <= i)%nat -> (i + length rest = length (data (sl_slice s)))%nat ->
  returns_with (tag_loop s ipc rest t st start i)
    (fun '(t', _, start', i') => tag_ok t' /\ (start' <= i' <= length (data (sl_slice s)))%nat).
Proof.
  intros Hok. revert t st start i. induction rest as [|c rest IH]; intros t st start i Ht Hs Hi; cbn [tag_loop].
  { apply returns_with_Ok. simpl in Hi. split; [done|lia]. }
  simpl in Hi. pose proof (external_of_ok s start i Hok ltac:(lia)) as He. destruct Ht as [Hp Hb].
  destruct (c =? 43).
  { apply (returns_with_bind _ _ tag_ok).
    - destruct (_ || _); [|by apply returns_with_Ok]. rewrite sub_external_returns by lia. by apply returns_with_Ok.
    - intros t' Ht'. case_bool_decide; apply IH; (done || lia). }
  destruct (c =? 45); [case_bool_decide; apply IH; (done || lia)|].
  destruct (valid_tag_char c); [apply IH; (done || lia)|].
  destruct st; rewrite ?sub_external_returns by lia; apply returns_with_Ok; (split; [done|lia]).
Qed.

Lemma tag_default_ok : tag_ok Tag_default.
Proof. split; apply external_default_ok. Qed.

Lemma parse_with_pre_count_ok s ipc :
  sliced_ok s -> returns_with (parse_with_pre_count s ipc) (fun tr => tag_ok (tr_tag tr)).
Proof.
  intros Hok. unfold parse_with_pre_count. destruct (count_qualifiers _ _ _) as [bc pc].
  destruct (_ && _); [apply returns_with_Ok; apply tag_default_ok|].
  eapply returns_with_bind; [apply (tag_loop_ok s); [done|apply tag_default_ok|lia|lia]|].
  intros [[[t st] start] i] [[Hp Hb] Hi]. unfold tag_finish.
  destruct (bool_decide (st = SNone) && _);
    [|destruct st]; rewrite ?sub_external_returns by lia; apply returns_with_Ok; cbn [tr_tag]; try done;
    split; cbn [pre build]; try done; apply external_of_ok; (done || lia).
Qed.

Lemma collect_digits_run (l acc ds : list Z) :
  all_digits acc -> collect_digits l acc = Some ds -> all_digits ds.
Proof.
  revert acc. induction l as [|c l IH]; intros acc Hacc; cbn [collect_digits]; [by intros [= <-]|].
  destruct (_ || _); [done|]. destruct (is_ascii_digit c) eqn:Hc.
  - destruct (_ <? _)%nat; [done|]. apply IH. apply Forall_app. split; [done|]. by repeat constructor.
  - destruct (_ || _); [by intros [= <-]|]. by apply IH.
Qed.

Lemma parse_version_number_ok T l :
  0 <= vi_MAX T <= U128_MAX -> part_ok T (parse_version_number T l).
Proof.
  intros HT. unfold parse_version_number. destruct (collect_digits l []) as [ds|] eqn:E; [|done].
  apply collect_digits_run in E; [|constructor]. destruct (Nat.eqb_spec (length ds) 0) as [|Hne]; [done|].
  cbn [part_ok]. unfold parse_ascii. rewrite parse_unsigned_digits; [|done|by intros ->|done].
  pose proof (dec_value_ge ds 0 ltac:(lia) E). destruct (Z.leb_spec (dec_value 0 ds) (vi_MAX T)); simpl; lia.
Qed.

Lemma set_part_ok T r part_i num :
  0 <= vi_MAX T <= U128_MAX -> partial_ok T (pr_version r) -> partial_ok T (pr_version (set_part T r part_i num).1).
Proof.
  intros HT Hp. pose proof (parse_version_number_ok T num HT). unfold set_part.
  destruct part_i as [|[|[|]]]; [..|done]; destruct Hp as (? & ? & ? & ?); by split_and!.
Qed.

Lemma parse_step_ok T s st :
  0 <= vi_MAX T <= U128_MAX -> sliced_ok s -> (ps_i st < length (data (sl_slice s)))%nat ->
  partial_ok T (pr_version (ps_result st)) ->
  forall r, parse_step T s st = Ok r ->
    partial_ok T (pr_version (ps_result (match r with inl st => st | inr st => st end))).
Proof.
  intros HT Hok Hi Hp. destruct st as [r part_i i]. cbn [ps_i ps_result] in *.
  destruct (parse_with_pre_count_ok (sub_from s i) 0) as (tr & Etr & Htr); [apply sliced_ok_from; [done|lia]|].
  destruct (parse_with_pre_count_ok (sub_from s i) 1) as (tr1 & Etr1 & Htr1); [apply sliced_ok_from; [done|lia]|].
  assert (Hset : forall t, tag_ok t -> partial_ok T (pr_version (set_tag r t))).
  { intros t Ht. destruct Hp as (? & ? & ? & ?). by split_and!. }
  unfold parse_step, Tag_parse. rewrite ms_from_returns by lia. cbn [mbind outcome_bind]. fold (sub_from s i).
  rewrite Etr, Etr1. cbn [mbind outcome_bind].
  destruct (index_at _ _) as [c| |]; cbn [mbind outcome_bind]; [|done..]. intros res.
  destruct (c =? 32); [by intros [= <-]|]. destruct (is_stop_char c); [by intros [= <-]|].
  destruct (is_ascii_digit c).
  { destruct (slice_range _ _ _) as [num| |]; cbn [mbind outcome_bind]; [|done..].
    pose proof (set_part_ok T r part_i num HT Hp) as Hsp. destruct (set_part T r part_i num). by intros [= <-]. }
  destruct (c =? 46); [by intros [= <-]|].
  destruct (_ || _); [destruct (_ && _); intros [= <-]; [done|by apply Hset]|].
  destruct (is_x_char c).
  { destruct (bool_decide (pr_wildcard r = WNone)); [destruct part_i as [|[|[|]]]|]; by intros [= <-]. }
  destruct (_ && _ && _); intros [= <-]; [by apply Hset|done].
Qed.

Lemma parse_loop_ok fuel T s st st' :
  0 <= vi_MAX T <= U128_MAX -> sliced_ok s -> partial_ok T (pr_version (ps_result st)) ->
  parse_loop fuel T s st = Ok st' -> partial_ok T (pr_version (ps_result st')).
Proof.
  intros HT Hok. revert st. induction fuel as [|fuel IH]; intros st Hp; cbn [parse_loop];
    destruct (Nat.ltb_spec (ps_i st) (length (data (sl_slice s)))); try done; try (by intros [= <-]).
  pose proof (parse_step_ok T s st HT Hok ltac:(lia) Hp) as Hstep.
  destruct (parse_step T s st) as [[st1|st1]| |]; cbn [mbind outcome_bind]; try done.
  - apply IH. by apply (Hstep (inl st1)).
  - intros [= <-]. by apply (Hstep (inr st1)).
Qed.

Lemma partial_default_ok T : partial_ok T Partial_default.
Proof. split_and!; [done..|]. apply tag_default_ok. Qed.

Lemma parse_partial_ok T s r :
  0 <= vi_MAX T <= U128_MAX -> sliced_ok s -> parse T s = Ok r -> partial_ok T (pr_version r).
Proof.
  intros HT Hok. unfold parse. pose proof (partial_default_ok T) as Hd.
  destruct (_ =? _)%nat; [by intros [= <-]|]. destruct (_ =? _)%nat; [by intros [= <-]|].
  destruct (parse_loop _ _ _ _) as [st| |] eqn:E; cbn [mbind outcome_bind]; try done.
  apply parse_loop_ok in E; [|done..]. destruct st as [r0 part_i i]. cbn [ps_result] in E.
  destruct (_ <=? _); [|done]. intros [= <-]. by destruct (bool_decide _).
Qed.
