(* ===== verification/SemverRange.v ===== *)
(** * Semver comparators and ranges ([semver/SemverRange.rs])

    A [Range] is one or two comparators, [Comparator] an operator and a version.  The
    theorems say which versions a range contains in terms of the precedence order. *)

From S2P Require Import Prelude Strings Wyhash SemverString SemverVersion.

(** ** Data *)

Variant Op := OpUnset | OpEql | OpLt | OpLte | OpGt | OpGte.

#[export] Instance Op_eq_dec : EqDecision Op.
Proof. solve_decision. Defined.

Record Comparator := mkComparator { op : Op; version : Version }.
Definition Comparator_default : Comparator := mkComparator OpUnset Version_default.

Record Range := mkRange { left : Comparator; right : Comparator }.
Definition Range_default : Range := mkRange Comparator_default Comparator_default.

#[export] Instance Comparator_eq_dec : EqDecision Comparator.
Proof. solve_decision. Defined.
#[export] Instance Range_eq_dec : EqDecision Range.
Proof. solve_decision. Defined.

(** A version with default (empty) tag. *)
Definition core_version (n1 n2 n3 : Z) : Version := mkVersion n1 n2 n3 Tag_default.

(** ** Comparators *)

Definition Comparator_eql (c rhs : Comparator) : bool :=
  bool_decide (op c = op rhs) && Version_eql (version c) (version rhs).

Definition Comparator_satisfies (c : Comparator) (v : Version) (comparator_buf version_buf : list Z) : bool :=
  match order_without_build v (version c) version_buf comparator_buf with
  | Eq => match op c with OpLte | OpGte | OpEql => true | _ => false end
  | Gt => match op c with OpGt | OpGte => true | _ => false end
  | Lt => match op c with OpLt | OpLte => true | _ => false end
  end.

Definition Op_text (o : Op) : list Z :=
  match o with
  | OpUnset => []
  | OpEql => str "=="
  | OpLt => str "<"
  | OpLte => str "<="
  | OpGt => str ">"
  | OpGte => str ">="
  end.

(** [Display] for [ComparatorFormatter] *)
Definition Comparator_fmt (c : Comparator) (buffer : list Z) : list Z :=
  if bool_decide (op c = OpUnset) then [] else Op_text (op c) ++ Version_fmt (version c) buffer.

(** ** Ranges *)

Definition init_wildcard (v : Version) (w : Wildcard) : Range :=
  match w with
  | WNone => mkRange (mkComparator OpEql v) Comparator_default
  | WMajor => mkRange (mkComparator OpGte Version_default) Comparator_default
  | WMinor =>
      mkRange (mkComparator OpLt (core_version (sat_succ64 (major v)) 0 0))
              (mkComparator OpGte (core_version (major v) 0 0))
  | WPatch =>
      mkRange (mkComparator OpLt (core_version (major v) (sat_succ64 (minor v)) 0))
              (mkComparator OpGte (core_version (major v) (minor v) 0))
  end.

Definition has_left (r : Range) : bool := negb (bool_decide (op (left r) = OpUnset)).
Definition has_right (r : Range) : bool := negb (bool_decide (op (right r) = OpUnset)).

Definition Range_eql (r rhs : Range) : bool :=
  Comparator_eql (left r) (left rhs) && Comparator_eql (right r) (right rhs).

Definition Range_satisfies (r : Range) (v : Version) (range_buf version_buf : list Z) : bool :=
  if negb (has_left r) then true
  else if negb (Comparator_satisfies (left r) v range_buf version_buf) then false
  else if has_right r && negb (Comparator_satisfies (right r) v range_buf version_buf) then false
  else true.

(** The core numbers of [v] are those of the comparator, which has a prerelease. *)
Definition same_core_pre (c : Comparator) (v : Version) : bool :=
  has_pre (tag (version c)) && (patch v =? patch (version c)) && (minor v =? minor (version c)) &&
  (major v =? major (version c)).

(** Returns the answer and the final [*pre_matched]. *)
Definition Range_satisfies_pre (r : Range) (v : Version) (range_buf version_buf : list Z) (pre_matched : bool)
    : bool * bool :=
  if negb (has_left r) then (true, pre_matched)
  else
    let pre_matched := pre_matched || same_core_pre (left r) v || (has_right r && same_core_pre (right r) v) in
    if negb (Comparator_satisfies (left r) v range_buf version_buf) then (false, pre_matched)
    else if has_right r && negb (Comparator_satisfies (right r) v range_buf version_buf) then (false, pre_matched)
    else (true, pre_matched).

(** [Display] for [Formatter] *)
Definition Range_fmt (r : Range) (buffer : list Z) : list Z :=
  if bool_decide (op (left r) = OpUnset) && bool_decide (op (right r) = OpUnset) then []
  else if bool_decide (op (right r) = OpUnset) then Comparator_fmt (left r) buffer
  else Comparator_fmt (left r) buffer ++ [ch " "] ++ Comparator_fmt (right r) buffer.

(** ** The specification: a comparator as a set of precedences *)

(** The precedences that the operator admits against [bound]. *)
Definition admits (o : Op) (p bound : precedence) : Prop :=
  match o with
  | OpUnset => False
  | OpEql => precedence_cmp p bound = Eq
  | OpLt => precedence_cmp p bound = Lt
  | OpLte => precedence_cmp p bound <> Gt
  | OpGt => precedence_cmp p bound = Gt
  | OpGte => precedence_cmp p bound <> Lt
  end.

Lemma Comparator_satisfies_admits c v cb vb :
  version_ok (version c) -> version_ok v ->
  Comparator_satisfies c v cb vb = true <-> admits (op c) (precedence_of v vb) (precedence_of (version c) cb).
Proof.
  intros Hc Hv. unfold Comparator_satisfies, admits. rewrite order_without_build_spec by done.
  destruct (op c), (precedence_cmp _ _); naive_solver.
Qed.

(** A release (no prerelease) of the same numbers: its precedence does not depend on a buffer. *)
Definition release (n1 n2 n3 : Z) : precedence := (n1, (n2, (n3, inr tt))).

Lemma precedence_of_core n1 n2 n3 buf : precedence_of (core_version n1 n2 n3) buf = release n1 n2 n3.
Proof. reflexivity. Qed.

Lemma core_version_ok n1 n2 n3 : version_ok (core_version n1 n2 n3).
Proof. split; apply external_default_ok. Qed.

(** The order of releases is the lexicographic order of their numbers. *)
Lemma release_cmp a1 a2 a3 b1 b2 b3 :
  precedence_cmp (release a1 a2 a3) (release b1 b2 b3) =
    cmp_then (a1 ?= b1) (cmp_then (a2 ?= b2) (cmp_then (a3 ?= b3) Eq)).
Proof. reflexivity. Qed.

(** What a range admits. *)
Definition comparator_admits (c : Comparator) (buf : list Z) (p : precedence) : Prop :=
  admits (op c) p (precedence_of (version c) buf).

Definition range_admits (r : Range) (buf : list Z) (p : precedence) : Prop :=
  has_left r = true ->
  comparator_admits (left r) buf p /\ (has_right r = true -> comparator_admits (right r) buf p).

Definition range_ok (r : Range) : Prop := version_ok (version (left r)) /\ version_ok (version (right r)).

Lemma Range_satisfies_admits r v rb vb :
  range_ok r -> version_ok v ->
  Range_satisfies r v rb vb = true <-> range_admits r rb (precedence_of v vb).
Proof.
  intros [Hl Hr] Hv. unfold Range_satisfies, range_admits, comparator_admits.
  rewrite <- !Comparator_satisfies_admits by done.
  destruct (has_left r); simpl; [|naive_solver].
  destruct (Comparator_satisfies (left r) v rb vb); simpl; [|naive_solver].
  destruct (has_right r); simpl; [|naive_solver].
  destruct (Comparator_satisfies (right r) v rb vb); naive_solver.
Qed.

(** Some comparator of the range is a prerelease of the version's own core numbers. *)
Definition range_pre_match (r : Range) (v : Version) : bool :=
  has_left r && (same_core_pre (left r) v || (has_right r && same_core_pre (right r) v)).

Lemma Range_satisfies_pre_spec r v rb vb m :
  Range_satisfies_pre r v rb vb m = (Range_satisfies r v rb vb, m || range_pre_match r v).
Proof.
  unfold Range_satisfies_pre, Range_satisfies, range_pre_match.
  destruct (has_left r); simpl; [|by rewrite orb_false_r].
  rewrite orb_assoc. destruct (Comparator_satisfies (left r) v rb vb); simpl; [|done].
  by destruct (has_right r && negb (Comparator_satisfies (right r) v rb vb)).
Qed.

Lemma Comparator_default_ok : version_ok (version Comparator_default).
Proof. split; apply external_default_ok. Qed.

Lemma init_wildcard_ok v w : version_ok v -> range_ok (init_wildcard v w).
Proof. intros Hv. destruct w; split; (done || apply core_version_ok || apply Comparator_default_ok). Qed.

(** The release of a version without prerelease. *)
Lemma precedence_of_release v buf :
  has_pre (tag v) = false -> precedence_of v buf = release (major v) (minor v) (patch v).
Proof. intros H. unfold precedence_of. by rewrite H. Qed.

Lemma sat_succ64_small x : x < U64_MAX -> sat_succ64 x = x + 1.
Proof. unfold sat_succ64. lia. Qed.

(** Comparisons of releases as arithmetic. *)
Lemma release_Lt a1 a2 a3 b1 b2 b3 :
  precedence_cmp (release a1 a2 a3) (release b1 b2 b3) = Lt <->
  a1 < b1 \/ (a1 = b1 /\ (a2 < b2 \/ (a2 = b2 /\ a3 < b3))).
Proof.
  rewrite release_cmp. unfold cmp_then.
  destruct (Z.compare_spec a1 b1), (Z.compare_spec a2 b2), (Z.compare_spec a3 b3); split; try done; lia.
Qed.

Lemma release_Gt a1 a2 a3 b1 b2 b3 :
  precedence_cmp (release a1 a2 a3) (release b1 b2 b3) = Gt <->
  b1 < a1 \/ (a1 = b1 /\ (b2 < a2 \/ (a2 = b2 /\ b3 < a3))).
Proof.
  rewrite release_cmp. unfold cmp_then.
  destruct (Z.compare_spec a1 b1), (Z.compare_spec a2 b2), (Z.compare_spec a3 b3); split; try done; lia.
Qed.

Lemma release_Eq a1 a2 a3 b1 b2 b3 :
  precedence_cmp (release a1 a2 a3) (release b1 b2 b3) = Eq <-> a1 = b1 /\ a2 = b2 /\ a3 = b3.
Proof.
  rewrite release_cmp. unfold cmp_then.
  destruct (Z.compare_spec a1 b1), (Z.compare_spec a2 b2), (Z.compare_spec a3 b3); split; try done; lia.
Qed.

(** A wildcard range contains exactly the releases that agree with the version on
    the parts before the wildcard (the last number's increment must not saturate). *)
Theorem init_wildcard_satisfies (v w : Version) (k : Wildcard) (rb vb : list Z) :
  version_ok v -> version_ok w -> has_pre (tag v) = false -> has_pre (tag w) = false ->
  0 <= major w -> 0 <= minor w -> 0 <= patch w -> major v < U64_MAX -> minor v < U64_MAX ->
  Range_satisfies (init_wildcard v k) w rb vb = true <->
  match k with
  | WMajor => True
  | WMinor => major w = major v
  | WPatch => major w = major v /\ minor w = minor v
  | WNone => major w = major v /\ minor w = minor v /\ patch w = patch v
  end.
Proof.
  intros Hv Hw Pv Pw H1 H2 H3 H4 H5.
  rewrite Range_satisfies_admits by (done || by apply init_wildcard_ok).
  rewrite (precedence_of_release w) by done. unfold range_admits, comparator_admits.
  destruct k; simpl left; simpl right; cbn [op version admits]; rewrite ?precedence_of_core, ?sat_succ64_small by done.
  - rewrite (precedence_of_release v), release_Eq by done. naive_solver.
  - change (precedence_of Version_default rb) with (release 0 0 0). rewrite release_Lt. naive_solver lia.
  - rewrite !release_Lt. unfold has_left, has_right. simpl. naive_solver lia.
  - rewrite !release_Lt. unfold has_left, has_right. simpl. naive_solver lia.
Qed.

Lemma init_wildcard_satisfies_witness :
  Range_satisfies (init_wildcard (core_version 1 2 3) WPatch) (core_version 1 2 9) [] [] = true.
Proof.
  apply (init_wildcard_satisfies (core_version 1 2 3) (core_version 1 2 9) WPatch [] []);
    try reflexivity; try (cbn; unfold U64_MAX; lia); try (split; exact external_default_ok); done.
Defined.
