(* ===== verification/SemverQuery.v ===== *)
(** * Semver queries ([semver/SemverQuery.rs])

    A [Query] is a chain of ranges joined by AND, a [List] a chain of queries joined by OR, a
    [Group] the parsed query with its flags.  [next] is the owning pointer; the [tail]
    back-pointers into a chain are modelled by the index of the node they alias. *)

From S2P Require Import Prelude Strings BitSet Wyhash SemverString SemverVersion SemverRange.

(** ** Data *)

Inductive Query := mkQuery (range : Range) (next : option Query).

Definition q_range (q : Query) : Range := match q with mkQuery r _ => r end.
Definition q_next (q : Query) : option Query := match q with mkQuery _ n => n end.
Definition Query_default : Query := mkQuery Range_default None.

(** [tail] is the index in the [head] chain of the node it points to ([head] has index 0). *)
Inductive List := mkList (head : Query) (tail : option nat) (next : option List).

Definition l_head (l : List) : Query := match l with mkList h _ _ => h end.
Definition l_tail (l : List) : option nat := match l with mkList _ t _ => t end.
Definition l_next (l : List) : option List := match l with mkList _ _ n => n end.
Definition List_default : List := mkList Query_default None None.

Record Group := mkGroup { head : List; tail : option nat; input : list Z; flags : IntegerBitSet }.
Definition Group_default : Group := mkGroup List_default None [] init_empty.

Definition PRE : nat := 1.
Definition BUILD : nat := 0.
Definition flag_set (s : IntegerBitSet) (flag : nat) : IntegerBitSet := set_value 3 s flag true.

(** ** Queries *)

Fixpoint Query_clone (q : Query) : Query :=
  match q with
  | mkQuery r n => mkQuery r (match n with Some n => Some (Query_clone n) | None => None end)
  end.

(** [Display] for [QueryFormatter] *)
Definition Query_fmt (q : Query) (buffer : list Z) : list Z :=
  match q_next q with
  | Some ptr =>
      if has_left (q_range ptr) || has_right (q_range ptr)
      then Range_fmt (q_range q) buffer ++ str " && " ++ Range_fmt (q_range ptr) buffer
      else Range_fmt (q_range q) buffer
  | None => Range_fmt (q_range q) buffer
  end.

Fixpoint Query_eql (lhs rhs : Query) : bool :=
  match lhs, rhs with
  | mkQuery r ln, mkQuery r' rn =>
      if negb (Range_eql r r') then false
      else match ln, rn with
           | None, None => true
           | None, Some _ => false
           | Some _, None => false
           | Some ln, Some rn => Query_eql ln rn
           end
  end.

Fixpoint Query_satisfies (q : Query) (v : Version) (query_buf version_buf : list Z) : bool :=
  match q with
  | mkQuery r n =>
      if negb (Range_satisfies r v query_buf version_buf) then false
      else match n with Some n => Query_satisfies n v query_buf version_buf | None => true end
  end.

Fixpoint Query_satisfies_pre (q : Query) (v : Version) (query_buf version_buf : list Z) (pre_matched : bool)
    : bool * bool :=
  match q with
  | mkQuery r n =>
      let '(ok, pre_matched) := Range_satisfies_pre r v query_buf version_buf pre_matched in
      if negb ok then (false, pre_matched)
      else match n with
           | Some n => Query_satisfies_pre n v query_buf version_buf pre_matched
           | None => (true, pre_matched)
           end
  end.

(** [node.next = Some(n)] for the node at index [k]; a dangling index has no behaviour. *)
Fixpoint Query_set_next (q : Query) (k : nat) (n : Query) : outcome Query :=
  match k with
  | O => Ok (mkQuery (q_range q) (Some n))
  | S k =>
      match q_next q with
      | None => Panic
      | Some q' => q'' ← Query_set_next q' k n; Ok (mkQuery (q_range q) (Some q''))
      end
  end.

(** The index of the last node of a chain. *)
Fixpoint Query_last (q : Query) : nat :=
  match q with mkQuery _ n => match n with Some n => S (Query_last n) | None => 0 end end.

(** ** Lists *)

(** The [tail] that [clone] recomputes. *)
Definition clone_tail (q : Query) : option nat :=
  match q_next q with Some _ => Some (Query_last q) | None => None end.

Fixpoint List_clone (l : List) : List :=
  match l with
  | mkList h _ n =>
      let h := Query_clone h in
      mkList h (clone_tail h) (match n with Some n => Some (List_clone n) | None => None end)
  end.

(** [Display] for [ListFormatter] *)
Fixpoint List_fmt (l : List) (buffer : list Z) : list Z :=
  match l with
  | mkList h _ n =>
      match n with
      | Some n => Query_fmt h buffer ++ str " || " ++ List_fmt n buffer
      | None => Query_fmt h buffer
      end
  end.

Fixpoint List_satisfies (l : List) (v : Version) (list_buf version_buf : list Z) : bool :=
  match l with
  | mkList h _ n =>
      if Query_satisfies h v list_buf version_buf then true
      else match n with Some n => List_satisfies n v list_buf version_buf | None => false end
  end.

Fixpoint List_satisfies_pre (l : List) (v : Version) (list_buf version_buf : list Z) : bool :=
  match l with
  | mkList h _ n =>
      let '(ok, pre_matched) := Query_satisfies_pre h v list_buf version_buf false in
      if ok && pre_matched then true
      else match n with Some n => List_satisfies_pre n v list_buf version_buf | None => false end
  end.

Fixpoint List_eql (lhs rhs : List) : bool :=
  match lhs, rhs with
  | mkList h _ ln, mkList h' _ rn =>
      if negb (Query_eql h h') then false
      else match ln, rn with
           | None, None => true
           | None, Some _ => false
           | Some _, None => false
           | Some ln, Some rn => List_eql ln rn
           end
  end.

Definition set_head_range (q : Query) (r : Range) : Query := mkQuery r (q_next q).

Definition List_and_range (l : List) (r : Range) : outcome List :=
  let h := l_head l in
  if negb (has_left (q_range h)) && negb (has_right (q_range h))
  then Ok (mkList (set_head_range h r) (l_tail l) (l_next l))
  else
    let k := default 0%nat (l_tail l) in
    h ← Query_set_next h k (mkQuery r None);
    Ok (mkList h (Some (S k)) (l_next l)).

(** The list node at index [k] replaced by [f] of it. *)
Fixpoint List_update (l : List) (k : nat) (f : List -> outcome List) : outcome List :=
  match k with
  | O => f l
  | S k =>
      match l_next l with
      | None => Panic
      | Some l' => l'' ← List_update l' k f; Ok (mkList (l_head l) (l_tail l) (Some l''))
      end
  end.

Definition List_set_next (l : List) (k : nat) (n : List) : outcome List :=
  List_update l k (fun l => Ok (mkList (l_head l) (l_tail l) (Some n))).

Fixpoint List_last (l : List) : nat :=
  match l with mkList _ _ n => match n with Some n => S (List_last n) | None => 0 end end.

(** ** Groups *)

Definition Group_clone (g : Group) : Group :=
  let h := List_clone (head g) in
  mkGroup h (match l_next h with Some _ => Some (List_last h) | None => None end) (input g) (flags g).

Definition is_none {A} (o : option A) : bool := match o with None => true | Some _ => false end.

(** The loop of [Display] for [GroupFormatter]. *)
Fixpoint Group_fmt_loop (l : List) (buf : list Z) : list Z :=
  match l with
  | mkList h t n =>
      match n with
      | Some n => List_fmt (mkList h t (Some n)) buf ++ str " && " ++ Group_fmt_loop n buf
      | None => List_fmt (mkList h t None) buf
      end
  end.

Definition Group_fmt (g : Group) (buf : list Z) : list Z :=
  if is_none (tail g) && is_none (l_tail (head g)) && negb (has_left (q_range (l_head (head g)))) then []
  else if is_none (tail g) && is_none (l_tail (head g)) then List_fmt (head g) buf
  else Group_fmt_loop (head g) buf.

(** The first range of the group. *)
Definition first_range (g : Group) : Range := q_range (l_head (head g)).

Definition get_exact_version (g : Group) : option Version :=
  let r := first_range g in
  if is_none (l_next (head g)) && is_none (q_next (l_head (head g))) && has_left r &&
     bool_decide (op (left r) = OpEql) && negb (has_right r)
  then Some (version (left r)) else None.

Definition exact_range (v : Version) : Range := mkRange (mkComparator OpEql v) Comparator_default.

(** [Group::from] *)
Definition Group_from (v : Version) : Group :=
  mkGroup (mkList (mkQuery (exact_range v) None) None None) None [] init_empty.

Definition is_exact (g : Group) : bool :=
  is_none (l_next (head g)) && is_none (q_next (l_head (head g))) && negb (has_right (first_range g)) &&
  bool_decide (op (left (first_range g)) = OpEql).

Definition is_star (g : Group) : bool :=
  bool_decide (op (right (first_range g)) = OpUnset) && bool_decide (op (left (first_range g)) = OpGte) &&
  is_none (l_next (head g)) && is_none (q_next (l_head (head g))) && is_zero (version (left (first_range g))) &&
  negb (is_set 3 (flags g) BUILD).

Definition Group_eql (g rhs : Group) : bool := List_eql (head g) (head rhs).

Definition to_version (g : Group) : Version := version (left (first_range g)).

(** [head.head.range = r] *)
Definition with_first_range (g : Group) (r : Range) : Group :=
  mkGroup (mkList (set_head_range (l_head (head g)) r) (l_tail (head g)) (l_next (head g)))
          (tail g) (input g) (flags g).

(** Appends a one-range list after the group's tail. *)
Definition append_list (g : Group) (r : Range) : outcome Group :=
  let new_tail := mkList (mkQuery r None) None None in
  let k := default 0%nat (tail g) in
  h ← List_set_next (head g) k new_tail;
  Ok (mkGroup h (Some (S k)) (input g) (flags g)).

Definition or_version (g : Group) (v : Version) : outcome Group :=
  if is_none (tail g) && negb (has_left (first_range g))
  then Ok (with_first_range g (mkRange (mkComparator OpEql v) (right (first_range g))))
  else append_list g (mkRange (mkComparator OpEql v) Comparator_default).

Definition and_range (g : Group) (r : Range) : outcome Group :=
  h ← List_update (head g) (default 0%nat (tail g)) (fun l => List_and_range l r);
  Ok (mkGroup h (tail g) (input g) (flags g)).

Definition or_range (g : Group) (r : Range) : outcome Group :=
  if is_none (tail g) && is_none (l_tail (head g)) && negb (has_left (first_range g))
  then Ok (with_first_range g r)
  else append_list g r.

Definition satisfies (g : Group) (v : Version) (group_buf version_buf : list Z) : bool :=
  if has_pre (tag v) then List_satisfies_pre (head g) v group_buf version_buf
  else List_satisfies (head g) v group_buf version_buf.

(** ** Tokens *)

Variant TokenTag := TNone | TGt | TGte | TLt | TLte | TVersion | TTilda | TCaret.

#[export] Instance TokenTag_eq_dec : EqDecision TokenTag.
Proof. solve_decision. Defined.

Record Token := mkToken { t_tag : TokenTag; t_wildcard : Wildcard }.
Definition Token_default : Token := mkToken TNone WNone.

(** A range of one comparator. *)
Definition one_sided (o : Op) (v : Version) : Range := mkRange (mkComparator o v) Comparator_default.

Definition caret_range (p : Partial) : Range :=
  match p_major p with
  | None => Range_default
  | Some major =>
      let left_ v := mkComparator OpGte v in
      let right_ v := mkComparator OpLt v in
      let next_major := core_version (sat_succ64 major) 0 0 in
      match p_minor p with
      | None => mkRange (left_ (core_version major 0 0)) (right_ next_major)
      | Some minor =>
          match p_patch p with
          | Some patch =>
              let l := left_ (mkVersion major minor patch (p_tag p)) in
              if major =? 0 then
                if minor =? 0 then mkRange l (right_ (core_version 0 0 (sat_succ64 patch)))
                else mkRange l (right_ (core_version 0 (sat_succ64 minor) 0))
              else mkRange l (right_ next_major)
          | None =>
              let l := left_ (core_version major minor 0) in
              if major =? 0 then mkRange l (right_ (core_version 0 (sat_succ64 minor) 0))
              else mkRange l (right_ next_major)
          end
      end
  end.

Definition tilda_range (p : Partial) : Range :=
  match p_major p with
  | None => Range_default
  | Some major =>
      match p_minor p with
      | None => mkRange (mkComparator OpGte (core_version major 0 0))
                        (mkComparator OpLt (core_version (sat_succ64 major) 0 0))
      | Some minor =>
          let l := match p_patch p with
                   | Some patch => mkVersion major minor patch (p_tag p)
                   | None => core_version major minor 0
                   end in
          mkRange (mkComparator OpGte l) (mkComparator OpLt (core_version major (sat_succ64 minor) 0))
      end
  end.

(** The comparison tokens, by wildcard. *)
Definition comparison_range (t : Token) (p : Partial) : outcome Range :=
  let M := default 0 (p_major p) in
  let m := default 0 (p_minor p) in
  match t_wildcard t with
  | WMajor => Ok (mkRange (mkComparator OpGte (Partial_min p))
                          (mkComparator OpLte (core_version U64_MAX U64_MAX U64_MAX)))
  | WMinor =>
      match t_tag t with
      | TLte => Ok (one_sided OpLte (core_version M U64_MAX U64_MAX))
      | TLt => Ok (one_sided OpLt (core_version M 0 0))
      | TGt => Ok (one_sided OpGt (core_version M U64_MAX U64_MAX))
      | TGte => Ok (one_sided OpGte (core_version M 0 0))
      | _ => Panic
      end
  | WPatch =>
      match t_tag t with
      | TLte => Ok (one_sided OpLte (core_version M m U64_MAX))
      | TLt => Ok (one_sided OpLt (core_version M m 0))
      | TGt => Ok (one_sided OpGt (core_version M m U64_MAX))
      | TGte => Ok (one_sided OpGte (core_version M m 0))
      | _ => Panic
      end
  | WNone =>
      match t_tag t with
      | TGt => Ok (one_sided OpGt (Partial_min p))
      | TGte => Ok (one_sided OpGte (Partial_min p))
      | TLt => Ok (one_sided OpLt (Partial_min p))
      | TLte => Ok (one_sided OpLte (Partial_min p))
      | _ => Panic
      end
  end.

Definition to_range (t : Token) (p : Partial) : outcome Range :=
  match t_tag t with
  | TCaret => Ok (caret_range p)
  | TTilda => Ok (tilda_range p)
  | TNone => Panic
  | TVersion =>
      if negb (bool_decide (t_wildcard t = WNone)) then Ok (init_wildcard (Partial_min p) (t_wildcard t))
      else Ok (one_sided OpEql (Partial_min p))
  | _ => comparison_range t p
  end.

(** ** The query parser *)

(** The index after the run of spaces from [i]. *)
Definition skip_spaces (input : list Z) (i : nat) : nat := (i + run_length (Z.eqb (ch " ")) (drop i input))%nat.

Definition at_char (input : list Z) (i : nat) (c : Z) : bool :=
  match input !! i with Some d => d =? c | None => false end.

Definition is_wildcard_start (c : Z) : bool :=
  is_ascii_digit c || memb c [ch "X"; ch "x"; ch "*"].

Definition not_space_or_bar (d : Z) : bool := negb (d =? ch " ") && negb (d =? ch "|").

(** The match on [input[i]]: the new index, token tag, [is_or] and [skip_round]. *)
Definition parse_operator (input : list Z) (c : Z) (i : nat) (t : TokenTag) (is_or : bool)
    : nat * TokenTag * bool * bool :=
  if c =? ch ">" then
    if at_char input (i + 1) (ch "=") then (skip_spaces input (i + 2), TGte, is_or, false)
    else (skip_spaces input (i + 1), TGt, is_or, false)
  else if c =? ch "<" then
    if at_char input (i + 1) (ch "=") then (skip_spaces input (i + 2), TLte, is_or, false)
    else (skip_spaces input (i + 1), TLt, is_or, false)
  else if (c =? ch "=") || (c =? ch "v") then (skip_spaces input (i + 1), TVersion, true, false)
  else if c =? ch "~" then
    let i := if at_char input (i + 1) (ch ">") then (i + 2)%nat else (i + 1)%nat in
    (skip_spaces input i, TTilda, is_or, false)
  else if c =? ch "^" then (skip_spaces input (i + 1), TCaret, is_or, false)
  else if is_wildcard_start c then (i, TVersion, true, false)
  else if c =? ch "|" then
    let i := (i + 1 + run_length (Z.eqb (ch "|")) (drop (i + 1) input))%nat in
    (skip_spaces input i, TNone, true, true)
  else if c =? ch "-" then (skip_spaces input (i + 1), t, is_or, false)
  else if c =? ch " " then (skip_spaces input (i + 1), t, is_or, true)
  else ((i + 1 + run_length not_space_or_bar (drop (i + 1) input))%nat,
        TNone, is_or, true).

(** The block ['possibly_hyphenate]: [Some i] is the start of the second version. *)
Definition possibly_hyphenate (input : list Z) (i : nat) : outcome (option nat) :=
  r ← slice_from input i;
  let i := (i + length_of_leading_whitespace_ascii r)%nat in
  if negb (at_char input i (ch "-")) then Ok (@None nat)
  else
    r ← slice_from input (i + 1);
    let i := (i + 1 + length_of_leading_whitespace_ascii r)%nat in
    if (i =? length input)%nat then Ok (@None nat)
    else
      c ← index_at input i;
      let i := if (c =? ch "v") || (c =? ch "=") then (i + 1)%nat else i in
      if (i =? length input)%nat then Ok (@None nat)
      else
        r ← slice_from input i;
        let i := (i + length_of_leading_whitespace_ascii r)%nat in
        if (i =? length input)%nat then Ok (@None nat)
        else
          match input !! i with
          | Some c => if is_wildcard_start c then Ok (Some i) else Ok (@None nat)
          | None => Ok (@None nat)
          end.

(** The range of [version - second]. *)
Definition hyphen_range (v : Version) (second : ParseResult) : Range :=
  let sv := Partial_min (pr_version second) in
  match pr_wildcard second with
  | WMajor => one_sided OpGte v
  | WMinor => mkRange (mkComparator OpGte v)
                      (mkComparator OpLt (mkVersion (sat_succ64 (major sv)) 0 0 (tag sv)))
  | WPatch => mkRange (mkComparator OpGte v)
                      (mkComparator OpLt (mkVersion (major sv) (sat_succ64 (minor sv)) 0 (tag sv)))
  | WNone => mkRange (mkComparator OpGte v) (mkComparator OpLte sv)
  end.

Definition set_flags (g : Group) (f : IntegerBitSet) : Group := mkGroup (head g) (tail g) (input g) f.

(** The flags that a parsed version raises. *)
Definition note_tag (g : Group) (v : Version) : Group :=
  let g := if has_build (tag v) then set_flags g (flag_set (flags g) BUILD) else g in
  if has_pre (tag v) then set_flags g (flag_set (flags g) PRE) else g.

(** The state of the main loop. *)
Record QState := mkQState {
  qs_list : Group; qs_token : Token; qs_count : Z; qs_is_or : bool; qs_i : nat }.

(** What one round does to the group: the second half of the loop body. *)
Definition add_version (g : Group) (t : Token) (count : Z) (is_or : bool) (r : ParseResult) : outcome Group :=
  if (count =? 0) && bool_decide (t_tag t = TVersion) then
    match pr_wildcard r with
    | WNone => or_version g (Partial_min (pr_version r))
    | _ => range ← to_range t (pr_version r); or_range g range
    end
  else if count =? 0 then range ← to_range t (pr_version r); and_range g range
  else if is_or then range ← to_range t (pr_version r); or_range g range
  else range ← to_range t (pr_version r); and_range g range.

(** One round over [input]; [sliced] supplies the buffer of the handles. *)
Definition query_step (inp : memory_slice) (sliced : SlicedString) (st : QState) : outcome QState :=
  let input := data inp in
  let '(mkQState list token count is_or i) := st in
  c ← index_at input i;
  let '(i, t, is_or, skip_round) := parse_operator input c i (t_tag token) is_or in
  let token := mkToken t (t_wildcard token) in
  if skip_round then Ok (mkQState list token count is_or i)
  else
    sub ← ms_from inp i;
    parse_result ← parse u64_int (Sliced_sub sliced sub);
    let version := Partial_min (pr_version parse_result) in
    let list := note_tag list version in
    let token := mkToken t (pr_wildcard parse_result) in
    let rollback := (i + pr_len parse_result)%nat in
    hyphenate ← (if at_char input rollback (ch " ") || at_char input rollback (ch "-")
                 then possibly_hyphenate input rollback else Ok (@None nat));
    match hyphenate with
    | Some i =>
        sub ← ms_from inp i;
        second_parsed ← parse u64_int (Sliced_sub sliced sub);
        let list := note_tag list (Partial_min (pr_version second_parsed)) in
        let range := hyphen_range version second_parsed in
        list ← (if is_or then or_range list range else and_range list range);
        Ok (mkQState list (mkToken t WNone) (wrap 32 (count + 1)) false (i + (pr_len second_parsed + 1)))
    | None =>
        let i := (rollback + 1)%nat in
        if bool_decide (t = TNone) then Ok (mkQState list (mkToken t WNone) count is_or i)
        else
          list ← add_version list token count is_or parse_result;
          Ok (mkQState list (mkToken t WNone) (wrap 32 (count + 1)) false i)
    end.

(** [while i < input.len()] *)
Fixpoint query_loop (fuel : nat) (inp : memory_slice) (sliced : SlicedString) (st : QState) : outcome QState :=
  if (qs_i st <? length (data inp))%nat then
    match fuel with
    | O => OutOfFuel
    | S fuel => st ← query_step inp sliced st; query_loop fuel inp sliced st
    end
  else Ok st.

(** [query::parse]; every round advances, so the input's length is enough fuel. *)
Definition query_parse (inp : memory_slice) (sliced : SlicedString) : outcome Group :=
  st ← query_loop (length (data inp)) inp sliced
         (mkQState (mkGroup List_default None (data inp) init_empty) Token_default 0 false 0);
  Ok (qs_list st).

(** ** What a group denotes: an OR of ANDs of ranges *)

Fixpoint ranges (q : Query) : list Range :=
  match q with mkQuery r n => r :: match n with Some n => ranges n | None => [] end end.

Fixpoint queries (l : List) : list Query :=
  match l with mkList h _ n => h :: match n with Some n => queries n | None => [] end end.

Definition terms (g : Group) : list (list Range) := map ranges (queries (head g)).

(** Induction along the [next] pointers. *)
Section chain_induction.
Context (P : Query -> Prop) (Pone : forall r, P (mkQuery r None))
        (Pcons : forall r q, P q -> P (mkQuery r (Some q))).

Fixpoint Query_chain (q : Query) : P q :=
  match q with
  | mkQuery r None => Pone r
  | mkQuery r (Some q) => Pcons r q (Query_chain q)
  end.
End chain_induction.

Section list_induction.
Context (P : List -> Prop) (Pone : forall h t, P (mkList h t None))
        (Pcons : forall h t l, P l -> P (mkList h t (Some l))).

Fixpoint List_chain (l : List) : P l :=
  match l with
  | mkList h t None => Pone h t
  | mkList h t (Some l) => Pcons h t l (List_chain l)
  end.
End list_induction.

Section satisfaction.
Context (v : Version) (qb vb : list Z).

Definition range_sat (r : Range) : bool := Range_satisfies r v qb vb.

Lemma Query_satisfies_ranges q : Query_satisfies q v qb vb = forallb range_sat (ranges q).
Proof.
  induction q as [r|r q IH] using Query_chain; cbn; fold (range_sat r); destruct (range_sat r); try done.
Qed.

Lemma Query_satisfies_pre_ranges q m :
  (Query_satisfies_pre q v qb vb m).1 = forallb range_sat (ranges q) /\
  (forallb range_sat (ranges q) = true ->
   (Query_satisfies_pre q v qb vb m).2 = m || existsb (fun r => range_pre_match r v) (ranges q)).
Proof.
  revert m. induction q as [r|r q IH] using Query_chain; intros m; cbn;
    rewrite Range_satisfies_pre_spec; fold (range_sat r); destruct (range_sat r); cbn; try done.
  - by rewrite orb_false_r.
  - destruct (IH (m || range_pre_match r v)) as [H1 H2]. split; [done|]. intros H. rewrite H2 by done.
    by rewrite orb_assoc.
Qed.

Lemma List_satisfies_terms l : List_satisfies l v qb vb = existsb (forallb range_sat) (map ranges (queries l)).
Proof.
  induction l as [h t|h t l IH] using List_chain; cbn; rewrite Query_satisfies_ranges;
    destruct (forallb range_sat (ranges h)); try done.
Qed.

Definition term_sat_pre (t : list Range) : bool :=
  forallb range_sat t && existsb (fun r => range_pre_match r v) t.

Lemma List_satisfies_pre_terms l :
  List_satisfies_pre l v qb vb = existsb term_sat_pre (map ranges (queries l)).
Proof.
  induction l as [h t|h t l IH] using List_chain; cbn [List_satisfies_pre queries map existsb];
    unfold term_sat_pre at 1; destruct (Query_satisfies_pre_ranges h false) as [H1 H2];
    destruct (Query_satisfies_pre h v qb vb false) as [ok m]; cbn [fst snd] in *; subst ok;
    destruct (forallb range_sat (ranges h)); cbn [andb orb]; try done;
    rewrite (H2 eq_refl); cbn [orb]; by destruct (existsb _ (ranges h)).
Qed.
End satisfaction.

Lemma satisfies_by_terms (g : Group) (v : Version) (gb vb : list Z) :
  satisfies g v gb vb =
    existsb (fun t => forallb (fun r => Range_satisfies r v gb vb) t &&
                      (negb (has_pre (tag v)) || existsb (fun r => range_pre_match r v) t)) (terms g).
Proof.
  unfold satisfies, terms. destruct (has_pre (tag v)).
  - rewrite List_satisfies_pre_terms. reflexivity.
  - rewrite List_satisfies_terms. induction (map ranges (queries (head g))) as [|t ts IH]; [done|].
    cbn [existsb]. by rewrite IH, andb_true_r.
Qed.

(** A release satisfies a group when all the ranges of one of its AND chains contain it; a
    prerelease must also share its core numbers with a prerelease comparator of that chain. *)
Theorem satisfies_terms (g : Group) (v : Version) (gb vb : list Z) :
  satisfies g v gb vb =
    existsb (fun t => forallb (fun r => Range_satisfies r v gb vb) t &&
                      (negb (has_pre (tag v)) || existsb (fun r => range_pre_match r v) t)) (terms g).
Proof. apply satisfies_by_terms. Qed.

(** ** The tail pointers *)

(** [tail] is null on a one-node chain and points to the last node otherwise. *)
Definition query_tail_ok (l : List) : Prop := l_tail l = clone_tail (l_head l).

Fixpoint list_ok (l : List) : Prop :=
  match l with
  | mkList h t n => t = clone_tail h /\ match n with Some n => list_ok n | None => True end
  end.

Definition group_tail (l : List) : option nat :=
  match l_next l with Some _ => Some (List_last l) | None => None end.

Definition group_ok (g : Group) : Prop := list_ok (head g) /\ tail g = group_tail (head g).

Lemma Query_clone_id q : Query_clone q = q.
Proof. induction q as [r|r q IH] using Query_chain; cbn; by rewrite ?IH. Qed.

Lemma List_clone_id l : list_ok l -> List_clone l = l.
Proof.
  induction l as [h t|h t l IH] using List_chain; cbn; rewrite Query_clone_id; intros [-> Hl]; [done|].
  by rewrite IH.
Qed.

Lemma clone_tail_last q : default 0%nat (clone_tail q) = Query_last q.
Proof. unfold clone_tail. by destruct q as [r [n|]]. Qed.

Lemma group_tail_last l : default 0%nat (group_tail l) = List_last l.
Proof. unfold group_tail. by destruct l as [h t [n|]]. Qed.

Lemma Query_set_next_last q r :
  exists q', Query_set_next q (Query_last q) (mkQuery r None) = Ok q' /\
    ranges q' = ranges q ++ [r] /\ Query_last q' = S (Query_last q) /\ q_next q' <> None.
Proof.
  induction q as [r0|r0 q (q' & E & Er & El & En)] using Query_chain.
  - by eexists.
  - exists (mkQuery r0 (Some q')). cbn [Query_last Query_set_next q_next q_range]. rewrite E.
    cbn [mbind outcome_bind ranges Query_last q_next]. rewrite Er, El. done.
Qed.

(** Extending an AND chain. *)
Definition and_term (r : Range) (t : list Range) : list Range :=
  match t with
  | r0 :: rs => if negb (has_left r0) && negb (has_right r0) then r :: rs else t ++ [r]
  | [] => [r]
  end.

Lemma List_and_range_ok l r :
  query_tail_ok l ->
  exists l', List_and_range l r = Ok l' /\ query_tail_ok l' /\ l_next l' = l_next l /\
    ranges (l_head l') = and_term r (ranges (l_head l)).
Proof.
  destruct l as [h t n]. unfold query_tail_ok, List_and_range. cbn [l_head l_tail l_next]. intros ->.
  destruct h as [r0 hn]. cbn [q_range]. unfold and_term. cbn [ranges].
  destruct (negb (has_left r0) && negb (has_right r0)).
  - eexists. split; [done|]. by destruct hn.
  - rewrite clone_tail_last. destruct (Query_set_next_last (mkQuery r0 hn) r) as (q' & E & Er & El & En).
    rewrite E. cbn [mbind outcome_bind]. eexists. split; [done|]. cbn [l_head l_tail l_next].
    split; [|by rewrite Er]. unfold clone_tail. rewrite El. by destruct (q_next q').
Qed.

(** The last AND chain extended, the others kept. *)
Fixpoint and_last (r : Range) (ts : list (list Range)) : list (list Range) :=
  match ts with
  | [] => []
  | [t] => [and_term r t]
  | t :: ts => t :: and_last r ts
  end.

Lemma and_last_snoc r ts t : and_last r (ts ++ [t]) = ts ++ [and_term r t].
Proof.
  induction ts as [|t0 ts IH]; [done|]. destruct ts as [|t1 ts]; [done|].
  cbn [app and_last] in *. by rewrite IH.
Qed.

(** Applying [f] to the last list node. *)
Lemma List_update_last l f (P : List -> Prop) :
  list_ok l ->
  (forall l0, l_next l0 = None -> list_ok l0 -> exists l1, f l0 = Ok l1 /\ P l1) ->
  exists l' pre l0 l1, List_update l (List_last l) f = Ok l' /\ f l0 = Ok l1 /\ P l1 /\
    l_next l0 = None /\ list_ok l0 /\
    queries l = pre ++ [l_head l0] /\ queries l' = pre ++ queries l1 /\ length pre = List_last l /\
    (list_ok l1 -> list_ok l') /\ List_last l' = (List_last l + List_last l1)%nat /\
    (l_next l <> None -> l_next l' <> None) /\ (l_next l = None -> l' = l1).
Proof.
  intros Hl Hf. induction l as [h t|h t l IH] using List_chain.
  - destruct (Hf (mkList h t None) eq_refl Hl) as (l1 & E & HP).
    exists l1, [], (mkList h t None), l1. cbn. by rewrite E.
  - destruct Hl as [Ht Hl]. destruct (IH Hl) as (l' & pre & l0 & l1 & E & Ef & HP & Hn & H0 & Eq & Eq' & Hlen & Hok & Hlast & _).
    exists (mkList h t (Some l')), (h :: pre), l0, l1.
    cbn [List_update List_last l_next l_head l_tail]. rewrite E. cbn [mbind outcome_bind queries app length].
    rewrite Eq, Eq', Hlen, Hlast. split_and!; try done.
    intros H1. split; [done|]. by apply Hok.
Qed.

Lemma and_range_ok g r :
  group_ok g ->
  exists g', and_range g r = Ok g' /\ group_ok g' /\ terms g' = and_last r (terms g) /\
    input g' = input g /\ flags g' = flags g.
Proof.
  intros [Hl Ht]. unfold and_range. rewrite Ht, group_tail_last.
  destruct (List_update_last (head g) (fun l => List_and_range l r)
    (fun l1 => query_tail_ok l1 /\ l_next l1 = None /\
       exists l0, l_next l0 = None /\ list_ok l0 /\ List_and_range l0 r = Ok l1 /\
       ranges (l_head l1) = and_term r (ranges (l_head l0))) Hl)
    as (l' & pre_ & l0 & l1 & E & Ef & (Hq & Hn1 & _) & Hn & H0 & Eq & Eq' & Hlen & Hok & Hlast & Hsome & Hnone).
  { intros l0 Hn0 H0. assert (query_tail_ok l0) as Hq0 by (destruct l0; apply H0).
    destruct (List_and_range_ok l0 r Hq0) as (l1 & E & Hq & Hn & Er). exists l1. split; [done|].
    split; [done|]. split; [by rewrite Hn|]. by exists l0. }
  assert (Hr : ranges (l_head l1) = and_term r (ranges (l_head l0))).
  { assert (query_tail_ok l0) as Hq0 by (destruct l0; apply H0).
    destruct (List_and_range_ok l0 r Hq0) as (l1' & E' & _ & _ & Er). rewrite E' in Ef. by injection Ef as ->. }
  rewrite E. cbn [mbind outcome_bind]. eexists. split; [done|]. unfold group_ok, terms. cbn [head tail input flags].
  assert (Hl1 : list_ok l1) by (destruct l1 as [h1 t1 n1]; cbn in *; by subst n1).
  assert (Hlast1 : List_last l1 = 0%nat) by (destruct l1 as [h1 t1 n1]; cbn in *; by subst n1).
  assert (Hq1 : queries l1 = [l_head l1]) by (destruct l1 as [h1 t1 n1]; cbn in *; by subst n1).
  split_and!; [by apply Hok| | |done|done].
  - unfold group_tail. destruct (l_next (head g)) eqn:En.
    + destruct (l_next l') eqn:En'; [|exfalso; by apply Hsome]. rewrite Hlast, Hlast1. f_equal. lia.
    + rewrite (Hnone eq_refl), Hn1. done.
  - rewrite Eq, Eq', Hq1, !map_app. cbn [map]. by rewrite and_last_snoc, Hr.
Qed.

Lemma append_list_ok g r :
  group_ok g ->
  exists g', append_list g r = Ok g' /\ group_ok g' /\ terms g' = terms g ++ [[r]] /\
    input g' = input g /\ flags g' = flags g.
Proof.
  intros [Hl Ht]. unfold append_list, List_set_next. rewrite Ht, group_tail_last.
  set (nt := mkList (mkQuery r None) None None).
  destruct (List_update_last (head g) (fun l => Ok (mkList (l_head l) (l_tail l) (Some nt)))
    (fun l1 => l_next l1 = Some nt) Hl)
    as (l' & pre_ & l0 & l1 & E & Ef & Hn1 & Hn & H0 & Eq & Eq' & Hlen & Hok & Hlast & Hsome & Hnone).
  { intros l0 _ _. eexists. by split. }
  rewrite E. cbn [mbind outcome_bind]. eexists. split; [done|]. unfold group_ok, terms. cbn [head tail input flags].
  injection Ef as <-. cbn [l_next] in *.
  assert (Hl1 : list_ok (mkList (l_head l0) (l_tail l0) (Some nt))) by (destruct l0; split; [apply H0|done]).
  split_and!; [by apply Hok| | |done|done].
  - unfold group_tail. destruct (l_next l') eqn:En'.
    + rewrite Hlast. cbn. f_equal. lia.
    + exfalso. destruct (l_next (head g)) eqn:En; [by apply Hsome|]. rewrite (Hnone eq_refl) in En'. done.
  - rewrite Eq, Eq', !map_app. cbn. by rewrite <- app_assoc.
Qed.

(** The effect of [or_range] on the denotation. *)
Definition or_terms (r : Range) (ts : list (list Range)) : list (list Range) :=
  match ts with
  | [[r0]] => if has_left r0 then ts ++ [[r]] else [[r]]
  | _ => ts ++ [[r]]
  end.

Lemma with_first_range_ok g r :
  group_ok g ->
  group_ok (with_first_range g r) /\
  terms (with_first_range g r) =
    match terms g with (_ :: rs) :: ts => (r :: rs) :: ts | ts => ts end.
Proof.
  destruct g as [l t i f]. unfold group_ok, terms, with_first_range, group_tail. cbn [head tail].
  destruct l as [[r0 qn] lt ln]. cbn. intros [[-> Hn] ->]. split; [split; [split; [|done]|]|done].
  - by destruct qn.
  - by destruct ln.
Qed.

(** The shape of a group that the emptiness tests of [or_range] accept. *)
Lemma terms_single g :
  group_ok g -> is_none (tail g) && is_none (l_tail (head g)) = true -> terms g = [[first_range g]].
Proof.
  destruct g as [l t i f]. unfold group_ok, terms, first_range, group_tail. cbn [head tail].
  destruct l as [[r0 qn] lt ln]. cbn. intros [[-> Hn] ->]. destruct ln; [done|]. unfold clone_tail. cbn.
  by destruct qn.
Qed.

Lemma terms_not_single g :
  group_ok g -> is_none (tail g) && is_none (l_tail (head g)) = false -> forall r0, terms g <> [[r0]].
Proof.
  destruct g as [l t i f]. unfold group_ok, terms, group_tail. cbn [head tail].
  destruct l as [[r0 qn] lt ln]. cbn. intros [[-> Hn] ->]. destruct ln as [[h1 t1 n1]|]; [by destruct qn|].
  unfold clone_tail. cbn. destruct qn as [[r1 n1]|]; done.
Qed.

Lemma or_terms_append r ts : (forall r0, ts = [[r0]] -> has_left r0 = true) -> or_terms r ts = ts ++ [[r]].
Proof.
  intros H. destruct ts as [|[|r0 [|r1 rs]] [|t ts]]; try done. cbn. by rewrite (H r0 eq_refl).
Qed.

Lemma or_range_ok g r :
  group_ok g ->
  exists g', or_range g r = Ok g' /\ group_ok g' /\ terms g' = or_terms r (terms g) /\
    input g' = input g /\ flags g' = flags g.
Proof.
  intros Hg. unfold or_range. destruct (is_none (tail g) && is_none (l_tail (head g))) eqn:Es; cbn [andb].
  - pose proof (terms_single g Hg Es) as Et. destruct (has_left (first_range g)) eqn:Hf; cbn [negb].
    + destruct (append_list_ok g r Hg) as (g' & E & Hg' & Et' & Hi). exists g'. split_and!; try done; try apply Hi.
      rewrite Et', or_terms_append; [done|]. rewrite Et. by intros r0 [= <-].
    + destruct (with_first_range_ok g r Hg) as [Hg' Et']. eexists. split; [done|]. split_and!; try done.
      rewrite Et', Et. cbn. by rewrite Hf.
  - destruct (append_list_ok g r Hg) as (g' & E & Hg' & Et' & Hi). exists g'. split_and!; try done; try apply Hi.
    rewrite Et', or_terms_append; [done|]. intros r0 H0. by destruct (terms_not_single g Hg Es r0).
Qed.

Lemma or_version_ok g v :
  group_ok g ->
  exists g', or_version g v = Ok g' /\ group_ok g' /\ input g' = input g /\ flags g' = flags g /\
    (terms g = [[Range_default]] -> terms g' = [[exact_range v]]) /\
    (has_left (first_range g) = true -> terms g' = terms g ++ [[exact_range v]]).
Proof.
  intros Hg. unfold or_version. destruct (is_none (tail g) && negb (has_left (first_range g))) eqn:Es.
  - apply andb_true_iff in Es as [E1 E2]. apply negb_true_iff in E2.
    destruct (with_first_range_ok g (mkRange (mkComparator OpEql v) (right (first_range g))) Hg) as [Hg' Et'].
    eexists. split; [done|]. split_and!; try done; [|by rewrite E2].
    intros Et. rewrite Et', Et. unfold exact_range. do 4 f_equal. unfold first_range.
    unfold terms in Et. destruct (head g) as [[r0 qn] lt ln]. cbn in *. by injection Et as -> _ _.
  - destruct (append_list_ok g (exact_range v) Hg) as (g' & E & Hg' & Et' & Hi & Hfl).
    exists g'. split_and!; try done. intros Et. exfalso. apply andb_false_iff in Es.
    destruct g as [[[r0 qn] lt ln] t i f]. unfold group_ok, terms, first_range, group_tail in *. cbn in *.
    destruct Hg as [_ ->]. injection Et as -> Eq El. destruct ln as [[h1 t1 n1]|]; [done|]. by destruct Es.
Qed.

(** The chain operations never touch a dangling tail, keep every tail on the last node of
    its chain, and act on the OR-of-ANDs as specified: AND extends the last chain, OR appends a
    chain (or replaces a still empty group); a clone is the same group. *)
Theorem group_operations (g : Group) (r : Range) :
  group_ok g ->
  returns_with (and_range g r) (fun g' => group_ok g' /\ terms g' = and_last r (terms g)) /\
  returns_with (or_range g r) (fun g' => group_ok g' /\ terms g' = or_terms r (terms g)) /\
  returns_with (or_version g (version (left r))) group_ok /\
  Group_clone g = g.
Proof.
  intros Hg. split_and!.
  - destruct (and_range_ok g r Hg) as (g' & E & H1 & H2 & _). by exists g'.
  - destruct (or_range_ok g r Hg) as (g' & E & H1 & H2 & _). by exists g'.
  - destruct (or_version_ok g (version (left r)) Hg) as (g' & E & H1 & _). by exists g'.
  - destruct g as [l t i f], Hg as [Hl Ht]. cbn in *. unfold Group_clone. cbn [head input flags].
    rewrite List_clone_id by done. by rewrite Ht.
Qed.

Lemma group_operations_witness :
  let g := mkGroup List_default None (str ">1") init_empty in
  returns_with (or_range g Range_default) (fun g' => group_ok g' /\ terms g' = or_terms Range_default (terms g)).
Proof.
  refine (proj1 (proj2 (group_operations _ Range_default _))). split; [split; [reflexivity|exact I]|reflexivity].
Defined.

(** ** The query parser is total *)

Lemma at_char_lt input i c : at_char input i c = true -> (i < length input)%nat.
Proof. unfold at_char. destruct (input !! i) eqn:E; [|done]. intros _. by apply lookup_lt_Some in E. Qed.

Lemma skip_spaces_le input i : (i <= length input)%nat -> (i <= skip_spaces input i <= length input)%nat.
Proof.
  intros H. unfold skip_spaces. pose proof (run_length_le (Z.eqb (ch " ")) (drop i input)) as Hr.
  rewrite length_drop in Hr. lia.
Qed.

Lemma length_of_leading_whitespace_le s : (length_of_leading_whitespace_ascii s <= length s)%nat.
Proof. induction s as [|c s IH]; simpl; [lia|]. destruct (_ || _); simpl; lia. Qed.

Lemma run_from_le p input i :
  (i < length input)%nat -> (i + 1 + run_length p (drop (i + 1) input) <= length input)%nat.
Proof. intros H. pose proof (run_length_le p (drop (i + 1) input)) as Hr. rewrite length_drop in Hr. lia. Qed.

(** The operator match stays inside the input; it advances except before a version. *)
Lemma parse_operator_le input c i t is_or :
  (i < length input)%nat ->
  let '(i', t', _, skip_round) := parse_operator input c i t is_or in
  (i <= i' <= length input)%nat /\ (skip_round = true -> (i < i')%nat).
Proof.
  intros Hi. unfold parse_operator.
  assert (H1 := skip_spaces_le input (i + 1) ltac:(lia)).
  repeat match goal with
  | |- context [if at_char input (i + 1) ?d then _ else _] =>
      let E := fresh in destruct (at_char input (i + 1) d) eqn:E;
      [apply at_char_lt in E; pose proof (skip_spaces_le input (i + 2) ltac:(lia))|]
  | |- context [if ?b then _ else _] => destruct b
  end; cbv zeta beta iota; try (split; [lia|intros; try done; lia]).
  all: pose proof (run_from_le (Z.eqb (ch "|")) input i Hi) as Hr; pose proof (skip_spaces_le input _ Hr).
  all: pose proof (run_from_le not_space_or_bar input i Hi).
  all: split; [lia|intros; lia].
Qed.

Lemma possibly_hyphenate_returns input i :
  (i <= length input)%nat ->
  returns_with (possibly_hyphenate input i)
    (fun r => match r with Some j => (i < j < length input)%nat | None => True end).
Proof.
  intros Hi. unfold possibly_hyphenate. rewrite slice_from_ok by done. cbn [mbind outcome_bind].
  pose proof (length_of_leading_whitespace_le (drop i input)) as H1. rewrite length_drop in H1.
  set (i1 := (i + _)%nat) in *.
  destruct (at_char input i1 (ch "-")) eqn:E1; cbn [negb]; [|by apply returns_with_Ok].
  apply at_char_lt in E1. rewrite slice_from_ok by lia. cbn [mbind outcome_bind].
  pose proof (length_of_leading_whitespace_le (drop (i1 + 1) input)) as H2. rewrite length_drop in H2.
  set (i2 := (i1 + 1 + _)%nat) in *.
  destruct (Nat.eqb_spec i2 (length input)) as [|H3]; [by apply returns_with_Ok|].
  destruct (input !! i2) as [c|] eqn:Ec; [|apply lookup_ge_None in Ec; lia].
  rewrite (index_at_ok _ _ _ Ec). cbn [mbind outcome_bind].
  set (i3 := if (c =? 118) || (c =? 61) then (i2 + 1)%nat else i2).
  assert (Hi3 : (i2 <= i3 <= length input)%nat) by (unfold i3; destruct (_ || _); lia). clearbody i3.
  destruct (Nat.eqb_spec i3 (length input)) as [|H4]; [by apply returns_with_Ok|].
  rewrite slice_from_ok by lia. cbn [mbind outcome_bind].
  pose proof (length_of_leading_whitespace_le (drop i3 input)) as H5. rewrite length_drop in H5.
  set (i4 := (i3 + _)%nat) in *.
  destruct (Nat.eqb_spec i4 (length input)) as [|H6]; [by apply returns_with_Ok|].
  destruct (input !! i4) as [d|] eqn:Ed; [|by apply returns_with_Ok].
  destruct (is_wildcard_start d); apply returns_with_Ok; [|done]. subst i1 i2 i4. lia.
Qed.

Lemma to_range_returns t p : t_tag t <> TNone -> returns (to_range t p).
Proof.
  intros Ht. unfold to_range, comparison_range.
  destruct (t_tag t) eqn:E; try done; try (by eexists); [destruct (t_wildcard t) eqn:Ew; by eexists..|].
  destruct (bool_decide _); by eexists.
Qed.

Lemma group_ok_flags g f : group_ok g -> group_ok (set_flags g f).
Proof. done. Qed.

Lemma note_tag_ok g v : group_ok g -> group_ok (note_tag g v).
Proof. intros H. unfold note_tag. destruct (has_build _), (has_pre _); try apply group_ok_flags; try apply group_ok_flags; done. Qed.

Lemma add_version_returns g t count is_or r :
  group_ok g -> t_tag t <> TNone -> returns_with (add_version g t count is_or r) group_ok.
Proof.
  intros Hg Ht. destruct (to_range_returns t (pr_version r) Ht) as (rg & Erg). unfold add_version.
  destruct (or_range_ok g rg Hg) as (g1 & E1 & Hg1 & _), (and_range_ok g rg Hg) as (g2 & E2 & Hg2 & _),
    (or_version_ok g (Partial_min (pr_version r)) Hg) as (g3 & E3 & Hg3 & _).
  rewrite Erg. cbn [mbind outcome_bind]. rewrite E1, E2, E3.
  destruct (_ && _); [destruct (pr_wildcard r)|destruct (_ =? _); [|destruct is_or]]; by eexists.
Qed.

(** One round keeps the group well formed and advances. *)
Lemma query_step_returns inp sliced st :
  Z.of_nat (length (data inp)) < 2 ^ 32 -> group_ok (qs_list st) -> (qs_i st < length (data inp))%nat ->
  returns_with (query_step inp sliced st) (fun st' => group_ok (qs_list st') /\ (qs_i st < qs_i st')%nat).
Proof.
  intros Hlen Hg Hi. destruct st as [g token count is_or i]. cbn [qs_list qs_i] in *. unfold query_step.
  destruct (data inp !! i) as [c|] eqn:Ec; [|apply lookup_ge_None in Ec; lia].
  rewrite (index_at_ok _ _ _ Ec). cbn [mbind outcome_bind].
  pose proof (parse_operator_le (data inp) c i (t_tag token) is_or Hi) as Hop.
  destruct (parse_operator _ _ _ _ _) as [[[i1 t] is_or1] skip_round]. destruct Hop as [Hi1 Hskip].
  destruct skip_round; [apply returns_with_Ok; cbn; auto|].
  rewrite ms_from_returns by lia. cbn [mbind outcome_bind].
  eapply returns_with_bind; [apply parse_returns; cbn [sl_slice Sliced_sub data]; rewrite length_drop; lia|].
  intros pr Hpr. cbn [sl_slice Sliced_sub data] in Hpr. rewrite length_drop in Hpr.
  set (rb := (i1 + pr_len pr)%nat). set (g1 := note_tag g _).
  assert (Hg1 : group_ok g1) by by apply note_tag_ok.
  eapply (returns_with_bind _ _ (fun h => match h with Some j => (rb < j < length (data inp))%nat | None => True end)).
  { destruct (_ || _); [|by apply returns_with_Ok]. apply possibly_hyphenate_returns. unfold rb. lia. }
  intros [j|] Hj.
  - rewrite ms_from_returns by lia. cbn [mbind outcome_bind].
    eapply returns_with_bind; [apply parse_returns; cbn [sl_slice Sliced_sub data]; rewrite length_drop; lia|].
    intros pr2 _. set (rg := hyphen_range _ _). set (g2 := note_tag g1 _).
    assert (Hg2 : group_ok g2) by by apply note_tag_ok.
    eapply (returns_with_bind _ _ group_ok).
    + destruct (or_range_ok g2 rg Hg2) as (g3 & -> & ? & _), (and_range_ok g2 rg Hg2) as (g4 & -> & ? & _).
      destruct is_or1; by apply returns_with_Ok.
    + intros g3 Hg3. apply returns_with_Ok. cbn. split; [done|]. unfold rb in *. lia.
  - case_bool_decide as Ht; [apply returns_with_Ok; cbn; split; [done|unfold rb; lia]|].
    eapply returns_with_bind; [by apply add_version_returns|].
    intros g3 Hg3. apply returns_with_Ok. cbn. split; [done|]. unfold rb. lia.
Qed.

Lemma query_loop_returns fuel inp sliced st :
  Z.of_nat (length (data inp)) < 2 ^ 32 -> group_ok (qs_list st) -> (length (data inp) <= fuel + qs_i st)%nat ->
  returns_with (query_loop fuel inp sliced st) (fun st' => group_ok (qs_list st')).
Proof.
  intros Hlen. revert st. induction fuel as [|fuel IH]; intros st Hg Hf; cbn [query_loop].
  { rewrite (proj2 (Nat.ltb_ge _ _)) by lia. by apply returns_with_Ok. }
  destruct (Nat.ltb_spec (qs_i st) (length (data inp))); [|by apply returns_with_Ok].
  eapply returns_with_bind; [by apply query_step_returns|]. intros st' [Hg' Hi]. apply IH; [done|lia].
Qed.

(** (C5) The query parser returns a group with sound tails on every input below 4 GiB: its
    loop ends, no slice is out of range, and no [unreachable!] is reached. *)
Theorem query_parse_total (inp : memory_slice) (sliced : SlicedString) :
  Z.of_nat (length (data inp)) < 2 ^ 32 -> returns_with (query_parse inp sliced) group_ok.
Proof.
  intros Hlen. unfold query_parse.
  eapply returns_with_bind; [apply query_loop_returns; [done|done|cbn; lia]|].
  intros st Hst. by apply returns_with_Ok.
Qed.

Lemma query_parse_total_witness :
  returns_with (query_parse (mkSlice 1000 (str "^1 || >=2 <3 - x"))
                 (mkSliced (mkSlice 1000 (str "^1 || >=2 <3 - x")) (mkSlice 1000 (str "^1 || >=2 <3 - x")))) group_ok.
Proof. apply query_parse_total. cbn. lia. Defined.

(** ** Queries of one comparator *)

Definition group_of_input (inp : memory_slice) : Group := mkGroup List_default None (data inp) init_empty.

(** An input that one round consumes: an operator and a version up to the end. *)
Lemma query_parse_single inp sliced c i t is_or pr :
  data inp !! 0%nat = Some c ->
  parse_operator (data inp) c 0 TNone false = (i, t, is_or, false) -> t <> TNone ->
  (i <= length (data inp))%nat ->
  parse u64_int (Sliced_sub sliced (mkSlice (addr inp + Z.of_nat i) (drop i (data inp)))) = Ok pr ->
  (i + pr_len pr = length (data inp))%nat ->
  query_parse inp sliced =
    add_version (note_tag (group_of_input inp) (Partial_min (pr_version pr))) (mkToken t (pr_wildcard pr)) 0 is_or pr.
Proof.
  intros Hc Hop Ht Hi Hp Hend. unfold query_parse. fold (group_of_input inp).
  assert (Hn : (0 < length (data inp))%nat) by (by apply lookup_lt_Some in Hc).
  destruct (length (data inp)) as [|fuel] eqn:Elen; [lia|]. cbn [query_loop qs_i]. rewrite Elen. cbn [Nat.ltb Nat.leb].
  unfold query_step. rewrite (index_at_ok _ _ _ Hc). cbn [mbind outcome_bind t_tag Token_default]. rewrite Hop.
  rewrite ms_from_returns by lia. cbn [mbind outcome_bind]. rewrite Hp. cbn [mbind outcome_bind]. rewrite Hend.
  assert (Hat : forall d, at_char (data inp) (S fuel) d = false).
  { intros d. unfold at_char. rewrite lookup_ge_None_2 by lia. done. }
  rewrite !Hat. cbn [orb mbind outcome_bind]. rewrite bool_decide_eq_false_2 by done.
  cbn [t_tag t_wildcard]. destruct (add_version _ _ _ _ _) as [g| |]; try done.
  cbn [mbind outcome_bind]. destruct fuel; cbn [query_loop qs_i]; rewrite Elen;
    rewrite (proj2 (Nat.ltb_ge _ _)) by lia; done.
Qed.

(** The text of an operator token. *)
Definition op_text (t : TokenTag) : list Z :=
  match t with
  | TNone => []
  | TGt => str ">"
  | TGte => str ">="
  | TLt => str "<"
  | TLte => str "<="
  | TVersion => []
  | TTilda => str "~"
  | TCaret => str "^"
  end.

Lemma digit_skip_spaces pre_ d rest :
  is_ascii_digit d = true -> skip_spaces (pre_ ++ d :: rest) (length pre_) = length pre_.
Proof.
  intros Hd. unfold skip_spaces. rewrite drop_app_length. cbn [run_length]. rewrite Z.eqb_sym.
  destruct (digit_plain d Hd) as (-> & _). lia.
Qed.

(** The operator match on [op ++ digit ..]. *)
Lemma parse_operator_text t d rest :
  is_ascii_digit d = true -> t <> TNone ->
  exists c, (op_text t ++ d :: rest) !! 0%nat = Some c /\
    parse_operator (op_text t ++ d :: rest) c 0 TNone false =
      (length (op_text t), t, bool_decide (t = TVersion), false).
Proof.
  intros Hd Ht. pose proof (proj1 (is_ascii_digit_spec d) Hd) as Hr.
  pose proof (digit_skip_spaces (op_text t) d rest Hd) as Hs.
  destruct t; try done; eexists; (split; [reflexivity|]); unfold parse_operator;
    try (cbn -[skip_spaces Z.eqb]; unfold at_char; cbn -[skip_spaces Z.eqb] in *;
         rewrite ?(proj2 (Z.eqb_neq d _)) by lia; by rewrite ?Hs).
  cbn [op_text app length]. rewrite !(proj2 (Z.eqb_neq d _)) by lia. cbn [orb].
  unfold is_wildcard_start. by rewrite Hd.
Qed.

(** The range of an operator applied to a full version. *)
Definition op_range (t : TokenTag) (p : Partial) : Range :=
  match t with
  | TCaret => caret_range p
  | TTilda => tilda_range p
  | TGt => one_sided OpGt (Partial_min p)
  | TGte => one_sided OpGte (Partial_min p)
  | TLt => one_sided OpLt (Partial_min p)
  | TLte => one_sided OpLte (Partial_min p)
  | TVersion | TNone => one_sided OpEql (Partial_min p)
  end.

Lemma to_range_op t p : t <> TNone -> to_range (mkToken t WNone) p = Ok (op_range t p).
Proof. by destruct t. Qed.

Lemma add_version_single g t p r :
  group_ok g -> terms g = [[Range_default]] -> t <> TNone ->
  pr_wildcard r = WNone -> pr_version r = p ->
  exists g', add_version g (mkToken t WNone) 0 (bool_decide (t = TVersion)) r = Ok g' /\
    group_ok g' /\ terms g' = [[op_range t p]] /\ flags g' = flags g.
Proof.
  intros Hg Et Ht Hw Hp. unfold add_version. rewrite Hw, Hp. cbn [t_tag].
  rewrite to_range_op by done. cbn [Z.eqb andb mbind outcome_bind].
  destruct (decide (t = TVersion)) as [->|Hv].
  - rewrite bool_decide_eq_true_2 by done.
    destruct (or_version_ok g (Partial_min p) Hg) as (g' & E & Hg' & _ & Hf & Hterms & _).
    exists g'. split_and!; try done. by apply Hterms.
  - rewrite bool_decide_eq_false_2 by done.
    destruct (and_range_ok g (op_range t p) Hg) as (g' & E & Hg' & Hterms & _ & Hf).
    exists g'. split_and!; try done. by rewrite Hterms, Et.
Qed.

Lemma note_tag_terms g v : terms (note_tag g v) = terms g.
Proof. unfold note_tag. by destruct (has_build (tag v)), (has_pre (tag v)). Qed.

(** Parsing [op M.m.p-pre+build]. *)
Lemma query_parse_text (t : TokenTag) (a n1 n2 n3 : Z) (ps bs : list Z) :
  t <> TNone -> core_number u64_int n1 -> core_number u64_int n2 -> core_number u64_int n3 ->
  Forall (fun c => stays SPre c = true) ps -> Forall (fun c => stays SBuild c = true) bs ->
  let txt := op_text t ++ core_text n1 n2 n3 ++ tag_text ps bs in
  Z.of_nat (length txt) < 2 ^ 31 ->
  exists g tg, query_parse (mkSlice a txt) (mkSliced (mkSlice a txt) (mkSlice a txt)) = Ok g /\
    group_ok g /\ terms g = [[op_range t (parsed_version n1 n2 n3 tg)]] /\ tag_is tg txt ps bs /\ tag_ok tg.
Proof.
  intros Ht H1 H2 H3 Hps Hbs txt Hlen.
  assert (HT : 0 <= vi_MAX u64_int <= U128_MAX) by done.
  destruct (core_text_head n1 n2 n3) as (d & l & Ed & Hd); [by apply (core_number_u128 u64_int)|].
  set (s := mkSliced (mkSlice a txt) (mkSlice a txt)).
  assert (Hdrop : drop (length (op_text t)) txt = core_text n1 n2 n3 ++ tag_text ps bs)
    by (unfold txt; apply drop_app_length).
  assert (Hok : sliced_ok s).
  { apply sliced_ok_self; [done|]. unfold txt. apply Forall_app. split; [destruct t; by repeat constructor|].
    apply core_tag_bytes_ok; try done; by apply (core_number_u128 u64_int). }
  assert (Hn : length txt = (length (op_text t) + length (core_text n1 n2 n3 ++ tag_text ps bs))%nat)
    by (unfold txt; by rewrite length_app).
  destruct (parse_core_text u64_int (sub_from s (length (op_text t))) n1 n2 n3 ps bs) as (tg & Hp & Htag); try done.
  { apply sliced_ok_from; [done|]. cbn [sl_slice data s]. lia. }
  { cbn [sub_from sl_slice Sliced_sub data s]. rewrite Hdrop. lia. }
  assert (Htok : tag_ok tg).
  { apply parse_partial_ok in Hp; [by apply Hp|done|]. apply sliced_ok_from; [done|]. cbn [sl_slice data s]. lia. }
  destruct (parse_operator_text t d (l ++ tag_text ps bs) Hd Ht) as (c & Hc & Hop).
  assert (Etxt : txt = op_text t ++ d :: l ++ tag_text ps bs) by (unfold txt; by rewrite Ed).
  set (pr := mkParseResult _ _ _ _) in Hp.
  destruct (add_version_single (note_tag (group_of_input (mkSlice a txt)) (Partial_min (pr_version pr))) t
    (parsed_version n1 n2 n3 tg) pr) as (g & Eg & Hg & Hterms & _); try done.
  { by apply note_tag_ok. }
  { by rewrite note_tag_terms. }
  exists g, tg. split; [|done].
  rewrite (query_parse_single _ _ c (length (op_text t)) t (bool_decide (t = TVersion)) pr); try done.
  - cbn [data]. by rewrite Etxt.
  - cbn [data]. by rewrite Etxt at 1.
  - cbn [data]. lia.
  - cbn [data]. unfold pr. cbn [pr_len]. cbn [sub_from sl_slice Sliced_sub data s]. rewrite Hdrop. lia.
Qed.

(** ** The meaning of the operators *)

(** Lexicographic order of core numbers. *)
Definition core_lt (x y : Z * Z * Z) : Prop :=
  let '(a1, a2, a3) := x in let '(b1, b2, b3) := y in
  a1 < b1 \/ (a1 = b1 /\ (a2 < b2 \/ (a2 = b2 /\ a3 < b3))).

(** The versions an operator allows around [M.m.p], as npm documents them: [^] keeps the
    left-most non-zero number, [~] the minor version. *)
Definition op_allows (t : TokenTag) (n w : Z * Z * Z) : Prop :=
  let '(n1, n2, n3) := n in let '(w1, w2, w3) := w in
  match t with
  | TGt => core_lt n w
  | TGte => ~ core_lt w n
  | TLt => core_lt w n
  | TLte => ~ core_lt n w
  | TTilda => ~ core_lt w n /\ w1 = n1 /\ w2 = n2
  | TCaret => ~ core_lt w n /\
      if n1 =? 0 then w1 = 0 /\ (if n2 =? 0 then w2 = 0 /\ w3 = n3 else w2 = n2) else w1 = n1
  | TVersion | TNone => w = n
  end.

(** The interval of a range against a release. *)
Lemma one_sided_release o v w rb vb :
  version_ok v -> version_ok w -> o <> OpUnset ->
  Range_satisfies (one_sided o v) w rb vb = true <-> admits o (precedence_of w vb) (precedence_of v rb).
Proof.
  intros Hv Hw Ho. rewrite Range_satisfies_admits by (done || by split; [done|apply Comparator_default_ok]).
  unfold range_admits, comparator_admits, has_left, has_right. cbn [left right op version one_sided Comparator_default].
  rewrite !bool_decide_eq_false_2 by done. naive_solver.
Qed.

Lemma interval_release l r w rb vb :
  version_ok l -> version_ok r -> version_ok w ->
  Range_satisfies (mkRange (mkComparator OpGte l) (mkComparator OpLt r)) w rb vb = true <->
  precedence_cmp (precedence_of w vb) (precedence_of l rb) <> Lt /\
  precedence_cmp (precedence_of w vb) (precedence_of r rb) = Lt.
Proof.
  intros Hl Hr Hw. rewrite Range_satisfies_admits by done.
  unfold range_admits, comparator_admits, has_left, has_right. cbn. naive_solver.
Qed.

Section operator_meaning.
Context (n1 n2 n3 : Z) (Hn : 0 <= n1 < U64_MAX /\ 0 <= n2 < U64_MAX /\ 0 <= n3 < U64_MAX).
Context (w : Version) (Hw : version_ok w) (Hrel : has_pre (tag w) = false).
Context (Hnn : 0 <= major w /\ 0 <= minor w /\ 0 <= patch w).
Context (rb vb : list Z).
Context (tg : Tag) (Htag : version_ok (mkVersion n1 n2 n3 tg)) (Hpre : has_pre tg = false).

Let bound : Version := mkVersion n1 n2 n3 tg.

Lemma bound_release : precedence_of bound rb = release n1 n2 n3.
Proof. by apply precedence_of_release. Qed.

Lemma op_range_allows t :
  t <> TNone ->
  Range_satisfies (op_range t (parsed_version n1 n2 n3 tg)) w rb vb = true <->
  op_allows t (n1, n2, n3) (major w, minor w, patch w).
Proof.
  intros Ht. pose proof bound_release as Eb.
  assert (Hone : forall o, o <> OpUnset ->
    Range_satisfies (one_sided o bound) w rb vb = true <->
    admits o (release (major w) (minor w) (patch w)) (release n1 n2 n3)).
  { intros o Ho. rewrite one_sided_release by done. by rewrite (precedence_of_release w), Eb. }
  assert (Hint : forall r1 r2 r3,
    Range_satisfies (mkRange (mkComparator OpGte bound) (mkComparator OpLt (core_version r1 r2 r3))) w rb vb = true <->
    precedence_cmp (release (major w) (minor w) (patch w)) (release n1 n2 n3) <> Lt /\
    precedence_cmp (release (major w) (minor w) (patch w)) (release r1 r2 r3) = Lt).
  { intros r1 r2 r3. rewrite interval_release by (done || apply core_version_ok).
    by rewrite (precedence_of_release w), Eb, precedence_of_core. }
  destruct t; try done; cbn [op_range]; change (Partial_min (parsed_version n1 n2 n3 tg)) with bound;
    try (rewrite Hone by done; unfold admits, op_allows, core_lt; rewrite ?release_Gt, ?release_Lt, ?release_Eq; split; try lia; congruence).
  - rewrite Hone by done. unfold admits, op_allows. rewrite release_Eq. naive_solver congruence.
  - unfold tilda_range. cbn [parsed_version p_major p_minor p_patch p_tag]. fold bound.
    rewrite Hint, !release_Lt, sat_succ64_small by lia. unfold op_allows, core_lt. lia.
  - unfold caret_range. cbn [parsed_version p_major p_minor p_patch p_tag]. fold bound. unfold op_allows, core_lt.
    rewrite !sat_succ64_small by lia.
    destruct (Z.eqb_spec n1 0); [destruct (Z.eqb_spec n2 0)|]; rewrite Hint, !release_Lt; lia.
Qed.
End operator_meaning.

(** A parsed tag without prerelease text. *)
Lemma tag_is_release tg buf bs : tag_is tg buf [] bs -> has_pre tg = false.
Proof. intros (_ & E & _). unfold has_pre. by rewrite E. Qed.

(** (C1) Parsing an operator in front of [M.m.p] yields a group that a release satisfies
    exactly when the operator allows it: caret and tilde ranges, comparisons and exact versions,
    from the text to the answer. *)
Theorem operator_query_meaning (t : TokenTag) (a n1 n2 n3 : Z) (w : Version) (vb : list Z) :
  t <> TNone ->
  0 <= n1 < U64_MAX -> 0 <= n2 < U64_MAX -> 0 <= n3 < U64_MAX ->
  version_ok w -> has_pre (tag w) = false -> 0 <= major w -> 0 <= minor w -> 0 <= patch w ->
  let txt := op_text t ++ core_text n1 n2 n3 in
  let inp := mkSlice a txt in
  Z.of_nat (length txt) < 2 ^ 31 ->
  returns_with (query_parse inp (mkSliced inp inp)) (fun g =>
    satisfies g w txt vb = true <-> op_allows t (n1, n2, n3) (major w, minor w, patch w)).
Proof.
  intros Ht H1 H2 H3 Hw Hrel W1 W2 W3 txt inp Hlen.
  assert (Hcore : forall n, 0 <= n < U64_MAX -> core_number u64_int n) by (unfold core_number; change (vi_MAX u64_int) with U64_MAX; unfold U64_MAX; lia).
  destruct (query_parse_text t a n1 n2 n3 [] []) as (g & tg & E & Hg & Hterms & Htag & Htok); try done; try (by apply Hcore).
  { cbn. rewrite app_nil_r. exact Hlen. }
  change (tag_text [] []) with (@nil Z) in *. rewrite app_nil_r in *. fold txt in E, Htag.
  exists g. split; [exact E|]. rewrite satisfies_by_terms, Hterms, Hrel. cbn [existsb forallb negb orb].
  rewrite !andb_true_r, orb_false_r.
  apply op_range_allows; try done. by eapply tag_is_release.
Qed.

Lemma operator_query_meaning_witness :
  returns_with (query_parse (mkSlice 1000 (str "^1.2.3")) (mkSliced (mkSlice 1000 (str "^1.2.3")) (mkSlice 1000 (str "^1.2.3")))) (fun g =>
    satisfies g (core_version 1 9 0) (str "^1.2.3") [] = true <-> op_allows TCaret (1, 2, 3) (1, 9, 0)).
Proof.
  refine (operator_query_meaning TCaret 1000 1 2 3 (core_version 1 9 0) [] _ _ _ _ _ _ _ _ _ _);
    try reflexivity; try (cbn; unfold U64_MAX; lia); try (split; exact external_default_ok); done.
Defined.

(** (C6) The printed form of a version, parsed as a query, is that exact version: the group is
    exact, and [get_exact_version] returns the numbers and the tag contents.  The tags are those of the
    semver specification, without a hyphen in the build metadata. *)
Theorem exact_query (v : Version) (buf : list Z) (a : Z) (ps bs : list Z) :
  core_number u64_int (major v) -> core_number u64_int (minor v) -> core_number u64_int (patch v) ->
  tag_is (tag v) buf ps bs ->
  Forall (fun c => semver_char c = true) ps -> Forall (fun c => semver_char c = true) bs -> ch "-" ∉ bs ->
  let txt := Version_fmt v buf in
  let inp := mkSlice a txt in
  Z.of_nat (length txt) < 2 ^ 31 ->
  returns_with (query_parse inp (mkSliced inp inp)) (fun g =>
    is_exact g = true /\
    exists v', get_exact_version g = Some v' /\ to_version g = v' /\
      major v' = major v /\ minor v' = minor v /\ patch v' = patch v /\ tag_is (tag v') txt ps bs).
Proof.
  intros H1 H2 H3 Htag Hps%semver_char_pre Hbs Hno txt inp Hlen. apply semver_char_build in Hbs; [|done].
  pose proof (Version_fmt_text v buf ps bs Htag) as Etxt.
  destruct (query_parse_text TVersion a (major v) (minor v) (patch v) ps bs) as (g & tg & E & Hg & Hterms & Htag' & _);
    try done.
  { cbn [op_text app]. rewrite <- Etxt. exact Hlen. }
  cbn [op_text app] in E, Htag'. rewrite <- Etxt in E, Htag'. fold txt in E, Htag'.
  exists g. split; [exact E|]. destruct g as [[[r qn] lt ln] t0 i f]. unfold terms in Hterms. cbn in Hterms.
  destruct qn as [[? ?]|]; [done|]. destruct ln as [[[? ?] ? ?]|]; [done|]. injection Hterms as ->.
  split; [done|]. eexists. split; [reflexivity|]. by split_and!.
Qed.

Lemma exact_query_witness :
  returns_with (query_parse (mkSlice 64 (str "1.2.3-rc.1")) (mkSliced (mkSlice 64 (str "1.2.3-rc.1")) (mkSlice 64 (str "1.2.3-rc.1")))) (fun g =>
    is_exact g = true /\
    exists v', get_exact_version g = Some v' /\ to_version g = v' /\
      major v' = 1 /\ minor v' = 2 /\ patch v' = 3 /\ tag_is (tag v') (str "1.2.3-rc.1") (str "rc.1") []).
Proof.
  refine (exact_query sample_pre [] 64 (str "rc.1") [] _ _ _ _ _ _ _ _);
    try (by repeat constructor); try (by apply not_elem_of_nil); try (unfold core_number; cbn; unfold U64_MAX; lia).
Defined.

(** ** Divergences *)

(** The group of a query text at address [4096]. *)
Definition parse_query (txt : list Z) : outcome Group :=
  query_parse (mkSlice 4096 txt) (mkSliced (mkSlice 4096 txt) (mkSlice 4096 txt)).

Definition query_satisfied (txt : list Z) (v : Version) : outcome bool :=
  g ← parse_query txt; Ok (satisfies g v txt []).

(** [^*] alone admits every release, yet in [^* || 1.0.0] it is dropped: the unset range
    it produces is taken for an empty group and overwritten by the alternative. *)
Theorem caret_star_alternative_lost :
  query_satisfied (str "^*") (core_version 3 0 0) = Ok true /\
  query_satisfied (str "^* || 1.0.0") (core_version 3 0 0) = Ok false /\
  query_satisfied (str "* || 1.0.0") (core_version 3 0 0) = Ok true.
Proof. vm_compute. done. Qed.

(** [<*] and [>*], which admit no version in npm, admit every release. *)
Theorem less_than_star_admits_all (v : Version) :
  version_ok v -> has_pre (tag v) = false ->
  0 <= major v <= U64_MAX -> 0 <= minor v <= U64_MAX -> 0 <= patch v <= U64_MAX ->
  query_satisfied (str "<*") v = Ok true /\ query_satisfied (str ">*") v = Ok true.
Proof.
  intros Hv Hrel H1 H2 H3. unfold query_satisfied.
  set (r := mkRange (mkComparator OpGte Version_default) (mkComparator OpLte (core_version U64_MAX U64_MAX U64_MAX))).
  assert (Hlt : exists g, parse_query (str "<*") = Ok g /\ terms g = [[r]]) by (eexists; split; vm_compute; reflexivity).
  assert (Hgt : exists g, parse_query (str ">*") = Ok g /\ terms g = [[r]]) by (eexists; split; vm_compute; reflexivity).
  assert (Hsat : forall rb, Range_satisfies r v rb [] = true).
  { intros rb. apply Range_satisfies_admits; [split; apply core_version_ok|done|].
    rewrite (precedence_of_release v) by done. unfold range_admits, comparator_admits, r. cbn [left right op version admits].
    change (precedence_of Version_default rb) with (release 0 0 0). rewrite precedence_of_core, release_Lt, release_Gt. lia. }
  destruct Hlt as (g1 & -> & T1), Hgt as (g2 & -> & T2). cbn [mbind outcome_bind].
  rewrite !satisfies_by_terms, T1, T2, Hrel. cbn [existsb forallb negb orb]. by rewrite !Hsat.
Qed.

Lemma less_than_star_admits_all_witness :
  query_satisfied (str "<*") (core_version 1 2 3) = Ok true /\ query_satisfied (str ">*") (core_version 1 2 3) = Ok true.
Proof.
  apply (less_than_star_admits_all (core_version 1 2 3)); try reflexivity; try (cbn; unfold U64_MAX; lia).
  split; exact external_default_ok.
Defined.

(** The text of a parsed OR query is not the query: the alternatives are printed again
    after each other, joined by an AND. *)
Theorem group_display_repeats :
  (g ← parse_query (str "1.0.0 || 2.0.0"); Ok (Group_fmt g (str "1.0.0 || 2.0.0"))) =
    Ok (str "==1.0.0 || ==2.0.0 && ==2.0.0").
Proof. vm_compute. done. Qed.
