(* ===== verification/Glob.v ===== *)
(** * The glob matcher ([glob/matcher.rs])

    The matcher is a loop over a [State] (two indices, the last wildcard and the last globstar
    to backtrack to, the brace depth) that calls itself for every branch of a brace group.  The
    [u32] indices are natural numbers, and every iteration checks that the state it leaves fits into
    them: a state that does not is a [Panic], as in builds with overflow checks (in release builds the
    index wraps around).  The theorems are for texts below [2^32 - 6] bytes and prove that this
    never happens there: no index exceeds its text by more than six.  [brace_depth] keeps its width. *)

From S2P Require Import Prelude Strings.

(** ** Data *)

Record Brace := mkBrace { open_brace_idx : nat; branch_idx : nat }.

(** [BoundedArray<Brace, 10>] *)
Definition BraceStack : Type := list Brace.
Definition BRACE_STACK_CAPACITY : nat := 10.
Definition BRACE_BRANCH_BUDGET : Z := 10000.

Variant MatchResult := NoMatch | Match | NegateNoMatch | NegateMatch.

#[export] Instance MatchResult_eq_dec : EqDecision MatchResult.
Proof. solve_decision. Defined.

Definition matches (r : MatchResult) : bool := bool_decide (r = Match) || bool_decide (r = NegateMatch).

Record Wildcard := mkWildcard { w_glob_index : nat; w_path_index : nat; w_brace_depth : Z }.
Definition Wildcard_default : Wildcard := mkWildcard 0 0 0.

Record State := mkState {
  path_index : nat; glob_index : nat; wildcard : Wildcard; globstar : Wildcard; brace_depth : Z }.
Definition State_default : State := mkState 0 0 Wildcard_default Wildcard_default 0.

Definition set_glob (s : State) (g : nat) : State :=
  mkState (path_index s) g (wildcard s) (globstar s) (brace_depth s).
Definition set_path (s : State) (p : nat) : State :=
  mkState p (glob_index s) (wildcard s) (globstar s) (brace_depth s).
Definition set_wildcard (s : State) (w : Wildcard) : State :=
  mkState (path_index s) (glob_index s) w (globstar s) (brace_depth s).
Definition set_depth (s : State) (d : Z) : State :=
  mkState (path_index s) (glob_index s) (wildcard s) (globstar s) d.
Definition set_w_path (w : Wildcard) (p : nat) : Wildcard :=
  mkWildcard (w_glob_index w) p (w_brace_depth w).

Definition backtrack (s : State) : State :=
  mkState (w_path_index (wildcard s)) (w_glob_index (wildcard s)) (wildcard s) (globstar s)
          (w_brace_depth (wildcard s)).

(** The result of one iteration of the main loop: [continue], or [return]; a returned value
    comes with the remaining brace budget. *)
Variant StepResult := Continue (s : State) | Return (b : bool) (budget : Z).

(** ** Character helpers *)

Definition unescape_char (c : Z) : Z :=
  if c =? ch "a" then ch "a"
  else if c =? ch "b" then 8
  else if c =? ch "n" then 10
  else if c =? ch "r" then 13
  else if c =? ch "t" then 9
  else c.

(** [None] is an invalid pattern. *)
Definition unescape (c : Z) (glob : list Z) (glob_index : nat) : option (Z * nat) :=
  if c =? ch "\" then
    match glob !! (glob_index + 1)%nat with
    | None => None
    | Some cc => Some (unescape_char cc, (glob_index + 1)%nat)
    end
  else Some (c, glob_index).

Definition decode_wtf8_rune_at (bytes_ : list Z) (idx : nat) : outcome (Z * nat) :=
  b ← index_at bytes_ idx;
  let len := wtf8_byte_sequence_length b in
  let buf := take 4 (drop idx bytes_) ++ [0; 0; 0; 0] in
  Ok (decode_wtf8_rune_t (nth 0 buf 0) (nth 1 buf 0) (nth 2 buf 0) (nth 3 buf 0) len 65533, Z.to_nat len).

(** The character at [glob[glob_index]] in a class, its length and the index of its last byte
    run; [None] is an invalid pattern. *)
Definition get_unicode (glob : list Z) (glob_index : nat) : outcome (option (Z * nat * nat)) :=
  c ← index_at glob glob_index;
  if c =? ch "\" then
    match glob !! (glob_index + 1)%nat with
    | None => Ok None
    | Some cc =>
        if memb cc [ch "a"; ch "b"; ch "n"; ch "r"; ch "t"]
        then Ok (Some (unescape_char cc, 1%nat, (glob_index + 1)%nat))
        else
          r ← decode_wtf8_rune_at glob (glob_index + 1);
          let '(cp, len) := r in Ok (Some (cp, len, (glob_index + 1)%nat))
    end
  else if c <=? 127 then Ok (Some (c, 1%nat, glob_index))
  else r ← decode_wtf8_rune_at glob glob_index; let '(cp, len) := r in Ok (Some (cp, len, glob_index)).

(** [glob[i..]] starts with [lit]; used for slices whose bounds the code has checked. *)
Definition glob_at (glob : list Z) (i : nat) (lit : list Z) : bool :=
  bool_decide (take (length lit) (drop i glob) = lit).

(** The loop of [skip_globstars] over [/**/]; the index is already past the first [**]. *)
Fixpoint skip_globstars_loop (fuel : nat) (glob : list Z) (glob_index : nat) : outcome nat :=
  if (glob_index + 4 <=? length glob)%nat && glob_at glob glob_index (str "/**/") then
    match fuel with
    | O => OutOfFuel
    | S fuel => skip_globstars_loop fuel glob (glob_index + 3)
    end
  else Ok glob_index.

(** A test of [glob[i]]; of [glob[i]] and [glob[i + 1]]. *)
Definition char_is (glob : list Z) (i : nat) (p : Z -> bool) : outcome bool :=
  c ← index_at glob i; Ok (p c).
Definition char_is2 (glob : list Z) (i : nat) (p q : Z -> bool) : outcome bool :=
  c ← index_at glob i; if p c then char_is glob (i + 1) q else Ok false.

Definition skip_globstars (glob : list Z) (glob_index : nat) : outcome nat :=
  i ← skip_globstars_loop (length glob) glob (glob_index + 2);
  let i := if (i + 3 =? length glob)%nat && glob_at glob i (str "/**") then (i + 3)%nat else i in
  Ok (i - 2)%nat.

(** [u8] arithmetic of [brace_depth] (wrapping in release builds). *)
Definition u8_add (x y : Z) : Z := wrap 8 (x + y).
Definition i16_add (x y : Z) : Z := wrap 16 (x + y + 32768) - 32768.

(** The loop of [skip_branch] over the bytes [rest] from [glob_index]: the new index and depth.
    [skip] counts the escaped byte that a backslash jumps over. *)
Fixpoint skip_branch_loop (rest : list Z) (glob_index : nat) (depth end_depth : Z) (in_brackets skip : bool)
    : nat * Z :=
  match rest with
  | [] => ((if skip then glob_index + 1 else glob_index)%nat, depth)
  | c :: rest =>
      if skip then skip_branch_loop rest (glob_index + 1) depth end_depth in_brackets false
      else if c =? ch "{" then
        skip_branch_loop rest (glob_index + 1) (if in_brackets then depth else u8_add depth 1) end_depth in_brackets false
      else if c =? ch "}" then
        if in_brackets then skip_branch_loop rest (glob_index + 1) depth end_depth in_brackets false
        else
          let depth := u8_add depth (-1) in
          if depth =? end_depth then ((glob_index + 1)%nat, depth)
          else skip_branch_loop rest (glob_index + 1) depth end_depth in_brackets false
      else if c =? ch "[" then skip_branch_loop rest (glob_index + 1) depth end_depth true false
      else if c =? ch "]" then skip_branch_loop rest (glob_index + 1) depth end_depth false false
      else if c =? ch "\" then skip_branch_loop rest (glob_index + 1) depth end_depth in_brackets true
      else skip_branch_loop rest (glob_index + 1) depth end_depth in_brackets false
  end.

Definition skip_branch (s : State) (glob : list Z) : State :=
  let '(g, d) := skip_branch_loop (drop (glob_index s) glob) (glob_index s) (brace_depth s)
                   (u8_add (brace_depth s) (-1)) false false in
  set_depth (set_glob s g) d.

Section matcher.
(** [cfg!(windows)] *)
Context (windows : bool).

Definition is_separator (c : Z) : bool := is_sep_native windows c.

Definition sep_at (path : list Z) (i : nat) : bool :=
  match path !! i with Some c => is_separator c | None => false end.

Definition skip_to_separator (s : State) (path : list Z) (is_end_invalid : bool) : State :=
  if (path_index s =? length path)%nat
  then set_wildcard s (set_w_path (wildcard s) (w_path_index (wildcard s) + 1))
  else
    let p := (path_index s + run_length (fun c => negb (is_separator c)) (drop (path_index s) path))%nat in
    let p := if is_end_invalid || negb (p =? length path)%nat then (p + 1)%nat else p in
    let w := set_w_path (wildcard s) p in
    mkState (path_index s) (glob_index s) w w (brace_depth s).

(** The common exit of a failed iteration: back to the last wildcard, or no match. *)
Definition try_backtrack (s : State) (path : list Z) (budget : Z) : StepResult :=
  if (0 <? w_path_index (wildcard s))%nat && (w_path_index (wildcard s) <=? length path)%nat
  then Continue (backtrack s) else Return false budget.

(** The arm [b'*']. *)
Definition star_step (s : State) (glob : list Z) (glob_start : nat) (path : list Z) : outcome StepResult :=
  let is_globstar := bool_decide (glob !! (glob_index s + 1)%nat = Some (ch "*")) in
  g ← (if is_globstar then skip_globstars glob (glob_index s) else Ok (glob_index s));
  let width := match path !! path_index s with
               | Some c => Z.to_nat (wtf8_byte_sequence_length c)
               | None => 1%nat
               end in
  let s := set_wildcard (set_glob s g) (mkWildcard g (path_index s + width) (brace_depth s)) in
  let finish (s : State) : StepResult :=
    Continue (if sep_at path (path_index s) then set_wildcard s (globstar s) else s) in
  if is_globstar then
    let s := set_glob s (g + 2) in
    let g := glob_index s in
    let is_end_invalid := (g <? length glob)%nat in
    last_slash ← (if is_end_invalid && (path_index s =? length path)%nat && (length glob - g =? 2)%nat
                  then char_is2 glob g is_separator (Z.eqb (ch "*"))
                  else Ok false);
    match last_slash with
    | true => Ok (Continue s)
    | false =>
        starts ← (if (g - glob_start <? 3)%nat then Ok true else char_is glob (g - 3) (Z.eqb (ch "/")));
        ends ← (match starts with
                | true => if is_end_invalid then char_is glob g (Z.eqb (ch "/")) else Ok true
                | false => Ok false
                end);
        match ends with
        | true =>
            let s := if is_end_invalid then set_glob s (g + 1) else s in
            Ok (Continue (skip_to_separator s path is_end_invalid))
        | false => Ok (finish s)
        end
    end
  else Ok (finish (set_glob s (g + 1))).

(** The loop over the members of a class; [None] is an invalid pattern. *)
Fixpoint class_loop (fuel : nat) (glob : list Z) (g : nat) (c : Z) (first is_match : bool)
    : outcome (option (nat * bool)) :=
  match glob !! g with
  | None => Ok (Some (g, is_match))
  | Some d =>
      if first || negb (d =? ch "]") then
        match fuel with
        | O => OutOfFuel
        | S fuel =>
            low ← get_unicode glob g;
            match low with
            | None => Ok (@None (nat * bool))
            | Some (low, low_len, g) =>
                let g := (g + low_len)%nat in
                match glob !! g, glob !! (g + 1)%nat with
                | Some e, Some f =>
                    if (e =? ch "-") && negb (f =? ch "]") then
                      high ← get_unicode glob (g + 1);
                      match high with
                      | None => Ok (@None (nat * bool))
                      | Some (high, high_len, g) =>
                          class_loop fuel glob (g + high_len) c false (is_match || ((low <=? c) && (c <=? high)))
                      end
                    else class_loop fuel glob g c false (is_match || ((low <=? c) && (c <=? low)))
                | _, _ => class_loop fuel glob g c false (is_match || ((low <=? c) && (c <=? low)))
                end
            end
        end
      else Ok (Some (g, is_match))
  end.

(** The arm [b'['], on a path that is not at its end. *)
Definition class_step (s : State) (glob path : list Z) (budget : Z) : outcome StepResult :=
  let g := (glob_index s + 1)%nat in
  let negated := match glob !! g with Some d => (d =? ch "^") || (d =? ch "!") | None => false end in
  let g := if negated then (g + 1)%nat else g in
  cl ← decode_wtf8_rune_at path (path_index s);
  let '(c, len) := cl in
  r ← class_loop (length glob) glob g c true false;
  match r with
  | None => Ok (Return false budget)
  | Some (g, is_match) =>
      if (length glob <=? g)%nat then Ok (Return false budget)
      else
        let s := set_glob s (g + 1) in
        if negb (Bool.eqb is_match negated)
        then Ok (Continue (set_path s (path_index s + len)))
        else Ok (try_backtrack s path budget)
  end.

(** The code after ['to_else]: one literal byte sequence of the pattern. *)
Definition literal_step (s : State) (ch_ : Z) (glob path : list Z) (budget : Z) : outcome StepResult :=
  match path !! path_index s with
  | None => Ok (try_backtrack s path budget)
  | Some pc =>
      match unescape ch_ glob (glob_index s) with
      | None => Ok (Return false budget)
      | Some (cc, g) =>
          let s := set_glob s g in
          let n := Z.to_nat (wtf8_byte_sequence_length cc) in
          let is_match :=
            if cc =? ch "/" then is_separator pc
            else if (1 <? n)%nat then
              (path_index s + n <=? length path)%nat && (g + n <=? length glob)%nat &&
              bool_decide (take n (drop (path_index s) path) = take n (drop g glob))
            else pc =? cc in
          if is_match then
            let s := set_path (set_glob s (g + n)) (path_index s + n) in
            Ok (Continue (if cc =? ch "/" then set_wildcard s (globstar s) else s))
          else Ok (try_backtrack s path budget)
      end
  end.

(** The search for an open brace in the stack: the branch to take again. *)
Fixpoint find_brace (stack : BraceStack) (g : nat) : option nat :=
  match stack with
  | [] => None
  | b :: stack => if (open_brace_idx b =? g)%nat then Some (branch_idx b) else find_brace stack g
  end.

(** A recursive call of the matcher: state, pattern start, stack and budget. *)
Definition Matcher : Type := State -> nat -> BraceStack -> Z -> outcome (bool * Z).

(** [match_brace_branch]; the boolean says whether the branch matched. *)
Definition match_brace_branch (rec : Matcher) (s : State) (open_brace_index branch_index : nat)
    (stack : BraceStack) (budget : Z) : outcome (bool * Z) :=
  if budget =? 0 then Ok (false, budget)
  else
    let budget := budget - 1 in
    if (BRACE_STACK_CAPACITY <=? length stack)%nat then Ok (false, budget)
    else
      let stack := stack ++ [mkBrace open_brace_index branch_index] in
      let branch_state := set_depth (set_glob s branch_index) (Z.of_nat (length stack)) in
      rec branch_state branch_index stack budget.

(** The loop of [match_brace] over the bytes [rest] from index [g]. *)
Fixpoint match_brace_loop (rec : Matcher) (s : State) (open_brace_index : nat) (stack : BraceStack)
    (rest : list Z) (g : nat) (depth : Z) (in_brackets skip : bool) (branch_index : nat) (budget : Z)
    : outcome (bool * Z) :=
  match rest with
  | [] => Ok (false, budget)
  | c :: rest =>
      let continue_ depth in_brackets skip branch_index budget :=
        match_brace_loop rec s open_brace_index stack rest (g + 1) depth in_brackets skip branch_index budget in
      if skip then continue_ depth in_brackets false branch_index budget
      else if c =? ch "{" then
        if in_brackets then continue_ depth in_brackets false branch_index budget
        else
          let depth := i16_add depth 1 in
          continue_ depth in_brackets false (if depth =? 1 then (g + 1)%nat else branch_index) budget
      else if c =? ch "}" then
        if in_brackets then continue_ depth in_brackets false branch_index budget
        else
          let depth := i16_add depth (-1) in
          if depth =? 0 then
            match_brace_branch rec (set_glob s g) open_brace_index branch_index stack budget
          else continue_ depth in_brackets false branch_index budget
      else if c =? ch "," then
        if (depth =? 1) && negb in_brackets then
          r ← match_brace_branch rec (set_glob s g) open_brace_index branch_index stack budget;
          match r with
          | (true, budget) => Ok (true, budget)
          | (false, budget) => continue_ depth in_brackets false (g + 1)%nat budget
          end
        else continue_ depth in_brackets false branch_index budget
      else if c =? ch "[" then continue_ depth true false branch_index budget
      else if c =? ch "]" then continue_ depth false false branch_index budget
      else if c =? ch "\" then continue_ depth in_brackets true branch_index budget
      else continue_ depth in_brackets false branch_index budget
  end.

Definition match_brace (rec : Matcher) (s : State) (glob : list Z) (stack : BraceStack) (budget : Z)
    : outcome (bool * Z) :=
  match_brace_loop rec s (glob_index s) stack (drop (glob_index s) glob) (glob_index s) 0 false false 0 budget.

(** The arms of ['main_loop]. *)
Definition match_step (rec : Matcher) (glob : list Z) (glob_start : nat) (path : list Z) (stack : BraceStack)
    (budget : Z) (s : State) : outcome StepResult :=
  match glob !! glob_index s with
  | None => Ok (try_backtrack s path budget)
  | Some c =>
      if c =? ch "*" then star_step s glob glob_start path
      else if c =? ch "?" then
        match path !! path_index s with
        | Some pc =>
            if negb (is_separator pc) then
              Ok (Continue (set_path (set_glob s (glob_index s + 1))
                                     (path_index s + Z.to_nat (wtf8_byte_sequence_length pc))))
            else Ok (try_backtrack s path budget)
        | None => literal_step s c glob path budget
        end
      else if c =? ch "[" then
        if (path_index s <? length path)%nat then class_step s glob path budget
        else literal_step s c glob path budget
      else if c =? ch "{" then
        match find_brace stack (glob_index s) with
        | Some branch => Ok (Continue (set_depth (set_glob s branch) (u8_add (brace_depth s) 1)))
        | None => r ← match_brace rec s glob stack budget; Ok (Return r.1 r.2)
        end
      else if (c =? ch ",") || (c =? ch "}") then
        if 0 <? brace_depth s then Ok (Continue (skip_branch s glob))
        else literal_step s c glob path budget
      else literal_step s c glob path budget
  end.

(** The indices fit into [u32]. *)
Definition fits_u32 (s : State) : bool :=
  forallb (fun i => Z.of_nat i <=? U32_MAX)
    [path_index s; glob_index s; w_glob_index (wildcard s); w_path_index (wildcard s);
     w_glob_index (globstar s); w_path_index (globstar s)].

(** The loop test, then one iteration; the end of the loop returns [true]. *)
Definition match_iter (rec : Matcher) (glob : list Z) (glob_start : nat) (path : list Z) (stack : BraceStack)
    (budget : Z) (s : State) : outcome StepResult :=
  if (glob_index s <? length glob)%nat || (path_index s <? length path)%nat
  then
    r ← match_step rec glob glob_start path stack budget s;
    match r with
    | Continue s' => if fits_u32 s' then Ok r else Panic
    | Return _ _ => Ok r
    end
  else Ok (Return true budget).

(** [2 ^ n] iterations of the loop, stopping early at a [Return]. *)
Fixpoint match_iters (n : nat) (iter : State -> outcome StepResult) (s : State) : outcome StepResult :=
  match n with
  | O => iter s
  | S n =>
      r ← match_iters n iter s;
      match r with Continue s => match_iters n iter s | Return _ _ => Ok r end
  end.

(** The number of iterations is below [2 ^ fuel_bits]; see [main_loop_returns]. *)
Definition fuel_bits (glob path : list Z) : nat := 7 * S (Nat.log2_up (length glob + length path + 9)).

(** [glob_match_impl]; [depth] bounds the recursion through brace groups. *)
Fixpoint glob_match_impl (depth : nat) (glob path : list Z) (s : State) (glob_start : nat)
    (stack : BraceStack) (budget : Z) : outcome (bool * Z) :=
  match depth with
  | O => OutOfFuel
  | S depth =>
      r ← match_iters (fuel_bits glob path)
            (match_iter (glob_match_impl depth glob path) glob glob_start path stack budget) s;
      match r with
      | Return b budget => Ok (b, budget)
      | Continue _ => OutOfFuel
      end
  end.

(** The leading exclamation marks. *)
Definition glob_match (glob path : list Z) : outcome MatchResult :=
  let bangs := run_length (Z.eqb (ch "!")) glob in
  let negated := Nat.odd bangs in
  r ← glob_match_impl (S BRACE_STACK_CAPACITY) glob path (set_glob State_default bangs) 0 [] BRACE_BRANCH_BUDGET;
  Ok (match negated, fst r with
      | true, true => NegateNoMatch
      | true, false => NegateMatch
      | false, true => Match
      | false, false => NoMatch
      end).
End matcher.

(** ** Totality

    Every iteration that continues increases a key: the globstar to return to, then the glob
    index of the last return to it, the last wildcard, whether a backtrack is pending, and the
    glob index.  Once the path is exhausted and the wildcard lies beyond it, only the glob index
    can move. *)

Lemma wtf8_width_pos c : (1 <= Z.to_nat (wtf8_byte_sequence_length c) <= 4)%nat.
Proof. unfold wtf8_byte_sequence_length. repeat case_match; lia. Qed.

Lemma decode_wtf8_rune_at_returns (l : list Z) i :
  (i < length l)%nat -> returns_with (decode_wtf8_rune_at l i) (fun '(_, n) => (1 <= n <= 4)%nat).
Proof.
  intros Hi. unfold decode_wtf8_rune_at. destruct (l !! i) as [b|] eqn:E; [|apply lookup_ge_None in E; lia].
  rewrite (index_at_ok _ _ _ E). apply returns_with_Ok. apply wtf8_width_pos.
Qed.

Lemma get_unicode_returns glob g :
  (g < length glob)%nat ->
  returns_with (get_unicode glob g)
    (fun r => match r with Some (_, n, g') => (1 <= n)%nat /\ (g <= g')%nat | None => True end).
Proof.
  intros Hg. unfold get_unicode. destruct (glob !! g) as [c|] eqn:E; [|apply lookup_ge_None in E; lia].
  rewrite (index_at_ok _ _ _ E). cbn [mbind outcome_bind]. destruct (c =? _).
  - destruct (glob !! (g + 1)%nat) as [d|] eqn:Ed; [|by apply returns_with_Ok].
    apply lookup_lt_Some in Ed. destruct (memb _ _); [apply returns_with_Ok; lia|].
    eapply returns_with_bind; [by apply decode_wtf8_rune_at_returns|]. intros [cp n] Hn. apply returns_with_Ok. lia.
  - destruct (c <=? 127); [apply returns_with_Ok; lia|].
    eapply returns_with_bind; [by apply decode_wtf8_rune_at_returns|]. intros [cp n] Hn. apply returns_with_Ok. lia.
Qed.

Lemma class_loop_returns fuel glob g c first m :
  (length glob <= fuel + g)%nat ->
  returns_with (class_loop fuel glob g c first m)
    (fun r => match r with Some (g', _) => (g <= g')%nat | None => True end).
Proof.
  revert g first m. induction fuel as [|fuel IH]; intros g first m Hf; cbn [class_loop].
  { by rewrite lookup_ge_None_2 by lia; apply returns_with_Ok. }
  destruct (glob !! g) as [d|] eqn:Ed; [|by apply returns_with_Ok]. apply lookup_lt_Some in Ed as Hg.
  destruct (_ || _); [|by apply returns_with_Ok].
  eapply returns_with_bind; [by apply get_unicode_returns|].
  intros [[[low n] g1]|] Hlow; [|by apply returns_with_Ok]. destruct Hlow as [Hn Hg1].
  assert (Hgo : forall m', returns_with (class_loop fuel glob (g1 + n) c false m')
    (fun r => match r with Some (g', _) => (g <= g')%nat | None => True end)).
  { intros m'. eapply returns_with_mono; [apply IH; lia|]. intros [[g' ?]|]; [lia|done]. }
  destruct (glob !! (g1 + n)%nat) as [e|] eqn:Ee; [|apply Hgo].
  destruct (glob !! (g1 + n + 1)%nat) as [f|] eqn:Ef; [|apply Hgo]. apply lookup_lt_Some in Ef.
  destruct (_ && _); [|apply Hgo].
  eapply returns_with_bind; [apply get_unicode_returns; lia|].
  intros [[[high n2] g2]|] Hhigh; [|by apply returns_with_Ok]. destruct Hhigh as [Hn2 Hg2].
  eapply returns_with_mono; [apply IH; lia|]. intros [[g' ?]|]; [lia|done].
Qed.

Lemma skip_branch_loop_bounds rest g d e ib sk :
  (g <= (skip_branch_loop rest g d e ib sk).1 <= g + length rest + 1)%nat.
Proof.
  revert g d ib sk. induction rest as [|c rest IH]; intros g d ib sk; cbn [skip_branch_loop length].
  { destruct sk; cbn; lia. }
  assert (H : forall d ib sk, (g <= (skip_branch_loop rest (g + 1) d e ib sk).1 <= g + S (length rest) + 1)%nat).
  { intros d' ib' sk'. specialize (IH (g + 1)%nat d' ib' sk'). lia. }
  repeat case_match; subst; cbn [fst]; try lia; apply H.
Qed.

(** The scan of [skip_branch] leaves its first character. *)
Lemma skip_branch_loop_advances c rest g d e :
  (g < (skip_branch_loop (c :: rest) g d e false false).1)%nat.
Proof.
  cbn [skip_branch_loop].
  assert (H : forall d ib sk, (g < (skip_branch_loop rest (g + 1) d e ib sk).1)%nat).
  { intros d' ib' sk'. pose proof (skip_branch_loop_bounds rest (g + 1) d' e ib' sk') as H. lia. }
  repeat case_match; subst; cbn [fst]; try lia; apply H.
Qed.

(** [skip_globstars] lands on a globstar that it does not skip further. *)
Lemma glob_at_lookup (glob : list Z) i lit :
  glob_at glob i lit = true <-> take (length lit) (drop i glob) = lit.
Proof. unfold glob_at. apply bool_decide_eq_true. Qed.

Lemma take_lookup_prefix (l lit : list Z) i k c :
  take (length lit) (drop i l) = lit -> lit !! k = Some c -> l !! (i + k)%nat = Some c.
Proof. intros E Hk. rewrite <- lookup_drop, <- E, lookup_take in *. by case_decide. Qed.

Lemma skip_globstars_loop_returns fuel glob i :
  (length glob <= fuel + i)%nat -> (2 <= i <= length glob)%nat ->
  glob !! (i - 2)%nat = Some (ch "*") -> glob !! (i - 1)%nat = Some (ch "*") ->
  returns_with (skip_globstars_loop fuel glob i) (fun j =>
    (i <= j <= length glob)%nat /\ glob !! (j - 2)%nat = Some (ch "*") /\ glob !! (j - 1)%nat = Some (ch "*") /\
    (j + 4 <=? length glob)%nat && glob_at glob j (str "/**/") = false).
Proof.
  revert i. induction fuel as [|fuel IH]; intros i Hf Hi H1 H2; cbn [skip_globstars_loop].
  - replace (i + 4 <=? length glob)%nat with false by (symmetry; apply Nat.leb_gt; lia).
    cbn [andb]. apply returns_with_Ok. split_and!; try done; try lia.
    apply andb_false_iff. left. apply Nat.leb_gt. lia.
  - destruct ((i + 4 <=? length glob)%nat && glob_at glob i (str "/**/")) eqn:E.
    + apply andb_true_iff in E as [Hle Hat]. apply Nat.leb_le in Hle. apply glob_at_lookup in Hat.
      eapply returns_with_mono; [apply IH; try lia|].
      * replace (i + 3 - 2)%nat with (i + 1)%nat by lia. by eapply take_lookup_prefix.
      * replace (i + 3 - 1)%nat with (i + 2)%nat by lia. by eapply take_lookup_prefix.
      * intros j (Hj & ? & ? & ?). split_and!; try done; lia.
    + apply returns_with_Ok. split_and!; done || lia.
Qed.

Definition two_stars (glob : list Z) (g : nat) : Prop :=
  glob !! g = Some (ch "*") /\ glob !! (g + 1)%nat = Some (ch "*").

Lemma skip_globstars_fixed glob g :
  (g + 2 <= length glob)%nat ->
  (g + 2 + 4 <=? length glob)%nat && glob_at glob (g + 2) (str "/**/") = false ->
  (g + 2 + 3 =? length glob)%nat && glob_at glob (g + 2) (str "/**") = false ->
  skip_globstars glob g = Ok g.
Proof.
  intros Hg H1 H2. unfold skip_globstars.
  assert (E : skip_globstars_loop (length glob) glob (g + 2) = Ok (g + 2)%nat)
    by (destruct (length glob) eqn:El; cbn [skip_globstars_loop]; rewrite El; by rewrite H1).
  rewrite E. cbn [mbind outcome_bind]. rewrite H2. f_equal. lia.
Qed.

Lemma skip_globstars_returns glob g :
  two_stars glob g ->
  returns_with (skip_globstars glob g) (fun g' =>
    (g <= g')%nat /\ (g' + 2 <= length glob)%nat /\ two_stars glob g' /\ skip_globstars glob g' = Ok g').
Proof.
  intros [H1 H2]. apply lookup_lt_Some in H2 as Hlt. unfold skip_globstars at 1.
  eapply returns_with_bind.
  { apply skip_globstars_loop_returns; [lia|lia| |].
    - by replace (g + 2 - 2)%nat with g by lia.
    - by replace (g + 2 - 1)%nat with (g + 1)%nat by lia. }
  intros j (Hj & J1 & J2 & Hno).
  destruct ((j + 3 =? length glob)%nat && glob_at glob j (str "/**")) eqn:E.
  - apply andb_true_iff in E as [Hle Hat]. apply Nat.eqb_eq in Hle. apply glob_at_lookup in Hat.
    apply returns_with_Ok. replace (j + 3 - 2)%nat with (j + 1)%nat by lia.
    split_and!; [lia|lia|split|].
    + by eapply take_lookup_prefix.
    + replace (j + 1 + 1)%nat with (j + 2)%nat by lia. by eapply take_lookup_prefix.
    + apply skip_globstars_fixed; [lia| |].
      * apply andb_false_iff. left. apply Nat.leb_gt. lia.
      * apply andb_false_iff. left. apply Nat.eqb_neq. lia.
  - apply returns_with_Ok. split_and!; [lia|lia|split|].
    + done.
    + by replace (j - 2 + 1)%nat with (j - 1)%nat by lia.
    + apply skip_globstars_fixed; replace (j - 2 + 2)%nat with j by lia; [lia|done|done].
Qed.

(** Strict lexicographic order of keys of one length, and their value in base [B]. *)
Fixpoint lex_lt (l k : list Z) : Prop :=
  match l, k with
  | a :: l, b :: k => a < b \/ (a = b /\ lex_lt l k)
  | _, _ => False
  end.

Definition digits_ok (B : Z) (l : list Z) : Prop := Forall (fun d => 0 <= d < B) l.

Fixpoint key_value (B acc : Z) (l : list Z) : Z :=
  match l with [] => acc | d :: l => key_value B (acc * B + d) l end.

Lemma key_value_acc B a b (l k : list Z) :
  a < b -> length l = length k -> digits_ok B l -> digits_ok B k -> key_value B a l < key_value B b k.
Proof.
  revert a b k. induction l as [|d l IH]; intros a b [|e k] Hab Hlen Hl Hk; try done.
  inversion Hl; inversion Hk; subst. cbn [key_value]. apply IH; try done; [nia|]. by injection Hlen.
Qed.

Lemma key_value_lex B acc (l k : list Z) :
  lex_lt l k -> length l = length k -> digits_ok B l -> digits_ok B k ->
  key_value B acc l < key_value B acc k.
Proof.
  revert acc k. induction l as [|d l IH]; intros acc [|e k] Hlex Hlen Hl Hk; try done.
  inversion Hl; inversion Hk; subst. cbn [key_value]. injection Hlen as Hlen.
  destruct Hlex as [Hlt|[-> Hlex]]; [|by apply IH]. apply key_value_acc; done || lia.
Qed.

Lemma key_value_bounds B acc (l : list Z) :
  0 <= acc -> digits_ok B l -> 0 <= key_value B acc l < (acc + 1) * B ^ Z.of_nat (length l).
Proof.
  revert acc. induction l as [|d l IH]; intros acc Hacc Hl; [simpl; lia|].
  inversion Hl as [|? ? Hd Hl']; subst. cbn [key_value length].
  specialize (IH (acc * B + d) ltac:(nia) Hl'). rewrite Nat2Z.inj_succ, Z.pow_succ_r by lia.
  assert (0 <= B ^ Z.of_nat (length l)) by (apply Z.pow_nonneg; lia). nia.
Qed.

Section totality.
Context (windows : bool) (glob path : list Z).

Let G : nat := length glob.
Let P : nat := length path.

Context (Hglob : Z.of_nat (length glob) < 2 ^ 32 - 6) (Hpath : Z.of_nat (length path) < 2 ^ 32 - 6).

(** The path is exhausted and no wildcard can be returned to. *)
Definition dead (s : State) : Prop := (P <= path_index s)%nat /\ (P < w_path_index (wildcard s))%nat.

#[local] Instance dead_dec s : Decision (dead s).
Proof. unfold dead. apply _. Defined.

(** A globstar that the loop re-enters as one when it returns to it. *)
Definition globstar_at (start g : nat) : Prop :=
  two_stars glob g /\ skip_globstars glob g = Ok g /\
  ((g + 2 - start < 3)%nat \/ glob !! (g - 1)%nat = Some (ch "/")) /\
  ((g + 2 < G)%nat -> glob !! (g + 2)%nat = Some (ch "/")).

Definition same_position (w v : Wildcard) : Prop :=
  w_glob_index w = w_glob_index v /\ w_path_index w = w_path_index v.

(** The state was just reset to its wildcard. *)
Definition pending (s : State) : Prop :=
  glob_index s = w_glob_index (wildcard s) /\ path_index s = w_path_index (wildcard s) /\
  (0 < w_path_index (wildcard s) <= P)%nat.

Definition pending_bit (s : State) : Z :=
  if decide (glob_index s = w_glob_index (wildcard s) /\ (0 < w_path_index (wildcard s))%nat) then 1 else 0.

(** [r] is the glob index of the last return of the wildcard to the globstar. *)
Record live (start : nat) (s : State) (r : nat) : Prop := {
  live_globstar : (0 < w_path_index (globstar s))%nat -> globstar_at start (w_glob_index (globstar s));
  live_star : (0 < w_path_index (wildcard s))%nat -> glob !! w_glob_index (wildcard s) = Some (ch "*");
  live_unset : w_path_index (wildcard s) = 0%nat -> w_path_index (globstar s) = 0%nat /\ w_glob_index (wildcard s) = 0%nat;
  live_gs_unset : w_path_index (globstar s) = 0%nat -> w_glob_index (globstar s) = 0%nat;
  live_order : same_position (wildcard s) (globstar s) \/
    ((r <= w_glob_index (wildcard s))%nat /\
     (w_path_index (globstar s) = 0%nat \/ (w_glob_index (globstar s) < w_glob_index (wildcard s))%nat));
  live_place : pending s \/
    ((w_path_index (wildcard s) = 0%nat \/ (w_glob_index (wildcard s) < glob_index s)%nat) /\ (r <= glob_index s)%nat);
}.

Record in_bounds (s : State) (r : nat) : Prop := {
  b_glob : (glob_index s <= G + 1)%nat;
  b_path : (path_index s <= P + 4)%nat;
  b_wg : (w_glob_index (wildcard s) <= G)%nat;
  b_wp : (w_path_index (wildcard s) <= P + 6)%nat;
  b_gg : (w_glob_index (globstar s) <= G)%nat;
  b_gp : (w_path_index (globstar s) <= P + 6)%nat;
  b_r : (r <= G + 1)%nat;
}.

Definition inv (start : nat) (s : State) (r : nat) : Prop := in_bounds s r /\ (dead s \/ live start s r).

Definition key (s : State) (r : nat) : list Z :=
  if decide (dead s) then [1; 0; 0; 0; 0; 0; 0; Z.of_nat (glob_index s)]
  else [0; Z.of_nat (w_glob_index (globstar s)); Z.of_nat (w_path_index (globstar s)); Z.of_nat r;
        Z.of_nat (w_glob_index (wildcard s)); Z.of_nat (w_path_index (wildcard s)); pending_bit s;
        Z.of_nat (glob_index s)].

(** The new state keeps the invariant and the key has grown. *)
Definition progress (start : nat) (s : State) (r : nat) (s' : State) : Prop :=
  exists r', inv start s' r' /\ lex_lt (key s r) (key s' r').

Lemma key_grows s r s' r' :
  (dead s -> dead s' /\ (glob_index s < glob_index s')%nat) ->
  (~ dead s -> ~ dead s' ->
    lex_lt [Z.of_nat (w_glob_index (globstar s)); Z.of_nat (w_path_index (globstar s)); Z.of_nat r;
        Z.of_nat (w_glob_index (wildcard s)); Z.of_nat (w_path_index (wildcard s)); pending_bit s; Z.of_nat (glob_index s)]
      [Z.of_nat (w_glob_index (globstar s')); Z.of_nat (w_path_index (globstar s')); Z.of_nat r';
        Z.of_nat (w_glob_index (wildcard s')); Z.of_nat (w_path_index (wildcard s')); pending_bit s'; Z.of_nat (glob_index s')]) ->
  lex_lt (key s r) (key s' r').
Proof.
  intros Hd Hl. unfold key. destruct (decide (dead s)) as [D|D].
  - destruct (Hd D) as [D' Hg]. rewrite decide_True by done. simpl. lia.
  - destruct (decide (dead s')) as [D'|D']; [simpl; lia|]. right. split; [done|]. by apply Hl.
Qed.

(** A forward step with the same wildcards. *)
Lemma forward_ok start s r s' :
  inv start s r -> ~ pending s \/ dead s -> wildcard s' = wildcard s -> globstar s' = globstar s ->
  (glob_index s < glob_index s' <= G + 1)%nat -> (path_index s <= path_index s' <= P + 4)%nat ->
  progress start s r s'.
Proof.
  intros [Hb Hl] Hnp Hw Hgs Hg Hp. destruct Hb. exists r. split.
  - split; [constructor; rewrite ?Hw, ?Hgs; lia|].
    destruct Hl as [[D1 D2]|[L1 L2 L3 L4 L5 L6]]; [left; split; rewrite ?Hw; lia|].
    destruct (decide (dead s)) as [[D1 D2]|ND]; [left; split; rewrite ?Hw; lia|].
    right. constructor; rewrite ?Hw, ?Hgs; try done. right.
    destruct L6 as [Hpe|[H1 H2]]; [by destruct Hnp|]. split; [|lia]. destruct H1; [by left|right; lia].
  - apply key_grows.
    + intros [D1 D2]. split; [split; rewrite ?Hw; lia|lia].
    + intros ND _. rewrite Hw, Hgs. unfold pending_bit. rewrite Hw.
      destruct Hl as [|[L1 L2 L3 L4 L5 L6]]; [done|].
      assert (H6 : w_path_index (wildcard s) = 0%nat \/ (w_glob_index (wildcard s) < glob_index s)%nat).
      { destruct L6 as [Hpe|[H1 _]]; [by destruct Hnp|done]. }
      do 5 (right; split; [done|]).
      rewrite !decide_False by lia. right. split; [done|]. left. lia.
Qed.

(** Steps of a dead state that only keep it dead. *)
Lemma dead_forward_ok start s r s' :
  inv start s r -> dead s -> dead s' -> (glob_index s < glob_index s' <= G + 1)%nat ->
  (path_index s' <= P + 4)%nat -> (w_glob_index (wildcard s') <= G)%nat -> (w_path_index (wildcard s') <= P + 6)%nat ->
  (w_glob_index (globstar s') <= G)%nat -> (w_path_index (globstar s') <= P + 6)%nat ->
  progress start s r s'.
Proof.
  intros [Hb _] D D' Hg Hp H1 H2 H3 H4. destruct Hb. exists r. split; [split; [constructor; lia|by left]|].
  apply key_grows; [intros _; split; [done|lia]|done].
Qed.

(** Entering the dead phase. *)
Lemma die_ok start s r s' :
  inv start s r -> ~ dead s -> dead s' -> (glob_index s' <= G + 1)%nat ->
  (path_index s' <= P + 4)%nat -> (w_glob_index (wildcard s') <= G)%nat -> (w_path_index (wildcard s') <= P + 6)%nat ->
  (w_glob_index (globstar s') <= G)%nat -> (w_path_index (globstar s') <= P + 6)%nat ->
  progress start s r s'.
Proof.
  intros [Hb _] ND D' Hg Hp H1 H2 H3 H4. destruct Hb. exists r. split; [split; [constructor; lia|by left]|].
  apply key_grows; done.
Qed.

(** A failed step: return to the wildcard. *)
Lemma try_backtrack_ok start s r s0 budget :
  inv start s r -> ~ pending s \/ dead s -> wildcard s0 = wildcard s -> globstar s0 = globstar s ->
  match try_backtrack s0 path budget with Continue s' => progress start s r s' | Return _ _ => True end.
Proof.
  intros [Hb Hl] Hnp Hw Hgs. unfold try_backtrack. rewrite Hw. fold P.
  destruct (Nat.ltb_spec 0 (w_path_index (wildcard s))) as [H0|H0]; cbn [andb]; [|done].
  destruct (Nat.leb_spec (w_path_index (wildcard s)) P) as [H1|H1]; [|done].
  assert (ND : ~ dead s) by (intros [_ ?]; lia). destruct Hnp as [Hnp|D]; [|done].
  destruct Hl as [|[L1 L2 L3 L4 L5 L6]]; [done|]. destruct Hb. unfold backtrack. rewrite Hw, Hgs.
  exists r. split.
  - split; [constructor; cbn; lia|]. right. constructor; cbn; try done. left. done.
  - apply key_grows; [done|]. intros _ _. unfold pending_bit. cbn. do 5 (right; split; [done|]). left.
    rewrite decide_False; [rewrite decide_True by (split; [done|lia]); lia|].
    destruct L6 as [?|[[?|?] _]]; [done|lia|lia].
Qed.

(** Returning to the globstar after progress on a live path. *)
Lemma reset_ok start s r s' :
  inv start s r -> (pending s -> ~ same_position (wildcard s) (globstar s)) -> (path_index s < P)%nat ->
  wildcard s' = globstar s -> globstar s' = globstar s ->
  (glob_index s < glob_index s' <= G + 1)%nat -> (path_index s' <= P + 4)%nat ->
  progress start s r s'.
Proof.
  intros [Hb Hl] Hnp HP Hw Hgs Hg Hp. destruct Hb. exists (glob_index s').
  assert (ND : ~ dead s) by (intros [? _]; lia).
  destruct Hl as [|[L1 L2 L3 L4 L5 L6]]; [done|].
  assert (Hr : (r <= glob_index s)%nat /\
    (w_path_index (globstar s) = 0%nat \/ (w_glob_index (globstar s) < glob_index s)%nat)).
  { destruct L6 as [Hpe|[L6 L7]].
    - destruct L5 as [?|[H1 H2]]; [by destruct (Hnp Hpe)|]. destruct Hpe as (-> & _). done.
    - split; [done|]. destruct (decide (w_path_index (globstar s) = 0)%nat); [by left|right].
      destruct L5 as [[E1 E2]|[_ [?|?]]]; lia. }
  split.
  - split; [constructor; rewrite ?Hw, ?Hgs; lia|]. right. constructor; rewrite ?Hw, ?Hgs; try done.
    + intros H. destruct (L1 H) as [[? _] _]. done.
    + intros H. split; [done|]. by apply L4.
    + by left.
    + right. lia.
  - apply key_grows; [done|]. intros _ _. rewrite Hgs. do 2 (right; split; [done|]). left. lia.
Qed.

(** A star that becomes the wildcard. *)
Lemma star_wildcard_ok start s r s' k :
  inv start s r -> (path_index s < P -> pending s -> ~ same_position (wildcard s) (globstar s))%nat ->
  let w := wildcard s' in
  glob !! w_glob_index w = Some (ch "*") -> w_path_index w = (path_index s + k)%nat -> (1 <= k)%nat ->
  (path_index s + k <= P + 6)%nat -> (path_index s = P -> P < path_index s + k)%nat ->
  globstar s' = globstar s -> path_index s' = path_index s ->
  (glob_index s <= w_glob_index w)%nat -> (w_glob_index w < glob_index s' <= G + 1)%nat ->
  progress start s r s'.
Proof.
  intros Hinv Hnp w Hstar Hwp Hk Hk6 HkP Hgs Hp Hg Hg'. pose proof (lookup_lt_Some _ _ _ Hstar) as HwG. fold G in HwG.
  unfold w in *. destruct (decide (P <= path_index s)%nat) as [HP|HP].
  { pose proof Hinv as [[] _]. assert (dead s') by (split; lia).
    destruct (decide (dead s)); [eapply dead_forward_ok|eapply die_ok]; try done; try lia; rewrite Hgs; lia. }
  pose proof Hinv as [Hb Hl]. destruct Hb.
  assert (ND : ~ dead s) by (intros [? _]; lia). assert (ND' : ~ dead s') by (intros [? _]; lia).
  destruct Hl as [|[L1 L2 L3 L4 L5 L6]]; [done|].
  assert (HP' : (path_index s < P)%nat) by lia.
  assert (Hr : (r <= w_glob_index (wildcard s'))%nat /\
    (w_path_index (globstar s) = 0%nat \/ (w_glob_index (globstar s) < w_glob_index (wildcard s'))%nat) /\
    (w_glob_index (wildcard s) < w_glob_index (wildcard s') \/
     (w_glob_index (wildcard s) <= w_glob_index (wildcard s') /\ w_path_index (wildcard s) <= path_index s))%nat).
  { destruct L6 as [Hpe|[L6 L7]].
    - destruct L5 as [?|[H1 H2]]; [by destruct (Hnp HP' Hpe)|]. destruct Hpe as (E1 & E2 & _). lia.
    - split; [lia|]. destruct (decide (w_path_index (wildcard s) = 0)%nat) as [E|E].
      + destruct (L3 E) as [E1 E2]. lia.
      + split; [|lia]. destruct (decide (w_path_index (globstar s) = 0)%nat); [by left|right].
        destruct L5 as [[E1 E2]|[_ [?|?]]]; lia. }
  destruct Hr as (Hr1 & Hr2 & Hr3). exists r. split.
  - split; [constructor; rewrite ?Hgs; lia|]. right. constructor; rewrite ?Hgs; try done; try lia.
  - apply key_grows; [done|]. intros _ _. rewrite Hgs. do 3 (right; split; [done|]).
    destruct Hr3 as [?|[? ?]]; [left; lia|].
    destruct (decide (w_glob_index (wildcard s) = w_glob_index (wildcard s'))) as [E|E]; [|left; lia].
    right. split; [lia|]. left. lia.
Qed.

(** A globstar that becomes the wildcard. *)
Lemma star_globstar_ok start s r s' :
  inv start s r -> (path_index s < P)%nat ->
  globstar_at start (w_glob_index (wildcard s')) -> globstar s' = wildcard s' ->
  (path_index s < w_path_index (wildcard s') <= P + 6)%nat -> path_index s' = path_index s ->
  (glob_index s <= w_glob_index (wildcard s') < glob_index s')%nat -> (glob_index s' <= G + 1)%nat ->
  progress start s r s'.
Proof.
  intros Hinv HP Hat Hgs Hwp Hp Hg Hg'. destruct Hat as [[Hstar Hstar2] Hat].
  pose proof (lookup_lt_Some _ _ _ Hstar) as HwG. fold G in HwG.
  pose proof Hinv as [Hb Hl]. destruct Hb.
  assert (ND : ~ dead s) by (intros [? _]; lia).
  destruct Hl as [|[L1 L2 L3 L4 L5 L6]]; [done|]. exists 0%nat. split.
  - split; [constructor; rewrite ?Hgs; lia|]. right. constructor; rewrite ?Hgs; try done; try lia.
    by left.
  - apply key_grows; [done|]. intros _ _. rewrite Hgs.
    assert (Hlt : (w_glob_index (globstar s) < w_glob_index (wildcard s'))%nat \/
      (w_glob_index (globstar s) <= w_glob_index (wildcard s') /\ w_path_index (globstar s) <= path_index s)%nat).
    { destruct (decide (w_path_index (globstar s) = 0)%nat) as [E|E]; [rewrite (L4 E); right; lia|].
      destruct L6 as [(E1 & E2 & E3)|[L6 _]].
      - destruct L5 as [[F1 F2]|[_ [?|?]]]; lia.
      - destruct L6 as [F|F]; [by destruct (L3 F)|]. destruct L5 as [[F1 F2]|[_ [?|?]]]; lia. }
    destruct Hlt as [?|[? ?]]; [left; lia|].
    destruct (decide (w_glob_index (globstar s) = w_glob_index (wildcard s'))) as [E|E]; [|left; lia].
    right. split; [lia|]. left. lia.
Qed.

Lemma char_is_ok i p : (i < G)%nat -> exists c, glob !! i = Some c /\ char_is glob i p = Ok (p c).
Proof.
  intros Hi. destruct (glob !! i) as [c|] eqn:E; [|apply lookup_ge_None in E; lia].
  exists c. split; [done|]. unfold char_is. by rewrite (index_at_ok _ _ _ E).
Qed.

Lemma sep_at_lt i : sep_at windows path i = true -> (i < P)%nat.
Proof. unfold sep_at. destruct (path !! i) eqn:E; [|done]. intros _. by apply lookup_lt_Some in E. Qed.

(** The width of the path character under a star. *)
Lemma star_width s k :
  (path_index s <= P + 4)%nat ->
  k = match path !! path_index s with Some c => Z.to_nat (wtf8_byte_sequence_length c) | None => 1%nat end ->
  (1 <= k)%nat /\ (path_index s + k <= P + 5)%nat /\ (path_index s = P -> k = 1)%nat.
Proof.
  intros Hp ->. destruct (path !! path_index s) as [c|] eqn:E; [|lia].
  apply lookup_lt_Some in E. pose proof (wtf8_width_pos c). fold P in E. lia.
Qed.

(** The end of a star that is no globstar. *)
Lemma star_finish_ok start s r s' :
  inv start s r -> (path_index s < P -> pending s -> ~ same_position (wildcard s) (globstar s))%nat ->
  glob !! w_glob_index (wildcard s') = Some (ch "*") ->
  (path_index s < w_path_index (wildcard s') <= P + 6)%nat ->
  globstar s' = globstar s -> path_index s' = path_index s ->
  (glob_index s <= w_glob_index (wildcard s') < glob_index s')%nat -> (glob_index s' <= G + 1)%nat ->
  progress start s r (if sep_at windows path (path_index s') then set_wildcard s' (globstar s') else s').
Proof.
  intros Hinv Hnp Hstar Hw Hgs Hp Hg Hg'. pose proof Hinv as [[] _].
  destruct (sep_at windows path (path_index s')) eqn:Es.
  - apply sep_at_lt in Es. rewrite Hp in Es.
    eapply reset_ok; try done; [auto|cbn; lia|cbn; lia].
  - eapply (star_wildcard_ok start s r s' (w_path_index (wildcard s') - path_index s)); try done; lia.
Qed.

(** The jump to the next separator behind a globstar at [g]. *)
Lemma globstar_entered_ok start s r g k d :
  inv start s r -> globstar_at start g -> (glob_index s <= g)%nat -> (g + 2 <= G)%nat ->
  let s1 := mkState (path_index s) (g + 2) (mkWildcard g (path_index s + k) d) (globstar s) (brace_depth s) in
  (1 <= k)%nat -> (path_index s + k <= P + 5)%nat -> (path_index s = P -> k = 1)%nat ->
  progress start s r (skip_to_separator windows
    (if (g + 2 <? G)%nat then set_glob s1 (g + 2 + 1) else s1) path (g + 2 <? G)%nat).
Proof.
  intros Hinv Hat Hg Hg2 s1 Hk1 Hk2 Hk3. pose proof Hinv as [[] Hl].
  set (e := (g + 2 <? G)%nat). set (s2 := if e then _ else _).
  assert (H2 : path_index s2 = path_index s /\ wildcard s2 = wildcard s1 /\ globstar s2 = globstar s /\
    (g + 2 <= glob_index s2 <= G + 1)%nat).
  { unfold s2, e. destruct (Nat.ltb_spec (g + 2) G); cbn; split_and!; done || lia. }
  destruct H2 as (Hp2 & Hw2 & Hgs2 & Hg3). unfold skip_to_separator. rewrite Hp2. fold P.
  destruct (Nat.eqb_spec (path_index s) P) as [HP|HP].
  - apply (star_wildcard_ok start s r _ (k + 1)); cbn; rewrite ?Hw2; cbn; try done; try lia; try apply Hat; intros; lia.
  - set (n := run_length _ _).
    assert (Hn : (path_index s < P -> path_index s + n <= P)%nat).
    { intros HP'. unfold n. pose proof (run_length_le (fun c => negb (is_separator windows c)) (drop (path_index s) path)) as Hr.
      rewrite length_drop in Hr. fold P in Hr. lia. }
    assert (Hn' : (P < path_index s -> n = 0)%nat).
    { intros HP'. unfold n. by rewrite drop_ge by (fold P; lia). }
    set (p' := if e || negb (path_index s + n =? P)%nat then (path_index s + n + 1)%nat else (path_index s + n)%nat).
    assert (Hp' : (path_index s < p' /\ p' <= P + 6)%nat).
    { unfold p'. destruct (e || negb (path_index s + n =? P)%nat) eqn:E; [lia|].
      apply orb_false_iff in E as [_ E]. apply negb_false_iff, Nat.eqb_eq in E. lia. }
    destruct (decide (path_index s < P)%nat) as [HP'|HP'].
    + apply star_globstar_ok; cbn; rewrite ?Hw2; cbn; done || lia.
    + assert (D' : dead (mkState (path_index s2) (glob_index s2) (set_w_path (wildcard s2) p') (set_w_path (wildcard s2) p') (brace_depth s2)))
        by (split; cbn; lia).
      destruct (decide (dead s)); [eapply dead_forward_ok|eapply die_ok]; cbn; rewrite ?Hw2; cbn; try done; try lia; split; cbn; lia.
Qed.

Lemma star_step_ok start s r :
  inv start s r -> glob !! glob_index s = Some (ch "*") ->
  returns_with (star_step windows s glob start path)
    (fun res => match res with Continue s' => progress start s r s' | Return _ _ => True end).
Proof.
  intros Hinv Hstar. pose proof Hinv as [Hb Hl]. pose proof Hb as [].
  apply lookup_lt_Some in Hstar as HgG. fold G in HgG.
  unfold star_step. set (k := match path !! path_index s with Some _ => _ | None => _ end).
  destruct (star_width s k) as (Hk1 & Hk2 & Hk3); [done|done|]. clearbody k.
  (* a wildcard equal to the globstar was recorded at a globstar *)
  assert (Hsame : (path_index s < P)%nat -> pending s -> same_position (wildcard s) (globstar s) ->
    globstar_at start (glob_index s)).
  { intros HP (E1 & E2 & E3) [F1 F2]. destruct Hl as [[? _]|[L1 _ _ _ _ _]]; [lia|].
    rewrite E1, F1. apply L1. lia. }
  case_bool_decide as Htwo; cbn [mbind outcome_bind].
  2: { apply returns_with_Ok. cbv zeta. apply star_finish_ok; cbn; try done; try lia.
       intros HP Hpe Hs. destruct (Hsame HP Hpe Hs) as [[_ ?] _]. done. }
  destruct (skip_globstars_returns glob (glob_index s)) as (g & Eg & Hgle & Hg2 & Hg2s & Hfix); [done|].
  fold G in Hg2. rewrite Eg. cbn [mbind outcome_bind]. cbv zeta. cbn [set_glob set_wildcard glob_index path_index wildcard globstar brace_depth].
  assert (HsameG : (path_index s < P)%nat -> pending s -> same_position (wildcard s) (globstar s) ->
    globstar_at start g /\ g = glob_index s).
  { intros HP Hpe Hs. pose proof (Hsame HP Hpe Hs) as Hat. pose proof Hat as (_ & Hf & _).
    assert (g = glob_index s) as -> by congruence. done. }
  fold G P. apply (returns_with_bind _ _ (fun b => b = true -> path_index s = P)).
  { destruct (Nat.ltb_spec (g + 2) G); cbn [andb]; [|by apply returns_with_Ok].
    destruct (Nat.eqb_spec (path_index s) P); cbn [andb]; [|by apply returns_with_Ok].
    destruct (Nat.eqb_spec (G - (g + 2)) 2); [|by apply returns_with_Ok].
    unfold char_is2. destruct (char_is_ok (g + 2) (is_separator windows)) as (c & Ec & _); [lia|].
    rewrite (index_at_ok _ _ _ Ec). cbn [mbind outcome_bind].
    destruct (is_separator windows c); [|by apply returns_with_Ok].
    destruct (char_is_ok (g + 2 + 1) (Z.eqb (ch "*"))) as (d & _ & ->); [lia|]. by apply returns_with_Ok. }
  intros [|] Hlast.
  { apply returns_with_Ok. apply (star_wildcard_ok start s r _ k); cbn; try done; try lia; try apply Hg2s.
    all: intros; specialize (Hlast eq_refl); lia. }
  apply (returns_with_bind _ _ (fun b => b = true <-> (g + 2 - start < 3)%nat \/ glob !! (g - 1)%nat = Some (ch "/"))).
  { destruct (Nat.ltb_spec (g + 2 - start) 3); [apply returns_with_Ok; split; auto|].
    destruct (char_is_ok (g + 2 - 3) (Z.eqb (ch "/"))) as (c & Ec & ->); [lia|]. apply returns_with_Ok.
    replace (g + 2 - 3)%nat with (g - 1)%nat in Ec by lia. rewrite Ec, Z.eqb_eq. split; [intros <-; by right|].
    intros [?|[= ->]]; [lia|done]. }
  intros starts Hstarts.
  apply (returns_with_bind _ _ (fun b => b = true <->
    starts = true /\ ((g + 2 < G)%nat -> glob !! (g + 2)%nat = Some (ch "/")))).
  { destruct starts; [|apply returns_with_Ok; naive_solver].
    destruct (Nat.ltb_spec (g + 2) G); [|apply returns_with_Ok; split; [intros _; split; [done|lia]|done]].
    destruct (char_is_ok (g + 2) (Z.eqb (ch "/"))) as (c & Ec & ->); [lia|]. apply returns_with_Ok.
    rewrite Ec, Z.eqb_eq. split; [intros <-; done|]. intros [_ H1]. specialize (H1 ltac:(lia)). by injection H1. }
  intros [|] Hends.
  - assert (Hat : globstar_at start g).
    { destruct Hends as [Hends _]. destruct (Hends eq_refl) as [-> He]. split_and!; try done. by apply Hstarts. }
    apply returns_with_Ok. exact (globstar_entered_ok start s r g k (brace_depth s) Hinv Hat Hgle Hg2 Hk1 Hk2 Hk3).
  - apply returns_with_Ok. match goal with |- progress _ _ _ (if _ then _ else ?x) => apply (star_finish_ok start s r x) end; cbn; try done; try lia; [|apply Hg2s].
    intros HP Hpe Hs. destruct (HsameG HP Hpe Hs) as [(_ & _ & H1 & H2) _].
    destruct Hends as [_ Hends]. discriminate Hends. split; [by apply Hstarts|done].
Qed.

(** Any state at a character other than a star is not pending. *)
Lemma not_pending start s r c :
  inv start s r -> glob !! glob_index s = c -> c <> Some (ch "*") -> ~ pending s \/ dead s.
Proof.
  intros [_ [D|[_ L2 _ _ _ _]]] Hc Hne; [by right|left]. intros (E1 & _ & E3).
  apply Hne. rewrite <- Hc, E1. apply L2. lia.
Qed.

Lemma reset_forward_ok start s r s' :
  inv start s r -> ~ pending s \/ dead s -> (path_index s < P)%nat ->
  wildcard s' = globstar s -> globstar s' = globstar s ->
  (glob_index s < glob_index s' <= G + 1)%nat -> (path_index s' <= P + 4)%nat ->
  progress start s r s'.
Proof.
  intros Hinv [Hnp|[D _]] HP; [|lia]. apply reset_ok; [done| |done]. intros Hp. by destruct Hnp.
Qed.

Definition step_ok start s r (res : StepResult) : Prop :=
  match res with Continue s' => progress start s r s' | Return _ _ => True end.

Lemma literal_step_ok start s r c budget :
  inv start s r -> ~ pending s \/ dead s -> glob !! glob_index s = Some c ->
  returns_with (literal_step windows s c glob path budget) (step_ok start s r).
Proof.
  intros Hinv Hnp Hc. pose proof Hinv as [[] _]. apply lookup_lt_Some in Hc as HgG. fold G in HgG.
  unfold literal_step. destruct (path !! path_index s) as [pc|] eqn:Ep.
  2: { apply returns_with_Ok. by apply try_backtrack_ok. }
  apply lookup_lt_Some in Ep as HpP. fold P in HpP.
  assert (Hu : forall cc g, unescape c glob (glob_index s) = Some (cc, g) -> (glob_index s <= g < G)%nat).
  { unfold unescape. destruct (c =? _); [|intros ? ? [= _ <-]; lia].
    destruct (glob !! (glob_index s + 1)%nat) eqn:E; [|done]. intros ? ? [= _ <-].
    apply lookup_lt_Some in E. fold G in E. lia. }
  destruct (unescape c glob (glob_index s)) as [[cc g]|]; [|by apply returns_with_Ok].
  specialize (Hu cc g eq_refl). cbn [set_glob path_index]. pose proof (wtf8_width_pos cc) as Hw.
  set (n := Z.to_nat (wtf8_byte_sequence_length cc)) in *. fold G P.
  destruct (Z.eqb_spec cc (ch "/")) as [->|Hcc].
  - assert (n = 1%nat) as -> by done. destruct (is_separator windows pc); apply returns_with_Ok; cbn [step_ok].
    + apply reset_forward_ok; cbn; try done; lia.
    + by apply try_backtrack_ok.
  - destruct (Nat.ltb_spec 1 n).
    + destruct (Nat.leb_spec (path_index s + n) P); cbn [andb]; [|apply returns_with_Ok; by apply try_backtrack_ok].
      destruct (Nat.leb_spec (g + n) G); cbn [andb]; [|apply returns_with_Ok; by apply try_backtrack_ok].
      case_bool_decide; apply returns_with_Ok; [|by apply try_backtrack_ok].
      apply forward_ok; cbn; try done; lia.
    + destruct (pc =? cc); apply returns_with_Ok; [|by apply try_backtrack_ok].
      apply forward_ok; cbn; try done; lia.
Qed.

Lemma class_step_ok start s r budget :
  inv start s r -> ~ pending s \/ dead s -> (glob_index s < G)%nat -> (path_index s < P)%nat ->
  returns_with (class_step s glob path budget) (step_ok start s r).
Proof.
  intros Hinv Hnp Hg Hp. pose proof Hinv as [[] _]. unfold class_step.
  set (negated := match glob !! (glob_index s + 1)%nat with Some _ => _ | None => _ end).
  set (g := if negated then _ else _).
  assert (Hg' : (glob_index s < g)%nat) by (unfold g; destruct negated; lia). clearbody g.
  eapply returns_with_bind; [by apply decode_wtf8_rune_at_returns|]. intros [c len] Hlen.
  eapply returns_with_bind; [apply class_loop_returns; lia|].
  intros [[g' m]|] Hg2; [|by apply returns_with_Ok].
  destruct (Nat.leb_spec (length glob) g') as [?|HgG]; [by apply returns_with_Ok|]. fold G in HgG.
  destruct (negb _); apply returns_with_Ok; cbn [step_ok].
  - apply forward_ok; cbn; try done; lia.
  - by apply try_backtrack_ok.
Qed.

(** ** Brace groups *)

Definition stack_ok (stack : BraceStack) : Prop :=
  Forall (fun b => (open_brace_idx b < branch_idx b <= G)%nat) stack /\ (length stack <= BRACE_STACK_CAPACITY)%nat.

Lemma find_brace_ok stack g b : stack_ok stack -> find_brace stack g = Some b -> (g < b <= G)%nat.
Proof.
  intros [H _]. induction H as [|x stack Hx H IH]; [done|]. cbn [find_brace].
  destruct (Nat.eqb_spec (open_brace_idx x) g) as [<-|]; [by intros [= <-]|apply IH].
Qed.

(** The invariant of the state a branch starts in. *)
Lemma branch_inv start s r branch d :
  inv start s r -> ~ pending s \/ dead s -> (glob_index s < branch <= G)%nat ->
  inv branch (set_depth (set_glob s branch) d) r.
Proof.
  intros [Hb Hl] Hnp Hbr. destruct Hb. split; [constructor; cbn; lia|].
  destruct Hl as [D|[L1 L2 L3 L4 L5 L6]]; [by left|].
  destruct Hnp as [Hnp|D]; [right|by left]. destruct L6 as [?|[L6 L7]]; [done|].
  constructor; cbn; try done; [|right; split; [|lia]].
  - intros H. destruct (L1 H) as (T1 & T2 & _ & T4). split_and!; try done. left.
    destruct L5 as [[E1 E2]|[_ [?|?]]]; [|lia|]; (destruct L6 as [E|E]; [destruct (L3 E)|]); lia.
  - destruct L6; [by left|right; lia].
Qed.

(** What a recursive call guarantees. *)
Definition rec_ok (depth : nat) (rec : Matcher) : Prop :=
  forall s start stack budget r, inv start s r -> stack_ok stack -> (11 <= depth + length stack)%nat ->
  returns (rec s start stack budget).

Lemma match_brace_branch_returns depth rec start s r branch stack budget g :
  rec_ok depth rec -> inv start s r -> ~ pending s \/ dead s -> stack_ok stack -> (11 <= S depth + length stack)%nat ->
  (glob_index s < branch <= G)%nat ->
  returns (match_brace_branch rec (set_glob s g) (glob_index s) branch stack budget).
Proof.
  intros Hrec Hinv Hnp [Hst Hlen] Hdepth Hbr. unfold match_brace_branch.
  destruct (budget =? 0); [by eexists|].
  destruct (Nat.leb_spec BRACE_STACK_CAPACITY (length stack)); [by eexists|].
  apply (Hrec _ _ _ _ r); [|split|].
  - by apply (branch_inv start s r).
  - apply Forall_app. split; [done|]. by constructor.
  - rewrite length_app. cbn. lia.
  - rewrite length_app. cbn. lia.
Qed.

Lemma match_brace_loop_returns depth rec start s r stack rest g d ib sk branch budget :
  rec_ok depth rec -> inv start s r -> ~ pending s \/ dead s -> stack_ok stack -> (11 <= S depth + length stack)%nat ->
  (glob_index s <= g)%nat -> (g + length rest = G)%nat -> (glob_index s < branch <= G)%nat ->
  returns (match_brace_loop rec s (glob_index s) stack rest g d ib sk branch budget).
Proof.
  intros Hrec Hinv Hnp Hst Hdepth. revert g d ib sk branch budget.
  induction rest as [|c rest IH]; intros g d ib sk branch budget Hg Hlen Hbr; cbn [match_brace_loop]; [by eexists|].
  cbn [length] in Hlen.
  assert (Hgo : forall d ib sk branch' budget, branch' = branch \/ branch' = (g + 1)%nat ->
    returns (match_brace_loop rec s (glob_index s) stack rest (g + 1) d ib sk branch' budget)).
  { intros d' ib' sk' branch' budget' [-> | ->]; apply IH; lia. }
  assert (Hbranch : forall budget, returns (match_brace_branch rec (set_glob s g) (glob_index s) branch stack budget))
    by (intros; by eapply match_brace_branch_returns).
  repeat match goal with
  | |- returns (if ?b then _ else _) => destruct b
  | |- returns (match_brace_loop _ _ _ _ _ _ _ _ _ (if ?b then _ else _) _) => destruct b
  end; try (apply Hgo; auto; fail); try apply Hbranch.
  destruct (Hbranch budget) as ([b budget'] & ->). cbn [mbind outcome_bind].
  destruct b; [by eexists|apply Hgo; auto].
Qed.

Lemma match_brace_returns depth rec start s r stack budget :
  rec_ok depth rec -> inv start s r -> stack_ok stack -> (11 <= S depth + length stack)%nat ->
  glob !! glob_index s = Some (ch "{") ->
  returns (match_brace rec s glob stack budget).
Proof.
  intros Hrec Hinv Hst Hdepth Hc. unfold match_brace. rewrite (drop_S _ _ _ Hc).
  apply lookup_lt_Some in Hc as Hlt. fold G in Hlt. cbn [match_brace_loop].
  change (returns (match_brace_loop rec s (glob_index s) stack (drop (S (glob_index s)) glob) (glob_index s + 1)
    1 false false (glob_index s + 1) budget)).
  eapply match_brace_loop_returns; try done; [by eapply not_pending|lia| |lia].
  rewrite length_drop. fold G. lia.
Qed.

(** In a state of the invariant no index leaves [u32]. *)
Lemma in_bounds_fits s r : in_bounds s r -> fits_u32 s = true.
Proof.
  intros []. unfold fits_u32. change U32_MAX with (2 ^ 32 - 1). cbn [forallb]. fold G in Hglob. fold P in Hpath.
  rewrite !(fun i => proj2 (Z.leb_le (Z.of_nat i) (2 ^ 32 - 1))) by lia. done.
Qed.

(** One iteration. *)
Lemma match_step_ok depth rec start s r stack budget :
  rec_ok depth rec -> inv start s r -> stack_ok stack -> (11 <= S depth + length stack)%nat ->
  returns_with (match_step windows rec glob start path stack budget s) (step_ok start s r).
Proof.
  intros Hrec Hinv Hst Hdepth. pose proof Hinv as [[] _]. unfold match_step.
  destruct (glob !! glob_index s) as [c|] eqn:Ec.
  2: { apply returns_with_Ok. apply try_backtrack_ok; try done. by eapply not_pending. }
  apply lookup_lt_Some in Ec as HgG. fold G in HgG.
  destruct (Z.eqb_spec c (ch "*")) as [->|Hstar]; [by apply star_step_ok|].
  assert (Hnp : ~ pending s \/ dead s) by (eapply not_pending; [done..|congruence]).
  destruct (c =? ch "?").
  { destruct (path !! path_index s) as [pc|] eqn:Ep; [|by apply literal_step_ok].
    apply lookup_lt_Some in Ep. fold P in Ep. pose proof (wtf8_width_pos pc).
    destruct (negb _); apply returns_with_Ok; [|by apply try_backtrack_ok].
    apply forward_ok; cbn; try done; lia. }
  destruct (c =? ch "[").
  { destruct (Nat.ltb_spec (path_index s) (length path)); [by apply class_step_ok|by apply literal_step_ok]. }
  destruct (Z.eqb_spec c (ch "{")) as [->|_].
  { destruct (find_brace stack (glob_index s)) as [b|] eqn:Eb.
    - apply (find_brace_ok _ _ _ Hst) in Eb. apply returns_with_Ok. apply forward_ok; cbn; try done; lia.
    - destruct (match_brace_returns depth rec start s r stack budget) as ([b bud] & ->); try done.
      by apply returns_with_Ok. }
  destruct (_ || _); [|by apply literal_step_ok].
  destruct (0 <? brace_depth s); [|by apply literal_step_ok].
  apply returns_with_Ok. unfold skip_branch. rewrite (drop_S _ _ _ Ec).
  pose proof (skip_branch_loop_bounds (c :: drop (S (glob_index s)) glob) (glob_index s) (brace_depth s)
    (u8_add (brace_depth s) (-1)) false false) as B1.
  pose proof (skip_branch_loop_advances c (drop (S (glob_index s)) glob) (glob_index s) (brace_depth s)
    (u8_add (brace_depth s) (-1))) as B2.
  destruct (skip_branch_loop _ _ _ _ _ _) as [g d]. cbn [fst length] in B1, B2. rewrite length_drop in B1.
  apply forward_ok; cbn; try done; fold G in B1; lia.
Qed.

Lemma match_iter_ok depth rec start s r stack budget :
  rec_ok depth rec -> inv start s r -> stack_ok stack -> (11 <= S depth + length stack)%nat ->
  returns_with (match_iter windows rec glob start path stack budget s) (step_ok start s r).
Proof.
  intros Hrec Hinv Hst Hdepth. unfold match_iter. destruct (_ || _); [|by apply returns_with_Ok].
  eapply returns_with_bind; [by apply (match_step_ok depth)|]. intros [s'|b bud] Hs; [|by apply returns_with_Ok].
  destruct Hs as (r' & Hinv' & Hkey). rewrite (in_bounds_fits s' r') by apply Hinv'. apply returns_with_Ok. by exists r'.
Qed.

(** ** The number of iterations *)

Let B : Z := Z.of_nat (G + P + 9).

Definition potential (s : State) (r : nat) : Z := key_value B 0 (key s r).

Lemma key_digits start s r : inv start s r -> digits_ok B (key s r).
Proof.
  intros [[] _]. unfold key, pending_bit.
  destruct (decide (dead s)); repeat constructor; try (case_decide); unfold B; lia.
Qed.

Lemma key_length s r : length (key s r) = 8%nat.
Proof. unfold key. by destruct (decide (dead s)). Qed.

Lemma potential_bounds start s r : inv start s r -> 0 <= potential s r < 2 * B ^ 7.
Proof.
  intros Hinv. pose proof (key_digits start s r Hinv) as Hd. pose proof (key_length s r) as Hl.
  assert (Hhead : exists d l, key s r = d :: l /\ 0 <= d <= 1).
  { unfold key. destruct (decide (dead s)); eexists _, _; (split; [reflexivity|lia]). }
  destruct Hhead as (d & l & E & Hd1). unfold potential. rewrite E in *. injection Hl as Hl.
  inversion Hd as [|? ? _ Hdl]; subst. cbn [key_value].
  pose proof (key_value_bounds B (0 * B + d) l ltac:(lia) Hdl) as Hb. rewrite Hl in Hb.
  change (Z.of_nat 7) with 7 in Hb. assert (0 <= B ^ 7) by (apply Z.pow_nonneg; unfold B; lia). nia.
Qed.

Lemma progress_potential start s r s' :
  inv start s r -> progress start s r s' -> exists r', inv start s' r' /\ potential s r + 1 <= potential s' r'.
Proof.
  intros Hinv (r' & Hinv' & Hlex). exists r'. split; [done|]. unfold potential.
  pose proof (key_value_lex B 0 _ _ Hlex ltac:(by rewrite !key_length)
    (key_digits _ _ _ Hinv) (key_digits _ _ _ Hinv')). lia.
Qed.

Lemma match_iters_potential n iter start :
  (forall s r, inv start s r -> returns_with (iter s) (step_ok start s r)) ->
  forall s r, inv start s r ->
  returns_with (match_iters n iter s) (fun res =>
    match res with
    | Continue s' => exists r', inv start s' r' /\ potential s r + 2 ^ Z.of_nat n <= potential s' r'
    | Return _ _ => True
    end).
Proof.
  intros Hiter. induction n as [|n IH]; intros s r Hinv; cbn [match_iters].
  - eapply returns_with_mono; [by apply Hiter|]. intros [s'|b bud]; [|done]. intros Hp.
    by apply (progress_potential start).
  - eapply returns_with_bind; [by apply IH|]. intros [s1|b bud]; [|intros _; by apply returns_with_Ok].
    intros (r1 & Hinv1 & Hp1). eapply returns_with_mono; [by apply IH|].
    intros [s2|b bud]; [|done]. intros (r2 & Hinv2 & Hp2). exists r2. split; [done|].
    rewrite Nat2Z.inj_succ, Z.pow_succ_r by lia. lia.
Qed.

(** The loop returns within [2 ^ fuel_bits] iterations. *)
Lemma main_loop_returns iter start s r :
  (forall s r, inv start s r -> returns_with (iter s) (step_ok start s r)) -> inv start s r ->
  returns_with (match_iters (fuel_bits glob path) iter s) (fun res => exists b budget, res = Return b budget).
Proof.
  intros Hiter Hinv. eapply returns_with_mono; [by eapply match_iters_potential|].
  intros [s'|b bud]; [|intros _; by eexists _, _]. intros (r' & Hinv' & Hp). exfalso.
  pose proof (potential_bounds start s r Hinv). pose proof (potential_bounds start s' r' Hinv').
  assert (Hlog : (G + P + 9 <= 2 ^ Nat.log2_up (G + P + 9))%nat).
  { pose proof (Nat.log2_up_spec (G + P + 9) ltac:(lia)). lia. }
  set (lb := Nat.log2_up (G + P + 9)) in *.
  assert (HB : B <= 2 ^ Z.of_nat lb).
  { unfold B. apply inj_le in Hlog. rewrite Nat2Z.inj_pow in Hlog. exact Hlog. }
  assert (H7 : 2 * B ^ 7 <= 2 ^ Z.of_nat (fuel_bits glob path)).
  { transitivity (2 ^ 7 * (2 ^ Z.of_nat lb) ^ 7).
    - assert (B ^ 7 <= (2 ^ Z.of_nat lb) ^ 7) by (apply Z.pow_le_mono_l; unfold B in *; lia).
      assert (0 <= B ^ 7) by (apply Z.pow_nonneg; unfold B; lia). change (2 ^ 7) with 128. lia.
    - rewrite <- Z.pow_mul_r, <- Z.pow_add_r by lia. unfold fuel_bits. fold G P lb.
      apply Z.pow_le_mono_r; lia. }
  lia.
Qed.

Lemma glob_match_impl_returns depth stack s start budget r :
  inv start s r -> stack_ok stack -> (11 <= depth + length stack)%nat ->
  returns (glob_match_impl windows depth glob path s start stack budget).
Proof.
  revert stack s start budget r. induction depth as [|depth IH]; intros stack s start budget r Hinv Hst Hdepth.
  { destruct Hst as [_ Hlen]. unfold BRACE_STACK_CAPACITY in Hlen. lia. }
  cbn [glob_match_impl].
  destruct (main_loop_returns (match_iter windows (glob_match_impl windows depth glob path) glob start path stack budget)
    start s r) as (res & -> & (b & bud & ->)); [|done|by eexists].
  intros s' r' Hinv'. apply (match_iter_ok depth); try done.
  intros s'' start'' stack'' budget'' r'' ? ? ?. by eapply IH.
Qed.

Lemma initial_inv i : (i <= G)%nat -> inv 0 (set_glob State_default i) 0.
Proof.
  intros Hi. split; [constructor; cbn; lia|]. right. constructor; cbn; try lia; try done.
Qed.
End totality.

Lemma glob_match_total_impl windows glob path i :
  Z.of_nat (length glob) < 2 ^ 32 - 6 -> Z.of_nat (length path) < 2 ^ 32 - 6 -> (i <= length glob)%nat ->
  returns (glob_match_impl windows (S BRACE_STACK_CAPACITY) glob path (set_glob State_default i) 0 [] BRACE_BRANCH_BUDGET).
Proof.
  intros HG HP Hi. eapply glob_match_impl_returns; [done|done|by apply initial_inv|split; [constructor|]|];
    unfold BRACE_STACK_CAPACITY; simpl; lia.
Qed.

(** (C3) Matching returns for every pattern and path below [2^32 - 6] bytes: no index is out of range
    or leaves its 32 bits, the backtracking loop ends (within [2 ^ fuel_bits] iterations per
    invocation), and the recursion through brace groups stays within the ten entries of the brace stack. *)
Theorem glob_match_total (windows : bool) (glob path : list Z) :
  Z.of_nat (length glob) < 2 ^ 32 - 6 -> Z.of_nat (length path) < 2 ^ 32 - 6 ->
  returns (glob_match windows glob path).
Proof.
  intros HG HP. unfold glob_match. pose proof (run_length_le (Z.eqb (ch "!")) glob).
  destruct (glob_match_total_impl windows glob path (run_length (Z.eqb (ch "!")) glob)) as ([b bud] & ->); [done..|].
  by eexists.
Qed.

Lemma glob_match_total_witness : returns (glob_match false (str "{a,b*}/**/c") (str "bb/x/y/c")).
Proof. apply glob_match_total; vm_compute; reflexivity. Defined.

(** ** Wildcards inside one path segment *)

(** The declarative meaning of [*] and [?] between ordinary characters. *)
Inductive wmatch : list Z -> list Z -> Prop :=
| wm_nil : wmatch [] []
| wm_char c g p : c <> ch "*" -> c <> ch "?" -> wmatch g p -> wmatch (c :: g) (c :: p)
| wm_any c g p : wmatch g p -> wmatch (ch "?" :: g) (c :: p)
| wm_star_empty g p : wmatch g p -> wmatch (ch "*" :: g) p
| wm_star_more c g p : wmatch (ch "*" :: g) p -> wmatch (ch "*" :: g) (c :: p).

(** An ordinary pattern character: ASCII and without meaning to the matcher. *)
Definition plain (c : Z) : Prop :=
  0 <= c <= 127 /\ memb c [ch "*"; ch "?"; ch "["; ch "{"; ch ","; ch "}"; ch "\"; ch "/"; ch "!"] = false.

Definition simple_char (c : Z) : Prop := plain c \/ c = ch "?" \/ c = ch "*".

(** A pattern of ordinary characters, question marks and separate stars. *)
Definition simple_pattern (pat : list Z) : Prop :=
  Forall simple_char pat /\ forall i, ~ two_stars pat i.

(** An ASCII path of one segment. *)
Definition one_segment (windows : bool) (path : list Z) : Prop :=
  Forall (fun c => 0 <= c <= 127 /\ is_separator windows c = false) path.

Lemma wmatch_star g p : wmatch (ch "*" :: g) p <-> wmatch g p \/ exists c p', p = c :: p' /\ wmatch (ch "*" :: g) p'.
Proof.
  split.
  - inversion 1; subst; naive_solver.
  - intros [H|(c & p' & -> & H)]; by constructor.
Qed.

Lemma wmatch_any g p : wmatch (ch "?" :: g) p <-> exists c p', p = c :: p' /\ wmatch g p'.
Proof. split; [inversion 1; subst; naive_solver|]. intros (c & p' & -> & H). by constructor. Qed.

Lemma wmatch_plain c g p : c <> ch "*" -> c <> ch "?" -> wmatch (c :: g) p <-> exists p', p = c :: p' /\ wmatch g p'.
Proof. intros H1 H2. split; [inversion 1; subst; naive_solver|]. intros (p' & -> & H). by constructor. Qed.

(** A star may start earlier. *)
Lemma wmatch_star_earlier g (l : list Z) m n :
  (m <= n)%nat -> wmatch (ch "*" :: g) (drop n l) -> wmatch (ch "*" :: g) (drop m l).
Proof.
  intros Hmn H. replace n with (m + (n - m))%nat in H by lia. rewrite <- drop_drop in H.
  generalize dependent (drop m l). clear l. intros l. generalize (n - m)%nat. clear. intros k. revert l.
  induction k as [|k IH]; intros l H; [done|]. destruct l as [|c l]; [done|]. apply wm_star_more. by apply IH.
Qed.

(** Characters other than stars match one character each. *)
Lemma wmatch_segment seg rest (l : list Z) :
  Forall (fun c => c <> ch "*") seg -> wmatch (seg ++ rest) l -> wmatch rest (drop (length seg) l).
Proof.
  intros Hseg. revert l. induction Hseg as [|c seg Hc Hseg IH]; intros l H; [done|].
  destruct (decide (c = ch "?")) as [->|Hq]; inversion H; subst; try done; by apply IH.
Qed.

Lemma wmatch_star_segment seg rest (l : list Z) n :
  Forall (fun c => c <> ch "*") seg -> wmatch (ch "*" :: seg ++ rest) (drop n l) ->
  exists j, (n + length seg <= j)%nat /\ wmatch rest (drop j l).
Proof.
  intros Hseg H. remember (drop n l) as l' eqn:El. remember (ch "*" :: seg ++ rest) as g eqn:Eg.
  revert n El. induction H as [| | |g p H IH|c g p H IH]; intros n El; try done; simplify_eq.
  - exists (n + length seg)%nat. split; [lia|]. rewrite <- drop_drop. by apply wmatch_segment.
  - destruct (IH eq_refl (S n)) as (j & Hj & Hw); [|exists j; split; [lia|done]].
    replace (S n) with (n + 1)%nat by lia. by rewrite <- drop_drop, <- El.
Qed.

Section wildcards.
Context (windows : bool) (k : nat) (pat path : list Z).
Context (Hpat : simple_pattern pat) (Hpath : one_segment windows path).
Context (Hlen : Z.of_nat (length (replicate k (ch "!") ++ pat)) < 2 ^ 32 - 6) (HlenP : Z.of_nat (length path) < 2 ^ 32 - 6).

Let glob : list Z := replicate k (ch "!") ++ pat.
Let G : nat := length glob.
Let P : nat := length path.

(** What remains to be matched, directly or from the wildcard. *)
Definition here (s : State) : Prop := wmatch (drop (glob_index s) glob) (drop (path_index s) path).
Definition from_wildcard (s : State) : Prop :=
  (0 < w_path_index (wildcard s) <= P)%nat /\
  wmatch (drop (w_glob_index (wildcard s)) glob) (drop (w_path_index (wildcard s)) path).
Definition answer (s : State) : Prop := here s \/ from_wildcard s.

(** The wildcard's star, and the characters matched one to one since. *)
Definition since_wildcard (s : State) : Prop :=
  exists seg, drop (w_glob_index (wildcard s)) glob = ch "*" :: seg ++ drop (glob_index s) glob /\
    Forall (fun c => c <> ch "*") seg /\
    (length seg + w_path_index (wildcard s) = path_index s + 1)%nat.

Record winv (s : State) : Prop := {
  wi_depth : brace_depth s = 0;
  wi_globstar : globstar s = Wildcard_default;
  wi_glob : (k <= glob_index s <= G)%nat;
  wi_path : (path_index s <= P)%nat;
  wi_wdepth : w_brace_depth (wildcard s) = 0;
  wi_wglob : (0 < w_path_index (wildcard s))%nat -> (k <= w_glob_index (wildcard s) <= G)%nat;
  wi_wbound : (w_glob_index (wildcard s) <= G)%nat;
  wi_star : (0 < w_path_index (wildcard s))%nat -> glob !! w_glob_index (wildcard s) = Some (ch "*");
  wi_place : w_path_index (wildcard s) = 0%nat \/
    (glob_index s = w_glob_index (wildcard s) /\ path_index s = w_path_index (wildcard s)) \/ since_wildcard s;
}.

(** A step keeps the invariant and the answer. *)
Definition wstep (s : State) (res : StepResult) : Prop :=
  match res with
  | Continue s' => winv s' /\ (answer s <-> answer s')
  | Return b _ => b = true <-> answer s
  end.

Lemma fail_wstep s budget : winv s -> ~ here s -> wstep s (try_backtrack s path budget).
Proof.
  intros [] Hno. unfold try_backtrack. fold P.
  destruct (Nat.ltb_spec 0 (w_path_index (wildcard s))); cbn [andb].
  2: { split; [done|]. intros [?|[? _]]; [done|lia]. }
  destruct (Nat.leb_spec (w_path_index (wildcard s)) P).
  2: { split; [done|]. intros [?|[? _]]; [done|lia]. }
  split.
  - constructor; cbn; try done; [auto|]. right. by left.
  - unfold answer, from_wildcard, here. cbn. naive_solver.
Qed.

(** One character of the pattern against one of the path. *)
Lemma advance_wstep s s' c d :
  winv s -> glob !! glob_index s = Some c -> path !! path_index s = Some d -> c <> ch "*" ->
  s' = set_path (set_glob s (glob_index s + 1)) (path_index s + 1) ->
  (here s <-> here s') -> wstep s (Continue s').
Proof.
  intros [] Hc Hd Hstar -> Hhere. apply lookup_lt_Some in Hc as HcG. apply lookup_lt_Some in Hd as HdP.
  fold G in HcG. fold P in HdP. split.
  - constructor; cbn; try done; try lia.
    destruct wi_place0 as [?|[[E1 E2]|(seg & E & Hseg & Hl)]]; [by left| |].
    + destruct (decide (w_path_index (wildcard s) = 0)%nat) as [?|Hne]; [by left|]. exfalso.
      apply Hstar. specialize (wi_star0 ltac:(lia)). rewrite <- E1, Hc in wi_star0. by injection wi_star0.
    + right. right. exists (seg ++ [c]). cbn. split_and!.
      * rewrite E. rewrite (drop_S _ _ _ Hc), Nat.add_1_r. by rewrite <- app_assoc.
      * apply Forall_app. split; [done|]. by repeat constructor.
      * rewrite length_app. cbn. lia.
  - unfold answer. by rewrite Hhere.
Qed.

Lemma glob_lookup g c :
  (k <= g)%nat -> glob !! g = Some c -> simple_char c /\ ~ two_stars glob g.
Proof.
  intros Hg Hc. destruct Hpat as [Hall Htwo]. unfold two_stars, glob in *.
  rewrite lookup_app_r in Hc by (rewrite length_replicate; lia). rewrite length_replicate in Hc. split.
  - by eapply Forall_lookup_1.
  - intros [H1 H2]. apply (Htwo (g - k)%nat). rewrite lookup_app_r in H1, H2 by (rewrite length_replicate; lia).
    rewrite length_replicate in H1, H2. split; [done|]. by replace (g - k + 1)%nat with (g + 1 - k)%nat by lia.
Qed.

Lemma path_lookup p c : path !! p = Some c ->
  0 <= c <= 127 /\ is_separator windows c = false /\ wtf8_byte_sequence_length c = 1.
Proof.
  intros Hc. destruct (Forall_lookup_1 _ _ _ _ Hpath Hc) as [H1 H2]. split_and!; try done; try lia.
  unfold wtf8_byte_sequence_length. by rewrite (proj2 (Z.leb_le c 127)) by lia.
Qed.

(** The arm of a star. *)
Lemma star_wstep s :
  winv s -> glob !! glob_index s = Some (ch "*") ->
  exists s', star_step windows s glob 0 path = Ok (Continue s') /\ wstep s (Continue s').
Proof.
  intros Hinv Hc. pose proof Hinv as []. apply lookup_lt_Some in Hc as HcG. fold G in HcG.
  destruct (glob_lookup (glob_index s) (ch "*")) as [_ Htwo]; [lia|done|].
  unfold star_step. rewrite bool_decide_eq_false_2 by (intros ?; by apply Htwo).
  cbn [mbind outcome_bind]. cbv zeta. cbn [set_glob set_wildcard glob_index path_index globstar].
  assert (Hsep : sep_at windows path (path_index s) = false).
  { unfold sep_at. destruct (path !! path_index s) as [c|] eqn:E; [|done]. by apply (path_lookup _ _ E). }
  rewrite Hsep. cbn [set_glob glob_index path_index wildcard globstar brace_depth].
  assert (Hwidth : match path !! path_index s with Some c => Z.to_nat (wtf8_byte_sequence_length c) | None => 1%nat end = 1%nat).
  { destruct (path !! path_index s) as [c|] eqn:E; [|done]. destruct (path_lookup _ _ E) as (_ & _ & ->). done. }
  rewrite Hwidth. eexists. split; [reflexivity|]. split.
  - constructor; cbn; try done; try lia. right. right. exists []. cbn. rewrite (drop_S _ _ _ Hc), Nat.add_1_r.
    split_and!; [done|constructor|lia].
  - unfold answer, here, from_wildcard. cbn. rewrite (drop_S _ _ _ Hc), Nat.add_1_r.
    set (rest := drop (S (glob_index s)) glob).
    assert (Hnew : wmatch (ch "*" :: rest) (drop (path_index s) path) <->
      wmatch rest (drop (path_index s) path) \/
      (0 < path_index s + 1 <= P)%nat /\ wmatch (ch "*" :: rest) (drop (path_index s + 1) path)).
    { rewrite wmatch_star. apply or_iff_compat_l. destruct (path !! path_index s) as [c|] eqn:E.
      - rewrite (drop_S _ _ _ E), Nat.add_1_r. apply lookup_lt_Some in E. fold P in E. split.
        + intros (c' & p' & [= <- <-] & H). split; [lia|done].
        + intros [_ H]. by eexists _, _.
      - apply lookup_ge_None in E. fold P in E. rewrite (drop_ge path (path_index s)) by (fold P; lia).
        split; [by intros (? & ? & ? & _)|]. intros [? _]. lia. }
    rewrite <- Hnew. split; [intros [H|[H1 H2]]; [done|]|by left].
    destruct wi_place0 as [?|[[E1 E2]|(seg & E & Hseg & Hl)]]; [lia| |].
    + rewrite <- E1, <- E2, (drop_S _ _ _ Hc) in H2. done.
    + rewrite E, (drop_S _ _ _ Hc) in H2. fold rest in H2.
      destruct (wmatch_star_segment _ _ _ _ Hseg H2) as (j & Hj & Hw).
      by apply (wmatch_star_earlier _ _ _ j); [lia|].
Qed.

(** The literal arm. *)
Lemma literal_wstep s c budget :
  winv s -> glob !! glob_index s = Some c -> c <> ch "*" -> (c = ch "?" -> path !! path_index s = None) ->
  exists res, literal_step windows s c glob path budget = Ok res /\ wstep s res.
Proof.
  intros Hinv Hc Hstar Hq. pose proof Hinv as []. unfold literal_step.
  destruct (glob_lookup (glob_index s) c) as [Hsimple _]; [lia|done|].
  destruct (path !! path_index s) as [d|] eqn:Ed.
  2: { eexists. split; [reflexivity|]. apply fail_wstep; [done|]. unfold here. rewrite (drop_S _ _ _ Hc).
       apply lookup_ge_None in Ed. rewrite (drop_ge path) by done. inversion 1; by subst. }
  destruct Hsimple as [[Hr Hmemb]|[->| ->]]; [|by specialize (Hq eq_refl)|done].
  unfold memb in Hmemb. cbn in Hmemb. repeat (apply orb_false_iff in Hmemb as [? Hmemb]).
  unfold unescape. match goal with H : (c =? 92) = false |- _ => rewrite H end.
  assert (Hn : wtf8_byte_sequence_length c = 1)
    by (unfold wtf8_byte_sequence_length; by rewrite (proj2 (Z.leb_le c 127)) by lia).
  rewrite Hn. change (Z.to_nat 1) with 1%nat. cbn [Nat.ltb Nat.leb].
  match goal with H : (c =? 47) = false |- _ => rewrite H end.
  assert (Hcs : c <> ch "?") by (intros ->; done).
  destruct (Z.eqb_spec d c) as [->|Hne]; eexists; (split; [reflexivity|]).
  - apply (advance_wstep s _ c c); try done. unfold here. cbn.
    rewrite (drop_S _ _ _ Hc), (drop_S _ _ _ Ed), wmatch_plain, !Nat.add_1_r by done. naive_solver.
  - replace (set_glob s (glob_index s)) with s by (by destruct s).
    apply fail_wstep; [done|]. unfold here. rewrite (drop_S _ _ _ Hc), (drop_S _ _ _ Ed).
    intros Hw. apply wmatch_plain in Hw as (p' & [= ? ?] & _); done.
Qed.

Lemma winv_fits s : winv s -> fits_u32 s = true.
Proof.
  intros []. fold glob in Hlen. fold G in Hlen. fold P in HlenP.
  assert (Hw : (w_path_index (wildcard s) <= P + 1)%nat).
  { destruct wi_place0 as [->|[[_ <-]|(seg & _ & _ & ?)]]; lia. }
  unfold fits_u32. rewrite wi_globstar0. change U32_MAX with (2 ^ 32 - 1). cbn [forallb Wildcard_default w_glob_index w_path_index].
  rewrite !(fun i => proj2 (Z.leb_le (Z.of_nat i) (2 ^ 32 - 1))) by lia. done.
Qed.

Lemma match_iter_wstep rec stack budget s :
  winv s -> exists res, match_iter windows rec glob 0 path stack budget s = Ok res /\ wstep s res.
Proof.
  intros Hinv. enough (H : (glob_index s < G)%nat \/ (path_index s < P)%nat -> exists res, match_step windows rec glob 0 path stack budget s = Ok res /\ wstep s res).
  { unfold match_iter. fold G P. destruct (Nat.ltb_spec (glob_index s) G) as [Hg|Hg], (Nat.ltb_spec (path_index s) P) as [Hp|Hp]; cbn [orb].
    4: { eexists. split; [reflexivity|]. cbn. split; [|done]. intros _. left. unfold here. rewrite !drop_ge by (fold G P; lia). constructor. }
    all: destruct H as (res & -> & Hres); [auto|]; exists res; split; [|done]; cbn [mbind outcome_bind]; destruct res as [s'|]; [|done]; by rewrite winv_fits by apply Hres. }
  pose proof Hinv as []. intros Hgo.
  destruct (Nat.ltb_spec (glob_index s) G) as [Hg|Hg].
  - destruct (glob !! glob_index s) as [c|] eqn:Hc; [|apply lookup_ge_None in Hc; fold G in Hc; lia].
    unfold match_step. rewrite Hc.
    destruct (glob_lookup (glob_index s) c) as [Hsimple _]; [lia|done|].
    destruct (Z.eqb_spec c (ch "*")) as [->|Hstar].
    { destruct (star_wstep s Hinv Hc) as (s' & -> & Hw). by eexists. }
    destruct (Z.eqb_spec c (ch "?")) as [->|Hq].
    { destruct (path !! path_index s) as [d|] eqn:Ed; [|by apply literal_wstep].
      destruct (path_lookup _ _ Ed) as (_ & -> & ->). cbn [negb]. change (Z.to_nat 1) with 1%nat.
      eexists. split; [reflexivity|]. apply (advance_wstep s _ (ch "?") d); try done. unfold here. cbn.
      rewrite (drop_S _ _ _ Hc), (drop_S _ _ _ Ed), wmatch_any, !Nat.add_1_r by done. naive_solver. }
    destruct Hsimple as [[Hr Hmemb]|[->| ->]]; [|done|done].
    assert (Hm : forall x, c = x -> memb x [ch "*"; ch "?"; ch "["; ch "{"; ch ","; ch "}"; ch "\"; ch "/"; ch "!"] = false)
      by (intros x <-; done).
    destruct (Z.eqb_spec c (ch "[")) as [E|_]; [by apply Hm in E|].
    destruct (Z.eqb_spec c (ch "{")) as [E|_]; [by apply Hm in E|].
    destruct (Z.eqb_spec c (ch ",")) as [E|_]; [by apply Hm in E|].
    destruct (Z.eqb_spec c (ch "}")) as [E|_]; [by apply Hm in E|]. cbn [orb].
    by apply literal_wstep.
  - assert (Hp : (path_index s < P)%nat) by lia.
    unfold match_step. rewrite lookup_ge_None_2 by (fold G; lia). eexists. split; [reflexivity|].
      apply fail_wstep; [done|]. unfold here. rewrite (drop_ge glob) by (fold G; lia).
      destruct (path !! path_index s) as [d|] eqn:Ed; [|apply lookup_ge_None in Ed; fold P in Ed; lia].
      rewrite (drop_S _ _ _ Ed). by inversion 1.
Qed.

Lemma match_iters_wstep n rec stack budget s :
  winv s -> exists res, match_iters n (match_iter windows rec glob 0 path stack budget) s = Ok res /\ wstep s res.
Proof.
  revert s. induction n as [|n IH]; intros s Hinv; cbn [match_iters]; [by apply match_iter_wstep|].
  destruct (IH s Hinv) as (res & -> & Hw). cbn [mbind outcome_bind].
  destruct res as [s'|b bud]; [|by eexists]. destruct Hw as [Hinv' Ha].
  destruct (IH s' Hinv') as (res & -> & Hw). eexists. split; [reflexivity|].
  destruct res as [s2|b bud]; cbn in *; [|by rewrite Ha]. split; [apply Hw|]. rewrite Ha. apply Hw.
Qed.
End wildcards.

Lemma run_length_replicate c (l : list Z) n :
  match l with [] => True | d :: _ => (c =? d) = false end ->
  run_length (Z.eqb c) (replicate n c ++ l) = n.
Proof.
  intros Hl. induction n as [|n IH]; cbn; [|by rewrite Z.eqb_refl, IH].
  destruct l as [|d l]; cbn; [done|by rewrite Hl].
Qed.

(** The main loop from the start of such a pattern. *)
Lemma impl_wildcards windows bangs pat path b budget :
  simple_pattern pat -> one_segment windows path ->
  Z.of_nat (length (replicate bangs (ch "!") ++ pat)) < 2 ^ 32 - 6 -> Z.of_nat (length path) < 2 ^ 32 - 6 ->
  glob_match_impl windows (S BRACE_STACK_CAPACITY) (replicate bangs (ch "!") ++ pat) path
    (set_glob State_default bangs) 0 [] BRACE_BRANCH_BUDGET = Ok (b, budget) ->
  b = true <-> wmatch pat path.
Proof.
  intros Hpat Hpath Hlen HlenP. cbn [glob_match_impl].
  set (s := set_glob State_default bangs).
  assert (Hinv : winv bangs pat path s).
  { constructor; cbn; try done; try lia; try (by left); rewrite length_app, length_replicate; lia. }
  destruct (match_iters_wstep windows bangs pat path Hpat Hpath Hlen HlenP (fuel_bits (replicate bangs (ch "!") ++ pat) path)
    (glob_match_impl windows BRACE_STACK_CAPACITY (replicate bangs (ch "!") ++ pat) path) [] BRACE_BRANCH_BUDGET s Hinv)
    as (res & -> & Hw).
  cbn [mbind outcome_bind]. destruct res as [|b' bud]; [done|]. intros [= <- _]. cbn in Hw. rewrite Hw.
  unfold answer, here, from_wildcard. cbn [s set_glob State_default glob_index path_index wildcard Wildcard_default w_path_index].
  rewrite drop_app_length' by (by rewrite length_replicate). rewrite drop_0. split; [|by left].
  intros [?|[? _]]; [done|lia].
Qed.



(** Behind an exclamation mark a leading globstar spans one directory only:
    [**/a] matches [x/y/a], and yet [!**/a] does not exclude it (it does exclude [y/a]). *)
Theorem negated_globstar_spans_one_level :
  glob_match false (str "**/a") (str "x/y/a") = Ok Match /\
  glob_match false (str "!**/a") (str "x/y/a") = Ok NegateMatch /\
  glob_match false (str "!**/a") (str "y/a") = Ok NegateNoMatch.
Proof. vm_compute. done. Qed.
