(* ===== verification/LinearFifo.v ===== *)
(** * The growable ring buffer ([collections/linear_fifo.rs])

    A [LinearFifo<T, B>] keeps [count] items from index [head] of a buffer, wrapping around its
    end.  The buffer kind [B] says whether it may grow and whether indices are wrapped by a
    mask.  A slot of the buffer is [None] while it is uninitialised; reading such a slot has no
    behaviour ([Panic]), and the theorems show that it never happens.  The specification is a
    list: the items in reading order. *)

From S2P Require Import Prelude.

Local Open Scope nat_scope.

(** ** Buffer kinds *)

(** The associated constants of the trait [LinearFifoBuffer]. *)
Class LinearFifoBuffer (B : Type) := { POWERS_OF_TWO : bool; DYNAMIC : bool }.
Arguments POWERS_OF_TWO B {_}.
Arguments DYNAMIC B {_}.

Definition is_power_of_two (n : nat) : bool := (0 <? n) && (n =? 2 ^ Nat.log2 n).

Inductive StaticBuffer (N : nat) := mkStaticBuffer.
Inductive SliceBuffer := mkSliceBuffer.
Inductive DynamicBuffer := mkDynamicBuffer.

#[export] Instance static_buffer N : LinearFifoBuffer (StaticBuffer N) :=
  {| POWERS_OF_TWO := is_power_of_two N; DYNAMIC := false |}.
#[export] Instance slice_buffer : LinearFifoBuffer SliceBuffer :=
  {| POWERS_OF_TWO := false; DYNAMIC := false |}.
#[export] Instance dynamic_buffer : LinearFifoBuffer DynamicBuffer :=
  {| POWERS_OF_TWO := true; DYNAMIC := true |}.

(** ** The queue *)

Record LinearFifo (A : Type) := mkFifo { buf : list (option A); head : nat; count : nat }.
Arguments mkFifo {A} buf head count.
Arguments buf {A} l.
Arguments head {A} l.
Arguments count {A} l.

(** The initialised values of a slice; [Panic] if one is not. *)
Fixpoint assume_init {A} (s : list (option A)) : outcome (list A) :=
  match s with
  | [] => Ok []
  | Some a :: s => l ← assume_init s; Ok (a :: l)
  | None :: _ => Panic
  end.

(** [usize] subtraction of the release profile. *)
Definition usub (a b : nat) : nat :=
  if b <=? a then a - b else Z.to_nat (wrap 64 (Z.of_nat a - Z.of_nat b)).

Lemma usub_le a b : b <= a -> usub a b = a - b.
Proof. intros H. unfold usub. by rewrite (proj2 (Nat.leb_le _ _)). Qed.

Definition PAGE_SIZE_MIN : nat := 4096.

Section operations.
Context {A : Type} (B : Type) `{LinearFifoBuffer B}.
(** [mem::size_of::<T>()] *)
Context (t_size : nat).

Implicit Types f : LinearFifo A.

Definition buf_len f : nat := length (buf f).
Definition capacity f : nat := buf_len f.
Definition readable_length f : nat := count f.
Definition writable_length f : nat := usub (buf_len f) (count f).

(** [init] of the dynamic and of the static kind. *)
Definition init_dynamic : LinearFifo A := mkFifo [] 0 0.
Definition init_static (N : nat) : LinearFifo A := mkFifo (replicate N None) 0 0.

Definition reset_head_if_empty f : LinearFifo A :=
  if count f =? 0 then mkFifo (buf f) 0 (count f) else f.

(** An index brought back into the buffer: a mask, or a remainder (which panics on an empty
    buffer).  On an empty buffer the mask is all ones. *)
Definition wrap_index f (i : nat) : outcome nat :=
  if POWERS_OF_TWO B then Ok (if buf_len f =? 0 then i else Nat.land i (buf_len f - 1))
  else if buf_len f =? 0 then Panic else Ok (i mod buf_len f).

(** The rotating loop of [realign]. *)
Fixpoint realign_loop (fuel : nat) (tmp_len : nat) f : outcome (LinearFifo A) :=
  if head f =? 0 then Ok f
  else
    match fuel with
    | O => OutOfFuel
    | S fuel =>
        let n := Nat.min (head f) tmp_len in
        realign_loop fuel tmp_len (mkFifo (drop n (buf f) ++ take n (buf f)) (head f - n) (count f))
    end.

Definition realign f : outcome (LinearFifo A) :=
  if count f <=? usub (buf_len f) (head f)
  then Ok (mkFifo (copy_at (buf f) 0 (take (count f) (drop (head f) (buf f)))) 0 (count f))
  else if t_size =? 0 then Panic
  else realign_loop (head f) ((PAGE_SIZE_MIN / 2) / t_size) f.

(** [realloc] keeps the common prefix. *)
Definition realloc (b : list (option A)) (new_size : nat) : list (option A) :=
  take new_size b ++ replicate (new_size - length b) None.

Definition shrink f (size : nat) : outcome (LinearFifo A) :=
  if DYNAMIC B then f ← realign f; Ok (mkFifo (realloc (buf f) size) (head f) (count f)) else Ok f.

(** [usize::checked_next_power_of_two] *)
Definition checked_next_power_of_two (n : nat) : option nat :=
  if (Z.of_nat n <=? 2 ^ 63)%Z then Some (2 ^ Nat.log2_up n) else None.

(** The boolean is [Result::is_ok]. *)
Definition ensure_total_capacity f (size : nat) : outcome (LinearFifo A * bool) :=
  if size <=? buf_len f then Ok (f, true)
  else if DYNAMIC B then
    f ← realign f;
    match (if POWERS_OF_TWO B then checked_next_power_of_two size else Some size) with
    | None => Ok (f, false)
    | Some new_size =>
        let new := replicate new_size None in
        if count f <=? length (buf f)
        then Ok (mkFifo (copy_at new 0 (take (count f) (buf f))) 0 (count f), true)
        else Panic
    end
  else Ok (f, false).

Definition ensure_unused_capacity f (size : nat) : outcome (LinearFifo A * bool) :=
  if size <=? writable_length f then Ok (f, true)
  else if (Z.of_nat (count f + size) <=? U64_MAX)%Z then ensure_total_capacity f (count f + size)
  else Ok (f, false).

(** A range of the buffer, [buf[start..end]]. *)
Definition buf_range f (start end_ : nat) : outcome (nat * nat) :=
  if decide (start <= end_ <= buf_len f) then Ok (start, end_) else Panic.

(** [readable_slice], [readable_slice_mut]: the bounds of the slice. *)
Definition readable_slice f (offset : nat) : outcome (nat * nat) :=
  if count f <? offset then Ok (0, 0)
  else
    let start := head f + offset in
    if buf_len f <=? start
    then buf_range f (start - buf_len f) (start - buf_len f + (count f - offset))
    else buf_range f start (Nat.min (head f + count f) (buf_len f)).

(** [writable_slice]: the bounds of the slice. *)
Definition writable_slice f (offset : nat) : outcome (nat * nat) :=
  if buf_len f <? offset then Ok (0, 0)
  else
    let tail := head f + offset + count f in
    if tail <? buf_len f then buf_range f tail (buf_len f)
    else if writable_length f <? offset then Panic
    else buf_range f (tail - buf_len f) (tail - buf_len f + (writable_length f - offset)).

Definition discard f (n : nat) : outcome (LinearFifo A) :=
  h ← wrap_index f (head f + n); Ok (mkFifo (buf f) h (usub (count f) n)).

Definition update f (n : nat) : LinearFifo A := mkFifo (buf f) (head f) (count f + n).

Definition read_item f : outcome (option A * LinearFifo A) :=
  if count f =? 0 then Ok (None, f)
  else
    match buf f !! head f with
    | Some (Some c) => f ← discard f 1; Ok (Some c, f)
    | _ => Panic
    end.

(** The loop of [read]: at most [left] items; returns them in order. *)
Fixpoint read_loop (fuel : nat) f (left : nat) : outcome (list A * LinearFifo A) :=
  if left =? 0 then Ok ([], f)
  else
    bounds ← readable_slice f 0;
    let '(a, b) := bounds in
    if b - a =? 0 then Ok ([], f)
    else
      match fuel with
      | O => OutOfFuel
      | S fuel =>
          let n := Nat.min (b - a) left in
          items ← assume_init (take n (drop a (buf f)));
          f ← discard f n;
          r ← read_loop fuel f (left - n);
          Ok (items ++ fst r, snd r)
      end.

(** [read] into a destination of [len] items; two rounds are enough. *)
Definition read f (len : nat) : outcome (list A * LinearFifo A) := read_loop 2 f len.

(** [writable_with_size]: the queue and the bounds of the slice; the boolean is [is_ok]. *)
Definition writable_with_size f (size : nat) : outcome (LinearFifo A * (nat * nat) * bool) :=
  r ← ensure_unused_capacity f size;
  let '(f, ok) := r in
  if negb ok then Ok (f, (0, 0), false)
  else
    w ← writable_slice f 0;
    f ← (if snd w - fst w <? size then realign f else Ok f);
    w ← writable_slice f 0;
    if size <=? snd w - fst w then Ok (f, (fst w, fst w + size), true) else Panic.

(** The loop of [write_assume_capacity]. *)
Fixpoint write_loop (fuel : nat) f (src : list A) : outcome (LinearFifo A) :=
  match src with
  | [] => Ok f
  | _ =>
      match fuel with
      | O => OutOfFuel
      | S fuel =>
          w ← writable_slice f 0;
          let n := Nat.min (snd w - fst w) (length src) in
          let f := mkFifo (copy_at (buf f) (fst w) (Some <$> take n src)) (head f) (count f) in
          write_loop fuel (update f n) (drop n src)
      end
  end.

(** Two rounds are enough when there is room. *)
Definition write_assume_capacity f (src : list A) : outcome (LinearFifo A) := write_loop 2 f src.

Definition write_item_assume_capacity f (item : A) : outcome (LinearFifo A) :=
  tail ← wrap_index f (head f + count f);
  if tail <? buf_len f
  then Ok (update (mkFifo (<[tail := Some item]> (buf f)) (head f) (count f)) 1) else Panic.

Definition write_item f (item : A) : outcome (LinearFifo A * bool) :=
  r ← ensure_unused_capacity f 1;
  match r with
  | (f, true) => f ← write_item_assume_capacity f item; Ok (f, true)
  | (f, false) => Ok (f, false)
  end.

Definition write f (src : list A) : outcome (LinearFifo A * bool) :=
  r ← ensure_unused_capacity f (length src);
  match r with
  | (f, true) => f ← write_assume_capacity f src; Ok (f, true)
  | (f, false) => Ok (f, false)
  end.

Definition rewind f (n : nat) : outcome (LinearFifo A) :=
  h ← wrap_index f (head f + usub (buf_len f) n); Ok (mkFifo (buf f) h (count f + n)).

Definition unget f (src : list A) : outcome (LinearFifo A * bool) :=
  r ← ensure_unused_capacity f (length src);
  match r with
  | (f, false) => Ok (f, false)
  | (f, true) =>
      f ← rewind f (length src);
      s ← readable_slice f 0;
      let slice_len := snd s - fst s in
      let n := Nat.min slice_len (length src) in
      let f := mkFifo (copy_at (buf f) (fst s) (Some <$> take n src)) (head f) (count f) in
      if slice_len <? length src then
        s2 ← readable_slice f slice_len;
        if length src - slice_len <=? snd s2 - fst s2
        then Ok (mkFifo (copy_at (buf f) (fst s2) (Some <$> drop slice_len src)) (head f) (count f), true)
        else Panic
      else Ok (f, true)
  end.

Definition peek_item f (offset : nat) : outcome A :=
  i ← wrap_index f (head f + offset);
  match buf f !! i with Some (Some a) => Ok a | _ => Panic end.

(** [shift_down_one(&mut buf[start..end])] *)
Definition shift_down_one (b : list (option A)) (start end_ : nat) : list (option A) :=
  if end_ - start <=? 1 then b
  else copy_at b start (take (end_ - start - 1) (drop (start + 1) b)).

Definition ordered_remove_item f (offset : nat) : outcome (LinearFifo A) :=
  if offset =? 0 then discard f 1
  else if count f <=? usub (buf_len f) (head f) then
    r ← buf_range f (head f + offset) (buf_len f);
    Ok (mkFifo (shift_down_one (buf f) (head f + offset) (buf_len f)) (head f) (usub (count f) 1))
  else
    index ← wrap_index f (head f + offset);
    let wrap_len := head f + count f - buf_len f in
    if index <? head f then
      r ← buf_range f index wrap_len;
      Ok (mkFifo (shift_down_one (buf f) index wrap_len) (head f) (usub (count f) 1))
    else
      w ← index_at (buf f) 0;
      r ← buf_range f index (buf_len f);
      let b := shift_down_one (buf f) index (buf_len f) in
      let b := <[buf_len f - 1 := w]> b in
      Ok (mkFifo (shift_down_one b 0 wrap_len) (head f) (usub (count f) 1)).
End operations.

(** ** Circular indices *)

(** The buffer index of the [i]-th item. *)
Definition slot {A} (f : LinearFifo A) (i : nat) : nat := (head f + i) mod length (buf f).

Lemma slot_lt {A} (f : LinearFifo A) i : 0 < length (buf f) -> slot f i < length (buf f).
Proof. intros H. apply Nat.mod_upper_bound. lia. Qed.

Lemma circular_inj h n i j : i < n -> j < n -> (h + i) mod n = (h + j) mod n -> i = j.
Proof.
  intros Hi Hj E. pose proof (Nat.div_mod_eq (h + i) n). pose proof (Nat.div_mod_eq (h + j) n).
  rewrite E in *. set (a := (h + i) / n) in *. set (b := (h + j) / n) in *.
  destruct (Nat.lt_trichotomy a b) as [Hab|[Hab|Hab]]; [|rewrite Hab in *; lia|]; nia.
Qed.

(** The index by cases, for [head < length] and at most one turn. *)
Lemma circular_cases h n i : h < n -> i <= n -> (h + i) mod n = if h + i <? n then h + i else h + i - n.
Proof.
  intros Hh Hi. destruct (Nat.ltb_spec (h + i) n); [by apply Nat.mod_small|].
  replace (h + i) with (h + i - n + 1 * n) at 1 by lia. rewrite Nat.Div0.mod_add. apply Nat.mod_small. lia.
Qed.

Lemma is_power_of_two_spec n : is_power_of_two n = true <-> exists k, n = 2 ^ k.
Proof.
  unfold is_power_of_two. rewrite andb_true_iff, Nat.ltb_lt, Nat.eqb_eq. split; [intros [_ ->]; by eexists|].
  intros [k ->]. rewrite Nat.log2_pow2 by lia. split; [|done]. pose proof (Nat.pow_nonzero 2 k). lia.
Qed.

(** Splits on the comparisons of the goal. *)
Ltac fifo_cases :=
  repeat match goal with
  | |- context [(?a <=? ?b)] => destruct (Nat.leb_spec a b); cbn [andb]; try lia
  | |- context [(?a <? ?b)] => destruct (Nat.ltb_spec a b); cbn [andb]; try lia
  end; try done.

(** ** The representation *)

Section refinement.
Context {A : Type} (B : Type) `{LinearFifoBuffer B}.
Context (t_size : nat) (Ht : 1 <= t_size <= PAGE_SIZE_MIN / 2).
(** The size of a buffer of a fixed kind. *)
Context (N : nat).

Implicit Types f : LinearFifo A.

(** The shape of the buffer: the head is inside, a masked buffer has a power-of-two size and a
    fixed one keeps its size. *)
Record buffer_ok f : Prop := {
  ok_count : count f <= buf_len f;
  ok_head : head f < buf_len f \/ head f = 0;
  ok_pow2 : POWERS_OF_TWO B = true -> buf_len f = 0 \/ is_power_of_two (buf_len f) = true;
  ok_fixed : DYNAMIC B = false -> buf_len f = N;
}.

(** [f] holds the items [l], in order, all initialised. *)
Record holds f (l : list A) : Prop := {
  holds_ok : buffer_ok f;
  holds_count : count f = length l;
  holds_items : forall i a, l !! i = Some a -> buf f !! slot f i = Some (Some a);
}.

Lemma wrap_index_ok f i : buffer_ok f -> 0 < buf_len f -> wrap_index B f i = Ok (i mod buf_len f).
Proof.
  intros [_ _ Hp _] Hlen. unfold wrap_index. destruct (POWERS_OF_TWO B).
  - destruct (Hp eq_refl) as [?|Hpow]; [lia|]. apply is_power_of_two_spec in Hpow as [k Hk].
    rewrite (proj2 (Nat.eqb_neq _ _)) by lia. rewrite Hk. f_equal.
    rewrite <- Nat.land_ones. f_equal. rewrite Nat.ones_equiv. lia.
  - by rewrite (proj2 (Nat.eqb_neq _ _)) by lia.
Qed.

Lemma discard_ok f l n :
  holds f l -> n <= length l -> 0 < buf_len f ->
  exists f', discard B f n = Ok f' /\ holds f' (drop n l) /\ buf f' = buf f.
Proof.
  intros [Hok Hc Hi] Hn Hlen. unfold discard. rewrite wrap_index_ok by done. cbn [mbind outcome_bind].
  eexists. split; [reflexivity|]. split; [|done]. rewrite usub_le by lia.
  destruct Hok as [H1 H2 H3 H4]. constructor.
  - constructor; unfold buf_len in *; cbn; [lia| |done|done]. left. apply Nat.mod_upper_bound. lia.
  - cbn. rewrite length_drop. lia.
  - intros i a Hia. rewrite lookup_drop in Hia. rewrite <- (Hi _ _ Hia). unfold slot. cbn. f_equal.
    rewrite Nat.Div0.add_mod_idemp_l. f_equal. lia.
Qed.

Lemma read_item_ok f l :
  holds f l ->
  match l with
  | [] => read_item B f = Ok (None, f)
  | a :: l => exists f', read_item B f = Ok (Some a, f') /\ holds f' l
  end.
Proof.
  intros Hf. pose proof Hf as [Hok Hc Hi]. unfold read_item. destruct l as [|a l].
  - by rewrite Hc.
  - rewrite Hc. cbn [length Nat.eqb]. pose proof (Hi 0 a eq_refl) as H0. unfold slot in H0.
    destruct Hok as [H1 H2 H3 H4]. unfold buf_len in *.
    assert (0 < length (buf f)) by (cbn in Hc; lia).
    rewrite Nat.add_0_r, Nat.mod_small in H0 by lia. rewrite H0.
    destruct (discard_ok f (a :: l) 1 Hf ltac:(cbn; lia) ltac:(unfold buf_len; lia)) as (f' & -> & Hf' & _).
    by exists f'.
Qed.

Lemma write_item_assume_capacity_ok f l a :
  holds f l -> length l < buf_len f ->
  exists f', write_item_assume_capacity B f a = Ok f' /\ holds f' (l ++ [a]).
Proof.
  intros [Hok Hc Hi] Hroom. unfold write_item_assume_capacity. rewrite wrap_index_ok by (done || lia).
  cbn [mbind outcome_bind]. pose proof (slot_lt f (count f)) as Hs. unfold slot, buf_len in *.
  rewrite (proj2 (Nat.ltb_lt _ _)) by (apply Hs; lia). eexists. split; [reflexivity|].
  destruct Hok as [H1 H2 H3 H4]. constructor.
  - unfold update. constructor; unfold buf_len in *; cbn; rewrite length_insert; (done || lia).
  - cbn. rewrite length_app. cbn. lia.
  - intros i b Hib. unfold slot. cbn. rewrite length_insert. apply lookup_snoc_Some in Hib as [[Hlt Hib]|[-> <-]].
    + rewrite list_lookup_insert_ne; [by apply Hi|]. intros E. apply circular_inj in E; lia.
    + rewrite Hc. apply list_lookup_insert_eq. rewrite <- Hc. apply Hs. lia.
Qed.

(** Copying items to the slots after the last one. *)
Lemma copy_at_lookup {C} (dst src : list C) s i :
  s + length src <= length dst ->
  copy_at dst s src !! i = if (s <=? i) && (i <? s + length src) then src !! (i - s) else dst !! i.
Proof.
  intros Hle. unfold copy_at. destruct (Nat.leb_spec s i); cbn [andb].
  - rewrite lookup_app_r by (len). rewrite length_take, Nat.min_l by lia.
    destruct (Nat.ltb_spec i (s + length src)).
    + by rewrite lookup_app_l by lia.
    + rewrite lookup_app_r by lia. rewrite lookup_drop. f_equal. lia.
  - rewrite lookup_app_l by (len). by rewrite lookup_take_lt.
Qed.

Lemma copy_at_lookup_in {C} (dst src : list C) s i :
  s + length src <= length dst -> s <= i < s + length src -> copy_at dst s src !! i = src !! (i - s).
Proof.
  intros Hle Hi. rewrite copy_at_lookup by done.
  rewrite (proj2 (Nat.leb_le _ _)), (proj2 (Nat.ltb_lt _ _)) by lia. done.
Qed.

Lemma slot_cases f i :
  head f < length (buf f) -> i <= length (buf f) ->
  slot f i = if head f + i <? length (buf f) then head f + i else head f + i - length (buf f).
Proof. apply circular_cases. Qed.

(** A contiguous copy to the slots from [j] on. *)
Lemma copy_slots f j (xs : list A) i :
  head f < length (buf f) -> j < length (buf f) -> j + length xs <= length (buf f) ->
  slot f j + length xs <= length (buf f) -> i < length (buf f) ->
  copy_at (buf f) (slot f j) (Some <$> xs) !! slot f i =
    if (j <=? i) && (i <? j + length xs) then (Some <$> xs) !! (i - j) else buf f !! slot f i.
Proof.
  intros Hh Hj Hjx Hs Hi. rewrite copy_at_lookup by (rewrite length_fmap; done). rewrite length_fmap.
  rewrite !slot_cases in * by lia.
  destruct (Nat.ltb_spec (head f + j) (length (buf f))), (Nat.ltb_spec (head f + i) (length (buf f)));
    destruct (Nat.leb_spec j i); cbn [andb]; try destruct (Nat.ltb_spec i (j + length xs));
    fifo_cases; f_equal; lia.
Qed.

Lemma slot_head f (b : list (option A)) c i : length b = length (buf f) -> slot (mkFifo b (head f) c) i = slot f i.
Proof. intros E. unfold slot. cbn. by rewrite E. Qed.

(** Writing [xs] contiguously behind the items. *)
Lemma append_chunk_ok f l (xs : list A) :
  holds f l -> head f < length (buf f) -> 1 <= length xs -> length l + length xs <= length (buf f) ->
  slot f (length l) + length xs <= length (buf f) ->
  holds (update (mkFifo (copy_at (buf f) (slot f (length l)) (Some <$> xs)) (head f) (count f)) (length xs)) (l ++ xs).
Proof.
  intros [Hok Hc Hi] Hh Hx Hroom Hs. destruct Hok as [H1 H2 H3 H4]. unfold buf_len, update in *. cbn [buf head count].
  assert (Hlen : length (copy_at (buf f) (slot f (length l)) (Some <$> xs)) = length (buf f))
    by (apply copy_at_length; by rewrite length_fmap).
  constructor.
  - constructor; unfold buf_len; cbn; rewrite Hlen; (done || lia).
  - cbn. rewrite length_app. lia.
  - intros i b Hib. rewrite slot_head by done. cbn [buf].
    assert (i < length l + length xs) by (apply lookup_lt_Some in Hib; by rewrite length_app in Hib).
    rewrite copy_slots by lia. destruct (Nat.leb_spec (length l) i); cbn [andb].
    + rewrite (proj2 (Nat.ltb_lt _ _)) by lia. rewrite lookup_app_r in Hib by lia. by rewrite list_lookup_fmap, Hib.
    + rewrite lookup_app_l in Hib by lia. by apply Hi.
Qed.

(** The first free section. *)
Lemma writable_slice_ok f l :
  holds f l -> head f < length (buf f) -> length l < length (buf f) ->
  exists e, writable_slice f 0 = Ok (slot f (length l), e) /\
    slot f (length l) < e <= length (buf f) /\ length l + (e - slot f (length l)) <= length (buf f) /\
    (e = length (buf f) \/ e - slot f (length l) = length (buf f) - length l) /\
    (slot f (length l) = head f + length l \/ e - slot f (length l) = length (buf f) - length l).
Proof.
  intros [Hok Hc Hi] Hh Hroom. destruct Hok as [H1 H2 H3 H4]. unfold writable_slice, writable_length, buf_range, buf_len in *.
  rewrite slot_cases by lia. rewrite Hc in *. change (length (buf f) <? 0) with false. cbn iota.
  rewrite Nat.add_0_r, Nat.sub_0_r.
  destruct (Nat.ltb_spec (head f + length l) (length (buf f))).
  - rewrite decide_True by lia. eexists. split; [reflexivity|]. lia.
  - rewrite usub_le by lia. cbn. rewrite decide_True by lia. eexists. split; [reflexivity|]. lia.
Qed.

(** One round of the writing loop. *)
Lemma write_round f l (src : list A) fuel :
  holds f l -> head f < length (buf f) -> src <> [] -> length l + length src <= length (buf f) ->
  exists f' n, write_loop (S fuel) f src = write_loop fuel f' (drop n src) /\
    holds f' (l ++ take n src) /\ head f' = head f /\ length (buf f') = length (buf f) /\ 1 <= n <= length src /\
    (n = length src \/ head f + length l + n = length (buf f)).
Proof.
  intros Hf Hh Hne Hroom. assert (1 <= length src) by (destruct src; [done|cbn; lia]).
  destruct (writable_slice_ok f l Hf Hh ltac:(lia)) as (e & Ew & He1 & He2 & He3 & He4).
  set (st := slot f (length l)) in *. set (n := Nat.min (e - st) (length src)).
  exists (update (mkFifo (copy_at (buf f) st (Some <$> take n src)) (head f) (count f)) n), n.
  split_and!; [|..].
  - destruct src as [|a src]; [done|]. cbn [write_loop]. rewrite Ew. reflexivity.
  - assert (Hn : length (take n src) = n) by (len).
    rewrite <- Hn at 2. apply append_chunk_ok; try done; rewrite ?Hn; fold st; lia.
  - done.
  - unfold update. cbn. apply copy_at_length. rewrite length_fmap, length_take. fold st. lia.
  - unfold n. lia.
  - lia.
  - lia.
Qed.

Lemma write_assume_capacity_ok f l (src : list A) :
  holds f l -> (src <> [] -> head f < length (buf f)) -> length l + length src <= length (buf f) ->
  exists f', write_assume_capacity f src = Ok f' /\ holds f' (l ++ src).
Proof.
  intros Hf Hh Hroom. unfold write_assume_capacity.
  destruct (decide (src = [])) as [->|Hne]; [exists f; by rewrite app_nil_r|].
  destruct (write_round f l src 1 Hf (Hh Hne) Hne Hroom) as (f1 & n & -> & Hf1 & Hh1 & Hl1 & Hn & Hcase).
  destruct (decide (drop n src = [])) as [E|E].
  { exists f1. rewrite E. split; [done|]. rewrite take_ge in Hf1; [done|].
    apply (f_equal length) in E. rewrite length_drop in E. cbn in E. lia. }
  assert (Hd : length (drop n src) = length src - n) by apply length_drop.
  assert (n < length src) by (destruct (decide (n < length src)); [done|]; rewrite drop_ge in E by lia; done).
  destruct Hcase as [?|Hcase]; [lia|].
  assert (Hlt : length (l ++ take n src) = length l + n) by (len).
  destruct (write_round f1 (l ++ take n src) (drop n src) 0) as (f2 & m & -> & Hf2 & Hh2 & Hl2 & Hm & Hcase2); try done.
  - rewrite Hh1, Hl1. by apply Hh.
  - lia.
  - assert (m = length (drop n src)) as ->.
    { destruct Hcase2 as [?|Hc2]; [done|]. rewrite Hh1, Hlt, Hl1 in Hc2. lia. }
    rewrite (drop_ge (drop n src)) by lia. exists f2. split; [done|]. rewrite (take_ge (drop n src)) in Hf2 by lia.
    by rewrite <- app_assoc, take_drop in Hf2.
Qed.

Lemma head_lt f : buffer_ok f -> 0 < buf_len f -> head f < length (buf f).
Proof. intros [_ [?|?] _] Hlen; unfold buf_len in *; lia. Qed.

(** Rotating the buffer. *)
Lemma rotate_lookup {C} (b : list C) n j :
  n <= length b -> j < length b -> (drop n b ++ take n b) !! j = b !! ((j + n) mod length b).
Proof.
  intros Hn Hj. destruct (decide (j + n < length b)).
  - rewrite lookup_app_l by (len). rewrite lookup_drop, Nat.mod_small by lia. f_equal. lia.
  - rewrite lookup_app_r by (len). rewrite length_drop, lookup_take_lt by lia. f_equal.
    rewrite <- (Nat.mod_unique (j + n) (length b) 1 (j + n - length b)) by lia. lia.
Qed.

Lemma realign_loop_ok fuel tmp_len f l :
  1 <= tmp_len -> holds f l -> head f < length (buf f) -> head f <= fuel ->
  exists f', realign_loop fuel tmp_len f = Ok f' /\ holds f' l /\ head f' = 0 /\ length (buf f') = length (buf f).
Proof.
  intros Htmp. revert f. induction fuel as [|fuel IH]; intros f Hf Hh Hfuel.
  { exists f. replace (realign_loop 0 tmp_len f) with (@Ok (LinearFifo A) f)
      by (cbn; by rewrite (proj2 (Nat.eqb_eq (head f) 0)) by lia). split_and!; try done. lia. }
  cbn [realign_loop]. destruct (Nat.eqb_spec (head f) 0) as [E|E]; [by exists f|].
  set (n := Nat.min (head f) tmp_len). set (f1 := mkFifo _ _ _).
  assert (Hl1 : length (buf f1) = length (buf f)).
  { unfold f1. cbn. rewrite length_app, length_drop, length_take. lia. }
  destruct (IH f1) as (f' & E' & Hf' & H0 & Hl); [|rewrite Hl1; cbn; lia|cbn; lia|].
  - destruct Hf as [[H1 H2 H3 H4] Hc Hi]. constructor; [constructor; unfold buf_len in *; rewrite ?Hl1; cbn; (done || lia)|done|].
    intros i a Hia. assert (i < length l) by by apply lookup_lt_Some in Hia.
    rewrite <- (Hi i a Hia). unfold slot. rewrite Hl1. cbn [buf head f1]. unfold buf_len in *.
    rewrite rotate_lookup by (lia || (apply Nat.mod_upper_bound; lia)).
    rewrite Nat.Div0.add_mod_idemp_l. do 2 f_equal. lia.
  - exists f'. rewrite E', Hl, Hl1. done.
Qed.

Lemma realign_ok f l :
  holds f l ->
  exists f', realign t_size f = Ok f' /\ holds f' l /\ head f' = 0 /\ length (buf f') = length (buf f).
Proof.
  intros Hf. pose proof Hf as [Hok Hc Hi]. pose proof Hok as [H1 H2 H3 H4]. unfold realign, buf_len in *.
  rewrite usub_le by lia. destruct (Nat.leb_spec (count f) (length (buf f) - head f)).
  - eexists. split; [reflexivity|].
    assert (Hlen : length (copy_at (buf f) 0 (take (count f) (drop (head f) (buf f)))) = length (buf f))
      by (apply copy_at_length; len).
    split_and!; [|done|done]. constructor; [constructor; unfold buf_len; cbn; rewrite ?Hlen; (done || lia)|done|].
    intros i a Hia. assert (i < length l) by by apply lookup_lt_Some in Hia.
    rewrite <- (Hi i a Hia). unfold slot. cbn. rewrite Hlen, !Nat.mod_small by lia.
    rewrite copy_at_lookup_in by (len). rewrite ?Nat.sub_0_r.
    rewrite lookup_take_lt, lookup_drop by lia. done.
  - rewrite (proj2 (Nat.eqb_neq _ _)) by lia. apply realign_loop_ok; try done; [|lia].
    apply Nat.div_le_lower_bound; lia.
Qed.

Lemma next_power_of_two_spec n m :
  checked_next_power_of_two n = Some m -> n <= m /\ is_power_of_two m = true /\ 1 <= m.
Proof.
  unfold checked_next_power_of_two. destruct (_ <=? _)%Z; [|done]. intros [= <-].
  assert (1 <= 2 ^ Nat.log2_up n) by (pose proof (Nat.pow_nonzero 2 (Nat.log2_up n)); lia).
  split_and!; [|apply is_power_of_two_spec; by eexists|done].
  destruct (decide (n <= 1)); [lia|]. apply Nat.log2_up_spec. lia.
Qed.

(** The moved buffer of a growing queue. *)
Lemma grow_ok f l new_size :
  holds f l -> DYNAMIC B = true -> head f = 0 -> length l <= new_size ->
  (POWERS_OF_TWO B = true -> is_power_of_two new_size = true) -> 1 <= new_size ->
  holds (mkFifo (copy_at (replicate new_size None) 0 (take (count f) (buf f))) 0 (count f)) l.
Proof.
  intros [[H1 H2 H3 H4] Hc Hi] Hd Hh Hn Hp Hn1. unfold buf_len in *.
  assert (Hlen : length (copy_at (replicate new_size None) 0 (take (count f) (buf f))) = new_size)
    by (rewrite copy_at_length; rewrite length_replicate; [done|len]).
  constructor; [constructor; unfold buf_len; cbn; rewrite ?Hlen; try lia; [auto|by rewrite Hd]|done|].
  intros i a Hia. assert (i < length l) by by apply lookup_lt_Some in Hia.
  rewrite <- (Hi i a Hia). unfold slot. cbn. rewrite Hlen, Hh, !Nat.mod_small by lia. cbn.
  rewrite copy_at_lookup_in by (len). rewrite Nat.sub_0_r. by rewrite lookup_take_lt by lia.
Qed.

(** The queue cannot make room: the buffer is smaller than [size], and it is of fixed size or
    [size] has no power of two above it. *)
Definition refused f (size : nat) : Prop :=
  buf_len f < size /\ (DYNAMIC B = false \/ (2 ^ 63 < Z.of_nat size)%Z).

Lemma ensure_total_capacity_ok f l size :
  holds f l ->
  exists f' ok, ensure_total_capacity B t_size f size = Ok (f', ok) /\ holds f' l /\
    (if ok then size <= buf_len f' else refused f size).
Proof.
  intros Hf. unfold ensure_total_capacity. destruct (Nat.leb_spec size (buf_len f)); [by exists f, true|].
  destruct (DYNAMIC B) eqn:Hdyn; [|exists f, false; split_and!; try done; by split; [|left]].
  destruct (realign_ok f l Hf) as (f1 & -> & Hf1 & Hh1 & Hl1). cbn [mbind outcome_bind].
  assert (Hcount : count f1 <=? length (buf f1) = true) by (apply Nat.leb_le, Hf1). rewrite Hcount.
  assert (Hc1 : count f1 <= length (buf f)) by (rewrite <- Hl1; apply Hf1). unfold buf_len in *.
  pose proof (holds_count _ _ Hf1) as Hcl.
  destruct (POWERS_OF_TWO B) eqn:Hp2.
  - destruct (checked_next_power_of_two size) as [m|] eqn:Em.
    + destruct (next_power_of_two_spec _ _ Em) as (Hm & Hmp & Hm1). eexists _, true. split; [reflexivity|].
      split; [apply grow_ok; try done; lia|]. cbn. rewrite copy_at_length; rewrite length_replicate; [done|].
      rewrite length_take. lia.
    + eexists _, false. split; [reflexivity|]. split; [done|]. split; [done|right].
      unfold checked_next_power_of_two in Em. destruct (Z.leb_spec (Z.of_nat size) (2 ^ 63)); [done|lia].
  - eexists _, true. split; [reflexivity|].
    split; [apply grow_ok; try done; try lia; by rewrite Hp2|]. cbn. rewrite copy_at_length; rewrite length_replicate; [done|].
    rewrite length_take. lia.
Qed.

Lemma ensure_unused_capacity_ok f l size :
  holds f l ->
  exists f' ok, ensure_unused_capacity B t_size f size = Ok (f', ok) /\ holds f' l /\
    (if ok then length l + size <= buf_len f' else refused f (length l + size)).
Proof.
  intros Hf. pose proof Hf as [[H1 H2 H3 H4] Hc Hi]. unfold ensure_unused_capacity, writable_length.
  rewrite usub_le by lia. destruct (Nat.leb_spec size (buf_len f - count f)).
  { exists f, true. split_and!; try done. lia. }
  rewrite Hc in *. destruct (Z.leb_spec (Z.of_nat (length l + size)) U64_MAX).
  - by apply ensure_total_capacity_ok.
  - exists f, false. do 2 (split; [done|]). split; [lia|right]. unfold U64_MAX in *. lia.
Qed.

(** *** Reading *)

Lemma assume_init_fmap (xs : list A) : assume_init (Some <$> xs) = Ok xs.
Proof. induction xs as [|x xs IH]; [done|]. rewrite fmap_cons. cbn [assume_init]. by rewrite IH. Qed.

(** The readable section at an offset: items [offset], ... of the queue, contiguous. *)
Lemma readable_slice_ok f offset :
  buffer_ok f -> offset < count f ->
  exists e, readable_slice f offset = Ok (slot f offset, e) /\
    slot f offset < e <= length (buf f) /\ offset + (e - slot f offset) <= count f /\
    (e = length (buf f) \/ offset + (e - slot f offset) = count f).
Proof.
  intros [H1 H2 H3 H4] Hoff. unfold readable_slice, buf_range, buf_len in *.
  rewrite (proj2 (Nat.ltb_ge _ _)) by lia. rewrite slot_cases by lia.
  destruct (Nat.leb_spec (length (buf f)) (head f + offset)).
  - rewrite (proj2 (Nat.ltb_ge _ _)), decide_True by lia. eexists. split; [reflexivity|]. lia.
  - rewrite (proj2 (Nat.ltb_lt _ _)), decide_True by lia. eexists. split; [reflexivity|]. lia.
Qed.

Lemma readable_slice_empty f : holds f [] -> exists a, readable_slice f 0 = Ok (a, a).
Proof.
  intros [[H1 H2 H3 H4] Hc Hi]. unfold readable_slice, buf_range, buf_len in *. rewrite Hc in *. cbn [length Nat.ltb Nat.leb].
  rewrite !Nat.add_0_r. destruct (Nat.leb_spec (length (buf f)) (head f)).
  - rewrite decide_True by lia. by eexists.
  - rewrite decide_True by lia. rewrite Nat.min_l by lia. by eexists.
Qed.

(** The slots of a contiguous section hold the items. *)
Lemma section_items f l offset n :
  holds f l -> 0 < length (buf f) -> offset + n <= length l -> slot f offset + n <= length (buf f) ->
  take n (drop (slot f offset) (buf f)) = Some <$> take n (drop offset l).
Proof.
  intros [Hok Hc Hi] Hpos Hn Hs. destruct Hok as [H1 H2 H3 H4]. unfold buf_len in *.
  apply list_eq. intros i. rewrite list_lookup_fmap. destruct (decide (i < n)).
  - rewrite !lookup_take_lt, !lookup_drop by done.
    destruct (lookup_lt_is_Some_2 l (offset + i)) as [a Ha]; [lia|]. rewrite Ha. cbn. rewrite <- (Hi _ _ Ha).
    f_equal. rewrite !slot_cases in * by lia.
    destruct (Nat.ltb_spec (head f + offset) (length (buf f))), (Nat.ltb_spec (head f + (offset + i)) (length (buf f))); lia.
  - rewrite !lookup_take_ge by lia. done.
Qed.

Lemma read_round f l left fuel :
  holds f l -> l <> [] -> left <> 0 ->
  exists f' n, read_loop B (S fuel) f left =
      (r ← read_loop B fuel f' (left - n); Ok (take n l ++ fst r, snd r)) /\
    holds f' (drop n l) /\ 1 <= n <= left /\ n <= length l /\
    (n = left \/ n = length l \/ (head f + n = length (buf f) /\ head f' = 0 /\ length (buf f') = length (buf f))).
Proof.
  intros Hf Hl Hleft. assert (0 < length l) by (destruct l; [done|cbn; lia]).
  pose proof (holds_count _ _ Hf) as Hfc.
  destruct (readable_slice_ok f 0) as (e & E & He & He2 & Hcase); [apply Hf|lia|].
  assert (Hs0 : slot f 0 = head f).
  { pose proof Hf as [[H1 H2 H3 H4] Hc Hi]. unfold slot, buf_len in *. rewrite Nat.add_0_r. apply Nat.mod_small. lia. }
  rewrite Hs0 in *. set (n := Nat.min (e - head f) left).
  destruct (discard_ok f l n Hf) as (f' & Ed & Hf' & Hbuf); [unfold n; lia|unfold buf_len; lia|].
  exists f', n. cbn [read_loop]. rewrite (proj2 (Nat.eqb_neq _ _)) by done. rewrite E. cbn [mbind outcome_bind].
  rewrite (proj2 (Nat.eqb_neq (e - head f) 0)) by lia. fold n. rewrite <- Hs0 at 1.
  rewrite (section_items f l 0 n Hf) by (rewrite ?Hs0; unfold n; lia). rewrite drop_0, assume_init_fmap.
  cbn [mbind outcome_bind]. rewrite Ed. cbn [mbind outcome_bind].
  split_and!; [done|done|unfold n; lia|unfold n; lia|unfold n; lia|].
  destruct (decide (n = left)) as [|Hnl]; [by left|]. destruct (decide (n = length l)) as [|Hnl2]; [by right; left|].
  right; right. assert (n = e - head f) by (unfold n in *; lia). assert (Hhn : head f + n = length (buf f)) by lia.
  split; [done|]. rewrite Hbuf. split; [|done]. pose proof Hf as [Hok _ _]. unfold discard in Ed.
  rewrite wrap_index_ok in Ed by (done || (unfold buf_len; lia)). injection Ed as <-. cbn. unfold buf_len.
  rewrite Hhn. by apply Nat.Div0.mod_same.
Qed.

Lemma read_loop_done f left fuel : left = 0 \/ holds f [] -> read_loop B fuel f left = Ok ([], f).
Proof.
  intros Hcase. destruct (decide (left = 0)) as [->|Hne]; [by destruct fuel|].
  destruct Hcase as [|Hf]; [done|]. destruct (readable_slice_empty f Hf) as [a E].
  destruct fuel; cbn [read_loop]; rewrite (proj2 (Nat.eqb_neq _ _) Hne), E; cbn; rewrite Nat.sub_diag; done.
Qed.

Lemma read_ok f l len :
  holds f l -> exists f', read B f len = Ok (take len l, f') /\ holds f' (drop len l).
Proof.
  intros Hf. unfold read. destruct (decide (len = 0)) as [->|Hlen]; [exists f; rewrite read_loop_done; by auto|].
  destruct (decide (l = [])) as [->|Hl]; [exists f; rewrite read_loop_done, take_nil, drop_nil; by auto|].
  destruct (read_round f l len 1 Hf Hl Hlen) as (f1 & n & -> & Hf1 & Hn & Hnl & Hcase).
  destruct (decide (n = len \/ n = length l)) as [Hdone|Hmore].
  - exists f1. rewrite read_loop_done.
    + cbn. rewrite app_nil_r. destruct Hdone as [->| ->]; [done|]. rewrite !take_ge, !drop_ge by lia.
      by rewrite drop_ge in Hf1 by lia.
    + destruct Hdone as [->| ->]; [left; lia|right]. by rewrite drop_ge in Hf1 by lia.
  - destruct Hcase as [?|[?|(Hhn & Hh0 & Hlb)]]; [tauto|tauto|].
    assert (Hd : length (drop n l) = length l - n) by apply length_drop.
    destruct (read_round f1 (drop n l) (len - n) 0 Hf1) as (f2 & m & -> & Hf2 & Hm & Hml & Hcase2).
    { intros E. rewrite E in Hd. cbn in Hd. lia. } { lia. }
    exists f2. rewrite drop_drop in Hf2.
    assert (Hm2 : m = len - n \/ m = length (drop n l)).
    { pose proof (holds_ok _ _ Hf) as [Hb1 _ _ _]. pose proof (holds_count _ _ Hf). unfold buf_len in *.
      destruct Hcase2 as [?|[?|(E & _)]]; [lia|lia|]. rewrite Hh0, Hlb in E. lia. }
    rewrite read_loop_done.
    + cbn. rewrite app_nil_r. destruct Hm2 as [->| ->].
      * rewrite take_take_drop by lia. replace (n + (len - n)) with len in * by lia. done.
      * rewrite (take_ge (drop n l)), take_drop, take_ge, drop_ge by lia. rewrite drop_ge in Hf2 by lia. done.
    + destruct Hm2 as [->| ->]; [left; lia|right]. by rewrite drop_ge in Hf2 by lia.
Qed.

Lemma peek_item_ok f l i a : holds f l -> l !! i = Some a -> peek_item B f i = Ok a.
Proof.
  intros [Hok Hc Hi] Ha. assert (i < length l) by by apply lookup_lt_Some in Ha. unfold peek_item.
  pose proof Hok as [H1 _ _ _]. rewrite wrap_index_ok by (done || lia). cbn [mbind outcome_bind].
  specialize (Hi i a Ha). unfold slot in Hi. unfold buf_len. by rewrite Hi.
Qed.

(** *** Writing *)

Lemma write_ok f l (src : list A) :
  holds f l ->
  exists f' ok, write B t_size f src = Ok (f', ok) /\
    (if ok then holds f' (l ++ src) else holds f' l /\ refused f (length l + length src)).
Proof.
  intros Hf. unfold write. destruct (ensure_unused_capacity_ok f l (length src) Hf) as (f1 & ok & -> & Hf1 & Hok).
  cbn [mbind outcome_bind]. destruct ok; [|exists f1, false; by split_and!].
  destruct (write_assume_capacity_ok f1 l src) as (f2 & -> & Hf2); [done| |by unfold buf_len in Hok|by exists f2, true].
  intros Hne. apply head_lt; [apply Hf1|]. destruct src; [done|]. cbn in Hok. lia.
Qed.

Lemma write_item_ok f l a :
  holds f l ->
  exists f' ok, write_item B t_size f a = Ok (f', ok) /\
    (if ok then holds f' (l ++ [a]) else holds f' l /\ refused f (length l + 1)).
Proof.
  intros Hf. unfold write_item. destruct (ensure_unused_capacity_ok f l 1 Hf) as (f1 & ok & -> & Hf1 & Hok).
  cbn [mbind outcome_bind]. destruct ok; [|exists f1, false; by split_and!].
  destruct (write_item_assume_capacity_ok f1 l a Hf1) as (f2 & -> & Hf2); [lia|by exists f2, true].
Qed.

(** *** Putting items back in front *)

Lemma rewind_ok f l n :
  holds f l -> 0 < length (buf f) -> length l + n <= length (buf f) ->
  exists f', rewind B f n = Ok f' /\ buffer_ok f' /\ head f' < length (buf f') /\ count f' = n + length l /\
    buf f' = buf f /\ (forall i, slot f' (n + i) = slot f i).
Proof.
  intros [Hok Hc Hi] Hpos Hn. pose proof Hok as [H1 H2 H3 H4]. unfold rewind, buf_len in *. rewrite usub_le by lia.
  rewrite wrap_index_ok by done. cbn [mbind outcome_bind]. eexists. split; [reflexivity|].
  assert (Hh : (head f + (length (buf f) - n)) mod length (buf f) < length (buf f))
    by (apply Nat.mod_upper_bound; lia).
  split_and!; [constructor; unfold buf_len; cbn; (done || lia)|done|cbn; lia|done|]. intros i. unfold slot, buf_len. cbn.
  rewrite Nat.Div0.add_mod_idemp_l. rewrite (Nat.add_comm n i).
  replace (head f + (length (buf f) - n) + (i + n)) with (head f + i + 1 * length (buf f)) by lia.
  apply Nat.Div0.mod_add.
Qed.

Definition slots_hold f (j : nat) (xs : list A) : Prop :=
  forall i a, xs !! i = Some a -> buf f !! slot f (j + i) = Some (Some a).

(** A contiguous copy keeps the slots outside it and fills those inside. *)
Lemma slots_hold_copy f j (xs : list A) f' :
  head f < length (buf f) -> j < length (buf f) -> j + length xs <= length (buf f) ->
  slot f j + length xs <= length (buf f) ->
  f' = mkFifo (copy_at (buf f) (slot f j) (Some <$> xs)) (head f) (count f) ->
  length (buf f') = length (buf f) /\ slots_hold f' j xs /\
  (forall k ys, k + length ys <= length (buf f) -> k + length ys <= j \/ j + length xs <= k ->
     slots_hold f k ys -> slots_hold f' k ys).
Proof.
  intros Hh Hj Hjx Hs ->.
  assert (Hlen : length (copy_at (buf f) (slot f j) (Some <$> xs)) = length (buf f))
    by (apply copy_at_length; by rewrite length_fmap).
  split_and!; [done| |].
  - intros i a Ha. assert (i < length xs) by by apply lookup_lt_Some in Ha.
    rewrite slot_head by done. cbn [buf]. rewrite copy_slots by lia.
    rewrite (proj2 (Nat.leb_le _ _)), (proj2 (Nat.ltb_lt _ _)) by lia. cbn [andb].
    replace (j + i - j) with i by lia. by rewrite list_lookup_fmap, Ha.
  - intros k ys Hk Hdisj Hys i a Ha. assert (i < length ys) by by apply lookup_lt_Some in Ha.
    rewrite slot_head by done. cbn [buf]. rewrite copy_slots by lia.
    destruct (Nat.leb_spec j (k + i)), (Nat.ltb_spec (k + i) (j + length xs)); cbn [andb]; try lia; by apply Hys.
Qed.

Lemma holds_slots f l l' :
  buffer_ok f -> count f = length l + length l' -> slots_hold f 0 l -> slots_hold f (length l) l' -> holds f (l ++ l').
Proof.
  intros Hok Hc H1 H2. constructor; [done|by rewrite length_app|]. intros i a Ha.
  apply lookup_app_Some in Ha as [Ha|[Hi Ha]]; [by apply H1|]. specialize (H2 _ _ Ha).
  by replace (length l + (i - length l)) with i in H2 by lia.
Qed.

Lemma buffer_ok_buf f (b : list (option A)) :
  length b = length (buf f) -> buffer_ok f -> buffer_ok (mkFifo b (head f) (count f)).
Proof. intros E [H1 H2 H3 H4]. constructor; unfold buf_len in *; cbn; by rewrite E. Qed.

(** Filling the first [length src] slots through the readable slices. *)
Definition unget_fill f (src : list A) : outcome (LinearFifo A * bool) :=
  s ← readable_slice f 0;
  let slice_len := snd s - fst s in
  let n := Nat.min slice_len (length src) in
  let f := mkFifo (copy_at (buf f) (fst s) (Some <$> take n src)) (head f) (count f) in
  if slice_len <? length src then
    s2 ← readable_slice f slice_len;
    if length src - slice_len <=? snd s2 - fst s2
    then Ok (mkFifo (copy_at (buf f) (fst s2) (Some <$> drop slice_len src)) (head f) (count f), true)
    else Panic
  else Ok (f, true).

Lemma unget_fill_ok f l (src : list A) :
  buffer_ok f -> head f < length (buf f) -> src <> [] -> count f = length src + length l ->
  slots_hold f (length src) l -> exists f', unget_fill f src = Ok (f', true) /\ holds f' (src ++ l).
Proof.
  intros Hok Hh Hne Hc Hl. assert (0 < length src) by (destruct src; [done|cbn; lia]).
  pose proof (ok_count _ Hok) as Hcl. unfold buf_len in Hcl.
  destruct (readable_slice_ok f 0 Hok) as (e & E & He & He2 & Hcase); [lia|].
  unfold unget_fill. rewrite E. cbn [mbind outcome_bind fst snd].
  set (m := e - slot f 0) in *. set (n := Nat.min m (length src)). set (f1 := mkFifo _ _ _).
  assert (Htake : length (take n src) = n) by (rewrite length_take; unfold n; lia).
  destruct (slots_hold_copy f 0 (take n src) f1) as (Hlen1 & Hfill1 & Hkeep1); try done; rewrite ?Htake; try (unfold n; lia).
  assert (Hok1 : buffer_ok f1) by (apply buffer_ok_buf; [exact Hlen1|done]).
  assert (Hl1 : slots_hold f1 (length src) l) by (apply Hkeep1; [lia|right; rewrite Htake; unfold n; lia|done]).
  destruct (Nat.ltb_spec m (length src)) as [Hm|Hm]; cycle 1.
  { exists f1. split; [done|]. apply holds_slots; try done. rewrite take_ge in Hfill1; [done|unfold n; lia]. }
  assert (n = m) as -> by (unfold n; lia).
  destruct (readable_slice_ok f1 m Hok1) as (e2 & E2 & Hs2 & Hs3 & Hcase2); [cbn; lia|].
  rewrite E2. cbn [mbind outcome_bind fst snd].
  assert (Hs0 : slot f1 m = 0).
  { unfold slot. rewrite Hlen1. change (head f1) with (head f). unfold m.
    assert (Hslot : slot f 0 = head f) by (unfold slot; rewrite Nat.add_0_r; apply Nat.mod_small; lia).
    rewrite Hslot in *. replace (head f + (e - head f)) with (length (buf f)) by lia. by apply Nat.Div0.mod_same. }
  assert (count f1 = count f) by done. assert (head f1 = head f) by done. rewrite Hlen1 in *.
  rewrite (proj2 (Nat.leb_le _ _)) by lia. eexists. split; [reflexivity|].
  assert (Hdrop : length (drop m src) = length src - m) by apply length_drop.
  destruct (slots_hold_copy f1 m (drop m src) (mkFifo (copy_at (buf f1) (slot f1 m) (Some <$> drop m src)) (head f1) (count f1)))
    as (Hlen2 & Hfill2 & Hkeep2); try done; rewrite ?Hlen1, ?Hdrop; try lia.
  replace (src ++ l) with (take m src ++ (drop m src ++ l)) by (by rewrite app_assoc, take_drop).
  apply holds_slots.
  - apply buffer_ok_buf; [exact Hlen2|done].
  - cbn. rewrite length_app, length_take, length_drop. lia.
  - apply Hkeep2; [rewrite Htake, Hlen1; lia|rewrite Htake; lia|done].
  - rewrite Htake. intros i a Ha. apply lookup_app_Some in Ha as [Ha|[Hi Ha]]; [by apply Hfill2|].
    rewrite Hdrop in Ha, Hi. replace (m + i) with (length src + (i - (length src - m))) by lia.
    eapply (Hkeep2 (length src) l); [rewrite Hlen1; lia|right; lia|done|done].
Qed.

Lemma unget_fill_nil_ok f l : holds f l -> exists f', unget_fill f [] = Ok (f', true) /\ holds f' l.
Proof.
  intros Hf. exists f. split; [|done]. unfold unget_fill.
  assert (exists b, readable_slice f 0 = Ok b) as [b ->].
  { destruct (decide (l = [])) as [->|Hl]; [destruct (readable_slice_empty _ Hf) as [a ->]; by eexists|].
    destruct (readable_slice_ok f 0) as (e & -> & _); [apply Hf| |by eexists].
    rewrite (holds_count _ _ Hf). destruct l; [done|cbn; lia]. }
  cbn [mbind outcome_bind]. rewrite take_nil, fmap_nil, copy_at_nil. cbn. by destruct f.
Qed.

Lemma unget_ok f l (src : list A) :
  holds f l -> (src = [] -> 0 < buf_len f) ->
  exists f' ok, unget B t_size f src = Ok (f', ok) /\
    (if ok then holds f' (src ++ l) else holds f' l /\ refused f (length l + length src)).
Proof.
  intros Hf Hsrc. destruct (ensure_unused_capacity_ok f l (length src) Hf) as (f1 & ok & E & Hf1 & Hok).
  unfold unget. rewrite E. cbn [mbind outcome_bind].
  destruct ok; [|exists f1, false; by split_and!].
  assert (Hpos : 0 < length (buf f1)).
  { destruct src; [|cbn in Hok; unfold buf_len in Hok; lia].
    unfold ensure_unused_capacity in E. cbn in E. injection E as <-. by apply Hsrc. }
  unfold buf_len in Hok. destruct (rewind_ok f1 l (length src) Hf1 Hpos) as (f2 & -> & Hok2 & Hh2 & Hc2 & Hb2 & Hs2); [lia|].
  cbn [mbind outcome_bind]. fold (unget_fill f2 src).
  assert (Hl2 : slots_hold f2 (length src) l).
  { intros i a Ha. rewrite Hs2, Hb2. by apply Hf1. }
  destruct (decide (src = [])) as [->|Hne].
  - destruct (unget_fill_nil_ok f2 l) as (f3 & -> & Hf3); [by constructor|by exists f3, true].
  - destruct (unget_fill_ok f2 l src) as (f3 & -> & Hf3); try done. by exists f3, true.
Qed.

(** *** Removing an item in the middle *)

Lemma shift_down_one_length (b : list (option A)) s e :
  s <= e <= length b -> length (shift_down_one b s e) = length b.
Proof.
  intros H0. unfold shift_down_one. destruct (Nat.leb_spec (e - s) 1); [done|].
  apply copy_at_length. rewrite length_take, length_drop. lia.
Qed.

Lemma shift_down_one_lookup (b : list (option A)) s e i :
  s <= e <= length b ->
  shift_down_one b s e !! i = if (s <=? i) && (S i <? e) then b !! S i else b !! i.
Proof.
  intros He. unfold shift_down_one. destruct (Nat.leb_spec (e - s) 1) as [H1|H1].
  - destruct (Nat.leb_spec s i), (Nat.ltb_spec (S i) e); (done || lia).
  - rewrite copy_at_lookup by (len). rewrite length_take, length_drop.
    replace (s + Nat.min (e - s - 1) (length b - (s + 1))) with (e - 1) by lia.
    destruct (Nat.leb_spec s i), (Nat.ltb_spec (S i) e), (Nat.ltb_spec i (e - 1)); cbn [andb]; try lia; try done.
    rewrite lookup_take_lt, lookup_drop by lia. f_equal. lia.
Qed.

(** The buffer of [ordered_remove_item] when both ends move: the wrapped item goes last. *)
Definition wrapped_shift (b : list (option A)) (k : nat) (w : option A) (wl : nat) : list (option A) :=
  shift_down_one (<[length b - 1 := w]> (shift_down_one b k (length b))) 0 wl.

Lemma wrapped_shift_length b k w wl :
  k < length b -> wl <= length b -> length (wrapped_shift b k w wl) = length b.
Proof.
  intros Hk Hw. unfold wrapped_shift.
  by rewrite shift_down_one_length, length_insert, shift_down_one_length by (rewrite ?length_insert, ?shift_down_one_length; lia).
Qed.

Lemma wrapped_shift_lookup b k w wl i :
  k < length b -> wl <= k ->
  wrapped_shift b k w wl !! i =
    if S i <? wl then b !! S i
    else if decide (i = length b - 1) then Some w
    else if (k <=? i) && (S i <? length b) then b !! S i else b !! i.
Proof.
  intros Hk Hw. unfold wrapped_shift.
  rewrite shift_down_one_lookup by (rewrite length_insert, shift_down_one_length; lia). cbn [Nat.leb andb].
  destruct (Nat.ltb_spec (S i) wl).
  - rewrite list_lookup_insert_ne, shift_down_one_lookup by lia. fifo_cases.
  - case_decide as E; [subst i; apply list_lookup_insert_eq; rewrite shift_down_one_length; lia|].
    by rewrite list_lookup_insert_ne, shift_down_one_lookup by lia.
Qed.

(** A new buffer holds the list without the [k]-th item when slots before [k] are kept and
    the others take the next one. *)
Lemma holds_delete f l k (b : list (option A)) :
  holds f l -> k < length l -> length b = length (buf f) ->
  (forall i, i < k -> b !! slot f i = buf f !! slot f i) ->
  (forall i, k <= i -> S i < length l -> b !! slot f i = buf f !! slot f (S i)) ->
  holds (mkFifo b (head f) (usub (count f) 1)) (delete k l).
Proof.
  intros [Hok Hc Hi] Hk Hlen Hlow Hhigh. rewrite usub_le by lia. constructor.
  - destruct Hok as [H1 H2 H3 H4]. constructor; unfold buf_len in *; cbn; rewrite Hlen; (done || lia).
  - cbn. rewrite length_delete by (by apply lookup_lt_is_Some_2). lia.
  - intros i a Ha. rewrite slot_head by done. cbn [buf]. destruct (decide (i < k)).
    + rewrite Hlow by done. rewrite list_lookup_delete_lt in Ha by done. by apply Hi.
    + rewrite list_lookup_delete_ge in Ha by lia. pose proof (lookup_lt_Some _ _ _ Ha).
      rewrite Hhigh by lia. by apply Hi.
Qed.

Lemma ordered_remove_item_ok f l k :
  holds f l -> k < length l ->
  exists f', ordered_remove_item B f k = Ok f' /\ holds f' (delete k l).
Proof.
  intros Hf Hk. pose proof Hf as [Hok Hc Hi]. pose proof Hok as [H1 H2 H3 H4]. unfold buf_len in *.
  unfold ordered_remove_item. destruct (Nat.eqb_spec k 0) as [->|Hk0].
  { destruct (discard_ok f l 1 Hf) as (f' & -> & Hf' & _); [lia|unfold buf_len; lia|]. exists f'.
    destruct l; [cbn in Hk; lia|done]. }
  unfold buf_len. rewrite usub_le by lia. rewrite Hc. unfold buf_range, buf_len.
  assert (Hsl : forall i, i < length l ->
    slot f i = if head f + i <? length (buf f) then head f + i else head f + i - length (buf f))
    by (intros; apply slot_cases; lia).
  destruct (Nat.leb_spec (length l) (length (buf f) - head f)).
  { rewrite decide_True by lia. cbn [mbind outcome_bind]. eexists. split; [reflexivity|]. rewrite <- Hc.
    apply holds_delete; try done; [by rewrite shift_down_one_length by lia| |];
      intros i **; rewrite shift_down_one_lookup, !Hsl by lia; fifo_cases; f_equal; lia. }
  rewrite wrap_index_ok by (done || (unfold buf_len; lia)). cbn [mbind outcome_bind].
  change ((head f + k) mod buf_len f) with (slot f k). rewrite Hsl by lia.
  destruct (Nat.ltb_spec (head f + k) (length (buf f))).
  - rewrite (proj2 (Nat.ltb_ge _ _)) by lia.
    destruct (lookup_lt_is_Some_2 (buf f) 0) as [w Hw]; [lia|]. rewrite (index_at_ok _ _ _ Hw). cbn [mbind outcome_bind].
    rewrite decide_True by lia. cbn [mbind outcome_bind]. eexists. split; [reflexivity|].
    fold (wrapped_shift (buf f) (head f + k) w (head f + length l - length (buf f))). rewrite <- Hc at 2.
    apply holds_delete; try done; [by rewrite wrapped_shift_length by lia| |];
      intros i **; rewrite wrapped_shift_lookup, !Hsl by lia; rewrite <- ?Hw; fifo_cases;
      repeat case_decide; f_equal; lia.
  - rewrite (proj2 (Nat.ltb_lt _ _)), decide_True by lia. cbn [mbind outcome_bind].
    eexists. split; [reflexivity|]. rewrite <- Hc.
    apply holds_delete; try done; [by rewrite shift_down_one_length by lia| |];
      intros i **; rewrite shift_down_one_lookup, !Hsl by lia; fifo_cases; f_equal; lia.
Qed.

(** *** Changing the capacity *)

Lemma shrink_ok f l size :
  holds f l -> length l <= size -> (POWERS_OF_TWO B = true -> size = 0 \/ is_power_of_two size = true) ->
  exists f', shrink B t_size f size = Ok f' /\ holds f' l.
Proof.
  intros Hf Hl Hp. unfold shrink. destruct (DYNAMIC B) eqn:Hd; [|by exists f].
  destruct (realign_ok f l Hf) as (f1 & -> & [[H1 H2 H3 H4] Hc Hi] & Hh & Hlen). cbn [mbind outcome_bind].
  eexists. split; [reflexivity|]. unfold buf_len in *.
  assert (Hr : length (realloc (buf f1) size) = size)
    by (unfold realloc; len).
  constructor; [constructor; unfold buf_len; cbn; rewrite ?Hr; [lia|lia|done|by rewrite Hd]|done|].
  intros i a Ha. assert (i < length l) by by apply lookup_lt_Some in Ha.
  rewrite <- (Hi i a Ha). unfold slot. cbn. rewrite Hr, Hh, !Nat.mod_small by lia. cbn.
  unfold realloc. rewrite lookup_app_l by (len). by rewrite lookup_take_lt by lia.
Qed.

Lemma init_dynamic_ok : DYNAMIC B = true -> holds init_dynamic [].
Proof. intros Hd. constructor; [constructor; cbn; auto; by rewrite Hd|done|done]. Qed.

Lemma init_static_ok :
  (POWERS_OF_TWO B = true -> is_power_of_two N = true) -> holds (init_static N) [].
Proof.
  intros Hp. constructor; [|done|done].
  constructor; unfold buf_len; cbn; rewrite ?length_replicate; auto with lia.
Qed.
End refinement.

(** ** The queue refines a list

    The operations as data, their effect on the queue and on the list of its items. *)

Inductive fifo_op (A : Type) :=
| OpWrite (src : list A)
| OpWriteItem (item : A)
| OpRead (len : nat)
| OpReadItem
| OpDiscard (n : nat)
| OpUnget (src : list A)
| OpPeek (offset : nat)
| OpRemove (offset : nat)
| OpEnsureTotal (size : nat)
| OpEnsureUnused (size : nat)
| OpShrink (size : nat)
| OpRealign.
Arguments OpWrite {A} src.
Arguments OpWriteItem {A} item.
Arguments OpRead {A} len.
Arguments OpReadItem {A}.
Arguments OpDiscard {A} n.
Arguments OpUnget {A} src.
Arguments OpPeek {A} offset.
Arguments OpRemove {A} offset.
Arguments OpEnsureTotal {A} size.
Arguments OpEnsureUnused {A} size.
Arguments OpShrink {A} size.
Arguments OpRealign {A}.

Inductive fifo_result (A : Type) := Done | Refused | Items (items : list A).
Arguments Done {A}.
Arguments Refused {A}.
Arguments Items {A} items.

Section traces.
Context {A : Type} (B : Type) `{LinearFifoBuffer B}.
Context (t_size : nat) (N : nat).

Implicit Types (f : LinearFifo A) (l : list A) (op : fifo_op A).

Definition allocated (r : LinearFifo A * bool) : outcome (LinearFifo A * fifo_result A) :=
  Ok (fst r, if snd r then Done else Refused).

Definition fifo_step f op : outcome (LinearFifo A * fifo_result A) :=
  match op with
  | OpWrite src => r ← write B t_size f src; allocated r
  | OpWriteItem item => r ← write_item B t_size f item; allocated r
  | OpRead len => r ← read B f len; Ok (snd r, Items (fst r))
  | OpReadItem => r ← read_item B f; Ok (snd r, Items (option_list (fst r)))
  | OpDiscard n => f ← discard B f n; Ok (f, Done)
  | OpUnget src => r ← unget B t_size f src; allocated r
  | OpPeek offset => a ← peek_item B f offset; Ok (f, Items [a])
  | OpRemove offset => f ← ordered_remove_item B f offset; Ok (f, Done)
  | OpEnsureTotal size => r ← ensure_total_capacity B t_size f size; allocated r
  | OpEnsureUnused size => r ← ensure_unused_capacity B t_size f size; allocated r
  | OpShrink size => f ← shrink B t_size f size; Ok (f, Done)
  | OpRealign => f ← realign t_size f; Ok (f, Done)
  end.

(** The items the buffer must have room for. *)
Definition room l op : nat :=
  match op with
  | OpWrite src | OpUnget src => length l + length src
  | OpWriteItem _ => length l + 1
  | OpEnsureTotal size => size
  | OpEnsureUnused size => length l + size
  | _ => 0
  end.

(** The list queue, without a bound. *)
Definition list_step l op : list A * fifo_result A :=
  match op with
  | OpWrite src => (l ++ src, Done)
  | OpWriteItem item => (l ++ [item], Done)
  | OpRead len => (drop len l, Items (take len l))
  | OpReadItem => (tail l, Items (take 1 l))
  | OpDiscard n => (drop n l, Done)
  | OpUnget src => (src ++ l, Done)
  | OpPeek offset => (l, Items (take 1 (drop offset l)))
  | OpRemove offset => (delete offset l, Done)
  | OpEnsureTotal _ | OpEnsureUnused _ | OpShrink _ | OpRealign => (l, Done)
  end.

(** What a caller must respect (the debug assertions of the code, and a size that keeps the
    mask of a masked buffer). *)
Definition allowed l op : bool :=
  match op with
  | OpDiscard n => bool_decide (0 < n <= length l)
  | OpUnget src => bool_decide (0 < length src)
  | OpPeek offset | OpRemove offset => bool_decide (offset < length l)
  | OpShrink size =>
      bool_decide (length l <= size) && (negb (POWERS_OF_TWO B) || (size =? 0) || is_power_of_two size)
  | _ => true
  end.

(** The queue of the buffer kind: a fixed one refuses what does not fit in [N] items. *)
Definition queue_step l op : list A * fifo_result A :=
  if negb (DYNAMIC B) && (N <? room l op) then (l, Refused) else list_step l op.

Fixpoint run_trace f (ops : list (fifo_op A)) : outcome (LinearFifo A * list (fifo_result A)) :=
  match ops with
  | [] => Ok (f, [])
  | op :: ops => r ← fifo_step f op; t ← run_trace (fst r) ops; Ok (fst t, snd r :: snd t)
  end.

Fixpoint queue_trace l (ops : list (fifo_op A)) : list A * list (fifo_result A) :=
  match ops with
  | [] => (l, [])
  | op :: ops => let r := queue_step l op in let t := queue_trace (fst r) ops in (fst t, snd r :: snd t)
  end.

(** The operations are allowed where they are called, and what is stored stays below [2^63]. *)
Fixpoint trace_allowed l (ops : list (fifo_op A)) : bool :=
  match ops with
  | [] => true
  | op :: ops =>
      allowed l op && (Z.of_nat (room l op) <=? 2 ^ 63)%Z && trace_allowed (fst (queue_step l op)) ops
  end.

Lemma queue_step_fits l op : (DYNAMIC B = false -> room l op <= N) -> queue_step l op = list_step l op.
Proof.
  intros Hf. unfold queue_step. destruct (DYNAMIC B); [done|]. cbn [negb andb].
  by rewrite (proj2 (Nat.ltb_ge _ _)) by auto.
Qed.

Lemma alloc_step_ok f l l' op (g : outcome (LinearFifo A * bool)) :
  holds B N f l -> (Z.of_nat (room l op) <= 2 ^ 63)%Z -> list_step l op = (l', Done) ->
  (exists f' ok, g = Ok (f', ok) /\
     (if ok then holds B N f' l' /\ room l op <= buf_len f'
      else holds B N f' l /\ refused B f (room l op))) ->
  exists f', (r ← g; allocated r) = Ok (f', snd (queue_step l op)) /\ holds B N f' (fst (queue_step l op)).
Proof.
  intros Hf Hroom Hl (f' & ok & -> & Hok). exists f'. cbn. destruct ok.
  - destruct Hok as [Hf' Hr]. rewrite queue_step_fits, Hl; [done|]. intros Hd.
    by rewrite <- (ok_fixed _ _ _ (holds_ok _ _ _ _ Hf') Hd).
  - destruct Hok as [Hf' [Hlt [Hd|?]]]; [|lia]. unfold queue_step.
    rewrite (ok_fixed _ _ _ (holds_ok _ _ _ _ Hf) Hd) in Hlt. rewrite Hd, (proj2 (Nat.ltb_lt _ _)) by done. done.
Qed.

(** [holds] bounds the items by the buffer. *)
Lemma holds_length f l : holds B N f l -> length l <= buf_len f.
Proof. intros [[H1 _ _ _] <- _]. done. Qed.

Lemma fifo_step_ok f l op :
  1 <= t_size <= PAGE_SIZE_MIN / 2 -> holds B N f l -> allowed l op = true ->
  (Z.of_nat (room l op) <= 2 ^ 63)%Z ->
  exists f', fifo_step f op = Ok (f', snd (queue_step l op)) /\ holds B N f' (fst (queue_step l op)).
Proof.
  intros Ht Hf Ha Hroom.
  destruct op; cbn [fifo_step allowed] in *;
    repeat match goal with H : bool_decide _ = true |- _ => apply bool_decide_eq_true in H end;
    try (eapply alloc_step_ok; [done..|]; cbn [room]);
    try (rewrite queue_step_fits by (cbn; lia); cbn [list_step fst snd]).
  - destruct (write_ok B t_size Ht N f l src Hf) as (f' & ok & -> & Hf'). exists f', ok. split; [done|].
    destruct ok; [|done]. split; [done|]. apply holds_length in Hf'. by rewrite length_app in Hf'.
  - destruct (write_item_ok B t_size Ht N f l item Hf) as (f' & ok & -> & Hf'). exists f', ok. split; [done|].
    destruct ok; [|done]. split; [done|]. apply holds_length in Hf'. by rewrite length_app in Hf'.
  - destruct (read_ok B t_size Ht N f l len Hf) as (f' & -> & Hf'). by exists f'.
  - pose proof (read_item_ok B t_size Ht N f l Hf) as Hr. destruct l as [|a l]; [rewrite Hr; by exists f|].
    destruct Hr as (f' & -> & Hf'). exists f'. cbn. by rewrite take_0.
  - destruct (discard_ok B t_size Ht N f l n Hf) as (f' & -> & Hf' & _); [lia| |by exists f'].
    apply holds_length in Hf. lia.
  - destruct (unget_ok B t_size Ht N f l src Hf) as (f' & ok & -> & Hf'); [intros ->; cbn in *; lia|].
    exists f', ok. split; [done|]. destruct ok; [|done]. split; [done|].
    apply holds_length in Hf'. by rewrite length_app, Nat.add_comm in Hf'.
  - destruct (lookup_lt_is_Some_2 l offset Ha) as [a Hl]. rewrite (peek_item_ok B t_size Ht N f l offset a Hf Hl).
    exists f. cbn. by rewrite (drop_S _ _ _ Hl), firstn_cons, firstn_O.
  - destruct (ordered_remove_item_ok B t_size Ht N f l offset Hf Ha) as (f' & -> & Hf'). by exists f'.
  - destruct (ensure_total_capacity_ok B t_size Ht N f l size Hf) as (f' & ok & -> & Hf' & Hb).
    exists f', ok. by destruct ok.
  - destruct (ensure_unused_capacity_ok B t_size Ht N f l size Hf) as (f' & ok & -> & Hf' & Hb).
    exists f', ok. by destruct ok.
  - apply andb_true_iff in Ha as [Hl Hp]. apply bool_decide_eq_true in Hl.
    destruct (shrink_ok B t_size Ht N f l size Hf Hl) as (f' & -> & Hf'); [|by exists f'].
    intros Hp2. rewrite Hp2 in Hp. cbn in Hp. apply orb_true_iff in Hp as [Hp|Hp]; [left; by apply Nat.eqb_eq|by right].
  - destruct (realign_ok B t_size Ht N f l Hf) as (f' & -> & Hf' & _). by exists f'.
Qed.

Lemma run_trace_ok ops f l :
  1 <= t_size <= PAGE_SIZE_MIN / 2 -> holds B N f l -> trace_allowed l ops = true ->
  exists f', run_trace f ops = Ok (f', snd (queue_trace l ops)) /\ holds B N f' (fst (queue_trace l ops)).
Proof.
  intros Ht. revert f l. induction ops as [|op ops IH]; intros f l Hf Ha; [by exists f|].
  cbn in Ha. apply andb_true_iff in Ha as [Ha Hops]. apply andb_true_iff in Ha as [Ha Hroom]. apply Z.leb_le in Hroom.
  destruct (fifo_step_ok f l op Ht Hf Ha Hroom) as (f1 & E & Hf1).
  destruct (IH f1 _ Hf1 Hops) as (f2 & E2 & Hf2).
  exists f2. cbn [run_trace queue_trace fst snd]. rewrite E. cbn [mbind outcome_bind fst snd]. by rewrite E2.
Qed.
End traces.

(** (C36) A growable queue refines a list: whatever allowed operations are run from
    [init] (items of at most half a page, fewer than [2^63] of them), none panics or diverges, no
    uninitialised slot is read, and every result is the one of the list of items. *)
Theorem dynamic_queue_refines_list {A} (t_size : nat) (ops : list (fifo_op A)) :
  1 <= t_size <= PAGE_SIZE_MIN / 2 -> trace_allowed DynamicBuffer 0 [] ops = true ->
  exists f, run_trace DynamicBuffer t_size init_dynamic ops = Ok (f, snd (queue_trace DynamicBuffer 0 [] ops)).
Proof.
  intros Ht Ha. destruct (run_trace_ok DynamicBuffer t_size 0 ops init_dynamic [] Ht) as (f & E & _); [|done|by exists f].
  by eapply init_dynamic_ok.
Qed.

Lemma dynamic_queue_refines_list_witness :
  exists f, run_trace DynamicBuffer 1 init_dynamic
              [OpWrite [1; 2; 3]; OpReadItem; OpWrite [4; 5; 6]; OpUnget [0]; OpRemove 2; OpRead 9] =
            Ok (f, [Done; Items [1]; Done; Done; Done; Items [0; 2; 4; 5; 6]]).
Proof.
  apply (dynamic_queue_refines_list 1 [OpWrite [1; 2; 3]; OpReadItem; OpWrite [4; 5; 6]; OpUnget [0]; OpRemove 2; OpRead 9]);
    [split; [lia|apply Nat.leb_le; vm_compute; reflexivity]|vm_compute; reflexivity].
Defined.

(** The same of a queue in a fixed buffer of [N] items, masked or not: it is the
    list queue that refuses what would exceed [N] items, and a refusal changes nothing. *)
Theorem static_queue_refines_bounded_list {A} (N t_size : nat) (ops : list (fifo_op A)) :
  1 <= t_size <= PAGE_SIZE_MIN / 2 -> trace_allowed (StaticBuffer N) N [] ops = true ->
  exists f, run_trace (StaticBuffer N) t_size (init_static N) ops = Ok (f, snd (queue_trace (StaticBuffer N) N [] ops)).
Proof.
  intros Ht Ha. destruct (run_trace_ok (StaticBuffer N) t_size N ops (init_static N) [] Ht) as (f & E & _); [|done|by exists f].
  by eapply init_static_ok.
Qed.

Lemma static_queue_refines_bounded_list_witness :
  exists f, run_trace (StaticBuffer 3) 1 (init_static 3)
              [OpWrite [1; 2; 3]; OpReadItem; OpWriteItem 4; OpWriteItem 5; OpRead 9] =
            Ok (f, [Done; Items [1]; Done; Refused; Items [2; 3; 4]]).
Proof.
  apply (static_queue_refines_bounded_list 3 1 [OpWrite [1; 2; 3]; OpReadItem; OpWriteItem 4; OpWriteItem 5; OpRead 9]);
    [split; [lia|apply Nat.leb_le; vm_compute; reflexivity]|vm_compute; reflexivity].
Defined.

(** [shrink] of a growable queue to a size that is not a power of two leaves a
    buffer whose mask skips slots: the next item written lands on the stored one, so that the
    first is lost and the second is read in its place. *)
Theorem shrink_breaks_mask :
  exists f, run_trace DynamicBuffer 1 init_dynamic
              [OpEnsureTotal 4; OpWrite [10]; OpShrink 3; OpWriteItem 20; OpReadItem] =
            Ok (f, [Done; Done; Done; Done; Items [20]]).
Proof. eexists. vm_compute. reflexivity. Qed.
