(* ===== verification/PairingHeap.v ===== *)
(** * The intrusive pairing heap of the timers ([io/heap.rs])

    A node is the element itself: its [IntrusiveField] holds raw pointers to the leftmost child,
    to the next sibling, and back to the previous sibling (or, for a leftmost child, to the
    parent).  The memory is a finite map from addresses to these fields; following a null or
    dangling pointer has no behaviour ([Panic]).  The elements' keys do not change while they are
    in the heap, so that [HeapContext::less] is a parameter on addresses.

    The specification is a priority queue: the set of the elements, with the least one found
    first.  Between the two stands a binary tree ([child], [next]) that the pointers represent. *)

From stdpp Require Import gmap.
From S2P Require Import Prelude.

Local Open Scope nat_scope.

(** ** Memory *)

Notation ptr := (option positive).

Record IntrusiveField := mkField { child : ptr; prev : ptr; next : ptr }.

Definition IntrusiveField_default : IntrusiveField := mkField None None None.

Notation Memory := (gmap positive IntrusiveField).

(** The embedded field of a node. *)
Definition field (m : Memory) (p : positive) : outcome IntrusiveField :=
  match m !! p with Some f => Ok f | None => Panic end.

Definition set_child (m : Memory) (p : positive) (q : ptr) : outcome Memory :=
  f ← field m p; Ok (<[p := mkField q (prev f) (next f)]> m).
Definition set_prev (m : Memory) (p : positive) (q : ptr) : outcome Memory :=
  f ← field m p; Ok (<[p := mkField (child f) q (next f)]> m).
Definition set_next (m : Memory) (p : positive) (q : ptr) : outcome Memory :=
  f ← field m p; Ok (<[p := mkField (child f) (prev f) q]> m).

(** ** The operations *)

Record Intrusive := mkHeap { root : ptr; memory : Memory }.

Section operations.
Context (less : positive -> positive -> bool).

Definition meld (m : Memory) (a b : positive) : outcome (Memory * positive) :=
  if less a b then
    m ← set_prev m b (Some a);
    fb ← field m b;
    m ← match next fb with
        | Some b_next =>
            m ← set_next m a (Some b_next);
            m ← set_prev m b_next (Some a);
            set_next m b None
        | None => Ok m
        end;
    fa ← field m a;
    m ← match child fa with
        | Some a_child =>
            m ← set_next m b (Some a_child);
            set_prev m a_child (Some b)
        | None => Ok m
        end;
    m ← set_child m a (Some b);
    Ok (m, a)
  else
    fa ← field m a;
    m ← set_prev m b (prev fa);
    m ← set_prev m a (Some b);
    fb ← field m b;
    m ← match child fb with
        | Some b_child =>
            m ← set_next m a (Some b_child);
            set_prev m b_child (Some a)
        | None => Ok m
        end;
    m ← set_child m b (Some a);
    Ok (m, b).

(** "Merge pairs right": the first loop of [combine_siblings], from [a] on. *)
Fixpoint merge_right (fuel : nat) (m : Memory) (a : positive) : outcome (Memory * positive) :=
  fa ← field m a;
  match next fa with
  | None => Ok (m, a)
  | Some b =>
      match fuel with
      | O => OutOfFuel
      | S fuel =>
          m ← set_next m a None;
          r ← meld m a b;
          let '(m, b) := r in
          fb ← field m b;
          match next fb with
          | None => Ok (m, b)
          | Some next_a => merge_right fuel m next_a
          end
      end
  end.

(** "Merge pairs left": the second loop, from [root] back. *)
Fixpoint merge_left (fuel : nat) (m : Memory) (root : positive) : outcome (Memory * positive) :=
  fr ← field m root;
  match prev fr with
  | None => Ok (m, root)
  | Some b =>
      match fuel with
      | O => OutOfFuel
      | S fuel =>
          m ← set_next m b None;
          r ← meld m b root;
          merge_left fuel (fst r) (snd r)
      end
  end.

(** The number of nodes bounds both loops. *)
Definition combine_siblings (m : Memory) (left : positive) : outcome (Memory * positive) :=
  m ← set_prev m left None;
  r ← merge_right (size m) m left;
  merge_left (size (fst r)) (fst r) (snd r).

Definition init : Intrusive := mkHeap None ∅.

Definition insert (h : Intrusive) (v : positive) : outcome Intrusive :=
  match root h with
  | Some root => r ← meld (memory h) v root; Ok (mkHeap (Some (snd r)) (fst r))
  | None => Ok (mkHeap (Some v) (memory h))
  end.

Definition peek (h : Intrusive) : ptr := root h.

(** The recursions over the pointers get the number of nodes as fuel. *)
Fixpoint count_internal (fuel : nat) (m : Memory) (node : ptr) : outcome nat :=
  match node with
  | None => Ok 0
  | Some current =>
      match fuel with
      | O => OutOfFuel
      | S fuel =>
          f ← field m current;
          c ← count_internal fuel m (child f);
          n ← count_internal fuel m (next f);
          Ok (1 + c + n)
      end
  end.

Definition count (h : Intrusive) : outcome nat := count_internal (size (memory h)) (memory h) (root h).

Fixpoint find_max_internal (fuel : nat) (m : Memory) (node current_max : positive) : outcome positive :=
  match fuel with
  | O => OutOfFuel
  | S fuel =>
      let max_so_far := if less current_max node then node else current_max in
      f ← field m node;
      max_so_far ← match child f with
                   | Some child => find_max_internal fuel m child max_so_far
                   | None => Ok max_so_far
                   end;
      match next f with
      | Some next_sibling => find_max_internal fuel m next_sibling max_so_far
      | None => Ok max_so_far
      end
  end.

Definition find_max (h : Intrusive) : outcome ptr :=
  match root h with
  | None => Ok None
  | Some root => x ← find_max_internal (size (memory h)) (memory h) root root; Ok (Some x)
  end.

Definition delete_min (h : Intrusive) : outcome (Intrusive * ptr) :=
  match root h with
  | None => Ok (h, None)
  | Some root =>
      f ← field (memory h) root;
      r ← match child f with
          | Some child => r ← combine_siblings (memory h) child; Ok (fst r, Some (snd r))
          | None => Ok (memory h, @None positive)
          end;
      let '(m, new_root) := r in
      Ok (mkHeap new_root (<[root := IntrusiveField_default]> m), Some root)
  end.

(** The pointers around [v] in [remove], for [prev] the node [p]. *)
Definition unlink (m : Memory) (v p : positive) (v_next : ptr) : outcome Memory :=
  m ← match v_next with Some n => set_prev m n (Some p) | None => Ok m end;
  fp ← field m p;
  m ← (if bool_decide (child fp = Some v) then set_child m p v_next else set_next m p v_next);
  m ← set_prev m v None;
  set_next m v None.

Definition remove (h : Intrusive) (v : positive) : outcome Intrusive :=
  fv ← field (memory h) v;
  match prev fv with
  | None => r ← delete_min h; Ok (fst r)
  | Some p =>
      m ← unlink (memory h) v p (next fv);
      fv ← field m v;
      match child fv with
      | None => Ok (mkHeap (root h) m)
      | Some c =>
          m ← set_child m v None;
          r ← combine_siblings m c;
          match root h with
          | None => Panic
          | Some root => r ← meld (fst r) (snd r) root; Ok (mkHeap (Some (snd r)) (fst r))
          end
      end
  end.
End operations.

(** ** The tree behind the pointers *)

(** The binary tree of the links [child] and [next]. *)
Inductive tree := Leaf | Node (p : positive) (c n : tree).

Definition root_of (t : tree) : ptr := match t with Leaf => None | Node p _ _ => Some p end.

Fixpoint nodes (t : tree) : list positive :=
  match t with Leaf => [] | Node p c n => p :: nodes c ++ nodes n end.

(** The memory holds the tree, whose root points back to [q]. *)
Fixpoint repr (m : Memory) (q : ptr) (t : tree) : Prop :=
  match t with
  | Leaf => True
  | Node p c n => m !! p = Some (mkField (root_of c) q (root_of n)) /\ repr m (Some p) c /\ repr m (Some p) n
  end.

Lemma repr_eq m m' q t : (forall p, p ∈ nodes t -> m' !! p = m !! p) -> repr m q t -> repr m' q t.
Proof.
  revert q. induction t as [|p c IHc n IHn]; intros q E; [done|]. cbn [repr nodes] in *. intros (H & Hc & Hn).
  split; [rewrite E; [done|set_solver]|]. split; [apply IHc; [|done]|apply IHn; [|done]]; intros x Hx; apply E; set_solver.
Qed.

Lemma repr_insert m q t p f : p ∉ nodes t -> repr m q t -> repr (<[p := f]> m) q t.
Proof. intros Hp. apply repr_eq. intros x Hx. apply lookup_insert_ne. by intros ->. Qed.

(** Only the root holds the back pointer. *)
Lemma repr_set_prev m q q' p c n :
  repr m q (Node p c n) -> p ∉ nodes c ++ nodes n ->
  set_prev m p q' = Ok (<[p := mkField (root_of c) q' (root_of n)]> m) /\
  repr (<[p := mkField (root_of c) q' (root_of n)]> m) q' (Node p c n).
Proof.
  intros (H & Hc & Hn) Hp. unfold set_prev, field. rewrite H. split; [done|]. cbn [repr].
  rewrite lookup_insert_eq. split; [done|]. split; apply repr_insert; set_solver.
Qed.

Lemma field_repr m q p c n : repr m q (Node p c n) -> field m p = Ok (mkField (root_of c) q (root_of n)).
Proof. intros (H & _). unfold field. by rewrite H. Qed.

(** What [meld] does to the trees: one of the two becomes the leftmost child of the other. *)
Section trees.
Context (less : positive -> positive -> bool).

Definition meld_pair (a : positive * tree) (b : positive * tree) : positive * tree :=
  if less a.1 b.1 then (a.1, Node b.1 b.2 a.2) else (b.1, Node a.1 a.2 b.2).

Definition node_of (a : positive * tree) (n : tree) : tree := Node a.1 a.2 n.
Definition pair_nodes (a : positive * tree) : list positive := a.1 :: nodes a.2.

Lemma nodes_meld_pair a b : pair_nodes (meld_pair a b) ≡ₚ pair_nodes a ++ pair_nodes b.
Proof.
  destruct a as [a ca], b as [b cb]. unfold meld_pair, pair_nodes. cbn [fst snd].
  destruct (less a b); cbn [fst snd nodes app].
  - apply perm_skip. rewrite <- Permutation_middle. apply perm_skip, Permutation_app_comm.
  - rewrite <- (Permutation_middle (nodes ca)). apply Permutation_swap.
Qed.

(** The two passes of [combine_siblings]; the first leaves its melded pairs last one first. *)
Fixpoint pair_right (t : tree) (ms : list (positive * tree)) : list (positive * tree) :=
  match t with
  | Leaf => ms
  | Node a ca Leaf => (a, ca) :: ms
  | Node a ca (Node b cb nb) => pair_right nb (meld_pair (a, ca) (b, cb) :: ms)
  end.

Fixpoint pair_left (ms : list (positive * tree)) (r : positive * tree) : positive * tree :=
  match ms with
  | [] => r
  | b :: ms => pair_left ms (meld_pair b r)
  end.

Definition combine (t : tree) : tree :=
  match pair_right t [] with
  | [] => Leaf
  | r :: ms => node_of (pair_left ms r) Leaf
  end.

Definition chain_nodes (ms : list (positive * tree)) : list positive := concat (map pair_nodes ms).

(** Two siblings at a time. *)
Lemma tree_pairs (P : tree -> Prop) :
  P Leaf -> (forall a ca, P (Node a ca Leaf)) ->
  (forall a ca b cb nb, P nb -> P (Node a ca (Node b cb nb))) -> forall t, P t.
Proof. intros HL H1 H2. fix IH 1. intros [|a ca [|b cb nb]]; [exact HL|apply H1|apply H2, IH]. Qed.

Lemma nodes_pair_right t ms : chain_nodes (pair_right t ms) ≡ₚ nodes t ++ chain_nodes ms.
Proof.
  revert ms. induction t as [|a ca|a ca b cb nb IH] using tree_pairs; intros ms; cbn [pair_right nodes]; [done| |].
  - unfold chain_nodes. cbn. by rewrite app_nil_r.
  - rewrite IH. unfold chain_nodes. cbn [map concat]. rewrite nodes_meld_pair. unfold pair_nodes. cbn [fst snd].
    solve_Permutation.
Qed.

Lemma nodes_pair_left ms r : pair_nodes (pair_left ms r) ≡ₚ pair_nodes r ++ chain_nodes ms.
Proof.
  revert r. induction ms as [|b ms IH]; intros r; cbn [pair_left].
  - unfold chain_nodes. cbn. by rewrite app_nil_r.
  - rewrite IH, nodes_meld_pair. unfold chain_nodes. cbn [map concat]. solve_Permutation.
Qed.

Lemma nodes_combine t : nodes (combine t) ≡ₚ nodes t.
Proof.
  pose proof (nodes_pair_right t []) as Hr. unfold combine. destruct (pair_right t []) as [|r ms].
  - unfold chain_nodes in Hr. cbn in *. by rewrite app_nil_r in Hr.
  - cbn [nodes node_of]. rewrite app_nil_r. change (pair_nodes (pair_left ms r) ≡ₚ nodes t).
    rewrite nodes_pair_left. unfold chain_nodes in *. cbn [map concat] in Hr. rewrite app_nil_r in Hr. exact Hr.
Qed.
End trees.

(** ** Running the operations on a represented tree *)

(** Splits the distinctness of the nodes of a tree. *)
Ltac distinct :=
  cbn [nodes app] in *; rewrite ?app_nil_r in *;
  repeat match goal with
  | H : NoDup (_ :: _) |- _ => apply list.NoDup_cons in H as [? ?]
  | H : NoDup (_ ++ _) |- _ => apply list.NoDup_app in H as (? & ? & ?)
  end.

(** Two nodes are different, a node is not in a tree. *)
Ltac apart := solve [ congruence | set_solver ].

(** Reads and writes of the memory, the nodes being distinct. *)
Ltac exec :=
  unfold set_child, set_prev, set_next, field;
  repeat first
    [ rewrite lookup_insert_eq
    | rewrite lookup_insert_ne by congruence
    | match goal with H : ?m !! ?p = Some _ |- context [?m !! ?p] => rewrite H end
    | progress cbn [mbind outcome_bind child prev next root_of] ].

(** Keeps a tree that the writes did not touch. *)
Ltac frame := repeat (apply repr_insert; [apart|]); assumption.

(** Runs an operation, then checks the links of the new tree and the untouched nodes. *)
Ltac run_tree :=
  eexists; split; [exec; reflexivity|]; split;
  [ cbn [repr]; split_and!; first [done|by exec|frame]
  | intros p Hp; rewrite !lookup_insert_ne by set_solver; done ].

(** The memories agree outside the nodes [l]. *)
Definition agree (l : list positive) (m m' : Memory) : Prop := forall p, p ∉ l -> m' !! p = m !! p.

Lemma repr_agree l m m' q t : agree l m m' -> (forall p, p ∈ nodes t -> p ∉ l) -> repr m q t -> repr m' q t.
Proof. intros H Hd. apply repr_eq. intros p Hp. apply H, Hd, Hp. Qed.

Lemma agree_trans l l' m m' m'' : agree l m m' -> agree l' m' m'' -> agree (l ++ l') m m''.
Proof. intros H H' p Hp. apply not_elem_of_app in Hp as [? ?]. by rewrite H', H. Qed.

Lemma agree_weaken l l' m m' : agree l m m' -> l ⊆ l' -> agree l' m m'.
Proof. intros H Hl p Hp. apply H. set_solver. Qed.

Lemma meld_ok less m qa qb a b nb :
  repr m qa (node_of a Leaf) -> repr m qb (node_of b nb) ->
  NoDup (pair_nodes a ++ pair_nodes b ++ nodes nb) ->
  exists m', meld less m a.1 b.1 = Ok (m', (meld_pair less a b).1) /\
    repr m' qa (node_of (meld_pair less a b) nb) /\
    agree (pair_nodes a ++ pair_nodes b ++ nodes nb) m m'.
Proof.
  destruct a as [a ca], b as [b cb]. unfold node_of, pair_nodes. cbn [fst snd].
  intros (Ha & Hca & _) (Hb & Hcb & Hnb) Hnd.
  assert (a <> b) by (distinct; set_solver).
  unfold meld, meld_pair. cbn [fst snd]. destruct (less a b).
  - destruct nb as [|x cx nx], ca as [|y cy ny]; cbn [repr fst snd] in *; destruct_and?; distinct;
      try assert (x <> a /\ x <> b) as [? ?] by set_solver;
      try assert (y <> a /\ y <> b) as [? ?] by set_solver;
      try assert (y <> x) by set_solver; run_tree.
  - destruct cb as [|x cx nx]; cbn [repr fst snd] in *; destruct_and?; distinct;
      try assert (x <> a /\ x <> b) as [? ?] by set_solver; run_tree.
Qed.

(** *** Combining siblings *)

(** The melded pairs, last one first: each points back to the one before; the [next] of all but
    the last is stale. *)
Definition last_of (ms : list (positive * tree)) : ptr := fst <$> head ms.

Fixpoint chain (m : Memory) (ms : list (positive * tree)) : Prop :=
  match ms with
  | [] => True
  | (p, c) :: ms => (exists nx, m !! p = Some (mkField (root_of c) (last_of ms) nx)) /\ repr m (Some p) c /\ chain m ms
  end.

Lemma chain_agree l m m' ms : agree l m m' -> (forall p, p ∈ chain_nodes ms -> p ∉ l) -> chain m ms -> chain m' ms.
Proof.
  intros H. induction ms as [|[p c] ms IH]; [done|]. unfold chain_nodes, pair_nodes. cbn [map concat fst snd chain].
  intros Hd ([nx Hp] & Hc & Hms). split_and!.
  - exists nx. rewrite H by (apply Hd; set_solver). done.
  - eapply repr_agree; [exact H| |done]. intros x Hx. apply Hd. set_solver.
  - apply IH; [|done]. intros x Hx. apply Hd. unfold chain_nodes in Hx. set_solver.
Qed.

Lemma agree_insert m p f l : p ∈ l -> agree l m (<[p := f]> m).
Proof. intros Hp x Hx. apply lookup_insert_ne. by intros ->. Qed.

(** Cutting the siblings of a tree off. *)
Lemma set_next_repr m q a n :
  repr m q (node_of a n) -> NoDup (pair_nodes a ++ nodes n) ->
  exists m', set_next m a.1 None = Ok m' /\ repr m' q (node_of a Leaf) /\ repr m' (Some a.1) n /\ agree [a.1] m m'.
Proof.
  destruct a as [a ca]. unfold node_of, pair_nodes. cbn [fst snd]. intros (Ha & Hca & Hn) Hnd.
  eexists. split; [exec; reflexivity|]. distinct. cbn [repr]. split_and!; try done.
  - by exec.
  - apply repr_insert; [set_solver|done].
  - apply repr_insert; [set_solver|done].
  - apply agree_insert. set_solver.
Qed.

Lemma merge_right_ok less fuel m ms t :
  chain m ms -> repr m (last_of ms) t -> NoDup (nodes t ++ chain_nodes ms) -> length (nodes t) <= fuel ->
  match root_of t with
  | None => True
  | Some a =>
      exists m' r ms', pair_right less t ms = r :: ms' /\ merge_right less fuel m a = Ok (m', r.1) /\
        repr m' (last_of ms') (node_of r Leaf) /\ chain m' ms' /\ agree (nodes t ++ chain_nodes ms) m m'
  end.
Proof.
  revert fuel m ms. induction t as [|a ca|a ca b cb nb IH] using tree_pairs; intros fuel m ms Hms Ht Hnd Hfuel; [done| |].
  - cbn [root_of pair_right]. exists m, (a, ca), ms. unfold merge_right. destruct fuel; rewrite (field_repr _ _ _ _ _ Ht); done.
  - cbn [root_of pair_right]. cbn [nodes length] in Hfuel. rewrite !length_app in Hfuel. cbn [nodes length] in Hfuel. rewrite length_app in Hfuel.
    destruct fuel as [|fuel]; [lia|].
    destruct (set_next_repr m (last_of ms) (a, ca) (Node b cb nb) Ht) as (m1 & E1 & Ha1 & Hb1 & A1).
    { rewrite list.NoDup_app in Hnd. apply Hnd. }
    cbn [fst] in *. 
    destruct (meld_ok less m1 (last_of ms) (Some a) (a, ca) (b, cb) nb Ha1 Hb1) as (m2 & E2 & Hr2 & A2).
    { apply list.NoDup_app in Hnd as [Hnd _]. unfold pair_nodes. cbn [fst snd nodes] in *. rewrite <- app_comm_cons. exact Hnd. }
    set (r := meld_pair less (a, ca) (b, cb)) in *.
    assert (A : agree (nodes (Node a ca (Node b cb nb))) m m2).
    { eapply agree_weaken; [eapply agree_trans; [exact A1|exact A2]|]. unfold pair_nodes. cbn. set_solver. }
    assert (Hms2 : chain m2 ms).
    { eapply chain_agree; [exact A| |done]. intros p Hp Hp'. apply list.NoDup_app in Hnd as (_ & Hd & _). by apply (Hd p). }
    assert (Hrest : NoDup (nodes nb ++ chain_nodes (r :: ms))).
    { assert (Hp : nodes (Node a ca (Node b cb nb)) ++ chain_nodes ms ≡ₚ nodes nb ++ chain_nodes (r :: ms)); [|by rewrite <- Hp].
      unfold chain_nodes. cbn [map concat]. unfold r. rewrite nodes_meld_pair. unfold pair_nodes. cbn [fst snd nodes].
      solve_Permutation. }
    cbn [merge_right]. rewrite (field_repr _ _ _ _ _ Ht). cbn [mbind outcome_bind root_of next]. rewrite E1. cbn [mbind outcome_bind].
    cbn [fst] in E2. rewrite E2. cbn [mbind outcome_bind]. rewrite (field_repr _ _ _ _ _ Hr2). cbn [mbind outcome_bind root_of next].
    destruct nb as [|x cx nx].
    + exists m2, r, ms. split_and!; try done. intros p Hp. apply A. set_solver.
    + destruct (IH fuel m2 (r :: ms)) as (m3 & r3 & ms3 & E3 & Er3 & Hr3 & Hms3 & A3); try done.
      { destruct r as [r rc]. split; [|split; [|done]].
        - eexists. apply Hr2.
        - apply Hr2. }
      { destruct r as [r rc]. cbn. apply Hr2. }
      { cbn [nodes length] in *. lia. }
      exists m3, r3, ms3. split_and!; try done.
      eapply agree_weaken; [eapply agree_trans; [exact A|exact A3]|].
      pose proof (nodes_meld_pair less (a, ca) (b, cb)) as Hp. fold r in Hp.
      intros p. unfold chain_nodes. cbn [map concat]. rewrite !elem_of_app, Hp. unfold pair_nodes. cbn. set_solver.
Qed.

Lemma merge_left_ok less fuel m ms r :
  chain m ms -> repr m (last_of ms) (node_of r Leaf) -> NoDup (pair_nodes r ++ chain_nodes ms) -> length ms <= fuel ->
  exists m', merge_left less fuel m r.1 = Ok (m', (pair_left less ms r).1) /\
    repr m' None (node_of (pair_left less ms r) Leaf) /\ agree (pair_nodes r ++ chain_nodes ms) m m'.
Proof.
  revert fuel m r. induction ms as [|b ms IH]; intros fuel m r Hms Hr Hnd Hfuel.
  - cbn [pair_left]. exists m. unfold merge_left. destruct fuel; rewrite (field_repr _ _ _ _ _ Hr); done.
  - cbn [length] in Hfuel. destruct fuel as [|fuel]; [lia|]. cbn [merge_left pair_left].
    rewrite (field_repr _ _ _ _ _ Hr). cbn [mbind outcome_bind prev last_of head fmap option_fmap option_map].
    destruct b as [b cb]. destruct Hms as ([nx Hb] & Hcb & Hms). cbn [fst].
    set (m1 := <[b := mkField (root_of cb) (last_of ms) None]> m).
    assert (E1 : set_next m b None = Ok m1) by (unfold set_next, field; by rewrite Hb).
    assert (Hd : b ∉ nodes cb /\ b ∉ pair_nodes r /\ b ∉ chain_nodes ms).
    { unfold chain_nodes, pair_nodes in *. cbn [map concat fst snd] in Hnd. distinct. set_solver. }
    destruct Hd as (Hd1 & Hd2 & Hd3).
    rewrite E1. cbn [mbind outcome_bind].
    destruct (meld_ok less m1 (last_of ms) (Some b) (b, cb) r Leaf) as (m2 & E2 & Hr2 & A2).
    { cbn. split_and!; [by unfold m1; rewrite lookup_insert_eq|by apply repr_insert|done]. }
    { apply repr_insert; [|done]. cbn [nodes node_of]. by rewrite app_nil_r. }
    { unfold chain_nodes in Hnd. cbn [map concat nodes] in *. rewrite app_nil_r.
      assert (Hp : pair_nodes r ++ pair_nodes (b, cb) ++ concat (map pair_nodes ms) ≡ₚ
                   (pair_nodes (b, cb) ++ pair_nodes r) ++ concat (map pair_nodes ms)) by solve_Permutation.
      rewrite Hp in Hnd. apply list.NoDup_app in Hnd as [Hnd _]. done. }
    cbn [fst] in E2. rewrite E2. cbn [mbind outcome_bind fst snd].
    assert (A : agree (pair_nodes r ++ pair_nodes (b, cb)) m m2).
    { eapply agree_weaken; [eapply agree_trans; [eapply (agree_insert m b _ [b]); set_solver|exact A2]|].
      unfold pair_nodes. cbn. set_solver. }
    destruct (IH fuel m2 (meld_pair less (b, cb) r)) as (m3 & E3 & Hr3 & A3); try done; [| |lia|].
    + eapply chain_agree; [exact A| |done]. intros p Hp Hp'. unfold chain_nodes in Hnd. cbn [map concat] in Hnd.
      rewrite app_assoc in Hnd. apply list.NoDup_app in Hnd as (_ & Hnd & _). by apply (Hnd p).
    + rewrite nodes_meld_pair. unfold chain_nodes in *. cbn [map concat] in Hnd.
      assert (Hp : pair_nodes r ++ pair_nodes (b, cb) ++ concat (map pair_nodes ms) ≡ₚ
                   (pair_nodes (b, cb) ++ pair_nodes r) ++ concat (map pair_nodes ms)) by solve_Permutation.
      by rewrite <- Hp.
    + exists m3. split_and!; try done. eapply agree_weaken; [eapply agree_trans; [exact A|exact A3]|].
      intros p. unfold chain_nodes. cbn [map concat]. rewrite !elem_of_app, nodes_meld_pair. set_solver.
Qed.

Lemma repr_size m q t : repr m q t -> NoDup (nodes t) -> length (nodes t) <= size m.
Proof.
  intros Ht Hnd. rewrite <- (size_list_to_set (C := gset positive)) by done. rewrite <- size_dom. apply subseteq_size.
  intros p Hp. apply elem_of_list_to_set in Hp. apply elem_of_dom. clear Hnd. revert q Ht.
  induction t as [|x c IHc n IHn]; intros q Ht; cbn [nodes repr] in *; [by apply not_elem_of_nil in Hp|].
  destruct Ht as (Hx & Hc & Hn). apply elem_of_cons in Hp as [->|Hp]; [by eexists|].
  apply elem_of_app in Hp as [Hp|Hp]; [by eapply IHc|by eapply IHn].
Qed.

Lemma chain_size m ms : chain m ms -> NoDup (chain_nodes ms) -> length ms <= size m.
Proof.
  intros Hms Hnd. rewrite <- (length_map fst ms).
  assert (Hin : forall p, p ∈ map fst ms -> p ∈ chain_nodes ms /\ is_Some (m !! p)).
  { clear Hnd. induction ms as [|[q c] ms IH]; intros p Hp; cbn in Hp; [by apply not_elem_of_nil in Hp|].
    destruct Hms as ([nx Hq] & _ & Hms). unfold chain_nodes, pair_nodes in *. cbn [map concat fst snd].
    apply elem_of_cons in Hp as [->|Hp]; [split; [set_solver|by eexists]|].
    destruct (IH Hms p Hp) as [? ?]. split; [set_solver|done]. }
  assert (Hfst : NoDup (map fst ms)).
  { clear Hms. induction ms as [|[q c] ms IH]; [apply NoDup_nil_2|]. unfold chain_nodes, pair_nodes in *. cbn [map concat fst snd] in *.
    cbn [app] in Hnd. apply list.NoDup_cons in Hnd as [Hq Hnd]. apply list.NoDup_app in Hnd as (_ & _ & Hnd).
    assert (Hin' : forall p, p ∈ map fst ms -> p ∈ concat (map (fun a => a.1 :: nodes a.2) ms)).
    { clear. induction ms as [|[x c] ms IH]; intros p Hp; cbn in *; [by apply not_elem_of_nil in Hp|set_solver]. }
    apply list.NoDup_cons. split; [intros Hq'; apply Hq; apply elem_of_app; right; by apply Hin'|].
    apply IH; [done|]. intros p Hp. split; [by apply Hin'|]. apply (Hin p). cbn [map]. apply elem_of_cons. by right. }
  rewrite <- (size_list_to_set (C := gset positive)) by done. rewrite <- size_dom. apply subseteq_size.
  intros p Hp. apply elem_of_list_to_set in Hp. apply elem_of_dom. by apply Hin.
Qed.

Lemma combine_siblings_ok less m q a ca n :
  repr m q (Node a ca n) -> NoDup (nodes (Node a ca n)) ->
  exists m' r, combine less (Node a ca n) = node_of r Leaf /\ combine_siblings less m a = Ok (m', r.1) /\
    repr m' None (node_of r Leaf) /\ agree (nodes (Node a ca n)) m m'.
Proof.
  intros Ht Hnd. destruct (repr_set_prev m q None a ca n Ht) as [E1 Ht1]; [apply list.NoDup_cons in Hnd; apply Hnd|].
  unfold combine_siblings. rewrite E1. cbn [mbind outcome_bind]. set (m1 := <[a := _]> m) in *.
  destruct (merge_right_ok less (size m1) m1 [] (Node a ca n)) as (m2 & r & ms & Ep & E2 & Hr & Hms & A2); try done.
  { unfold chain_nodes. cbn [map concat]. by rewrite app_nil_r. } { by eapply repr_size. }
  pose proof (nodes_pair_right less (Node a ca n) []) as Hp. rewrite Ep in Hp. unfold chain_nodes in Hp. cbn [map concat] in Hp.
  rewrite app_nil_r in Hp. fold (chain_nodes ms) in Hp.
  rewrite E2. cbn [mbind outcome_bind fst snd].
  destruct (merge_left_ok less (size m2) m2 ms r Hms Hr) as (m3 & E3 & Hr3 & A3).
  { by rewrite Hp. }
  { apply chain_size; [done|]. rewrite <- Hp in Hnd. apply list.NoDup_app in Hnd. apply Hnd. }
  rewrite E3. exists m3, (pair_left less ms r). unfold combine. rewrite Ep. split_and!; try done.
  assert (A1 : agree (nodes (Node a ca n)) m m1) by (apply agree_insert; set_solver).
  eapply agree_weaken; [eapply agree_trans; [exact A1|eapply agree_trans; [exact A2|exact A3]]|].
  intros p. rewrite Hp. unfold chain_nodes. cbn [map concat]. set_solver.
Qed.

(** *** Unlinking a node *)

(** The tree without the node [v] (not its root) and what hung below [v]. *)
Fixpoint detach (v : positive) (t : tree) : tree * tree :=
  match t with
  | Leaf => (Leaf, Leaf)
  | Node p c n =>
      if bool_decide (p = v) then (n, c)
      else if bool_decide (v ∈ nodes c) then (Node p (detach v c).1 n, (detach v c).2)
      else (Node p c (detach v n).1, (detach v n).2)
  end.

Lemma nodes_detach v t : v ∈ nodes t -> NoDup (nodes t) -> nodes t ≡ₚ v :: nodes (detach v t).1 ++ nodes (detach v t).2.
Proof.
  induction t as [|p c IHc n IHn]; cbn [nodes detach]; intros Hv Hnd; [by apply not_elem_of_nil in Hv|].
  apply list.NoDup_cons in Hnd as [_ Hnd]. apply list.NoDup_app in Hnd as (Hndc & _ & Hndn).
  case_bool_decide as Hp; [subst; cbn; apply perm_skip, Permutation_app_comm|].
  case_bool_decide as Hc; cbn [fst snd nodes].
  - rewrite (IHc Hc Hndc). solve_Permutation.
  - assert (Hn : v ∈ nodes n) by set_solver. rewrite (IHn Hn Hndn) at 1. solve_Permutation.
Qed.

(** *** The heap order *)

(** What a comparison of the elements promises: a strict weak order. *)
Class StrictWeakOrder (less : positive -> positive -> bool) : Prop := {
  less_asym a b : less a b = true -> less b a = false;
  less_ntrans a b c : less b a = false -> less c b = false -> less c a = false;
}.

Section order.
Context (less : positive -> positive -> bool) `{!StrictWeakOrder less}.

(** No node below [p] is less than [p]. *)
Definition above (p : positive) (l : list positive) : Prop := Forall (fun x => less x p = false) l.

Fixpoint ordered (t : tree) : Prop :=
  match t with Leaf => True | Node p c n => above p (nodes c) /\ ordered c /\ ordered n end.

Definition pair_ordered (a : positive * tree) : Prop := above a.1 (nodes a.2) /\ ordered a.2.

Lemma less_irrefl a : less a a = false.
Proof. destruct (less a a) eqn:E; [|done]. by rewrite (less_asym a a E) in E. Qed.

Lemma above_trans a b l : less b a = false -> above b l -> above a l.
Proof. intros Hab Hl. eapply list.Forall_impl; [exact Hl|]. intros c Hc. by apply (less_ntrans a b c). Qed.

Lemma meld_pair_ordered a b : pair_ordered a -> pair_ordered b -> pair_ordered (meld_pair less a b).
Proof.
  destruct a as [a ca], b as [b cb]. unfold pair_ordered, meld_pair. cbn [fst snd]. intros [Ha Hca] [Hb Hcb].
  destruct (less a b) eqn:E; cbn [fst snd nodes ordered]; (split; [|done]).
  - apply list.Forall_cons. split; [by apply less_asym|]. apply list.Forall_app. split; [|done].
    by apply (above_trans a b); [apply less_asym|].
  - apply list.Forall_cons. split; [done|]. apply list.Forall_app. split; [|done]. by apply (above_trans b a).
Qed.

Lemma pair_right_ordered t ms : ordered t -> Forall pair_ordered ms -> Forall pair_ordered (pair_right less t ms).
Proof.
  revert ms. induction t as [|a ca|a ca b cb nb IH] using tree_pairs; intros ms; cbn [pair_right ordered]; [done| |].
  - intros (Ha & Hca & _) Hms. apply list.Forall_cons. by split.
  - intros (Ha & Hca & Hb & Hcb & Hnb) Hms. apply IH; [done|]. apply list.Forall_cons. split; [|done].
    by apply meld_pair_ordered.
Qed.

Lemma pair_left_ordered ms r : Forall pair_ordered ms -> pair_ordered r -> pair_ordered (pair_left less ms r).
Proof.
  revert r. induction ms as [|b ms IH]; intros r Hms Hr; [done|]. apply list.Forall_cons in Hms as [Hb Hms].
  apply IH; [done|]. by apply meld_pair_ordered.
Qed.

Lemma combine_ordered t : ordered t -> ordered (combine less t).
Proof.
  intros Ht. pose proof (pair_right_ordered t [] Ht) as Hr. unfold combine. destruct (pair_right less t []) as [|r ms]; [done|].
  apply list.Forall_cons in Hr as [Hr Hms]; [|constructor]. destruct (pair_left_ordered ms r Hms Hr). done.
Qed.

Lemma above_perm p l k : l ≡ₚ k -> above p l -> above p k.
Proof. unfold above. by intros ->. Qed.

Lemma detach_ordered v t :
  v ∈ nodes t -> NoDup (nodes t) -> ordered t -> ordered (detach v t).1 /\ ordered (detach v t).2.
Proof.
  induction t as [|p c IHc n IHn]; cbn [nodes detach ordered]; intros Hv Hnd Ho; [done|].
  destruct Ho as (Hp & Hc & Hn).
  apply list.NoDup_cons in Hnd as [_ Hnd]. apply list.NoDup_app in Hnd as (Hndc & _ & Hndn).
  case_bool_decide as E; [done|]. case_bool_decide as Hvc; cbn [fst snd ordered].
  - destruct (IHc Hvc Hndc Hc) as [H1 H2]. split; [|done]. split; [|done].
    apply (above_perm p _ _ (nodes_detach v c Hvc Hndc)) in Hp. apply list.Forall_cons in Hp as [_ Hp].
    by apply list.Forall_app in Hp as [? _].
  - assert (Hvn : v ∈ nodes n) by set_solver. by destruct (IHn Hvn Hndn Hn) as [H1 H2].
Qed.
End order.

(** What [unlink] establishes, for the trees it leaves. *)
Definition unlinked (m : Memory) (q : ptr) (v : positive) (t t' s : tree) : Prop :=
  exists p v_next m', m !! v = Some (mkField (root_of s) (Some p) v_next) /\
    unlink m v p v_next = Ok m' /\ m' !! v = Some (mkField (root_of s) None None) /\
    repr m' q t' /\ repr m' (Some v) s /\ agree (nodes t) m m'.

Ltac run_unlink :=
  split; [done|]; split; [unfold unlink; exec; repeat (case_bool_decide; try congruence); exec; reflexivity|];
  split; [by exec|]; cbn [repr]; split_and!;
  first [done|by exec|frame|intros ? ?; rewrite !lookup_insert_ne by set_solver; done].

Lemma unlink_first_child m q p v cv nv n :
  repr m q (Node p (Node v cv nv) n) -> NoDup (nodes (Node p (Node v cv nv) n)) ->
  unlinked m q v (Node p (Node v cv nv) n) (Node p nv n) cv.
Proof.
  intros Ht Hnd. exists p, (root_of nv). cbn [repr root_of] in Ht. destruct Ht as (Hp & (Hv & Hcv & Hnv) & Hn).
  assert (p <> v) by (distinct; set_solver).
  destruct nv as [|y cy ny]; cbn [repr root_of] in *; destruct_and?; distinct.
  - eexists. run_unlink.
  - assert (y <> p /\ y <> v) as [? ?] by set_solver. eexists. run_unlink.
Qed.

Lemma unlink_sibling m q p v c cv nv :
  repr m q (Node p c (Node v cv nv)) -> NoDup (nodes (Node p c (Node v cv nv))) ->
  unlinked m q v (Node p c (Node v cv nv)) (Node p c nv) cv.
Proof.
  intros Ht Hnd. exists p, (root_of nv). cbn [repr root_of] in Ht. destruct Ht as (Hp & Hc & (Hv & Hcv & Hnv)).
  assert (p <> v) by (distinct; set_solver).
  assert (root_of c <> Some v) by (destruct c; cbn; [done|]; distinct; intros [= ->]; set_solver).
  destruct nv as [|y cy ny]; cbn [repr root_of] in *; destruct_and?; distinct.
  - eexists. run_unlink.
  - assert (y <> p /\ y <> v) as [? ?] by set_solver. eexists. run_unlink.
Qed.

Lemma root_detach v t : root_of t <> Some v -> root_of (detach v t).1 = root_of t.
Proof.
  destruct t as [|p c n]; [done|]. cbn [root_of detach]. intros Hp. rewrite bool_decide_eq_false_2 by congruence.
  by destruct (bool_decide _).
Qed.

(** An unlinking below the child or among the siblings is one in the whole tree. *)
Lemma unlinked_child m q v p c n c' s :
  repr m q (Node p c n) -> NoDup (nodes (Node p c n)) -> root_of c' = root_of c ->
  unlinked m (Some p) v c c' s -> unlinked m q v (Node p c n) (Node p c' n) s.
Proof.
  intros (Hp & Hc & Hn) Hnd Hroot (x & nx & m' & Hv & E & Hv' & Hc' & Hs & A). distinct.
  exists x, nx, m'. cbn [repr]. rewrite Hroot. split_and!; try done.
  - rewrite A by set_solver. done.
  - eapply repr_agree; [exact A| |done]. set_solver.
  - eapply agree_weaken; [exact A|]. set_solver.
Qed.

Lemma unlinked_siblings m q v p c n n' s :
  repr m q (Node p c n) -> NoDup (nodes (Node p c n)) -> root_of n' = root_of n ->
  unlinked m (Some p) v n n' s -> unlinked m q v (Node p c n) (Node p c n') s.
Proof.
  intros (Hp & Hc & Hn) Hnd Hroot (x & nx & m' & Hv & E & Hv' & Hn' & Hs & A). distinct.
  exists x, nx, m'. cbn [repr]. rewrite Hroot. split_and!; try done.
  - rewrite A by set_solver. done.
  - eapply repr_agree; [exact A| |done]. set_solver.
  - eapply agree_weaken; [exact A|]. set_solver.
Qed.

Lemma unlink_ok m q v t :
  repr m q t -> NoDup (nodes t) -> v ∈ nodes t -> root_of t <> Some v ->
  unlinked m q v t (detach v t).1 (detach v t).2.
Proof.
  revert q. induction t as [|p c IHc n IHn]; intros q Ht Hnd Hv Hroot; [by apply not_elem_of_nil in Hv|].
  cbn [root_of] in Hroot. cbn [detach]. rewrite bool_decide_eq_false_2 by congruence.
  pose proof Hnd as Hnd'. cbn [nodes] in Hnd'. apply list.NoDup_cons in Hnd' as [Hp Hnd'].
  apply list.NoDup_app in Hnd' as (Hndc & Hcn & Hndn). pose proof Ht as (Hmp & Hc & Hn).
  case_bool_decide as Hvc; cbn [fst snd].
  - destruct (decide (root_of c = Some v)) as [Hr|Hr].
    + destruct c as [|x cx nx]; [done|]. injection Hr as ->. cbn [detach]. rewrite bool_decide_eq_true_2 by done.
      by apply unlink_first_child.
    + apply unlinked_child; [done|done|by apply root_detach|by apply IHc].
  - assert (Hvn : v ∈ nodes n) by (cbn [nodes] in Hv; set_solver). destruct (decide (root_of n = Some v)) as [Hr|Hr].
    + destruct n as [|x cx nx]; [done|]. injection Hr as ->. cbn [detach]. rewrite bool_decide_eq_true_2 by done.
      by apply unlink_sibling.
    + apply unlinked_siblings; [done|done|by apply root_detach|by apply IHn].
Qed.

(** *** The heap as a priority queue *)

Section queue.
Context (less : positive -> positive -> bool) `{!StrictWeakOrder less}.

(** The heap holds the elements [S]. *)
Definition holds (h : Intrusive) (S : gset positive) : Prop :=
  exists t, root h = root_of t /\ (forall p c n, t = Node p c n -> n = Leaf) /\ repr (memory h) None t /\
    NoDup (nodes t) /\ ordered less t /\ S = list_to_set (nodes t).

(** An element outside every heap. *)
Definition idle (h : Intrusive) (v : positive) : Prop := memory h !! v = Some IntrusiveField_default.

(** A heap whose tree has the root [r] and no siblings. *)
Lemma holds_pair m r :
  repr m None (node_of r Leaf) -> NoDup (pair_nodes r) -> pair_ordered less r ->
  holds (mkHeap (Some r.1) m) (list_to_set (pair_nodes r)).
Proof.
  intros Hr Hnd [H1 H2]. exists (node_of r Leaf). cbn [root memory root_of node_of nodes]. rewrite app_nil_r.
  split_and!; try done. by intros p c n [= _ _ <-].
Qed.

Lemma holds_cases h S :
  holds h S ->
  (root h = None /\ S = ∅) \/
  exists r, root h = Some r.1 /\ repr (memory h) None (node_of r Leaf) /\ NoDup (pair_nodes r) /\
    pair_ordered less r /\ S = list_to_set (pair_nodes r).
Proof.
  intros (t & Hroot & Hn & Ht & Hnd & Ho & ->). destruct t as [|p c n]; [by left|right].
  rewrite (Hn p c n eq_refl) in *. exists (p, c). cbn [nodes] in *. rewrite app_nil_r in *. cbn [ordered] in Ho.
  destruct Ho as (Ho1 & Ho2 & _). split_and!; done.
Qed.

Lemma holds_empty m : holds (mkHeap None m) ∅.
Proof. exists Leaf. split_and!; try done. apply NoDup_nil_2. Qed.

Definition unchanged_outside (S : gset positive) (h h' : Intrusive) : Prop :=
  forall p, p ∉ S -> memory h' !! p = memory h !! p.

Lemma insert_ok h S v :
  holds h S -> v ∉ S -> idle h v ->
  exists h', insert less h v = Ok h' /\ holds h' (S ∪ {[v]}) /\ unchanged_outside (S ∪ {[v]}) h h'.
Proof.
  intros Hh Hv Hidle. unfold insert. apply holds_cases in Hh as [[-> ->]|(r & -> & Hr & Hnd & Ho & ->)].
  - eexists. split; [done|]. split; [|done]. rewrite union_empty_l_L. exists (Node v Leaf Leaf). split_and!; try done.
    + by intros p c n [= _ _ <-].
    + apply NoDup_singleton.
    + split; [apply list.Forall_nil_2|done].
    + apply set_eq. intros x. rewrite elem_of_list_to_set. cbn [nodes app]. set_solver.
  - rewrite elem_of_list_to_set in Hv.
    destruct (meld_ok less (memory h) None None (v, Leaf) r Leaf) as (m' & E & Hm & A); [done|done| |].
    { unfold pair_nodes at 1. cbn [fst snd nodes app]. rewrite app_nil_r. by apply list.NoDup_cons. }
    cbn [fst] in E. rewrite E. cbn [mbind outcome_bind fst snd]. eexists. split; [done|].
    pose proof (nodes_meld_pair less (v, Leaf) r) as Hp. unfold pair_nodes at 2 in Hp. cbn [fst snd nodes app] in Hp.
    split.
    + replace (list_to_set (pair_nodes r) ∪ {[v]}) with (list_to_set (C := gset positive) (pair_nodes (meld_pair less (v, Leaf) r))).
      * apply holds_pair; [done|rewrite Hp; by apply list.NoDup_cons|apply meld_pair_ordered; [done| |done]].
        split; [apply list.Forall_nil_2|done].
      * apply set_eq. intros x. rewrite elem_of_union, elem_of_singleton, !elem_of_list_to_set, Hp. set_solver.
    + intros p Hp'. apply A. unfold pair_nodes at 1. cbn [fst snd nodes app]. rewrite app_nil_r. set_solver.
Qed.
End queue.

Section removal.
Context (less : positive -> positive -> bool) `{!StrictWeakOrder less}.

(** The root is a least element. *)
Lemma root_least r : pair_ordered less r -> forall x, x ∈ pair_nodes r -> less x r.1 = false.
Proof.
  intros [H _] x Hx. unfold pair_nodes in Hx. apply elem_of_cons in Hx as [->|Hx]; [by apply (less_irrefl less)|].
  unfold above in H. rewrite list.Forall_forall in H. by apply H.
Qed.

Lemma peek_ok h S :
  holds less h S ->
  match peek h with None => S = ∅ | Some v => v ∈ S /\ forall w, w ∈ S -> less w v = false end.
Proof.
  unfold peek. intros Hh. apply holds_cases in Hh as [[-> ->]|(r & -> & Hr & Hnd & Ho & ->)]; [done|].
  split; [apply elem_of_list_to_set; unfold pair_nodes; set_solver|].
  intros w Hw. apply elem_of_list_to_set in Hw. by apply root_least.
Qed.

(** The siblings that [combine_siblings] gets make one heap. *)
Lemma combine_holds m q a ca n :
  repr m q (Node a ca n) -> NoDup (nodes (Node a ca n)) -> ordered less (Node a ca n) ->
  exists m' r, combine_siblings less m a = Ok (m', r.1) /\ repr m' None (node_of r Leaf) /\
    pair_ordered less r /\ pair_nodes r ≡ₚ nodes (Node a ca n) /\ agree (nodes (Node a ca n)) m m'.
Proof.
  intros Ht Hnd Ho. destruct (combine_siblings_ok less m q a ca n Ht Hnd) as (m' & r & Ec & E & Hr & A).
  exists m', r. pose proof (nodes_combine less (Node a ca n)) as Hp. pose proof (combine_ordered less (Node a ca n) Ho) as Hc.
  rewrite Ec in Hp, Hc. cbn [node_of nodes ordered] in Hp, Hc. rewrite app_nil_r in Hp. destruct Hc as (Hc1 & Hc2 & _).
  split_and!; done.
Qed.

Lemma delete_min_ok h S :
  holds less h S ->
  exists h' r, delete_min less h = Ok (h', r) /\ r = peek h /\
    match r with
    | None => h' = h
    | Some v => holds less h' (S ∖ {[v]}) /\ idle h' v
    end /\ unchanged_outside S h h'.
Proof.
  unfold peek. intros Hh. unfold delete_min. apply holds_cases in Hh as [[E ->]|([r c] & -> & Hr & Hnd & Ho & ->)].
  { rewrite E. by exists h, None. }
  cbn [fst]. pose proof (field_repr _ _ _ _ _ Hr) as Ef. cbn [fst snd] in Ef. rewrite Ef. cbn [mbind outcome_bind child].
  destruct Hr as (Hr & Hc & _). cbn [fst snd] in *.
  unfold pair_nodes in *. cbn [fst snd] in *. apply list.NoDup_cons in Hnd as [Hrc Hnd]. destruct Ho as [_ Hoc]. cbn [snd] in Hoc.
  assert (Hset : forall l, l ≡ₚ nodes c -> list_to_set (C := gset positive) l = list_to_set (r :: nodes c) ∖ {[r]}).
  { intros l Hl. apply set_eq. intros x. rewrite elem_of_difference, elem_of_singleton, !elem_of_list_to_set, Hl. set_solver. }
  destruct c as [|a ca n]; cbn [root_of].
  - eexists _, (Some r). split; [done|]. split; [done|]. split.
    + split; [|by unfold idle; cbn [memory]; rewrite lookup_insert_eq]. rewrite <- (Hset []) by done. apply holds_empty.
    + intros p Hp. cbn [memory]. apply lookup_insert_ne. intros ->. apply Hp. apply elem_of_list_to_set. set_solver.
  - destruct (combine_holds (memory h) (Some r) a ca n Hc Hnd Hoc) as (m' & x & E & Hx & Hox & Hp & A).
    rewrite E. cbn [mbind outcome_bind fst snd]. eexists _, (Some r). split; [done|]. split; [done|]. split.
    + split; [|by unfold idle; cbn [memory]; rewrite lookup_insert_eq]. rewrite <- (Hset (pair_nodes x)) by done.
      apply holds_pair; [|by rewrite Hp|done]. apply repr_insert; [|done]. cbn [node_of nodes]. rewrite app_nil_r.
      change (r ∉ pair_nodes x). by rewrite Hp.
    + intros p Hp'. cbn [memory]. rewrite elem_of_list_to_set in Hp'. rewrite lookup_insert_ne by (intros ->; set_solver).
      apply A. set_solver.
Qed.

(** A node below the root leaves the root in place. *)
Lemma detach_root v r :
  v ∈ nodes (node_of r Leaf) -> v <> r.1 -> exists c, (detach v (node_of r Leaf)).1 = node_of (r.1, c) Leaf.
Proof.
  destruct r as [r c]. unfold node_of. cbn [fst snd nodes detach]. rewrite app_nil_r. intros Hv Hne.
  rewrite bool_decide_eq_false_2 by congruence. rewrite bool_decide_eq_true_2 by set_solver. by eexists.
Qed.

Lemma remove_root_ok h S v :
  holds less h S -> root h = Some v ->
  exists h', remove less h v = Ok h' /\ holds less h' (S ∖ {[v]}) /\ idle h' v /\ unchanged_outside S h h'.
Proof.
  intros Hh Hroot. pose proof Hh as Hh'. apply holds_cases in Hh' as [[E ->]|(r & Hr0 & Hr & Hnd & Ho & ->)]; [congruence|].
  rewrite Hr0 in Hroot. injection Hroot as <-. unfold remove. rewrite (field_repr _ _ _ _ _ Hr). cbn [mbind outcome_bind prev].
  destruct (delete_min_ok h _ Hh) as (h' & x & -> & -> & Hx & Hu). unfold peek in Hx. rewrite Hr0 in Hx.
  exists h'. split; [done|]. split; [apply Hx|]. split; [apply Hx|done].
Qed.

(** Removing what is not the root, once it is unlinked: its children are melded back in. *)
Lemma reinsert_ok m v r s :
  m !! v = Some (mkField (root_of s) None None) -> repr m None (node_of r Leaf) -> repr m (Some v) s ->
  NoDup (v :: pair_nodes r ++ nodes s) -> pair_ordered less r -> ordered less s ->
  exists h',
    (fv ← field m v;
     match child fv with
     | None => Ok (mkHeap (Some r.1) m)
     | Some c =>
         m ← set_child m v None;
         x ← combine_siblings less m c;
         y ← meld less (fst x) (snd x) r.1; Ok (mkHeap (Some (snd y)) (fst y))
     end) = Ok h' /\
    holds less h' (list_to_set (pair_nodes r ++ nodes s)) /\ idle h' v /\
    agree (v :: pair_nodes r ++ nodes s) m (memory h').
Proof.
  intros Hv Hr Hs Hnd Hro Hso. apply list.NoDup_cons in Hnd as [Hvn Hnd].
  unfold field at 1. rewrite Hv. cbn [mbind outcome_bind child]. destruct s as [|a ca n]; cbn [root_of].
  { cbn [nodes] in *. rewrite app_nil_r in *. eexists. split; [done|]. split; [by apply holds_pair|]. by split. }
  unfold set_child, field. rewrite Hv. cbn [mbind outcome_bind prev next]. set (m2 := <[v := _]> m).
  assert (Hv2 : m2 !! v = Some IntrusiveField_default) by (unfold m2; by rewrite lookup_insert_eq).
  pose proof Hnd as (Hndr & Hrs & Hnds)%list.NoDup_app. rewrite not_elem_of_app in Hvn. destruct Hvn as [Hvr Hvs].
  destruct (combine_holds m2 (Some v) a ca n) as (m3 & x & E & Hx & Hxo & Hp & A); [by apply repr_insert|done|done|].
  rewrite E. cbn [mbind outcome_bind fst snd].
  destruct (meld_ok less m3 None None x r Leaf) as (m4 & E4 & Hm & A4); [done| | |].
  { eapply repr_agree; [exact A| |apply repr_insert; [|done]]; unfold node_of; cbn [nodes]; rewrite app_nil_r; [|done].
    intros p Hpr. by apply Hrs. }
  { cbn [nodes]. rewrite app_nil_r, Hp. rewrite Permutation_app_comm. done. }
  cbn [nodes] in A4. rewrite app_nil_r in A4. rewrite E4. cbn [mbind outcome_bind fst snd]. eexists. split; [done|]. split_and!.
  - replace (list_to_set (pair_nodes r ++ nodes (Node a ca n))) with (list_to_set (C := gset positive) (pair_nodes (meld_pair less x r))).
    + apply holds_pair; [done| |by apply meld_pair_ordered]. rewrite nodes_meld_pair, Hp, Permutation_app_comm. done.
    + apply set_eq. intros y. rewrite !elem_of_list_to_set, nodes_meld_pair, Hp. rewrite !elem_of_app. tauto.
  - unfold idle. cbn [memory]. rewrite A4, A; [done|done|]. rewrite Hp. by apply not_elem_of_app.
  - cbn [memory]. intros p [Hpv [Hpr Hps]%not_elem_of_app]%not_elem_of_cons. rewrite A4, A; [|done|by rewrite Hp, not_elem_of_app].
    unfold m2. by rewrite lookup_insert_ne.
Qed.

Lemma remove_ok h S v :
  holds less h S -> v ∈ S ->
  exists h', remove less h v = Ok h' /\ holds less h' (S ∖ {[v]}) /\ idle h' v /\ unchanged_outside S h h'.
Proof.
  intros Hh Hv. destruct (decide (root h = Some v)) as [|Hne]; [by apply remove_root_ok|].
  apply holds_cases in Hh as [[E ->]|(r & Hroot & Hr & Hnd & Ho & ->)]; [set_solver|].
  rewrite elem_of_list_to_set in Hv. set (t := node_of r Leaf) in *.
  assert (Hnt : nodes t = pair_nodes r) by (unfold t; cbn; by rewrite app_nil_r).
  assert (Hot : ordered less t) by (destruct Ho; unfold t; by split_and!).
  rewrite <- Hnt in *. rewrite Hroot in Hne.
  destruct (unlink_ok (memory h) None v t Hr Hnd Hv Hne) as (p & nx & m1 & Hmv & E1 & Hv1 & Ht1 & Hs1 & A1).
  pose proof (nodes_detach v t Hv Hnd) as Hperm. destruct (detach_ordered less v t Hv Hnd Hot) as [Ho1 Ho2].
  destruct (detach_root v r) as [c Hc]; [done|congruence|]. fold t in Hc. rewrite Hc in *.
  set (s := (detach v t).2) in *. unfold node_of in Hperm at 1. cbn [nodes fst snd] in Hperm. rewrite app_nil_r in Hperm.
  destruct (reinsert_ok m1 v (r.1, c) s) as (h' & E & Hh' & Hidle & A); try done.
  { unfold pair_nodes. cbn [fst snd]. by rewrite <- Hperm. } { by destruct Ho1 as (? & ? & _). }
  assert (Ef : field (memory h) v = Ok (mkField (root_of s) (Some p) nx)) by (unfold field; by rewrite Hmv).
  exists h'. unfold remove. rewrite Ef. cbn [mbind outcome_bind prev next]. rewrite E1. cbn [mbind outcome_bind].
  split; [rewrite <- E, Hroot; unfold field; rewrite Hv1; cbn [mbind outcome_bind child]; by destruct (root_of s)|].
  change (r.1 :: nodes c) with (pair_nodes (r.1, c)) in Hperm.
  split; [|split; [done|]].
  - replace (list_to_set (nodes t) ∖ {[v]}) with (list_to_set (C := gset positive) (pair_nodes (r.1, c) ++ nodes s)); [done|].
    assert (Hvn : v ∉ pair_nodes (r.1, c) ++ nodes s) by (rewrite Hperm in Hnd; by apply list.NoDup_cons in Hnd as [? _]).
    apply set_eq. intros x. rewrite elem_of_difference, elem_of_singleton, !elem_of_list_to_set, Hperm, elem_of_cons.
    split; [intros Hx; split; [by right|by intros ->]|tauto].
  - intros x Hx. rewrite elem_of_list_to_set in Hx. rewrite A by (by rewrite <- Hperm). by apply A1.
Qed.
End removal.

(** *** Walking the tree *)

Section walks.
Context (less : positive -> positive -> bool) `{!StrictWeakOrder less}.

Lemma count_internal_ok fuel m q t :
  repr m q t -> length (nodes t) <= fuel -> count_internal fuel m (root_of t) = Ok (length (nodes t)).
Proof.
  revert q t. induction fuel as [|fuel IH]; intros q [|p c n] Ht Hf; try done; cbn [nodes length] in Hf; [lia|].
  cbn [root_of count_internal]. rewrite (field_repr _ _ _ _ _ Ht). destruct Ht as (_ & Hc & Hn). rewrite length_app in Hf.
  cbn [mbind outcome_bind child next]. rewrite (IH _ _ Hc) by lia. cbn [mbind outcome_bind]. rewrite (IH _ _ Hn) by lia.
  cbn [mbind outcome_bind nodes length]. rewrite length_app. f_equal.
Qed.

(** [x] is among [cur] and the nodes [l], and none of them is greater. *)
Definition greatest (x cur : positive) (l : list positive) : Prop :=
  (x = cur \/ x ∈ l) /\ less x cur = false /\ Forall (fun w => less x w = false) l.

Lemma greatest_step x y cur l k : greatest y cur l -> greatest x y k -> greatest x cur (l ++ k).
Proof.
  intros (Hy & Hyc & Hyl) (Hx & Hxy & Hxk). split_and!.
  - rewrite elem_of_app. destruct Hx as [->|?], Hy as [->|?]; tauto.
  - by apply (less_ntrans cur y x).
  - apply list.Forall_app. split; [|done]. eapply list.Forall_impl; [exact Hyl|]. intros w Hw. by apply (less_ntrans w y x).
Qed.

Lemma greatest_self cur : greatest cur cur [].
Proof. split_and!; [by left|by apply (less_irrefl less)|apply list.Forall_nil_2]. Qed.

Lemma greatest_visit p cur : greatest (if less cur p then p else cur) cur [p].
Proof.
  destruct (less cur p) eqn:E; split_and!.
  - right. set_solver.
  - by apply less_asym.
  - apply list.Forall_singleton. by apply (less_irrefl less).
  - by left.
  - by apply (less_irrefl less).
  - by apply list.Forall_singleton.
Qed.

Lemma find_max_internal_ok fuel m q t cur :
  repr m q t -> length (nodes t) <= fuel ->
  match root_of t with
  | None => True
  | Some p => exists x, find_max_internal less fuel m p cur = Ok x /\ greatest x cur (nodes t)
  end.
Proof.
  revert q t cur. induction fuel as [|fuel IH]; intros q [|p c n] cur Ht Hf; try done; cbn [nodes length] in Hf; [lia|].
  cbn [root_of find_max_internal]. rewrite (field_repr _ _ _ _ _ Ht). destruct Ht as (_ & Hc & Hn). rewrite length_app in Hf.
  cbn [mbind outcome_bind child next]. set (y := if less cur p then p else cur).
  pose proof (greatest_visit p cur) as Hy. fold y in Hy.
  assert (Hx : exists x, (match root_of c with Some k => find_max_internal less fuel m k y | None => Ok y end) = Ok x /\
                         greatest x y (nodes c)).
  { pose proof (IH _ c y Hc ltac:(lia)) as H. destruct c as [|x cx nx]; [exists y; split; [done|apply greatest_self]|exact H]. }
  destruct Hx as (x & -> & Hx). cbn [mbind outcome_bind].
  assert (Hz : exists z, (match root_of n with Some k => find_max_internal less fuel m k x | None => Ok x end) = Ok z /\
                         greatest z x (nodes n)).
  { pose proof (IH _ n x Hn ltac:(lia)) as H. destruct n as [|z cz nz]; [exists x; split; [done|apply greatest_self]|exact H]. }
  destruct Hz as (z & -> & Hz). exists z. split; [done|]. cbn [nodes].
  exact (greatest_step _ _ _ _ _ (greatest_step _ _ _ _ _ Hy Hx) Hz).
Qed.

Lemma count_ok h S : holds less h S -> count h = Ok (size S).
Proof.
  intros (t & Hroot & _ & Ht & Hnd & _ & ->). unfold count. rewrite Hroot.
  rewrite (count_internal_ok _ _ _ _ Ht) by (by eapply repr_size). by rewrite size_list_to_set.
Qed.

Lemma find_max_ok h S :
  holds less h S ->
  exists r, find_max less h = Ok r /\
    match r with None => S = ∅ | Some x => x ∈ S /\ forall w, w ∈ S -> less x w = false end.
Proof.
  intros (t & Hroot & _ & Ht & Hnd & _ & ->). unfold find_max. rewrite Hroot. destruct t as [|p c n]; [by exists None|].
  cbn [root_of]. destruct (find_max_internal_ok (size (memory h)) _ _ _ p Ht) as (x & -> & Hx & _ & Hl); [by eapply repr_size|].
  exists (Some x). split; [done|]. rewrite list.Forall_forall in Hl. split.
  - apply elem_of_list_to_set. destruct Hx as [->|Hx]; [cbn; set_solver|done].
  - intros w Hw. apply elem_of_list_to_set in Hw. by apply Hl.
Qed.
End walks.

(** (C29) The pairing heap is a priority queue: on a heap that holds the set [S], inserting an
    idle element adds it, [delete_min] and [remove] take out a least element and the given one
    (and leave it idle, ready to be inserted again), [peek] and [find_max] return a least and a
    greatest element, and [count] the size.  No null or dangling pointer is followed, the loops
    end, and nodes outside the heap are not written. *)
Theorem heap_refines_priority_queue (less : positive -> positive -> bool) (h : Intrusive) (S : gset positive) :
  StrictWeakOrder less -> holds less h S ->
  (forall v, v ∉ S -> idle h v ->
     exists h', insert less h v = Ok h' /\ holds less h' (S ∪ {[v]}) /\ unchanged_outside (S ∪ {[v]}) h h') /\
  match peek h with None => S = ∅ | Some v => v ∈ S /\ forall w, w ∈ S -> less w v = false end /\
  (exists h' r, delete_min less h = Ok (h', r) /\ r = peek h /\
     match r with None => h' = h | Some v => holds less h' (S ∖ {[v]}) /\ idle h' v end /\
     unchanged_outside S h h') /\
  (forall v, v ∈ S ->
     exists h', remove less h v = Ok h' /\ holds less h' (S ∖ {[v]}) /\ idle h' v /\ unchanged_outside S h h') /\
  (exists r, find_max less h = Ok r /\
     match r with None => S = ∅ | Some x => x ∈ S /\ forall w, w ∈ S -> less x w = false end) /\
  count h = Ok (size S).
Proof.
  intros Hless Hh. split_and!.
  - intros v Hv Hidle. by apply insert_ok.
  - by apply peek_ok.
  - by apply delete_min_ok.
  - intros v Hv. by apply remove_ok.
  - by apply find_max_ok.
  - by apply (count_ok less).
Qed.

#[export] Instance Pos_ltb_order : StrictWeakOrder Pos.ltb.
Proof. split; intros *; rewrite ?Pos.ltb_lt, ?Pos.ltb_ge; lia. Qed.

(** Four idle elements, inserted one after the other. *)
Definition sample_memory : Memory :=
  list_to_map ((fun p => (p, IntrusiveField_default)) <$> [1; 2; 3; 4]%positive).

Lemma heap_refines_priority_queue_witness :
  exists h, insert Pos.ltb (mkHeap None sample_memory) 3 = Ok h /\ holds Pos.ltb h (∅ ∪ {[3%positive]}).
Proof.
  destruct (proj1 (heap_refines_priority_queue Pos.ltb (mkHeap None sample_memory) ∅ Pos_ltb_order (holds_empty _ _)) 3%positive)
    as (h & E & Hh & _); [set_solver|vm_compute; reflexivity|by exists h].
Defined.

(** A run: the elements come out in order, whatever the order they went in. *)
Lemma sample_run :
  (h ← insert Pos.ltb (mkHeap None sample_memory) 3; h ← insert Pos.ltb h 1; h ← insert Pos.ltb h 4; h ← insert Pos.ltb h 2;
   h ← remove Pos.ltb h 4; a ← delete_min Pos.ltb h; b ← delete_min Pos.ltb a.1; c ← delete_min Pos.ltb b.1;
   d ← delete_min Pos.ltb c.1; Ok [a.2; b.2; c.2; d.2]) = Ok [Some 1; Some 2; Some 3; None]%positive.
Proof. vm_compute. reflexivity. Qed.
