(* ===== verification/HiveArray.v ===== *)
(** * The slot pool ([collections/hive_array.rs])

    A [HiveArray] is an array of [CAPACITY] slots with an occupancy bit set of 32 words; a slot is
    known to its users by its address, and [Fallback] spills to the heap when the array is full.
    A slot that was not written is [None]; reading or dropping it has no behaviour ([Panic]).  The
    specification is a map from the addresses in use to their values. *)

From stdpp Require Import gmap.
From S2P Require Import Prelude BitSet.

Local Open Scope nat_scope.

(** ** The occupancy bits *)

Definition HIVE_BITSET_WORDS : nat := 32.
Definition WORD_BITS : nat := 64.

Record HiveBitSet := mkHiveBits { masks : list Z }.
Record HiveBitSetIter := mkHiveIter { it_masks : list Z; it_word : nat }.

Section bits.
Context (CAPACITY : nat).

Implicit Types s : HiveBitSet.

Definition NUM_WORDS : nat := if CAPACITY =? 0 then 0 else (CAPACITY + (WORD_BITS - 1)) / WORD_BITS.

Definition LAST_WORD_MASK : Z :=
  let rem := CAPACITY mod WORD_BITS in
  if rem =? 0 then U64_MAX else (ushl 1 rem - 1)%Z.

Definition bits_init_empty : HiveBitSet := mkHiveBits (replicate HIVE_BITSET_WORDS 0%Z).

Definition bits_is_set s (index : nat) : outcome bool :=
  m ← index_at (masks s) (index / WORD_BITS);
  Ok (negb (Z.land (ushr m (index mod WORD_BITS)) 1 =? 0)%Z).

Definition bits_set s (index : nat) : outcome HiveBitSet :=
  let w := index / WORD_BITS in
  m ← index_at (masks s) w;
  Ok (mkHiveBits (<[w := Z.lor m (ushl 1 (index mod WORD_BITS))]> (masks s))).

Definition bits_unset s (index : nat) : outcome HiveBitSet :=
  let w := index / WORD_BITS in
  m ← index_at (masks s) w;
  Ok (mkHiveBits (<[w := Z.land m (unot (ushl 1 (index mod WORD_BITS)))]> (masks s))).

(** The loops go over the words [i], ..., [NUM_WORDS - 1]; [n] words are left. *)
Fixpoint find_first_set_loop (n i : nat) s : outcome (option nat) :=
  match n with
  | O => Ok None
  | S n =>
      m ← index_at (masks s) i;
      if (m =? 0)%Z then find_first_set_loop n (i + 1) s else Ok (Some (i * WORD_BITS + trailing_zeros m))
  end.

Definition bits_find_first_set s : outcome (option nat) := find_first_set_loop NUM_WORDS 0 s.

Fixpoint find_first_unset_loop (n i : nat) s : outcome (option nat) :=
  match n with
  | O => Ok None
  | S n =>
      let live_mask := if i + 1 =? NUM_WORDS then LAST_WORD_MASK else U64_MAX in
      m ← index_at (masks s) i;
      let inv := Z.land (unot m) live_mask in
      if (inv =? 0)%Z then find_first_unset_loop n (i + 1) s else Ok (Some (i * WORD_BITS + trailing_zeros inv))
  end.

Definition bits_find_first_unset s : outcome (option nat) := find_first_unset_loop NUM_WORDS 0 s.

Definition bits_iterator s : HiveBitSetIter := mkHiveIter (masks s) 0.

Fixpoint hive_iter_next (n : nat) (it : HiveBitSetIter) : outcome (option nat * HiveBitSetIter) :=
  match n with
  | O => Ok (None, it)
  | S n =>
      let w := it_word it in
      m ← index_at (it_masks it) w;
      if (m =? 0)%Z then hive_iter_next n (mkHiveIter (it_masks it) (w + 1))
      else Ok (Some (w * WORD_BITS + trailing_zeros m), mkHiveIter (<[w := Z.land m (m - 1)%Z]> (it_masks it)) w)
  end.

(** The indices a loop over the iterator sees. *)
Fixpoint hive_iter_collect (fuel : nat) (it : HiveBitSetIter) : outcome (list nat) :=
  r ← hive_iter_next (NUM_WORDS - it_word it) it;
  match r with
  | (None, _) => Ok []
  | (Some i, it) =>
      match fuel with
      | O => OutOfFuel
      | S fuel => l ← hive_iter_collect fuel it; Ok (i :: l)
      end
  end.
End bits.

(** ** The pool *)

(** [base] is the address of the buffer. *)
Record HiveArray (A : Type) := mkHive { base : Z; buffer : list (option A); used : HiveBitSet }.
Arguments mkHive {A} base buffer used.
Arguments base {A} h.
Arguments buffer {A} h.
Arguments used {A} h.

(** A claimed slot: in the array, or a box of the heap. *)
Record HiveSlot := mkSlot { slot_addr : Z; slot_owned : bool }.

Section pool.
Context {A : Type} (CAPACITY : nat).
(** [size_of::<T>()] *)
Context (t_size : Z).

Implicit Types h : HiveArray A.

Definition hive_init (base : Z) : HiveArray A := mkHive base (replicate CAPACITY None) bits_init_empty.

Definition ptr_at h (index : nat) : outcome Z :=
  if index <? CAPACITY then Ok (base h + Z.of_nat index * t_size)%Z else Panic.

Definition hive_in h (value : Z) : bool :=
  (base h <=? value)%Z && (value <? base h + Z.of_nat CAPACITY * t_size)%Z.

Definition index_of h (value : Z) : option nat :=
  if hive_in h value then Some (Z.to_nat ((value - base h) / t_size)) else None.

Definition claim h : outcome (option HiveSlot * HiveArray A) :=
  r ← bits_find_first_unset CAPACITY (used h);
  match r with
  | None => Ok (None, h)
  | Some index =>
      u ← bits_set (used h) index;
      Ok (Some (mkSlot (base h + Z.of_nat index * t_size) true), mkHive (base h) (buffer h) u)
  end.

(** Writing a value at an address of the array, for [HiveSlot::write]. *)
Definition store h (p : Z) (value : A) : outcome (HiveArray A) :=
  match index_of h p with
  | Some i => if i <? length (buffer h) then Ok (mkHive (base h) (<[i := Some value]> (buffer h)) (used h)) else Panic
  | None => Panic
  end.

Definition get_init h (value : A) : outcome (option Z * HiveArray A) :=
  r ← claim h;
  match r with
  | (None, h) => Ok (None, h)
  | (Some slot, h) => h ← store h (slot_addr slot) value; Ok (Some (slot_addr slot), h)
  end.

(** [alloc]: the same, for a [HiveBox]. *)
Definition alloc h (value : A) : outcome (option Z * HiveArray A) :=
  r ← bits_find_first_unset CAPACITY (used h);
  match r with
  | None => Ok (None, h)
  | Some index =>
      u ← bits_set (used h) index;
      p ← ptr_at h index;
      h ← store (mkHive (base h) (buffer h) u) p value;
      Ok (Some p, h)
  end.

Definition box_at h (index : nat) : outcome (option Z) :=
  if CAPACITY <=? index then Ok (@None Z)
  else
    b ← bits_is_set (used h) index;
    if negb b then Ok (@None Z) else p ← ptr_at h index; Ok (Some p).

(** The value at an address of the array, moved out. *)
Definition load h (p : Z) : outcome A :=
  match index_of h p with
  | Some i => match buffer h !! i with Some (Some v) => Ok v | _ => Panic end
  | None => Panic
  end.

(** The slot is free again; its bytes are no longer a value. *)
Definition release h (i : nat) : outcome (HiveArray A) :=
  u ← bits_unset (used h) i; Ok (mkHive (base h) (<[i := None]> (buffer h)) u).

Definition put_raw h (value : Z) : outcome (bool * HiveArray A) :=
  match index_of h value with
  | None => Ok (false, h)
  | Some index => h ← release h index; Ok (true, h)
  end.

(** [put] returns the value it drops. *)
Definition put h (value : Z) : outcome (option A * HiveArray A) :=
  match index_of h value with
  | None => Ok (None, h)
  | Some index => v ← load h value; h ← release h index; Ok (Some v, h)
  end.

Definition into_inner h (slot : Z) : outcome (A * HiveArray A) :=
  v ← load h slot; r ← put_raw h slot; Ok (v, snd r).

(** Dropping a claimed slot of the array that was not written. *)
Definition slot_drop h (slot : HiveSlot) : outcome (HiveArray A) :=
  match index_of h (slot_addr slot) with
  | Some index => release h index
  | None => Panic
  end.

(** ** The pool that spills to the heap *)

(** The boxes of the heap by address. *)
Record Fallback := mkFallback { hive : HiveArray A; boxes : gmap Z (option A) }.

(** [fresh] is the address that the allocator answers with, should it be asked. *)
Definition fb_claim (f : Fallback) (fresh : Z) : outcome (HiveSlot * Fallback) :=
  r ← (if 0 <? CAPACITY then claim (hive f) else Ok (None, hive f));
  match r with
  | (Some slot, h) => Ok (slot, mkFallback h (boxes f))
  | (None, h) => Ok (mkSlot fresh false, mkFallback h (<[fresh := None]> (boxes f)))
  end.

Definition fb_get_init (f : Fallback) (fresh : Z) (value : A) : outcome (Z * Fallback) :=
  r ← fb_claim f fresh;
  let '(slot, f) := r in
  if slot_owned slot
  then h ← store (hive f) (slot_addr slot) value; Ok (slot_addr slot, mkFallback h (boxes f))
  else Ok (slot_addr slot, mkFallback (hive f) (<[slot_addr slot := Some value]> (boxes f))).

Definition fb_put (f : Fallback) (value : Z) : outcome (option A * Fallback) :=
  r ← (if 0 <? CAPACITY then put (hive f) value else Ok (None, hive f));
  match r with
  | (Some v, h) => Ok (Some v, mkFallback h (boxes f))
  | (None, h) =>
      match boxes f !! value with
      | Some (Some v) => Ok (Some v, mkFallback h (delete value (boxes f)))
      | _ => Panic
      end
  end.

Definition fb_in (f : Fallback) (value : Z) : bool := (0 <? CAPACITY) && hive_in (hive f) value.
End pool.
Arguments Fallback A : clear implicits.

(** ** What the bits say *)

Section bit_facts.
Context (CAPACITY : nat).

Implicit Types s : HiveBitSet.

Definition bit s (i : nat) : bool :=
  match masks s !! (i / 64) with Some m => Z.testbit m (Z.of_nat (i mod 64)) | None => false end.

(** The representation invariant: 32 words, and no bit beyond the capacity. *)
Record bits_ok s : Prop := {
  bits_capacity : CAPACITY <= 2048;
  bits_length : length (masks s) = HIVE_BITSET_WORDS;
  bits_words : forall w m, masks s !! w = Some m -> word_ok m;
  bits_padding : forall i, CAPACITY <= i -> bit s i = false;
}.

Lemma word_of s i : bits_ok s -> i < CAPACITY -> exists m, masks s !! (i / 64) = Some m /\ word_ok m.
Proof.
  intros [Hc Hl Hw _] Hi. destruct (lookup_lt_is_Some_2 (masks s) (i / 64)) as [m Hm].
  { rewrite Hl. unfold HIVE_BITSET_WORDS. apply Nat.Div0.div_lt_upper_bound. lia. }
  exists m. split; [done|by apply (Hw _ _ Hm)].
Qed.

Lemma bits_is_set_ok s i : bits_ok s -> i < CAPACITY -> bits_is_set s i = Ok (bit s i).
Proof.
  intros Hok Hi. destruct (word_of s i Hok Hi) as (m & Hm & Hw). unfold bits_is_set, bit, WORD_BITS.
  rewrite (index_at_ok _ _ _ Hm), Hm. cbn [mbind outcome_bind]. f_equal. unfold ushr.
  pose proof (mod_lt_64 i). rewrite (Z.mod_small (Z.of_nat (i mod 64))) by lia.
  rewrite (land_ones_mod _ 1 1) by done. change (2 ^ 1)%Z with 2%Z.
  rewrite <- Z.bit0_mod, Z.shiftr_spec, Z.add_0_l by lia. by destruct (Z.testbit m _).
Qed.

(** Writing word [i / 64] so that bit [i] becomes [v] and the others stay. *)
Lemma bit_update s i m m' v :
  masks s !! (i / 64) = Some m ->
  (forall k, k < 64 -> Z.testbit m' (Z.of_nat k) = if k =? i mod 64 then v else Z.testbit m (Z.of_nat k)) ->
  forall j, bit (mkHiveBits (<[i / 64 := m']> (masks s))) j = if j =? i then v else bit s j.
Proof.
  intros Hm Hm' j. unfold bit. cbn [masks]. destruct (decide (j / 64 = i / 64)) as [E|E].
  - rewrite E, list_lookup_insert_eq by (by apply lookup_lt_Some in Hm). rewrite Hm, Hm' by apply mod_lt_64.
    destruct (Nat.eqb_spec j i) as [->|Hne]; [by rewrite Nat.eqb_refl|].
    destruct (Nat.eqb_spec (j mod 64) (i mod 64)); [by destruct Hne; apply same_word|done].
  - rewrite list_lookup_insert_ne by congruence. destruct (Nat.eqb_spec j i); [congruence|done].
Qed.

Lemma bits_ok_update s i m m' v :
  bits_ok s -> i < CAPACITY -> masks s !! (i / 64) = Some m -> word_ok m' ->
  (forall k, k < 64 -> Z.testbit m' (Z.of_nat k) = if k =? i mod 64 then v else Z.testbit m (Z.of_nat k)) ->
  bits_ok (mkHiveBits (<[i / 64 := m']> (masks s))).
Proof.
  intros [Hc Hl Hw Hp] Hi Hm Hw' Hm'. constructor; [done|cbn [masks]; by rewrite length_insert| |].
  - intros w x. cbn [masks]. intros Hx. destruct (decide (w = i / 64)) as [->|].
    + rewrite list_lookup_insert_eq in Hx by (by apply lookup_lt_Some in Hm). by injection Hx as <-.
    + rewrite list_lookup_insert_ne in Hx by congruence. by apply (Hw w).
  - intros j Hj. rewrite (bit_update s i m m' v Hm Hm'). destruct (Nat.eqb_spec j i); [lia|by apply Hp].
Qed.

Lemma bits_set_ok s i :
  bits_ok s -> i < CAPACITY ->
  exists s', bits_set s i = Ok s' /\ bits_ok s' /\ forall j, bit s' j = if j =? i then true else bit s j.
Proof.
  intros Hok Hi. destruct (word_of s i Hok Hi) as (m & Hm & Hw). unfold bits_set, WORD_BITS.
  rewrite (index_at_ok _ _ _ Hm). cbn [mbind outcome_bind].
  assert (Hb : forall k, k < 64 -> Z.testbit (Z.lor m (ushl 1 (i mod 64))) (Z.of_nat k) =
                                   if k =? i mod 64 then true else Z.testbit m (Z.of_nat k)).
  { intros k Hk. rewrite Z.lor_spec, ushl1_testbit by (apply mod_lt_64 || lia).
    destruct (Nat.eqb_spec k (i mod 64)) as [->|]; [by rewrite Z.eqb_refl, orb_true_r|].
    rewrite (proj2 (Z.eqb_neq _ _)) by lia. apply orb_false_r. }
  eexists. split; [done|]. split; [eapply bits_ok_update; eauto with words|by apply (bit_update s i m)].
Qed.

Lemma bits_unset_ok s i :
  bits_ok s -> i < CAPACITY ->
  exists s', bits_unset s i = Ok s' /\ bits_ok s' /\ forall j, bit s' j = if j =? i then false else bit s j.
Proof.
  intros Hok Hi. destruct (word_of s i Hok Hi) as (m & Hm & Hw). unfold bits_unset, WORD_BITS.
  rewrite (index_at_ok _ _ _ Hm). cbn [mbind outcome_bind].
  assert (Hb : forall k, k < 64 -> Z.testbit (Z.land m (unot (ushl 1 (i mod 64)))) (Z.of_nat k) =
                                   if k =? i mod 64 then false else Z.testbit m (Z.of_nat k)).
  { intros k Hk. rewrite Z.land_spec, unot_testbit, ushl1_testbit by (apply mod_lt_64 || lia).
    destruct (Nat.eqb_spec k (i mod 64)) as [->|]; [by rewrite Z.eqb_refl, andb_false_r|].
    rewrite (proj2 (Z.eqb_neq _ _)) by lia. apply andb_true_r. }
  eexists. split; [done|]. split; [eapply bits_ok_update; eauto with words|by apply (bit_update s i m)].
Qed.

Lemma bits_init_ok : CAPACITY <= 2048 -> bits_ok bits_init_empty.
Proof.
  intros Hc. constructor; [done|apply length_replicate| |].
  - intros w m Hm. apply lookup_replicate in Hm as [-> _]. done.
  - intros i _. unfold bit, bits_init_empty. cbn [masks]. destruct (replicate _ _ !! _) eqn:E; [|done].
    apply lookup_replicate in E as [-> _]. apply Z.bits_0.
Qed.
End bit_facts.

(** ** Searches and iteration *)

Section searches.
Context (CAPACITY : nat).

Implicit Types s : HiveBitSet.

Lemma bit_word s w m k : masks s !! w = Some m -> k < 64 -> bit s (w * 64 + k) = Z.testbit m (Z.of_nat k).
Proof.
  intros Hm Hk. unfold bit. rewrite Nat.div_add_l, Nat.div_small, Nat.add_0_r by lia.
  rewrite Nat.add_comm, Nat.Div0.mod_add, Nat.mod_small by lia. by rewrite Hm.
Qed.

Lemma NUM_WORDS_bounds : CAPACITY <= 64 * NUM_WORDS CAPACITY < CAPACITY + 64.
Proof.
  unfold NUM_WORDS, WORD_BITS. destruct (Nat.eqb_spec CAPACITY 0); [lia|].
  pose proof (Nat.div_mod_eq (CAPACITY + (64 - 1)) 64). pose proof (Nat.mod_upper_bound (CAPACITY + (64 - 1)) 64). lia.
Qed.

Lemma live_mask_testbit w k :
  w < NUM_WORDS CAPACITY -> k < 64 ->
  Z.testbit (if w + 1 =? NUM_WORDS CAPACITY then LAST_WORD_MASK CAPACITY else U64_MAX) (Z.of_nat k) =
    (w * 64 + k <? CAPACITY).
Proof.
  intros Hw Hk. pose proof NUM_WORDS_bounds as HN.
  assert (Hones : Z.testbit U64_MAX (Z.of_nat k) = true).
  { change U64_MAX with (Z.ones (Z.of_nat 64)). rewrite ones_testbit by lia. apply Z.ltb_lt. lia. }
  destruct (Nat.eqb_spec (w + 1) (NUM_WORDS CAPACITY)) as [E|E].
  - unfold LAST_WORD_MASK, WORD_BITS. pose proof (Nat.div_mod_eq CAPACITY 64). pose proof (mod_lt_64 CAPACITY).
    destruct (Nat.eqb_spec (CAPACITY mod 64) 0) as [E0|E0].
    + rewrite Hones. symmetry. apply Nat.ltb_lt. lia.
    + rewrite ushl1_value by lia. 
      replace (2 ^ Z.of_nat (CAPACITY mod 64) - 1)%Z with (Z.ones (Z.of_nat (CAPACITY mod 64))) by (rewrite Z.ones_equiv; lia).
      rewrite ones_testbit by lia. apply eq_true_iff_eq. rewrite Z.ltb_lt, Nat.ltb_lt. lia.
  - rewrite Hones. symmetry. apply Nat.ltb_lt. lia.
Qed.

(** The free slots of word [w]. *)
Lemma free_testbit s w m k :
  masks s !! w = Some m -> w < NUM_WORDS CAPACITY -> k < 64 ->
  Z.testbit (Z.land (unot m) (if w + 1 =? NUM_WORDS CAPACITY then LAST_WORD_MASK CAPACITY else U64_MAX)) (Z.of_nat k) =
    negb (bit s (w * 64 + k)) && (w * 64 + k <? CAPACITY).
Proof.
  intros Hm Hw Hk. rewrite Z.land_spec, unot_testbit, live_mask_testbit by (done || lia). by rewrite (bit_word s w m).
Qed.

(** The first index from [lo] on that satisfies [P]. *)
Definition first_from (lo : nat) (P : nat -> Prop) (r : option nat) : Prop :=
  match r with
  | None => forall j, lo <= j -> ~ P j
  | Some x => lo <= x /\ P x /\ forall j, lo <= j < x -> ~ P j
  end.

Lemma first_from_skip lo lo' P r :
  lo <= lo' -> (forall j, lo <= j < lo' -> ~ P j) -> first_from lo' P r -> first_from lo P r.
Proof.
  intros Hlo Hskip. destruct r as [x|]; cbn.
  - intros (Hx & HP & Hj). split; [lia|]. split; [done|]. intros j Hj'. destruct (decide (j < lo')); [apply Hskip|apply Hj]; lia.
  - intros H j Hj. destruct (decide (j < lo')); [apply Hskip|apply H]; lia.
Qed.

(** One word of a search: its bits are [P] on the 64 indices of word [w]. *)
Lemma first_in_word w x (P : nat -> Prop) :
  word_ok x -> (forall k, k < 64 -> Z.testbit x (Z.of_nat k) = true <-> P (w * 64 + k)) ->
  if (x =? 0)%Z then forall j, w * 64 <= j < (w + 1) * 64 -> ~ P j
  else first_from (w * 64) P (Some (w * 64 + trailing_zeros x)).
Proof.
  intros Hx HP. destruct (Z.eqb_spec x 0) as [->|Hne].
  - intros j Hj Hp. replace j with (w * 64 + (j - w * 64)) in Hp by lia. apply HP in Hp; [|lia]. by rewrite Z.bits_0 in Hp.
  - unfold trailing_zeros. destruct (word_bits x) as [|i l] eqn:E; [by apply word_bits_nil in E|]. cbn [head default].
    destruct (word_bits_head_least x i l E) as (Hi & Hb & Hlow). split; [lia|]. split; [by apply HP|].
    intros j Hj Hp. change (w * 64 <= j < w * 64 + i) in Hj.
    replace j with (w * 64 + (j - w * 64)) in Hp by lia. apply HP in Hp; [|lia].
    rewrite Hlow in Hp; [done|lia].
Qed.

Lemma live_word s w : bits_ok CAPACITY s -> w < NUM_WORDS CAPACITY -> exists m, masks s !! w = Some m /\ word_ok m.
Proof.
  intros [Hc Hl Hw Hp] Hn. pose proof NUM_WORDS_bounds. destruct (lookup_lt_is_Some_2 (masks s) w) as [m Hm].
  { rewrite Hl. unfold HIVE_BITSET_WORDS. lia. }
  exists m. split; [done|by apply (Hw _ _ Hm)].
Qed.

Lemma word_ok_live w : word_ok (if w + 1 =? NUM_WORDS CAPACITY then LAST_WORD_MASK CAPACITY else U64_MAX).
Proof.
  destruct (_ =? _); [|done]. unfold LAST_WORD_MASK, WORD_BITS. pose proof (mod_lt_64 CAPACITY).
  destruct (_ =? 0); [done|]. rewrite ushl1_value by lia.
  replace (2 ^ Z.of_nat (CAPACITY mod 64) - 1)%Z with (Z.ones (Z.of_nat (CAPACITY mod 64))) by (rewrite Z.ones_equiv; lia).
  apply word_ok_ones. lia.
Qed.

Lemma find_first_unset_loop_ok n i s :
  bits_ok CAPACITY s -> i + n = NUM_WORDS CAPACITY ->
  exists r, find_first_unset_loop CAPACITY n i s = Ok r /\
    first_from (i * 64) (fun j => j < CAPACITY /\ bit s j = false) r.
Proof.
  intros Hok. revert i. induction n as [|n IH]; intros i Hi; cbn [find_first_unset_loop].
  { exists None. split; [done|]. pose proof NUM_WORDS_bounds. intros j Hj [? _]. lia. }
  destruct (live_word s i Hok) as (m & Hm & Hw); [lia|]. rewrite (index_at_ok _ _ _ Hm). cbn [mbind outcome_bind].
  set (x := Z.land _ _).
  assert (Hx : word_ok x) by (unfold x; apply word_ok_land; [by apply word_ok_unot|apply word_ok_live]).
  pose proof (first_in_word i x (fun j => j < CAPACITY /\ bit s j = false) Hx) as Hfirst.
  assert (Hbits : forall k, k < 64 -> Z.testbit x (Z.of_nat k) = true <-> i * 64 + k < CAPACITY /\ bit s (i * 64 + k) = false).
  { intros k Hk. unfold x. rewrite (free_testbit s i m k) by (done || lia).
    rewrite andb_true_iff, negb_true_iff, Nat.ltb_lt. tauto. }
  specialize (Hfirst Hbits). destruct (x =? 0)%Z.
  - destruct (IH (i + 1)) as (r & -> & Hr); [lia|]. exists r. split; [done|]. eapply first_from_skip; [|exact Hfirst|done]. lia.
  - eexists. split; [done|exact Hfirst].
Qed.

Lemma find_first_set_loop_ok n i s :
  bits_ok CAPACITY s -> i + n = NUM_WORDS CAPACITY ->
  exists r, find_first_set_loop n i s = Ok r /\ first_from (i * 64) (fun j => bit s j = true) r.
Proof.
  intros Hok. revert i. induction n as [|n IH]; intros i Hi; cbn [find_first_set_loop].
  { exists None. split; [done|]. pose proof NUM_WORDS_bounds. intros j Hj. rewrite (bits_padding _ _ Hok) by lia. done. }
  destruct (live_word s i Hok) as (m & Hm & Hw); [lia|]. rewrite (index_at_ok _ _ _ Hm). cbn [mbind outcome_bind].
  pose proof (first_in_word i m (fun j => bit s j = true) Hw) as Hfirst.
  assert (Hbits : forall k, k < 64 -> Z.testbit m (Z.of_nat k) = true <-> bit s (i * 64 + k) = true).
  { intros k Hk. by rewrite (bit_word s i m k Hm Hk). }
  specialize (Hfirst Hbits). destruct (m =? 0)%Z.
  - destruct (IH (i + 1)) as (r & -> & Hr); [lia|]. exists r. split; [done|]. eapply first_from_skip; [|exact Hfirst|done]. lia.
  - eexists. split; [done|exact Hfirst].
Qed.

Lemma bits_find_first_unset_ok s :
  bits_ok CAPACITY s ->
  exists r, bits_find_first_unset CAPACITY s = Ok r /\ first_from 0 (fun j => j < CAPACITY /\ bit s j = false) r.
Proof. intros Hok. by apply (find_first_unset_loop_ok (NUM_WORDS CAPACITY) 0 s). Qed.

Lemma bits_find_first_set_ok s :
  bits_ok CAPACITY s ->
  exists r, bits_find_first_set CAPACITY s = Ok r /\ first_from 0 (fun j => bit s j = true) r.
Proof. intros Hok. by apply (find_first_set_loop_ok (NUM_WORDS CAPACITY) 0 s). Qed.
End searches.

(** ** The iterator *)

Section iterator.
Context (CAPACITY : nat).

Implicit Types it : HiveBitSetIter.

Definition iter_bits it : HiveBitSet := mkHiveBits (it_masks it).

(** What a step answers, and what it leaves. *)
Definition step_result it (r : option nat) it' : Prop :=
  first_from (it_word it * 64) (fun j => bit (iter_bits it) j = true) r /\
  match r with
  | None => True
  | Some x => it_word it' = x / 64 /\ bits_ok CAPACITY (iter_bits it') /\
              forall j, bit (iter_bits it') j = if j =? x then false else bit (iter_bits it) j
  end.

Lemma hive_iter_next_ok n it :
  bits_ok CAPACITY (iter_bits it) -> it_word it + n = NUM_WORDS CAPACITY ->
  exists r it', hive_iter_next n it = Ok (r, it') /\ step_result it r it'.
Proof.
  revert it. induction n as [|n IH]; intros it Hok Hn; cbn [hive_iter_next].
  { exists None, it. split; [done|]. split; [|done]. pose proof (NUM_WORDS_bounds CAPACITY). intros j Hj.
    rewrite (bits_padding _ _ Hok) by lia. done. }
  set (w := it_word it) in *.
  destruct (live_word CAPACITY (iter_bits it) w Hok) as (m & Hm & Hw); [lia|].
  rewrite (index_at_ok _ _ _ (Hm : it_masks it !! w = Some m)). cbn [mbind outcome_bind].
  pose proof (first_in_word w m (fun j => bit (iter_bits it) j = true) Hw) as Hfirst.
  assert (Hbits : forall k, k < 64 -> Z.testbit m (Z.of_nat k) = true <-> bit (iter_bits it) (w * 64 + k) = true).
  { intros k Hk. by rewrite (bit_word (iter_bits it) w m k Hm Hk). }
  specialize (Hfirst Hbits). destruct (Z.eqb_spec m 0) as [->|Hne].
  - destruct (IH (mkHiveIter (it_masks it) (w + 1))) as (r & it' & -> & Hr & Hs); [done|cbn [it_word]; lia|].
    exists r, it'. split; [done|]. split; [|done]. eapply first_from_skip; [|exact Hfirst|exact Hr]. lia.
  - destruct (clear_lowest m Hw Hne) as (Hw' & Hclear). eexists _, _. split; [done|]. split; [exact Hfirst|].
    destruct Hfirst as (_ & Hx & _). assert (Htz : trailing_zeros m < 64) by (by apply trailing_zeros_lt).
    set (x := w * WORD_BITS + trailing_zeros m) in *.
    assert (Hxw : x / 64 = w) by (unfold x, WORD_BITS; rewrite Nat.div_add_l, Nat.div_small by lia; lia).
    assert (Hxk : x mod 64 = trailing_zeros m)
      by (unfold x, WORD_BITS; rewrite Nat.add_comm, Nat.Div0.mod_add, Nat.mod_small by lia; lia).
    assert (HxC : x < CAPACITY).
    { destruct (decide (x < CAPACITY)); [done|]. change (bit (iter_bits it) x = true) in Hx.
      rewrite (bits_padding _ _ Hok) in Hx by lia. done. }
    rewrite <- Hxw in Hm. rewrite <- Hxk in Hclear. split; [done|]. unfold iter_bits at 1 2. cbn [it_masks].
    replace (<[w := Z.land m (m - 1)%Z]> (it_masks it)) with (<[x / 64 := Z.land m (m - 1)%Z]> (masks (iter_bits it)))
      by (by rewrite Hxw).
    split; [apply (bits_ok_update CAPACITY (iter_bits it) x m _ false Hok HxC Hm Hw' Hclear)
           |apply (bit_update (iter_bits it) x m _ false Hm Hclear)].
Qed.

Lemma filter_seq_first n lo (P : nat -> bool) x :
  first_from lo (fun j => P j = true) (Some x) -> x < lo + n ->
  List.filter P (seq lo n) = x :: List.filter P (seq (x + 1) (lo + n - (x + 1))).
Proof.
  revert lo. induction n as [|n IH]; intros lo (Hlo & Hx & Hlow) Hn; [lia|]. cbn [seq List.filter].
  destruct (decide (lo = x)) as [->|Hne].
  - rewrite Hx. do 2 f_equal. f_equal; lia.
  - rewrite (not_true_is_false (P lo)) by (apply Hlow; lia). rewrite IH; [|split; [lia|split; [done|]]|lia].
    + do 3 f_equal. lia.
    + intros j Hj. apply Hlow. lia.
Qed.

Lemma filter_seq_none n lo (P : nat -> bool) :
  first_from lo (fun j => P j = true) None -> List.filter P (seq lo n) = [].
Proof.
  revert lo. induction n as [|n IH]; intros lo H; [done|]. cbn [seq List.filter].
  rewrite (not_true_is_false (P lo)) by (apply H; lia). apply IH. intros j Hj. apply H. lia.
Qed.

Lemma filter_seq_ext n lo (P Q : nat -> bool) :
  (forall j, lo <= j -> P j = Q j) -> List.filter P (seq lo n) = List.filter Q (seq lo n).
Proof. intros H. apply List.filter_ext_in. intros j Hj. apply in_seq in Hj. apply H. lia. Qed.

Lemma hive_iter_collect_from fuel it lo :
  bits_ok CAPACITY (iter_bits it) -> it_word it <= NUM_WORDS CAPACITY -> it_word it * 64 <= lo <= CAPACITY ->
  (forall j, it_word it * 64 <= j < lo -> bit (iter_bits it) j = false) -> CAPACITY - lo <= fuel ->
  hive_iter_collect CAPACITY fuel it = Ok (List.filter (bit (iter_bits it)) (seq lo (CAPACITY - lo))).
Proof.
  revert it lo. induction fuel as [|fuel IH]; intros it lo Hok Hw Hlo Hbelow Hf; cbn [hive_iter_collect];
    (destruct (hive_iter_next_ok (NUM_WORDS CAPACITY - it_word it) it Hok) as (r & it' & -> & Hr & Hs); [lia|]);
    cbn [mbind outcome_bind]; destruct r as [x|].
  2,4: rewrite filter_seq_none; [done|]; intros j Hj; apply Hr; lia.
  - destruct Hr as (Hx & Hb & _). destruct (decide (x < lo)); [by rewrite Hbelow in Hb by lia|].
    by rewrite (bits_padding _ _ Hok) in Hb by lia.
  - destruct Hr as (Hx & Hb & Hlow), Hs as (Hw' & Hok' & Hb').
    assert (HxC : x < CAPACITY) by (destruct (decide (x < CAPACITY)); [done|by rewrite (bits_padding _ _ Hok) in Hb by lia]).
    assert (Hlx : lo <= x) by (destruct (decide (x < lo)); [by rewrite Hbelow in Hb by lia|lia]).
    pose proof (NUM_WORDS_bounds CAPACITY). pose proof (Nat.div_mod_eq x 64). pose proof (mod_lt_64 x).
    rewrite (filter_seq_first _ _ _ x); [|split; [done|split; [done|]]; intros j Hj; apply Hlow; cbn in Hj; lia|lia].
    rewrite (IH it' (x + 1)); [|done|lia|lia| |lia].
    + cbn [mbind outcome_bind]. do 2 f_equal. replace (lo + (CAPACITY - lo) - (x + 1)) with (CAPACITY - (x + 1)) by lia.
      apply filter_seq_ext. intros j Hj. rewrite Hb'. destruct (Nat.eqb_spec j x); [lia|done].
    + intros j Hj. rewrite Hb'. destruct (Nat.eqb_spec j x); [done|]. apply not_true_is_false, Hlow. lia.
Qed.

(** The iterator yields exactly the set bits, in increasing order. *)
Lemma hive_iter_collect_ok s :
  bits_ok CAPACITY s ->
  hive_iter_collect CAPACITY CAPACITY (bits_iterator s) = Ok (List.filter (bit s) (seq 0 CAPACITY)).
Proof.
  intros Hok. replace CAPACITY with (CAPACITY - 0) at 3 by lia. replace s with (iter_bits (bits_iterator s)) at 2 by (by destruct s).
  apply (hive_iter_collect_from CAPACITY (bits_iterator s) 0); cbn; [by destruct s|lia|lia|lia|lia].
Qed.
End iterator.

(** ** The pool is a map *)

(** The operations on a pool, and what each answers. *)
Inductive PoolOp (A : Type) :=
  | OClaim | OGetInit (v : A) | OAlloc (v : A) | OWrite (p : Z) (v : A) | OPut (p : Z) | OIntoInner (p : Z)
  | OPutRaw (p : Z) | OSlotDrop (p : Z) | OBoxAt (i : nat).
Arguments OClaim {A}.
Arguments OGetInit {A} v.
Arguments OAlloc {A} v.
Arguments OWrite {A} p v.
Arguments OPut {A} p.
Arguments OIntoInner {A} p.
Arguments OPutRaw {A} p.
Arguments OSlotDrop {A} p.
Arguments OBoxAt {A} i.

Inductive PoolAnswer (A : Type) :=
  | RAddress (p : option Z) | RValue (v : option A) | RBool (b : bool) | RUnit.
Arguments RAddress {A} p.
Arguments RValue {A} v.
Arguments RBool {A} b.
Arguments RUnit {A}.

Section pool_facts.
Context {A : Type} (CAPACITY : nat) (t_size : Z).
Context (Hcap : CAPACITY <= 2048) (Hsize : (1 <= t_size)%Z).

Implicit Types h : HiveArray A.
Implicit Types M : gmap Z (option A).

(** The address of slot [i]. *)
Definition addr (b : Z) (i : nat) : Z := (b + Z.of_nat i * t_size)%Z.

(** [M] gives the addresses in use, each with its value if it was written. *)
Record holds h M : Prop := {
  holds_bits : bits_ok CAPACITY (used h);
  holds_length : length (buffer h) = CAPACITY;
  holds_map : forall p o, M !! p = Some o <->
    exists i, p = addr (base h) i /\ bit (used h) i = true /\ buffer h !! i = Some o;
  holds_free : forall i o, bit (used h) i = false -> buffer h !! i = Some o -> o = None;
}.

Lemma addr_inj b i j : addr b i = addr b j -> i = j.
Proof. unfold addr. intros H. nia. Qed.

Lemma index_of_addr h i : i < CAPACITY -> index_of CAPACITY t_size h (addr (base h) i) = Some i.
Proof.
  intros Hi. unfold index_of, hive_in, addr. rewrite (proj2 (Z.leb_le _ _)), (proj2 (Z.ltb_lt _ _)) by nia.
  cbn [andb]. replace (base h + Z.of_nat i * t_size - base h)%Z with (Z.of_nat i * t_size)%Z by lia.
  rewrite Z.div_mul by lia. by rewrite Nat2Z.id.
Qed.

Lemma used_below h M i : holds h M -> bit (used h) i = true -> i < CAPACITY.
Proof.
  intros Hh Hi. destruct (decide (i < CAPACITY)); [done|].
  by rewrite (bits_padding _ _ (holds_bits _ _ Hh)) in Hi by lia.
Qed.

Lemma holds_lookup h M i o :
  holds h M -> M !! addr (base h) i = Some o -> i < CAPACITY /\ bit (used h) i = true /\ buffer h !! i = Some o.
Proof.
  intros Hh HM. apply (holds_map _ _ Hh) in HM as (j & E & Hj & Hb). apply addr_inj in E as <-.
  split; [by apply (used_below _ _ _ Hh)|done].
Qed.

(** An address in use is that of a slot. *)
Lemma holds_slot h M p o :
  holds h M -> M !! p = Some o ->
  exists i, p = addr (base h) i /\ i < CAPACITY /\ bit (used h) i = true /\ buffer h !! i = Some o.
Proof.
  intros Hh HM. pose proof HM as HM'. apply (holds_map _ _ Hh) in HM as (i & -> & Hi & Hb).
  exists i. split; [done|]. by apply (holds_lookup h M).
Qed.

(** The state after slot [i] got occupancy [b] and contents [o]. *)
Lemma pool_update h M i (b : bool) u' o :
  holds h M -> i < CAPACITY -> bits_ok CAPACITY u' ->
  (forall j, bit u' j = if j =? i then b else bit (used h) j) -> (b = false -> o = None) ->
  holds (mkHive (base h) (<[i := o]> (buffer h)) u')
        (if b then <[addr (base h) i := o]> M else delete (addr (base h) i) M).
Proof.
  intros Hh Hi Hu Hbit Ho. pose proof (holds_length _ _ Hh) as Hl.
  constructor; cbn [used buffer base]; [done|by rewrite length_insert| |].
  - intros p o'. split.
    + intros HM. destruct (decide (p = addr (base h) i)) as [->|Hne].
      * exists i. destruct b; [rewrite lookup_insert_eq in HM|by rewrite lookup_delete_eq in HM].
        injection HM as <-. rewrite Hbit, Nat.eqb_refl, list_lookup_insert_eq by lia. done.
      * assert (HM' : M !! p = Some o') by (destruct b; [by rewrite lookup_insert_ne in HM|by rewrite lookup_delete_ne in HM]).
        apply (holds_map _ _ Hh) in HM' as (j & -> & Hj & Hb). exists j. split; [done|].
        assert (j <> i) by congruence. rewrite Hbit, (proj2 (Nat.eqb_neq _ _)), list_lookup_insert_ne by done. done.
    + intros (j & -> & Hj & Hb). rewrite Hbit in Hj. destruct (Nat.eqb_spec j i) as [E|Hne]; [subst j|].
      * subst b. rewrite list_lookup_insert_eq in Hb by lia. rewrite lookup_insert_eq. done.
      * rewrite list_lookup_insert_ne in Hb by done. assert (addr (base h) i <> addr (base h) j) by (intros E; by apply addr_inj in E).
        assert (M !! addr (base h) j = Some o') by (apply (holds_map _ _ Hh); eauto).
        destruct b; [by rewrite lookup_insert_ne|by rewrite lookup_delete_ne].
  - intros j o' Hj Hb. rewrite Hbit in Hj. destruct (Nat.eqb_spec j i) as [E|Hne]; [subst j|].
    + rewrite list_lookup_insert_eq in Hb by lia. injection Hb as <-. by apply Ho.
    + rewrite list_lookup_insert_ne in Hb by done. by apply (holds_free _ _ Hh j).
Qed.

Lemma buffer_slot h M i : holds h M -> i < CAPACITY -> exists o, buffer h !! i = Some o.
Proof. intros Hh Hi. apply lookup_lt_is_Some_2. by rewrite (holds_length _ _ Hh). Qed.

(** The search of [claim] and [alloc]: no slot is free, or one is and it is now taken. *)
Lemma claim_search h M :
  holds h M ->
  (bits_find_first_unset CAPACITY (used h) = Ok None /\
     forall i, i < CAPACITY -> is_Some (M !! addr (base h) i)) \/
  (exists i u, bits_find_first_unset CAPACITY (used h) = Ok (Some i) /\ i < CAPACITY /\
     bits_set (used h) i = Ok u /\ M !! addr (base h) i = None /\
     holds (mkHive (base h) (buffer h) u) (<[addr (base h) i := None]> M)).
Proof.
  intros Hh. pose proof (holds_bits _ _ Hh) as Hb.
  destruct (bits_find_first_unset_ok CAPACITY (used h) Hb) as ([i|] & -> & Hr).
  - right. destruct Hr as (_ & (Hi & Hfree) & _). destruct (bits_set_ok CAPACITY (used h) i Hb Hi) as (u & Hu & Hok & Hbit).
    destruct (buffer_slot h M i Hh Hi) as [o Ho]. pose proof (holds_free _ _ Hh i o Hfree Ho). subst o.
    exists i, u. split; [done|]. split; [done|]. split; [done|]. split.
    + destruct (M !! addr (base h) i) eqn:E; [|done]. apply (holds_lookup h M) in E as (_ & E & _); [congruence|done].
    + rewrite <- (list_insert_id (buffer h) i None Ho) at 1. by apply (pool_update h M i true).
  - left. split; [done|]. intros i Hi. destruct (bit (used h) i) eqn:Hu; [|by destruct (Hr i); [lia|]].
    destruct (buffer_slot h M i Hh Hi) as [o Ho]. exists o. apply (holds_map _ _ Hh). eauto.
Qed.

Lemma store_ok h M p o v :
  holds h M -> M !! p = Some o ->
  exists h', store CAPACITY t_size h p v = Ok h' /\ base h' = base h /\ holds h' (<[p := Some v]> M).
Proof.
  intros Hh HM. destruct (holds_slot h M p o Hh HM) as (i & -> & Hi & Hu & Hb). unfold store.
  rewrite index_of_addr, (holds_length _ _ Hh), (proj2 (Nat.ltb_lt _ _)) by done. eexists. split; [done|]. split; [done|].
  apply (pool_update h M i true); [done|done|by apply (holds_bits _ _ Hh)| |done].
  intros j. by destruct (Nat.eqb_spec j i) as [E|]; [subst j|].
Qed.

Lemma release_ok h M i o :
  holds h M -> M !! addr (base h) i = Some o ->
  exists h', release h i = Ok h' /\ base h' = base h /\ holds h' (delete (addr (base h) i) M).
Proof.
  intros Hh HM. destruct (holds_lookup h M i o Hh HM) as (Hi & Hu & Hb).
  destruct (bits_unset_ok CAPACITY (used h) i (holds_bits _ _ Hh) Hi) as (u & Hu' & Hok & Hbit).
  unfold release. rewrite Hu'. cbn [mbind outcome_bind]. eexists. split; [done|]. split; [done|].
  by apply (pool_update h M i false).
Qed.

Lemma load_ok h M p v : holds h M -> M !! p = Some (Some v) -> load CAPACITY t_size h p = Ok v.
Proof.
  intros Hh HM. destruct (holds_slot h M p (Some v) Hh HM) as (i & -> & Hi & Hu & Hb). unfold load.
  by rewrite index_of_addr, Hb by done.
Qed.

Lemma hive_init_holds b : holds (hive_init CAPACITY b) ∅.
Proof.
  constructor; cbn [hive_init used buffer base]; [by apply bits_init_ok|by rewrite length_replicate| |].
  - intros p o. split; [done|]. intros (i & _ & Hi & _). unfold bit, bits_init_empty in Hi. cbn [masks] in Hi.
    destruct (replicate _ _ !! _) eqn:E; [|done]. apply lookup_replicate in E as [-> _]. by rewrite Z.bits_0 in Hi.
  - intros i o _ Hi. by apply lookup_replicate in Hi as [-> _].
Qed.
End pool_facts.

Section pool_refinement.
Context {A : Type} (CAPACITY : nat) (t_size : Z).
Context (Hcap : CAPACITY <= 2048) (Hsize : (1 <= t_size)%Z).

Implicit Types h : HiveArray A.
Implicit Types M : gmap Z (option A).

Definition exec h (o : PoolOp A) : outcome (PoolAnswer A * HiveArray A) :=
  match o with
  | OClaim => r ← claim CAPACITY t_size h; Ok (RAddress (slot_addr <$> fst r), snd r)
  | OGetInit v => r ← get_init CAPACITY t_size h v; Ok (RAddress (fst r), snd r)
  | OAlloc v => r ← alloc CAPACITY t_size h v; Ok (RAddress (fst r), snd r)
  | OWrite p v => h ← store CAPACITY t_size h p v; Ok (RUnit, h)
  | OPut p => r ← put CAPACITY t_size h p; Ok (RValue (fst r), snd r)
  | OIntoInner p => r ← into_inner CAPACITY t_size h p; Ok (RValue (Some (fst r)), snd r)
  | OPutRaw p => r ← put_raw CAPACITY t_size h p; Ok (RBool (fst r), snd r)
  | OSlotDrop p => h ← slot_drop CAPACITY t_size h (mkSlot p true); Ok (RUnit, h)
  | OBoxAt i => r ← box_at CAPACITY t_size h i; Ok (RAddress r, h)
  end.

(** What a claim of [o] puts into the new slot. *)
Definition claims (o : PoolOp A) : option (option A) :=
  match o with OClaim => Some None | OGetInit v | OAlloc v => Some (Some v) | _ => None end.

Definition in_array (b p : Z) : Prop := (b <= p < b + Z.of_nat CAPACITY * t_size)%Z.

(** What the owner of an address may ask for: to write a claimed slot, to give back what it holds;
    [put] and [put_raw] also take addresses outside the array. *)
Definition legal (b : Z) M (o : PoolOp A) : Prop :=
  match o with
  | OWrite p _ | OSlotDrop p => M !! p = Some None
  | OPut p => (exists v, M !! p = Some (Some v)) \/ ~ in_array b p
  | OIntoInner p => exists v, M !! p = Some (Some v)
  | OPutRaw p => is_Some (M !! p) \/ ~ in_array b p
  | _ => True
  end.

(** The specification: a claim answers an address that was not in use, or nothing when the array is full. *)
Inductive pool_step (b : Z) M : PoolOp A -> PoolAnswer A -> gmap Z (option A) -> Prop :=
  | step_full o c : claims o = Some c -> (forall i, i < CAPACITY -> is_Some (M !! addr t_size b i)) ->
      pool_step b M o (RAddress None) M
  | step_claim o c i : claims o = Some c -> i < CAPACITY -> M !! addr t_size b i = None ->
      pool_step b M o (RAddress (Some (addr t_size b i))) (<[addr t_size b i := c]> M)
  | step_write p v : M !! p = Some None -> pool_step b M (OWrite p v) RUnit (<[p := Some v]> M)
  | step_put p v : M !! p = Some (Some v) -> pool_step b M (OPut p) (RValue (Some v)) (delete p M)
  | step_put_foreign p : ~ in_array b p -> pool_step b M (OPut p) (RValue None) M
  | step_into_inner p v : M !! p = Some (Some v) -> pool_step b M (OIntoInner p) (RValue (Some v)) (delete p M)
  | step_put_raw p : is_Some (M !! p) -> pool_step b M (OPutRaw p) (RBool true) (delete p M)
  | step_put_raw_foreign p : ~ in_array b p -> pool_step b M (OPutRaw p) (RBool false) M
  | step_slot_drop p : M !! p = Some None -> pool_step b M (OSlotDrop p) RUnit (delete p M)
  | step_box_at i r : r = (if i <? CAPACITY then (fun _ => addr t_size b i) <$> (M !! addr t_size b i) else None) ->
      pool_step b M (OBoxAt i) (RAddress r) M.

Lemma index_of_foreign h p : ~ in_array (base h) p -> index_of CAPACITY t_size h p = None.
Proof.
  intros Hp. unfold index_of, hive_in. destruct (_ && _) eqn:E; [|done]. destruct Hp.
  apply andb_true_iff in E as [E1 E2]. apply Z.leb_le in E1. apply Z.ltb_lt in E2. done.
Qed.

(** The state of [h] steps as the specification does. *)
Definition refines_step h M (o : PoolOp A) : Prop :=
  exists r h' M', exec h o = Ok (r, h') /\ pool_step (base h) M o r M' /\ base h' = base h /\ holds CAPACITY t_size h' M'.

Lemma claims_refine h M o c : holds CAPACITY t_size h M -> claims o = Some c -> refines_step h M o.
Proof.
  intros Hh Ho. unfold refines_step.
  destruct (claim_search CAPACITY t_size Hcap Hsize h M Hh) as [[Hnone Hfull]|(i & u & Hsome & Hi & Hu & HM & Hh')].
  - exists (RAddress None), h, M. split; [|split; [by apply (step_full _ _ o c)|done]].
    destruct o; try discriminate Ho; unfold exec, get_init, claim, alloc; by rewrite Hnone.
  - set (h1 := mkHive (base h) (buffer h) u) in *. set (p := addr t_size (base h) i) in *.
    assert (Hstep : pool_step (base h) M o (RAddress (Some p)) (<[p := c]> M)) by (by apply (step_claim _ _ o c i)).
    destruct o as [|v|v| | | | | |]; try discriminate Ho; injection Ho as <-.
    + exists (RAddress (Some p)), h1, (<[p := None]> M). split; [|done]. unfold exec, claim. rewrite Hsome.
      cbn [mbind outcome_bind]. by rewrite Hu.
    + destruct (store_ok CAPACITY t_size Hcap Hsize h1 _ p None v Hh') as (h2 & Hst & Hb & Hh2); [apply lookup_insert_eq|].
      rewrite insert_insert_eq in Hh2. exists (RAddress (Some p)), h2, (<[p := Some v]> M). split; [|done].
      unfold exec, get_init, claim. rewrite Hsome. cbn [mbind outcome_bind]. rewrite Hu. cbn [mbind outcome_bind slot_addr].
      change (base h + Z.of_nat i * t_size)%Z with p. fold h1. by rewrite Hst.
    + destruct (store_ok CAPACITY t_size Hcap Hsize h1 _ p None v Hh') as (h2 & Hst & Hb & Hh2); [apply lookup_insert_eq|].
      rewrite insert_insert_eq in Hh2. exists (RAddress (Some p)), h2, (<[p := Some v]> M). split; [|done].
      unfold exec, alloc. rewrite Hsome. cbn [mbind outcome_bind]. rewrite Hu. cbn [mbind outcome_bind].
      unfold ptr_at. rewrite (proj2 (Nat.ltb_lt _ _)) by done. cbn [mbind outcome_bind].
      change (base h + Z.of_nat i * t_size)%Z with p. fold h1. by rewrite Hst.
Qed.

(** Giving a slot back, once it is found. *)
Lemma release_at h M p o :
  holds CAPACITY t_size h M -> M !! p = Some o ->
  exists i h', index_of CAPACITY t_size h p = Some i /\ release h i = Ok h' /\ base h' = base h /\
    holds CAPACITY t_size h' (delete p M).
Proof.
  intros Hh HM. destruct (holds_slot CAPACITY t_size Hcap Hsize h M p o Hh HM) as (i & -> & Hi & _ & _).
  destruct (release_ok CAPACITY t_size Hcap Hsize h M i o Hh HM) as (h' & Hr & Hb & Hh').
  exists i, h'. split; [by apply index_of_addr|done].
Qed.

Lemma box_at_ok h M i :
  holds CAPACITY t_size h M ->
  box_at CAPACITY t_size h i =
    Ok (if i <? CAPACITY then (fun _ => addr t_size (base h) i) <$> (M !! addr t_size (base h) i) else None).
Proof.
  intros Hh. unfold box_at. destruct (Nat.leb_spec CAPACITY i); destruct (Nat.ltb_spec i CAPACITY) as [Hi|]; try lia; [done|].
  rewrite (bits_is_set_ok CAPACITY) by (done || apply (holds_bits _ _ _ _ Hh)). cbn [mbind outcome_bind].
  destruct (buffer_slot CAPACITY t_size h M i Hh Hi) as [o Ho].
  destruct (M !! addr t_size (base h) i) eqn:E.
  - apply (holds_lookup CAPACITY t_size Hcap Hsize h M) in E as (_ & -> & _); [|done]. cbn [negb]. unfold ptr_at.
    by rewrite (proj2 (Nat.ltb_lt _ _)).
  - destruct (bit (used h) i) eqn:Hu; [|done]. exfalso.
    assert (M !! addr t_size (base h) i = Some o) by (apply (holds_map _ _ _ _ Hh); eauto). congruence.
Qed.

Lemma pool_refines_step h M o : holds CAPACITY t_size h M -> legal (base h) M o -> refines_step h M o.
Proof.
  intros Hh Hl. destruct o as [|v|v|p v|p|p|p|p|i]; try (by eapply claims_refine); unfold refines_step; cbn [legal exec] in *.
  - destruct (store_ok CAPACITY t_size Hcap Hsize h M p None v Hh Hl) as (h' & -> & Hb & Hh').
    exists RUnit, h', (<[p := Some v]> M). by eauto using step_write.
  - destruct Hl as [[v Hv]|Hp].
    + destruct (release_at h M p _ Hh Hv) as (i & h' & Hi & Hr & Hb & Hh'). exists (RValue (Some v)), h', (delete p M).
      unfold put. rewrite Hi, (load_ok CAPACITY t_size Hcap Hsize h M p v Hh Hv). cbn [mbind outcome_bind]. rewrite Hr.
      eauto using step_put.
    + exists (RValue None), h, M. unfold put. rewrite index_of_foreign by done. eauto using step_put_foreign.
  - destruct Hl as [v Hv]. destruct (release_at h M p _ Hh Hv) as (i & h' & Hi & Hr & Hb & Hh').
    exists (RValue (Some v)), h', (delete p M). unfold into_inner, put_raw.
    rewrite (load_ok CAPACITY t_size Hcap Hsize h M p v Hh Hv). cbn [mbind outcome_bind]. rewrite Hi, Hr. eauto using step_into_inner.
  - destruct Hl as [[o Ho]|Hp].
    + destruct (release_at h M p _ Hh Ho) as (i & h' & Hi & Hr & Hb & Hh'). exists (RBool true), h', (delete p M).
      unfold put_raw. rewrite Hi, Hr. eauto using step_put_raw.
    + exists (RBool false), h, M. unfold put_raw. rewrite index_of_foreign by done. eauto using step_put_raw_foreign.
  - destruct (release_at h M p _ Hh Hl) as (i & h' & Hi & Hr & Hb & Hh'). exists RUnit, h', (delete p M).
    unfold slot_drop. cbn [slot_addr]. rewrite Hi, Hr. eauto using step_slot_drop.
  - eexists _, h, M. rewrite (box_at_ok h M) by done. eauto using step_box_at.
Qed.
End pool_refinement.

(** ** The pool that spills is a heap *)

Section fallback_refinement.
Context {A : Type} (CAPACITY : nat) (t_size : Z).
Context (Hcap : CAPACITY <= 2048) (Hsize : (1 <= t_size)%Z).

Implicit Types f : Fallback A.
Implicit Types M : gmap Z (option A).

(** [M] is the array's part; the boxes lie elsewhere. *)
Record fb_holds f M : Prop := {
  fb_hive : holds CAPACITY t_size (hive f) M;
  fb_boxes : forall p, is_Some (boxes f !! p) -> ~ in_array CAPACITY t_size (base (hive f)) p;
}.

(** Everything allocated. *)
Definition heap_of f M : gmap Z (option A) := M ∪ boxes f.

Lemma in_array_slot h M p o : holds CAPACITY t_size h M -> M !! p = Some o -> in_array CAPACITY t_size (base h) p.
Proof.
  intros Hh HM. destruct (holds_slot CAPACITY t_size Hcap Hsize h M p o Hh HM) as (i & -> & Hi & _).
  unfold in_array, addr. nia.
Qed.

Lemma in_array_unused h M p : holds CAPACITY t_size h M -> ~ in_array CAPACITY t_size (base h) p -> M !! p = None.
Proof. intros Hh Hp. destruct (M !! p) eqn:E; [|done]. destruct Hp. by eapply in_array_slot. Qed.

Lemma in_array_addr b i : i < CAPACITY -> in_array CAPACITY t_size b (addr t_size b i).
Proof. unfold in_array, addr. nia. Qed.

(** [fb_claim]: a slot of the array while there is one, then a box. *)
Lemma fb_claim_ok f M fresh :
  fb_holds f M -> ~ in_array CAPACITY t_size (base (hive f)) fresh -> boxes f !! fresh = None ->
  exists slot f' M', fb_claim CAPACITY t_size f fresh = Ok (slot, f') /\ fb_holds f' M' /\
    heap_of f M !! slot_addr slot = None /\ heap_of f' M' = <[slot_addr slot := None]> (heap_of f M) /\
    base (hive f') = base (hive f) /\
    (if slot_owned slot then M' !! slot_addr slot = Some None
     else slot_addr slot = fresh /\ M' = M /\ boxes f' !! fresh = Some None /\
          forall i, i < CAPACITY -> is_Some (M !! addr t_size (base (hive f)) i)).
Proof.
  intros [Hh Hbox] Hfresh Hnew. unfold fb_claim.
  destruct (claim_search CAPACITY t_size Hcap Hsize (hive f) M Hh) as [[Hnone Hfull]|(i & u & Hsome & Hi & Hu & HM & Hh')].
  - assert (Hr : (if 0 <? CAPACITY then claim CAPACITY t_size (hive f) else Ok (None, hive f)) = Ok (None, hive f)).
    { destruct (0 <? CAPACITY); [|done]. unfold claim. by rewrite Hnone. }
    rewrite Hr. cbn [mbind outcome_bind]. pose proof (in_array_unused _ _ _ Hh Hfresh) as HMf.
    eexists _, _, M. split; [done|]. cbn [slot_addr slot_owned hive boxes]. split; [|split_and!].
    + constructor; [done|]. cbn [hive boxes]. intros p [o Ho].
      destruct (decide (p = fresh)) as [->|]; [done|]. rewrite lookup_insert_ne in Ho by done. by apply Hbox.
    + by apply lookup_union_None.
    + unfold heap_of. cbn [boxes]. by rewrite insert_union_r.
    + done.
    + done.
    + done.
    + apply lookup_insert_eq.
    + done.
  - rewrite (proj2 (Nat.ltb_lt 0 CAPACITY)) by lia. unfold claim. rewrite Hsome. cbn [mbind outcome_bind].
    rewrite Hu. cbn [mbind outcome_bind]. eexists _, _, _. split; [done|].
    change (base (hive f) + Z.of_nat i * t_size)%Z with (addr t_size (base (hive f)) i). cbn [slot_addr slot_owned].
    assert (Hbi : boxes f !! addr t_size (base (hive f)) i = None).
    { apply eq_None_not_Some. intros Hs. destruct (Hbox _ Hs). by apply in_array_addr. }
    split; [by constructor|]. split_and!; [by apply lookup_union_None| |done|apply lookup_insert_eq].
    unfold heap_of. cbn [boxes]. by rewrite insert_union_l.
Qed.

Lemma fb_get_init_ok f M fresh v :
  fb_holds f M -> ~ in_array CAPACITY t_size (base (hive f)) fresh -> boxes f !! fresh = None ->
  exists p f' M', fb_get_init CAPACITY t_size f fresh v = Ok (p, f') /\ fb_holds f' M' /\
    heap_of f M !! p = None /\ heap_of f' M' = <[p := Some v]> (heap_of f M) /\ base (hive f') = base (hive f) /\
    (p = fresh -> forall i, i < CAPACITY -> is_Some (M !! addr t_size (base (hive f)) i)).
Proof.
  intros Hf Hfresh Hnew.
  destruct (fb_claim_ok f M fresh Hf Hfresh Hnew) as (slot & f1 & M1 & Hc & Hf1 & Hp & Hheap & Hb & Hs).
  unfold fb_get_init. rewrite Hc. cbn [mbind outcome_bind]. pose proof Hf1 as [Hh1 Hbox1].
  destruct (slot_owned slot).
  - destruct (store_ok CAPACITY t_size Hcap Hsize (hive f1) M1 (slot_addr slot) None v Hh1 Hs) as (h & Hst & Hbh & Hh).
    rewrite Hst. cbn [mbind outcome_bind]. eexists _, _, _. split; [done|]. split; [|split_and!].
    + constructor; [done|]. cbn [hive boxes]. by rewrite Hbh.
    + done.
    + unfold heap_of in *. cbn [boxes]. by rewrite <- insert_union_l, Hheap, insert_insert_eq.
    + cbn [hive]. by rewrite Hbh.
    + intros E. destruct Hfresh. rewrite <- E, <- Hb. by eapply in_array_slot.
  - destruct Hs as (E & -> & Hbx & Hfull). rewrite E in *. eexists _, _, M. split; [done|]. split; [|split_and!].
    + constructor; [done|]. cbn [hive boxes]. intros p [o Ho]. destruct (decide (p = fresh)) as [->|]; [by rewrite Hb|].
      rewrite lookup_insert_ne in Ho by done. by apply Hbox1.
    + done.
    + unfold heap_of in *. cbn [boxes].
      rewrite <- insert_union_r by (apply lookup_union_None in Hp; tauto). by rewrite Hheap, insert_insert_eq.
    + done.
    + done.
Qed.

Lemma fb_put_ok f M p v :
  fb_holds f M -> heap_of f M !! p = Some (Some v) ->
  exists f' M', fb_put CAPACITY t_size f p = Ok (Some v, f') /\ fb_holds f' M' /\
    heap_of f' M' = delete p (heap_of f M) /\ base (hive f') = base (hive f).
Proof.
  intros [Hh Hbox] Hp. unfold fb_put, heap_of in *. apply lookup_union_Some_raw in Hp as [HM|[HM Hp]].
  - destruct (release_at CAPACITY t_size Hcap Hsize (hive f) M p _ Hh HM) as (i & h' & Hi & Hr & Hb & Hh').
    assert (Hin : in_array CAPACITY t_size (base (hive f)) p) by (by eapply in_array_slot).
    rewrite (proj2 (Nat.ltb_lt 0 CAPACITY)) by (unfold in_array in Hin; lia). unfold put.
    rewrite Hi, (load_ok CAPACITY t_size Hcap Hsize (hive f) M p v Hh HM). cbn [mbind outcome_bind].
    rewrite Hr. cbn [mbind outcome_bind]. eexists _, (delete p M). split; [done|]. split; [|split; [|done]].
    + constructor; [done|]. cbn [hive boxes]. by rewrite Hb.
    + cbn [boxes]. rewrite delete_union. f_equal. symmetry. apply delete_id.
      apply eq_None_not_Some. intros Hs. by destruct (Hbox _ Hs).
  - assert (Hr : (if 0 <? CAPACITY then put CAPACITY t_size (hive f) p else Ok (None, hive f)) = Ok (None, hive f)).
    { destruct (0 <? CAPACITY); [|done]. unfold put. by rewrite index_of_foreign by (apply Hbox; eauto). }
    rewrite Hr. cbn [mbind outcome_bind]. rewrite Hp. eexists _, M. split; [done|]. split; [|split; [|done]].
    + constructor; [done|]. cbn [hive boxes]. intros q [o Ho]. apply lookup_delete_Some in Ho as [_ Ho]. apply Hbox. eauto.
    + cbn [boxes]. rewrite delete_union. f_equal. by rewrite delete_id.
Qed.
End fallback_refinement.

(** ** What the pools promise *)

Section properties.
Context {A : Type} (CAPACITY : nat) (t_size : Z).

(** (C32) For a capacity of at most 2048 the array is a map from addresses to values: it starts empty; a
    claim answers the address of a slot that was not in use, or nothing when every slot is; the value
    written is the one given back by [put] and [into_inner], which free the address; [put] and
    [put_raw] refuse addresses outside the array; [box_at] tells whether a slot is in use and the
    iterator lists exactly the slots in use.  No legal operation panics. *)
Theorem hive_refines_pool :
  CAPACITY <= 2048 -> (1 <= t_size)%Z ->
  (forall b, holds CAPACITY t_size (@hive_init A CAPACITY b) ∅) /\
  (forall (h : HiveArray A) M o, holds CAPACITY t_size h M -> legal CAPACITY t_size (base h) M o ->
     refines_step CAPACITY t_size h M o) /\
  (forall (h : HiveArray A) M, holds CAPACITY t_size h M ->
     hive_iter_collect CAPACITY CAPACITY (bits_iterator (used h)) =
       Ok (List.filter (fun i => bool_decide (is_Some (M !! addr t_size (base h) i))) (seq 0 CAPACITY))).
Proof.
  intros Hcap Hsize. split; [by apply hive_init_holds|]. split; [by apply pool_refines_step|].
  intros h M Hh. rewrite hive_iter_collect_ok by apply (holds_bits _ _ _ _ Hh). f_equal.
  apply List.filter_ext_in. intros i Hi. apply in_seq in Hi. destruct (buffer_slot CAPACITY t_size h M i Hh) as [o Ho]; [lia|].
  apply eq_true_iff_eq. rewrite bool_decide_eq_true. split.
  - intros Hu. exists o. apply (holds_map _ _ _ _ Hh). eauto.
  - intros [o' Ho']. by apply (holds_lookup CAPACITY t_size Hcap Hsize h M) in Ho' as (_ & ? & _).
Qed.

(** (C33) The pool that spills never fails: given an address from the allocator that is not in use,
    [get_init] stores the value at an address that was free, the allocator's only when the array is
    full, and [put] of any address in use gives the value back and frees the address, wherever it is. *)
Theorem fallback_refines_heap :
  CAPACITY <= 2048 -> (1 <= t_size)%Z ->
  (forall (f : Fallback A) M fresh v, fb_holds CAPACITY t_size f M ->
     ~ in_array CAPACITY t_size (base (hive f)) fresh -> boxes f !! fresh = None ->
     exists p f' M', fb_get_init CAPACITY t_size f fresh v = Ok (p, f') /\ fb_holds CAPACITY t_size f' M' /\
       heap_of f M !! p = None /\ heap_of f' M' = <[p := Some v]> (heap_of f M) /\ base (hive f') = base (hive f) /\
       (p = fresh -> forall i, i < CAPACITY -> is_Some (M !! addr t_size (base (hive f)) i))) /\
  (forall (f : Fallback A) M p v, fb_holds CAPACITY t_size f M -> heap_of f M !! p = Some (Some v) ->
     exists f' M', fb_put CAPACITY t_size f p = Ok (Some v, f') /\ fb_holds CAPACITY t_size f' M' /\
       heap_of f' M' = delete p (heap_of f M) /\ base (hive f') = base (hive f)).
Proof. intros Hcap Hsize. split; [by apply fb_get_init_ok|by apply fb_put_ok]. Qed.
End properties.

(** A pool of 70 slots of 8 bytes at address 4096. *)
Lemma hive_refines_pool_witness :
  70 <= 2048 /\ (1 <= 8)%Z /\ exists r h' M',
    exec 70 8 (@hive_init nat 70 4096) (OGetInit 5) = Ok (r, h') /\ pool_step 70 8 4096 ∅ (OGetInit 5) r M'.
Proof.
  split; [lia|]. split; [lia|].
  destruct (@hive_refines_pool nat 70 8 ltac:(lia) ltac:(lia)) as (H0 & H & _).
  destruct (H _ _ (OGetInit 5) (H0 4096%Z) I) as (r & h' & M' & Hr & Hs & _). exists r, h', M'. split; [exact Hr|exact Hs].
Defined.

Lemma fallback_refines_heap_witness :
  0 <= 2048 /\ (1 <= 8)%Z /\ exists p f', fb_get_init 0 8 (mkFallback (@hive_init nat 0 4096) ∅) 8192 7 = Ok (p, f').
Proof.
  split; [lia|]. split; [lia|].
  destruct (@fallback_refines_heap nat 0 8 ltac:(lia) ltac:(lia)) as (H & _).
  destruct (H (mkFallback (@hive_init nat 0 4096) ∅) ∅ 8192%Z 7) as (p & f' & M' & Hr & _).
  - constructor; [apply hive_init_holds; lia|]. intros p [o Ho]. discriminate Ho.
  - unfold in_array. cbn. lia.
  - reflexivity.
  - exists p, f'. exact Hr.
Defined.

(** Two claims, a write, a release: the released slot is the one claimed next. *)
Example hive_run :
  (r1 ← get_init 3 8 (@hive_init nat 3 4096) 5; r2 ← get_init 3 8 (snd r1) 6;
   r3 ← put 3 8 (snd r2) 4096; r4 ← alloc 3 8 (snd r3) 7; r5 ← into_inner 3 8 (snd r4) 4104;
   Ok (fst r1, fst r2, fst r3, fst r4, fst r5)) = Ok (Some 4096%Z, Some 4104%Z, Some 5, Some 4096%Z, 6).
Proof. reflexivity. Qed.
