(* ===== verification/Base64.v ===== *)
(** * Base64 ([base64/lib.rs])

    The encoder, the decoder and the decoder that skips ignored characters, over an alphabet and an
    optional padding character, and the entry points of the module.  The vectorised decoder and
    encoder of simdutf are foreign code and are parameters.  The specification is the definition of
    RFC 4648: the base-64 digits of the number that the bytes write in base 256, shifted to a whole
    number of digits. *)

From S2P Require Import Prelude Strings.

(** ** Alphabets and codecs *)

Definition VT : Z := 11.
Definition FF : Z := 12.

Inductive Error := InvalidCharacter | InvalidPadding | NoSpaceLeft.

#[export] Instance Error_eq_dec : EqDecision Error.
Proof. solve_decision. Defined.

(** [Result<(), Error>]: [None] is [Ok(())]. *)
Notation result := (option Error).

Definition STANDARD_ALPHABET_CHARS : bytes := str "ABCDEFGHIJKLMNOPQRSTUVWXYZabcdefghijklmnopqrstuvwxyz0123456789+/".
Definition URL_SAFE_ALPHABET_CHARS : bytes := str "ABCDEFGHIJKLMNOPQRSTUVWXYZabcdefghijklmnopqrstuvwxyz0123456789-_".

Record Base64Encoder := mkEncoder { alphabet_chars : bytes; enc_pad_char : option Z }.
Record Base64Decoder := mkDecoder { char_to_index : bytes; pad_char : option Z }.
Record Base64DecoderWithIgnore := mkIgnore { decoder : Base64Decoder; char_is_ignored : list bool }.
Record Codecs := mkCodecs {
  codec_alphabet : bytes; codec_pad : option Z;
  codec_with_ignore : bytes -> Base64DecoderWithIgnore;
  codec_encoder : Base64Encoder; codec_decoder : Base64Decoder;
}.

Definition INVALID_CHAR : Z := 255.

Definition encoder_init (alphabet : bytes) (pad : option Z) : Base64Encoder := mkEncoder alphabet pad.

(** The loop [i = 0 .. 63] of [Base64Decoder::init]. *)
Fixpoint index_chars (table : bytes) (i : Z) (alphabet : bytes) : bytes :=
  match alphabet with
  | [] => table
  | c :: alphabet => index_chars (<[Z.to_nat c := i]> table) (i + 1) alphabet
  end.

Definition decoder_init (alphabet : bytes) (pad : option Z) : Base64Decoder :=
  mkDecoder (index_chars (replicate 256 INVALID_CHAR) 0 alphabet) pad.

Definition ignore_init (alphabet : bytes) (pad : option Z) (ignore_chars : bytes) : Base64DecoderWithIgnore :=
  mkIgnore (decoder_init alphabet pad)
    (fold_left (fun t c => <[Z.to_nat c := true]> t) ignore_chars (replicate 256 false)).

Definition standard_base64_decoder_with_ignore (ignore : bytes) : Base64DecoderWithIgnore :=
  ignore_init STANDARD_ALPHABET_CHARS (Some (ch "=")) ignore.

Definition STANDARD : Codecs :=
  mkCodecs STANDARD_ALPHABET_CHARS (Some (ch "=")) standard_base64_decoder_with_ignore
    (encoder_init STANDARD_ALPHABET_CHARS (Some (ch "="))) (decoder_init STANDARD_ALPHABET_CHARS (Some (ch "="))).

Definition STANDARD_NO_PAD : Codecs :=
  mkCodecs STANDARD_ALPHABET_CHARS None standard_base64_decoder_with_ignore
    (encoder_init STANDARD_ALPHABET_CHARS None) (decoder_init STANDARD_ALPHABET_CHARS None).

(** Standard alphabet, the two characters of the URL-safe one as well; every foreign byte is skipped, 0xFF being among the
    ignored characters. *)
Definition MIXED_DECODER : Base64DecoderWithIgnore :=
  let d := standard_base64_decoder_with_ignore [255; 32; 9; 13; 10; VT; FF] in
  let t := fold_left (fun t i => <[Z.to_nat (nth i URL_SAFE_ALPHABET_CHARS 0) := Z.of_nat i]> t) [62; 63]%nat
                     (char_to_index (decoder d)) in
  mkIgnore (mkDecoder t (pad_char (decoder d))) (char_is_ignored d).

(** ** Encoding *)

Section encoder.
Context (e : Base64Encoder).

Definition calc_size (source_len : nat) : nat :=
  if enc_pad_char e then ((source_len + 2) / 3 * 4)%nat
  else (source_len / 3 * 4 + (source_len mod 3 * 4 + 2) / 3)%nat.

(** [while acc_len >= 6]: at most twice, as [acc_len] stays below 14. *)
Fixpoint emit_sextets (fuel : nat) (acc acc_len : Z) (dest : bytes) (out_idx : nat) : outcome (Z * bytes * nat) :=
  match fuel with
  | O => OutOfFuel
  | S fuel =>
      if 6 <=? acc_len then
        let acc_len := acc_len - 6 in
        c ← index_at (alphabet_chars e) (Z.to_nat (Z.land (Z.shiftr acc acc_len) 63));
        dest ← store_at dest out_idx c;
        emit_sextets fuel acc acc_len dest (out_idx + 1)
      else Ok (acc_len, dest, out_idx)
  end.

Fixpoint encode_loop (source : bytes) (acc acc_len : Z) (dest : bytes) (out_idx : nat) : outcome (Z * Z * bytes * nat) :=
  match source with
  | [] => Ok (acc, acc_len, dest, out_idx)
  | v :: source =>
      let acc := wrap 16 (Z.shiftl acc 8) + v in
      '(acc_len, dest, out_idx) ← emit_sextets 3 acc (acc_len + 8) dest out_idx;
      encode_loop source acc acc_len dest out_idx
  end.

Definition encode_without_size_check (dest source : bytes) : outcome (bytes * nat) :=
  '(acc, acc_len, dest, out_idx) ← encode_loop source 0 0 dest 0;
  if 0 <? acc_len then
    c ← index_at (alphabet_chars e) (Z.to_nat (Z.land (wrap 16 (Z.shiftl acc (6 - acc_len))) 63));
    dest ← store_at dest out_idx c;
    Ok (dest, (out_idx + 1)%nat)
  else Ok (dest, out_idx).

(** [encode]: the written part of [dest]. *)
Definition encode (dest source : bytes) : outcome bytes :=
  let out_len := calc_size (length source) in
  '(dest, out_idx) ← encode_without_size_check dest source;
  match enc_pad_char e with
  | Some pad =>
      if decide (out_idx <= out_len <= length dest)%nat
      then slice_range (copy_at dest out_idx (replicate (out_len - out_idx) pad)) 0 out_len
      else Panic
  | None => slice_range dest 0 out_len
  end.
End encoder.

(** ** Decoding *)

Section decoder.
Context (d : Base64Decoder).

Definition calc_size_upper_bound (source_len : nat) : nat + Error :=
  let result := (source_len / 4 * 3)%nat in
  let leftover := (source_len mod 4)%nat in
  if pad_char d then
    if negb (leftover mod 4 =? 0)%nat then inr InvalidPadding else inl result
  else if (leftover mod 4 =? 1)%nat then inr InvalidPadding
  else inl (result + leftover * 3 / 4)%nat.

(** [result -= 1] cannot underflow: a length of 4 or more has a [result] of 3 or more. *)
Definition calc_size_for_slice (source : bytes) : outcome (nat + Error) :=
  let source_len := length source in
  match calc_size_upper_bound source_len with
  | inr err => Ok (inr err)
  | inl result =>
      match pad_char d with
      | None => Ok (inl result)
      | Some pad =>
          result ← (if (1 <=? source_len)%nat && bool_decide (source !! (source_len - 1)%nat = Some pad)
                    then if (1 <=? result)%nat then Ok (result - 1)%nat else Panic else Ok result);
          result ← (if (2 <=? source_len)%nat && bool_decide (source !! (source_len - 2)%nat = Some pad)
                    then if (1 <=? result)%nat then Ok (result - 1)%nat else Panic else Ok result);
          Ok (inl result)
      end
  end.

(** The main loop stops at an error or at the first padding character, whose index it returns.
    The unchecked store is a [Panic] when it is out of bounds. *)
Fixpoint decode_loop (source : bytes) (src_idx : nat) (acc acc_len : Z) (dest : bytes) (dest_idx : nat)
  : outcome (Error * bytes + Z * Z * bytes * option nat) :=
  match source with
  | [] => Ok (inr (acc, acc_len, dest, None))
  | c :: source =>
      dgt ← index_at (char_to_index d) (Z.to_nat c);
      if dgt =? INVALID_CHAR then
        if bool_decide (pad_char d = Some c) then Ok (inr (acc, acc_len, dest, Some src_idx))
        else Ok (inl (InvalidCharacter, dest))
      else
        let acc := wrap 16 (Z.shiftl acc 6) + dgt in
        let acc_len := acc_len + 6 in
        if 8 <=? acc_len then
          let acc_len := acc_len - 8 in
          dest ← store_at dest dest_idx (wrap 8 (Z.shiftr acc acc_len));
          decode_loop source (src_idx + 1) acc acc_len dest (dest_idx + 1)
        else decode_loop source (src_idx + 1) acc acc_len dest dest_idx
  end.

(** [acc_len > 4 || (acc & ((1 << acc_len) - 1)) != 0] *)
Definition bad_tail (acc acc_len : Z) : bool :=
  (4 <? acc_len) || negb (Z.land acc (Z.shiftl 1 acc_len - 1) =? 0).

(** The loop over the padding; [skip] is the test for ignored characters. *)
Fixpoint count_padding (skip : Z -> bool) (leftover : bytes) (pad : Z) (padding_chars : nat) : nat + Error :=
  match leftover with
  | [] => inl padding_chars
  | c :: leftover =>
      if skip c then count_padding skip leftover pad padding_chars
      else if negb (c =? pad) then inr (if c =? INVALID_CHAR then InvalidCharacter else InvalidPadding)
      else count_padding skip leftover pad (padding_chars + 1)
  end.

Definition check_padding (skip : Z -> bool) (leftover : bytes) (pad padding_len : Z) : result :=
  match count_padding skip leftover pad 0 with
  | inr err => Some err
  | inl padding_chars => if Z.of_nat padding_chars =? padding_len then None else Some InvalidPadding
  end.

(** [decode]: the result and the destination. *)
Definition decode (dest source : bytes) : outcome (result * bytes) :=
  if bool_decide (is_Some (pad_char d)) && negb (length source mod 4 =? 0)%nat then Ok (Some InvalidPadding, dest)
  else
    r ← decode_loop source 0 0 0 dest 0;
    match r with
    | inl (err, dest) => Ok (Some err, dest)
    | inr (acc, acc_len, dest, leftover_idx) =>
        if bad_tail acc acc_len then Ok (Some InvalidPadding, dest)
        else
          match leftover_idx with
          | None => Ok (None, dest)
          | Some idx =>
              leftover ← slice_from source idx;
              match pad_char d with
              | Some pad => Ok (check_padding (fun _ => false) leftover pad (acc_len / 2), dest)
              | None => Ok (None, dest)
              end
          end
    end.
End decoder.

Section ignoring.
Context (di : Base64DecoderWithIgnore).

Definition ignored (c : Z) : bool := nth (Z.to_nat c) (char_is_ignored di) false.

Fixpoint ignore_loop (source : bytes) (src_idx : nat) (acc acc_len : Z) (dest : bytes) (wrote : nat)
  : outcome (Error * bytes * nat + Z * Z * bytes * nat * option nat) :=
  match source with
  | [] => Ok (inr (acc, acc_len, dest, wrote, None))
  | c :: source =>
      if ignored c then ignore_loop source (src_idx + 1) acc acc_len dest wrote
      else
        dgt ← index_at (char_to_index (decoder di)) (Z.to_nat c);
        if dgt =? INVALID_CHAR then
          if bool_decide (pad_char (decoder di) = Some c) then Ok (inr (acc, acc_len, dest, wrote, Some src_idx))
          else if ignored INVALID_CHAR then ignore_loop source (src_idx + 1) acc acc_len dest wrote
          else Ok (inl (InvalidCharacter, dest, wrote))
        else
          let acc := wrap 16 (Z.shiftl acc 6) + dgt in
          let acc_len := acc_len + 6 in
          if 8 <=? acc_len then
            if (wrote =? length dest)%nat then Ok (inl (NoSpaceLeft, dest, wrote))
            else
              let acc_len := acc_len - 8 in
              dest ← store_at dest wrote (wrap 8 (Z.shiftr acc acc_len));
              ignore_loop source (src_idx + 1) acc acc_len dest (wrote + 1)
          else ignore_loop source (src_idx + 1) acc acc_len dest wrote
  end.

(** [decode]: the result, the destination and [*wrote]. *)
Definition ignore_decode (dest source : bytes) : outcome (result * bytes * nat) :=
  r ← ignore_loop source 0 0 0 dest 0;
  match r with
  | inl (err, dest, wrote) => Ok (Some err, dest, wrote)
  | inr (acc, acc_len, dest, wrote, leftover_idx) =>
      if bad_tail acc acc_len then Ok (Some InvalidPadding, dest, wrote)
      else
        match pad_char (decoder di) with
        | None => Ok (None, dest, wrote)
        | Some pad =>
            let padding_len := acc_len / 2 in
            match leftover_idx with
            | Some idx => leftover ← slice_from source idx; Ok (check_padding ignored leftover pad padding_len, dest, wrote)
            | None => Ok (if 0 <? padding_len then Some InvalidPadding else None, dest, wrote)
            end
        end
  end.
End ignoring.

(** ** The entry points *)

(** [SIMDUTFResult], reduced to what the module reads. *)
Record SIMDUTFResult := mkSimd { successful : bool; count : nat }.

Section entry_points.
(** [simdutf::base64::decode(source, dest, is_urlsafe)], [decode_lenient(source, dest)],
    [encode_len] and [encode]. *)
Context (simd_decode : bytes -> bytes -> bool -> SIMDUTFResult * bytes).
Context (simd_decode_lenient : bytes -> bytes -> SIMDUTFResult * bytes).
Context (simd_encode_len : nat -> bool -> nat).
Context (simd_encode : bytes -> bytes -> bool -> nat * bytes).

Definition top_decode (destination source : bytes) : outcome (SIMDUTFResult * bytes) :=
  let '(result, destination) := simd_decode source destination false in
  if negb (successful result) then
    '(r, destination, wrote) ← ignore_decode MIXED_DECODER destination source;
    Ok (mkSimd (bool_decide (r = None)) wrote, destination)
  else Ok (result, destination).

Definition decode_lenient_len (source_len : nat) : nat := ((source_len + 3) / 4 * 3)%nat.

(** The bytes before the first padding character. *)
Fixpoint until_pad (source : bytes) : bytes :=
  match source with
  | [] => []
  | c :: source => if c =? ch "=" then [] else c :: until_pad source
  end.

Definition decode_lenient (destination source : bytes) (is_urlsafe : bool) : outcome (nat * bytes) :=
  let '(strict, destination) := simd_decode source destination is_urlsafe in
  if successful strict then Ok (count strict, destination)
  else
    let source := if (length destination <? decode_lenient_len (length source))%nat then until_pad source else source in
    let '(result, destination) := simd_decode_lenient source destination in
    if successful result then Ok (count result, destination)
    else '(_, destination, wrote) ← ignore_decode MIXED_DECODER destination source; Ok (wrote, destination).

Definition decode_len (source : bytes) : outcome nat :=
  r ← calc_size_for_slice (codec_decoder STANDARD) source;
  match r with inl v => Ok v | inr _ => Ok (length source / 4 * 3 + 2)%nat end.

Definition decode_len_upper_bound (len : nat) : nat :=
  match calc_size_upper_bound (codec_decoder STANDARD) len with inl v => v | inr _ => (len / 4 * 3)%nat end.

(** [decode_alloc]: [None] is [DecodingFailed]; [truncate] keeps a shorter vector as it is. *)
Definition decode_alloc (input : bytes) : outcome (option bytes) :=
  n ← decode_len input;
  '(result, dest) ← top_decode (replicate n 0) input;
  Ok (if successful result then Some (take (count result) dest) else None).

Definition encode_len_from_size (source : nat) : nat := ((source + 2) / 3 * 4)%nat.
Definition encode_len (source : bytes) : nat := encode_len_from_size (length source).

Definition url_safe_encode_len_from_size (n : nat) : nat := (n / 3 * 4 + (n mod 3 * 4 + 2) / 3)%nat.
Definition url_safe_encode_len (source : bytes) : nat := url_safe_encode_len_from_size (length source).

Definition encode_alloc (source : bytes) : bytes :=
  let '(n, destination) := simd_encode source (replicate (encode_len source) 0) false in take n destination.

Definition simdutf_encode_url_safe_alloc (source : bytes) : bytes :=
  let '(n, destination) := simd_encode source (replicate (simd_encode_len (length source) true) 0) true in
  take n destination.
End entry_points.

(** ** Positional notation of fixed length *)

(** The [k] base-[b] digits of [v], the most significant first. *)
Fixpoint digits (b : Z) (k : nat) (v : Z) : list Z :=
  match k with O => [] | S k => digits b k (v / b) ++ [v mod b] end.

Definition digits_ok (b : Z) (ds : list Z) : Prop := Forall (fun d => 0 <= d < b) ds.

Section positional.
Context (b : Z) (Hb : 1 < b).

Lemma radix_value_acc acc (ds : list Z) :
  radix_value b acc ds = acc * b ^ Z.of_nat (length ds) + radix_value b 0 ds.
Proof using Hb.
  revert acc. induction ds as [|d ds IH]; intros acc; cbn [radix_value fold_left length]; [lia|].
  unfold radix_value in *. cbn [fold_left]. rewrite IH, (IH (0 * b + d)), Nat2Z.inj_succ, Z.pow_succ_r by lia. lia.
Qed.

Lemma radix_value_cons d (ds : list Z) :
  radix_value b 0 (d :: ds) = d * b ^ Z.of_nat (length ds) + radix_value b 0 ds.
Proof using Hb. unfold radix_value at 1. cbn [fold_left]. apply radix_value_acc. Qed.

Lemma radix_value_app (ds es : list Z) : radix_value b 0 (ds ++ es) = radix_value b (radix_value b 0 ds) es.
Proof. unfold radix_value. by rewrite fold_left_app. Qed.

Lemma radix_value_snoc (ds : list Z) d : radix_value b 0 (ds ++ [d]) = radix_value b 0 ds * b + d.
Proof. unfold radix_value. by rewrite fold_left_app. Qed.

Lemma radix_value_bound (ds : list Z) : digits_ok b ds -> 0 <= radix_value b 0 ds < b ^ Z.of_nat (length ds).
Proof using Hb.
  induction ds as [|d ds IH] using rev_ind; intros H; [done|].
  apply Forall_app in H as [H Hd]. inversion Hd; subst. rewrite radix_value_snoc, length_app. cbn [length].
  rewrite Nat.add_1_r, Nat2Z.inj_succ, Z.pow_succ_r by lia. specialize (IH H). nia.
Qed.

Lemma digits_length k v : length (digits b k v) = k.
Proof. revert v. induction k; intros; cbn; [done|]. rewrite length_app, IHk. cbn. lia. Qed.

Lemma digits_digits_ok k v : digits_ok b (digits b k v).
Proof using Hb.
  revert v. induction k; intros v; [by constructor|]. apply Forall_app. split; [apply IHk|].
  constructor; [|done]. apply Z.mod_pos_bound. lia.
Qed.

Lemma radix_value_digits k v : 0 <= v < b ^ Z.of_nat k -> radix_value b 0 (digits b k v) = v.
Proof using Hb.
  revert v. induction k as [|k IH]; intros v Hv; [cbn in *; lia|]. cbn [digits]. rewrite radix_value_snoc.
  rewrite Nat2Z.inj_succ, Z.pow_succ_r in Hv by lia. rewrite IH.
  - pose proof (Z.div_mod v b). lia.
  - split; [apply Z.div_pos; lia|apply Z.div_lt_upper_bound; lia].
Qed.

Lemma digits_radix_value (ds : list Z) : digits_ok b ds -> digits b (length ds) (radix_value b 0 ds) = ds.
Proof using Hb.
  induction ds as [|d ds IH] using rev_ind; intros H; [done|]. apply Forall_app in H as [H Hd]. inversion Hd; subst.
  rewrite length_app, Nat.add_1_r. cbn [digits]. rewrite radix_value_snoc, Z.div_add_l, Z.div_small, Z.add_0_r by lia.
  by rewrite IH, Z.add_comm, Z.mod_add, Z.mod_small by (done || lia).
Qed.

(** Two texts of the same length and value are equal. *)
Lemma radix_value_inj (ds es : list Z) :
  digits_ok b ds -> digits_ok b es -> length ds = length es -> radix_value b 0 ds = radix_value b 0 es -> ds = es.
Proof using Hb. intros Hd He Hl Hv. rewrite <- (digits_radix_value ds), <- (digits_radix_value es) by done. by rewrite Hl, Hv. Qed.
End positional.

(** ** The accumulator

    Only the low [acc_len] bits of the accumulator matter; shifting in a value and taking the high
    bits out are operations on them. *)

Lemma shift_in acc v k n :
  0 <= v < 2 ^ k -> 0 <= k -> 0 <= n -> n + k <= 16 ->
  (wrap 16 (Z.shiftl acc k) + v) mod 2 ^ (n + k) = (acc mod 2 ^ n) * 2 ^ k + v.
Proof.
  intros Hv Hk Hn H. unfold wrap. rewrite Z.shiftl_mul_pow2 by done.
  rewrite <- Z.add_mod_idemp_l by (apply Z.pow_nonzero; lia).
  rewrite <- (Znumtheory.Zmod_div_mod (2 ^ (n + k)) (2 ^ 16)); [| | |exists (2 ^ (16 - (n + k)))].
  2,3: apply Z.pow_pos_nonneg; lia.
  2: rewrite <- Z.pow_add_r by lia; f_equal; lia.
  rewrite Z.add_mod_idemp_l by (apply Z.pow_nonzero; lia).
  rewrite Z.add_comm, Z.pow_add_r, (Z.mul_comm (2 ^ n)) by lia.
  rewrite Z.rem_mul_r by (try apply Z.pow_nonzero; try apply Z.pow_pos_nonneg; lia).
  assert (0 < 2 ^ k) by (apply Z.pow_pos_nonneg; lia).
  rewrite Z.mod_add, Z.mod_small, Z.div_add, Z.div_small, Z.add_0_l by lia. lia.
Qed.

Lemma split_bits x a c : 0 <= a -> 0 <= c -> x mod 2 ^ (a + c) = ((x / 2 ^ a) mod 2 ^ c) * 2 ^ a + x mod 2 ^ a.
Proof.
  intros Ha Hc. rewrite Z.pow_add_r, Z.rem_mul_r by (try apply Z.pow_nonzero; try apply Z.pow_pos_nonneg; lia). lia.
Qed.

(** Two conversions in a row. *)
Lemma carry_step A B v P n1 V1 a1 vs V2 R L Q :
  A * B + v = V1 * n1 + a1 -> a1 * P + vs = V2 * R + L -> Q * R = n1 * P ->
  A * (B * P) + (v * P + vs) = (V1 * Q + V2) * R + L.
Proof.
  intros H1 H2 H3. transitivity ((A * B + v) * P + vs); [ring|]. rewrite H1.
  transitivity (V1 * (n1 * P) + (a1 * P + vs)); [ring|]. rewrite H2, <- H3. ring.
Qed.

(** ** The encoding of RFC 4648 *)

Definition sextet_count (n : nat) : nat := ((8 * n + 5) / 6)%nat.

(** The bits of the bytes, filled up with zeros to a multiple of six. *)
Definition sextets (bs : bytes) : list Z :=
  let k := sextet_count (length bs) in
  digits 64 k (radix_value 256 0 bs * 2 ^ (6 * Z.of_nat k - 8 * Z.of_nat (length bs))).

Definition padding (pad : option Z) (k : nat) : bytes :=
  match pad with Some p => replicate ((4 - k mod 4) mod 4) p | None => [] end.

Definition char_of (alphabet : bytes) (d : Z) : Z := nth (Z.to_nat d) alphabet 0.

Definition text (alphabet : bytes) (pad : option Z) (bs : bytes) : bytes :=
  map (char_of alphabet) (sextets bs) ++ padding pad (sextet_count (length bs)).

(** Sixty-four different bytes, none of which is the padding. *)
Record alphabet_ok (alphabet : bytes) (pad : option Z) : Prop := {
  alphabet_length : length alphabet = 64%nat;
  alphabet_bytes : bytes_ok alphabet;
  alphabet_NoDup : NoDup alphabet;
  alphabet_pad : forall p, pad = Some p -> byte_ok p /\ p ∉ alphabet;
}.

Lemma sextets_ok bs : digits_ok 64 (sextets bs).
Proof. by apply digits_digits_ok. Qed.

Lemma sextets_length bs : length (sextets bs) = sextet_count (length bs).
Proof. apply digits_length. Qed.

Lemma sextet_count_bounds n : (8 * n <= 6 * sextet_count n < 8 * n + 6)%nat.
Proof.
  unfold sextet_count. pose proof (Nat.div_mod_eq (8 * n + 5) 6). pose proof (Nat.mod_upper_bound (8 * n + 5) 6). lia.
Qed.

Lemma sextet_count_unique n k : (8 * n <= 6 * k < 8 * n + 6)%nat -> k = sextet_count n.
Proof. intros. pose proof (sextet_count_bounds n). lia. Qed.

Lemma sextets_value bs :
  bytes_ok bs ->
  radix_value 64 0 (sextets bs) =
    radix_value 256 0 bs * 2 ^ (6 * Z.of_nat (sextet_count (length bs)) - 8 * Z.of_nat (length bs)).
Proof.
  intros Hbs. unfold sextets. pose proof (sextet_count_bounds (length bs)) as Hk.
  pose proof (radix_value_bound 256 ltac:(lia) bs Hbs) as Hv. apply radix_value_digits; [lia|].
  change 64 with (2 ^ 6). change 256 with (2 ^ 8) in *. rewrite <- Z.pow_mul_r in * by lia.
  set (s := 6 * Z.of_nat _ - _). replace (6 * Z.of_nat (sextet_count (length bs))) with (8 * Z.of_nat (length bs) + s) by lia.
  assert (0 < 2 ^ s) by (apply Z.pow_pos_nonneg; unfold s; lia).
  rewrite Z.pow_add_r by (unfold s; lia). nia.
Qed.

Lemma sextets_unique bs ds :
  bytes_ok bs -> digits_ok 64 ds -> length ds = sextet_count (length bs) ->
  radix_value 64 0 ds = radix_value 256 0 bs * 2 ^ (6 * Z.of_nat (length ds) - 8 * Z.of_nat (length bs)) -> ds = sextets bs.
Proof.
  intros Hbs Hds Hl Hv. apply (radix_value_inj 64); [lia|done|apply sextets_ok|by rewrite sextets_length|].
  by rewrite sextets_value, <- Hl.
Qed.

(** Three bytes are four characters. *)
Lemma sextet_count_groups q r : (r < 3)%nat -> sextet_count (3 * q + r) = (4 * q + (if r =? 0 then 0 else r + 1))%nat.
Proof. intros Hr. symmetry. apply sextet_count_unique. destruct (Nat.eqb_spec r 0); lia. Qed.

Lemma groups_of_three n : exists q r, n = (3 * q + r)%nat /\ (r < 3)%nat.
Proof. exists (n / 3)%nat, (n mod 3)%nat. split; [apply Nat.div_mod_eq|by apply Nat.mod_upper_bound]. Qed.

Lemma text_length alphabet pad bs :
  length (text alphabet pad bs) = calc_size (mkEncoder alphabet pad) (length bs).
Proof.
  unfold text, calc_size. rewrite length_app, length_map, sextets_length. cbn [enc_pad_char].
  destruct (groups_of_three (length bs)) as (q & r & -> & Hr). rewrite sextet_count_groups by done.
  assert (Hq : ((3 * q + r) / 3 = q)%nat) by (rewrite (Nat.mul_comm 3), Nat.div_add_l, (Nat.div_small r) by lia; lia).
  assert (Hm : ((3 * q + r) mod 3 = r)%nat) by (rewrite Nat.add_comm, (Nat.mul_comm 3), Nat.Div0.mod_add, Nat.mod_small by lia; lia).
  destruct pad as [p|]; cbn [padding].
  - rewrite length_replicate. replace (3 * q + r + 2)%nat with (q * 3 + (r + 2))%nat by lia. rewrite Nat.div_add_l by lia.
    replace (4 * q)%nat with (q * 4)%nat by lia. rewrite (Nat.add_comm (q * 4)), Nat.Div0.mod_add.
    destruct r as [|[|[|]]]; cbn; lia.
  - rewrite Hq, Hm. destruct r as [|[|[|]]]; cbn [Nat.eqb length]; cbn; lia.
Qed.

Section encoder_facts.
Context (e : Base64Encoder) (Halpha : alphabet_ok (alphabet_chars e) (enc_pad_char e)).

Notation chr := (char_of (alphabet_chars e)).

Lemma index_alphabet x : 0 <= x -> index_at (alphabet_chars e) (Z.to_nat (Z.land x 63)) = Ok (chr (x mod 64)).
Proof using Halpha.
  intros Hx. change 63 with (Z.ones 6). rewrite Z.land_ones by done. apply index_at_ok.
  unfold char_of. pose proof (Z.mod_pos_bound x 64 eq_refl). change (2 ^ 6) with 64.
  destruct (lookup_lt_is_Some_2 (alphabet_chars e) (Z.to_nat (x mod 64))) as [c Hc]; [rewrite (alphabet_length _ _ Halpha); lia|].
  by rewrite Hc, (nth_lookup_Some _ _ 0 _ Hc).
Qed.

(** [ds] are the bits of [acc] above the last [n]. *)
Definition emitted (v m : Z) (ds : list Z) (acc n : Z) : Prop :=
  digits_ok 64 ds /\ 0 <= n < 6 /\ m = 6 * Z.of_nat (length ds) + n /\ v = radix_value 64 0 ds * 2 ^ n + acc mod 2 ^ n.

Lemma emit_sextets_ok fuel acc m dest o :
  0 <= acc -> 0 <= m < 6 * Z.of_nat fuel -> Z.of_nat o + m / 6 <= Z.of_nat (length dest) ->
  exists ds n, emit_sextets e fuel acc m dest o = Ok (n, copy_at dest o (map chr ds), (o + length ds)%nat) /\
    emitted (acc mod 2 ^ m) m ds acc n.
Proof using Halpha.
  revert m dest o. induction fuel as [|fuel IH]; intros m dest o Hacc Hm Ho; [lia|]. cbn [emit_sextets].
  destruct (Z.leb_spec 6 m) as [H6|H6].
  - rewrite index_alphabet by (apply Z.shiftr_nonneg; lia). cbn [mbind outcome_bind].
    pose proof (Z.div_mod m 6). pose proof (Z.mod_pos_bound m 6). assert (m / 6 = (m - 6) / 6 + 1) by (rewrite <- Z.div_add by lia; f_equal; lia).
    assert (0 <= (m - 6) / 6) by (apply Z.div_pos; lia).
    rewrite store_at_ok by lia. cbn [mbind outcome_bind].
    set (x := chr _). destruct (IH (m - 6) (<[o := x]> dest) (o + 1)%nat Hacc) as (ds & n & -> & Hds & Hn & Hlen & Hv);
      [lia|rewrite length_insert; lia|].
    exists (Z.shiftr acc (m - 6) mod 64 :: ds), n. split.
    + cbn [map]. fold x. rewrite <- copy_at_cons by lia. do 2 f_equal. cbn [length]. lia.
    + split; [constructor; [apply Z.mod_pos_bound; lia|done]|]. split; [done|]. cbn [length]. split; [lia|].
      rewrite radix_value_cons by lia. replace m with ((m - 6) + 6) at 1 by lia. rewrite split_bits, Hv by lia.
      rewrite Z.shiftr_div_pow2 by lia. change (2 ^ 6) with 64.
      replace (2 ^ (m - 6)) with (64 ^ Z.of_nat (length ds) * 2 ^ n) at 2; [lia|].
      change 64 with (2 ^ 6). rewrite <- Z.pow_mul_r, <- Z.pow_add_r by lia. f_equal. lia.
  - exists [], m. split; [cbn [map length]; by rewrite copy_at_nil, Nat.add_0_r|]. split; [by constructor|]. cbn. lia.
Qed.

Lemma encode_loop_ok source acc n dest o :
  bytes_ok source -> 0 <= acc -> 0 <= n < 6 ->
  Z.of_nat o + (n + 8 * Z.of_nat (length source)) / 6 <= Z.of_nat (length dest) ->
  exists ds acc' n', encode_loop e source acc n dest o = Ok (acc', n', copy_at dest o (map chr ds), (o + length ds)%nat) /\
    0 <= acc' /\
    emitted ((acc mod 2 ^ n) * 256 ^ Z.of_nat (length source) + radix_value 256 0 source) (n + 8 * Z.of_nat (length source)) ds acc' n'.
Proof using Halpha.
  intros Hs. revert acc n dest o. induction Hs as [|v source Hv Hs IH]; intros acc n dest o Hacc Hn Ho; cbn [encode_loop].
  - exists [], acc, n. split; [cbn [map length]; by rewrite copy_at_nil, Nat.add_0_r|]. split; [done|]. split; [by constructor|]. cbn. lia.
  - set (acc1 := wrap 16 (Z.shiftl acc 8) + v). unfold byte_ok in Hv. cbn [length] in Ho.
    assert (Hacc1 : 0 <= acc1) by (unfold acc1, wrap; pose proof (Z.mod_pos_bound (Z.shiftl acc 8) (2 ^ 16) eq_refl); lia).
    pose proof (Z.div_mod (n + 8) 6). pose proof (Z.mod_pos_bound (n + 8) 6).
    destruct (emit_sextets_ok 3 acc1 (n + 8) dest o Hacc1) as (ds1 & n1 & -> & Hd1 & Hn1 & Hl1 & Hv1); [lia| |].
    { etrans; [|exact Ho]. apply Z.add_le_mono_l, Z.div_le_mono; lia. }
    cbn [mbind outcome_bind].
    assert (Hfit : (o + length ds1 <= length dest)%nat).
    { assert (Z.of_nat (length ds1) <= (n + 8 * Z.of_nat (S (length source))) / 6) by (apply Z.div_le_lower_bound; lia). lia. }
    destruct (IH acc1 n1 (copy_at dest o (map chr ds1)) (o + length ds1)%nat Hacc1 Hn1) as (ds2 & acc' & n' & -> & Ha & Hd2 & Hn2 & Hl2 & Hv2).
    { rewrite copy_at_length by (rewrite length_map; lia). rewrite Nat2Z.inj_add.
      replace (n1 + 8 * Z.of_nat (length source)) with
        (n + 8 * Z.of_nat (S (length source)) + (- Z.of_nat (length ds1)) * 6) by lia.
      rewrite Z.div_add by lia. lia. }
    exists (ds1 ++ ds2), acc', n'. split.
    + rewrite map_app, length_app. replace (o + length ds1)%nat with (o + length (map chr ds1))%nat by by rewrite length_map.
      rewrite copy_at_app by (rewrite length_map; lia). rewrite length_map. by rewrite Nat.add_assoc.
    + split; [done|]. split; [by apply Forall_app|]. split; [done|]. rewrite length_app. cbn [length]. split; [lia|].
      unfold acc1 in Hv1. change (2 ^ 8) with 256 in Hv1. rewrite shift_in in Hv1 by lia. fold acc1 in Hv1. change (2 ^ 8) with 256 in Hv1. rewrite radix_value_cons by lia. rewrite radix_value_app, (radix_value_acc 64 ltac:(lia) _ ds2).
      rewrite Nat2Z.inj_succ, Z.pow_succ_r by lia. apply (carry_step _ _ _ _ _ _ _ _ _ _ _ _ Hv1 Hv2).
      change 64 with (2 ^ 6). change 256 with (2 ^ 8). rewrite <- !Z.pow_mul_r, <- !Z.pow_add_r by lia. f_equal. lia.
Qed.

Lemma encode_without_size_check_ok dest source :
  bytes_ok source -> (sextet_count (length source) <= length dest)%nat ->
  encode_without_size_check e dest source =
    Ok (copy_at dest 0 (map chr (sextets source)), sextet_count (length source)).
Proof using Halpha.
  intros Hs Hd. unfold encode_without_size_check. pose proof (sextet_count_bounds (length source)) as Hk.
  destruct (encode_loop_ok source 0 0 dest 0 Hs) as (ds & acc & n & -> & Hacc & Hds & Hn & Hl & Hv); [lia|lia| |].
  { assert ((0 + 8 * Z.of_nat (length source)) / 6 < Z.of_nat (length dest) + 1) by (apply Z.div_lt_upper_bound; lia). lia. }
  cbn [mbind outcome_bind Nat.add]. rewrite Z.mod_0_l, Z.mul_0_l, Z.add_0_l in Hv by done.
  destruct (Z.ltb_spec 0 n) as [Hn0|Hn0].
  - assert (Hwrap : wrap 16 (Z.shiftl acc (6 - n)) mod 64 = (acc mod 2 ^ n) * 2 ^ (6 - n)).
    { pose proof (shift_in acc 0 (6 - n) n) as H. replace (n + (6 - n)) with 6 in H by lia.
      rewrite !Z.add_0_r in H. apply H; [split; [lia|apply Z.pow_pos_nonneg; lia]|lia|lia|lia]. }
    rewrite index_alphabet by (apply Z.mod_pos_bound; done). rewrite Hwrap. cbn [mbind outcome_bind].
    set (x := acc mod 2 ^ n * 2 ^ (6 - n)) in *.
    assert (Hx : 0 <= x < 64) by (rewrite <- Hwrap; by apply Z.mod_pos_bound).
    assert (E : ds ++ [x] = sextets source).
    { apply sextets_unique; [done|apply Forall_app; split; [done|by constructor]|apply sextet_count_unique; len|].
      rewrite radix_value_snoc, Hv, length_app by lia. cbn [length]. replace (6 * _ - _) with (6 - n) by lia.
      replace 64 with (2 ^ n * 2 ^ (6 - n)) by (rewrite <- Z.pow_add_r by lia; by replace (n + (6 - n)) with 6 by lia).
      unfold x. ring. }
    rewrite <- E, <- sextets_length, <- E, length_app. cbn [length].
    rewrite store_at_ok by (rewrite copy_at_length; rewrite ?length_map; lia). cbn [mbind outcome_bind].
    do 2 f_equal. rewrite map_app. cbn [map].
    rewrite <- (copy_at_app dest 0 (map chr ds)) by (rewrite length_map; lia). rewrite length_map, Nat.add_0_l.
    rewrite <- copy_at_cons, copy_at_nil; [done|]. rewrite copy_at_length by (rewrite length_map; lia). lia.
  - assert (n = 0) as -> by lia. assert (E : ds = sextets source).
    { apply sextets_unique; [done|done|apply sextet_count_unique; lia|]. rewrite Hv, Z.mod_1_r.
      replace (6 * _ - _) with 0 by lia. lia. }
    by rewrite <- sextets_length, <- E.
Qed.

Lemma encode_ok dest source :
  bytes_ok source -> (calc_size e (length source) <= length dest)%nat ->
  encode e dest source = Ok (text (alphabet_chars e) (enc_pad_char e) source).
Proof using Halpha.
  intros Hs Hd. unfold encode. pose proof (text_length (alphabet_chars e) (enc_pad_char e) source) as Ht.
  replace (mkEncoder _ _) with e in Ht by (by destruct e). rewrite <- Ht in *.
  unfold text in Ht, Hd. rewrite length_app, length_map, sextets_length in Ht, Hd.
  rewrite encode_without_size_check_ok by (done || lia). cbn [mbind outcome_bind].
  assert (Hlen : length (map chr (sextets source)) = sextet_count (length source)) by (by rewrite length_map, sextets_length).
  unfold text. destruct (enc_pad_char e) as [p|]; cbn [padding] in *.
  - rewrite copy_at_length by lia. rewrite length_app, Hlen, length_replicate in *.
    rewrite decide_True by lia. replace (sextet_count _ + _ - sextet_count _)%nat with ((4 - sextet_count (length source) mod 4) mod 4)%nat by lia.
    rewrite <- Hlen at 1. rewrite (copy_at_app dest 0) by lia.
    rewrite slice_range_ok by (rewrite copy_at_length; rewrite ?length_app, ?Hlen, ?length_replicate; lia).
    rewrite drop_0, Nat.sub_0_r. f_equal. rewrite <- (Nat.add_0_l (sextet_count _ + _)).
    replace (0 + (sextet_count (length source) + (4 - sextet_count (length source) mod 4) mod 4))%nat with
      (0 + length (map chr (sextets source) ++ replicate ((4 - sextet_count (length source) mod 4) mod 4) p))%nat
      by (rewrite length_app, Hlen, length_replicate; lia).
    rewrite copy_at_take; [done|]. rewrite length_app, Hlen, length_replicate. lia.
  - rewrite app_nil_r, Hlen in *. rewrite slice_range_ok by (rewrite copy_at_length; lia). rewrite drop_0, Nat.sub_0_r. f_equal.
    rewrite <- Hlen at 1. rewrite <- (Nat.add_0_l (length (map _ _))). rewrite copy_at_take by lia. done.
Qed.
End encoder_facts.

(** ** Decoding tables *)

(** [dgt] is what the table of [d] says of each byte. *)
Record decodes_with (d : Base64Decoder) (dgt : Z -> option Z) : Prop := {
  decodes_at : forall c, byte_ok c -> char_to_index d !! Z.to_nat c = Some (default INVALID_CHAR (dgt c));
  decodes_digit : forall c x, dgt c = Some x -> 0 <= x < 64;
  decodes_pad : forall p, pad_char d = Some p -> dgt p = None;
}.

(** The characters [cs] are the digits [ds]. *)
Definition spells (dgt : Z -> option Z) (cs ds : list Z) : Prop := Forall2 (fun c x => dgt c = Some x) cs ds.

(** [rest] does not start with a digit. *)
Definition stops (dgt : Z -> option Z) (rest : list Z) : Prop := match rest with [] => True | c :: _ => dgt c = None end.

Section tables.
Context (dgt : Z -> option Z).

Lemma spell_prefix (s : list Z) : exists cs ds rest, s = cs ++ rest /\ spells dgt cs ds /\ stops dgt rest.
Proof.
  induction s as [|c s (cs & ds & rest & -> & Hs & Hr)]; [by exists [], [], []; split; [|split; [constructor|]]|].
  destruct (dgt c) as [x|] eqn:E.
  - exists (c :: cs), (x :: ds), rest. split; [done|]. split; [by constructor|done].
  - exists [], [], (c :: cs ++ rest). split; [done|]. split; [constructor|done].
Qed.

Lemma spells_unique cs1 cs2 ds1 ds2 rest1 rest2 :
  cs1 ++ rest1 = cs2 ++ rest2 -> spells dgt cs1 ds1 -> spells dgt cs2 ds2 -> stops dgt rest1 -> stops dgt rest2 ->
  cs1 = cs2 /\ ds1 = ds2 /\ rest1 = rest2.
Proof.
  intros E H1. revert cs2 ds2 E. induction H1 as [|c x cs1 ds1 Hc H1 IH]; intros cs2 ds2 E H2 Hr1 Hr2.
  - destruct H2 as [|c' x' cs2 ds2 Hc' H2]; [done|]. cbn in E. subst rest1. cbn in Hr1. congruence.
  - destruct H2 as [|c' x' cs2 ds2 Hc' H2]; [cbn in E; subst rest2; cbn in Hr2; congruence|].
    cbn in E. injection E as -> E. rewrite Hc in Hc'. injection Hc' as <-.
    destruct (IH cs2 ds2 E H2 Hr1 Hr2) as (-> & -> & ->). done.
Qed.

Lemma spells_length cs ds : spells dgt cs ds -> length cs = length ds.
Proof. apply Forall2_length. Qed.

Lemma spells_lookup cs ds i c : spells dgt cs ds -> cs !! i = Some c -> is_Some (dgt c).
Proof. intros H Hc. destruct (Forall2_lookup_l _ _ _ _ _ H Hc) as (x & _ & Hx). by exists x. Qed.
End tables.

(** The digit of a character of the alphabet. *)
Definition digit_in (alphabet : bytes) (c : Z) : option Z := Z.of_nat <$> index_of_char_usize alphabet c.

Lemma index_chars_length table i alphabet : length (index_chars table i alphabet) = length table.
Proof. revert table i. induction alphabet; intros; cbn; [done|]. by rewrite IHalphabet, length_insert. Qed.

Lemma index_chars_lookup alphabet table i c :
  NoDup alphabet -> bytes_ok alphabet -> byte_ok c -> length table = 256%nat ->
  index_chars table i alphabet !! Z.to_nat c =
    match index_of_char_usize alphabet c with Some j => Some (i + Z.of_nat j) | None => table !! Z.to_nat c end.
Proof.
  revert table i. induction alphabet as [|a alphabet IH]; intros table i Hnd Hok Hc Hl; cbn [index_chars index_of_char_usize]; [done|].
  apply NoDup_ListNoDup, NoDup_cons_iff in Hnd as [Hna Hnd]. apply NoDup_ListNoDup in Hnd.
  inversion Hok as [|? ? Ha Hok']; subst. unfold byte_ok in *. rewrite IH by (done || by rewrite length_insert).
  destruct (Z.eqb_spec a c) as [->|Hne].
  - destruct (index_of_char_usize alphabet c) eqn:E.
    + destruct Hna. apply index_of_char_usize_Some in E as [E _]. apply list_elem_of_In. by eapply list_elem_of_lookup_2.
    + rewrite list_lookup_insert_eq by lia. f_equal. lia.
  - destruct (index_of_char_usize alphabet c); cbn [fmap option_fmap option_map]; [f_equal; lia|].
    apply list_lookup_insert_ne. lia.
Qed.

Lemma digit_in_char alphabet d : NoDup alphabet -> 0 <= d < Z.of_nat (length alphabet) -> digit_in alphabet (char_of alphabet d) = Some d.
Proof.
  intros Hnd Hd. unfold digit_in, char_of. destruct (lookup_lt_is_Some_2 alphabet (Z.to_nat d)) as [c Hc]; [lia|].
  rewrite (nth_lookup_Some _ _ 0 _ Hc). destruct (index_of_char_usize alphabet c) as [j|] eqn:E.
  - apply index_of_char_usize_Some in E as [E _]. rewrite (NoDup_lookup _ _ _ _ Hnd E Hc). cbn. f_equal. lia.
  - exfalso. clear Hnd Hd. revert Hc E. generalize (Z.to_nat d). induction alphabet as [|a l IH]; intros k Hc; [done|].
    cbn [index_of_char_usize]. destruct (Z.eqb_spec a c) as [|Hne]; [done|]. destruct k as [|k]; [cbn in Hc; congruence|].
    intros E. destruct (index_of_char_usize l c) eqn:E'; [done|]. by apply (IH k).
Qed.

Lemma digit_in_Some alphabet c d :
  digit_in alphabet c = Some d -> 0 <= d < Z.of_nat (length alphabet) /\ char_of alphabet d = c /\ c ∈ alphabet.
Proof.
  unfold digit_in. destruct (index_of_char_usize alphabet c) as [j|] eqn:E; [|done]. intros [= <-].
  apply index_of_char_usize_Some in E as [E _]. pose proof (lookup_lt_Some _ _ _ E). split; [lia|]. split.
  - unfold char_of. rewrite Nat2Z.id. by apply nth_lookup_Some.
  - by eapply list_elem_of_lookup_2.
Qed.

Lemma decoder_init_decodes alphabet pad : alphabet_ok alphabet pad -> decodes_with (decoder_init alphabet pad) (digit_in alphabet).
Proof.
  intros [Hl Hb Hnd Hp]. constructor; cbn [decoder_init char_to_index pad_char].
  - intros c Hc. rewrite index_chars_lookup by (done || apply length_replicate). unfold digit_in.
    destruct (index_of_char_usize alphabet c); cbn [fmap option_fmap option_map default]; [done|].
    apply lookup_replicate. unfold byte_ok in Hc. split; [done|lia].
  - intros c x H. apply digit_in_Some in H as [H _]. by rewrite Hl in H.
  - intros p E. destruct (digit_in alphabet p) eqn:Ed; [|done]. apply digit_in_Some in Ed as (_ & _ & Hin).
    by destruct (Hp p E).
Qed.

(** Spelling with an alphabet. *)
Lemma spells_chars alphabet pad ds : alphabet_ok alphabet pad -> digits_ok 64 ds -> spells (digit_in alphabet) (map (char_of alphabet) ds) ds.
Proof.
  intros Ha Hds. induction Hds as [|d ds Hd Hds IH]; [constructor|]. constructor; [|done].
  apply digit_in_char; [by apply (alphabet_NoDup _ _ Ha)|]. by rewrite (alphabet_length _ _ Ha).
Qed.

Lemma spells_chars_inv alphabet cs ds : spells (digit_in alphabet) cs ds -> cs = map (char_of alphabet) ds.
Proof.
  induction 1 as [|c d cs ds Hc H IH]; [done|]. cbn. apply digit_in_Some in Hc as (_ & -> & _). by f_equal.
Qed.

(** ** The decoding loops *)

(** [bs] are the whole bytes of the bits [v] of length [m], and [n] bits of [acc] are left. *)
Definition unpacked (v m : Z) (bs : bytes) (acc n : Z) : Prop :=
  bytes_ok bs /\ 0 <= n < 8 /\ m = 8 * Z.of_nat (length bs) + n /\ v = radix_value 256 0 bs * 2 ^ n + acc mod 2 ^ n.

(** One digit more. *)
Lemma unpack_step acc n x :
  0 <= acc -> 0 <= n < 8 -> 0 <= x < 64 ->
  let acc1 := wrap 16 (Z.shiftl acc 6) + x in
  0 <= acc1 /\ acc1 mod 2 ^ (n + 6) = (acc mod 2 ^ n) * 64 + x /\
  (8 <= n + 6 -> byte_ok (wrap 8 (Z.shiftr acc1 (n + 6 - 8))) /\
     (acc mod 2 ^ n) * 64 + x = wrap 8 (Z.shiftr acc1 (n + 6 - 8)) * 2 ^ (n + 6 - 8) + acc1 mod 2 ^ (n + 6 - 8)).
Proof.
  intros Hacc Hn Hx acc1. assert (H0 : 0 <= acc1) by (unfold acc1, wrap; pose proof (Z.mod_pos_bound (Z.shiftl acc 6) (2 ^ 16) eq_refl); lia).
  assert (H1 : acc1 mod 2 ^ (n + 6) = (acc mod 2 ^ n) * 64 + x) by (apply (shift_in acc x 6 n); lia).
  split; [done|]. split; [done|]. intros H8. split; [by apply Z.mod_pos_bound|].
  rewrite <- H1. replace (n + 6) with ((n + 6 - 8) + 8) at 1 by lia. rewrite split_bits by lia.
  unfold wrap. by rewrite Z.shiftr_div_pow2 by lia.
Qed.

(** The values of a run of digits after a step. *)
Lemma unpack_cons_emit v1 x (ds : list Z) b m1 a1 bs acc' n' :
  v1 * 64 + x = b * 2 ^ m1 + a1 -> 0 <= m1 -> byte_ok b ->
  unpacked (a1 * 64 ^ Z.of_nat (length ds) + radix_value 64 0 ds) (m1 + 6 * Z.of_nat (length ds)) bs acc' n' ->
  unpacked (v1 * 64 ^ Z.of_nat (length (x :: ds)) + radix_value 64 0 (x :: ds)) (m1 + 8 + 6 * Z.of_nat (length ds)) (b :: bs) acc' n'.
Proof.
  intros H1 Hm Hb (Hbs & Hn & Hl & Hv). split; [by constructor|]. split; [done|]. cbn [length]. split; [lia|].
  rewrite !radix_value_cons by lia. rewrite Nat2Z.inj_succ, Z.pow_succ_r by lia.
  rewrite (carry_step _ _ _ _ _ _ _ _ _ _ _ (256 ^ Z.of_nat (length bs)) H1 Hv); [done|].
  change 64 with (2 ^ 6). change 256 with (2 ^ 8). rewrite <- !Z.pow_mul_r, <- !Z.pow_add_r by lia. f_equal. lia.
Qed.

Lemma unpack_cons_keep v1 x (ds : list Z) a1 m1 bs acc' n' :
  v1 * 64 + x = a1 ->
  unpacked (a1 * 64 ^ Z.of_nat (length ds) + radix_value 64 0 ds) (m1 + 6 * Z.of_nat (length ds)) bs acc' n' ->
  unpacked (v1 * 64 ^ Z.of_nat (length (x :: ds)) + radix_value 64 0 (x :: ds)) (m1 + 6 * Z.of_nat (length ds)) bs acc' n'.
Proof.
  intros <- (Hbs & Hn & Hl & Hv). split; [done|]. split; [done|]. split; [done|]. cbn [length].
  rewrite radix_value_cons, Nat2Z.inj_succ, Z.pow_succ_r, <- Hv by lia. ring.
Qed.

Section decode_loops.
Context (d : Base64Decoder) (dgt : Z -> option Z) (Hd : decodes_with d dgt).

Lemma digit_at c x : dgt c = Some x -> byte_ok c -> index_at (char_to_index d) (Z.to_nat c) = Ok x /\ (x =? INVALID_CHAR) = false.
Proof using Hd.
  intros E Hc. split; [apply index_at_ok; by rewrite (decodes_at _ _ Hd c Hc), E|].
  pose proof (decodes_digit _ _ Hd c x E). unfold INVALID_CHAR. apply Z.eqb_neq. lia.
Qed.

Lemma digit_at_None c : dgt c = None -> byte_ok c -> index_at (char_to_index d) (Z.to_nat c) = Ok INVALID_CHAR.
Proof using Hd. intros E Hc. apply index_at_ok. by rewrite (decodes_at _ _ Hd c Hc), E. Qed.

Lemma decode_loop_run cs ds rest idx acc n dest o :
  spells dgt cs ds -> bytes_ok cs -> 0 <= acc -> 0 <= n < 8 ->
  Z.of_nat o + (n + 6 * Z.of_nat (length ds)) / 8 <= Z.of_nat (length dest) ->
  exists bs acc' n', decode_loop d (cs ++ rest) idx acc n dest o =
      decode_loop d rest (idx + length cs) acc' n' (copy_at dest o bs) (o + length bs) /\ 0 <= acc' /\
    unpacked ((acc mod 2 ^ n) * 64 ^ Z.of_nat (length ds) + radix_value 64 0 ds) (n + 6 * Z.of_nat (length ds)) bs acc' n'.
Proof using Hd.
  intros Hs. revert idx acc n dest o. induction Hs as [|c x cs ds Hx Hs IH]; intros idx acc n dest o Hcs Hacc Hn Ho.
  - exists [], acc, n. split; [cbn [app length]; by rewrite copy_at_nil, !Nat.add_0_r|]. split; [done|]. split; [constructor|]. cbn. lia.
  - inversion Hcs as [|? ? Hc Hcs']; subst. destruct (digit_at c x Hx Hc) as (Hix & Hinv).
    cbn [app decode_loop]. rewrite Hix. cbn [mbind outcome_bind]. rewrite Hinv.
    destruct (unpack_step acc n x Hacc Hn (decodes_digit _ _ Hd c x Hx)) as (H1 & Hkeep & Hemit).
    set (acc1 := wrap 16 (Z.shiftl acc 6) + x) in *. cbn [length] in Ho.
    replace (idx + length (c :: cs))%nat with (idx + 1 + length cs)%nat by (cbn [length]; lia).
    destruct (Z.leb_spec 8 (n + 6)) as [H8|H8].
    + destruct (Hemit H8) as (Hb & Hv). set (b := wrap 8 _) in *.
      assert (Hdiv : (n + 6 * Z.of_nat (S (length ds))) / 8 = (n + 6 - 8 + 6 * Z.of_nat (length ds)) / 8 + 1)
        by (rewrite <- Z.div_add by lia; f_equal; lia).
      assert (0 <= (n + 6 - 8 + 6 * Z.of_nat (length ds)) / 8) by (apply Z.div_pos; lia).
      rewrite store_at_ok by lia. cbn [mbind outcome_bind].
      destruct (IH (idx + 1)%nat acc1 (n + 6 - 8) (<[o := b]> dest) (o + 1)%nat Hcs' H1) as (bs & acc' & n' & -> & Ha & Hu);
        [lia|rewrite length_insert; lia|].
      exists (b :: bs), acc', n'. split; [|split; [done|]].
      * rewrite copy_at_cons by lia. cbn [length]. by replace (o + 1 + length bs)%nat with (o + S (length bs))%nat by lia.
      * replace (n + 6 * _) with (n + 6 - 8 + 8 + 6 * Z.of_nat (length ds)) by (cbn [length]; lia).
        by apply (unpack_cons_emit _ _ _ _ _ _ _ _ _ Hv); [lia| |].
    + destruct (IH (idx + 1)%nat acc1 (n + 6) dest o Hcs' H1) as (bs & acc' & n' & -> & Ha & Hu);
        [lia|etrans; [|exact Ho]; apply Z.add_le_mono_l, Z.div_le_mono; lia|].
      exists bs, acc', n'. split; [done|]. split; [done|].
      replace (n + 6 * _) with (n + 6 + 6 * Z.of_nat (length ds)) by (cbn [length]; lia).
      apply (unpack_cons_keep _ _ _ _ _ _ _ _ eq_refl). by rewrite <- Hkeep.
Qed.
End decode_loops.

(** ** Canonical tails *)

(** The tail test accepts exactly the digits of an encoding. *)
Lemma bad_tail_spec (ds : list Z) bs acc n :
  digits_ok 64 ds -> 0 <= acc -> unpacked (radix_value 64 0 ds) (6 * Z.of_nat (length ds)) bs acc n ->
  bad_tail acc n = false <-> ds = sextets bs.
Proof.
  intros Hds Hacc (Hbs & Hn & Hl & Hv). unfold bad_tail. rewrite orb_false_iff, Z.ltb_ge, negb_false_iff, Z.eqb_eq.
  assert (Hland : Z.land acc (Z.shiftl 1 n - 1) = acc mod 2 ^ n).
  { rewrite Z.shiftl_1_l. apply land_ones_mod; [|lia]. rewrite Z.ones_equiv. lia. }
  rewrite Hland. split.
  - intros [H4 H0]. apply sextets_unique; [done|done|apply sextet_count_unique; lia|]. rewrite Hv, H0, Z.add_0_r.
    do 2 f_equal. lia.
  - intros E. pose proof (sextet_count_bounds (length bs)) as Hk. rewrite <- sextets_length, <- E in Hk.
    assert (Hv' := sextets_value bs Hbs). rewrite <- E, <- sextets_length, <- E in Hv'.
    replace (6 * Z.of_nat (length ds) - 8 * Z.of_nat (length bs)) with n in Hv' by lia. lia.
Qed.

(** Any encoding with those digits is the one found. *)
Lemma unpacked_unique (ds : list Z) bs acc n bs' :
  unpacked (radix_value 64 0 ds) (6 * Z.of_nat (length ds)) bs acc n ->
  bytes_ok bs' -> ds = sextets bs' -> bs' = bs.
Proof.
  intros (Hbs & Hn & Hl & Hv) Hbs' E. pose proof (sextet_count_bounds (length bs')) as Hk.
  assert (Hv' := sextets_value bs' Hbs'). rewrite <- sextets_length, <- E in *.
  assert (HL : length bs' = length bs) by lia.
  replace (6 * Z.of_nat (length ds) - 8 * Z.of_nat (length bs')) with n in Hv' by lia.
  assert (H2 : 0 < 2 ^ n) by (apply Z.pow_pos_nonneg; lia). pose proof (Z.mod_pos_bound acc (2 ^ n) H2).
  apply (radix_value_inj 256); [lia|done|done|done|]. nia.
Qed.

(** ** The strict decoder *)

Lemma count_padding_strict leftover pad n m :
  count_padding (fun _ => false) leftover pad n = inl m <-> exists j, leftover = replicate j pad /\ m = (n + j)%nat.
Proof.
  revert n. induction leftover as [|c leftover IH]; intros n; cbn [count_padding].
  - split; [intros [= ->]; exists 0%nat; by rewrite Nat.add_0_r|]. intros (j & Hj & ->). destruct j; [by rewrite Nat.add_0_r|done].
  - destruct (Z.eqb_spec c pad) as [->|Hne]; cbn [negb].
    + rewrite IH. split; intros (j & Hj & ->).
      * exists (S j). subst. split; [done|lia].
      * destruct j as [|j]; [done|]. injection Hj as ->. exists j. split; [done|lia].
    + split; [by destruct (_ =? _)|]. intros (j & Hj & _). destruct j as [|j]; [done|]. injection Hj as -> _. done.
Qed.

Lemma check_padding_strict leftover pad plen :
  0 <= plen -> check_padding (fun _ => false) leftover pad plen = None <-> leftover = replicate (Z.to_nat plen) pad.
Proof.
  intros Hp. unfold check_padding. destruct (count_padding _ leftover pad 0) as [m|err] eqn:E.
  - apply count_padding_strict in E as (j & -> & ->). cbn. destruct (Z.eqb_spec (Z.of_nat j) plen) as [<-|Hne].
    + by rewrite Nat2Z.id.
    + split; [done|]. intros H. apply (f_equal length) in H. rewrite !length_replicate in H. lia.
  - split; [done|]. intros ->.
    assert (count_padding (fun _ => false) (replicate (Z.to_nat plen) pad) pad 0 = inl (Z.to_nat plen)) by (apply count_padding_strict; eauto).
    congruence.
Qed.

(** The padding of an encoding follows from its free bits. *)
Lemma padding_of_bits (bs : bytes) :
  ((4 - sextet_count (length bs) mod 4) mod 4 = Z.to_nat ((6 * Z.of_nat (sextet_count (length bs)) - 8 * Z.of_nat (length bs)) / 2))%nat.
Proof.
  destruct (groups_of_three (length bs)) as (q & r & -> & Hr). rewrite sextet_count_groups by done.
  rewrite (Nat.mul_comm 4), (Nat.add_comm (q * 4)), Nat.Div0.mod_add.
  destruct r as [|[|[|]]]; [| | |lia]; cbn [Nat.eqb Nat.add].
  - replace (6 * _ - _) with 0 by lia. done.
  - replace (6 * _ - _) with 4 by lia. done.
  - replace (6 * _ - _) with 2 by lia. done.
Qed.

Section strict.
Context (d : Base64Decoder) (dgt : Z -> option Z) (Hd : decodes_with d dgt).

(** What [decode] does, when the destination is large enough. *)
Lemma decode_result cs ds rest dest :
  spells dgt cs ds -> stops dgt rest -> bytes_ok (cs ++ rest) ->
  (is_Some (pad_char d) -> (length (cs ++ rest) mod 4 = 0)%nat) ->
  6 * Z.of_nat (length ds) / 8 <= Z.of_nat (length dest) ->
  exists r bs acc n, decode d dest (cs ++ rest) = Ok (r, copy_at dest 0 bs) /\
    unpacked (radix_value 64 0 ds) (6 * Z.of_nat (length ds)) bs acc n /\
    (r = None <-> ds = sextets bs /\ rest = padding (pad_char d) (length ds)).
Proof using Hd.
  intros Hs Hst Hok Hlen Hroom. unfold decode. apply Forall_app in Hok as [Hcs Hrest].
  assert (Hguard : bool_decide (is_Some (pad_char d)) && negb (length (cs ++ rest) mod 4 =? 0)%nat = false).
  { case_bool_decide as Hp; [|done]. by rewrite (Hlen Hp). }
  rewrite Hguard. clear Hguard.
  destruct (decode_loop_run d dgt Hd cs ds rest 0 0 0 dest 0 Hs Hcs) as (bs & acc & n & -> & Hacc & Hu);
    [lia|lia|by rewrite Z.add_0_l|].
  rewrite Z.mod_0_l, Z.mul_0_l, !Z.add_0_l in Hu by done.
  assert (Hds : digits_ok 64 ds) by (eapply Forall2_Forall_r; [exact Hs|]; apply list.Forall_forall; intros c _ x; apply (decodes_digit _ _ Hd)).
  pose proof (bad_tail_spec ds bs acc n Hds Hacc Hu) as Htail.
  pose proof (spells_length _ _ _ Hs) as Hkl. cbn [Nat.add].
  destruct rest as [|c rest]; cbn [decode_loop].
  - cbn [mbind outcome_bind]. destruct (bad_tail acc n).
    + exists (Some InvalidPadding), bs, acc, n. split; [done|]. split; [done|]. split; [done|]. intros [E _]. by apply Htail in E.
    + exists None, bs, acc, n. split; [done|]. split; [done|]. split; [|done]. intros _. split; [by apply Htail|].
      destruct (pad_char d) as [p|]; [|done]. rewrite app_nil_r, Hkl in Hlen. cbn [padding]. by rewrite Hlen by by eexists.
  - inversion Hrest as [|? ? Hc Hrest']; subst. rewrite (digit_at_None d dgt Hd c Hst Hc). cbn [mbind outcome_bind]. rewrite Z.eqb_refl.
    case_bool_decide as Hp.
    + cbn [mbind outcome_bind]. destruct (bad_tail acc n).
      * exists (Some InvalidPadding), bs, acc, n. split; [done|]. split; [done|]. split; [done|]. intros [E _]. by apply Htail in E.
      * pose proof (proj1 Htail eq_refl) as E. rewrite slice_from_ok by (rewrite length_app; lia). cbn [mbind outcome_bind].
        rewrite drop_app_length, Hp. eexists _, bs, acc, n. split; [done|]. split; [done|].
        pose proof Hu as (Hbs & Hn & Hl & _). rewrite check_padding_strict by (apply Z.div_pos; lia).
        cbn [padding]. rewrite E, sextets_length, padding_of_bits.
        replace (6 * _ - _) with n; [tauto|]. rewrite <- sextets_length, <- E. lia.
    + exists (Some InvalidCharacter), bs, acc, n. split; [done|]. split; [done|]. split; [done|]. intros [_ E].
      destruct (pad_char d) as [p|]; cbn [padding] in E; [|done].
      destruct ((4 - length ds mod 4) mod 4)%nat; [done|]. injection E as -> _. done.
Qed.

(** *** Sizes *)

Definition pad_at (source : bytes) (p : Z) (i : nat) : nat :=
  if (i <=? length source)%nat && bool_decide (source !! (length source - i)%nat = Some p) then 1 else 0.

Lemma calc_size_padded source p q :
  pad_char d = Some p -> length source = (4 * q)%nat ->
  calc_size_for_slice d source = Ok (inl (3 * q - pad_at source p 1 - pad_at source p 2)%nat).
Proof.
  intros Hp Hq. unfold calc_size_for_slice, calc_size_upper_bound, pad_at. rewrite Hp, Hq.
  rewrite (Nat.mul_comm 4), Nat.div_mul, Nat.Div0.mod_mul by lia.
  change (0 mod 4)%nat with 0%nat. cbn [Nat.eqb negb].
  destruct q as [|q]; [done|]. rewrite !(proj2 (Nat.leb_le _ _)) by lia. cbn [andb].
  case_bool_decide; cbn [mbind outcome_bind]; case_bool_decide; cbn [andb mbind outcome_bind].
  1, 2: rewrite (proj2 (Nat.leb_le 1 _)) by lia; cbn [mbind outcome_bind].
  all: do 2 f_equal; lia.
Qed.

Lemma calc_size_unpadded source :
  pad_char d = None ->
  calc_size_for_slice d source =
    Ok (if (length source mod 4 =? 1)%nat then inr InvalidPadding else inl (6 * length source / 8)%nat).
Proof.
  intros Hp. unfold calc_size_for_slice, calc_size_upper_bound. rewrite Hp. rewrite Nat.Div0.mod_mod.
  destruct (length source mod 4 =? 1)%nat; [done|]. do 2 f_equal.
  set (N := length source). pose proof (Nat.div_mod_eq N 4) as E. pose proof (Nat.mod_upper_bound N 4).
  replace (6 * N)%nat with (3 * (N / 4) * 8 + 6 * (N mod 4))%nat by lia. rewrite Nat.div_add_l by lia.
  destruct (N mod 4)%nat as [|[|[|[|r]]]]; [cbn; lia..|lia].
Qed.

Lemma spells_not_pad cs ds rest p i :
  spells dgt cs ds -> dgt p = None -> (cs ++ rest) !! i = Some p -> (length ds <= i)%nat.
Proof.
  intros Hs Hp Hi. rewrite <- (spells_length _ _ _ Hs). destruct (decide (i < length cs)%nat) as [Hlt|]; [|lia].
  rewrite lookup_app_l in Hi by done. destruct (spells_lookup _ _ _ _ _ Hs Hi). congruence.
Qed.

(** The computed size is enough for any source, and exact for an encoding. *)
Lemma calc_size_ok cs ds rest n :
  spells dgt cs ds -> calc_size_for_slice d (cs ++ rest) = Ok (inl n) ->
  (is_Some (pad_char d) -> (length (cs ++ rest) mod 4 = 0)%nat) /\
  6 * Z.of_nat (length ds) / 8 <= Z.of_nat n /\
  forall bs : bytes, length ds = sextet_count (length bs) -> rest = padding (pad_char d) (length ds) -> length bs = n.
Proof using Hd.
  intros Hs. pose proof (spells_length _ _ _ Hs) as Hkl. destruct (pad_char d) as [p|] eqn:Hp.
  - intros Hn. assert (H4 : (length (cs ++ rest) mod 4 = 0)%nat).
    { unfold calc_size_for_slice, calc_size_upper_bound in Hn. rewrite Hp, Nat.Div0.mod_mod in Hn.
      destruct (Nat.eqb_spec (length (cs ++ rest) mod 4) 0); [done|discriminate Hn]. }
    split; [done|]. pose proof (Nat.div_mod_eq (length (cs ++ rest)) 4) as Hq. rewrite H4, Nat.add_0_r in Hq.
    set (q := (length (cs ++ rest) / 4)%nat) in *. rewrite (calc_size_padded _ p q Hp Hq) in Hn. injection Hn as <-.
    pose proof (decodes_pad _ _ Hd p Hp) as Hdp. rewrite length_app in Hq. split.
    + unfold pad_at. rewrite length_app, Hq.
      assert (Hlt : forall i, (1 <= i <= 4 * q)%nat -> (cs ++ rest) !! (4 * q - i)%nat = Some p -> (length ds <= 4 * q - i)%nat)
        by (intros i _; by apply (spells_not_pad cs ds rest p)).
      pose proof (Hlt 1%nat) as Hlt1. pose proof (Hlt 2%nat) as Hlt2.
      apply Z.lt_succ_r, Z.div_lt_upper_bound; [lia|].
      destruct (Nat.leb_spec 1 (4 * q)); destruct (Nat.leb_spec 2 (4 * q)); cbn [andb]; try lia;
        repeat case_bool_decide; try (specialize (Hlt1 ltac:(lia) ltac:(done))); try (specialize (Hlt2 ltac:(lia) ltac:(done))); lia.
    + intros bs Hbs ->. cbn [padding] in *. set (m := ((4 - length ds mod 4) mod 4)%nat) in *. rewrite length_replicate in Hq.
      assert (Hlast : forall i, (1 <= i)%nat -> pad_at (cs ++ replicate m p) p i = if (i <=? m)%nat then 1%nat else 0%nat).
      { intros i Hi. unfold pad_at. rewrite length_app, length_replicate. destruct (Nat.leb_spec i m).
        - rewrite (proj2 (Nat.leb_le _ _)) by lia. cbn [andb]. rewrite bool_decide_true; [done|].
          rewrite lookup_app_r by lia. apply lookup_replicate. split; [done|lia].
        - destruct (Nat.leb_spec i (length cs + m)); [|done]. cbn [andb]. rewrite bool_decide_false; [done|].
          intros E. apply (spells_not_pad cs ds _ p) in E; [lia|done|done]. }
      rewrite !Hlast by lia. destruct (groups_of_three (length bs)) as (a & r & Hl & Hr).
      rewrite Hl, sextet_count_groups in Hbs by done. unfold m in *. rewrite Hkl, Hbs in *.
      rewrite (Nat.mul_comm 4 a), (Nat.add_comm (a * 4)), Nat.Div0.mod_add in *.
      destruct r as [|[|[|]]]; cbn in *; lia.
  - rewrite calc_size_unpadded by done. destruct (_ =? 1)%nat; [done|]. intros Hn.
    assert (n = (6 * length (cs ++ rest) / 8)%nat) as -> by congruence. clear Hn. split; [by intros []|]. split.
    +  rewrite Nat2Z.inj_div. apply Z.div_le_mono; [lia|]. rewrite length_app. lia.
    + intros bs Hbs ->. cbn [padding] in *. rewrite app_nil_r, Hkl, Hbs. pose proof (sextet_count_bounds (length bs)).
      apply Nat.div_unique with (r := (6 * sextet_count (length bs) - 8 * length bs)%nat); lia.
Qed.

Lemma calc_size_error source err bs alphabet :
  calc_size_for_slice d source = Ok (inr err) -> source <> text alphabet (pad_char d) bs.
Proof.
  intros Hn ->. pose proof (text_length alphabet (pad_char d) bs) as Hl. unfold calc_size in Hl. cbn [enc_pad_char] in Hl.
  destruct (pad_char d) as [p|] eqn:Hp.
  - rewrite (calc_size_padded _ p ((length bs + 2) / 3)) in Hn; [done|done|lia].
  - rewrite calc_size_unpadded in Hn by done. destruct (Nat.eqb_spec (length (text alphabet None bs) mod 4) 1) as [E|]; [|done].
    rewrite Hl, Nat.add_comm, Nat.Div0.mod_add in E.
    pose proof (Nat.mod_upper_bound (length bs) 3). destruct (length bs mod 3)%nat as [|[|[|]]]; cbn in E; lia.
Qed.
End strict.

(** (C34) The encoder writes the RFC 4648 text of the bytes, in the number of characters that [calc_size]
    announces.  The decoder, given a destination of the size computed from the source, never stores out
    of bounds, succeeds exactly on the encodings, and then has written the bytes encoded: decoding
    inverts encoding and accepts nothing else (wrong padding, leftover bits and foreign characters
    are all refused); a source whose size is refused is not an encoding. *)
Theorem codec_canonical alphabet pad :
  alphabet_ok alphabet pad ->
  (forall dest source, bytes_ok source -> (calc_size (encoder_init alphabet pad) (length source) <= length dest)%nat ->
     encode (encoder_init alphabet pad) dest source = Ok (text alphabet pad source)) /\
  (forall source, length (text alphabet pad source) = calc_size (encoder_init alphabet pad) (length source)) /\
  (forall source, bytes_ok source ->
     exists size, calc_size_for_slice (decoder_init alphabet pad) source = Ok size /\
     match size with
     | inr _ => forall bs, source <> text alphabet pad bs
     | inl n => forall dest, length dest = n -> exists r dest',
         decode (decoder_init alphabet pad) dest source = Ok (r, dest') /\ length dest' = n /\
         forall bs, bytes_ok bs -> (r = None /\ dest' = bs <-> source = text alphabet pad bs)
     end).
Proof.
  intros Ha. split; [intros; by apply encode_ok|]. split; [by apply text_length|]. intros source Hok.
  set (d := decoder_init alphabet pad). pose proof (decoder_init_decodes alphabet pad Ha) as Hd. fold d in Hd.
  assert (Hret : exists size, calc_size_for_slice d source = Ok size).
  { pose proof (Nat.div_mod_eq (length source) 4). destruct pad as [p|].
    - destruct (Nat.eqb_spec (length source mod 4) 0) as [E|E].
      + eexists. apply (calc_size_padded d source p (length source / 4)); [done|lia].
      + exists (inr InvalidPadding). unfold calc_size_for_slice, calc_size_upper_bound. cbn [d decoder_init pad_char].
        rewrite Nat.Div0.mod_mod. by rewrite (proj2 (Nat.eqb_neq _ _) E).
    - eexists. by apply calc_size_unpadded. }
  destruct Hret as [size Hsize]. exists size. split; [done|]. destruct size as [n|err].
  2: intros bs; by apply (calc_size_error d source err bs alphabet).
  intros dest Hl. destruct (spell_prefix (digit_in alphabet) source) as (cs & ds & rest & -> & Hs & Hst).
  destruct (calc_size_ok d (digit_in alphabet) Hd cs ds rest n Hs Hsize) as (Hmod & Hroom & Hexact).
  destruct (decode_result d (digit_in alphabet) Hd cs ds rest dest Hs Hst Hok Hmod) as (r & bs & acc & k & Hdec & Hu & Hr); [lia|].
  assert (Hbl : (length bs <= n)%nat).
  { pose proof Hu as (_ & Hk & Hlen & _). enough (Z.of_nat (length bs) <= 6 * Z.of_nat (length ds) / 8) by lia.
    apply Z.div_le_lower_bound; lia. }
  exists r, (copy_at dest 0 bs). split; [done|]. split; [rewrite copy_at_length; lia|].
  assert (Hds : digits_ok 64 ds) by (eapply Forall2_Forall_r; [exact Hs|]; apply list.Forall_forall; intros c _ x; apply (decodes_digit _ _ Hd)).
  intros bs' Hbs'. rewrite Hr. change (pad_char d) with pad. split.
  - intros [[E Erest] Ebs]. assert (Hn : length bs = n).
    { apply Hexact; [by rewrite E, sextets_length|done]. }
    assert (bs' = bs) as ->.
    { rewrite <- Ebs. unfold copy_at. rewrite drop_ge by lia. cbn [take]. by rewrite app_nil_r. }
    rewrite Erest, (spells_chars_inv _ _ _ Hs). unfold text. by rewrite <- E, <- (sextets_length bs), <- E.
  - intros E. unfold text in E.
    destruct (spells_unique (digit_in alphabet) cs (map (char_of alphabet) (sextets bs')) ds (sextets bs') rest
                (padding pad (sextet_count (length bs')))) as (-> & -> & ->); [done|done| |done| |].
    + apply (spells_chars alphabet pad); [done|apply sextets_ok].
    + destruct pad as [p|]; cbn [padding]; [|done]. destruct ((4 - _ mod 4) mod 4)%nat; [done|]. by apply (decodes_pad _ _ Hd p).
    + assert (bs' = bs) as -> by (by apply (unpacked_unique (sextets bs') bs acc k)).
      split; [split; [done|by rewrite sextets_length]|].
      rewrite sextets_length in Hexact. specialize (Hexact bs eq_refl eq_refl).
      unfold copy_at. rewrite drop_ge by lia. cbn [take]. by rewrite app_nil_r.
Qed.

Lemma standard_alphabet_ok : alphabet_ok STANDARD_ALPHABET_CHARS (Some (ch "=")).
Proof.
  constructor; [done|apply str_ok|by apply (bool_decide_unpack _); vm_compute|].
  intros p [= <-]. split; [done|]. by apply (bool_decide_unpack _); vm_compute.
Qed.

Lemma codec_canonical_witness :
  alphabet_ok STANDARD_ALPHABET_CHARS (Some (ch "=")) /\ text STANDARD_ALPHABET_CHARS (Some (ch "=")) (str "fooba") = str "Zm9vYmE=" /\
  encode (codec_encoder STANDARD) (replicate 8 0) (str "fooba") = Ok (str "Zm9vYmE=").
Proof.
  split; [exact standard_alphabet_ok|]. split; [reflexivity|].
  destruct (codec_canonical STANDARD_ALPHABET_CHARS (Some (ch "=")) standard_alphabet_ok) as (H & _).
  apply (H (replicate 8 0) (str "fooba")); [apply str_ok|by vm_compute; lia].
Defined.

(** ** The lenient decoder *)

(** The whole bytes that the digits [ds] spell. *)
Definition whole_bytes (ds : list Z) : bytes :=
  let k := (6 * Z.of_nat (length ds)) in digits 256 (Z.to_nat (k / 8)) (radix_value 64 0 ds / 2 ^ (k mod 8)).

Lemma unpacked_whole_bytes (ds : list Z) bs acc n :
  unpacked (radix_value 64 0 ds) (6 * Z.of_nat (length ds)) bs acc n -> bs = whole_bytes ds.
Proof.
  intros (Hbs & Hn & Hl & Hv). unfold whole_bytes.
  assert (H2 : 0 < 2 ^ n) by (apply Z.pow_pos_nonneg; lia). pose proof (Z.mod_pos_bound acc (2 ^ n) H2) as Ha.
  rewrite Hl, (Z.mul_comm 8), Z.div_add_l, Z.div_small, Z.add_0_r, Nat2Z.id by lia.
  rewrite (Z.add_comm (_ * 8)), Z.mod_add, (Z.mod_small n) by lia. rewrite Hv, Z.div_add_l, Z.div_small, Z.add_0_r by lia.
  symmetry. by apply digits_radix_value.
Qed.

Section lenient.
Context (di : Base64DecoderWithIgnore) (dgt : Z -> option Z) (Hd : decodes_with (decoder di) dgt).
Context (Hpad : pad_char (decoder di) = Some (ch "=")).
Context (Hskip : forall c, byte_ok c -> ignored di c = true -> dgt c = None /\ c <> ch "=").
(** Foreign characters are skipped. *)
Context (Hgarbage : ignored di INVALID_CHAR = true).

(** The digits before the padding. *)
Definition digits_before_pad (source : bytes) : list Z := omap dgt (until_pad source).

Lemma ignore_loop_ok source idx acc n dest w :
  bytes_ok source -> 0 <= acc -> 0 <= n < 8 -> (w <= length dest)%nat ->
  let ds := digits_before_pad source in
  exists bs acc' n', 0 <= acc' /\
    unpacked ((acc mod 2 ^ n) * 64 ^ Z.of_nat (length ds) + radix_value 64 0 ds) (n + 6 * Z.of_nat (length ds)) bs acc' n' /\
    if decide (w + length bs <= length dest)%nat
    then exists i, ignore_loop di source idx acc n dest w = Ok (inr (acc', n', copy_at dest w bs, (w + length bs)%nat, i)) /\
           (forall j, i = Some j -> (j <= idx + length source)%nat)
    else ignore_loop di source idx acc n dest w =
           Ok (inl (NoSpaceLeft, copy_at dest w (take (length dest - w) bs), length dest)).
Proof using Hd Hpad Hskip Hgarbage.
  intros Hs. revert idx acc n dest w. induction Hs as [|c source Hc Hs IH]; intros idx acc n dest w Hacc Hn Hw; cbn zeta in *.
  - exists [], acc, n. split; [done|]. split; [split; [constructor|]; cbn; lia|]. rewrite decide_True by (cbn; lia).
    exists None. split; [|done]. cbn [ignore_loop length]. by rewrite copy_at_nil, Nat.add_0_r.
  - cbn [ignore_loop]. unfold digits_before_pad at 1 2 3. cbn [until_pad].
    destruct (ignored di c) eqn:Hig.
    { destruct (Hskip c Hc Hig) as (Hnone & Hne). rewrite (proj2 (Z.eqb_neq c (ch "=")) Hne). cbn [omap list_omap]. rewrite Hnone.
      destruct (IH (idx + 1)%nat acc n dest w Hacc Hn Hw) as (bs & acc' & n' & Ha & Hu & Hres). exists bs, acc', n'.
      split; [done|]. split; [done|]. destruct (decide _); [|done]. destruct Hres as (i & -> & Hi). exists i. split; [done|].
      intros j E. specialize (Hi j E). cbn [length]. lia. }
    destruct (dgt c) as [x|] eqn:Hx.
    + destruct (digit_at (decoder di) dgt Hd c x Hx Hc) as (-> & Hinv). cbn [mbind outcome_bind]. rewrite Hinv.
      assert (Hne : c <> ch "=") by (intros ->; by rewrite (decodes_pad _ _ Hd _ Hpad) in Hx).
      rewrite (proj2 (Z.eqb_neq c (ch "=")) Hne). cbn [omap list_omap]. rewrite Hx.
      destruct (unpack_step acc n x Hacc Hn (decodes_digit _ _ Hd c x Hx)) as (H1 & Hkeep & Hemit).
      set (acc1 := wrap 16 (Z.shiftl acc 6) + x) in *. change (omap dgt (until_pad source)) with (digits_before_pad source).
      set (ds' := digits_before_pad source) in *.
      destruct (Z.leb_spec 8 (n + 6)) as [H8|H8].
      * destruct (Hemit H8) as (Hb & Hv). set (b := wrap 8 _) in *.
        replace (n + 6 * Z.of_nat (length (x :: ds'))) with (n + 6 - 8 + 8 + 6 * Z.of_nat (length ds')) by (cbn [length]; lia).
        destruct (Nat.eqb_spec w (length dest)) as [->|Hwd].
        -- destruct (IH (idx + 1)%nat acc1 (n + 6 - 8) dest (length dest) H1) as (bs & acc' & n' & Ha & Hu & _); [lia|lia|].
           exists (b :: bs), acc', n'. split; [done|]. split; [by apply (unpack_cons_emit _ _ _ _ _ _ _ _ _ Hv); [lia| |]|].
           rewrite decide_False by (cbn; lia). by rewrite Nat.sub_diag, take_0, copy_at_nil.
        -- rewrite store_at_ok by lia. cbn [mbind outcome_bind].
           destruct (IH (idx + 1)%nat acc1 (n + 6 - 8) (<[w := b]> dest) (w + 1)%nat H1) as (bs & acc' & n' & Ha & Hu & Hres);
             [lia|rewrite length_insert; lia|].
           exists (b :: bs), acc', n'. split; [done|]. split; [by apply (unpack_cons_emit _ _ _ _ _ _ _ _ _ Hv); [lia| |]|].
           rewrite length_insert in Hres. cbn [length]. destruct (decide (w + 1 + length bs <= length dest)%nat).
           ++ rewrite decide_True by lia. destruct Hres as (i & -> & Hi). exists i. rewrite copy_at_cons by lia.
              split; [by replace (w + S (length bs))%nat with (w + 1 + length bs)%nat by lia|]. intros j E. specialize (Hi j E). lia.
           ++ rewrite decide_False by lia. rewrite Hres, copy_at_cons by lia.
              replace (length dest - w)%nat with (S (length dest - (w + 1))) by lia. done.
      * replace (n + 6 * Z.of_nat (length (x :: ds'))) with (n + 6 + 6 * Z.of_nat (length ds')) by (cbn [length]; lia).
        destruct (IH (idx + 1)%nat acc1 (n + 6) dest w H1) as (bs & acc' & n' & Ha & Hu & Hres); [lia|lia|].
        exists bs, acc', n'. split; [done|].
        split; [apply (unpack_cons_keep _ _ _ _ _ _ _ _ eq_refl); by rewrite <- Hkeep|].
        destruct (decide _); [|done]. destruct Hres as (i & -> & Hi). exists i. split; [done|].
        intros j E. specialize (Hi j E). cbn [length]. lia.
    + rewrite (digit_at_None (decoder di) dgt Hd c Hx Hc). cbn [mbind outcome_bind]. rewrite Z.eqb_refl, Hpad.
      destruct (Z.eqb_spec c (ch "=")) as [->|Hne].
      * rewrite bool_decide_true by done. cbn [omap list_omap length]. exists [], acc, n. split; [done|].
        split; [split; [constructor|]; cbn; lia|]. rewrite decide_True by (cbn; lia). exists (Some idx).
        split; [by rewrite copy_at_nil, Nat.add_0_r|]. intros j [= <-]. lia.
      * rewrite bool_decide_false by congruence. rewrite Hgarbage. cbn [omap list_omap]. rewrite Hx.
        destruct (IH (idx + 1)%nat acc n dest w Hacc Hn Hw) as (bs & acc' & n' & Ha & Hu & Hres). exists bs, acc', n'.
        split; [done|]. split; [done|]. destruct (decide _); [|done]. destruct Hres as (i & -> & Hi). exists i. split; [done|].
        intros j E. specialize (Hi j E). cbn [length]. lia.
Qed.

Lemma ignore_decode_ok dest source :
  bytes_ok source ->
  let bs := whole_bytes (digits_before_pad source) in
  exists r, ignore_decode di dest source = Ok (r, copy_at dest 0 (take (length dest) bs), Nat.min (length dest) (length bs)) /\
    (r = Some NoSpaceLeft <-> (length dest < length bs)%nat).
Proof using Hd Hpad Hskip Hgarbage.
  intros Hs. cbn zeta. unfold ignore_decode.
  destruct (ignore_loop_ok source 0 0 0 dest 0 Hs) as (bs & acc & n & Ha & Hu & Hres); [lia|lia|lia|].
  rewrite Z.mod_0_l, Z.mul_0_l, !Z.add_0_l in Hu by done. rewrite <- (unpacked_whole_bytes _ _ _ _ Hu). cbn [Nat.add] in Hres.
  destruct (decide (length bs <= length dest)%nat) as [Hle|Hgt].
  - destruct Hres as (i & -> & Hi). cbn [mbind outcome_bind]. rewrite take_ge, Nat.min_r by done. rewrite Hpad.
    destruct (bad_tail acc n); [eexists; split; [done|]; split; [done|lia]|].
    destruct i as [j|].
    + rewrite slice_from_ok by (specialize (Hi j eq_refl); lia). cbn [mbind outcome_bind]. eexists. split; [done|].
      split; [|lia]. unfold check_padding. destruct (count_padding _ _ _ _) eqn:Ec; [by destruct (_ =? _)|].
      intros [= ->]. exfalso. revert Ec. generalize 0%nat. induction (drop j source) as [|c l IHl]; intros k; [done|]. cbn [count_padding].
      destruct (ignored di c); [apply IHl|]. destruct (negb _); [by destruct (_ =? _)|apply IHl].
    + eexists. split; [done|]. split; [by destruct (_ <? _)|lia].
  - rewrite Hres. cbn [mbind outcome_bind]. rewrite Nat.sub_0_r, Nat.min_l by lia. eexists. split; [done|]. split; [lia|done].
Qed.
End lenient.

(** The digits of both alphabets. *)
Definition mixed_digit (c : Z) : option Z :=
  match digit_in STANDARD_ALPHABET_CHARS c with
  | Some x => Some x
  | None => if c =? ch "-" then Some 62 else if c =? ch "_" then Some 63 else None
  end.

Lemma mixed_decodes : decodes_with (decoder MIXED_DECODER) mixed_digit.
Proof.
  constructor.
  - intros c Hc.
    pose (P c := bool_decide (char_to_index (decoder MIXED_DECODER) !! Z.to_nat c = Some (default INVALID_CHAR (mixed_digit c)))).
    assert (H : P c = true) by (apply (all_bytes_spec P); [by vm_compute|done]). by apply bool_decide_eq_true in H.
  - intros c x. unfold mixed_digit. destruct (digit_in _ c) eqn:E.
    + intros [= <-]. apply digit_in_Some in E as [E _]. exact E.
    + destruct (c =? _); [intros [= <-]; lia|]. destruct (c =? _); [intros [= <-]; lia|done].
  - by intros p [= <-].
Qed.

Lemma mixed_skips c : byte_ok c -> ignored MIXED_DECODER c = true -> mixed_digit c = None /\ c <> ch "=".
Proof.
  intros Hc Hi.
  pose (P c := negb (ignored MIXED_DECODER c) || bool_decide (mixed_digit c = None /\ c <> ch "=")).
  assert (H : P c = true) by (apply (all_bytes_spec P); [by vm_compute|done]). unfold P in H.
  rewrite Hi in H. by apply bool_decide_eq_true in H.
Qed.

Lemma until_pad_length source : (length (until_pad source) <= length source)%nat.
Proof. induction source as [|c source IH]; cbn; [lia|]. destruct (c =? _); cbn; lia. Qed.

Lemma until_pad_at source i : source !! i = Some (ch "=") -> (length (until_pad source) <= i)%nat.
Proof.
  revert i. induction source as [|c source IH]; intros i Hi; [done|]. cbn [until_pad].
  destruct (Z.eqb_spec c (ch "=")); [cbn; lia|]. destruct i as [|i]; [cbn in Hi; congruence|]. cbn. specialize (IH i Hi). lia.
Qed.

Lemma omap_length (f : Z -> option Z) (l : list Z) : (length (omap f l) <= length l)%nat.
Proof. induction l as [|x l IH]; [done|]. cbn. destruct (f x); cbn; lia. Qed.

Lemma whole_bytes_length ds : length (whole_bytes ds) = (6 * length ds / 8)%nat.
Proof.
  unfold whole_bytes. rewrite digits_length, Z2Nat.inj_div by lia. f_equal. lia.
Qed.

(** [decode_len] is enough for what the lenient decoder writes, for any source. *)
Lemma decode_len_enough source n :
  decode_len source = Ok n -> (length (whole_bytes (digits_before_pad mixed_digit source)) <= n)%nat.
Proof.
  set (ds := digits_before_pad mixed_digit source). unfold decode_len. intros Hn. rewrite whole_bytes_length.
  assert (Hk : (length ds <= length (until_pad source))%nat) by apply omap_length.
  pose proof (until_pad_length source) as Hu. pose proof (Nat.div_mod_eq (length source) 4) as Hq.
  pose proof (Nat.mod_upper_bound (length source) 4). set (q := (length source / 4)%nat) in *.
  enough (6 * length ds < 8 * S n)%nat by (apply Nat.lt_succ_r, Nat.Div0.div_lt_upper_bound; lia).
  destruct (Nat.eqb_spec (length source mod 4) 0) as [E|E].
  - rewrite (calc_size_padded _ source (ch "=") q) in Hn by (done || lia). cbn [mbind outcome_bind] in Hn.
    assert (n = (3 * q - pad_at source (ch "=") 1 - pad_at source (ch "=") 2)%nat) as -> by congruence. clear Hn.
    unfold pad_at. pose proof (until_pad_at source (length source - 1)) as H1. pose proof (until_pad_at source (length source - 2)) as H2.
    destruct (Nat.leb_spec 1 (length source)); destruct (Nat.leb_spec 2 (length source)); cbn [andb]; try lia;
      repeat case_bool_decide; try specialize (H1 ltac:(done)); try specialize (H2 ltac:(done)); lia.
  - unfold calc_size_for_slice, calc_size_upper_bound in Hn. cbn [codec_decoder STANDARD decoder_init pad_char] in Hn.
    rewrite Nat.Div0.mod_mod, (proj2 (Nat.eqb_neq _ _) E) in Hn. cbn [negb mbind outcome_bind] in Hn.
    assert (n = (q * 3 + 2)%nat) as -> by congruence. lia.
Qed.

Lemma decode_len_returns source : returns (decode_len source).
Proof.
  unfold decode_len, returns. destruct (Nat.eqb_spec (length source mod 4) 0) as [E|E].
  - rewrite (calc_size_padded _ source (ch "=") (length source / 4)) by (done || (pose proof (Nat.div_mod_eq (length source) 4); lia)).
    by eexists.
  - unfold calc_size_for_slice, calc_size_upper_bound. cbn [codec_decoder STANDARD decoder_init pad_char].
    rewrite Nat.Div0.mod_mod, (proj2 (Nat.eqb_neq _ _) E). by eexists.
Qed.

(** When the vectorised decoder refuses an input, the fallback decodes it leniently: it never
    panics, skips every byte outside the two alphabets, stops at the first padding character and writes
    the whole bytes spelled by the digits before it, cut to the destination, with [NoSpaceLeft] exactly
    when they do not fit; the vector that [decode_alloc] allocates is always large enough for them. *)
Theorem fallback_is_lenient (simd_decode : bytes -> bytes -> bool -> SIMDUTFResult * bytes) source :
  bytes_ok source ->
  (forall dest, successful (simd_decode source dest false).1 = false) ->
  (forall dest, length (simd_decode source dest false).2 = length dest) ->
  let bs := whole_bytes (digits_before_pad mixed_digit source) in
  (forall dest, exists r, ignore_decode MIXED_DECODER dest source =
     Ok (r, copy_at dest 0 (take (length dest) bs), Nat.min (length dest) (length bs)) /\
     (r = Some NoSpaceLeft <-> (length dest < length bs)%nat)) /\
  (exists r, decode_alloc simd_decode source = Ok r /\ forall out, r = Some out -> out = bs).
Proof.
  intros Hs Hfail Hlen bs.
  assert (Hdec := fun dest => ignore_decode_ok MIXED_DECODER mixed_digit mixed_decodes eq_refl mixed_skips eq_refl dest source Hs).
  split; [exact Hdec|]. unfold decode_alloc. destruct (decode_len_returns source) as [n Hn]. rewrite Hn. cbn [mbind outcome_bind].
  unfold top_decode. specialize (Hfail (replicate n 0)). specialize (Hlen (replicate n 0)).
  destruct (simd_decode source (replicate n 0) false) as [res dest]. cbn [fst snd] in *. rewrite Hfail. cbn [negb].
  destruct (Hdec dest) as (r & Hr & Hspace). fold bs in Hr, Hspace. rewrite Hr. cbn [mbind outcome_bind successful count].
  eexists. split; [done|]. rewrite length_replicate in Hlen. pose proof (decode_len_enough source n Hn) as Hbs. fold bs in Hbs.
  intros out. case_bool_decide; [|done]. intros E. injection E as <-. rewrite Nat.min_r, (take_ge bs) by lia.
  pose proof (copy_at_take dest 0 bs) as Ht. rewrite Nat.add_0_l in Ht. rewrite Ht by lia. done.
Qed.

(** A decoder that refuses everything stands for simdutf. *)
Lemma fallback_is_lenient_witness :
  bytes_ok (str "Zm9v*YmE_-") /\
  (exists r, ignore_decode MIXED_DECODER (replicate 6 0) (str "Zm9v*YmE_-") = Ok (r, str "fooba" ++ [63], 6%nat)) /\
  whole_bytes (digits_before_pad mixed_digit (str "Zm9v*YmE_-")) = str "fooba" ++ [63].
Proof.
  split; [apply str_ok|]. split; [|reflexivity].
  destruct (fallback_is_lenient (fun _ dest _ => (mkSimd false 0, dest)) (str "Zm9v*YmE_-")) as (H & _);
    [apply str_ok|done|done|].
  destruct (H (replicate 6 0)) as (r & Hr & _). exists r. rewrite Hr. reflexivity.
Defined.

(** The examples of the module's tests. *)
Example base64_tests :
  decode (codec_decoder STANDARD) (replicate 4 0) (str "Zm9vYg==") = Ok (None, str "foob") /\
  decode (codec_decoder STANDARD) (replicate 3 0) (str "A..A") = Ok (Some InvalidCharacter, [0; 0; 0]) /\
  (exists dest, decode (codec_decoder STANDARD) (replicate 2 0) (str "AA/=") = Ok (Some InvalidPadding, dest)) /\
  (exists dest, ignore_decode (standard_base64_decoder_with_ignore (str " ")) (replicate 5 0) (str "Zm9v YmE=") =
     Ok (None, dest, 5%nat)) /\
  (exists dest, ignore_decode (standard_base64_decoder_with_ignore (str " ")) (replicate 3 0) (str "AAAAAA==") =
     Ok (Some NoSpaceLeft, dest, 3%nat)).
Proof. repeat split; by eexists. Qed.
