(* ===== verification/Vlq.v ===== *)
(** * Variable-length quantities of source maps ([base64/lib.rs], module [vlq])

    A 32-bit integer is written as its sign and magnitude in base-64 digits of five bits, least
    significant first, bit 32 marking continuation.  The encoder writes at most seven bytes; the
    decoder reads at most eight. *)

From S2P Require Import Prelude Strings Base64.

Definition VLQ_MAX_IN_BYTES : nat := 7.

Record VLQ := mkVLQ { bytes_of : bytes; vlq_len : nat }.
Record VLQResult := mkResult { value : Z; start : nat }.

Definition VLQ_default : VLQ := mkVLQ (replicate VLQ_MAX_IN_BYTES 0) 0.

Definition slice (v : VLQ) : outcome bytes := slice_range (bytes_of v) 0 (vlq_len v).

Definition BASE64 : bytes := STANDARD_ALPHABET_CHARS.

(** [value as i32] of a 32-bit word. *)
Definition as_i32 (x : Z) : Z := if x <? 2 ^ 31 then x else x - 2 ^ 32.

(** The loop of [encode_slow_path]; [iter] rounds are left. *)
Fixpoint encode_loop (iter : nat) (vlq : Z) (bytes : bytes) (len : nat) : outcome VLQ :=
  match iter with
  | O => Ok (mkVLQ bytes 0)
  | S iter =>
      let digit := Z.land vlq 31 in
      let vlq := Z.shiftr vlq 5 in
      let digit := if negb (vlq =? 0) then Z.lor digit 32 else digit in
      c ← index_at BASE64 (Z.to_nat digit);
      bytes ← store_at bytes len c;
      if vlq =? 0 then Ok (mkVLQ bytes (len + 1)) else encode_loop iter vlq bytes (len + 1)
  end.

Definition encode_slow_path (value : Z) : outcome VLQ :=
  let vlq := if 0 <=? value then wrap 32 (Z.shiftl value 1) else Z.lor (wrap 32 (Z.shiftl (Z.abs value) 1)) 1 in
  encode_loop VLQ_MAX_IN_BYTES vlq (replicate VLQ_MAX_IN_BYTES 0) 0.

Definition VLQ_LOOKUP_TABLE : list (outcome VLQ) := map (fun j => encode_slow_path (Z.of_nat j)) (seq 0 256).

Definition encode (value : Z) : outcome VLQ :=
  if (0 <=? value) && (value <=? 255)
  then match VLQ_LOOKUP_TABLE !! Z.to_nat value with Some v => v | None => Panic end
  else encode_slow_path value.

Definition ZERO : outcome VLQ := match VLQ_LOOKUP_TABLE !! 0%nat with Some v => v | None => Panic end.

Definition U7_MAX : Z := 127.

(** The loop of the constant's initialiser is that of [index_chars]. *)
Definition BASE64_LUT : bytes := index_chars (replicate 128 U7_MAX) 0 BASE64.

Fixpoint decode_loop (encoded : bytes) (i : nat) (start : nat) (shift vlq : Z) : outcome VLQResult :=
  match encoded with
  | [] => Ok (mkResult 0 start)
  | c :: encoded =>
      index ← index_at BASE64_LUT (Z.to_nat (Z.land c 127));
      let vlq := Z.lor vlq (wrap 32 (Z.shiftl (Z.land index 31) (Z.land shift 31))) in
      let shift := wrap 8 (shift + 5) in
      if Z.land index 32 =? 0
      then Ok (mkResult (if Z.land vlq 1 =? 0 then as_i32 (Z.shiftr vlq 1) else - as_i32 (Z.shiftr vlq 1)) (start + i + 1))
      else decode_loop encoded (i + 1) start shift vlq
  end.

(** [decode]; [decode_assume_valid] differs by debug assertions. *)
Definition decode (encoded : bytes) (start : nat) : outcome VLQResult :=
  rest ← slice_from encoded start;
  rest ← slice_range rest 0 (Nat.min (length encoded - start) (VLQ_MAX_IN_BYTES + 1));
  decode_loop rest 0 start 0 0.

(** ** The digits of a quantity *)

(** Five bits a digit, the least significant first; all but the last are marked. *)
Fixpoint groups (n : nat) (u : Z) : list Z :=
  match n with
  | O => []
  | S n => if u / 32 =? 0 then [u] else u mod 32 + 32 :: groups n (u / 32)
  end.

Notation chr := (char_of BASE64).

Lemma groups_length n u : (length (groups n u) <= n)%nat.
Proof. revert u. induction n as [|n IH]; intros u; cbn; [lia|]. destruct (_ =? 0); cbn; [lia|]. specialize (IH (u / 32)). lia. Qed.

Lemma groups_digits n u : 0 <= u -> digits_ok 64 (groups n u).
Proof.
  revert u. induction n as [|n IH]; intros u Hu; cbn; [constructor|].
  pose proof (Z.div_mod u 32). pose proof (Z.mod_pos_bound u 32 eq_refl).
  destruct (Z.eqb_spec (u / 32) 0); constructor; try lia; [constructor|]. apply IH, Z.div_pos; lia.
Qed.

Lemma base64_at g : 0 <= g < 64 -> index_at BASE64 (Z.to_nat g) = Ok (chr g).
Proof.
  intros Hg. apply index_at_ok. unfold char_of.
  destruct (lookup_lt_is_Some_2 BASE64 (Z.to_nat g)) as [c Hc]; [change (length BASE64) with 64%nat; lia|].
  by rewrite Hc, (nth_lookup_Some _ _ 0 _ Hc).
Qed.

Lemma groups_S n u : groups (S n) u = if u / 32 =? 0 then [u] else u mod 32 + 32 :: groups n (u / 32).
Proof. done. Qed.

Lemma encode_digit u : 0 <= u -> u / 32 <> 0 -> Z.lor (Z.land u 31) 32 = u mod 32 + 32.
Proof.
  intros Hu _. rewrite (land_ones_mod u 31 5), Z.lor_comm by done. pose proof (Z.mod_pos_bound u (2 ^ 5) eq_refl).
  rewrite (lor_high_add 32 (u mod 2 ^ 5) 5 1) by (done || lia). apply Z.add_comm.
Qed.

(** A round of the encoder. *)
Lemma encode_loop_round n u bs len :
  0 <= u -> (len < length bs)%nat ->
  encode_loop (S n) u bs len =
    if u / 32 =? 0 then Ok (mkVLQ (<[len := chr u]> bs) (len + 1))
    else encode_loop n (u / 32) (<[len := chr (u mod 32 + 32)]> bs) (len + 1).
Proof.
  intros Hu Hl. cbn [encode_loop]. rewrite Z.shiftr_div_pow2 by done. change (2 ^ 5) with 32.
  pose proof (Z.mod_pos_bound u 32 eq_refl). pose proof (Z.div_mod u 32 ltac:(done)).
  destruct (Z.eqb_spec (u / 32) 0) as [E|E]; cbn [negb].
  - rewrite (land_ones_mod u 31 5), Z.mod_small by (done || lia). rewrite base64_at by lia. cbn [mbind outcome_bind].
    by rewrite store_at_ok by lia.
  - rewrite encode_digit, base64_at by lia. cbn [mbind outcome_bind]. by rewrite store_at_ok by lia.
Qed.

Lemma vlq_encode_loop_ok n u bs len :
  0 <= u < 32 ^ Z.of_nat (S n) -> (len + S n <= length bs)%nat ->
  encode_loop (S n) u bs len =
    Ok (mkVLQ (copy_at bs len (map chr (groups (S n) u))) (len + length (groups (S n) u))).
Proof.
  revert u bs len. induction n as [|n IH]; intros u bs len Hu Hl; rewrite encode_loop_round, groups_S by lia;
    rewrite Nat2Z.inj_succ, Z.pow_succ_r in Hu by lia; destruct (Z.eqb_spec (u / 32) 0) as [E|E];
    try (cbn [map length]; by rewrite <- copy_at_cons, copy_at_nil by lia).
  - rewrite Z.div_small in E by (cbn in Hu; lia). done.
  - rewrite IH; [|split; [apply Z.div_pos; lia|apply Z.div_lt_upper_bound; lia]|rewrite length_insert; lia].
    rewrite copy_at_cons by lia. set (g := groups (S n) (u / 32)). cbn [map length].
    by replace (len + S (length g))%nat with (len + 1 + length g)%nat by lia.
Qed.

Lemma lut_at g : 0 <= g < 64 -> index_at BASE64_LUT (Z.to_nat (Z.land (chr g) 127)) = Ok g.
Proof.
  intros Hg. pose (P i := bool_decide (index_at BASE64_LUT (Z.to_nat (Z.land (chr (Z.of_nat i)) 127)) = Ok (Z.of_nat i))).
  assert (H : forallb P (seq 0 64) = true) by by vm_compute.
  rewrite forallb_forall in H. specialize (H (Z.to_nat g)). unfold P in H. rewrite Z2Nat.id in H by lia.
  specialize (H ltac:(apply in_seq; lia)). by apply bool_decide_eq_true in H.
Qed.

(** The sign is the lowest bit. *)
Definition signed (T : Z) : Z := if T mod 2 =? 0 then T / 2 else - (T / 2).

Lemma signed_code T :
  0 <= T < 2 ^ 32 -> (if Z.land T 1 =? 0 then as_i32 (Z.shiftr T 1) else - as_i32 (Z.shiftr T 1)) = signed T.
Proof.
  intros HT. rewrite (land_ones_mod T 1 1), Z.shiftr_div_pow2 by done. change (2 ^ 1) with 2. unfold signed, as_i32.
  assert (T / 2 < 2 ^ 31) by (apply Z.div_lt_upper_bound; lia). by rewrite (proj2 (Z.ltb_lt _ _)).
Qed.

(** A round of the decoder on the digit [g]. *)
Lemma decode_loop_round g rest i st j acc :
  0 <= g < 64 -> 0 <= j <= 6 -> 0 <= acc < 2 ^ (5 * j) -> acc + (g mod 32) * 2 ^ (5 * j) < 2 ^ 32 ->
  decode_loop (chr g :: rest) i st (5 * j) acc =
    let acc := acc + (g mod 32) * 2 ^ (5 * j) in
    if g <? 32 then Ok (mkResult (signed acc) (st + i + 1)) else decode_loop rest (i + 1) st (5 * (j + 1)) acc.
Proof.
  intros Hg Hj Hacc HT. cbn [decode_loop]. rewrite lut_at by done. cbn [mbind outcome_bind]. cbn zeta.
  pose proof (Z.mod_pos_bound g 32 eq_refl). pose proof (Z.div_mod g 32 ltac:(done)).
  rewrite (land_ones_mod g 31 5), (land_ones_mod (5 * j) 31 5) by done. change (2 ^ 5) with 32. rewrite (Z.mod_small (5 * j)) by lia.
  assert (0 < 2 ^ (5 * j)) by (apply Z.pow_pos_nonneg; lia).
  assert (Hlor : Z.lor acc (wrap 32 (Z.shiftl (g mod 32) (5 * j))) = acc + g mod 32 * 2 ^ (5 * j)).
  { unfold wrap. rewrite Z.shiftl_mul_pow2 by lia. rewrite Z.mod_small by nia. rewrite Z.lor_comm, <- Z.shiftl_mul_pow2 by lia.
    rewrite lor_shiftl_add, ?Z.shiftl_mul_pow2 by lia. lia. }
  rewrite Hlor, signed_code by (split; [apply Z.add_nonneg_nonneg; [lia|apply Z.mul_nonneg_nonneg; lia]|done]).
  replace (wrap 8 (5 * j + 5)) with (5 * (j + 1)) by (unfold wrap; rewrite Z.mod_small by lia; lia).
  assert (Hbit : (Z.land g 32 =? 0) = (g <? 32)).
  { pose (P i := Bool.eqb (Z.land (Z.of_nat i) 32 =? 0) (Z.of_nat i <? 32)).
    assert (HP : forallb P (seq 0 64) = true) by by vm_compute.
    rewrite forallb_forall in HP. specialize (HP (Z.to_nat g)). unfold P in HP. rewrite Z2Nat.id in HP by lia.
    apply Bool.eqb_prop, HP, in_seq. lia. }
  by rewrite Hbit.
Qed.

Lemma decode_loop_groups n u rest i st j acc :
  0 <= u < 32 ^ Z.of_nat (S n) -> 0 <= j <= 6 -> 0 <= acc < 2 ^ (5 * j) -> acc + u * 2 ^ (5 * j) < 2 ^ 32 ->
  decode_loop (map chr (groups (S n) u) ++ rest) i st (5 * j) acc =
    Ok (mkResult (signed (acc + u * 2 ^ (5 * j))) (st + i + length (groups (S n) u))).
Proof.
  revert u i j acc. induction n as [|n IH]; intros u i j acc Hu Hj Hacc HT; rewrite groups_S;
    rewrite Nat2Z.inj_succ, Z.pow_succ_r in Hu by lia;
    pose proof (Z.mod_pos_bound u 32 eq_refl); pose proof (Z.div_mod u 32 ltac:(done));
    (assert (H2 : 0 < 2 ^ (5 * j)) by (apply Z.pow_pos_nonneg; lia));
    destruct (Z.eqb_spec (u / 32) 0) as [E|E].
  1, 3: cbn [map app length]; rewrite decode_loop_round by (rewrite ?(Z.mod_small u 32); lia);
    rewrite (Z.mod_small u 32) by lia; cbn zeta; by rewrite (proj2 (Z.ltb_lt u 32)) by lia.
  - rewrite Z.div_small in E by (cbn in Hu; lia). done.
  - assert (Hmod : (u mod 32 + 32) mod 32 = u mod 32).
    { rewrite <- (Z.mul_1_l 32) at 2. by rewrite Z.mod_add, Z.mod_mod. }
    assert (Hq : 0 <= u / 32 < 32 ^ Z.of_nat (S n)) by (split; [apply Z.div_pos; lia|apply Z.div_lt_upper_bound; lia]).
    assert (Hpow : 2 ^ (5 * (j + 1)) = 32 * 2 ^ (5 * j)).
    { replace (5 * (j + 1)) with (5 + 5 * j) by lia. by rewrite Z.pow_add_r by lia. }
    assert (Hsum : acc + u mod 32 * 2 ^ (5 * j) + u / 32 * 2 ^ (5 * (j + 1)) = acc + u * 2 ^ (5 * j)) by (rewrite Hpow; nia).
    assert (Hj1 : j + 1 <= 6).
    { destruct (decide (j + 1 <= 6)); [done|]. assert (j = 6) as -> by lia. change (2 ^ (5 * 6)) with 1073741824 in *. nia. }
    set (gs := groups (S n) (u / 32)) in *. cbn [map app length]. rewrite decode_loop_round; [|lia|lia|done|rewrite Hmod; nia].
    cbn zeta. rewrite (proj2 (Z.ltb_ge _ _)), Hmod by lia. unfold gs in *.
    rewrite IH; [|done|lia|rewrite Hpow; nia|rewrite Hsum; done]. rewrite Hsum. do 2 f_equal. lia.
Qed.

(** ** Encoding a 32-bit integer *)

(** The sign-magnitude word of [value]; the magnitude of [i32::MIN] does not fit and is lost. *)
Definition word_of (value : Z) : Z := if 0 <=? value then 2 * value else wrap 32 (2 * Z.abs value) + 1.

Lemma word_of_bound value : - 2 ^ 31 <= value < 2 ^ 31 -> 0 <= word_of value < 2 ^ 32.
Proof.
  intros Hv. unfold word_of, wrap. destruct (Z.leb_spec 0 value); [lia|].
  destruct (decide (value = - 2 ^ 31)) as [->|]; [done|]. rewrite Z.mod_small; lia.
Qed.

Lemma signed_word value :
  - 2 ^ 31 <= value < 2 ^ 31 -> signed (word_of value) = if value =? - 2 ^ 31 then 0 else value.
Proof.
  intros Hv. unfold word_of, signed, wrap. destruct (Z.leb_spec 0 value) as [H|H].
  - rewrite (Z.mul_comm 2), Z.mod_mul, Z.div_mul by done. cbn [Z.eqb]. destruct (Z.eqb_spec value (- 2 ^ 31)); [lia|done].
  - destruct (Z.eqb_spec value (- 2 ^ 31)) as [->|Hne]; [done|]. rewrite (Z.mod_small (2 * _)) by lia.
    rewrite (Z.mul_comm 2), (Z.add_comm _ 1), Z.mod_add, Z.div_add by done.
    change (1 mod 2 =? 0) with false. change (1 / 2) with 0. cbv iota. lia.
Qed.

Definition vlq_digits (value : Z) : list Z := groups 7 (word_of value).

Lemma encode_slow_path_ok value :
  - 2 ^ 31 <= value < 2 ^ 31 ->
  encode_slow_path value =
    Ok (mkVLQ (copy_at (replicate VLQ_MAX_IN_BYTES 0) 0 (map chr (vlq_digits value))) (length (vlq_digits value))).
Proof.
  intros Hv. unfold encode_slow_path, vlq_digits. pose proof (word_of_bound value Hv) as Hw.
  assert (E : (if 0 <=? value then wrap 32 (Z.shiftl value 1) else Z.lor (wrap 32 (Z.shiftl (Z.abs value) 1)) 1) = word_of value).
  { unfold word_of. rewrite !Z.shiftl_mul_pow2 by done. change (2 ^ 1) with 2. rewrite (Z.mul_comm value), (Z.mul_comm (Z.abs value)).
    destruct (Z.leb_spec 0 value); [unfold wrap; by rewrite Z.mod_small by lia|].
    unfold wrap. destruct (decide (value = - 2 ^ 31)) as [->|]; [done|]. rewrite Z.mod_small by lia.
    rewrite (Z.mul_comm 2). change 2 with (2 ^ 1). rewrite <- Z.shiftl_mul_pow2 by done. rewrite lor_shiftl_add by done.
    by rewrite Z.shiftl_mul_pow2. }
  rewrite E. rewrite (vlq_encode_loop_ok 6 (word_of value)); [done|split; [lia|]|done]. etrans; [apply Hw|]. done.
Qed.

Lemma encode_slow value : - 2 ^ 31 <= value < 2 ^ 31 -> encode value = encode_slow_path value.
Proof.
  intros Hv. unfold encode. destruct (Z.leb_spec 0 value); [|done]. destruct (Z.leb_spec value 255); [|done]. cbn [andb].
  unfold VLQ_LOOKUP_TABLE. rewrite list_lookup_fmap, lookup_seq_lt by lia. cbn [fmap option_fmap option_map Nat.add].
  by rewrite Z2Nat.id.
Qed.

Lemma slice_ok value :
  - 2 ^ 31 <= value < 2 ^ 31 -> (v ← encode value; slice v) = Ok (map chr (vlq_digits value)).
Proof.
  intros Hv. rewrite encode_slow, encode_slow_path_ok by done. cbn [mbind outcome_bind]. unfold slice. cbn [vlq_len bytes_of].
  pose proof (groups_length 7 (word_of value)) as Hl. fold (vlq_digits value) in Hl.
  rewrite slice_range_ok by (rewrite copy_at_length; rewrite ?length_map, ?length_replicate; unfold VLQ_MAX_IN_BYTES; lia).
  rewrite drop_0, Nat.sub_0_r. f_equal. rewrite <- (length_map chr (vlq_digits value)) at 1.
  rewrite <- (Nat.add_0_l (length (map _ _))). rewrite copy_at_take; [done|]. rewrite length_map, length_replicate. unfold VLQ_MAX_IN_BYTES. lia.
Qed.

Lemma decode_at pre s :
  decode (pre ++ s) (length pre) = decode_loop (take (VLQ_MAX_IN_BYTES + 1) s) 0 (length pre) 0 0.
Proof.
  unfold decode. rewrite slice_from_ok by (rewrite length_app; lia). cbn [mbind outcome_bind]. rewrite drop_app_length.
  rewrite slice_range_ok by (rewrite length_app; lia). cbn [mbind outcome_bind]. rewrite drop_0, Nat.sub_0_r, length_app.
  replace (length pre + length s - length pre)%nat with (length s) by lia. f_equal.
  destruct (decide (length s <= VLQ_MAX_IN_BYTES + 1)%nat); [rewrite Nat.min_l, !take_ge by lia; done|by rewrite Nat.min_r by lia].
Qed.

(** (C35) Every 32-bit integer is written in one to seven base-64 characters, through the table or not, and
    decoding at its place in any text gives the integer back and the index behind it, whatever comes
    before and after, so that a list of quantities can be read back one after the other.  Only
    [i32::MIN], whose magnitude does not fit, is read back as zero. *)
Theorem vlq_roundtrip val pre post :
  - 2 ^ 31 <= val < 2 ^ 31 ->
  exists v s, encode val = Ok v /\ slice v = Ok s /\ (1 <= length s <= 7)%nat /\ Forall (fun c => c ∈ BASE64) s /\
    decode (pre ++ s ++ post) (length pre) =
      Ok (mkResult (if val =? - 2 ^ 31 then 0 else val) (length pre + length s)).
Proof.
  intros Hv. pose proof (slice_ok val Hv) as Hs. apply outcome_bind_Ok in Hs as (v & Henc & Hs).
  exists v, (map chr (vlq_digits val)). split; [done|]. split; [done|]. rewrite length_map.
  pose proof (groups_length 7 (word_of val)) as Hl. fold (vlq_digits val) in Hl. pose proof (word_of_bound val Hv) as Hw.
  assert (H1 : (1 <= length (vlq_digits val))%nat) by (unfold vlq_digits; rewrite groups_S; destruct (_ =? 0); cbn; lia).
  split; [lia|]. split.
  - apply Forall_fmap. eapply list.Forall_impl; [apply groups_digits; lia|]. intros g Hg. cbn.
    pose proof (base64_at g Hg) as E. unfold index_at in E. destruct (BASE64 !! Z.to_nat g) eqn:Eg; [|done]. injection E as ->.
    by eapply list_elem_of_lookup_2.
  - rewrite decode_at, take_app_ge by (rewrite length_map; unfold VLQ_MAX_IN_BYTES; lia). unfold vlq_digits.
    rewrite (decode_loop_groups 6 _ _ 0 _ 0 0); [|split; [lia|etrans; [apply Hw|done]]|lia|done|lia].
    rewrite Z.add_0_l, Z.mul_1_r, signed_word, Nat.add_0_r by done. done.
Qed.

Lemma vlq_roundtrip_witness :
  - 2 ^ 31 <= - 255 < 2 ^ 31 /\ exists v s, encode (- 255) = Ok v /\ slice v = Ok s /\ decode (str "AC" ++ s ++ str "A") 2 = Ok (mkResult (- 255) 4).
Proof.
  split; [lia|]. destruct (vlq_roundtrip (- 255) (str "AC") (str "A") ltac:(lia)) as (v & s & Hv & Hs & _ & _ & Hd).
  exists v, s. split; [exact Hv|]. split; [exact Hs|].
  assert (E : s = str "/P") by (vm_compute in Hv; injection Hv as <-; vm_compute in Hs; injection Hs as <-; reflexivity).
  rewrite E in *. exact Hd.
Defined.

(** ** Decoding anything *)

Lemma lor_bound a b n : 0 <= n -> 0 <= a < 2 ^ n -> 0 <= b < 2 ^ n -> 0 <= Z.lor a b < 2 ^ n.
Proof.
  intros Hn Ha Hb. split; [apply Z.lor_nonneg; lia|].
  destruct (Z.eq_dec a 0) as [->|]; [rewrite Z.lor_0_l; lia|]. destruct (Z.eq_dec b 0) as [->|]; [rewrite Z.lor_0_r; lia|].
  assert (0 < Z.lor a b) by (pose proof (Z.lor_nonneg a b); destruct (Z.eq_dec (Z.lor a b) 0) as [E|]; [apply Z.lor_eq_0_iff in E; lia|lia]).
  apply Z.log2_lt_pow2; [done|]. rewrite Z.log2_lor by lia. apply Z.max_lub_lt; apply Z.log2_lt_pow2; lia.
Qed.

(** The byte has no continuation bit. *)
Definition ends (c : Z) : bool := Z.land (nth (Z.to_nat (Z.land c 127)) BASE64_LUT 0) 32 =? 0.

Lemma lut_total c : exists g, index_at BASE64_LUT (Z.to_nat (Z.land c 127)) = Ok g /\ nth (Z.to_nat (Z.land c 127)) BASE64_LUT 0 = g.
Proof.
  rewrite (land_ones_mod c 127 7) by done. pose proof (Z.mod_pos_bound c (2 ^ 7) eq_refl) as Hc. change (2 ^ 7) with 128 in *.
  destruct (lookup_lt_is_Some_2 BASE64_LUT (Z.to_nat (c mod 128))) as [g Hg]; [change (length BASE64_LUT) with 128%nat; lia|].
  exists g. split; [by apply index_at_ok|by apply nth_lookup_Some].
Qed.

Lemma signed_bound T : 0 <= T < 2 ^ 32 -> - 2 ^ 31 < signed T < 2 ^ 31.
Proof.
  intros HT. unfold signed. assert (0 <= T / 2 < 2 ^ 31) by (split; [apply Z.div_pos; lia|apply Z.div_lt_upper_bound; lia]).
  destruct (_ =? 0); lia.
Qed.

Lemma decode_loop_total s i st shift vlq :
  0 <= vlq < 2 ^ 32 ->
  exists r, decode_loop s i st shift vlq = Ok r /\ - 2 ^ 31 < value r < 2 ^ 31 /\
    match List.find ends s with
    | Some _ => (st + i < start r <= st + i + length s)%nat
    | None => start r = st /\ value r = 0
    end.
Proof.
  revert i shift vlq. induction s as [|c s IH]; intros i shift vlq Hv; cbn [decode_loop List.find].
  { exists (mkResult 0 st). done. }
  destruct (lut_total c) as (g & -> & Hg). cbn [mbind outcome_bind]. unfold ends at 1. rewrite Hg.
  set (vlq' := Z.lor vlq _). assert (Hv' : 0 <= vlq' < 2 ^ 32).
  { apply lor_bound; [done|done|]. by apply Z.mod_pos_bound. }
  destruct (Z.land g 32 =? 0).
  - eexists. split; [done|]. rewrite signed_code by done. cbn [value start]. split; [by apply signed_bound|]. cbn. lia.
  - destruct (IH (i + 1)%nat (wrap 8 (shift + 5)) vlq' Hv') as (r & -> & Hr & Hm). exists r. split; [done|]. split; [done|].
    destruct (List.find ends s); [cbn; lia|done].
Qed.

(** Decoding any bytes from any index of the slice returns: the value fits in 32 bits, at most eight
    bytes are read and none beyond the slice, and the index does not move exactly when none of the
    bytes read ends a quantity (truncated or overlong input).  An index beyond the slice panics. *)
Theorem vlq_decode_bounds encoded st :
  if (st <=? length encoded)%nat then
    exists r, decode encoded st = Ok r /\ - 2 ^ 31 < value r < 2 ^ 31 /\
      (st <= start r <= Nat.min (st + 8) (length encoded))%nat /\
      (start r = st <-> List.find ends (take 8 (drop st encoded)) = None)
  else decode encoded st = Panic.
Proof.
  destruct (Nat.leb_spec st (length encoded)) as [Hst|Hst].
  - assert (Hl : length (take st encoded) = st) by (rewrite length_take; lia).
    pose proof (decode_at (take st encoded) (drop st encoded)) as E. rewrite take_drop, Hl in E. rewrite E.
    change (VLQ_MAX_IN_BYTES + 1)%nat with 8%nat.
    destruct (decode_loop_total (take 8 (drop st encoded)) 0 st 0 0) as (r & -> & Hr & Hm); [lia|].
    exists r. split; [done|]. split; [done|]. rewrite length_take, length_drop in Hm.
    destruct (List.find ends _); [split; [lia|]; split; [lia|done]|]. destruct Hm as [-> _]. split; [lia|done].
  - unfold decode, slice_from. by rewrite decide_False by lia.
Qed.
