(* ===== verification/Valkey.v ===== *)
(** * The RESP protocol of Valkey ([valkey/valkey_protocol.rs])

    The tree parser of replies ([ValkeyReader]), the scanner that finds the end of a reply in a buffer
    that grows ([ReplyScanner]) and the serialisation of a command
    ([runtime/valkey_jsc/ValkeyCommand.rs]).  A reader operation returns its result and the reader it
    leaves, also on an error, since the scanner looks at the position of a failed read. *)

From S2P Require Import Prelude Strings.

(** ** Values *)

Inductive RedisError :=
  | AuthenticationFailed | ConnectionClosed | InvalidArgument | InvalidArray | InvalidAttribute | InvalidBigNumber
  | InvalidBlobError | InvalidBoolean | InvalidBulkString | InvalidCommand | InvalidDouble | InvalidErrorString
  | InvalidInteger | InvalidMap | InvalidNull | InvalidPush | InvalidResponse | InvalidResponseType | InvalidSet
  | InvalidSimpleString | InvalidVerbatimString | JSError | OutOfMemory | JSTerminated | UnsupportedProtocol
  | ConnectionTimeout | IdleTimeout | NestingDepthExceeded | LineTooLong.

#[export] Instance RedisError_eq_dec : EqDecision RedisError.
Proof. solve_decision. Defined.

Inductive RESPType :=
  | TSimpleString | TError | TInteger | TBulkString | TArray | TNull | TDouble | TBoolean | TBlobError
  | TVerbatimString | TMap | TSet | TAttribute | TPush | TBigNumber.

Definition RESPType_code (t : RESPType) : Z :=
  match t with
  | TSimpleString => ch "+" | TError => ch "-" | TInteger => ch ":" | TBulkString => ch "$" | TArray => ch "*"
  | TNull => ch "_" | TDouble => ch "," | TBoolean => ch "#" | TBlobError => ch "!" | TVerbatimString => ch "="
  | TMap => ch "%" | TSet => ch "~" | TAttribute => ch "|" | TPush => ch ">" | TBigNumber => ch "("
  end.

Definition RESPType_all : list RESPType :=
  [TSimpleString; TError; TInteger; TBulkString; TArray; TNull; TDouble; TBoolean; TBlobError; TVerbatimString;
   TMap; TSet; TAttribute; TPush; TBigNumber].

Definition RESPType_from_byte (byte : Z) : option RESPType :=
  List.find (fun t => byte =? RESPType_code t) RESPType_all.

Section values.
(** [f64] *)
Context (F : Type).

Inductive RESPValue :=
  | SimpleString (s : bytes)
  | Error (s : bytes)
  | Integer (i : Z)
  | BulkString (s : option bytes)
  | Array (l : list RESPValue)
  | Null
  | Double (d : F)
  | Boolean (b : bool)
  | BlobError (s : bytes)
  | VerbatimString (format content : bytes)
  | Map (entries : list (RESPValue * RESPValue))
  | Set_ (l : list RESPValue)
  | Attribute (attributes : list (RESPValue * RESPValue)) (value : RESPValue)
  | Push (kind : bytes) (data : list RESPValue)
  | BigNumber (s : bytes).
End values.
Arguments SimpleString {F} s.
Arguments Error {F} s.
Arguments Integer {F} i.
Arguments BulkString {F} s.
Arguments Array {F} l.
Arguments Null {F}.
Arguments Double {F} d.
Arguments Boolean {F} b.
Arguments BlobError {F} s.
Arguments VerbatimString {F} format content.
Arguments Map {F} entries.
Arguments Set_ {F} l.
Arguments Attribute {F} attributes value.
Arguments Push {F} kind data.
Arguments BigNumber {F} s.

(** ** The reader *)

Record ValkeyReader := mkReader { buffer : bytes; pos : nat; prealloc_budget : Z; crlf_skip : nat }.

(** [&mut self -> Result<A, RedisError>] *)
Definition reading (A : Type) : Type := ValkeyReader -> outcome ((A + RedisError) * ValkeyReader).

#[export] Instance reading_ret : MRet reading := fun A a r => Ok (inl a, r).
#[export] Instance reading_bind : MBind reading := fun A B f m r =>
  match m r with
  | Ok (inl a, r) => f a r
  | Ok (inr e, r) => Ok (inr e, r)
  | Panic => Panic
  | OutOfFuel => OutOfFuel
  end.

Definition fail {A} (e : RedisError) : reading A := fun r => Ok (inr e, r).
Definition gets {A} (f : ValkeyReader -> A) : reading A := fun r => Ok (inl (f r), r).
Definition lift {A} (m : outcome A) : reading A :=
  fun r => match m with Ok a => Ok (inl a, r) | Panic => Panic | OutOfFuel => OutOfFuel end.
Definition advance (n : nat) : reading unit :=
  fun r => Ok (inl tt, mkReader (buffer r) (pos r + n) (prealloc_budget r) (crlf_skip r)).
(** [return Err(e)] unless [b]. *)
Definition guard (b : bool) (e : RedisError) : reading unit := if b then mret tt else fail e.

Definition MAX_NESTING_DEPTH : nat := 128.
Definition MAX_BULK_LEN : Z := 512 * 1024 * 1024.
Definition MAX_LINE_LEN : Z := 512 * 1024.

Definition reader_init (buffer : bytes) : ValkeyReader := mkReader buffer 0 (Z.of_nat (length buffer)) 0.

Definition read_byte : reading Z := fun r =>
  if (length (buffer r) <=? pos r)%nat then fail InvalidResponse r
  else (byte ← lift (index_at (buffer r) (pos r)); _ ← advance 1; mret byte) r.

(** The loop of [read_until_crlf] over [n] indices from [i] on, [l] being the bytes from [i] on. *)
Fixpoint find_crlf (l : bytes) (n i : nat) : option nat :=
  match n, l with
  | S n, c :: l =>
      if (c =? 13) && match l with d :: _ => d =? 10 | [] => false end then Some i else find_crlf l n (i + 1)
  | _, _ => None
  end.

Definition read_until_crlf : reading bytes := fun r =>
  (buf ← lift (slice_from (buffer r) (pos r));
   let limit := Z.to_nat (Z.min (Z.of_nat (length buf)) (MAX_LINE_LEN + 1)) in
   let start := Nat.min (crlf_skip r) limit in
   match find_crlf (drop start buf) (limit - start) start with
   | Some i => res ← lift (slice_range buf 0 i); _ ← advance (i + 2); mret res
   | None => fail (if MAX_LINE_LEN + 1 <? Z.of_nat (length buf) then LineTooLong else InvalidResponse)
   end) (mkReader (buffer r) (pos r) (prealloc_budget r) 0).

Definition I64_MIN : Z := - 2 ^ 63.
Definition I64_MAX : Z := 2 ^ 63 - 1.

Definition read_integer : reading Z :=
  s ← read_until_crlf;
  match parse_int I64_MIN I64_MAX s 10 with inl v => mret v | inr _ => fail InvalidInteger end.

Definition read_boolean : reading bool :=
  s ← read_until_crlf;
  match s with
  | [c] => if c =? ch "t" then mret true else if c =? ch "f" then mret false else fail InvalidBoolean
  | _ => fail InvalidBoolean
  end.

(** [&self.buffer[self.pos..self.pos + len]] and the CRLF behind it, for a length that was checked: [short] is the error of a
    payload that exceeds the buffer, [bad] that of a missing CRLF. *)
Definition read_payload (len : Z) (short bad : RedisError) : reading bytes :=
  p ← gets pos;
  n ← gets (fun r => length (buffer r));
  _ ← guard (Z.of_nat p + len <=? Z.of_nat n) short;
  b ← gets buffer;
  s ← lift (slice_range b p (p + Z.to_nat len));
  _ ← advance (Z.to_nat len);
  crlf ← read_until_crlf;
  _ ← guard (bool_decide (crlf = [])) bad;
  mret s.

Definition read_verbatim_string : reading (bytes * bytes) :=
  len ← read_integer;
  _ ← guard ((0 <=? len) && (len <=? MAX_BULK_LEN)) InvalidVerbatimString;
  content_with_format ← read_payload len InvalidVerbatimString InvalidVerbatimString;
  _ ← guard (negb (length content_with_format <? 4)%nat && bool_decide (content_with_format !! 3%nat = Some (ch ":"))) InvalidVerbatimString;
  format ← lift (slice_range content_with_format 0 3);
  content ← lift (slice_from content_with_format 4);
  mret (format, content).

(** The subtraction is checked: [cap * element_size] never exceeds the budget. *)
Definition take_prealloc_budget (len element_size : Z) : reading Z := fun r =>
  let cap := Z.min len (prealloc_budget r / Z.max element_size 1) in
  if cap * element_size <=? prealloc_budget r
  then Ok (inl cap, mkReader (buffer r) (pos r) (prealloc_budget r - cap * element_size) (crlf_skip r))
  else Panic.

(** [while i < len]: [len] values are left; a value takes at least one byte. *)
Fixpoint read_n {A} (fuel : nat) (elem : reading A) (len : Z) : reading (list A) :=
  if len <=? 0 then mret []
  else
    match fuel with
    | O => fun _ => OutOfFuel
    | S fuel => v ← elem; l ← read_n fuel elem (len - 1); mret (v :: l)
    end.

Definition read_vec {A} (elem : reading A) (len : Z) : reading (list A) := fun r => read_n (S (length (buffer r))) elem len r.

Section reader.
Context (F : Type) (INFINITY NEG_INFINITY NAN : F).
(** [bun_core::fmt::parse_f64], which reads numbers with the engine's parser. *)
Context (parse_f64 : bytes -> option F).
(** [size_of::<RESPValue>()], [size_of::<MapEntry>()] *)
Context (value_size entry_size : Z).

Definition read_double : reading F :=
  s ← read_until_crlf;
  if decide (s = str "inf") then mret INFINITY
  else if decide (s = str "-inf") then mret NEG_INFINITY
  else if decide (s = str "nan") then mret NAN
  else match parse_f64 s with Some d => mret d | None => fail InvalidDouble end.

(** [levels] bounds the recursion: aggregates are refused from depth 128 on. *)
Fixpoint read_value_with_depth (levels depth : nat) : reading (RESPValue F) :=
  match levels with
  | O => fun _ => OutOfFuel
  | S levels =>
      let elem := read_value_with_depth levels (depth + 1) in
      let entry := (key ← elem; value ← elem; mret (key, value)) in
      let nested := guard (depth <? MAX_NESTING_DEPTH)%nat NestingDepthExceeded in
      type_byte ← read_byte;
      match RESPType_from_byte type_byte with
      | None => fail InvalidResponseType
      | Some TSimpleString => s ← read_until_crlf; mret (SimpleString s)
      | Some TError => s ← read_until_crlf; mret (Error s)
      | Some TInteger => i ← read_integer; mret (Integer i)
      | Some TBulkString =>
          len ← read_integer;
          if len <? 0 then mret (BulkString None)
          else
            _ ← guard (len <=? MAX_BULK_LEN) InvalidBulkString;
            s ← read_payload len InvalidResponse InvalidBulkString;
            mret (BulkString (Some s))
      | Some TArray =>
          _ ← nested;
          len ← read_integer;
          if len <? 0 then mret (Array [])
          else _ ← take_prealloc_budget len value_size; l ← read_vec elem len; mret (Array l)
      | Some TNull => _ ← read_until_crlf; mret Null
      | Some TDouble => d ← read_double; mret (Double d)
      | Some TBoolean => b ← read_boolean; mret (Boolean b)
      | Some TBlobError =>
          len ← read_integer;
          _ ← guard ((0 <=? len) && (len <=? MAX_BULK_LEN)) InvalidBlobError;
          s ← read_payload len InvalidBlobError InvalidBlobError;
          mret (BlobError s)
      | Some TVerbatimString => v ← read_verbatim_string; mret (VerbatimString (fst v) (snd v))
      | Some TMap =>
          _ ← nested;
          len ← read_integer;
          _ ← guard (0 <=? len) InvalidMap;
          _ ← take_prealloc_budget len entry_size; l ← read_vec entry len; mret (Map l)
      | Some TSet =>
          _ ← nested;
          len ← read_integer;
          _ ← guard (0 <=? len) InvalidSet;
          _ ← take_prealloc_budget len value_size; l ← read_vec elem len; mret (Set_ l)
      | Some TAttribute =>
          _ ← nested;
          len ← read_integer;
          _ ← guard (0 <=? len) InvalidAttribute;
          _ ← take_prealloc_budget len entry_size;
          l ← read_vec entry len;
          value ← elem;
          mret (Attribute l value)
      | Some TPush =>
          _ ← nested;
          len ← read_integer;
          _ ← guard (0 <? len) InvalidPush;
          push_type ← elem;
          match push_type with
          | SimpleString kind | BulkString (Some kind) =>
              _ ← take_prealloc_budget (len - 1) value_size;
              data ← read_vec elem (len - 1);
              mret (Push kind data)
          | _ => fail InvalidPush
          end
      | Some TBigNumber => s ← read_until_crlf; mret (BigNumber s)
      end
  end.

Definition read_value : reading (RESPValue F) := fun r =>
  read_value_with_depth (S MAX_NESTING_DEPTH) 0
    (mkReader (buffer r) (pos r) (Z.of_nat (length (buffer r)) - Z.of_nat (pos r)) (crlf_skip r)).
End reader.

(** ** The scanner *)

Inductive ScanResult := Complete | NeedMoreData.

(** [stack] has the innermost aggregate first. *)
Record ReplyScanner := mkScanner { sc_pos : nat; stack : list Z; sc_crlf_skip : nat }.

Definition scanner_reset : ReplyScanner := mkScanner 0 [] 0.

Definition saturating_mul2 (n : Z) : Z := Z.min U64_MAX (n * 2).

(** [scan_one]: the number of values that follow the header of an aggregate. *)
Definition scan_one (depth : nat) : reading (option Z) :=
  let nested := guard (depth <? MAX_NESTING_DEPTH)%nat NestingDepthExceeded in
  type_byte ← read_byte;
  match RESPType_from_byte type_byte with
  | None => fail InvalidResponseType
  | Some (TSimpleString | TError | TInteger | TNull | TDouble | TBoolean | TBigNumber) => _ ← read_until_crlf; mret None
  | Some ((TBulkString | TBlobError | TVerbatimString) as ty) =>
      let invalid := match ty with
                     | TBlobError => InvalidBlobError
                     | TVerbatimString => InvalidVerbatimString
                     | _ => InvalidBulkString
                     end in
      len ← read_integer;
      if len <? 0 then match ty with TBulkString => mret None | _ => fail invalid end
      else
        _ ← guard (len <=? MAX_BULK_LEN) invalid;
        b ← gets buffer; p ← gets pos;
        _ ← guard (negb (Z.of_nat (length b) - Z.of_nat p <? len + 2)) InvalidResponse;
        c ← lift (index_at b (p + Z.to_nat len));
        _ ← guard (c =? 13) invalid;
        c ← lift (index_at b (p + Z.to_nat len + 1));
        _ ← guard (c =? 10) invalid;
        _ ← advance (Z.to_nat len + 2);
        mret None
  | Some TArray => _ ← nested; len ← read_integer; mret (Some (if len <? 0 then 0 else len))
  | Some TSet => _ ← nested; len ← read_integer; _ ← guard (0 <=? len) InvalidSet; mret (Some len)
  | Some TPush => _ ← nested; len ← read_integer; _ ← guard (0 <? len) InvalidPush; mret (Some len)
  | Some TMap => _ ← nested; len ← read_integer; _ ← guard (0 <=? len) InvalidMap; mret (Some (saturating_mul2 len))
  | Some TAttribute =>
      _ ← nested; len ← read_integer; _ ← guard (0 <=? len) InvalidAttribute;
      mret (Some (Z.min U64_MAX (saturating_mul2 len + 1)))
  end.

(** [while let Some(remaining) = self.stack.last_mut()]; the counts on the stack are positive, the
    subtraction is checked. *)
Fixpoint unwind (stack : list Z) : outcome (list Z) :=
  match stack with
  | [] => Ok []
  | remaining :: rest =>
      if remaining <? 1 then Panic
      else if 0 <? remaining - 1 then Ok ((remaining - 1) :: rest) else unwind rest
  end.

Fixpoint scan_loop (fuel : nat) (s : ReplyScanner) (buf : bytes) : outcome ((ScanResult + RedisError) * ReplyScanner) :=
  match fuel with
  | O => OutOfFuel
  | S fuel =>
      '(children, reader) ← scan_one (length (stack s)) (mkReader buf (sc_pos s) 0 (sc_crlf_skip s));
      match children with
      | inr InvalidResponse =>
          let skip := if (pos reader =? sc_pos s + 1)%nat then (length buf - pos reader - 1)%nat else 0%nat in
          Ok (inl NeedMoreData, mkScanner (sc_pos s) (stack s) skip)
      | inr err => Ok (inr err, s)
      | inl children =>
          let n := default 0 children in
          if 0 <? n then scan_loop fuel (mkScanner (pos reader) (n :: stack s) 0) buf
          else
            st ← unwind (stack s);
            let s := mkScanner (pos reader) st 0 in
            if decide (st = []) then Ok (inl Complete, s) else scan_loop fuel s buf
      end
  end.

(** Every round reads at least one byte. *)
Definition scan (s : ReplyScanner) (buf : bytes) : outcome ((ScanResult + RedisError) * ReplyScanner) :=
  scan_loop (S (length buf)) s buf.

(** ** Commands *)

Definition CRLF : bytes := [13; 10].

(** [write!(writer, "${}\r\n", bytes.len())], the bytes and CRLF. *)
Definition write_bulk (s : bytes) : bytes := ch "$" :: fmt_uint (Z.of_nat (length s)) ++ CRLF ++ s ++ CRLF.

(** [Command::write] *)
Definition command_write (command : bytes) (args : list bytes) : bytes :=
  ch "*" :: fmt_uint (1 + Z.of_nat (length args)) ++ CRLF ++ write_bulk command ++ concat (map write_bulk args).

Definition command_byte_length (command : bytes) (args : list bytes) : nat := length (command_write command args).

(** ** Kinds of subscription messages *)

Inductive SubscriptionPushMessage := Message | Subscribe | Unsubscribe.

Definition SUBSCRIPTION_PUSH_MESSAGES : list (bytes * SubscriptionPushMessage) :=
  [(str "message", Message); (str "subscribe", Subscribe); (str "unsubscribe", Unsubscribe)].

Definition SubscriptionPushMessage_from_bytes (s : bytes) : option SubscriptionPushMessage :=
  snd <$> List.find (fun e => bool_decide (fst e = s)) SUBSCRIPTION_PUSH_MESSAGES.

(** ** Lines *)

(** A CRLF at index [i]. *)
Definition crlf_at (l : bytes) (i : nat) : Prop := l !! i = Some 13 /\ l !! S i = Some 10.

(** [r] is the first CRLF of [l] at an index in [from, n), if any. *)
Definition first_crlf (l : bytes) (from n : nat) (r : option nat) : Prop :=
  match r with
  | Some i => (from <= i < n)%nat /\ crlf_at l i /\ forall j, (from <= j < i)%nat -> ~ crlf_at l j
  | None => forall j, (from <= j < n)%nat -> ~ crlf_at l j
  end.

Lemma crlf_at_cons c l i : crlf_at (c :: l) (S i) <-> crlf_at l i.
Proof. done. Qed.

Lemma crlf_at_drop l s i : crlf_at (drop s l) i <-> crlf_at l (s + i).
Proof. unfold crlf_at. rewrite !lookup_drop. by rewrite Nat.add_succ_r. Qed.

Lemma crlf_at_app l k i : (S i < length l)%nat -> crlf_at (l ++ k) i <-> crlf_at l i.
Proof. intros Hi. unfold crlf_at. by rewrite !lookup_app_l by lia. Qed.

Lemma crlf_at_length l i : crlf_at l i -> (S i < length l)%nat.
Proof. intros [_ H]. by apply lookup_lt_Some in H. Qed.

Lemma first_crlf_unique l from n r1 r2 : first_crlf l from n r1 -> first_crlf l from n r2 -> r1 = r2.
Proof.
  destruct r1 as [i|], r2 as [j|]; cbn; [| | |done].
  - intros (Hi & Hc & Hb) (Hj & Hc' & Hb'). f_equal. destruct (Nat.lt_trichotomy i j) as [H|[H|H]]; [|done|].
    + by destruct (Hb' i); [lia|].
    + by destruct (Hb j); [lia|].
  - intros (Hi & Hc & _) H. by destruct (H i).
  - intros H (Hi & Hc & _). by destruct (H j).
Qed.

Lemma find_crlf_head c l : (c =? 13) && match l with d :: _ => d =? 10 | [] => false end = true <-> crlf_at (c :: l) 0.
Proof.
  unfold crlf_at. cbn. rewrite andb_true_iff, Z.eqb_eq. destruct l as [|d l]; cbn; [naive_solver|]. rewrite Z.eqb_eq. naive_solver.
Qed.

Lemma find_crlf_first l0 s n i : first_crlf l0 (s + i) (s + i + n) (find_crlf (drop (s + i) l0) n (s + i)).
Proof.
  revert i. induction n as [|n IH]; intros i.
  { replace (find_crlf _ 0 _) with (@None nat) by (by destruct (drop (s + i) l0)). cbn. lia. }
  destruct (drop (s + i) l0) as [|c l] eqn:E; cbn [find_crlf].
  { intros j Hj Hc. apply crlf_at_length in Hc. apply (f_equal length) in E. rewrite length_drop in E. cbn in E. lia. }
  assert (Hhere : crlf_at l0 (s + i) <-> crlf_at (c :: l) 0) by (rewrite <- E, crlf_at_drop; by rewrite Nat.add_0_r).
  destruct (_ && _) eqn:Hc.
  - apply find_crlf_head in Hc. cbn. split; [lia|]. split; [by apply Hhere|lia].
  - assert (Hno : ~ crlf_at l0 (s + i)) by (rewrite Hhere, <- find_crlf_head, Hc; done).
    assert (El : l = drop (s + S i) l0).
    { rewrite Nat.add_succ_r, <- Nat.add_1_r, <- drop_drop, E. done. }
    specialize (IH (S i)). rewrite <- El in IH. replace (s + i + 1)%nat with (s + S i)%nat by lia.
    replace (s + i + S n)%nat with (s + S i + n)%nat by lia. destruct (find_crlf l n (s + S i)) as [j|]; cbn in *.
    + destruct IH as (Hj & Hcj & Hb). split; [lia|]. split; [done|]. intros k Hk. destruct (decide (k = s + i)%nat) as [->|]; [done|apply Hb; lia].
    + intros k Hk. destruct (decide (k = s + i)%nat) as [->|]; [done|apply IH; lia].
Qed.

Definition line_limit (l : bytes) : nat := Z.to_nat (Z.min (Z.of_nat (length l)) (MAX_LINE_LEN + 1)).

(** What [read_until_crlf] finds at [p]: the line and the position behind it. *)
Definition line_at (b : bytes) (p k : nat) : bytes * nat + RedisError :=
  let l := drop p b in
  let start := Nat.min k (line_limit l) in
  match find_crlf (drop start l) (line_limit l - start) start with
  | Some i => inl (take i l, (p + i + 2)%nat)
  | None => inr (if MAX_LINE_LEN + 1 <? Z.of_nat (length l) then LineTooLong else InvalidResponse)
  end.

(** The indices below [k] are known to hold no CRLF. *)
Definition skip_ok (b : bytes) (p k : nat) : Prop := forall i, (i < k)%nat -> ~ crlf_at (drop p b) i.

Lemma skip_ok_0 b p : skip_ok b p 0.
Proof. intros i Hi. lia. Qed.

(** The search, whatever was skipped. *)
Lemma line_at_first b p k :
  skip_ok b p k ->
  exists r, first_crlf (drop p b) 0 (line_limit (drop p b)) r /\
    line_at b p k = match r with
                    | Some i => inl (take i (drop p b), (p + i + 2)%nat)
                    | None => inr (if MAX_LINE_LEN + 1 <? Z.of_nat (length (drop p b)) then LineTooLong else InvalidResponse)
                    end.
Proof.
  intros Hk. unfold line_at. set (l := drop p b) in *. set (s := Nat.min k (line_limit l)).
  pose proof (find_crlf_first l s (line_limit l - s) 0) as H. rewrite Nat.add_0_r in H.
  eexists. split; [|reflexivity]. replace (s + (line_limit l - s))%nat with (line_limit l) in H by lia.
  destruct (find_crlf _ _ _) as [i|]; cbn in *.
  - destruct H as (Hi & Hc & Hb). split; [lia|]. split; [done|]. intros j Hj.
    destruct (decide (j < s)%nat); [apply Hk; lia|apply Hb; lia].
  - intros j Hj. destruct (decide (j < s)%nat); [apply Hk; lia|apply H; lia].
Qed.

Lemma line_at_skip b p k : skip_ok b p k -> line_at b p k = line_at b p 0.
Proof.
  intros Hk. destruct (line_at_first b p k Hk) as (r1 & H1 & ->). destruct (line_at_first b p 0 (skip_ok_0 b p)) as (r2 & H2 & ->).
  by rewrite (first_crlf_unique _ _ _ _ _ H1 H2).
Qed.

Lemma line_at_bounds b p k s p' : line_at b p k = inl (s, p') -> (p + 2 <= p' <= length b)%nat.
Proof.
  unfold line_at. set (l := drop p b). set (st := Nat.min k _).
  pose proof (find_crlf_first l st (line_limit l - st) 0) as H. rewrite Nat.add_0_r in H.
  destruct (find_crlf _ _ _) as [i|]; [|done]. intros [= _ <-]. destruct H as (_ & Hc & _). apply crlf_at_length in Hc.
  unfold l in Hc. rewrite length_drop in Hc. lia.
Qed.

(** More input does not change a line that was found, nor one that was too long. *)
Lemma line_at_extend b ext p :
  (p <= length b)%nat -> line_at b p 0 <> inr InvalidResponse -> line_at (b ++ ext) p 0 = line_at b p 0.
Proof.
  intros Hp. destruct (line_at_first b p 0 (skip_ok_0 b p)) as (r1 & H1 & ->).
  destruct (line_at_first (b ++ ext) p 0 (skip_ok_0 _ p)) as (r2 & H2 & ->).
  rewrite drop_app_le in * by done. set (l := drop p b) in *. intros Hne. unfold line_limit in *. rewrite length_app in *.
  destruct r1 as [i|].
  - destruct H1 as (Hi & Hc & Hb). pose proof (crlf_at_length _ _ Hc) as Hil.
    assert (H : first_crlf (l ++ drop 0 ext) 0 (Z.to_nat (Z.min (Z.of_nat (length l + length ext)) (MAX_LINE_LEN + 1))) (Some i)).
    { rewrite drop_0. split; [lia|]. split; [by apply crlf_at_app|]. intros j Hj Hcj. apply (Hb j Hj). by apply crlf_at_app in Hcj; [|lia]. }
    rewrite drop_0 in H. rewrite <- (first_crlf_unique _ _ _ _ _ H H2). by rewrite take_app_le by lia.
  - destruct (Z.ltb_spec (MAX_LINE_LEN + 1) (Z.of_nat (length l))) as [Hl|]; [|done].
    rewrite (proj2 (Z.ltb_lt _ _)) by lia. destruct r2 as [i|]; [|done]. exfalso.
    destruct H2 as (Hi & Hc & _). rewrite Z.min_r in * by lia. apply (H1 i); [lia|].
    apply crlf_at_app in Hc; [done|]. unfold MAX_LINE_LEN in *. lia.
Qed.

(** A line that is still open has no CRLF so far. *)
Lemma line_at_open b p : line_at b p 0 = inr InvalidResponse -> forall i, ~ crlf_at (drop p b) i.
Proof.
  destruct (line_at_first b p 0 (skip_ok_0 b p)) as (r & H & ->). destruct r as [i|]; [done|].
  destruct (Z.ltb_spec (MAX_LINE_LEN + 1) (Z.of_nat (length (drop p b)))) as [|Hl]; [done|]. intros _ i Hc.
  apply (H i); [|done]. apply crlf_at_length in Hc. unfold line_limit. lia.
Qed.

Lemma read_until_crlf_line b p g k :
  (p <= length b)%nat ->
  read_until_crlf (mkReader b p g k) =
    Ok match line_at b p k with
       | inl (s, p') => (inl s, mkReader b p' g 0)
       | inr e => (inr e, mkReader b p g 0)
       end.
Proof.
  intros Hp. unfold read_until_crlf, line_at. cbn [buffer pos prealloc_budget crlf_skip].
  unfold mbind at 1, reading_bind at 1, lift at 1. rewrite slice_from_ok by done. set (l := drop p b).
  fold (line_limit l). set (st := Nat.min k _). pose proof (find_crlf_first l st (line_limit l - st) 0) as H.
  rewrite Nat.add_0_r in H. destruct (find_crlf _ _ _) as [i|]; [|done]. destruct H as (_ & Hc & _). apply crlf_at_length in Hc.
  unfold mbind, reading_bind, lift. rewrite slice_range_ok by lia. rewrite drop_0, Nat.sub_0_r. cbn. by rewrite Nat.add_assoc.
Qed.

(** ** One element *)

(** Unfold the reader's monad. *)
Ltac reading := unfold guard, fail, gets, lift, advance, mbind, reading_bind, mret, reading_ret;
  cbn [fst snd buffer pos prealloc_budget crlf_skip].

(** What [read_integer] finds at [p]. *)
Definition integer_at (b : bytes) (p k : nat) : (Z + RedisError) * nat :=
  match line_at b p k with
  | inl (s, p') => (match parse_int I64_MIN I64_MAX s 10 with inl v => inl v | inr _ => inr InvalidInteger end, p')
  | inr e => (inr e, p)
  end.

Definition is_invalid_bulk (ty : RESPType) : RedisError :=
  match ty with TBlobError => InvalidBlobError | TVerbatimString => InvalidVerbatimString | _ => InvalidBulkString end.

(** A payload of [len] bytes and its CRLF. *)
Definition payload_at (b : bytes) (p : nat) (len : Z) (invalid : RedisError) : (option Z + RedisError) * nat :=
  if Z.of_nat (length b) - Z.of_nat p <? len + 2 then (inr InvalidResponse, p)
  else if bool_decide (crlf_at b (p + Z.to_nat len)) then (inl None, (p + Z.to_nat len + 2)%nat)
  else (inr invalid, p).

(** The number of values that the header of an aggregate announces. *)
Definition children_of (ty : RESPType) (len : Z) : option Z + RedisError :=
  match ty with
  | TArray => inl (Some (if len <? 0 then 0 else len))
  | TSet => if 0 <=? len then inl (Some len) else inr InvalidSet
  | TPush => if 0 <? len then inl (Some len) else inr InvalidPush
  | TMap => if 0 <=? len then inl (Some (saturating_mul2 len)) else inr InvalidMap
  | TAttribute => if 0 <=? len then inl (Some (Z.min U64_MAX (saturating_mul2 len + 1))) else inr InvalidAttribute
  | _ => inl None
  end.

(** What [scan_one] finds at [p], at nesting [depth]. *)
Definition element_at (b : bytes) (depth p k : nat) : (option Z + RedisError) * nat :=
  match b !! p with
  | None => (inr InvalidResponse, p)
  | Some c =>
      match RESPType_from_byte c with
      | None => (inr InvalidResponseType, (p + 1)%nat)
      | Some (TSimpleString | TError | TInteger | TNull | TDouble | TBoolean | TBigNumber) =>
          match line_at b (p + 1) k with inl (_, p') => (inl None, p') | inr e => (inr e, (p + 1)%nat) end
      | Some ((TBulkString | TBlobError | TVerbatimString) as ty) =>
          match integer_at b (p + 1) k with
          | (inr e, p') => (inr e, p')
          | (inl len, p') =>
              if len <? 0 then (match ty with TBulkString => inl None | _ => inr (is_invalid_bulk ty) end, p')
              else if len <=? MAX_BULK_LEN then payload_at b p' len (is_invalid_bulk ty) else (inr (is_invalid_bulk ty), p')
          end
      | Some ty =>
          if (depth <? MAX_NESTING_DEPTH)%nat then
            match integer_at b (p + 1) k with
            | (inr e, p') => (inr e, p')
            | (inl len, p') => (children_of ty len, p')
            end
          else (inr NestingDepthExceeded, (p + 1)%nat)
      end
  end.

Lemma integer_at_bounds b p k v p' : integer_at b p k = (inl v, p') -> (p + 2 <= p' <= length b)%nat.
Proof.
  unfold integer_at. destruct (line_at b p k) as [[s q]|] eqn:E; [|done]. apply line_at_bounds in E.
  destruct (parse_int _ _ _ _); [|done]. by intros [= _ <-].
Qed.

Lemma integer_at_pos b p k r p' : (p <= length b)%nat -> integer_at b p k = (r, p') -> (p <= p' <= length b)%nat.
Proof.
  intros Hp. unfold integer_at. destruct (line_at b p k) as [[s q]|] eqn:E; [apply line_at_bounds in E|]; intros [= _ <-]; lia.
Qed.

Lemma read_integer_at b p g k :
  (p <= length b)%nat ->
  read_integer (mkReader b p g k) = Ok ((integer_at b p k).1, mkReader b (integer_at b p k).2 g 0).
Proof.
  intros Hp. unfold read_integer, integer_at. unfold mbind, reading_bind. rewrite read_until_crlf_line by done.
  destruct (line_at b p k) as [[s q]|]; [|done]. by destruct (parse_int _ _ _ _).
Qed.

Lemma read_byte_at b p g k :
  read_byte (mkReader b p g k) =
    Ok match b !! p with
       | None => (inr InvalidResponse, mkReader b p g k)
       | Some c => (inl c, mkReader b (p + 1) g k)
       end.
Proof.
  unfold read_byte. cbn [buffer pos]. destruct (Nat.leb_spec (length b) p) as [H|H].
  - by rewrite lookup_ge_None_2.
  - destruct (lookup_lt_is_Some_2 b p H) as [c Hc]. unfold mbind, reading_bind, lift. by rewrite (index_at_ok _ _ _ Hc), Hc.
Qed.

(** The same result at the same position. *)
Definition answers {A} (m : outcome ((A + RedisError) * ValkeyReader)) (x : (A + RedisError) * nat) : Prop :=
  exists r, m = Ok (x.1, r) /\ pos r = x.2.

Lemma answers_Ok {A} (res : A + RedisError) b p g k : answers (Ok (res, mkReader b p g k)) (res, p).
Proof. by eexists. Qed.

(** The part of [scan_one] that skips a payload. *)
Definition scan_payload (ty : RESPType) : reading (option Z) :=
  len ← read_integer;
  if len <? 0 then match ty with TBulkString => mret None | _ => fail (is_invalid_bulk ty) end
  else
    _ ← guard (len <=? MAX_BULK_LEN) (is_invalid_bulk ty);
    b ← gets buffer; p ← gets pos;
    _ ← guard (negb (Z.of_nat (length b) - Z.of_nat p <? len + 2)) InvalidResponse;
    c ← lift (index_at b (p + Z.to_nat len));
    _ ← guard (c =? 13) (is_invalid_bulk ty);
    c ← lift (index_at b (p + Z.to_nat len + 1));
    _ ← guard (c =? 10) (is_invalid_bulk ty);
    _ ← advance (Z.to_nat len + 2);
    mret None.

Lemma scan_payload_at ty b p g k :
  (p <= length b)%nat ->
  answers (scan_payload ty (mkReader b p g k))
    match integer_at b p k with
    | (inr e, p') => (inr e, p')
    | (inl len, p') =>
        if len <? 0 then (match ty with TBulkString => inl None | _ => inr (is_invalid_bulk ty) end, p')
        else if len <=? MAX_BULK_LEN then payload_at b p' len (is_invalid_bulk ty) else (inr (is_invalid_bulk ty), p')
    end.
Proof.
  intros Hp. unfold scan_payload. unfold mbind at 1, reading_bind at 1. rewrite read_integer_at by done.
  destruct (integer_at b p k) as [[len|e] p'] eqn:E; cbn [fst snd]; [|apply answers_Ok].
  apply integer_at_bounds in E. destruct (Z.ltb_spec len 0) as [|Hlen]; [destruct ty; apply answers_Ok|].
  destruct (len <=? MAX_BULK_LEN); reading; [|apply answers_Ok]. unfold payload_at.
  destruct (Z.ltb_spec (Z.of_nat (length b) - Z.of_nat p') (len + 2)) as [|Hl]; cbn [negb]; [apply answers_Ok|].
  destruct (lookup_lt_is_Some_2 b (p' + Z.to_nat len)) as [c Hc]; [lia|].
  destruct (lookup_lt_is_Some_2 b (p' + Z.to_nat len + 1)) as [c' Hc']; [lia|].
  rewrite (index_at_ok _ _ _ Hc). case_bool_decide as Hcrlf.
  - destruct Hcrlf as [H1 H2]. rewrite <- Nat.add_1_r in H2. assert (c = 13) as -> by congruence. assert (c' = 10) as -> by congruence.
    cbn [Z.eqb Pos.eqb]. rewrite (index_at_ok _ _ _ Hc'). cbn [Z.eqb Pos.eqb]. rewrite <- Nat.add_assoc. apply answers_Ok.
  - destruct (Z.eqb_spec c 13) as [->|]; [|apply answers_Ok]. rewrite (index_at_ok _ _ _ Hc').
    destruct (Z.eqb_spec c' 10) as [->|]; [|apply answers_Ok]. destruct Hcrlf. split; [done|]. by rewrite <- Nat.add_1_r.
Qed.

Lemma scan_one_at b depth p g k :
  answers (scan_one depth (mkReader b p g k)) (element_at b depth p k).
Proof.
  unfold scan_one, element_at. unfold mbind at 1, reading_bind at 1. rewrite read_byte_at.
  destruct (b !! p) as [c|] eqn:Hc; [|apply answers_Ok]. apply lookup_lt_Some in Hc.
  assert (Hagg : forall e (f : Z -> reading (option Z)) (g' : Z -> option Z + RedisError),
    (forall len r, f len r = Ok (g' len, r)) ->
    answers ((_ ← guard (depth <? MAX_NESTING_DEPTH)%nat e; len ← read_integer; f len) (mkReader b (p + 1) g k))
      (if (depth <? MAX_NESTING_DEPTH)%nat
       then match integer_at b (p + 1) k with (inr e, p') => (inr e, p') | (inl len, p') => (g' len, p') end
       else (inr e, (p + 1)%nat))).
  { intros e f g' Hf. destruct (depth <? MAX_NESTING_DEPTH)%nat; [|apply answers_Ok]. reading.
    rewrite read_integer_at by lia. destruct (integer_at b (p + 1) k) as [[len|e'] p']; [|apply answers_Ok]. cbn [fst snd].
    rewrite Hf. apply answers_Ok. }
  assert (Hline : answers ((_ ← read_until_crlf; mret None) (mkReader b (p + 1) g k))
    match line_at b (p + 1) k with inl (_, p') => (inl (@None Z), p') | inr e => (inr e, (p + 1)%nat) end).
  { unfold mbind, reading_bind. rewrite read_until_crlf_line by lia. destruct (line_at b (p + 1) k) as [[s q]|]; apply answers_Ok. }
  destruct (RESPType_from_byte c) as [ty|]; [|apply answers_Ok].
  destruct ty; try exact Hline.
  (* aggregates *)
  2, 5, 6, 7, 8: apply Hagg; intros len r; cbn [children_of]; reading; try (destruct (0 <=? len); done);
    try (destruct (0 <? len); done); done.
  - apply (scan_payload_at TBulkString). lia.
  - apply (scan_payload_at TBlobError). lia.
  - apply (scan_payload_at TVerbatimString). lia.
Qed.

(** *** What does not change the answer *)

Lemma payload_at_extend b ext p len invalid :
  0 <= len -> (payload_at b p len invalid).1 <> inr InvalidResponse -> payload_at (b ++ ext) p len invalid = payload_at b p len invalid.
Proof.
  intros Hlen. unfold payload_at. rewrite length_app. destruct (Z.ltb_spec (Z.of_nat (length b) - Z.of_nat p) (len + 2)) as [|Hl]; [done|].
  intros _. rewrite (proj2 (Z.ltb_ge _ _)) by lia.
  pose proof (crlf_at_app b ext (p + Z.to_nat len) ltac:(lia)). repeat case_bool_decide; tauto.
Qed.

Lemma integer_at_skip b p k : skip_ok b p k -> integer_at b p k = integer_at b p 0.
Proof. intros H. unfold integer_at. by rewrite line_at_skip. Qed.

Lemma integer_at_extend b ext p :
  (p <= length b)%nat -> (integer_at b p 0).1 <> inr InvalidResponse -> integer_at (b ++ ext) p 0 = integer_at b p 0.
Proof.
  intros Hp Hne. unfold integer_at in *. destruct (line_at b p 0) as [[s q]|e] eqn:E.
  - by rewrite line_at_extend, E by (done || congruence).
  - rewrite line_at_extend, E by (done || (rewrite E; cbn in Hne; congruence)). done.
Qed.

Lemma element_at_skip b depth p k : skip_ok b (p + 1) k -> element_at b depth p k = element_at b depth p 0.
Proof.
  intros H. unfold element_at. rewrite integer_at_skip, line_at_skip by done. done.
Qed.

Lemma element_at_extend b ext depth p :
  (element_at b depth p 0).1 <> inr InvalidResponse -> element_at (b ++ ext) depth p 0 = element_at b depth p 0.
Proof.
  unfold element_at. destruct (b !! p) as [c|] eqn:Hc; [|done]. rewrite (lookup_app_l_Some _ _ _ _ Hc). apply lookup_lt_Some in Hc.
  assert (Hline : (match line_at b (p + 1) 0 with inl (_, p') => (inl (@None Z), p') | inr e => (inr e, (p + 1)%nat) end).1 <> inr InvalidResponse ->
    line_at (b ++ ext) (p + 1) 0 = line_at b (p + 1) 0).
  { intros H. apply line_at_extend; [lia|]. intros E. by rewrite E in H. }
  assert (Hint : (integer_at b (p + 1) 0).1 <> inr InvalidResponse -> integer_at (b ++ ext) (p + 1) 0 = integer_at b (p + 1) 0)
    by (apply integer_at_extend; lia).
  destruct (RESPType_from_byte c) as [ty|]; [|done].
  destruct ty; try (intros H; by rewrite (Hline H)).
  2, 5, 6, 7, 8: destruct (depth <? MAX_NESTING_DEPTH)%nat; [|done]; intros H; rewrite Hint; [done|];
    intros E; revert H E; destruct (integer_at b (p + 1) 0) as [[len|e] p']; cbn; congruence.
  all: intros H; rewrite Hint; [|intros E; revert H E; destruct (integer_at b (p + 1) 0) as [[len|e] p']; cbn; congruence];
    revert H; destruct (integer_at b (p + 1) 0) as [[len|e] p']; [|done];
    destruct (Z.ltb_spec len 0); [done|]; destruct (len <=? MAX_BULK_LEN); [|done]; intros Hne; by apply payload_at_extend.
Qed.

Lemma children_of_nonneg ty len n : children_of ty len = inl (Some n) -> 0 <= n.
Proof.
  unfold children_of, saturating_mul2, U64_MAX. destruct ty; try done;
    repeat match goal with |- context [?a <? ?b] => destruct (Z.ltb_spec a b) | |- context [?a <=? ?b] => destruct (Z.leb_spec a b) end;
    intros [= <-]; lia.
Qed.

Lemma element_at_progress b depth p k n p' :
  element_at b depth p k = (inl n, p') -> (p < p' <= length b)%nat /\ 0 <= default 0 n.
Proof.
  unfold element_at. destruct (b !! p) as [c|] eqn:Hc; [|done]. apply lookup_lt_Some in Hc.
  destruct (RESPType_from_byte c) as [ty|]; [|done].
  assert (Hint := integer_at_bounds b (p + 1) k). assert (Hline := line_at_bounds b (p + 1) k).
  destruct ty; try (destruct (line_at b (p + 1) k) as [[s q]|] eqn:E; [|done]; intros [= <- <-]; specialize (Hline _ _ eq_refl); cbn; lia).
  2, 5, 6, 7, 8: destruct (depth <? MAX_NESTING_DEPTH)%nat; [|done];
    destruct (integer_at b (p + 1) k) as [[len|e] q]; [|done]; specialize (Hint _ _ eq_refl);
    intros Heq; apply pair_equal_spec in Heq as [Hn <-]; destruct n as [n|]; [apply children_of_nonneg in Hn|]; cbn; lia.
  all: destruct (integer_at b (p + 1) k) as [[len|e] q]; [|done]; specialize (Hint _ _ eq_refl);
    destruct (Z.ltb_spec len 0); [try done; intros [= <- <-]; cbn; lia|]; destruct (len <=? MAX_BULK_LEN); [|done];
    unfold payload_at; destruct (Z.ltb_spec (Z.of_nat (length b) - Z.of_nat q) (len + 2)); [done|];
    case_bool_decide as Hcr; [|done]; apply crlf_at_length in Hcr; intros [= <- <-]; cbn; lia.
Qed.

(** An open element whose type byte was read has no CRLF behind it so far, unless its header was
    read. *)
Lemma element_at_open b depth p :
  element_at b depth p 0 = (inr InvalidResponse, (p + 1)%nat) -> forall i, ~ crlf_at (drop (p + 1) b) i.
Proof.
  unfold element_at. destruct (b !! p) as [c|] eqn:Hc; [|intros [=]; lia]. apply lookup_lt_Some in Hc.
  destruct (RESPType_from_byte c) as [ty|]; [|done]. intros H. apply line_at_open.
  assert (Hint := integer_at_bounds b (p + 1) 0).
  destruct ty; try (destruct (line_at b (p + 1) 0) as [[s q]|e]; congruence).
  2, 5, 6, 7, 8: destruct (depth <? MAX_NESTING_DEPTH)%nat; [|done]; unfold integer_at in H;
    destruct (line_at b (p + 1) 0) as [[s q]|e]; [|congruence]; destruct (parse_int _ _ _ _); [|done];
    apply pair_equal_spec in H as [H _]; unfold children_of in H; repeat case_match; done.
  all: unfold integer_at in *; destruct (line_at b (p + 1) 0) as [[s q]|e]; [|congruence]; destruct (parse_int _ _ _ _) as [len|]; [|done];
    specialize (Hint _ _ eq_refl); exfalso; unfold payload_at in H; repeat case_match; simplify_eq; lia.
Qed.

(** ** The scanning loop *)

Definition stack_ok (st : list Z) : Prop := Forall (fun n => 1 <= n) st.

Lemma stack_ok_cons n st : 0 < n -> stack_ok st -> stack_ok (n :: st).
Proof. intros. apply list.Forall_cons. split; [lia|done]. Qed.
Lemma stack_ok_nil : stack_ok [].
Proof. constructor. Qed.
#[local] Hint Resolve stack_ok_cons stack_ok_nil : core.

Lemma unwind_ok st : stack_ok st -> exists st', unwind st = Ok st' /\ stack_ok st' /\ (length st' <= length st)%nat.
Proof.
  induction 1 as [|n st Hn Hst (st' & E & Hst' & Hl)]; cbn [unwind]; [exists []; auto|].
  rewrite (proj2 (Z.ltb_ge n 1)) by lia. destruct (Z.ltb_spec 0 (n - 1)) as [|].
  - eexists. split; [done|]. split; [auto|cbn; lia].
  - exists st'. split; [done|]. split; [done|]. cbn. lia.
Qed.

(** The skip that a blocked element at [p], read up to [p'], leaves. *)
Definition blocked_skip (b : bytes) (p p' : nat) : nat := if (p' =? p + 1)%nat then (length b - p' - 1)%nat else 0%nat.

(** A round of the loop. *)
Lemma scan_loop_round fuel s b :
  skip_ok b (sc_pos s + 1) (sc_crlf_skip s) ->
  scan_loop (S fuel) s b =
    match element_at b (length (stack s)) (sc_pos s) 0 with
    | (inr InvalidResponse, p') => Ok (inl NeedMoreData, mkScanner (sc_pos s) (stack s) (blocked_skip b (sc_pos s) p'))
    | (inr err, _) => Ok (inr err, s)
    | (inl n, p') =>
        if 0 <? default 0 n then scan_loop fuel (mkScanner p' (default 0 n :: stack s) 0) b
        else
          st ← unwind (stack s);
          if decide (st = []) then Ok (inl Complete, mkScanner p' st 0) else scan_loop fuel (mkScanner p' st 0) b
    end.
Proof.
  intros Hs. cbn [scan_loop]. destruct (scan_one_at b (length (stack s)) (sc_pos s) 0 (sc_crlf_skip s)) as (r & -> & Hr).
  rewrite element_at_skip in * by done. destruct (element_at b (length (stack s)) (sc_pos s) 0) as [[n|e] p']; cbn [fst snd] in *; subst p'.
  - cbn [mbind outcome_bind]. done.
  - cbn [mbind outcome_bind]. by destruct e.
Qed.

(** Enough fuel, and no more matters. *)
Lemma scan_loop_returns fuel s b :
  skip_ok b (sc_pos s + 1) (sc_crlf_skip s) -> stack_ok (stack s) -> (length b - sc_pos s < fuel)%nat ->
  exists x, forall fuel', (length b - sc_pos s < fuel')%nat -> scan_loop fuel' s b = Ok x.
Proof.
  revert s. induction fuel as [|fuel IH]; intros s Hk Hst Hf; [lia|].
  destruct (element_at b (length (stack s)) (sc_pos s) 0) as [[n|e] p'] eqn:E.
  - pose proof (element_at_progress _ _ _ _ _ _ E) as [Hp Hn].
    assert (Hnext : forall st, stack_ok st -> exists x, forall fuel', (length b - p' < fuel')%nat -> scan_loop fuel' (mkScanner p' st 0) b = Ok x).
    { intros st H. apply (IH (mkScanner p' st 0)); [apply skip_ok_0|done|cbn [sc_pos]; lia]. }
    destruct (unwind_ok _ Hst) as (st & Hu & Hst' & _).
    destruct (Z.ltb_spec 0 (default 0 n)) as [H0|H0].
    + destruct (Hnext (default 0 n :: stack s)) as (x & Hx); [auto|]. exists x.
      intros [|fuel'] Hf'; [lia|]. rewrite scan_loop_round, E, (proj2 (Z.ltb_lt _ _)) by done. apply Hx. lia.
    + destruct (decide (st = [])) as [->|Hne].
      * eexists. intros [|fuel'] Hf'; [lia|]. rewrite scan_loop_round, E, (proj2 (Z.ltb_ge _ _)), Hu by done. done.
      * destruct (Hnext st Hst') as (x & Hx). exists x. intros [|fuel'] Hf'; [lia|].
        rewrite scan_loop_round, E, (proj2 (Z.ltb_ge _ _)), Hu by done. cbn [mbind outcome_bind]. rewrite decide_False by done. apply Hx. lia.
  - destruct (decide (e = InvalidResponse)) as [->|Hne].
    + eexists. intros [|fuel'] Hf'; [lia|]. by rewrite scan_loop_round, E.
    + exists (inr e, s). intros [|fuel'] Hf'; [lia|]. rewrite scan_loop_round, E by done. by destruct e.
Qed.

(** The scan of [b] from [p] inside the aggregates [st]. *)
Definition scan_at (b : bytes) (p : nat) (st : list Z) : outcome ((ScanResult + RedisError) * ReplyScanner) :=
  scan_loop (S (length b - p)) (mkScanner p st 0) b.

(** A value ended at [p]. *)
Definition finish (b : bytes) (p : nat) (st : list Z) : outcome ((ScanResult + RedisError) * ReplyScanner) :=
  match unwind st with
  | Ok [] => Ok (inl Complete, mkScanner p [] 0)
  | Ok st => scan_at b p st
  | Panic => Panic
  | OutOfFuel => OutOfFuel
  end.

Lemma scan_loop_at fuel b p st : stack_ok st -> (length b - p < fuel)%nat -> scan_loop fuel (mkScanner p st 0) b = scan_at b p st.
Proof.
  intros Hst Hf. unfold scan_at.
  destruct (scan_loop_returns (S (length b - p)) (mkScanner p st 0) b) as (x & Hx); [apply skip_ok_0|done|cbn; lia|].
  rewrite !Hx by (cbn; lia). done.
Qed.

Lemma scan_at_eq b p st :
  stack_ok st ->
  scan_at b p st =
    match element_at b (length st) p 0 with
    | (inr InvalidResponse, p') => Ok (inl NeedMoreData, mkScanner p st (blocked_skip b p p'))
    | (inr err, _) => Ok (inr err, mkScanner p st 0)
    | (inl n, p') => if 0 <? default 0 n then scan_at b p' (default 0 n :: st) else finish b p' st
    end.
Proof.
  intros Hst. unfold scan_at at 1. rewrite scan_loop_round by apply skip_ok_0. cbn [stack sc_pos].
  destruct (element_at b (length st) p 0) as [[n|e] p'] eqn:E; [|done].
  apply element_at_progress in E as [Hp Hn]. destruct (unwind_ok st Hst) as (st' & Hu & Hst' & _).
  destruct (Z.ltb_spec 0 (default 0 n)).
  - apply scan_loop_at; [auto|lia].
  - unfold finish. rewrite Hu. cbn [mbind outcome_bind]. destruct st' as [|m st']; [done|]. rewrite decide_False by done.
    apply scan_loop_at; [done|lia].
Qed.

(** *** Resuming *)

(** The same answer; the same scanner too, unless the answer is an error. *)
Definition agree (x y : outcome ((ScanResult + RedisError) * ReplyScanner)) : Prop :=
  match x, y with
  | Ok (inl r, s), Ok (inl r', s') => r = r' /\ s = s'
  | Ok (inr e, _), Ok (inr e', _) => e = e'
  | _, _ => False
  end.

Lemma scan_returns b p st : stack_ok st -> exists x, scan_at b p st = Ok x.
Proof.
  intros Hst. destruct (scan_loop_returns (S (length b - p)) (mkScanner p st 0) b) as (x & Hx); [apply skip_ok_0|done|cbn; lia|].
  exists x. apply Hx. cbn. lia.
Qed.

Lemma agree_refl x : (exists y, x = Ok y) -> agree x x.
Proof. intros [[[r|e] s] ->]; done. Qed.

(** Skipping the bytes known to hold no CRLF changes nothing. *)
Lemma scan_skips s b :
  skip_ok b (sc_pos s + 1) (sc_crlf_skip s) -> stack_ok (stack s) -> agree (scan s b) (scan_at b (sc_pos s) (stack s)).
Proof.
  intros Hk Hst. unfold scan. rewrite scan_at_eq, scan_loop_round by done.
  destruct (element_at b (length (stack s)) (sc_pos s) 0) as [[n|e] p'] eqn:E.
  - pose proof (element_at_progress _ _ _ _ _ _ E) as [Hp Hn]. destruct (unwind_ok _ Hst) as (st' & Hu & Hst' & _).
    destruct (Z.ltb_spec 0 (default 0 n)).
    + assert (stack_ok (default 0 n :: stack s)) by auto. rewrite scan_loop_at by (done || lia). by apply agree_refl, scan_returns.
    + unfold finish. rewrite Hu. cbn [mbind outcome_bind]. destruct st' as [|m st']; [done|]. rewrite decide_False by done.
      rewrite scan_loop_at by (done || lia). by apply agree_refl, scan_returns.
  - by destruct e.
Qed.

(** A scanner that waits for more of the stream [b]. *)
Record waiting (b : bytes) (s : ReplyScanner) : Prop := {
  waiting_stack : stack_ok (stack s);
  waiting_skip : forall ext, skip_ok (b ++ ext) (sc_pos s + 1) (sc_crlf_skip s);
}.

Lemma blocked_skip_ok b ext p p' depth :
  element_at b depth p 0 = (inr InvalidResponse, p') -> skip_ok (b ++ ext) (p + 1) (blocked_skip b p p').
Proof.
  intros E. unfold blocked_skip. destruct (Nat.eqb_spec p' (p + 1)) as [->|]; [|apply skip_ok_0]. intros i Hi Hc.
  apply (element_at_open _ _ _ E i). rewrite drop_app_le in Hc by lia. apply crlf_at_app in Hc; [done|]. rewrite length_drop. lia.
Qed.

(** What more input does to a scan: an answer stays, and a wait is resumed where it stopped. *)
Lemma scan_at_extend b ext p st :
  stack_ok st ->
  match scan_at b p st with
  | Ok (inl NeedMoreData, s) => waiting b s /\ scan_at (b ++ ext) p st = scan_at (b ++ ext) (sc_pos s) (stack s)
  | x => agree (scan_at (b ++ ext) p st) x
  end.
Proof.
  remember (length b - p)%nat as m eqn:Hm. revert p st Hm. induction m as [m IH] using lt_wf_ind. intros p st Hm Hst.
  rewrite (scan_at_eq b p st Hst). destruct (element_at b (length st) p 0) as [[n|e] p'] eqn:E.
  - pose proof (element_at_progress _ _ _ _ _ _ E) as [Hp Hn].
    assert (E' : element_at (b ++ ext) (length st) p 0 = (inl n, p')) by (by rewrite element_at_extend; rewrite E).
    rewrite (scan_at_eq (b ++ ext) p st Hst), E'. destruct (unwind_ok st Hst) as (st' & Hu & Hst' & _).
    destruct (Z.ltb_spec 0 (default 0 n)).
    + apply (IH (length b - p')%nat); [lia|done|auto].
    + unfold finish. rewrite Hu. destruct st' as [|m' st']; [done|]. apply (IH (length b - p')%nat); [lia|done|done].
  - destruct (decide (e = InvalidResponse)) as [->|Hne].
    + split; [|done]. constructor; [done|]. intros ext'. cbn [sc_pos sc_crlf_skip]. by apply (blocked_skip_ok _ _ _ _ (length st)).
    + assert (E' : element_at (b ++ ext) (length st) p 0 = (inr e, p')) by (rewrite element_at_extend; rewrite E; [done|cbn; congruence]).
      rewrite (scan_at_eq (b ++ ext) p st Hst), E'. by destruct e.
Qed.

(** *** Segmentation *)

(** The scanner run on a stream that arrives in [chunks], one scan per chunk, up to its first answer;
    [buf] is what arrived before. *)
Fixpoint feed (s : ReplyScanner) (buf : bytes) (chunks : list bytes) : outcome ((ScanResult + RedisError) * ReplyScanner) :=
  match chunks with
  | [] => Ok (inl NeedMoreData, s)
  | c :: chunks =>
      '(r, s) ← scan s (buf ++ c);
      match r with
      | inl NeedMoreData => feed s (buf ++ c) chunks
      | _ => Ok (r, s)
      end
  end.

Lemma scan_reset_at b : scan scanner_reset b = scan_at b 0 [].
Proof. unfold scan, scan_at. by rewrite Nat.sub_0_r. Qed.

Lemma agree_sym x y : agree x y -> agree y x.
Proof. unfold agree. repeat case_match; intuition congruence. Qed.

Lemma agree_error x e s s' : agree x (Ok (inr e, s)) -> agree x (Ok (inr e, s')).
Proof. done. Qed.

Lemma feed_waiting s buf chunks :
  scan_at buf 0 [] = Ok (inl NeedMoreData, s) -> waiting buf s -> agree (feed s buf chunks) (scan_at (buf ++ concat chunks) 0 []).
Proof.
  revert s buf. induction chunks as [|c chunks IH]; intros s buf Hs Hw; cbn [feed concat].
  - by rewrite app_nil_r, Hs.
  - pose proof (scan_at_extend buf c 0 [] stack_ok_nil) as Hx. rewrite Hs in Hx. destruct Hx as [_ Hx].
    pose proof (scan_skips s (buf ++ c) (waiting_skip _ _ Hw c) (waiting_stack _ _ Hw)) as Ha. rewrite <- Hx in Ha.
    pose proof (scan_at_extend (buf ++ c) (concat chunks) 0 [] stack_ok_nil) as Hy. rewrite app_assoc.
    destruct (scan s (buf ++ c)) as [[[[]|e] s1]| |]; cbn [mbind outcome_bind]; [| |..|done|done];
      destruct (scan_at (buf ++ c) 0 []) as [[[[]|e'] s2]| |] eqn:E2; cbn in Ha; simplify_eq; try done; try (by destruct Ha).
    + destruct Ha as [_ <-]. apply agree_sym, Hy.
    + destruct Ha as [_ <-]. by apply IH; [|apply Hy].
    + apply agree_sym, (agree_error _ _ _ _ Hy).
Qed.

(** (C8) The scanner resumes: for every way to cut the stream of bytes into the segments in which
    it arrives, scanning after every segment gives the answer, the end of the reply and the state that
    one scan of the whole stream gives, and none of the scans panics or runs out of fuel.  (The states
    after an error, where the connection is closed, may differ.) *)
Theorem scan_incremental (chunks : list bytes) :
  agree (feed scanner_reset [] chunks) (scan scanner_reset (concat chunks)).
Proof.
  rewrite scan_reset_at. change (concat chunks) with ([] ++ concat chunks). apply feed_waiting; [done|].
  constructor; [apply stack_ok_nil|]. intros ext. apply skip_ok_0.
Qed.

(** ** The parser against the scanner *)

(** From position [p] of [b], [m] returns and never uses more than its budget; it leaves the reader at
    some [p'] with an [a] such that [K a p'], or fails with an error that satisfies [E]. *)
Definition reads {A} (m : reading A) (b : bytes) (p : nat) (K : A -> nat -> Prop) (E : RedisError -> Prop) : Prop :=
  forall g, 0 <= g -> exists res p' g', m (mkReader b p g 0) = Ok (res, mkReader b p' g' 0) /\ 0 <= g' <= g /\
    match res with inl a => K a p' | inr e => E e end.

(** The error may only say that bytes are missing if [B]. *)
Definition short (B : Prop) (e : RedisError) : Prop := e = InvalidResponse -> B.

Section reads.
Context (b : bytes).
Implicit Types (p : nat) (E : RedisError -> Prop).

Lemma reads_pure {A} (m : reading A) res p p' (K : A -> nat -> Prop) E :
  (forall g, m (mkReader b p g 0) = Ok (res, mkReader b p' g 0)) ->
  match res with inl a => K a p' | inr e => E e end -> reads m b p K E.
Proof. intros Hm H g Hg. exists res, p', g. split; [done|]. split; [lia|done]. Qed.

Lemma reads_ret {A} (a : A) p K E : K a p -> reads (mret a) b p K E.
Proof. intros H. by apply (reads_pure _ (inl a) p p). Qed.

Lemma reads_fail {A} e p (K : A -> nat -> Prop) E : E e -> reads (fail e) b p K E.
Proof. intros H. by apply (reads_pure _ (inr e) p p). Qed.

Lemma reads_bind {A A'} (m : reading A) (f : A -> reading A') p K E :
  reads m b p (fun a p' => reads (f a) b p' K E) E -> reads (m ≫= f) b p K E.
Proof.
  intros H g Hg. destruct (H g Hg) as (res & p' & g' & Em & Hg' & Hr). unfold mbind, reading_bind. rewrite Em.
  destruct res as [a|e]; [|by exists (inr e), p', g'].
  destruct (Hr g' ltac:(lia)) as (res & p2 & g2 & -> & Hg2 & Hr2). exists res, p2, g2. split; [done|]. split; [lia|done].
Qed.

Lemma reads_mono {A} (m : reading A) p (K K' : A -> nat -> Prop) E E' :
  reads m b p K E -> (forall a p', K a p' -> K' a p') -> (forall e, E e -> E' e) -> reads m b p K' E'.
Proof.
  intros H HK HE g Hg. destruct (H g Hg) as (res & p' & g' & Em & Hg' & Hr). exists res, p', g'. split; [done|]. split; [done|].
  destruct res as [a|e]; auto.
Qed.

Lemma reads_guard (c : bool) e p (K : unit -> nat -> Prop) E :
  (c = true -> K tt p) -> (c = false -> E e) -> reads (guard c e) b p K E.
Proof. intros HK HE. destruct c; [apply reads_ret; auto|apply reads_fail; auto]. Qed.

Lemma reads_gets {A} (f : ValkeyReader -> A) a p (K : A -> nat -> Prop) E :
  (forall g, f (mkReader b p g 0) = a) -> K a p -> reads (gets f) b p K E.
Proof. intros Hf H. apply (reads_pure _ (inl a) p p); [|done]. intros g. unfold gets. by rewrite Hf. Qed.

Lemma reads_lift {A} (m : outcome A) a p (K : A -> nat -> Prop) E : m = Ok a -> K a p -> reads (lift m) b p K E.
Proof. intros -> H. by apply (reads_pure _ (inl a) p p). Qed.

Lemma reads_advance n p (K : unit -> nat -> Prop) E : K tt (p + n)%nat -> reads (advance n) b p K E.
Proof. intros H. by apply (reads_pure _ (inl tt) p (p + n)). Qed.

Lemma reads_byte p (K : Z -> nat -> Prop) E :
  (forall c, b !! p = Some c -> K c (p + 1)%nat) -> (b !! p = None -> E InvalidResponse) -> reads read_byte b p K E.
Proof.
  intros HK HE. destruct (b !! p) as [c|] eqn:Hp.
  - apply (reads_pure _ (inl c) p (p + 1)); [|auto]. intros g. by rewrite read_byte_at, Hp.
  - apply (reads_pure _ (inr InvalidResponse) p p); [|auto]. intros g. by rewrite read_byte_at, Hp.
Qed.

Lemma reads_line p (K : bytes -> nat -> Prop) E :
  (p <= length b)%nat -> (forall s p', line_at b p 0 = inl (s, p') -> K s p') -> (forall e, line_at b p 0 = inr e -> E e) ->
  reads read_until_crlf b p K E.
Proof.
  intros Hp HK HE. destruct (line_at b p 0) as [[s p']|e] eqn:Hl.
  - apply (reads_pure _ (inl s) p p'); [|auto]. intros g. by rewrite read_until_crlf_line, Hl.
  - apply (reads_pure _ (inr e) p p); [|auto]. intros g. by rewrite read_until_crlf_line, Hl.
Qed.

Lemma reads_integer p (K : Z -> nat -> Prop) E :
  (p <= length b)%nat ->
  (forall v p', integer_at b p 0 = (inl v, p') -> K v p') -> (forall e p', integer_at b p 0 = (inr e, p') -> E e) ->
  reads read_integer b p K E.
Proof.
  intros Hp HK HE. destruct (integer_at b p 0) as [[v|e] p'] eqn:Hi.
  - apply (reads_pure _ (inl v) p p'); [|auto]. intros g. by rewrite read_integer_at, Hi.
  - apply (reads_pure _ (inr e) p p'); [|eauto]. intros g. by rewrite read_integer_at, Hi.
Qed.

Lemma reads_budget len size p (K : Z -> nat -> Prop) E : 0 <= len -> 0 <= size -> (forall cap, K cap p) -> reads (take_prealloc_budget len size) b p K E.
Proof.
  intros Hlen Hs HK g Hg. unfold take_prealloc_budget. cbn [prealloc_budget buffer pos crlf_skip].
  set (cap := Z.min len (g / Z.max size 1)).
  assert (0 <= cap * size <= g).
  { assert (0 <= g / Z.max size 1) by (apply Z.div_pos; lia). assert (Z.max size 1 * (g / Z.max size 1) <= g) by (apply Z.mul_div_le; lia). nia. }
  rewrite (proj2 (Z.leb_le _ _)) by lia. exists (inl cap), p, (g - cap * size). split; [done|]. split; [lia|apply HK].
Qed.
End reads.

(** [k] values are due inside [st], from [p] on. *)
Definition after (b : bytes) (k : Z) (p : nat) (st : list Z) : outcome ((ScanResult + RedisError) * ReplyScanner) :=
  if k <=? 0 then finish b p st else scan_at b p (k :: st).

Lemma finish_cons b k p st : 1 <= k -> finish b p (k :: st) = after b (k - 1) p st.
Proof.
  intros Hk. unfold finish, after. cbn [unwind]. rewrite (proj2 (Z.ltb_ge _ _)) by lia.
  destruct (Z.ltb_spec 0 (k - 1)); [by rewrite (proj2 (Z.leb_gt _ _)) by lia|by rewrite (proj2 (Z.leb_le _ _)) by lia].
Qed.

Definition blocked (x : outcome ((ScanResult + RedisError) * ReplyScanner)) : Prop := forall s, x <> Ok (inl Complete, s).

Lemma scan_at_header b p st n p' :
  stack_ok st -> element_at b (length st) p 0 = (inl n, p') -> scan_at b p st = after b (default 0 n) p' st.
Proof.
  intros Hst E. rewrite scan_at_eq, E by done. unfold after.
  destruct (Z.ltb_spec 0 (default 0 n)); [by rewrite (proj2 (Z.leb_gt _ _)) by lia|by rewrite (proj2 (Z.leb_le _ _)) by lia].
Qed.

Lemma scan_at_blocked b p st e p' e' : stack_ok st -> element_at b (length st) p 0 = (inr e, p') -> short (blocked (scan_at b p st)) e'.
Proof. intros Hst E _ s. rewrite scan_at_eq, E by done. by destruct e. Qed.

Lemma short_other B e : e <> InvalidResponse -> short B e.
Proof. by intros ? ?. Qed.

(** [m] reads a value as the scanner skips it, inside the aggregates [st]. *)
Definition scans {A} (b : bytes) (m : reading A) (st : list Z) : Prop :=
  forall p, (p <= length b)%nat ->
    reads m b p (fun _ p' => (p < p' <= length b)%nat /\ scan_at b p st = finish b p' st) (short (blocked (scan_at b p st))).

(** [m] reads [c] of the values that are due inside [st]. *)
Definition scans_due {A} (b : bytes) (m : reading A) (c : Z) (st : list Z) : Prop :=
  forall p k, (p <= length b)%nat -> c <= k ->
    reads m b p (fun _ p' => (p < p' <= length b)%nat /\ after b k p st = after b (k - c) p' st) (short (blocked (after b k p st))).

Lemma scans_due_one {A} b (m : reading A) st : (forall k, 1 <= k -> scans b m (k :: st)) -> scans_due b m 1 st.
Proof.
  intros H p k Hp Hk. assert (E : after b k p st = scan_at b p (k :: st)).
  { unfold after. by rewrite (proj2 (Z.leb_gt _ _)) by lia. }
  rewrite E. eapply reads_mono; [apply (H k Hk p Hp)| |done]. intros v p' [Hp' E']. by rewrite finish_cons in E'.
Qed.

Lemma scans_due_pair {A} b (m : reading A) st :
  scans_due b m 1 st -> scans_due b (key ← m; value ← m; mret (key, value)) 2 st.
Proof.
  intros H p k Hp Hk. apply reads_bind. eapply reads_mono; [apply (H p k); lia| |done]. intros key p1 [Hp1 E1]. cbn beta.
  apply reads_bind. eapply reads_mono; [apply (H p1 (k - 1)); lia| |by rewrite E1]. intros value p2 [Hp2 E2].
  apply reads_ret. split; [lia|]. rewrite E1, E2. f_equal. lia.
Qed.

Lemma scans_read_n {A} b (elem : reading A) c st fuel len k p :
  scans_due b elem c st -> 0 <= c -> (p <= length b)%nat -> (length b - p < fuel)%nat -> 0 <= len -> c * len <= k ->
  reads (read_n fuel elem len) b p (fun _ p' => (p <= p' <= length b)%nat /\ after b k p st = after b (k - c * len) p' st) (short (blocked (after b k p st))).
Proof.
  intros H Hc. revert p len k. induction fuel as [|fuel IH]; intros p len k Hp Hf Hlen Hk; [lia|]. cbn [read_n].
  destruct (Z.leb_spec len 0) as [H0|H0].
  - apply reads_ret. split; [lia|]. f_equal. nia.
  - apply reads_bind. eapply reads_mono; [apply (H p k); [lia|nia]| |done]. intros v p1 [Hp1 E1]. cbn beta.
    apply reads_bind. eapply reads_mono; [apply (IH p1 (len - 1) (k - c)); [lia|lia|lia|nia]| |by rewrite E1].
    intros l p2 [Hp2 E2]. apply reads_ret. split; [lia|]. rewrite E1, E2. f_equal. lia.
Qed.

Lemma scans_read_vec {A} b (elem : reading A) c st len k p :
  scans_due b elem c st -> 0 <= c -> (p <= length b)%nat -> 0 <= len -> c * len <= k ->
  reads (read_vec elem len) b p (fun _ p' => (p <= p' <= length b)%nat /\ after b k p st = after b (k - c * len) p' st) (short (blocked (after b k p st))).
Proof. intros. apply (scans_read_n b elem c st (S (length b))); lia || done. Qed.

(** *** Payloads *)

Lemma line_at_nil b p p' : line_at b p 0 = inl ([], p') <-> crlf_at b p /\ p' = (p + 2)%nat.
Proof.
  destruct (line_at_first b p 0 (skip_ok_0 b p)) as (r & H & ->). split.
  - destruct r as [i|]; [|done]. destruct H as (_ & Hc & _). intros [= E <-]. pose proof (crlf_at_length _ _ Hc).
    destruct i as [|i]; [|destruct (drop p b); cbn in *; [lia|done]]. apply crlf_at_drop in Hc. rewrite Nat.add_0_r in Hc. split; [done|lia].
  - intros [Hc ->]. rewrite <- (Nat.add_0_r p) in Hc at 1. apply crlf_at_drop in Hc. pose proof (crlf_at_length _ _ Hc) as Hl.
    rewrite (first_crlf_unique (drop p b) 0 (line_limit (drop p b)) r (Some 0%nat) H); [by rewrite Nat.add_0_r|].
    split; [unfold line_limit, MAX_LINE_LEN; lia|]. split; [done|lia].
Qed.

Lemma reads_payload b len e1 e2 invalid p (K : bytes -> nat -> Prop) (E : RedisError -> Prop) :
  (p <= length b)%nat -> 0 <= len ->
  (forall p', payload_at b p len invalid = (inl None, p') -> (p < p' <= length b)%nat -> K (take (Z.to_nat len) (drop p b)) p') ->
  (forall e p', payload_at b p len invalid = (inr e, p') -> forall e, E e) ->
  reads (read_payload len e1 e2) b p K E.
Proof.
  intros Hp Hlen HK HE. unfold read_payload. apply reads_bind, (reads_gets b pos p); [done|].
  apply reads_bind, (reads_gets b (fun r => length (buffer r)) (length b)); [done|]. unfold payload_at in *.
  apply reads_bind, reads_guard; intros Hl.
  2:{ apply Z.leb_gt in Hl. rewrite (proj2 (Z.ltb_lt _ _)) in HE by lia. eauto. }
  apply Z.leb_le in Hl. apply reads_bind, (reads_gets b buffer b); [done|].
  eapply reads_bind, reads_lift; [apply slice_range_ok; lia|]. apply reads_bind, reads_advance, reads_bind.
  replace (p + Z.to_nat len - p)%nat with (Z.to_nat len) by lia.
  assert (Hno : line_at b (p + Z.to_nat len) 0 <> inl ([], (p + Z.to_nat len + 2)%nat) -> forall e, E e).
  { intros Hne. destruct (_ <? _); [eauto|]. case_bool_decide as Hc; [|eauto]. destruct Hne. by apply line_at_nil. }
  apply reads_line; [lia| |].
  - intros s p' Hs. apply reads_bind, reads_guard; intros Hn.
    + apply bool_decide_eq_true in Hn as ->. apply line_at_nil in Hs as [Hc ->]. pose proof (crlf_at_length _ _ Hc).
      apply reads_ret, HK; [|lia]. rewrite (proj2 (Z.ltb_ge _ _)), bool_decide_eq_true_2 by (done || lia). done.
    + apply bool_decide_eq_false in Hn. apply Hno. congruence.
  - intros e He. apply Hno. congruence.
Qed.

(** *** One value *)

Lemma integer_at_line b p v p' : integer_at b p 0 = (inl v, p') -> exists s, line_at b p 0 = inl (s, p').
Proof. unfold integer_at. destruct (line_at b p 0) as [[s q]|]; [|done]. destruct (parse_int _ _ _ _); [|done]. intros [= _ <-]. by exists s. Qed.

Lemma integer_at_open b p p' : integer_at b p 0 = (inr InvalidResponse, p') -> line_at b p 0 = inr InvalidResponse.
Proof. unfold integer_at. destruct (line_at b p 0) as [[s q]|e]; [by destruct (parse_int _ _ _ _)|]. congruence. Qed.

Lemma integer_at_range b p v p' : integer_at b p 0 = (inl v, p') -> I64_MIN <= v <= I64_MAX.
Proof.
  unfold integer_at. destruct (line_at b p 0) as [[s q]|]; [|done]. destruct (parse_int _ _ _ _) as [w|] eqn:E; [|done].
  intros [= -> _]. by apply parse_int_range in E.
Qed.

(** [m] reads a line and looks at nothing else. *)
Definition lined {A} (b : bytes) (m : reading A) : Prop :=
  forall p, (p <= length b)%nat -> reads m b p (fun _ p' => exists s, line_at b p 0 = inl (s, p')) (short (line_at b p 0 = inr InvalidResponse)).

Lemma lined_line b : lined b read_until_crlf.
Proof. intros p Hp. apply reads_line; [done|eauto|]. by intros e He ->. Qed.

Lemma lined_integer b : lined b read_integer.
Proof. intros p Hp. apply reads_integer; [done|eauto using integer_at_line|]. intros e p' He ->. by apply integer_at_open in He. Qed.

(** What follows the line returns, or fails otherwise than by missing bytes. *)
Lemma lined_bind {A B} b (m : reading A) (f : A -> reading B) :
  lined b m -> (forall a, (exists v, f a = mret v) \/ (exists e, f a = fail e /\ e <> InvalidResponse)) -> lined b (m ≫= f).
Proof.
  intros H Hf p Hp. apply reads_bind. eapply reads_mono; [apply (H p Hp)| |done]. intros a p' E. cbn beta.
  destruct (Hf a) as [[v ->]|(e & -> & He)]; [by apply reads_ret|by apply reads_fail, short_other].
Qed.

Section read_value_scans.
Context (F : Type) (INFINITY NEG_INFINITY NAN : F) (parse_f64 : bytes -> option F) (value_size entry_size : Z).
Context (Hvalue : 0 <= value_size) (Hentry : 0 <= entry_size).
Context (b : bytes).

Lemma lined_double : lined b (read_double F INFINITY NEG_INFINITY NAN parse_f64).
Proof.
  apply lined_bind; [apply lined_line|]. intros s. repeat case_decide; [eauto..|]. destruct (parse_f64 s); [eauto|]. right. by eexists.
Qed.

Lemma lined_boolean : lined b read_boolean.
Proof.
  apply lined_bind; [apply lined_line|]. intros [|c [|]]; [right; by eexists| |right; by eexists].
  destruct (c =? ch "t"); [eauto|]. destruct (c =? ch "f"); [eauto|]. right. by eexists.
Qed.

Context (st : list Z) (Hst : stack_ok st) (p : nat) (c : Z) (Hc : b !! p = Some c).

(** The value whose type byte is at [p]: what is left to read. *)
#[local] Notation value_read m p0 :=
  (reads m b p0 (fun _ p' => (p < p' <= length b)%nat /\ scan_at b p st = finish b p' st) (short (blocked (scan_at b p st)))) (only parsing).

Lemma scans_line {A} (m : reading A) :
  lined b m ->
  element_at b (length st) p 0 = match line_at b (p + 1) 0 with inl (_, p') => (inl None, p') | inr e => (inr e, (p + 1)%nat) end ->
  value_read m (p + 1).
Proof.
  intros Hm E. apply lookup_lt_Some in Hc as Hp.  eapply reads_mono; [apply (Hm (p + 1)%nat); lia| |].
  - intros a p' [s Hs]. rewrite Hs in E. apply line_at_bounds in Hs. split; [lia|]. by rewrite (scan_at_header b p st None p').
  - intros e Hs ->. rewrite Hs in E by done. by apply (scan_at_blocked _ _ _ _ _ InvalidResponse Hst) in E; apply E.
Qed.

Lemma scans_payload {A} ty len p1 e1 e2 (f : bytes -> reading A) :
  0 <= len -> (p < p1 <= length b)%nat ->
  element_at b (length st) p 0 = payload_at b p1 len (is_invalid_bulk ty) ->
  (forall s, (exists v, f s = mret v) \/ (exists e, f s = fail e /\ e <> InvalidResponse)) ->
  value_read (read_payload len e1 e2 ≫= f) p1.
Proof.
  intros Hlen Hp1 E Hf. apply reads_bind. apply (reads_payload b len e1 e2 (is_invalid_bulk ty)); [lia|done| |].
  - intros p' Hp' Hb. rewrite Hp' in E. apply scan_at_header in E; [|done].
    destruct (Hf (take (Z.to_nat len) (drop p1 b))) as [[v ->]|(e & -> & He)]; [|by apply reads_fail, short_other].
    apply reads_ret. split; [lia|done].
  - intros e p' Hp' e'. rewrite Hp' in E. by apply (scan_at_blocked _ _ _ _ _ e' Hst) in E.
Qed.

Lemma scans_sized {A} ty (f : Z -> reading A) :
  element_at b (length st) p 0 =
    match integer_at b (p + 1) 0 with
    | (inr e, p') => (inr e, p')
    | (inl len, p') =>
        if len <? 0 then (match ty with TBulkString => inl None | _ => inr (is_invalid_bulk ty) end, p')
        else if len <=? MAX_BULK_LEN then payload_at b p' len (is_invalid_bulk ty) else (inr (is_invalid_bulk ty), p')
    end ->
  (forall len p', (p < p' <= length b)%nat ->
    element_at b (length st) p 0 =
      (if len <? 0 then (match ty with TBulkString => inl None | _ => inr (is_invalid_bulk ty) end, p')
       else if len <=? MAX_BULK_LEN then payload_at b p' len (is_invalid_bulk ty) else (inr (is_invalid_bulk ty), p')) ->
    value_read (f len) p') ->
  value_read (len ← read_integer; f len) (p + 1).
Proof.
  intros E Hf. apply lookup_lt_Some in Hc as Hp. apply reads_bind, reads_integer; [lia| |].
  - intros len p' Hi. rewrite Hi in E. apply integer_at_bounds in Hi. apply Hf; [lia|done].
  - intros e p' Hi. rewrite Hi in E. by apply (scan_at_blocked _ _ _ _ _ e Hst) in E.
Qed.

Lemma scans_verbatim :
  element_at b (length st) p 0 =
    match integer_at b (p + 1) 0 with
    | (inr e, p') => (inr e, p')
    | (inl len, p') =>
        if len <? 0 then (inr InvalidVerbatimString, p')
        else if len <=? MAX_BULK_LEN then payload_at b p' len InvalidVerbatimString else (inr InvalidVerbatimString, p')
    end ->
  value_read read_verbatim_string (p + 1).
Proof.
  intros E. apply (scans_sized TVerbatimString); [done|]. intros len p1 Hp1 E'. cbn [is_invalid_bulk] in E'.
  apply reads_bind, reads_guard; [|done]. intros [Hlen Hmax]%andb_true_iff. apply Z.leb_le in Hlen.
  rewrite (proj2 (Z.ltb_ge _ _)), Hmax in E' by done. apply (scans_payload TVerbatimString); [done|done|done|].
  intros s. destruct (_ && _) eqn:Hs; [left|right; by eexists]. apply andb_true_iff in Hs as [Hl _].
  apply negb_true_iff, Nat.ltb_ge in Hl. rewrite slice_range_ok, slice_from_ok by lia. by eexists.
Qed.

Lemma scans_aggregate {A} ty (f : Z -> reading A) :
  element_at b (length st) p 0 =
    (if (length st <? MAX_NESTING_DEPTH)%nat
     then match integer_at b (p + 1) 0 with (inr e, p') => (inr e, p') | (inl len, p') => (children_of ty len, p') end
     else (inr NestingDepthExceeded, (p + 1)%nat)) ->
  (forall len p', (length st < MAX_NESTING_DEPTH)%nat -> (p < p' <= length b)%nat -> I64_MIN <= len <= I64_MAX ->
    match children_of ty len with
    | inl n => scan_at b p st = after b (default 0 n) p' st
    | inr _ => forall e, short (blocked (scan_at b p st)) e
    end -> value_read (f len) p') ->
  value_read (_ ← guard (length st <? MAX_NESTING_DEPTH)%nat NestingDepthExceeded; len ← read_integer; f len) (p + 1).
Proof.
  intros E Hf. apply lookup_lt_Some in Hc as Hp. apply reads_bind, reads_guard; [|done]. intros Hd. rewrite Hd in E. apply Nat.ltb_lt in Hd.
  apply reads_bind, reads_integer; [lia| |].
  - intros len p' Hi. rewrite Hi in E. pose proof (integer_at_range _ _ _ _ Hi). apply integer_at_bounds in Hi.
    apply Hf; [done|lia|done|]. destruct (children_of ty len) as [n|e]; [by apply scan_at_header|intros e'; by apply (scan_at_blocked _ _ _ _ _ e' Hst) in E].
  - intros e p' Hi. rewrite Hi in E. by apply (scan_at_blocked _ _ _ _ _ e Hst) in E.
Qed.

(** The elements of an aggregate, [w] values each, and what is due behind them. *)
Lemma scans_elements {A A'} (m : reading A) (f : list A -> reading A') w size len n p1 :
  scans_due b m w st -> 0 <= w -> 0 <= size -> 0 <= len -> w * len <= n -> (p < p1 <= length b)%nat ->
  scan_at b p st = after b n p1 st ->
  (forall l p', (p < p' <= length b)%nat -> scan_at b p st = after b (n - w * len) p' st -> value_read (f l) p') ->
  value_read (_ ← take_prealloc_budget len size; l ← read_vec m len; f l) p1.
Proof.
  intros Hm Hw Hsize Hlen Hn Hp1 E Hf. apply reads_bind, reads_budget; [done|done|]. intros _. apply reads_bind.
  eapply reads_mono; [apply (scans_read_vec b m w st len n p1); (done || lia)| |by rewrite E].
  intros l p' [Hp' E']. apply Hf; [lia|]. by rewrite E.
Qed.

Lemma after_done k p' : k <= 0 -> after b k p' st = finish b p' st.
Proof. intros Hk. unfold after. by rewrite (proj2 (Z.leb_le _ _)) by lia. Qed.
End read_value_scans.

Section simulation.
Context (F : Type) (INFINITY NEG_INFINITY NAN : F) (parse_f64 : bytes -> option F) (value_size entry_size : Z).
Context (Hvalue : 0 <= value_size) (Hentry : 0 <= entry_size).
Context (b : bytes).

#[local] Notation read := (read_value_with_depth F INFINITY NEG_INFINITY NAN parse_f64 value_size entry_size).

Lemma read_value_scans levels st :
  stack_ok st -> (levels + length st = S MAX_NESTING_DEPTH)%nat -> (length st <= MAX_NESTING_DEPTH)%nat -> scans b (read levels (length st)) st.
Proof.
  revert st. induction levels as [|levels IH]; intros st Hst Hlv Hd p Hp; [lia|]. cbn [read_value_with_depth]. apply reads_bind, reads_byte.
  2:{ intros Hc. apply (scan_at_blocked b p st InvalidResponse p _ Hst). unfold element_at. by rewrite Hc. }
  intros c Hc. assert (Hel : element_at b (length st) p 0 = element_at b (length st) p 0) by done. unfold element_at in Hel at 2. rewrite Hc in Hel.
  assert (Hone : (length st < MAX_NESTING_DEPTH)%nat -> scans_due b (read levels (length st + 1)) 1 st).
  { intros Hd'. apply scans_due_one. intros k Hk. rewrite Nat.add_1_r. apply (IH (k :: st)); [apply stack_ok_cons; [lia|done]|cbn [length]; lia..]. }
  pose proof (fun H => scans_due_pair _ _ _ (Hone H)) as Htwo. pose proof (@scans_line b st Hst p c Hc (RESPValue F)) as Hline.
  pose proof (after_done b st) as Hdone.
  assert (Hmul : forall len, len <= I64_MAX -> saturating_mul2 len = len * 2) by (unfold saturating_mul2, U64_MAX, I64_MAX; lia).
  destruct (RESPType_from_byte c) as [ty|]; [|by apply reads_fail, short_other].
  destruct ty.
  - apply Hline; [|done]. apply lined_bind; [apply lined_line|eauto].
  - apply Hline; [|done]. apply lined_bind; [apply lined_line|eauto].
  - apply Hline; [|done]. apply lined_bind; [apply lined_integer|eauto].
  - apply (scans_sized b st Hst p c Hc TBulkString); [done|]. intros len p1 Hp1 E. cbn in E.
    destruct (Z.ltb_spec len 0) as [|Hlen]; [|apply reads_bind, reads_guard; intros Hmax; [rewrite Hmax in E|done]].
    + apply reads_ret. split; [done|]. by apply scan_at_header in E.
    + eapply (scans_payload b st Hst p TBulkString); [done|done|done|eauto].
  - apply (scans_aggregate b st Hst p c Hc TArray); [done|]. intros len p1 Hd' Hp1 Hr Hn. cbn [children_of] in Hn.
    destruct (Z.ltb_spec len 0).
    + apply reads_ret. cbn [default id] in Hn. split; [done|]. by rewrite Hn, Hdone.
    + eapply (scans_elements b st p _ _ 1); [by apply Hone|lia|done|done| |done|exact Hn|]; [cbn; lia|].
      intros l q Hq E. apply reads_ret. split; [done|]. rewrite E, Hdone; [done|cbn;lia].
  - apply Hline; [|done]. apply lined_bind; [apply lined_line|eauto].
  - apply Hline; [|done]. apply lined_bind; [apply lined_double|eauto].
  - apply Hline; [|done]. apply lined_bind; [apply lined_boolean|eauto].
  - apply (scans_sized b st Hst p c Hc TBlobError); [done|]. intros len p1 Hp1 E. cbn in E.
    apply reads_bind, reads_guard; [|done]. intros [Hlen Hmax]%andb_true_iff. apply Z.leb_le in Hlen.
    rewrite (proj2 (Z.ltb_ge _ _)), Hmax in E by done. eapply (scans_payload b st Hst p TBlobError); [done|done|done|eauto].
  - apply reads_bind. eapply reads_mono; [by apply (scans_verbatim b st Hst p c Hc)| |done].
    intros v q H. by apply reads_ret.
  - apply (scans_aggregate b st Hst p c Hc TMap); [done|]. intros len p1 Hd' Hp1 Hr Hn. cbn [children_of] in Hn.
    apply reads_bind, reads_guard; [|done]. intros H0. rewrite H0 in Hn. apply Z.leb_le in H0.
    rewrite Hmul in Hn by lia. cbn [default id] in Hn.
    eapply (scans_elements b st p _ _ 2); [by apply Htwo|lia|done|done| |done|exact Hn|]; [lia|].
    intros l q Hq E. apply reads_ret. split; [done|]. rewrite E, Hdone; [done|lia].
  - apply (scans_aggregate b st Hst p c Hc TSet); [done|]. intros len p1 Hd' Hp1 Hr Hn. cbn [children_of] in Hn.
    apply reads_bind, reads_guard; [|done]. intros H0. rewrite H0 in Hn. apply Z.leb_le in H0.
    eapply (scans_elements b st p _ _ 1); [by apply Hone|lia|done|done| |done|exact Hn|]; [cbn; lia|].
    intros l q Hq E. apply reads_ret. split; [done|]. rewrite E, Hdone; [done|cbn;lia].
  - apply (scans_aggregate b st Hst p c Hc TAttribute); [done|]. intros len p1 Hd' Hp1 Hr Hn. cbn [children_of] in Hn.
    apply reads_bind, reads_guard; [|done]. intros H0. rewrite H0 in Hn. apply Z.leb_le in H0.
    rewrite Hmul in Hn by lia. cbn [default id] in Hn. rewrite Z.min_r in Hn by (unfold U64_MAX, I64_MAX in *; lia).
    eapply (scans_elements b st p _ _ 2); [by apply Htwo|lia|done|done| |done|exact Hn|]; [lia|].
    intros l q Hq E. apply reads_bind. replace (len * 2 + 1 - 2 * len) with 1 in E by lia. rewrite E.
    eapply reads_mono; [apply (Hone Hd' q 1); lia| |done]. intros v q' [Hq' E']. apply reads_ret. split; [lia|]. by rewrite E', Hdone.
  - apply (scans_aggregate b st Hst p c Hc TPush); [done|]. intros len p1 Hd' Hp1 Hr Hn. cbn [children_of] in Hn.
    apply reads_bind, reads_guard; [|done]. intros H0. rewrite H0 in Hn. apply Z.ltb_lt in H0. cbn [default id] in Hn.
    apply reads_bind. rewrite Hn. eapply reads_mono; [apply (Hone Hd' p1 len); lia| |done]. intros v q [Hq E]. cbn beta.
    assert (Hdata : forall kind, reads (_ ← take_prealloc_budget (len - 1) value_size; data ← read_vec (read levels (length st + 1)) (len - 1); mret (Push kind data)) b q
      (fun _ p' => (p < p' <= length b)%nat /\ after b len p1 st = finish b p' st) (short (blocked (after b len p1 st)))).
    { intros kind. rewrite <- Hn. eapply (scans_elements b st p _ _ 1 _ _ (len - 1)); [by apply Hone|lia|done|lia|lia|lia|by rewrite Hn, E|].
      intros l q' Hq' E'. apply reads_ret. split; [done|]. rewrite E', Hdone; [done|cbn;lia]. }
    destruct v as [| | |[]| | | | | | | | | | |]; try (by apply reads_fail, short_other); apply Hdata.
  - apply Hline; [|done]. apply lined_bind; [apply lined_line|eauto].
Qed.

(** (C10) The scanner and the parser agree on every buffer of bytes: the parser never panics (no
    index, slice or budget subtraction is out of range) nor recurses past its 129 levels, and never
    takes more than the length of the buffer from the preallocation budget; when it reads a value, the
    scanner answers that a reply is complete and ends at the same byte; and when it finds that bytes are
    missing, the scanner does not answer that the reply is complete. *)
Theorem valkey_scan_agrees :
  exists res p g, read_value F INFINITY NEG_INFINITY NAN parse_f64 value_size entry_size (reader_init b) = Ok (res, mkReader b p g 0) /\
    0 <= g <= Z.of_nat (length b) /\
    match res with
    | inl _ => (0 < p <= length b)%nat /\ scan scanner_reset b = Ok (inl Complete, mkScanner p [] 0)
    | inr InvalidResponse => forall s, scan scanner_reset b <> Ok (inl Complete, s)
    | inr _ => True
    end.
Proof.
  destruct (read_value_scans (S MAX_NESTING_DEPTH) [] stack_ok_nil (Nat.add_0_r _) (Nat.le_0_l _) 0%nat (Nat.le_0_l _) (Z.of_nat (length b)) ltac:(lia))
    as (res & p & g & E & Hg & H). rewrite <- scan_reset_at in H.
  exists res, p, g. split; [|split; [done|]].
  - unfold read_value, reader_init. cbn [buffer pos crlf_skip]. by rewrite Z.sub_0_r.
  - destruct res as [v|e]; [by destruct H as [Hp ->]|]. destruct e; try done. by apply H.
Qed.
End simulation.

Lemma valkey_scan_agrees_witness :
  0 <= 32 /\ 0 <= 64 /\
  exists res p g, read_value Z 0 1 2 (fun _ => None) 32 64 (reader_init (str "%1" ++ [13; 10] ++ str "+a" ++ [13; 10] ++ str ":7" ++ [13; 10])) =
      Ok (res, mkReader (str "%1" ++ [13; 10] ++ str "+a" ++ [13; 10] ++ str ":7" ++ [13; 10]) p g 0) /\
    0 <= g <= 12 /\
    match res with
    | inl _ => (0 < p <= 12)%nat /\
        scan scanner_reset (str "%1" ++ [13; 10] ++ str "+a" ++ [13; 10] ++ str ":7" ++ [13; 10]) = Ok (inl Complete, mkScanner p [] 0)
    | inr InvalidResponse =>
        forall s, scan scanner_reset (str "%1" ++ [13; 10] ++ str "+a" ++ [13; 10] ++ str ":7" ++ [13; 10]) <> Ok (inl Complete, s)
    | inr _ => True
    end.
Proof.
  split; [lia|]. split; [lia|].
  apply (valkey_scan_agrees Z 0 1 2 (fun _ => None) 32 64 ltac:(lia) ltac:(lia) (str "%1" ++ [13; 10] ++ str "+a" ++ [13; 10] ++ str ":7" ++ [13; 10])).
Defined.

(** ** Commands *)

(** The text [t] starts at [p]. *)
Definition text (b : bytes) (p : nat) (t : bytes) : Prop := t `prefix_of` drop p b.

Lemma text_app b p t1 t2 : text b p (t1 ++ t2) <-> text b p t1 /\ text b (p + length t1) t2.
Proof.
  unfold text. split.
  - intros [k Hk]. rewrite <- app_assoc in Hk. split; [by exists (t2 ++ k)|]. exists k.
    by rewrite <- drop_drop, Hk, drop_app_length.
  - intros [[k Hk] [k' Hk']]. rewrite <- drop_drop, Hk, drop_app_length in Hk'. exists k'. by rewrite Hk, Hk', app_assoc.
Qed.

Lemma text_bound b p t : text b p t -> (p <= length b)%nat -> (p + length t <= length b)%nat.
Proof. intros [k Hk] Hp. apply (f_equal length) in Hk. rewrite length_drop, length_app in Hk. lia. Qed.

Lemma text_lookup b p c t : text b p (c :: t) -> b !! p = Some c.
Proof. intros [k Hk]. by rewrite <- (Nat.add_0_r p), <- lookup_drop, Hk. Qed.

Lemma text_line b p s :
  text b p (s ++ CRLF) -> 13 ∉ s -> Z.of_nat (length s) <= MAX_LINE_LEN -> line_at b p 0 = inl (s, (p + length s + 2)%nat).
Proof.
  intros [k Hk] Hs Hl. rewrite <- app_assoc in Hk. destruct (line_at_first b p 0 (skip_ok_0 b p)) as (r & H & ->). rewrite Hk in *.
  rewrite (first_crlf_unique _ _ _ _ (Some (length s)) H); [by rewrite take_app_length|].
  unfold line_limit. rewrite !length_app. cbn [length CRLF].
  split; [lia|]. split; [split; rewrite lookup_app_r by lia; [by rewrite Nat.sub_diag|by replace (S (length s) - length s)%nat with 1%nat by lia]|].
  intros j Hj [Hc _]. rewrite lookup_app_l in Hc by lia. by apply Hs, list_elem_of_lookup_2 with j.
Qed.

Lemma text_integer b p n :
  text b p (fmt_uint n ++ CRLF) -> 0 <= n <= I64_MAX -> integer_at b p 0 = (inl n, (p + length (fmt_uint n) + 2)%nat).
Proof.
  intros Ht Hn. assert (Hu : 0 <= n <= U128_MAX) by (unfold I64_MAX, U128_MAX in *; lia).
  destruct (fmt_uint_spec n Hu) as (Hne & Hd & Hv). unfold integer_at.
  rewrite (text_line _ _ (fmt_uint n)); [|done| |].
  - rewrite parse_int_digits, Hv by (done || unfold I64_MAX, U128_MAX in *; lia). by rewrite (proj2 (Z.leb_le _ _)) by lia.
  - intros H13. by apply (proj1 (list.Forall_forall _ _) Hd) in H13.
  - pose proof (fmt_uint_length n 40 ltac:(lia) ltac:(unfold I64_MAX in *; lia)). unfold MAX_LINE_LEN. lia.
Qed.

Lemma text_payload b p s invalid :
  text b p (s ++ CRLF) -> payload_at b p (Z.of_nat (length s)) invalid = (inl None, (p + length s + 2)%nat) /\ take (length s) (drop p b) = s.
Proof.
  intros Ht. pose proof Ht as [k Hk]. rewrite <- app_assoc in Hk. split; [|by rewrite Hk, take_app_length].
  apply text_app in Ht as [_ [k' Hk']]. unfold payload_at. rewrite Nat2Z.id. pose proof (f_equal length Hk) as Hl.
  rewrite length_drop, !length_app in Hl. cbn [length CRLF] in Hl. rewrite (proj2 (Z.ltb_ge _ _)) by lia.
  rewrite bool_decide_eq_true_2; [done|]. rewrite <- (Nat.add_0_r (length s)), Nat.add_assoc. apply crlf_at_drop. by rewrite Hk'.
Qed.

Section command.
Context (F : Type) (INFINITY NEG_INFINITY NAN : F) (parse_f64 : bytes -> option F) (value_size entry_size : Z).
Context (Hvalue : 0 <= value_size).
Context (b : bytes).

#[local] Notation read := (read_value_with_depth F INFINITY NEG_INFINITY NAN parse_f64 value_size entry_size).

(** The header of a length: a type byte, the digits and CRLF. *)
Lemma text_header p c n t :
  text b p (c :: fmt_uint n ++ CRLF ++ t) -> 0 <= n <= I64_MAX ->
  b !! p = Some c /\ integer_at b (p + 1) 0 = (inl n, (p + 1 + length (fmt_uint n) + 2)%nat) /\
  text b (p + 1 + length (fmt_uint n) + 2) t /\ (p + 1 + length (fmt_uint n) + 2 + length t <= length b)%nat.
Proof.
  intros Ht Hn. split; [by apply text_lookup in Ht|].
  pose proof (text_bound b p _ Ht) as Hb. pose proof (lookup_lt_Some _ _ _ (text_lookup _ _ _ _ Ht)).
  cbn [length] in Hb. rewrite !length_app in Hb. cbn [length CRLF] in Hb.
  apply (text_app b p [c]) in Ht as [_ Ht]. cbn [length] in Ht. rewrite app_assoc in Ht. apply text_app in Ht as [Hi Ht].
  split; [by apply text_integer|]. rewrite length_app in Ht. cbn [length CRLF] in Ht. rewrite Nat.add_assoc in Ht. split; [done|lia].
Qed.

Lemma reads_bulk levels depth p s :
  text b p (write_bulk s) -> Z.of_nat (length s) <= MAX_BULK_LEN ->
  reads (read (S levels) depth) b p
    (fun v p' => v = BulkString (Some s) /\ p' = (p + length (write_bulk s))%nat /\ (p' <= length b)%nat) (fun _ => False).
Proof.
  intros Ht Hs. apply text_header in Ht as (Hc & Hi & Ht & Hb); [|unfold MAX_BULK_LEN, I64_MAX in *; lia].
  rewrite length_app in Hb. cbn [length CRLF] in Hb.
  cbn [read_value_with_depth]. apply reads_bind, reads_byte; [|congruence]. intros c' Hc'. assert (c' = ch "$") as -> by congruence.
  cbn [RESPType_from_byte RESPType_all List.find RESPType_code Z.eqb Pos.eqb].
  apply reads_bind, reads_integer; [lia| |congruence]. rewrite Hi. intros _ _ [= <- <-].
  rewrite (proj2 (Z.ltb_ge _ 0)) by lia. apply reads_bind, reads_guard; [intros _|by intros ?%Z.leb_gt; lia].
  destruct (text_payload _ _ _ InvalidBulkString Ht) as [Hp Htake].
  apply reads_bind, (reads_payload b _ _ _ InvalidBulkString); [lia|lia| |congruence].
  rewrite Hp. intros _ [= <-] _. apply reads_ret. rewrite Nat2Z.id, Htake. split; [done|].
  unfold write_bulk. cbn [length]. rewrite !length_app. cbn [length CRLF]. lia.
Qed.

Lemma reads_bulks levels depth l fuel p :
  text b p (concat (map write_bulk l)) -> (p <= length b)%nat -> Forall (fun s => Z.of_nat (length s) <= MAX_BULK_LEN) l -> (length l <= fuel)%nat ->
  reads (read_n fuel (read (S levels) depth) (Z.of_nat (length l))) b p
    (fun v p' => v = map (fun s => BulkString (Some s)) l /\ p' = (p + length (concat (map write_bulk l)))%nat) (fun _ => False).
Proof.
  revert p fuel. induction l as [|s l IH]; intros p fuel Ht Hp Hl Hf.
  - destruct fuel; apply reads_ret; cbn; by rewrite Nat.add_0_r.
  - destruct fuel as [|fuel]; [cbn in Hf; lia|]. cbn [map concat] in *. apply text_app in Ht as [Hs Ht].
    apply list.Forall_cons in Hl as [H1 Hl]. cbn [read_n]. rewrite (proj2 (Z.leb_gt _ _)) by (cbn; lia).
    apply reads_bind. eapply reads_mono; [by apply reads_bulk| |done]. intros v _ (-> & -> & Hp'). cbn beta.
    replace (Z.of_nat (length (s :: l)) - 1) with (Z.of_nat (length l)) by (cbn; lia).
    apply reads_bind. eapply reads_mono; [apply (IH _ fuel); [done|done|done|cbn in Hf; lia]| |done]. intros v _ (-> & ->).
    apply reads_ret. rewrite length_app. split; [done|lia].
Qed.
Lemma reads_command levels depth p command args :
  text b p (command_write command args) -> (depth < MAX_NESTING_DEPTH)%nat ->
  Forall (fun s => Z.of_nat (length s) <= MAX_BULK_LEN) (command :: args) -> 1 + Z.of_nat (length args) <= I64_MAX ->
  reads (read (S (S levels)) depth) b p
    (fun v p' => v = Array (map (fun s => BulkString (Some s)) (command :: args)) /\ p' = (p + length (command_write command args))%nat)
    (fun _ => False).
Proof.
  intros Ht Hd Hall Hn. unfold command_write in Ht.
  apply text_header in Ht as (Hc & Hi & Ht & Hb); [|lia]. set (q := (p + 1 + _ + 2)%nat) in *.
  change (write_bulk command ++ _) with (concat (map write_bulk (command :: args))) in *.
  cbn [read_value_with_depth]. apply reads_bind, reads_byte; [|congruence]. intros c' Hc'. assert (c' = ch "*") as -> by congruence.
  cbn [RESPType_from_byte RESPType_all List.find RESPType_code Z.eqb Pos.eqb].
  apply reads_bind, reads_guard; [intros _|by intros ?%Nat.ltb_ge; lia].
  apply reads_bind, reads_integer; [lia| |congruence]. rewrite Hi. intros _ _ [= <- <-].
  rewrite (proj2 (Z.ltb_ge _ 0)) by lia. apply reads_bind, reads_budget; [lia|done|]. intros _. apply reads_bind.
  replace (1 + Z.of_nat (length args)) with (Z.of_nat (length (command :: args))) by (cbn; lia).
  assert (Hlen : forall l, (length l <= length (concat (map write_bulk l)))%nat).
  { intros l. induction l as [|s l IH]; cbn; [done|]. rewrite length_app. lia. }
  specialize (Hlen (command :: args)). eapply (reads_mono _ (read_vec _ _) _ _ _ (fun _ => False)); [| |done].
  { refine (reads_bulks levels (depth + 1) (command :: args) (S (length b)) q Ht _ Hall _); lia. }
  intros l p' [-> ->]. apply reads_ret. split; [done|].
  unfold command_write. cbn [length]. rewrite !length_app. cbn [length CRLF map concat]. rewrite length_app. unfold q. lia.
Qed.
End command.

(** (C11) A command that was written is read back as the array of its name and arguments, whatever
    bytes these hold (CRLF included) and whatever follows in the buffer, and the reader stops at the end
    of the command: the bulk strings have at most 512 MiB and their number fits [i64]. *)
Theorem command_roundtrip (F : Type) (INFINITY NEG_INFINITY NAN : F) (parse_f64 : bytes -> option F) (value_size entry_size : Z)
    (command : bytes) (args : list bytes) (rest : bytes) :
  0 <= value_size ->
  Forall (fun s => Z.of_nat (length s) <= MAX_BULK_LEN) (command :: args) ->
  1 + Z.of_nat (length args) <= I64_MAX ->
  exists g,
    read_value F INFINITY NEG_INFINITY NAN parse_f64 value_size entry_size (reader_init (command_write command args ++ rest)) =
      Ok (inl (Array (map (fun s => BulkString (Some s)) (command :: args))),
          mkReader (command_write command args ++ rest) (command_byte_length command args) g 0).
Proof.
  intros Hvalue Hall Hn. unfold command_byte_length. set (b := command_write command args ++ rest).
  assert (Ht : text b 0 (command_write command args)) by (by exists rest).
  destruct (reads_command F INFINITY NEG_INFINITY NAN parse_f64 value_size entry_size Hvalue b 127 0 0 command args Ht ltac:(unfold MAX_NESTING_DEPTH; lia)
    Hall Hn (Z.of_nat (length b)) ltac:(lia)) as ([v|e] & p' & g & E & _ & H); [|done]. destruct H as [-> ->].
  exists g. unfold read_value, reader_init, MAX_NESTING_DEPTH. cbn [buffer pos crlf_skip]. by rewrite Z.sub_0_r.
Qed.

Lemma command_roundtrip_witness :
  exists g,
    read_value Z 0 1 2 (fun _ => None) 32 64 (reader_init (command_write (str "SET") [str "k"; [13; 10]] ++ str "*")) =
      Ok (inl (Array [BulkString (Some (str "SET")); BulkString (Some (str "k")); BulkString (Some [13; 10])]),
          mkReader (command_write (str "SET") [str "k"; [13; 10]] ++ str "*") 28 g 0).
Proof.
  apply (command_roundtrip Z 0 1 2 (fun _ => None) 32 64 (str "SET") [str "k"; [13; 10]] (str "*"));
    [lia|repeat constructor; vm_compute; congruence|vm_compute; congruence].
Defined.

(** The sentinel of a short read is lost on verbatim strings and blob errors: for every reply
    whose announced payload is only partly in the buffer, the parser says that the reply is invalid,
    where the scanner says that more bytes are needed. *)
Theorem partial_payload_invalid (F : Type) (INFINITY NEG_INFINITY NAN : F) (parse_f64 : bytes -> option F) (value_size entry_size : Z)
    (verbatim : bool) (n : Z) (part : bytes) :
  Z.of_nat (length part) < n <= MAX_BULK_LEN ->
  let b := ch (if verbatim then "=" else "!") :: fmt_uint n ++ CRLF ++ part in
  (exists r, read_value F INFINITY NEG_INFINITY NAN parse_f64 value_size entry_size (reader_init b) =
     Ok (inr (if verbatim then InvalidVerbatimString else InvalidBlobError), r)) /\
  scan scanner_reset b = Ok (inl NeedMoreData, scanner_reset).
Proof.
  intros Hn b. assert (Ht : text b 0 (ch (if verbatim then "=" else "!") :: fmt_uint n ++ CRLF ++ part)) by (exists []; by rewrite app_nil_r).
  apply text_header in Ht as (Hc & Hi & _ & _); [|unfold MAX_BULK_LEN, I64_MAX in *; lia].
  set (q := (0 + 1 + _ + 2)%nat) in *. assert (Hlen : length b = (q + length part)%nat).
  { unfold b, q. cbn [length]. rewrite !length_app. cbn [length CRLF]. lia. }
  split.
  - unfold read_value, reader_init. cbn [buffer pos crlf_skip]. generalize MAX_NESTING_DEPTH. intros levels. cbn [read_value_with_depth].
    unfold mbind at 1, reading_bind at 1. rewrite read_byte_at, Hc.
    assert (Hint : forall g, read_integer (mkReader b (0 + 1) g 0) = Ok (inl n, mkReader b q g 0)).
    { intros g. rewrite read_integer_at, Hi; [done|lia]. }
    destruct verbatim; cbn [RESPType_from_byte RESPType_all List.find RESPType_code Z.eqb Pos.eqb];
      unfold read_verbatim_string, read_payload; reading; rewrite Hint;
      rewrite (proj2 (Z.leb_le 0 n)), (proj2 (Z.leb_le n MAX_BULK_LEN)) by lia; cbn [andb fst snd buffer pos prealloc_budget crlf_skip];
      rewrite (proj2 (Z.leb_gt (Z.of_nat q + n) (Z.of_nat (length b)))) by lia; by eexists.
  - rewrite scan_reset_at, scan_at_eq by constructor. unfold element_at. rewrite Hc.
    destruct verbatim; cbn [RESPType_from_byte RESPType_all List.find RESPType_code Z.eqb Pos.eqb]; rewrite Hi;
      rewrite (proj2 (Z.ltb_ge n 0)), (proj2 (Z.leb_le n MAX_BULK_LEN)) by lia; unfold payload_at;
      rewrite (proj2 (Z.ltb_lt (Z.of_nat (length b) - Z.of_nat q) (n + 2))) by lia; unfold blocked_skip; rewrite (proj2 (Nat.eqb_neq q (0 + 1))) by lia; done.
Qed.

Lemma partial_payload_invalid_witness :
  2 < 8 <= MAX_BULK_LEN /\
  (exists r, read_value Z 0 1 2 (fun _ => None) 32 64 (reader_init (str "=8" ++ [13; 10] ++ str "tx")) = Ok (inr InvalidVerbatimString, r)) /\
  scan scanner_reset (str "=8" ++ [13; 10] ++ str "tx") = Ok (inl NeedMoreData, scanner_reset).
Proof.
  split; [vm_compute; split; congruence|].
  apply (partial_payload_invalid Z 0 1 2 (fun _ => None) 32 64 true 8 (str "tx")). vm_compute. split; congruence.
Defined.


Example valkey_tests :
  let read s := match read_value Z 0 1 2 (fun _ => None) 32 64 (reader_init s) with Ok (res, r) => Some (res, pos r) | _ => None end in
  let scanned s := match scan scanner_reset s with Ok (res, s) => Some (res, sc_pos s) | _ => None end in
  let b := str ">2" ++ CRLF ++ str "+message" ++ CRLF ++ str "%1" ++ CRLF ++ str "#t" ++ CRLF ++ str "=5" ++ CRLF ++ str "txt:a" ++ CRLF in
  read b = Some (inl (Push (str "message") [Map [(Boolean true, VerbatimString (str "txt") (str "a"))]]), 33%nat) /\
  scanned b = Some (inl Complete, 33%nat) /\ scanned (take 32 b) = Some (inl NeedMoreData, 22%nat) /\
  read (str "$-1" ++ CRLF) = Some (inl (BulkString None), 5%nat) /\ read (str ">0" ++ CRLF) = Some (inr InvalidPush, 4%nat) /\
  read (str ":12x" ++ CRLF) = Some (inr InvalidInteger, 6%nat) /\ scanned (str "?") = Some (inr InvalidResponseType, 0%nat).
Proof. vm_compute. repeat split. Qed.
