(* ===== verification/ValkeyClient.v ===== *)
(** * Replies on a connection ([ValkeyClient::on_data] of [runtime/valkey_jsc/valkey.rs])

    The read buffer ([OffsetByteList] of [collections/vec_ext.rs]), the reply scanner and the parser put
    together: what a socket callback does with the bytes of a segment.  The handlers of a reply, which
    resolve promises of the JavaScript engine, act on the rest of the client's state and are arguments. *)

From S2P Require Import Prelude Strings Valkey.

(** ** The read buffer *)

Record OffsetByteList := mkOffsetByteList { head : Z; byte_list : bytes }.

Definition list_default : OffsetByteList := mkOffsetByteList 0 [].
Definition list_write (l : OffsetByteList) (bytes : bytes) : OffsetByteList := mkOffsetByteList (head l) (byte_list l ++ bytes).
Definition list_slice (l : OffsetByteList) : outcome bytes := slice_range (byte_list l) 0 (Z.to_nat (head l)).
Definition remaining (l : OffsetByteList) : outcome bytes := slice_from (byte_list l) (Z.to_nat (head l)).

(** [saturating_add] on [u32]. *)
Definition list_consume (l : OffsetByteList) (bytes : Z) : OffsetByteList :=
  let head := Z.min U32_MAX (head l + bytes) in
  if Z.of_nat (length (byte_list l)) <=? head then mkOffsetByteList 0 [] else mkOffsetByteList head (byte_list l).

Definition list_len (l : OffsetByteList) : Z := wrap 32 (wrap 32 (Z.of_nat (length (byte_list l))) - head l).
Definition list_clear (l : OffsetByteList) : OffsetByteList := mkOffsetByteList 0 [].

(** ** The client *)

Section client.
Context (F : Type) (INFINITY NEG_INFINITY NAN : F) (parse_f64 : bytes -> option F) (value_size entry_size : Z).
(** The client without its read buffer and scanner; [true] stands for [Ok(())], [false] for an error of
    the engine. *)
Context {State : Type} (handle_response : RESPValue F -> State -> bool * State) (fail_client : RedisError -> State -> bool * State).
(** [status == Status::Disconnected || flags.failed] *)
Context (closed : State -> bool) (send_next_command : State -> State).

Record ValkeyClient := mkClient { read_buffer : OffsetByteList; reply_scanner : ReplyScanner; state : State }.

Definition with_buffer (c : ValkeyClient) b := mkClient b (reply_scanner c) (state c).
Definition with_scanner (c : ValkeyClient) s := mkClient (read_buffer c) s (state c).
Definition with_state (c : ValkeyClient) s := mkClient (read_buffer c) (reply_scanner c) s.

(** [self.fail(..)?; return Ok(())] *)
Definition fail_with (c : ValkeyClient) (e : RedisError) : outcome (bool * ValkeyClient) :=
  let '(ok, s) := fail_client e (state c) in Ok (ok, with_state c s).

(** [read_value] of a buffer: the value and the bytes consumed. *)
Definition parse_reply (b : bytes) : outcome ((RESPValue F + RedisError) * nat) :=
  '(value, reader) ← read_value F INFINITY NEG_INFINITY NAN parse_f64 value_size entry_size (reader_init b);
  Ok (value, pos reader).

(** Path 1: the loop over the read buffer; every round consumes a byte or returns. *)
Fixpoint buffer_loop (fuel : nat) (c : ValkeyClient) : outcome (bool * ValkeyClient) :=
  match fuel with
  | O => OutOfFuel
  | S fuel =>
      remaining_buffer ← remaining (read_buffer c);
      if (length remaining_buffer =? 0)%nat then Ok (true, c)
      else
        '(r, s) ← scan (reply_scanner c) remaining_buffer;
        let c := with_scanner c s in
        match r with
        | inl NeedMoreData => Ok (true, c)
        | inr err => fail_with c err
        | inl Complete =>
            '(value, bytes_consumed) ← parse_reply remaining_buffer;
            match value with
            | inr err => fail_with c err
            | inl value =>
                if (bytes_consumed =? 0)%nat then fail_with c InvalidResponse
                else
                  let c := with_buffer c (list_consume (read_buffer c) (wrap 32 (Z.of_nat bytes_consumed))) in
                  let c := with_scanner c scanner_reset in
                  let '(ok, s) := handle_response value (state c) in
                  let c := with_state c s in
                  if negb ok then Ok (false, c)
                  else if closed (state c) then Ok (true, c)
                  else buffer_loop fuel (with_state c (send_next_command (state c)))
            end
        end
  end.

(** Path 2: the loop over the data of the segment. *)
Fixpoint stack_loop (fuel : nat) (c : ValkeyClient) (current_data_slice : bytes) : outcome (bool * ValkeyClient) :=
  match fuel with
  | O => OutOfFuel
  | S fuel =>
      if (length current_data_slice =? 0)%nat then Ok (true, c)
      else
        '(value, bytes_consumed) ← parse_reply current_data_slice;
        match value with
        | inr InvalidResponse =>
            let c := with_scanner c scanner_reset in
            Ok (true, with_buffer c (list_write (read_buffer c) current_data_slice))
        | inr err => fail_with c err
        | inl value =>
            if (bytes_consumed =? 0)%nat then fail_with c InvalidResponse
            else
              current_data_slice ← slice_from current_data_slice bytes_consumed;
              let '(ok, s) := handle_response value (state c) in
              let c := with_state c s in
              if negb ok then Ok (false, c)
              else if closed (state c) then Ok (true, c)
              else stack_loop fuel (with_state c (send_next_command (state c))) current_data_slice
        end
  end.

Definition on_data (c : ValkeyClient) (data : bytes) : outcome (bool * ValkeyClient) :=
  rest ← remaining (read_buffer c);
  if negb (length rest =? 0)%nat then
    let c := with_buffer c (list_write (read_buffer c) data) in
    buffer_loop (S (length (byte_list (read_buffer c)))) c
  else stack_loop (S (length data)) c data.

(** [on_open]: the part that concerns the replies. *)
Definition on_open (c : ValkeyClient) : ValkeyClient := mkClient list_default scanner_reset (state c).
End client.

(** ** The parser on a part of the stream *)

(** A value that holds no verbatim string and no blob error, whose partial payloads are refused. *)
Fixpoint plain {F} (v : RESPValue F) : bool :=
  match v with
  | VerbatimString _ _ | BlobError _ => false
  | Array l | Set_ l | Push _ l => forallb plain l
  | Map l => forallb (fun e => plain (fst e) && plain (snd e)) l
  | Attribute l v => forallb (fun e => plain (fst e) && plain (snd e)) l && plain v
  | _ => true
  end.

(** Whatever [m] answers, it keeps the buffer and does not move backwards. *)
Definition framed {A} (m : reading A) : Prop := forall r x, m r = Ok x ->
  buffer (snd x) = buffer r /\ (crlf_skip r = 0%nat -> crlf_skip (snd x) = 0%nat) /\ (pos r <= pos (snd x))%nat.

Create HintDb framed.

Lemma framed_pure {A} (m : reading A) : (forall r x, m r = Ok x -> snd x = r) -> framed m.
Proof. intros H r x E. by rewrite (H r x E). Qed.

Lemma framed_ret {A} (a : A) : framed (mret a).
Proof. apply framed_pure. by intros r x [= <-]. Qed.
Lemma framed_fail {A} e : framed (@fail A e).
Proof. apply framed_pure. by intros r x [= <-]. Qed.
Lemma framed_gets {A} (f : ValkeyReader -> A) : framed (gets f).
Proof. apply framed_pure. by intros r x [= <-]. Qed.
Lemma framed_lift {A} (m : outcome A) : framed (lift m).
Proof. apply framed_pure. intros r x. unfold lift. destruct m; [by intros [= <-]|done|done]. Qed.
Lemma framed_advance n : framed (advance n).
Proof. intros r x [= <-]. cbn. split; [done|]. split; [done|lia]. Qed.
Lemma framed_fuel {A} : framed (fun _ => OutOfFuel : outcome ((A + RedisError) * ValkeyReader)).
Proof. by intros r x. Qed.

Lemma framed_bind {A B} (m : reading A) (f : A -> reading B) : framed m -> (forall a, framed (f a)) -> framed (m ≫= f).
Proof.
  intros Hm Hf r x. unfold mbind, reading_bind. destruct (m r) as [[[a|e] r1]| |] eqn:E; [| |done|done].
  - intros Ex. destruct (Hm r _ E) as (H1 & H2 & H3), (Hf a r1 x Ex) as (H4 & H5 & H6). cbn [snd] in *.
    split; [congruence|]. split; [auto|lia].
  - intros [= <-]. by apply (Hm r _ E).
Qed.
#[export] Hint Resolve framed_ret framed_fail framed_gets framed_lift framed_advance framed_fuel framed_bind : framed.

Ltac framed := repeat first
  [ progress intros
  | apply framed_bind
  | solve [eauto with framed]
  | match goal with |- framed (match ?x with _ => _ end) => destruct x end
  | match goal with |- framed (if ?x then _ else _) => destruct x end ].

Lemma framed_guard c e : framed (guard c e).
Proof. unfold guard. framed. Qed.
#[export] Hint Resolve framed_guard : framed.

Lemma framed_byte : framed read_byte.
Proof. intros [b p g k] x. rewrite read_byte_at. destruct (b !! p); intros [= <-]; cbn; repeat split; auto with lia. Qed.

Lemma framed_line : framed read_until_crlf.
Proof.
  intros r x H. unfold read_until_crlf in H.
  match type of H with ?m ?r0 = _ => assert (Hm : framed m); [|destruct (Hm _ _ H) as (H1 & H2 & H3)] end; [framed|].
  cbn [buffer pos crlf_skip] in *. auto.
Qed.

Lemma framed_budget len size : framed (take_prealloc_budget len size).
Proof. intros r x. unfold take_prealloc_budget. destruct (_ <=? _); [|done]. intros [= <-]. cbn. auto with lia. Qed.
#[export] Hint Resolve framed_byte framed_line framed_budget : framed.

Lemma framed_integer : framed read_integer.
Proof. unfold read_integer. framed. Qed.
Lemma framed_boolean : framed read_boolean.
Proof. unfold read_boolean. framed. Qed.
Lemma framed_payload len e1 e2 : framed (read_payload len e1 e2).
Proof. unfold read_payload. framed. Qed.
#[export] Hint Resolve framed_integer framed_boolean framed_payload : framed.

Lemma framed_verbatim : framed read_verbatim_string.
Proof. unfold read_verbatim_string. framed. Qed.

Lemma framed_n {A} n (m : reading A) len : framed m -> framed (read_n n m len).
Proof. intros Hm. revert len. induction n as [|n IH]; intros len; cbn [read_n]; framed. Qed.

Lemma framed_vec {A} (m : reading A) len : framed m -> framed (read_vec m len).
Proof. intros Hm r. by apply framed_n. Qed.
#[export] Hint Resolve framed_verbatim framed_vec : framed.

Section framed.
Context (F : Type) (INFINITY NEG_INFINITY NAN : F) (parse_f64 : bytes -> option F) (value_size entry_size : Z).

Lemma framed_double : framed (read_double F INFINITY NEG_INFINITY NAN parse_f64).
Proof. unfold read_double. framed. Qed.
#[local] Hint Resolve framed_double : framed.

Lemma framed_value levels depth : framed (read_value_with_depth F INFINITY NEG_INFINITY NAN parse_f64 value_size entry_size levels depth).
Proof. revert depth. induction levels as [|levels IH]; intros depth; cbn [read_value_with_depth]; framed. Qed.
End framed.

(** [m] succeeds on [c]: it reads [a] and goes from [p] to [p']. *)
Definition runs {A} (m : reading A) (c : bytes) (p : nat) (a : A) (p' : nat) : Prop :=
  exists g r, m (mkReader c p g 0) = Ok (inl a, r) /\ pos r = p'.

Lemma runs_bind {A B} (m : reading A) (f : A -> reading B) c p b p' :
  runs (m ≫= f) c p b p' -> framed m -> (forall a, framed (f a)) ->
  exists a p1, runs m c p a p1 /\ runs (f a) c p1 b p' /\ (p <= p1 <= p')%nat.
Proof.
  intros (g & r & H & <-) Hm Hf. unfold mbind, reading_bind in H. destruct (m _) as [[[a|e] r1]| |] eqn:E; [|done..].
  destruct (Hm _ _ E) as (H1 & H2 & H3), (Hf a _ _ H) as (_ & _ & H4). cbn [snd buffer pos crlf_skip] in *.
  exists a, (pos r1). split; [by exists g, r1|]. split; [|lia].
  exists (prealloc_budget r1), r. split; [|done]. rewrite <- H1, <- (H2 eq_refl). by destruct r1.
Qed.

Lemma runs_ret {A} (a b : A) c p p' : runs (mret a) c p b p' -> b = a /\ p' = p.
Proof. intros (g & r & [= -> <-] & <-). done. Qed.

Section prefix.
Context (b ext : bytes).
#[local] Notation full := (b ++ ext).

(** Where [m] reads a [good] result on the whole stream, it reads the same on the part [b] if this
    reaches that far, and finds that bytes are missing if not. *)
Definition follows {A} (m : reading A) (p : nat) (good : A -> bool) : Prop :=
  forall a p', runs m full p a p' -> good a = true ->
    reads m b p (fun a' q => a' = a /\ q = p' /\ (p' <= length b)%nat) (fun e => e = InvalidResponse /\ (length b < p')%nat).

Definition any {A} (_ : A) : bool := true.

Lemma follows_bind {A B} (m : reading A) (f : A -> reading B) p good1 good :
  framed m -> (forall a, framed (f a)) -> follows m p good1 ->
  (forall a p1 b p', runs (f a) full p1 b p' -> good b = true -> good1 a = true) ->
  (forall a p1, runs m full p a p1 -> (p1 <= length b)%nat -> follows (f a) p1 good) -> follows (m ≫= f) p good.
Proof.
  intros Fm Ff Hm Hg Hf v p' Hr Hv. destruct (runs_bind _ _ _ _ _ _ Hr Fm Ff) as (a & p1 & Ha & Hb & Hp).
  apply reads_bind. eapply reads_mono; [apply (Hm a p1 Ha); eauto| |].
  - intros a' q (-> & -> & Hq). by apply Hf.
  - intros e (-> & Hq). split; [done|lia].
Qed.

Lemma follows_bind_any {A B} (m : reading A) (f : A -> reading B) p good :
  framed m -> (forall a, framed (f a)) -> follows m p any ->
  (forall a p1, runs m full p a p1 -> (p1 <= length b)%nat -> follows (f a) p1 good) -> follows (m ≫= f) p good.
Proof. intros Fm Ff Hm Hf. by apply (follows_bind m f p any). Qed.

Lemma follows_ret {A} (a : A) p good : (p <= length b)%nat -> follows (mret a) p good.
Proof. intros Hp v p' Hr Hv. apply runs_ret in Hr as [-> ->]. by apply reads_ret. Qed.

Lemma follows_fail {A} e p (good : A -> bool) : follows (fail e) p good.
Proof. intros v p' (g & r & H & _). done. Qed.

Lemma follows_guard c e p : (p <= length b)%nat -> follows (guard c e) p any.
Proof. intros Hp. destruct c; [by apply follows_ret|apply follows_fail]. Qed.

Lemma follows_byte p : (p <= length b)%nat -> follows read_byte p any.
Proof.
  intros Hp c p' (g & r & H & Hr) _. rewrite read_byte_at in H. destruct (full !! p) as [c'|] eqn:E; [|done].
  injection H as -> <-. cbn [pos] in Hr. subst p'.
  apply reads_byte.
  - intros c' Hc'. rewrite (lookup_app_l_Some _ _ _ _ Hc') in E. apply lookup_lt_Some in Hc'. repeat split; [congruence|lia].
  - intros Hn. apply lookup_ge_None in Hn. split; [done|lia].
Qed.

Lemma line_at_prefix p s p' :
  (p <= length b)%nat -> line_at full p 0 = inl (s, p') ->
  (line_at b p 0 = inl (s, p') /\ (p' <= length b)%nat) \/ (line_at b p 0 = inr InvalidResponse /\ (length b < p')%nat).
Proof.
  intros Hp Hl. destruct (decide (line_at b p 0 = inr InvalidResponse)) as [E|E].
  - right. split; [done|]. destruct (decide (length b < p')%nat) as [|Hle]; [done|exfalso].
    destruct (line_at_first full p 0 (skip_ok_0 _ p)) as (r & H & Hr). rewrite Hr in Hl.
    destruct r as [i|]; [|done]. injection Hl as _ <-. destruct H as (_ & Hc & _).
    apply (line_at_open _ _ E i). apply crlf_at_drop. apply crlf_at_drop in Hc. apply (crlf_at_app b ext); [lia|done].
  - left. rewrite line_at_extend in Hl by done. split; [done|]. apply line_at_bounds in Hl. lia.
Qed.

Lemma follows_line p : (p <= length b)%nat -> follows read_until_crlf p any.
Proof.
  intros Hp s p' (g & r & H & Hr) _. rewrite read_until_crlf_line in H by (rewrite length_app; lia).
  destruct (line_at full p 0) as [[s' q]|] eqn:E; [|done]. injection H as -> <-. cbn [pos] in Hr. subst q.
  apply line_at_prefix in E as [[E Hq]|[E Hq]]; [| |done]; apply reads_line; try done; rewrite E; intros; simplify_eq; done.
Qed.

Lemma follows_integer p : (p <= length b)%nat -> follows read_integer p any.
Proof.
  intros Hp. unfold read_integer. apply follows_bind_any; [auto with framed| |by apply follows_line|].
  - intros s. destruct (parse_int _ _ _ _); auto with framed.
  - intros s p1 _ Hp1. destruct (parse_int _ _ _ _); [by apply follows_ret|apply follows_fail].
Qed.

(** The capacity that is granted differs, but it only sizes an allocation. *)
Lemma follows_budget {A} len size (m : reading A) p good :
  0 <= len -> 0 <= size -> follows m p good -> follows (_ ← take_prealloc_budget len size; m) p good.
Proof.
  intros Hl Hs Hm a p' (g & r & H & Hr) Ha. apply reads_bind, reads_budget; [done|done|]. intros _. apply Hm; [|done].
  unfold mbind, reading_bind, take_prealloc_budget in H. destruct (_ <=? _) in H; [|done]. by eexists _, r.
Qed.

Lemma follows_payload len bad p : (p <= length b)%nat -> 0 <= len -> follows (read_payload len InvalidResponse bad) p any.
Proof.
  intros Hp Hlen s p' (g & r & H & Hr) _. unfold read_payload in H. revert H. unfold guard, fail, gets, lift, advance, mbind, reading_bind, mret, reading_ret.
  cbn [fst snd buffer pos prealloc_budget crlf_skip].
  destruct (Z.leb_spec (Z.of_nat p + len) (Z.of_nat (length full))) as [Hl|]; [|done].
  cbn [buffer]. rewrite slice_range_ok by lia. cbn [buffer pos prealloc_budget crlf_skip]. rewrite read_until_crlf_line by lia.
  destruct (line_at full (p + Z.to_nat len) 0) as [[t q]|] eqn:E; [|done]. case_bool_decide as Ht; [|done]. intros [= <- <-]. cbn [pos] in Hr. subst t q.
  unfold read_payload. apply reads_bind, (reads_gets b pos p); [done|].
  apply reads_bind, (reads_gets b (fun r => length (buffer r)) (length b)); [done|].
  assert (Hq : (p + Z.to_nat len < p')%nat) by (apply line_at_bounds in E; lia).
  apply reads_bind, reads_guard; intros Hlb; [apply Z.leb_le in Hlb|apply Z.leb_gt in Hlb; split; [done|lia]].
  apply reads_bind, (reads_gets b buffer b); [done|]. eapply reads_bind, reads_lift; [apply slice_range_ok; lia|].
  apply reads_bind, reads_advance, reads_bind. apply line_at_prefix in E as [[E Hq']|[E Hq']]; [| |lia]; apply reads_line; try lia; rewrite E.
  - intros t q [= <- <-]. apply reads_bind, reads_guard; [|by rewrite bool_decide_eq_true_2]. intros _. apply reads_ret.
    split; [|done]. rewrite drop_app_le by lia. rewrite take_app_le; [done|]. rewrite length_drop. lia.
  - done.
  - done.
  - intros e [= <-]. done.
Qed.

(** *** Repetition *)

Lemma follows_n {A} (elem : reading A) good :
  framed elem -> (forall p, (p <= length b)%nat -> follows elem p good) ->
  (forall p a p', runs elem full p a p' -> (p < p')%nat) ->
  forall fuel1 fuel2 len p l p', (p <= length b)%nat -> (length b - p < fuel2)%nat ->
    runs (read_n fuel1 elem len) full p l p' -> forallb good l = true ->
    reads (read_n fuel2 elem len) b p (fun l' q => l' = l /\ q = p' /\ (p' <= length b)%nat) (fun e => e = InvalidResponse /\ (length b < p')%nat).
Proof.
  intros Fe He Hpr. induction fuel1 as [|fuel1 IH]; intros fuel2 len p l p' Hp Hf Hr Hl; (destruct fuel2 as [|fuel2]; [lia|]); cbn [read_n] in *.
  - destruct (len <=? 0); [|by destruct Hr as (g & r & H & _)]. apply runs_ret in Hr as [-> ->]. by apply reads_ret.
  - destruct (len <=? 0); [apply runs_ret in Hr as [-> ->]; by apply reads_ret|].
    apply runs_bind in Hr as (v & p1 & Hv & Hr & Hp1); [|done|intros; apply framed_bind; [by apply framed_n|auto with framed]].
    apply runs_bind in Hr as (vs & p2 & Hvs & Hr & Hp2); [|by apply framed_n|auto with framed].
    apply runs_ret in Hr as [-> ->]. cbn [forallb] in Hl. apply andb_true_iff in Hl as [Hv1 Hvs1].
    apply reads_bind. eapply reads_mono; [by apply (He p Hp v p1)| |].
    + intros v' q (-> & -> & Hq). apply Hpr in Hv. apply reads_bind. eapply reads_mono; [apply (IH fuel2 _ p1 vs p2); (done || lia)| |done].
      intros vs' q (-> & -> & Hq2). by apply reads_ret.
    + intros e (-> & Hq). split; [done|lia].
Qed.

Lemma follows_vec {A} (elem : reading A) len p good :
  framed elem -> (forall p, (p <= length b)%nat -> follows elem p good) -> (forall p a p', runs elem full p a p' -> (p < p')%nat) ->
  (p <= length b)%nat -> follows (read_vec elem len) p (forallb good).
Proof.
  intros Fe He Hpr Hp l p' Hr Hl. eapply (follows_n elem good Fe He Hpr (S (length full)) (S (length b))); [done|lia|exact Hr|done].
Qed.
(** Every result of [m] satisfies [P]. *)
Definition yields {A} (m : reading A) (P : A -> Prop) : Prop := forall r a r', m r = Ok (inl a, r') -> P a.

Lemma yields_ret {A} (a : A) (P : A -> Prop) : P a -> yields (mret a) P.
Proof. by intros H r a' r' [= <- _]. Qed.

Lemma yields_bind {A B} (m : reading A) (f : A -> reading B) P : (forall a, yields (f a) P) -> yields (m ≫= f) P.
Proof. intros H r c r'. unfold mbind, reading_bind. destruct (m r) as [[[a|e] r1]| |]; [apply H|done..]. Qed.

Lemma follows_never {A} (m : reading A) p good : yields m (fun a => good a = false) -> follows m p good.
Proof. intros H a p' (g & r & E & _) Ha. rewrite (H _ _ _ E) in Ha. done. Qed.

(** *** Values *)

Section follows_value.
Context (F : Type) (INFINITY NEG_INFINITY NAN : F) (parse_f64 : bytes -> option F) (value_size entry_size : Z).
Context (Hvalue : 0 <= value_size) (Hentry : 0 <= entry_size).
#[local] Notation read := (read_value_with_depth F INFINITY NEG_INFINITY NAN parse_f64 value_size entry_size).
#[local] Hint Resolve framed_double framed_value : framed.

Definition plain_entry (e : RESPValue F * RESPValue F) : bool := plain (fst e) && plain (snd e).

Lemma follows_entry (elem : reading (RESPValue F)) p :
  framed elem -> (forall p, (p <= length b)%nat -> follows elem p plain) -> (p <= length b)%nat ->
  follows (key ← elem; value ← elem; mret (key, value)) p plain_entry.
Proof.
  intros Fe He Hp. apply (follows_bind _ _ _ plain); [done|intros; framed|by apply He| |].
  - intros k p1 e p' Hr Hg. apply runs_bind in Hr as (v & p2 & _ & Hr & _); [|done|auto with framed]. apply runs_ret in Hr as [-> _].
    by apply andb_true_iff in Hg as [? _].
  - intros k p1 _ Hp1. apply (follows_bind _ _ _ plain); [done|auto with framed|by apply He| |].
    + intros v p2 e p' Hr Hg. apply runs_ret in Hr as [-> _]. by apply andb_true_iff in Hg as [_ ?].
    + intros v p2 _ Hp2. by apply follows_ret.
Qed.

Lemma runs_value_progress levels depth p v p' : runs (read levels depth) full p v p' -> (p < p')%nat.
Proof.
  destruct levels as [|levels]; [by intros (g & r & H & _)|]. cbn [read_value_with_depth]. intros H.
  apply runs_bind in H as (c & p1 & Hc & _ & Hp); [|framed|framed]. destruct Hc as (g & r & Hc & Hr). rewrite read_byte_at in Hc.
  destruct (full !! p); [|done]. injection Hc as _ <-. cbn in Hr. lia.
Qed.

Lemma runs_entry_progress levels depth p v p' :
  runs (key ← read levels depth; value ← read levels depth; mret (key, value)) full p v p' -> (p < p')%nat.
Proof.
  intros H. apply runs_bind in H as (k & p1 & Hk & _ & Hp); [|framed|framed]. apply runs_value_progress in Hk. lia.
Qed.

Lemma follows_then {A} (m : reading A) (f : A -> RESPValue F) p : framed m -> follows m p any -> follows (a ← m; mret (f a)) p plain.
Proof. intros Fm Hm. apply follows_bind_any; [done|framed|done|]. intros a p1 _ Hp1. by apply follows_ret. Qed.

Lemma follows_check c e (m : reading (RESPValue F)) p : (c = true -> follows m p plain) -> follows (_ ← guard c e; m) p plain.
Proof. intros Hm. destruct c; [by apply Hm|by intros v p' (g & r & H & _)]. Qed.

(** The header of an aggregate. *)
Lemma follows_nested c (f : Z -> reading (RESPValue F)) p :
  (p <= length b)%nat -> (forall len, framed (f len)) -> (forall len p, (p <= length b)%nat -> follows (f len) p plain) ->
  follows (_ ← guard c NestingDepthExceeded; len ← read_integer; f len) p plain.
Proof.
  intros Hp Ff Hf. apply follows_check. intros _. apply follows_bind_any; [framed|framed|by apply follows_integer|].
  intros len p1 _ Hp1. by apply Hf.
Qed.

Lemma follows_list {A} (elem : reading A) len size (f : list A -> RESPValue F) good p :
  0 <= len -> 0 <= size -> (p <= length b)%nat -> framed elem ->
  (forall p, (p <= length b)%nat -> follows elem p good) -> (forall p a p', runs elem full p a p' -> (p < p')%nat) ->
  (forall l, plain (f l) = true -> forallb good l = true) ->
  follows (_ ← take_prealloc_budget len size; l ← read_vec elem len; mret (f l)) p plain.
Proof.
  intros Hl Hs Hp Fe He Hpr Hg. apply follows_budget; [done|done|].
  apply (follows_bind _ _ _ (forallb good)); [framed|framed|by apply follows_vec| |].
  - intros l p1 v p' Hr Hv. apply runs_ret in Hr as [-> _]. auto.
  - intros l p1 _ Hp1. by apply follows_ret.
Qed.

Lemma follows_value levels depth p : (p <= length b)%nat -> follows (read levels depth) p plain.
Proof.
  revert depth p. induction levels as [|levels IH]; intros depth p Hp; [by intros v p' (g & r & H & _)|].
  cbn [read_value_with_depth]. apply follows_bind_any; [framed|framed|by apply follows_byte|]. intros c p1 _ Hp1.
  destruct (RESPType_from_byte c) as [ty|]; [|apply follows_fail].
  pose proof (fun p Hp => IH (depth + 1)%nat p Hp) as Helem. pose proof (runs_value_progress levels (depth + 1)) as Hpr.
  destruct ty.
  - apply follows_then; [framed|by apply follows_line].
  - apply follows_then; [framed|by apply follows_line].
  - apply follows_then; [framed|by apply follows_integer].
  - apply follows_bind_any; [framed|framed|by apply follows_integer|]. intros len p2 _ Hp2.
    destruct (Z.ltb_spec len 0); [by apply follows_ret|]. apply follows_bind_any; [framed|framed|by apply follows_guard|].
    intros _ p3 _ Hp3. by apply follows_then; [framed|apply follows_payload].
  - apply follows_nested; [done|framed|]. intros len p2 Hp2. destruct (Z.ltb_spec len 0); [by apply follows_ret|].
    apply (follows_list _ len value_size Array plain); [done|done|done|framed|done|done|done].
  - apply follows_then; [framed|by apply follows_line].
  - apply follows_then; [framed|]. apply follows_bind_any; [framed|framed|by apply follows_line|]. intros s p2 _ Hp2.
    repeat case_decide; [by apply follows_ret..|]. destruct (parse_f64 s); [by apply follows_ret|apply follows_fail].
  - apply follows_then; [framed|]. apply follows_bind_any; [framed|framed|by apply follows_line|]. intros [|c' [|]] p2 _ Hp2; try apply follows_fail.
    destruct (c' =? ch "t"); [by apply follows_ret|]. destruct (c' =? ch "f"); [by apply follows_ret|apply follows_fail].
  - apply follows_never. by repeat (apply yields_bind; intros); apply yields_ret.
  - apply follows_never. by repeat (apply yields_bind; intros); apply yields_ret.
  - apply follows_nested; [done|framed|]. intros len p2 Hp2. apply follows_check. intros Hlen%Z.leb_le.
    apply (follows_list _ len entry_size Map plain_entry); [done|done|done|framed|intros; apply follows_entry; [framed|done..]|apply runs_entry_progress|done].
  - apply follows_nested; [done|framed|]. intros len p2 Hp2. apply follows_check. intros Hlen%Z.leb_le.
    apply (follows_list _ len value_size Set_ plain); [done|done|done|framed|done|done|done].
  - apply follows_nested; [done|framed|]. intros len p2 Hp2. apply follows_check. intros Hlen%Z.leb_le.
    apply follows_budget; [done|done|]. apply (follows_bind _ _ _ (forallb plain_entry)); [framed|framed| | |].
    + apply follows_vec; [framed|intros; apply follows_entry; [framed|..]; done|apply runs_entry_progress|done].
    + intros l p3 v p' Hr Hv. apply runs_bind in Hr as (w & p4 & _ & Hr & _); [|framed|framed]. apply runs_ret in Hr as [-> _].
      by apply andb_true_iff in Hv as [? _].
    + intros l p3 _ Hp3. apply (follows_bind _ _ _ plain); [framed|framed|by apply Helem| |intros; by apply follows_ret].
      intros w p4 v p' Hr Hv. apply runs_ret in Hr as [-> _]. by apply andb_true_iff in Hv as [_ ?].
  - apply follows_nested; [done|framed|]. intros len p2 Hp2. apply follows_check. intros Hlen%Z.ltb_lt.
    apply (follows_bind _ _ _ plain); [framed|intros []; framed|by apply Helem| |].
    + intros [| | | | | | | |s| format content | | | | |] p3 v p' Hr Hv; try done; by destruct Hr as (g & r & H & _).
    + intros kind p3 _ Hp3. destruct kind as [kind| | |[kind|]| | | | | | | | | | |]; try apply follows_fail;
        (apply (follows_list _ (len - 1) value_size (Push kind) plain); [lia|done|done|framed|done|done|done]).
  - apply follows_then; [framed|by apply follows_line].
Qed.
End follows_value.
End prefix.

(** ** A stream of replies *)

Section stream.
Context (F : Type) (INFINITY NEG_INFINITY NAN : F) (parse_f64 : bytes -> option F) (value_size entry_size : Z).
Context (Hvalue : 0 <= value_size) (Hentry : 0 <= entry_size).
#[local] Notation parse_reply := (parse_reply F INFINITY NEG_INFINITY NAN parse_f64 value_size entry_size).

(** [b] is the text of the replies [vs]. *)
Inductive replies : bytes -> list (RESPValue F) -> Prop :=
  | replies_nil : replies [] []
  | replies_cons b v n vs : parse_reply b = Ok (inl v, n) -> replies (drop n b) vs -> replies b (v :: vs).

Lemma parse_reply_scans b :
  exists res n, parse_reply b = Ok (res, n) /\
    match res with
    | inl _ => (0 < n <= length b)%nat /\ scan_at b 0 [] = Ok (inl Complete, mkScanner n [] 0)
    | inr InvalidResponse => blocked (scan_at b 0 [])
    | inr _ => True
    end.
Proof.
  destruct (read_value_scans F INFINITY NEG_INFINITY NAN parse_f64 value_size entry_size Hvalue Hentry b (S MAX_NESTING_DEPTH) [] stack_ok_nil
    (Nat.add_0_r _) (Nat.le_0_l _) 0%nat (Nat.le_0_l _) (Z.of_nat (length b)) ltac:(lia)) as (res & n & g & E & Hg & H).
  cbn [length] in E. exists res, n. unfold ValkeyClient.parse_reply, read_value, reader_init. cbn [buffer pos crlf_skip]. rewrite Z.sub_0_r. rewrite E.
  split; [done|]. destruct res as [v|e]; [by destruct H as [? ->]|]. destruct e; try done. by apply H.
Qed.

(** The first reply of the stream, seen from a part of it. *)
Lemma parse_reply_part b ext v n :
  parse_reply (b ++ ext) = Ok (inl v, n) -> plain v = true ->
  if (n <=? length b)%nat then parse_reply b = Ok (inl v, n) else exists q, parse_reply b = Ok (inr InvalidResponse, q).
Proof.
  unfold ValkeyClient.parse_reply, read_value, reader_init. cbn [buffer pos crlf_skip]. rewrite !Z.sub_0_r. intros H Hv.
  set (m := read_value_with_depth _ _ _ _ _ _ _ _ _) in *.
  assert (Hr : runs m (b ++ ext) 0 v n).
  { exists (Z.of_nat (length (b ++ ext))). destruct (m _) as [[[a|e] r]| |]; [|done..]. injection H as -> <-. by exists r. }
  destruct (follows_value b ext F INFINITY NEG_INFINITY NAN parse_f64 value_size entry_size Hvalue Hentry _ _ 0 (Nat.le_0_l _) v n Hr Hv
    (Z.of_nat (length b)) ltac:(lia)) as (res & q & g & E & _ & Hq). subst m. rewrite E. cbn [mbind outcome_bind pos].
  destruct res as [a|e].
  - destruct Hq as (-> & -> & Hn). by rewrite (proj2 (Nat.leb_le _ _)) by done.
  - destruct Hq as (-> & Hn). rewrite (proj2 (Nat.leb_gt _ _)) by done. by exists q.
Qed.

(** *** Resuming the scanner *)

(** [s] may go on with any stream that starts with [b]. *)
Definition resumable (b : bytes) (s : ReplyScanner) : Prop :=
  stack_ok (stack s) /\ forall ext, skip_ok (b ++ ext) (sc_pos s + 1) (sc_crlf_skip s) /\
    scan_at (b ++ ext) 0 [] = scan_at (b ++ ext) (sc_pos s) (stack s).

Lemma resumable_reset b : resumable b scanner_reset.
Proof. split; [apply stack_ok_nil|]. intros ext. split; [apply skip_ok_0|done]. Qed.

Lemma resumable_app b ext s : resumable b s -> resumable (b ++ ext) s.
Proof. intros [Hs H]. split; [done|]. intros ext'. rewrite <- app_assoc. apply H. Qed.

Lemma resumable_agree b s : resumable b s -> agree (scan s b) (scan_at b 0 []).
Proof. intros [Hs H]. destruct (H []) as [Hk He]. rewrite app_nil_r in *. rewrite He. by apply scan_skips. Qed.

Lemma resumable_wait b s s' : resumable b s -> scan_at b 0 [] = Ok (inl NeedMoreData, s') -> scan s b = Ok (inl NeedMoreData, s') /\ resumable b s'.
Proof.
  intros Hs E. pose proof (resumable_agree _ _ Hs) as Ha. rewrite E in Ha. split.
  - destruct (scan s b) as [[[r|e] s1]| |]; [|done..]. by destruct Ha as [-> ->].
  - assert (Hw : waiting b s') by (pose proof (scan_at_extend b [] 0 [] stack_ok_nil) as H; rewrite E in H; apply H).
    split; [apply Hw|]. intros ext. split; [apply Hw|].
    pose proof (scan_at_extend b ext 0 [] stack_ok_nil) as H. rewrite E in H. apply H.
Qed.

(** The scanner on a part of the stream: it waits when the parser would. *)
Lemma scan_part b ext s v n :
  resumable b s -> parse_reply (b ++ ext) = Ok (inl v, n) -> plain v = true ->
  if (n <=? length b)%nat then exists s', scan s b = Ok (inl Complete, s')
  else exists s', scan s b = Ok (inl NeedMoreData, s') /\ resumable b s'.
Proof.
  intros Hs Hp Hv. pose proof (parse_reply_part b ext v n Hp Hv) as Hb. destruct (parse_reply_scans b) as (res & q & E & H).
  destruct (n <=? length b)%nat.
  - assert (res = inl v) as -> by congruence. destruct H as [_ H]. pose proof (resumable_agree _ _ Hs) as Ha. rewrite H in Ha.
    destruct (scan s b) as [[[r|e] s']| |]; [|done..]. destruct Ha as [-> _]. by eexists.
  - destruct Hb as [q' Hb]. assert (res = inr InvalidResponse) as -> by congruence.
    destruct (parse_reply_scans (b ++ ext)) as (res' & n' & E' & H'). assert (res' = inl v) as -> by congruence. destruct H' as [_ H'].
    pose proof (scan_at_extend b ext 0 [] stack_ok_nil) as Hx. destruct (scan_returns b 0 [] stack_ok_nil) as [[[[]|e] s'] Hx'].
    + by apply H in Hx'.
    + exists s'. by apply resumable_wait.
    + rewrite Hx', H' in Hx. done.
Qed.
(** *** The loops *)

Context {State : Type} (handle_response : RESPValue F -> State -> bool * State) (fail_client : RedisError -> State -> bool * State).
Context (closed : State -> bool) (send_next_command : State -> State).
#[local] Notation ValkeyClient := (ValkeyClient (State := State)).
#[local] Notation buffer_loop :=
  (buffer_loop F INFINITY NEG_INFINITY NAN parse_f64 value_size entry_size handle_response fail_client closed send_next_command).
#[local] Notation stack_loop :=
  (stack_loop F INFINITY NEG_INFINITY NAN parse_f64 value_size entry_size handle_response fail_client closed send_next_command).
#[local] Notation on_data :=
  (on_data F INFINITY NEG_INFINITY NAN parse_f64 value_size entry_size handle_response fail_client closed send_next_command).

(** The replies [vs] handled in order, unless one of them closes the connection. *)
Fixpoint deliver (vs : list (RESPValue F)) (s : State) : option State :=
  match vs with
  | [] => Some s
  | v :: vs => let '(ok, s) := handle_response v s in if ok && negb (closed s) then deliver vs (send_next_command s) else None
  end.

(** A client that has received a part of the stream, [u] being still to come and [vs] to be handled:
    the buffer holds a proper part of the next reply. *)
Record ready (N : Z) (u : bytes) (vs : list (RESPValue F)) (c : ValkeyClient) (buf : bytes) : Prop := {
  ready_remaining : remaining (read_buffer c) = Ok buf;
  ready_head : 0 <= head (read_buffer c);
  ready_size : Z.of_nat (length (byte_list (read_buffer c)) + length u) <= N;
  ready_replies : replies (buf ++ u) vs;
  ready_scanner : resumable buf (reply_scanner c);
  ready_part : forall v n, parse_reply (buf ++ u) = Ok (inl v, n) -> (length buf < n)%nat;
}.

Lemma remaining_ok l buf : remaining l = Ok buf -> 0 <= head l ->
  buf = drop (Z.to_nat (head l)) (byte_list l) /\ head l = Z.of_nat (length (byte_list l)) - Z.of_nat (length buf).
Proof.
  unfold remaining, slice_from. destruct (decide _) as [H|]; [|done]. intros [= <-] Hh. split; [done|]. rewrite length_drop. lia.
Qed.

Lemma consume_ok l buf n : remaining l = Ok buf -> 0 <= head l -> (n <= length buf)%nat -> Z.of_nat (length (byte_list l)) <= U32_MAX ->
  remaining (list_consume l (Z.of_nat n)) = Ok (drop n buf) /\ 0 <= head (list_consume l (Z.of_nat n)) /\
  (length (byte_list (list_consume l (Z.of_nat n))) <= length (byte_list l))%nat.
Proof.
  intros Hr Hh Hn Hl. destruct (remaining_ok l buf Hr Hh) as [-> Hlen]. rewrite length_drop in *. unfold list_consume.
  rewrite Z.min_r by lia. destruct (Z.leb_spec (Z.of_nat (length (byte_list l))) (head l + Z.of_nat n)).
  - split; [|cbn; lia]. rewrite drop_drop, drop_ge by lia. done.
  - split; [|cbn; lia]. unfold remaining. cbn [head byte_list]. rewrite slice_from_ok by lia. rewrite drop_drop. do 2 f_equal. lia.
Qed.

Lemma client_write_ok l buf d : remaining l = Ok buf -> 0 <= head l -> remaining (list_write l d) = Ok (buf ++ d).
Proof.
  intros Hr Hh. destruct (remaining_ok l buf Hr Hh) as [-> Hlen]. rewrite length_drop in *. unfold remaining, list_write. cbn [head byte_list].
  rewrite slice_from_ok by (rewrite length_app; lia). by rewrite drop_app_le by lia.
Qed.

Context (N : Z) (HN : N <= U32_MAX).

Lemma buffer_loop_ok fuel c u vs buf s' :
  remaining (read_buffer c) = Ok buf -> 0 <= head (read_buffer c) ->
  Z.of_nat (length (byte_list (read_buffer c)) + length u) <= N ->
  replies (buf ++ u) vs -> Forall (fun v => plain v = true) vs -> resumable buf (reply_scanner c) ->
  deliver vs (state c) = Some s' -> (length buf < fuel)%nat ->
  exists c' vs' buf', buffer_loop fuel c = Ok (true, c') /\ ready N u vs' c' buf' /\ Forall (fun v => plain v = true) vs' /\ deliver vs' (state c') = Some s'.
Proof.
  revert c vs buf. induction fuel as [|fuel IH]; intros c vs buf Hb Hh Hsize Hr Hp Hs Hd Hf; [lia|]. cbn [ValkeyClient.buffer_loop].
  rewrite Hb. cbn [mbind outcome_bind]. destruct (Nat.eqb_spec (length buf) 0) as [H0|H0].
  - exists c, vs, buf. split; [done|]. split; [|done]. split; try done. intros v n E.
    destruct (parse_reply_scans (buf ++ u)) as (res & n' & E' & H). assert (res = inl v) as -> by congruence. assert (n' = n) as -> by congruence. lia.
  - inversion Hr as [Hnil|b v n vs1 E Hrest Hb' Hvs]; subst; [destruct buf; done|]. apply list.Forall_cons in Hp as [Hv Hp].
    pose proof (parse_reply_part buf u v n E Hv) as Hpart. pose proof (scan_part buf u _ v n Hs E Hv) as Hscan.
    destruct (parse_reply_scans (buf ++ u)) as (res & n' & E' & Hn). assert (res = inl v) as -> by congruence. assert (n' = n) as -> by congruence.
    destruct Hn as [Hn _]. destruct (Nat.leb_spec n (length buf)) as [Hle|Hlt].
    + destruct Hscan as [s1 ->]. cbn [mbind outcome_bind]. rewrite Hpart. cbn [mbind outcome_bind].
      rewrite (proj2 (Nat.eqb_neq n 0)) by lia. unfold wrap. rewrite Z.mod_small by (apply remaining_ok in Hb as [_ Hb]; [unfold U32_MAX in *; lia|done]).
      destruct (consume_ok (read_buffer c) buf n Hb Hh Hle ltac:(lia)) as (Hrem & Hh' & Hlen).
      cbn [deliver] in Hd. cbn [with_scanner with_buffer state read_buffer reply_scanner].
      destruct (handle_response v (state c)) as [ok s2]. destruct ok; [|done]. cbn [andb negb with_state state read_buffer reply_scanner] in *.
      destruct (closed s2); [done|]. apply (IH _ vs1 (drop n buf)); try done.
      * cbn [with_state with_scanner with_buffer read_buffer]. lia.
      * by rewrite <- drop_app_le.
      * apply resumable_reset.
      * rewrite length_drop. lia.
    + destruct Hscan as (s1 & -> & Hs1). cbn [mbind outcome_bind]. exists (with_scanner c s1), (v :: vs1), buf.
      split; [done|]. split; [|split; [by constructor|done]]. split; try done. intros v0 n0 E0. assert (n0 = n) as -> by congruence. done.
Qed.

Lemma stack_loop_ok fuel c d u vs s' :
  remaining (read_buffer c) = Ok [] -> 0 <= head (read_buffer c) ->
  Z.of_nat (length (byte_list (read_buffer c)) + length d + length u) <= N ->
  replies (d ++ u) vs -> Forall (fun v => plain v = true) vs -> resumable [] (reply_scanner c) ->
  deliver vs (state c) = Some s' -> (length d < fuel)%nat ->
  exists c' vs' buf', stack_loop fuel c d = Ok (true, c') /\ ready N u vs' c' buf' /\ Forall (fun v => plain v = true) vs' /\ deliver vs' (state c') = Some s'.
Proof.
  revert c d vs. induction fuel as [|fuel IH]; intros c d vs Hb Hh Hsize Hr Hp Hs Hd Hf; [lia|]. cbn [ValkeyClient.stack_loop].
  destruct (parse_reply_scans (d ++ u)) as (res & n' & E' & Hn').
  destruct (Nat.eqb_spec (length d) 0) as [H0|H0].
  - apply nil_length_inv in H0 as ->. exists c, vs, []. split; [done|]. split; [|done]. split; try done; [cbn in Hsize; lia|]. intros v n E.
    assert (res = inl v) as -> by congruence. assert (n' = n) as -> by congruence. cbn. lia.
  - inversion Hr as [Hnil|b v n vs1 E Hrest Hb' Hvs]; subst; [destruct d; done|]. apply list.Forall_cons in Hp as [Hv Hp].
    assert (res = inl v) as -> by congruence. assert (n' = n) as -> by congruence. destruct Hn' as [Hn _].
    pose proof (parse_reply_part d u v n E Hv) as Hpart. destruct (Nat.leb_spec n (length d)) as [Hle|Hlt].
    + rewrite Hpart. cbn [mbind outcome_bind]. rewrite (proj2 (Nat.eqb_neq n 0)), slice_from_ok by lia. cbn [mbind outcome_bind].
      cbn [deliver] in Hd. destruct (handle_response v (state c)) as [ok s2]. destruct ok; [|done]. cbn [andb negb with_state state] in *.
      destruct (closed s2); [done|]. apply (IH _ (drop n d) vs1); try done; cbn [with_state read_buffer]; rewrite ?length_drop; [lia| |lia].
      by rewrite <- drop_app_le.
    + destruct Hpart as [q ->]. cbn [mbind outcome_bind]. eexists _, (v :: vs1), d. split; [done|].
      split; [|split; [by constructor|done]]. split; cbn [with_buffer with_scanner read_buffer reply_scanner].
      * by apply (client_write_ok _ []).
      * done.
      * unfold list_write. cbn [byte_list]. rewrite length_app. lia.
      * done.
      * apply resumable_reset.
      * intros v0 n0 E0. assert (n0 = n) as -> by congruence. done.
Qed.

Lemma on_data_ok c d u vs buf s' :
  ready N (d ++ u) vs c buf -> Forall (fun v => plain v = true) vs -> deliver vs (state c) = Some s' ->
  exists c' vs' buf', on_data c d = Ok (true, c') /\ ready N u vs' c' buf' /\ Forall (fun v => plain v = true) vs' /\ deliver vs' (state c') = Some s'.
Proof.
  intros [Hb Hh Hsize Hr Hs _] Hp Hd. rewrite length_app in Hsize. unfold ValkeyClient.on_data. rewrite Hb. cbn [mbind outcome_bind].
  destruct (Nat.eqb_spec (length buf) 0) as [H0|H0]; cbn [negb].
  - apply nil_length_inv in H0 as ->. apply (stack_loop_ok _ c d u vs); try done; lia.
  - pose proof (client_write_ok _ _ d Hb Hh) as Hw. pose proof (remaining_ok _ _ Hw Hh) as [_ Hlen]. cbn [list_write head byte_list] in Hlen.
    apply (buffer_loop_ok _ _ u vs (buf ++ d)); cbn [with_buffer read_buffer reply_scanner state list_write byte_list head]; try done.
    + rewrite length_app. lia.
    + by rewrite <- app_assoc.
    + by apply resumable_app.
    + lia.
Qed.

(** The socket callbacks of the segments [chunks], up to an error of the engine. *)
Fixpoint receive (c : ValkeyClient) (chunks : list bytes) : outcome (bool * ValkeyClient) :=
  match chunks with
  | [] => Ok (true, c)
  | d :: chunks => '(ok, c) ← on_data c d; if negb ok then Ok (false, c) else receive c chunks
  end.

Lemma receive_ok chunks c vs buf s' :
  ready N (concat chunks) vs c buf -> Forall (fun v => plain v = true) vs -> deliver vs (state c) = Some s' ->
  exists c', receive c chunks = Ok (true, c') /\ remaining (read_buffer c') = Ok [] /\ state c' = s'.
Proof.
  revert c vs buf. induction chunks as [|d chunks IH]; intros c vs buf Hc Hp Hd; cbn [receive].
  - exists c. split; [done|]. destruct Hc as [Hb _ _ Hr _ Hpart]. cbn [concat] in *. rewrite app_nil_r in *.
    inversion Hr as [|b v n vs1 E Hrest Hb' Hvs]; subst; [by injection Hd|]. apply Hpart in E as Hlt.
    destruct (parse_reply_scans buf) as (res & n' & E' & Hn). assert (res = inl v) as -> by congruence. assert (n' = n) as -> by congruence. lia.
  - destruct (on_data_ok c d (concat chunks) vs buf s' Hc Hp Hd) as (c1 & vs1 & buf1 & -> & Hc1 & Hp1 & Hd1). cbn [mbind outcome_bind negb].
    by apply (IH c1 vs1 buf1).
Qed.
End stream.

(** (C9) Every reply of a stream is handled, once and in order, whatever the segments in which the
    stream arrives: if the bytes of the segments together are the replies [vs], none of which holds a
    verbatim string or a blob error, and handling them neither fails nor closes the connection, then the
    socket callbacks of the segments return without panic, the client ends in the state that handling
    [vs] one after the other gives, and nothing is left in the read buffer. *)
Theorem segments_delivered (F : Type) (INFINITY NEG_INFINITY NAN : F) (parse_f64 : bytes -> option F) (value_size entry_size : Z)
    (State : Type) (handle_response : RESPValue F -> State -> bool * State) (fail_client : RedisError -> State -> bool * State)
    (closed : State -> bool) (send_next_command : State -> State) (chunks : list bytes) (vs : list (RESPValue F)) (s s' : State)
    (c := on_open (mkClient list_default scanner_reset s)) :
  0 <= value_size -> 0 <= entry_size ->
  Z.of_nat (length (concat chunks)) <= U32_MAX ->
  replies F INFINITY NEG_INFINITY NAN parse_f64 value_size entry_size (concat chunks) vs ->
  Forall (fun v => plain v = true) vs ->
  deliver F handle_response closed send_next_command vs s = Some s' ->
  exists c', receive F INFINITY NEG_INFINITY NAN parse_f64 value_size entry_size handle_response fail_client closed send_next_command c chunks =
      Ok (true, c') /\ remaining (read_buffer c') = Ok [] /\ state c' = s'.
Proof.
  intros Hvalue Hentry Hlen Hr Hp Hd.
  apply (receive_ok F INFINITY NEG_INFINITY NAN parse_f64 value_size entry_size Hvalue Hentry handle_response fail_client closed send_next_command
    (Z.of_nat (length (concat chunks))) Hlen chunks c vs [] s'); [|done|done].
  split; try done.
  - apply resumable_reset.
  - intros v n E. destruct (parse_reply_scans F INFINITY NEG_INFINITY NAN parse_f64 value_size entry_size Hvalue Hentry ([] ++ concat chunks)) as (res & n' & E' & Hn).
    assert (res = inl v) as -> by congruence. assert (n' = n) as -> by congruence. cbn. lia.
Qed.

(** A client that records what it handles, and the failures. *)
Definition recorded : Type := list (RESPValue Z) * list RedisError.
Definition record_value (v : RESPValue Z) (s : recorded) : bool * recorded := (true, (fst s ++ [v], snd s)).
Definition record_error (e : RedisError) (s : recorded) : bool * recorded := (true, (fst s, snd s ++ [e])).
Definition has_failed (s : recorded) : bool := negb (length (snd s) =? 0)%nat.
Definition receive_recorded (chunks : list bytes) :=
  receive Z 0 1 2 (fun _ => None) 32 64 record_value record_error has_failed id (on_open (mkClient list_default scanner_reset ([], []))) chunks.

Lemma segments_delivered_witness :
  let chunks := [str "+OK" ++ [13; 10] ++ str "*2" ++ [13]; [10] ++ str ":1" ++ [13; 10]; str "$2" ++ [13; 10; 13; 10] ; [13; 10] ++ str "#t" ++ [13; 10]] in
  let vs := [SimpleString (str "OK"); Array [Integer 1; BulkString (Some [13; 10])]; Boolean true] in
  replies Z 0 1 2 (fun _ => None) 32 64 (concat chunks) vs /\
  exists c', receive_recorded chunks = Ok (true, c') /\ remaining (read_buffer c') = Ok [] /\ state c' = (vs, []).
Proof.
  assert (Hr : replies Z 0 1 2 (fun _ => None) 32 64
    (concat [str "+OK" ++ [13; 10] ++ str "*2" ++ [13]; [10] ++ str ":1" ++ [13; 10]; str "$2" ++ [13; 10; 13; 10] ; [13; 10] ++ str "#t" ++ [13; 10]])
    [SimpleString (str "OK"); Array [Integer 1; BulkString (Some [13; 10])]; Boolean true]).
  { repeat (eapply replies_cons; [vm_compute; reflexivity|]). vm_compute. constructor. }
  split; [exact Hr|].
  apply (segments_delivered Z 0 1 2 (fun _ => None) 32 64 recorded record_value record_error has_failed id _
    [SimpleString (str "OK"); Array [Integer 1; BulkString (Some [13; 10])]; Boolean true] ([], [])); [lia|lia|vm_compute; congruence|exact Hr| |reflexivity].
  repeat constructor.
Defined.

(** The replies must be plain: a verbatim string cut by a segment boundary fails the client, though the
    same bytes in one segment, or cut behind another partial reply, are handled. *)
Example verbatim_cut :
  let segments l := match receive_recorded l with Ok (_, c) => Some (state c) | _ => None end in
  let v := VerbatimString (str "txt") (str "abcd") in
  segments [str "=8" ++ [13; 10] ++ str "txt:abcd" ++ [13; 10]] = Some ([v], []) /\
  segments [str "=8" ++ [13; 10] ++ str "txt:"] = Some ([], [InvalidVerbatimString]) /\
  segments [str "="; str "8" ++ [13; 10] ++ str "txt:"; str "abcd" ++ [13; 10]] = Some ([v], []).
Proof. vm_compute. repeat split. Qed.
