(* ===== verification/Wyhash4.v ===== *)
(** * Wyhash, final4 variant ([wyhash/lib.rs])

    The 48-byte-round hash of [bun.hash], query strings and header names: the one-shot [hash], the
    streaming hasher, the [const fn] version, the hash of lowercased text and the integer mixers.  The
    unaligned loads ([read4], [read8]) are memory-unsafe past the end of their slice: [Panic] here, and the
    theorems show that it never happens. *)

From S2P Require Import Prelude.

(** ** Words *)

Definition SECRET0 : Z := 0xa0761d6478bd642f.
Definition SECRET1 : Z := 0xe7037ed1a0b428db.
Definition SECRET2 : Z := 0x8ebc6af09c88c6e3.
Definition SECRET3 : Z := 0x589965cc75374cc3.

(** The little-endian word of [n] bytes at [at_]. *)
Definition word (n : nat) (data : bytes) (at_ : nat) : Z := le_value (take n (drop at_ data)).

Definition read_word (n : nat) (data : bytes) (at_ : nat) : outcome Z :=
  if (at_ + n <=? length data)%nat then Ok (word n data at_) else Panic.
Definition read4 : bytes -> nat -> outcome Z := read_word 4.
Definition read8 : bytes -> nat -> outcome Z := read_word 8.

(** The two halves of the 128-bit product. *)
Definition mum_ (a b : Z) : Z * Z := let x := wrap 128 (a * b) in (wrap 64 x, wrap 64 (Z.shiftr x 64)).
Definition mix (a b : Z) : Z := let '(a, b) := mum_ a b in Z.lxor a b.

(** ** The hasher *)

Definition State : Type := Z * Z * Z.

Record Wyhash := mkWyhash { a : Z; b : Z; state : State; total_len : Z; buf : bytes; buf_len : nat }.

Definition with_state (h : Wyhash) (s : State) := mkWyhash (a h) (b h) s (total_len h) (buf h) (buf_len h).
Definition with_ab (h : Wyhash) (x y : Z) := mkWyhash x y (state h) (total_len h) (buf h) (buf_len h).

Definition init (seed : Z) : Wyhash :=
  let s0 := Z.lxor seed (mix (Z.lxor seed SECRET0) SECRET1) in
  mkWyhash 0 0 (s0, s0, s0) 0 (replicate 48 0) 0.

(** A block of 48 bytes at [i]. *)
Definition round (s : State) (input : bytes) (i : nat) : outcome State :=
  let '(s0, s1, s2) := s in
  a0 ← read8 input i; b0 ← read8 input (i + 8);
  a1 ← read8 input (i + 16); b1 ← read8 input (i + 24);
  a2 ← read8 input (i + 32); b2 ← read8 input (i + 40);
  Ok (mix (Z.lxor a0 SECRET1) (Z.lxor b0 s0), mix (Z.lxor a1 SECRET2) (Z.lxor b1 s1), mix (Z.lxor a2 SECRET3) (Z.lxor b2 s2)).

(** [while i + 48 < input.len()] *)
Fixpoint rounds (fuel : nat) (s : State) (input : bytes) (i : nat) : outcome (State * nat) :=
  if (i + 48 <? length input)%nat then
    match fuel with
    | O => OutOfFuel
    | S fuel => s ← round s input i; rounds fuel s input (i + 48)
    end
  else Ok (s, i).

Definition update (h : Wyhash) (input : bytes) : outcome Wyhash :=
  let total := wrap 64 (total_len h + Z.of_nat (length input)) in
  if (length input <=? 48 - buf_len h)%nat then
    Ok (mkWyhash (a h) (b h) (state h) total (copy_at (buf h) (buf_len h) input) (buf_len h + length input))
  else
    '(s, buffer, i) ←
      (if (0 <? buf_len h)%nat then
         let i := (48 - buf_len h)%nat in
         let buffer := copy_at (buf h) (buf_len h) (take i input) in
         s ← round (state h) buffer 0;
         Ok (s, buffer, i)
       else Ok (state h, buf h, 0%nat));
    '(s, i) ← rounds (length input) s input i;
    let remaining_bytes := drop i input in
    let buffer :=
      if ((length remaining_bytes <? 16) && (48 <=? i))%nat then
        let rem := (16 - length remaining_bytes)%nat in
        copy_at buffer (48 - rem) (take rem (drop (i - rem) input))
      else buffer in
    Ok (mkWyhash (a h) (b h) s total (copy_at buffer 0 remaining_bytes) (length remaining_bytes)).

Definition small_key (h : Wyhash) (input : bytes) : outcome Wyhash :=
  let len := length input in
  if (4 <=? len)%nat then
    let end_ := (len - 4)%nat in
    let quarter := (len / 8 * 4)%nat in
    w0 ← read4 input 0; w1 ← read4 input quarter; w2 ← read4 input end_; w3 ← read4 input (end_ - quarter);
    Ok (with_ab h (Z.lor (wrap 64 (Z.shiftl w0 32)) w1) (Z.lor (wrap 64 (Z.shiftl w2 32)) w3))
  else if (0 <? len)%nat then
    c0 ← index_at input 0; c1 ← index_at input (len / 2); c2 ← index_at input (len - 1);
    Ok (with_ab h (Z.lor (Z.lor (Z.shiftl c0 16) (Z.shiftl c1 8)) c2) 0)
  else Ok (with_ab h 0 0).

Definition final0 (h : Wyhash) : Wyhash :=
  let '(s0, s1, s2) := state h in with_state h (Z.lxor s0 (Z.lxor s1 s2), s1, s2).

(** [while i + 16 < input.len()] *)
Fixpoint tail_loop (fuel : nat) (s0 : Z) (input : bytes) (i : nat) : outcome Z :=
  if (i + 16 <? length input)%nat then
    match fuel with
    | O => OutOfFuel
    | S fuel => x ← read8 input i; y ← read8 input (i + 8); tail_loop fuel (mix (Z.lxor x SECRET1) (Z.lxor y s0)) input (i + 16)
    end
  else Ok s0.

Definition final1 (h : Wyhash) (input_lb : bytes) (start_pos : nat) : outcome Wyhash :=
  input ← slice_from input_lb start_pos;
  let '(s0, s1, s2) := state h in
  s0 ← tail_loop (length input) s0 input 0;
  x ← (if (16 <=? length input_lb)%nat then read8 input_lb (length input_lb - 16) else Panic);
  y ← read8 input_lb (length input_lb - 8);
  Ok (with_ab (with_state h (s0, s1, s2)) x y).

Definition final2 (h : Wyhash) : Z :=
  let '(s0, _, _) := state h in
  let '(x, y) := mum_ (Z.lxor (a h) SECRET1) (Z.lxor (b h) s0) in
  mix (Z.lxor (Z.lxor x SECRET0) (total_len h)) (Z.lxor y SECRET1).

(** [final_]; the copy leaves [self] as it is. *)
Definition final_ (h : Wyhash) : outcome Z :=
  let input := take (buf_len h) (buf h) in
  let new_self := mkWyhash (a h) (b h) (state h) (total_len h) (replicate 48 0) 0 in
  new_self ←
    (if total_len h <=? 16 then small_key new_self input
     else
       let '(input, offset) :=
         if (buf_len h <? 16)%nat then
           let rem := (16 - buf_len h)%nat in
           let scratch := copy_at (replicate 16 0) 0 (take rem (drop (48 - rem) (buf h))) in
           (copy_at scratch rem (take (buf_len h) (buf h)), rem)
         else (input, 0%nat) in
       final1 (final0 new_self) input offset);
  Ok (final2 new_self).

(** [Wyhash::hash] *)
Definition hash_with_seed (seed : Z) (input : bytes) : outcome Z :=
  let this := init seed in
  this ←
    (if (length input <=? 16)%nat then small_key this input
     else
       '(this, i) ←
         (if (48 <=? length input)%nat then
            '(s, i) ← rounds (length input) (state this) input 0;
            Ok (final0 (with_state this s), i)
          else Ok (this, 0%nat));
       final1 this input i);
  Ok (final2 (mkWyhash (a this) (b this) (state this) (wrap 64 (Z.of_nat (length input))) (buf this) (buf_len this))).

Definition hash (bytes : bytes) : outcome Z := hash_with_seed 0 bytes.
Definition hash32 (bytes : bytes) : outcome Z := h ← hash bytes; Ok (wrap 32 h).

(** ** Lowercased text *)

Definition to_ascii_lowercase (c : Z) : Z := if is_ascii_upper c then c + 32 else c.

(** [while !remain.is_empty()], 48 bytes a time. *)
Fixpoint lower_loop (fuel : nat) (h : Wyhash) (remain : bytes) : outcome Wyhash :=
  if (length remain =? 0)%nat then Ok h
  else
    match fuel with
    | O => OutOfFuel
    | S fuel =>
        let n := Nat.min (length remain) 48 in
        h ← update h (map to_ascii_lowercase (take n remain));
        lower_loop fuel h (drop n remain)
    end.

Definition hash_ascii_lowercase (seed : Z) (bytes : bytes) : outcome Z :=
  if (length bytes <=? 48)%nat then hash_with_seed seed (map to_ascii_lowercase bytes)
  else h ← lower_loop (length bytes) (init seed) bytes; final_ h.

(** ** The [const fn] *)

(** [while j + 16 < len] *)
Fixpoint const_tail (fuel : nat) (s0 : Z) (input : bytes) (j : nat) : outcome Z :=
  if (j + 16 <? length input)%nat then
    match fuel with
    | O => OutOfFuel
    | S fuel => x ← read8 input j; y ← read8 input (j + 8); const_tail fuel (mix (Z.lxor x SECRET1) (Z.lxor y s0)) input (j + 16)
    end
  else Ok s0.

Definition hash_const (seed : Z) (input : bytes) : outcome Z :=
  let s0 := Z.lxor seed (mix (Z.lxor seed SECRET0) SECRET1) in
  let len := length input in
  '(x, y, s0) ←
    (if (len <=? 16)%nat then
       if (4 <=? len)%nat then
         let end_ := (len - 4)%nat in
         let quarter := (len / 8 * 4)%nat in
         w0 ← read4 input 0; w1 ← read4 input quarter; w2 ← read4 input end_; w3 ← read4 input (end_ - quarter);
         Ok (Z.lor (wrap 64 (Z.shiftl w0 32)) w1, Z.lor (wrap 64 (Z.shiftl w2 32)) w3, s0)
       else if (0 <? len)%nat then
         c0 ← index_at input 0; c1 ← index_at input (len / 2); c2 ← index_at input (len - 1);
         Ok (Z.lor (Z.lor (Z.shiftl c0 16) (Z.shiftl c1 8)) c2, 0, s0)
       else Ok (0, 0, s0)
     else
       '(s0, i) ←
         (if (48 <=? len)%nat then
            '((s0, s1, s2), i) ← rounds len (s0, s0, s0) input 0;
            Ok (Z.lxor s0 (Z.lxor s1 s2), i)
          else Ok (s0, 0%nat));
       s0 ← const_tail len s0 input i;
       x ← read8 input (len - 16); y ← read8 input (len - 8);
       Ok (x, y, s0));
  let '(x, y) := mum_ (Z.lxor x SECRET1) (Z.lxor y s0) in
  Ok (mix (Z.lxor (Z.lxor x SECRET0) (wrap 64 (Z.of_nat len))) (Z.lxor y SECRET1)).

(** ** Integers *)

Definition xorshift (x k : Z) : Z := Z.lxor x (Z.shiftr x k).

Definition hash_int16 (x : Z) : Z :=
  let x := wrap 16 (xorshift x 7 * 0x2993) in
  let x := wrap 16 (xorshift x 5 * 0xe877) in
  let x := wrap 16 (xorshift x 9 * 0x0235) in
  xorshift x 10.

Definition hash_int32 (x : Z) : Z :=
  let x := wrap 32 (xorshift x 17 * 0xed5ad4bb) in
  let x := wrap 32 (xorshift x 11 * 0xac4c1b51) in
  let x := wrap 32 (xorshift x 15 * 0x31848bab) in
  xorshift x 14.

Definition hash_int64 (x : Z) : Z :=
  let C := 0xbea225f9eb34556d in
  let x := wrap 64 (xorshift x 32 * C) in
  let x := wrap 64 (xorshift x 29 * C) in
  let x := wrap 64 (xorshift x 32 * C) in
  xorshift x 29.

(** The test vectors of the file. *)
Example wyhash_vectors :
  hash_with_seed 0 [] = Ok 0x0409638ee2bde459 /\
  hash_with_seed 1 (str "a") = Ok 0xa8412d091b5fe0a9 /\
  hash_with_seed 2 (str "abc") = Ok 0x32dd92e4b2915153 /\
  hash_with_seed 3 (str "message digest") = Ok 0x8619124089a3a16b /\
  hash_with_seed 4 (str "abcdefghijklmnopqrstuvwxyz") = Ok 0x7a43afb61d7f5f40 /\
  hash_with_seed 5 (str "ABCDEFGHIJKLMNOPQRSTUVWXYZabcdefghijklmnopqrstuvwxyz0123456789") = Ok 0xff42329b90e50d58 /\
  hash_const 5 (str "ABCDEFGHIJKLMNOPQRSTUVWXYZabcdefghijklmnopqrstuvwxyz0123456789") = Ok 0xff42329b90e50d58.
Proof. vm_compute. repeat split. Qed.

(** ** Blocks *)

(** [round] on the 48 bytes of [l]. *)
Definition block (s : State) (l : bytes) : State :=
  let '(s0, s1, s2) := s in
  (mix (Z.lxor (word 8 l 0) SECRET1) (Z.lxor (word 8 l 8) s0),
   mix (Z.lxor (word 8 l 16) SECRET2) (Z.lxor (word 8 l 24) s1),
   mix (Z.lxor (word 8 l 32) SECRET3) (Z.lxor (word 8 l 40) s2)).

(** [n] rounds from the start of [l]. *)
Fixpoint blocks (n : nat) (s : State) (l : bytes) : State :=
  match n with
  | O => s
  | S n => blocks n (block s (take 48 l)) (drop 48 l)
  end.

(** [n] steps of the tail loop. *)
Fixpoint tails (n : nat) (s0 : Z) (l : bytes) : Z :=
  match n with
  | O => s0
  | S n => tails n (mix (Z.lxor (word 8 l 0) SECRET1) (Z.lxor (word 8 l 8) s0)) (drop 16 l)
  end.

Lemma word_drop n (l : bytes) i o : word n (drop i l) o = word n l (i + o).
Proof. unfold word. by rewrite drop_drop. Qed.

Lemma word_take n m (l : bytes) o : (o + n <= m)%nat -> word n (take m l) o = word n l o.
Proof. intros H. unfold word. rewrite skipn_firstn_comm, take_take. f_equal. f_equal. lia. Qed.

Lemma read_word_ok n (l : bytes) i : (i + n <= length l)%nat -> read_word n l i = Ok (word n l i).
Proof. intros H. unfold read_word. by rewrite (proj2 (Nat.leb_le _ _)). Qed.

Lemma blocks_add n k s (l : bytes) : blocks (n + k) s l = blocks k (blocks n s l) (drop (48 * n) l).
Proof.
  revert s l. induction n as [|n IH]; intros s l; [done|]. cbn [Nat.add blocks]. rewrite IH, drop_drop. do 2 f_equal. lia.
Qed.

Lemma blocks_prefix n s (l ext : bytes) : (48 * n <= length l)%nat -> blocks n s (l ++ ext) = blocks n s l.
Proof.
  revert s l. induction n as [|n IH]; intros s l Hl; [done|]. cbn [blocks]. rewrite take_app_le, drop_app_le by lia.
  apply IH. rewrite length_drop. lia.
Qed.

Lemma round_ok s (input : bytes) i : (i + 48 <= length input)%nat -> round s input i = Ok (block s (take 48 (drop i input))).
Proof.
  intros H. unfold round, block, read8. destruct s as [[s0 s1] s2]. rewrite !read_word_ok by lia. cbn [mbind outcome_bind].
  rewrite !word_take, !word_drop by lia. by rewrite Nat.add_0_r.
Qed.

Lemma rounds_ok fuel s (input : bytes) i :
  (i <= length input)%nat -> (length input - i <= fuel)%nat ->
  let n := ((length input - i - 1) / 48)%nat in rounds fuel s input i = Ok (blocks n s (drop i input), (i + 48 * n)%nat).
Proof.
  revert s i. induction fuel as [|fuel IH]; intros s i Hi Hf; cbn [rounds]; destruct (Nat.ltb_spec (i + 48) (length input)) as [Hl|Hl];
    try lia; try (rewrite Nat.div_small by lia; cbn; by rewrite Nat.add_0_r).
  rewrite round_ok by lia. cbn [mbind outcome_bind]. rewrite IH by lia.
  replace (length input - i - 1)%nat with (1 * 48 + (length input - (i + 48) - 1))%nat by lia. rewrite Nat.div_add_l by lia.
  cbn [Nat.add blocks]. rewrite drop_drop. do 2 f_equal. lia.
Qed.

Lemma tail_loop_ok fuel s0 (input : bytes) i :
  (i <= length input)%nat -> (length input - i <= fuel)%nat ->
  tail_loop fuel s0 input i = Ok (tails ((length input - i - 1) / 16) s0 (drop i input)).
Proof.
  revert s0 i. induction fuel as [|fuel IH]; intros s0 i Hi Hf; cbn [tail_loop]; destruct (Nat.ltb_spec (i + 16) (length input)) as [Hl|Hl];
    try lia; try (by rewrite Nat.div_small by lia).
  unfold read8. rewrite !read_word_ok by lia. cbn [mbind outcome_bind]. rewrite IH by lia.
  replace (length input - i - 1)%nat with (1 * 16 + (length input - (i + 16) - 1))%nat by lia. rewrite Nat.div_add_l by lia.
  cbn [Nat.add tails]. rewrite !word_drop, Nat.add_0_r, drop_drop. done.
Qed.

Lemma const_tail_eq fuel s0 (input : bytes) j : const_tail fuel s0 input j = tail_loop fuel s0 input j.
Proof. revert s0 j. induction fuel as [|fuel IH]; intros s0 j; cbn [const_tail tail_loop]; [done|]. destruct (_ <? _)%nat; [|done].
  destruct (read8 input j); [|done..]. destruct (read8 input (j + 8)); [|done..]. apply IH.
Qed.

(** ** The short and the long key *)

Lemma small_key_ok (input : bytes) : exists x y, forall h, small_key h input = Ok (with_ab h x y).
Proof.
  unfold small_key, read4. destruct (Nat.leb_spec 4 (length input)) as [H4|H4].
  - assert (length input / 8 * 4 <= length input - 4)%nat.
    { pose proof (Nat.div_mod_eq (length input) 8). pose proof (Nat.mod_upper_bound (length input) 8 ltac:(lia)).
      destruct (Nat.le_gt_cases 8 (length input)); [lia|]. rewrite Nat.div_small by lia. lia. }
    rewrite !read_word_ok by lia. by eexists _, _.
  - destruct (Nat.ltb_spec 0 (length input)) as [H0|H0]; [|by eexists _, _].
    destruct (lookup_lt_is_Some_2 input 0 H0) as [c0 Hc0].
    destruct (lookup_lt_is_Some_2 input (length input / 2)) as [c1 Hc1]; [apply Nat.div_lt; lia|].
    destruct (lookup_lt_is_Some_2 input (length input - 1)) as [c2 Hc2]; [lia|].
    rewrite (index_at_ok _ _ _ Hc0), (index_at_ok _ _ _ Hc1), (index_at_ok _ _ _ Hc2). by eexists _, _.
Qed.

(** The last words of a long key. *)
Definition last_words (l : bytes) : Z * Z := let e := drop (length l - 16) l in (word 8 e 0, word 8 e 8).

Lemma final1_ok h (lb : bytes) start :
  (16 <= length lb)%nat -> (start <= length lb)%nat ->
  final1 h lb start =
    Ok (let '(s0, s1, s2) := state h in
        with_ab (with_state h (tails ((length lb - start - 1) / 16) s0 (drop start lb), s1, s2)) (fst (last_words lb)) (snd (last_words lb))).
Proof.
  intros Hl Hs. unfold final1. rewrite slice_from_ok by done. cbn [mbind outcome_bind]. destruct (state h) as [[s0 s1] s2].
  rewrite tail_loop_ok by (rewrite ?length_drop; lia). cbn [mbind outcome_bind]. rewrite drop_0, length_drop, Nat.sub_0_r.
  rewrite (proj2 (Nat.leb_le _ _)) by done. unfold read8. rewrite !read_word_ok by lia. cbn [mbind outcome_bind].
  unfold last_words. cbn [fst snd]. rewrite !word_drop, Nat.add_0_r.
  by replace (length lb - 16 + 8)%nat with (length lb - 8)%nat by lia.
Qed.

(** ** The streaming hasher *)

Lemma drop_copy_at {A} n (dst : list A) i (src : list A) :
  (i + length src <= n)%nat -> (i + length src <= length dst)%nat -> drop n (copy_at dst i src) = drop n dst.
Proof.
  intros Hn Hd. unfold copy_at. assert (Hl : length (take i dst ++ src) = (i + length src)%nat) by (rewrite length_app, length_take; lia).
  rewrite app_assoc, drop_app_ge, Hl, drop_drop by lia. f_equal. lia.
Qed.

Lemma drop_copy_at_end {A} (dst : list A) n (src : list A) : (n + length src = length dst)%nat -> drop n (copy_at dst n src) = src.
Proof.
  intros H. unfold copy_at. rewrite drop_app_length' by (rewrite length_take; lia). rewrite (drop_ge dst) by lia. apply app_nil_r.
Qed.

(** The number of blocks that are hashed before the end of [n] bytes: the last one, even if whole, waits. *)
Definition full_blocks (n : nat) : nat := ((n - 1) / 48)%nat.

Lemma full_blocks_spec n k : (48 * k < n <= 48 * k + 48)%nat -> full_blocks n = k.
Proof. intros H. unfold full_blocks. symmetry. apply (Nat.div_unique _ _ _ (n - 1 - 48 * k)); lia. Qed.

Lemma full_blocks_bounds n : (0 < n)%nat -> (48 * full_blocks n < n <= 48 * full_blocks n + 48)%nat.
Proof. intros H. unfold full_blocks. pose proof (Nat.div_mod_eq (n - 1) 48). pose proof (Nat.mod_upper_bound (n - 1) 48 ltac:(lia)). lia. Qed.

(** What the hasher holds after the input [m]; while less than 16 bytes wait, the end of the buffer
    has the bytes before them. *)
Record holds (seed : Z) (h : Wyhash) (m : bytes) (k : nat) : Prop := {
  holds_blocks : (48 * k < length m)%nat \/ m = [] /\ k = 0%nat;
  holds_len : length m = (48 * k + buf_len h)%nat;
  holds_max : (buf_len h <= 48)%nat;
  holds_state : state h = blocks k (state (init seed)) m;
  holds_total : total_len h = wrap 64 (Z.of_nat (length m));
  holds_buf_len : length (buf h) = 48%nat;
  holds_buf : take (buf_len h) (buf h) = drop (48 * k) m;
  holds_tail : k <> 0%nat -> (buf_len h < 16)%nat -> drop (32 + buf_len h) (buf h) = drop (32 + buf_len h) (take 48 (drop (48 * (k - 1)) m));
}.

Lemma holds48_init seed : holds seed (init seed) [] 0.
Proof. split; try done; cbn; try lia. by right. Qed.

Lemma wrap_add x y : wrap 64 (wrap 64 x + y) = wrap 64 (x + y).
Proof. unfold wrap. rewrite Z.add_mod_idemp_l by lia. done. Qed.

(** The input that fits is only buffered. *)
Lemma holds48_append seed h m k t :
  holds seed h m k -> (buf_len h + length t <= 48)%nat ->
  holds seed (mkWyhash (a h) (b h) (state h) (wrap 64 (total_len h + Z.of_nat (length t))) (copy_at (buf h) (buf_len h) t) (buf_len h + length t)) (m ++ t) k.
Proof.
  intros [Hk Hl Hmax Hs Ht Hb Hbuf Htail] Hfit. split; cbn [buf_len state total_len buf].
  - destruct Hk as [?|[-> ->]]; [left; rewrite length_app; lia|]. destruct t; [by right|left; cbn; lia].
  - rewrite length_app. lia.
  - lia.
  - rewrite Hs. symmetry. apply blocks_prefix. lia.
  - rewrite Ht, wrap_add, length_app. do 2 f_equal. lia.
  - rewrite copy_at_length; lia.
  - rewrite copy_at_take, Hbuf by lia. by rewrite drop_app_le by lia.
  - intros Hk0 H16. rewrite drop_copy_at by lia. specialize (Htail Hk0 ltac:(lia)).
    rewrite Nat.add_assoc, <- drop_drop, Htail, drop_drop, drop_app_le, take_app_le by (rewrite ?length_drop; lia). done.
Qed.

(** The first step of [update] when the input does not fit: the buffered block is hashed. *)
Lemma update_flush seed h m k t :
  holds seed h m k -> (48 < buf_len h + length t)%nat ->
  exists k1 buffer,
    let i := (if 0 <? buf_len h then 48 - buf_len h else 0)%nat in
    (if (0 <? buf_len h)%nat then
       let i := (48 - buf_len h)%nat in
       let buffer := copy_at (buf h) (buf_len h) (take i t) in
       s ← round (state h) buffer 0;
       Ok (s, buffer, i)
     else Ok (state h, buf h, 0%nat)) = Ok (blocks k1 (state (init seed)) (m ++ t), buffer, i) /\
    (i < length t)%nat /\ (length m + i = 48 * k1)%nat /\ length buffer = 48%nat /\ (k1 <> 0%nat -> buffer = take 48 (drop (48 * (k1 - 1)) (m ++ t))).
Proof.
  intros [Hk Hl Hmax Hs Ht Hb Hbuf Htail] Hfit. destruct (Nat.ltb_spec 0 (buf_len h)) as [H0|H0].
  - set (i := (48 - buf_len h)%nat). assert (Hbuffer : copy_at (buf h) (buf_len h) (take i t) = take 48 (drop (48 * k) (m ++ t))).
    { rewrite drop_app_le by lia. rewrite <- Hbuf. assert (Hlt : length (take i t) = i) by (rewrite length_take; lia).
      rewrite <- (take_ge (copy_at (buf h) (buf_len h) (take i t)) (buf_len h + length (take i t))) by (rewrite copy_at_length; lia).
      rewrite copy_at_take by lia. rewrite take_app_ge by (rewrite length_take; lia). rewrite length_take. do 2 f_equal. lia. }
    exists (k + 1)%nat, (copy_at (buf h) (buf_len h) (take i t)). cbv zeta.
    assert (Hlb : length (copy_at (buf h) (buf_len h) (take i t)) = 48%nat) by (rewrite copy_at_length; rewrite ?length_take; lia).
    rewrite round_ok by lia. cbn [mbind outcome_bind]. rewrite drop_0, (take_ge (copy_at _ _ _)) by lia. split.
    + rewrite blocks_add, Hs, blocks_prefix by lia. cbn [blocks]. by rewrite Hbuffer.
    + split; [lia|]. split; [lia|]. split; [done|]. intros _. by replace (k + 1 - 1)%nat with k by lia.
  - exists 0%nat, (buf h). cbv zeta. destruct Hk as [?|[-> ->]]; [lia|]. rewrite Hs. split; [done|]. split; [lia|]. split; [done|]. split; [done|lia].
Qed.

Lemma holds48_update seed h m k t : holds seed h m k -> exists h' k', update h t = Ok h' /\ holds seed h' (m ++ t) k'.
Proof.
  intros H. pose proof (holds_max _ _ _ _ H) as Hmax. unfold update. destruct (Nat.leb_spec (length t) (48 - buf_len h)) as [Hfit|Hfit].
  { eexists _, k. split; [done|]. apply holds48_append; [done|lia]. }
  destruct (update_flush seed h m k t H ltac:(lia)) as (k1 & buffer & E & Hi & Hk1 & Hlb & Hbuffer). cbv zeta in E. rewrite E. cbn [mbind outcome_bind].
  set (i := (if 0 <? buf_len h then 48 - buf_len h else 0)%nat) in *. rewrite rounds_ok by lia. cbv zeta. cbn [mbind outcome_bind].
  set (j := ((length t - i - 1) / 48)%nat). set (n := (i + 48 * j)%nat).
  pose proof (Nat.div_mod_eq (length t - i - 1) 48) as Hdiv. pose proof (Nat.mod_upper_bound (length t - i - 1) 48 ltac:(lia)).
  fold j in Hdiv. set (r := drop n t). assert (Hr : length r = (length t - n)%nat) by apply length_drop.
  set (buffer' := if ((length r <? 16) && (48 <=? n))%nat then _ else buffer). exists (mkWyhash (a h) (b h) (blocks j (blocks k1 (state (init seed)) (m ++ t)) (drop i t))
    (wrap 64 (total_len h + Z.of_nat (length t))) (copy_at buffer' 0 r) (length r)), (k1 + j)%nat. split; [done|].
  assert (Hlb' : length buffer' = 48%nat).
  { unfold buffer'. destruct (_ && _); [|done]. rewrite copy_at_length; rewrite ?length_take, ?length_drop; lia. }
  split; cbn [buf_len state total_len buf].
  - left. rewrite length_app. lia.
  - rewrite length_app. lia.
  - lia.
  - rewrite blocks_add. f_equal. rewrite <- Hk1. by rewrite drop_app_add.
  - rewrite (holds_total _ _ _ _ H), wrap_add, length_app. do 2 f_equal. lia.
  - rewrite copy_at_length; lia.
  - pose proof (copy_at_take buffer' 0 r ltac:(lia)) as Ht. rewrite Nat.add_0_l in Ht. rewrite Ht, take_0. cbn [app].
    replace (48 * (k1 + j))%nat with (length m + n)%nat by lia. by rewrite drop_app_add.
  - intros Hk0 H16. rewrite drop_copy_at by lia. unfold buffer'. rewrite (proj2 (Nat.ltb_lt _ 16)) by done. cbn [andb].
    destruct (Nat.leb_spec 48 n) as [Hn|Hn].
    + replace (48 - (16 - length r))%nat with (32 + length r)%nat by lia.
      rewrite drop_copy_at_end by (rewrite length_take, length_drop; lia).
      replace (48 * (k1 + j - 1))%nat with (length m + (n - 48))%nat by lia. rewrite drop_app_add.
      rewrite skipn_firstn_comm, drop_drop.
      replace (48 - (32 + length r))%nat with (16 - length r)%nat by lia. do 2 f_equal. lia.
    + assert (j = 0%nat) as Hj by lia. rewrite Hj, Nat.add_0_r in *. by rewrite Hbuffer.
Qed.

(** ** The one-shot hash *)

Definition long_key (seed : Z) (m : bytes) (k : nat) : Z * Z * Z :=
  let '(s0, s1, s2) := blocks k (state (init seed)) m in
  let s0 := tails ((length m - 48 * k - 1) / 16) (Z.lxor s0 (Z.lxor s1 s2)) (drop (48 * k) m) in
  (s0, fst (last_words m), snd (last_words m)).

(** The end of the hash of [n] bytes from the first lane and the two last words. *)
Definition finished (n : nat) (x : Z * Z * Z) : Z :=
  let '(s0, a, b) := x in final2 (mkWyhash a b (s0, 0, 0) (wrap 64 (Z.of_nat n)) [] 0).

Lemma init_final0 seed : final0 (init seed) = init seed.
Proof. unfold final0, init, with_state. cbn. by rewrite Z.lxor_nilpotent, Z.lxor_0_r. Qed.

Lemma full_blocks_short n : (n <= 48)%nat -> full_blocks n = 0%nat.
Proof. intros H. unfold full_blocks. apply Nat.div_small. lia. Qed.

Lemma hash_long seed m : (16 < length m)%nat -> hash_with_seed seed m = Ok (finished (length m) (long_key seed m (full_blocks (length m)))).
Proof.
  intros Hm. unfold hash_with_seed. rewrite (proj2 (Nat.leb_gt _ _)) by done.
  pose proof (full_blocks_bounds (length m) ltac:(lia)) as Hk. set (k := full_blocks (length m)) in *.
  assert (E : (if (48 <=? length m)%nat then '(s, i) ← rounds (length m) (state (init seed)) m 0; Ok (final0 (with_state (init seed) s), i)
               else Ok (init seed, 0%nat)) = Ok (final0 (with_state (init seed) (blocks k (state (init seed)) m)), (48 * k)%nat)).
  { destruct (Nat.leb_spec 48 (length m)) as [H48|H48].
    - rewrite rounds_ok by lia. cbn [mbind outcome_bind]. rewrite Nat.sub_0_r, drop_0. by fold (full_blocks (length m)).
    - assert (k = 0%nat) as -> by (apply full_blocks_short; lia). cbn [blocks]. rewrite <- init_final0 at 1. done. }
  rewrite E. cbn [mbind outcome_bind]. rewrite final1_ok by lia. cbn [mbind outcome_bind]. unfold long_key.
  destruct (blocks k _ m) as [[s0 s1] s2]. reflexivity.
Qed.

Lemma hash_short seed m : (length m <= 16)%nat ->
  exists x y, (forall h, small_key h m = Ok (with_ab h x y)) /\ hash_with_seed seed m = Ok (finished (length m) (fst (fst (state (init seed))), x, y)).
Proof.
  intros Hm. destruct (small_key_ok m) as (x & y & E). exists x, y. split; [done|]. unfold hash_with_seed.
  rewrite (proj2 (Nat.leb_le _ _)), E by done. reflexivity.
Qed.

Lemma hash_ok seed m : exists v, hash_with_seed seed m = Ok v.
Proof.
  destruct (Nat.le_gt_cases (length m) 16) as [H|H]; [|rewrite hash_long by done; by eexists].
  destruct (hash_short seed m H) as (x & y & _ & ->). by eexists.
Qed.

Lemma final2_finished h n s0 s1 s2 : state h = (s0, s1, s2) -> total_len h = wrap 64 (Z.of_nat n) -> final2 h = finished n (s0, a h, b h).
Proof. intros Hs Ht. unfold finished, final2. cbn [a b state total_len]. by rewrite Hs, Ht. Qed.

(** The bytes that [final_] hashes last: the waiting ones, and 16 of them at least. *)
Lemma final_input seed h m k :
  holds seed h m k -> (16 < length m)%nat ->
  exists lb start,
    (if (buf_len h <? 16)%nat then
       let rem := (16 - buf_len h)%nat in
       let scratch := copy_at (replicate 16 0) 0 (take rem (drop (48 - rem) (buf h))) in
       (copy_at scratch rem (drop (48 * k) m), rem)
     else (drop (48 * k) m, 0%nat)) = (lb, start) /\
    (16 <= length lb)%nat /\ (start <= length lb)%nat /\
    drop start lb = drop (48 * k) m /\ drop (length lb - 16) lb = drop (length m - 16) m /\ (length lb - start = length m - 48 * k)%nat.
Proof.
  intros [Hk Hl Hmax Hs Ht Hb Hbuf Htail] H16. destruct (Nat.ltb_spec (buf_len h) 16) as [Hlt|Hge].
  - specialize (Htail ltac:(lia) Hlt). eexists _, _. split; [done|].
    replace (take (16 - buf_len h) (drop (48 - (16 - buf_len h)) (buf h))) with (take (16 - buf_len h) (drop (48 * k - (16 - buf_len h)) m)).
    2:{ replace (48 - (16 - buf_len h))%nat with (32 + buf_len h)%nat by lia. rewrite Htail, skipn_firstn_comm, drop_drop, take_take.
        f_equal; [lia|]. f_equal. lia. }
    set (u := take (16 - buf_len h) (drop (48 * k - (16 - buf_len h)) m)).
    assert (Hu : length u = (16 - buf_len h)%nat) by (unfold u; rewrite length_take, length_drop; lia).
    assert (Hv : length (drop (48 * k) m) = buf_len h) by (rewrite length_drop; lia).
    rewrite <- Hu. replace (copy_at (copy_at (replicate 16 0) 0 u) (length u) (drop (48 * k) m)) with (u ++ drop (48 * k) m).
    2:{ pose proof (copy_at_app (replicate 16 0) 0 u (drop (48 * k) m)) as Hc. rewrite Nat.add_0_l in Hc.
        rewrite Hc by (rewrite length_replicate; lia).
        unfold copy_at. rewrite take_0, (drop_ge (replicate 16 0)); [by rewrite app_nil_r|]. rewrite length_replicate, length_app. lia. }
    rewrite length_app, Hu, Hv, drop_app_length' by lia. split; [lia|]. split; [lia|]. split; [done|]. split; [|lia].
    replace (16 - buf_len h + buf_len h - 16)%nat with 0%nat by lia. rewrite drop_0.
    replace (drop (48 * k) m) with (drop (16 - buf_len h) (drop (length m - 16) m)) by (rewrite drop_drop; f_equal; lia).
    unfold u. replace (48 * k - (16 - buf_len h))%nat with (length m - 16)%nat by lia. apply take_drop.
  - exists (drop (48 * k) m), 0%nat. split; [done|]. rewrite length_drop, drop_0, drop_drop. repeat split; try lia. f_equal. lia.
Qed.

Lemma final_holds48 seed h m k : holds seed h m k -> Z.of_nat (length m) < 2 ^ 64 -> final_ h = hash_with_seed seed m.
Proof.
  intros H Hsize. pose proof H as [Hk Hl Hmax Hs Ht Hb Hbuf Htail]. unfold final_. rewrite Ht. unfold wrap at 1. rewrite Z.mod_small by lia.
  rewrite Hbuf. destruct (Z.leb_spec (Z.of_nat (length m)) 16) as [H16|H16].
  - assert (k = 0%nat) as -> by lia. cbn [Nat.mul]. rewrite drop_0. destruct (hash_short seed m ltac:(lia)) as (x & y & E & ->).
    rewrite E. cbn [mbind outcome_bind]. f_equal.
    by erewrite final2_finished by (done || exact Hs).
  - rewrite hash_long by lia. assert (full_blocks (length m) = k) as -> by (apply full_blocks_spec; lia).
    destruct (final_input seed h m k H ltac:(lia)) as (lb & start & E & H1 & H2 & H3 & H4 & H5).
    cbv zeta in E |- *. rewrite E, final1_ok by lia. cbn [mbind outcome_bind].
    unfold long_key. rewrite <- Hs, H3, H5. unfold final0. cbn [state with_state]. destruct (state h) as [[s0 s1] s2]. cbn [state with_state].
    f_equal. unfold last_words. rewrite <- H4. by erewrite final2_finished by done.
Qed.

(** The calls of [update] on the [chunks]. *)
Fixpoint updates (h : Wyhash) (chunks : list bytes) : outcome Wyhash :=
  match chunks with
  | [] => Ok h
  | c :: chunks => h ← update h c; updates h chunks
  end.

(** (C39) The streaming hasher computes the one-shot hash: for every split of an input of fewer than
    [2^64] bytes into [update] calls, [final_] is the hash of the whole input, and no load of either
    leaves its slice. *)
Theorem streaming_hash48 (seed : Z) (chunks : list bytes) :
  Z.of_nat (length (concat chunks)) < 2 ^ 64 ->
  exists v, hash_with_seed seed (concat chunks) = Ok v /\
    (h ← updates (init seed) chunks; final_ h) = Ok v.
Proof.
  intros Hsize. assert (H : forall m h k, holds seed h m k -> exists h' k', updates h chunks = Ok h' /\ holds seed h' (m ++ concat chunks) k').
  { clear Hsize. induction chunks as [|c chunks IH]; intros m h k H; cbn.
    - exists h, k. by rewrite app_nil_r.
    - destruct (holds48_update seed h m k c H) as (h1 & k1 & -> & H1). cbn [mbind outcome_bind]. rewrite app_assoc. by apply (IH _ _ k1). }
  destruct (H [] _ _ (holds48_init seed)) as (h & k & -> & Hh). cbn [mbind outcome_bind app] in *.
  rewrite (final_holds48 seed h _ k Hh Hsize). destruct (hash_ok seed (concat chunks)) as (v & ->). by exists v.
Qed.

Lemma streaming_hash48_witness :
  Z.of_nat (length (concat [str "abcdefghijklmnopqrstuvwxyz"; []; str "ABCDEFGHIJKLMNOPQRSTUVWXYZ"])) < 2 ^ 64 /\
  exists v, hash_with_seed 5 (concat [str "abcdefghijklmnopqrstuvwxyz"; []; str "ABCDEFGHIJKLMNOPQRSTUVWXYZ"]) = Ok v /\
    (h ← updates (init 5) [str "abcdefghijklmnopqrstuvwxyz"; []; str "ABCDEFGHIJKLMNOPQRSTUVWXYZ"]; final_ h) = Ok v.
Proof.
  split; [vm_compute; reflexivity|].
  apply (streaming_hash48 5 [str "abcdefghijklmnopqrstuvwxyz"; []; str "ABCDEFGHIJKLMNOPQRSTUVWXYZ"]). vm_compute. reflexivity.
Defined.

(** ** The other entry points *)

Lemma rounds_total fuel s (input : bytes) : (length input <= fuel)%nat -> exists s' i, rounds fuel s input 0 = Ok (s', i) /\ (i <= length input)%nat.
Proof.
  intros H. rewrite rounds_ok by lia. eexists _, _. split; [done|]. pose proof (Nat.div_mod_eq (length input - 0 - 1) 48). lia.
Qed.

(** The [const fn] is the same hash. *)
Lemma hash_const_eq seed input : hash_const seed input = hash_with_seed seed input.
Proof.
  unfold hash_const, hash_with_seed. cbv zeta.
  set (s0 := Z.lxor seed _). destruct (Nat.leb_spec (length input) 16) as [H16|H16].
  - destruct (small_key_ok input) as (x & y & E). pose proof (E (init seed)) as E1. rewrite E1. unfold small_key in E1.
    revert E1. repeat match goal with
      | |- context [if ?c then _ else _] => destruct c
      | |- context [read4 input ?i] => destruct (read4 input i) as [?w| |]; cbn [mbind outcome_bind]; [|done..]
      | |- context [index_at input ?i] => destruct (index_at input i) as [?c| |]; cbn [mbind outcome_bind]; [|done..]
      end; intros [= <- <-]; unfold final2; cbn [a b state total_len with_ab init mbind outcome_bind]; fold s0; by destruct (mum_ _ _).
  - assert (E : exists h i, (i <= length input)%nat /\
      (if (48 <=? length input)%nat then
         '((s0, s1, s2), i) ← rounds (length input) (s0, s0, s0) input 0; Ok (Z.lxor s0 (Z.lxor s1 s2), i)
       else Ok (s0, 0%nat)) = Ok (fst (fst (state h)), i) /\
      (if (48 <=? length input)%nat then
         '(s, i) ← rounds (length input) (state (init seed)) input 0; Ok (final0 (with_state (init seed) s), i)
       else Ok (init seed, 0%nat)) = Ok (h, i)).
    { change (state (init seed)) with (s0, s0, s0). destruct (48 <=? length input)%nat; [|exists (init seed), 0%nat; split; [lia|done]].
      destruct (rounds_total (length input) (s0, s0, s0) input) as ([[t0 t1] t2] & i & E & Hi); [done|]. rewrite E.
      exists (final0 (with_state (init seed) (t0, t1, t2))), i. done. }
    destruct E as (h & i & Hi & -> & ->). cbn [mbind outcome_bind].
    rewrite const_tail_eq, tail_loop_ok, final1_ok by lia. unfold read8. rewrite !read_word_ok by lia. cbn [mbind outcome_bind].
    destruct (state h) as [[t0 t1] t2]. cbn [fst]. unfold last_words. cbn [fst snd]. rewrite !word_drop, Nat.add_0_r.
    replace (length input - 16 + 8)%nat with (length input - 8)%nat by lia. generalize (tails ((length input - i - 1) / 16) t0 (drop i input)). intros t.
    unfold final2. cbn [a b state total_len with_ab with_state]. by destruct (mum_ _ _).
Qed.

Lemma lower_loop_ok seed fuel h m k remain :
  holds seed h m k -> (length remain <= fuel)%nat ->
  exists h' k', lower_loop fuel h remain = Ok h' /\ holds seed h' (m ++ map to_ascii_lowercase remain) k'.
Proof.
  revert h m k remain. induction fuel as [|fuel IH]; intros h m k remain H Hf; cbn [lower_loop].
  - destruct remain; [|cbn in Hf; lia]. exists h, k. by rewrite app_nil_r.
  - destruct (Nat.eqb_spec (length remain) 0) as [H0|H0]; [apply nil_length_inv in H0 as ->; exists h, k; by rewrite app_nil_r|].
    set (n := Nat.min (length remain) 48). destruct (holds48_update seed h m k (map to_ascii_lowercase (take n remain)) H) as (h1 & k1 & -> & H1).
    cbn [mbind outcome_bind]. destruct (IH h1 _ k1 (drop n remain) H1) as (h2 & k2 & -> & H2); [rewrite length_drop; lia|].
    exists h2, k2. split; [done|]. rewrite <- app_assoc, <- map_app, take_drop in H2. done.
Qed.

(** The other entry points compute the same function: the [const fn] on every input, and the
    hash of lowercased text, block by block, on every input of fewer than [2^64] bytes. *)
Theorem hash_entry_points (seed : Z) (input : bytes) :
  Z.of_nat (length input) < 2 ^ 64 ->
  hash_const seed input = hash_with_seed seed input /\
  hash_ascii_lowercase seed input = hash_with_seed seed (map to_ascii_lowercase input).
Proof.
  intros Hsize. split; [apply hash_const_eq|]. unfold hash_ascii_lowercase. destruct (length input <=? 48)%nat; [done|].
  destruct (lower_loop_ok seed (length input) _ [] 0 input (holds48_init seed) (le_n _)) as (h & k & -> & H). cbn [mbind outcome_bind].
  apply (final_holds48 seed h _ k H). cbn [app]. by rewrite length_map.
Qed.

Lemma hash_entry_points_witness :
  Z.of_nat (length (str "Content-Type")) < 2 ^ 64 /\
  hash_const 0 (str "Content-Type") = hash_with_seed 0 (str "Content-Type") /\
  hash_ascii_lowercase 0 (str "Content-Type") = hash_with_seed 0 (str "content-type").
Proof. split; [vm_compute; reflexivity|]. apply (hash_entry_points 0 (str "Content-Type")). vm_compute. reflexivity. Defined.

(** ** The integer mixers are permutations *)

Definition word_ok (w x : Z) : Prop := 0 <= x < 2 ^ w.

(** [f] is a permutation of the words of [w] bits: it is injective and stays among them. *)
Definition permutes (w : Z) (f : Z -> Z) : Prop :=
  (forall x, word_ok w x -> word_ok w (f x)) /\ (forall x y, word_ok w x -> word_ok w y -> f x = f y -> x = y).

Lemma permutes_comp w f g : permutes w f -> permutes w g -> permutes w (fun x => g (f x)).
Proof. intros [Hf If] [Hg Ig]. split; [auto|]. intros x y Hx Hy E. apply If; auto. Qed.

Lemma permutes_xorshift w k : 0 < k -> 0 <= w -> permutes w (fun x => xorshift x k).
Proof.
  intros Hk Hw. unfold xorshift. split.
  - intros x [Hx0 Hx]. assert (H0 : 0 <= Z.lxor x (Z.shiftr x k)) by (apply Z.lxor_nonneg; rewrite Z.shiftr_nonneg; tauto).
    split; [done|]. apply Z.bounded_iff_bits_nonneg; [done|done|]. intros l Hl. rewrite Z.lxor_spec, Z.shiftr_spec by lia.
    rewrite !(proj1 (Z.bounded_iff_bits_nonneg w x Hw Hx0) Hx) by lia. done.
  - intros x y [Hx0 Hx] [Hy0 Hy] E. apply Z.bits_inj'. intros n Hn.
    assert (Hd : forall d n, (w - n <= Z.of_nat d) -> 0 <= n -> Z.testbit x n = Z.testbit y n); [|apply (Hd (Z.to_nat (w - n))); lia].
    intros d. induction d as [|d IH]; intros l Hd Hl.
    + rewrite (proj1 (Z.bounded_iff_bits_nonneg w x Hw Hx0) Hx), (proj1 (Z.bounded_iff_bits_nonneg w y Hw Hy0) Hy) by lia. done.
    + apply (f_equal (fun z => Z.testbit z l)) in E. rewrite !Z.lxor_spec, !Z.shiftr_spec in E by lia.
      rewrite (IH (l + k)) in E by lia. by destruct (Z.testbit x l), (Z.testbit y l), (Z.testbit y (l + k)).
Qed.

Lemma permutes_mul w c inv : 0 <= w -> wrap w (c * inv) = wrap w 1 -> permutes w (fun x => wrap w (x * c)).
Proof.
  intros Hw Hc. unfold wrap in *. assert (0 < 2 ^ w) by (apply Z.pow_pos_nonneg; lia). split.
  - intros x _. apply Z.mod_pos_bound. lia.
  - intros x y Hx Hy E. assert (Hz : forall z, word_ok w z -> z = ((z * c) mod 2 ^ w * inv) mod 2 ^ w).
    { intros z ?. rewrite Z.mul_mod_idemp_l, <- Z.mul_assoc, <- Z.mul_mod_idemp_r, Hc, Z.mul_mod_idemp_r, Z.mul_1_r by lia.
      symmetry. by apply Z.mod_small. }
    rewrite (Hz x Hx), (Hz y Hy). by rewrite E.
Qed.

Lemma permutes_step w k c inv :
  0 <= w -> 0 < k -> wrap w (c * inv) = wrap w 1 -> permutes w (fun x => wrap w (xorshift x k * c)).
Proof. intros Hw Hk Hc. exact (permutes_comp w _ _ (permutes_xorshift w k Hk Hw) (permutes_mul w c inv Hw Hc)). Qed.

(** The integer mixers lose nothing: each is injective on the words of its width, and stays
    among them. *)
Theorem hash_int_permutes : permutes 16 hash_int16 /\ permutes 32 hash_int32 /\ permutes 64 hash_int64.
Proof.
  assert (H : forall w k1 k2 k3 k4 c1 c2 c3 i1 i2 i3, 0 <= w -> 0 < k1 -> 0 < k2 -> 0 < k3 -> 0 < k4 ->
    wrap w (c1 * i1) = wrap w 1 -> wrap w (c2 * i2) = wrap w 1 -> wrap w (c3 * i3) = wrap w 1 ->
    permutes w (fun x => xorshift (wrap w (xorshift (wrap w (xorshift (wrap w (xorshift x k1 * c1)) k2 * c2)) k3 * c3)) k4)).
  { intros w k1 k2 k3 k4 c1 c2 c3 i1 i2 i3 Hw H1 H2 H3 H4 E1 E2 E3.
    pose proof (permutes_step w k1 c1 i1 Hw H1 E1) as S1. pose proof (permutes_step w k2 c2 i2 Hw H2 E2) as S2.
    pose proof (permutes_step w k3 c3 i3 Hw H3 E3) as S3. pose proof (permutes_xorshift w k4 H4 Hw) as S4.
    exact (permutes_comp w _ _ (permutes_comp w _ _ (permutes_comp w _ _ S1 S2) S3) S4). }
  split; [|split].
  - by apply (H 16 7 5 9 10 0x2993 0xe877 0x0235 0x5c9b 0x7147 0xc01d).
  - by apply (H 32 17 11 15 14 0xed5ad4bb 0xac4c1b51 0x31848bab 0x79a85073 0x469e0db1 0x32b21703).
  - by apply (H 64 32 29 32 29 0xbea225f9eb34556d 0xbea225f9eb34556d 0xbea225f9eb34556d
      0xdd01f46a7e6ffc65 0xdd01f46a7e6ffc65 0xdd01f46a7e6ffc65).
Qed.
