(* ===== verification/QueryString.v ===== *)
(** * Percent-encoding and query strings ([url/lib.rs])

    The decoder of percent-encoded text over any byte sink, the scanner of a query string and the map of
    its parameters, keyed by the Wyhash of their names. *)

From S2P Require Import Prelude Strings Wyhash4.

(** ** Byte sinks ([bun_core::io::Write]) *)

(** [None] is a write error. *)
Class Writer (W : Type) := write_all : W -> bytes -> option W.

(** A [Vec<u8>] takes everything. *)
#[export] Instance Vec_writer : Writer bytes := fun w s => Some (w ++ s).

(** [SliceCursor]: a fixed buffer. *)
Record SliceCursor := mkCursor { cursor_buf : bytes; at_ : nat }.
Definition cursor_new (buf : bytes) : SliceCursor := mkCursor buf 0.
Definition cursor_write_all (w : SliceCursor) (s : bytes) : option SliceCursor :=
  let end_ := (at_ w + length s)%nat in
  if (length (cursor_buf w) <? end_)%nat then None else Some (mkCursor (copy_at (cursor_buf w) (at_ w) s) end_).
#[export] Instance cursor_writer : Writer SliceCursor := cursor_write_all.

(** ** PercentEncoding *)

Inductive DecodeError := DecodingError | Write.

Definition is_ascii_hexdigit (c : Z) : bool := is_ascii_digit c || ((97 <=? c) && (c <=? 102)) || ((65 <=? c) && (c <=? 70)).

Definition hex_digit_value (c : Z) : option Z :=
  if (48 <=? c) && (c <=? 57) then Some (c - 48)
  else if (97 <=? c) && (c <=? 102) then Some (c - 97 + 10)
  else if (65 <=? c) && (c <=? 70) then Some (c - 65 + 10)
  else None.

Definition to_ascii_hex_value (c : Z) : outcome Z := match hex_digit_value c with Some v => Ok v | None => Panic end.

(** [u32::try_from(n).unwrap()] *)
Definition u32_try (n : nat) : outcome nat := if Z.of_nat n <=? U32_MAX then Ok n else Panic.
(** [u32] addition *)
Definition u32_add (a b : nat) : nat := Z.to_nat (wrap 32 (Z.of_nat a + Z.of_nat b)).

Definition PUBLIC_URL : bytes := str "PUBLIC_URL%".

(** Three bytes from [i] on are an escape. *)
Definition is_escape (input : bytes) (i : nat) : bool :=
  (i + 3 <=? length input)%nat &&
  match input !! (i + 1)%nat, input !! (i + 2)%nat with
  | Some h, Some l => is_ascii_hexdigit h && is_ascii_hexdigit l
  | _, _ => false
  end.

Section decode.
Context {W : Type} `{Writer W} (FAULT_TOLERANT : bool).

(** The loop; [needs_redirect] is the caller's flag, if there is one. *)
Fixpoint decode_loop (fuel : nat) (writer : W) (input : bytes) (needs_redirect : option bool) (i written : nat)
    : outcome ((nat + DecodeError) * W * option bool) :=
  if (i <? length input)%nat then
    match fuel with
    | O => OutOfFuel
    | S fuel =>
        c ← index_at input i;
        if c =? ch "%" then
          if negb (is_escape input i) then
            if FAULT_TOLERANT && (i + length PUBLIC_URL <? length input)%nat &&
               bool_decide (take (length PUBLIC_URL) (drop (i + 1) input) = PUBLIC_URL) then
              match needs_redirect with
              | Some _ => decode_loop fuel writer input (Some true) (i + (length PUBLIC_URL + 1)) written
              | None => Panic
              end
            else Ok (inr DecodingError, writer, needs_redirect)
          else
            h ← index_at input (i + 1); h ← to_ascii_hex_value h;
            l ← index_at input (i + 2); l ← to_ascii_hex_value l;
            match write_all writer [Z.lor (wrap 8 (Z.shiftl h 4)) l] with
            | None => Ok (inr Write, writer, needs_redirect)
            | Some writer => decode_loop fuel writer input needs_redirect (i + 3) (u32_add written 1)
            end
        else
          let n := S (run_length (fun c => negb (c =? ch "%")) (drop (i + 1) input)) in
          match write_all writer (take n (drop i input)) with
          | None => Ok (inr Write, writer, needs_redirect)
          | Some writer => k ← u32_try n; decode_loop fuel writer input needs_redirect (i + n) (u32_add written k)
          end
    end
  else Ok (inl written, writer, needs_redirect).

(** A round consumes a byte. *)
Definition decode_fault_tolerant (writer : W) (input : bytes) (needs_redirect : option bool) : outcome ((nat + DecodeError) * W * option bool) :=
  decode_loop (length input) writer input needs_redirect 0 0.
End decode.

Definition decode {W} `{Writer W} (writer : W) (input : bytes) : outcome ((nat + DecodeError) * W) :=
  '(r, writer, _) ← decode_fault_tolerant false writer input None; Ok (r, writer).

Definition decode_alloc (input : bytes) : outcome (bytes + DecodeError) :=
  '(r, buf) ← decode (W := bytes) [] input;
  match r with inl len => Ok (inl (take len buf)) | inr e => Ok (inr e) end.

(** The result and the caller's buffer. *)
Definition decode_into (out input : bytes) : outcome ((nat + DecodeError) * bytes) :=
  '(r, w) ← decode (cursor_new out) input; Ok (r, cursor_buf w).

(** ** The scanner *)

Record StringPointer := mkPointer { offset : nat; length_ : nat }.
Definition pointer_default : StringPointer := mkPointer 0 0.

Record ScannerResult := mkResult { name_needs_decoding : bool; value_needs_decoding : bool; name : StringPointer; value : StringPointer }.

(** [&s[p.offset..][..p.length]] *)
Definition pointed (s : bytes) (p : StringPointer) : outcome bytes :=
  s ← slice_from s (offset p); slice_range s 0 (length_ p).

Definition raw_name (r : ScannerResult) (query_string : bytes) : outcome bytes :=
  if (0 <? length_ (name r))%nat then pointed query_string (name r) else Ok [].
Definition raw_value (r : ScannerResult) (query_string : bytes) : outcome bytes :=
  if (0 <? length_ (value r))%nat then pointed query_string (value r) else Ok [].

Record Scanner := mkScanner { query_string : bytes; i : nat; start : nat }.

Definition scanner_init (query_string : bytes) : Scanner :=
  if bool_decide (query_string !! 0%nat = Some (ch "?")) then mkScanner query_string 1 1 else mkScanner query_string 0 0.
Definition scanner_reset (s : Scanner) : Scanner := mkScanner (query_string s) (start s) (start s).

Definition needs_decoding (c : Z) : bool := (c =? ch "%") || (c =? ch "+").

(** The loop over the name, up to [=], [&] or the end; [k] bytes were read. *)
Inductive Stop := AtEquals | AtAmpersand | AtEnd.
Fixpoint scan_name (slice : bytes) (k : nat) (needs : bool) : Stop * nat * bool :=
  match slice with
  | [] => (AtEnd, k, needs)
  | c :: slice =>
      if c =? ch "=" then (AtEquals, k, needs)
      else if c =? ch "&" then (AtAmpersand, k, needs)
      else scan_name slice (k + 1) (needs || needs_decoding c)
  end.

(** The loop over the value. *)
Fixpoint scan_value (slice : bytes) (k : nat) (needs : bool) : nat * bool :=
  match slice with
  | [] => (k, needs)
  | c :: slice => if c =? ch "&" then (k, needs) else scan_value slice (k + 1) (needs || needs_decoding c)
  end.

(** ['outer]; [relative_i] is what the round before left. *)
Fixpoint scanner_next_loop (fuel : nat) (s : Scanner) (relative_i : nat) : outcome (option ScannerResult * Scanner) :=
  let moved n := mkScanner (query_string s) (i s + n) (start s) in
  if (length (query_string s) <=? i s)%nat then Ok (None, moved relative_i)
  else
    match fuel with
    | O => OutOfFuel
    | S fuel =>
        slice ← slice_from (query_string s) (i s);
        name_offset ← u32_try (i s);
        let '(stop, relative_i, needs) := scan_name slice 0 false in
        match stop with
        | AtEquals =>
            name_length ← u32_try relative_i;
            value_offset ← u32_try (relative_i + 1 + i s);
            let '(n, value_needs) := scan_value (drop (relative_i + 1) slice) 0 false in
            value_length ← u32_try n;
            let s := moved (relative_i + 1 + n)%nat in
            if (name_length =? 0)%nat then Ok (None, s)
            else Ok (Some (mkResult needs value_needs (mkPointer name_offset name_length) (mkPointer value_offset value_length)), s)
        | AtAmpersand =>
            if (0 <? relative_i)%nat then
              name_length ← u32_try relative_i;
              Ok (Some (mkResult needs false (mkPointer name_offset name_length) pointer_default), moved relative_i)
            else
              let relative_i := run_length (fun c => c =? ch "&") slice in
              scanner_next_loop fuel (moved relative_i) relative_i
        | AtEnd =>
            if (relative_i =? 0)%nat then Ok (None, moved relative_i)
            else
              name_length ← u32_try relative_i;
              Ok (Some (mkResult needs false (mkPointer name_offset name_length) pointer_default), moved relative_i)
        end
    end.

(** A round that goes on is followed by one that does not. *)
Definition scanner_next (s : Scanner) : outcome (option ScannerResult * Scanner) := scanner_next_loop 2 s 0.

(** ** QueryStringMap *)

Record Param := mkParam { p_name : StringPointer; name_hash : Z; p_value : StringPointer }.

(** [slice] is a part of [buffer] or the caller's query string; here its bytes. *)
Record QueryStringMap := mkMap { slice : bytes; buffer : bytes; list_ : list Param; name_count : option nat }.

Definition MAX_QUERY_STRING_PARAMS : nat := 2048.

Definition map_str (m : QueryStringMap) (p : StringPointer) : outcome bytes := slice_range (slice m) (offset p) (offset p + length_ p).

(** [list.iter().position(|p| p.name_hash == hash)] *)
Fixpoint position (l : list Param) (hash : Z) : option nat :=
  match l with
  | [] => None
  | p :: l => if name_hash p =? hash then Some 0%nat else S <$> position l hash
  end.

Definition get_name_count (m : QueryStringMap) : nat := length (list_ m).

Definition get_index (m : QueryStringMap) (input : bytes) : outcome (option nat) := h ← hash input; Ok (position (list_ m) h).

Definition get (m : QueryStringMap) (input : bytes) : outcome (option bytes) :=
  h ← hash input;
  match position (list_ m) h with
  | None => Ok None
  | Some k => p ← index_at (list_ m) k; s ← map_str m (p_value p); Ok (Some s)
  end.

Definition has (m : QueryStringMap) (input : bytes) : outcome bool := k ← get_index m input; Ok (match k with Some _ => true | None => false end).

(** [get_all_with_hash_from_offset], [n] being the length of the target and [remainder] the list from the offset on. *)
Fixpoint get_all_loop (n : nat) (m : QueryStringMap) (remainder : list Param) (h : Z) : outcome (list bytes) :=
  match n with
  | O => Ok []
  | S n =>
      match position remainder h with
      | None => Ok []
      | Some k =>
          p ← index_at remainder k; s ← map_str m (p_value p);
          l ← get_all_loop n m (drop (k + 1) remainder) h; Ok (s :: l)
      end
  end.
Definition get_all_with_hash_from_offset (m : QueryStringMap) (target_len : nat) (h : Z) (offset : nat) : outcome (list bytes) :=
  if (offset <=? length (list_ m))%nat then get_all_loop target_len m (drop offset (list_ m)) h else Panic.
Definition get_all (m : QueryStringMap) (input : bytes) (target_len : nat) : outcome (list bytes) :=
  h ← hash input; get_all_with_hash_from_offset m target_len h 0.

(** The counting loop of [init], [n] parameters being allowed still. *)
Fixpoint count_loop (n : nat) (s : Scanner) (count : nat) (nothing_needs_decoding : bool) : outcome (nat * bool) :=
  match n with
  | O => Ok (count, nothing_needs_decoding)
  | S n =>
      '(r, s) ← scanner_next s;
      match r with
      | None => Ok (count, nothing_needs_decoding)
      | Some r => count_loop n s (count + 1) (nothing_needs_decoding && negb (name_needs_decoding r || value_needs_decoding r))
      end
  end.

(** The loop when nothing needs decoding: the pointers are those of the scanner. *)
Fixpoint raw_loop (n : nat) (s : Scanner) (lst : list Param) : outcome (list Param) :=
  match n with
  | O => OutOfFuel
  | S n =>
      '(r, s) ← scanner_next s;
      match r with
      | None => Ok lst
      | Some r =>
          if (MAX_QUERY_STRING_PARAMS <=? length lst)%nat then Ok lst
          else nm ← raw_name r (query_string s); h ← hash nm; raw_loop n s (lst ++ [mkParam (name r) h (value r)])
      end
  end.

(** Decode the name of a parameter into [buf], unless it is in the list already: the pointer, the
    hash, the buffer and its position; [None] is a failure. *)
Definition decode_name (r : ScannerResult) (query_string : bytes) (lst : list Param) (buf : bytes) (buf_writer_pos : nat)
    : outcome (option (StringPointer * Z) * bytes * nat) :=
  let nm := name r in
  if name_needs_decoding r then
    text ← pointed query_string nm;
    '(len, buf) ← decode buf text;
    match len with
    | inr _ => Ok (None, buf, buf_writer_pos)
    | inl len =>
        let nm := mkPointer buf_writer_pos len in
        text ← pointed buf nm; h ← hash text;
        Ok (Some (nm, h), buf, u32_add buf_writer_pos len)
    end
  else
    text ← raw_name r query_string; h ← hash text;
    match position lst h with
    | Some k => p ← index_at lst k; Ok (Some (p_name p, h), buf, buf_writer_pos)
    | None =>
        text ← pointed query_string nm;
        '(len, buf) ← decode buf text;
        match len with
        | inr _ => Ok (None, buf, buf_writer_pos)
        | inl len => Ok (Some (mkPointer buf_writer_pos len, h), buf, u32_add buf_writer_pos len)
        end
    end.

Fixpoint decode_params (n : nat) (s : Scanner) (lst : list Param) (buf : bytes) (buf_writer_pos : nat) : outcome (list Param * bytes * nat) :=
  match n with
  | O => OutOfFuel
  | S n =>
      '(r, s) ← scanner_next s;
      match r with
      | None => Ok (lst, buf, buf_writer_pos)
      | Some r =>
          if (MAX_QUERY_STRING_PARAMS <=? length lst)%nat then Ok (lst, buf, buf_writer_pos)
          else
            '(nm, buf, buf_writer_pos) ← decode_name r (query_string s) lst buf buf_writer_pos;
            match nm with
            | None => decode_params n s lst buf buf_writer_pos
            | Some (nm, h) =>
                text ← pointed (query_string s) (value r);
                '(len, buf) ← decode buf text;
                match len with
                | inr _ => decode_params n s lst buf buf_writer_pos
                | inl len =>
                    let v := mkPointer buf_writer_pos len in
                    decode_params n s (lst ++ [mkParam nm h v]) buf (u32_add buf_writer_pos len)
                end
            end
      end
  end.

(** Every parameter takes a byte of the query string. *)
Definition init (query_string : bytes) : outcome (option QueryStringMap) :=
  let scanner := scanner_init query_string in
  '(count, nothing_needs_decoding) ← count_loop MAX_QUERY_STRING_PARAMS scanner 0 true;
  if (count =? 0)%nat then Ok None
  else if nothing_needs_decoding : bool then
    lst ← raw_loop (S (length query_string)) scanner [];
    Ok (Some (mkMap query_string [] lst None))
  else
    '(lst, buf, buf_writer_pos) ← decode_params (S (length query_string)) scanner [] [] 0;
    sl ← slice_range buf 0 buf_writer_pos;
    Ok (Some (mkMap sl buf lst None)).

Example query_tests :
  let q s : outcome (option bytes) := match init s with Ok (Some m) => get m (str "c") | _ => Panic end in
  q (str "?a=b&c=d%20e") = Ok (Some (str "d e")) /\ q (str "&&c=1&c=2") = Ok (Some (str "1")) /\
  q (str "?a=b%zz&c=d%20") = Ok (Some (str "cd")) /\ q (str "a=1&=x&c=2") = Ok None.
Proof. vm_compute. repeat split. Qed.

(** ** Decoding *)

(** What a sink promises: while what it is given fits, it appends. *)
Class WriterLaws (W : Type) `{Writer W} := {
  contents : W -> bytes;
  fits : W -> nat -> Prop;
  fits_le : forall w m n, fits w n -> (m <= n)%nat -> fits w m;
  sink_ok : forall w s n, fits w (length s + n) -> exists w', write_all w s = Some w' /\ contents w' = contents w ++ s /\ fits w' n;
}.

#[export] Program Instance Vec_laws : WriterLaws bytes := {| contents := id; fits := fun _ _ => True |}.
Next Obligation. done. Qed.
Next Obligation. intros w s n _. by eexists. Qed.

#[export] Program Instance cursor_laws : WriterLaws SliceCursor :=
  {| contents := fun w => take (at_ w) (cursor_buf w); fits := fun w n => (at_ w + n <= length (cursor_buf w))%nat |}.
Next Obligation. intros [buf k] m n H Hm. cbn [at_ cursor_buf] in *. lia. Qed.
Next Obligation.
  intros [buf k] s n H. cbn [at_ cursor_buf] in *. unfold write_all, cursor_writer, cursor_write_all. cbn [at_ cursor_buf].
  rewrite (proj2 (Nat.ltb_ge _ _)) by lia. eexists. split; [done|]. cbn [at_ cursor_buf].
  rewrite copy_at_take, copy_at_length by lia. split; [done|lia].
Qed.

Definition hex_value (c : Z) : Z := default 0 (hex_digit_value c).

(** The decoded text up to the first bad escape, and whether there is none. *)
Fixpoint unescape (s : bytes) : bytes * bool :=
  match s with
  | [] => ([], true)
  | c :: s =>
      if c =? ch "%" then
        match s with
        | h :: l :: s =>
            if is_ascii_hexdigit h && is_ascii_hexdigit l
            then let '(out, ok) := unescape s in (16 * hex_value h + hex_value l :: out, ok)
            else ([], false)
        | _ => ([], false)
        end
      else let '(out, ok) := unescape s in (c :: out, ok)
  end.

Definition unescaped (s : bytes) : bytes := fst (unescape s).

Lemma unescape_plain s t : Forall (fun c => c <> ch "%") s -> unescape (s ++ t) = (s ++ fst (unescape t), snd (unescape t)).
Proof.
  induction 1 as [|c s Hc Hs IH]; cbn [app unescape]; [by destruct (unescape t)|].
  rewrite (proj2 (Z.eqb_neq _ _)), IH by done. done.
Qed.

Lemma unescape_length s : (length (unescaped s) <= length s)%nat.
Proof.
  unfold unescaped. remember (length s) as n eqn:Hn. revert s Hn. induction n as [n IH] using lt_wf_ind. intros s ->.
  destruct s as [|c s]; cbn [unescape]; [done|]. destruct (c =? ch "%").
  - destruct s as [|h [|l s]]; cbn; try lia. destruct (_ && _); cbn; [|lia]. specialize (IH (length s) ltac:(cbn; lia) s eq_refl).
    destruct (unescape s). cbn in *. lia.
  - specialize (IH (length s) ltac:(cbn; lia) s eq_refl). destruct (unescape s). cbn in *. lia.
Qed.

Lemma is_ascii_hexdigit_value c : is_ascii_hexdigit c = true -> hex_digit_value c = Some (hex_value c) /\ 0 <= hex_value c < 16.
Proof.
  unfold is_ascii_hexdigit, is_ascii_digit, hex_value, hex_digit_value.
  destruct (Z.leb_spec 48 c), (Z.leb_spec c 57), (Z.leb_spec 97 c), (Z.leb_spec c 102), (Z.leb_spec 65 c), (Z.leb_spec c 70); cbn; intros; first [done | lia | split; [done|lia]].
Qed.

Lemma run_length_spec p (l : bytes) :
  let n := run_length p l in Forall (fun c => p c = true) (take n l) /\ (forall c, l !! n = Some c -> p c = false).
Proof.
  induction l as [|c l [IH1 IH2]]; cbn; [done|]. destruct (p c) eqn:E; cbn; [|split; [constructor|by intros ? [= <-]]].
  split; [by constructor|done].
Qed.

Lemma is_escape_unescape input i :
  (i < length input)%nat ->
  match drop (i + 1) input with
  | h :: l :: _ => is_escape input i = is_ascii_hexdigit h && is_ascii_hexdigit l
  | _ => is_escape input i = false
  end.
Proof.
  intros Hi. unfold is_escape. pose proof (length_drop input (i + 1)) as Hl.
  assert (E1 : input !! (i + 1)%nat = drop (i + 1) input !! 0%nat) by (rewrite lookup_drop; f_equal; lia).
  assert (E2 : input !! (i + 2)%nat = drop (i + 1) input !! 1%nat) by (rewrite lookup_drop; f_equal; lia).
  rewrite E1, E2. destruct (drop (i + 1) input) as [|h [|l t]]; cbn [length] in Hl.
  - by rewrite (proj2 (Nat.leb_gt (i + 3)%nat (length input))) by lia.
  - by rewrite (proj2 (Nat.leb_gt (i + 3)%nat (length input))) by lia.
  - by rewrite (proj2 (Nat.leb_le (i + 3)%nat (length input))) by lia.
Qed.

Section decode_spec.
Context {W : Type} `{WriterLaws W}.

Lemma u32_add_ok a b : Z.of_nat (a + b) <= U32_MAX -> u32_add a b = (a + b)%nat.
Proof. intros. unfold u32_add, wrap, U32_MAX in *. rewrite Z.mod_small by lia. lia. Qed.

Lemma u32_try_ok n : Z.of_nat n <= U32_MAX -> u32_try n = Ok n.
Proof. intros. unfold u32_try. by rewrite (proj2 (Z.leb_le _ _)). Qed.

Lemma decode_loop_spec fuel w input redirect i written m :
  (i <= length input)%nat -> (length input - i <= fuel)%nat -> fits w (length input - i + m) ->
  Z.of_nat (written + (length input - i)) <= U32_MAX ->
  exists w', decode_loop false fuel w input redirect i written =
      Ok (if snd (unescape (drop i input)) then inl (written + length (unescaped (drop i input)))%nat else inr DecodingError, w', redirect) /\
    contents w' = contents w ++ unescaped (drop i input).
Proof.
  unfold unescaped. revert w i written. induction fuel as [|fuel IH]; intros w i written Hi Hf Hfit Hu; cbn [decode_loop];
    destruct (Nat.ltb_spec i (length input)) as [Hlt|Hge]; try lia;
    try (rewrite drop_ge by lia; cbn; rewrite Nat.add_0_r, app_nil_r; by exists w).
  destruct (lookup_lt_is_Some_2 input i Hlt) as [c Hc]. rewrite (index_at_ok _ _ _ Hc), (drop_S _ _ _ Hc). cbn [mbind outcome_bind].
  replace (S i) with (i + 1)%nat by lia. cbn [unescape]. destruct (Z.eqb_spec c (ch "%")) as [->|Hne].
  - pose proof (is_escape_unescape input i Hlt) as He. pose proof (length_drop input (i + 1)) as Hld.
    destruct (drop (i + 1) input) as [|h [|l t]] eqn:Ed; rewrite He; cbn [negb andb]; try (exists w; cbn; by rewrite app_nil_r).
    destruct (is_ascii_hexdigit h) eqn:Hh; [|exists w; cbn; by rewrite app_nil_r].
    destruct (is_ascii_hexdigit l) eqn:Hl; [|exists w; cbn; by rewrite app_nil_r]. cbn [negb andb].
    assert (E1 : input !! (i + 1)%nat = Some h) by (rewrite <- (Nat.add_0_r (i + 1)), <- lookup_drop, Ed; done).
    assert (E2 : input !! (i + 2)%nat = Some l) by (replace (i + 2)%nat with (i + 1 + 1)%nat by lia; rewrite <- lookup_drop, Ed; done).
    apply is_ascii_hexdigit_value in Hh as [Hh Hhb], Hl as [Hl Hlb]. rewrite (index_at_ok _ _ _ E1), (index_at_ok _ _ _ E2).
    cbn [mbind outcome_bind]. unfold to_ascii_hex_value. rewrite Hh. cbn [mbind outcome_bind]. rewrite Hl. cbn [mbind outcome_bind].
    assert (Hbyte : Z.lor (wrap 8 (Z.shiftl (hex_value h) 4)) (hex_value l) = 16 * hex_value h + hex_value l).
    { unfold wrap. rewrite Z.mod_small by (rewrite Z.shiftl_mul_pow2; lia). rewrite lor_shiftl_add by lia. lia. }
    rewrite Hbyte. cbn [length] in Hld.
    destruct (sink_ok w [16 * hex_value h + hex_value l] (length input - (i + 3) + m)) as (w1 & -> & Hc1 & Hf1).
    { eapply fits_le; [exact Hfit|]. cbn [length]. lia. }
    rewrite u32_add_ok by lia. destruct (IH w1 (i + 3)%nat (written + 1)%nat) as (w2 & Hw2 & Hc2); [lia..|exact Hf1|lia|].
    assert (Ed3 : drop (i + 3) input = t) by (replace (i + 3)%nat with (i + 1 + 2)%nat by lia; by rewrite <- drop_drop, Ed).
    exists w2. rewrite Hw2, Hc2, Hc1, Ed3. destruct (unescape t) as [out ok]. cbn [fst snd length].
    rewrite <- app_assoc. split; [|done]. destruct ok; [|done]. do 4 f_equal. lia.
  - set (rest := drop (i + 1) input) in *. pose proof (run_length_spec (fun c => negb (c =? ch "%")) rest) as [Hp _].
    set (k := run_length _ rest) in *. assert (Hk : (k <= length rest)%nat) by apply run_length_le.
    assert (Hr : length rest = (length input - (i + 1))%nat) by apply length_drop.
    cbn [firstn take].
    destruct (sink_ok w (c :: take k rest) (length input - (i + S k) + m)) as (w1 & -> & Hc1 & Hf1).
    { eapply fits_le; [exact Hfit|]. cbn [length]. rewrite length_take. lia. }
    rewrite u32_try_ok by lia. cbn [mbind outcome_bind]. rewrite u32_add_ok by lia.
    destruct (IH w1 (i + S k)%nat (written + S k)%nat) as (w2 & Hw2 & Hc2); [lia..|exact Hf1|lia|].
    assert (Ed3 : drop (i + S k) input = drop k rest) by (subst rest; rewrite drop_drop; f_equal; lia).
    assert (Hun : unescape rest = (take k rest ++ fst (unescape (drop k rest)), snd (unescape (drop k rest)))).
    { rewrite <- (take_drop k rest) at 1. apply unescape_plain. eapply list.Forall_impl; [exact Hp|].
      intros x Hx. apply negb_true_iff in Hx. by apply Z.eqb_neq. }
    exists w2. rewrite Hw2, Hc2, Hc1, Ed3, Hun. destruct (unescape (drop k rest)) as [out ok]. cbn [fst snd length].
    rewrite <- !app_assoc. split; [|done]. destruct ok; [|done]. do 4 f_equal. rewrite length_app, length_take. lia.
Qed.
End decode_spec.

(** ** What the scanner finds *)

(** The text between the ampersands. *)
Fixpoint split_amp (s : bytes) : list bytes :=
  match s with
  | [] => [[]]
  | c :: s =>
      if c =? ch "&" then [] :: split_amp s
      else match split_amp s with f :: fs => (c :: f) :: fs | [] => [[c]] end
  end.

(** A field's name and value: the text before the first [=] and the text behind it. *)
Definition split_eq (f : bytes) : bytes * bytes :=
  let n := run_length (fun c => negb (c =? ch "=")) f in (take n f, drop (n + 1) f).

(** Empty fields are skipped; a field without a name ends the query. *)
Fixpoint field_params (fs : list bytes) : list (bytes * bytes) :=
  match fs with
  | [] => []
  | f :: fs =>
      match f with
      | [] => field_params fs
      | c :: _ => if c =? ch "=" then [] else split_eq f :: field_params fs
      end
  end.

Definition params (s : bytes) : list (bytes * bytes) := field_params (split_amp s).

Definition not_amp (c : Z) : bool := negb (c =? ch "&").
Definition not_eq_amp (c : Z) : bool := negb (c =? ch "=") && negb (c =? ch "&").

Lemma split_amp_field s :
  let n := run_length not_amp s in
  split_amp s = take n s :: match drop n s with [] => [] | _ :: t => split_amp t end.
Proof.
  induction s as [|c s IH]; cbn; [done|]. unfold not_amp at 1 3. cbn in IH. destruct (c =? ch "&"); cbn; [done|].
  by rewrite IH.
Qed.

Lemma params_amp n s : params (replicate n (ch "&") ++ s) = params s.
Proof. induction n as [|n IH]; [done|]. unfold params in *. cbn [replicate app split_amp]. by rewrite Z.eqb_refl. Qed.

(** The parameters behind a separator, or none. *)
Lemma params_field s :
  let n := run_length not_amp s in
  params s = match take n s with
             | [] => params (drop n s)
             | c :: _ => if c =? ch "=" then [] else split_eq (take n s) :: params (drop n s)
             end.
Proof.
  cbn. unfold params at 1. rewrite split_amp_field. set (n := run_length not_amp s).
  assert (E : field_params (match drop n s with [] => [] | _ :: t => split_amp t end) = params (drop n s)).
  { destruct (run_length_spec not_amp s) as [_ Hn]. fold n in Hn. destruct (drop n s) as [|c t] eqn:Ed; [done|].
    specialize (Hn c). rewrite <- (Nat.add_0_r n), <- lookup_drop, Ed in Hn. specialize (Hn eq_refl).
    unfold not_amp in Hn. apply negb_false_iff, Z.eqb_eq in Hn. subst c. unfold params. cbn [split_amp]. by rewrite Z.eqb_refl. }
  destruct (take n s) as [|c f]; cbn [field_params]; by rewrite E.
Qed.

Lemma scan_name_spec slice k needs :
  let n := run_length not_eq_amp slice in
  scan_name slice k needs =
  (match slice !! n with None => AtEnd | Some c => if c =? ch "=" then AtEquals else AtAmpersand end,
   (k + n)%nat, needs || existsb needs_decoding (take n slice)).
Proof.
  revert k needs. induction slice as [|c l IH]; intros k needs n; subst n; [cbn; by rewrite Nat.add_0_r, orb_false_r|].
  assert (Hc : not_eq_amp c = negb (c =? ch "=") && negb (c =? ch "&")) by done. cbn [scan_name run_length]. rewrite Hc.
  destruct (c =? ch "=") eqn:E1; cbn [negb andb]; [cbn; by rewrite E1, Nat.add_0_r, orb_false_r|].
  destruct (c =? ch "&") eqn:E2; cbn [negb]; [cbn; by rewrite E1, Nat.add_0_r, orb_false_r|].
  rewrite IH. cbn [take existsb]. rewrite orb_assoc. by replace (k + S (run_length not_eq_amp l))%nat with (k + 1 + run_length not_eq_amp l)%nat by lia.
Qed.

Lemma scan_value_spec slice k needs :
  let n := run_length not_amp slice in scan_value slice k needs = ((k + n)%nat, needs || existsb needs_decoding (take n slice)).
Proof.
  revert k needs. induction slice as [|c l IH]; intros k needs n; subst n; [cbn; by rewrite Nat.add_0_r, orb_false_r|].
  assert (Hc : not_amp c = negb (c =? ch "&")) by done. cbn [scan_value run_length]. rewrite Hc.
  destruct (c =? ch "&") eqn:E2; cbn [negb]; [cbn; by rewrite Nat.add_0_r, orb_false_r|].
  rewrite IH. cbn [take existsb]. rewrite orb_assoc. f_equal. lia.
Qed.

(** [p] points at [t] in [s]. *)
Definition points_at (s : bytes) (p : StringPointer) (t : bytes) : Prop :=
  (offset p + length_ p <= length s)%nat /\ take (length_ p) (drop (offset p) s) = t.

Lemma points_at_length s p t : points_at s p t -> length t = length_ p.
Proof. intros [H <-]. rewrite length_take, length_drop. lia. Qed.

Lemma points_at_app s p t ext : points_at s p t -> points_at (s ++ ext) p t.
Proof.
  intros [H <-]. split; [rewrite length_app; lia|]. rewrite drop_app_le, take_app_le by (rewrite ?length_drop; lia). done.
Qed.

Lemma points_at_end s t : points_at (s ++ t) (mkPointer (length s) (length t)) t.
Proof. split; cbn; [by rewrite length_app|]. by rewrite drop_app_length, firstn_all. Qed.

Lemma points_at_pointed s p t : points_at s p t -> pointed s p = Ok t.
Proof.
  intros [H <-]. unfold pointed. rewrite slice_from_ok by lia. cbn [mbind outcome_bind].
  rewrite slice_range_ok by (rewrite length_drop; lia). by rewrite Nat.sub_0_r.
Qed.

Lemma points_at_map_str m p t : points_at (slice m) p t -> map_str m p = Ok t.
Proof. intros [H <-]. unfold map_str. rewrite slice_range_ok by lia. do 2 f_equal. lia. Qed.

(** A result stands for a parameter. *)
Record describes (q : bytes) (r : ScannerResult) (n v : bytes) : Prop := {
  describes_name : points_at q (name r) n;
  describes_value : points_at q (value r) v;
  describes_name_flag : name_needs_decoding r = existsb needs_decoding n;
  describes_value_flag : value_needs_decoding r = existsb needs_decoding v;
  describes_nonempty : (0 < length n)%nat;
}.

Lemma describes_raw_name q r n v : describes q r n v -> raw_name r q = Ok n.
Proof.
  intros [Hn _ _ _ Hpos]. unfold raw_name. rewrite <- (points_at_length _ _ _ Hn). rewrite (proj2 (Nat.ltb_lt 0%nat _)) by lia.
  by apply points_at_pointed.
Qed.

Definition at_rest (s : Scanner) : bytes := drop (i s) (query_string s).

Lemma split_eq_cons c f : c <> ch "=" -> split_eq (c :: f) = (c :: fst (split_eq f), snd (split_eq f)).
Proof. intros Hc. unfold split_eq. cbn [run_length]. by rewrite (proj2 (Z.eqb_neq _ _)) by done. Qed.

Lemma field_value sl :
  let n := run_length not_eq_amp sl in
  let m := run_length not_amp (drop (n + 1) sl) in
  sl !! n = Some (ch "=") ->
  run_length not_amp sl = (n + 1 + m)%nat /\ split_eq (take (n + 1 + m) sl) = (take n sl, take m (drop (n + 1) sl)).
Proof.
  induction sl as [|c l IH]; intros n m; subst n m; [done|].
  assert (Hc : not_eq_amp c = negb (c =? ch "=") && negb (c =? ch "&")) by done.
  assert (Ha : not_amp c = negb (c =? ch "&")) by done. cbn [run_length]. rewrite Hc, Ha.
  destruct (Z.eqb_spec c (ch "=")) as [->|E1]; cbn [negb andb].
  - intros _. cbn [Nat.add drop Z.eqb negb take]. rewrite drop_0. cbn. unfold split_eq. cbn. by rewrite drop_0.
  - destruct (Z.eqb_spec c (ch "&")) as [->|E2]; cbn [negb]; [done|]. intros Hl.
    destruct (IH Hl) as [IH1 IH2]. cbn [Nat.add drop take]. rewrite IH1. split; [done|]. by rewrite split_eq_cons, IH2.
Qed.

Lemma field_name sl :
  let n := run_length not_eq_amp sl in
  sl !! n <> Some (ch "=") -> run_length not_amp sl = n /\ split_eq (take n sl) = (take n sl, []).
Proof.
  induction sl as [|c l IH]; intros n; subst n; [done|].
  assert (Hc : not_eq_amp c = negb (c =? ch "=") && negb (c =? ch "&")) by done.
  assert (Ha : not_amp c = negb (c =? ch "&")) by done. cbn [run_length]. rewrite Hc, Ha.
  destruct (Z.eqb_spec c (ch "=")) as [->|E1]; cbn [negb andb]; [by intros []|].
  destruct (Z.eqb_spec c (ch "&")) as [->|E2]; cbn [negb]; [done|]. intros Hl.
  destruct (IH Hl) as [IH1 IH2]. cbn [take]. rewrite IH1. split; [done|]. by rewrite split_eq_cons, IH2.
Qed.

Lemma points_at_drop q k n m : (k + n + m <= length q)%nat -> points_at q (mkPointer (k + n) m) (take m (drop n (drop k q))).
Proof. intros H. split; cbn; [lia|]. by rewrite drop_drop. Qed.

(** What [next] promises. *)
Definition next_ok (s : Scanner) (r : option ScannerResult) (s' : Scanner) : Prop :=
  query_string s' = query_string s /\
  match r with
  | None => params (at_rest s) = []
  | Some r => exists n v, params (at_rest s) = (n, v) :: params (at_rest s') /\ describes (query_string s) r n v /\
      (i s + length n + length v <= i s' <= length (query_string s))%nat
  end.

Lemma params_head s c :
  s !! 0%nat = Some c -> c <> ch "&" ->
  params s = if c =? ch "=" then [] else split_eq (take (run_length not_amp s) s) :: params (drop (run_length not_amp s) s).
Proof.
  intros Hs Hc. rewrite params_field. destruct s as [|c' s]; [done|]. injection Hs as ->. cbn [run_length].
  assert (Ha : not_amp c = true) by (by unfold not_amp; rewrite (proj2 (Z.eqb_neq _ _))). by rewrite Ha.
Qed.

Lemma not_eq_amp_pos s c : s !! 0%nat = Some c -> c <> ch "&" -> c <> ch "=" -> (0 < run_length not_eq_amp s)%nat.
Proof.
  destruct s as [|c' s]; [done|]. intros [= ->] H1 H2. cbn [run_length].
  assert (Ha : not_eq_amp c = true) by (by unfold not_eq_amp; rewrite !(proj2 (Z.eqb_neq _ _))). rewrite Ha. lia.
Qed.

(** One field, the separators in front of it being behind the scanner. *)
Lemma scanner_field fuel s n0 :
  Z.of_nat (length (query_string s)) <= U32_MAX -> (i s < length (query_string s))%nat -> at_rest s !! 0%nat <> Some (ch "&") ->
  exists r s', scanner_next_loop (S fuel) s n0 = Ok (r, s') /\ next_ok s r s'.
Proof.
  destruct s as [q k st]. unfold next_ok, at_rest. cbn [query_string i scanner_next_loop start]. intros Hu Hk Hamp.
  rewrite (proj2 (Nat.leb_gt _ _)) by lia. rewrite slice_from_ok by lia. cbn [mbind outcome_bind]. rewrite u32_try_ok by lia.
  cbn [mbind outcome_bind]. rewrite scan_name_spec, Nat.add_0_l, orb_false_l.
  pose proof (points_at_drop q k) as Hpt. set (sl := drop k q) in *. assert (Hsl : length sl = (length q - k)%nat) by apply length_drop.
  destruct (lookup_lt_is_Some_2 sl 0 ltac:(lia)) as [c0 Hc0]. assert (Hc0a : c0 <> ch "&") by congruence. pose proof (params_head sl c0 Hc0 Hc0a) as Hph.
  pose proof (run_length_le not_eq_amp sl) as Hn. pose proof (not_eq_amp_pos _ _ Hc0 Hc0a) as Hpos.
  pose proof (field_name sl) as Hname. pose proof (field_value sl) as Hvalue. cbn zeta in Hname, Hvalue.
  set (n := run_length not_eq_amp sl) in *. specialize (Hpt 0%nat). rewrite Nat.add_0_r, drop_0 in Hpt.
  destruct (decide (sl !! n = Some (ch "="))) as [Ec|Ec].
  - destruct (Hvalue Ec) as [E1 E2]. rewrite E1, E2 in Hph. rewrite Hph, Ec, Z.eqb_refl.
    set (m := run_length not_amp (drop (n + 1) sl)) in *. assert (Hm : (n + 1 + m <= length sl)%nat) by (rewrite <- E1; apply run_length_le).
    rewrite u32_try_ok by lia. cbn [mbind outcome_bind]. rewrite u32_try_ok by lia. cbn [mbind outcome_bind]. rewrite scan_value_spec, Nat.add_0_l, orb_false_l. fold m. rewrite u32_try_ok by lia. cbn [mbind outcome_bind].
    destruct (Nat.eqb_spec n 0) as [En|En].
    + eexists _, _. split; [done|]. split; [done|]. rewrite En, Hc0 in Ec. by injection Ec as ->.
    + rewrite (proj2 (Z.eqb_neq c0 (ch "="))) by (intros ->; apply En; destruct sl; [done|]; injection Hc0 as ->; done).
      eexists _, _. split; [done|]. split; [done|]. cbn [query_string i]. exists (take n sl), (take m (drop (n + 1) sl)).
      rewrite !length_take, length_drop. split; [|split; [|lia]].
      * f_equal. f_equal. subst sl. by rewrite drop_drop.
      * split; cbn [name value name_needs_decoding value_needs_decoding]; try done.
        { apply Hpt. lia. }
        { replace (n + 1 + k)%nat with (k + (n + 1))%nat by lia. apply points_at_drop. lia. }
        { rewrite length_take. lia. }
  - destruct (Hname Ec) as [E1 E2]. rewrite E1, E2 in Hph.
    assert (Hne : c0 <> ch "=").
    { intros ->. apply Ec. subst n. destruct sl; [done|]. injection Hc0 as ->. done. }
    rewrite (proj2 (Z.eqb_neq c0 (ch "="))) in Hph by done. specialize (Hpos Hne).
    assert (Hdesc : describes q (mkResult (existsb needs_decoding (take n sl)) false (mkPointer k n) pointer_default) (take n sl) []).
    { split; cbn [name value name_needs_decoding value_needs_decoding]; try done.
      - apply Hpt. lia.
      - split; cbn; [lia|done].
      - rewrite length_take. lia. }
    assert (Hend : next_ok (mkScanner q k st) (Some (mkResult (existsb needs_decoding (take n sl)) false (mkPointer k n) pointer_default)) (mkScanner q (k + n) st)).
    { split; [done|]. exists (take n sl), []. unfold at_rest. cbn [query_string i]. fold sl. rewrite Hph. split; [|split; [done|]].
      - do 2 f_equal. subst sl. by rewrite drop_drop.
      - rewrite length_take. cbn. lia. }
    destruct (sl !! n) as [c|] eqn:Ecn.
    + rewrite (proj2 (Z.eqb_neq c (ch "="))) by congruence. rewrite (proj2 (Nat.ltb_lt 0%nat _)) by lia. rewrite u32_try_ok by lia.
      eexists _, _. split; [done|exact Hend].
    + rewrite (proj2 (Nat.eqb_neq n 0%nat)) by lia. rewrite u32_try_ok by lia. eexists _, _. split; [done|exact Hend].
Qed.

Lemma run_amp_replicate s : take (run_length (fun c => c =? ch "&") s) s = replicate (run_length (fun c => c =? ch "&") s) (ch "&").
Proof. induction s as [|c s IH]; cbn; [done|]. destruct (Z.eqb_spec c (ch "&")) as [->|]; cbn; [by rewrite IH|done]. Qed.

Lemma scanner_next_ok s :
  Z.of_nat (length (query_string s)) <= U32_MAX -> (i s <= length (query_string s))%nat ->
  exists r s', scanner_next s = Ok (r, s') /\ next_ok s r s'.
Proof.
  intros Hu Hi. unfold scanner_next.
  destruct (decide (i s = length (query_string s))) as [He|He].
  { cbn [scanner_next_loop]. rewrite (proj2 (Nat.leb_le _ _)) by lia. eexists _, _. split; [done|]. split; [done|].
    unfold at_rest. by rewrite drop_ge by lia. }
  destruct (decide (at_rest s !! 0%nat = Some (ch "&"))) as [Ha|Ha]; [|apply scanner_field; [lia|lia|done]].
  remember 1%nat as fuel eqn:Hfuel. destruct s as [q k st]. unfold next_ok, at_rest in *. cbn [query_string i] in *.
  cbn [scanner_next_loop query_string i start]. rewrite (proj2 (Nat.leb_gt _ _)) by lia. rewrite slice_from_ok by lia.
  cbn [mbind outcome_bind]. rewrite u32_try_ok by lia. cbn [mbind outcome_bind].
  set (sl := drop k q) in *. assert (Hsl : length sl = (length q - k)%nat) by apply length_drop.
  assert (Hname : scan_name sl 0 false = (AtAmpersand, 0%nat, false)) by (destruct sl; [done|]; by injection Ha as ->).
  rewrite Hname. cbn [Nat.ltb Nat.leb]. set (n := run_length _ sl).
  pose proof (run_length_le (fun c => c =? ch "&") sl) as Hn. fold n in Hn.
  destruct (run_length_spec (fun c => c =? ch "&") sl) as [_ Hstop]. fold n in Hstop.
  assert (Hn0 : (0 < n)%nat) by (subst n; destruct sl; [done|]; injection Ha as ->; cbn; lia).
  assert (Hp : params sl = params (drop (k + n) q)).
  { rewrite <- (take_drop n sl). subst n. rewrite run_amp_replicate, params_amp. subst sl. by rewrite drop_drop. }
  rewrite Hp. subst fuel. destruct (decide (k + n = length q)%nat) as [Hend|Hend].
  - cbn [scanner_next_loop query_string i]. rewrite (proj2 (Nat.leb_le _ _)) by lia. eexists _, _. split; [done|]. split; [done|].
    by rewrite drop_ge by lia.
  - destruct (scanner_field 0 (mkScanner q (k + n) st) n) as (r & s' & -> & Hq & Hr); unfold at_rest; cbn [query_string i]; [lia|lia| |].
    + rewrite lookup_drop, Nat.add_0_r. intros Hx. rewrite <- lookup_drop in Hx. by apply Hstop, Z.eqb_neq in Hx.
    + exists r, s'. split; [done|]. split; [done|]. unfold at_rest in Hr. cbn [query_string i] in Hr. destruct r as [r|]; [|done].
      destruct Hr as (nm & v & H1 & H2 & H3). exists nm, v. repeat split; try done; try apply H2; lia.
Qed.

(** ** What the map holds *)

(** [name] and [value] may be cut short by a bad escape, but then nothing of them is written. *)
Definition harmless (t : bytes) : Prop := snd (unescape t) = true \/ unescaped t = [].
#[export] Instance harmless_dec t : Decision (harmless t).
Proof. unfold harmless. apply _. Defined.

Definition query_params (q : bytes) : list (bytes * bytes) := params (at_rest (scanner_init q)).

(** A parameter decoded; one with a bad escape is left out. *)
Definition decoded_param (p : bytes * bytes) : option (bytes * bytes) :=
  if snd (unescape (fst p)) && snd (unescape (snd p)) then Some (unescaped (fst p), unescaped (snd p)) else None.

Definition kept (q : bytes) : list (bytes * bytes) := take MAX_QUERY_STRING_PARAMS (omap decoded_param (query_params q)).

Definition all_values (key : bytes) (l : list (bytes * bytes)) : list bytes := snd <$> filter (fun p => fst p = key) l.

(** An entry of the list stands for a decoded parameter. *)
Definition entry (s : bytes) (p : Param) (d : bytes * bytes) : Prop := hash (fst d) = Ok (name_hash p) /\ points_at s (p_value p) (snd d).

Lemma entry_app s ext p d : entry s p d -> entry (s ++ ext) p d.
Proof. intros [H1 H2]. split; [done|]. by apply points_at_app. Qed.

Lemma entries_app s ext lst l : Forall2 (entry s) lst l -> Forall2 (entry (s ++ ext)) lst l.
Proof. apply Forall2_impl. intros ??. apply entry_app. Qed.

Lemma plain_unescape t : existsb needs_decoding t = false -> unescape t = (t, true).
Proof.
  intros H. rewrite <- (app_nil_r t) at 1. rewrite unescape_plain; [cbn; by rewrite app_nil_r|].
  apply list.Forall_forall. intros c Hc ->. assert (Ht : existsb needs_decoding t = true); [|congruence].
  apply existsb_exists. exists (ch "%"). by rewrite <- list_elem_of_In.
Qed.

Lemma decode_vec buf text :
  Z.of_nat (length text) <= U32_MAX ->
  decode (W := bytes) buf text = Ok (if snd (unescape text) then inl (length (unescaped text)) else inr DecodingError, buf ++ unescaped text).
Proof.
  intros Hu. unfold decode, decode_fault_tolerant.
  destruct (decode_loop_spec (W := bytes) (length text) buf text None 0 0 0) as (w & Hw & Hc); [lia|lia|done|lia|].
  rewrite Hw. cbn [mbind outcome_bind]. rewrite drop_0 in Hc |- *. cbn in Hc. by rewrite Hc.
Qed.

Lemma hash_total t : exists h, hash t = Ok h.
Proof. apply hash_ok. Qed.

Lemma position_lt lst h k : position lst h = Some k -> exists p, lst !! k = Some p.
Proof.
  revert k. induction lst as [|p lst IH]; intros k; cbn [position]; [done|]. destruct (name_hash p =? h); [intros [= <-]; by exists p|].
  destruct (position lst h) as [k'|]; [|done]. intros [= <-]. by apply IH.
Qed.

Lemma decode_name_ok r q n v lst buf :
  describes q r n v -> Z.of_nat (length q) <= U32_MAX -> harmless n -> (length buf + length n <= length q)%nat ->
  exists nm h ext, decode_name r q lst buf (length buf) = Ok (if snd (unescape n) then Some (nm, h) else None, buf ++ ext, length (buf ++ ext)) /\
    hash (unescaped n) = Ok h /\ (length ext <= length n)%nat.
Proof.
  intros Hd Hu Hharm Hb. pose proof (describes_raw_name _ _ _ _ Hd) as Hraw. destruct Hd as [Hn Hv Hfn Hfv Hne].
  pose proof (points_at_length _ _ _ Hn) as Hnl. destruct (hash_total (unescaped n)) as [h Hh]. pose proof (unescape_length n) as Hul.
  unfold decode_name. rewrite Hraw, (points_at_pointed _ _ _ Hn), Hfn. cbn [mbind outcome_bind].
  destruct (existsb needs_decoding n) eqn:Ef.
  - rewrite decode_vec by lia. cbn [mbind outcome_bind]. destruct (snd (unescape n)) eqn:Eok.
    + rewrite (points_at_pointed _ _ _ (points_at_end buf (unescaped n))). cbn [mbind outcome_bind]. rewrite Hh. cbn [mbind outcome_bind].
      rewrite u32_add_ok, <- length_app by lia. exists (mkPointer (length buf) (length (unescaped n))), h, (unescaped n).
      split; [reflexivity|]. split; [reflexivity|lia].
    + destruct Hharm as [|He]; [congruence|]. rewrite He. exists (name r), h, []. rewrite app_nil_r. split; [reflexivity|]. split; [by rewrite He in Hh|cbn; lia].
  - apply plain_unescape in Ef. unfold unescaped in *. rewrite Ef in *. cbn [fst snd] in *. rewrite Hh. cbn [mbind outcome_bind].
    destruct (position lst h) as [k|] eqn:Ep.
    + destruct (position_lt _ _ _ Ep) as [p Hp]. rewrite (index_at_ok _ _ _ Hp). exists (p_name p), h, []. rewrite app_nil_r. split; [reflexivity|]. split; [reflexivity|cbn; lia].
    + rewrite decode_vec by lia. unfold unescaped. rewrite Ef. cbn [mbind outcome_bind fst snd].
      rewrite u32_add_ok, <- length_app by lia. exists (mkPointer (length buf) (length n)), h, n.
      split; [reflexivity|]. split; [reflexivity|lia].
Qed.

(** ** The three loops of [init] *)

Definition plain (p : bytes * bytes) : bool := negb (existsb needs_decoding (fst p) || existsb needs_decoding (snd p)).

Lemma count_loop_ok n s c b :
  Z.of_nat (length (query_string s)) <= U32_MAX -> (i s <= length (query_string s))%nat ->
  count_loop n s c b = Ok ((c + length (take n (params (at_rest s))))%nat, b && forallb plain (take n (params (at_rest s)))).
Proof.
  intros Hu. revert s c b Hu. induction n as [|n IH]; intros s c b Hu Hi; cbn [count_loop take].
  { cbn. by rewrite Nat.add_0_r, andb_true_r. }
  destruct (scanner_next_ok s Hu Hi) as (r & s' & -> & Hq & Hr). cbn [mbind outcome_bind]. destruct r as [r|].
  - destruct Hr as (nm & v & Hp & Hd & Hi'). rewrite IH, Hp by (rewrite ?Hq; lia). cbn [take length forallb].
    destruct Hd as [_ _ -> -> _]. change (plain (nm, v)) with (negb (existsb needs_decoding nm || existsb needs_decoding v)).
    rewrite <- andb_assoc. f_equal. f_equal. lia.
  - rewrite Hr. cbn. by rewrite Nat.add_0_r, andb_true_r.
Qed.

Lemma raw_loop_ok n s lst l :
  Z.of_nat (length (query_string s)) <= U32_MAX -> (i s <= length (query_string s))%nat -> (length (query_string s) - i s < n)%nat ->
  Forall2 (entry (query_string s)) lst l ->
  exists lst', raw_loop n s lst = Ok lst' /\ Forall2 (entry (query_string s)) lst' (l ++ take (MAX_QUERY_STRING_PARAMS - length lst) (params (at_rest s))).
Proof.
  intros Hu. revert s lst l Hu. induction n as [|n IH]; intros s lst l Hu Hi Hf Hl; [lia|]. cbn [raw_loop].
  destruct (scanner_next_ok s Hu Hi) as (r & s' & -> & Hq & Hr). cbn [mbind outcome_bind]. destruct r as [r|].
  - destruct Hr as (nm & v & Hp & Hd & Hi'). destruct (Nat.leb_spec MAX_QUERY_STRING_PARAMS (length lst)) as [Hm|Hm].
    + exists lst. split; [done|]. replace (_ - _)%nat with 0%nat by lia. cbn [take]. by rewrite app_nil_r.
    + rewrite Hq, (describes_raw_name _ _ _ _ Hd). destruct (hash_total nm) as [h Hh]. cbn [mbind outcome_bind]. rewrite Hh. cbn [mbind outcome_bind].
      pose proof (describes_nonempty _ _ _ _ Hd) as Hne.
      destruct (IH s' (lst ++ [mkParam (name r) h (value r)]) (l ++ [(nm, v)])) as (lst' & Hlst & HF).
      1,2,3 : rewrite Hq; lia.
      { rewrite Hq. apply Forall2_app; [done|]. constructor; [|done]. split; [done|]. apply Hd. }
      exists lst'. split; [done|]. rewrite Hq, length_app in HF. cbn [length] in HF. rewrite Hp.
      replace (MAX_QUERY_STRING_PARAMS - length lst)%nat with (S (MAX_QUERY_STRING_PARAMS - (length lst + 1))) by lia.
      cbn [take]. by rewrite <- app_assoc in HF.
  - exists lst. split; [done|]. rewrite Hr, take_nil. by rewrite app_nil_r.
Qed.

Lemma decode_params_ok n s lst l buf :
  Z.of_nat (length (query_string s)) <= U32_MAX -> (i s <= length (query_string s))%nat -> (length (query_string s) - i s < n)%nat ->
  (length buf <= i s)%nat -> Forall (fun p => harmless (fst p) /\ harmless (snd p)) (params (at_rest s)) -> Forall2 (entry buf) lst l ->
  exists lst' buf', decode_params n s lst buf (length buf) = Ok (lst', buf', length buf') /\
    Forall2 (entry buf') lst' (l ++ take (MAX_QUERY_STRING_PARAMS - length lst) (omap decoded_param (params (at_rest s)))).
Proof.
  intros Hu. revert s lst l buf Hu. induction n as [|n IH]; intros s lst l buf Hu Hi Hf Hb Hharm Hl; [lia|]. cbn [decode_params].
  destruct (scanner_next_ok s Hu Hi) as (r & s' & -> & Hq & Hr). cbn [mbind outcome_bind]. destruct r as [r|].
  2:{ exists lst, buf. split; [done|]. rewrite Hr. cbn [omap list_omap]. by rewrite take_nil, app_nil_r. }
  destruct Hr as (nm & v & Hp & Hd & Hi'). destruct (Nat.leb_spec MAX_QUERY_STRING_PARAMS (length lst)) as [Hm|Hm].
  { exists lst, buf. split; [done|]. replace (_ - _)%nat with 0%nat by lia. cbn [take]. by rewrite app_nil_r. }
  rewrite Hp in Hharm. apply list.Forall_cons in Hharm as [[Hnm Hv] Hharm]. cbn [fst snd] in Hnm, Hv. pose proof (describes_nonempty _ _ _ _ Hd) as Hne.
  destruct (decode_name_ok r (query_string s') nm v lst buf) as (p & h & ext & Hdn & Hh & Hext); [by rewrite Hq|by rewrite Hq|done|rewrite Hq; lia|].
  rewrite Hdn. cbn [mbind outcome_bind]. rewrite Hp. cbn [omap list_omap]. unfold decoded_param at 1. cbn [fst snd].
  destruct (snd (unescape nm)); cbn [andb].
  2:{ destruct (IH s' lst l (buf ++ ext)) as (lst' & buf' & Hdp & HF); [rewrite ?Hq, ?length_app; first [lia|exact Hharm|by apply entries_app]..|].
      by exists lst', buf'. }
  rewrite Hq, (points_at_pointed _ _ _ (describes_value _ _ _ _ Hd)). cbn [mbind outcome_bind].
  rewrite decode_vec by lia. cbn [mbind outcome_bind]. pose proof (unescape_length v) as Hul.
  destruct (snd (unescape v)) eqn:Ev.
  - rewrite u32_add_ok, <- length_app by (rewrite length_app; lia).
    destruct (IH s' (lst ++ [mkParam p h (mkPointer (length (buf ++ ext)) (length (unescaped v)))]) (l ++ [(unescaped nm, unescaped v)]) ((buf ++ ext) ++ unescaped v))
      as (lst' & buf' & Hdp & HF); [first [exact Hharm|rewrite ?Hq, ?length_app; lia|idtac]..|].
    { apply Forall2_app; [by apply entries_app, entries_app|]. constructor; [|done]. split; [exact Hh|]. apply points_at_end. }
    exists lst', buf'. split; [done|]. rewrite length_app in HF. cbn [length] in HF.
    replace (MAX_QUERY_STRING_PARAMS - length lst)%nat with (S (MAX_QUERY_STRING_PARAMS - (length lst + 1))) by lia.
    cbn [take]. by rewrite <- app_assoc in HF.
  - destruct Hv as [|He]; [congruence|]. rewrite He, app_nil_r.
    destruct (IH s' lst l (buf ++ ext)) as (lst' & buf' & Hdp & HF); [rewrite ?Hq, ?length_app; first [lia|exact Hharm|by apply entries_app]..|].
    by exists lst', buf'.
Qed.

(** ** Lookup *)

Lemma entries_position m lst l key h :
  Forall2 (entry (slice m)) lst l -> hash key = Ok h -> Forall (fun p => hash (fst p) = hash key -> fst p = key) l ->
  match position lst h with
  | None => all_values key l = []
  | Some k => exists p v, lst !! k = Some p /\ map_str m (p_value p) = Ok v /\ all_values key l = v :: all_values key (drop (k + 1) l)
  end.
Proof.
  intros HF Hk. induction HF as [|p [n v] lst l [Hn Hv] HF IH]; intros Hc; cbn [position]; [done|].
  apply list.Forall_cons in Hc as [Hc Hcs]. cbn [fst snd] in Hn, Hv, Hc. unfold all_values in *. rewrite filter_cons. cbn [fst].
  destruct (Z.eqb_spec (name_hash p) h) as [E|E].
  - exists p, v. rewrite decide_True by (apply Hc; by rewrite Hk, Hn, E). split; [done|]. split; [by apply points_at_map_str|done].
  - rewrite decide_False by (intros ->; apply E; congruence). specialize (IH Hcs). destruct (position lst h) as [k|]; [|done]. exact IH.
Qed.

Lemma get_all_loop_spec n m lst l key h :
  Forall2 (entry (slice m)) lst l -> hash key = Ok h -> Forall (fun p => hash (fst p) = hash key -> fst p = key) l ->
  get_all_loop n m lst h = Ok (take n (all_values key l)).
Proof.
  intros HF Hk. revert lst l HF. induction n as [|n IH]; intros lst l HF Hc; cbn [get_all_loop take]; [done|].
  pose proof (entries_position m lst l key h HF Hk Hc) as Hp. destruct (position lst h) as [k|]; [|by rewrite Hp].
  destruct Hp as (p & v & Hp & Hv & ->). rewrite (index_at_ok _ _ _ Hp). cbn [mbind outcome_bind]. rewrite Hv. cbn [mbind outcome_bind].
  rewrite (IH (drop (k + 1) lst) (drop (k + 1) l)); [done|by apply Forall2_drop|by apply list.Forall_drop].
Qed.

Lemma plain_decoded l : forallb plain l = true -> omap decoded_param l = l.
Proof.
  induction l as [|[n v] l IH]; cbn [forallb]; [done|]. intros [Hp Hl]%andb_true_iff. unfold plain in Hp.
  apply negb_true_iff, orb_false_iff in Hp as [Hn Hv]. cbn [fst snd] in *. apply plain_unescape in Hn, Hv.
  cbn [omap list_omap]. unfold decoded_param at 1, unescaped. cbn [fst snd]. rewrite Hn, Hv. cbn [fst snd andb]. f_equal. by apply IH.
Qed.

Lemma plain_kept k l : forallb plain (take k l) = true -> take k (omap decoded_param l) = take k l.
Proof.
  intros H. apply plain_decoded in H. rewrite <- (take_drop k l) at 1. rewrite omap_app, H.
  destruct (decide (k <= length l)%nat) as [Hk|Hk].
  - rewrite take_app_le by (rewrite length_take; lia). by rewrite take_take, Nat.min_id.
  - rewrite (drop_ge l k) by lia. cbn. rewrite app_nil_r. by rewrite take_take, Nat.min_id.
Qed.

(** The map of a query string whose bad escapes write nothing. *)
Lemma init_spec q :
  Z.of_nat (length q) <= U32_MAX -> Forall (fun p => harmless (fst p) /\ harmless (snd p)) (query_params q) ->
  match query_params q with
  | [] => init q = Ok None
  | _ => exists m, init q = Ok (Some m) /\ Forall2 (entry (slice m)) (list_ m) (kept q)
  end.
Proof.
  intros Hu Hh. unfold init, kept, query_params in *.
  assert (Hq : query_string (scanner_init q) = q) by (unfold scanner_init; by destruct (bool_decide _)).
  assert (Hi : (i (scanner_init q) <= length q)%nat).
  { unfold scanner_init. destruct (bool_decide_reflect (q !! 0%nat = Some (ch "?"))) as [E|]; cbn; [|lia]. apply lookup_lt_Some in E. lia. }
  set (s := scanner_init q) in *. rewrite count_loop_ok by (rewrite Hq; lia). cbn [mbind outcome_bind Nat.add andb].
  destruct (params (at_rest s)) as [|p ps] eqn:Eps; [by rewrite take_nil|].
  assert (Hlen : (length (take MAX_QUERY_STRING_PARAMS (p :: ps)) =? 0)%nat = false) by done.
  rewrite Hlen. destruct (forallb plain _) eqn:Epl.
  - destruct (raw_loop_ok (S (length q)) s [] []) as (lst & Hlst & HF); [rewrite Hq; lia..|done|].
    rewrite Hlst. cbn [mbind outcome_bind]. eexists. split; [done|]. cbn [list_ slice].
    by rewrite Hq, Eps, app_nil_l, <- plain_kept in HF.
  - destruct (decode_params_ok (S (length q)) s [] [] []) as (lst & buf & Hlst & HF); [rewrite ?Hq; cbn; try lia..|].
    { by rewrite Eps. }
    { done. }
    cbn [length] in Hlst. rewrite Hlst. cbn [mbind outcome_bind]. rewrite slice_range_ok by lia. cbn [mbind outcome_bind].
    eexists. split; [done|]. cbn [list_ slice]. rewrite Nat.sub_0_r, drop_0, firstn_all. by rewrite Eps in HF.
Qed.

(** Decoding writes to any sink that takes what it is given the text up to the first bad escape, and
    returns its length if there is none; into memory of its own it returns the text. *)
Theorem percent_decode {W : Type} `{WriterLaws W} (w : W) (input : bytes)
  (Hu : Z.of_nat (length input) <= U32_MAX) (Hf : fits w (length input)) :
  (exists w', decode w input = Ok (if snd (unescape input) then inl (length (unescaped input)) else inr DecodingError, w') /\
    contents w' = contents w ++ unescaped input) /\
  decode_alloc input = Ok (if snd (unescape input) then inl (unescaped input) else inr DecodingError).
Proof.
  split.
  - unfold decode, decode_fault_tolerant. destruct (decode_loop_spec (length input) w input None 0 0 0) as (w' & Hw & Hc);
      [lia|lia|by rewrite Nat.sub_0_r, Nat.add_0_r|lia|]. rewrite drop_0 in *. rewrite Hw. cbn [mbind outcome_bind]. by exists w'.
  - unfold decode_alloc. rewrite decode_vec by done. cbn [mbind outcome_bind app]. destruct (snd _); [|done]. by rewrite firstn_all.
Qed.

Lemma percent_decode_witness :
  let w := cursor_new (replicate 8 0) in
  Z.of_nat (length (str "a%2Fb%z")) <= U32_MAX /\ fits w (length (str "a%2Fb%z")) /\
  unescape (str "a%2Fb%z") = (str "a/b", false) /\
  exists w', decode w (str "a%2Fb%z") = Ok (inr DecodingError, w') /\ contents w' = str "a/b".
Proof.
  split; [vm_compute; congruence|]. split; [cbn; lia|]. split; [done|].
  refine (proj1 (percent_decode (cursor_new (replicate 8 0)) (str "a%2Fb%z") _ _)); [vm_compute; congruence|cbn; lia].
Defined.

(** The parameters of a query string as the text shows them: the non-empty fields between the ampersands behind
    a question mark, a name and a value each. *)
Definition query_text (q : bytes) : bytes :=
  match q with c :: rest => if c =? ch "?" then rest else q | [] => [] end.

Definition query_fields (q : bytes) : list (bytes * bytes) := split_eq <$> filter (fun f => f <> []) (split_amp (query_text q)).

(** Decoded, without those that have a bad escape; up to 2048. *)
Definition kept_fields (q : bytes) : list (bytes * bytes) :=
  take MAX_QUERY_STRING_PARAMS (omap decoded_param (query_fields q)).

Lemma at_rest_text q : at_rest (scanner_init q) = query_text q.
Proof.
  unfold at_rest, scanner_init, query_text. destruct q as [|c q]; [done|]. cbn [lookup list_lookup].
  destruct (Z.eqb_spec c (ch "?")) as [->|Hc]; [done|]. by rewrite bool_decide_eq_false_2 by congruence.
Qed.

(** The scanner finds them all when each has a name. *)
Lemma field_params_named (fs : list bytes) :
  Forall (fun p => fst p <> []) (split_eq <$> filter (fun f => f <> []) fs) -> field_params fs = split_eq <$> filter (fun f => f <> []) fs.
Proof.
  induction fs as [|f fs IH]; intros H; [done|]. rewrite filter_cons in *. destruct f as [|c f].
  - rewrite decide_False in * by auto. cbn [field_params]. by apply IH.
  - rewrite decide_True in * by done. rewrite fmap_cons in *. apply list.Forall_cons in H as [Hf H]. cbn [field_params].
    destruct (Z.eqb_spec c (ch "=")) as [->|_]; [by destruct Hf|]. f_equal. by apply IH.
Qed.

Lemma query_params_named q : Forall (fun p => fst p <> []) (query_fields q) -> query_params q = query_fields q.
Proof. intros H. unfold query_params, params. rewrite at_rest_text. by apply field_params_named. Qed.

(** (C12) The map of a query string whose parameters all have a name holds them decoded, in order, up to 2048 of them:
    [get] finds the first value of a name, [get_all] the first ones that fit the target, [has] whether there is one. A
    query without parameters has no map. Bad escapes drop their parameter as long as nothing precedes them in the
    name or value, and no other name has the hash of the one looked up. *)
Theorem query_string_map (q key : bytes) (n : nat)
  (Hu : Z.of_nat (length q) <= U32_MAX)
  (Hnamed : Forall (fun p => fst p <> []) (query_fields q))
  (Hesc : Forall (fun p => harmless (fst p) /\ harmless (snd p)) (query_fields q))
  (Hhash : Forall (fun p => hash (fst p) = hash key -> fst p = key) (kept_fields q)) :
  match query_fields q with
  | [] => init q = Ok None
  | _ => exists m, init q = Ok (Some m) /\ get_name_count m = length (kept_fields q) /\
      get m key = Ok (head (all_values key (kept_fields q))) /\
      get_all m key n = Ok (take n (all_values key (kept_fields q))) /\
      has m key = Ok (bool_decide (all_values key (kept_fields q) <> []))
  end.
Proof.
  pose proof (query_params_named q Hnamed) as E. unfold kept_fields in *. rewrite <- E in *. fold (kept q) in *.
  pose proof (init_spec q Hu Hesc) as Hi. destruct (query_params q); [done|]. destruct Hi as (m & Hi & HF).
  exists m. split; [done|]. split; [by eapply Forall2_length|]. destruct (hash_total key) as [h Hk].
  pose proof (entries_position m _ _ key h HF Hk Hhash) as Hp.
  split; [|split].
  - unfold get. rewrite Hk. cbn [mbind outcome_bind]. destruct (position (list_ m) h) as [k|]; [|by rewrite Hp].
    destruct Hp as (p0 & v & Hp & Hv & ->). rewrite (index_at_ok _ _ _ Hp). cbn [mbind outcome_bind]. by rewrite Hv.
  - unfold get_all, get_all_with_hash_from_offset. rewrite Hk. cbn [mbind outcome_bind Nat.leb]. rewrite drop_0. by eapply get_all_loop_spec.
  - unfold has, get_index. rewrite Hk. cbn [mbind outcome_bind]. destruct (position (list_ m) h) as [k|]; [|by rewrite Hp].
    by destruct Hp as (p0 & v & Hp & Hv & ->).
Qed.

Lemma query_string_map_witness :
  let q := str "?a=%zz&b=1%202&&c=3&b=%41&x&c=" in
  Z.of_nat (length q) <= U32_MAX /\
  kept_fields q = [(str "b", str "1 2"); (str "c", str "3"); (str "b", str "A"); (str "x", []); (str "c", [])] /\
  exists m, init q = Ok (Some m) /\ get_name_count m = 5%nat /\ get m (str "b") = Ok (Some (str "1 2")) /\
    get_all m (str "b") 7 = Ok [str "1 2"; str "A"] /\ has m (str "b") = Ok true.
Proof.
  split; [vm_compute; congruence|]. split; [by vm_compute|].
  apply (query_string_map (str "?a=%zz&b=1%202&&c=3&b=%41&x&c=") (str "b") 7).
  - vm_compute. congruence.
  - apply (bool_decide_unpack _). by vm_compute.
  - apply (bool_decide_unpack _). by vm_compute.
  - apply (bool_decide_unpack _). by vm_compute.
Defined.

(** Two parameters lost: a field without a name ends the query, so whatever follows it is not in the map;
    and a bad escape behind other text leaves the text decoded so far in the buffer although the position
    does not move, so the parameters that follow read bytes that are not theirs. *)
Theorem query_string_faults (rest : bytes) (Hu : Z.of_nat (S (length rest)) <= U32_MAX) :
  init (ch "=" :: rest) = Ok None /\
  init (str "a=b%zz&c=d%20") ≫= (fun m => match m with Some m => get m (str "c") | None => Panic end) = Ok (Some (str "cd")).
Proof.
  split; [|by vm_compute].
  assert (Hs : scanner_init (ch "=" :: rest) = mkScanner (ch "=" :: rest) 0 0) by done.
  assert (Hp : query_params (ch "=" :: rest) = []).
  { unfold query_params. rewrite Hs. unfold at_rest. cbn [i query_string]. by rewrite drop_0, (params_head _ (ch "=")). }
  pose proof (init_spec (ch "=" :: rest)) as Hi. rewrite Hp in Hi. apply Hi; [exact Hu|constructor].
Qed.

Lemma query_string_faults_witness :
  Z.of_nat (S (length (str "x&a=1"))) <= U32_MAX /\ init (str "=x&a=1") = Ok None.
Proof. split; [vm_compute; congruence|]. apply (query_string_faults (str "x&a=1")). vm_compute. congruence. Defined.
