(* ===== verification/MultiBitSet.v ===== *)
(** * Bit sets of many words ([collections/bit_set.rs])

    [ArrayBitSet], [DynamicBitSetUnmanaged] with its allocation, [DynamicBitSet], [DynamicBitSetList] and
    [AutoBitSet], with the iterator they share. The specification is a [gset nat] below the length. *)

From stdpp Require Import gmap.
From S2P Require Import Prelude Wyhash4 BitSet.

(** ** The helpers the sets share *)

Definition word_mask_bit (index : nat) : Z := ushl 1 (index mod 64).
Definition word_mask_index (index : nat) : nat := (index / 64)%nat.
Definition num_masks_for (bit_length : nat) : nat := ((bit_length + 63) / 64)%nat.

(** [usize::MAX >> (num_masks * usize::BITS - bit_length)]: the bits in use of the last word. *)
Definition last_item_mask (bit_length : nat) : Z := ushr U64_MAX (num_masks_for bit_length * 64 - bit_length).

(** [masks[i] = f(masks[i])] *)
Definition update_word (masks : list Z) (i : nat) (f : Z -> Z) : outcome (list Z) :=
  m ← index_at masks i; Ok (<[i := f m]> masks).

(** [for mask in &mut masks[from..to] { *mask = v }] *)
Definition fill_words (masks : list Z) (from to : nat) (v : Z) : outcome (list Z) :=
  if decide (from <= to <= length masks)%nat then Ok (take from masks ++ replicate (to - from) v ++ drop to masks) else Panic.

Definition set_range_value_masks (masks : list Z) (start end_ : nat) (value : bool) : outcome (list Z) :=
  if (start =? end_)%nat then Ok masks
  else
    let start_mask_index := word_mask_index start in
    let start_bit := (start mod 64)%nat in
    let end_mask_index := word_mask_index end_ in
    let end_bit := (end_ mod 64)%nat in
    if (start_mask_index =? end_mask_index)%nat then
      let range v := Z.land (ushl (bool_mask_usize v) start_bit) (ushr (bool_mask_usize v) (63 - (end_bit - 1))) in
      masks ← update_word masks start_mask_index (fun m => Z.land m (unot (range true)));
      update_word masks start_mask_index (fun m => Z.lor m (range value))
    else
      '(masks, bulk_mask_index) ←
        (if (0 <? start_bit)%nat then
           masks ← update_word masks start_mask_index
             (fun m => Z.lor (Z.land m (unot (ushl (bool_mask_usize true) start_bit))) (ushl (bool_mask_usize value) start_bit));
           Ok (masks, (start_mask_index + 1)%nat)
         else Ok (masks, start_mask_index));
      masks ← fill_words masks bulk_mask_index end_mask_index (bool_mask_usize value);
      if (0 <? end_bit)%nat then
        update_word masks end_mask_index
          (fun m => Z.lor (Z.land m (ushl (bool_mask_usize true) end_bit)) (ushr (bool_mask_usize value) (63 - (end_bit - 1))))
      else Ok masks.

Definition words_is_set (masks : list Z) (index : nat) : outcome bool :=
  m ← index_at masks (word_mask_index index); Ok (negb (Z.land m (word_mask_bit index) =? 0)).

Definition words_set_value (masks : list Z) (index : nat) (value : bool) : outcome (list Z) :=
  let bit := word_mask_bit index in
  let new_bit := Z.land bit (bool_mask_usize value) in
  update_word masks (word_mask_index index) (fun m => Z.lor (Z.land m (unot bit)) new_bit).

Definition words_set (masks : list Z) (index : nat) : outcome (list Z) :=
  update_word masks (word_mask_index index) (fun m => Z.lor m (word_mask_bit index)).
Definition words_unset (masks : list Z) (index : nat) : outcome (list Z) :=
  update_word masks (word_mask_index index) (fun m => Z.land m (unot (word_mask_bit index))).
Definition words_toggle (masks : list Z) (index : nat) : outcome (list Z) :=
  update_word masks (word_mask_index index) (fun m => Z.lxor m (word_mask_bit index)).

Definition words_count (masks : list Z) : nat := sum_list_with count_ones masks.

(** The padding bits of the last word. *)
Definition clear_padding (bit_length : nat) (masks : list Z) : outcome (list Z) :=
  update_word masks (num_masks_for bit_length - 1) (fun m => Z.land m (last_item_mask bit_length)).

Fixpoint find_first_from (offset : nat) (masks : list Z) : option nat :=
  match masks with
  | [] => None
  | mask :: masks => if mask =? 0 then find_first_from (offset + 64) masks else Some (offset + trailing_zeros mask)%nat
  end.

Fixpoint toggle_first_from (offset : nat) (masks : list Z) : option nat * list Z :=
  match masks with
  | [] => (None, [])
  | mask :: masks =>
      if mask =? 0 then let '(r, masks) := toggle_first_from (offset + 64) masks in (r, mask :: masks)
      else (Some (offset + trailing_zeros mask)%nat, Z.land mask (mask - 1) :: masks)
  end.

Definition words_intersect (a b : list Z) : bool := existsb (fun p => negb (Z.land (fst p) (snd p) =? 0)) (combine a b).

(** ** [BitSetIterator] *)

Record BitSetIterator := mkIterator { bits_remain : Z; words_remain : list Z; bit_offset : nat; last_word_mask : Z }.

Section iterator.
Context (KIND_SET DIR_FWD : bool).

Definition next_word (IS_FIRST_WORD : bool) (it : BitSetIterator) : outcome BitSetIterator :=
  let words := words_remain it in
  word ← (if DIR_FWD then index_at words 0 else index_at words (length words - 1));
  let word :=
    if KIND_SET then word
    else
      let word := unot word in
      if (negb DIR_FWD && IS_FIRST_WORD) || (DIR_FWD && (length words =? 1)%nat) then Z.land word (last_word_mask it) else word in
  Ok (mkIterator word (if DIR_FWD then drop 1 words else take (length words - 1) words) (bit_offset it) (last_word_mask it)).

Definition iterator_init (masks : list Z) (last_word_mask : Z) : outcome BitSetIterator :=
  if (length masks =? 0)%nat then Ok (mkIterator 0 [] 0 last_word_mask)
  else next_word true (mkIterator 0 masks (if DIR_FWD then 0 else (length masks - 1) * 64)%nat last_word_mask).

(** [while self.bits_remain == 0]; a round takes a word. An offset below zero would be a panic. *)
Fixpoint skip_words (fuel : nat) (it : BitSetIterator) : outcome (option BitSetIterator) :=
  if negb (bits_remain it =? 0) then Ok (Some it)
  else if (length (words_remain it) =? 0)%nat then Ok None
  else
    match fuel with
    | O => OutOfFuel
    | S fuel =>
        it ← next_word false it;
        if DIR_FWD then skip_words fuel (mkIterator (bits_remain it) (words_remain it) (bit_offset it + 64) (last_word_mask it))
        else if (bit_offset it <? 64)%nat then Panic
        else skip_words fuel (mkIterator (bits_remain it) (words_remain it) (bit_offset it - 64) (last_word_mask it))
    end.

Definition iterator_next (it : BitSetIterator) : outcome (option (nat * BitSetIterator)) :=
  it ← skip_words (length (words_remain it)) it;
  match it with
  | None => Ok None
  | Some it =>
      let bits := bits_remain it in
      let with_bits b := mkIterator b (words_remain it) (bit_offset it) (last_word_mask it) in
      if DIR_FWD then Ok (Some ((trailing_zeros bits + bit_offset it)%nat, with_bits (Z.land bits (bits - 1))))
      else
        let top_bit := (63 - leading_zeros bits)%nat in
        Ok (Some ((top_bit + bit_offset it)%nat, with_bits (Z.land bits (ushl 1 top_bit - 1))))
  end.

(** The indices a loop over the iterator sees. *)
Fixpoint iterate (fuel : nat) (it : BitSetIterator) : outcome (list nat) :=
  r ← iterator_next it;
  match r with
  | None => Ok []
  | Some (i, it) =>
      match fuel with
      | O => OutOfFuel
      | S fuel => l ← iterate fuel it; Ok (i :: l)
      end
  end.
End iterator.

(** ** [ArrayBitSet] *)

Record ArrayBitSet := mkArray { array_masks : list Z }.

Section array.
Context (SIZE : nat).
Local Notation NUM_MASKS := (num_masks_for SIZE).

Definition array_init_empty : ArrayBitSet := mkArray (replicate NUM_MASKS 0).
Definition array_init_full : ArrayBitSet :=
  if (NUM_MASKS =? 0)%nat then mkArray (replicate NUM_MASKS 0)
  else mkArray (<[(NUM_MASKS - 1)%nat := last_item_mask SIZE]> (replicate NUM_MASKS U64_MAX)).

Definition array_is_set (s : ArrayBitSet) (index : nat) : outcome bool :=
  if (NUM_MASKS =? 0)%nat then Ok false else words_is_set (array_masks s) index.
Definition array_count (s : ArrayBitSet) : nat := words_count (array_masks s).

(** The operations on one index do nothing on a set of size zero. *)
Definition array_update (s : ArrayBitSet) (f : list Z -> outcome (list Z)) : outcome ArrayBitSet :=
  if (NUM_MASKS =? 0)%nat then Ok s else m ← f (array_masks s); Ok (mkArray m).
Definition array_set_value (s : ArrayBitSet) (index : nat) (value : bool) := array_update s (fun m => words_set_value m index value).
Definition array_set (s : ArrayBitSet) (index : nat) := array_update s (fun m => words_set m index).
Definition array_set_range_value (s : ArrayBitSet) (start end_ : nat) (value : bool) := array_update s (fun m => set_range_value_masks m start end_ value).
Definition array_unset (s : ArrayBitSet) (index : nat) := array_update s (fun m => words_unset m index).
Definition array_toggle (s : ArrayBitSet) (index : nat) := array_update s (fun m => words_toggle m index).

Definition array_padding (m : list Z) : outcome ArrayBitSet :=
  if (0 <? NUM_MASKS)%nat then m ← clear_padding SIZE m; Ok (mkArray m) else Ok (mkArray m).
Definition array_toggle_all (s : ArrayBitSet) : outcome ArrayBitSet := array_padding (unot <$> array_masks s).
Definition array_set_all (s : ArrayBitSet) (value : bool) : outcome ArrayBitSet :=
  array_padding (replicate (length (array_masks s)) (if value then U64_MAX else 0)).

Definition array_toggle_set (s toggles : ArrayBitSet) : ArrayBitSet := mkArray (zip_with Z.lxor (array_masks s) (array_masks toggles)).
Definition array_set_union (s other : ArrayBitSet) : ArrayBitSet := mkArray (zip_with Z.lor (array_masks s) (array_masks other)).
Definition array_set_intersection (s other : ArrayBitSet) : ArrayBitSet := mkArray (zip_with Z.land (array_masks s) (array_masks other)).
Definition array_find_first_set (s : ArrayBitSet) : option nat := find_first_from 0 (array_masks s).
Definition array_toggle_first_set (s : ArrayBitSet) : option nat * ArrayBitSet :=
  let '(r, m) := toggle_first_from 0 (array_masks s) in (r, mkArray m).
Definition array_eql (s other : ArrayBitSet) : bool := bool_decide (array_masks s = array_masks other).
Definition array_complement (s : ArrayBitSet) : outcome ArrayBitSet := array_toggle_all s.
Definition array_union_with (s other : ArrayBitSet) : ArrayBitSet := array_set_union s other.
Definition array_intersect_with (s other : ArrayBitSet) : ArrayBitSet := array_set_intersection s other.
Definition array_xor_with (s other : ArrayBitSet) : ArrayBitSet := array_toggle_set s other.
Definition array_difference_with (s other : ArrayBitSet) : outcome ArrayBitSet :=
  c ← array_complement other; Ok (array_set_intersection s c).
Definition array_subset_of (s other : ArrayBitSet) : bool := array_eql (array_intersect_with s other) s.
Definition array_superset_of (s other : ArrayBitSet) : bool := array_subset_of other s.
Definition array_has_intersection (s other : ArrayBitSet) : bool := words_intersect (array_masks s) (array_masks other).
Definition array_iterator (KIND_SET DIR_FWD : bool) (s : ArrayBitSet) : outcome BitSetIterator :=
  iterator_init KIND_SET DIR_FWD (array_masks s) (last_item_mask SIZE).
End array.

(** ** [DynamicBitSetUnmanaged] *)

(** [masks] points behind the first word of the allocation, which holds the allocation's length in words; [mem]
    is the allocation from there on, [None] an uninitialised word. *)
Record DynamicBitSetUnmanaged := mkDyn { bit_length : nat; alloc_len : nat; mem : list (option Z) }.

(** The default points into a static of two zero words. *)
Definition dyn_default : DynamicBitSetUnmanaged := mkDyn 0 0 [Some 0].

(** The first [n] words behind the pointer. *)
Fixpoint read_words (n : nat) (mem : list (option Z)) : outcome (list Z) :=
  match n, mem with
  | O, _ => Ok []
  | S n, Some m :: mem => l ← read_words n mem; Ok (m :: l)
  | _, _ => Panic
  end.

Definition masks_slice (s : DynamicBitSetUnmanaged) : outcome (list Z) := read_words (num_masks_for (bit_length s)) (mem s).
(** Writing the words back through [masks_slice_mut]. *)
Definition with_masks (s : DynamicBitSetUnmanaged) (masks : list Z) : DynamicBitSetUnmanaged :=
  mkDyn (bit_length s) (alloc_len s) ((Some <$> masks) ++ drop (length masks) (mem s)).
Definition dyn_update (s : DynamicBitSetUnmanaged) (f : list Z -> outcome (list Z)) : outcome DynamicBitSetUnmanaged :=
  masks ← masks_slice s; masks ← f masks; Ok (with_masks s masks).

(** Read, change and write word [i] behind the pointer. *)
Definition poke (mem : list (option Z)) (i : nat) (f : Z -> Z) : outcome (list (option Z)) :=
  match mem !! i with Some (Some m) => Ok (<[i := Some (f m)]> mem) | _ => Panic end.

(** The loop of [zip_masks_raw] from index [i] on, [n] words being left; a word is read before it is written, so that
    [src] may be the set's own memory. *)
Fixpoint zip_loop (n i : nat) (dst src : list (option Z)) (f : Z -> Z -> Z) : outcome (list (option Z)) :=
  match n with
  | O => Ok dst
  | S n =>
      match src !! i with
      | Some (Some b) => dst ← poke dst i (fun a => f a b); zip_loop n (i + 1) dst src f
      | _ => Panic
      end
  end.
Definition zip_masks_raw (s other : DynamicBitSetUnmanaged) (f : Z -> Z -> Z) : outcome DynamicBitSetUnmanaged :=
  m ← zip_loop (num_masks_for (bit_length s)) 0 (mem s) (mem other) f; Ok (mkDyn (bit_length s) (alloc_len s) m).

(** [dyn_realloc] keeps the words that fit; [oom]: the allocator refuses. *)
Definition dyn_realloc (oom : bool) (old_len : nat) (mem : list (option Z)) (new_len : nat) : option (list (option Z)) :=
  if oom then None
  else
    let kept := if (old_len =? 0)%nat then [] else take (new_len - 1) mem in
    Some (kept ++ replicate (new_len - 1 - length kept) None).

(** The result says whether the call succeeded. *)
Definition resize (oom : bool) (s : DynamicBitSetUnmanaged) (new_len : nat) (fill : bool) : outcome (bool * DynamicBitSetUnmanaged) :=
  let old_len := bit_length s in
  let old_masks := num_masks_for old_len in
  let new_masks := num_masks_for new_len in
  let old_alloc_len := alloc_len s in
  if (new_masks =? 0)%nat then Ok (true, dyn_default)
  else
    match
      (if (old_alloc_len =? new_masks + 1)%nat then Some (old_alloc_len, mem s)
       else
         match dyn_realloc oom old_alloc_len (mem s) (new_masks + 1) with
         | None => if (old_alloc_len <? new_masks + 1)%nat then None else Some (old_alloc_len, mem s)
         | Some m => Some ((new_masks + 1)%nat, m)
         end)
    with
    | None => Ok (false, s)
    | Some (alloc, m) =>
        m ←
          (if (old_len <? new_len)%nat then
             m ← (if (fill && (0 <? old_masks)%nat : bool) then
                    let old_mask := ushr U64_MAX (old_masks * 64 - old_len) in
                    poke m (old_masks - 1) (fun x => Z.lor x (unot old_mask))
                  else Ok m);
             if (old_masks <? new_masks)%nat then
               if (length m <? new_masks)%nat then Panic
               else Ok (take old_masks m ++ replicate (new_masks - old_masks) (Some (bool_mask_usize fill)) ++ drop new_masks m)
             else Ok m
           else Ok m);
        m ← (if (0 <? new_len)%nat then poke m (new_masks - 1) (fun x => Z.land x (last_item_mask new_len)) else Ok m);
        Ok (true, mkDyn new_len alloc m)
    end.

(** [init_empty] and [init_full]: [None] when out of memory. *)
Definition dyn_init (oom : bool) (bit_length : nat) (fill : bool) : outcome (option DynamicBitSetUnmanaged) :=
  '(ok, s) ← resize oom dyn_default bit_length fill; Ok (if ok : bool then Some s else None).
Definition dyn_init_empty (oom : bool) (bit_length : nat) := dyn_init oom bit_length false.
Definition dyn_init_full (oom : bool) (bit_length : nat) := dyn_init oom bit_length true.

Definition dyn_clone (oom : bool) (s : DynamicBitSetUnmanaged) : outcome (option DynamicBitSetUnmanaged) :=
  copy ← dyn_init oom (bit_length s) false;
  match copy with
  | None => Ok None
  | Some copy => masks ← masks_slice s; Ok (Some (with_masks copy masks))
  end.

Definition dyn_is_set (s : DynamicBitSetUnmanaged) (index : nat) : outcome bool := masks ← masks_slice s; words_is_set masks index.
Definition dyn_is_set_allow_out_of_bound (s : DynamicBitSetUnmanaged) (index : nat) (out_of_bounds : bool) : outcome bool :=
  if (bit_length s <=? index)%nat then Ok out_of_bounds else dyn_is_set s index.
Definition dyn_count (s : DynamicBitSetUnmanaged) : outcome nat := masks ← masks_slice s; Ok (words_count masks).
Definition dyn_has_intersection (s other : DynamicBitSetUnmanaged) : outcome bool :=
  a ← masks_slice s; b ← masks_slice other; Ok (words_intersect a b).

Definition dyn_set_value (s : DynamicBitSetUnmanaged) (index : nat) (value : bool) := dyn_update s (fun m => words_set_value m index value).
Definition dyn_set (s : DynamicBitSetUnmanaged) (index : nat) := dyn_update s (fun m => words_set m index).
Definition dyn_unset (s : DynamicBitSetUnmanaged) (index : nat) := dyn_update s (fun m => words_unset m index).
Definition dyn_toggle (s : DynamicBitSetUnmanaged) (index : nat) := dyn_update s (fun m => words_toggle m index).
Definition dyn_set_range_value (s : DynamicBitSetUnmanaged) (start end_ : nat) (value : bool) :=
  dyn_update s (fun m => set_range_value_masks m start end_ value).

(** The operations on all words; nothing happens to an empty set. *)
Definition dyn_padding (s : DynamicBitSetUnmanaged) : outcome DynamicBitSetUnmanaged := dyn_update s (clear_padding (bit_length s)).
Definition dyn_set_all (s : DynamicBitSetUnmanaged) (value : bool) : outcome DynamicBitSetUnmanaged :=
  if (bit_length s =? 0)%nat then Ok s
  else s ← dyn_update s (fun m => Ok (replicate (length m) (bool_mask_usize value))); dyn_padding s.
Definition dyn_toggle_all (s : DynamicBitSetUnmanaged) : outcome DynamicBitSetUnmanaged :=
  if (bit_length s =? 0)%nat then Ok s else s ← dyn_update s (fun m => Ok (unot <$> m)); dyn_padding s.
Definition dyn_toggle_set (s toggles : DynamicBitSetUnmanaged) : outcome DynamicBitSetUnmanaged :=
  if (bit_length s =? 0)%nat then Ok s else s ← zip_masks_raw s toggles Z.lxor; dyn_padding s.
Definition dyn_copy_into (s other : DynamicBitSetUnmanaged) : outcome DynamicBitSetUnmanaged :=
  if (bit_length s =? 0)%nat then Ok s else s ← zip_masks_raw s other (fun _ b => b); dyn_padding s.
Definition dyn_set_union (s other : DynamicBitSetUnmanaged) := zip_masks_raw s other Z.lor.
Definition dyn_set_intersection (s other : DynamicBitSetUnmanaged) := zip_masks_raw s other Z.land.
Definition dyn_set_exclude (s other : DynamicBitSetUnmanaged) := zip_masks_raw s other (fun a b => Z.land a (unot b)).
Definition dyn_set_exclude_two (s other third : DynamicBitSetUnmanaged) : outcome DynamicBitSetUnmanaged :=
  s ← dyn_set_exclude s other; dyn_set_exclude s third.

Definition dyn_find_first_set (s : DynamicBitSetUnmanaged) : outcome (option nat) := masks ← masks_slice s; Ok (find_first_from 0 masks).
Definition dyn_toggle_first_set (s : DynamicBitSetUnmanaged) : outcome (option nat * DynamicBitSetUnmanaged) :=
  masks ← masks_slice s; let '(r, masks) := toggle_first_from 0 masks in Ok (r, with_masks s masks).

Definition dyn_eql (s other : DynamicBitSetUnmanaged) : outcome bool :=
  if negb (bit_length s =? bit_length other)%nat then Ok false
  else a ← masks_slice s; b ← masks_slice other; Ok (bool_decide (a = b)).
Definition dyn_subset_of (s other : DynamicBitSetUnmanaged) : outcome bool :=
  if negb (bit_length s =? bit_length other)%nat then Ok false
  else a ← masks_slice s; b ← masks_slice other; Ok (forallb (fun p => Z.land (fst p) (snd p) =? fst p) (combine a b)).
Definition dyn_superset_of (s other : DynamicBitSetUnmanaged) : outcome bool :=
  if negb (bit_length s =? bit_length other)%nat then Ok false
  else a ← masks_slice s; b ← masks_slice other; Ok (forallb (fun p => Z.land (fst p) (snd p) =? snd p) (combine a b)).
Definition dyn_iterator (KIND_SET DIR_FWD : bool) (s : DynamicBitSetUnmanaged) : outcome BitSetIterator :=
  masks ← masks_slice s; iterator_init KIND_SET DIR_FWD masks (last_item_mask (bit_length s)).

(** [DynamicBitSet::copy_into]: from the set into [other], the rest of that type being calls of the same name. *)
Definition copy_into (s other : DynamicBitSetUnmanaged) : outcome DynamicBitSetUnmanaged := dyn_copy_into other s.

(** ** [DynamicBitSetList]: one allocation, a header word in front of each set *)

Record DynamicBitSetList := mkBitsets { list_buf : list (option Z); list_n : nat; list_bit_length : nat }.

Definition list_init_empty (oom : bool) (n bit_length : nat) : option DynamicBitSetList :=
  let single := (num_masks_for bit_length + 1)%nat in
  if (single * n =? 0)%nat then Some (mkBitsets [] n bit_length)
  else if oom then None
  else Some (mkBitsets (concat (replicate n (Some (Z.of_nat single) :: replicate (num_masks_for bit_length) (Some 0)))) n bit_length).

(** The offset of the words of set [i]. *)
Definition list_offset (l : DynamicBitSetList) (i : nat) : nat := ((num_masks_for (list_bit_length l) + 1) * i + 1)%nat.
(** A view sees the buffer from its first word on. *)
Definition list_at (l : DynamicBitSetList) (i : nat) : DynamicBitSetUnmanaged :=
  mkDyn (list_bit_length l) (num_masks_for (list_bit_length l) + 1) (drop (list_offset l i) (list_buf l)).
(** What is written through the view is written to the buffer. *)
Definition list_write_back (l : DynamicBitSetList) (i : nat) (view : DynamicBitSetUnmanaged) : DynamicBitSetList :=
  mkBitsets (take (list_offset l i) (list_buf l) ++ mem view) (list_n l) (list_bit_length l).
Definition list_set (l : DynamicBitSetList) (i j : nat) : outcome DynamicBitSetList :=
  view ← dyn_set (list_at l i) j; Ok (list_write_back l i view).
Definition list_set_union (l : DynamicBitSetList) (i : nat) (other : DynamicBitSetUnmanaged) : outcome DynamicBitSetList :=
  view ← dyn_set_union (list_at l i) other; Ok (list_write_back l i view).

(** ** [AutoBitSet] *)

Definition AUTO_STATIC_BITS : nat := 127.

Inductive AutoBitSet := Static (s : ArrayBitSet) | Dynamic (d : DynamicBitSetUnmanaged).

Definition auto_needs_dynamic (bit_length : nat) : bool := (AUTO_STATIC_BITS <? bit_length)%nat.
Definition auto_init_empty (oom : bool) (bit_length : nat) : outcome (option AutoBitSet) :=
  if (bit_length <=? AUTO_STATIC_BITS)%nat then Ok (Some (Static (array_init_empty AUTO_STATIC_BITS)))
  else d ← dyn_init_empty oom bit_length; Ok (option_map Dynamic d).

(** [auto_forward!]: the same call on either arm. *)
Definition auto_update (b : AutoBitSet) (f : ArrayBitSet -> outcome ArrayBitSet) (g : DynamicBitSetUnmanaged -> outcome DynamicBitSetUnmanaged) : outcome AutoBitSet :=
  match b with
  | Static s => s ← f s; Ok (Static s)
  | Dynamic d => d ← g d; Ok (Dynamic d)
  end.

Definition auto_is_set (b : AutoBitSet) (index : nat) : outcome bool :=
  match b with Static s => array_is_set AUTO_STATIC_BITS s index | Dynamic d => dyn_is_set d index end.
Definition auto_has_intersection (a b : AutoBitSet) : outcome bool :=
  match a, b with
  | Static a, Static b => Ok (array_has_intersection a b)
  | Dynamic a, Dynamic b => dyn_has_intersection a b
  | _, _ => Ok false
  end.
Definition auto_clone (oom : bool) (b : AutoBitSet) : outcome (option AutoBitSet) :=
  match b with
  | Static s => Ok (Some (Static s))
  | Dynamic d => d ← dyn_clone oom d; Ok (option_map Dynamic d)
  end.
Definition auto_set (b : AutoBitSet) (index : nat) : outcome AutoBitSet :=
  auto_update b (fun s => array_set AUTO_STATIC_BITS s index) (fun d => dyn_set d index).
Definition auto_unset (b : AutoBitSet) (index : nat) : outcome AutoBitSet :=
  auto_update b (fun s => array_unset AUTO_STATIC_BITS s index) (fun d => dyn_unset d index).
Definition auto_set_all (b : AutoBitSet) (value : bool) : outcome AutoBitSet :=
  auto_update b (fun s => array_set_all AUTO_STATIC_BITS s value) (fun d => dyn_set_all d value).
(** The words as bytes. *)
Definition auto_raw_bytes (b : AutoBitSet) : outcome bytes :=
  masks ← (match b with Static s => Ok (array_masks s) | Dynamic d => masks_slice d end);
  Ok (concat (le_bytes 8 <$> masks)).
Definition auto_eql (a b : AutoBitSet) : outcome bool :=
  a ← auto_raw_bytes a; b ← auto_raw_bytes b; Ok (bool_decide (a = b)).
Definition auto_hash (b : AutoBitSet) : outcome Z := raw ← auto_raw_bytes b; hash raw.
Definition auto_count (b : AutoBitSet) : outcome nat :=
  match b with Static s => Ok (array_count s) | Dynamic d => dyn_count d end.
Definition auto_find_first_set (b : AutoBitSet) : outcome (option nat) :=
  match b with Static s => Ok (array_find_first_set s) | Dynamic d => dyn_find_first_set d end.
Definition auto_iterator (KIND_SET DIR_FWD : bool) (b : AutoBitSet) : outcome BitSetIterator :=
  match b with Static s => array_iterator AUTO_STATIC_BITS KIND_SET DIR_FWD s | Dynamic d => dyn_iterator KIND_SET DIR_FWD d end.

Example multi_tests :
  (d ← dyn_init_empty false 130; match d with Some d => d ← dyn_set_range_value d 60 129 true; it ← dyn_iterator false false d; iterate false false 130 it | None => Panic end)
    = Ok (129%nat :: rev (seq 0 60)) /\
  (a ← dyn_init_full false 70; b ← dyn_init_empty false 100; c ← dyn_init_empty false 130;
   match a, b, c with
   | Some a, Some b, Some c => b ← copy_into a b; n ← dyn_count b; Ok (n, copy_into a c) | _, _, _ => Panic end) = Ok (70%nat, Panic) /\
  (a ← auto_init_empty false 10; match a with Some a => a ← auto_set_all a true; auto_count a | None => Panic end) = Ok 127%nat.
Proof. vm_compute. repeat split. Qed.

(** ** Words as bits *)

Definition has (masks : list Z) (i : nat) : bool :=
  match masks !! (i / 64)%nat with Some m => Z.testbit m (Z.of_nat (i mod 64)) | None => false end.

(** [masks'] replaces [masks] and its bits are [P]. *)
Record becomes (masks masks' : list Z) (P : nat -> bool) : Prop := {
  becomes_length : length masks' = length masks;
  becomes_words : Forall word_ok masks';
  becomes_bits : forall j, (j < 64 * length masks)%nat -> has masks' j = P j;
}.

Lemma index_word i n : (i < 64 * n)%nat <-> (i / 64 < n)%nat.
Proof. pose proof (Nat.div_mod_eq i 64). pose proof (mod_lt_64 i). split; [|nia]. intros. apply Nat.Div0.div_lt_upper_bound. lia. Qed.

Lemma has_above masks i : (64 * length masks <= i)%nat -> has masks i = false.
Proof. intros H. unfold has. rewrite lookup_ge_None_2; [done|]. apply Nat.nlt_ge. rewrite <- index_word. lia. Qed.

Lemma has_word (masks : list Z) w m k : masks !! w = Some m -> (k < 64)%nat -> has masks (64 * w + k) = Z.testbit m (Z.of_nat k).
Proof.
  intros Hm Hk. unfold has. rewrite (Nat.mul_comm 64), Nat.div_add_l, Nat.div_small, Nat.add_0_r by lia.
  rewrite Nat.add_comm, Nat.Div0.mod_add, Nat.mod_small by lia. by rewrite Hm.
Qed.

Lemma has_at (masks : list Z) j m : masks !! (j / 64)%nat = Some m -> has masks j = Z.testbit m (Z.of_nat (j mod 64)).
Proof. intros Hm. unfold has. by rewrite Hm. Qed.

Lemma word_of_index (masks : list Z) i : (i < 64 * length masks)%nat -> exists m, masks !! (i / 64)%nat = Some m.
Proof. intros H. apply lookup_lt_is_Some_2, index_word, H. Qed.

Lemma word_of_masks (masks : list Z) w m : Forall word_ok masks -> masks !! w = Some m -> word_ok m.
Proof. intros H Hm. by eapply Forall_lookup_1. Qed.

Lemma becomes_trans a b c P Q :
  becomes a b P -> becomes b c Q -> becomes a c Q.
Proof. intros [H1 H2 H3] [H4 H5 H6]. split; [congruence|done|]. intros j Hj. apply H6. by rewrite H1. Qed.

Lemma becomes_ext a b P Q : becomes a b P -> (forall j, (j < 64 * length a)%nat -> P j = Q j) -> becomes a b Q.
Proof. intros [H1 H2 H3] H. split; [done|done|]. intros j Hj. by rewrite H3, H. Qed.

Lemma becomes_refl a : Forall word_ok a -> becomes a a (has a).
Proof. done. Qed.

(** Words of the same bits are the same. *)
Lemma words_ext a b :
  Forall word_ok a -> Forall word_ok b -> length a = length b -> (forall j, (j < 64 * length a)%nat -> has a j = has b j) -> a = b.
Proof.
  intros Ha Hb Hl H. apply list_eq_same_length with (length a); [done|done|]. intros w x y Hw Hx Hy.
  apply word_bits_inj; [by apply (word_of_masks a w)|by apply (word_of_masks b w)|]. unfold word_bits. apply List.filter_ext_in.
  intros k Hk. apply in_seq in Hk. rewrite <- (has_word a w x k Hx), <- (has_word b w y k Hy) by lia. apply H. lia.
Qed.

(** One word written. *)
Lemma update_word_becomes (masks : list Z) w f P :
  Forall word_ok masks -> (w < length masks)%nat -> (forall m, word_ok m -> word_ok (f m)) ->
  (forall m k, masks !! w = Some m -> word_ok m -> (k < 64)%nat -> Z.testbit (f m) (Z.of_nat k) = P (64 * w + k)%nat) ->
  (forall j, (j < 64 * length masks)%nat -> (j / 64)%nat <> w -> has masks j = P j) ->
  exists masks', update_word masks w f = Ok masks' /\ becomes masks masks' P.
Proof.
  intros Hok Hw Hf Hbits Hother. destruct (lookup_lt_is_Some_2 masks w Hw) as [m Hm]. unfold update_word. rewrite (index_at_ok _ _ _ Hm).
  cbn [mbind outcome_bind]. eexists. split; [done|]. pose proof (word_of_masks _ _ _ Hok Hm) as Hmok. split.
  - apply length_insert.
  - apply Forall_insert; [done|by apply Hf].
  - intros j Hj. destruct (decide (j / 64 = w)%nat) as [E|E].
    + rewrite (has_at _ j (f m)) by (rewrite E; by apply list_lookup_insert_eq). rewrite (Hbits m) by (done || apply mod_lt_64).
      f_equal. rewrite <- E. symmetry. apply Nat.div_mod_eq.
    + rewrite <- Hother by done. unfold has. by rewrite list_lookup_insert_ne by congruence.
Qed.

Lemma word_mask_bit_testbit i k : Z.testbit (word_mask_bit i) (Z.of_nat k) = (k =? i mod 64)%nat.
Proof.
  unfold word_mask_bit. rewrite ushl1_testbit by (apply mod_lt_64 || lia). apply eq_true_iff_eq. rewrite Z.eqb_eq, Nat.eqb_eq. lia.
Qed.

Lemma word_ok_mask i : word_ok (word_mask_bit i).
Proof. apply word_ok_ushl. Qed.
Lemma word_ok_bool_mask v : word_ok (bool_mask_usize v).
Proof. by destruct v. Qed.
#[export] Hint Resolve word_ok_mask word_ok_bool_mask : words.

Lemma same_bit w k i : (k < 64)%nat -> w = (i / 64)%nat -> (64 * w + k =? i)%nat = (k =? i mod 64)%nat.
Proof. intros Hk ->. pose proof (Nat.div_mod_eq i 64). apply eq_true_iff_eq. rewrite !Nat.eqb_eq. lia. Qed.

(** The bit operations write one bit. *)
Lemma bit_op_becomes masks i f (v : bool -> bool) :
  Forall word_ok masks -> (i < 64 * length masks)%nat -> (forall m, word_ok m -> word_ok (f m)) ->
  (forall m k, word_ok m -> (k < 64)%nat -> Z.testbit (f m) (Z.of_nat k) = if (k =? i mod 64)%nat then v (Z.testbit m (Z.of_nat k)) else Z.testbit m (Z.of_nat k)) ->
  exists masks', update_word masks (word_mask_index i) f = Ok masks' /\ becomes masks masks' (fun j => if (j =? i)%nat then v (has masks j) else has masks j).
Proof.
  intros Hok Hi Hf Hbits. unfold word_mask_index. apply update_word_becomes; [done|by apply index_word|done| |].
  - intros m k Hm Hmok Hk. rewrite Hbits, (has_word masks _ m k Hm Hk) by done. by rewrite (same_bit _ k i Hk eq_refl).
  - intros j Hj Hne. destruct (Nat.eqb_spec j i) as [->|]; [done|done].
Qed.

Section bit_operations.
Context (masks : list Z) (i : nat) (Hok : Forall word_ok masks) (Hi : (i < 64 * length masks)%nat).

Lemma words_is_set_ok : words_is_set masks i = Ok (has masks i).
Proof.
  destruct (word_of_index masks i Hi) as [m Hm]. pose proof (word_of_masks _ _ _ Hok Hm) as Hmok.
  unfold words_is_set, word_mask_index. rewrite (index_at_ok _ _ _ Hm). cbn [mbind outcome_bind]. f_equal. rewrite (has_at _ _ _ Hm).
  destruct (Z.eqb_spec (Z.land m (word_mask_bit i)) 0) as [E|E].
  - symmetry. apply (f_equal (fun x => Z.testbit x (Z.of_nat (i mod 64)))) in E. rewrite Z.land_spec, word_mask_bit_testbit, Nat.eqb_refl, andb_true_r, Z.bits_0 in E. done.
  - symmetry. apply not_false_iff_true. intros Hb. apply E, Z.bits_inj'. intros k Hk. rewrite Z.bits_0, Z.land_spec.
    replace k with (Z.of_nat (Z.to_nat k)) by lia. rewrite word_mask_bit_testbit.
    destruct (Nat.eqb_spec (Z.to_nat k) (i mod 64)) as [->|]; [by rewrite Hb|apply andb_false_r].
Qed.

(** Decides a bit of a word operation. *)
Ltac word_bit := rewrite ?Z.lor_spec, ?Z.land_spec, ?Z.lxor_spec, ?unot_testbit, ?word_mask_bit_testbit by lia.

Lemma words_set_value_ok v :
  exists masks', words_set_value masks i v = Ok masks' /\ becomes masks masks' (fun j => if (j =? i)%nat then v else has masks j).
Proof.
  apply (bit_op_becomes masks i _ (fun _ => v)); [done|done| |].
  - auto 7 with words.
  - intros m k Hm Hk. word_bit. rewrite bool_mask_testbit by lia. destruct (_ =? _)%nat, v, (Z.testbit m _); done.
Qed.

Lemma words_set_ok : exists masks', words_set masks i = Ok masks' /\ becomes masks masks' (fun j => if (j =? i)%nat then true else has masks j).
Proof.
  apply (bit_op_becomes masks i _ (fun _ => true)); [done|done|auto with words|].
  intros m k Hm Hk. word_bit. by destruct (_ =? _)%nat, (Z.testbit m _).
Qed.

Lemma words_unset_ok : exists masks', words_unset masks i = Ok masks' /\ becomes masks masks' (fun j => if (j =? i)%nat then false else has masks j).
Proof.
  apply (bit_op_becomes masks i _ (fun _ => false)); [done|done|auto with words|].
  intros m k Hm Hk. word_bit. by destruct (_ =? _)%nat, (Z.testbit m _).
Qed.

Lemma words_toggle_ok : exists masks', words_toggle masks i = Ok masks' /\ becomes masks masks' (fun j => if (j =? i)%nat then negb (has masks j) else has masks j).
Proof.
  apply (bit_op_becomes masks i _ negb); [done|done|auto with words|].
  intros m k Hm Hk. word_bit. by destruct (_ =? _)%nat, (Z.testbit m _).
Qed.
End bit_operations.

(** ** Operations on all words *)

Lemma num_masks_bounds n : (n <= 64 * num_masks_for n < n + 64)%nat.
Proof. unfold num_masks_for. pose proof (Nat.div_mod_eq (n + 63) 64). pose proof (mod_lt_64 (n + 63)). lia. Qed.

Lemma ones_shr_testbit p k : (p < 64)%nat -> (k < 64)%nat -> Z.testbit (ushr U64_MAX p) (Z.of_nat k) = (k <? 64 - p)%nat.
Proof.
  intros Hp Hk. unfold ushr. rewrite (Z.mod_small (Z.of_nat p)), Z.shiftr_spec by lia. change U64_MAX with (Z.ones (Z.of_nat 64)).
  rewrite ones_testbit by lia. apply eq_true_iff_eq. rewrite Z.ltb_lt, Nat.ltb_lt. lia.
Qed.

Lemma word_ok_ushr x n : word_ok x -> word_ok (ushr x n).
Proof.
  intros [H0 H]. unfold ushr. pose proof (Z.mod_pos_bound (Z.of_nat n) 64). rewrite Z.shiftr_div_pow2 by lia.
  split; [apply Z.div_pos; lia|]. apply Z.le_lt_trans with x; [|done]. apply Z.div_le_upper_bound; nia.
Qed.

#[export] Hint Resolve word_ok_ushr : words.

Lemma last_item_mask_testbit n k : (0 < n)%nat -> (k < 64)%nat -> Z.testbit (last_item_mask n) (Z.of_nat k) = (64 * (num_masks_for n - 1) + k <? n)%nat.
Proof.
  intros Hn Hk. pose proof (num_masks_bounds n). unfold last_item_mask. rewrite ones_shr_testbit by lia.
  apply eq_true_iff_eq. rewrite !Nat.ltb_lt. lia.
Qed.

Lemma word_ok_last n : word_ok (last_item_mask n).
Proof. apply word_ok_ushr. done. Qed.
#[export] Hint Resolve word_ok_last : words.

Lemma clear_padding_ok masks n :
  Forall word_ok masks -> (0 < n)%nat -> length masks = num_masks_for n ->
  exists masks', clear_padding n masks = Ok masks' /\ becomes masks masks' (fun j => has masks j && (j <? n)%nat).
Proof.
  intros Hok Hn Hl. pose proof (num_masks_bounds n). apply update_word_becomes; [done|lia|auto with words| |].
  - intros m k Hm Hmok Hk. rewrite Z.land_spec, last_item_mask_testbit, (has_word masks _ m k Hm Hk) by done. done.
  - intros j Hj Hne. rewrite (proj2 (Nat.ltb_lt j n)); [by rewrite andb_true_r|]. rewrite Hl in Hj. apply index_word in Hj as Hj'.
    pose proof (Nat.div_mod_eq j 64). pose proof (mod_lt_64 j). lia.
Qed.

(** A pointwise operation. *)
Lemma map_becomes masks f P :
  Forall word_ok masks -> (forall m, word_ok m -> word_ok (f m)) ->
  (forall w m k, masks !! w = Some m -> word_ok m -> (k < 64)%nat -> Z.testbit (f m) (Z.of_nat k) = P (64 * w + k)%nat) ->
  becomes masks (f <$> masks) P.
Proof.
  intros Hok Hf Hbits. split.
  - apply length_fmap.
  - apply Forall_fmap. eapply list.Forall_impl; [exact Hok|exact Hf].
  - intros j Hj. destruct (word_of_index masks j Hj) as [m Hm]. pose proof (word_of_masks _ _ _ Hok Hm) as Hmok.
    rewrite (has_at _ j (f m)) by (by rewrite list_lookup_fmap, Hm). rewrite (Hbits (j / 64)%nat m) by (done || apply mod_lt_64).
    f_equal. symmetry. apply Nat.div_mod_eq.
Qed.

Lemma unot_becomes masks : Forall word_ok masks -> becomes masks (unot <$> masks) (fun j => negb (has masks j)).
Proof.
  intros Hok. apply map_becomes; [done|auto with words|]. intros w m k Hm Hmok Hk.
  by rewrite unot_testbit, (has_word masks w m k Hm Hk) by lia.
Qed.

Lemma replicate_becomes masks v : becomes masks (replicate (length masks) (bool_mask_usize v)) (fun _ => v).
Proof.
  split.
  - apply length_replicate.
  - apply Forall_replicate. auto with words.
  - intros j Hj. rewrite (has_at _ j (bool_mask_usize v)) by (by apply lookup_replicate_2, index_word).
    apply bool_mask_testbit. pose proof (mod_lt_64 j). lia.
Qed.

(** An operation with the words of another set. *)
Lemma zip_becomes a b f (g : bool -> bool -> bool) :
  Forall word_ok a -> Forall word_ok b -> length a = length b ->
  (forall x y, word_ok x -> word_ok y -> word_ok (f x y)) ->
  (forall x y k, (k < 64)%nat -> Z.testbit (f x y) (Z.of_nat k) = g (Z.testbit x (Z.of_nat k)) (Z.testbit y (Z.of_nat k))) ->
  becomes a (zip_with f a b) (fun j => g (has a j) (has b j)).
Proof.
  intros Ha Hb Hl Hf Hg. split.
  - rewrite length_zip_with. lia.
  - apply Forall_lookup_2. intros w z Hz. apply lookup_zip_with_Some in Hz as (x & y & -> & Hx & Hy).
    apply Hf; [by apply (word_of_masks a w)|by apply (word_of_masks b w)].
  - intros j Hj. destruct (word_of_index a j Hj) as [x Hx]. destruct (word_of_index b j ltac:(lia)) as [y Hy].
    rewrite (has_at _ j (f x y)), (has_at a j x Hx), (has_at b j y Hy) by (by rewrite lookup_zip_with, Hx, Hy; cbn).
    apply Hg, mod_lt_64.
Qed.

(** ** Ranges *)

Lemma ushl_mask_testbit v s k : (s < 64)%nat -> (k < 64)%nat -> Z.testbit (ushl (bool_mask_usize v) s) (Z.of_nat k) = v && (s <=? k)%nat.
Proof.
  intros Hs Hk. unfold ushl, wrap. rewrite (Z.mod_small (Z.of_nat s)), Z.mod_pow2_bits_low by lia.
  destruct (Nat.leb_spec s k).
  - rewrite Z.shiftl_spec, bool_mask_testbit by lia. by rewrite andb_true_r.
  - rewrite Z.shiftl_spec_low by lia. by rewrite andb_false_r.
Qed.

Lemma ushr_mask_testbit v e k : (1 <= e <= 64)%nat -> (k < 64)%nat -> Z.testbit (ushr (bool_mask_usize v) (63 - (e - 1))) (Z.of_nat k) = v && (k <? e)%nat.
Proof.
  intros He Hk. destruct v.
  - change (bool_mask_usize true) with U64_MAX. rewrite ones_shr_testbit by lia. cbn [andb]. apply eq_true_iff_eq. rewrite !Nat.ltb_lt. lia.
  - unfold ushr. change (bool_mask_usize false) with 0. rewrite Z.shiftr_0_l. apply Z.bits_0.
Qed.

Lemma fill_words_becomes masks a b v :
  Forall word_ok masks -> (a <= b <= length masks)%nat ->
  exists masks', fill_words masks a b (bool_mask_usize v) = Ok masks' /\
    becomes masks masks' (fun j => if (a <=? j / 64)%nat && (j / 64 <? b)%nat then v else has masks j).
Proof.
  intros Hok Hab. unfold fill_words. rewrite decide_True by done. eexists. split; [done|]. split.
  - rewrite !length_app, length_take, length_replicate, length_drop. lia.
  - apply Forall_app_2; [by apply Forall_take|]. apply Forall_app_2; [apply Forall_replicate; auto with words|by apply Forall_drop].
  - intros j Hj. unfold has. rewrite lookup_app, length_take, Nat.min_l by lia.
    destruct (Nat.leb_spec a (j / 64)) as [Ha|Ha]; cbn [andb].
    + rewrite lookup_take_ge, lookup_app, length_replicate by lia.
      destruct (Nat.ltb_spec (j / 64) b) as [Hb|Hb].
      * rewrite lookup_replicate_2 by lia. apply bool_mask_testbit. pose proof (mod_lt_64 j). lia.
      * rewrite (lookup_ge_None_2 (replicate (b - a) (bool_mask_usize v))) by (rewrite length_replicate; lia). rewrite lookup_drop. replace (b + (j / 64 - a - (b - a)))%nat with (j / 64)%nat by lia. done.
    + rewrite lookup_take_lt by lia. apply index_word in Hj. destruct (lookup_lt_is_Some_2 masks (j / 64) Hj) as [m Hm]. by rewrite Hm.
Qed.

Definition in_range (start end_ j : nat) : bool := (start <=? j)%nat && (j <? end_)%nat.

(** Membership in a range, for an index of the word of one end or of another word. *)
Lemma in_range_low start w k : w = (start / 64)%nat -> (k < 64)%nat -> (start <=? 64 * w + k)%nat = (start mod 64 <=? k)%nat.
Proof. intros -> Hk. pose proof (Nat.div_mod_eq start 64). apply eq_true_iff_eq. rewrite !Nat.leb_le. lia. Qed.
Lemma in_range_high end_ w k : w = (end_ / 64)%nat -> (k < 64)%nat -> (64 * w + k <? end_)%nat = (k <? end_ mod 64)%nat.
Proof. intros -> Hk. pose proof (Nat.div_mod_eq end_ 64). apply eq_true_iff_eq. rewrite !Nat.ltb_lt. lia. Qed.

Lemma range_in_word masks start end_ v :
  Forall word_ok masks -> (start < end_)%nat -> (end_ <= 64 * length masks)%nat -> (start / 64)%nat = (end_ / 64)%nat ->
  exists masks', set_range_value_masks masks start end_ v = Ok masks' /\
    becomes masks masks' (fun j => if in_range start end_ j then v else has masks j).
Proof.
  intros Hok Hse He Hw. pose proof (Nat.div_mod_eq start 64) as Ds. pose proof (Nat.div_mod_eq end_ 64) as De.
  pose proof (mod_lt_64 start). pose proof (mod_lt_64 end_). unfold set_range_value_masks, word_mask_index.
  rewrite (proj2 (Nat.eqb_neq start end_)), (proj2 (Nat.eqb_eq _ _) Hw) by lia.
  set (range := fun u => Z.land (ushl (bool_mask_usize u) (start mod 64)) (ushr (bool_mask_usize u) (63 - (end_ mod 64 - 1)))).
  change (exists masks', (m ← update_word masks (start / 64) (fun m => Z.land m (unot (range true)));
    update_word m (start / 64) (fun m => Z.lor m (range v))) = Ok masks' /\ becomes masks masks' (fun j => if in_range start end_ j then v else has masks j)).
  assert (Hrange : forall u k, (k < 64)%nat -> Z.testbit (range u) (Z.of_nat k) = u && in_range start end_ (64 * (start / 64) + k)).
  { intros u k Hk. unfold range, in_range. rewrite Z.land_spec, ushl_mask_testbit, ushr_mask_testbit by lia.
    rewrite in_range_low, in_range_high by done. by destruct u, (_ <=? _)%nat. }
  assert (Hrok : forall u, word_ok (range u)) by (intros u; unfold range; apply word_ok_land; [apply word_ok_ushl|auto with words]).
  assert (Hsl : (start / 64 < length masks)%nat) by (apply index_word; lia).
  assert (Hother : forall j, (j / 64)%nat <> (start / 64)%nat -> in_range start end_ j = false).
  { intros j Hj. unfold in_range. pose proof (Nat.div_mod_eq j 64). pose proof (mod_lt_64 j). apply andb_false_iff. rewrite Nat.leb_gt, Nat.ltb_ge. lia. }
  destruct (update_word_becomes masks (start / 64) (fun m => Z.land m (unot (range true))) (fun j => has masks j && negb (in_range start end_ j)))
    as (m1 & E1 & B1); [done|done|auto with words| | |].
  { intros m k Hm Hmok Hk. rewrite Z.land_spec, unot_testbit, Hrange, (has_word masks _ m k Hm Hk) by lia. done. }
  { intros j _ Hj. by rewrite Hother, andb_true_r. }
  rewrite E1. cbn [mbind outcome_bind]. destruct B1 as [L1 W1 H1].
  destruct (update_word_becomes m1 (start / 64) (fun m => Z.lor m (range v)) (fun j => if in_range start end_ j then v else has masks j))
    as (m2 & E2 & B2); [done|lia|auto with words| | |].
  { intros m k Hm Hmok Hk. rewrite Z.lor_spec, Hrange, <- (has_word m1 _ m k Hm Hk), H1 by lia.
    destruct (in_range _ _ _); [by rewrite andb_false_r, andb_true_r|by rewrite andb_true_r, andb_false_r, orb_false_r]. }
  { intros j Hj Hne. rewrite H1 by lia. by rewrite Hother, andb_true_r. }
  exists m2. split; [exact E2|]. destruct B2 as [L2 W2 H2]. split; [congruence|done|]. intros j Hj. apply H2. lia.
Qed.

(** The first word of a range that goes on behind it. *)
Lemma range_first_word masks start v :
  Forall word_ok masks -> (start / 64 < length masks)%nat ->
  exists masks' bulk,
    (if (0 <? start mod 64)%nat then
       m ← update_word masks (start / 64)
         (fun m => Z.lor (Z.land m (unot (ushl (bool_mask_usize true) (start mod 64)))) (ushl (bool_mask_usize v) (start mod 64)));
       Ok (m, (start / 64 + 1)%nat)
     else Ok (masks, (start / 64)%nat)) = Ok (masks', bulk) /\
    (start <= 64 * bulk < start + 64)%nat /\
    becomes masks masks' (fun j => if in_range start (64 * bulk) j then v else has masks j).
Proof.
  intros Hok Hs. pose proof (Nat.div_mod_eq start 64) as Ds. pose proof (mod_lt_64 start). destruct (Nat.ltb_spec 0 (start mod 64)) as [Hb|Hb].
  - destruct (update_word_becomes masks (start / 64)
      (fun m => Z.lor (Z.land m (unot (ushl (bool_mask_usize true) (start mod 64)))) (ushl (bool_mask_usize v) (start mod 64)))
      (fun j => if in_range start (64 * (start / 64 + 1)) j then v else has masks j)) as (m1 & E1 & B1); [done|done|auto 7 with words| | |].
    + intros m k Hm Hmok Hk. rewrite Z.lor_spec, Z.land_spec, unot_testbit, !ushl_mask_testbit, (has_word masks _ m k Hm Hk) by lia.
      unfold in_range. rewrite in_range_low by done. rewrite (proj2 (Nat.ltb_lt (64 * (start / 64) + k) _)) by lia.
      destruct (_ <=? k)%nat, v, (Z.testbit m _); done.
    + intros j Hj Hne. unfold in_range. pose proof (Nat.div_mod_eq j 64). pose proof (mod_lt_64 j).
      destruct (Nat.leb_spec start j), (Nat.ltb_spec j (64 * (start / 64 + 1))); try done. exfalso. apply Hne. lia.
    + rewrite E1. eexists _, _. split; [done|]. split; [lia|exact B1].
  - eexists _, _. split; [done|]. split; [lia|]. eapply becomes_ext; [by apply becomes_refl|]. intros j Hj. unfold in_range.
    destruct (Nat.leb_spec start j), (Nat.ltb_spec j (64 * (start / 64))); try done. lia.
Qed.

Lemma range_over_words masks start end_ v :
  Forall word_ok masks -> (start <= end_)%nat -> (end_ <= 64 * length masks)%nat -> (start / 64 < end_ / 64)%nat ->
  exists masks', set_range_value_masks masks start end_ v = Ok masks' /\
    becomes masks masks' (fun j => if in_range start end_ j then v else has masks j).
Proof.
  intros Hok Hse He Hw. pose proof (Nat.div_mod_eq start 64) as Ds. pose proof (Nat.div_mod_eq end_ 64) as De.
  pose proof (mod_lt_64 start). pose proof (mod_lt_64 end_). unfold set_range_value_masks, word_mask_index.
  rewrite (proj2 (Nat.eqb_neq start end_)), (proj2 (Nat.eqb_neq (start / 64) (end_ / 64))) by lia.
  destruct (range_first_word masks start v) as (m1 & bulk & E1 & Hbulk & [L1 W1 H1]); [done|lia|]. rewrite E1. cbn [mbind outcome_bind].
  destruct (fill_words_becomes m1 bulk (end_ / 64) v) as (m2 & E2 & [L2 W2 H2]); [done|lia|]. rewrite E2. cbn [mbind outcome_bind].
  assert (H12 : forall j, (j < 64 * length masks)%nat -> has m2 j = if in_range start (64 * (end_ / 64)) j then v else has masks j).
  { intros j Hj. rewrite H2, H1 by lia. unfold in_range. pose proof (Nat.div_mod_eq j 64). pose proof (mod_lt_64 j).
    destruct (Nat.leb_spec bulk (j / 64)), (Nat.ltb_spec (j / 64) (end_ / 64)), (Nat.leb_spec start j), (Nat.ltb_spec j (64 * bulk)),
      (Nat.ltb_spec j (64 * (end_ / 64))); cbn [andb]; done || lia. }
  destruct (Nat.ltb_spec 0 (end_ mod 64)) as [Hb|Hb].
  - destruct (update_word_becomes m2 (end_ / 64)
      (fun m => Z.lor (Z.land m (ushl (bool_mask_usize true) (end_ mod 64))) (ushr (bool_mask_usize v) (63 - (end_ mod 64 - 1))))
      (fun j => if in_range start end_ j then v else has masks j)) as (m3 & E3 & [L3 W3 H3]); [done|lia|auto 7 with words| | |].
    + intros m k Hm Hmok Hk. rewrite Z.lor_spec, Z.land_spec, ushl_mask_testbit, ushr_mask_testbit by lia.
      pose proof (has_word m2 _ m k Hm Hk) as Hh. rewrite H12 in Hh by (apply lookup_lt_Some in Hm; lia).
      unfold in_range in *. rewrite (in_range_high end_) by done. rewrite (proj2 (Nat.leb_le start _)) in Hh |- * by lia.
      rewrite (proj2 (Nat.ltb_ge (64 * (end_ / 64) + k) (64 * (end_ / 64)))) in Hh by lia. cbn [andb] in *. rewrite Hh.
      destruct (Nat.leb_spec (end_ mod 64) k), (Nat.ltb_spec k (end_ mod 64)); try lia; destruct (Z.testbit m _), v; done.
    + intros j Hj Hne. rewrite H12 by lia. unfold in_range. pose proof (Nat.div_mod_eq j 64). pose proof (mod_lt_64 j).
      destruct (start <=? j)%nat; cbn [andb]; [|done]. destruct (Nat.ltb_spec j (64 * (end_ / 64))), (Nat.ltb_spec j end_); done || lia.
    + exists m3. split; [exact E3|]. split; [congruence|done|]. intros j Hj. apply H3. lia.
  - exists m2. split; [done|]. split; [congruence|done|]. intros j Hj. rewrite H12 by done. by replace (64 * (end_ / 64))%nat with end_ by lia.
Qed.

Lemma set_range_masks_ok masks start end_ v :
  Forall word_ok masks -> (start <= end_ <= 64 * length masks)%nat ->
  exists masks', set_range_value_masks masks start end_ v = Ok masks' /\
    becomes masks masks' (fun j => if in_range start end_ j then v else has masks j).
Proof.
  intros Hok [Hse He]. destruct (decide (start = end_)) as [->|Hne].
  { exists masks. unfold set_range_value_masks. rewrite Nat.eqb_refl. split; [done|].
    eapply becomes_ext; [by apply becomes_refl|]. intros j _. unfold in_range.
    destruct (Nat.leb_spec end_ j), (Nat.ltb_spec j end_); done || lia. }
  destruct (decide (start / 64 = end_ / 64)%nat) as [Hw|Hw]; [apply range_in_word; done || lia|apply range_over_words; [done..|]].
  pose proof (Nat.Div0.div_le_mono start end_ 64). lia.
Qed.

(** ** Searches, counts and iteration: the list of the bits *)

Definition bits_of (masks : list Z) : list nat := List.filter (has masks) (seq 0 (64 * length masks)).

(** The bits from [off] on, as the loops over the words see them. *)
Fixpoint indices (off : nat) (masks : list Z) : list nat :=
  match masks with
  | [] => []
  | m :: masks => map (Nat.add off) (word_bits m) ++ indices (off + 64) masks
  end.

Lemma filter_map_shift (P Q : nat -> bool) off a n :
  (forall k, (k < a + n)%nat -> P k = Q (off + k)%nat) -> map (Nat.add off) (List.filter P (seq a n)) = List.filter Q (seq (off + a) n).
Proof.
  revert a. induction n as [|n IH]; intros a H; cbn [seq List.filter map]; [done|].
  specialize (IH (S a)). rewrite Nat.add_succ_r in IH. rewrite (H a) by lia.
  destruct (Q (off + a)%nat); cbn [map]; rewrite IH by (intros; apply H; lia); done.
Qed.

Lemma indices_filter off masks (Q : nat -> bool) :
  (forall j, (j < 64 * length masks)%nat -> has masks j = Q (off + j)%nat) -> indices off masks = List.filter Q (seq off (64 * length masks)).
Proof.
  revert off. induction masks as [|m masks IH]; intros off H; [done|]. cbn [indices length].
  replace (64 * S (length masks))%nat with (64 + 64 * length masks)%nat by lia. rewrite seq_app, List.filter_app. f_equal.
  - unfold word_bits. replace off with (off + 0)%nat at 2 by lia. apply filter_map_shift. intros k Hk.
    rewrite <- H by (cbn [length]; lia). symmetry. rewrite <- (has_word (m :: masks) 0 m k) by (done || lia). done.
  - apply IH. intros j Hj. replace (off + 64 + j)%nat with (off + (64 + j))%nat by lia. rewrite <- H by (cbn [length]; lia).
    unfold has. replace (64 + j)%nat with (1 * 64 + j)%nat by lia. rewrite Nat.div_add_l, (Nat.add_comm _ j), Nat.Div0.mod_add by lia. done.
Qed.

Lemma indices_bits masks : indices 0 masks = bits_of masks.
Proof. by apply indices_filter. Qed.

Lemma words_count_ok masks : words_count masks = length (bits_of masks).
Proof.
  rewrite <- indices_bits. generalize 0%nat. induction masks as [|m masks IH]; intros off; cbn [indices]; [done|].
  rewrite length_app, length_map, <- IH. done.
Qed.

Lemma find_first_ok off masks : Forall word_ok masks -> find_first_from off masks = head (indices off masks).
Proof.
  revert off. induction masks as [|m masks IH]; intros off H; cbn [indices find_first_from]; [done|].
  apply list.Forall_cons in H as [Hm H]. destruct (Z.eqb_spec m 0) as [->|Hne]; [by rewrite IH|].
  unfold trailing_zeros. destruct (word_bits m) eqn:E; [|done]. by apply word_bits_nil in E.
Qed.

Lemma has_cons_low m masks j : (j < 64)%nat -> has (m :: masks) j = Z.testbit m (Z.of_nat j).
Proof. intros Hj. by rewrite <- (has_word (m :: masks) 0 m j). Qed.
Lemma has_cons_high m masks j : has (m :: masks) (64 + j) = has masks j.
Proof.
  unfold has. replace (64 + j)%nat with (1 * 64 + j)%nat by lia.
  by rewrite Nat.div_add_l, (Nat.add_comm _ j), Nat.Div0.mod_add by lia.
Qed.

Lemma becomes_cons m m' masks masks' (P : nat -> bool) :
  word_ok m' -> (forall k, (k < 64)%nat -> Z.testbit m' (Z.of_nat k) = P k) -> becomes masks masks' (fun j => P (64 + j)%nat) ->
  becomes (m :: masks) (m' :: masks') P.
Proof.
  intros Hm Hb [H1 H2 H3]. split; [cbn; congruence|by constructor|]. intros j Hj. destruct (decide (j < 64)%nat).
  - rewrite has_cons_low by done. by apply Hb.
  - replace j with (64 + (j - 64))%nat by lia. rewrite has_cons_high. apply H3. cbn [length] in Hj. lia.
Qed.

Lemma toggle_first_ok off masks :
  Forall word_ok masks ->
  exists masks', toggle_first_from off masks = (head (indices off masks), masks') /\
    becomes masks masks' (fun j => has masks j && negb (bool_decide (head (indices off masks) = Some (off + j)%nat))).
Proof.
  revert off. induction masks as [|m masks IH]; intros off H; cbn [indices toggle_first_from].
  { exists []. split; [done|]. split; [done|done|]. intros j Hj. cbn [length] in Hj. lia. }
  apply list.Forall_cons in H as [Hm H]. destruct (Z.eqb_spec m 0) as [->|Hne].
  - destruct (IH (off + 64)%nat H) as (ms' & -> & HB). cbn [word_bits map app]. exists (0 :: ms'). split; [done|].
    apply becomes_cons; [done| |].
    + intros k Hk. rewrite has_cons_low by done. by rewrite Z.bits_0.
    + eapply becomes_ext; [exact HB|]. intros j Hj. cbn beta. rewrite has_cons_high. do 3 f_equal. by rewrite Nat.add_assoc.
  - destruct (clear_lowest m Hm Hne) as [Hok Hbits]. eexists. split.
    { f_equal. unfold trailing_zeros. destruct (word_bits m) eqn:E; [|done]. by apply word_bits_nil in E. }
    assert (Hh : head (map (Nat.add off) (word_bits m) ++ indices (off + 64) masks) = Some (off + trailing_zeros m)%nat).
    { unfold trailing_zeros. destruct (word_bits m) eqn:E; [|done]. by apply word_bits_nil in E. }
    rewrite Hh. pose proof (trailing_zeros_lt m Hm Hne). apply becomes_cons; [done| |].
    + intros k Hk. rewrite has_cons_low, Hbits by done. destruct (Nat.eqb_spec k (trailing_zeros m)) as [->|Hk'].
      * by rewrite bool_decide_eq_true_2, andb_false_r.
      * rewrite bool_decide_eq_false_2, andb_true_r by (intros [= ?]; lia). done.
    + eapply becomes_ext; [by apply becomes_refl|]. intros j Hj. cbn beta. rewrite has_cons_high.
      rewrite bool_decide_eq_false_2, andb_true_r by (intros [= ?]; lia). done.
Qed.

(** ** The iterator *)

(** A word as the iterator shows it. *)
Definition raw_word (kind : bool) (m : Z) : Z := if kind then m else unot m.
Fixpoint shown (kind : bool) (last : Z) (masks : list Z) : list Z :=
  match masks with
  | [] => []
  | m :: masks => (if negb kind && (length masks =? 0)%nat then Z.land (unot m) last else raw_word kind m) :: shown kind last masks
  end.

(** What is left to visit. *)
Definition stream (kind fwd : bool) (it : BitSetIterator) : list nat :=
  let now := map (Nat.add (bit_offset it)) (word_bits (bits_remain it)) in
  if fwd then now ++ indices (bit_offset it + 64) (shown kind (last_word_mask it) (words_remain it))
  else rev (indices 0 (raw_word kind <$> words_remain it) ++ now).

Record iterator_ok (fwd : bool) (it : BitSetIterator) : Prop := {
  iterator_bits : word_ok (bits_remain it);
  iterator_words : Forall word_ok (words_remain it);
  iterator_last : word_ok (last_word_mask it);
  iterator_offset : fwd = false -> bit_offset it = (64 * length (words_remain it))%nat;
}.

Lemma word_ok_raw kind m : word_ok m -> word_ok (raw_word kind m).
Proof. intros. unfold raw_word. destruct kind; auto with words. Qed.
#[export] Hint Resolve word_ok_raw : words.

Lemma indices_app off a b : indices off (a ++ b) = indices off a ++ indices (off + 64 * length a) b.
Proof.
  revert off. induction a as [|m a IH]; intros off; cbn [app indices length]; [by rewrite Nat.add_0_r|].
  rewrite IH, app_assoc. by replace (off + 64 * S (length a))%nat with (off + 64 + 64 * length a)%nat by lia.
Qed.

Lemma word_bits_0 : word_bits 0 = [].
Proof. done. Qed.

#[local] Opaque word_bits.

(** The next word comes in. *)
Lemma shown_cons kind lm m ws : shown kind lm (m :: ws) = (if negb kind && (length ws =? 0)%nat then Z.land (unot m) lm else raw_word kind m) :: shown kind lm ws.
Proof. reflexivity. Qed.
Lemma indices_cons off m ms : indices off (m :: ms) = map (Nat.add off) (word_bits m) ++ indices (off + 64) ms.
Proof. reflexivity. Qed.
Lemma stream_fwd_eq kind b ws o lm : stream kind true (mkIterator b ws o lm) = map (Nat.add o) (word_bits b) ++ indices (o + 64) (shown kind lm ws).
Proof. reflexivity. Qed.
Lemma map_nil_app {A B} (f : A -> B) (l : list B) : map f [] ++ l = l.
Proof. reflexivity. Qed.
Lemma stream_fwd kind m ws o lm :
  stream kind true (mkIterator 0 (m :: ws) o lm) =
  stream kind true (mkIterator (if negb kind && (length ws =? 0)%nat then Z.land (unot m) lm else raw_word kind m) ws (o + 64) lm).
Proof. by rewrite !stream_fwd_eq, word_bits_0, shown_cons, indices_cons, map_nil_app. Qed.

Lemma stream_bwd kind m ws o lm :
  stream kind false (mkIterator 0 (ws ++ [m]) o lm) = stream kind false (mkIterator (raw_word kind m) ws (64 * length ws) lm).
Proof.
  unfold stream. cbn [bit_offset bits_remain words_remain]. f_equal. rewrite fmap_app, indices_app, length_fmap.
  rewrite word_bits_0. cbn [fmap list_fmap indices map]. by rewrite !app_nil_r, Nat.add_0_l.
Qed.

Lemma next_word_fwd kind b m ws o lm :
  next_word kind true false (mkIterator b (m :: ws) o lm) =
  Ok (mkIterator (if negb kind && (length ws =? 0)%nat then Z.land (unot m) lm else raw_word kind m) ws o lm).
Proof. unfold next_word. cbn. destruct kind; [done|]. cbn [negb]. by destruct ws. Qed.

Lemma next_word_bwd kind first b m ws o lm :
  next_word kind false first (mkIterator b (ws ++ [m]) o lm) =
  Ok (mkIterator (if negb kind && first then Z.land (unot m) lm else raw_word kind m) ws o lm).
Proof.
  unfold next_word. cbn [words_remain last_word_mask bit_offset]. rewrite length_app. cbn [length]. rewrite Nat.add_sub.
  rewrite (index_at_ok _ _ m) by (by rewrite lookup_app_r, Nat.sub_diag). rewrite take_app_length. cbn [mbind outcome_bind].
  by destruct kind, first.
Qed.

Lemma skip_words_ok kind fwd fuel it :
  iterator_ok fwd it -> (length (words_remain it) <= fuel)%nat ->
  exists r, skip_words kind fwd fuel it = Ok r /\
    match r with
    | None => stream kind fwd it = []
    | Some it' => iterator_ok fwd it' /\ bits_remain it' <> 0 /\ stream kind fwd it' = stream kind fwd it
    end.
Proof.
  revert it. induction fuel as [|fuel IH]; intros [b ws o lm] [Hb Hws Hlm Ho] Hf; cbn [bits_remain words_remain bit_offset last_word_mask] in *;
    cbn [skip_words bits_remain words_remain bit_offset last_word_mask];
    (destruct (Z.eqb_spec b 0) as [->|Hne]; cbn [negb]; [|by eexists]);
    (destruct (decide (ws = [])) as [->|Hnil]; [cbn [length Nat.eqb]; eexists; split; [done|]; by destruct fwd|]).
  { destruct ws; [done|cbn [length] in Hf; lia]. }
  rewrite (proj2 (Nat.eqb_neq (length ws) 0%nat)) by (by destruct ws).
  assert (Hgo : forall it', iterator_ok fwd it' -> (length (words_remain it') <= fuel)%nat -> stream kind fwd (mkIterator 0 ws o lm) = stream kind fwd it' ->
    exists r, skip_words kind fwd fuel it' = Ok r /\
      match r with
      | None => stream kind fwd (mkIterator 0 ws o lm) = []
      | Some it'' => iterator_ok fwd it'' /\ bits_remain it'' <> 0 /\ stream kind fwd it'' = stream kind fwd (mkIterator 0 ws o lm)
      end).
  { intros it' Hok Hl ->. by apply IH. }
  destruct fwd.
  - destruct ws as [|m ws]; [done|]. apply list.Forall_cons in Hws as [Hm Hws]. rewrite next_word_fwd. cbn [mbind outcome_bind].
    apply Hgo; [|cbn in *; lia|apply stream_fwd]. split; try done. cbn. destruct kind, (length ws =? 0)%nat; cbn; auto with words.
  - destruct (exists_last Hnil) as (ws' & m & ->). apply Forall_app in Hws as [Hws Hm]. apply list.Forall_cons in Hm as [Hm _].
    rewrite next_word_bwd. specialize (Ho eq_refl). rewrite length_app in Ho, Hf. cbn [length] in Ho, Hf. cbn [mbind outcome_bind bits_remain words_remain bit_offset last_word_mask].
    rewrite andb_false_r, (proj2 (Nat.ltb_ge o 64)) by lia. replace (o - 64)%nat with (64 * length ws')%nat by lia.
    apply Hgo; [|cbn; lia|apply stream_bwd]. split; try done. cbn. auto with words.
Qed.

Lemma iterator_next_ok kind fwd it :
  iterator_ok fwd it ->
  exists r, iterator_next kind fwd it = Ok r /\
    match r with
    | None => stream kind fwd it = []
    | Some (i, it') => iterator_ok fwd it' /\ stream kind fwd it = i :: stream kind fwd it'
    end.
Proof.
  intros Hok. unfold iterator_next. destruct (skip_words_ok kind fwd _ it Hok (le_n _)) as (r & -> & Hr). cbn [mbind outcome_bind].
  destruct r as [[b ws o lm]|]; [|by eexists]. destruct Hr as ([Hb Hws Hlm Ho] & Hne & <-). cbn [bits_remain words_remain bit_offset last_word_mask] in *.
  assert (Hnil : word_bits b <> []) by (intros E; by apply word_bits_nil in E). destruct fwd.
  - destruct (word_bits b) as [|k l] eqn:E; [done|]. destruct (iter_next_fwd b k l Hb E) as (y & Hn & Hy & Hl).
    unfold iter_next in Hn. rewrite (proj2 (Z.eqb_neq b 0)) in Hn by done. injection Hn as Hk Hy'.
    eexists. split; [done|]. cbn beta iota. rewrite Hy'. split; [done|]. unfold stream. cbn [bits_remain words_remain bit_offset last_word_mask].
    rewrite E, Hl, Hk. cbn [map app]. by rewrite Nat.add_comm.
  - destruct (exists_last Hnil) as (l & k & E). destruct (iter_next_bwd b k l Hb E) as (y & Hn & Hy & Hl).
    unfold iter_next in Hn. rewrite (proj2 (Z.eqb_neq b 0)) in Hn by done. injection Hn as Hk Hy'.
    eexists. split; [done|]. cbn beta iota. rewrite Hk in *. rewrite Hy'. split; [done|]. unfold stream. cbn [bits_remain words_remain bit_offset last_word_mask].
    rewrite E, Hl, map_app, app_assoc. cbn [map]. by rewrite rev_app_distr, Nat.add_comm.
Qed.

Lemma iterate_ok kind fwd fuel it :
  iterator_ok fwd it -> (length (stream kind fwd it) <= fuel)%nat -> iterate kind fwd fuel it = Ok (stream kind fwd it).
Proof.
  revert it. induction fuel as [|fuel IH]; intros it Hok Hf; cbn [iterate];
    destruct (iterator_next_ok kind fwd it Hok) as (r & -> & Hr); cbn [mbind outcome_bind]; (destruct r as [[i it']|]; [|by rewrite Hr]);
    destruct Hr as [Hok' Hs]; rewrite Hs in *; cbn [length] in Hf; [lia|].
  rewrite IH by (done || lia). done.
Qed.

(** What a loop over a fresh iterator sees. *)
Lemma iterator_init_ok kind fwd masks lm :
  Forall word_ok masks -> word_ok lm ->
  exists it, iterator_init kind fwd masks lm = Ok it /\ iterator_ok fwd it /\
    stream kind fwd it = (if fwd then id else rev (A := nat)) (bits_of (shown kind lm masks)).
Proof.
  intros Hok Hlm. rewrite <- indices_bits. unfold iterator_init. destruct (Nat.eqb_spec (length masks) 0) as [E|E].
  { destruct masks; [|done]. eexists. split; [done|]. split; [by split|]. by destruct fwd. }
  destruct fwd.
  - destruct masks as [|m ms]; [done|]. apply list.Forall_cons in Hok as [Hm Hok].
    assert (Hn : next_word kind true true (mkIterator 0 (m :: ms) 0 lm) = next_word kind true false (mkIterator 0 (m :: ms) 0 lm))
      by (unfold next_word; by rewrite !andb_false_l).
    rewrite Hn, next_word_fwd. eexists. split; [done|]. split.
    + split; try done. cbn. destruct kind, (length ms =? 0)%nat; cbn; auto with words.
    + unfold stream. cbn. done.
  - assert (Hnil : masks <> []) by (by destruct masks). destruct (exists_last Hnil) as (ws & m & ->). apply Forall_app in Hok as [Hok Hm]. apply list.Forall_cons in Hm as [Hm _].
    rewrite next_word_bwd, length_app. cbn [length]. rewrite Nat.add_sub. eexists. split; [done|]. split.
    + split; cbn [bits_remain words_remain bit_offset last_word_mask]; [destruct kind; cbn [negb andb]; auto with words|done|done|intros _; lia].
    + unfold stream. cbn [bit_offset bits_remain words_remain]. f_equal.
      assert (Hsh : shown kind lm (ws ++ [m]) = (raw_word kind <$> ws) ++ [if negb kind && true then Z.land (unot m) lm else raw_word kind m]).
      { clear. induction ws as [|x ws IH]; [done|]. cbn [app shown fmap list_fmap]. rewrite IH, length_app. cbn [length].
        rewrite (proj2 (Nat.eqb_neq (length ws + 1) 0%nat)), andb_false_r by lia. done. }
      rewrite Hsh, indices_app, length_fmap. cbn [indices]. rewrite app_nil_r, Nat.add_0_l. by rewrite Nat.mul_comm.
Qed.

#[local] Transparent word_bits.
