(* ===== verification/DynamicBitSet.v ===== *)
(** * The sets of the multi-word bit sets

    What [MultiBitSet] models, held against finite sets: the memory of [DynamicBitSetUnmanaged] through every
    operation, a machine of many such sets, [DynamicBitSet::copy_into], [AutoBitSet] and [DynamicBitSetList]. *)

From stdpp Require Import gmap.
From S2P Require Import Prelude Wyhash4 BitSet MultiBitSet.

(** ** Words that hold a set of indices below [n] *)

Record words_hold (n : nat) (masks : list Z) (X : gset nat) : Prop := {
  hold_length : length masks = num_masks_for n;
  hold_words : Forall word_ok masks;
  hold_bits : forall j, has masks j = bool_decide (j ∈ X);
  hold_below : forall j, j ∈ X -> (j < n)%nat;
}.

(** The elements in order. *)
Definition elements_below (n : nat) (X : gset nat) : list nat := List.filter (fun i => bool_decide (i ∈ X)) (seq 0 n).

Lemma hold_index n masks X j : words_hold n masks X -> (j < n)%nat -> (j < 64 * length masks)%nat.
Proof. intros [Hl _ _ _] Hj. rewrite Hl. pose proof (num_masks_bounds n). lia. Qed.

Lemma hold_bits_of n masks X : words_hold n masks X -> bits_of masks = elements_below n X.
Proof.
  intros [Hl Hw Hb Hn]. unfold bits_of, elements_below. pose proof (num_masks_bounds n). rewrite Hl.
  replace (64 * num_masks_for n)%nat with (n + (64 * num_masks_for n - n))%nat by lia. rewrite seq_app, List.filter_app.
  rewrite (List.filter_ext_in (has masks) (fun i => bool_decide (i ∈ X))) by (intros; apply Hb).
  rewrite (List.filter_ext_in (has masks) (fun _ => false)).
  - assert (E : forall l : list nat, List.filter (fun _ => false) l = []) by (by induction l).
    by rewrite E, app_nil_r.
  - intros j Hj. apply in_seq in Hj. rewrite Hb. apply bool_decide_eq_false. intros Hx. apply Hn in Hx. lia.
Qed.

(** What the new words hold. *)
Lemma hold_becomes n masks X masks' P Y :
  words_hold n masks X -> becomes masks masks' P ->
  (forall j, (j < 64 * length masks)%nat -> P j = bool_decide (j ∈ Y)) -> (forall j, j ∈ Y -> (j < n)%nat) -> words_hold n masks' Y.
Proof.
  intros HX [Hl Hw Hb] HP HY. split; [rewrite Hl; apply HX|done| |done]. intros j. destruct (decide (j < 64 * length masks)%nat) as [Hj|Hj].
  - by rewrite Hb, HP.
  - rewrite has_above by lia. symmetry. apply bool_decide_eq_false. intros Hx. apply HY in Hx.
    by pose proof (hold_index _ _ _ _ HX Hx).
Qed.

Lemma hold_inj n a b X : words_hold n a X -> words_hold n b X -> a = b.
Proof.
  intros [La Wa Ba _] [Lb Wb Bb _]. apply words_ext; [done|done|congruence|]. intros j _. by rewrite Ba, Bb.
Qed.

Lemma hold_last_ok n : word_ok (last_item_mask n).
Proof. apply word_ok_last. Qed.

(** ** The memory of a dynamic set *)

Lemma read_words_app (ws : list Z) tail : read_words (length ws) ((Some <$> ws) ++ tail) = Ok ws.
Proof. induction ws as [|w ws IH]; [done|]. cbn [length fmap list_fmap app read_words]. by rewrite IH. Qed.

Lemma read_words_inv n m (ws : list Z) : read_words n m = Ok ws -> length ws = n /\ m = (Some <$> ws) ++ drop n m.
Proof.
  revert m ws. induction n as [|n IH]; intros m ws; cbn [read_words]; [by intros [= <-]|].
  destruct m as [|[w|] m]; [done| |done]. intros H. apply outcome_bind_Ok in H as (l & Hl & [= <-]).
  apply IH in Hl as [Hl Hm]. cbn [length fmap list_fmap app drop]. split; [by rewrite Hl|]. by rewrite <- Hm.
Qed.

Lemma read_words_take n k m (ws : list Z) : read_words n m = Ok ws -> (k <= n)%nat -> read_words k m = Ok (take k ws).
Proof.
  intros H Hk. apply read_words_inv in H as [Hl Hm]. rewrite Hm, <- (take_drop k ws), fmap_app, <- app_assoc.
  rewrite <- (length_take_le ws k) at 1 by lia. rewrite read_words_app, take_app_le, take_take, Nat.min_id by (rewrite length_take; lia). done.
Qed.

Lemma with_masks_ok s masks :
  length masks = num_masks_for (bit_length s) -> (num_masks_for (bit_length s) <= length (mem s))%nat ->
  masks_slice (with_masks s masks) = Ok masks /\ length (mem (with_masks s masks)) = length (mem s).
Proof.
  intros Hl Hm. split.
  - unfold masks_slice, with_masks. cbn [bit_length mem]. by rewrite <- Hl, read_words_app.
  - unfold with_masks. cbn [mem]. rewrite length_app, length_fmap, length_drop. lia.
Qed.

Lemma masks_slice_length s masks : masks_slice s = Ok masks -> length masks = num_masks_for (bit_length s) /\ (num_masks_for (bit_length s) <= length (mem s))%nat.
Proof.
  intros H. apply read_words_inv in H as [Hl Hm]. split; [done|]. rewrite Hm, length_app, length_fmap. lia.
Qed.

(** The words of a set after an update, the allocation staying as it is. *)
Definition updated (s s' : DynamicBitSetUnmanaged) (masks' : list Z) : Prop :=
  masks_slice s' = Ok masks' /\ bit_length s' = bit_length s /\ alloc_len s' = alloc_len s /\ length (mem s') = length (mem s).

Lemma updated_with s masks masks' :
  masks_slice s = Ok masks -> length masks' = length masks -> updated s (with_masks s masks') masks'.
Proof.
  intros Hs Hl. destruct (masks_slice_length _ _ Hs) as [Hl' Hm]. destruct (with_masks_ok s masks') as [H1 H2]; [congruence|done|].
  by split_and!.
Qed.

Lemma updated_trans s s1 s2 m1 m2 : updated s s1 m1 -> updated s1 s2 m2 -> updated s s2 m2.
Proof. intros (H1 & H2 & H3 & H4) (H5 & H6 & H7 & H8). split_and!; congruence. Qed.

Lemma dyn_update_ok s masks f masks' :
  masks_slice s = Ok masks -> f masks = Ok masks' -> length masks' = length masks -> exists s', dyn_update s f = Ok s' /\ updated s s' masks'.
Proof.
  intros Hs Hf Hl. exists (with_masks s masks'). unfold dyn_update. rewrite Hs. cbn [mbind outcome_bind]. rewrite Hf. cbn [mbind outcome_bind].
  split; [done|]. by eapply updated_with.
Qed.

Lemma poke_ok (ws : list Z) tail i f w :
  ws !! i = Some w -> poke ((Some <$> ws) ++ tail) i f = Ok ((Some <$> <[i := f w]> ws) ++ tail).
Proof.
  intros Hw. unfold poke. pose proof (lookup_lt_Some _ _ _ Hw). rewrite lookup_app_l, list_lookup_fmap, Hw by (by rewrite length_fmap). cbn.
  by rewrite insert_app_l, list_fmap_insert by (by rewrite length_fmap).
Qed.

Lemma poke_update (ws ws' : list Z) tail i f :
  update_word ws i f = Ok ws' -> poke ((Some <$> ws) ++ tail) i f = Ok ((Some <$> ws') ++ tail).
Proof.
  unfold update_word, index_at. destruct (ws !! i) as [w|] eqn:E; [|done]. cbn. intros [= <-]. by apply poke_ok.
Qed.

(** The words of [src] are read in the order they are combined. *)
Lemma zip_loop_ok n i (a b : list Z) ta src f :
  length a = (i + n)%nat -> read_words (i + n) src = Ok b ->
  zip_loop n i ((Some <$> a) ++ ta) src f = Ok ((Some <$> (take i a ++ zip_with f (drop i a) (drop i b))) ++ ta).
Proof.
  revert i a. induction n as [|n IH]; intros i a Ha Hb; cbn [zip_loop].
  { rewrite !drop_ge, take_ge by (rewrite ?Ha; apply read_words_inv in Hb as [? _]; lia). cbn. by rewrite app_nil_r. }
  destruct (read_words_inv _ _ _ Hb) as [Hlb Hsrc]. destruct (lookup_lt_is_Some_2 a i) as [x Hx]; [lia|]. destruct (lookup_lt_is_Some_2 b i) as [y Hy]; [lia|].
  assert (Hs : src !! i = Some (Some y)) by (rewrite Hsrc, lookup_app_l, list_lookup_fmap, Hy by (rewrite length_fmap; lia); done).
  rewrite Hs, (poke_ok a ta i _ x Hx). cbn [mbind outcome_bind]. rewrite (IH (i + 1)%nat); [|rewrite length_insert; lia|by replace (i + 1 + n)%nat with (i + S n)%nat by lia].
  do 3 f_equal. rewrite (drop_S _ _ _ Hx), (drop_S _ _ _ Hy). replace (S i) with (i + 1)%nat by lia. cbn [zip_with].
  rewrite drop_insert_lt by lia. replace (i + 1)%nat with (S i) at 1 by lia. rewrite (take_S_r _ _ (f x y)) by (apply list_lookup_insert_eq; lia).
  rewrite take_insert_ge by lia. by rewrite <- app_assoc.
Qed.

Lemma zip_masks_eq s other f (a b : list Z) :
  masks_slice s = Ok a -> read_words (num_masks_for (bit_length s)) (mem other) = Ok b ->
  zip_masks_raw s other f = Ok (with_masks s (zip_with f a b)).
Proof.
  intros Ha Hb. destruct (read_words_inv _ _ _ Ha) as [Hla Hma], (read_words_inv _ _ _ Hb) as [Hlb _].
  unfold zip_masks_raw. rewrite Hma at 1. rewrite (zip_loop_ok _ 0 a b) by done. cbn [mbind outcome_bind]. unfold with_masks.
  rewrite !drop_0, take_0. assert (Hz : length (zip_with f a b) = length a) by (rewrite length_zip_with; lia). by rewrite Hz, Hla.
Qed.

Lemma zip_masks_ok s other f (a b : list Z) :
  masks_slice s = Ok a -> read_words (num_masks_for (bit_length s)) (mem other) = Ok b ->
  exists s', zip_masks_raw s other f = Ok s' /\ updated s s' (zip_with f a b).
Proof.
  intros Ha Hb. exists (with_masks s (zip_with f a b)). split; [by apply zip_masks_eq|].
  destruct (read_words_inv _ _ _ Ha) as [Hla _], (read_words_inv _ _ _ Hb) as [Hlb _]. eapply updated_with; [done|]. rewrite length_zip_with. lia.
Qed.

(** ** Resizing *)

(** The allocation is the static one, or it is as long as its header says. *)
Definition mem_ok (s : DynamicBitSetUnmanaged) : Prop :=
  (alloc_len s = 0%nat /\ bit_length s = 0%nat) \/ alloc_len s = S (length (mem s)).

Record dyn_ok (s : DynamicBitSetUnmanaged) (n : nat) (X : gset nat) : Prop := {
  dyn_length : bit_length s = n;
  dyn_mem : mem_ok s;
  dyn_words : exists masks, masks_slice s = Ok masks /\ words_hold n masks X;
}.

Definition resized (n m : nat) (fill : bool) (X : gset nat) : gset nat :=
  filter (fun i => i < m)%nat X ∪ (if fill then set_seq n (m - n) else ∅).

Lemma has_app a b j : (j < 64 * length a)%nat -> has (a ++ b) j = has a j.
Proof. intros Hj. unfold has. by rewrite lookup_app_l by (by apply index_word). Qed.

Lemma has_app_replicate a k v j :
  (64 * length a <= j < 64 * (length a + k))%nat -> has (a ++ replicate k (bool_mask_usize v)) j = v.
Proof.
  intros [H1 H2]. apply index_word in H2. pose proof (Nat.div_mod_eq j 64). pose proof (mod_lt_64 j). unfold has.
  rewrite lookup_app_r by lia. rewrite lookup_replicate_2 by lia. apply bool_mask_testbit. lia.
Qed.

Lemma has_take a k j : (j < 64 * k)%nat -> has (take k a) j = has a j.
Proof. intros Hj. unfold has. by rewrite lookup_take_lt by (by apply index_word). Qed.

Lemma read_words_prefix k j m tail (ws : list Z) : read_words k m = Ok ws -> (k <= j)%nat -> read_words k (take j m ++ tail) = Ok ws.
Proof.
  intros H Hk. apply read_words_inv in H as [Hl Hm]. rewrite Hm, take_app_ge by (rewrite length_fmap; lia).
  rewrite <- app_assoc, <- Hl. apply read_words_app.
Qed.

(** The memory of the new length. *)
Lemma realloc_ok oom s n X m :
  dyn_ok s n X -> (0 < num_masks_for m)%nat ->
  let k := Nat.min (num_masks_for n) (num_masks_for m) in
  match
    (if (alloc_len s =? num_masks_for m + 1)%nat then Some (alloc_len s, mem s)
     else
       match dyn_realloc oom (alloc_len s) (mem s) (num_masks_for m + 1) with
       | None => if (alloc_len s <? num_masks_for m + 1)%nat then None else Some (alloc_len s, mem s)
       | Some new => Some ((num_masks_for m + 1)%nat, new)
       end)
  with
  | None => oom = true /\ (alloc_len s < num_masks_for m + 1)%nat
  | Some (alloc, new) => alloc = S (length new) /\ (num_masks_for m <= length new)%nat /\ read_words k new = read_words k (mem s)
  end.
Proof.
  intros [Hn Hmem (ms & Hms & _)] Hm k. unfold masks_slice in Hms. rewrite Hn in Hms.
  assert (Hk : exists ws, read_words k (mem s) = Ok ws) by (eexists; eapply read_words_take; [exact Hms|lia]). destruct Hk as [ws Hws].
  destruct Hmem as [[Hal Hb0]|Hal].
  - rewrite !Hal. rewrite (proj2 (Nat.eqb_neq 0 (num_masks_for m + 1))) by lia. unfold dyn_realloc.
    assert (Hk0 : k = 0%nat) by (subst k; by rewrite <- Hn, Hb0). destruct oom; [rewrite (proj2 (Nat.ltb_lt 0 _)) by lia; split; [done|lia]|].
    rewrite Hk0. cbn [Nat.eqb app length]. rewrite length_replicate. split_and!; [lia|lia|done].
  - destruct (Nat.eqb_spec (alloc_len s) (num_masks_for m + 1)) as [E|E]; [split_and!; [done|lia|done]|]. unfold dyn_realloc.
    destruct oom; [destruct (Nat.ltb_spec (alloc_len s) (num_masks_for m + 1)); [done|split_and!; [done|lia|done]]|].
    rewrite (proj2 (Nat.eqb_neq (alloc_len s) 0)) by lia. rewrite !length_app, length_replicate, length_take, Nat.add_sub.
    split_and!; [lia|lia|]. rewrite Hws. apply read_words_prefix; [done|lia].
Qed.

(** The words once the new ones are filled in, the last not masked yet. *)
Lemma grow_words_ok ms n X m fill mem0 :
  words_hold n ms X -> (n < m)%nat -> read_words (num_masks_for n) mem0 = Ok ms -> (num_masks_for m <= length mem0)%nat ->
  exists ws tail,
    (m0 ← (if (fill && (0 <? num_masks_for n)%nat : bool) then
             poke mem0 (num_masks_for n - 1) (fun x => Z.lor x (unot (ushr U64_MAX (num_masks_for n * 64 - n))))
           else Ok mem0);
     if (num_masks_for n <? num_masks_for m)%nat then
       if (length m0 <? num_masks_for m)%nat then Panic
       else Ok (take (num_masks_for n) m0 ++ replicate (num_masks_for m - num_masks_for n) (Some (bool_mask_usize fill)) ++ drop (num_masks_for m) m0)
     else Ok m0) = Ok ((Some <$> ws) ++ tail) /\
    length ((Some <$> ws) ++ tail) = length mem0 /\ length ws = num_masks_for m /\ Forall word_ok ws /\
    forall j, (j < 64 * num_masks_for m)%nat -> has ws j = has ms j || (fill && (n <=? j)%nat).
Proof.
  intros HX Hnm Hr Hlen. destruct (read_words_inv _ _ _ Hr) as [Hl Hm0]. pose proof (num_masks_bounds n) as Bn. pose proof (num_masks_bounds m) as Bm.
  assert (Hmono : (num_masks_for n <= num_masks_for m)%nat) by (unfold num_masks_for; apply Nat.Div0.div_le_mono; lia).
  set (t := drop (num_masks_for n) mem0) in *.
  assert (Hpad : exists ms1, (if (fill && (0 <? num_masks_for n)%nat : bool) then
             poke mem0 (num_masks_for n - 1) (fun x => Z.lor x (unot (ushr U64_MAX (num_masks_for n * 64 - n))))
           else Ok mem0) = Ok ((Some <$> ms1) ++ t) /\ becomes ms ms1 (fun j => has ms j || (fill && (n <=? j)%nat))).
  { destruct HX as [_ Hw Hb _]. destruct fill; cbn [andb].
    2:{ exists ms. split; [by rewrite Hm0 at 1|]. eapply becomes_ext; [by apply becomes_refl|]. intros. by rewrite orb_false_r. }
    destruct (Nat.ltb_spec 0 (num_masks_for n)) as [Hpos|Hz].
    2:{ exists ms. split; [by rewrite Hm0 at 1|]. split; [done|done|]. intros j Hj. lia. }
    assert (Hup : exists ms1, update_word ms (num_masks_for n - 1) (fun x => Z.lor x (unot (last_item_mask n))) = Ok ms1 /\
              becomes ms ms1 (fun j => has ms j || (n <=? j)%nat)).
    { apply update_word_becomes; [done|lia|auto with words| |].
      - intros x k Hx Hxok Hk. rewrite Z.lor_spec, unot_testbit, last_item_mask_testbit, (has_word ms _ x k Hx Hk) by lia. f_equal.
        by rewrite Nat.leb_antisym.
      - intros j Hj Hne. rewrite (proj2 (Nat.leb_gt n j)), orb_false_r; [done|]. pose proof (Nat.div_mod_eq j 64). pose proof (mod_lt_64 j).
        rewrite Hl in Hj. apply index_word in Hj. lia. }
    destruct Hup as (ms1 & Hup & HB). exists ms1. split; [|exact HB]. rewrite Hm0 at 1. by apply poke_update. }
  destruct Hpad as (ms1 & -> & [L1 W1 H1]). cbn [mbind outcome_bind].
  assert (Ht : length mem0 = (length ms + length t)%nat) by (rewrite Hm0, length_app, length_fmap; done).
  destruct (Nat.ltb_spec (num_masks_for n) (num_masks_for m)) as [Hlt|Hge].
  - rewrite length_app, length_fmap. rewrite (proj2 (Nat.ltb_ge _ _)) by lia.
    exists (ms1 ++ replicate (num_masks_for m - num_masks_for n) (bool_mask_usize fill)), (drop (num_masks_for m - num_masks_for n) t).
    rewrite take_app_length' by (rewrite length_fmap; lia). rewrite fmap_app, fmap_replicate. split_and!.
    + rewrite <- app_assoc. do 3 f_equal. rewrite drop_app_ge by (rewrite length_fmap; lia). f_equal. rewrite length_fmap. lia.
    + rewrite !length_app, length_fmap, length_replicate, length_drop. lia.
    + rewrite length_app, length_replicate. lia.
    + apply Forall_app_2; [done|]. apply Forall_replicate, word_ok_bool_mask.
    + intros j Hj. destruct (decide (j < 64 * length ms1)%nat).
      * rewrite has_app by done. apply H1. lia.
      * rewrite has_app_replicate by lia. rewrite (has_above ms) by lia. rewrite (proj2 (Nat.leb_le n j)) by lia. by rewrite andb_true_r.
  - exists ms1, t. split_and!; [done|rewrite length_app, length_fmap; lia|lia|done|]. intros j Hj. apply H1. lia.
Qed.

Lemma resize_ok oom s n X m fill :
  dyn_ok s n X ->
  exists ok s', resize oom s m fill = Ok (ok, s') /\
    if ok : bool then dyn_ok s' m (resized n m fill X) else s' = s /\ oom = true.
Proof.
  intros Hs. pose proof (num_masks_bounds m) as Bm. unfold resize. pose proof (dyn_length _ _ _ Hs) as Hn. rewrite Hn.
  destruct (dyn_words _ _ _ Hs) as (ms & Hms & HX). unfold masks_slice in Hms. rewrite Hn in Hms.
  destruct (Nat.eqb_spec (num_masks_for m) 0) as [Em|Em].
  { exists true, dyn_default. split; [done|]. assert (m = 0%nat) as -> by lia. split; [done|by left|]. exists []. split; [done|].
    split; [done|done| |]; intros j; unfold resized; [symmetry; apply bool_decide_eq_false|]; destruct fill; rewrite elem_of_union, elem_of_filter, ?elem_of_set_seq; set_solver by lia. }
  pose proof (realloc_ok oom s n X m Hs ltac:(lia)) as Hre. cbn zeta in Hre.
  match goal with |- context [match ?x with Some _ => _ | None => _ end] => destruct x as [[alloc mem0]|] end.
  2:{ exists false, s. by destruct Hre. }
  destruct Hre as (Halloc & Hlen & Hread).
  assert (Hmid : exists ws tail,
    (if (n <? m)%nat then
       m0 ← (if (fill && (0 <? num_masks_for n)%nat : bool) then
               poke mem0 (num_masks_for n - 1) (fun x => Z.lor x (unot (ushr U64_MAX (num_masks_for n * 64 - n)))) else Ok mem0);
       if (num_masks_for n <? num_masks_for m)%nat then
         if (length m0 <? num_masks_for m)%nat then Panic
         else Ok (take (num_masks_for n) m0 ++ replicate (num_masks_for m - num_masks_for n) (Some (bool_mask_usize fill)) ++ drop (num_masks_for m) m0)
       else Ok m0
     else Ok mem0) = Ok ((Some <$> ws) ++ tail) /\
    length ((Some <$> ws) ++ tail) = length mem0 /\ length ws = num_masks_for m /\ Forall word_ok ws /\
    forall j, (j < 64 * num_masks_for m)%nat -> has ws j = has ms j || (fill && (n <=? j)%nat && (n <? m)%nat)).
  { destruct (Nat.ltb_spec n m) as [Hlt|Hge].
    - assert (Hmono : (num_masks_for n <= num_masks_for m)%nat) by (unfold num_masks_for; apply Nat.Div0.div_le_mono; lia).
      rewrite Nat.min_l, Hms in Hread by lia. destruct (grow_words_ok ms n X m fill mem0 HX Hlt Hread Hlen) as (ws & tail & E & H1 & H2 & H3 & H4).
      exists ws, tail. split_and!; [exact E|done|done|done|]. intros j Hj. rewrite H4 by done. by rewrite andb_true_r.
    - assert (Hmono : (num_masks_for m <= num_masks_for n)%nat) by (unfold num_masks_for; apply Nat.Div0.div_le_mono; lia).
      rewrite Nat.min_r, (read_words_take _ _ _ _ Hms Hmono) in Hread by lia. destruct (read_words_inv _ _ _ Hread) as [Hl Hm0].
      exists (take (num_masks_for m) ms), (drop (num_masks_for m) mem0). rewrite <- Hm0. split_and!; [done|done|done|apply Forall_take, HX|].
      intros j Hj. rewrite has_take by done. by rewrite andb_false_r, orb_false_r. }
  destruct Hmid as (ws & tail & -> & Hltot & Hlws & Hok & Hbits). cbn [mbind outcome_bind].
  rewrite (proj2 (Nat.ltb_lt 0 m)) by lia. destruct (clear_padding_ok ws m Hok ltac:(lia) Hlws) as (ws' & Hcp & [L W B]).
  rewrite (poke_update _ _ tail _ _ Hcp). cbn [mbind outcome_bind]. eexists true, _. split; [done|].
  split; [done|right; cbn [alloc_len mem]; rewrite length_app, length_fmap in *; lia|]. exists ws'. split.
  { unfold masks_slice. cbn [bit_length mem]. by rewrite <- Hlws, <- L, read_words_app. }
  assert (Hin : forall j, j ∈ resized n m fill X <-> (j ∈ X /\ (j < m)%nat) \/ (fill = true /\ (n <= j < m)%nat)).
  { intros j. unfold resized. destruct fill; rewrite elem_of_union, elem_of_filter, ?elem_of_set_seq; set_solver by lia. }
  split; [congruence|done| |intros j; rewrite Hin; lia].
  intros j. destruct (decide (j < 64 * num_masks_for m)%nat) as [Hj|Hj].
  - rewrite B, Hbits by lia. destruct HX as [_ _ HXb HXn]. rewrite HXb. apply eq_true_iff_eq. rewrite bool_decide_eq_true, Hin.
    rewrite andb_true_iff, orb_true_iff, !andb_true_iff, bool_decide_eq_true, Nat.leb_le, !Nat.ltb_lt. split; [|naive_solver lia].
    intros [[?|[[? ?] ?]] ?]; [by left|right; by split].
  - rewrite has_above by lia. symmetry. apply bool_decide_eq_false. rewrite Hin. lia.
Qed.

(** ** The operations on a set *)

(** Decides a membership, the bits of the words being known. *)
Ltac member :=
  repeat match goal with
  | |- context [if ?b then _ else _] => destruct b eqn:?
  | H : (_ =? _)%nat = true |- _ => apply Nat.eqb_eq in H
  | H : (_ =? _)%nat = false |- _ => apply Nat.eqb_neq in H
  | H : in_range _ _ _ = true |- _ => apply andb_true_iff in H as [?%Nat.leb_le ?%Nat.ltb_lt]
  | H : in_range _ _ _ = false |- _ => apply andb_false_iff in H; rewrite Nat.leb_gt, Nat.ltb_ge in H
  end;
  apply eq_true_iff_eq;
  rewrite ?andb_true_iff, ?orb_true_iff, ?negb_true_iff, ?bool_decide_eq_true, ?bool_decide_eq_false, ?Nat.ltb_lt;
  rewrite ?elem_of_union, ?elem_of_intersection, ?elem_of_difference, ?elem_of_singleton, ?elem_of_set_seq.

Lemma dyn_ok_updated s s' n X ms ms' P Y :
  dyn_ok s n X -> masks_slice s = Ok ms -> words_hold n ms X -> updated s s' ms' -> becomes ms ms' P ->
  (forall j, (j < 64 * length ms)%nat -> P j = bool_decide (j ∈ Y)) -> (forall j, j ∈ Y -> (j < n)%nat) -> dyn_ok s' n Y.
Proof.
  intros [Hn Hmem _] Hms HX (Hms' & Hb & Ha & Hl) HB HP HY. split; [congruence| |exists ms'; split; [done|by eapply hold_becomes]].
  destruct Hmem as [[H1 H2]|H1]; [left; split; congruence|right; congruence].
Qed.

(** An operation on the words of a set. *)
Lemma dyn_update_set s n X f P Y :
  dyn_ok s n X ->
  (forall ms, words_hold n ms X -> exists ms', f ms = Ok ms' /\ becomes ms ms' P) ->
  (forall j, P j = bool_decide (j ∈ Y)) -> (forall j, j ∈ Y -> (j < n)%nat) ->
  exists s', dyn_update s f = Ok s' /\ dyn_ok s' n Y.
Proof.
  intros Hs Hf HP HY. destruct (dyn_words _ _ _ Hs) as (ms & Hms & HX). destruct (Hf ms HX) as (ms' & Hf' & HB).
  destruct (dyn_update_ok s ms f ms' Hms Hf' (becomes_length _ _ _ HB)) as (s' & E & Hu). exists s'. split; [done|].
  eapply dyn_ok_updated; eauto.
Qed.

Section dyn_ops.
Context (s : DynamicBitSetUnmanaged) (n : nat) (X : gset nat) (Hs : dyn_ok s n X).

Lemma dyn_below j : j ∈ X -> (j < n)%nat.
Proof. destruct (dyn_words _ _ _ Hs) as (ms & _ & HX). apply HX. Qed.

Lemma dyn_masks : exists ms, masks_slice s = Ok ms /\ words_hold n ms X.
Proof. apply (dyn_words _ _ _ Hs). Qed.

Lemma dyn_set_value_ok i v :
  (i < n)%nat -> exists s', dyn_set_value s i v = Ok s' /\ dyn_ok s' n (if v then X ∪ {[i]} else X ∖ {[i]}).
Proof.
  intros Hi. pose proof dyn_below as HX. apply (dyn_update_set s n X _ (fun j => if (j =? i)%nat then v else bool_decide (j ∈ X))); [done| | |].
  - intros ms Hm. destruct (words_set_value_ok ms i (hold_words _ _ _ Hm) (hold_index _ _ _ _ Hm Hi) v) as (ms' & E & HB). exists ms'.
    split; [done|]. eapply becomes_ext; [exact HB|]. intros j _. cbn beta. by rewrite (hold_bits _ _ _ Hm).
  - intros j. destruct v; member; naive_solver.
  - intros j. destruct v; set_solver.
Qed.

Lemma dyn_set_ok i : (i < n)%nat -> exists s', dyn_set s i = Ok s' /\ dyn_ok s' n (X ∪ {[i]}).
Proof.
  intros Hi. pose proof dyn_below as HX. apply (dyn_update_set s n X _ (fun j => if (j =? i)%nat then true else bool_decide (j ∈ X))); [done| | |].
  - intros ms Hm. destruct (words_set_ok ms i (hold_words _ _ _ Hm) (hold_index _ _ _ _ Hm Hi)) as (ms' & E & HB). exists ms'.
    split; [done|]. eapply becomes_ext; [exact HB|]. intros j _. cbn beta. by rewrite (hold_bits _ _ _ Hm).
  - intros j. member; naive_solver.
  - set_solver.
Qed.

Lemma dyn_unset_ok i : (i < n)%nat -> exists s', dyn_unset s i = Ok s' /\ dyn_ok s' n (X ∖ {[i]}).
Proof.
  intros Hi. pose proof dyn_below as HX. apply (dyn_update_set s n X _ (fun j => if (j =? i)%nat then false else bool_decide (j ∈ X))); [done| | |].
  - intros ms Hm. destruct (words_unset_ok ms i (hold_words _ _ _ Hm) (hold_index _ _ _ _ Hm Hi)) as (ms' & E & HB). exists ms'.
    split; [done|]. eapply becomes_ext; [exact HB|]. intros j _. cbn beta. by rewrite (hold_bits _ _ _ Hm).
  - intros j. member; naive_solver.
  - set_solver.
Qed.

Definition toggled (i : nat) : gset nat := if bool_decide (i ∈ X) then X ∖ {[i]} else X ∪ {[i]}.

Lemma dyn_toggle_ok i : (i < n)%nat -> exists s', dyn_toggle s i = Ok s' /\ dyn_ok s' n (toggled i).
Proof.
  intros Hi. pose proof dyn_below as HX. apply (dyn_update_set s n X _ (fun j => if (j =? i)%nat then negb (bool_decide (j ∈ X)) else bool_decide (j ∈ X))); [done| | |].
  - intros ms Hm. destruct (words_toggle_ok ms i (hold_words _ _ _ Hm) (hold_index _ _ _ _ Hm Hi)) as (ms' & E & HB). exists ms'.
    split; [done|]. eapply becomes_ext; [exact HB|]. intros j _. cbn beta. by rewrite (hold_bits _ _ _ Hm).
  - intros j. unfold toggled. destruct (bool_decide_reflect (i ∈ X)); member; naive_solver.
  - unfold toggled. destruct (bool_decide_reflect (i ∈ X)); set_solver.
Qed.

Lemma dyn_set_range_value_ok a b v :
  (a <= b <= n)%nat ->
  exists s', dyn_set_range_value s a b v = Ok s' /\ dyn_ok s' n (if v then X ∪ set_seq a (b - a) else X ∖ set_seq a (b - a)).
Proof.
  intros Hi. pose proof dyn_below as HX. apply (dyn_update_set s n X _ (fun j => if in_range a b j then v else bool_decide (j ∈ X))); [done| | |].
  - intros ms Hm. pose proof (num_masks_bounds n). destruct (set_range_masks_ok ms a b v (hold_words _ _ _ Hm)) as (ms' & E & HB).
    { rewrite (hold_length _ _ _ Hm). lia. }
    exists ms'. split; [done|]. eapply becomes_ext; [exact HB|]. intros j _. cbn beta. by rewrite (hold_bits _ _ _ Hm).
  - intros j. destruct v; member; naive_solver lia.
  - intros j. destruct v; [rewrite elem_of_union, elem_of_set_seq|rewrite elem_of_difference]; naive_solver lia.
Qed.

(** A change of all words, the padding cleared behind it. *)
Lemma dyn_padding_ok s1 ms ms1 P Y :
  masks_slice s = Ok ms -> words_hold n ms X -> (0 < n)%nat -> updated s s1 ms1 -> becomes ms ms1 P ->
  (forall j, P j && (j <? n)%nat = bool_decide (j ∈ Y)) -> (forall j, j ∈ Y -> (j < n)%nat) ->
  exists s', dyn_padding s1 = Ok s' /\ dyn_ok s' n Y.
Proof.
  intros Hms HX Hn Hu [HL HW HB] HP HY. destruct Hu as (Hs1 & Hb & Ha & Hl). unfold dyn_padding. rewrite Hb, (dyn_length _ _ _ Hs).
  destruct (clear_padding_ok ms1 n HW Hn) as (ms2 & Hcp & [L2 W2 B2]); [rewrite HL; apply HX|].
  destruct (dyn_update_ok s1 ms1 _ ms2 Hs1 Hcp L2) as (s2 & E & Hu2). exists s2. split; [done|].
  apply (dyn_ok_updated s s2 n X ms ms2 (fun j => P j && (j <? n)%nat)); try done.
  - by eapply updated_trans.
  - split; [congruence|done|]. intros j Hj. rewrite B2, HB by lia. done.
Qed.

Lemma dyn_empty_length : n = 0%nat -> X = ∅.
Proof. pose proof dyn_below as HX. intros Hn0. rewrite Hn0 in HX. apply set_eq. intros j. split; [|set_solver]. intros Hj%HX. lia. Qed.

Lemma dyn_set_all_ok v : exists s', dyn_set_all s v = Ok s' /\ dyn_ok s' n (if v then set_seq 0 n else ∅).
Proof.
  unfold dyn_set_all. rewrite (dyn_length _ _ _ Hs). destruct (Nat.eqb_spec n 0) as [E|E].
  { exists s. split; [done|]. pose proof (dyn_empty_length E) as HE. replace (if v then set_seq 0 n else ∅) with X; [exact Hs|]. rewrite HE, E. by destruct v. }
  destruct dyn_masks as (ms & Hms & HX). pose proof (replicate_becomes ms v) as HB.
  destruct (dyn_update_ok s ms (fun m => Ok (replicate (length m) (bool_mask_usize v))) _ Hms eq_refl) as (s1 & E1 & Hu); [apply length_replicate|].
  rewrite E1. cbn [mbind outcome_bind]. eapply dyn_padding_ok; eauto; [lia| |].
  - intros j. cbn beta. destruct v; member; [lia|set_solver].
  - intros j. destruct v; [rewrite elem_of_set_seq; lia|set_solver].
Qed.

Lemma dyn_toggle_all_ok : exists s', dyn_toggle_all s = Ok s' /\ dyn_ok s' n (set_seq 0 n ∖ X).
Proof.
  unfold dyn_toggle_all. rewrite (dyn_length _ _ _ Hs). destruct (Nat.eqb_spec n 0) as [E|E].
  { exists s. split; [done|]. pose proof (dyn_empty_length E) as HE. replace (set_seq 0 n ∖ X) with X; [exact Hs|]. by rewrite HE, E. }
  destruct dyn_masks as (ms & Hms & HX). pose proof (unot_becomes ms (hold_words _ _ _ HX)) as HB.
  destruct (dyn_update_ok s ms (fun m => Ok (unot <$> m)) _ Hms eq_refl) as (s1 & E1 & Hu); [apply length_fmap|].
  rewrite E1. cbn [mbind outcome_bind]. eapply dyn_padding_ok; eauto; [lia| |].
  - intros j. cbn beta. rewrite (hold_bits _ _ _ HX). member. naive_solver lia.
  - intros j. rewrite elem_of_difference, elem_of_set_seq. lia.
Qed.
End dyn_ops.

(** ** The operations on two sets *)

Section dyn_binary.
Context (s : DynamicBitSetUnmanaged) (n : nat) (X : gset nat) (Hs : dyn_ok s n X).

Lemma dyn_zip_ok other b f (g : bool -> bool -> bool) :
  read_words (num_masks_for n) (mem other) = Ok b -> Forall word_ok b ->
  (forall x y, word_ok x -> word_ok y -> word_ok (f x y)) ->
  (forall x y k, (k < 64)%nat -> Z.testbit (f x y) (Z.of_nat k) = g (Z.testbit x (Z.of_nat k)) (Z.testbit y (Z.of_nat k))) ->
  exists ms ms1 s1, masks_slice s = Ok ms /\ words_hold n ms X /\ zip_masks_raw s other f = Ok s1 /\ updated s s1 ms1 /\
    becomes ms ms1 (fun j => g (bool_decide (j ∈ X)) (has b j)).
Proof.
  intros Hb Hbok Hf Hg. destruct (dyn_masks s n X Hs) as (ms & Hms & HX). exists ms, (zip_with f ms b).
  rewrite <- (dyn_length _ _ _ Hs) in Hb. destruct (zip_masks_ok s other f ms b Hms Hb) as (s1 & E & Hu). exists s1.
  split_and!; [done|done|done|exact Hu|]. eapply becomes_ext; [apply zip_becomes; [apply HX|done| |done|exact Hg]|].
  - destruct (read_words_inv _ _ _ Hb) as [-> _]. rewrite (dyn_length _ _ _ Hs). apply HX.
  - intros j _. cbn beta. by rewrite (hold_bits _ _ _ HX).
Qed.

(** The words of another set that is long enough. *)
Lemma other_words other n' Y :
  dyn_ok other n' Y -> (num_masks_for n <= num_masks_for n')%nat ->
  exists b, read_words (num_masks_for n) (mem other) = Ok b /\ Forall word_ok b /\
    forall j, (j < 64 * num_masks_for n)%nat -> has b j = bool_decide (j ∈ Y).
Proof.
  intros Ho Hn. destruct (dyn_masks other n' Y Ho) as (b & Hb & HY). unfold masks_slice in Hb. rewrite (dyn_length _ _ _ Ho) in Hb.
  exists (take (num_masks_for n) b). split; [by eapply read_words_take|]. split; [apply Forall_take, HY|].
  intros j Hj. rewrite has_take by done. apply (hold_bits _ _ _ HY).
Qed.

Lemma dyn_zip_set other Y f (g : bool -> bool -> bool) Z :
  dyn_ok other n Y ->
  (forall x y, word_ok x -> word_ok y -> word_ok (f x y)) ->
  (forall x y k, (k < 64)%nat -> Z.testbit (f x y) (Z.of_nat k) = g (Z.testbit x (Z.of_nat k)) (Z.testbit y (Z.of_nat k))) ->
  (forall j, g (bool_decide (j ∈ X)) (bool_decide (j ∈ Y)) = bool_decide (j ∈ Z)) -> (forall j, j ∈ Z -> (j < n)%nat) ->
  exists s', zip_masks_raw s other f = Ok s' /\ dyn_ok s' n Z.
Proof.
  intros Ho Hf Hg HZ Hn. destruct (other_words other n Y Ho (le_n _)) as (b & Hb & Hbok & Hbits).
  destruct (dyn_zip_ok other b f g Hb Hbok Hf Hg) as (ms & ms1 & s1 & Hms & HX & E & Hu & HB). exists s1. split; [done|].
  apply (dyn_ok_updated s s1 n X ms ms1 _ Z Hs Hms HX Hu HB); [|done]. intros j Hj. cbn beta.
  rewrite Hbits; [apply HZ|]. by rewrite <- (hold_length _ _ _ HX).
Qed.

(** Clearing the padding after an operation with another set. *)
Lemma dyn_zip_padding other n' Y f (g : bool -> bool -> bool) Z :
  dyn_ok other n' Y -> (num_masks_for n <= num_masks_for n')%nat -> (0 < n)%nat ->
  (forall x y, word_ok x -> word_ok y -> word_ok (f x y)) ->
  (forall x y k, (k < 64)%nat -> Z.testbit (f x y) (Z.of_nat k) = g (Z.testbit x (Z.of_nat k)) (Z.testbit y (Z.of_nat k))) ->
  (forall j, (j < n)%nat -> g (bool_decide (j ∈ X)) (bool_decide (j ∈ Y)) = bool_decide (j ∈ Z)) -> (forall j, j ∈ Z -> (j < n)%nat) ->
  exists s1 s', zip_masks_raw s other f = Ok s1 /\ dyn_padding s1 = Ok s' /\ dyn_ok s' n Z.
Proof.
  intros Ho Hn Hpos Hf Hg HZ HZn. destruct (other_words other n' Y Ho Hn) as (b & Hb & Hbok & Hbits).
  destruct (dyn_zip_ok other b f g Hb Hbok Hf Hg) as (ms & ms1 & s1 & Hms & HX & E & Hu & HB). exists s1.
  destruct (dyn_padding_ok s n X Hs s1 ms ms1 _ Z Hms HX Hpos Hu HB) as (s' & E' & Hok); [|done|by exists s'].
  intros j. cbn beta. pose proof (num_masks_bounds n). destruct (Nat.ltb_spec j n) as [Hj|Hj].
  - rewrite andb_true_r, Hbits by lia. by apply HZ.
  - rewrite andb_false_r. symmetry. apply bool_decide_eq_false. intros Hz%HZn. lia.
Qed.

(** One lemma per operation. *)
Ltac word_bits_of := intros; rewrite ?Z.lor_spec, ?Z.land_spec, ?Z.lxor_spec, ?unot_testbit by lia; done.
Ltac sets := intros; rewrite ?elem_of_union, ?elem_of_intersection, ?elem_of_difference in *; naive_solver.

Lemma dyn_set_union_ok other Y : dyn_ok other n Y -> exists s', dyn_set_union s other = Ok s' /\ dyn_ok s' n (X ∪ Y).
Proof.
  intros Ho. pose proof (dyn_below s n X Hs). pose proof (dyn_below other n Y Ho).
  eapply (dyn_zip_set other Y Z.lor orb); [done|auto with words|word_bits_of|intros; member; naive_solver|sets].
Qed.

Lemma dyn_set_intersection_ok other Y : dyn_ok other n Y -> exists s', dyn_set_intersection s other = Ok s' /\ dyn_ok s' n (X ∩ Y).
Proof.
  intros Ho. pose proof (dyn_below s n X Hs).
  eapply (dyn_zip_set other Y Z.land andb); [done|auto with words|word_bits_of|intros; member; naive_solver|sets].
Qed.

Lemma dyn_set_exclude_ok other Y : dyn_ok other n Y -> exists s', dyn_set_exclude s other = Ok s' /\ dyn_ok s' n (X ∖ Y).
Proof.
  intros Ho. pose proof (dyn_below s n X Hs).
  eapply (dyn_zip_set other Y (fun a b => Z.land a (unot b)) (fun a b => a && negb b)); [done|auto with words|word_bits_of|intros; member; naive_solver|sets].
Qed.

Lemma dyn_toggle_set_ok other Y : dyn_ok other n Y -> exists s', dyn_toggle_set s other = Ok s' /\ dyn_ok s' n ((X ∖ Y) ∪ (Y ∖ X)).
Proof.
  intros Ho. pose proof (dyn_below s n X Hs). pose proof (dyn_below other n Y Ho). unfold dyn_toggle_set. rewrite (dyn_length _ _ _ Hs).
  destruct (Nat.eqb_spec n 0) as [E|E].
  { exists s. split; [done|]. replace ((X ∖ Y) ∪ (Y ∖ X)) with X; [exact Hs|].
    rewrite (dyn_empty_length s n X Hs E), (dyn_empty_length other n Y Ho E). set_solver. }
  edestruct (dyn_zip_padding other n Y Z.lxor xorb ((X ∖ Y) ∪ (Y ∖ X))) as (s1 & s' & E1 & E2 & Hok);
    [done|done|lia|auto with words|word_bits_of| |sets|rewrite E1; cbn [mbind outcome_bind]; by exists s'].
  intros j _. destruct (bool_decide_reflect (j ∈ X)), (bool_decide_reflect (j ∈ Y)); cbn; symmetry;
    [apply bool_decide_eq_false|apply bool_decide_eq_true|apply bool_decide_eq_true|apply bool_decide_eq_false]; set_solver.
Qed.

(** The copy reads as many words as the destination has. *)
Lemma dyn_copy_into_ok other n' Y :
  dyn_ok other n' Y -> (num_masks_for n <= num_masks_for n')%nat ->
  exists s', dyn_copy_into s other = Ok s' /\ dyn_ok s' n (filter (fun i => i < n)%nat Y).
Proof.
  intros Ho Hn. unfold dyn_copy_into. rewrite (dyn_length _ _ _ Hs). destruct (Nat.eqb_spec n 0) as [E|E].
  { exists s. split; [done|]. replace (filter _ Y) with X; [exact Hs|]. rewrite (dyn_empty_length s n X Hs E). symmetry.
    apply set_eq. intros j. rewrite elem_of_filter. split; [lia|set_solver]. }
  edestruct (dyn_zip_padding other n' Y (fun _ b => b) (fun _ b => b) (filter (fun i => i < n)%nat Y)) as (s1 & s' & E1 & E2 & Hok);
    [done|done|lia|done|done| | |rewrite E1; cbn [mbind outcome_bind]; by exists s'].
  - intros j Hj. apply bool_decide_ext. rewrite elem_of_filter. naive_solver.
  - intros j. rewrite elem_of_filter. naive_solver.
Qed.
End dyn_binary.

(** ** Questions *)

Lemma elements_below_spec n X j : j ∈ elements_below n X <-> (j < n)%nat /\ j ∈ X.
Proof. unfold elements_below. rewrite list_elem_of_In, filter_In, in_seq, bool_decide_eq_true. split; intros [? ?]; split; (lia || done). Qed.

Lemma filter_length_le {A} (p : A -> bool) (l : list A) : (length (List.filter p l) <= length l)%nat.
Proof. induction l as [|x l IH]; [done|]. cbn. destruct (p x); cbn; lia. Qed.

Lemma elements_below_length n X : (length (elements_below n X) <= n)%nat.
Proof. unfold elements_below. etransitivity; [apply filter_length_le|]. by rewrite length_seq. Qed.

Lemma shown_lookup kind lm ms w :
  shown kind lm ms !! w = (fun m => if negb kind && (w + 1 =? length ms)%nat then Z.land (unot m) lm else raw_word kind m) <$> ms !! w.
Proof.
  revert w. induction ms as [|m ms IH]; intros w; [done|]. destruct w as [|w]; cbn [shown length].
  - cbn. by destruct ms.
  - apply IH.
Qed.

(** The words that the iterator goes over. *)
Lemma shown_hold n ms X kind :
  words_hold n ms X -> words_hold n (shown kind (last_item_mask n) ms) (if kind then X else set_seq 0 n ∖ X).
Proof.
  intros HX. destruct HX as [Hl Hw Hb Hn]. pose proof (num_masks_bounds n) as Bn.
  assert (Hls : length (shown kind (last_item_mask n) ms) = length ms) by (clear; induction ms as [|m ms IH]; cbn [shown length]; [done|by rewrite IH]).
  split; [congruence| | |intros j; destruct kind; [apply Hn|rewrite elem_of_difference, elem_of_set_seq; lia]].
  - apply Forall_lookup_2. intros w x. rewrite shown_lookup. destruct (ms !! w) as [m|] eqn:E; [|done]. cbn. intros [= <-].
    pose proof (word_of_masks _ _ _ Hw E). destruct kind, (w + 1 =? length ms)%nat; cbn; auto with words.
  - intros j. unfold has at 1. rewrite shown_lookup. pose proof (Hb j) as Hj. unfold has in Hj. destruct (ms !! (j / 64)%nat) as [m|] eqn:E; cbn [fmap option_fmap option_map].
    2:{ symmetry. apply bool_decide_eq_false. symmetry in Hj. apply bool_decide_eq_false in Hj. destruct kind; [done|]. rewrite elem_of_difference, elem_of_set_seq.
        intros [[_ H] _]. apply lookup_ge_None in E. rewrite Hl in E. pose proof (index_word j (num_masks_for n)). lia. }
    destruct kind; cbn [negb andb]; [done|]. pose proof (mod_lt_64 j). pose proof (Nat.div_mod_eq j 64). pose proof (lookup_lt_Some _ _ _ E).
    assert (Hneg : negb (Z.testbit m (Z.of_nat (j mod 64))) && (j <? n)%nat = bool_decide (j ∈ set_seq (C := gset nat) 0 n ∖ X)).
    { rewrite Hj. member. naive_solver lia. }
    rewrite <- Hneg. destruct (Nat.eqb_spec (j / 64 + 1) (length ms)) as [Ew|Ew].
    + rewrite Z.land_spec, unot_testbit, last_item_mask_testbit by lia. do 2 f_equal. lia.
    + unfold raw_word. rewrite unot_testbit by lia. rewrite (proj2 (Nat.ltb_lt j n)) by lia. by rewrite andb_true_r.
Qed.

Lemma iterate_hold kind fwd n ms X fuel :
  words_hold n ms X -> (n <= fuel)%nat ->
  (it ← iterator_init kind fwd ms (last_item_mask n); iterate kind fwd fuel it) =
  Ok ((if fwd then id else rev (A := nat)) (elements_below n (if kind then X else set_seq 0 n ∖ X))).
Proof.
  intros HX Hf. destruct (iterator_init_ok kind fwd ms (last_item_mask n) (hold_words _ _ _ HX) (word_ok_last n)) as (it & -> & Hok & Hs).
  cbn [mbind outcome_bind]. rewrite (hold_bits_of n _ _ (shown_hold n ms X kind HX)) in Hs.
  assert (Hlen : (length (stream kind fwd it) <= n)%nat).
  { rewrite Hs. destruct fwd; [|rewrite length_rev]; apply elements_below_length. }
  rewrite iterate_ok by (done || lia). by rewrite Hs.
Qed.

(** The two bits of a pair of words. *)
Lemma combine_bits a b (P : bool -> bool -> Prop) :
  length a = length b ->
  (forall j, (j < 64 * length a)%nat -> P (has a j) (has b j)) <->
  (forall p, In p (combine a b) -> forall k, (k < 64)%nat -> P (Z.testbit (fst p) (Z.of_nat k)) (Z.testbit (snd p) (Z.of_nat k))).
Proof.
  revert b. induction a as [|x a IH]; intros [|y b] Hl; try done; cbn [combine In length] in *.
  { split; [by intros _ p []|]. intros _ j Hj. lia. }
  specialize (IH b ltac:(lia)). split.
  - intros H p [<-|Hp] k Hk; [specialize (H k ltac:(lia)); by rewrite !has_cons_low in H by done|].
    revert p Hp k Hk. apply IH. intros j Hj. specialize (H (64 + j)%nat ltac:(lia)). by rewrite !has_cons_high in H.
  - intros H j Hj. destruct (decide (j < 64)%nat) as [Hj'|Hj'].
    + rewrite !has_cons_low by done. by apply (H (x, y)); [left|].
    + replace j with (64 + (j - 64))%nat by lia. rewrite !has_cons_high. apply IH; [|lia]. intros p Hp. apply H. by right.
Qed.

Lemma combine_words a b p : Forall word_ok a -> Forall word_ok b -> In p (combine a b) -> word_ok (fst p) /\ word_ok (snd p).
Proof.
  intros Ha Hb Hp. destruct p as [x y]. rewrite list.Forall_forall in Ha, Hb. split; [apply Ha|apply Hb]; apply list_elem_of_In.
  - by apply in_combine_l in Hp.
  - by apply in_combine_r in Hp.
Qed.

Lemma word_zero_bits x : word_ok x -> x = 0 <-> forall k, (k < 64)%nat -> Z.testbit x (Z.of_nat k) = false.
Proof.
  intros Hx. split; [intros -> k _; apply Z.bits_0|]. intros H. apply Z.bits_inj'. intros i Hi. rewrite Z.bits_0.
  destruct (decide (i < 64)); [|apply word_testbit_high; [done|lia]]. rewrite <- (Z2Nat.id i Hi). apply H. lia.
Qed.

Lemma word_eq_bits x y : word_ok x -> word_ok y -> x = y <-> forall k, (k < 64)%nat -> Z.testbit x (Z.of_nat k) = Z.testbit y (Z.of_nat k).
Proof.
  intros Hx Hy. split; [by intros ->|]. intros H. apply word_bits_inj; [done|done|]. unfold word_bits. apply List.filter_ext_in.
  intros k Hk. apply in_seq in Hk. apply H. lia.
Qed.

Section compare.
Context (n : nat) (a b : list Z) (X Y : gset nat) (Ha : words_hold n a X) (Hb : words_hold n b Y).

Lemma hold_same_length : length a = length b.
Proof. by rewrite (hold_length _ _ _ Ha), (hold_length _ _ _ Hb). Qed.

(** A question on every pair of words is a question on every index. *)
Lemma compare_words (p : Z * Z -> bool) (P : bool -> bool -> Prop) :
  (forall x y, word_ok x -> word_ok y -> p (x, y) = true <-> forall k, (k < 64)%nat -> P (Z.testbit x (Z.of_nat k)) (Z.testbit y (Z.of_nat k))) ->
  P false false ->
  forallb p (combine a b) = true <-> forall j, P (bool_decide (j ∈ X)) (bool_decide (j ∈ Y)).
Proof.
  intros Hp Hff. assert (Hall : (forall j, P (bool_decide (j ∈ X)) (bool_decide (j ∈ Y))) <-> (forall j, (j < 64 * length a)%nat -> P (has a j) (has b j))).
  { split; intros H j; [intros _; rewrite (hold_bits _ _ _ Ha), (hold_bits _ _ _ Hb); apply H|].
    destruct (decide (j < 64 * length a)%nat) as [Hj|Hj]; [specialize (H j Hj); by rewrite (hold_bits _ _ _ Ha), (hold_bits _ _ _ Hb) in H|].
    rewrite <- (hold_bits _ _ _ Ha), <- (hold_bits _ _ _ Hb), !has_above; [done|rewrite <- hold_same_length; lia|lia]. }
  rewrite Hall, (combine_bits a b P hold_same_length), forallb_forall.
  assert (Hw : forall q, In q (combine a b) -> p q = true <-> forall k, (k < 64)%nat -> P (Z.testbit (fst q) (Z.of_nat k)) (Z.testbit (snd q) (Z.of_nat k))).
  { intros [x y] Hq. destruct (combine_words a b (x, y) (hold_words _ _ _ Ha) (hold_words _ _ _ Hb) Hq). by apply Hp. }
  split; intros H q Hq; apply Hw; auto.
Qed.

Lemma words_eq_ok : bool_decide (a = b) = bool_decide (X = Y).
Proof.
  apply bool_decide_ext. split; [|intros <-; by eapply hold_inj].
  intros E. apply set_eq. intros j. pose proof (hold_bits _ _ _ Ha j) as H1. pose proof (hold_bits _ _ _ Hb j) as H2. rewrite E in H1. rewrite H1 in H2.
  destruct (bool_decide_reflect (j ∈ X)), (bool_decide_reflect (j ∈ Y)); naive_solver.
Qed.

Lemma words_subset_ok : forallb (fun p => Z.land (fst p) (snd p) =? fst p) (combine a b) = bool_decide (X ⊆ Y).
Proof.
  apply eq_true_iff_eq. rewrite bool_decide_eq_true. rewrite (compare_words _ (fun x y => x && y = x)); [|intros x y Hx Hy|done].
  - split; intros H j; specialize (H j); destruct (bool_decide_reflect (j ∈ X)), (bool_decide_reflect (j ∈ Y)); naive_solver.
  - cbn [fst snd]. rewrite Z.eqb_eq, word_eq_bits by auto with words. split; intros H k Hk; specialize (H k Hk); by rewrite Z.land_spec in *.
Qed.

Lemma words_superset_ok : forallb (fun p => Z.land (fst p) (snd p) =? snd p) (combine a b) = bool_decide (Y ⊆ X).
Proof.
  apply eq_true_iff_eq. rewrite bool_decide_eq_true. rewrite (compare_words _ (fun x y => x && y = y)); [|intros x y Hx Hy|done].
  - split; intros H j; specialize (H j); destruct (bool_decide_reflect (j ∈ X)), (bool_decide_reflect (j ∈ Y)); naive_solver.
  - cbn [fst snd]. rewrite Z.eqb_eq, word_eq_bits by auto with words. split; intros H k Hk; specialize (H k Hk); by rewrite Z.land_spec in *.
Qed.

Lemma words_intersect_ok : words_intersect a b = bool_decide (X ∩ Y <> ∅).
Proof.
  assert (Hneg : words_intersect a b = negb (forallb (fun p => Z.land (fst p) (snd p) =? 0) (combine a b))).
  { unfold words_intersect. clear. induction (combine a b) as [|p l IH]; [done|]. cbn [existsb forallb]. by rewrite IH, negb_andb. }
  rewrite Hneg. rewrite bool_decide_not. f_equal. apply eq_true_iff_eq. rewrite bool_decide_eq_true.
  rewrite (compare_words _ (fun x y => x && y = false)); [|intros x y Hx Hy|done].
  - split; [intros H; apply set_eq; intros j; specialize (H j)|intros H j; assert (Hj : j ∉ X ∩ Y) by (rewrite H; set_solver)];
      destruct (bool_decide_reflect (j ∈ X)), (bool_decide_reflect (j ∈ Y)); set_solver.
  - cbn [fst snd]. rewrite Z.eqb_eq, word_zero_bits by auto with words. split; intros H k Hk; specialize (H k Hk); by rewrite Z.land_spec in *.
Qed.
End compare.

Lemma dyn_default_ok : dyn_ok dyn_default 0 ∅.
Proof.
  split; [done|by left|]. exists []. split; [done|]. split; [done|done| |set_solver]. intros j. symmetry. apply bool_decide_eq_false. set_solver.
Qed.

Section dyn_questions.
Context (s : DynamicBitSetUnmanaged) (n : nat) (X : gset nat) (Hs : dyn_ok s n X).

Lemma dyn_is_set_ok i : (i < n)%nat -> dyn_is_set s i = Ok (bool_decide (i ∈ X)).
Proof.
  intros Hi. destruct (dyn_masks s n X Hs) as (ms & Hms & HX). unfold dyn_is_set. rewrite Hms. cbn [mbind outcome_bind].
  rewrite words_is_set_ok by (apply HX || by eapply hold_index). by rewrite (hold_bits _ _ _ HX).
Qed.

Lemma dyn_is_set_allow_ok i d : dyn_is_set_allow_out_of_bound s i d = Ok (if (n <=? i)%nat then d else bool_decide (i ∈ X)).
Proof.
  unfold dyn_is_set_allow_out_of_bound. rewrite (dyn_length _ _ _ Hs). destruct (Nat.leb_spec n i); [done|]. by rewrite dyn_is_set_ok.
Qed.

Lemma dyn_count_ok : dyn_count s = Ok (length (elements_below n X)).
Proof.
  destruct (dyn_masks s n X Hs) as (ms & Hms & HX). unfold dyn_count. rewrite Hms. cbn [mbind outcome_bind].
  by rewrite words_count_ok, (hold_bits_of n ms X HX).
Qed.

Lemma dyn_find_first_set_ok : dyn_find_first_set s = Ok (head (elements_below n X)).
Proof.
  destruct (dyn_masks s n X Hs) as (ms & Hms & HX). unfold dyn_find_first_set. rewrite Hms. cbn [mbind outcome_bind].
  by rewrite find_first_ok, indices_bits, (hold_bits_of n ms X HX) by apply HX.
Qed.

(** The set without its first element. *)
Definition without_first : gset nat := match head (elements_below n X) with Some i => X ∖ {[i]} | None => X end.

Lemma dyn_toggle_first_set_ok : exists s', dyn_toggle_first_set s = Ok (head (elements_below n X), s') /\ dyn_ok s' n without_first.
Proof.
  destruct (dyn_masks s n X Hs) as (ms & Hms & HX). unfold dyn_toggle_first_set. rewrite Hms. cbn [mbind outcome_bind].
  destruct (toggle_first_ok 0 ms (hold_words _ _ _ HX)) as (ms' & -> & HB). rewrite indices_bits, (hold_bits_of n ms X HX) in *.
  eexists. split; [done|]. pose proof (dyn_below s n X Hs) as Hn. unfold without_first.
  apply (dyn_ok_updated s _ n X ms ms' _ _ Hs Hms HX (updated_with _ _ _ Hms (becomes_length _ _ _ HB)) HB).
  - intros j _. cbn beta. rewrite (hold_bits _ _ _ HX). destruct (head _) as [k|]; [|by rewrite andb_true_r]. member. naive_solver.
  - intros j. destruct (head _); set_solver.
Qed.

Lemma dyn_iterate_ok kind fwd :
  (it ← dyn_iterator kind fwd s; iterate kind fwd n it) =
  Ok ((if fwd then id else rev (A := nat)) (elements_below n (if kind then X else set_seq 0 n ∖ X))).
Proof.
  destruct (dyn_masks s n X Hs) as (ms & Hms & HX). unfold dyn_iterator. rewrite Hms, (dyn_length _ _ _ Hs). cbn [mbind outcome_bind].
  by apply iterate_hold.
Qed.

Lemma dyn_clone_ok : exists s', dyn_clone false s = Ok (Some s') /\ dyn_ok s' n X.
Proof.
  unfold dyn_clone, dyn_init. rewrite (dyn_length _ _ _ Hs). destruct (resize_ok false dyn_default 0 ∅ n false) as (ok & c & -> & Hc); [apply dyn_default_ok|].
  destruct ok; [|by destruct Hc as [_ ?]]. cbn [mbind outcome_bind]. destruct (dyn_masks s n X Hs) as (ms & Hms & HX). rewrite Hms. cbn [mbind outcome_bind].
  eexists. split; [done|]. destruct (dyn_masks c _ _ Hc) as (mc & Hmc & HC).
  destruct (updated_with c mc ms Hmc) as (U1 & U2 & U3 & U4); [by rewrite (hold_length _ _ _ HX), (hold_length _ _ _ HC)|].
  split; [rewrite U2; apply Hc| |by exists ms]. destruct (dyn_mem _ _ _ Hc) as [[H1 H2]|H1]; [left; split; congruence|right; congruence].
Qed.
End dyn_questions.

Section dyn_compare.
Context (s t : DynamicBitSetUnmanaged) (n m : nat) (X Y : gset nat) (Hs : dyn_ok s n X) (Ht : dyn_ok t m Y).

Lemma dyn_eql_ok : dyn_eql s t = Ok ((n =? m)%nat && bool_decide (X = Y)).
Proof.
  unfold dyn_eql. rewrite (dyn_length _ _ _ Hs), (dyn_length _ _ _ Ht). destruct (Nat.eqb_spec n m) as [<-|]; [|done]. cbn [negb andb].
  destruct (dyn_masks s n X Hs) as (a & -> & Ha), (dyn_masks t n Y Ht) as (b & -> & Hb). cbn [mbind outcome_bind]. by rewrite (words_eq_ok n a b X Y).
Qed.

Lemma dyn_subset_of_ok : dyn_subset_of s t = Ok ((n =? m)%nat && bool_decide (X ⊆ Y)).
Proof.
  unfold dyn_subset_of. rewrite (dyn_length _ _ _ Hs), (dyn_length _ _ _ Ht). destruct (Nat.eqb_spec n m) as [<-|]; [|done]. cbn [negb andb].
  destruct (dyn_masks s n X Hs) as (a & -> & Ha), (dyn_masks t n Y Ht) as (b & -> & Hb). cbn [mbind outcome_bind]. by rewrite (words_subset_ok n a b X Y).
Qed.

Lemma dyn_superset_of_ok : dyn_superset_of s t = Ok ((n =? m)%nat && bool_decide (Y ⊆ X)).
Proof.
  unfold dyn_superset_of. rewrite (dyn_length _ _ _ Hs), (dyn_length _ _ _ Ht). destruct (Nat.eqb_spec n m) as [<-|]; [|done]. cbn [negb andb].
  destruct (dyn_masks s n X Hs) as (a & -> & Ha), (dyn_masks t n Y Ht) as (b & -> & Hb). cbn [mbind outcome_bind]. by rewrite (words_superset_ok n a b X Y).
Qed.

Lemma dyn_has_intersection_ok : n = m -> dyn_has_intersection s t = Ok (bool_decide (X ∩ Y <> ∅)).
Proof.
  intros Hnm. subst m. unfold dyn_has_intersection.
  destruct (dyn_masks s n X Hs) as (a & -> & Ha), (dyn_masks t n Y Ht) as (b & -> & Hb). cbn [mbind outcome_bind]. by rewrite (words_intersect_ok n a b X Y).
Qed.
End dyn_compare.

(** ** Any sequence of operations on any number of sets *)

Inductive binary := BUnion | BIntersection | BExclude | BToggle | BCopy.
Inductive comparison_kind := CEql | CSubset | CSuperset | CIntersects.

Inductive bits_op :=
| OpResize (r len : nat) (fill : bool)
| OpClone (r from : nat)
| OpSet (r i : nat)
| OpUnset (r i : nat)
| OpToggle (r i : nat)
| OpSetValue (r i : nat) (v : bool)
| OpRange (r a b : nat) (v : bool)
| OpSetAll (r : nat) (v : bool)
| OpToggleAll (r : nat)
| OpBinary (r : nat) (b : binary) (other : nat)
| OpToggleFirst (r : nat)
| OpIsSet (r i : nat)
| OpIsSetAllow (r i : nat) (out_of_bounds : bool)
| OpCount (r : nat)
| OpFindFirst (r : nat)
| OpIterate (r : nat) (kind fwd : bool)
| OpCompare (r : nat) (c : comparison_kind) (other : nat).

Inductive answer := ADone | ABool (b : bool) | ANat (n : nat) | AOption (o : option nat) | AList (l : list nat).

(** The sets of the model, by number. *)
Definition store_set (regs : list DynamicBitSetUnmanaged) (r : nat) (m : outcome DynamicBitSetUnmanaged) : outcome (answer * list DynamicBitSetUnmanaged) :=
  s ← m; regs ← store_at regs r s; Ok (ADone, regs).
Definition ask {A} (regs : list DynamicBitSetUnmanaged) (f : A -> answer) (m : outcome A) : outcome (answer * list DynamicBitSetUnmanaged) :=
  a ← m; Ok (f a, regs).

Definition dyn_binary_op (b : binary) : DynamicBitSetUnmanaged -> DynamicBitSetUnmanaged -> outcome DynamicBitSetUnmanaged :=
  match b with
  | BUnion => dyn_set_union
  | BIntersection => dyn_set_intersection
  | BExclude => dyn_set_exclude
  | BToggle => dyn_toggle_set
  | BCopy => dyn_copy_into
  end.
Definition dyn_compare (c : comparison_kind) : DynamicBitSetUnmanaged -> DynamicBitSetUnmanaged -> outcome bool :=
  match c with
  | CEql => dyn_eql
  | CSubset => dyn_subset_of
  | CSuperset => dyn_superset_of
  | CIntersects => dyn_has_intersection
  end.

Definition bits_step (regs : list DynamicBitSetUnmanaged) (op : bits_op) : outcome (answer * list DynamicBitSetUnmanaged) :=
  match op with
  | OpResize r len fill =>
      s ← index_at regs r; '(ok, s) ← resize false s len fill;
      regs ← store_at regs r s; Ok (ABool ok, regs)
  | OpClone r from =>
      s ← index_at regs from; c ← dyn_clone false s;
      match c with Some c => store_set regs r (Ok c) | None => Ok (ABool false, regs) end
  | OpSet r i => s ← index_at regs r; store_set regs r (dyn_set s i)
  | OpUnset r i => s ← index_at regs r; store_set regs r (dyn_unset s i)
  | OpToggle r i => s ← index_at regs r; store_set regs r (dyn_toggle s i)
  | OpSetValue r i v => s ← index_at regs r; store_set regs r (dyn_set_value s i v)
  | OpRange r a b v => s ← index_at regs r; store_set regs r (dyn_set_range_value s a b v)
  | OpSetAll r v => s ← index_at regs r; store_set regs r (dyn_set_all s v)
  | OpToggleAll r => s ← index_at regs r; store_set regs r (dyn_toggle_all s)
  | OpBinary r b other => s ← index_at regs r; t ← index_at regs other; store_set regs r (dyn_binary_op b s t)
  | OpToggleFirst r =>
      s ← index_at regs r; '(o, s) ← dyn_toggle_first_set s;
      regs ← store_at regs r s; Ok (AOption o, regs)
  | OpIsSet r i => s ← index_at regs r; ask regs ABool (dyn_is_set s i)
  | OpIsSetAllow r i d => s ← index_at regs r; ask regs ABool (dyn_is_set_allow_out_of_bound s i d)
  | OpCount r => s ← index_at regs r; ask regs ANat (dyn_count s)
  | OpFindFirst r => s ← index_at regs r; ask regs AOption (dyn_find_first_set s)
  | OpIterate r kind fwd => s ← index_at regs r; ask regs AList (it ← dyn_iterator kind fwd s; iterate kind fwd (bit_length s) it)
  | OpCompare r c other => s ← index_at regs r; t ← index_at regs other; ask regs ABool (dyn_compare c s t)
  end.

Fixpoint bits_run (regs : list DynamicBitSetUnmanaged) (ops : list bits_op) : outcome (list answer * list DynamicBitSetUnmanaged) :=
  match ops with
  | [] => Ok ([], regs)
  | op :: ops => '(a, regs) ← bits_step regs op; '(l, regs) ← bits_run regs ops; Ok (a :: l, regs)
  end.

(** The specification: a length and a finite set below it. *)
Definition spec := (nat * gset nat)%type.

Definition spec_binary (b : binary) (n : nat) (X Y : gset nat) : gset nat :=
  match b with
  | BUnion => X ∪ Y
  | BIntersection => X ∩ Y
  | BExclude => X ∖ Y
  | BToggle => (X ∖ Y) ∪ (Y ∖ X)
  | BCopy => filter (fun i => i < n)%nat Y
  end.
Definition spec_compare (c : comparison_kind) (x y : spec) : bool :=
  match c with
  | CEql => (x.1 =? y.1)%nat && bool_decide (x.2 = y.2)
  | CSubset => (x.1 =? y.1)%nat && bool_decide (x.2 ⊆ y.2)
  | CSuperset => (x.1 =? y.1)%nat && bool_decide (y.2 ⊆ x.2)
  | CIntersects => bool_decide (x.2 ∩ y.2 <> ∅)
  end.

(** An operation has a precondition. *)
Definition allowed {A} (b : bool) (o : option A) : option A := if b then o else None.

(** What an operation answers and the set it leaves, if it writes one. *)
Definition spec_op (specs : list spec) (op : bits_op) : option (answer * option (nat * spec)) :=
  match op with
  | OpResize r len fill => '(n, X) ← specs !! r; Some (ABool true, Some (r, (len, resized n len fill X)))
  | OpClone r from => x ← specs !! from; _ ← specs !! r; Some (ADone, Some (r, x))
  | OpSet r i => '(n, X) ← specs !! r; allowed (i <? n)%nat (Some (ADone, Some (r, (n, X ∪ {[i]}))))
  | OpUnset r i => '(n, X) ← specs !! r; allowed (i <? n)%nat (Some (ADone, Some (r, (n, X ∖ {[i]}))))
  | OpToggle r i => '(n, X) ← specs !! r; allowed (i <? n)%nat (Some (ADone, Some (r, (n, toggled X i))))
  | OpSetValue r i v => '(n, X) ← specs !! r; allowed (i <? n)%nat (Some (ADone, Some (r, (n, if v then X ∪ {[i]} else X ∖ {[i]}))))
  | OpRange r a b v =>
      '(n, X) ← specs !! r; allowed ((a <=? b) && (b <=? n))%nat (Some (ADone, Some (r, (n, if v then X ∪ set_seq a (b - a) else X ∖ set_seq a (b - a)))))
  | OpSetAll r v => '(n, X) ← specs !! r; Some (ADone, Some (r, (n, if v then set_seq 0 n else ∅)))
  | OpToggleAll r => '(n, X) ← specs !! r; Some (ADone, Some (r, (n, set_seq 0 n ∖ X)))
  | OpBinary r b other =>
      '(n, X) ← specs !! r; '(m, Y) ← specs !! other;
      allowed (if b is BCopy then (num_masks_for n <=? num_masks_for m)%nat else (n =? m)%nat) (Some (ADone, Some (r, (n, spec_binary b n X Y))))
  | OpToggleFirst r => '(n, X) ← specs !! r; Some (AOption (head (elements_below n X)), Some (r, (n, without_first n X)))
  | OpIsSet r i => '(n, X) ← specs !! r; allowed (i <? n)%nat (Some (ABool (bool_decide (i ∈ (X : gset nat))), None))
  | OpIsSetAllow r i d => '(n, X) ← specs !! r; Some (ABool (if (n <=? i)%nat then d else bool_decide (i ∈ (X : gset nat))), None)
  | OpCount r => '(n, X) ← specs !! r; Some (ANat (size X), None)
  | OpFindFirst r => '(n, X) ← specs !! r; Some (AOption (head (elements_below n X)), None)
  | OpIterate r kind fwd =>
      '(n, X) ← specs !! r;
      Some (AList ((if fwd then id else rev (A := nat)) (elements_below n (if kind then X else set_seq 0 n ∖ X))), None)
  | OpCompare r c other =>
      x ← specs !! r; y ← specs !! other; allowed (if c is CIntersects then (x.1 =? y.1)%nat else true) (Some (ABool (spec_compare c x y), None))
  end.

(** [None]: the sequence breaks a precondition. *)
Fixpoint spec_run (specs : list spec) (ops : list bits_op) : option (list answer * list spec) :=
  match ops with
  | [] => Some ([], specs)
  | op :: ops =>
      '(a, w) ← spec_op specs op;
      '(l, specs) ← spec_run (match w with Some (r, x) => <[r := x]> specs | None => specs end) ops; Some (a :: l, specs)
  end.

Definition represents (s : DynamicBitSetUnmanaged) (x : spec) : Prop := dyn_ok s x.1 x.2.

(** ** The model answers as the specification does *)

Lemma elements_below_size n X : (forall j, j ∈ X -> (j < n)%nat) -> length (elements_below n X) = size X.
Proof.
  intros HX. assert (Hnd : NoDup (elements_below n X)) by (apply NoDup_ListNoDup, List.NoDup_filter, seq_NoDup).
  rewrite <- (size_list_to_set (C := gset nat) (elements_below n X)) by done. f_equal. apply set_eq. intros j.
  rewrite elem_of_list_to_set, elements_below_spec. naive_solver.
Qed.

Lemma allowed_Some {A} (b : bool) (o : option A) x : allowed b o = Some x -> b = true /\ o = Some x.
Proof. by destruct b. Qed.

Lemma Some_pair {A B} (a c : A) (b d : B) : Some (a, b) = Some (c, d) -> c = a /\ d = b.
Proof. by intros [= -> ->]. Qed.

Section machine.
Context (regs : list DynamicBitSetUnmanaged) (specs : list spec) (HF : Forall2 represents regs specs).

Definition written (w : option (nat * spec)) : list spec := match w with Some (r, x) => <[r := x]> specs | None => specs end.

Lemma register r x : specs !! r = Some x -> exists s, regs !! r = Some s /\ represents s x.
Proof. intros Hx. destruct (Forall2_lookup_r _ _ _ _ _ HF Hx) as (s & Hs & Hok). by exists s. Qed.

Lemma register_store r s x : (exists y, specs !! r = Some y) -> represents s x ->
  store_at regs r s = Ok (<[r := s]> regs) /\ Forall2 represents (<[r := s]> regs) (<[r := x]> specs).
Proof.
  intros [y Hy] Hs. destruct (register r y Hy) as (s0 & Hs0 & _). split; [by apply store_at_ok, (lookup_lt_Some _ _ _ Hs0)|by apply Forall2_insert].
Qed.

Lemma store_set_ok r m x : (exists y, specs !! r = Some y) -> (exists s, m = Ok s /\ represents s x) ->
  exists regs', store_set regs r m = Ok (ADone, regs') /\ Forall2 represents regs' (written (Some (r, x))).
Proof.
  intros Hr (s & -> & Hs). destruct (register_store r s x Hr Hs) as [H1 H2]. unfold store_set. cbn [mbind outcome_bind]. rewrite H1.
  cbn [mbind outcome_bind]. by eexists.
Qed.

Lemma ask_ok {A} (f : A -> answer) m a : m = Ok a -> exists regs', ask regs f m = Ok (f a, regs') /\ Forall2 represents regs' (written None).
Proof. intros ->. by exists regs. Qed.

Lemma dyn_binary_ok b s t n m X Y :
  dyn_ok s n X -> dyn_ok t m Y -> (if b is BCopy then (num_masks_for n <=? num_masks_for m)%nat else (n =? m)%nat) = true ->
  exists s', dyn_binary_op b s t = Ok s' /\ dyn_ok s' n (spec_binary b n X Y).
Proof.
  intros Hs Ht Hg. destruct b; try (apply Nat.eqb_eq in Hg; subst m); cbn [dyn_binary_op spec_binary].
  - by apply dyn_set_union_ok.
  - by apply (dyn_set_intersection_ok s n X Hs t Y).
  - by apply dyn_set_exclude_ok.
  - by apply dyn_toggle_set_ok.
  - apply Nat.leb_le in Hg. by apply (dyn_copy_into_ok s n X Hs t m Y).
Qed.

Lemma dyn_compare_ok c s t x y :
  represents s x -> represents t y -> (if c is CIntersects then (x.1 =? y.1)%nat else true) = true -> dyn_compare c s t = Ok (spec_compare c x y).
Proof.
  intros Hs Ht Hg. destruct x as [n X], y as [m Y]. unfold represents in *. cbn [fst snd] in *. destruct c; cbn [dyn_compare spec_compare fst snd].
  - by apply dyn_eql_ok.
  - by apply dyn_subset_of_ok.
  - by apply dyn_superset_of_ok.
  - apply Nat.eqb_eq in Hg. by eapply dyn_has_intersection_ok.
Qed.

(** Takes the set of register [r], its length [n] and elements [X]. *)
Ltac take_register r n X Hr Hok s :=
  let E := fresh "E" in let Hs := fresh "Hs" in
  destruct (specs !! r) as [[n X]|] eqn:E; cbn [mbind option_bind]; [|done];
  destruct (register r _ E) as (s & Hs & Hok); unfold represents in Hok; cbn [fst snd] in Hok;
  assert (Hr : exists y, specs !! r = Some y) by (by eexists);
  rewrite (index_at_ok _ _ _ Hs); cbn [mbind outcome_bind].

(** Takes the precondition and the answer. *)
Ltac take_answer :=
  match goal with
  | |- allowed _ _ = Some _ -> _ => let H := fresh "Hg" in intros [H [-> ->]%Some_pair]%allowed_Some; rewrite ?andb_true_iff, ?Nat.ltb_lt, ?Nat.leb_le in H
  | _ => intros [-> ->]%Some_pair
  end.

Lemma bits_step_ok op a w :
  spec_op specs op = Some (a, w) -> exists regs', bits_step regs op = Ok (a, regs') /\ Forall2 represents regs' (written w).
Proof.
  destruct op as [r len fill|r from|r i|r i|r i|r i v|r a' b' v|r v|r|r b other|r|r i|r i d|r|r|r kind fwd|r c other]; cbn [spec_op bits_step].
  - take_register r n X Hr Hok s. take_answer. destruct (resize_ok false s n X len fill Hok) as (ok & s' & -> & Hs'). cbn [mbind outcome_bind].
    destruct ok; [|by destruct Hs']. destruct (register_store r s' (len, resized n len fill X) Hr Hs') as [-> H2]. cbn [mbind outcome_bind]. by eexists.
  - take_register from n X Hf Hok s. destruct (specs !! r) as [y|] eqn:Er; cbn [mbind option_bind]; [|done]. take_answer.
    destruct (dyn_clone_ok s n X Hok) as (c & -> & Hc). cbn [mbind outcome_bind]. apply store_set_ok; [by eexists|by exists c].
  - take_register r n X Hr Hok s. take_answer. apply store_set_ok; [done|by apply dyn_set_ok].
  - take_register r n X Hr Hok s. take_answer. apply store_set_ok; [done|by apply dyn_unset_ok].
  - take_register r n X Hr Hok s. take_answer. apply store_set_ok; [done|by apply dyn_toggle_ok].
  - take_register r n X Hr Hok s. take_answer. apply store_set_ok; [done|by apply dyn_set_value_ok].
  - take_register r n X Hr Hok s. take_answer. apply store_set_ok; [done|by apply dyn_set_range_value_ok].
  - take_register r n X Hr Hok s. take_answer. apply store_set_ok; [done|by apply (dyn_set_all_ok s n X Hok)].
  - take_register r n X Hr Hok s. take_answer. apply store_set_ok; [done|by apply dyn_toggle_all_ok].
  - take_register r n X Hr Hok s. take_register other m Y Ho Hok' t. intros [Hg [-> ->]%Some_pair]%allowed_Some. apply store_set_ok; [done|by apply (dyn_binary_ok b s t n m X Y)].
  - take_register r n X Hr Hok s. take_answer. destruct (dyn_toggle_first_set_ok s n X Hok) as (s' & -> & Hs'). cbn [mbind outcome_bind].
    destruct (register_store r s' (n, without_first n X) Hr Hs') as [-> H2]. cbn [mbind outcome_bind]. by eexists.
  - take_register r n X Hr Hok s. take_answer. apply (ask_ok ABool), (dyn_is_set_ok s n X Hok _ Hg).
  - take_register r n X Hr Hok s. take_answer. apply (ask_ok ABool), (dyn_is_set_allow_ok s n X Hok).
  - take_register r n X Hr Hok s. take_answer. apply (ask_ok ANat). rewrite <- (elements_below_size n X (dyn_below s n X Hok)). by apply dyn_count_ok.
  - take_register r n X Hr Hok s. take_answer. apply (ask_ok AOption), (dyn_find_first_set_ok s n X Hok).
  - take_register r n X Hr Hok s. take_answer. apply (ask_ok AList). rewrite (dyn_length _ _ _ Hok). by apply (dyn_iterate_ok s n X).
  - take_register r n X Hr Hok s. take_register other m Y Ho Hok' t. intros [Hg [-> ->]%Some_pair]%allowed_Some. apply (ask_ok ABool). by apply dyn_compare_ok.
Qed.
End machine.

(** (C30) Dynamic bit sets are finite sets of indices: every sequence of operations on any number of them, from empty
    sets, that respects the preconditions (an index below the length, equal lengths, a copy from a set of as many
    words) returns without panic, a read out of bounds or of an uninitialised word, the answers of the specification:
    the operations are those on sets, growing fills what it adds, iteration is in order, forwards or backwards. *)
Theorem dynamic_bitsets_refine_sets (k : nat) (ops : list bits_op) (answers : list answer) (specs : list spec)
  (Hspec : spec_run (replicate k (0%nat, ∅)) ops = Some (answers, specs)) :
  exists regs, bits_run (replicate k dyn_default) ops = Ok (answers, regs) /\ Forall2 represents regs specs.
Proof.
  assert (HF : Forall2 represents (replicate k dyn_default) (replicate k (0%nat, ∅))) by (apply Forall2_replicate, dyn_default_ok).
  revert HF Hspec. generalize (replicate k dyn_default) as regs, (replicate k (0%nat, ∅ : gset nat)) as specs0. revert answers.
  induction ops as [|op ops IH]; intros answers regs specs0 HF; cbn [spec_run bits_run]; [intros [= <- <-]; by exists regs|].
  intros ([a w] & Hop & ([l specs1] & Hrun & [= <- <-])%bind_Some)%bind_Some.
  destruct (bits_step_ok regs specs0 HF op a w Hop) as (regs1 & -> & HF1). cbn [mbind outcome_bind].
  destruct (IH l regs1 _ HF1 Hrun) as (regs2 & -> & HF2). cbn [mbind outcome_bind]. by exists regs2.
Qed.

Definition sample_ops : list bits_op :=
  [OpResize 0 70 true; OpResize 1 130 false; OpRange 1 60 129 true; OpUnset 1 64; OpResize 0 130 false; OpBinary 0 BIntersection 1;
   OpIterate 0 true false; OpIterate 0 false true; OpCount 1; OpToggleFirst 1; OpFindFirst 1; OpCompare 0 CSubset 1; OpClone 1 0; OpResize 1 65 false; OpCount 1].
Definition sample_answers : list answer :=
  [ABool true; ABool true; ADone; ADone; ABool true; ADone;
   AList [69; 68; 67; 66; 65; 63; 62; 61; 60]%nat; AList (seq 0 60 ++ [64]%nat ++ seq 70 60); ANat 68; AOption (Some 60%nat); AOption (Some 61%nat);
   ABool false; ADone; ABool true; ANat 4].

Lemma dynamic_bitsets_refine_sets_witness :
  exists specs, spec_run (replicate 2 (0%nat, ∅)) sample_ops = Some (sample_answers, specs) /\
  exists regs, bits_run (replicate 2 dyn_default) sample_ops = Ok (sample_answers, regs) /\ Forall2 represents regs specs.
Proof.
  eexists. split; [by vm_compute|]. apply (dynamic_bitsets_refine_sets 2 sample_ops sample_answers). by vm_compute.
Defined.

(** ** Copying from a shorter set *)

Lemma poke_not_fuel mem i f : poke mem i f <> OutOfFuel.
Proof. unfold poke. by destruct (mem !! i) as [[]|]. Qed.

(** The loop reads a word of the source for each word of the destination. *)
Lemma zip_loop_short n i dst src f : (length src < i + n)%nat -> (i <= length src)%nat -> zip_loop n i dst src f = Panic.
Proof.
  revert i dst. induction n as [|n IH]; intros i dst Hn Hi; [lia|]. cbn [zip_loop].
  destruct (src !! i) as [[b|]|] eqn:E; [|done|done]. apply lookup_lt_Some in E.
  pose proof (poke_not_fuel dst i (fun a => f a b)) as Hp. destruct (poke dst i _) as [d| |]; [|done|done]. cbn [mbind outcome_bind]. apply IH; lia.
Qed.

(** The allocation a resize leaves, unless it fails. *)
Lemma resize_alloc s m fill s' : num_masks_for m <> 0%nat -> resize false s m fill = Ok (true, s') -> alloc_len s' = (num_masks_for m + 1)%nat.
Proof.
  intros Hm. unfold resize, dyn_realloc. rewrite (proj2 (Nat.eqb_neq _ _) Hm).
  destruct (Nat.eqb_spec (alloc_len s) (num_masks_for m + 1)) as [->|_];
    match goal with |- (x ← ?a; _) = _ -> _ => destruct a as [?| |]; cbn [mbind outcome_bind]; [|done|done] end;
    match goal with |- (x ← ?a; _) = _ -> _ => destruct a as [?| |]; cbn [mbind outcome_bind]; [|done|done] end; by intros [= <-].
Qed.

(** A new set has the memory of its own words, the empty one the static. *)
Lemma dyn_init_mem n fill s : dyn_init false n fill = Ok (Some s) -> length (mem s) = max 1 (num_masks_for n) /\ dyn_ok s n (if fill then set_seq 0 n else ∅).
Proof.
  unfold dyn_init. destruct (resize_ok false dyn_default 0 ∅ n fill dyn_default_ok) as (ok & s' & E & Hs). rewrite E. cbn [mbind outcome_bind].
  destruct ok; [|done]. intros [= ->]. split.
  - destruct (decide (num_masks_for n = 0%nat)) as [Hz|Hz].
    + unfold resize in E. rewrite Hz in E. cbn in E. injection E as <-. by rewrite Hz.
    + pose proof (resize_alloc _ _ _ _ Hz E) as Ha. destruct (dyn_mem _ _ _ Hs) as [[H _]|H]; lia.
  - replace (if fill then _ else _) with (resized 0 n fill ∅); [done|]. unfold resized. rewrite Nat.sub_0_r. apply set_eq. intros j. destruct fill; set_solver.
Qed.

(** [DynamicBitSet::copy_into] asks for a destination at least as long as the source. On new sets it copies, cut
    to the destination's length, when the destination has no more words than the source; when it has more, and more
    than the one static word of an empty set, it reads behind the source's allocation. *)
Theorem copy_into_reads_past_the_source (n m : nat) (fill fill' : bool) (a b : DynamicBitSetUnmanaged)
  (Ha : dyn_init false n fill = Ok (Some a)) (Hb : dyn_init false m fill' = Ok (Some b)) :
  if (num_masks_for m <=? num_masks_for n)%nat
  then exists b', copy_into a b = Ok b' /\ dyn_ok b' m (if fill then set_seq 0 (min n m) else ∅)
  else (max 1 (num_masks_for n) < num_masks_for m)%nat -> copy_into a b = Panic.
Proof.
  destruct (dyn_init_mem _ _ _ Ha) as [La Oa], (dyn_init_mem _ _ _ Hb) as [Lb Ob]. unfold copy_into.
  destruct (Nat.leb_spec (num_masks_for m) (num_masks_for n)) as [Hle|Hgt].
  - destruct (dyn_copy_into_ok b m _ Ob a n _ Oa Hle) as (b' & -> & Hb'). exists b'. split; [done|].
    replace (if fill then _ else _) with (filter (fun i => i < m)%nat (if fill then set_seq 0 n else ∅ : gset nat)); [done|].
    apply set_eq. intros j. destruct fill; [rewrite elem_of_filter, !elem_of_set_seq; lia|set_solver].
  - intros Hlt. unfold dyn_copy_into, zip_masks_raw. rewrite (dyn_length _ _ _ Ob).
    destruct (Nat.eqb_spec m 0) as [->|_]; [by cbn in Hlt; lia|]. by rewrite zip_loop_short by (rewrite ?La; lia).
Qed.

Lemma copy_into_reads_past_the_source_witness :
  exists a b c, dyn_init false 64 true = Ok (Some a) /\ dyn_init false 65 false = Ok (Some b) /\ dyn_init false 60 false = Ok (Some c) /\ copy_into a b = Panic /\ exists c', copy_into a c = Ok c' /\ dyn_ok c' 60 (set_seq 0 60).
Proof.
  eexists _, _, _. split; [reflexivity|]. split; [reflexivity|]. split; [reflexivity|]. split.
  - apply (copy_into_reads_past_the_source 64 65 true false); [reflexivity|reflexivity|]. apply Nat.ltb_lt. reflexivity.
  - by apply (copy_into_reads_past_the_source 64 60 true false).
Defined.

(** ** [AutoBitSet] *)

Section held.
Context (n : nat) (ms : list Z) (X : gset nat) (HX : words_hold n ms X).

(** A change of the words that says where it leads, index by index. *)
Lemma hold_step f P Y :
  (exists ms', f ms = Ok ms' /\ becomes ms ms' P) -> (forall j, P j = (fun j => bool_decide (j ∈ Y)) j) -> (forall j, j ∈ Y -> (j < n)%nat) ->
  exists ms', f ms = Ok ms' /\ words_hold n ms' Y.
Proof. intros (ms' & E & HB) HP HY. exists ms'. split; [done|]. apply (hold_becomes n ms X ms' P Y HX HB); [|done]. intros j _. apply HP. Qed.

Lemma hold_set i : (i < n)%nat -> exists ms', words_set ms i = Ok ms' /\ words_hold n ms' (X ∪ {[i]}).
Proof.
  intros Hi. pose proof (hold_below _ _ _ HX). eapply (hold_step (fun m => words_set m i)); [by apply words_set_ok; [apply HX|eapply hold_index]| |set_solver].
  intros j. cbn beta. rewrite (hold_bits _ _ _ HX). member; naive_solver.
Qed.

Lemma hold_unset i : (i < n)%nat -> exists ms', words_unset ms i = Ok ms' /\ words_hold n ms' (X ∖ {[i]}).
Proof.
  intros Hi. pose proof (hold_below _ _ _ HX). eapply (hold_step (fun m => words_unset m i)); [by apply words_unset_ok; [apply HX|eapply hold_index]| |set_solver].
  intros j. cbn beta. rewrite (hold_bits _ _ _ HX). member; naive_solver.
Qed.

Lemma hold_set_all v : (0 < n)%nat ->
  exists ms', clear_padding n (replicate (length ms) (bool_mask_usize v)) = Ok ms' /\ words_hold n ms' (if v then set_seq 0 n else ∅).
Proof.
  intros Hn. destruct (replicate_becomes ms v) as [L W B].
  destruct (clear_padding_ok (replicate (length ms) (bool_mask_usize v)) n W Hn) as (ms' & E & [L' W' B']); [rewrite L; apply HX|].
  exists ms'. split; [done|]. apply (hold_becomes n ms X ms' (fun j => v && (j <? n)%nat) _ HX).
  - split; [congruence|done|]. intros j Hj. by rewrite B', B by (rewrite ?L; done).
  - intros j _. destruct v; member; [lia|set_solver].
  - intros j. destruct v; [rewrite elem_of_set_seq; lia|set_solver].
Qed.
End held.

Lemma hold_empty n : words_hold n (replicate (num_masks_for n) 0) ∅.
Proof.
  split; [apply length_replicate|by apply Forall_replicate| |set_solver]. intros j.
  rewrite bool_decide_false by set_solver. pose proof (has_app_replicate [] (num_masks_for n) false j) as H. cbn [length app bool_mask_usize] in H.
  destruct (decide (j < 64 * num_masks_for n)%nat); [apply H; lia|]. apply has_above. rewrite length_replicate. lia.
Qed.

(** The length a set answers for: the inline words hold 127 indices whatever was asked for. *)
Definition universe (n : nat) : nat := if (n <=? AUTO_STATIC_BITS)%nat then AUTO_STATIC_BITS else n.

Definition auto_ok (n : nat) (b : AutoBitSet) (X : gset nat) : Prop :=
  match b with
  | Static s => (n <= AUTO_STATIC_BITS)%nat /\ words_hold (universe n) (array_masks s) X
  | Dynamic d => (AUTO_STATIC_BITS < n)%nat /\ dyn_ok d (universe n) X
  end.

Lemma universe_static n : (n <= AUTO_STATIC_BITS)%nat -> universe n = AUTO_STATIC_BITS.
Proof. intros H. unfold universe. by rewrite (proj2 (Nat.leb_le _ _) H). Qed.
Lemma universe_dynamic n : (AUTO_STATIC_BITS < n)%nat -> universe n = n.
Proof. intros H. unfold universe. by rewrite (proj2 (Nat.leb_gt _ _) H). Qed.

Inductive auto_op := AutoSet (i : nat) | AutoUnset (i : nat) | AutoSetAll (v : bool) | AutoClone.

Definition auto_step (b : AutoBitSet) (op : auto_op) : outcome AutoBitSet :=
  match op with
  | AutoSet i => auto_set b i
  | AutoUnset i => auto_unset b i
  | AutoSetAll v => auto_set_all b v
  | AutoClone => c ← auto_clone false b; match c with Some c => Ok c | None => Panic end
  end.
Fixpoint auto_steps (b : AutoBitSet) (ops : list auto_op) : outcome AutoBitSet :=
  match ops with
  | [] => Ok b
  | op :: ops => b ← auto_step b op; auto_steps b ops
  end.
Definition auto_run (n : nat) (ops : list auto_op) : outcome AutoBitSet :=
  b ← auto_init_empty false n; match b with Some b => auto_steps b ops | None => Panic end.

Definition auto_spec_step (n : nat) (X : gset nat) (op : auto_op) : option (gset nat) :=
  match op with
  | AutoSet i => if (i <? universe n)%nat then Some (X ∪ {[i]}) else None
  | AutoUnset i => if (i <? universe n)%nat then Some (X ∖ {[i]}) else None
  | AutoSetAll v => Some (if v then set_seq 0 (universe n) else ∅)
  | AutoClone => Some X
  end.
Fixpoint auto_spec_steps (n : nat) (X : gset nat) (ops : list auto_op) : option (gset nat) :=
  match ops with
  | [] => Some X
  | op :: ops => X ← auto_spec_step n X op; auto_spec_steps n X ops
  end.

(** The same conclusion on either arm. *)
Lemma auto_update_ok n b X f g Y :
  auto_ok n b X ->
  ((n <= AUTO_STATIC_BITS)%nat -> forall ms, words_hold AUTO_STATIC_BITS ms X -> exists ms', f (mkArray ms) = Ok (mkArray ms') /\ words_hold AUTO_STATIC_BITS ms' Y) ->
  ((AUTO_STATIC_BITS < n)%nat -> forall d, dyn_ok d n X -> exists d', g d = Ok d' /\ dyn_ok d' n Y) ->
  exists b', auto_update b f g = Ok b' /\ auto_ok n b' Y.
Proof.
  destruct b as [[ms]|d]; cbn [auto_ok auto_update array_masks]; intros [Hn HX] Hf Hg.
  - rewrite universe_static in HX by done. destruct (Hf Hn ms HX) as (ms' & -> & H). exists (Static (mkArray ms')). split; [done|].
    cbn [auto_ok array_masks]. by rewrite universe_static.
  - rewrite universe_dynamic in HX by done. destruct (Hg Hn d HX) as (d' & -> & H). exists (Dynamic d'). split; [done|].
    cbn [auto_ok]. by rewrite universe_dynamic.
Qed.

(** An operation on one index of the inline words. *)
Lemma array_update_held ms f Y :
  (exists ms', f ms = Ok ms' /\ words_hold AUTO_STATIC_BITS ms' Y) ->
  exists ms', array_update AUTO_STATIC_BITS (mkArray ms) f = Ok (mkArray ms') /\ words_hold AUTO_STATIC_BITS ms' Y.
Proof. intros (ms' & E & H). exists ms'. split; [|done]. unfold array_update. cbn [array_masks]. by rewrite E. Qed.

Lemma auto_step_ok n b X op Y :
  auto_ok n b X -> auto_spec_step n X op = Some Y -> exists b', auto_step b op = Ok b' /\ auto_ok n b' Y.
Proof.
  intros Hb. destruct op as [i|i|v|]; cbn [auto_spec_step auto_step].
  - destruct (Nat.ltb_spec i (universe n)) as [Hi|]; [|done]. intros [= <-]. apply (auto_update_ok n b X); [done| |].
    + intros Hn ms HX. rewrite universe_static in Hi by done. apply array_update_held. by apply hold_set.
    + intros Hn d HX. rewrite universe_dynamic in Hi by done. by apply dyn_set_ok.
  - destruct (Nat.ltb_spec i (universe n)) as [Hi|]; [|done]. intros [= <-]. apply (auto_update_ok n b X); [done| |].
    + intros Hn ms HX. rewrite universe_static in Hi by done. apply array_update_held. by apply hold_unset.
    + intros Hn d HX. rewrite universe_dynamic in Hi by done. by apply dyn_unset_ok.
  - intros [= <-]. apply (auto_update_ok n b X); [done| |].
    + intros Hn ms HX. rewrite universe_static by done. destruct (hold_set_all _ ms X HX v) as (ms' & E & H); [apply Nat.ltb_lt; by vm_compute|].
      exists ms'. split; [|done]. unfold array_set_all, array_padding. cbn [array_masks]. rewrite (proj2 (Nat.ltb_lt 0 _)) by (apply Nat.ltb_lt; by vm_compute).
      unfold bool_mask_usize in E. by rewrite E.
    + intros Hn d HX. rewrite universe_dynamic by done. by apply (dyn_set_all_ok d n X).
  - intros [= <-]. destruct b as [s|d]; cbn [auto_clone]; [by exists (Static s)|]. destruct Hb as [Hn Hd].
    destruct (dyn_clone_ok d (universe n) X Hd) as (c & -> & Hc). cbn. by exists (Dynamic c).
Qed.

Lemma auto_run_ok n ops X : auto_spec_steps n ∅ ops = Some X -> exists b, auto_run n ops = Ok b /\ auto_ok n b X.
Proof.
  unfold auto_run, auto_init_empty. intros Hops.
  assert (exists b0, (if (n <=? AUTO_STATIC_BITS)%nat then Ok (Some (Static (array_init_empty AUTO_STATIC_BITS)))
                      else d ← dyn_init_empty false n; Ok (option_map Dynamic d)) = Ok (Some b0) /\ auto_ok n b0 ∅) as (b0 & -> & H0).
  { destruct (Nat.leb_spec n AUTO_STATIC_BITS) as [Hn|Hn].
    - eexists. split; [done|]. split; [done|]. rewrite universe_static by done. apply hold_empty.
    - unfold dyn_init_empty, dyn_init. destruct (resize_ok false dyn_default 0 ∅ n false dyn_default_ok) as (ok & s & -> & Hs). cbn [mbind outcome_bind].
      destruct ok; [|by destruct Hs]. exists (Dynamic s). split; [done|]. split; [done|]. rewrite universe_dynamic by done.
      by replace (∅ : gset nat) with (resized 0 n false ∅) by (unfold resized; set_solver). }
  cbn [mbind outcome_bind]. revert b0 H0 Hops. generalize (∅ : gset nat) as Z.
  induction ops as [|op ops IH]; intros Z b0 H0; cbn [auto_spec_steps auto_steps]; [intros [= <-]; by exists b0|].
  intros (Y & Hop & Hrun)%bind_Some. destruct (auto_step_ok n b0 Z op Y H0 Hop) as (b1 & -> & H1). cbn [mbind outcome_bind]. by apply (IH Y).
Qed.

(** The words of either arm. *)
Definition auto_words (b : AutoBitSet) : outcome (list Z) := match b with Static s => Ok (array_masks s) | Dynamic d => masks_slice d end.

Lemma auto_words_ok n b X : auto_ok n b X -> exists ms, auto_words b = Ok ms /\ words_hold (universe n) ms X.
Proof. destruct b as [s|d]; intros [Hn H]; [by exists (array_masks s)|by apply (dyn_masks d _ X)]. Qed.

Lemma le_words_inj (a b : list Z) :
  Forall word_ok a -> Forall word_ok b -> length a = length b -> concat (le_bytes 8 <$> a) = concat (le_bytes 8 <$> b) -> a = b.
Proof.
  intros Ha. revert b. induction Ha as [|x a Hx Ha IH]; intros [|y b] Hb Hl; try done. apply list.Forall_cons in Hb as [Hy Hb].
  cbn [fmap list_fmap concat]. intros [Hxy Hab]%app_inj_1; [|by rewrite !le_bytes_length]. f_equal; [|apply IH; auto].
  apply (f_equal le_value) in Hxy. rewrite !le_value_bytes in Hxy. unfold word_ok in *. rewrite !Z.mod_small in Hxy; done.
Qed.

(** Two sets of one length. *)
Lemma auto_eql_ok n a b X Y : auto_ok n a X -> auto_ok n b Y -> auto_eql a b = Ok (bool_decide (X = Y)).
Proof.
  intros Ha Hb. destruct (auto_words_ok n a X Ha) as (ma & Ea & HA), (auto_words_ok n b Y Hb) as (mb & Eb & HB).
  unfold auto_eql, auto_raw_bytes. unfold auto_words in Ea, Eb. rewrite Ea, Eb. cbn [mbind outcome_bind]. f_equal.
  rewrite <- (words_eq_ok (universe n) ma mb X Y HA HB). apply bool_decide_ext. split; [|by intros ->].
  apply le_words_inj; [apply HA|apply HB|]. by rewrite (hold_length _ _ _ HA), (hold_length _ _ _ HB).
Qed.

Lemma auto_hash_ok n a b X : auto_ok n a X -> auto_ok n b X -> auto_hash a = auto_hash b.
Proof.
  intros Ha Hb. destruct (auto_words_ok n a X Ha) as (ma & Ea & HA), (auto_words_ok n b X Hb) as (mb & Eb & HB).
  unfold auto_hash, auto_raw_bytes. unfold auto_words in Ea, Eb. rewrite Ea, Eb. by rewrite (hold_inj _ _ _ _ HA HB).
Qed.

(** The questions a set answers. *)
Lemma auto_is_set_ok n b X i : auto_ok n b X -> (i < universe n)%nat -> auto_is_set b i = Ok (bool_decide (i ∈ X)).
Proof.
  destruct b as [s|d]; intros [Hn H] Hi; [|by apply (dyn_is_set_ok d (universe n) X)]. unfold auto_is_set, array_is_set.
  rewrite words_is_set_ok by (apply H || by eapply hold_index). by rewrite (hold_bits _ _ _ H).
Qed.

Lemma auto_count_ok n b X : auto_ok n b X -> auto_count b = Ok (size X).
Proof.
  destruct b as [s|d]; intros [Hn H].
  - unfold auto_count, array_count. by rewrite words_count_ok, (hold_bits_of _ _ _ H), elements_below_size by apply H.
  - unfold auto_count. rewrite (dyn_count_ok d (universe n) X H), elements_below_size; [done|by apply (dyn_below d)].
Qed.

Lemma auto_find_first_ok n b X : auto_ok n b X -> auto_find_first_set b = Ok (head (elements_below (universe n) X)).
Proof.
  destruct b as [s|d]; intros [Hn H]; [|by apply dyn_find_first_set_ok]. unfold auto_find_first_set, array_find_first_set.
  by rewrite find_first_ok, indices_bits, (hold_bits_of _ _ _ H) by apply H.
Qed.

Lemma auto_iterate_ok n b X kind fwd :
  auto_ok n b X ->
  (it ← auto_iterator kind fwd b; iterate kind fwd (universe n) it) =
  Ok ((if fwd then id else rev (A := nat)) (elements_below (universe n) (if kind then X else set_seq 0 (universe n) ∖ X))).
Proof.
  destruct b as [s|d]; intros [Hn H]; [|by apply (dyn_iterate_ok d (universe n) X)]. unfold auto_iterator, array_iterator.
  rewrite universe_static in * by done. by apply iterate_hold.
Qed.

Lemma auto_has_intersection_ok n a b X Y : auto_ok n a X -> auto_ok n b Y -> auto_has_intersection a b = Ok (bool_decide (X ∩ Y <> ∅)).
Proof.
  destruct a as [s|d], b as [t|e]; intros [Hn H] [Hm K]; [|lia|lia|by apply (dyn_has_intersection_ok d e (universe n) (universe n))].
  unfold auto_has_intersection, array_has_intersection. by rewrite (words_intersect_ok (universe n) _ _ X Y).
Qed.

(** (C31) An [AutoBitSet] of length [n] is a finite set of indices, inline or on the heap: after any operations within
    its length it answers as the set does, by index, count, first index and iteration either way. Two of one length have
    equal bytes exactly when they are the same set, and equal hashes then: they are keys. The inline form answers for
    127 indices, whatever the length asked for, and [set_all] sets them all. *)
Theorem auto_bitsets_refine_sets (n : nat) (ops ops' : list auto_op) (X Y : gset nat)
  (HX : auto_spec_steps n ∅ ops = Some X) (HY : auto_spec_steps n ∅ ops' = Some Y) :
  exists a b, auto_run n ops = Ok a /\ auto_run n ops' = Ok b /\
    (forall i, (i < universe n)%nat -> auto_is_set a i = Ok (bool_decide (i ∈ X))) /\
    auto_count a = Ok (size X) /\
    auto_find_first_set a = Ok (head (elements_below (universe n) X)) /\
    (forall kind fwd, (it ← auto_iterator kind fwd a; iterate kind fwd (universe n) it) =
       Ok ((if fwd then id else rev (A := nat)) (elements_below (universe n) (if kind then X else set_seq 0 (universe n) ∖ X)))) /\
    auto_has_intersection a b = Ok (bool_decide (X ∩ Y <> ∅)) /\
    auto_eql a b = Ok (bool_decide (X = Y)) /\
    (X = Y -> auto_hash a = auto_hash b).
Proof.
  destruct (auto_run_ok n ops X HX) as (a & Ea & Ha), (auto_run_ok n ops' Y HY) as (b & Eb & Hb). exists a, b. split_and!; [done|done|..].
  - intros i. by apply (auto_is_set_ok n).
  - by apply (auto_count_ok n).
  - by apply (auto_find_first_ok n).
  - intros kind fwd. by apply (auto_iterate_ok n).
  - by apply (auto_has_intersection_ok n).
  - by apply (auto_eql_ok n).
  - intros <-. by apply (auto_hash_ok n a b X).
Qed.

Lemma auto_bitsets_refine_sets_witness :
  exists a b, auto_run 130 [AutoSet 129; AutoSetAll true; AutoUnset 3] = Ok a /\ auto_run 130 [AutoSet 3] = Ok b /\
    auto_count a = Ok 129%nat /\ auto_has_intersection a b = Ok false.
Proof.
  destruct (auto_bitsets_refine_sets 130 [AutoSet 129; AutoSetAll true; AutoUnset 3] [AutoSet 3] (set_seq 0 130 ∖ {[3%nat]}) (∅ ∪ {[3%nat]}))
    as (a & b & Ha & Hb & _ & Hc & _ & _ & Hi & _); [reflexivity|reflexivity|].
  exists a, b. split; [exact Ha|]. split; [exact Hb|]. split; [rewrite Hc; by vm_compute|]. rewrite Hi. by vm_compute.
Defined.

(** ** [DynamicBitSetList] *)

Section bitset_list.
Context (bl : nat).
Local Notation single := (num_masks_for bl + 1)%nat.

(** A header and the words of a set. *)
Definition block (ms : list Z) : list (option Z) := Some (Z.of_nat single) :: (Some <$> ms).

(** The list holds the sets [Xs], all of length [bl]. *)
Definition list_ok (l : DynamicBitSetList) (Xs : list (gset nat)) : Prop :=
  list_bit_length l = bl /\ list_n l = length Xs /\
  exists mss, list_buf l = concat (block <$> mss) /\ Forall2 (words_hold bl) mss Xs.

Lemma blocks_length mss : Forall (fun ms => length ms = num_masks_for bl) mss -> length (concat (block <$> mss)) = (single * length mss)%nat.
Proof.
  induction 1 as [|ms mss Hms _ IH]; cbn [fmap list_fmap concat length]; [lia|].
  rewrite length_app, IH. unfold block. cbn [length]. rewrite length_fmap, Hms. lia.
Qed.

(** The buffer around set [i]. *)
Lemma blocks_at (mss : list (list Z)) i ms :
  Forall (fun ms => length ms = num_masks_for bl) mss -> mss !! i = Some ms ->
  exists front back, length front = (single * i + 1)%nat /\ concat (block <$> mss) = front ++ (Some <$> ms) ++ back /\
    forall ms', concat (block <$> <[i := ms']> mss) = front ++ (Some <$> ms') ++ back.
Proof.
  intros Hl Hi. exists (concat (block <$> take i mss) ++ [Some (Z.of_nat single)]), (concat (block <$> drop (S i) mss)). split_and!.
  - rewrite length_app, blocks_length by (by apply Forall_take). cbn [length]. rewrite length_take. apply lookup_lt_Some in Hi. lia.
  - rewrite <- (take_drop_middle mss i ms Hi) at 1. by rewrite fmap_app, concat_app, <- !app_assoc.
  - intros ms'. rewrite insert_take_drop by (by eapply lookup_lt_Some). by rewrite fmap_app, concat_app, <- !app_assoc.
Qed.

Lemma hold_lengths mss Xs : Forall2 (words_hold bl) mss Xs -> Forall (fun ms => length ms = num_masks_for bl) mss.
Proof. induction 1 as [|? ? ? ? [? _ _ _]]; constructor; done. Qed.

(** A view of set [i], and the buffer after a write through it. *)
Lemma list_view l Xs i X :
  list_ok l Xs -> Xs !! i = Some X ->
  exists ms, masks_slice (list_at l i) = Ok ms /\ words_hold bl ms X /\
    forall ms' Y, words_hold bl ms' Y -> list_ok (list_write_back l i (with_masks (list_at l i) ms')) (<[i := Y]> Xs).
Proof.
  intros (Hbl & Hn & mss & Hbuf & HF) Hi. destruct (Forall2_lookup_r _ _ _ _ _ HF Hi) as (ms & Hms & HX).
  destruct (blocks_at mss i ms (hold_lengths _ _ HF) Hms) as (front & back & Hf & Hb & Hw).
  assert (Hmem : mem (list_at l i) = (Some <$> ms) ++ back).
  { unfold list_at, list_offset. cbn [mem]. rewrite Hbl, Hbuf, Hb. by rewrite drop_app_length'. }
  exists ms. split_and!.
  - unfold masks_slice. rewrite Hmem. unfold list_at. cbn [bit_length]. rewrite Hbl, <- (hold_length _ _ _ HX). apply read_words_app.
  - done.
  - intros ms' Y HY. unfold list_ok, list_write_back. cbn [list_bit_length list_n list_buf]. rewrite length_insert. split_and!; [done|done|].
    exists (<[i := ms']> mss). split; [|by apply Forall2_insert]. rewrite Hw. unfold with_masks. cbn [mem].
    rewrite Hmem, drop_app_length' by (by rewrite length_fmap, (hold_length _ _ _ HX), (hold_length _ _ _ HY)).
    unfold list_offset. rewrite Hbl, Hbuf, Hb. by rewrite take_app_length'.
Qed.

(** The words a set lends to a union. *)
Definition lends (s : DynamicBitSetUnmanaged) (Y : gset nat) : Prop :=
  exists b, read_words (num_masks_for bl) (mem s) = Ok b /\ words_hold bl b Y.

Lemma dyn_lends s Y : dyn_ok s bl Y -> lends s Y.
Proof. intros Hs. destruct (dyn_masks s bl Y Hs) as (b & Hb & HY). exists b. unfold masks_slice in Hb. by rewrite (dyn_length _ _ _ Hs) in Hb. Qed.

Lemma view_lends l Xs k Y : list_ok l Xs -> Xs !! k = Some Y -> lends (list_at l k) Y.
Proof.
  intros Hl Hk. destruct (list_view l Xs k Y Hl Hk) as (b & Hb & HY & _). exists b. split; [|done]. destruct Hl as [Hbl _].
  unfold masks_slice in Hb. unfold list_at in Hb at 1. cbn [bit_length] in Hb. by rewrite Hbl in Hb.
Qed.

Lemma list_set_ok l Xs i X j :
  list_ok l Xs -> Xs !! i = Some X -> (j < bl)%nat -> exists l', list_set l i j = Ok l' /\ list_ok l' (<[i := X ∪ {[j]}]> Xs).
Proof.
  intros Hl Hi Hj. destruct (list_view l Xs i X Hl Hi) as (ms & Hms & HX & Hw). destruct (hold_set bl ms X HX j Hj) as (ms' & E & HY).
  unfold list_set, dyn_set, dyn_update. rewrite Hms. cbn [mbind outcome_bind]. rewrite E. cbn [mbind outcome_bind]. eexists. split; [done|]. by apply Hw.
Qed.

Lemma list_set_union_ok l Xs i X d Y :
  list_ok l Xs -> Xs !! i = Some X -> lends d Y -> exists l', list_set_union l i d = Ok l' /\ list_ok l' (<[i := X ∪ Y]> Xs).
Proof.
  intros Hl Hi (b & Hb & HY). destruct (list_view l Xs i X Hl Hi) as (ms & Hms & HX & Hw).
  unfold list_set_union, dyn_set_union. assert (Hbl : bit_length (list_at l i) = bl) by apply Hl.
  rewrite (zip_masks_eq _ d Z.lor ms b Hms) by (by rewrite Hbl). cbn [mbind outcome_bind]. eexists. split; [done|]. apply Hw.
  pose proof (hold_below _ _ _ HX). pose proof (hold_below _ _ _ HY).
  apply (hold_becomes bl ms X _ (fun j => has ms j || has b j) _ HX); [| |set_solver].
  - apply zip_becomes; [apply HX|apply HY| |auto with words|intros; by rewrite Z.lor_spec].
    by rewrite (hold_length _ _ _ HX), (hold_length _ _ _ HY).
  - intros j _. cbn beta. rewrite (hold_bits _ _ _ HX), (hold_bits _ _ _ HY). member. naive_solver.
Qed.

Lemma list_init_ok n : exists l, list_init_empty false n bl = Some l /\ list_ok l (replicate n ∅).
Proof.
  unfold list_init_empty. destruct (Nat.eqb_spec (single * n) 0) as [E|_].
  - assert (n = 0%nat) as -> by lia. eexists. split; [done|]. split; [done|]. split; [done|]. by exists [].
  - eexists. split; [done|]. split; [done|]. split; [by rewrite length_replicate|]. exists (replicate n (replicate (num_masks_for bl) 0)). split.
    + cbn [list_buf]. f_equal. rewrite fmap_replicate. unfold block. by rewrite fmap_replicate.
    + apply Forall2_replicate, hold_empty.
Qed.
End bitset_list.

(** What is done to a list: bits set, unions of a set of the list, or of a dynamic set of the same length. *)
Inductive list_op := ListSet (i j : nat) | ListUnion (i k : nat) | ListUnionWith (i : nat) (d : DynamicBitSetUnmanaged).

Definition list_step (l : DynamicBitSetList) (op : list_op) : outcome DynamicBitSetList :=
  match op with
  | ListSet i j => list_set l i j
  | ListUnion i k => list_set_union l i (list_at l k)
  | ListUnionWith i d => list_set_union l i d
  end.
Fixpoint list_run (l : DynamicBitSetList) (ops : list list_op) : outcome DynamicBitSetList :=
  match ops with
  | [] => Ok l
  | op :: ops => l ← list_step l op; list_run l ops
  end.

(** The elements a bit set of the model shows. *)
Definition dyn_elements (d : DynamicBitSetUnmanaged) : outcome (list nat) :=
  it ← dyn_iterator true true d; iterate true true (bit_length d) it.

(** A step of the specification: sets that do not know of each other. *)
Inductive list_spec_step (bl : nat) (Xs : list (gset nat)) : list_op -> list (gset nat) -> Prop :=
| spec_list_set i j X : Xs !! i = Some X -> (j < bl)%nat -> list_spec_step bl Xs (ListSet i j) (<[i := X ∪ {[j]}]> Xs)
| spec_list_union i k X Y : Xs !! i = Some X -> Xs !! k = Some Y -> list_spec_step bl Xs (ListUnion i k) (<[i := X ∪ Y]> Xs)
| spec_list_union_with i d X Y : Xs !! i = Some X -> dyn_ok d bl Y -> list_spec_step bl Xs (ListUnionWith i d) (<[i := X ∪ Y]> Xs).
Inductive list_spec_run (bl : nat) (Xs : list (gset nat)) : list list_op -> list (gset nat) -> Prop :=
| spec_list_done : list_spec_run bl Xs [] Xs
| spec_list_next op ops Ys Zs : list_spec_step bl Xs op Ys -> list_spec_run bl Ys ops Zs -> list_spec_run bl Xs (op :: ops) Zs.

Lemma list_elements_ok bl l Xs i X : list_ok bl l Xs -> Xs !! i = Some X -> dyn_elements (list_at l i) = Ok (elements_below bl X).
Proof.
  intros Hl Hi. destruct (list_view bl l Xs i X Hl Hi) as (ms & Hms & HX & _). unfold dyn_elements, dyn_iterator. rewrite Hms. cbn [mbind outcome_bind].
  assert (Hbl : bit_length (list_at l i) = bl) by apply Hl. rewrite Hbl. by apply (iterate_hold true true bl ms X bl HX).
Qed.

(** The sets of a [DynamicBitSetList] share one allocation and do not disturb one another: after any operations
    through its views, each of the [n] sets shows, in order, exactly the elements that the same operations on [n]
    separate finite sets give it. *)
Theorem bitset_list_keeps_sets_apart (n bl : nat) (ops : list list_op) (Xs : list (gset nat))
  (Hspec : list_spec_run bl (replicate n ∅) ops Xs) :
  exists l0 l, list_init_empty false n bl = Some l0 /\ list_run l0 ops = Ok l /\ length Xs = n /\
    forall i X, Xs !! i = Some X -> dyn_elements (list_at l i) = Ok (elements_below bl X).
Proof.
  destruct (list_init_ok bl n) as (l0 & E0 & H0). exists l0.
  assert (exists l, list_run l0 ops = Ok l /\ list_ok bl l Xs /\ length Xs = n) as (l & El & Hl & Hn).
  { clear E0. assert (Hlen : length (replicate n (∅ : gset nat)) = n) by apply length_replicate. revert l0 H0 Hlen.
    induction Hspec as [Xs|Xs op ops Ys Zs Hop _ IH]; intros l0 H0 Hlen; cbn [list_run]; [by exists l0|].
    assert (exists l1, list_step l0 op = Ok l1 /\ list_ok bl l1 Ys) as (l1 & -> & H1).
    { destruct Hop as [i j X Hi Hj|i k X Y Hi Hk|i d X Y Hi Hd]; cbn [list_step].
      - by apply list_set_ok.
      - eapply list_set_union_ok; [done|done|by eapply view_lends].
      - eapply list_set_union_ok; [done|done|by apply dyn_lends]. }
    cbn [mbind outcome_bind]. apply IH; [done|]. destruct Hop; by rewrite length_insert. }
  exists l. split_and!; [done|done|done|]. intros i X Hi. by eapply list_elements_ok.
Qed.

Lemma bitset_list_keeps_sets_apart_witness :
  exists l0 l, list_init_empty false 3 70 = Some l0 /\ list_run l0 [ListSet 0 69; ListSet 1 3; ListUnion 0 1] = Ok l /\
    dyn_elements (list_at l 0) = Ok [3; 69]%nat /\ dyn_elements (list_at l 1) = Ok [3%nat] /\ dyn_elements (list_at l 2) = Ok [].
Proof.
  destruct (bitset_list_keeps_sets_apart 3 70 [ListSet 0 69; ListSet 1 3; ListUnion 0 1]
    (<[0%nat := (∅ ∪ {[69%nat]}) ∪ (∅ ∪ {[3%nat]})]> (<[1%nat := ∅ ∪ {[3%nat]}]> (<[0%nat := ∅ ∪ {[69%nat]}]> (replicate 3 ∅)))))
    as (l0 & l & E0 & El & _ & H).
  { repeat (eapply spec_list_next; [econstructor; first [reflexivity|lia]|]). apply spec_list_done. }
  exists l0, l. split_and!; [exact E0|exact El|rewrite (H 0%nat _ eq_refl); by vm_compute|rewrite (H 1%nat _ eq_refl); by vm_compute|].
  rewrite (H 2%nat _ eq_refl). by vm_compute.
Defined.
