(* ===== verification/Interleaving.v ===== *)
(** * Threads that interleave

    A system is a shared state and a list of threads. Every thread runs the same code, written as a partial step
    function from a choice, the shared state and a local state; a step that does not exist blocks the thread. A step
    may wake sleeping threads, as the kernel does for a futex. Runs are lists of events, so that they can be computed;
    invariants are proved by induction on them. Atomic operations interleave in one order (sequential consistency). *)

From stdpp Require Import list.
From S2P Require Import Prelude.

(** ** Sums over the threads *)

Section tally.
Context {L : Type}.
Implicit Types (w v : L -> Z) (ts : list L).

Fixpoint tally w ts : Z := match ts with [] => 0 | l :: ts => w l + tally w ts end.

Lemma tally_app w a b : tally w (a ++ b) = tally w a + tally w b.
Proof. induction a as [|l a IH]; cbn [tally app]; [done|]. rewrite IH. lia. Qed.

Lemma tally_split w ts i l : ts !! i = Some l -> tally w ts = tally w (take i ts) + w l + tally w (drop (S i) ts).
Proof. intros Hi. rewrite <- (take_drop_middle ts i l Hi) at 1. rewrite tally_app. cbn [tally]. lia. Qed.

Lemma tally_insert w ts i l l' : ts !! i = Some l -> tally w (<[i := l']> ts) = tally w ts - w l + w l'.
Proof.
  intros Hi. rewrite (tally_split w ts i l Hi), insert_take_drop by (by eapply lookup_lt_Some). rewrite tally_app. cbn [tally]. lia.
Qed.

Lemma tally_le w v ts : (forall l, w l <= v l) -> tally w ts <= tally v ts.
Proof. intros H. induction ts as [|l ts IH]; cbn [tally]; [done|]. specialize (H l). lia. Qed.

Lemma tally_ext w v ts : (forall l, w l = v l) -> tally w ts = tally v ts.
Proof. intros H. induction ts as [|l ts IH]; cbn [tally]; [done|]. by rewrite H, IH. Qed.

Lemma tally_le_Forall w v ts (P : L -> Prop) : Forall P ts -> (forall l, P l -> w l <= v l) -> tally w ts <= tally v ts.
Proof. intros HF H. induction HF as [|l ts Hl _ IH]; cbn [tally]; [done|]. specialize (H l Hl). lia. Qed.

Lemma tally_nonneg_Forall w ts (P : L -> Prop) : Forall P ts -> (forall l, P l -> 0 <= w l) -> 0 <= tally w ts.
Proof. intros HF H. induction HF as [|l ts Hl _ IH]; cbn [tally]; [done|]. specialize (H l Hl). lia. Qed.

Lemma tally_bound w ts k : (forall l, w l <= k) -> tally w ts <= k * Z.of_nat (length ts).
Proof. intros H. induction ts as [|l ts IH]; cbn [tally length]; [lia|]. specialize (H l). lia. Qed.

Lemma tally_add w v ts : tally (fun l => w l + v l) ts = tally w ts + tally v ts.
Proof. induction ts as [|l ts IH]; cbn [tally]; [done|]. rewrite IH. lia. Qed.

Lemma tally_nonneg w ts : (forall l, 0 <= w l) -> 0 <= tally w ts.
Proof. intros H. induction ts as [|l ts IH]; cbn [tally]; [done|]. specialize (H l). lia. Qed.

Lemma tally_lookup w ts i l : (forall l, 0 <= w l) -> ts !! i = Some l -> w l <= tally w ts.
Proof. intros H Hi. rewrite (tally_split w ts i l Hi). pose proof (tally_nonneg w (take i ts) H). pose proof (tally_nonneg w (drop (S i) ts) H). lia. Qed.

Lemma tally_lookup2 w ts i j l m :
  (forall l, 0 <= w l) -> ts !! i = Some l -> ts !! j = Some m -> i <> j -> w l + w m <= tally w ts.
Proof.
  intros H Hi Hj Hij. pose proof (tally_insert (fun x => w x) ts i l l Hi) as E.
  assert (Hlt : (i < j)%nat \/ (j < i)%nat) by lia. destruct Hlt as [Hlt|Hlt].
  - rewrite (tally_split w ts i l Hi). replace j with (S i + (j - S i))%nat in Hj by lia. rewrite <- lookup_drop in Hj.
    pose proof (tally_lookup w _ _ _ H Hj). pose proof (tally_nonneg w (take i ts) H). lia.
  - rewrite (tally_split w ts j m Hj). replace i with (S j + (i - S j))%nat in Hi by lia. rewrite <- lookup_drop in Hi.
    pose proof (tally_lookup w _ _ _ H Hi). pose proof (tally_nonneg w (take j ts) H). lia.
Qed.

Lemma tally_pos w ts : 0 < tally w ts -> exists i l, ts !! i = Some l /\ 0 < w l.
Proof.
  induction ts as [|l ts IH]; cbn [tally]; [done|]. intros H. destruct (decide (0 < w l)) as [Hl|Hl]; [by exists 0%nat, l|].
  destruct IH as (i & m & Hi & Hm); [lia|]. by exists (S i), m.
Qed.

Lemma tally_zero w ts : (forall l, 0 <= w l) -> tally w ts = 0 -> forall i l, ts !! i = Some l -> w l = 0.
Proof. intros H Hz i l Hi. pose proof (tally_lookup w ts i l H Hi). specialize (H l). lia. Qed.
End tally.

(** The number of threads with a property. *)
Definition b2z (b : bool) : Z := if b then 1 else 0.
Definition tally_if {L} (p : L -> bool) (ts : list L) : Z := tally (fun l => b2z (p l)) ts.

Lemma b2z_nonneg b : 0 <= b2z b.
Proof. by destruct b. Qed.
Lemma b2z_le1 b : b2z b <= 1.
Proof. by destruct b. Qed.

Lemma tally_if_replicate {L} (p : L -> bool) n l : tally_if p (replicate n l) = b2z (p l) * Z.of_nat n.
Proof. unfold tally_if. induction n as [|n IH]; cbn [replicate tally]; [lia|]. rewrite IH. lia. Qed.

Lemma tally_if_app {L} (p : L -> bool) a b : tally_if p (a ++ b) = tally_if p a + tally_if p b.
Proof. apply tally_app. Qed.

Lemma tally_if_le {L} (p q : L -> bool) ts : (forall l, p l = true -> q l = true) -> tally_if p ts <= tally_if q ts.
Proof. intros H. apply tally_le. intros l. specialize (H l). destruct (p l); [by rewrite H|]. apply b2z_nonneg. Qed.

Lemma tally_if_le_length {L} (p : L -> bool) ts : tally_if p ts <= Z.of_nat (length ts).
Proof. pose proof (tally_bound (fun l => b2z (p l)) ts 1 (fun l => b2z_le1 _)). unfold tally_if. lia. Qed.

Section tally_if.
Context {L : Type} (p : L -> bool) (ts : list L).

Lemma tally_if_nonneg : 0 <= tally_if p ts.
Proof. apply tally_nonneg. intros. apply b2z_nonneg. Qed.

Lemma tally_if_insert i l l' : ts !! i = Some l -> tally_if p (<[i := l']> ts) = tally_if p ts - b2z (p l) + b2z (p l').
Proof. intros Hi. unfold tally_if. by rewrite (tally_insert _ ts i l l' Hi). Qed.

Lemma tally_if_lookup i l : ts !! i = Some l -> p l = true -> 0 < tally_if p ts.
Proof.
  intros Hi Hp. pose proof (tally_lookup (fun l => b2z (p l)) ts i l (fun _ => b2z_nonneg _) Hi) as H. cbn beta in H. rewrite Hp in H. unfold tally_if. cbn [b2z] in H. lia.
Qed.

Lemma tally_if_others (q : L -> bool) i l :
  (forall l, p l = true -> q l = true) -> ts !! i = Some l -> tally_if p ts - b2z (p l) <= tally_if q ts - b2z (q l).
Proof.
  intros Hpq Hi. pose proof (tally_lookup (fun l => b2z (q l) + - b2z (p l)) ts i l) as H. rewrite tally_add in H.
  assert (Hneg : tally (fun l => - b2z (p l)) ts = - tally_if p ts) by (unfold tally_if; clear; induction ts as [|m ts' IH]; cbn [tally]; lia).
  rewrite Hneg in H. unfold tally_if in *. enough (b2z (q l) + - b2z (p l) <= tally (fun l => b2z (q l)) ts + - tally (fun l => b2z (p l)) ts) by lia.
  apply H; [|done]. intros m. specialize (Hpq m). destruct (p m); [by rewrite Hpq|]. pose proof (b2z_nonneg (q m)). cbn [b2z]. lia.
Qed.

Lemma tally_if_pos : 0 < tally_if p ts -> exists i l, ts !! i = Some l /\ p l = true.
Proof. intros (i & l & Hi & Hl)%tally_pos. exists i, l. split; [done|]. by destruct (p l). Qed.
End tally_if.

(** ** Systems *)

(** A step answers the new shared state, the new local state, and how many sleepers it wakes. *)
Class System (S L C : Type) := {
  step : C -> S -> L -> option (S * L * nat);
  (** What being woken makes of a local state: [None] for one that does not sleep. *)
  woken : L -> option L;
}.

Record config (S L : Type) := mkConfig { shared : S; threads : list L }.
Arguments mkConfig {S L}.
Arguments shared {S L}.
Arguments threads {S L}.

(** A thread takes a step by a choice; the kernel picks whom it wakes. *)
Record event (C : Type) := mkEvent { who : nat; choice : C; targets : list nat }.
Arguments mkEvent {C}.
Arguments who {C}.
Arguments choice {C}.
Arguments targets {C}.

Section system.
Context {S L C : Type} {Sys : System S L C}.
Implicit Types (cfg : config S L) (e : event C) (ts : list L) (l : L) (s : S).

Definition sleeps l : bool := if woken l then true else false.

Fixpoint wake_all (targets : list nat) ts : option (list L) :=
  match targets with
  | [] => Some ts
  | t :: targets => l ← ts !! t; l' ← woken l; wake_all targets (<[t := l']> ts)
  end.

Definition fire cfg e : option (config S L) :=
  l ← threads cfg !! who e;
  '(s, l', n) ← step (choice e) (shared cfg) l;
  let ts := <[who e := l']> (threads cfg) in
  if Z.of_nat (length (targets e)) =? Z.min (Z.of_nat n) (tally_if sleeps ts)
  then ts ← wake_all (targets e) ts; Some (mkConfig s ts)
  else None.

Fixpoint run cfg (es : list (event C)) : option (config S L) :=
  match es with
  | [] => Some cfg
  | e :: es => cfg ← fire cfg e; run cfg es
  end.

Definition reachable (cfg0 cfg : config S L) : Prop := exists es, run cfg0 es = Some cfg.

Lemma run_app cfg es es' : run cfg (es ++ es') = (cfg ← run cfg es; run cfg es').
Proof. revert cfg. induction es as [|e es IH]; intros cfg; cbn [run app]; [done|]. by destruct (fire cfg e); cbn. Qed.

Lemma reachable_trans a b c : reachable a b -> reachable b c -> reachable a c.
Proof. intros [es H] [es' H']. exists (es ++ es'). by rewrite run_app, H. Qed.

(** An invariant holds in what is reachable. *)
Lemma run_invariant (I : config S L -> Prop) cfg0 es cfg :
  (forall c e c', I c -> fire c e = Some c' -> I c') -> I cfg0 -> run cfg0 es = Some cfg -> I cfg.
Proof.
  intros Hs. revert cfg0. induction es as [|e es IH]; intros c H0; cbn [run]; [by intros [= <-]|].
  intros (c' & He & Hr)%bind_Some. by eapply IH; [eapply Hs|].
Qed.

(** As long as a clock that an event advances by at most [k] stays below a bound. *)
Lemma run_invariant_clock_by k (I : config S L -> Prop) (clock : config S L -> Z) bound cfg0 es cfg :
  0 < k -> (forall c e c', I c -> clock c + k <= bound -> fire c e = Some c' -> I c' /\ clock c' <= clock c + k) ->
  I cfg0 -> clock cfg0 + k * Z.of_nat (length es) <= bound -> run cfg0 es = Some cfg -> I cfg /\ clock cfg <= clock cfg0 + k * Z.of_nat (length es).
Proof.
  intros Hk Hs. revert cfg0. induction es as [|e es IH]; intros c H0; cbn [run length]; [intros _ [= <-]; split; [done|lia]|].
  intros Hb (c' & He & Hr)%bind_Some. destruct (Hs c e c' H0 ltac:(nia) He) as [H1 H2]. destruct (IH c' H1 ltac:(nia) Hr) as [H3 H4]. split; [done|nia].
Qed.

Lemma run_invariant_clock (I : config S L -> Prop) (clock : config S L -> Z) bound cfg0 es cfg :
  (forall c e c', I c -> clock c < bound -> fire c e = Some c' -> I c' /\ clock c' <= clock c + 1) ->
  I cfg0 -> clock cfg0 + Z.of_nat (length es) <= bound -> run cfg0 es = Some cfg -> I cfg /\ clock cfg <= clock cfg0 + Z.of_nat (length es).
Proof.
  intros Hs H0 Hb Hr. rewrite <- (Z.mul_1_l (Z.of_nat (length es))) in *. apply (run_invariant_clock_by 1 I clock bound cfg0 es cfg); [lia| |done|done|done].
  intros c e c' Hc Hlt. apply Hs; [done|lia].
Qed.

(** Waking changes a sum by the same amount for each sleeper woken. *)
Lemma wake_all_tally (w : L -> Z) d targets ts ts' :
  (forall l l', woken l = Some l' -> w l' = w l + d) -> wake_all targets ts = Some ts' -> tally w ts' = tally w ts + d * Z.of_nat (length targets).
Proof.
  intros Hd. revert ts. induction targets as [|t targets IH]; intros ts; cbn [wake_all length]; [intros [= <-]; lia|].
  intros (l & Hl & (l' & Hl' & H)%bind_Some)%bind_Some. rewrite (IH _ H), (tally_insert w ts t l l' Hl), (Hd l l' Hl'). lia.
Qed.

Lemma wake_all_tally_le (w : L -> Z) targets ts ts' :
  (forall l l', woken l = Some l' -> w l <= w l') -> wake_all targets ts = Some ts' -> tally w ts <= tally w ts'.
Proof.
  intros Hd. revert ts. induction targets as [|t targets IH]; intros ts; cbn [wake_all]; [by intros [= <-]|].
  intros (l & Hl & (l' & Hl' & H)%bind_Some)%bind_Some. specialize (IH _ H). rewrite (tally_insert w ts t l l' Hl) in IH. specialize (Hd l l' Hl'). lia.
Qed.

Lemma wake_all_Forall (P : L -> Prop) targets ts ts' :
  (forall l l', woken l = Some l' -> P l -> P l') -> wake_all targets ts = Some ts' -> Forall P ts -> Forall P ts'.
Proof.
  intros Hd. revert ts. induction targets as [|t targets IH]; intros ts; cbn [wake_all]; [by intros [= <-]|].
  intros (l & Hl & (l' & Hl' & H)%bind_Some)%bind_Some HP. apply (IH _ H), Forall_insert; [done|]. eapply Hd; [done|]. by eapply Forall_lookup_1.
Qed.

Lemma wake_all_length targets ts ts' : wake_all targets ts = Some ts' -> length ts' = length ts.
Proof.
  revert ts. induction targets as [|t targets IH]; intros ts; cbn [wake_all]; [by intros [= <-]|].
  intros (l & Hl & (l' & Hl' & H)%bind_Some)%bind_Some. by rewrite (IH _ H), length_insert.
Qed.

(** A thread is as it was, or it slept and was woken. *)
Lemma wake_all_lookup targets ts ts' i l' :
  wake_all targets ts = Some ts' -> ts' !! i = Some l' -> (forall l l', woken l = Some l' -> woken l' = None) ->
  ts !! i = Some l' \/ exists l, ts !! i = Some l /\ woken l = Some l'.
Proof.
  intros H Hi Hw. revert ts H. induction targets as [|t targets IH]; intros ts; cbn [wake_all]; [intros [= <-]; by left|].
  intros (m & Hm & (m' & Hm' & H)%bind_Some)%bind_Some. destruct (decide (t = i)) as [->|Hne].
  - right. exists m. split; [done|]. destruct (IH _ H) as [E|(l & E & El)]; rewrite list_lookup_insert_eq in E by (by eapply lookup_lt_Some).
    + congruence.
    + injection E as <-. rewrite (Hw m m' Hm') in El. done.
  - destruct (IH _ H) as [E|(l & E & El)]; rewrite list_lookup_insert_ne in E by done; [by left|right; by exists l].
Qed.

(** What a step does to the sums: the thread's weight changes, and that of the [k] sleepers it wakes. *)
Definition sums_move ts l l' (k : nat) ts' : Prop :=
  (forall w d, (forall m m', woken m = Some m' -> w m' = w m + d) -> tally w ts' = tally w ts - w l + w l' + d * Z.of_nat k) /\
  (forall p d, (forall m m', woken m = Some m' -> b2z (p m') = b2z (p m) + d) ->
     tally_if p ts' = tally_if p ts - b2z (p l) + b2z (p l') + d * Z.of_nat k /\ b2z (p l) <= tally_if p ts) /\
  (forall w, (forall m m', woken m = Some m' -> w m <= w m') -> tally w ts - w l + w l' <= tally w ts').

Lemma fire_inv cfg e cfg' :
  fire cfg e = Some cfg' ->
  exists l l' n, threads cfg !! who e = Some l /\ step (choice e) (shared cfg) l = Some (shared cfg', l', n) /\
    length (threads cfg') = length (threads cfg) /\
    Z.of_nat (length (targets e)) = Z.min (Z.of_nat n) (tally_if sleeps (threads cfg) - b2z (sleeps l) + b2z (sleeps l')) /\
    wake_all (targets e) (<[who e := l']> (threads cfg)) = Some (threads cfg') /\
    sums_move (threads cfg) l l' (length (targets e)) (threads cfg').
Proof.
  unfold fire. intros (l & Hl & ([[s l'] n] & Hs & H)%bind_Some)%bind_Some. cbn beta iota zeta in H.
  rewrite (tally_if_insert sleeps _ _ _ _ Hl) in H.
  destruct (Z.eqb_spec (Z.of_nat (length (targets e))) (Z.min (Z.of_nat n) (tally_if sleeps (threads cfg) - b2z (sleeps l) + b2z (sleeps l')))) as [En|]; [|done].
  apply bind_Some in H as (ts & Hts & [= <-]). exists l, l', n. cbn [shared threads].
  assert (Ht : forall w d, (forall m m', woken m = Some m' -> w m' = w m + d) -> tally w ts = tally w (threads cfg) - w l + w l' + d * Z.of_nat (length (targets e))).
  { intros w d Hd. by rewrite (wake_all_tally w d _ _ _ Hd Hts), (tally_insert w _ _ _ _ Hl). }
  split_and!; [done|done| |done|done|split; [done|]].
  - by rewrite (wake_all_length _ _ _ Hts), length_insert.
  - split.
    + intros p d Hd. split; [by apply (Ht (fun l => b2z (p l)))|]. apply (tally_lookup (fun l => b2z (p l)) _ _ _ (fun _ => b2z_nonneg _) Hl).
    + intros w Hd. pose proof (wake_all_tally_le w _ _ _ Hd Hts) as H. by rewrite (tally_insert w _ _ _ _ Hl) in H.
Qed.

(** Where no thread ever sleeps, an event changes one thread. *)
Lemma fire_awake cfg e cfg' :
  (forall l, woken l = None) -> fire cfg e = Some cfg' ->
  exists l l' n, threads cfg !! who e = Some l /\ step (choice e) (shared cfg) l = Some (shared cfg', l', n) /\
    threads cfg' = <[who e := l']> (threads cfg) /\
    (forall w, tally w (threads cfg') = tally w (threads cfg) - w l + w l') /\
    (forall p, tally_if p (threads cfg') = tally_if p (threads cfg) - b2z (p l) + b2z (p l') /\ b2z (p l) <= tally_if p (threads cfg)).
Proof.
  intros Hw (l & l' & n & Hl & Hs & _ & _ & Hwk & _)%fire_inv. exists l, l', n.
  assert (E : threads cfg' = <[who e := l']> (threads cfg)).
  { destruct (targets e) as [|t ks]; cbn [wake_all] in Hwk; [by injection Hwk|]. apply bind_Some in Hwk as (m & _ & (m' & Hm & _)%bind_Some). by rewrite Hw in Hm. }
  split_and!; [done|done|done| |]; rewrite E; [intros w; by apply tally_insert|]. intros p. split; [by apply tally_if_insert|].
  apply (tally_lookup (fun l => b2z (p l)) _ _ _ (fun _ => b2z_nonneg _) Hl).
Qed.

(** A thread that can step, with nobody to wake. *)
Lemma fire_local cfg i l c s l' :
  threads cfg !! i = Some l -> step c (shared cfg) l = Some (s, l', 0%nat) -> fire cfg (mkEvent i c []) = Some (mkConfig s (<[i := l']> (threads cfg))).
Proof.
  intros Hl Hs. unfold fire. cbn [who choice targets]. rewrite Hl. cbn [mbind option_bind]. rewrite Hs. cbn [mbind option_bind length].
  pose proof (tally_if_nonneg sleeps (<[i:=l']> (threads cfg))). rewrite Z.min_l by lia. done.
Qed.

(** A step that wakes finds whom to wake. *)
Lemma wake_exists k ts : Z.of_nat k <= tally_if sleeps ts -> (forall l l', woken l = Some l' -> woken l' = None) -> exists targets ts', length targets = k /\ wake_all targets ts = Some ts'.
Proof.
  intros Hk Hw. revert ts Hk. induction k as [|k IH]; intros ts Hk; [by exists [], ts|].
  destruct (tally_if_pos sleeps ts) as (i & l & Hi & Hl); [lia|]. unfold sleeps in Hl. destruct (woken l) as [l'|] eqn:El; [|done].
  destruct (IH (<[i := l']> ts)) as (targets & ts' & Hn & H).
  - rewrite (tally_if_insert sleeps ts i l l' Hi). unfold sleeps at 2 3. rewrite El, (Hw l l' El). cbn [b2z]. lia.
  - exists (i :: targets), ts'. split; [by cbn; rewrite Hn|]. cbn [wake_all]. rewrite Hi. cbn [mbind option_bind]. by rewrite El.
Qed.

Lemma fire_step cfg i l c s l' n :
  (forall l l', woken l = Some l' -> woken l' = None) ->
  threads cfg !! i = Some l -> step c (shared cfg) l = Some (s, l', n) -> exists targets cfg', fire cfg (mkEvent i c targets) = Some cfg'.
Proof.
  intros Hw Hl Hs. set (ts := <[i := l']> (threads cfg)). pose proof (tally_if_nonneg sleeps ts) as H0.
  destruct (wake_exists (Z.to_nat (Z.min (Z.of_nat n) (tally_if sleeps ts))) ts) as (ks & ts' & Hk & H); [lia|done|].
  exists ks, (mkConfig s ts'). unfold fire. cbn [who choice targets]. rewrite Hl. cbn [mbind option_bind]. rewrite Hs. cbn [mbind option_bind].
  fold ts. rewrite Hk. rewrite (proj2 (Z.eqb_eq _ _)) by lia. by rewrite H.
Qed.

(** Whatever the scheduler does with the events of [A], it reaches [P]; until then there is such an event. *)
Inductive inevitable (P : config S L -> Prop) (A : event C -> Prop) (cfg : config S L) : Prop :=
| reached : P cfg -> inevitable P A cfg
| goes_on :
    (exists e cfg', A e /\ fire cfg e = Some cfg') ->
    (forall e cfg', A e -> fire cfg e = Some cfg' -> inevitable P A cfg') -> inevitable P A cfg.

(** It is so when there is such an event and each of them decreases a measure. *)
Lemma inevitable_measure (P I : config S L -> Prop) (A : event C -> Prop) (measure : config S L -> Z) :
  (forall cfg, I cfg -> 0 <= measure cfg) ->
  (forall cfg, I cfg -> P cfg \/
     (exists e cfg', A e /\ fire cfg e = Some cfg') /\
     (forall e cfg', A e -> fire cfg e = Some cfg' -> P cfg' \/ I cfg' /\ measure cfg' < measure cfg)) ->
  forall cfg, I cfg -> inevitable P A cfg.
Proof.
  intros Hm Hstep cfg. remember (Z.to_nat (measure cfg)) as k eqn:Ek. revert cfg Ek.
  induction (lt_wf k) as [k _ IH]. intros cfg -> HI.
  destruct (Hstep cfg HI) as [HP|[He Hd]]; [by apply reached|]. apply goes_on; [done|]. intros e cfg' HA Hf.
  destruct (Hd e cfg' HA Hf) as [HP|[HI' Hlt]]; [by apply reached|]. apply (IH (Z.to_nat (measure cfg'))); [|done|done].
  pose proof (Hm _ HI). pose proof (Hm _ HI'). lia.
Qed.
End system.
