(* ===== verification/Counting.v ===== *)
(** * Counting nodes

    How often a node is in a list: that no node is lost or in two places is an equation of such counts. *)

From S2P Require Import Prelude.
From stdpp Require Import list.

(** Taking given nodes out of a list, if they are there. *)
Fixpoint take_out (x : nat) (l : list nat) : option (list nat) :=
  match l with [] => None | y :: l => if decide (x = y) then Some l else k ← take_out x l; Some (y :: k) end.
Fixpoint take_out_all (xs l : list nat) : option (list nat) :=
  match xs with [] => Some l | x :: xs => l ← take_out x l; take_out_all xs l end.

Definition cnt (l : list nat) (z : nat) : nat := count_occ Nat.eq_dec l z.

Lemma cnt_app l k z : cnt (l ++ k) z = (cnt l z + cnt k z)%nat.
Proof. apply count_occ_app. Qed.

Lemma cnt_cons x l z : cnt (x :: l) z = (cnt [x] z + cnt l z)%nat.
Proof. apply (cnt_app [x] l z). Qed.

Lemma cnt_elem l z : z ∈ l <-> (1 <= cnt l z)%nat.
Proof. unfold cnt. rewrite list_elem_of_In, (count_occ_In Nat.eq_dec). lia. Qed.

Lemma cnt_self x : cnt [x] x = 1%nat.
Proof. unfold cnt. cbn. by destruct (Nat.eq_dec x x). Qed.

Lemma cnt_NoDup l : NoDup l <-> forall z, (cnt l z <= 1)%nat.
Proof. rewrite NoDup_ListNoDup. apply (NoDup_count_occ Nat.eq_dec). Qed.

Lemma take_out_cnt x l k z : take_out x l = Some k -> cnt l z = (cnt [x] z + cnt k z)%nat.
Proof.
  revert k. induction l as [|y l IH]; intros k; cbn [take_out]; [done|]. rewrite (cnt_cons y). destruct (decide (x = y)) as [->|_]; [by intros [= ->]|].
  intros (k' & Hk & [= <-])%bind_Some. rewrite (IH _ Hk), (cnt_cons y k'). lia.
Qed.

Lemma take_out_all_cnt xs l k z : take_out_all xs l = Some k -> cnt l z = (cnt xs z + cnt k z)%nat.
Proof.
  revert l. induction xs as [|x xs IH]; intros l; cbn [take_out_all]; [by intros [= ->]|].
  intros (l' & Hl & H)%bind_Some. rewrite (take_out_cnt x l l' z Hl), (IH _ H), (cnt_cons x xs). lia.
Qed.

Lemma cnt_nil z : cnt [] z = 0%nat.
Proof. done. Qed.

Lemma cnt_Permutation l k : (forall z, cnt l z = cnt k z) <-> l ≡ₚ k.
Proof. symmetry. apply (Permutation_count_occ Nat.eq_dec). Qed.
