(* ===== verification/FutexMutex.v ===== *)
(** * The mutex on a futex ([threading/Mutex.rs], [FutexImpl]; [threading/Futex.rs])

    Any number of threads lock, try to lock and unlock one mutex. A local state is a point of the code of [lock],
    [try_lock] and [unlock]; the shared state is the futex word. The kernel's futex: [wait] returns at once if the word
    is not the expected one and may return for no reason, [wake] takes up to the given number of sleepers. *)

From stdpp Require Import list.
From S2P Require Import Prelude Interleaving.

Definition UNLOCKED : Z := 0.
Definition LOCKED : Z := 1.
Definition CONTENDED : Z := 3.

(** Where a thread is. [Held]: the caller's critical section. *)
Inductive mutex_pc :=
| Idle
| TryLock (blocking : bool)  (* lock, try_lock *)
| LockSlow                   (* the load in front of the loop *)
| LockSwap                   (* the condition of the loop *)
| FutexWait                  (* about to sleep in wait_forever *)
| Asleep
| Woken
| Held
| UnlockWake.                (* unlock, about to wake a thread *)

(** What a thread does next: start an operation, go on with its code, or return from a futex for no reason. *)
Inductive mutex_choice := CLock | CTryLock | CUnlock | CNext | CSpurious.

(** [fetch_or] of the lock bit on x86, a weak compare-and-swap elsewhere, which may fail for no reason. *)
Definition try_lock (x86 spurious : bool) (word : Z) : bool * Z :=
  if x86 then (Z.land word LOCKED =? 0, Z.lor word LOCKED)
  else if (word =? UNLOCKED) && negb spurious then (true, LOCKED) else (false, word).

Definition after_try (blocking acquired : bool) : mutex_pc :=
  if acquired then Held else if blocking then LockSlow else Idle.

Definition mutex_step (x86 : bool) (c : mutex_choice) (word : Z) (pc : mutex_pc) : option (Z * mutex_pc * nat) :=
  match pc, c with
  | Idle, CLock => Some (word, TryLock true, 0%nat)
  | Idle, CTryLock => Some (word, TryLock false, 0%nat)
  | TryLock blocking, CNext => let '(acquired, word) := try_lock x86 false word in Some (word, after_try blocking acquired, 0%nat)
  | TryLock blocking, CSpurious => let '(acquired, word) := try_lock x86 true word in Some (word, after_try blocking acquired, 0%nat)
  | LockSlow, CNext => Some (word, if word =? CONTENDED then FutexWait else LockSwap, 0%nat)
  | LockSwap, CNext => Some (CONTENDED, if word =? UNLOCKED then Held else FutexWait, 0%nat)
  | FutexWait, CNext => Some (word, if word =? CONTENDED then Asleep else LockSwap, 0%nat)
  | Asleep, CSpurious => Some (word, LockSwap, 0%nat)
  | Woken, CNext => Some (word, LockSwap, 0%nat)
  | Held, CUnlock => Some (UNLOCKED, if word =? CONTENDED then UnlockWake else Idle, 0%nat)
  | UnlockWake, CNext => Some (word, Idle, 1%nat)
  | _, _ => None
  end.

Definition mutex_woken (pc : mutex_pc) : option mutex_pc := match pc with Asleep => Some Woken | _ => None end.

#[export] Instance mutex_system (x86 : bool) : System Z mutex_pc mutex_choice :=
  {| step := mutex_step x86; woken := mutex_woken |}.

Definition mutex_init (n : nat) : config Z mutex_pc := mkConfig UNLOCKED (replicate n Idle).

Definition is_held (pc : mutex_pc) : bool := match pc with Held => true | _ => false end.
(** In the code of [lock], or [unlock]. *)
Definition is_waiting (pc : mutex_pc) : bool :=
  match pc with TryLock true | LockSlow | LockSwap | FutexWait | Asleep | Woken => true | _ => false end.
(** About to swap [CONTENDED] in, or to wake a thread that will. *)
Definition will_swap (pc : mutex_pc) : bool := match pc with LockSwap | Woken | UnlockWake => true | _ => false end.
Definition is_asleep (pc : mutex_pc) : bool := match pc with Asleep => true | _ => false end.

Definition holders (cfg : config Z mutex_pc) : Z := tally_if is_held (threads cfg).

Section mutex.
Context (x86 : bool).
Implicit Types cfg : config Z mutex_pc.
Local Notation sys := (mutex_system x86).

(** The word tells whether the mutex is held; while threads sleep, the holder knows, or one is about to tell it. *)
Record mutex_ok (cfg : config Z mutex_pc) : Prop := {
  ok_word : shared cfg = UNLOCKED \/ shared cfg = LOCKED \/ shared cfg = CONTENDED;
  ok_held : holders cfg = if shared cfg =? UNLOCKED then 0 else 1;
  ok_sleep : 0 < tally_if is_asleep (threads cfg) -> shared cfg = CONTENDED \/ 0 < tally_if will_swap (threads cfg);
}.

Lemma mutex_init_ok n : mutex_ok (mutex_init n).
Proof.
  assert (H : forall p, p Idle = false -> tally_if p (replicate n Idle) = 0).
  { intros p Hp. unfold tally_if. induction n as [|k IH]; cbn [replicate tally]; [done|]. by rewrite IH, Hp. }
  split; cbn [shared threads mutex_init]; [by left|unfold holders; cbn [threads mutex_init]; by rewrite H|rewrite H; [lia|done]].
Qed.

Lemma mutex_woken_inv l l' : woken (System := sys) l = Some l' -> l = Asleep /\ l' = Woken.
Proof. by destruct l; intros [= <-]. Qed.

Lemma sleeps_asleep l : sleeps (Sys := sys) l = is_asleep l.
Proof. by destruct l. Qed.

Lemma sleeps_is_asleep ts : tally_if (sleeps (Sys := sys)) ts = tally_if is_asleep ts.
Proof. apply tally_ext. by intros []. Qed.

Lemma mutex_ok_fire cfg e cfg' : mutex_ok cfg -> fire (Sys := sys) cfg e = Some cfg' -> mutex_ok cfg'.
Proof.
  intros [Hw Hh Hs] (l & l' & n & Hl & Hst & _ & Hn & _ & Ht)%fire_inv.
  destruct (proj1 (proj2 Ht) is_held 0) as [Th Lh]; [by intros ? ? [-> ->]%mutex_woken_inv|].
  destruct (proj1 (proj2 Ht) is_asleep (-1)) as [Ta La]; [by intros ? ? [-> ->]%mutex_woken_inv|].
  destruct (proj1 (proj2 Ht) will_swap 1) as [Tw Lw]; [by intros ? ? [-> ->]%mutex_woken_inv|]. clear Ht.
  rewrite sleeps_is_asleep in Hn. rewrite !sleeps_asleep in Hn. unfold holders in *.
  pose proof (tally_if_nonneg is_asleep (threads cfg)). pose proof (tally_if_nonneg will_swap (threads cfg)).
  unfold UNLOCKED, LOCKED, CONTENDED in *.
  destruct Hw as [E|[E|E]]; rewrite E in *;
    destruct l, (choice e); cbn in Hst; try destruct x86; try destruct blocking; cbn in Hst; try discriminate Hst;
    injection Hst as Ew <- <-; cbv [Z.lor Pos.lor LOCKED CONTENDED UNLOCKED] in Ew; cbn in Hn, Th, Ta, Tw, Lh, La, Lw, Hh, Hs;
    (split; unfold holders; rewrite <- Ew; [tauto|cbn; lia|cbn; intros; first [left; reflexivity|right; lia|destruct Hs as [?|?]; [lia|discriminate|right; lia]]]).
Qed.

(** ** Someone gets the mutex *)

(** How many steps a thread has left before it holds a free mutex. *)
Definition steps_left (pc : mutex_pc) : Z :=
  match pc with TryLock _ | UnlockWake => 3 | LockSlow | FutexWait | Woken => 2 | LockSwap => 1 | Idle | Asleep | Held => 0 end.

Definition wanted (cfg : config Z mutex_pc) : Prop := 0 < tally_if is_waiting (threads cfg).
Definition goes_next (e : event mutex_choice) : Prop := choice e = CNext.

Lemma steps_left_nonneg cfg : 0 <= tally steps_left (threads cfg).
Proof. apply tally_nonneg. by intros []. Qed.

Lemma woken_once l l' : woken (System := sys) l = Some l' -> woken (System := sys) l' = None.
Proof. by intros [-> ->]%mutex_woken_inv. Qed.

Lemma next_enabled cfg i l :
  threads cfg !! i = Some l -> is_waiting l || will_swap l = true -> is_asleep l = false -> exists e cfg', goes_next e /\ fire (Sys := sys) cfg e = Some cfg'.
Proof.
  intros Hl Hp Ha.
  assert (exists s l' n, step (System := sys) CNext (shared cfg) l = Some (s, l', n)) as (s & l' & n & Hs).
  { destruct l; try discriminate Hp; try discriminate Ha; cbn; try (by eexists _, _, _). destruct (try_lock x86 false (shared cfg)). by eexists _, _, _. }
  destruct (fire_step cfg i l CNext s l' n woken_once Hl Hs) as (ks & cfg' & Hf). by exists (mkEvent i CNext ks), cfg'.
Qed.

Lemma free_progress cfg :
  mutex_ok cfg -> holders cfg = 0 -> wanted cfg -> exists e cfg', goes_next e /\ fire (Sys := sys) cfg e = Some cfg'.
Proof.
  intros [_ Hh Hs] H0 (i & l & Hl & Hw)%tally_if_pos. destruct (is_asleep l) eqn:Ha.
  - destruct Hs as [E|(j & m & Hj & Hm)%tally_if_pos]; [by eapply tally_if_lookup|rewrite E in Hh; cbn in Hh; lia|].
    apply (next_enabled cfg j m Hj); [by rewrite Hm, orb_true_r|by destruct m].
  - apply (next_enabled cfg i l Hl); [by rewrite Hw|done].
Qed.

Lemma free_decreases cfg e cfg' :
  mutex_ok cfg -> holders cfg = 0 -> wanted cfg -> goes_next e -> fire (Sys := sys) cfg e = Some cfg' ->
  holders cfg' = 1 \/ holders cfg' = 0 /\ wanted cfg' /\ tally steps_left (threads cfg') < tally steps_left (threads cfg).
Proof.
  intros [Hw Hh _] H0 Hwt He (l & l' & n & Hl & Hst & _ & Hn & _ & Ht)%fire_inv.
  destruct (proj1 (proj2 Ht) is_held 0) as [Th Lh]; [by intros ? ? [-> ->]%mutex_woken_inv|].
  destruct (proj1 (proj2 Ht) is_waiting 0) as [Ta La]; [by intros ? ? [-> ->]%mutex_woken_inv|].
  pose proof (proj1 Ht steps_left 2) as Tm. specialize (Tm ltac:(by intros ? ? [-> ->]%mutex_woken_inv)). clear Ht.
  unfold goes_next in He. rewrite He in Hst. unfold holders, wanted in *.
  assert (E : shared cfg = UNLOCKED) by (destruct Hw as [E|[E|E]]; rewrite E in Hh; cbn in Hh; [done|lia|lia]). rewrite E in Hst.
  destruct l; cbn in Hst; try destruct x86; cbn in Hst; try discriminate Hst; injection Hst as _ <- <-; cbn in Hn, Th, Ta, Lh, La, Tm; lia.
Qed.

(** (C25) Any number of threads lock, try to lock and unlock, interleaved in any way, on x86 or elsewhere, with
    spurious failures and wake-ups: at most one is in its critical section, the word is 0 exactly when none is, and no
    wake-up is lost: when none is and a thread is in [lock], asleep or not, then whatever order the threads in [lock]
    and [unlock] run in, after finitely many steps one of them holds the mutex, without a spurious wake-up. *)
Theorem mutex_correct (n : nat) (cfg : config Z mutex_pc) (Hr : reachable (Sys := sys) (mutex_init n) cfg) :
  (holders cfg = 0 /\ shared cfg = UNLOCKED \/ holders cfg = 1 /\ shared cfg <> UNLOCKED) /\
  (holders cfg = 0 -> wanted cfg -> inevitable (Sys := sys) (fun cfg => holders cfg = 1) goes_next cfg).
Proof.
  destruct Hr as [es Hr]. pose proof (run_invariant (Sys := sys) mutex_ok _ es _ mutex_ok_fire (mutex_init_ok n) Hr) as Hok. split.
  - destruct (ok_word _ Hok) as [E|[E|E]]; pose proof (ok_held _ Hok) as Hh; rewrite E in *; cbn in Hh; [by left|by right|by right].
  - intros H0 Hw. apply (inevitable_measure (Sys := sys) _ (fun c => mutex_ok c /\ holders c = 0 /\ wanted c) _ (fun c => tally steps_left (threads c))); [| |done].
    + intros c _. apply steps_left_nonneg.
    + intros c (Hc & Hc0 & Hcw). right. split; [by apply free_progress|]. intros e c' He Hf. pose proof (mutex_ok_fire c e c' Hc Hf).
      destruct (free_decreases c e c' Hc Hc0 Hcw He Hf) as [?|(? & ? & ?)]; [by left|by right].
Qed.
End mutex.

(** Two threads: the second sleeps, is woken by the unlock and takes the mutex. *)
Definition handover : list (event mutex_choice) :=
  [mkEvent 0 CLock []; mkEvent 0 CNext []; mkEvent 1 CLock []; mkEvent 1 CNext []; mkEvent 1 CNext []; mkEvent 1 CNext []; mkEvent 1 CNext [];
   mkEvent 0 CUnlock []; mkEvent 0 CNext [1%nat]].

Lemma mutex_correct_witness :
  run (Sys := mutex_system true) (mutex_init 2) handover = Some (mkConfig UNLOCKED [Idle; Woken]) /\
  inevitable (Sys := mutex_system true) (fun cfg => holders cfg = 1) goes_next (mkConfig UNLOCKED [Idle; Woken]).
Proof.
  split; [reflexivity|]. apply (mutex_correct true 2 (mkConfig UNLOCKED [Idle; Woken])); [exists handover; reflexivity|reflexivity|].
  unfold wanted. apply Z.ltb_lt. reflexivity.
Defined.
