(* ===== verification/FutexCondition.v ===== *)
(** * The condition variable on a futex ([threading/Condition.rs], [FutexImpl])

    Any number of threads wait, with or without a timeout, signal and broadcast. The shared state is the word of
    counters (waiters below, signals above) and the epoch that the waiters sleep on. The mutex that [wait] is called
    with is released and taken again around the code: those are the steps [WaitUnlock] and [WaitReturn]. *)

From stdpp Require Import list.
From S2P Require Import Prelude Interleaving.

Definition ONE_WAITER : Z := 1.
Definition WAITER_MASK : Z := 65535.
Definition ONE_SIGNAL : Z := Z.shiftl 1 16.
Definition SIGNAL_MASK : Z := Z.shiftl 65535 16.

Definition has_signal (state : Z) : bool := negb (Z.land state SIGNAL_MASK =? 0).
Definition waiters_of (state : Z) : Z := Z.land state WAITER_MASK / ONE_WAITER.
Definition signals_of (state : Z) : Z := Z.land state SIGNAL_MASK / ONE_SIGNAL.

Record cond_shared := mkCond { cond_state : Z; cond_epoch : Z }.

(** Where a thread is; [e] and [st] are its copies of the epoch and of the state. *)
Inductive cond_pc :=
| CondIdle
| WaitRegister (timed : bool) (e : Z)      (* the epoch is loaded *)
| WaitUnlock (timed : bool) (e st : Z)     (* the waiter is counted; mutex.unlock() *)
| WaitSleep (timed : bool) (e st : Z)      (* in front of the futex *)
| WaitAsleep (timed : bool) (e st : Z)
| WaitReload (timed : bool)                (* behind the futex *)
| WaitLoad (timed : bool) (e : Z)
| WaitCheck (timed : bool) (e st : Z)      (* the loop that consumes a signal *)
| WaitTimeout (st : Z)                     (* the loop on a timeout *)
| WaitReturn (ok : bool)                   (* mutex.lock() and return *)
| WakeLoad (all : bool)
| WakeCas (all : bool) (st : Z)
| WakeEpoch (to_wake : nat)
| WakeFutex (to_wake : nat).

(** [CSpurious]: a compare-and-swap that fails, or a futex that returns, for no reason. *)
Inductive cond_choice := CWait (timed : bool) | CWake (all : bool) | CStep | CSpurious | CTimeout | CReturn.

(** A compare-and-swap of the state: whether it succeeds, and the state behind it. *)
Definition cas (weak_fail : bool) (s : cond_shared) (expected new : Z) : bool * cond_shared :=
  if (cond_state s =? expected) && negb weak_fail then (true, mkCond new (cond_epoch s)) else (false, s).

Definition cond_loops (weak : bool) (s : cond_shared) (pc : cond_pc) : option (cond_shared * cond_pc * nat) :=
  match pc with
  | WaitCheck timed e st =>
      if has_signal st then
        let '(ok, s) := cas weak s st (wrap 32 (wrap 32 (st - ONE_WAITER) - ONE_SIGNAL)) in
        Some (s, if ok then WaitReturn true else WaitCheck timed e (cond_state s), 0%nat)
      else if weak then None else Some (s, WaitSleep timed e st, 0%nat)
  | WaitTimeout st =>
      let '(ok, s) := cas weak s st (if has_signal st then wrap 32 (wrap 32 (st - ONE_WAITER) - ONE_SIGNAL) else wrap 32 (st - ONE_WAITER)) in
      Some (s, if ok then WaitReturn (has_signal st) else WaitTimeout (cond_state s), 0%nat)
  | WakeCas all st =>
      let wakeable := wrap 32 (waiters_of st - signals_of st) in
      if wakeable =? 0 then if weak then None else Some (s, CondIdle, 0%nat)
      else
        let to_wake := if all then wakeable else 1 in
        let '(ok, s) := cas weak s st (wrap 32 (st + wrap 32 (ONE_SIGNAL * to_wake))) in
        Some (s, if ok then WakeEpoch (Z.to_nat to_wake) else WakeCas all (cond_state s), 0%nat)
  | _ => None
  end.

Definition cond_step (c : cond_choice) (s : cond_shared) (pc : cond_pc) : option (cond_shared * cond_pc * nat) :=
  match c, pc with
  | CWait timed, CondIdle => Some (s, WaitRegister timed (cond_epoch s), 0%nat)
  | CStep, WaitRegister timed e =>
      Some (mkCond (wrap 32 (cond_state s + ONE_WAITER)) (cond_epoch s), WaitUnlock timed e (wrap 32 (cond_state s + ONE_WAITER)), 0%nat)
  | CStep, WaitUnlock timed e st => Some (s, WaitSleep timed e st, 0%nat)
  | CStep, WaitSleep timed e st => Some (s, if cond_epoch s =? e then WaitAsleep timed e st else WaitReload timed, 0%nat)
  | CTimeout, WaitSleep true e st => Some (s, WaitTimeout st, 0%nat)
  | CTimeout, WaitAsleep true e st => Some (s, WaitTimeout st, 0%nat)
  | CSpurious, WaitAsleep timed e st => Some (s, WaitReload timed, 0%nat)
  | CStep, WaitReload timed => Some (s, WaitLoad timed (cond_epoch s), 0%nat)
  | CStep, WaitLoad timed e => Some (s, WaitCheck timed e (cond_state s), 0%nat)
  | CReturn, WaitReturn ok => Some (s, CondIdle, 0%nat)
  | CWake all, CondIdle => Some (s, WakeLoad all, 0%nat)
  | CStep, WakeLoad all => Some (s, WakeCas all (cond_state s), 0%nat)
  | CStep, WakeEpoch k => Some (mkCond (cond_state s) (wrap 32 (cond_epoch s + 1)), WakeFutex k, 0%nat)
  | CStep, WakeFutex k => Some (s, CondIdle, k)
  | CStep, pc => cond_loops false s pc
  | CSpurious, pc => cond_loops true s pc
  | _, _ => None
  end.

Definition cond_woken (pc : cond_pc) : option cond_pc := match pc with WaitAsleep timed _ _ => Some (WaitReload timed) | _ => None end.

#[export] Instance cond_system : System cond_shared cond_pc cond_choice := {| step := cond_step; woken := cond_woken |}.

Definition cond_init (n : nat) : config cond_shared cond_pc := mkConfig (mkCond 0 0) (replicate n CondIdle).

(** ** The specification: how many wait, and how many of them have been signalled *)

Record counters := mkCounters { waiting : Z; signalled : Z }.

Inductive counters_step : counters -> counters -> Prop :=
| counters_stay c : counters_step c c
| counters_wait c : counters_step c (mkCounters (waiting c + 1) (signalled c))
| counters_wake c : 0 < signalled c -> counters_step c (mkCounters (waiting c - 1) (signalled c - 1))
| counters_give_up c : signalled c = 0 -> 0 < waiting c -> counters_step c (mkCounters (waiting c - 1) 0)
| counters_signal c : signalled c < waiting c -> counters_step c (mkCounters (waiting c) (signalled c + 1))
| counters_broadcast c : signalled c < waiting c -> counters_step c (mkCounters (waiting c) (waiting c)).

(** The counters in the word. *)
Definition counters_of (s : cond_shared) : counters := mkCounters (waiters_of (cond_state s)) (signals_of (cond_state s)).

(** ** What the threads are counted by *)

Definition is_waiter (pc : cond_pc) : bool :=
  match pc with
  | WaitUnlock _ _ _ | WaitSleep _ _ _ | WaitAsleep _ _ _ | WaitReload _ | WaitLoad _ _ | WaitCheck _ _ _ | WaitTimeout _ => true
  | _ => false
  end.
(** About to sleep on epoch [epoch] without looking at the state again, or asleep on it. *)
Definition committed (epoch : Z) (pc : cond_pc) : bool :=
  match pc with
  | WaitUnlock _ e _ | WaitSleep _ e _ | WaitAsleep _ e _ => e =? epoch
  | WaitCheck _ e st => negb (has_signal st) && (e =? epoch)
  | _ => false
  end.
Definition is_asleep (pc : cond_pc) : bool := match pc with WaitAsleep _ _ _ => true | _ => false end.
(** Waiters that are not committed; those of them that are awake. *)
Definition open (epoch : Z) (pc : cond_pc) : Z := b2z (is_waiter pc && negb (committed epoch pc)).
Definition alert (epoch : Z) (pc : cond_pc) : Z := b2z (is_waiter pc && negb (is_asleep pc) && negb (committed epoch pc)).
(** Signals posted whose epoch, or whose sleepers, are still to be dealt with. *)
Definition before_epoch (pc : cond_pc) : Z := match pc with WakeEpoch k => Z.of_nat k | _ => 0 end.
Definition before_wake (pc : cond_pc) : Z := match pc with WakeEpoch k | WakeFutex k => Z.of_nat k | _ => 0 end.
(** Wakers that may still change the epoch. *)
Definition will_tick (pc : cond_pc) : bool := match pc with WakeLoad _ | WakeCas _ _ | WakeEpoch _ => true | _ => false end.
Definition local_epoch (pc : cond_pc) : Z :=
  match pc with WaitRegister _ e | WaitUnlock _ e _ | WaitSleep _ e _ | WaitAsleep _ e _ | WaitLoad _ e | WaitCheck _ e _ => e | _ => 0 end.
Definition clock (cfg : config cond_shared cond_pc) : Z := cond_epoch (shared cfg) + tally_if will_tick (threads cfg).

(** ** The word *)

Lemma word_counters W G : 0 <= W < 65536 -> 0 <= G < 65536 -> waiters_of (W + 65536 * G) = W /\ signals_of (W + 65536 * G) = G /\ has_signal (W + 65536 * G) = negb (G =? 0).
Proof.
  intros HW HG.
  assert (Hw : Z.land (W + 65536 * G) WAITER_MASK = W).
  { rewrite (land_ones_mod _ _ 16) by done. change (2 ^ 16) with 65536. rewrite Z.mul_comm, Z_mod_plus_full. by apply Z.mod_small. }
  assert (Hs : Z.land (W + 65536 * G) SIGNAL_MASK = 65536 * G).
  { unfold SIGNAL_MASK. change 65535 with (Z.ones 16). rewrite land_field by done. change (2 ^ 16) with 65536.
    rewrite (Z.mul_comm 65536 G), Z.div_add, Z.div_small, Z.add_0_l, Z.mod_small by done. done. }
  unfold waiters_of, signals_of, has_signal. rewrite Hw, Hs. change ONE_SIGNAL with 65536. unfold ONE_WAITER. split; [apply Z.div_1_r|]. split.
  - rewrite Z.mul_comm. by apply Z.div_mul.
  - f_equal. destruct (Z.eqb_spec G 0) as [->|]; [done|]. apply Z.eqb_neq. lia.
Qed.

(** ** The invariant *)

Record cond_ok (cfg : config cond_shared cond_pc) : Prop := {
  ok_threads : Z.of_nat (length (threads cfg)) < 65536;
  (** The word counts the waiters. *)
  ok_word : cond_state (shared cfg) = tally_if is_waiter (threads cfg) + 65536 * signals_of (cond_state (shared cfg));
  ok_signals : 0 <= signals_of (cond_state (shared cfg)) <= tally_if is_waiter (threads cfg);
  ok_epoch : 0 <= cond_epoch (shared cfg);
  ok_local_epochs : Forall (fun pc => local_epoch pc <= cond_epoch (shared cfg)) (threads cfg);
  (** Every signal has a waker that has not changed the epoch yet, or a waiter that is not committed to this epoch. *)
  ok_open : signals_of (cond_state (shared cfg)) <= tally before_epoch (threads cfg) + tally (open (cond_epoch (shared cfg))) (threads cfg);
  (** Every signal has a waker that has not woken its sleepers yet, or a waiter that is awake and will look. *)
  ok_alert : signals_of (cond_state (shared cfg)) <= tally before_wake (threads cfg) + tally (alert (cond_epoch (shared cfg))) (threads cfg);
}.

Lemma cond_woken_inv (l l' : cond_pc) : woken l = Some l' -> exists timed e st, l = WaitAsleep timed e st /\ l' = WaitReload timed.
Proof. destruct l; intros [= <-]. by eexists _, _, _. Qed.

Ltac sleeper := by intros ? ? (? & ? & ? & -> & ->)%cond_woken_inv.

Lemma waiters_bound ts : tally_if is_waiter ts <= Z.of_nat (length ts).
Proof. pose proof (tally_bound (fun l => b2z (is_waiter l)) ts 1 ltac:(by intros []; cbn; lia)). unfold tally_if. lia. Qed.

(** A step that leaves the epoch and wakes nobody: what it does to the signals and to the thread. *)
Lemma ok_local cfg cfg' i l l' targets G :
  cond_ok cfg -> sums_move (threads cfg) l l' 0 (threads cfg') -> length (threads cfg') = length (threads cfg) ->
  wake_all targets (<[i := l']> (threads cfg)) = Some (threads cfg') ->
  cond_epoch (shared cfg') = cond_epoch (shared cfg) -> local_epoch l' <= cond_epoch (shared cfg) ->
  cond_state (shared cfg') = tally_if is_waiter (threads cfg) - b2z (is_waiter l) + b2z (is_waiter l') + 65536 * G ->
  0 <= G <= tally_if is_waiter (threads cfg) - b2z (is_waiter l) + b2z (is_waiter l') ->
  G = 0 \/
    G - signals_of (cond_state (shared cfg)) <= before_epoch l' - before_epoch l + open (cond_epoch (shared cfg)) l' - open (cond_epoch (shared cfg)) l /\
    G - signals_of (cond_state (shared cfg)) <= before_wake l' - before_wake l + alert (cond_epoch (shared cfg)) l' - alert (cond_epoch (shared cfg)) l ->
  cond_ok cfg'.
Proof.
  intros [Hn Hw Hs He Hl Ho Ha] (Teq & Tif & Tle) Hlen Hwake Hep Hle Hst HG Hd.
  destruct (Tif is_waiter 0) as [Tw _]; [sleeper|].
  pose proof (Teq before_epoch 0 ltac:(sleeper)) as Tb. pose proof (Teq before_wake 0 ltac:(sleeper)) as Tk.
  pose proof (Teq (alert (cond_epoch (shared cfg))) 1 ltac:(sleeper)) as Ta.
  pose proof (Tle (open (cond_epoch (shared cfg))) ltac:(intros ? ? (? & ? & ? & -> & ->)%cond_woken_inv; apply b2z_nonneg || (cbn; unfold open; cbn; destruct (_ =? _); cbn; lia))) as To.
  pose proof (waiters_bound (threads cfg')) as HWn. rewrite Hlen in HWn.
  destruct (word_counters (tally_if is_waiter (threads cfg')) G) as (_ & HGs & _); [lia|lia|].
  replace (tally_if is_waiter (threads cfg) - b2z (is_waiter l) + b2z (is_waiter l')) with (tally_if is_waiter (threads cfg')) in Hst, HG by lia.
  split; rewrite ?Hep, ?Hst, ?HGs, ?Hlen; try done.
  - eapply wake_all_Forall; [|exact Hwake|by apply Forall_insert]. intros ? ? (? & ? & ? & -> & ->)%cond_woken_inv. cbn. lia.
  - destruct Hd as [E|[Hd _]]; [|lia]. rewrite E.
    pose proof (tally_nonneg before_epoch (threads cfg') ltac:(intros []; cbn; lia)). pose proof (tally_nonneg (open (cond_epoch (shared cfg))) (threads cfg') ltac:(intros; apply b2z_nonneg)). lia.
  - destruct Hd as [E|[_ Hd]]; [|lia]. rewrite E.
    pose proof (tally_nonneg before_wake (threads cfg') ltac:(intros []; cbn; lia)). pose proof (tally_nonneg (alert (cond_epoch (shared cfg))) (threads cfg') ltac:(intros; apply b2z_nonneg)). lia.
Qed.

Lemma cond_init_ok n : Z.of_nat n < 65536 -> cond_ok (cond_init n).
Proof.
  intros Hn. assert (Ht : forall w, w CondIdle = 0 -> tally w (replicate n CondIdle) = 0).
  { intros w Hw. clear Hn. induction n as [|k IH]; cbn [replicate tally]; [done|]. by rewrite IH, Hw. }
  split; cbn [shared threads cond_init cond_state cond_epoch]; rewrite ?length_replicate; unfold tally_if; rewrite ?Ht by done; try done.
  by apply Forall_replicate.
Qed.

(** What a step does to the counters; only the return of a waiter takes a signal away. *)
Definition counts (s s' : cond_shared) (l' : cond_pc) : Prop :=
  counters_step (counters_of s) (counters_of s') /\
  (l' = WaitReturn true \/ signals_of (cond_state s) <= signals_of (cond_state s') \/ signals_of (cond_state s) = 0).

Lemma stays W G W' : W' = W -> counters_step (mkCounters W G) (mkCounters W' G).
Proof. intros ->. apply counters_stay. Qed.
Lemma counts_eq (c c' d d' : counters) : c = c' -> d = d' -> counters_step c' d' -> counters_step c d.
Proof. by intros -> ->. Qed.

(** What is to be shown of such a step, by what it does to the counters; [G] signals, [Ho] what the word says of them. *)
Ltac weigh G Ho :=
  destruct (Z.eqb_spec G 0); cbn in Ho; unfold open, alert; cbn;
  first [left; lia|right; rewrite ?Ho; repeat match goal with
    | H : has_signal _ = _ |- _ => rewrite H in *
    | |- context [?x =? ?y] => destruct (Z.eqb_spec x y)
    | |- context [has_signal ?x] => destruct (has_signal x)
    end; cbn; lia].
Ltac obligation G Ho tac :=
  match goal with
  | |- counters_step _ _ => first [apply stays; cbn; lia|eapply counts_eq; [done| |tac; cbn; lia]; cbn; f_equal; lia]
  | |- _ = WaitReturn true \/ _ => first [by left|right; lia]
  | |- _ = 0 \/ _ => weigh G Ho
  | _ => cbn; first [done|lia]
  end.

(** The steps that touch neither the epoch nor a sleeper. *)
Lemma cond_ok_quiet cfg cfg' i c l l' targets :
  cond_ok cfg -> clock cfg < 2 ^ 32 -> threads cfg !! i = Some l -> step c (shared cfg) l = Some (shared cfg', l', 0%nat) ->
  sums_move (threads cfg) l l' 0 (threads cfg') -> length (threads cfg') = length (threads cfg) ->
  wake_all targets (<[i := l']> (threads cfg)) = Some (threads cfg') ->
  (forall k, l <> WakeEpoch k) -> cond_ok cfg' /\ cond_epoch (shared cfg') = cond_epoch (shared cfg) /\ counts (shared cfg) (shared cfg') l'.
Proof.
  intros Hok Hc Hl Hst Hsum Hlen Hwake Hne. pose proof Hok as [Hn Hw Hs He Hle _ _].
  pose proof (Forall_lookup_1 _ _ _ _ Hle Hl) as Hlel. cbn beta in Hlel.
  pose proof (waiters_bound (threads cfg)) as HWn. pose proof (waiters_bound (threads cfg')) as HWn'. rewrite Hlen in HWn'.
  pose proof (tally_if_nonneg is_waiter (threads cfg)) as HW0.
  assert (HWl : b2z (is_waiter l) <= tally_if is_waiter (threads cfg)) by (by destruct (proj1 (proj2 Hsum) is_waiter 0 ltac:(sleeper))).
  destruct (proj1 (proj2 Hsum) is_waiter 0 ltac:(sleeper)) as [HW' _].
  set (W := tally_if is_waiter (threads cfg)) in *. set (G := signals_of (cond_state (shared cfg))) in *.
  destruct (word_counters W G) as (Wo & So & Ho); [lia|lia|]. rewrite <- Hw in Wo, So, Ho.
  assert (Hgo : forall G', cond_epoch (shared cfg') = cond_epoch (shared cfg) -> local_epoch l' <= cond_epoch (shared cfg) ->
    cond_state (shared cfg') = W - b2z (is_waiter l) + b2z (is_waiter l') + 65536 * G' -> 0 <= G' <= W - b2z (is_waiter l) + b2z (is_waiter l') ->
    G' = 0 \/
      G' - G <= before_epoch l' - before_epoch l + open (cond_epoch (shared cfg)) l' - open (cond_epoch (shared cfg)) l /\
      G' - G <= before_wake l' - before_wake l + alert (cond_epoch (shared cfg)) l' - alert (cond_epoch (shared cfg)) l ->
    counters_step (mkCounters W G) (mkCounters (W - b2z (is_waiter l) + b2z (is_waiter l')) G') -> l' = WaitReturn true \/ G <= G' \/ G = 0 ->
    cond_ok cfg' /\ cond_epoch (shared cfg') = cond_epoch (shared cfg) /\ counts (shared cfg) (shared cfg') l').
  { intros G' H1 H2 H3 H4 H5 H6 H7. split; [by apply (ok_local cfg cfg' i l l' targets G')|]. split; [done|].
    destruct (word_counters (W - b2z (is_waiter l) + b2z (is_waiter l')) G') as (Wo' & So' & _); [lia|lia|]. rewrite <- H3 in Wo', So'.
    unfold counts. fold G. rewrite So'. split; [|done]. unfold counters_of. by rewrite Wo, Wo', So'. }
  clear Hsum Hwake Hok Hle. destruct (shared cfg) as [state epoch] eqn:Ecfg. cbn [cond_state cond_epoch] in *.
  destruct c, l; try discriminate Hst; cbn [step cond_system cond_step cond_loops cond_state cond_epoch] in Hst;
    unfold cas in Hst; cbn [cond_state cond_epoch] in Hst; rewrite ?andb_true_r, ?andb_false_r in Hst.
  all: repeat match type of Hst with
    | context [if ?t : bool then _ else _] => let E := fresh "E" in destruct t eqn:E; try discriminate Hst
    end; cbn in Hlel, HWl, HW'.
  all: rewrite ?Z.eqb_eq, ?Z.eqb_neq in *.
  all: try by (injection Hst as Es <-; apply (Hgo G); rewrite <- ?Es; obligation G Ho idtac).
  - injection Hst as Es <-. cbn in HW'. unfold ONE_WAITER in Es. rewrite wrap32_small in Es by lia.
    apply (Hgo G); rewrite <- ?Es; obligation G Ho ltac:(apply counters_wait).
  - injection Hst as Es <-. subst st. rewrite Ho in E. destruct (Z.eqb_spec G 0) as [|HG0]; [done|]. unfold ONE_WAITER in Es. change ONE_SIGNAL with 65536 in Es.
    rewrite (wrap32_small (state - 1)), wrap32_small in Es by lia. apply (Hgo (G - 1)); rewrite <- ?Es; obligation G Ho ltac:(apply counters_wake).
  - injection Hst as Es <-. subst st. rewrite Ho in E0. destruct (Z.eqb_spec G 0) as [|HG0]; [done|]. unfold ONE_WAITER in Es. change ONE_SIGNAL with 65536 in Es.
    rewrite (wrap32_small (state - 1)), wrap32_small in Es by lia. apply (Hgo (G - 1)); rewrite <- ?Es; obligation G Ho ltac:(apply counters_wake).
  - injection Hst as Es <-. subst st. rewrite Ho in E0. destruct (Z.eqb_spec G 0) as [HG0|]; [|done]. unfold ONE_WAITER in Es.
    rewrite !wrap32_small in Es by lia. apply (Hgo 0); rewrite <- ?Es; obligation G Ho ltac:(apply counters_give_up).
  - injection Hst as Es <-. subst st. rewrite Wo, So in *. rewrite (wrap32_small (W - G)) in * by lia. change ONE_SIGNAL with 65536 in Es.
    rewrite (wrap32_small (65536 * (W - G))), wrap32_small in Es by lia. apply (Hgo W); rewrite <- ?Es; obligation G Ho ltac:(apply counters_broadcast).
  - injection Hst as Es <-. subst st. rewrite Wo, So in *. rewrite (wrap32_small (W - G)) in * by lia. change ONE_SIGNAL with 65536 in Es.
    rewrite (wrap32_small (65536 * 1)), wrap32_small in Es by lia. apply (Hgo (G + 1)); rewrite <- ?Es; obligation G Ho ltac:(apply counters_signal).
  - by destruct (Hne to_wake).
Qed.

Lemma before_epoch_nonneg ts : 0 <= tally before_epoch ts.
Proof. apply tally_nonneg. intros []; cbn; lia. Qed.
Lemma before_wake_nonneg ts : 0 <= tally before_wake ts.
Proof. apply tally_nonneg. intros []; cbn; lia. Qed.
Lemma before_epoch_le_wake ts : tally before_epoch ts <= tally before_wake ts.
Proof. apply tally_le. intros []; cbn; lia. Qed.

(** After a new epoch every waiter is free to look at the state. *)
Lemma cond_ok_tick cfg cfg' i k targets :
  cond_ok cfg -> threads cfg !! i = Some (WakeEpoch k) -> shared cfg' = mkCond (cond_state (shared cfg)) (cond_epoch (shared cfg) + 1) ->
  sums_move (threads cfg) (WakeEpoch k) (WakeFutex k) 0 (threads cfg') -> length (threads cfg') = length (threads cfg) ->
  wake_all targets (<[i := WakeFutex k]> (threads cfg)) = Some (threads cfg') -> cond_ok cfg'.
Proof.
  intros [Hn Hw Hs He Hl _ Ha] Hk Hsh (Teq & Tif & _) Hlen Hwake.
  destruct (Tif is_waiter 0) as [Tw _]; [sleeper|]. pose proof (Teq before_wake 0 ltac:(sleeper)) as Tk.
  pose proof (Teq (alert (cond_epoch (shared cfg))) 1 ltac:(sleeper)) as Ta. cbn in Tw, Tk, Ta.
  assert (HF : Forall (fun pc => local_epoch pc <= cond_epoch (shared cfg)) (threads cfg')).
  { eapply wake_all_Forall; [|exact Hwake|by apply Forall_insert]. intros ? ? (? & ? & ? & -> & ->)%cond_woken_inv. cbn. lia. }
  assert (Hopen : tally_if is_waiter (threads cfg') <= tally (open (cond_epoch (shared cfg) + 1)) (threads cfg')).
  { eapply (tally_le_Forall _ _ _ _ HF). intros l Hle. destruct l; cbn in Hle; unfold open; cbn; rewrite ?andb_false_r; cbn; try lia;
      rewrite (proj2 (Z.eqb_neq _ _)) by lia; rewrite ?andb_false_r; cbn; lia. }
  assert (Halert : tally (alert (cond_epoch (shared cfg))) (threads cfg') <= tally (alert (cond_epoch (shared cfg) + 1)) (threads cfg')).
  { eapply (tally_le_Forall _ _ _ _ HF). intros l Hle. destruct l; cbn in Hle; unfold alert; cbn; rewrite ?andb_false_r; cbn; try lia;
      rewrite (proj2 (Z.eqb_neq _ (_ + 1))) by lia; rewrite ?andb_false_r; cbn; first [apply b2z_le1|lia]. }
  pose proof (before_epoch_nonneg (threads cfg')).
  split; rewrite ?Hsh; cbn [cond_state cond_epoch]; rewrite ?Hlen; try lia.
  eapply Forall_impl; [|exact HF]. cbn. intros. lia.
Qed.

(** Whoever is woken looks; if all sleepers are, none sleeps. *)
Lemma cond_ok_wake cfg cfg' i k targets :
  cond_ok cfg -> threads cfg !! i = Some (WakeFutex k) -> shared cfg' = shared cfg ->
  sums_move (threads cfg) (WakeFutex k) CondIdle (length targets) (threads cfg') -> length (threads cfg') = length (threads cfg) ->
  wake_all targets (<[i := CondIdle]> (threads cfg)) = Some (threads cfg') ->
  Z.of_nat (length targets) = Z.min (Z.of_nat k) (tally_if is_asleep (threads cfg)) -> cond_ok cfg'.
Proof.
  intros [Hn Hw Hs He Hl Ho Ha] Hk Hsh (Teq & Tif & Tle) Hlen Hwake Hcount.
  destruct (Tif is_waiter 0) as [Tw _]; [sleeper|]. destruct (Tif is_asleep (-1)) as [Tas _]; [sleeper|].
  pose proof (Teq before_wake 0 ltac:(sleeper)) as Tk. pose proof (Teq before_epoch 0 ltac:(sleeper)) as Tb.
  pose proof (Teq (alert (cond_epoch (shared cfg))) 1 ltac:(sleeper)) as Ta.
  pose proof (Tle (open (cond_epoch (shared cfg))) ltac:(intros ? ? (? & ? & ? & -> & ->)%cond_woken_inv; unfold open; cbn; destruct (_ =? _); cbn; lia)) as To.
  cbn in Tw, Tas, Tk, Tb, Ta, To.
  assert (Hopen : tally (open (cond_epoch (shared cfg))) (threads cfg') <= tally (alert (cond_epoch (shared cfg))) (threads cfg') + tally_if is_asleep (threads cfg')).
  { unfold tally_if. rewrite <- tally_add. apply tally_le. intros l. unfold open, alert. destruct l; cbn; try lia. pose proof (b2z_le1 (negb (e =? cond_epoch (shared cfg)))). lia. }
  pose proof (before_epoch_le_wake (threads cfg')).
  split; rewrite ?Hsh, ?Hlen; try lia.
  eapply wake_all_Forall; [|exact Hwake|by apply Forall_insert]. intros ? ? (? & ? & ? & -> & ->)%cond_woken_inv. cbn. lia.
Qed.

Lemma cond_sleeps_asleep (l : cond_pc) : sleeps l = is_asleep l.
Proof. by destruct l. Qed.

Lemma cond_sleeps_is_asleep (ts : list cond_pc) : tally_if sleeps ts = tally_if is_asleep ts.
Proof. apply tally_ext. intros. by rewrite cond_sleeps_asleep. Qed.

Definition after (cfg cfg' : config cond_shared cond_pc) (l' : cond_pc) : Prop :=
  cond_ok cfg' /\ clock cfg' <= clock cfg + 1 /\ counts (shared cfg) (shared cfg') l'.

Lemma counts_same s s' l' : counters_of s' = counters_of s -> counts s s' l'.
Proof. unfold counts. intros H. rewrite H. split; [apply counters_stay|]. unfold counters_of in H. injection H as _ ->. right. left. lia. Qed.

Lemma cond_fire cfg e cfg' :
  cond_ok cfg -> clock cfg < 2 ^ 32 -> fire cfg e = Some cfg' ->
  exists l l' n, threads cfg !! who e = Some l /\ step (choice e) (shared cfg) l = Some (shared cfg', l', n) /\ length (threads cfg') = length (threads cfg) /\
    sums_move (threads cfg) l l' (length (targets e)) (threads cfg') /\ (length (targets e) <= n)%nat /\ after cfg cfg' l'.
Proof.
  intros Hok Hc (l & l' & n & Hl & Hst & Hlen & Hn & Hwake & Ht)%fire_inv. exists l, l', n. split; [done|]. split; [done|]. split; [done|]. split; [done|].
  split; [lia|]. destruct (proj1 (proj2 Ht) will_tick 0) as [Tt Lt]; [sleeper|].
  rewrite cond_sleeps_is_asleep, !cond_sleeps_asleep in Hn. pose proof (ok_epoch _ Hok) as He.
  assert (Hcases : (exists k, l = WakeEpoch k /\ l' = WakeFutex k /\ n = 0%nat /\ shared cfg' = mkCond (cond_state (shared cfg)) (wrap 32 (cond_epoch (shared cfg) + 1))) \/
    (exists k, l = WakeFutex k /\ l' = CondIdle /\ n = k /\ shared cfg' = shared cfg) \/ (n = 0%nat /\ forall k, l <> WakeEpoch k)).
  { destruct l, (choice e); try discriminate Hst; cbn [step cond_system cond_step cond_loops] in Hst;
      try (right; right; split; [|done]; repeat case_match; by simplify_eq).
    - injection Hst as <- <- <-. left. by exists to_wake.
    - injection Hst as <- <- <-. right. left. by exists to_wake. }
  unfold after. destruct Hcases as [(k & -> & -> & -> & Hsh)|[(k & -> & -> & -> & Hsh)|[-> Hne]]].
  - assert (Ht0 : length (targets e) = 0%nat) by (pose proof (tally_if_nonneg is_asleep (threads cfg)); cbn [is_asleep b2z] in Hn; lia).
    cbn in Lt, Tt. unfold clock in *. rewrite wrap32_small in Hsh by lia.
    rewrite Ht0 in *. split; [by eapply cond_ok_tick|]. rewrite Hsh. cbn [cond_epoch]. split; [lia|by apply counts_same].
  - cbn [is_asleep b2z will_tick] in Hn, Tt. unfold clock in *. rewrite Hsh. split; [|split; [lia|by apply counts_same]].
    eapply cond_ok_wake; [done|done|done|done|done|done|]. lia.
  - assert (Ht0 : length (targets e) = 0%nat) by lia. rewrite Ht0 in *.
    destruct (cond_ok_quiet cfg cfg' (who e) (choice e) l l' (targets e)) as (H1 & H2 & H3); try done. split; [done|].
    unfold clock in *. rewrite H2. cbn in Tt. split; [|done]. destruct (will_tick l), (will_tick l'); cbn in Tt; lia.
Qed.

(** ** A signal is not lost *)

Definition goes_on_step (e : event cond_choice) : Prop := choice e = CStep.
Definition is_returning (pc : cond_pc) : bool := match pc with WaitReturn true => true | _ => false end.
Definition returning (cfg : config cond_shared cond_pc) : Z := tally_if is_returning (threads cfg).
Definition signals (cfg : config cond_shared cond_pc) : Z := signals_of (cond_state (shared cfg)).

(** How often a thread may still change the shared state, or wake. *)
Definition changes_left (pc : cond_pc) : Z :=
  match pc with WakeLoad _ | WakeCas _ _ => 3 | WakeEpoch _ => 2 | WakeFutex _ | WaitTimeout _ | WaitRegister _ _ => 1 | _ => 0 end.
(** How many steps it takes to sleep or to change the shared state, if nobody else changes it. *)
Definition steps_left (s : cond_shared) (pc : cond_pc) : Z :=
  let fresh st := if cond_state s =? st then 0 else 2 in
  match pc with
  | WaitUnlock _ e _ => if cond_epoch s =? e then 2 else 21
  | WaitSleep _ e _ => if cond_epoch s =? e then 1 else 20
  | WaitReload _ => 19
  | WaitLoad _ e => if cond_epoch s =? e then 10 else 26
  | WaitCheck _ e st => (if cond_epoch s =? e then 3 else 22) + fresh st
  | WaitTimeout st | WakeCas _ st => 1 + fresh st
  | WakeLoad _ => 5
  | _ => 0
  end.

Lemma changes_left_nonneg pc : 0 <= changes_left pc.
Proof. destruct pc; cbn; lia. Qed.
Lemma steps_left_bounds s pc : 0 <= steps_left s pc <= 30.
Proof. destruct pc; cbn; repeat case_match; lia. Qed.

Lemma step_decreases s pc s' pc' n :
  step CStep s pc = Some (s', pc', n) ->
  pc' = WaitReturn true \/ changes_left pc' < changes_left pc \/
  changes_left pc' = changes_left pc /\ s' = s /\ n = 0%nat /\ steps_left s pc' < steps_left s pc.
Proof.
  destruct pc; cbn [step cond_system cond_step cond_loops]; try discriminate; unfold cas; rewrite ?andb_true_r; intros Hst;
    repeat match type of Hst with
    | context [if ?t : bool then _ else _] => let E := fresh "E" in destruct t eqn:E; try discriminate Hst
    end; injection Hst as <- <- <-; first [by left|right]; cbn; rewrite ?Z.eqb_refl, ?E; first [left; lia|right; split_and!; try done; repeat case_match; lia].
Qed.

Definition distance (cfg : config cond_shared cond_pc) : Z :=
  tally changes_left (threads cfg) * (30 * Z.of_nat (length (threads cfg)) + 1) + tally (steps_left (shared cfg)) (threads cfg).

Lemma cond_distance_nonneg cfg : 0 <= distance cfg.
Proof.
  unfold distance. pose proof (tally_nonneg changes_left (threads cfg) changes_left_nonneg).
  pose proof (tally_nonneg (steps_left (shared cfg)) (threads cfg) (fun pc => proj1 (steps_left_bounds _ pc))). nia.
Qed.

Lemma cond_woken_once (l l' : cond_pc) : woken l = Some l' -> woken l' = None.
Proof. by intros (? & ? & ? & -> & ->)%cond_woken_inv. Qed.

(** Someone who will deal with the signal can take a step. *)
Lemma signal_progress cfg : cond_ok cfg -> 0 < signals cfg -> exists e cfg', goes_on_step e /\ fire cfg e = Some cfg'.
Proof.
  intros Hok Hs. pose proof (ok_alert _ Hok) as Ha. unfold signals in Hs.
  assert (exists i l s l' n, threads cfg !! i = Some l /\ step CStep (shared cfg) l = Some (s, l', n)) as (i & l & s & l' & n & Hl & Hst).
  { destruct (decide (0 < tally before_wake (threads cfg))) as [(i & l & Hl & Hp)%tally_pos|Hn].
    - exists i, l. destruct l; cbn in Hp; try lia; by eexists _, _, _.
    - destruct (tally_pos (alert (cond_epoch (shared cfg))) (threads cfg)) as (i & l & Hl & Hp); [lia|]. exists i, l.
      destruct l; cbn in Hp; try lia; cbn [step cond_system cond_step cond_loops]; try (by eexists _, _, _); unfold cas; repeat case_match; simplify_eq; by eexists _, _, _. }
  destruct (fire_step cfg i l CStep s l' n cond_woken_once Hl Hst) as (ks & cfg' & Hf). by exists (mkEvent i CStep ks), cfg'.
Qed.

Lemma step_clock s pc s' pc' n :
  step CStep s pc = Some (s', pc', n) -> 0 <= cond_epoch s -> cond_epoch s + b2z (will_tick pc) < 2 ^ 32 ->
  cond_epoch s' + b2z (will_tick pc') <= cond_epoch s + b2z (will_tick pc).
Proof.
  destruct pc; cbn [step cond_system cond_step cond_loops]; try discriminate; unfold cas; intros Hst He Hc; repeat case_match; simplify_eq; cbn in *; try lia.
  rewrite wrap32_small; lia.
Qed.

Lemma signal_decreases cfg e cfg' :
  cond_ok cfg -> clock cfg < 2 ^ 32 -> 0 < signals cfg -> goes_on_step e -> fire cfg e = Some cfg' ->
  returning cfg < returning cfg' \/
  (cond_ok cfg' /\ clock cfg' < 2 ^ 32 /\ 0 < signals cfg' /\ returning cfg <= returning cfg') /\ distance cfg' < distance cfg.
Proof.
  intros Hok Hc Hs He Hf. destruct (cond_fire cfg e cfg' Hok Hc Hf) as (l & l' & n & Hl & Hst & Hlen & Ht & Hn & Hok' & _ & Hcount).
  unfold goes_on_step in He. rewrite He in Hst.
  destruct (proj1 (proj2 Ht) is_returning 0) as [Tr _]; [sleeper|]. fold (returning cfg) (returning cfg') in Tr.
  assert (Hr0 : is_returning l = false) by (by destruct l).
  rewrite Hr0 in Tr. cbn [b2z] in Tr. destruct (is_returning l') eqn:Er; [left; cbn [b2z] in Tr; lia|right]. cbn [b2z] in Tr.
  assert (Hne : l' <> WaitReturn true) by (by intros ->). destruct (step_decreases _ _ _ _ _ Hst) as [E|Hd]; [done|]. split.
  - split; [done|]. split; [|split; [|lia]].
    + unfold clock in *. destruct (proj1 (proj2 Ht) will_tick 0) as [Tt Lt]; [sleeper|]. pose proof (ok_epoch _ Hok).
      assert (Hb : cond_epoch (shared cfg) + b2z (will_tick l) < 2 ^ 32) by lia. pose proof (step_clock _ _ _ _ _ Hst (ok_epoch _ Hok) Hb). lia.
    + unfold signals in *. destruct Hcount as [_ [E|[Hge|Hz]]]; [done|lia|lia].
  - unfold distance. rewrite Hlen. pose proof (proj1 Ht changes_left 0 ltac:(sleeper)) as Tc.
    pose proof (tally_bound (steps_left (shared cfg')) (threads cfg') 30 (fun pc => proj2 (steps_left_bounds _ pc))) as Hb. rewrite Hlen in Hb.
    pose proof (tally_nonneg (steps_left (shared cfg)) (threads cfg) (fun pc => proj1 (steps_left_bounds _ pc))).
    destruct Hd as [Hd|(Hd & Es & -> & Hlt)]; [nia|]. assert (Hk : length (targets e) = 0%nat) by lia. rewrite Hk in *.
    pose proof (proj1 Ht (steps_left (shared cfg)) 19 ltac:(sleeper)) as Tl. rewrite Es. nia.
Qed.

(** (C24) The condition variable implements the specification of counters, and loses no signal. For fewer than 2^16
    threads and 2^32 events, in any order, with timeouts, failing exchanges and spurious wake-ups: the word counts the
    threads in [wait] and the signals for them; each event waits, signals one or all, gives up without a signal, takes
    one signal, or leaves the counters; and while there is a signal, the threads in [wait] and [wake] cannot all be
    stuck: whatever order they run in, after finitely many of their steps one more [wait] has returned. *)
Theorem condition_correct (n : nat) (es : list (event cond_choice)) (cfg : config cond_shared cond_pc)
  (Hn : Z.of_nat n < 65536) (Hes : Z.of_nat (length es) < 2 ^ 32) (Hrun : run (cond_init n) es = Some cfg) :
  (waiting (counters_of (shared cfg)) = tally_if is_waiter (threads cfg) /\ 0 <= signalled (counters_of (shared cfg)) <= waiting (counters_of (shared cfg))) /\
  (forall e cfg', fire cfg e = Some cfg' -> counters_step (counters_of (shared cfg)) (counters_of (shared cfg'))) /\
  (0 < signalled (counters_of (shared cfg)) -> inevitable (fun c => returning cfg < returning c) goes_on_step cfg).
Proof.
  destruct (run_invariant_clock cond_ok clock (2 ^ 32) (cond_init n) es cfg) as [Hok Hclock].
  - intros c e c' Hc Hlt Hf. by destruct (cond_fire c e c' Hc Hlt Hf) as (? & ? & ? & _ & _ & _ & _ & _ & ? & ? & _).
  - by apply cond_init_ok.
  - assert (clock (cond_init n) = 0) as ->; [|lia]. unfold clock, tally_if. cbn. clear. induction n as [|k IH]; cbn; lia.
  - done.
  - assert (H0 : clock (cond_init n) = 0). { unfold clock, tally_if. cbn. clear. induction n as [|k IH]; cbn; lia. } rewrite H0 in Hclock.
    pose proof (ok_signals _ Hok) as Hs. pose proof (waiters_bound (threads cfg)). pose proof (ok_threads _ Hok).
    destruct (word_counters (tally_if is_waiter (threads cfg)) (signals_of (cond_state (shared cfg)))) as (Hw & _ & _); [lia|lia|]. rewrite <- (ok_word _ Hok) in Hw.
    split; [unfold counters_of; cbn; lia|]. split.
    + intros e c' Hf. destruct (cond_fire cfg e c' Hok) as (? & ? & ? & _ & _ & _ & _ & _ & _ & _ & Hc & _); [lia|done|done].
    + cbn. intros Hg.
      apply (inevitable_measure _ (fun c => cond_ok c /\ clock c < 2 ^ 32 /\ 0 < signals c /\ returning cfg <= returning c) _ distance).
      * intros c _. apply cond_distance_nonneg.
      * intros c (Hc & Hcc & Hcs & Hcr). right. split; [by apply signal_progress|]. intros e c' He Hf.
        destruct (signal_decreases c e c' Hc Hcc Hcs He Hf) as [Hr|[(? & ? & ? & ?) ?]]; [left; lia|right; split_and!; try done; lia].
      * split_and!; [done|lia|done|lia].
Qed.

(** A waiter sleeps, is signalled and has returned after the steps that are left. *)
Definition signalled_sleeper : list (event cond_choice) :=
  [mkEvent 0 (CWait false) []; mkEvent 0 CStep []; mkEvent 0 CStep []; mkEvent 0 CStep []; mkEvent 1 (CWake false) []; mkEvent 1 CStep []; mkEvent 1 CStep []].

Lemma condition_correct_witness :
  exists cfg, run (cond_init 2) signalled_sleeper = Some cfg /\ threads cfg = [WaitAsleep false 0 1; WakeEpoch 1] /\
    inevitable (fun c => returning cfg < returning c) goes_on_step cfg.
Proof.
  eexists. split; [reflexivity|]. split; [reflexivity|]. apply (condition_correct 2 signalled_sleeper); [reflexivity|reflexivity|reflexivity|].
  apply Z.ltb_lt. reflexivity.
Defined.
