(* ===== verification/RwLock.v ===== *)
(** * The reader-writer lock ([threading/RwLock.rs])

    Any number of threads lock one [RawRwLock] for reading and writing. The shared state is the word of counters, the
    mutex and the semaphore, both by what they promise: the mutex has at most one owner ([FutexMutex] shows it of the
    implementation), a semaphore lets a thread pass for each permit ([Semaphore]). *)

From stdpp Require Import list.
From S2P Require Import Prelude Interleaving.

Definition COUNT_BITS : Z := 31.
Definition COUNT_MAX : Z := Z.shiftl 1 COUNT_BITS - 1.
Definition IS_WRITING : Z := 1.
Definition WRITER : Z := Z.shiftl 1 1.
Definition READER : Z := Z.shiftl 1 (1 + COUNT_BITS).
Definition WRITER_MASK : Z := Z.shiftl COUNT_MAX 1.
Definition READER_MASK : Z := Z.shiftl COUNT_MAX 32.

Record rw_shared := mkRw { rw_state : Z; rw_locked : bool; rw_permits : Z }.

(** Where a thread is: in front of the operation its name tells. *)
Inductive rw_pc :=
| RwIdle
| TryMutex | TryLoad | TryOr | TryUndo                          (* try_lock *)
| LockAdd | LockMutex | LockMark | LockWait                     (* lock *)
| WriteHeld
| UnlockAnd | UnlockMutex                                       (* unlock *)
| TrySharedLoad | TrySharedCas (st : Z) | TrySharedMutex | TrySharedAdd | TrySharedUnlock
| SharedLoad | SharedLoop (st : Z) | SharedMutex | SharedAdd | SharedUnlock
| ReadHeld
| UnlockSharedSub | UnlockSharedPost.

#[export] Instance rw_pc_eq_dec : EqDecision rw_pc.
Proof. solve_decision. Defined.

Inductive rw_choice := RTryLock | RLock | RUnlock | RTryShared | RShared | RUnlockShared | RNext | RSpurious.

Definition with_state (s : rw_shared) (st : Z) : rw_shared := mkRw st (rw_locked s) (rw_permits s).
Definition with_mutex (s : rw_shared) (b : bool) : rw_shared := mkRw (rw_state s) b (rw_permits s).
Definition with_permits (s : rw_shared) (p : Z) : rw_shared := mkRw (rw_state s) (rw_locked s) p.

Definition no_writer (st : Z) : bool := Z.land st (Z.lor IS_WRITING WRITER_MASK) =? 0.

(** [mutex.lock()] waits until it is free; [try_lock] answers, and may fail for no reason. *)
Definition acquire (s : rw_shared) (pc : rw_pc) : option (rw_shared * rw_pc * nat) :=
  if rw_locked s then None else Some (with_mutex s true, pc, 0%nat).
Definition try_acquire (s : rw_shared) (spurious : bool) (pc other : rw_pc) : option (rw_shared * rw_pc * nat) :=
  if rw_locked s || spurious then Some (s, other, 0%nat) else Some (with_mutex s true, pc, 0%nat).

Definition rw_next (spurious : bool) (s : rw_shared) (pc : rw_pc) : option (rw_shared * rw_pc * nat) :=
  let go s pc := if spurious then None else Some (s, pc, 0%nat) in
  match pc with
  | TryMutex => try_acquire s spurious TryLoad RwIdle
  | TryLoad => go s (if Z.land (rw_state s) READER_MASK =? 0 then TryOr else TryUndo)
  | TryOr => go (with_state s (Z.lor (rw_state s) IS_WRITING)) WriteHeld
  | TryUndo => go (with_mutex s false) RwIdle
  | LockAdd => go (with_state s (wrap 64 (rw_state s + WRITER))) LockMutex
  | LockMutex => if spurious then None else acquire s LockMark
  | LockMark =>
      go (with_state s (wrap 64 (rw_state s + wrap 64 (IS_WRITING - WRITER)))) (if Z.land (rw_state s) READER_MASK =? 0 then WriteHeld else LockWait)
  | LockWait => if 0 <? rw_permits s then go (with_permits s (rw_permits s - 1)) WriteHeld else None
  | UnlockAnd => go (with_state s (Z.land (rw_state s) (Z.lxor IS_WRITING U64_MAX))) UnlockMutex
  | UnlockMutex => go (with_mutex s false) RwIdle
  | TrySharedLoad => go s (if no_writer (rw_state s) then TrySharedCas (rw_state s) else TrySharedMutex)
  | TrySharedCas st => if rw_state s =? st then go (with_state s (wrap 64 (st + READER))) ReadHeld else go s TrySharedMutex
  | TrySharedMutex => try_acquire s spurious TrySharedAdd RwIdle
  | TrySharedAdd => go (with_state s (wrap 64 (rw_state s + READER))) TrySharedUnlock
  | TrySharedUnlock => go (with_mutex s false) ReadHeld
  | SharedLoad => go s (SharedLoop (rw_state s))
  | SharedLoop st =>
      if no_writer st then
        if (rw_state s =? st) && negb spurious then Some (with_state s (wrap 64 (st + READER)), ReadHeld, 0%nat) else Some (s, SharedLoop (rw_state s), 0%nat)
      else go s SharedMutex
  | SharedMutex => if spurious then None else acquire s SharedAdd
  | SharedAdd => go (with_state s (wrap 64 (rw_state s + READER))) SharedUnlock
  | SharedUnlock => go (with_mutex s false) ReadHeld
  | UnlockSharedSub =>
      go (with_state s (wrap 64 (rw_state s - READER)))
        (if (Z.land (rw_state s) READER_MASK =? READER) && negb (Z.land (rw_state s) IS_WRITING =? 0) then UnlockSharedPost else RwIdle)
  | UnlockSharedPost => go (with_permits s (rw_permits s + 1)) RwIdle
  | RwIdle | WriteHeld | ReadHeld => None
  end.

(** [try_write]: whether the callers use [try_lock]. *)
Definition rw_step (try_write : bool) (c : rw_choice) (s : rw_shared) (pc : rw_pc) : option (rw_shared * rw_pc * nat) :=
  match c, pc with
  | RTryLock, RwIdle => if try_write then Some (s, TryMutex, 0%nat) else None
  | RLock, RwIdle => Some (s, LockAdd, 0%nat)
  | RUnlock, WriteHeld => Some (s, UnlockAnd, 0%nat)
  | RTryShared, RwIdle => Some (s, TrySharedLoad, 0%nat)
  | RShared, RwIdle => Some (s, SharedLoad, 0%nat)
  | RUnlockShared, ReadHeld => Some (s, UnlockSharedSub, 0%nat)
  | RNext, pc => rw_next false s pc
  | RSpurious, pc => rw_next true s pc
  | _, _ => None
  end.

#[export] Instance rw_system (try_write : bool) : System rw_shared rw_pc rw_choice :=
  {| step := rw_step try_write; woken := fun _ => None |}.

Definition rw_init (n : nat) : config rw_shared rw_pc := mkConfig (mkRw 0 false 0) (replicate n RwIdle).

Definition is_write_held (pc : rw_pc) : bool := match pc with WriteHeld => true | _ => false end.
Definition is_read_held (pc : rw_pc) : bool := match pc with ReadHeld => true | _ => false end.
Definition write_holders (cfg : config rw_shared rw_pc) : Z := tally_if is_write_held (threads cfg).
Definition read_holders (cfg : config rw_shared rw_pc) : Z := tally_if is_read_held (threads cfg).

(** [try_lock] loads the word, a reader takes the fast path, [try_lock] sets the bit. *)
Definition try_write_race : list (event rw_choice) :=
  [mkEvent 0 RTryLock []; mkEvent 0 RNext []; mkEvent 0 RNext [];
   mkEvent 1 RShared []; mkEvent 1 RNext []; mkEvent 1 RNext []; mkEvent 0 RNext []].

Example try_write_race_run :
  run (Sys := rw_system true) (rw_init 2) try_write_race = Some (mkConfig (mkRw (READER + IS_WRITING) true 0) [WriteHeld; ReadHeld]).
Proof. reflexivity. Qed.

(** ** The word *)

Lemma rw_word w0 w r : 0 <= w0 <= 1 -> 0 <= w < 2147483648 -> 0 <= r < 2147483648 ->
  let st := w0 + 2 * w + 4294967296 * r in
  no_writer st = (w0 =? 0) && (w =? 0) /\ (Z.land st READER_MASK =? 0) = (r =? 0) /\ (Z.land st READER_MASK =? READER) = (r =? 1) /\
  (Z.land st IS_WRITING =? 0) = (w0 =? 0) /\ Z.land st (Z.lxor IS_WRITING U64_MAX) = 2 * w + 4294967296 * r.
Proof.
  intros H0 Hw Hr st. assert (Hdiv : st / 4294967296 = r) by (unfold st; rewrite (Z.mul_comm 4294967296), Z.div_add, Z.div_small by lia; lia).
  assert (Hread : Z.land st READER_MASK = 4294967296 * r).
  { change READER_MASK with (Z.shiftl (Z.ones 31) 32). rewrite land_field by done. change (2 ^ 32) with 4294967296. change (2 ^ 31) with 2147483648.
    rewrite Hdiv, Z.mod_small by done. lia. }
  assert (Hlow : Z.land st (Z.lor IS_WRITING WRITER_MASK) = w0 + 2 * w).
  { change (Z.lor IS_WRITING WRITER_MASK) with (Z.ones 32). rewrite Z.land_ones by done. change (2 ^ 32) with 4294967296. unfold st.
    rewrite (Z.mul_comm 4294967296), Z_mod_plus_full. apply Z.mod_small. lia. }
  assert (Hone : Z.land st IS_WRITING = w0).
  { change IS_WRITING with (Z.ones 1). rewrite Z.land_ones by done. change (2 ^ 1) with 2. unfold st.
    replace (w0 + 2 * w + 4294967296 * r) with (w0 + (w + 2147483648 * r) * 2) by lia. rewrite Z_mod_plus_full. apply Z.mod_small. lia. }
  split_and!.
  - unfold no_writer. rewrite Hlow. destruct (Z.eqb_spec w0 0), (Z.eqb_spec w 0); cbn; first [apply Z.eqb_eq|apply Z.eqb_neq]; lia.
  - rewrite Hread. destruct (Z.eqb_spec r 0); first [apply Z.eqb_eq|apply Z.eqb_neq]; lia.
  - rewrite Hread. change READER with 4294967296. destruct (Z.eqb_spec r 1); first [apply Z.eqb_eq|apply Z.eqb_neq]; lia.
  - by rewrite Hone.
  - change (Z.lxor IS_WRITING U64_MAX) with (Z.shiftl (Z.ones 63) 1). rewrite land_field by done. change (2 ^ 1) with 2. change (2 ^ 63) with 9223372036854775808.
    replace (st / 2) with (w + 2147483648 * r); [rewrite Z.mod_small by lia; lia|]. unfold st.
    replace (w0 + 2 * w + 4294967296 * r) with (w0 + (w + 2147483648 * r) * 2) by lia. rewrite Z.div_add, Z.div_small by lia. lia.
Qed.

(** ** The invariant *)

Definition pending_writer (pc : rw_pc) : bool := match pc with LockMutex | LockMark => true | _ => false end.
Definition writing (pc : rw_pc) : bool := match pc with LockWait | WriteHeld | UnlockAnd => true | _ => false end.
Definition waits_for_readers (pc : rw_pc) : bool := match pc with LockWait => true | _ => false end.
Definition reading (pc : rw_pc) : bool := match pc with ReadHeld | UnlockSharedSub | TrySharedUnlock | SharedUnlock => true | _ => false end.
Definition posting (pc : rw_pc) : bool := match pc with UnlockSharedPost => true | _ => false end.
Definition tries_to_write (pc : rw_pc) : bool := match pc with TryMutex | TryLoad | TryOr | TryUndo => true | _ => false end.
Definition owns_mutex (pc : rw_pc) : bool :=
  match pc with
  | TryLoad | TryOr | TryUndo | LockMark | LockWait | WriteHeld | UnlockAnd | UnlockMutex | TrySharedAdd | TrySharedUnlock | SharedAdd | SharedUnlock => true
  | _ => false
  end.

Record rw_ok (cfg : config rw_shared rw_pc) : Prop := {
  rw_threads : Z.of_nat (length (threads cfg)) < 2147483648;
  rw_no_try : tally_if tries_to_write (threads cfg) = 0;
  rw_owner : tally_if owns_mutex (threads cfg) = b2z (rw_locked (shared cfg));
  (** The word counts the writer, the writers to come and the readers. *)
  rw_count : rw_state (shared cfg) =
    tally_if writing (threads cfg) + 2 * tally_if pending_writer (threads cfg) + 4294967296 * tally_if reading (threads cfg);
  (** A permit is there, or on its way, exactly when a writer waits and the last reader is gone. *)
  rw_permit : 0 <= rw_permits (shared cfg) /\
    (0 < tally_if waits_for_readers (threads cfg) /\ tally_if reading (threads cfg) = 0 -> rw_permits (shared cfg) + tally_if posting (threads cfg) = 1) /\
    (tally_if waits_for_readers (threads cfg) = 0 \/ 0 < tally_if reading (threads cfg) -> rw_permits (shared cfg) + tally_if posting (threads cfg) = 0);
  rw_expected : Forall (fun pc => match pc with TrySharedCas st => no_writer st = true | _ => True end) (threads cfg);
  rw_excludes : tally_if waits_for_readers (threads cfg) < tally_if writing (threads cfg) -> tally_if reading (threads cfg) = 0;
}.

Section rwlock.
Implicit Types cfg : config rw_shared rw_pc.
Local Notation sys := (rw_system false).

Lemma tally_if_bound {L} (p : L -> bool) ts : tally_if p ts <= Z.of_nat (length ts).
Proof. pose proof (tally_bound (fun l => b2z (p l)) ts 1 (fun _ => b2z_le1 _)). unfold tally_if. lia. Qed.

Lemma rw_init_ok n : Z.of_nat n < 2147483648 -> rw_ok (rw_init n).
Proof.
  intros Hn. assert (Ht : forall p, p RwIdle = false -> tally_if p (replicate n RwIdle) = 0).
  { intros p Hp. unfold tally_if. clear Hn. induction n as [|k IH]; cbn [replicate tally]; [done|]. by rewrite IH, Hp. }
  split; cbn [shared threads rw_init rw_state rw_locked rw_permits]; rewrite ?length_replicate, ?Ht by done; try done; [lia|].
  by apply Forall_replicate.
Qed.

Lemma wrap64_mark x : 1 <= x < 18446744073709551616 -> wrap 64 (x + wrap 64 (IS_WRITING - WRITER)) = x - 1.
Proof.
  intros Hx. change (wrap 64 (IS_WRITING - WRITER)) with (-1 + 1 * 2 ^ 64). unfold wrap.
  replace (x + (-1 + 1 * 2 ^ 64)) with (x - 1 + 1 * 2 ^ 64) by lia. rewrite Z_mod_plus_full. apply Z.mod_small. change (2 ^ 64) with 18446744073709551616. lia.
Qed.

Lemma rw_ok_fire cfg e cfg' : rw_ok cfg -> fire (Sys := sys) cfg e = Some cfg' -> rw_ok cfg'.
Proof.
  intros [Hn Htry Hown Hst (Hp & Hp1 & Hp0) Hcas Hex] (l & l' & n & Hl & Hs & Hlen & Hk & Hwake & _ & Ht & _)%fire_inv.
  assert (Hnw : forall m m' : rw_pc, woken (System := sys) m = Some m' -> False) by done.
  destruct (Ht tries_to_write 0) as [T1 L1]; [by intros ? ? []%Hnw|]. destruct (Ht owns_mutex 0) as [T2 L2]; [by intros ? ? []%Hnw|].
  destruct (Ht writing 0) as [T3 L3]; [by intros ? ? []%Hnw|]. destruct (Ht pending_writer 0) as [T4 L4]; [by intros ? ? []%Hnw|].
  destruct (Ht reading 0) as [T5 L5]; [by intros ? ? []%Hnw|]. destruct (Ht posting 0) as [T6 L6]; [by intros ? ? []%Hnw|].
  destruct (Ht waits_for_readers 0) as [T7 L7]; [by intros ? ? []%Hnw|]. clear Ht.
  pose proof (tally_if_others writing (threads cfg) owns_mutex _ _ ltac:(by intros []) Hl) as O1.
  pose proof (tally_if_others waits_for_readers (threads cfg) writing _ _ ltac:(by intros []) Hl) as O2.
  pose proof (tally_if_nonneg writing (threads cfg)). pose proof (tally_if_nonneg pending_writer (threads cfg)). pose proof (tally_if_nonneg reading (threads cfg)).
  pose proof (tally_if_nonneg posting (threads cfg)). pose proof (tally_if_nonneg waits_for_readers (threads cfg)).
  pose proof (tally_if_bound pending_writer (threads cfg)) as B1. pose proof (tally_if_bound reading (threads cfg)) as B2.
  pose proof (tally_if_bound pending_writer (threads cfg')) as B3. pose proof (tally_if_bound reading (threads cfg')) as B4. rewrite Hlen in B3, B4.
  pose proof (b2z_le1 (rw_locked (shared cfg))) as Bo. pose proof (tally_if_nonneg owns_mutex (threads cfg)).
  assert (Hw1 : tally_if writing (threads cfg) <= 1).
  { pose proof (tally_le (fun l => b2z (writing l)) (fun l => b2z (owns_mutex l)) (threads cfg) ltac:(by intros [])). unfold tally_if in *. lia. }
  destruct (rw_word (tally_if writing (threads cfg)) (tally_if pending_writer (threads cfg)) (tally_if reading (threads cfg))) as (Wn & Wr0 & Wr1 & Ww & Wc); [lia|lia|lia|].
  rewrite <- Hst in Wn, Wr0, Wr1, Ww, Wc.
  assert (P1 : tally_if pending_writer (threads cfg) < 2147483648) by lia. assert (P2 : tally_if reading (threads cfg) < 2147483648) by lia.
  assert (P3 : tally_if pending_writer (threads cfg') < 2147483648) by lia. assert (P4 : tally_if reading (threads cfg') < 2147483648) by lia.
  rewrite Z.mul_0_l, Z.add_0_r in T1, T2, T3, T4, T5, T6, T7. clear Hk B1 B2 B3 B4.
  destruct (shared cfg) as [state locked permits]. cbn [rw_state rw_locked rw_permits] in *.
  destruct (choice e), l; try discriminate Hs; cbn [step rw_system rw_step rw_next rw_state rw_locked rw_permits acquire try_acquire] in Hs.
  all: unfold acquire, try_acquire in Hs; cbn [rw_locked] in Hs; rewrite ?Wn, ?Wr0, ?Wr1, ?Ww, ?Wc in Hs.
  all: repeat match type of Hs with
    | context [if ?t : bool then _ else _] => let E := fresh "E" in destruct t eqn:E; try discriminate Hs
    end.
  all: rewrite ?andb_true_iff, ?andb_false_iff, ?orb_true_iff, ?orb_false_iff, ?negb_true_iff, ?negb_false_iff, ?Z.eqb_eq, ?Z.eqb_neq, ?Z.ltb_lt, ?Z.ltb_ge in *.
  all: injection Hs as Es <- <-; cbn in T1, L1, T2, L2, T3, L3, T4, L4, T5, L5, T6, L6, T7, L7, O1, O2.
  all: try (exfalso; clear -L1 Htry; lia).
  all: unfold with_state, with_mutex, with_permits in Es; cbn [rw_state rw_locked rw_permits] in Es; change WRITER with 2 in Es; change READER with 4294967296 in Es.
  all: try match type of Es with
    | context [wrap 64 (?x + wrap 64 _)] => rewrite wrap64_mark in Es by lia
    | context [wrap 64 ?x] => rewrite (wrap64_small x) in Es by lia
    end.
  all: assert (Hcas' : Forall (fun pc => match pc with TrySharedCas st => no_writer st = true | _ => True end) (threads cfg'))
    by (eapply wake_all_Forall; [|exact Hwake|apply Forall_insert; [exact Hcas|]]; [by intros ? ? []%Hnw|]; first [exact I|exact Wn]).
  all: assert (Hlen' : Z.of_nat (length (threads cfg')) < 2147483648) by (by rewrite Hlen). 
  all: try match goal with H : ?b = false /\ _ |- _ => is_var b; destruct H end.
  all: try match goal with H : _ = ?x /\ _, H' : no_writer ?x = true |- _ => destruct H as [? _]; subst x; rewrite Wn, andb_true_iff, !Z.eqb_eq in H' end.
  all: try (pose proof (Forall_lookup_1 _ _ _ _ Hcas Hl) as Hnow; cbn beta iota in Hnow; subst st; rewrite Wn, andb_true_iff, !Z.eqb_eq in Hnow).
  all: try (subst st; rewrite Wn in *).
  all: clear Hn Hlen Hwake Hcas Hnw Wr0 Wr1 Ww Wn; try subst locked.
  all: split; rewrite <- ?Es; cbn [rw_state rw_locked rw_permits b2z] in *; first [done|clear Hlen' Hcas' Hl Es; lia].
Qed.

(** ** Someone gets the lock *)

Definition rw_next_event (e : event rw_choice) : Prop := choice e = RNext.
Definition wants_lock (pc : rw_pc) : bool :=
  match pc with LockAdd | LockMutex | LockMark | LockWait | SharedLoad | SharedLoop _ | SharedMutex | SharedAdd | SharedUnlock => true | _ => false end.
Definition wanted cfg : Prop := 0 < tally_if wants_lock (threads cfg).
Definition holders cfg : Z := write_holders cfg + read_holders cfg.

(** The steps of an operation that are left, but for the loads that the loop of [lock_shared] repeats. *)
Definition steps_left (pc : rw_pc) : Z :=
  match pc with
  | TrySharedLoad | SharedLoad => 5
  | TrySharedCas _ | SharedLoop _ | LockAdd | TryMutex => 4
  | TrySharedMutex | SharedMutex | LockMutex | TryLoad => 3
  | TrySharedAdd | SharedAdd | LockMark | UnlockAnd | UnlockSharedSub | TryOr | TryUndo => 2
  | TrySharedUnlock | SharedUnlock | LockWait | UnlockMutex | UnlockSharedPost => 1
  | RwIdle | WriteHeld | ReadHeld => 0
  end.
Definition stale (st : Z) (pc : rw_pc) : Z := match pc with SharedLoop st' => b2z (negb (st =? st')) | _ => 0 end.
Definition distance cfg : Z :=
  tally steps_left (threads cfg) * (Z.of_nat (length (threads cfg)) + 1) + tally (stale (rw_state (shared cfg))) (threads cfg).

Lemma stale_bounds st pc : 0 <= stale st pc <= 1.
Proof. destruct pc; cbn; try lia. pose proof (b2z_nonneg (negb (st =? st0))). pose proof (b2z_le1 (negb (st =? st0))). lia. Qed.

Lemma rw_distance_nonneg cfg : 0 <= distance cfg.
Proof.
  unfold distance. pose proof (tally_nonneg steps_left (threads cfg) ltac:(by intros [])).
  pose proof (tally_nonneg (stale (rw_state (shared cfg))) (threads cfg) (fun pc => proj1 (stale_bounds _ pc))). nia.
Qed.

(** A step of an operation decreases them, or reads the word again; who wants the lock goes on wanting it or gets it. *)
Lemma rw_next_decreases s pc s' pc' n :
  step (System := sys) RNext s pc = Some (s', pc', n) ->
  n = 0%nat /\ (steps_left pc' < steps_left pc \/ steps_left pc' = steps_left pc /\ s' = s /\ stale (rw_state s) pc' < stale (rw_state s) pc) /\
  (wants_lock pc = true -> wants_lock pc' = true \/ is_write_held pc' = true \/ is_read_held pc' = true).
Proof.
  destruct pc; cbn [step rw_system rw_step rw_next]; try discriminate; unfold acquire, try_acquire; intros Hst;
    repeat match type of Hst with
    | context [if ?t : bool then _ else _] => let E := fresh "E" in destruct t eqn:E; try discriminate Hst
    end; injection Hst as <- <- <-; (split; [done|]); cbn;
    (split; [first [left; lia|right; split; [done|split; [done|]]]|tauto]).
  rewrite andb_true_r in E0. rewrite E0, Z.eqb_refl. cbn. lia.
Qed.

Lemma enabled cfg i l :
  threads cfg !! i = Some l -> (exists s l' n, step (System := sys) RNext (shared cfg) l = Some (s, l', n)) ->
  exists e cfg', rw_next_event e /\ fire (Sys := sys) cfg e = Some cfg'.
Proof.
  intros Hl (s & l' & n & Hst). destruct (fire_step (Sys := sys) cfg i l RNext s l' n ltac:(done) Hl Hst) as (ks & cfg' & Hf). by exists (mkEvent i RNext ks), cfg'.
Qed.

Ltac can_step := cbn [step rw_system rw_step rw_next]; unfold acquire, try_acquire; repeat case_match; first [done|by eexists _, _, _].

Lemma rw_progress cfg : rw_ok cfg -> holders cfg = 0 -> wanted cfg -> exists e cfg', rw_next_event e /\ fire (Sys := sys) cfg e = Some cfg'.
Proof.
  intros Hok H0 Hw. unfold holders, write_holders, read_holders in H0.
  pose proof (tally_if_nonneg is_write_held (threads cfg)). pose proof (tally_if_nonneg is_read_held (threads cfg)).
  assert (Hno : forall i l, threads cfg !! i = Some l -> is_write_held l = false /\ is_read_held l = false).
  { intros i l Hl. split; apply not_true_is_false; intros Hp; pose proof (tally_if_lookup _ _ _ _ Hl Hp); lia. }
  destruct (rw_locked (shared cfg)) eqn:Elock.
  - destruct (tally_if_pos owns_mutex (threads cfg)) as (i & l & Hl & Ho); [rewrite (rw_owner _ Hok), Elock; cbn; lia|].
    destruct (Hno i l Hl) as [Hnw Hnr]. destruct (decide (l = LockWait)) as [->|Hne]; [|apply (enabled cfg i l Hl); destruct l; try discriminate; can_step].
    destruct (rw_permit _ Hok) as (Hp & Hp1 & _). pose proof (tally_if_lookup waits_for_readers (threads cfg) i LockWait Hl eq_refl) as Hwait.
    destruct (Z.ltb_spec 0 (rw_permits (shared cfg))) as [Hpp|Hpp].
    { apply (enabled cfg i LockWait Hl). cbn [step rw_system rw_step rw_next]. rewrite (proj2 (Z.ltb_lt _ _) Hpp). by eexists _, _, _. }
    pose proof (tally_if_nonneg reading (threads cfg)). destruct (decide (tally_if reading (threads cfg) = 0)) as [Hr|Hr].
    + destruct (tally_if_pos posting (threads cfg)) as (j & m & Hj & Hm); [lia|]. apply (enabled cfg j m Hj). destruct m; try discriminate. can_step.
    + destruct (tally_if_pos reading (threads cfg)) as (j & m & Hj & Hm); [lia|]. destruct (Hno j m Hj). apply (enabled cfg j m Hj). destruct m; try discriminate; can_step.
  - apply tally_if_pos in Hw as (i & l & Hl & Hwl). apply (enabled cfg i l Hl).
    assert (Hown : owns_mutex l = false).
    { apply not_true_is_false. intros Hp. apply (tally_if_lookup _ _ _ _ Hl) in Hp. rewrite (rw_owner _ Hok), Elock in Hp. cbn in Hp. lia. }
    destruct l; try discriminate; cbn [step rw_system rw_step rw_next]; unfold acquire; rewrite ?Elock; repeat case_match; first [done|by eexists _, _, _].
Qed.

Lemma rw_decreases cfg e cfg' :
  rw_ok cfg -> holders cfg = 0 -> wanted cfg -> rw_next_event e -> fire (Sys := sys) cfg e = Some cfg' ->
  0 < holders cfg' \/ holders cfg' = 0 /\ wanted cfg' /\ distance cfg' < distance cfg.
Proof.
  intros Hok H0 Hw He (l & l' & n & Hl & Hst & Hlen & Hk & _ & Teq & Tif & _)%fire_inv. unfold rw_next_event in He. rewrite He in Hst.
  assert (Hnw : forall m m' : rw_pc, woken (System := sys) m = Some m' -> False) by done.
  destruct (rw_next_decreases _ _ _ _ _ Hst) as (-> & Hd & Hwant). assert (Ht : length (targets e) = 0%nat) by lia. rewrite Ht in *. clear Hk.
  destruct (Tif is_write_held 0) as [T1 L1]; [by intros ? ? []%Hnw|]. destruct (Tif is_read_held 0) as [T2 L2]; [by intros ? ? []%Hnw|].
  destruct (Tif wants_lock 0) as [T3 L3]; [by intros ? ? []%Hnw|]. pose proof (Teq steps_left 0) as T4. specialize (T4 ltac:(by intros ? ? []%Hnw)).
  pose proof (tally_if_nonneg is_write_held (threads cfg')). pose proof (tally_if_nonneg is_read_held (threads cfg')).
  pose proof (tally_if_nonneg is_write_held (threads cfg)). pose proof (tally_if_nonneg is_read_held (threads cfg)).
  unfold holders, write_holders, read_holders, wanted in *.
  destruct (decide (0 < tally_if is_write_held (threads cfg') + tally_if is_read_held (threads cfg'))) as [|Hn]; [by left|right]. split; [lia|].
  pose proof (b2z_nonneg (is_write_held l')). pose proof (b2z_nonneg (is_read_held l')). pose proof (b2z_nonneg (wants_lock l')).
  split.
  - destruct (wants_lock l); [|cbn [b2z] in T3; lia]. destruct (Hwant eq_refl) as [E|[E|E]]; rewrite E in *; cbn [b2z] in *; lia.
  - unfold distance. rewrite Hlen. pose proof (tally_bound (stale (rw_state (shared cfg'))) (threads cfg') 1 (fun pc => proj2 (stale_bounds _ pc))) as Hb. rewrite Hlen in Hb.
    pose proof (tally_nonneg (stale (rw_state (shared cfg))) (threads cfg) (fun pc => proj1 (stale_bounds _ pc))).
    destruct Hd as [Hd|(Hd & Es & Hlt)]; [nia|]. pose proof (Teq (stale (rw_state (shared cfg))) 0) as T5. specialize (T5 ltac:(by intros ? ? []%Hnw)). rewrite Es. nia.
Qed.

(** (C26) Any number of threads below 2^31, which lock and unlock for writing and for reading, try to for reading,
    and do not use [try_lock]: at most one writes, no thread reads while one writes, the counters of the word never run
    into one another, and when no thread holds the lock and one is in [lock] or [lock_shared], some thread gets it after
    finitely many steps of the operations under way, whatever order they run in. *)
Theorem rwlock_correct (n : nat) (cfg : config rw_shared rw_pc) (Hn : Z.of_nat n < 2147483648) (Hr : reachable (Sys := sys) (rw_init n) cfg) :
  write_holders cfg <= 1 /\ (0 < write_holders cfg -> read_holders cfg = 0) /\
  (holders cfg = 0 -> wanted cfg -> inevitable (Sys := sys) (fun c => 0 < holders c) rw_next_event cfg).
Proof.
  destruct Hr as [es Hr]. pose proof (run_invariant (Sys := sys) rw_ok _ es _ rw_ok_fire (rw_init_ok n Hn) Hr) as Hok. clear Hr.
  pose proof (tally_le (fun l => b2z (is_write_held l) + b2z (waits_for_readers l)) (fun l => b2z (writing l)) (threads cfg) ltac:(by intros [])) as Hle.
  rewrite tally_add in Hle. pose proof (tally_le (fun l => b2z (writing l)) (fun l => b2z (owns_mutex l)) (threads cfg) ltac:(by intros [])) as Hown.
  pose proof (tally_le (fun l => b2z (is_read_held l)) (fun l => b2z (reading l)) (threads cfg) ltac:(by intros [])) as Hread.
  pose proof (rw_owner _ Hok) as Ho. pose proof (b2z_le1 (rw_locked (shared cfg))). pose proof (rw_excludes _ Hok) as Hex.
  pose proof (tally_if_nonneg is_read_held (threads cfg)). pose proof (tally_if_nonneg waits_for_readers (threads cfg)).
  unfold write_holders, read_holders, tally_if in *. split; [lia|]. split; [lia|]. intros Hfree Hw.
  apply (inevitable_measure (Sys := sys) _ (fun c => rw_ok c /\ holders c = 0 /\ wanted c) _ distance); [intros c _; apply rw_distance_nonneg| |done].
  intros c (Hc & Hc0 & Hcw). right. split; [by apply rw_progress|]. intros e c' He Hf. pose proof (rw_ok_fire c e c' Hc Hf).
  destruct (rw_decreases c e c' Hc Hc0 Hcw He Hf) as [?|(? & ? & ?)]; [by left|by right].
Qed.
End rwlock.

(** A reader holds the lock, a writer waits for it, the reader leaves. *)
Definition reader_then_writer : list (event rw_choice) :=
  [mkEvent 0 RShared []; mkEvent 0 RNext []; mkEvent 0 RNext []; mkEvent 1 RLock []; mkEvent 1 RNext []; mkEvent 1 RNext []; mkEvent 1 RNext [];
   mkEvent 0 RUnlockShared []].

Lemma rwlock_correct_witness :
  run (Sys := rw_system false) (rw_init 2) reader_then_writer = Some (mkConfig (mkRw (READER + IS_WRITING) true 0) [UnlockSharedSub; LockWait]) /\
  inevitable (Sys := rw_system false) (fun c => 0 < holders c) rw_next_event (mkConfig (mkRw (READER + IS_WRITING) true 0) [UnlockSharedSub; LockWait]).
Proof.
  split; [reflexivity|]. apply (rwlock_correct 2 (mkConfig (mkRw (READER + IS_WRITING) true 0) [UnlockSharedSub; LockWait])).
  - reflexivity.
  - exists reader_then_writer. reflexivity.
  - reflexivity.
  - unfold wanted. apply Z.ltb_lt. reflexivity.
Defined.

(** With [try_lock] the lock does not exclude: between its load of the word and the store of its bit a reader
    may take the fast path, and then one thread writes while the other reads. *)
Theorem try_write_races :
  exists es cfg, run (Sys := rw_system true) (rw_init 2) es = Some cfg /\ write_holders cfg = 1 /\ read_holders cfg = 1.
Proof. by exists try_write_race, (mkConfig (mkRw (READER + IS_WRITING) true 0) [WriteHeld; ReadHeld]). Qed.
