(* ===== verification/Monitor.v ===== *)
(** * A mutex with a condition

    What the wait group and the semaphore block on, modelled by what it promises: the mutex has at most one owner
    ([FutexMutex.mutex_correct]); the condition counts its waiters and the signals for them, and a waiter returns by
    taking a signal ([FutexCondition.condition_correct]). *)

From S2P Require Import Prelude Interleaving.

Record monitor := mkMonitor { m_locked : bool; m_waiting : Z; m_signalled : Z }.

Definition m_lock (m : monitor) : option monitor := if m_locked m then None else Some (mkMonitor true (m_waiting m) (m_signalled m)).
Definition m_unlock (m : monitor) : monitor := mkMonitor false (m_waiting m) (m_signalled m).
(** [cond.wait(&mutex)]: be counted, release the mutex, take a signal, and [m_lock] again. *)
Definition m_enter (m : monitor) : monitor := mkMonitor (m_locked m) (m_waiting m + 1) (m_signalled m).
Definition m_take (m : monitor) : option monitor :=
  if 0 <? m_signalled m then Some (mkMonitor (m_locked m) (m_waiting m - 1) (m_signalled m - 1)) else None.
Definition m_signal (m : monitor) : monitor :=
  if m_signalled m <? m_waiting m then mkMonitor (m_locked m) (m_waiting m) (m_signalled m + 1) else m.

Definition m_init : monitor := mkMonitor false 0 0.

(** The owner, the waiters and the signals of a monitor, as counted over the threads. *)
Record monitor_ok (owners counted : Z) (m : monitor) : Prop := {
  ok_owner : owners = b2z (m_locked m);
  ok_counted : counted = m_waiting m;
  ok_signalled : 0 <= m_signalled m <= m_waiting m;
}.

Section monitor.
Context (o w : Z) (m : monitor) (Hm : monitor_ok o w m).

Lemma m_lock_ok m' : m_lock m = Some m' -> o = 0 /\ monitor_ok (o + 1) w m' /\ m_signalled m' = m_signalled m.
Proof. destruct Hm as [Ho Hw Hs]. unfold m_lock. destruct (m_locked m); [done|]. intros [= <-]. cbn in Ho. split; [lia|]. split; [split; cbn; lia|done]. Qed.

Lemma m_unlock_ok : 0 < o -> monitor_ok (o - 1) w (m_unlock m).
Proof. destruct Hm as [Ho Hw Hs]. intros. split; cbn; destruct (m_locked m); cbn in *; lia. Qed.

Lemma m_enter_ok : monitor_ok o (w + 1) (m_enter m).
Proof. destruct Hm as [Ho Hw Hs]. split; cbn; [done|lia|lia]. Qed.

Lemma m_take_ok m' : m_take m = Some m' -> monitor_ok o (w - 1) m' /\ m_signalled m' = m_signalled m - 1.
Proof. destruct Hm as [Ho Hw Hs]. unfold m_take. destruct (Z.ltb_spec 0 (m_signalled m)); [|done]. intros [= <-]. split; [split; cbn; [done|lia|lia]|done]. Qed.

Lemma m_signal_ok : monitor_ok o w (m_signal m) /\ m_signalled (m_signal m) = Z.min (m_signalled m + 1) w.
Proof. destruct Hm as [Ho Hw Hs]. unfold m_signal. destruct (Z.ltb_spec (m_signalled m) (m_waiting m)); split; try (split; cbn; [done|lia|lia]); cbn; lia. Qed.

Lemma m_lock_free : o = 0 -> exists m', m_lock m = Some m'.
Proof. destruct Hm as [Ho Hw Hs]. unfold m_lock. intros ->. destruct (m_locked m); [done|]. by eexists. Qed.

Lemma m_take_signalled : 0 < m_signalled m -> exists m', m_take m = Some m'.
Proof. unfold m_take. intros H%Z.ltb_lt. rewrite H. by eexists. Qed.
End monitor.

(** What a step does to the monitor. *)
Ltac monitor_step :=
  match goal with
  | Hm : monitor_ok ?o ?w ?m, H : m_lock ?m = Some ?m' |- _ =>
      let Ho := fresh "Ho" in let Hm' := fresh "Hm'" in let Hs := fresh "Hs'" in
      destruct (m_lock_ok o w m Hm m' H) as (Ho & Hm' & Hs); clear H
  | Hm : monitor_ok ?o ?w ?m, H : m_take ?m = Some ?m' |- _ =>
      let Hm' := fresh "Hm'" in let Hs := fresh "Hs'" in destruct (m_take_ok o w m Hm m' H) as (Hm' & Hs); clear H
  | Hm : monitor_ok ?o ?w ?m |- context [m_unlock ?m] => let Hm' := fresh "Hm'" in pose proof (m_unlock_ok o w m Hm ltac:(lia)) as Hm'
  | Hm : monitor_ok ?o ?w ?m |- context [m_enter ?m] => let Hm' := fresh "Hm'" in pose proof (m_enter_ok o w m Hm) as Hm'
  | Hm : monitor_ok ?o ?w ?m |- context [m_signal ?m] =>
      let Hm' := fresh "Hm'" in let Hs := fresh "Hs'" in destruct (m_signal_ok o w m Hm) as (Hm' & Hs)
  | _ => idtac
  end.

(** The counts of an invariant are those that the step leaves. *)
Ltac monitor_counts :=
  match goal with
  | Hm : monitor_ok ?o ?w ?m |- monitor_ok ?o' ?w' ?m => replace o' with o by lia; replace w' with w by lia; exact Hm
  end.
