(* ===== verification/WaitGroup.v ===== *)
(** * The wait group ([threading/WaitGroup.rs])

    Tasks are added and finish; a thread waits until none is left. The count is atomic; the mutex and the condition are
    only for sleeping. *)

From stdpp Require Import list.
From S2P Require Import Prelude Interleaving Monitor.

Record wg_shared := mkWg { raw_count : Z; wg_monitor : monitor }.

(** [Task]: a thread that was added and has not finished. [Owner]: a thread that may call [wait]. *)
Inductive wg_pc :=
| WgIdle
| Task
| FinishSub | FinishLock | FinishUnlock | FinishSignal
| Owner
| WaitLock | WaitCheck | WaitEnter | WaitRelease | WaitBlocked | WaitRelock | WaitUnlock
| Returned.

(** [GAdd]: [add_one], for the task that the thread becomes; [GDone]: the caller of [wait] goes on. *)
Inductive wg_choice := GAdd | GFinish | GWait | GDone | GNext.

Definition with_monitor (s : wg_shared) (m : monitor) : wg_shared := mkWg (raw_count s) m.

Definition add (s : wg_shared) (n : Z) : wg_shared := mkWg (wrap 64 (raw_count s + n)) (wg_monitor s).

Definition finish_step (s : wg_shared) (pc : wg_pc) : option (wg_shared * wg_pc) :=
  match pc with
  | FinishSub => Some (mkWg (wrap 64 (raw_count s - 1)) (wg_monitor s), if 1 <? raw_count s then WgIdle else FinishLock)
  | FinishLock => m ← m_lock (wg_monitor s); Some (with_monitor s m, FinishUnlock)
  | FinishUnlock => Some (with_monitor s (m_unlock (wg_monitor s)), FinishSignal)
  | FinishSignal => Some (with_monitor s (m_signal (wg_monitor s)), WgIdle)
  | _ => None
  end.

Definition wait_step (s : wg_shared) (pc : wg_pc) : option (wg_shared * wg_pc) :=
  match pc with
  | WaitLock => m ← m_lock (wg_monitor s); Some (with_monitor s m, WaitCheck)
  | WaitCheck => Some (s, if 0 <? raw_count s then WaitEnter else WaitUnlock)
  | WaitEnter => Some (with_monitor s (m_enter (wg_monitor s)), WaitRelease)
  | WaitRelease => Some (with_monitor s (m_unlock (wg_monitor s)), WaitBlocked)
  | WaitBlocked => m ← m_take (wg_monitor s); Some (with_monitor s m, WaitRelock)
  | WaitRelock => m ← m_lock (wg_monitor s); Some (with_monitor s m, WaitCheck)
  | WaitUnlock => Some (with_monitor s (m_unlock (wg_monitor s)), Returned)
  | _ => None
  end.

Definition in_finish (pc : wg_pc) : bool := match pc with FinishSub | FinishLock | FinishUnlock | FinishSignal => true | _ => false end.

Definition wg_step (c : wg_choice) (s : wg_shared) (pc : wg_pc) : option (wg_shared * wg_pc * nat) :=
  match c, pc with
  | GAdd, WgIdle => Some (add s 1, Task, 0%nat)
  | GFinish, Task => Some (s, FinishSub, 0%nat)
  | GWait, Owner => Some (s, WaitLock, 0%nat)
  | GDone, Returned => Some (s, Owner, 0%nat)
  | GNext, _ => '(s, pc) ← if in_finish pc then finish_step s pc else wait_step s pc; Some (s, pc, 0%nat)
  | _, _ => None
  end.

#[export] Instance wg_system : System wg_shared wg_pc wg_choice := {| step := wg_step; woken := fun _ => None |}.

(** [init_with_count(tasks)], with [idle] more threads and [owners] that wait. *)
Definition wg_init (tasks idle owners : nat) : config wg_shared wg_pc :=
  mkConfig (mkWg (Z.of_nat tasks) m_init) (replicate tasks Task ++ replicate idle WgIdle ++ replicate owners Owner).

Definition is_task (pc : wg_pc) : bool := match pc with Task | FinishSub => true | _ => false end.
Definition is_owner (pc : wg_pc) : bool :=
  match pc with Owner | WaitLock | WaitCheck | WaitEnter | WaitRelease | WaitBlocked | WaitRelock | WaitUnlock | Returned => true | _ => false end.
Definition in_wait (pc : wg_pc) : bool := match pc with Owner | Returned => false | _ => is_owner pc end.
Definition is_counted (pc : wg_pc) : bool := match pc with WaitRelease | WaitBlocked => true | _ => false end.
Definition will_enter (pc : wg_pc) : bool := match pc with WaitEnter => true | _ => false end.
Definition owns (pc : wg_pc) : bool := match pc with FinishUnlock | WaitCheck | WaitEnter | WaitRelease | WaitUnlock => true | _ => false end.
Definition will_lock (pc : wg_pc) : bool := match pc with FinishLock => true | _ => false end.
Definition will_signal (pc : wg_pc) : bool := match pc with FinishLock | FinishUnlock | FinishSignal => true | _ => false end.
Definition is_returned (pc : wg_pc) : bool := match pc with Returned => true | _ => false end.
Definition is_running (pc : wg_pc) : bool := match pc with Task => true | _ => false end.

Definition unfinished (cfg : config wg_shared wg_pc) : Z := tally_if is_task (threads cfg).
(** Those that have not called [finish]. *)
Definition running (cfg : config wg_shared wg_pc) : Z := tally_if is_running (threads cfg).
Definition returned (cfg : config wg_shared wg_pc) : Z := tally_if is_returned (threads cfg).
Definition waiters (cfg : config wg_shared wg_pc) : Z := tally_if in_wait (threads cfg).
Definition goes_next (e : event wg_choice) : Prop := choice e = GNext.

(** The count is that of the unfinished tasks. With one waiter, a thread will signal it as long as the count is 0. *)
Record wg_ok (k : Z) (cfg : config wg_shared wg_pc) : Prop := {
  wg_size : Z.of_nat (length (threads cfg)) < 2 ^ 64;
  wg_count : raw_count (shared cfg) = unfinished cfg;
  wg_owners : tally_if is_owner (threads cfg) = k;
  wg_mon : monitor_ok (tally_if owns (threads cfg)) (tally_if is_counted (threads cfg)) (wg_monitor (shared cfg));
  wg_enter : k <= 1 -> raw_count (shared cfg) = 0 -> 0 < tally_if will_enter (threads cfg) -> 0 < tally_if will_lock (threads cfg);
  wg_signal : k <= 1 -> raw_count (shared cfg) = 0 -> m_signalled (wg_monitor (shared cfg)) < tally_if is_counted (threads cfg) ->
    0 < tally_if will_signal (threads cfg);
}.

Lemma wg_init_ok tasks idle owners : Z.of_nat (tasks + idle + owners) < 2 ^ 64 -> wg_ok (Z.of_nat owners) (wg_init tasks idle owners).
Proof.
  intros Hn. split; unfold unfinished; cbn [shared threads wg_init raw_count wg_monitor m_init m_signalled]; rewrite ?tally_if_app, ?tally_if_replicate; cbn; [|lia|lia|split; cbn; lia|lia|lia].
  rewrite !length_app, !length_replicate. lia.
Qed.

Lemma wg_awake (l : wg_pc) : woken l = None.
Proof. done. Qed.

(** The sums that the invariant speaks of. *)
Ltac wg_sums H :=
  let H' := fresh in
  pose proof (fun p => proj1 (H p)) as H'; pose proof (H' is_task) as Tt; pose proof (H' is_owner) as To; pose proof (H' owns) as Tm;
  pose proof (H' is_counted) as Tc; pose proof (H' will_enter) as Te; pose proof (H' will_lock) as Tl; pose proof (H' will_signal) as Ts; clear H'.

Lemma wg_ok_fire k cfg e cfg' : wg_ok k cfg -> fire cfg e = Some cfg' -> wg_ok k cfg'.
Proof.
  intros [Hn Hr Ho Hm He Hs] (l & l' & n & Hl & Hst & Hts & _ & H)%(fire_awake _ _ _ wg_awake).
  assert (Hlen : length (threads cfg') = length (threads cfg)) by (by rewrite Hts, length_insert). clear Hts Hl.
  pose proof (tally_if_le_length is_task (threads cfg')) as Hlt.
  wg_sums H. pose proof (proj2 (H is_task)) as Lt. pose proof (proj2 (H owns)) as Lm.
  pose proof (proj2 (H will_enter)) as Le. pose proof (ok_signalled _ _ _ Hm) as Hg. clear H.
  pose proof (tally_if_le will_enter owns (threads cfg) ltac:(by intros [])) as Leo.
  pose proof (tally_if_le is_counted is_owner (threads cfg) ltac:(by intros [])) as Lco.
  pose proof (tally_if_le will_lock will_signal (threads cfg) ltac:(by intros [])) as Lls.
  pose proof (tally_if_nonneg will_enter (threads cfg)). pose proof (tally_if_nonneg will_lock (threads cfg)).
  unfold unfinished in *. change (2 ^ 64) with 18446744073709551616 in *.
  destruct cfg as [[r m] ts], cfg' as [[r' m'] ts']; cbn [shared threads raw_count wg_monitor] in *. subst k r.
  destruct (choice e), l; cbn in Hst; try discriminate Hst;
    try (apply bind_Some in Hst as ([s1 pc1] & Hst & [= -> -> <-])); try (apply bind_Some in Hst as (m1 & Hm1 & Hst));
    try injection Hst as <- <- <- <-; try injection Hst as <- <- <-.
  all: try destruct (Z.ltb_spec 1 (tally_if is_task ts)); try destruct (Z.ltb_spec 0 (tally_if is_task ts)).
  all: cbn in Tt, To, Tm, Tc, Te, Tl, Ts, Lt, Lm, Le; monitor_step; rewrite ?wrap64_small by lia.
  all: (split; cbn [shared threads raw_count wg_monitor]; unfold unfinished; cbn [threads]; [lia|lia|lia|monitor_counts| |];
    cbn [m_signalled m_unlock m_enter]; lia).
Qed.

Lemma wg_reachable_ok tasks idle owners cfg :
  Z.of_nat (tasks + idle + owners) < 2 ^ 64 -> reachable (wg_init tasks idle owners) cfg -> wg_ok (Z.of_nat owners) cfg.
Proof. intros Hn [es Hr]. by apply (run_invariant (wg_ok (Z.of_nat owners)) _ es _ (wg_ok_fire _) (wg_init_ok tasks idle owners Hn)). Qed.

(** ** [wait] returns *)

(** The steps that the threads in [finish] and [wait] have left: a signal lets a waiter check again. *)
Definition wg_left (pc : wg_pc) : Z :=
  match pc with
  | FinishSub => 9 | FinishLock => 8 | FinishUnlock => 7 | FinishSignal => 6
  | WaitLock | WaitRelock => 5 | WaitCheck => 4 | WaitEnter => 3 | WaitRelease => 2 | WaitBlocked | WaitUnlock => 1
  | WgIdle | Task | Owner | Returned => 0
  end.
Definition wg_measure (cfg : config wg_shared wg_pc) : Z := tally wg_left (threads cfg) + 5 * m_signalled (wg_monitor (shared cfg)).

Lemma wg_enabled cfg i l s l' :
  threads cfg !! i = Some l -> wg_step GNext (shared cfg) l = Some (s, l', 0%nat) -> exists e cfg', goes_next e /\ fire cfg e = Some cfg'.
Proof. intros Hl Hs. eexists (mkEvent i GNext []), _. split; [done|]. by apply (fire_local cfg i l GNext s l'). Qed.

Lemma wg_progress cfg :
  wg_ok 1 cfg -> running cfg = 0 -> 0 < waiters cfg -> exists e cfg', goes_next e /\ fire cfg e = Some cfg'.
Proof.
  intros [_ Hr _ Hm _ Hs] H0 (i & l & Hi & Hl)%tally_if_pos. pose proof (tally_if_nonneg is_task (threads cfg)).
  destruct (decide (raw_count (shared cfg) = 0)) as [Hz|Hz].
  2: { destruct (tally_if_pos is_task (threads cfg)) as (j & t & Hj & Ht); [unfold unfinished in *; lia|].
       destruct t; try discriminate Ht; [|by eapply (wg_enabled cfg j FinishSub)].
       pose proof (tally_if_lookup is_running (threads cfg) j Task Hj eq_refl). unfold running in *. lia. }
  destruct (decide (0 < tally_if owns (threads cfg))) as [(j & t & Hj & Ht)%tally_if_pos|Hfree].
  { destruct t; try discriminate Ht; by eapply (wg_enabled cfg j). }
  pose proof (tally_if_nonneg owns (threads cfg)). destruct (m_lock_free _ _ _ Hm ltac:(lia)) as [m' Hlock].
  destruct l; try discriminate Hl; try (by eapply (wg_enabled cfg i); [done|]; cbn; rewrite ?Hlock).
  destruct (decide (0 < m_signalled (wg_monitor (shared cfg)))) as [Hg|Hg].
  { destruct (m_take_signalled _ Hg) as [mt Ht]. eapply (wg_enabled cfg i); [done|]. cbn. by rewrite Ht. }
  pose proof (tally_if_lookup is_counted (threads cfg) i WaitBlocked Hi eq_refl).
  destruct (tally_if_pos will_signal (threads cfg)) as (j & t & Hj & Ht); [apply Hs; lia|].
  destruct t; try discriminate Ht; eapply (wg_enabled cfg j); try done. cbn. by rewrite Hlock.
Qed.

Lemma wg_decreases cfg e cfg' :
  wg_ok 1 cfg -> running cfg = 0 -> 0 < waiters cfg -> goes_next e -> fire cfg e = Some cfg' ->
  0 < returned cfg' \/ running cfg' = 0 /\ 0 < waiters cfg' /\ wg_measure cfg' < wg_measure cfg.
Proof.
  intros [_ Hr _ Hm _ _] H0 Hw He (l & l' & n & Hl & Hst & _ & Ht & H)%(fire_awake _ _ _ wg_awake).
  unfold goes_next in He. rewrite He in Hst. clear He. specialize (Ht wg_left).
  pose proof (proj1 (H is_running)) as Trun. pose proof (proj1 (H in_wait)) as Tw. pose proof (proj1 (H is_returned)) as Tr. clear H.
  pose proof (tally_if_nonneg is_returned (threads cfg)). unfold running, waiters, returned, wg_measure in *.
  destruct cfg as [[r m] ts], cfg' as [[r' m'] ts']; cbn [shared threads raw_count wg_monitor] in *.
  destruct l; cbn in Hst; try discriminate Hst;
    try (apply bind_Some in Hst as ([s1 pc1] & Hst & [= -> -> <-])); try (apply bind_Some in Hst as (m1 & Hm1 & Hst));
    try injection Hst as <- <- <- <-; try injection Hst as <- <- <-.
  all: try destruct (Z.ltb_spec 1 r); try destruct (Z.ltb_spec 0 r).
  all: cbn in Trun, Tw, Tr, Ht.
  all: monitor_step; cbn [m_signalled m_unlock m_enter]; lia.
Qed.

(** (C27) Tasks that were added finish while others wait for all of them, interleaved in any way over an abstract mutex
    and condition: the count is the number of the unfinished tasks, one thread at most is between [lock] and [unlock],
    a waiter leaves its loop only when no task is unfinished; and with one waiter no signal is lost: when every task has
    called [finish], whatever order the threads go on in, [wait] returns after finitely many steps. *)
Theorem wait_group_correct (tasks idle owners : nat) (Hn : Z.of_nat (tasks + idle + owners) < 2 ^ 64)
    (cfg : config wg_shared wg_pc) (Hr : reachable (wg_init tasks idle owners) cfg) :
  raw_count (shared cfg) = unfinished cfg /\ tally_if owns (threads cfg) <= 1 /\
  (forall e cfg', fire cfg e = Some cfg' -> threads cfg !! who e = Some WaitCheck -> threads cfg' !! who e = Some WaitUnlock -> unfinished cfg = 0) /\
  (owners = 1%nat -> running cfg = 0 -> 0 < waiters cfg -> inevitable (fun cfg => 0 < returned cfg) goes_next cfg).
Proof.
  pose proof (wg_reachable_ok tasks idle owners cfg Hn Hr) as Hok. pose proof (wg_count _ _ Hok) as Hc. split_and!.
  - done.
  - rewrite (ok_owner _ _ _ (wg_mon _ _ Hok)). apply b2z_le1.
  - intros e cfg' (l & l' & n & Hl & Hst & Hts & _)%(fire_awake _ _ _ wg_awake) Hl0 Hl'. rewrite Hl0 in Hl. injection Hl as <-.
    rewrite Hts, list_lookup_insert_eq in Hl' by (by eapply lookup_lt_Some). injection Hl' as ->.
    pose proof (tally_if_nonneg is_task (threads cfg)) as H0. unfold unfinished in *.
    destruct (choice e); cbn in Hst; try discriminate Hst. rewrite Hc in Hst. destruct (Z.ltb_spec 0 (tally_if is_task (threads cfg))); [discriminate Hst|lia].
  - intros -> H0 Hw. apply (inevitable_measure _ (fun c => wg_ok 1 c /\ running c = 0 /\ 0 < waiters c) _ wg_measure); [| |done].
    + intros c (Hc' & _). unfold wg_measure. pose proof (ok_signalled _ _ _ (wg_mon _ _ Hc')). pose proof (tally_nonneg wg_left (threads c) ltac:(by intros [])). lia.
    + intros c (Hc' & Hc0 & Hcw). right. split; [by apply wg_progress|]. intros e c' He Hf. pose proof (wg_ok_fire 1 c e c' Hc' Hf).
      destruct (wg_decreases c e c' Hc' Hc0 Hcw He Hf) as [?|(? & ? & ?)]; [by left|by right].
Qed.

Definition next (i : nat) : event wg_choice := mkEvent i GNext [].

(** The waiter sees one task and is counted; the task finishes and signals it. *)
Definition last_task : list (event wg_choice) :=
  [mkEvent 1 GWait []; next 1; next 1; next 1; next 1; mkEvent 0 GFinish []; next 0; next 0].

Lemma wait_group_correct_witness :
  let cfg := mkConfig (mkWg 0 (mkMonitor true 1 0)) [FinishUnlock; WaitBlocked] in
  run (wg_init 1 0 1) last_task = Some cfg /\ inevitable (fun cfg => 0 < returned cfg) goes_next cfg.
Proof.
  cbv zeta. split; [reflexivity|]. apply (wait_group_correct 1 0 1); [reflexivity|exists last_task; reflexivity|reflexivity|reflexivity|].
  apply Z.ltb_lt. reflexivity.
Defined.

(** [finish] signals one waiter: a second one stays blocked, with no task left and nothing left to do. *)
Lemma second_waiter_blocks :
  exists es cfg, run (wg_init 1 0 2) es = Some cfg /\ unfinished cfg = 0 /\ threads cfg = [WgIdle; Owner; WaitBlocked] /\
    forall e, goes_next e -> fire cfg e = None.
Proof.
  exists ([mkEvent 1 GWait []; next 1; next 1; next 1; next 1; mkEvent 2 GWait []; next 2; next 2; next 2; next 2;
    mkEvent 0 GFinish []; next 0; next 0; next 0; next 0; next 1; next 1; next 1; next 1; mkEvent 1 GDone []]).
  eexists. split; [vm_compute; reflexivity|]. split_and!; [reflexivity|reflexivity|].
  intros [i c ts] H. unfold goes_next in H. cbn in H. subst c. by destruct i as [|[|[|i]]].
Qed.

(** [wait] can return while the last [finish] has still to touch the mutex and the condition. *)
Lemma wait_returns_before_finish :
  exists es cfg, run (wg_init 1 0 1) es = Some cfg /\ threads cfg = [FinishLock; Returned].
Proof.
  exists ([mkEvent 0 GFinish []; next 0; mkEvent 1 GWait []; next 1; next 1; next 1]). eexists. split; vm_compute; reflexivity.
Qed.
