(* ===== verification/Semaphore.v ===== *)
(** * The semaphore ([threading/Semaphore.rs])

    A count of permits under a mutex, with one condition for those that wait for a permit. *)

From stdpp Require Import list.
From S2P Require Import Prelude Interleaving Monitor.

(** [posted] and [taken] record the history: the permits added and taken so far. *)
Record sem_shared := mkSem { permits : Z; sem_monitor : monitor; posted : Z; taken : Z }.

Inductive sem_pc :=
| SemIdle
| WaitLock | WaitCheck | WaitEnter | WaitRelease | WaitBlocked | WaitRelock | WaitTake | WaitSignal | WaitUnlock
| PostLock | PostAdd | PostSignal | PostUnlock.

Inductive sem_choice := SWait | SPost | SNext.

Definition with_monitor (s : sem_shared) (m : monitor) : sem_shared := mkSem (permits s) m (posted s) (taken s).

Definition wait_step (s : sem_shared) (pc : sem_pc) : option (sem_shared * sem_pc) :=
  match pc with
  | WaitLock => m ← m_lock (sem_monitor s); Some (with_monitor s m, WaitCheck)
  | WaitCheck => Some (s, if permits s =? 0 then WaitEnter else WaitTake)
  | WaitEnter => Some (with_monitor s (m_enter (sem_monitor s)), WaitRelease)
  | WaitRelease => Some (with_monitor s (m_unlock (sem_monitor s)), WaitBlocked)
  | WaitBlocked => m ← m_take (sem_monitor s); Some (with_monitor s m, WaitRelock)
  | WaitRelock => m ← m_lock (sem_monitor s); Some (with_monitor s m, WaitCheck)
  | WaitTake =>
      let left := wrap 64 (permits s - 1) in
      Some (mkSem left (sem_monitor s) (posted s) (taken s + 1), if 0 <? left then WaitSignal else WaitUnlock)
  | WaitSignal => Some (with_monitor s (m_signal (sem_monitor s)), WaitUnlock)
  | WaitUnlock => Some (with_monitor s (m_unlock (sem_monitor s)), SemIdle)
  | _ => None
  end.

Definition post_step (s : sem_shared) (pc : sem_pc) : option (sem_shared * sem_pc) :=
  match pc with
  | PostLock => m ← m_lock (sem_monitor s); Some (with_monitor s m, PostAdd)
  | PostAdd => Some (mkSem (wrap 64 (permits s + 1)) (sem_monitor s) (posted s + 1) (taken s), PostSignal)
  | PostSignal => Some (with_monitor s (m_signal (sem_monitor s)), PostUnlock)
  | PostUnlock => Some (with_monitor s (m_unlock (sem_monitor s)), SemIdle)
  | _ => None
  end.

Definition in_post (pc : sem_pc) : bool := match pc with PostLock | PostAdd | PostSignal | PostUnlock => true | _ => false end.

Definition sem_step (c : sem_choice) (s : sem_shared) (pc : sem_pc) : option (sem_shared * sem_pc * nat) :=
  match c, pc with
  | SWait, SemIdle => Some (s, WaitLock, 0%nat)
  | SPost, SemIdle => Some (s, PostLock, 0%nat)
  | SNext, _ => '(s, pc) ← if in_post pc then post_step s pc else wait_step s pc; Some (s, pc, 0%nat)
  | _, _ => None
  end.

#[export] Instance sem_system : System sem_shared sem_pc sem_choice := {| step := sem_step; woken := fun _ => None |}.

(** [with_permits(p)], shared by [n] threads. *)
Definition sem_init (p : Z) (n : nat) : config sem_shared sem_pc := mkConfig (mkSem p m_init 0 0) (replicate n SemIdle).

Definition in_wait (pc : sem_pc) : bool :=
  match pc with WaitLock | WaitCheck | WaitEnter | WaitRelease | WaitBlocked | WaitRelock | WaitTake => true | _ => false end.
Definition is_counted (pc : sem_pc) : bool := match pc with WaitRelease | WaitBlocked => true | _ => false end.
Definition is_blocked (pc : sem_pc) : bool := match pc with WaitBlocked => true | _ => false end.
Definition is_idle (pc : sem_pc) : bool := match pc with SemIdle => true | _ => false end.
Definition will_enter (pc : sem_pc) : bool := match pc with WaitEnter => true | _ => false end.
Definition will_check (pc : sem_pc) : bool := match pc with WaitLock | WaitCheck | WaitRelock | WaitTake => true | _ => false end.
Definition will_take (pc : sem_pc) : bool := match pc with WaitTake => true | _ => false end.
Definition will_signal (pc : sem_pc) : bool := match pc with WaitSignal | PostSignal => true | _ => false end.
Definition owns (pc : sem_pc) : bool :=
  match pc with WaitCheck | WaitEnter | WaitRelease | WaitTake | WaitSignal | WaitUnlock | PostAdd | PostSignal | PostUnlock => true | _ => false end.

Definition will_post (pc : sem_pc) : bool := match pc with PostLock | PostAdd => true | _ => false end.

(** The permits that there will be when the posts under way are over. *)
Definition promised (cfg : config sem_shared sem_pc) : Z := permits (shared cfg) + tally_if will_post (threads cfg).

Definition goes_next (e : event sem_choice) : Prop := choice e = SNext.

(** Nothing is under way: threads are outside, or blocked for want of a permit. *)
Definition settled (cfg : config sem_shared sem_pc) : Prop :=
  Forall (fun pc => pc = SemIdle \/ pc = WaitBlocked /\ permits (shared cfg) = 0) (threads cfg).

(** While a waiter has no signal, a permit has a thread that will take it or signal. *)
Record sem_ok (p : Z) (cfg : config sem_shared sem_pc) : Prop := {
  sem_permits : 0 <= permits (shared cfg);
  sem_history : permits (shared cfg) + taken (shared cfg) = p + posted (shared cfg);
  sem_mon : monitor_ok (tally_if owns (threads cfg)) (tally_if is_counted (threads cfg)) (sem_monitor (shared cfg));
  sem_enter : 0 < tally_if will_enter (threads cfg) -> permits (shared cfg) = 0;
  sem_take : 0 < tally_if will_take (threads cfg) -> 0 < permits (shared cfg);
  sem_signal : 0 < permits (shared cfg) -> m_signalled (sem_monitor (shared cfg)) < tally_if is_counted (threads cfg) ->
    0 < m_signalled (sem_monitor (shared cfg)) + tally_if will_check (threads cfg) + tally_if will_signal (threads cfg);
}.

Lemma sem_init_ok p n : 0 <= p -> sem_ok p (sem_init p n).
Proof. intros Hp. split; cbn [shared threads sem_init permits posted taken sem_monitor m_init m_signalled]; rewrite ?tally_if_replicate; cbn; try lia. split; cbn; lia. Qed.

Lemma sem_awake (l : sem_pc) : woken l = None.
Proof. done. Qed.

Lemma sem_ok_fire p cfg e cfg' :
  sem_ok p cfg -> promised cfg < 2 ^ 64 -> fire cfg e = Some cfg' -> sem_ok p cfg' /\ promised cfg' <= promised cfg + 1 /\ (goes_next e -> promised cfg' <= promised cfg).
Proof.
  intros [H0 Hh Hm He Hk Hs] Hb (l & l' & n & Hl & Hst & _ & _ & H)%(fire_awake _ _ _ sem_awake).
  pose proof (fun p => proj1 (H p)) as T. pose proof (T owns) as Tm. pose proof (T is_counted) as Tc. pose proof (T will_enter) as Te.
  pose proof (T will_take) as Tk. pose proof (T will_check) as Tr. pose proof (T will_signal) as Ts.
  pose proof (T will_post) as Tp. clear T. unfold promised, goes_next in *.
  pose proof (proj2 (H owns)) as Lm. pose proof (proj2 (H will_enter)) as Le. pose proof (proj2 (H will_take)) as Lk.
  pose proof (proj2 (H will_post)) as Lp. clear H. pose proof (tally_if_nonneg will_post (threads cfg)). pose proof (ok_signalled _ _ _ Hm) as Hg.
  pose proof (tally_if_others will_enter (threads cfg) owns (who e) l ltac:(by intros []) Hl) as Leo.
  pose proof (tally_if_others will_take (threads cfg) owns (who e) l ltac:(by intros []) Hl) as Lko.
  pose proof (ok_owner _ _ _ Hm) as Ho. pose proof (b2z_le1 (m_locked (sem_monitor (shared cfg)))) as Ho1. rewrite <- Ho in Ho1. clear Ho.
  pose proof (tally_if_nonneg will_check (threads cfg)). pose proof (tally_if_nonneg will_signal (threads cfg)).
  pose proof (tally_if_nonneg will_enter (threads cfg)). pose proof (tally_if_nonneg will_take (threads cfg)).
  change (2 ^ 64) with 18446744073709551616 in *.
  destruct cfg as [[r m po ta] ts], cfg' as [[r' m' po' ta'] ts']; cbn [shared threads permits posted taken sem_monitor] in *.
  destruct (choice e), l; cbn in Hst; try discriminate Hst;
    try (apply bind_Some in Hst as ([s1 pc1] & Hst & [= -> -> <-])); try (apply bind_Some in Hst as (m1 & Hm1 & Hst));
    try injection Hst as <- <- <- <- <- <-; try injection Hst as <- <- <- <- <-.
  all: cbn in Lm, Le, Lk, Lp, Leo, Lko; rewrite ?wrap64_small in * by lia.
  all: try destruct (Z.eqb_spec r 0); try destruct (Z.ltb_spec 0 (r - 1)).
  all: cbn in Tm, Tc, Te, Tk, Tr, Ts, Tp; monitor_step.
  all: (split; [split; cbn [shared threads permits posted taken sem_monitor]; [lia|lia|monitor_counts| | |];
    cbn [m_signalled m_unlock m_enter]; lia|cbn; split; [lia|intros Hc; first [discriminate Hc|lia]]]).
Qed.

Lemma sem_run_ok p n es cfg :
  0 <= p -> p + Z.of_nat (length es) < 2 ^ 64 -> run (sem_init p n) es = Some cfg -> sem_ok p cfg /\ promised cfg < 2 ^ 64.
Proof.
  intros Hp Hb Hr. enough (sem_ok p cfg /\ promised cfg <= promised (sem_init p n) + Z.of_nat (length es)) as [? H].
  { split; [done|]. unfold promised in *. cbn [sem_init shared threads permits] in H. rewrite tally_if_replicate in H. cbn in *. lia. }
  apply (run_invariant_clock (sem_ok p) promised (2 ^ 64)); [|by apply sem_init_ok| |done].
  - intros c e c' Hc Hlt Hf. by destruct (sem_ok_fire p c e c' Hc Hlt Hf) as (? & ? & _).
  - unfold promised. cbn [sem_init shared threads permits]. rewrite tally_if_replicate. cbn. lia.
Qed.

(** ** Calls under way come to rest *)

(** The steps left: a signal lets a waiter check again, a permit lets a waiter signal. *)
Definition sem_left (pc : sem_pc) : Z :=
  match pc with
  | PostLock => 15 | PostAdd => 14 | PostSignal => 8 | PostUnlock => 1
  | WaitLock | WaitRelock => 6 | WaitCheck => 5 | WaitTake => 4 | WaitSignal => 8 | WaitEnter => 3 | WaitRelease => 2 | WaitBlocked | WaitUnlock => 1
  | SemIdle => 0
  end.
Definition sem_measure (cfg : config sem_shared sem_pc) : Z :=
  tally sem_left (threads cfg) + 6 * m_signalled (sem_monitor (shared cfg)) + 5 * permits (shared cfg).

Definition busy (pc : sem_pc) : bool := in_post pc || will_check pc || will_signal pc || owns pc.

Lemma sem_enabled cfg i l s l' :
  threads cfg !! i = Some l -> sem_step SNext (shared cfg) l = Some (s, l', 0%nat) -> exists e cfg', goes_next e /\ fire cfg e = Some cfg'.
Proof. intros Hl Hs. eexists (mkEvent i SNext []), _. split; [done|]. by apply (fire_local cfg i l SNext s l'). Qed.

Lemma sem_progress p cfg : sem_ok p cfg -> settled cfg \/ exists e cfg', goes_next e /\ fire cfg e = Some cfg'.
Proof.
  intros [H0 _ Hm _ _ Hs]. destruct (decide (0 < tally_if owns (threads cfg))) as [(j & t & Hj & Ht)%tally_if_pos|Hfree].
  { right. destruct t; try discriminate Ht; by eapply (sem_enabled cfg j). }
  pose proof (tally_if_nonneg owns (threads cfg)). destruct (m_lock_free _ _ _ Hm ltac:(lia)) as [m' Hlock].
  destruct (decide (0 < tally_if busy (threads cfg))) as [(i & l & Hi & Hl)%tally_if_pos|Hn].
  { right. destruct l; try discriminate Hl; try (by eapply (sem_enabled cfg i); [done|]; cbn; rewrite ?Hlock). }
  destruct (decide (0 < m_signalled (sem_monitor (shared cfg)))) as [Hg|Hg].
  - destruct (decide (0 < tally_if is_blocked (threads cfg))) as [(i & l & Hi & Hl)%tally_if_pos|Hb].
    { right. destruct l; try discriminate Hl. destruct (m_take_signalled _ Hg) as [mt Ht]. eapply (sem_enabled cfg i); [done|]. cbn. by rewrite Ht. }
    left. apply Forall_lookup_2. intros i l Hi. destruct l; try (by left);
      first [by destruct Hb; eapply (tally_if_lookup is_blocked); [exact Hi|]|by destruct Hn; eapply (tally_if_lookup busy); [exact Hi|]].
  - left. apply Forall_lookup_2. intros i l Hi. destruct l; try (by left); try (by destruct Hn; eapply (tally_if_lookup busy); [exact Hi|]).
    right. split; [done|]. pose proof (tally_if_lookup is_counted (threads cfg) i WaitBlocked Hi eq_refl).
    pose proof (tally_if_le will_check busy (threads cfg) ltac:(by intros [])). pose proof (tally_if_le will_signal busy (threads cfg) ltac:(by intros [])). lia.
Qed.

Lemma sem_decreases p cfg e cfg' :
  sem_ok p cfg -> promised cfg < 2 ^ 64 -> goes_next e -> fire cfg e = Some cfg' -> sem_measure cfg' < sem_measure cfg.
Proof.
  intros [H0 _ Hm _ Hk _] Hb He (l & l' & n & Hl & Hst & _ & Ht & H)%(fire_awake _ _ _ sem_awake).
  unfold goes_next in He. rewrite He in Hst. clear He. specialize (Ht sem_left). pose proof (proj2 (H will_take)) as Lk.
  pose proof (proj2 (H will_post)) as Lp. clear H. pose proof (tally_if_nonneg will_post (threads cfg)). unfold promised in *.
  unfold sem_measure. change (2 ^ 64) with 18446744073709551616 in *.
  destruct cfg as [[r m po ta] ts], cfg' as [[r' m' po' ta'] ts']; cbn [shared threads permits posted taken sem_monitor] in *.
  destruct l; cbn in Hst; try discriminate Hst;
    try (apply bind_Some in Hst as ([s1 pc1] & Hst & [= -> -> <-])); try (apply bind_Some in Hst as (m1 & Hm1 & Hst));
    try injection Hst as <- <- <- <- <- <-; try injection Hst as <- <- <- <- <-.
  all: cbn in Lk, Lp; rewrite ?wrap64_small in * by lia.
  all: try destruct (Z.eqb_spec r 0); try destruct (Z.ltb_spec 0 (r - 1)).
  all: cbn in Ht; monitor_step; cbn [m_signalled m_unlock m_enter]; lia.
Qed.

(** (C28) [wait] and [post] interleaved in any way over an abstract mutex and condition: the permits never underflow,
    those taken and left are those there were and those posted; and no signal is lost: when no more calls are made,
    whatever order the threads go on in, after finitely many steps all of them have returned, except waiters for which
    no permit is left. *)
Theorem semaphore_correct (p : Z) (n : nat) (es : list (event sem_choice)) (cfg : config sem_shared sem_pc)
    (Hp : 0 <= p) (Hb : p + Z.of_nat (length es) < 2 ^ 64) (Hr : run (sem_init p n) es = Some cfg) :
  0 <= permits (shared cfg) /\ permits (shared cfg) + taken (shared cfg) = p + posted (shared cfg) /\
  tally_if owns (threads cfg) <= 1 /\ inevitable settled goes_next cfg.
Proof.
  destruct (sem_run_ok p n es cfg Hp Hb Hr) as [Hok Hlt]. split_and!; [apply Hok|apply Hok| |].
  - rewrite (ok_owner _ _ _ (sem_mon _ _ Hok)). apply b2z_le1.
  - apply (inevitable_measure _ (fun c => sem_ok p c /\ promised c < 2 ^ 64) _ sem_measure); [| |done].
    + intros c [Hc _]. unfold sem_measure. pose proof (sem_permits _ _ Hc). pose proof (ok_signalled _ _ _ (sem_mon _ _ Hc)).
      pose proof (tally_nonneg sem_left (threads c) ltac:(by intros [])). lia.
    + intros c [Hc Hc2]. destruct (sem_progress p c Hc) as [?|?]; [by left|]. right. split; [done|]. intros e c' He Hf. right.
      destruct (sem_ok_fire p c e c' Hc Hc2 Hf) as (? & _ & Hle). specialize (Hle He). split; [split; [done|lia]|]. by apply (sem_decreases p c e c').
Qed.

Definition next (i : nat) : event sem_choice := mkEvent i SNext [].

(** Two threads wait for a permit; the third posts two, one after the other. *)
Definition two_posts : list (event sem_choice) :=
  [mkEvent 0 SWait []; next 0; next 0; next 0; next 0; mkEvent 1 SWait []; next 1; next 1; next 1; next 1;
   mkEvent 2 SPost []; next 2; next 2; next 2; next 2; mkEvent 2 SPost []; next 2; next 2].

Lemma semaphore_correct_witness :
  let cfg := mkConfig (mkSem 2 (mkMonitor true 2 1) 2 0) [WaitBlocked; WaitBlocked; PostSignal] in
  run (sem_init 0 3) two_posts = Some cfg /\ inevitable settled goes_next cfg.
Proof. cbv zeta. split; [reflexivity|]. by apply (semaphore_correct 0 3 two_posts). Defined.
