(* ===== verification/UnboundedQueue.v ===== *)
(** * The unbounded queue ([threading/unbounded_queue.rs])

    An intrusive queue with many producers and one consumer. A push swaps [back] and then links what it pushed to the
    node that was there, or to [front]; the links appear in any order. The abstract queue, in the order of the swaps, is
    kept as history beside the pointers. *)

From S2P Require Import Prelude Interleaving Counting.
From stdpp Require Import list gmap.
Local Open Scope Z_scope.

(** ** Data *)

(** A node is its address; [nexts] holds the links that are not null. The last five fields are history: the abstract
    queue, a popped batch that is still iterated, the nodes that belong to the producers, and what was pushed and
    popped so far. *)
Record queue := mkQueue {
  back : option nat; front : option nat; nexts : gmap nat nat;
  items : list nat; taken : list nat; free : list nat; pushed : list nat; popped : list nat
}.

Definition with_back (s : queue) b : queue := mkQueue b (front s) (nexts s) (items s) (taken s) (free s) (pushed s) (popped s).
Definition with_front (s : queue) f : queue := mkQueue (back s) f (nexts s) (items s) (taken s) (free s) (pushed s) (popped s).
Definition with_nexts (s : queue) m : queue := mkQueue (back s) (front s) m (items s) (taken s) (free s) (pushed s) (popped s).

Definition set_next (s : queue) (x : nat) (p : option nat) : queue :=
  with_nexts s (match p with Some y => <[x := y]> (nexts s) | None => delete x (nexts s) end).

(** Nodes enter and leave the abstract queue. *)
Definition enqueue (s : queue) (l : list nat) : queue :=
  mkQueue (back s) (front s) (nexts s) (items s ++ l) (taken s) (free s) (pushed s ++ l) (popped s).
Definition dequeue (s : queue) (x : nat) : queue :=
  mkQueue (back s) (front s) (nexts s) (tl (items s)) (taken s) (x :: free s) (pushed s) (popped s ++ [x]).
Definition dequeue_batch (s : queue) (n : nat) : queue :=
  mkQueue (back s) (front s) (nexts s) (drop n (items s)) (take n (items s)) (free s) (pushed s) (popped s).
Definition yield (s : queue) (x : nat) : queue :=
  mkQueue (back s) (front s) (nexts s) (items s) (tl (taken s)) (x :: free s) (pushed s) (popped s ++ [x]).

Record Batch := mkBatch { batch_front : option nat; batch_last : option nat; batch_count : nat }.

(** ** Threads *)

(** [push_batch first last]: the chain is [first :: rest]. *)
Inductive push_pc :=
| PIdle
| PushSet (first : nat) (rest : list nat)
| PushSwap (first : nat) (rest : list nat)
| PushLink (old_back : option nat) (first : nat).

Inductive pop_pc :=
| CIdle
| PopLoad | PopNext (first : nat) | PopCas (first : nat) (next_ptr : option nat) | PopBack (first : nat) | PopSpin (first : nat)
| PopStore (first new_first : nat)
| BatchFront | BatchBack (first : nat) | BatchWalk (first last_item next_item : nat) (count : nat)
| Iterating (b : Batch).

Inductive thread := Producer (pc : push_pc) | Consumer (pc : pop_pc).

(** [QPush]: a producer has linked nodes of its own into a chain. [QSpurious]: [compare_exchange_weak] fails. *)
Inductive queue_choice := QPush (first : nat) (rest : list nat) | QPop | QPopBatch | QNext | QSpurious.

(** Links [x :: l], by the caller. *)
Fixpoint chain (m : gmap nat nat) (x : nat) (l : list nat) : gmap nat nat :=
  match l with [] => m | y :: l => <[x := y]> (chain m y l) end.

Fixpoint last_of (x : nat) (l : list nat) : nat := match l with [] => x | y :: l => last_of y l end.

(** A producer takes nodes of its own. *)
Definition take_free (s : queue) (l : list nat) : option queue :=
  f ← take_out_all l (free s); Some (mkQueue (back s) (front s) (nexts s) (items s) (taken s) f (pushed s) (popped s)).

Definition push_batch (c : queue_choice) (s : queue) (pc : push_pc) : option (queue * push_pc) :=
  match c, pc with
  | QPush x l, PIdle => s ← take_free s (x :: l); Some (with_nexts s (chain (nexts s) x l), PushSet x l)
  | QNext, PushSet x l => Some (set_next s (last_of x l) None, PushSwap x l)
  | QNext, PushSwap x l => Some (with_back (enqueue s (x :: l)) (Some (last_of x l)), PushLink (back s) x)
  | QNext, PushLink (Some b) x => Some (set_next s b (Some x), PIdle)
  | QNext, PushLink None x => Some (with_front s (Some x), PIdle)
  | _, _ => None
  end.

(** What a failed exchange of [front] goes on with. *)
Definition pop_retry (s : queue) : queue * pop_pc := (s, match front s with Some x => PopNext x | None => CIdle end).

(** A spin loop waits until there is a link. *)
Definition pop (c : queue_choice) (s : queue) (pc : pop_pc) : option (queue * pop_pc) :=
  match c, pc with
  | QPop, CIdle => Some (s, PopLoad)
  | QNext, PopLoad => Some (pop_retry s)
  | QNext, PopNext x => Some (s, PopCas x (nexts s !! x))
  | QSpurious, PopCas x n => Some (pop_retry s)
  | QNext, PopCas x n =>
      if decide (front s = Some x)
      then Some (match n with Some _ => (dequeue (with_front s n) x, CIdle) | None => (with_front s n, PopBack x) end)
      else Some (pop_retry s)
  | QNext, PopBack x => Some (if decide (back s = Some x) then (dequeue (with_back s None) x, CIdle) else (s, PopSpin x))
  | QNext, PopSpin x => n ← nexts s !! x; Some (s, PopStore x n)
  | QNext, PopStore x n => Some (dequeue (with_front s (Some n)) x, CIdle)
  | _, _ => None
  end.

Definition pop_batch (c : queue_choice) (s : queue) (pc : pop_pc) : option (queue * pop_pc) :=
  match c, pc with
  | QPopBatch, CIdle => Some (s, BatchFront)
  | QNext, BatchFront => Some (with_front s None, match front s with Some x => BatchBack x | None => CIdle end)
  | QNext, BatchBack x => l ← back s; Some (with_back s None, BatchWalk x l x 1)
  | QNext, BatchWalk x l n k =>
      if decide (n = l) then Some (dequeue_batch s k, Iterating (mkBatch (Some x) (Some l) k))
      else n ← nexts s !! n; Some (s, BatchWalk x l n (S k))
  | _, _ => None
  end.

(** [BatchIterator::next] *)
Definition iterator_next (s : queue) (b : Batch) : option nat * Batch :=
  match batch_count b, batch_front b with
  | S k, Some x => (Some x, mkBatch (nexts s !! x) (batch_last b) k)
  | _, _ => (None, b)
  end.

Definition iterate (c : queue_choice) (s : queue) (pc : pop_pc) : option (queue * pop_pc) :=
  match c, pc with
  | QNext, Iterating b => Some (match iterator_next s b with (Some x, b) => (yield s x, Iterating b) | (None, _) => (s, CIdle) end)
  | _, _ => None
  end.

#[export] Instance pop_pc_eq_dec : EqDecision pop_pc.
Proof. unfold EqDecision, Decision. repeat decide equality. Defined.

Definition in_batch (pc : pop_pc) : bool := match pc with BatchFront | BatchBack _ | BatchWalk _ _ _ _ => true | _ => false end.

Definition consume (c : queue_choice) (s : queue) (pc : pop_pc) : option (queue * pop_pc) :=
  match c, pc with
  | QPopBatch, _ => pop_batch c s pc
  | _, Iterating _ => iterate c s pc
  | _, _ => if in_batch pc then pop_batch c s pc else pop c s pc
  end.

Definition queue_step (c : queue_choice) (s : queue) (t : thread) : option (queue * thread * nat) :=
  match t with
  | Producer pc => '(s, pc) ← push_batch c s pc; Some (s, Producer pc, 0%nat)
  | Consumer pc => '(s, pc) ← consume c s pc; Some (s, Consumer pc, 0%nat)
  end.

#[export] Instance queue_system : System queue thread queue_choice := {| step := queue_step; woken := fun _ => None |}.

(** [new], with one consumer and [n] producers, which own the nodes. *)
Definition queue_init (nodes : list nat) (n : nat) : config queue thread :=
  mkConfig (mkQueue None None ∅ [] [] nodes [] []) (Consumer CIdle :: replicate n (Producer PIdle)).

Definition is_empty (s : queue) : bool := bool_decide (back s = None).

(** ** Paths

    A cell is [front] or the link of a node, with the producers that are about to write it. *)

Definition pending (p : option nat) (t : thread) : list nat :=
  match t with Producer (PushLink old x) => if decide (old = p) then [x] else [] | _ => [] end.

Definition cell := (option nat * list nat)%type.
Definition cells (s : queue) (ts : list thread) (p : option nat) : cell :=
  (match p with Some x => nexts s !! x | None => front s end, flat_map (pending p) ts).

Definition empty : cell := (None, []).
(** A cell leads to a node, or one producer is about to make it so. *)
Definition linked (c : cell) (x : nat) : Prop := c = (Some x, []) \/ c = (None, [x]).

Section path.
Implicit Types (c : option nat -> cell) (p : option nat) (l : list nat).

Fixpoint seg c p l : Prop := match l with [] => True | x :: l => linked (c p) x /\ seg c (Some x) l end.
Fixpoint end_of p l : option nat := match l with [] => p | x :: l => end_of (Some x) l end.
Definition path c p l : Prop := seg c p l /\ c (end_of p l) = empty.

Lemma end_of_app p l k : end_of p (l ++ k) = end_of (end_of p l) k.
Proof. revert p. induction l as [|x l IH]; intros p; cbn; [done|apply IH]. Qed.

Lemma end_of_last x l : end_of (Some x) l = Some (last_of x l).
Proof. revert x. induction l as [|y l IH]; intros x; cbn; [done|apply IH]. Qed.

Lemma end_of_cases p l : end_of p l = p /\ l = [] \/ exists x, x ∈ l /\ end_of p l = Some x.
Proof.
  revert p. induction l as [|x l IH]; intros p; cbn; [by left|]. right.
  destruct (IH (Some x)) as [[E ->]|(y & Hy & E)]; [exists x; split; [apply list_elem_of_here|done]|exists y; split; [by apply list_elem_of_further|done]].
Qed.

Lemma seg_app c p l k : seg c p (l ++ k) <-> seg c p l /\ seg c (end_of p l) k.
Proof. revert p. induction l as [|x l IH]; intros p; cbn; [tauto|]. rewrite IH. tauto. Qed.

(** Only the cells on the way matter. *)

Lemma seg_ext c c' p l : (forall q, q = p \/ (exists x, q = Some x /\ x ∈ l) -> c q = c' q) -> seg c p l -> seg c' p l.
Proof.
  revert p. induction l as [|x l IH]; intros p H; cbn; [done|]. intros [H1 H2]. split; [rewrite <- H; [done|by left]|].
  apply IH; [|done]. intros q [->|(y & -> & Hy)]; apply H; right; [exists x; split; [done|apply list_elem_of_here]|exists y; split; [done|by apply list_elem_of_further]].
Qed.

Lemma path_ext c c' p l : (forall q, q = p \/ (exists x, q = Some x /\ x ∈ l) -> c q = c' q) -> path c p l -> path c' p l.
Proof.
  intros H [H1 H2]. split; [by eapply seg_ext|]. rewrite <- H; [done|]. destruct (end_of_cases p l) as [[E _]|(x & Hx & E)]; [by left|]. right. by exists x.
Qed.

(** A producer writes the cell that it is to write. *)
Lemma seg_fill c c' p l old x : c old = (None, [x]) -> c' old = (Some x, []) -> (forall q, q <> old -> c' q = c q) -> seg c p l -> seg c' p l.
Proof.
  intros Ho Hn Hq. revert p. induction l as [|y l IH]; intros p; cbn; [done|]. intros [H1 H2]. split; [|by apply IH].
  destruct (decide (p = old)) as [->|Hne]; [|by rewrite Hq]. rewrite Ho in H1. destruct H1 as [[=]|[= ->]]. by left.
Qed.

Lemma path_fill c c' p l old x : c old = (None, [x]) -> c' old = (Some x, []) -> (forall q, q <> old -> c' q = c q) -> path c p l -> path c' p l.
Proof.
  intros Ho Hn Hq [H1 H2]. split; [by eapply seg_fill|]. rewrite Hq; [done|]. intros E. rewrite E, Ho in H2. done.
Qed.

(** A producer is to write the cell at the end. *)
Lemma path_append c c' p l x k :
  c' (end_of p l) = (None, [x]) -> (forall q, q <> end_of p l -> c' q = c q) -> NoDup l -> (forall y, p = Some y -> y ∉ l) ->
  path c p l -> path c' (Some x) k -> path c' p (l ++ x :: k).
Proof.
  intros He Hq Hnd Hp [H1 _] [H2 H3]. split; [|by rewrite end_of_app]. rewrite seg_app. split; [|by split; [right|]].
  clear H2 H3 k. revert p Hp He Hq H1. induction l as [|y l IH]; intros p Hp He Hq; [done|]. cbn [seg end_of] in *.
  apply NoDup_cons in Hnd as [Hy Hnd]. intros [H1 H2]. split; [|apply IH; [done|by intros ? [= <-]|done|done|done]].
  rewrite Hq; [done|]. intros ->. destruct (end_of_cases (Some y) l) as [[E _]|(z & Hz & E)].
  - apply (Hp y E). apply list_elem_of_here.
  - apply (Hp z E). by apply list_elem_of_further.
Qed.
End path.

(** ** The invariant *)

Definition owned (t : thread) : list nat :=
  match t with Producer (PushSet x l) | Producer (PushSwap x l) => x :: l | _ => [] end.

Fixpoint joined (m : gmap nat nat) (x : nat) (l : list nat) : Prop :=
  match l with [] => True | y :: l => m !! x = Some y /\ joined m y l end.

Definition chained (m : gmap nat nat) (t : thread) : Prop :=
  match t with
  | Producer (PushSet x l) => joined m x l
  | Producer (PushSwap x l) => joined m x l /\ m !! last_of x l = None
  | Producer _ => True
  | Consumer _ => False
  end.

(** Between two pops the links lead from [front] to [back]. *)
Definition at_rest (s : queue) (c : option nat -> cell) : Prop := path c None (items s) /\ back s = end_of None (items s).

Definition at_front (s : queue) (c : option nat -> cell) (x : nat) : Prop :=
  at_rest s c /\ c None = (Some x, []) /\ exists l, items s = x :: l.

(** The consumer holds the first node. *)
Definition detached (s : queue) (c : option nat -> cell) (x : nat) (l : list nat) : Prop :=
  items s = x :: l /\ c None = empty /\ path c (Some x) l /\ back s = end_of None (items s).

(** The consumer holds a batch; it has followed the links of [a]. *)
Definition walking (s : queue) (c : option nat -> cell) (x last next_item : nat) (count : nat) : Prop :=
  exists a b l, items s = x :: (a ++ b) ++ l /\ joined (nexts s) x a /\ last_of x a = next_item /\ count = S (length a) /\
    path c (Some x) (a ++ b) /\ last_of x (a ++ b) = last /\ path c None l /\ back s = end_of None l.

Definition stage (s : queue) (c : option nat -> cell) (pc : pop_pc) : Prop :=
  match pc with
  | CIdle | PopLoad | BatchFront => taken s = [] /\ at_rest s c
  | PopNext x => taken s = [] /\ at_front s c x
  | PopCas x n => taken s = [] /\ at_front s c x /\ (n = None \/ c (Some x) = (n, []))
  | PopBack x | BatchBack x => taken s = [] /\ exists l, detached s c x l
  | PopSpin x => taken s = [] /\ exists l, detached s c x l /\ l <> []
  | PopStore x n => taken s = [] /\ exists l, detached s c x (n :: l) /\ c (Some x) = (Some n, [])
  | BatchWalk x last n k => taken s = [] /\ walking s c x last n k
  | Iterating b => at_rest s c /\ batch_count b = length (taken s) /\
      match taken s with [] => True | x :: l => batch_front b = Some x /\ joined (nexts s) x l end
  end.

Record queue_ok (nodes : list nat) (s : queue) (pc : pop_pc) (ts : list thread) : Prop := {
  q_nodes z : (cnt (free s) z + cnt (taken s) z + cnt (items s) z + cnt (flat_map owned ts) z)%nat = cnt nodes z;
  q_order : popped s ++ taken s ++ items s = pushed s;
  q_pending p x : x ∈ (cells s ts p).2 -> cells s ts p = (None, [x]) /\ match p with None => True | Some y => y ∈ items s end;
  q_chained : Forall (chained (nexts s)) ts;
  q_stage : stage s (cells s ts) pc;
}.

Lemma stage_back s c pc : stage s c pc -> c (back s) = empty.
Proof.
  destruct pc; cbn; unfold at_front, at_rest, detached, walking, path; intros; destruct_and?; destruct_or?.
  all: repeat match goal with H : exists _, _ |- _ => destruct H end; destruct_and?; try congruence.
  all: match goal with H : items _ = _ :: _, E : back _ = _ |- _ => rewrite E, H; cbn; done end.
Qed.

Lemma stage_back_in s c pc x : stage s c pc -> back s = Some x -> x ∈ items s.
Proof.
  intros Hs Hb. assert (exists l k, items s = l ++ k /\ back s = end_of None k) as (l & k & El & Ek).
  { destruct pc; cbn in Hs; unfold at_front, at_rest, detached, walking in Hs; destruct_and?.
    all: repeat match goal with H : exists _, _ |- _ => destruct H end; destruct_and?; try (by exists [], (items s)).
    match goal with H : items _ = _ :: _ ++ _ |- _ => rewrite H, app_comm_cons; by eexists _, _ end. }
  rewrite Ek in Hb. destruct (end_of_cases None k) as [[E _]|(y & Hy & E)]; rewrite E in Hb; [done|].
  injection Hb as ->. rewrite El. apply elem_of_app. by right.
Qed.

(** ** The invariant and the producers *)

Lemma joined_ext m m' x l : (forall z, z ∈ x :: l -> m !! z = m' !! z) -> joined m x l -> joined m' x l.
Proof.
  revert x. induction l as [|y l IH]; intros x H; cbn; [done|]. intros [H1 H2]. split; [rewrite <- H; [done|apply list_elem_of_here]|].
  apply IH; [|done]. intros z Hz. apply H. by apply list_elem_of_further.
Qed.

Lemma joined_mono m m' x l : (forall z y, m !! z = Some y -> m' !! z = Some y) -> joined m x l -> joined m' x l.
Proof. intros H. revert x. induction l as [|y l IH]; intros x; cbn; [done|]. intros [H1 H2]. split; [by apply H|by apply IH]. Qed.

Lemma joined_app m x l k : joined m x (l ++ k) <-> joined m x l /\ joined m (last_of x l) k.
Proof. revert x. induction l as [|y l IH]; intros x; cbn; [tauto|]. rewrite IH. tauto. Qed.

(** Links that no producer is about to write are real. *)
Lemma joined_seg c m x l : (forall z y, m !! z = Some y -> z ∈ x :: l -> c (Some z) = (Some y, [])) -> joined m x l -> seg c (Some x) l.
Proof.
  revert x. induction l as [|y l IH]; intros x H; cbn; [done|]. intros [H1 H2]. split; [left; apply H; [done|apply list_elem_of_here]|].
  apply IH; [|done]. intros z w Hz Hin. apply H; [done|]. by apply list_elem_of_further.
Qed.

Lemma last_of_elem x l : last_of x l ∈ x :: l.
Proof. revert x. induction l as [|y l IH]; intros x; cbn [last_of]; [apply list_elem_of_here|apply list_elem_of_further, IH]. Qed.

Ltac by_parts :=
  solve [intros; repeat match goal with H : _ /\ _ |- _ => destruct H | H : exists _, _ |- _ => destruct H end;
    repeat match goal with |- _ /\ _ => split | |- exists _, _ => eexists end; eauto].

(** Nothing that the queue has reached changes. *)
Section same.
Context (s s' : queue) (c c' : option nat -> cell).
Hypothesis Ei : items s' = items s.
Hypothesis Et : taken s' = taken s.
Hypothesis Eb : back s' = back s.

Section ext.
Hypothesis Hc : forall q, match q with None => True | Some x => x ∈ items s end -> c q = c' q.
Hypothesis Hn : forall x, x ∈ items s \/ x ∈ taken s -> nexts s !! x = nexts s' !! x.

Lemma path_same p l : match p with None => True | Some x => x ∈ items s end -> (forall y, y ∈ l -> y ∈ items s) -> path c p l -> path c' p l.
Proof. intros Hp Hl. apply path_ext. intros q [->|(y & -> & Hy)]; apply Hc; [done|by apply Hl]. Qed.

Lemma stage_ext pc : stage s c pc -> stage s' c' pc.
Proof.
  assert (Hr : at_rest s c -> at_rest s' c').
  { intros [H1 H2]. split; rewrite Ei, ?Eb; [|done]. by apply path_same. }
  assert (Hd : forall x l, detached s c x l -> detached s' c' x l).
  { intros x l (H1 & H2 & H3 & H4). unfold detached. rewrite Ei, Eb, <- (Hc None); [|done]. split_and!; [done|done| |done].
    apply path_same; [|intros y Hy|done]; rewrite H1; [apply list_elem_of_here|by apply list_elem_of_further]. }
  assert (Hx : forall x l, detached s c x l -> c' (Some x) = c (Some x)).
  { intros x l (H1 & _). symmetry. apply Hc. rewrite H1. apply list_elem_of_here. }
  assert (Hf : forall x, at_front s c x -> at_front s' c' x).
  { intros x (H1 & H2 & l & H3). unfold at_front. rewrite Ei, <- (Hc None) by done. split_and!; [by apply Hr|done|by exists l]. }
  assert (Hf2 : forall x, at_front s c x -> c' (Some x) = c (Some x)).
  { intros x (H1 & H2 & l & H3). symmetry. apply Hc. rewrite H3. apply list_elem_of_here. }
  assert (Hw : forall x y z n, walking s c x y z n -> walking s' c' x y z n).
  { intros x y z n (a & b & l & H1 & H2 & H3 & H4 & H5 & H6 & H7 & H8). exists a, b, l. rewrite Ei, Eb. split_and!; try done.
    - eapply joined_ext; [|exact H2]. intros w Hw. apply Hn. left. rewrite H1. set_solver.
    - apply path_same; [rewrite H1; set_solver| |done]. rewrite H1. set_solver.
    - apply path_same; [done| |done]. rewrite H1. set_solver. }
  destruct pc; cbn [stage]; rewrite ?Et; try by_parts.
  - intros (H1 & H2 & H3). rewrite (Hf2 _ H2). split_and!; [done|by apply Hf|done].
  - intros (H1 & l & H2 & H3). split; [done|]. exists l. split; [by apply Hd|]. by rewrite (Hx _ _ H2).
  - intros (H1 & H2 & H3). split_and!; [by apply Hr|done|]. destruct (taken s) as [|x l] eqn:E; [done|]. destruct H3 as [H3 H4]. split; [done|].
    eapply joined_ext; [|exact H4]. intros w Hw'. apply Hn. by right.
Qed.
End ext.

(** A producer writes the cell that it was to write. *)
Section fill.
Context (old : option nat) (x : nat).
Hypothesis Ho : c old = (None, [x]).
Hypothesis Hn : c' old = (Some x, []).
Hypothesis Hq : forall q, q <> old -> c' q = c q.
Hypothesis Hm : forall z y, nexts s !! z = Some y -> nexts s' !! z = Some y.

Lemma stage_fill pc : stage s c pc -> stage s' c' pc.
Proof.
  assert (Hp : forall p l, path c p l -> path c' p l) by (intros p l; by apply (path_fill _ _ _ _ old x)).
  assert (Hs : forall q o, c q = (o, []) -> c' q = (o, [])).
  { intros q o E. rewrite <- E. apply Hq. intros ->. by rewrite Ho in E. }
  assert (Hr : at_rest s c -> at_rest s' c') by (intros [H1 H2]; split; rewrite Ei, ?Eb; [by apply Hp|done]).
  assert (Hd : forall x l, detached s c x l -> detached s' c' x l).
  { intros y l (H1 & H2 & H3 & H4). unfold detached. rewrite Ei, Eb. split_and!; [done|by apply Hs|by apply Hp|done]. }
  assert (Hf : forall x, at_front s c x -> at_front s' c' x).
  { intros y (H1 & H2 & H3). unfold at_front. rewrite Ei. split_and!; [by apply Hr|by apply Hs|done]. }
  assert (Hw : forall x y z n, walking s c x y z n -> walking s' c' x y z n).
  { intros y z w n (a & b & l & H1 & H2 & H3 & H4 & H5 & H6 & H7 & H8). exists a, b, l. rewrite Ei, Eb. split_and!; try done.
    - by eapply joined_mono.
    - by apply Hp.
    - by apply Hp. }
  destruct pc; cbn [stage]; rewrite ?Et; try by_parts.
  - intros (H1 & H2 & H3). split_and!; [done|by apply Hf|]. destruct H3 as [->|H3]; [by left|right; by apply Hs].
  - intros (H1 & H2 & H3). split_and!; [by apply Hr|done|]. destruct (taken s) as [|y l]; [done|]. destruct H3 as [H3 H4]. split; [done|]. by eapply joined_mono.
Qed.
End fill.
End same.

(** A producer puts nodes at the back. *)
Section push.
Context (s s' : queue) (c c' : option nat -> cell) (x : nat) (l : list nat).
Hypothesis Ei : items s' = items s ++ x :: l.
Hypothesis Et : taken s' = taken s.
Hypothesis Eb : back s' = Some (last_of x l).
Hypothesis En : nexts s' = nexts s.
Hypothesis Hnd : NoDup (items s).
Hypothesis Ho : c' (back s) = (None, [x]).
Hypothesis Hq : forall q, q <> back s -> c' q = c q.
Hypothesis Hl : path c' (Some x) l.

Lemma path_push p k : end_of p k = back s -> NoDup k -> (forall y, p = Some y -> y ∉ k) -> path c p k -> path c' p (k ++ x :: l).
Proof. intros E Hk Hp H. apply (path_append c); try done; by rewrite E. Qed.

Lemma end_push p k : end_of p (k ++ x :: l) = Some (last_of x l).
Proof. rewrite end_of_app. cbn. by rewrite end_of_last. Qed.

Lemma stage_push pc : stage s c pc -> stage s' c' pc.
Proof.
  intros Hst. pose proof (stage_back _ _ _ Hst) as Hb. revert Hst.
  assert (Hs : forall q o, c q = (Some o, []) -> c' q = (Some o, [])).
  { intros q o E. rewrite <- E. apply Hq. intros ->. by rewrite Hb in E. }
  assert (Hr : at_rest s c -> at_rest s' c').
  { intros [H1 H2]. split; rewrite Ei, ?Eb; [by apply path_push|by rewrite end_push]. }
  assert (Hd : forall y k, detached s c y k -> detached s' c' y (k ++ x :: l)).
  { intros y k (H1 & H2 & H3 & H4). unfold detached. rewrite H1 in Hnd, H4. apply NoDup_cons in Hnd as [Hy Hk].
    rewrite Ei, Eb, H1, end_push. split_and!; [done| | |done].
    - rewrite Hq; [done|]. rewrite H4. cbn. by rewrite end_of_last.
    - apply path_push; [by rewrite H4|done|by intros ? [= <-]|done]. }
  assert (Hf : forall y, at_front s c y -> at_front s' c' y).
  { intros y (H1 & H2 & k & H3). unfold at_front. rewrite Ei, H3. split_and!; [by apply Hr|by apply Hs|by eexists]. }
  assert (Hw : forall y z w n, walking s c y z w n -> walking s' c' y z w n).
  { intros y z w n (a & b & k & H1 & H2 & H3 & H4 & H5 & H6 & H7 & H8). exists a, b, (k ++ x :: l).
    rewrite Ei, Eb, En, end_push. rewrite H1, app_comm_cons in Hnd. apply NoDup_app in Hnd as (Hn1 & Hn2 & Hn3).
    split_and!; try done; [rewrite H1; cbn; by rewrite <- !app_assoc| |by apply path_push].
    eapply path_ext; [|exact H5]. intros q Hq'. symmetry. apply Hq. intros ->.
    assert (exists v, end_of None k = Some v /\ v ∈ y :: a ++ b) as (v & Ev & Hv).
    { rewrite <- H8. destruct Hq' as [->|(v & -> & Hv)]; [exists y; split; [done|apply list_elem_of_here]|exists v; split; [done|by apply list_elem_of_further]]. }
    destruct (end_of_cases None k) as [[E _]|(u & Hu & E)]; rewrite E in Ev; [done|]. injection Ev as ->. by apply (Hn2 v). }
  destruct pc; cbn [stage]; rewrite ?Et; try by_parts.
  - intros (H1 & H2 & H3). split_and!; [done|by apply Hf|]. destruct H3 as [->|H3]; [by left|]. destruct next_ptr; [right; by apply Hs|by left].
  - intros (H1 & k & H2 & H3). split; [done|]. exists (k ++ x :: l). split; [by apply Hd|]. by destruct k.
  - intros (H1 & k & H2 & H3). split; [done|]. exists (k ++ x :: l). split; [by apply (Hd _ (_ :: k))|by apply Hs].
  - rewrite En. intros (H1 & H2 & H3). split_and!; [by apply Hr|done|done].
Qed.
End push.

(** What a producer's cells and nodes are among those of all. *)
Lemma cells_split s a t b p :
  cells s (a ++ t :: b) p = (match p with Some x => nexts s !! x | None => front s end, flat_map (pending p) a ++ pending p t ++ flat_map (pending p) b).
Proof. unfold cells. by rewrite flat_map_app. Qed.

Lemma cnt_owned a t b z : cnt (flat_map owned (a ++ t :: b)) z = (cnt (flat_map owned a) z + cnt (owned t) z + cnt (flat_map owned b) z)%nat.
Proof. rewrite flat_map_app. cbn. rewrite !cnt_app. lia. Qed.

Lemma owned_cnt t ts z : t ∈ ts -> (cnt (owned t) z <= cnt (flat_map owned ts) z)%nat.
Proof. intros (a & b & ->)%list_elem_of_split. rewrite cnt_owned. lia. Qed.

(** A node is in one place. *)
Lemma q_once nodes s pc ts z :
  NoDup nodes -> queue_ok nodes s pc ts -> (cnt (free s) z + cnt (taken s) z + cnt (items s) z + cnt (flat_map owned ts) z <= 1)%nat.
Proof. intros Hn Hok. rewrite (q_nodes _ _ _ _ Hok). by apply cnt_NoDup. Qed.

Lemma q_items_NoDup nodes s pc ts : NoDup nodes -> queue_ok nodes s pc ts -> NoDup (items s).
Proof. intros Hn Hok. apply cnt_NoDup. intros z. pose proof (q_once _ _ _ _ z Hn Hok). lia. Qed.

(** A cell outside the queue has nobody to write it. *)
Lemma q_outside nodes s pc ts x : queue_ok nodes s pc ts -> x ∉ items s -> (cells s ts (Some x)).2 = [].
Proof.
  intros Hok Hx. destruct ((cells s ts (Some x)).2) as [|y l] eqn:E; [done|]. destruct Hx.
  by destruct (q_pending _ _ _ _ Hok (Some x) y) as [_ ?]; [rewrite E; apply list_elem_of_here|].
Qed.

Lemma chain_lookup m x l z : z ∉ x :: l -> chain m x l !! z = m !! z.
Proof.
  revert x. induction l as [|y l IH]; intros x; cbn [chain]; [done|]. intros H. rewrite !not_elem_of_cons in H. destruct H as (H1 & H2 & H3).
  rewrite lookup_insert_ne by done. apply IH. by rewrite not_elem_of_cons.
Qed.

Lemma chain_joined m x l : NoDup (x :: l) -> joined (chain m x l) x l.
Proof.
  revert x. induction l as [|y l IH]; intros x Hn; cbn; [done|]. apply NoDup_cons in Hn as [Hx Hn]. split; [by rewrite lookup_insert_eq|].
  eapply joined_ext; [|by apply IH]. intros z Hz. rewrite lookup_insert_ne; [done|]. by intros <-.
Qed.

Lemma joined_delete_last m x l : NoDup (x :: l) -> joined m x l -> joined (delete (last_of x l) m) x l.
Proof.
  revert x. induction l as [|y l IH]; intros x Hn; cbn; [done|]. apply NoDup_cons in Hn as [Hx Hn]. intros [H1 H2]. split; [|by apply IH].
  rewrite lookup_delete_ne; [done|]. intros <-. apply Hx. apply last_of_elem.
Qed.

(** The links of the producers' own nodes stay while others change theirs. *)
Lemma chained_ext m m' ts t : t ∈ ts -> (forall z, z ∈ flat_map owned ts -> m !! z = m' !! z) -> chained m t -> chained m' t.
Proof.
  intros Ht H. assert (Ho : forall z, z ∈ owned t -> m !! z = m' !! z) by (intros z Hz; apply H; apply list_elem_of_In, in_flat_map; exists t; by rewrite <- !list_elem_of_In).
  destruct t as [[|x l|x l|old x]|pc]; cbn [chained owned] in *; try done; [by apply joined_ext|].
  intros [H1 H2]. split; [by eapply joined_ext|]. rewrite <- Ho; [done|]. apply last_of_elem.
Qed.

(** A step that changes links of nodes which are not in the queue. *)
Lemma links_ok nodes s m free' pc a t t' b :
  NoDup nodes -> queue_ok nodes s pc (a ++ t :: b) -> (forall p, pending p t = []) -> (forall p, pending p t' = []) ->
  (forall z, cnt (free s) z + cnt (owned t) z = cnt free' z + cnt (owned t') z)%nat ->
  (forall z, z ∉ owned t' -> m !! z = nexts s !! z) -> chained m t' ->
  queue_ok nodes (mkQueue (back s) (front s) m (items s) (taken s) free' (pushed s) (popped s)) pc (a ++ t' :: b).
Proof.
  intros Hnd Hok Ht Ht' Hc Hm Hch. set (s' := mkQueue _ _ _ _ _ _ _ _).
  assert (Hin : forall z, z ∈ owned t' -> z ∉ items s /\ z ∉ taken s /\ z ∉ flat_map owned a /\ z ∉ flat_map owned b).
  { intros z Hz. rewrite !cnt_elem in *. pose proof (q_once _ _ _ _ z Hnd Hok) as H1. rewrite cnt_owned in H1. specialize (Hc z). lia. }
  assert (Hcell : forall p, match p with Some x => x ∉ owned t' | None => True end -> cells s (a ++ t :: b) p = cells s' (a ++ t' :: b) p).
  { intros [x|] Hp; rewrite !cells_split, Ht, Ht'; cbn [s' nexts front]; [by rewrite Hm|done]. }
  split; cbn [s' free taken items pushed popped].
  - intros z. rewrite <- (q_nodes _ _ _ _ Hok z), !cnt_owned. specialize (Hc z). lia.
  - apply (q_order _ _ _ _ Hok).
  - intros p x Hx. assert (E : (cells s (a ++ t :: b) p).2 = (cells s' (a ++ t' :: b) p).2) by (by rewrite !cells_split, Ht, Ht').
    rewrite <- E in Hx. destruct (q_pending _ _ _ _ Hok p x Hx) as [H1 H2]. rewrite <- Hcell; [done|]. destruct p as [y|]; [|done]. intros Hy. by destruct (Hin y Hy).
  - pose proof (q_chained _ _ _ _ Hok) as H. apply Forall_app in H as [Ha Hb]. apply Forall_cons in Hb as [_ Hb].
    rewrite Forall_forall in Ha, Hb. apply Forall_app. split; [|apply Forall_cons; split; [done|]]; apply Forall_forall; intros u Hu.
    + apply (chained_ext (nexts s) m a u Hu); [|by apply Ha]. intros z Hz. symmetry. apply Hm. intros Hz'. by destruct (Hin z Hz') as (? & ? & ? & ?).
    + apply (chained_ext (nexts s) m b u Hu); [|by apply Hb]. intros z Hz. symmetry. apply Hm. intros Hz'. by destruct (Hin z Hz') as (? & ? & ? & ?).
  - apply (stage_ext s s' (cells s (a ++ t :: b))); try done; [| |apply (q_stage _ _ _ _ Hok)].
    + intros [x|] Hx; apply Hcell; [|done]. intros Hz. by destruct (Hin x Hz).
    + intros x Hx. symmetry. apply Hm. intros Hz. apply Hin in Hz. tauto.
Qed.

Lemma owned_NoDup nodes s pc a t b : NoDup nodes -> queue_ok nodes s pc (a ++ t :: b) -> NoDup (owned t).
Proof. intros Hnd Hok. apply cnt_NoDup. intros z. pose proof (q_once _ _ _ _ z Hnd Hok) as H. rewrite cnt_owned in H. lia. Qed.

Lemma push_start_ok nodes s s' pc a b x l :
  NoDup nodes -> queue_ok nodes s pc (a ++ Producer PIdle :: b) -> take_free s (x :: l) = Some s' ->
  queue_ok nodes (with_nexts s' (chain (nexts s') x l)) pc (a ++ Producer (PushSet x l) :: b).
Proof.
  intros Hnd Hok (f & Hf & [= <-])%bind_Some. pose proof (fun z => take_out_all_cnt _ _ _ z Hf) as Hc.
  apply (links_ok nodes s (chain (nexts s) x l) f pc a (Producer PIdle)); try done.
  - intros z. rewrite Hc. cbn [owned]. change (cnt [] z) with 0%nat. lia.
  - intros z Hz. by apply chain_lookup.
  - apply chain_joined, cnt_NoDup. intros z. pose proof (q_once _ _ _ _ z Hnd Hok). specialize (Hc z). lia.
Qed.

Lemma push_set_ok nodes s pc a b x l :
  NoDup nodes -> queue_ok nodes s pc (a ++ Producer (PushSet x l) :: b) ->
  queue_ok nodes (set_next s (last_of x l) None) pc (a ++ Producer (PushSwap x l) :: b).
Proof.
  intros Hnd Hok. apply (links_ok nodes s _ (free s) pc a (Producer (PushSet x l))); try done.
  - intros z Hz. rewrite lookup_delete_ne; [done|]. intros <-. apply Hz. apply last_of_elem.
  - pose proof (q_chained _ _ _ _ Hok) as H. apply Forall_app in H as [_ H]. apply Forall_cons in H as [H _]. cbn in *.
    split; [|apply lookup_delete_eq]. apply joined_delete_last; [|done]. by eapply (owned_NoDup nodes s pc a (Producer (PushSet x l))).
Qed.

Lemma push_link_ok nodes s pc a b old x :
  NoDup nodes -> queue_ok nodes s pc (a ++ Producer (PushLink old x) :: b) ->
  queue_ok nodes (match old with Some y => set_next s y (Some x) | None => with_front s (Some x) end) pc (a ++ Producer PIdle :: b).
Proof.
  intros Hnd Hok. set (s' := match old with Some y => set_next s y (Some x) | None => with_front s (Some x) end). set (ts := a ++ _ :: b) in *. set (ts' := a ++ _ :: b).
  assert (Hown : flat_map owned ts' = flat_map owned ts) by (unfold ts, ts'; by rewrite !flat_map_app).
  assert (Hsame : items s' = items s /\ taken s' = taken s /\ back s' = back s /\ free s' = free s /\ popped s' = popped s /\ pushed s' = pushed s) by (by destruct old).
  destruct Hsame as (Ei & Et & Eb & Ef & Eo & Eu).
  assert (Ho : cells s ts old = (None, [x]) /\ match old with None => True | Some y => y ∈ items s end).
  { apply (q_pending _ _ _ _ Hok). unfold ts. rewrite cells_split. cbn [snd pending]. destruct (decide (old = old)); [|done]. set_solver. }
  destruct Ho as [Ho Hin].
  assert (Hn : cells s' ts' old = (Some x, [])).
  { unfold ts, ts' in *. rewrite cells_split in *. cbn [pending] in *. destruct (decide (old = old)); [|done]. injection Ho as _ E.
    destruct (flat_map (pending old) a) as [|z k]; [|by destruct k]. cbn in E. injection E as E. rewrite E.
    destruct old as [y|]; cbn [s' set_next with_nexts with_front nexts front]; [by rewrite lookup_insert_eq|done]. }
  assert (Hq : forall q, q <> old -> cells s' ts' q = cells s ts q).
  { intros q Hq. unfold ts, ts'. rewrite !cells_split. cbn [pending]. destruct (decide (old = q)) as [->|_]; [done|].
    destruct q as [z|], old as [y|]; cbn [s' set_next with_nexts with_front nexts front]; try done. rewrite lookup_insert_ne; [done|]. congruence. }
  assert (Hm : forall z y, nexts s !! z = Some y -> nexts s' !! z = Some y).
  { intros z y Hz. destruct old as [w|]; [|done]. cbn [s' set_next with_nexts nexts]. rewrite lookup_insert_ne; [done|]. intros ->. unfold cells in Ho. rewrite Hz in Ho. done. }
  split.
  - intros z. by rewrite Ef, Et, Ei, Hown, (q_nodes _ _ _ _ Hok).
  - rewrite Eo, Et, Ei, Eu. apply (q_order _ _ _ _ Hok).
  - intros p y. destruct (decide (p = old)) as [->|Hp]; [rewrite Hn; cbn; by intros ?%not_elem_of_nil|]. rewrite Hq, Ei by done. apply (q_pending _ _ _ _ Hok).
  - pose proof (q_chained _ _ _ _ Hok) as H. apply Forall_app in H as [Ha Hb]. apply Forall_cons in Hb as [_ Hb].
    assert (Hto : forall z, z ∈ flat_map owned ts -> nexts s !! z = nexts s' !! z).
    { intros z Hz. destruct old as [w|]; [|done]. cbn [s' set_next with_nexts nexts]. rewrite lookup_insert_ne; [done|]. intros ->.
      rewrite !cnt_elem in *. pose proof (q_once _ _ _ _ z Hnd Hok). lia. }
    unfold ts in Hto. rewrite flat_map_app in Hto. cbn in Hto. rewrite Forall_forall in Ha, Hb.
    apply Forall_app. split; [|apply Forall_cons; split; [done|]]; apply Forall_forall; intros u Hu.
    + apply (chained_ext (nexts s) _ a u Hu); [|by apply Ha]. intros z Hz. apply Hto. set_solver.
    + apply (chained_ext (nexts s) _ b u Hu); [|by apply Hb]. intros z Hz. apply Hto. set_solver.
  - by apply (stage_fill s s' (cells s ts) (cells s' ts') Ei Et Eb old x Ho Hn Hq Hm), (q_stage _ _ _ _ Hok).
Qed.

Lemma push_swap_ok nodes s pc a b x l :
  NoDup nodes -> queue_ok nodes s pc (a ++ Producer (PushSwap x l) :: b) ->
  queue_ok nodes (with_back (enqueue s (x :: l)) (Some (last_of x l))) pc (a ++ Producer (PushLink (back s) x) :: b).
Proof.
  intros Hnd Hok. set (s' := with_back _ _). set (ts := a ++ _ :: b) in *. set (ts' := a ++ _ :: b).
  pose proof (stage_back _ _ _ (q_stage _ _ _ _ Hok)) as Hb.
  assert (Hout : forall z, z ∈ x :: l -> z ∉ items s).
  { intros z Hz Hi. rewrite !cnt_elem in *. pose proof (q_once _ _ _ _ z Hnd Hok) as H. unfold ts in H. rewrite cnt_owned in H. cbn [owned] in H. lia. }
  assert (Hne : forall z, z ∈ x :: l -> back s <> Some z).
  { intros z Hz E. apply (Hout z Hz). by eapply stage_back_in; [apply (q_stage _ _ _ _ Hok)|]. }
  assert (Ho : cells s' ts' (back s) = (None, [x])).
  { unfold ts, ts' in *. rewrite cells_split in *. cbn [pending] in *. destruct (decide (back s = back s)); [|done]. cbn [app] in Hb. injection Hb as E1 E2.
    destruct (flat_map (pending (back s)) a); [|done]. cbn [app] in *. rewrite E2. change (front s') with (front s). change (nexts s') with (nexts s). by rewrite E1. }
  assert (Hq : forall q, q <> back s -> cells s' ts' q = cells s ts q).
  { intros q Hq. unfold ts, ts'. rewrite !cells_split. cbn [pending]. destruct (decide (back s = q)) as [E|_]; [by destruct Hq|done]. }
  pose proof (q_chained _ _ _ _ Hok) as H. apply Forall_app in H as [Ha Hb']. apply Forall_cons in Hb' as [Hc Hb']. cbn [chained] in Hc. destruct Hc as [Hj Hl].
  assert (Hp : path (cells s' ts') (Some x) l).
  { assert (Hcell : forall z, z ∈ x :: l -> cells s' ts' (Some z) = (nexts s !! z, [])).
    { intros z Hz. rewrite Hq by (intros E; by apply (Hne z)). pose proof (q_outside _ _ _ _ z Hok (Hout z Hz)) as E. unfold cells in *. cbn [snd] in E. by rewrite E. }
    split; [|rewrite end_of_last, Hcell by apply last_of_elem; by rewrite Hl].
    apply (joined_seg _ (nexts s)); [|done]. intros z y Hz Hin. by rewrite Hcell, Hz. }
  split.
  - intros z. rewrite <- (q_nodes _ _ _ _ Hok z). unfold ts, ts'. rewrite !cnt_owned. cbn [owned s' with_back enqueue free taken items]. rewrite cnt_app. change (cnt [] z) with 0%nat. lia.
  - cbn [s' with_back enqueue popped taken items pushed]. rewrite <- (q_order _ _ _ _ Hok). by rewrite <- !app_assoc.
  - intros p y. cbn [s' with_back enqueue items]. destruct (decide (p = back s)) as [->|Hp'].
    + change (items (with_back (enqueue s (x :: l)) (Some (last_of x l)))) with (items s ++ x :: l). rewrite Ho. cbn [snd]. intros ->%list_elem_of_singleton. split; [done|].
      destruct (back s) as [z|] eqn:E; [|done]. apply elem_of_app. left. by eapply stage_back_in; [apply (q_stage _ _ _ _ Hok)|].
    + rewrite Hq by done. intros Hy. destruct (q_pending _ _ _ _ Hok p y Hy) as [? Hp2]. split; [done|]. destruct p; [|done]. apply elem_of_app. by left.
  - apply Forall_app. split; [done|]. by apply Forall_cons.
  - apply (stage_push s s' (cells s ts) (cells s' ts') x l); try done; [by eapply q_items_NoDup|apply (q_stage _ _ _ _ Hok)].
Qed.

Lemma producer_ok nodes s pc a p b c s' p' :
  NoDup nodes -> queue_ok nodes s pc (a ++ Producer p :: b) -> push_batch c s p = Some (s', p') -> queue_ok nodes s' pc (a ++ Producer p' :: b).
Proof.
  intros Hnd Hok. destruct p as [|x l|x l|[y|] x], c; cbn [push_batch]; try discriminate.
  - intros (s1 & Hs & [= <- <-])%bind_Some. by apply (push_start_ok nodes s s1).
  - intros [= <- <-]. by apply push_set_ok.
  - intros [= <- <-]. by apply push_swap_ok.
  - intros [= <- <-]. by apply (push_link_ok nodes s pc a b (Some y)).
  - intros [= <- <-]. by apply (push_link_ok nodes s pc a b None).
Qed.

(** ** The invariant and the consumer *)

(** The consumer moves [front] and [back]. *)
Lemma move_ok nodes s s' pc pc' ts :
  queue_ok nodes s pc ts -> nexts s' = nexts s -> items s' = items s -> taken s' = taken s -> free s' = free s -> pushed s' = pushed s ->
  popped s' = popped s -> front s' = front s \/ (cells s ts None).2 = [] -> stage s' (cells s' ts) pc' -> queue_ok nodes s' pc' ts.
Proof.
  intros Hok En Ei Et Ef Eu Eo Hf Hs. split; rewrite ?Ei, ?Et, ?Ef, ?Eu, ?Eo; try apply Hok; [|by rewrite En; apply Hok|done].
  intros [z|] x; unfold cells at 1 2; cbn [snd].
  - rewrite En. apply (q_pending _ _ _ _ Hok (Some z)).
  - intros Hx. destruct Hf as [E|E]; [|cbn in E; rewrite E in Hx; by apply not_elem_of_nil in Hx]. rewrite E. by apply (q_pending _ _ _ _ Hok None).
Qed.

(** The consumer returns the first node. *)
Lemma dequeue_ok nodes s s' pc pc' ts x l :
  queue_ok nodes s pc ts -> items s = x :: l -> taken s = [] -> nexts s' = nexts s -> items s' = items s -> taken s' = [] -> free s' = free s ->
  pushed s' = pushed s -> popped s' = popped s -> (cells s ts None).2 = [] -> (cells s ts (Some x)).2 = [] ->
  stage (dequeue s' x) (cells s' ts) pc' -> queue_ok nodes (dequeue s' x) pc' ts.
Proof.
  intros Hok El E0 En Ei Et Ef Eu Eo Hn Hx Hs. split; cbn [dequeue free taken items pushed popped nexts]; rewrite ?Ei, ?Et, ?Ef, ?Eu, ?Eo, ?El; cbn [tl].
  - intros z. rewrite <- (q_nodes _ _ _ _ Hok z), E0, El, (cnt_cons x (free s)), (cnt_cons x l). change (cnt [] z) with 0%nat. lia.
  - rewrite <- (q_order _ _ _ _ Hok), E0, El. by rewrite <- app_assoc.
  - intros [z|] y; unfold cells at 1 2; cbn [snd dequeue nexts].
    + intros Hy. rewrite En. destruct (q_pending _ _ _ _ Hok (Some z) y Hy) as [Hp Hz]. split; [done|]. rewrite El in Hz.
      apply elem_of_cons in Hz as [->|Hz]; [|done]. rewrite Hp in Hx. done.
    + cbn in Hn. rewrite Hn. by intros ?%not_elem_of_nil.
  - rewrite En. apply Hok.
  - done.
Qed.

Lemma front_cell s ts nodes pc x : queue_ok nodes s pc ts -> front s = Some x -> cells s ts None = (Some x, []).
Proof.
  intros Hok E. unfold cells. rewrite E. destruct (flat_map (pending None) ts) as [|y l] eqn:El; [done|].
  destruct (q_pending _ _ _ _ Hok None y) as [H _]; unfold cells in *; cbn in *; rewrite El in *; [apply list_elem_of_here|congruence].
Qed.

Lemma path_next c p x l : path c p l -> c p = (Some x, []) -> exists k, l = x :: k /\ path c (Some x) k.
Proof. intros [H1 H2] E. destruct l as [|y k]; cbn in *; [by rewrite E in H2|]. destruct H1 as [[H|H] H1]; rewrite E in H; [|done]. injection H as ->. by exists k. Qed.

(** A link that can be read leads on. *)
Lemma next_cell nodes s pc ts x y : queue_ok nodes s pc ts -> nexts s !! x = Some y -> cells s ts (Some x) = (Some y, []).
Proof.
  intros Hok E. unfold cells. rewrite E. destruct (flat_map (pending (Some x)) ts) as [|z l] eqn:El; [done|].
  destruct (q_pending _ _ _ _ Hok (Some x) z) as [H _]; unfold cells in *; cbn in *; rewrite El in *; [apply list_elem_of_here|congruence].
Qed.

(** Only [front] has moved. *)
Lemma path_moved s s' ts x l : nexts s' = nexts s -> path (cells s ts) (Some x) l -> path (cells s' ts) (Some x) l.
Proof. intros En. apply path_ext. intros q Hq. unfold cells. rewrite En. by destruct Hq as [->|(y & -> & _)]. Qed.

Lemma retry_ok nodes s pc ts :
  queue_ok nodes s pc ts -> taken s = [] -> at_rest s (cells s ts) -> queue_ok nodes s (pop_retry s).2 ts.
Proof.
  intros Hok Ht Hr. apply (move_ok nodes s s pc); try done; [by left|]. cbn. destruct (front s) as [x|] eqn:E; cbn; [|done].
  pose proof (front_cell _ _ _ _ _ Hok E) as Hc. destruct (path_next _ _ _ _ (proj1 Hr) Hc) as (k & Hk & _). unfold at_front. eauto 6.
Qed.

(** [front] moves on to the second node. *)
Lemma pop_first_ok nodes s pc ts x n l :
  queue_ok nodes s pc ts -> taken s = [] -> items s = x :: n :: l -> path (cells s ts) (Some x) (n :: l) -> back s = end_of None (items s) ->
  (cells s ts None).2 = [] -> cells s ts (Some x) = (Some n, []) -> queue_ok nodes (dequeue (with_front s (Some n)) x) CIdle ts.
Proof.
  intros Hok Ht El Hp Hb Hn Hx. apply (dequeue_ok nodes s (with_front s (Some n)) pc _ _ x (n :: l)); try done; [by rewrite Hx|].
  split; [done|]. split; cbn [dequeue with_front items back]; rewrite El; cbn [tl]; [|by rewrite Hb, El].
  destruct (path_next _ _ _ _ Hp Hx) as (k & [= <-] & Hk). apply (path_moved s (dequeue (with_front s (Some n)) x)) in Hk as [H1 H2]; [|done].
  split; [|exact H2]. split; [|exact H1]. left. unfold cells in *. cbn in *. by rewrite Hn.
Qed.

Lemma pop_back_ok nodes s ts x :
  NoDup nodes -> queue_ok nodes s (PopBack x) ts ->
  if decide (back s = Some x) then queue_ok nodes (dequeue (with_back s None) x) CIdle ts else queue_ok nodes s (PopSpin x) ts.
Proof.
  intros Hnd Hok. destruct (q_stage _ _ _ _ Hok) as (Ht & l & El & H1 & H2 & H3). pose proof (q_items_NoDup _ _ _ _ Hnd Hok) as Hi. rewrite El in H3, Hi. cbn [end_of] in H3.
  rewrite end_of_last in H3. destruct (decide (back s = Some x)) as [E|E].
  - assert (l = []) as ->.
    { rewrite H3 in E. injection E as E. destruct l as [|y l]; [done|]. apply NoDup_cons in Hi as [Hi _]. destruct Hi. cbn in E. rewrite <- E. apply last_of_elem. }
    apply (dequeue_ok nodes s (with_back s None) (PopBack x) _ _ x []); try done; [by rewrite H1| |].
    + destruct H2 as [_ H2]. cbn in H2. by rewrite H2.
    + split; [done|]. split; cbn [dequeue with_back items back]; rewrite El; [|done]. split; [done|]. exact H1.
  - apply (move_ok nodes s s (PopBack x)); try done; [by left|]. split; [done|]. exists l. split; [|intros ->; by rewrite H3 in E].
    split_and!; try done. by rewrite El, H3, <- end_of_last.
Qed.

Lemma pop_ok nodes s pc ts c s' pc' :
  NoDup nodes -> queue_ok nodes s pc ts -> pop c s pc = Some (s', pc') -> queue_ok nodes s' pc' ts.
Proof.
  intros Hnd Hok. pose proof (q_stage _ _ _ _ Hok) as Hs. destruct c, pc; cbn [pop stage] in *; try discriminate.
  - intros [= <- <-]. by apply (move_ok nodes s s CIdle); try done; left.
  - intros [= <- <-]. destruct Hs. by apply (retry_ok nodes s PopLoad).
  - intros [= <- <-]. destruct Hs as [H1 H2]. apply (move_ok nodes s s (PopNext first)); try done; [by left|]. split_and!; [done|done|].
    destruct (nexts s !! first) as [y|] eqn:E; [|by left]. right. by apply (next_cell nodes s (PopNext first)).
  - destruct Hs as (H1 & [[H2 H3] (H4 & l & H5)] & H6). destruct (decide (front s = Some first)); [|intros [= <- <-]; by eapply retry_ok].
    rewrite H5 in H2. destruct (path_next _ _ _ _ H2 H4) as (k & [= <-] & H7). destruct next_ptr as [y|]; intros [= <- <-].
    + destruct H6 as [H6|H6]; [done|]. destruct (path_next _ _ _ _ H7 H6) as (k & -> & _). apply (pop_first_ok nodes s (PopCas first (Some y)) ts first y k); try done. by rewrite H4.
    + apply (move_ok nodes s _ (PopCas first None)); try done; [right; by rewrite H4|]. split; [done|]. exists l. split_and!; [done| | |done].
      * unfold cells in *. cbn. by injection H4 as _ ->.
      * by apply (path_moved s).
  - intros H. pose proof (pop_back_ok nodes s ts first Hnd Hok) as H'. destruct (decide (back s = Some first)); by injection H as <- <-.
  - intros (n & Hn & [= <- <-])%bind_Some. destruct Hs as (H1 & l & (H2 & H3 & H4 & H5) & H6). pose proof (next_cell _ _ _ _ _ _ Hok Hn) as Hc.
    destruct (path_next _ _ _ _ H4 Hc) as (k & -> & _). apply (move_ok nodes s s (PopSpin first)); try done; [by left|]. split; [done|]. by exists k.
  - intros [= <- <-]. destruct Hs as (H1 & l & (H2 & H3 & H4 & H5) & H6). apply (pop_first_ok nodes s (PopStore first new_first) ts first new_first l); try done. by rewrite H3.
  - intros [= <- <-]. destruct Hs as (H1 & (H2 & _) & _). by eapply retry_ok.
Qed.

(** The end of a batch is reached at its last node only. *)
Lemma walk_end x a b : NoDup (x :: a ++ b) -> last_of x a = last_of x (a ++ b) -> b = [].
Proof.
  revert x. induction a as [|y a IH]; intros x Hn; cbn.
  - destruct b as [|y b]; [done|]. cbn. intros E. apply NoDup_cons in Hn as [Hn _]. destruct Hn. cbn. rewrite E. apply last_of_elem.
  - apply NoDup_cons in Hn as [_ Hn]. by apply IH.
Qed.

Lemma last_of_app x a b : last_of x (a ++ b) = last_of (last_of x a) b.
Proof. revert x. induction a as [|y a IH]; intros x; cbn; [done|apply IH]. Qed.

Lemma batch_done_ok nodes s x l k ts :
  NoDup nodes -> queue_ok nodes s (BatchWalk x l l k) ts -> queue_ok nodes (dequeue_batch s k) (Iterating (mkBatch (Some x) (Some l) k)) ts.
Proof.
  intros Hnd Hok. destruct (q_stage _ _ _ _ Hok) as (Ht & a & b & m & H1 & H2 & H3 & H4 & H5 & H6 & H7 & H8).
  pose proof (q_items_NoDup _ _ _ _ Hnd Hok) as Hi. rewrite H1, app_comm_cons in Hi. apply NoDup_app in Hi as [Hi _].
  assert (b = []) as -> by (apply (walk_end x a b Hi); congruence). rewrite app_nil_r in *.
  assert (Ed : drop k (items s) = m /\ take k (items s) = x :: a).
  { rewrite H1, H4, app_comm_cons. split; [by apply (drop_app_length (x :: a))|by apply (take_app_length (x :: a))]. }
  destruct Ed as [Ed Ek]. split; cbn [dequeue_batch free taken items pushed popped nexts]; rewrite ?Ed, ?Ek.
  - intros z. rewrite <- (q_nodes _ _ _ _ Hok z), Ht, H1, app_comm_cons, cnt_app. change (cnt [] z) with 0%nat. lia.
  - rewrite <- (q_order _ _ _ _ Hok), Ht, H1. done.
  - intros p y Hy. destruct (q_pending _ _ _ _ Hok p y Hy) as [Hp Hz]. split; [done|]. destruct p as [z|]; [|done].
    rewrite H1, app_comm_cons in Hz. apply elem_of_app in Hz as [Hz|Hz]; [|done]. exfalso.
    change (cells (dequeue_batch s k) ts) with (cells s ts) in Hy. rewrite Hp in Hy.
    assert (Hcases : (exists w, nexts s !! z = Some w) \/ z = last_of x a).
    { clear - H2 Hz. revert x H2 Hz. induction a as [|w a IH]; intros x H2 Hz; cbn in *; [right; by apply list_elem_of_singleton in Hz|].
      destruct H2 as [H2 H3]. apply elem_of_cons in Hz as [->|Hz]; [left; by exists w|by apply IH]. }
    destruct Hcases as [[w Hw]| ->].
    + rewrite (next_cell _ _ _ _ _ _ Hok Hw) in Hp. done.
    + destruct H5 as [_ H5]. rewrite end_of_last in H5. rewrite H5 in Hp. done.
  - apply Hok.
  - split; [|split].
    + split; cbn [dequeue_batch items back]; by rewrite Ed.
    + cbn [batch_count dequeue_batch taken]. by rewrite Ek.
    + cbn [dequeue_batch taken nexts]. by rewrite Ek.
Qed.

Lemma pop_batch_ok nodes s pc ts c s' pc' :
  NoDup nodes -> queue_ok nodes s pc ts -> pop_batch c s pc = Some (s', pc') -> queue_ok nodes s' pc' ts.
Proof.
  intros Hnd Hok. pose proof (q_stage _ _ _ _ Hok) as Hs. destruct c, pc; cbn [pop_batch stage] in *; try discriminate.
  - intros [= <- <-]. by apply (move_ok nodes s s CIdle); try done; left.
  - intros [= <- <-]. destruct Hs as (Ht & H1 & H2). destruct (front s) as [x|] eqn:E.
    + pose proof (front_cell _ _ _ _ _ Hok E) as Hc. destruct (path_next _ _ _ _ H1 Hc) as (l & El & Hp).
      apply (move_ok nodes s _ BatchFront); try done; [right; by rewrite Hc|]. split; [done|]. exists l. split_and!; [done| | |done].
      * unfold cells in *. cbn. by injection Hc as _ ->.
      * by apply (path_moved s).
    + replace (with_front s None) with s by (rewrite <- E; by destruct s). apply (move_ok nodes s s BatchFront); try done; by left.
  - intros (l & Hl & [= <- <-])%bind_Some. destruct Hs as (Ht & m & H1 & H2 & H3 & H4). rewrite H1 in H4. cbn [end_of] in H4. rewrite end_of_last, Hl in H4. injection H4 as ->.
    apply (move_ok nodes s _ (BatchBack first)); try done; [by left|]. split; [done|]. exists [], m, []. cbn [app]. rewrite app_nil_r. split_and!; done.
  - destruct (decide (next_item = last_item)) as [->|Hne]; [intros [= <- <-]; by apply batch_done_ok|].
    intros (y & Hy & [= <- <-])%bind_Some. destruct Hs as (Ht & a & b & m & H1 & H2 & H3 & H4 & H5 & H6 & H7 & H8).
    pose proof (next_cell _ _ _ _ _ _ Hok Hy) as Hc. destruct H5 as [H5 H5']. apply seg_app in H5 as [H5 H5b]. rewrite end_of_last, H3 in H5b.
    destruct b as [|z b]; [rewrite app_nil_r in H6; congruence|]. destruct H5b as [[Hz|Hz] H5b]; rewrite Hc in Hz; [|done]. injection Hz as ->.
    apply (move_ok nodes s s (BatchWalk first last_item next_item count)); try done; [by left|]. split; [done|]. exists (a ++ [z]), b, m.
    rewrite <- (app_assoc a). cbn [app]. split_and!; try done.
    + apply joined_app. split; [done|]. rewrite H3. split; [done|done].
    + by rewrite last_of_app.
    + rewrite length_app. cbn. lia.
    + split; [|done]. apply seg_app. split; [done|]. rewrite end_of_last, H3. split; [by left|done].
Qed.

Lemma queue_iterate_ok nodes s pc ts c s' pc' :
  queue_ok nodes s pc ts -> iterate c s pc = Some (s', pc') -> queue_ok nodes s' pc' ts.
Proof.
  intros Hok. destruct c, pc as [| | | | | | | | | |[f l k]]; cbn [iterate]; try discriminate. destruct (q_stage _ _ _ _ Hok) as ([H1 H2] & Hk & H3).
  cbn [batch_count batch_front] in Hk, H3. unfold iterator_next. cbn [batch_count batch_front batch_last]. destruct (taken s) as [|x t] eqn:Et; cbn [length] in Hk; subst k.
  - intros [= <- <-]. apply (move_ok nodes s s (Iterating (mkBatch f l 0))); try done; by left.
  - destruct H3 as [-> H3]. intros [= <- <-]. split; cbn [yield free taken items pushed popped nexts]; rewrite ?Et; cbn [tl].
    + intros z. rewrite <- (q_nodes _ _ _ _ Hok z), Et, (cnt_cons x (free s)), (cnt_cons x t). lia.
    + rewrite <- (q_order _ _ _ _ Hok), Et. by rewrite <- app_assoc.
    + apply (q_pending _ _ _ _ Hok).
    + apply Hok.
    + split; [|split]; cbn [yield taken nexts batch_count batch_front]; rewrite ?Et; cbn [tl]; [done|done|]. destruct t as [|y t]; [done|]. by destruct H3.
Qed.

Lemma consumer_ok nodes s pc ts c s' pc' :
  NoDup nodes -> queue_ok nodes s pc ts -> consume c s pc = Some (s', pc') -> queue_ok nodes s' pc' ts.
Proof.
  intros Hnd Hok H. assert (pop_batch c s pc = Some (s', pc') \/ iterate c s pc = Some (s', pc') \/ pop c s pc = Some (s', pc')) as [H'|[H'|H']].
  { destruct c, pc; cbn [consume in_batch] in H; tauto. }
  - by eapply pop_batch_ok.
  - by eapply queue_iterate_ok.
  - by eapply pop_ok.
Qed.

(** ** All threads *)

(** One consumer, the first thread. *)
Definition all_ok (nodes : list nat) (cfg : config queue thread) : Prop :=
  exists pc ts, threads cfg = Consumer pc :: ts /\ queue_ok nodes (shared cfg) pc ts.

Lemma queue_init_ok nodes n : all_ok nodes (queue_init nodes n).
Proof.
  exists CIdle, (replicate n (Producer PIdle)). split; [done|].
  assert (Ho : forall f : thread -> list nat, f (Producer PIdle) = [] -> flat_map f (replicate n (Producer PIdle)) = []) by (intros f Hf; induction n as [|n IH]; cbn; [done|by rewrite Hf, IH]).
  assert (Hc : forall p, cells (shared (queue_init nodes n)) (replicate n (Producer PIdle)) p = empty) by (intros p; unfold cells; rewrite Ho by done; by destruct p).
  split; cbn [queue_init shared free taken items pushed popped nexts].
  - intros z. rewrite Ho by done. change (cnt [] z) with 0%nat. lia.
  - done.
  - intros p x. cbn [queue_init shared] in Hc. rewrite Hc. by intros ?%not_elem_of_nil.
  - apply Forall_forall. by intros t [-> _]%elem_of_replicate.
  - split; [done|]. split; [|done]. split; [done|apply Hc].
Qed.

Lemma queue_awake (t : thread) : woken t = None.
Proof. done. Qed.

Lemma all_ok_fire nodes cfg e cfg' : NoDup nodes -> all_ok nodes cfg -> fire cfg e = Some cfg' -> all_ok nodes cfg'.
Proof.
  intros Hnd (pc & ts & Ets & Hok) (t & t' & n & Hl & Hst & Hts & _)%(fire_awake _ _ _ queue_awake). rewrite Ets in *.
  destruct (who e) as [|i]; cbn in Hl, Hts.
  - injection Hl as <-. cbn in Hst. apply bind_Some in Hst as ([s1 pc'] & Hc & [= -> <- <-]). exists pc', ts. split; [done|]. by eapply consumer_ok.
  - pose proof (q_chained _ _ _ _ Hok) as Hp. pose proof (Forall_lookup_1 _ _ _ _ Hp Hl) as Ht. destruct t as [p|]; [|done].
    cbn in Hst. apply bind_Some in Hst as ([s1 p'] & Hc & [= -> <- <-]). exists pc, (<[i := Producer p']> ts). split; [done|].
    rewrite <- (take_drop_middle ts i (Producer p) Hl) in Hok. rewrite insert_take_drop by (by eapply lookup_lt_Some). by eapply producer_ok.
Qed.

(** ** Pops come to an end *)

Definition consumer_left (pc : pop_pc) : Z :=
  match pc with
  | PopLoad | BatchFront => 10 | PopNext _ | BatchBack _ => 9 | PopCas _ _ => 8 | PopBack _ => 7 | PopSpin _ => 6 | PopStore _ _ => 5
  | BatchWalk _ _ _ k => 8 - Z.of_nat k
  | CIdle | Iterating _ => 0
  end.
Definition steps_left (t : thread) : Z :=
  match t with
  | Consumer pc => consumer_left pc
  | Producer (PushSet _ l) => 5 + 2 * Z.of_nat (length l)
  | Producer (PushSwap _ l) => 4 + 2 * Z.of_nat (length l)
  | Producer (PushLink _ _) => 1
  | Producer PIdle => 0
  end.
Definition queue_measure (cfg : config queue thread) : Z :=
  tally steps_left (threads cfg) + 2 * Z.of_nat (length (items (shared cfg))) + Z.of_nat (length (taken (shared cfg))).

Definition goes_next (e : event queue_choice) : Prop := Interleaving.choice e = QNext.
Definition consumer_idle (cfg : config queue thread) : Prop := threads cfg !! 0%nat = Some (Consumer CIdle).

Lemma queue_next_enabled cfg i t s t' :
  threads cfg !! i = Some t -> queue_step QNext (shared cfg) t = Some (s, t', 0%nat) -> exists e cfg', goes_next e /\ fire cfg e = Some cfg'.
Proof. intros Hl Hs. eexists (mkEvent i QNext []), _. split; [done|]. by apply (fire_local cfg i t QNext s t'). Qed.

Lemma linker_enabled cfg i p x :
  threads cfg !! i = Some (Producer (PushLink p x)) -> exists e cfg', goes_next e /\ fire cfg e = Some cfg'.
Proof. intros Hl. destruct p; by eapply queue_next_enabled. Qed.

Lemma pending_linker p x ts : x ∈ flat_map (pending p) ts -> exists i, ts !! i = Some (Producer (PushLink p x)).
Proof.
  rewrite list_elem_of_In, in_flat_map. intros (t & Ht & Hx). apply list_elem_of_In, list_elem_of_lookup in Ht as [i Hi].
  apply list_elem_of_In in Hx. exists i. destruct t as [[| | |q y]|]; cbn in Hx; try by apply not_elem_of_nil in Hx.
  destruct (decide (q = p)) as [->|]; [|by apply not_elem_of_nil in Hx]. by apply list_elem_of_singleton in Hx as ->.
Qed.

(** A node whose link is missing has a producer that will write it. *)
Lemma missing_link s ts p l : seg (cells s ts) p l -> l <> [] -> (cells s ts p).1 = None -> exists i x, ts !! i = Some (Producer (PushLink p x)).
Proof.
  destruct l as [|x l]; [done|]. intros [[H|H] _] _; rewrite H; [done|]. intros _.
  destruct (pending_linker p x ts) as [i Hi]; [|by exists i, x]. unfold cells in H. injection H as _ ->. apply list_elem_of_here.
Qed.

(** A consumer that cannot step waits for a producer that can. *)
Lemma consumer_waits nodes s pc ts :
  queue_ok nodes s pc ts -> pc <> CIdle -> consume QNext s pc = None -> exists i p x, ts !! i = Some (Producer (PushLink p x)).
Proof.
  intros Hok Hi. pose proof (q_stage _ _ _ _ Hok) as Hs. destruct pc; cbn [consume in_batch pop pop_batch iterate stage] in *; try done.
  - by destruct (decide (front s = Some first)).
  - intros Hn. destruct Hs as (_ & l & (_ & _ & [H _] & _) & Hl). destruct (missing_link s ts _ l H Hl) as (i & x & Hx); [|eauto].
    cbn. by destruct (nexts s !! first).
  - destruct Hs as (_ & l & H1 & _ & _ & H4). rewrite H1 in H4. cbn [end_of] in H4. rewrite end_of_last in H4. by rewrite H4.
  - destruct (decide (next_item = last_item)) as [|Hne]; [done|]. intros Hn. destruct Hs as (_ & a & b & m & H1 & H2 & H3 & H4 & [H5 _] & H6 & _).
    apply seg_app in H5 as [_ H5]. rewrite end_of_last, H3 in H5. destruct (missing_link s ts _ b H5) as (i & x & Hx); [| |eauto].
    + intros ->. rewrite app_nil_r in H6. congruence.
    + cbn. by destruct (nexts s !! next_item).
Qed.

Lemma queue_progress nodes cfg : all_ok nodes cfg -> consumer_idle cfg \/ exists e cfg', goes_next e /\ fire cfg e = Some cfg'.
Proof.
  intros (pc & ts & Ets & Hok). destruct (decide (pc = CIdle)) as [->|Hpc]; [left; unfold consumer_idle; by rewrite Ets|right].
  destruct (consume QNext (shared cfg) pc) as [[s' pc']|] eqn:E.
  - eapply (queue_next_enabled cfg 0 (Consumer pc)); [by rewrite Ets|]. cbn [queue_step]. by rewrite E.
  - destruct (consumer_waits _ _ _ _ Hok Hpc E) as (i & p & x & Hx). apply (linker_enabled cfg (S i) p x). by rewrite Ets.
Qed.

Lemma producer_decreases s p s' p' :
  push_batch QNext s p = Some (s', p') -> 
  steps_left (Producer p') + 2 * Z.of_nat (length (items s')) + Z.of_nat (length (taken s')) < steps_left (Producer p) + 2 * Z.of_nat (length (items s)) + Z.of_nat (length (taken s)).
Proof.
  destruct p as [|x l|x l|[y|] x]; cbn [push_batch]; try discriminate; intros [= <- <-]; cbn; try lia. rewrite length_app. cbn. lia.
Qed.

Lemma consumer_decreases nodes s pc ts s' pc' :
  queue_ok nodes s pc ts -> consume QNext s pc = Some (s', pc') -> pc' = CIdle \/
  consumer_left pc' + 2 * Z.of_nat (length (items s')) + Z.of_nat (length (taken s')) < consumer_left pc + 2 * Z.of_nat (length (items s)) + Z.of_nat (length (taken s)).
Proof.
  intros Hok. pose proof (q_stage _ _ _ _ Hok) as Hs. destruct pc; cbn [consume in_batch pop pop_batch iterate stage] in *; try discriminate.
  - unfold pop_retry. destruct (front s); intros [= <- <-]; [right; cbn; lia|by left].
  - intros [= <- <-]. right. cbn. lia.
  - destruct Hs as (_ & (_ & H & _) & _). unfold cells in H. injection H as -> _. destruct (decide (Some first = Some first)); [|done].
    destruct next_ptr; intros [= <- <-]; [by left|right; cbn; lia].
  - destruct (decide (back s = Some first)); intros [= <- <-]; [by left|right; cbn; lia].
  - intros (n & _ & [= <- <-])%bind_Some. right. cbn. lia.
  - intros [= <- <-]. by left.
  - destruct (front s); intros [= <- <-]; [right; cbn; lia|by left].
  - intros (l & _ & [= <- <-])%bind_Some. right. cbn. lia.
  - destruct (decide (next_item = last_item)).
    + intros [= <- <-]. right. destruct Hs as (Ht & a & b & m & H1 & _ & _ & H4 & _). cbn [dequeue_batch items taken consumer_left].
      rewrite Ht, length_drop, length_take, H1, H4. cbn [length]. rewrite !length_app. lia.
    + intros (y & _ & [= <- <-])%bind_Some. right. cbn [consumer_left]. lia.
  - destruct b as [f l k]. destruct Hs as (_ & Hk & H3). cbn [batch_count batch_front] in *. unfold iterator_next. cbn [batch_count batch_front].
    destruct (taken s) as [|x t] eqn:Et; cbn [length] in Hk; subst k; [intros [= <- <-]; by left|]. destruct H3 as [-> _]. intros [= <- <-]. right. cbn. rewrite Et. cbn. lia.
Qed.

Lemma queue_decreases nodes cfg e cfg' :
  all_ok nodes cfg -> goes_next e -> fire cfg e = Some cfg' -> consumer_idle cfg' \/ queue_measure cfg' < queue_measure cfg.
Proof.
  intros (pc & ts & Ets & Hok) He (t & t' & n & Hl & Hst & Hts & Ht & _)%(fire_awake _ _ _ queue_awake). unfold goes_next in He. rewrite He in Hst.
  specialize (Ht steps_left). unfold queue_measure, consumer_idle. rewrite Ht. clear Ht.
  destruct t as [p|pc0]; cbn [step queue_system queue_step] in Hst; apply bind_Some in Hst as ([s1 q] & Hc & [= -> <- <-]).
  - right. pose proof (producer_decreases _ _ _ _ Hc). lia.
  - rewrite Ets in Hl. destruct (who e) as [|i] eqn:Ew; cbn in Hl.
    + injection Hl as <-. destruct (consumer_decreases _ _ _ _ _ _ Hok Hc) as [->|Hlt]; [left; by rewrite Hts, Ets|right; cbn [steps_left]; lia].
    + pose proof (Forall_lookup_1 _ _ _ _ (q_chained _ _ _ _ Hok) Hl) as H. done.
Qed.

Lemma queue_measure_nonneg nodes cfg : all_ok nodes cfg -> 0 <= queue_measure cfg.
Proof.
  intros (pc & ts & Ets & Hok). unfold queue_measure. rewrite Ets. cbn [tally steps_left].
  assert (Hp : 0 <= tally steps_left ts).
  { pose proof (q_chained _ _ _ _ Hok) as H. clear - H. induction H as [|t ts Ht _ IH]; cbn [tally]; [done|]. destruct t as [[]|]; cbn [steps_left]; [lia..|done]. }
  pose proof (q_stage _ _ _ _ Hok) as Hs. destruct pc; cbn [consumer_left]; try lia.
  destruct Hs as (_ & a & b & m & H1 & _ & _ & H4 & _). rewrite H1, H4. cbn [length]. rewrite !length_app. lia.
Qed.

(** Nothing to pop: the queue is empty, or its first node is not linked yet. *)
Lemma nothing_to_pop nodes s pc ts c s' :
  queue_ok nodes s pc ts -> pc = PopLoad \/ pc = BatchFront -> consume c s pc = Some (s', CIdle) ->
  items s = [] \/ exists i x, ts !! i = Some (Producer (PushLink None x)).
Proof.
  intros Hok Hpc Hc. assert (Hs : at_rest s (cells s ts)) by (destruct Hpc as [->| ->]; apply (q_stage _ _ _ _ Hok)).
  assert (Hf : front s = None).
  { destruct Hpc as [->| ->], c; cbn in Hc; try discriminate Hc; [unfold pop_retry in Hc|]; by destruct (front s). }
  destruct (items s) as [|y l] eqn:E; [by left|right]. destruct Hs as [[H _] _]. rewrite E in H. apply (missing_link s ts None (y :: l)); [done|done|]. done.
Qed.

(** (C23) Any number of producers push chains of their own nodes and one consumer pops single nodes and batches,
    interleaved in any way, with spurious failures: the nodes come out in the order in which the pushes swapped [back],
    each once; no node is lost or in two places; [pop] and [pop_batch] find nothing only when nothing is queued or a push
    is between its swap and its link to [front]; [is_empty] is exact between two pops; a consumer that spins waits for a
    push under way; and when no more calls are made, whatever order the threads go on in, the pop ends. *)
Theorem queue_correct (nodes : list nat) (n : nat) (cfg : config queue thread) (Hnd : NoDup nodes) (Hr : reachable (queue_init nodes n) cfg) :
  let s := shared cfg in
  popped s ++ taken s ++ items s = pushed s /\
  free s ++ taken s ++ items s ++ flat_map owned (threads cfg) ≡ₚ nodes /\
  (forall pc e cfg', pc = PopLoad \/ pc = BatchFront -> threads cfg !! 0%nat = Some (Consumer pc) -> fire cfg e = Some cfg' -> consumer_idle cfg' ->
     items s = [] \/ exists i x, threads cfg !! i = Some (Producer (PushLink None x))) /\
  (consumer_idle cfg -> is_empty s = true <-> items s = []) /\
  (forall pc, threads cfg !! 0%nat = Some (Consumer pc) -> pc <> CIdle -> consume QNext s pc = None ->
     exists i p x, threads cfg !! i = Some (Producer (PushLink p x))) /\
  inevitable consumer_idle goes_next cfg.
Proof.
  destruct Hr as [es Hr]. pose proof (run_invariant (all_ok nodes) _ es _ (fun c e c' => all_ok_fire nodes c e c' Hnd) (queue_init_ok nodes n) Hr) as Hall.
  pose proof Hall as (pc & ts & Ets & Hok). cbv zeta. split_and!.
  - apply Hok.
  - apply (Permutation_count_occ Nat.eq_dec). intros z. rewrite !count_occ_app. pose proof (q_nodes _ _ _ _ Hok z) as H. unfold cnt in H.
    rewrite Ets. cbn [flat_map owned app]. lia.
  - intros pc' e cfg' Hpc Hl Hf Hi. destruct (fire_awake _ _ _ queue_awake Hf) as (t & t' & m & Ht & Hst & Hts & _). unfold consumer_idle in Hi. rewrite Hts in Hi.
    rewrite Ets in *. injection Hl as ->. destruct (who e) as [|i]; cbn in Ht, Hi; injection Hi as ->; [|by destruct Hpc].
    injection Ht as <-. cbn [step queue_system queue_step] in Hst. apply bind_Some in Hst as ([s1 q] & Hc & [= -> -> <-]).
    destruct (nothing_to_pop _ _ _ _ _ _ Hok Hpc Hc) as [?|(i & x & Hx)]; [by left|right]. by exists (S i), x.
  - unfold consumer_idle. rewrite Ets. intros [= ->]. destruct (q_stage _ _ _ _ Hok) as (_ & _ & Hb). unfold is_empty. rewrite Hb, bool_decide_eq_true.
    destruct (items (shared cfg)) as [|x l]; [done|]. cbn [end_of]. by rewrite end_of_last.
  - intros pc'. rewrite Ets. intros [= ->] Hi Hn. destruct (consumer_waits _ _ _ _ Hok Hi Hn) as (i & p & x & Hx). by exists (S i), p, x.
  - apply (inevitable_measure _ (all_ok nodes) _ queue_measure); [by apply queue_measure_nonneg| |done].
    intros c Hc. destruct (queue_progress nodes c Hc) as [?|?]; [by left|right]. split; [done|]. intros e c' He Hf.
    destruct (queue_decreases nodes c e c' Hc He Hf) as [?|?]; [by left|right]. split; [|done]. by eapply all_ok_fire.
Qed.

(** Two producers: the second links its nodes while the first, whose node is in front, has not stored [front]; the
    consumer finds nothing, and after that store pops the first node. *)
Definition late_front : list (event queue_choice) :=
  let next i := mkEvent i QNext [] in
  [mkEvent 1 (QPush 7 []) []; next 1%nat; next 1%nat; mkEvent 2 (QPush 8 [9%nat]) []; next 2%nat; next 2%nat; next 2%nat;
   mkEvent 0 QPop []; next 0%nat; next 1%nat; mkEvent 0 QPop []; next 0%nat; next 0%nat; next 0%nat].

Lemma queue_correct_witness :
  exists cfg, run (queue_init [7; 8; 9]%nat 2) late_front = Some cfg /\ popped (shared cfg) = [7]%nat /\ items (shared cfg) = [8; 9]%nat /\
    popped (shared cfg) ++ taken (shared cfg) ++ items (shared cfg) = pushed (shared cfg).
Proof.
  eexists. split; [vm_compute; reflexivity|]. split_and!; [reflexivity|reflexivity|].
  apply (queue_correct [7; 8; 9]%nat 2); [by apply (bool_decide_unpack _); vm_compute|]. exists late_front. vm_compute. reflexivity.
Defined.
