(* ===== verification/PoolEvent.v ===== *)
(** * The event of the thread pool ([threading/ThreadPool.rs], [Event])

    One token on a futex: [wait] takes it, [notify] posts it, [shutdown] is to let every [wait] through. Any number of
    threads call them. [MAX] stands for [u32::MAX], the number of sleepers that a broadcast wakes. *)

From stdpp Require Import list.
From S2P Require Import Prelude Interleaving.

Definition EMPTY : Z := 0.
Definition WAITING : Z := 1.
Definition NOTIFIED : Z := 2.
Definition SHUTDOWN : Z := 3.

(** [ev_posted] and [ev_taken] are history: the tokens posted and taken so far. *)
Record ev_shared := mkEv { ev_state : Z; ev_posted : Z; ev_taken : Z }.

(** Where a thread is. [WaitLoop aw st]: at the head of the loop of [wait], with [acquire_with] and its copy of the
    state; [timed]: the memory has not been shrunk, so that the futex has a timeout. *)
Inductive ev_pc :=
| EvIdle
| WaitLoad
| WaitLoop (timed : bool) (acquire_with st : Z)
| WaitFutex (timed : bool)
| WaitAsleep (timed : bool)
| WaitReload (timed : bool)
| WakeSwap (release_with : Z) (all : bool)
| WakeFutex (all : bool).

(** [ENotify]: [notify]; [EBroadcast]: [wake_for_idle_events]; [EShutdown]: [shutdown]. *)
Inductive ev_choice := EWait | ENotify | EBroadcast | EShutdown | ENext | ESpurious | ETimeout.

Definition with_state (s : ev_shared) (st : Z) : ev_shared := mkEv st (ev_posted s) (ev_taken s).

(** One round of the loop; [weak]: the exchange fails for no reason. *)
Definition wait_round (weak timed : bool) (aw st : Z) (s : ev_shared) : ev_shared * ev_pc :=
  let exchanged := (ev_state s =? st) && negb weak in
  if st =? SHUTDOWN then (s, EvIdle)
  else if st =? NOTIFIED then
    if exchanged then (mkEv aw (ev_posted s) (ev_taken s + 1), EvIdle) else (s, WaitLoop timed aw (ev_state s))
  else if st =? WAITING then (s, WaitFutex timed)
  else if exchanged then (with_state s WAITING, WaitFutex timed) else (s, WaitLoop timed aw (ev_state s)).

Section event.
Context (MAX : nat) (shut : bool).

Definition ev_step (c : ev_choice) (s : ev_shared) (pc : ev_pc) : option (ev_shared * ev_pc * nat) :=
  match c, pc with
  | EWait, EvIdle => Some (s, WaitLoad, 0%nat)
  | ENotify, EvIdle => Some (s, WakeSwap NOTIFIED false, 0%nat)
  | EBroadcast, EvIdle => Some (s, WakeSwap NOTIFIED true, 0%nat)
  | EShutdown, EvIdle => if shut then Some (s, WakeSwap SHUTDOWN true, 0%nat) else None
  | ENext, WaitLoad => Some (s, WaitLoop true EMPTY (ev_state s), 0%nat)
  | ENext, WaitLoop timed aw st => Some (wait_round false timed aw st s, 0%nat)
  | ESpurious, WaitLoop timed aw st =>
      if (st =? NOTIFIED) || (st =? EMPTY) then Some (wait_round true timed aw st s, 0%nat) else None
  | ENext, WaitFutex timed => Some (s, if ev_state s =? WAITING then WaitAsleep timed else WaitReload timed, 0%nat)
  | ESpurious, WaitAsleep timed => Some (s, WaitReload timed, 0%nat)
  | ETimeout, WaitAsleep true => Some (s, WaitReload false, 0%nat)
  | ENext, WaitReload timed => Some (s, WaitLoop timed WAITING (ev_state s), 0%nat)
  | ENext, WakeSwap r all =>
      Some (mkEv r (if r =? NOTIFIED then ev_posted s + 1 else ev_posted s) (ev_taken s),
            if (ev_state s =? WAITING) || all then WakeFutex all else EvIdle, 0%nat)
  | ENext, WakeFutex all => Some (s, EvIdle, if all then MAX else 1%nat)
  | _, _ => None
  end.

Definition ev_woken (pc : ev_pc) : option ev_pc := match pc with WaitAsleep timed => Some (WaitReload timed) | _ => None end.

#[export] Instance ev_system : System ev_shared ev_pc ev_choice := {| step := ev_step; woken := ev_woken |}.
End event.

Definition ev_init (n : nat) : config ev_shared ev_pc := mkConfig (mkEv EMPTY 0 0) (replicate n EvIdle).

Definition is_asleep (pc : ev_pc) : bool := match pc with WaitAsleep _ => true | _ => false end.
Definition is_waiting (pc : ev_pc) : bool :=
  match pc with WaitLoad | WaitLoop _ _ _ | WaitFutex _ | WaitAsleep _ | WaitReload _ => true | _ => false end.
(** Will look at the state again or leave it [WAITING], or wake a thread that will. *)
Definition will_recheck (pc : ev_pc) : bool :=
  match pc with WaitLoop _ aw _ => aw =? WAITING | WaitFutex _ | WaitReload _ | WakeFutex _ => true | _ => false end.
Definition will_wake_all (pc : ev_pc) : bool := match pc with WakeFutex true => true | _ => false end.
(** The local copies are states. *)
Definition good_state (st : Z) : Prop := st = EMPTY \/ st = WAITING \/ st = NOTIFIED \/ st = SHUTDOWN.
Definition good_pc (shut : bool) (pc : ev_pc) : Prop :=
  match pc with
  | WaitLoop _ aw st => (aw = EMPTY \/ aw = WAITING) /\ good_state st /\ (st = SHUTDOWN -> shut = true)
  | WakeSwap r all => r = NOTIFIED \/ r = SHUTDOWN /\ all = true /\ shut = true
  | _ => True
  end.

Section proofs.
Context (MAX : nat) (shut : bool).
Implicit Types cfg : config ev_shared ev_pc.
Local Notation sys := (ev_system MAX shut).

Record ev_ok (cfg : config ev_shared ev_pc) : Prop := {
  ev_size : (length (threads cfg) <= MAX)%nat;
  ev_good : good_state (ev_state (shared cfg)) /\ (ev_state (shared cfg) = SHUTDOWN -> shut = true) /\ Forall (good_pc shut) (threads cfg);
  ev_tokens : 0 <= ev_taken (shared cfg) /\ ev_taken (shared cfg) + b2z (ev_state (shared cfg) =? NOTIFIED) <= ev_posted (shared cfg);
  ev_sleep : shut = false -> 0 < tally_if is_asleep (threads cfg) -> ev_state (shared cfg) = WAITING \/ 0 < tally_if will_recheck (threads cfg);
  ev_closed : ev_state (shared cfg) = SHUTDOWN -> 0 < tally_if is_asleep (threads cfg) -> 0 < tally_if will_wake_all (threads cfg);
}.

Lemma ev_init_ok n : (n <= MAX)%nat -> ev_ok (ev_init n).
Proof.
  intros Hn. split; cbn [shared threads ev_init ev_state ev_posted ev_taken]; rewrite ?tally_if_replicate; cbn; try lia.
  - by rewrite length_replicate.
  - split_and!; [by left|done|by apply Forall_replicate].
Qed.

Lemma ev_woken_inv l l' : woken (System := sys) l = Some l' -> exists timed, l = WaitAsleep timed /\ l' = WaitReload timed.
Proof. destruct l; intros [= <-]. eauto. Qed.

Lemma ev_woken_once l l' : woken (System := sys) l = Some l' -> woken (System := sys) l' = None.
Proof. by intros (? & -> & ->)%ev_woken_inv. Qed.

Lemma ev_sleeps l : sleeps (Sys := sys) l = is_asleep l.
Proof. by destruct l. Qed.

Lemma ev_sleeps_tally ts : tally_if (sleeps (Sys := sys)) ts = tally_if is_asleep ts.
Proof. apply tally_ext. by intros []. Qed.

(** All the values that a state and a point of the code can have. *)
Ltac ev_cases c pc Hs Hp H :=
  destruct pc as [| |timed aw st|timed|timed|timed|r all|all]; cbn [good_pc] in Hp;
  [..|destruct Hp as ([->| ->] & [->|[->|[->| ->]]] & Hp)| |destruct timed|
     |destruct Hp as [->|(-> & -> & Hp)]; [destruct all|]|destruct all];
  (destruct Hs as [Hs|[Hs|[Hs|Hs]]]; try rewrite Hs in H; destruct c; try discriminate H).

Lemma ev_good_step c s pc s' pc' n :
  good_state (ev_state s) /\ (ev_state s = SHUTDOWN -> shut = true) -> good_pc shut pc -> ev_step MAX shut c s pc = Some (s', pc', n) ->
  (good_state (ev_state s') /\ (ev_state s' = SHUTDOWN -> shut = true)) /\ good_pc shut pc'.
Proof.
  intros [Hs Hs2] Hp H. unfold ev_step, wait_round in H. ev_cases c pc Hs Hp H.
  all: cbn in H; try (destruct shut eqn:Es; try discriminate H); injection H as <- <- <-; cbn [ev_state with_state good_pc]; rewrite ?Hs; unfold good_state in *.
  all: unfold EMPTY, WAITING, NOTIFIED, SHUTDOWN in *; intuition (first [discriminate|congruence]).
Qed.

Lemma ev_good_fire cfg e cfg' : ev_ok cfg -> fire (Sys := sys) cfg e = Some cfg' ->
  good_state (ev_state (shared cfg')) /\ (ev_state (shared cfg') = SHUTDOWN -> shut = true) /\ Forall (good_pc shut) (threads cfg').
Proof.
  intros Hok (l & l' & n & Hl & Hst & _ & _ & Hw & _)%fire_inv. destruct (ev_good _ Hok) as (H1 & H2 & H3).
  pose proof (Forall_lookup_1 _ _ _ _ H3 Hl) as Hp. destruct (ev_good_step _ _ _ _ _ _ (conj H1 H2) Hp Hst) as [[H4 H5] H6].
  split_and!; [done|done|]. eapply wake_all_Forall; [|exact Hw|by apply Forall_insert]. by intros m m' (? & -> & ->)%ev_woken_inv.
Qed.

Lemma ev_ok_fire cfg e cfg' : ev_ok cfg -> fire (Sys := sys) cfg e = Some cfg' -> ev_ok cfg'.
Proof.
  intros Hok Hf. pose proof (ev_good_fire cfg e cfg' Hok Hf) as Hgood. destruct Hok as [Hn (Hg1 & Hg2 & Hg3) [Ht1 Ht2] Hs Hc].
  apply fire_inv in Hf as (l & l' & n & Hl & Hst & Hlen & Hk & _ & Ht).
  destruct (proj1 (proj2 Ht) is_asleep (-1)) as [Ta La]; [by intros ? ? (? & -> & ->)%ev_woken_inv|].
  destruct (proj1 (proj2 Ht) will_recheck 1) as [Tw Lw]; [by intros ? ? (? & -> & ->)%ev_woken_inv|].
  destruct (proj1 (proj2 Ht) will_wake_all 0) as [Tc Lc]; [by intros ? ? (? & -> & ->)%ev_woken_inv|]. clear Ht.
  rewrite ev_sleeps_tally in Hk. rewrite !ev_sleeps in Hk.
  pose proof (tally_if_nonneg is_asleep (threads cfg)). pose proof (tally_if_nonneg will_recheck (threads cfg)). pose proof (tally_if_nonneg will_wake_all (threads cfg)).
  pose proof (tally_if_le_length is_asleep (threads cfg)). pose proof (Forall_lookup_1 _ _ _ _ Hg3 Hl) as Hp. clear Hg3 Hl.
  enough ((0 <= ev_taken (shared cfg') /\ ev_taken (shared cfg') + b2z (ev_state (shared cfg') =? NOTIFIED) <= ev_posted (shared cfg')) /\
    (shut = false -> 0 < tally_if is_asleep (threads cfg') -> ev_state (shared cfg') = WAITING \/ 0 < tally_if will_recheck (threads cfg')) /\
    (ev_state (shared cfg') = SHUTDOWN -> 0 < tally_if is_asleep (threads cfg') -> 0 < tally_if will_wake_all (threads cfg'))) as (? & ? & ?) by (split; [by rewrite Hlen|done..]).
  clear Hgood Hlen. destruct (shared cfg) as [now po ta] eqn:Ecfg. destruct (shared cfg') as [now' po' ta']. cbn [ev_state ev_posted ev_taken] in *. clear Ecfg.
  unfold good_state in Hg1. cbn [step ev_system] in Hst. unfold ev_step, wait_round in Hst. cbn [ev_state ev_posted ev_taken] in Hst.
  revert Hst. generalize (choice e) as c. intros c Hst. ev_cases c l Hg1 Hp Hst.
  all: cbn in Hst; try (destruct shut; try discriminate Hst); injection Hst as <- <- <- <- <-.
  all: cbn in Hk, Ta, La, Tw, Lw, Tc, Lc; unfold EMPTY, WAITING, NOTIFIED, SHUTDOWN in *; try subst now; cbn in Ht2 |- *.
  all: lia.
Qed.

(** ** Whoever waits returns *)

Definition ev_next (e : event ev_choice) : Prop := choice e = ENext.
Definition is_notifier (pc : ev_pc) : bool := match pc with WakeSwap r _ => r =? NOTIFIED | _ => false end.
Definition waiters cfg : Z := tally_if is_waiting (threads cfg).
Definition notifiers cfg : Z := tally_if is_notifier (threads cfg).

(** The steps a thread has left while the state stays [now], which is not [WAITING]. *)
Definition steps_left (now : Z) (pc : ev_pc) : Z :=
  match pc with
  | EvIdle => 0
  | WaitLoop _ _ st => if st =? now then 1 else if st =? WAITING then 4 else 2
  | WaitLoad | WaitReload _ | WakeSwap _ _ => 2
  | WaitFutex _ | WaitAsleep _ => 3
  | WakeFutex _ => 1
  end.
Definition ev_measure cfg : Z := tally (steps_left (ev_state (shared cfg))) (threads cfg).

(** The state that waiters return by stays until one of them has taken a token. *)
Definition lets_through (now : Z) cfg : Prop :=
  ev_state (shared cfg) = now /\ (now = NOTIFIED /\ shut = false \/ now = SHUTDOWN /\ notifiers cfg = 0).

Lemma ev_decreases now cfg e cfg' :
  ev_ok cfg -> lets_through now cfg -> ev_next e -> fire (Sys := sys) cfg e = Some cfg' ->
  now = NOTIFIED /\ ev_taken (shared cfg) < ev_taken (shared cfg') \/
  lets_through now cfg' /\ ev_measure cfg' < ev_measure cfg /\ ev_taken (shared cfg') = ev_taken (shared cfg) /\ (now = NOTIFIED -> waiters cfg' = waiters cfg).
Proof.
  intros Hok [Hnow Hc] He (l & l' & n & Hl & Hst & _ & _ & _ & Ht)%fire_inv. destruct (ev_good _ Hok) as (_ & Hg2 & Hg3).
  pose proof (Forall_lookup_1 _ _ _ _ Hg3 Hl) as Hp. unfold ev_next in He. rewrite He in Hst. clear He Hg3.
  destruct (proj1 (proj2 Ht) is_waiting 0) as [Tw Lw]; [by intros ? ? (? & -> & ->)%ev_woken_inv|].
  destruct (proj1 (proj2 Ht) is_notifier 0) as [Tn Ln]; [by intros ? ? (? & -> & ->)%ev_woken_inv|].
  pose proof (proj1 Ht (steps_left now) (-1)) as Tm. specialize (Tm ltac:(by intros ? ? (? & -> & ->)%ev_woken_inv)). clear Ht.
  pose proof (tally_if_nonneg is_notifier (threads cfg)). unfold lets_through, ev_measure, waiters, notifiers in *. rewrite Hnow.
  assert (Hg1 : good_state (ev_state (shared cfg))) by apply Hok.
  cbn [step ev_system] in Hst. unfold ev_step in Hst. destruct (shared cfg) as [st po ta]. destruct (shared cfg') as [st' po' ta']. cbn [ev_state ev_posted ev_taken] in *. subst st.
  clear Hg1 Hl Hok. revert Hc. generalize (eq_refl now). 
  destruct l as [| |timed aw st|timed|timed|timed|r all|all]; cbn [good_pc] in Hp; try discriminate Hst;
    [|destruct Hp as ([->| ->] & [->|[->|[->| ->]]] & Hp)| | |destruct Hp as [->|(-> & -> & Hp)]; [destruct all|]|destruct all].
  all: intros _ [[-> Hc]|[-> Hc]]; unfold wait_round in Hst; cbn in Hst; try (specialize (Hp eq_refl); congruence);
    injection Hst as <- <- <- <- <-; cbn in Tw, Lw, Tn, Ln, Tm; cbn.
  all: first [congruence|left; split; [reflexivity|lia]|right; split_and!; first [reflexivity|lia|by intros _; lia|by left|right; split; [reflexivity|lia]|done]].
Qed.

Lemma ev_enabled cfg i l :
  threads cfg !! i = Some l -> is_waiting l || will_wake_all l || will_recheck l = true -> is_asleep l = false ->
  exists e cfg', ev_next e /\ fire (Sys := sys) cfg e = Some cfg'.
Proof.
  intros Hl Hp Ha.
  assert (exists s l' n, step (System := sys) ENext (shared cfg) l = Some (s, l', n)) as (s & l' & n & Hs).
  { destruct l; try discriminate Hp; try discriminate Ha; cbn; try (by eexists _, _, _). destruct (wait_round false timed acquire_with st (shared cfg)). by eexists _, _, _. }
  destruct (fire_step cfg i l ENext s l' n ev_woken_once Hl Hs) as (ks & cfg' & Hf). by exists (mkEvent i ENext ks), cfg'.
Qed.

Lemma ev_progress now cfg :
  ev_ok cfg -> lets_through now cfg -> 0 < waiters cfg -> exists e cfg', ev_next e /\ fire (Sys := sys) cfg e = Some cfg'.
Proof.
  intros Hok [Hnow Hc] (i & l & Hl & Hw)%tally_if_pos. destruct (is_asleep l) eqn:Ha; [|apply (ev_enabled cfg i l Hl); [by rewrite Hw|done]].
  pose proof (tally_if_lookup is_asleep _ _ _ Hl Ha) as Hpos.
  assert (0 < tally_if will_recheck (threads cfg) \/ 0 < tally_if will_wake_all (threads cfg)) as [(j & m & Hm & Hj)%tally_if_pos|(j & m & Hm & Hj)%tally_if_pos].
  { destruct Hc as [[-> Hsh]|[-> _]].
    - left. destruct (ev_sleep _ Hok Hsh Hpos) as [E|?]; [by rewrite Hnow in E|done].
    - right. by apply (ev_closed _ Hok). }
  - apply (ev_enabled cfg j m Hm); [by rewrite Hj, !orb_true_r|by destruct m].
  - apply (ev_enabled cfg j m Hm); [by rewrite Hj, orb_true_r|by destruct m].
Qed.

Lemma ev_measure_nonneg cfg : 0 <= ev_measure cfg.
Proof. apply tally_nonneg. intros []; cbn [steps_left]; repeat case_match; lia. Qed.

Lemma token_taken cfg t :
  ev_ok cfg -> lets_through NOTIFIED cfg -> shut = false -> 0 < waiters cfg -> ev_taken (shared cfg) = t ->
  inevitable (Sys := sys) (fun c => t < ev_taken (shared c)) ev_next cfg.
Proof.
  intros Hok Hl Hsh Hw Ht.
  apply (inevitable_measure (Sys := sys) _ (fun c => ev_ok c /\ lets_through NOTIFIED c /\ 0 < waiters c /\ ev_taken (shared c) = t) _ ev_measure); [|clear - shut|done].
  { intros c _. apply ev_measure_nonneg. }
  intros c (Hok & Hl & Hw & Ht). right. split; [by apply (ev_progress NOTIFIED)|]. intros e c' He Hf. pose proof (ev_ok_fire c e c' Hok Hf).
  destruct (ev_decreases NOTIFIED c e c' Hok Hl He Hf) as [[_ ?]|(H1 & H2 & H3 & H4)]; [left; lia|right]. rewrite H3, (H4 eq_refl). by split_and!.
Qed.

Lemma closed_returns cfg :
  ev_ok cfg -> lets_through SHUTDOWN cfg -> inevitable (Sys := sys) (fun c => waiters c = 0) ev_next cfg.
Proof.
  intros Hok Hl. apply (inevitable_measure (Sys := sys) _ (fun c => ev_ok c /\ lets_through SHUTDOWN c) _ ev_measure); [|clear - shut|done].
  { intros c _. apply ev_measure_nonneg. }
  intros c (Hok & Hl). pose proof (tally_if_nonneg is_waiting (threads c)). unfold waiters. destruct (decide (tally_if is_waiting (threads c) = 0)) as [?|Hne]; [by left|right].
  split; [apply (ev_progress SHUTDOWN); [done|done|unfold waiters; lia]|]. intros e c' He Hf. right. pose proof (ev_ok_fire c e c' Hok Hf).
  destruct (ev_decreases SHUTDOWN c e c' Hok Hl He Hf) as [[? _]|(H1 & H2 & H3 & H4)]; done.
Qed.

(** (C22) Any number of threads wait for the event of the pool, notify, broadcast and shut it down, interleaved in any
    way, with spurious failures, wake-ups and timeouts: no more waits take a token than tokens were posted, and a
    broadcast posts one; no wake-up is lost: without shutdowns, when a token is there and threads wait, whatever order
    the threads go on in one of them takes it; and when the event is shut down and nobody is about to notify it, all
    waiters return. *)
Theorem event_correct (n : nat) (cfg : config ev_shared ev_pc) (Hn : (n <= MAX)%nat) (Hr : reachable (Sys := sys) (ev_init n) cfg) :
  ev_taken (shared cfg) <= ev_posted (shared cfg) /\
  (shut = false -> ev_state (shared cfg) = NOTIFIED -> 0 < waiters cfg ->
     inevitable (Sys := sys) (fun c => ev_taken (shared cfg) < ev_taken (shared c)) ev_next cfg) /\
  (ev_state (shared cfg) = SHUTDOWN -> notifiers cfg = 0 -> inevitable (Sys := sys) (fun c => waiters c = 0) ev_next cfg).
Proof.
  destruct Hr as [es Hr]. pose proof (run_invariant (Sys := sys) ev_ok _ es _ ev_ok_fire (ev_init_ok n Hn) Hr) as Hok. split_and!.
  - destruct (ev_tokens _ Hok) as [_ H]. pose proof (b2z_nonneg (ev_state (shared cfg) =? NOTIFIED)). lia.
  - intros Hsh Hs Hw. apply token_taken; [done| |done|done|done]. split; [done|by left].
  - intros Hs Hz. apply closed_returns; [done|]. split; [done|by right].
Qed.
End proofs.

(** One thread sleeps; another has posted a token and not yet woken it. *)
Definition posted_token : list (event ev_choice) :=
  [mkEvent 0 EWait []; mkEvent 0 ENext []; mkEvent 0 ENext []; mkEvent 0 ENext []; mkEvent 1 ENotify []; mkEvent 1 ENext []].

Lemma event_correct_witness :
  let cfg := mkConfig (mkEv NOTIFIED 1 0) [WaitAsleep true; WakeFutex false] in
  run (Sys := ev_system 9 false) (ev_init 2) posted_token = Some cfg /\
  inevitable (Sys := ev_system 9 false) (fun c => 0 < ev_taken (shared c)) ev_next cfg.
Proof.
  cbv zeta. split; [reflexivity|]. apply (event_correct 9 false 2 (mkConfig (mkEv NOTIFIED 1 0) [WaitAsleep true; WakeFutex false])); [lia|exists posted_token; reflexivity|reflexivity|reflexivity|].
  apply Z.ltb_lt. reflexivity.
Defined.

(** Nobody can go on without a new call, a spurious wake-up or a timeout. *)
Definition stuck (cfg : config ev_shared ev_pc) : Prop := forall e, ev_next e -> fire (Sys := ev_system 9 true) cfg e = None.

Definition two_sleepers : list (event ev_choice) :=
  [mkEvent 0 EWait []; mkEvent 0 ENext []; mkEvent 0 ENext []; mkEvent 0 ENext []; mkEvent 1 EWait []; mkEvent 1 ENext []; mkEvent 1 ENext []; mkEvent 1 ENext []].
Definition shut_down : list (event ev_choice) := [mkEvent 2 EShutdown []; mkEvent 2 ENext []; mkEvent 2 ENext []].

(** [wake_for_idle_events] is to wake all threads: it wakes them, but one alone leaves [wait], since the others
    find no token and sleep again. And a [notify] that comes after a [shutdown] undoes it: a wait that begins later takes
    the token, and the next one sleeps although the event was shut down, with nothing left to wake it. *)
Theorem event_faults :
  (exists es cfg, run (Sys := ev_system 9 true) (ev_init 3) (two_sleepers ++ [mkEvent 2 EBroadcast []] ++ es) = Some cfg /\
     threads cfg = [EvIdle; WaitAsleep true; EvIdle] /\ stuck cfg) /\
  (exists es cfg, run (Sys := ev_system 9 true) (ev_init 3) (shut_down ++ [mkEvent 0 ENotify []] ++ es) = Some cfg /\
     threads cfg = [EvIdle; WaitAsleep true; EvIdle] /\ stuck cfg).
Proof.
  split.
  - exists ([mkEvent 2 ENext []; mkEvent 2 ENext [0%nat; 1%nat]; mkEvent 0 ENext []; mkEvent 0 ENext []; mkEvent 1 ENext []; mkEvent 1 ENext []; mkEvent 1 ENext []]).
    eexists. split; [vm_compute; reflexivity|]. split; [reflexivity|]. intros [i c ts] H. unfold ev_next in H. cbn in H. subst c. by destruct i as [|[|[|i]]].
  - exists ([mkEvent 0 ENext []; mkEvent 0 EWait []; mkEvent 0 ENext []; mkEvent 0 ENext [];
      mkEvent 1 EWait []; mkEvent 1 ENext []; mkEvent 1 ENext []; mkEvent 1 ENext []]). eexists. split; [vm_compute; reflexivity|]. split; [reflexivity|].
    intros [i c ts] H. unfold ev_next in H. cbn in H. subst c. by destruct i as [|[|[|i]]].
Qed.
