(* ===== verification/PoolBuffer.v ===== *)
(** * The run buffers of the thread pool ([threading/ThreadPool.rs], [node::Buffer])

    Each worker has a ring of 256 slots. Its owner pushes, pops and fills it from a queue; any other worker steals the
    older half by copying slots that the owner may be overwriting and then exchanging [head]. Every atomic access is a
    step. Indices are 32-bit words that wrap around; a slot is the index modulo the capacity. *)

From S2P Require Import Prelude Interleaving Counting.
From stdpp Require Import list.
Local Open Scope Z_scope.

Definition CAPACITY : Z := 256.

(** A node is a positive number, 0 the null pointer. *)
Record Buffer := mkBuffer { b_head : Z; b_tail : Z; b_array : list nat }.

Definition slot (a : list nat) (p : Z) : nat := a !!! Z.to_nat (p mod CAPACITY).
Definition write_slot (b : Buffer) (p : Z) (x : nat) : Buffer :=
  mkBuffer (b_head b) (b_tail b) (<[Z.to_nat (p mod CAPACITY) := x]> (b_array b)).
Definition with_head (b : Buffer) (h : Z) : Buffer := mkBuffer h (b_tail b) (b_array b).
Definition with_tail (b : Buffer) (t : Z) : Buffer := mkBuffer (b_head b) t (b_array b).

(** The [n] slots from [p] on. *)
Definition slots (a : list nat) (p : Z) (n : nat) : list nat := (fun k => slot a (p + Z.of_nat k)) <$> seq 0 n.

(** Where a worker is in the code. [stored] is history: the nodes that it has written behind [tail]; so is what
    [PopRead] and [StealTake] hold. *)
Inductive buf_pc :=
| BIdle
| PushHead (l : list nat)
| PushStore (l : list nat) (head tail : Z) (stored : list nat)
| PushMigrate (l : list nat) (head : Z)
| PopHead | PopCas (head : Z) | PopRead (head : Z) (x : nat)
| ConsumeStore (l stored : list nat)
| StealHead (j : nat) | StealTail (j : nat) (head : Z)
| StealLoad (j : nat) (head steal_size i : Z) | StealStore (j : nat) (head steal_size i : Z) (x : nat)
| StealCas (j : nat) (head steal_size : Z)
| StealTake (xs : list nat).

(** A worker: the buffer it owns, the nodes in its hands. *)
Record worker := mkWorker { me : nat; hand : list nat; pc : buf_pc }.

(** [BPush l]: push the list [l] of nodes in hand; [BConsume l]: [consume], where the queue gives the nodes [l];
    [BSteal j]: steal from worker [j]; [BSpurious]: a weak exchange fails for no reason. *)
Inductive buf_choice := BPush (l : list nat) | BPop | BConsume (l : list nat) | BSteal (j : nat) | BNext | BSpurious.

Definition size_of (head tail : Z) : Z := wrap 32 (tail - head).

(** *** [push] *)

Definition push_round (l : list nat) (head tail : Z) : buf_pc :=
  if size_of head tail <? CAPACITY then PushStore l head tail [] else PushMigrate l head.

(** What the owner links in front of the list that does not fit. *)
Definition migrated (b : Buffer) (head : Z) : list nat := slots (b_array b) head (Z.to_nat (size_of head (b_tail b) / 2)).

Definition push (c : buf_choice) (b : Buffer) (hand : list nat) (pc : buf_pc) : option (Buffer * list nat * buf_pc) :=
  match c, pc with
  | BNext, PushHead l => Some (b, hand, push_round l (b_head b) (b_tail b))
  | BNext, PushStore (x :: l) head tail stored =>
      if size_of head tail <? CAPACITY then Some (write_slot b tail x, hand, PushStore l head (wrap 32 (tail + 1)) (stored ++ [x]))
      else Some (with_tail b tail, hand, PushHead (x :: l))
  | BNext, PushStore [] head tail stored => Some (with_tail b tail, hand, BIdle)
  | BNext, PushMigrate l head =>
      if b_head b =? head
      then Some (with_head b (wrap 32 (head + size_of head (b_tail b) / 2)), migrated b head ++ l ++ hand, BIdle)
      else Some (b, hand, push_round l (b_head b) (b_tail b))
  | BSpurious, PushMigrate l head => Some (b, hand, push_round l (b_head b) (b_tail b))
  | _, _ => None
  end.

(** *** [pop] *)

Definition pop (c : buf_choice) (b : Buffer) (hand : list nat) (pc : buf_pc) : option (Buffer * list nat * buf_pc) :=
  match c, pc with
  | BNext, PopHead => Some (b, hand, PopCas (b_head b))
  | BNext, PopCas head =>
      if size_of head (b_tail b) =? 0 then Some (b, hand, BIdle)
      else if b_head b =? head then Some (with_head b (wrap 32 (head + 1)), hand, PopRead head (slot (b_array b) head))
      else Some (b, hand, PopCas (b_head b))
  | BSpurious, PopCas head => if size_of head (b_tail b) =? 0 then None else Some (b, hand, PopCas (b_head b))
  | BNext, PopRead head _ => Some (b, slot (b_array b) head :: hand, BIdle)
  | _, _ => None
  end.

(** *** [consume] *)

(** The node that is returned: one more from the queue, or the last one written. *)
Definition consume_finish (b : Buffer) (hand l stored : list nat) : Buffer * list nat * buf_pc :=
  let tail := b_tail b in
  match l with
  | x :: _ => (if (0 <? length stored)%nat : bool then with_tail b (wrap 32 (tail + Z.of_nat (length stored))) else b, x :: hand, BIdle)
  | [] =>
      if (length stored =? 0)%nat then (b, hand, BIdle)
      else
        let pushed := (length stored - 1)%nat in
        (if (0 <? pushed)%nat : bool then with_tail b (wrap 32 (tail + Z.of_nat pushed)) else b,
         slot (b_array b) (wrap 32 (tail + Z.of_nat pushed)) :: hand, BIdle)
  end.

Definition consume (c : buf_choice) (b : Buffer) (hand : list nat) (pc : buf_pc) : option (Buffer * list nat * buf_pc) :=
  match c, pc with
  | BNext, ConsumeStore (x :: l) stored =>
      if Z.of_nat (length stored) <? CAPACITY
      then Some (write_slot b (wrap 32 (b_tail b + Z.of_nat (length stored))) x, hand, ConsumeStore l (stored ++ [x]))
      else Some (consume_finish b hand (x :: l) stored)
  | BNext, ConsumeStore [] stored => Some (consume_finish b hand [] stored)
  | _, _ => None
  end.

(** *** [steal]: the victim's buffer, then the thief's *)

Definition steal (c : buf_choice) (v b : Buffer) (hand : list nat) (pc : buf_pc) : option (Buffer * Buffer * list nat * buf_pc) :=
  match c, pc with
  | BNext, StealHead j => Some (v, b, hand, StealTail j (b_head v))
  | BNext, StealTail j head =>
      let buffer_size := size_of head (b_tail v) in
      if CAPACITY <? buffer_size then Some (v, b, hand, StealHead j)
      else
        let steal_size := buffer_size - buffer_size / 2 in
        Some (v, b, hand, if steal_size =? 0 then BIdle else StealLoad j head steal_size 0)
  | BNext, StealLoad j head k i => Some (v, b, hand, StealStore j head k i (slot (b_array v) (wrap 32 (head + i))))
  | BNext, StealStore j head k i x =>
      Some (v, write_slot b (wrap 32 (b_tail b + i)) x, hand, if i + 1 =? k then StealCas j head k else StealLoad j head k (i + 1))
  | BNext, StealCas j head k =>
      if b_head v =? head then Some (with_head v (wrap 32 (head + k)), b, hand, StealTake (slots (b_array v) head (Z.to_nat k)))
      else Some (v, b, hand, StealHead j)
  | _, _ => None
  end.

Definition steal_take (b : Buffer) (hand : list nat) (steal_size : nat) : Buffer * list nat * buf_pc :=
  let pushed := (steal_size - 1)%nat in
  (if (0 <? pushed)%nat : bool then with_tail b (wrap 32 (b_tail b + Z.of_nat pushed)) else b,
   slot (b_array b) (wrap 32 (b_tail b + Z.of_nat pushed)) :: hand, BIdle).

(** ** Workers *)

Definition victim (pc : buf_pc) : option nat :=
  match pc with StealHead j | StealTail j _ | StealLoad j _ _ _ | StealStore j _ _ _ _ | StealCas j _ _ => Some j | _ => None end.

(** A call begins: [consume] and [steal] are called when the buffer is empty. *)
Definition start (c : buf_choice) (n : nat) (b : Buffer) (w : worker) : option worker :=
  match c with
  | BPush l => h ← take_out_all l (hand w); Some (mkWorker (me w) h (PushHead l))
  | BPop => Some (mkWorker (me w) (hand w) PopHead)
  | BConsume l =>
      if (b_head b =? b_tail b) && (Z.of_nat (length l) <=? CAPACITY + 1)
      then h ← take_out_all l (hand w); Some (mkWorker (me w) h (ConsumeStore l [])) else None
  | BSteal j =>
      if (b_head b =? b_tail b) && negb (j =? me w)%nat && (j <? n)%nat then Some (mkWorker (me w) (hand w) (StealHead j)) else None
  | BNext | BSpurious => None
  end.

Definition buf_step (c : buf_choice) (bufs : list Buffer) (w : worker) : option (list Buffer * worker * nat) :=
  b ← bufs !! me w;
  match pc w with
  | BIdle => w ← start c (length bufs) b w; Some (bufs, w, 0%nat)
  | PushHead _ | PushStore _ _ _ _ | PushMigrate _ _ =>
      '(b, h, p) ← push c b (hand w) (pc w); Some (<[me w := b]> bufs, mkWorker (me w) h p, 0%nat)
  | PopHead | PopCas _ | PopRead _ _ => '(b, h, p) ← pop c b (hand w) (pc w); Some (<[me w := b]> bufs, mkWorker (me w) h p, 0%nat)
  | ConsumeStore _ _ => '(b, h, p) ← consume c b (hand w) (pc w); Some (<[me w := b]> bufs, mkWorker (me w) h p, 0%nat)
  | StealTake xs =>
      match c with
      | BNext => let '(b, h, p) := steal_take b (hand w) (length xs) in Some (<[me w := b]> bufs, mkWorker (me w) h p, 0%nat)
      | _ => None
      end
  | _ =>
      j ← victim (pc w); v ← bufs !! j; '(v, b, h, p) ← steal c v b (hand w) (pc w);
      Some (<[j := v]> (<[me w := b]> bufs), mkWorker (me w) h p, 0%nat)
  end.

#[export] Instance buf_system : System (list Buffer) worker buf_choice := {| step := buf_step; woken := fun _ => None |}.

Definition empty_buffer : Buffer := mkBuffer 0 0 (replicate (Z.to_nat CAPACITY) 0%nat).

(** Worker [i] has the nodes [hands !! i]. *)
Definition buf_init (hands : list (list nat)) : config (list Buffer) worker :=
  mkConfig (replicate (length hands) empty_buffer) (imap (fun i h => mkWorker i h BIdle) hands).

(** Worker 0 pushes three nodes; worker 1 steals two of them and keeps the second in its hand, worker 0 pops the third. *)
Example steal_half :
  let next i := mkEvent i BNext [] in
  run (buf_init [[1; 2; 3]%nat; []])
    ([mkEvent 0 (BPush [1; 2; 3]%nat) []; next 0%nat; next 0%nat; next 0%nat; next 0%nat; next 0%nat; mkEvent 1 (BSteal 0) []] ++ replicate 8 (next 1%nat) ++
     [mkEvent 0 BPop []; next 0%nat; next 0%nat; next 0%nat]) =
  Some (mkConfig [mkBuffer 3 3 (b_array (write_slot (write_slot (write_slot empty_buffer 0 1) 1 2) 2 3)); mkBuffer 0 1 (b_array (write_slot (write_slot empty_buffer 0 1) 1 2))]
    [mkWorker 0 [3%nat] BIdle; mkWorker 1 [2%nat] BIdle]).
Proof. vm_compute. reflexivity. Qed.

(** ** Slots *)

Lemma wrap_mod_capacity x : wrap 32 x mod CAPACITY = x mod CAPACITY.
Proof. unfold wrap, CAPACITY. rewrite <- Znumtheory.Zmod_div_mod; [done|lia|lia|]. exists 16777216. reflexivity. Qed.

Lemma slot_wrap a x : slot a (wrap 32 x) = slot a x.
Proof. unfold slot. by rewrite wrap_mod_capacity. Qed.

Lemma write_slot_wrap b p x : write_slot b (wrap 32 p) x = write_slot b p x.
Proof. unfold write_slot. by rewrite wrap_mod_capacity. Qed.

Lemma mod_capacity_ne p q : p < q < p + CAPACITY -> p mod CAPACITY <> q mod CAPACITY.
Proof. unfold CAPACITY. intros H E. pose proof (Z.div_mod p 256 ltac:(lia)). pose proof (Z.div_mod q 256 ltac:(lia)). nia. Qed.

Section slots.
Implicit Types (a : list nat) (p q w : Z).

Lemma slots_app a p n m : slots a p (n + m) = slots a p n ++ slots a (p + Z.of_nat n) m.
Proof.
  unfold slots. rewrite seq_app, fmap_app. f_equal. rewrite <- (Nat.add_comm n 0), <- (fmap_add_seq n 0), <- list_fmap_compose. apply list_fmap_ext. intros i k _. cbn. f_equal. lia.
Qed.

Lemma slots_snoc a p n : slots a p (S n) = slots a p n ++ [slot a (p + Z.of_nat n)].
Proof. replace (S n) with (n + 1)%nat by lia. rewrite slots_app. cbn. by rewrite Z.add_0_r. Qed.

Lemma slots_cons a p n : slots a p (S n) = slot a p :: slots a (p + 1) n.
Proof. change (S n) with (1 + n)%nat. rewrite slots_app. cbn. by rewrite Z.add_0_r. Qed.

Lemma length_slots a p n : length (slots a p n) = n.
Proof. unfold slots. by rewrite length_fmap, length_seq. Qed.

Lemma slots_ext a a' p n : (forall k, (k < n)%nat -> slot a (p + Z.of_nat k) = slot a' (p + Z.of_nat k)) -> slots a p n = slots a' p n.
Proof. intros H. unfold slots. apply list_fmap_ext. intros i k Hk. apply lookup_seq in Hk as [-> Hk]. by apply H. Qed.

Lemma slots_eq_slot a p b q n k : slots a p n = slots b q n -> 0 <= k < Z.of_nat n -> slot a (p + k) = slot b (q + k).
Proof.
  intros H Hk. assert (slots a p n !! Z.to_nat k = slots b q n !! Z.to_nat k) as E by (by rewrite H). unfold slots in E.
  rewrite !list_lookup_fmap, !lookup_seq_lt in E by lia. cbn in E. rewrite !Z2Nat.id in E by lia. congruence.
Qed.

Lemma take_slots a p n k : (k <= n)%nat -> take k (slots a p n) = slots a p k.
Proof. intros H. replace n with (k + (n - k))%nat by lia. rewrite slots_app, take_app_length'; [done|by rewrite length_slots]. Qed.

Lemma drop_slots a p n k : (k <= n)%nat -> drop k (slots a p n) = slots a (p + Z.of_nat k) (n - k).
Proof. intros H. replace n with (k + (n - k))%nat at 1 by lia. rewrite slots_app, drop_app_length'; [done|by rewrite length_slots]. Qed.
End slots.

Lemma slot_write b p q x :
  length (b_array b) = 256%nat -> slot (b_array (write_slot b p x)) q = if p mod CAPACITY =? q mod CAPACITY then x else slot (b_array b) q.
Proof.
  intros Hl. unfold slot, write_slot. cbn [b_array]. pose proof (Z.mod_pos_bound p CAPACITY ltac:(unfold CAPACITY; lia)). pose proof (Z.mod_pos_bound q CAPACITY ltac:(unfold CAPACITY; lia)).
  unfold CAPACITY in *. destruct (Z.eqb_spec (p mod 256) (q mod 256)) as [->|Hne]; [apply list_lookup_total_insert_eq; lia|apply list_lookup_total_insert_ne; lia].
Qed.

Lemma slot_written b p x : length (b_array b) = 256%nat -> slot (b_array (write_slot b p x)) p = x.
Proof. intros Hl. rewrite slot_write by done. by rewrite Z.eqb_refl. Qed.

(** A write behind the slots that are looked at, within a turn of the ring. *)
Lemma slots_write b w p n x :
  length (b_array b) = 256%nat -> p + Z.of_nat n <= w -> w < p + CAPACITY -> slots (b_array (write_slot b w x)) p n = slots (b_array b) p n.
Proof.
  intros Hl H1 H2. apply slots_ext. intros k Hk. rewrite slot_write by done. destruct (Z.eqb_spec (w mod CAPACITY) ((p + Z.of_nat k) mod CAPACITY)) as [E|]; [|done].
  symmetry in E. by apply mod_capacity_ne in E; [|lia].
Qed.

(** ** The invariant *)

Definition content (b : Buffer) : list nat := slots (b_array b) (b_head b) (Z.to_nat (b_tail b - b_head b)).

(** The nodes in a worker's hands while it is in the code. *)
Definition carried (p : buf_pc) : list nat :=
  match p with
  | PushHead l | PushMigrate l _ => l
  | PushStore l _ _ stored | ConsumeStore l stored => stored ++ l
  | PopRead _ x => [x]
  | StealTake xs => xs
  | _ => []
  end.

Definition buf_ok (b : Buffer) : Prop := 0 <= b_head b <= b_tail b /\ b_tail b <= b_head b + CAPACITY /\ length (b_array b) = 256%nat.

(** What the owner knows of its buffer. *)
Definition own_ok (b : Buffer) (p : buf_pc) : Prop :=
  match p with
  | PushStore l h t stored =>
      0 <= h <= b_head b /\ t = b_tail b + Z.of_nat (length stored) /\ t - h <= CAPACITY /\ slots (b_array b) (b_tail b) (length stored) = stored /\
      (stored = [] -> l <> [] -> t - h < CAPACITY)
  | PushMigrate l h => 0 <= h <= b_head b /\ b_tail b - h = CAPACITY
  | PopCas h => 0 <= h <= b_head b
  | PopRead h x => slot (b_array b) h = x
  | ConsumeStore l stored =>
      b_head b = b_tail b /\ Z.of_nat (length stored) <= CAPACITY /\ Z.of_nat (length stored + length l) <= CAPACITY + 1 /\
      slots (b_array b) (b_tail b) (length stored) = stored
  | StealHead _ | StealTail _ _ | StealLoad _ _ _ _ | StealStore _ _ _ _ _ | StealCas _ _ _ => b_head b = b_tail b
  | StealTake xs => b_head b = b_tail b /\ slots (b_array b) (b_tail b) (length xs) = xs /\ (1 <= length xs <= 128)%nat
  | _ => True
  end.

(** What a thief knows of its victim [v]: as long as [head] has not moved, it has copied the right nodes. *)
Definition thief_ok (b v : Buffer) (p : buf_pc) : Prop :=
  match p with
  | StealTail j h => 0 <= h <= b_head v
  | StealLoad j h k i =>
      (0 <= h <= b_head v /\ 1 <= k <= 128 /\ h + k <= b_tail v /\ 0 <= i < k) /\
      (b_head v = h -> slots (b_array b) (b_tail b) (Z.to_nat i) = slots (b_array v) h (Z.to_nat i))
  | StealStore j h k i x =>
      (0 <= h <= b_head v /\ 1 <= k <= 128 /\ h + k <= b_tail v /\ 0 <= i < k) /\
      (b_head v = h -> slots (b_array b) (b_tail b) (Z.to_nat i) = slots (b_array v) h (Z.to_nat i) /\ x = slot (b_array v) (h + i))
  | StealCas j h k =>
      (0 <= h <= b_head v /\ 1 <= k <= 128 /\ h + k <= b_tail v) /\
      (b_head v = h -> slots (b_array b) (b_tail b) (Z.to_nat k) = slots (b_array v) h (Z.to_nat k))
  | _ => True
  end.

(** How a buffer changes: by its owner, and by others, who only take from the front. *)
Definition moved (b b' : Buffer) : Prop :=
  b_head b <= b_head b' /\ b_tail b <= b_tail b' /\
  (b_head b' = b_head b -> forall p, b_head b <= p < b_tail b -> slot (b_array b') p = slot (b_array b) p).
Definition robbed (v v' : Buffer) : Prop := b_array v' = b_array v /\ b_tail v' = b_tail v /\ b_head v <= b_head v' <= b_tail v.

Lemma robbed_moved v v' : robbed v v' -> moved v v'.
Proof. intros (H1 & H2 & H3). split_and!; [lia|lia|]. intros _ p _. by rewrite H1. Qed.

Lemma robbed_refl v : buf_ok v -> robbed v v.
Proof. intros (H1 & H2 & H3). split_and!; [done|done|lia|lia]. Qed.

Lemma own_ok_robbed b b' p : own_ok b p -> robbed b b' -> own_ok b' p.
Proof. intros H (H1 & H2 & H3). destruct p; cbn in *; rewrite ?H1, ?H2; try done; destruct_and?; split_and?; try done; lia. Qed.

Lemma thief_ok_robbed b b' v p : thief_ok b v p -> robbed b b' -> thief_ok b' v p.
Proof. intros H (H1 & H2 & H3). destruct p; cbn in *; by rewrite ?H1, ?H2. Qed.

Lemma slots_moved v v' h n : moved v v' -> b_head v' = b_head v -> b_head v = h -> h + Z.of_nat n <= b_tail v -> slots (b_array v') h n = slots (b_array v) h n.
Proof. intros (_ & _ & H) E <- Hn. apply slots_ext. intros k Hk. apply H; [done|lia]. Qed.

Lemma thief_ok_moved b v v' p : thief_ok b v p -> moved v v' -> thief_ok b v' p.
Proof.
  intros H Hm. pose proof Hm as (H1 & H2 & H3). destruct p; cbn in *; try done.
  - lia.
  - destruct H as [H H4]. split; [lia|]. intros E. rewrite H4 by lia. symmetry. apply slots_moved; [done|lia|lia|lia].
  - destruct H as [H H4]. split; [lia|]. intros E. destruct H4 as [H4 H5]; [lia|]. rewrite H4. split; [symmetry; apply slots_moved; [done|lia|lia|lia]|].
    rewrite H5. symmetry. apply H3; [lia|lia].
  - destruct H as [H H4]. split; [lia|]. intros E. rewrite H4 by lia. symmetry. apply slots_moved; [done|lia|lia|lia].
Qed.

(** ** What the steps do *)

(** An owner's step: [h] are the nodes in hand. *)
Record own_effect (b : Buffer) (h : list nat) (p : buf_pc) (b' : Buffer) (h' : list nat) (p' : buf_pc) : Prop := {
  ef_moved : moved b b';
  ef_ok : buf_ok b';
  ef_own : own_ok b' p';
  ef_victim : victim p' = None;
  ef_count z : (cnt h z + cnt (carried p) z + cnt (content b) z)%nat = (cnt h' z + cnt (carried p') z + cnt (content b') z)%nat;
  ef_tail : b_tail b' <= b_tail b + CAPACITY;
  ef_queue : (exists l, content b' = content b ++ l) \/ (exists k, content b' = drop k (content b));
}.

Definition no_wrap (b : Buffer) : Prop := b_tail b + CAPACITY < 2 ^ 32.

Lemma size_of_small h t : 0 <= h <= t -> t < 2 ^ 32 -> size_of h t = t - h.
Proof. intros H1 H2. unfold size_of. change (2 ^ 32) with 4294967296 in *. apply wrap32_small. lia. Qed.

Lemma moved_refl b : moved b b.
Proof. by split_and!. Qed.

Lemma content_same b b' : b_head b' = b_head b -> b_tail b' = b_tail b ->
  (forall p, b_head b <= p < b_tail b -> slot (b_array b') p = slot (b_array b) p) -> content b' = content b.
Proof. intros E1 E2 H. unfold content. rewrite E1, E2. apply slots_ext. intros k Hk. apply H. lia. Qed.

(** The owner changes nothing that is shared. *)
Lemma effect_same b h p h' p' :
  buf_ok b -> own_ok b p' -> victim p' = None ->
  (forall z, cnt h z + cnt (carried p) z = cnt h' z + cnt (carried p') z)%nat -> own_effect b h p b h' p'.
Proof. intros Hb Ho Hv Hc. split; try done; [intros z; specialize (Hc z); lia|unfold CAPACITY; lia|left; exists []; by rewrite app_nil_r]. Qed.

(** It writes behind [tail]. *)
Lemma effect_write b h p w x p' :
  buf_ok b -> b_tail b <= w < b_head b + CAPACITY -> own_ok (write_slot b w x) p' -> victim p' = None ->
  (forall z, cnt (carried p) z = cnt (carried p') z) -> own_effect b h p (write_slot b w x) h p'.
Proof.
  intros (H1 & H2 & H3) Hw Ho Hv Hc.
  assert (Hs : forall q, b_head b <= q < b_tail b -> slot (b_array (write_slot b w x)) q = slot (b_array b) q).
  { intros q Hq. rewrite slot_write by done. destruct (Z.eqb_spec (w mod CAPACITY) (q mod CAPACITY)) as [E|]; [|done]. symmetry in E. apply mod_capacity_ne in E; [done|lia]. }
  assert (Ec : content (write_slot b w x) = content b) by (by apply content_same).
  split; try done.
  - split_and!; [apply H1|apply H1|done|]. cbn. by rewrite length_insert.
  - intros z. rewrite Ec, Hc. lia.
  - cbn. unfold CAPACITY. lia.
  - left. exists []. by rewrite Ec, app_nil_r.
Qed.

(** It makes the nodes behind [tail] visible. *)
Lemma effect_publish b h p stored h' p' :
  buf_ok b -> b_tail b + Z.of_nat (length stored) <= b_head b + CAPACITY -> slots (b_array b) (b_tail b) (length stored) = stored ->
  own_ok (with_tail b (b_tail b + Z.of_nat (length stored))) p' -> victim p' = None ->
  (forall z, cnt h z + cnt (carried p) z = cnt h' z + cnt (carried p') z + cnt stored z)%nat ->
  own_effect b h p (with_tail b (b_tail b + Z.of_nat (length stored))) h' p'.
Proof.
  intros (H1 & H2 & H3) Hl Hs Ho Hv Hc.
  assert (Ec : content (with_tail b (b_tail b + Z.of_nat (length stored))) = content b ++ stored).
  { unfold content. cbn [with_tail b_tail b_head b_array]. replace (Z.to_nat (b_tail b + Z.of_nat (length stored) - b_head b)) with (Z.to_nat (b_tail b - b_head b) + length stored)%nat by lia.
    rewrite slots_app. f_equal. rewrite <- Hs at 2. f_equal. lia. }
  split; try done.
  - split_and!; cbn; [lia|lia|done].
  - split_and!; cbn; [lia|lia|lia|done].
  - intros z. rewrite Ec, cnt_app. specialize (Hc z). lia.
  - cbn. lia.
  - left. by exists stored.
Qed.

(** It takes the first [k] nodes. *)
Lemma content_take b k : buf_ok b -> 0 <= k <= b_tail b - b_head b ->
  content (with_head b (b_head b + k)) = drop (Z.to_nat k) (content b) /\ content b = slots (b_array b) (b_head b) (Z.to_nat k) ++ content (with_head b (b_head b + k)).
Proof.
  intros (H1 & H2 & H3) Hk. assert (E : content (with_head b (b_head b + k)) = drop (Z.to_nat k) (content b)).
  { unfold content. cbn [with_head b_tail b_head b_array]. rewrite drop_slots by lia. f_equal; lia. }
  split; [done|]. rewrite E. rewrite <- (take_drop (Z.to_nat k) (content b)) at 1. f_equal. unfold content. apply take_slots. lia.
Qed.

Lemma effect_take b h p k h' p' :
  buf_ok b -> 0 < k <= b_tail b - b_head b -> own_ok (with_head b (b_head b + k)) p' -> victim p' = None ->
  (forall z, cnt h z + cnt (carried p) z + cnt (slots (b_array b) (b_head b) (Z.to_nat k)) z = cnt h' z + cnt (carried p') z)%nat ->
  own_effect b h p (with_head b (b_head b + k)) h' p'.
Proof.
  intros Hb Hk Ho Hv Hc. destruct (content_take b k Hb ltac:(lia)) as [E1 E2]. destruct Hb as (H1 & H2 & H3).
  split; try done.
  - split_and!; cbn; [lia|lia|done].
  - split_and!; cbn; [lia|lia|lia|done].
  - intros z. rewrite E2, cnt_app. specialize (Hc z). lia.
  - cbn. unfold CAPACITY. lia.
  - right. eexists. exact E1.
Qed.

Lemma push_round_ok b l h : buf_ok b -> no_wrap b -> 0 <= h <= b_head b -> b_tail b - h <= CAPACITY -> own_ok b (push_round l h (b_tail b)) /\ carried (push_round l h (b_tail b)) = l /\ victim (push_round l h (b_tail b)) = None.
Proof.
  intros (H1 & H2 & H3) Hw Hh Ht. unfold no_wrap in Hw. unfold push_round. rewrite size_of_small by (unfold CAPACITY in *; lia).
  destruct (Z.ltb_spec (b_tail b - h) CAPACITY); cbn; split_and!; try done; unfold CAPACITY in *; lia.
Qed.

Ltac by_count := intros; cbn [carried app]; rewrite ?cnt_app, ?cnt_nil; repeat match goal with |- context [cnt (?x :: ?l) ?z] => lazymatch l with [] => fail | _ => rewrite (cnt_cons x l z) end end; lia.

Lemma push_effect c b h p b' h' p' :
  buf_ok b -> no_wrap b -> own_ok b p -> push c b h p = Some (b', h', p') -> own_effect b h p b' h' p'.
Proof.
  intros Hb Hw Ho H. pose proof Hb as (H1 & H2 & H3). unfold no_wrap, CAPACITY in Hw. change (2 ^ 32) with 4294967296 in Hw. destruct c, p; try discriminate H; cbn [push] in H.
  - injection H as <- <- <-. destruct (push_round_ok b l (b_head b) Hb) as (H4 & H5 & H6); [done|lia|lia|]. apply effect_same; [done|done|done|]. rewrite H5. by_count.
  - destruct Ho as (H4 & H5 & H6 & H7 & _). destruct l as [|x l].
    + injection H as <- <- <-. rewrite H5. apply (effect_publish b h _ stored); [done|unfold CAPACITY in *; lia|done|done|done|by_count].
    + rewrite size_of_small in H by (change (2 ^ 32) with 4294967296; unfold CAPACITY in *; lia). destruct (Z.ltb_spec (tail - head) CAPACITY) as [Hlt|Hge]; injection H as <- <- <-.
      * rewrite wrap32_small by (unfold CAPACITY in *; lia). apply effect_write; [done|unfold CAPACITY in *; lia| |done|by_count]. cbn [own_ok].
        change (b_head (write_slot b tail x)) with (b_head b). change (b_tail (write_slot b tail x)) with (b_tail b).
        rewrite length_app, Nat.add_1_r. split_and!; [lia|lia|lia|cbn; lia| |by destruct stored]. rewrite slots_snoc, slots_write, H7 by (done || (unfold CAPACITY in *; lia)).
        f_equal. f_equal. rewrite <- H5. by apply slot_written.
      * rewrite H5. apply (effect_publish b h _ stored); [done|unfold CAPACITY in *; lia|done|done|done|by_count].
  - destruct Ho as [H4 H5]. destruct (Z.eqb_spec (b_head b) head) as [<-|Hne]; injection H as <- <- <-.
    + rewrite size_of_small by (change (2 ^ 32) with 4294967296; unfold CAPACITY in *; lia). rewrite H5. change (CAPACITY / 2) with 128. rewrite wrap32_small by (unfold CAPACITY in *; lia).
      apply effect_take; [done|unfold CAPACITY in *; lia|done|done|]. unfold migrated. rewrite size_of_small by (change (2 ^ 32) with 4294967296; unfold CAPACITY in *; lia).
      rewrite H5. change (CAPACITY / 2) with 128. by_count.
    + destruct (push_round_ok b l (b_head b) Hb) as (H6 & H7 & H8); [done|lia|lia|]. apply effect_same; [done|done|done|]. rewrite H7. by_count.
  - destruct Ho as [H4 H5]. injection H as <- <- <-. destruct (push_round_ok b l (b_head b) Hb) as (H6 & H7 & H8); [done|lia|lia|]. apply effect_same; [done|done|done|]. rewrite H7. by_count.
Qed.

Lemma pop_effect c b h p b' h' p' :
  buf_ok b -> no_wrap b -> own_ok b p -> pop c b h p = Some (b', h', p') -> own_effect b h p b' h' p'.
Proof.
  intros Hb Hw Ho H. pose proof Hb as (H1 & H2 & H3). unfold no_wrap, CAPACITY in Hw. change (2 ^ 32) with 4294967296 in Hw. destruct c, p; try discriminate H; cbn [pop] in H.
  - injection H as <- <- <-. apply effect_same; [done|cbn; lia|done|by_count].
  - cbn in Ho. rewrite size_of_small in H by (change (2 ^ 32) with 4294967296; unfold CAPACITY in *; lia). destruct (Z.eqb_spec (b_tail b - head) 0) as [Hz|Hz].
    + injection H as <- <- <-. apply effect_same; [done|done|done|by_count].
    + destruct (Z.eqb_spec (b_head b) head) as [<-|Hne]; injection H as <- <- <-.
      * rewrite wrap32_small by lia. apply effect_take; [done|lia|done|done|]. change (Z.to_nat 1) with 1%nat. rewrite slots_cons. change (slots (b_array b) (b_head b + 1) 0) with (@nil nat). by_count.
      * apply effect_same; [done|cbn; lia|done|by_count].
  - injection H as <- <- <-. cbn in Ho. rewrite Ho. apply effect_same; [done|done|done|by_count].
  - cbn in Ho. rewrite size_of_small in H by (change (2 ^ 32) with 4294967296; unfold CAPACITY in *; lia). destruct (b_tail b - head =? 0); [done|]. injection H as <- <- <-. apply effect_same; [done|cbn; lia|done|by_count].
Qed.

(** Publishing [n] nodes, perhaps none. *)
Lemma publish_eq b n : buf_ok b -> b_tail b + Z.of_nat n < 2 ^ 32 ->
  (if (0 <? n)%nat : bool then with_tail b (wrap 32 (b_tail b + Z.of_nat n)) else b) = with_tail b (b_tail b + Z.of_nat n).
Proof.
  intros (H1 & _) Hn. change (2 ^ 32) with 4294967296 in Hn. rewrite wrap32_small by lia. destruct (Nat.ltb_spec 0 n); [done|]. replace n with 0%nat by lia. rewrite Z.add_0_r. by destruct b.
Qed.

(** The last of the nodes written behind [tail] is returned, the others are published. *)
Lemma last_effect b h p stored :
  buf_ok b -> no_wrap b -> b_head b = b_tail b -> (1 <= length stored <= 256)%nat -> slots (b_array b) (b_tail b) (length stored) = stored -> (forall z, cnt (carried p) z = cnt stored z) ->
  let pushed := (length stored - 1)%nat in
  own_effect b h p (if (0 <? pushed)%nat : bool then with_tail b (wrap 32 (b_tail b + Z.of_nat pushed)) else b)
    (slot (b_array b) (wrap 32 (b_tail b + Z.of_nat pushed)) :: h) BIdle.
Proof.
  intros Hb Hw He Hl Hs Hc pushed. unfold pushed. clear pushed. destruct stored as [|y l _] using rev_ind; [cbn in Hl; lia|]. rewrite length_app in *. cbn [length] in *.
  replace (length l + 1 - 1)%nat with (length l) by lia. rewrite Nat.add_1_r, slots_snoc in Hs. apply app_inj_tail in Hs as [Hs Hy].
  unfold no_wrap, CAPACITY in Hw. rewrite publish_eq by (done || lia). rewrite slot_wrap, Hy.
  apply effect_publish; [done|unfold CAPACITY; lia|done|done|done|]. intros z. rewrite Hc, cnt_app, (cnt_cons y h). cbn [carried]. rewrite cnt_nil. lia.
Qed.

Lemma consume_effect c b h p b' h' p' :
  buf_ok b -> no_wrap b -> own_ok b p -> consume c b h p = Some (b', h', p') -> own_effect b h p b' h' p'.
Proof.
  intros Hb Hw Ho H. pose proof Hb as (H1 & H2 & H3). destruct p as [| | | | | | |l stored| | | | | |]; try (destruct c; discriminate H). destruct c; try (destruct l; discriminate H).
  destruct Ho as (H4 & H5 & H6 & H7). unfold CAPACITY in *. destruct l as [|x l]; cbn [consume] in H.
  - injection H as E. unfold consume_finish in E. cbv zeta in E. destruct (Nat.eqb_spec (length stored) 0) as [Hz|Hz]; injection E as <- <- <-.
    + destruct stored; [|done]. apply effect_same; [done|done|done|by_count].
    + apply (last_effect b h _ stored); [done|done|done|lia|done|by_count].
  - destruct (Z.of_nat (length stored) <? CAPACITY) eqn:Elt; [apply Z.ltb_lt in Elt|apply Z.ltb_ge in Elt]; unfold CAPACITY in Elt.
    + injection H as <- <- <-. rewrite write_slot_wrap. apply effect_write; [done|unfold CAPACITY; lia| |done|by_count]. cbn [own_ok]. set (b1 := write_slot b _ x).
      change (b_head b1) with (b_head b). change (b_tail b1) with (b_tail b). rewrite length_app. cbn [length] in *. unfold CAPACITY. split_and!; [done|lia|lia|].
      rewrite Nat.add_1_r, slots_snoc. unfold b1. rewrite slots_write, H7 by (done || (unfold CAPACITY in *; lia)). f_equal. f_equal. by apply slot_written.
    + injection H as <- <- <-. cbn [length] in H6. assert (l = []) as -> by (destruct l; [done|cbn in H6; lia]).
      unfold no_wrap, CAPACITY in Hw. rewrite publish_eq by (done || lia). apply effect_publish; [done|unfold CAPACITY; lia|done|done|done|].
      intros z. rewrite (cnt_cons x h). cbn [carried]. rewrite cnt_app, cnt_nil. lia.
Qed.

Lemma steal_take_effect b h xs b' h' p' :
  buf_ok b -> no_wrap b -> own_ok b (StealTake xs) -> steal_take b h (length xs) = (b', h', p') -> own_effect b h (StealTake xs) b' h' p'.
Proof.
  intros Hb Hw (H1 & H2 & H3) H. unfold steal_take in H. injection H as <- <- <-. apply (last_effect b h _ xs); [done|done|done|lia|done|done].
Qed.

(** A thief's step, on the victim's buffer [v] and its own. *)
Record thief_effect (j : nat) (v b : Buffer) (p : buf_pc) (v' b' : Buffer) (p' : buf_pc) : Prop := {
  th_victim : robbed v v';
  th_ok : buf_ok v' /\ buf_ok b' /\ content b' = content b /\ b_tail b' = b_tail b;
  th_moved : moved b b';
  th_own : own_ok b' p';
  th_thief : thief_ok b' v' p';
  th_next : victim p' = Some j \/ victim p' = None;
  th_count z : (cnt (carried p) z + cnt (content v) z)%nat = (cnt (carried p') z + cnt (content v') z)%nat;
  th_queue : exists k, content v' = drop k (content v);
}.

Lemma thief_same j v b p p' :
  buf_ok v -> buf_ok b -> own_ok b p' -> thief_ok b v p' -> victim p' = Some j \/ victim p' = None -> carried p = [] -> carried p' = [] -> thief_effect j v b p v b p'.
Proof.
  intros Hv Hb Ho Ht Hj E E'. split; try done; [by apply robbed_refl|by rewrite E, E'|by exists 0%nat].
Qed.

Lemma steal_effect c j v b h p v' b' h' p' :
  buf_ok v -> no_wrap v -> buf_ok b -> no_wrap b -> own_ok b p -> thief_ok b v p -> victim p = Some j ->
  steal c v b h p = Some (v', b', h', p') -> h' = h /\ thief_effect j v b p v' b' p'.
Proof.
  intros Hv Hwv Hb Hwb Ho Ht Hj H. pose proof Hv as (V1 & V2 & V3). pose proof Hb as (B1 & B2 & B3). unfold no_wrap in *. 
  destruct p as [| | | | | | | |i|i hd|i hd k m|i hd k m x|i hd k|]; try discriminate Hj; injection Hj as ->; destruct c; try discriminate H; cbn [steal own_ok thief_ok] in *.
  - injection H as <- <- <- <-. split; [done|]. apply thief_same; try done; [cbn; lia|by left].
  - rewrite size_of_small in H by (unfold CAPACITY in *; lia). cbv zeta in H. pose proof (Z.div_mod (b_tail v - hd) 2 ltac:(lia)). pose proof (Z.mod_pos_bound (b_tail v - hd) 2 ltac:(lia)).
    destruct (Z.ltb_spec CAPACITY (b_tail v - hd)) as [Hgt|Hle]; injection H as <- <- <- <-; (split; [done|]).
    + apply thief_same; try done. by left.
    + destruct (Z.eqb_spec (b_tail v - hd - (b_tail v - hd) / 2) 0) as [Hz|Hz]; [apply thief_same; try done; by right|].
      apply thief_same; try done; [|by left]. cbn [thief_ok]. unfold CAPACITY in *. split; [lia|done].
  - injection H as <- <- <- <-. split; [done|]. destruct Ht as [Ht1 Ht2]. apply thief_same; try done; [|by left]. cbn [thief_ok]. split; [done|]. rewrite slot_wrap. naive_solver.
  - injection H as <- <- <- <-. split; [done|]. destruct Ht as [Ht1 Ht2]. rewrite write_slot_wrap. set (b1 := write_slot b _ x).
    assert (Hmv : moved b b1) by (split_and!; cbn; [lia|lia|intros _ q Hq; lia]).
    assert (Hb1 : buf_ok b1) by (split_and!; cbn; [lia|lia|lia|by rewrite length_insert]).
    assert (Hs : b_head v = hd -> slots (b_array b1) (b_tail b1) (S (Z.to_nat m)) = slots (b_array v) hd (S (Z.to_nat m))).
    { intros E. destruct (Ht2 E) as [E1 E2]. rewrite !slots_snoc. change (b_tail b1) with (b_tail b). unfold b1. rewrite slots_write, E1 by (done || (unfold CAPACITY in *; lia)).
      f_equal. f_equal. rewrite Z2Nat.id by lia. rewrite slot_written by done. done. }
    split; try done.
    + by apply robbed_refl.
    + split_and!; try done. unfold content. change (b_head b1) with (b_head b). change (b_tail b1) with (b_tail b). by rewrite Ho, Z.sub_diag.
    + by destruct (m + 1 =? k).
    + destruct (Z.eqb_spec (m + 1) k) as [<-|Hne]; cbn [thief_ok].
      * split; [lia|]. intros E. replace (Z.to_nat (m + 1)) with (S (Z.to_nat m)) by lia. by apply Hs.
      * split; [lia|]. intros E. replace (Z.to_nat (m + 1)) with (S (Z.to_nat m)) by lia. by apply Hs.
    + left. by destruct (m + 1 =? k).
    + intros z. by destruct (m + 1 =? k).
    + by exists 0%nat.
  - destruct Ht as [Ht1 Ht2]. destruct (Z.eqb_spec (b_head v) hd) as [<-|Hne]; injection H as <- <- <- <-; (split; [done|]).
    + unfold CAPACITY in *. change (2 ^ 32) with 4294967296 in *. rewrite wrap32_small by lia. destruct (content_take v k Hv ltac:(lia)) as [E1 E2]. split; try done.
      * split_and!; cbn; [done|done|lia|lia].
      * split; [|done]. split_and!; cbn; [lia|lia|unfold CAPACITY; lia|done].
      * cbn [own_ok]. rewrite length_slots. split_and!; [done|by apply Ht2|lia|lia].
      * by right.
      * intros z. rewrite E2, cnt_app. cbn [carried]. rewrite cnt_nil. lia.
      * eexists. exact E1.
    + apply thief_same; try done. by left.
Qed.

(** ** All workers *)

Definition worker_ok (bufs : list Buffer) (i : nat) (w : worker) : Prop :=
  me w = i /\ (forall b, bufs !! i = Some b -> own_ok b (pc w)) /\
  (forall j, victim (pc w) = Some j -> j <> i /\ exists v, bufs !! j = Some v /\ forall b, bufs !! i = Some b -> thief_ok b v (pc w)).

Definition in_hands (z : nat) (w : worker) : Z := Z.of_nat (cnt (hand w) z + cnt (carried (pc w)) z).
Definition in_buffer (z : nat) (b : Buffer) : Z := Z.of_nat (cnt (content b) z).

Record bufs_ok (nodes : list nat) (cfg : config (list Buffer) worker) : Prop := {
  bo_len : length (shared cfg) = length (threads cfg);
  bo_bufs i b : shared cfg !! i = Some b -> buf_ok b;
  bo_workers i w : threads cfg !! i = Some w -> worker_ok (shared cfg) i w;
  bo_nodes z : tally (in_hands z) (threads cfg) + tally (in_buffer z) (shared cfg) = Z.of_nat (cnt nodes z);
}.

(** The indices do not wrap around while this is below 2^32. *)
Definition written (cfg : config (list Buffer) worker) : Z := tally (fun b => Z.max 0 (b_tail b)) (shared cfg).

Lemma written_no_wrap cfg i b : written cfg + CAPACITY < 2 ^ 32 -> shared cfg !! i = Some b -> no_wrap b.
Proof. intros H Hi. pose proof (tally_lookup (fun b => Z.max 0 (b_tail b)) _ _ _ ltac:(intros; lia) Hi) as Hl. cbn beta in Hl. unfold written, no_wrap in *. lia. Qed.

(** What a worker knows stays true while others act. *)
Lemma worker_ok_others bufs bufs' i w :
  (forall j b, bufs !! j = Some b -> exists b', bufs' !! j = Some b' /\ moved b b') ->
  (forall b, bufs !! i = Some b -> exists b', bufs' !! i = Some b' /\ robbed b b') ->
  (exists b, bufs !! i = Some b) -> worker_ok bufs i w -> worker_ok bufs' i w.
Proof.
  intros Hm Hr [b Hb] (H1 & H2 & H3). destruct (Hr b Hb) as (b' & Hb' & Hrb). split_and!; [done| |].
  - intros b2 Hb2. rewrite Hb' in Hb2. injection Hb2 as <-. by apply (own_ok_robbed b); [apply H2|].
  - intros j Hj. destruct (H3 j Hj) as (Hne & v & Hv & Ht). split; [done|]. destruct (Hm j v Hv) as (v' & Hv' & Hmv). exists v'. split; [done|].
    intros b2 Hb2. rewrite Hb' in Hb2. injection Hb2 as <-. eapply thief_ok_robbed; [|done]. eapply thief_ok_moved; [|done]. by apply Ht.
Qed.

(** The queues of the buffers: nodes are appended, or taken from the front. *)
Definition queue_steps (bufs bufs' : list Buffer) : Prop :=
  forall i b, bufs !! i = Some b -> exists b', bufs' !! i = Some b' /\ ((exists l, content b' = content b ++ l) \/ (exists k, content b' = drop k (content b))).

Definition next_ok (nodes : list nat) (cfg cfg' : config (list Buffer) worker) : Prop :=
  bufs_ok nodes cfg' /\ written cfg' <= written cfg + CAPACITY /\ queue_steps (shared cfg) (shared cfg').

Lemma queue_steps_own bufs i b b' :
  bufs !! i = Some b -> (exists l, content b' = content b ++ l) \/ (exists k, content b' = drop k (content b)) -> queue_steps bufs (<[i := b']> bufs).
Proof.
  intros Hi Hq j c Hj. destruct (decide (i = j)) as [<-|Hne].
  - rewrite Hi in Hj. injection Hj as <-. exists b'. split; [|done]. apply list_lookup_insert_eq. by eapply lookup_lt_Some.
  - exists c. rewrite list_lookup_insert_ne by done. split; [done|]. left. exists []. by rewrite app_nil_r.
Qed.

Lemma own_next nodes cfg i w b b' h' p' :
  bufs_ok nodes cfg -> threads cfg !! i = Some w -> shared cfg !! i = Some b -> own_effect b (hand w) (pc w) b' h' p' ->
  next_ok nodes cfg (mkConfig (<[i := b']> (shared cfg)) (<[i := mkWorker i h' p']> (threads cfg))).
Proof.
  intros Hok Hw Hb [E1 E2 E3 E4 E5 E6 E7]. pose proof (lookup_lt_Some _ _ _ Hw) as Hlw. pose proof (lookup_lt_Some _ _ _ Hb) as Hlb.
  split_and!; [split; cbn [shared threads]| |by apply (queue_steps_own _ i b)].
  - by rewrite !length_insert, (bo_len _ _ Hok).
  - intros j c. destruct (decide (i = j)) as [<-|Hne]; [rewrite list_lookup_insert_eq by done; by intros [= <-]|rewrite list_lookup_insert_ne by done; by apply Hok].
  - intros j u. destruct (decide (i = j)) as [<-|Hne].
    + rewrite list_lookup_insert_eq by done. intros [= <-]. split_and!; [done|intros c; rewrite list_lookup_insert_eq by done; by intros [= <-]|]. intros j Hj. cbn in Hj. by rewrite E4 in Hj.
    + rewrite list_lookup_insert_ne by done. intros Hu. pose proof (bo_workers _ _ Hok j u Hu) as Hwk. apply (worker_ok_others (shared cfg)); [| | |done].
      * intros k c Hk. destruct (decide (i = k)) as [<-|Hne']; [|rewrite list_lookup_insert_ne by done; eauto using moved_refl].
        rewrite list_lookup_insert_eq by done. rewrite Hb in Hk. injection Hk as <-. eauto.
      * intros c Hc. rewrite list_lookup_insert_ne by done. exists c. split; [done|]. apply robbed_refl. by apply (bo_bufs _ _ Hok j).
      * apply lookup_lt_is_Some_2. rewrite (bo_len _ _ Hok). by eapply lookup_lt_Some.
  - intros z. rewrite (tally_insert _ _ _ _ _ Hw), (tally_insert _ _ _ _ _ Hb). rewrite <- (bo_nodes _ _ Hok z). unfold in_hands, in_buffer. cbn [hand pc]. specialize (E5 z). lia.
  - unfold written. cbn [shared]. rewrite (tally_insert _ _ _ _ _ Hb). destruct E2 as (? & _). unfold CAPACITY in *. lia.
Qed.

Lemma thief_next nodes cfg i w j v b v' b' h' p' :
  bufs_ok nodes cfg -> threads cfg !! i = Some w -> shared cfg !! i = Some b -> shared cfg !! j = Some v -> j <> i -> h' = hand w ->
  thief_effect j v b (pc w) v' b' p' ->
  next_ok nodes cfg (mkConfig (<[j := v']> (<[i := b']> (shared cfg))) (<[i := mkWorker i h' p']> (threads cfg))).
Proof.
  intros Hok Hw Hb Hv Hji -> [E1 (E2 & E3 & E4 & E5) E6 E7 E8 E9 E10 E11]. pose proof (lookup_lt_Some _ _ _ Hw) as Hlw. pose proof (lookup_lt_Some _ _ _ Hb) as Hlb. pose proof (lookup_lt_Some _ _ _ Hv) as Hlv.
  assert (Hv1 : <[i := b']> (shared cfg) !! j = Some v) by (by rewrite list_lookup_insert_ne).
  assert (Hi : forall c, <[j := v']> (<[i := b']> (shared cfg)) !! i = Some c -> c = b').
  { intros c. rewrite list_lookup_insert_ne, list_lookup_insert_eq by done. by intros [= ->]. }
  assert (Hj : <[j := v']> (<[i := b']> (shared cfg)) !! j = Some v') by (apply list_lookup_insert_eq; by rewrite length_insert).
  assert (Hk : forall k, k <> i -> k <> j -> <[j := v']> (<[i := b']> (shared cfg)) !! k = shared cfg !! k) by (intros k Hki Hkj; by rewrite !list_lookup_insert_ne).
  split_and!; [split; cbn [shared threads]| |].
  - by rewrite !length_insert, (bo_len _ _ Hok).
  - intros k c. destruct (decide (k = i)) as [->|Hki]; [by intros ->%Hi|]. destruct (decide (k = j)) as [->|Hkj]; [rewrite Hj; by intros [= <-]|]. rewrite Hk by done. by apply Hok.
  - intros m u. destruct (decide (i = m)) as [<-|Hne].
    + rewrite list_lookup_insert_eq by done. intros [= <-]. split_and!; [done|by intros c ->%Hi|]. intros k Hvk. cbn in Hvk. destruct E9 as [E9|E9]; rewrite E9 in Hvk; [|done]. injection Hvk as <-.
      split; [done|]. exists v'. split; [done|]. by intros c ->%Hi.
    + rewrite list_lookup_insert_ne by done. intros Hu. pose proof (bo_workers _ _ Hok m u Hu) as Hwk. apply (worker_ok_others (shared cfg)); [| | |done].
      * intros k c Hc. destruct (decide (k = i)) as [->|Hki].
        { exists b'. rewrite list_lookup_insert_ne, list_lookup_insert_eq by done. rewrite Hb in Hc. injection Hc as <-. done. }
        destruct (decide (k = j)) as [->|Hkj]; [exists v'; rewrite Hv in Hc; injection Hc as <-; split; [done|by apply robbed_moved]|].
        exists c. rewrite Hk by done. split; [done|apply moved_refl].
      * intros c Hc. destruct (decide (m = j)) as [->|Hmj]; [exists v'; rewrite Hv in Hc; injection Hc as <-; done|].
        exists c. rewrite Hk by done. split; [done|]. apply robbed_refl. by apply (bo_bufs _ _ Hok m).
      * apply lookup_lt_is_Some_2. rewrite (bo_len _ _ Hok). by eapply lookup_lt_Some.
  - intros z. rewrite (tally_insert _ _ _ _ _ Hw), (tally_insert _ _ _ _ _ Hv1), (tally_insert _ _ _ _ _ Hb). rewrite <- (bo_nodes _ _ Hok z). unfold in_hands, in_buffer. cbn [hand pc]. rewrite E4. specialize (E10 z). lia.
  - unfold written. cbn [shared]. rewrite (tally_insert _ _ _ _ _ Hv1), (tally_insert _ _ _ _ _ Hb). destruct E1 as (_ & E1 & _). rewrite E1, E5. unfold CAPACITY. lia.
  - intros k c Hc. cbn [shared]. destruct (decide (k = i)) as [->|Hki].
    { exists b'. rewrite list_lookup_insert_ne, list_lookup_insert_eq by done. rewrite Hb in Hc. injection Hc as <-. split; [done|]. left. exists []. by rewrite E4, app_nil_r. }
    destruct (decide (k = j)) as [->|Hkj]; [exists v'; rewrite Hv in Hc; injection Hc as <-; split; [done|by right]|].
    exists c. rewrite Hk by done. split; [done|]. left. exists []. by rewrite app_nil_r.
Qed.

Lemma start_next nodes cfg i w b c w' :
  bufs_ok nodes cfg -> threads cfg !! i = Some w -> shared cfg !! i = Some b -> pc w = BIdle -> start c (length (shared cfg)) b w = Some w' ->
  next_ok nodes cfg (mkConfig (shared cfg) (<[i := w']> (threads cfg))).
Proof.
  intros Hok Hw Hb Hp H. pose proof (bo_bufs _ _ Hok i b Hb) as Hbok. destruct (bo_workers _ _ Hok i w Hw) as (Hme & _ & _).
  assert (Hown : forall h' p', own_ok b p' -> victim p' = None -> (forall z, cnt (hand w) z = cnt h' z + cnt (carried p') z)%nat ->
    next_ok nodes cfg (mkConfig (shared cfg) (<[i := mkWorker (me w) h' p']> (threads cfg)))).
  { intros h' p' Ho Hv Hc. rewrite Hme. rewrite <- (list_insert_id (shared cfg) i b Hb) at 1. apply (own_next nodes cfg i w b); [done|done|done|]. rewrite Hp.
    apply effect_same; [done|done|done|]. intros z. cbn [carried]. rewrite cnt_nil, Hc. lia. }
  destruct c as [l| |l|j| |]; cbn [start] in H; try discriminate H.
  - apply bind_Some in H as (h & Hh & [= <-]). apply Hown; [done|done|]. intros z. rewrite (take_out_all_cnt _ _ _ z Hh). cbn [carried]. lia.
  - injection H as <-. apply Hown; [done|done|by_count].
  - destruct (Z.eqb_spec (b_head b) (b_tail b)) as [He|]; [|done]. destruct (Z.leb_spec (Z.of_nat (length l)) (CAPACITY + 1)) as [Hl|]; [|done].
    cbn [andb] in H. apply bind_Some in H as (h & Hh & [= <-]). apply Hown; [|done|].
    + cbn [own_ok length]. split_and!; [done|unfold CAPACITY; lia|lia|done].
    + intros z. rewrite (take_out_all_cnt _ _ _ z Hh). cbn [carried app]. lia.
  - destruct (Z.eqb_spec (b_head b) (b_tail b)) as [He|]; [|done]. destruct (Nat.eqb_spec j (me w)) as [|Hj]; [done|]. destruct (Nat.ltb_spec j (length (shared cfg))) as [Hlt|]; [|done].
    injection H as <-. rewrite Hme in *. apply lookup_lt_is_Some_2 in Hlt as [v Hv].
    assert (E : <[j := v]> (<[i := b]> (shared cfg)) = shared cfg) by (rewrite (list_insert_id _ i) by done; by apply list_insert_id).
    rewrite <- E at 1. apply (thief_next nodes cfg i w j v b); try done. rewrite Hp. apply thief_same; try done; [by apply (bo_bufs _ _ Hok j)|by left].
Qed.

Lemma buf_awake (w : worker) : woken w = None.
Proof. done. Qed.

Lemma next_ok_fire nodes cfg e cfg' :
  bufs_ok nodes cfg -> written cfg + CAPACITY < 2 ^ 32 -> fire cfg e = Some cfg' -> next_ok nodes cfg cfg'.
Proof.
  intros Hok Hwr (w & w' & n & Hw & Hst & Hts & _)%(fire_awake _ _ _ buf_awake).
  replace cfg' with (mkConfig (shared cfg') (<[who e := w']> (threads cfg))) by (rewrite <- Hts; by destruct cfg'). clear Hts.
  destruct (bo_workers _ _ Hok _ w Hw) as (Hme & Hown & Hvic). cbn [step buf_system] in Hst. unfold buf_step in Hst. apply bind_Some in Hst as (b & Hb & Hst).
  rewrite Hme in *. specialize (Hown b Hb). pose proof (bo_bufs _ _ Hok _ b Hb) as Hbok. pose proof (written_no_wrap cfg _ b Hwr Hb) as Hnw.
  assert (Hop : forall op : option (Buffer * list nat * buf_pc), (forall b' h' p', op = Some (b', h', p') -> own_effect b (hand w) (pc w) b' h' p') ->
    ('(b, h, p) ← op; Some (<[who e := b]> (shared cfg), mkWorker (who e) h p, 0%nat)) = Some (shared cfg', w', n) -> next_ok nodes cfg (mkConfig (shared cfg') (<[who e := w']> (threads cfg)))).
  { intros op Heff ([[b' h'] p'] & Ho & [= <- <- _])%bind_Some. apply (own_next nodes cfg _ w b); [done|done|done|]. by apply Heff. }
  assert (Hsteal : forall j v, victim (pc w) = Some j -> shared cfg !! j = Some v ->
    ('(v, b, h, p) ← steal (Interleaving.choice e) v b (hand w) (pc w); Some (<[j := v]> (<[who e := b]> (shared cfg)), mkWorker (who e) h p, 0%nat)) = Some (shared cfg', w', n) ->
    next_ok nodes cfg (mkConfig (shared cfg') (<[who e := w']> (threads cfg)))).
  { intros j v Hj Hv ([[[v' b'] h'] p'] & Ho & [= <- <- _])%bind_Some. destruct (Hvic j Hj) as (Hne & v0 & Hv0 & Ht). rewrite Hv in Hv0. injection Hv0 as <-.
    destruct (steal_effect (Interleaving.choice e) j v b (hand w) (pc w) v' b' h' p') as [Eh He]; try done; [by apply (bo_bufs _ _ Hok j)|by eapply written_no_wrap|by apply Ht|].
    by apply (thief_next nodes cfg _ w j v b). }
  destruct (pc w) as [| | | | | | | |j|j hd|j hd k m|j hd k m x|j hd k|xs] eqn:Ep.
  - apply bind_Some in Hst as (w1 & Hs & [= <- <- _]). by apply (start_next nodes cfg (who e) w b (Interleaving.choice e)).
  - apply (Hop _ (fun b' h' p' => push_effect (Interleaving.choice e) b _ _ b' h' p' Hbok Hnw Hown) Hst).
  - apply (Hop _ (fun b' h' p' => push_effect (Interleaving.choice e) b _ _ b' h' p' Hbok Hnw Hown) Hst).
  - apply (Hop _ (fun b' h' p' => push_effect (Interleaving.choice e) b _ _ b' h' p' Hbok Hnw Hown) Hst).
  - apply (Hop _ (fun b' h' p' => pop_effect (Interleaving.choice e) b _ _ b' h' p' Hbok Hnw Hown) Hst).
  - apply (Hop _ (fun b' h' p' => pop_effect (Interleaving.choice e) b _ _ b' h' p' Hbok Hnw Hown) Hst).
  - apply (Hop _ (fun b' h' p' => pop_effect (Interleaving.choice e) b _ _ b' h' p' Hbok Hnw Hown) Hst).
  - apply (Hop _ (fun b' h' p' => consume_effect (Interleaving.choice e) b _ _ b' h' p' Hbok Hnw Hown) Hst).
  - apply bind_Some in Hst as (j' & Hj & (v & Hv & Hst)%bind_Some). by apply (Hsteal j' v).
  - apply bind_Some in Hst as (j' & Hj & (v & Hv & Hst)%bind_Some). by apply (Hsteal j' v).
  - apply bind_Some in Hst as (j' & Hj & (v & Hv & Hst)%bind_Some). by apply (Hsteal j' v).
  - apply bind_Some in Hst as (j' & Hj & (v & Hv & Hst)%bind_Some). by apply (Hsteal j' v).
  - apply bind_Some in Hst as (j' & Hj & (v & Hv & Hst)%bind_Some). by apply (Hsteal j' v).
  - destruct (Interleaving.choice e); try discriminate Hst. destruct (steal_take b (hand w) (length xs)) as [[b' h'] p'] eqn:Es. injection Hst as <- <- _.
    apply (own_next nodes cfg _ w b); [done|done|done|]. rewrite Ep. by apply steal_take_effect.
Qed.

Lemma imap_in_hands f z hands : tally (in_hands z) (imap (fun i h => mkWorker (f i) h BIdle) hands) = Z.of_nat (cnt (concat hands) z).
Proof.
  revert f. induction hands as [|h hands IH]; intros f; [done|]. cbn [imap tally concat]. specialize (IH (f ∘ S)). cbn in IH. unfold compose in *. rewrite IH, cnt_app.
  unfold in_hands. cbn [hand pc carried]. rewrite cnt_nil. lia.
Qed.

Lemma bufs_ok_init hands : bufs_ok (concat hands) (buf_init hands).
Proof.
  split; cbn [shared threads buf_init].
  - rewrite length_imap. apply length_replicate.
  - intros i b [-> _]%lookup_replicate. split_and!; done.
  - intros i w. rewrite list_lookup_imap. intros (h & _ & ->)%fmap_Some. by split_and!.
  - intros z. rewrite (imap_in_hands id). enough (tally (in_buffer z) (replicate (length hands) empty_buffer) = 0) by lia.
    induction (length hands) as [|n IH]; [done|]. cbn [replicate tally]. by rewrite IH.
Qed.

Lemma written_init hands : written (buf_init hands) = 0.
Proof. unfold written. cbn [buf_init shared]. induction (length hands) as [|n IH]; [done|]. cbn [replicate tally]. by rewrite IH. Qed.

(** As many of each node as the sums say. *)
Lemma cnt_flat_map {A} (f : A -> list nat) (l : list A) z : Z.of_nat (cnt (flat_map f l) z) = tally (fun a => Z.of_nat (cnt (f a) z)) l.
Proof. induction l as [|a l IH]; [done|]. cbn [flat_map tally]. rewrite cnt_app. lia. Qed.

(** A call that ends with nothing. *)
Definition finds_nothing (b v : Buffer) (p : buf_pc) : Prop :=
  match p with PopCas _ => content b = [] | StealTail _ _ => content v = [] | _ => True end.

Lemma content_nil b : b_tail b <= b_head b -> content b = [].
Proof. intros H. unfold content. by replace (Z.to_nat (b_tail b - b_head b)) with 0%nat by lia. Qed.

Lemma pop_nothing c b h p b' h' : buf_ok b -> no_wrap b -> own_ok b p -> p = PopHead \/ (exists hd, p = PopCas hd) -> pop c b h p = Some (b', h', BIdle) -> content b = [] /\ b' = b /\ h' = h.
Proof.
  intros (H1 & H2 & H3) Hw Ho [->|[hd ->]] H; [by destruct c|]. cbn in Ho. unfold no_wrap in Hw.
  destruct c; try discriminate H; cbn [pop] in H; rewrite size_of_small in H by (unfold CAPACITY in *; lia); (destruct (Z.eqb_spec (b_tail b - hd) 0) as [Hz|Hz]).
  - injection H as <- <-. split; [apply content_nil; lia|done].
  - by destruct (b_head b =? hd).
  - done.
  - done.
Qed.

Lemma steal_nothing c v b h p v' b' h' : buf_ok v -> no_wrap v -> thief_ok b v p -> steal c v b h p = Some (v', b', h', BIdle) -> content v = [] /\ v' = v /\ b' = b /\ h' = h.
Proof.
  intros (H1 & H2 & H3) Hw Ht H. unfold no_wrap in Hw. destruct c, p as [| | | | | | | |i|i hd|i hd k m|i hd k m x|i hd k|]; try discriminate H; cbn [steal thief_ok] in *.
  - rewrite size_of_small in H by (unfold CAPACITY in *; lia). cbv zeta in H. destruct (CAPACITY <? b_tail v - hd); [done|].
    destruct (Z.eqb_spec (b_tail v - hd - (b_tail v - hd) / 2) 0) as [Hz|Hz]; [|done]. injection H as <- <- <-. split; [|done]. apply content_nil.
    pose proof (Z.div_mod (b_tail v - hd) 2 ltac:(lia)). pose proof (Z.mod_pos_bound (b_tail v - hd) 2 ltac:(lia)). lia.
  - by destruct (m + 1 =? k).
  - by destruct (b_head v =? hd).
Qed.

(** ** A worker left alone *)

(** How many of its own steps a worker is from the end of its call: exchanging a [head] that is out of date costs a round. *)
Definition own_left (b : Buffer) (p : buf_pc) : Z :=
  match p with
  | PushHead l => 3 * Z.of_nat (length l) + 3
  | PushStore l _ _ [] => 3 * Z.of_nat (length l) + 2
  | PushStore l _ _ _ => 3 * Z.of_nat (length l) + 4
  | PushMigrate l h => if b_head b =? h then 1 else 3 * Z.of_nat (length l) + 4
  | PopHead => 4
  | PopCas h => if b_head b =? h then 2 else 3
  | PopRead _ _ | StealTake _ => 1
  | ConsumeStore l _ => Z.of_nat (length l) + 1
  | _ => 0
  end.

Definition thief_left (v : Buffer) (p : buf_pc) : Z :=
  let late h := if b_head v =? h then 0 else 260 in
  match p with
  | StealHead _ => 260
  | StealTail _ h => late h + 259
  | StealLoad _ h k i => late h + 2 * (k - i) + 2
  | StealStore _ h k i _ => late h + 2 * (k - i) + 1
  | StealCas _ h _ => late h + 2
  | _ => 0
  end.

Lemma push_round_left b l h : own_left b (push_round l (b_head b) h) <= 3 * Z.of_nat (length l) + 2.
Proof. unfold push_round. destruct (_ <? _); cbn [own_left]; [lia|]. rewrite Z.eqb_refl. lia. Qed.

Lemma push_left b h p b' h' p' :
  buf_ok b -> no_wrap b -> own_ok b p -> push BNext b h p = Some (b', h', p') -> own_left b' p' < own_left b p.
Proof.
  intros (H1 & H2 & H3) Hw Ho H. unfold no_wrap in Hw. destruct p; try discriminate H; cbn [push] in H.
  - injection H as <- _ <-. pose proof (push_round_left b l (b_tail b)). cbn [own_left]. lia.
  - destruct Ho as (H4 & H5 & H6 & H7 & H8). destruct l as [|x l]; [injection H as <- _ <-; cbn [own_left length]; by destruct stored|].
    rewrite size_of_small in H by (unfold CAPACITY in *; lia). destruct (Z.ltb_spec (tail - head) CAPACITY) as [Hlt|Hge]; injection H as <- _ <-.
    + cbn [own_left length]. destruct stored; cbn [app]; lia.
    + destruct stored; [specialize (H8 eq_refl ltac:(done)); lia|]. cbn [own_left length]. lia.
  - cbn [own_left]. destruct (b_head b =? head); injection H as <- _ <-; [cbn; lia|]. pose proof (push_round_left b l (b_tail b)). lia.
Qed.

Lemma pop_left b h p b' h' p' : pop BNext b h p = Some (b', h', p') -> own_left b' p' < own_left b p.
Proof.
  intros H. destruct p; try discriminate H; cbn [pop] in H.
  - injection H as <- _ <-. cbn [own_left]. rewrite Z.eqb_refl. lia.
  - cbn [own_left]. destruct (size_of head (b_tail b) =? 0); [injection H as <- _ <-; cbn [own_left]; by destruct (b_head b =? head)|].
    destruct (b_head b =? head); injection H as <- _ <-; cbn [own_left]; [lia|]. rewrite Z.eqb_refl. lia.
  - injection H as <- _ <-. done.
Qed.

Lemma consume_left b h p b' h' p' : consume BNext b h p = Some (b', h', p') -> own_left b' p' < own_left b p.
Proof.
  intros H. destruct p as [| | | | | | |l stored| | | | | |]; try discriminate H. unfold consume, consume_finish in H.
  destruct l as [|x l]; [|destruct (_ <? CAPACITY)]; try (destruct (length stored =? 0)%nat); injection H as _ _ <-; cbn [own_left length]; lia.
Qed.

Lemma steal_left v b h p v' b' h' p' :
  buf_ok v -> no_wrap v -> thief_ok b v p -> steal BNext v b h p = Some (v', b', h', p') -> own_left b' p' + thief_left v' p' < thief_left v p.
Proof.
  intros (H1 & H2 & H3) Hw Ht H. unfold no_wrap in Hw. destruct p as [| | | | | | | |j|j hd|j hd k m|j hd k m x|j hd k|]; try discriminate H; cbn [steal thief_ok thief_left] in *.
  - injection H as <- <- _ <-. cbn [own_left thief_left]. rewrite Z.eqb_refl. lia.
  - rewrite size_of_small in H by (unfold CAPACITY in *; lia). cbv zeta in H. pose proof (Z.div_mod (b_tail v - hd) 2 ltac:(lia)). pose proof (Z.mod_pos_bound (b_tail v - hd) 2 ltac:(lia)).
    destruct (Z.ltb_spec CAPACITY (b_tail v - hd)) as [Hgt|Hle]; injection H as <- <- _ <-.
    + destruct (Z.eqb_spec (b_head v) hd); [lia|]. cbn [own_left thief_left]. lia.
    + unfold CAPACITY in *. destruct (_ =? 0); cbn [own_left thief_left]; destruct (b_head v =? hd); lia.
  - injection H as <- <- _ <-. cbn [own_left thief_left]. destruct (b_head v =? hd); lia.
  - injection H as <- <- _ <-. destruct (Z.eqb_spec (m + 1) k); cbn [own_left thief_left]; destruct (b_head v =? hd); lia.
  - destruct (b_head v =? hd) eqn:E; injection H as <- <- _ <-; cbn [own_left thief_left]; lia.
Qed.

Definition worker_left (bufs : list Buffer) (w : worker) : Z :=
  match bufs !! me w with Some b => own_left b (pc w) | None => 0 end +
  match victim (pc w) ≫= (bufs !!.) with Some v => thief_left v (pc w) | None => 0 end.

Definition at_rest (i : nat) (cfg : config (list Buffer) worker) : Prop := exists w, threads cfg !! i = Some w /\ pc w = BIdle.
Definition goes_alone (i : nat) (e : event buf_choice) : Prop := who e = i /\ Interleaving.choice e = BNext.

Lemma thief_left_none v p : victim p = None -> thief_left v p = 0.
Proof. by destruct p. Qed.

Lemma own_left_thief b p j : victim p = Some j -> own_left b p = 0.
Proof. by destruct p. Qed.

(** An owner's step, seen in the whole. *)
Lemma worker_left_own bufs w b b' h' p' :
  bufs !! me w = Some b -> victim (pc w) = None -> victim p' = None -> own_left b' p' < own_left b (pc w) ->
  worker_left (<[me w := b']> bufs) (mkWorker (me w) h' p') < worker_left bufs w.
Proof.
  intros Hb Hv Hv' H. unfold worker_left. cbn [me pc]. rewrite Hv, Hv', Hb. cbn [mbind option_bind].
  rewrite list_lookup_insert_eq by (by eapply lookup_lt_Some). lia.
Qed.

Lemma alone_decreases nodes cfg e cfg' w :
  bufs_ok nodes cfg -> written cfg + CAPACITY < 2 ^ 32 -> Interleaving.choice e = BNext -> threads cfg !! who e = Some w -> fire cfg e = Some cfg' ->
  exists w', threads cfg' !! who e = Some w' /\ worker_left (shared cfg') w' < worker_left (shared cfg) w.
Proof.
  intros Hok Hwr He Hw0 (w1 & w' & n & Hw & Hst & Hts & _)%(fire_awake _ _ _ buf_awake). rewrite Hw0 in Hw. injection Hw as <-.
  exists w'. split; [rewrite Hts; apply list_lookup_insert_eq; by eapply lookup_lt_Some|]. clear Hts.
  destruct (bo_workers _ _ Hok _ w Hw0) as (Hme & Hown & Hvic). cbn [step buf_system] in Hst. rewrite He in Hst. unfold buf_step in Hst. apply bind_Some in Hst as (b & Hb & Hst).
  rewrite <- Hme in Hown, Hvic. specialize (Hown b Hb). pose proof (bo_bufs _ _ Hok _ b Hb) as Hbok. pose proof (written_no_wrap cfg _ b Hwr Hb) as Hnw.
  assert (Hop : forall op : option (Buffer * list nat * buf_pc), victim (pc w) = None ->
    (forall b' h' p', op = Some (b', h', p') -> own_effect b (hand w) (pc w) b' h' p' /\ own_left b' p' < own_left b (pc w)) ->
    ('(b, h, p) ← op; Some (<[me w := b]> (shared cfg), mkWorker (me w) h p, 0%nat)) = Some (shared cfg', w', n) -> worker_left (shared cfg') w' < worker_left (shared cfg) w).
  { intros op Hv Heff ([[b' h'] p'] & Ho & [= <- <- _])%bind_Some. destruct (Heff _ _ _ Ho) as [[_ _ _ E _ _ _] Hl]. by apply (worker_left_own _ w b). }
  assert (Hsteal : forall j v, victim (pc w) = Some j -> shared cfg !! j = Some v ->
    ('(v, b, h, p) ← steal BNext v b (hand w) (pc w); Some (<[j := v]> (<[me w := b]> (shared cfg)), mkWorker (me w) h p, 0%nat)) = Some (shared cfg', w', n) ->
    worker_left (shared cfg') w' < worker_left (shared cfg) w).
  { intros j v Hj Hv ([[[v' b'] h'] p'] & Ho & [= <- <- _])%bind_Some. destruct (Hvic j Hj) as (Hne & v0 & Hv0 & Ht). rewrite Hv in Hv0. injection Hv0 as <-.
    pose proof (bo_bufs _ _ Hok _ v Hv) as Hvok. pose proof (written_no_wrap cfg _ v Hwr Hv) as Hvw.
    destruct (steal_effect BNext j v b (hand w) (pc w) v' b' h' p') as [_ [_ _ _ _ _ E _ _]]; try done; [by apply Ht|].
    pose proof (steal_left v b (hand w) (pc w) v' b' h' p' Hvok Hvw (Ht b Hb) Ho) as Hl. unfold worker_left. cbn [me pc].
    pose proof (lookup_lt_Some _ _ _ Hb). pose proof (lookup_lt_Some _ _ _ Hv). rewrite list_lookup_insert_ne, list_lookup_insert_eq, Hb, Hj by done. cbn [mbind option_bind]. rewrite Hv, (own_left_thief b (pc w) j Hj).
    destruct E as [E|E]; rewrite E; cbn [mbind option_bind]; [rewrite list_lookup_insert_eq by (by rewrite length_insert); lia|]. rewrite (thief_left_none v' p' E) in Hl. lia. }
  destruct (pc w) as [| | | | | | | |j|j hd|j hd k m|j hd k m x|j hd k|xs] eqn:Ep.
  - discriminate Hst.
  - apply (Hop _ eq_refl (fun b' h' p' E => conj (push_effect BNext b _ _ b' h' p' Hbok Hnw Hown E) (push_left b _ _ b' h' p' Hbok Hnw Hown E)) Hst).
  - apply (Hop _ eq_refl (fun b' h' p' E => conj (push_effect BNext b _ _ b' h' p' Hbok Hnw Hown E) (push_left b _ _ b' h' p' Hbok Hnw Hown E)) Hst).
  - apply (Hop _ eq_refl (fun b' h' p' E => conj (push_effect BNext b _ _ b' h' p' Hbok Hnw Hown E) (push_left b _ _ b' h' p' Hbok Hnw Hown E)) Hst).
  - apply (Hop _ eq_refl (fun b' h' p' E => conj (pop_effect BNext b _ _ b' h' p' Hbok Hnw Hown E) (pop_left b _ _ b' h' p' E)) Hst).
  - apply (Hop _ eq_refl (fun b' h' p' E => conj (pop_effect BNext b _ _ b' h' p' Hbok Hnw Hown E) (pop_left b _ _ b' h' p' E)) Hst).
  - apply (Hop _ eq_refl (fun b' h' p' E => conj (pop_effect BNext b _ _ b' h' p' Hbok Hnw Hown E) (pop_left b _ _ b' h' p' E)) Hst).
  - apply (Hop _ eq_refl (fun b' h' p' E => conj (consume_effect BNext b _ _ b' h' p' Hbok Hnw Hown E) (consume_left b _ _ b' h' p' E)) Hst).
  - apply bind_Some in Hst as (j' & Hj & (v & Hv & Hst)%bind_Some). by apply (Hsteal j' v).
  - apply bind_Some in Hst as (j' & Hj & (v & Hv & Hst)%bind_Some). by apply (Hsteal j' v).
  - apply bind_Some in Hst as (j' & Hj & (v & Hv & Hst)%bind_Some). by apply (Hsteal j' v).
  - apply bind_Some in Hst as (j' & Hj & (v & Hv & Hst)%bind_Some). by apply (Hsteal j' v).
  - apply bind_Some in Hst as (j' & Hj & (v & Hv & Hst)%bind_Some). by apply (Hsteal j' v).
  - destruct (steal_take b (hand w) (length xs)) as [[b' h'] p'] eqn:Es. injection Hst as <- <- _. pose proof (steal_take_effect b (hand w) xs b' h' p' Hbok Hnw Hown Es) as [_ _ _ E _ _ _].
    apply (worker_left_own _ w b); [done|by rewrite Ep|done|]. rewrite Ep. unfold steal_take in Es. by injection Es as _ _ <-.
Qed.

Lemma alone_enabled nodes cfg i w :
  bufs_ok nodes cfg -> threads cfg !! i = Some w -> pc w <> BIdle -> exists e cfg', goes_alone i e /\ fire cfg e = Some cfg'.
Proof.
  intros Hok Hw Hp. destruct (bo_workers _ _ Hok i w Hw) as (Hme & _ & Hvic).
  assert (Hb : is_Some (shared cfg !! i)) by (apply lookup_lt_is_Some_2; rewrite (bo_len _ _ Hok); by eapply lookup_lt_Some). destruct Hb as [b Hb].
  enough (exists s w', buf_step BNext (shared cfg) w = Some (s, w', 0%nat)) as (s & w' & Hs).
  { exists (mkEvent i BNext []). eexists. split; [done|]. by eapply fire_local. }
  unfold buf_step. rewrite Hme, Hb. cbn [mbind option_bind].
  destruct (pc w) as [|l|l h t stored|l h| |h|h x|l stored|j|j hd|j hd k m|j hd k m x|j hd k|xs] eqn:Ep; try done; cbn [push pop consume steal victim mbind option_bind];
    try (destruct (Hvic _ eq_refl) as (_ & v & -> & _); cbn [mbind option_bind]);
    repeat match goal with |- context [match ?x with _ => _ end] => destruct x; cbn [mbind option_bind] end; eauto.
Qed.

Lemma worker_left_bound nodes cfg i w :
  bufs_ok nodes cfg -> threads cfg !! i = Some w -> 0 <= worker_left (shared cfg) w <= 3 * Z.of_nat (length (carried (pc w))) + 600.
Proof.
  intros Hok Hw. destruct (bo_workers _ _ Hok i w Hw) as (Hme & _ & Hvic).
  assert (Ho : forall b, 0 <= own_left b (pc w) <= 3 * Z.of_nat (length (carried (pc w))) + 10).
  { intros b. destruct (pc w) as [| |l h t stored| | | | | | | | | | |]; cbn [own_left carried length]; rewrite ?length_app; try destruct stored; cbn [length]; try destruct (_ =? _); lia. }
  assert (Hb : is_Some (shared cfg !! i)) by (apply lookup_lt_is_Some_2; rewrite (bo_len _ _ Hok); by eapply lookup_lt_Some). destruct Hb as [b Hb].
  unfold worker_left. rewrite Hme, Hb. specialize (Ho b). destruct (victim (pc w)) as [j|] eqn:Ev; cbn [mbind option_bind]; [|lia].
  destruct (Hvic j eq_refl) as (_ & v & Hv & Ht). rewrite Hv. specialize (Ht b Hb).
  destruct (pc w) as [| | | | | | | |j'|j' hd|j' hd k m|j' hd k m x|j' hd k|xs]; try discriminate Ev; cbn [thief_left own_left thief_ok carried length] in *; try destruct (_ =? _); lia.
Qed.

Lemma length_flat_map_lookup {A} (f : A -> list nat) l i a : l !! i = Some a -> (length (f a) <= length (flat_map f l))%nat.
Proof. intros H. rewrite <- (take_drop_middle l i a H). rewrite flat_map_app. cbn [flat_map]. rewrite !length_app. lia. Qed.

(** Who steps while the clock is below the bound. *)
Lemma alone_ends nodes cfg i w :
  bufs_ok nodes cfg -> threads cfg !! i = Some w -> CAPACITY * (worker_left (shared cfg) w + 1) + written cfg < 2 ^ 32 -> inevitable (at_rest i) (goes_alone i) cfg.
Proof.
  intros Hok Hw Hwr.
  set (left cfg := match threads cfg !! i with Some w => worker_left (shared cfg) w | None => 0 end).
  apply (inevitable_measure _ (fun cfg => bufs_ok nodes cfg /\ is_Some (threads cfg !! i) /\ CAPACITY * (left cfg + 1) + written cfg < 2 ^ 32) _ left).
  - intros c (Hc & [u Hu] & _). unfold left. rewrite Hu. by apply (worker_left_bound nodes c i).
  - intros c (Hc & [u Hu] & Hl). assert (pc u = BIdle \/ pc u <> BIdle) as [Hp|Hp] by (destruct (pc u); solve [by left|by right]); [left; by exists u|right]. split; [by apply (alone_enabled nodes _ _ u)|].
    intros e c' [<- He] Hf. right. unfold left in *. rewrite Hu in *. pose proof (worker_left_bound nodes c _ u Hc Hu) as Hb.
    assert (Hcw : written c + CAPACITY < 2 ^ 32) by (unfold CAPACITY in *; lia).
    destruct (alone_decreases nodes c e c' u Hc Hcw He Hu Hf) as (u' & Hu' & Hlt). destruct (next_ok_fire nodes c e c' Hc Hcw Hf) as (Hc' & Hw' & _).
    rewrite Hu'. split; [|done]. split; [done|]. split; [done|]. unfold CAPACITY in *. lia.
  - split; [done|]. split; [done|]. unfold left. by rewrite Hw.
Qed.

Definition owned (w : worker) : list nat := hand w ++ carried (pc w).

(** (C21) Workers push, pop, refill and steal, every atomic access interleaved in any way, exchanges failing for no
    reason. As long as the 32-bit indices have not wrapped around: no node is lost or in two places; a buffer holds at most 256
    nodes; a step appends nodes to a buffer or takes some from its front, whatever its owner overwrites meanwhile; a
    [pop] or a [steal] gives up only when the buffer is empty at that moment, and changes nothing then; and a worker that
    is left alone ends its call, whatever the others were doing. *)
Theorem buffers_correct (hands : list (list nat)) (es : list (event buf_choice)) (cfg : config (list Buffer) worker)
  (Hn : CAPACITY * (Z.of_nat (length es) + 3 * Z.of_nat (length (concat hands)) + 602) < 2 ^ 32)
  (Hr : run (buf_init hands) es = Some cfg) :
  flat_map owned (threads cfg) ++ flat_map content (shared cfg) ≡ₚ concat hands /\
  (forall i b, shared cfg !! i = Some b -> (length (content b) <= 256)%nat) /\
  (forall e cfg', fire cfg e = Some cfg' -> queue_steps (shared cfg) (shared cfg')) /\
  (forall i w b c b' h', threads cfg !! i = Some w -> shared cfg !! i = Some b ->
     (exists hd, pc w = PopCas hd) -> pop c b (hand w) (pc w) = Some (b', h', BIdle) -> content b = [] /\ b' = b /\ h' = hand w) /\
  (forall i w b j v c v' b' h', threads cfg !! i = Some w -> shared cfg !! i = Some b -> victim (pc w) = Some j -> shared cfg !! j = Some v ->
     steal c v b (hand w) (pc w) = Some (v', b', h', BIdle) -> content v = [] /\ v' = v /\ b' = b /\ h' = hand w) /\
  (forall i, is_Some (threads cfg !! i) -> inevitable (at_rest i) (goes_alone i) cfg).
Proof.
  destruct (run_invariant_clock_by CAPACITY (bufs_ok (concat hands)) written (CAPACITY * (Z.of_nat (length es))) (buf_init hands) es cfg) as [Hok Hw].
  - done.
  - intros c e c' Hc Hb Hf. destruct (next_ok_fire _ c e c' Hc) as (H1 & H2 & _); [unfold CAPACITY in *; lia|done|done].
  - apply bufs_ok_init.
  - rewrite written_init. lia.
  - done.
  - rewrite written_init in Hw.
    assert (Hp : flat_map owned (threads cfg) ++ flat_map content (shared cfg) ≡ₚ concat hands).
    { apply cnt_Permutation. intros z. rewrite cnt_app. apply Nat2Z.inj. rewrite Nat2Z.inj_add, !cnt_flat_map, <- (bo_nodes _ _ Hok z).
      f_equal. apply tally_ext. intros w. unfold owned, in_hands. by rewrite cnt_app. }
    assert (Hnw : written cfg + CAPACITY < 2 ^ 32) by (unfold CAPACITY in *; lia).
    split_and!.
    + done.
    + intros i b Hb. destruct (bo_bufs _ _ Hok i b Hb) as (H1 & H2 & _). unfold content. rewrite length_slots. unfold CAPACITY in *. lia.
    + intros e cfg' Hf. by apply (next_ok_fire (concat hands) cfg e cfg').
    + intros i w b c b' h' Hi Hb Hpc Hpop. apply (pop_nothing c b _ (pc w)); [by apply (bo_bufs _ _ Hok i)|by apply (written_no_wrap cfg i)| |by right|done].
      by apply (bo_workers _ _ Hok i w Hi).
    + intros i w b j v c v' b' h' Hi Hb Hj Hv Hs. apply (steal_nothing c v b _ (pc w)); [by apply (bo_bufs _ _ Hok j)|by apply (written_no_wrap cfg j)| |done].
      destruct (bo_workers _ _ Hok i w Hi) as (_ & _ & Hvic). destruct (Hvic j Hj) as (_ & v0 & Hv0 & Ht). rewrite Hv in Hv0. injection Hv0 as <-. by apply Ht.
    + intros i [w Hi]. apply (alone_ends (concat hands) cfg i w); [done|done|]. pose proof (worker_left_bound _ cfg i w Hok Hi) as Hb.
      assert (Hc : (length (carried (pc w)) <= length (concat hands))%nat).
      { pose proof (length_flat_map_lookup owned _ _ _ Hi) as Hl. apply Permutation_length in Hp. unfold owned at 1 in Hl. rewrite !length_app in *. lia. }
      unfold CAPACITY in *. lia.
Qed.

(** Worker 1 has copied two nodes of worker 0 and lost the race against worker 0's [pop]: it starts again. *)
Definition lost_race : list (event buf_choice) :=
  let next i := mkEvent i BNext [] in
  [mkEvent 0 (BPush [1; 2; 3]%nat) []; next 0%nat; next 0%nat; next 0%nat; next 0%nat; next 0%nat; mkEvent 1 (BSteal 0) []] ++ replicate 6 (next 1%nat) ++
  [mkEvent 0 BPop []; next 0%nat; next 0%nat; next 0%nat; next 1%nat].

Lemma buffers_correct_witness :
  exists cfg, run (buf_init [[1; 2; 3]%nat; []]) lost_race = Some cfg /\
    threads cfg = [mkWorker 0 [1%nat] BIdle; mkWorker 1 [] (StealHead 0)] /\ content <$> shared cfg = [[2; 3]; []]%nat /\
    inevitable (at_rest 1) (goes_alone 1) cfg.
Proof.
  eexists. split; [vm_compute; reflexivity|]. split_and!; [reflexivity|reflexivity|].
  apply (buffers_correct [[1; 2; 3]%nat; []] lost_race); [reflexivity|vm_compute; reflexivity|eexists; reflexivity].
Defined.
