(* ===== verification/PoolWord.v ===== *)
(** * The packed word of the thread pool ([threading/ThreadPool.rs], [Sync])

    Four fields of a 32-bit word: the idle threads, the spawned ones, whether a notification waits to be taken, and the
    state. Each setter writes its field and leaves the others. *)

From stdpp Require Import list.
From S2P Require Import Prelude.
Local Open Scope Z_scope.

(** ** The packed word *)

Inductive SyncState := Pending | Signaled | Waking | Shutdown.

Definition IDLE_MASK : Z := 0x3FFF.
Definition SPAWNED_SHIFT : Z := 14.
Definition SPAWNED_MASK : Z := Z.shiftl 0x3FFF SPAWNED_SHIFT.
Definition NOTIFIED_BIT : Z := Z.shiftl 1 29.
Definition STATE_SHIFT : Z := 30.
Definition STATE_MASK : Z := Z.shiftl 3 STATE_SHIFT.

Definition not32 (m : Z) : Z := Z.lxor (Z.ones 32) m.
Definition state_code (s : SyncState) : Z := match s with Pending => 0 | Signaled => 1 | Waking => 2 | Shutdown => 3 end.

Definition idle (w : Z) : Z := Z.land w IDLE_MASK.
Definition set_idle (w v : Z) : Z := Z.lor (Z.land w (not32 IDLE_MASK)) (Z.land v IDLE_MASK).
Definition spawned (w : Z) : Z := Z.shiftr (Z.land w SPAWNED_MASK) SPAWNED_SHIFT.
Definition set_spawned (w v : Z) : Z := Z.lor (Z.land w (not32 SPAWNED_MASK)) (Z.shiftl (Z.land v 0x3FFF) SPAWNED_SHIFT).
Definition notified (w : Z) : bool := negb (Z.land w NOTIFIED_BIT =? 0).
Definition set_notified (w : Z) (v : bool) : Z := if v then Z.lor w NOTIFIED_BIT else Z.land w (not32 NOTIFIED_BIT).
Definition state (w : Z) : SyncState :=
  let s := Z.land (Z.shiftr w STATE_SHIFT) 3 in
  if s =? 0 then Pending else if s =? 1 then Signaled else if s =? 2 then Waking else Shutdown.
Definition set_state (w : Z) (s : SyncState) : Z := Z.lor (Z.land w (not32 STATE_MASK)) (Z.shiftl (state_code s) STATE_SHIFT).

#[global] Instance SyncState_eq_dec : EqDecision SyncState.
Proof. solve_decision. Defined.

(** A field of a word: [width] bits from [shift] on. *)
Definition field (shift width w : Z) : Z := Z.land (Z.shiftr w shift) (Z.ones width).

Lemma field_set_same shift width w v : 0 <= shift -> 0 <= width -> shift + width <= 32 -> 0 <= v < 2 ^ width ->
  field shift width (Z.lor (Z.land w (not32 (Z.shiftl (Z.ones width) shift))) (Z.shiftl v shift)) = v.
Proof.
  intros Hs Hw Hb Hv. assert (Ev : Z.land v (Z.ones width) = v) by (rewrite Z.land_ones, Z.mod_small by lia; done). rewrite <- Ev at 2.
  unfold field, not32. apply Z.bits_inj'. intros n Hn. rewrite !Z.land_spec, Z.shiftr_spec, Z.lor_spec, Z.land_spec, Z.lxor_spec, !Z.shiftl_spec, !Z.testbit_ones_nonneg by lia.
  replace (n + shift - shift) with n by lia. destruct (Z.ltb_spec n width); [|by rewrite !andb_false_r]. rewrite (proj2 (Z.ltb_lt (n + shift) 32)) by lia. cbn [xorb]. by rewrite andb_false_r.
Qed.

Lemma field_set_other shift width shift' width' w v : 0 <= shift -> 0 <= width -> 0 <= shift' -> 0 <= width' -> shift' + width' <= 32 ->
  shift' + width' <= shift \/ shift + width <= shift' -> 0 <= v < 2 ^ width ->
  field shift' width' (Z.lor (Z.land w (not32 (Z.shiftl (Z.ones width) shift))) (Z.shiftl v shift)) = field shift' width' w.
Proof.
  intros Hs Hw Hs' Hw' Hb Hd Hv. assert (Ev : Z.land v (Z.ones width) = v) by (rewrite Z.land_ones, Z.mod_small by lia; done). rewrite <- Ev.
  unfold field, not32. apply Z.bits_inj'. intros n Hn. rewrite !Z.land_spec, !Z.shiftr_spec, Z.lor_spec, Z.land_spec, Z.lxor_spec, !Z.shiftl_spec, Z.land_spec, !Z.testbit_ones by lia.
  destruct (Z.leb_spec 0 n), (Z.ltb_spec n width'); try lia; cbn [andb]; rewrite ?andb_false_r; try done; rewrite ?andb_true_r.
  destruct (Z.leb_spec 0 (n + shift')), (Z.ltb_spec (n + shift') 32); try lia. destruct (Z.leb_spec 0 (n + shift' - shift)), (Z.ltb_spec (n + shift' - shift) width); try lia; cbn [andb xorb];
    by rewrite ?andb_false_r, ?andb_true_r, ?orb_false_r.
Qed.

Lemma idle_field w : idle w = field 0 14 w.
Proof. unfold idle, field. by rewrite Z.shiftr_0_r. Qed.
Lemma spawned_field w : spawned w = field 14 14 w.
Proof. unfold spawned, field, SPAWNED_MASK, SPAWNED_SHIFT. rewrite Z.shiftr_land, Z.shiftr_shiftl_l by lia. done. Qed.
Lemma notified_field w : notified w = (field 29 1 w =? 1).
Proof.
  unfold notified, field, NOTIFIED_BIT. assert (E : Z.land w (Z.shiftl 1 29) = Z.shiftl (Z.land (Z.shiftr w 29) (Z.ones 1)) 29).
  { rewrite Z.shiftl_land. change (Z.shiftl (Z.ones 1) 29) with (Z.shiftl 1 29). apply Z.bits_inj'. intros n Hn. rewrite !Z.land_spec, !Z.shiftl_spec by lia.
    destruct (Z.leb_spec 29 n); [rewrite Z.shiftr_spec by lia; f_equal; f_equal; lia|]. rewrite (Z.testbit_neg_r 1) by lia. by rewrite !andb_false_r. }
  rewrite E, Z.land_ones by lia. pose proof (Z.mod_pos_bound (Z.shiftr w 29) (2 ^ 1) ltac:(lia)). rewrite Z.shiftl_mul_pow2 by lia. change (2 ^ 1) with 2 in *.
  destruct (Z.eqb_spec (Z.shiftr w 29 mod 2) 1) as [->|]; [done|]. by replace (Z.shiftr w 29 mod 2) with 0 by lia.
Qed.
Lemma state_field w : state w = (let s := field 30 2 w in if s =? 0 then Pending else if s =? 1 then Signaled else if s =? 2 then Waking else Shutdown).
Proof. done. Qed.

Lemma field_lor shift width a b : 0 <= shift -> field shift width (Z.lor a b) = Z.lor (field shift width a) (field shift width b).
Proof. intros. unfold field. by rewrite Z.shiftr_lor, Z.land_lor_distr_l. Qed.
Lemma field_land shift width a b : 0 <= shift -> field shift width (Z.land a b) = Z.land (field shift width a) (field shift width b).
Proof. intros. unfold field. rewrite Z.shiftr_land. apply Z.bits_inj'. intros n Hn. rewrite !Z.land_spec. by destruct (Z.testbit (Z.shiftr a shift) n), (Z.testbit (Z.shiftr b shift) n), (Z.testbit (Z.ones width) n). Qed.
Lemma field_ones shift width w : 0 <= width -> Z.land (field shift width w) (Z.ones width) = field shift width w.
Proof. intros. unfold field. by rewrite <- Z.land_assoc, Z.land_diag. Qed.
Lemma field_bound shift width w : 0 <= width -> 0 <= field shift width w < 2 ^ width.
Proof. intros. unfold field. rewrite Z.land_ones by lia. apply Z.mod_pos_bound. lia. Qed.

Lemma idle_bound w : 0 <= idle w < 16384.
Proof. rewrite idle_field. apply (field_bound 0 14). lia. Qed.
Lemma spawned_bound w : 0 <= spawned w < 16384.
Proof. rewrite spawned_field. apply (field_bound 14 14). lia. Qed.

(** ** Reading a field behind writing one *)

Lemma state_code_inj w s : field 30 2 w = state_code s -> state w = s.
Proof. intros E. rewrite state_field, E. by destruct s. Qed.
Lemma state_code_range s : 0 <= state_code s < 2 ^ 2.
Proof. by destruct s. Qed.

Lemma low14 v : 0 <= Z.land v 0x3FFF < 2 ^ 14.
Proof. change 0x3FFF with (Z.ones 14). rewrite Z.land_ones by lia. apply Z.mod_pos_bound. lia. Qed.
Lemma low14_id v : 0 <= v < 16384 -> Z.land v 0x3FFF = v.
Proof. intros. change 0x3FFF with (Z.ones 14). rewrite Z.land_ones, Z.mod_small by lia. done. Qed.

Section laws.
Context (w v : Z) (b : bool) (s : SyncState).

Lemma set_idle_as : set_idle w v = Z.lor (Z.land w (not32 (Z.shiftl (Z.ones 14) 0))) (Z.shiftl (Z.land v 0x3FFF) 0).
Proof. by rewrite Z.shiftl_0_r. Qed.
Lemma set_spawned_as : set_spawned w v = Z.lor (Z.land w (not32 (Z.shiftl (Z.ones 14) 14))) (Z.shiftl (Z.land v 0x3FFF) 14).
Proof. done. Qed.
Lemma set_state_as : set_state w s = Z.lor (Z.land w (not32 (Z.shiftl (Z.ones 2) 30))) (Z.shiftl (state_code s) 30).
Proof. done. Qed.

Lemma field_notified shift width : 0 <= shift -> 0 <= width -> shift + width <= 29 \/ 30 <= shift -> shift + width <= 32 -> field shift width (set_notified w b) = field shift width w.
Proof.
  intros Hs Hw Hd Hb. unfold set_notified. destruct b; rewrite ?field_lor, ?field_land by done.
  - enough (E : field shift width NOTIFIED_BIT = 0) by (by rewrite E, Z.lor_0_r). unfold field, NOTIFIED_BIT. apply Z.bits_inj'. intros n Hn. rewrite Z.land_spec, Z.shiftr_spec, Z.shiftl_spec, Z.testbit_ones_nonneg, Z.bits_0 by lia.
    destruct (Z.ltb_spec n width); [|by rewrite andb_false_r]. rewrite andb_true_r. destruct (Z.ltb_spec (n + shift) 29); [by rewrite Z.testbit_neg_r by lia|]. by rewrite Z.bits_above_log2 by (cbn; lia).
  - enough (E : field shift width (not32 NOTIFIED_BIT) = Z.ones width) by (by rewrite E, field_ones). unfold field, not32, NOTIFIED_BIT. apply Z.bits_inj'. intros n Hn. rewrite Z.land_spec, Z.shiftr_spec, Z.lxor_spec, Z.shiftl_spec, !Z.testbit_ones_nonneg by lia.
    destruct (Z.ltb_spec n width); [|by rewrite andb_false_r]. rewrite (proj2 (Z.ltb_lt _ _)), andb_true_r by lia. destruct (Z.ltb_spec (n + shift) 29); [by rewrite Z.testbit_neg_r by lia|]. by rewrite Z.bits_above_log2 by (cbn; lia).
Qed.

Lemma idle_set_idle : 0 <= v < 16384 -> idle (set_idle w v) = v.
Proof. intros Hv. rewrite idle_field, set_idle_as, field_set_same; rewrite ?low14_id; try done; lia. Qed.
Lemma spawned_set_idle : spawned (set_idle w v) = spawned w.
Proof. rewrite !spawned_field, set_idle_as. apply field_set_other; try lia. apply low14. Qed.
Lemma notified_set_idle : notified (set_idle w v) = notified w.
Proof. rewrite !notified_field, set_idle_as. rewrite field_set_other; [done|try lia..|apply low14]. Qed.
Lemma state_set_idle : state (set_idle w v) = state w.
Proof. rewrite !state_field, set_idle_as. rewrite field_set_other; [done|try lia..|apply low14]. Qed.

Lemma idle_set_spawned : idle (set_spawned w v) = idle w.
Proof. rewrite !idle_field, set_spawned_as. apply field_set_other; try lia. apply low14. Qed.
Lemma spawned_set_spawned : 0 <= v < 16384 -> spawned (set_spawned w v) = v.
Proof. intros Hv. rewrite spawned_field, set_spawned_as, field_set_same; rewrite ?low14_id; try done; lia. Qed.
Lemma notified_set_spawned : notified (set_spawned w v) = notified w.
Proof. rewrite !notified_field, set_spawned_as. rewrite field_set_other; [done|try lia..|apply low14]. Qed.
Lemma state_set_spawned : state (set_spawned w v) = state w.
Proof. rewrite !state_field, set_spawned_as. rewrite field_set_other; [done|try lia..|apply low14]. Qed.

Lemma idle_set_state : idle (set_state w s) = idle w.
Proof. rewrite !idle_field, set_state_as. apply field_set_other; try lia. apply state_code_range. Qed.
Lemma spawned_set_state : spawned (set_state w s) = spawned w.
Proof. rewrite !spawned_field, set_state_as. apply field_set_other; try lia. apply state_code_range. Qed.
Lemma notified_set_state : notified (set_state w s) = notified w.
Proof. rewrite !notified_field, set_state_as. rewrite field_set_other; [done|try lia..|apply state_code_range]. Qed.
Lemma state_set_state : state (set_state w s) = s.
Proof. apply state_code_inj. rewrite set_state_as. apply field_set_same; try lia. apply state_code_range. Qed.

Lemma idle_set_notified : idle (set_notified w b) = idle w.
Proof. rewrite !idle_field. apply field_notified; lia. Qed.
Lemma spawned_set_notified : spawned (set_notified w b) = spawned w.
Proof. rewrite !spawned_field. apply field_notified; lia. Qed.
Lemma state_set_notified : state (set_notified w b) = state w.
Proof. rewrite !state_field. rewrite field_notified; [done|lia..]. Qed.
Lemma notified_set_notified : notified (set_notified w b) = b.
Proof.
  rewrite notified_field. unfold set_notified. destruct b; rewrite ?field_lor, ?field_land by done.
  - change (field 29 1 NOTIFIED_BIT) with 1. pose proof (field_bound 29 1 w ltac:(lia)). change (2 ^ 1) with 2 in *. assert (E : field 29 1 w = 0 \/ field 29 1 w = 1) by lia. by destruct E as [->| ->].
  - change (field 29 1 (not32 NOTIFIED_BIT)) with 0. by rewrite Z.land_0_r.
Qed.
End laws.

#[export] Hint Rewrite spawned_set_idle notified_set_idle state_set_idle idle_set_spawned notified_set_spawned state_set_spawned
  idle_set_state spawned_set_state notified_set_state state_set_state idle_set_notified spawned_set_notified state_set_notified notified_set_notified : sync_word.

(** A release of one spawned thread by [fetch_sub]. *)
Lemma field_div shift width w : 0 <= shift -> 0 <= width -> field shift width w = (w / 2 ^ shift) mod 2 ^ width.
Proof. intros. unfold field. by rewrite Z.land_ones, Z.shiftr_div_pow2 by lia. Qed.

Definition one_spawned : Z := set_spawned 0 1.

Lemma one_spawned_less w : 0 < spawned w ->
  spawned (w - one_spawned) = spawned w - 1 /\ idle (w - one_spawned) = idle w /\ notified (w - one_spawned) = notified w /\ state (w - one_spawned) = state w.
Proof.
  change one_spawned with 16384. rewrite !idle_field, !spawned_field, !notified_field, !state_field, !field_div by lia. change (2 ^ 0) with 1. change (2 ^ 14) with 16384. change (2 ^ 29) with (16384 * 32768). change (2 ^ 30) with (16384 * 65536).
  intros Hs. assert (Hq : (w - 16384) / 16384 = w / 16384 - 1) by (replace (w - 16384) with (w + -1 * 16384) by lia; rewrite Z.div_add by lia; lia).
  rewrite <- !Z.div_div, Hq by lia. rewrite !Z.div_1_r. set (q := w / 16384) in *.
  assert (H29 : (q - 1) / 32768 = q / 32768) by (clearbody q; clear - Hs; Z.to_euclidean_division_equations; lia).
  assert (H30 : (q - 1) / 65536 = q / 65536) by (clearbody q; clear - Hs; Z.to_euclidean_division_equations; lia). rewrite H29, H30.
  split_and!; [| |done|done].
  - clearbody q. clear - Hs. Z.to_euclidean_division_equations; lia.
  - replace (w - 16384) with (w + -1 * 16384) by lia. rewrite Z.mod_add by lia. rewrite idle_field, field_div by lia. change (2 ^ 0) with 1. by rewrite Z.div_1_r.
Qed.

Lemma field_wrap shift width w : 0 <= shift -> 0 <= width -> shift + width <= 32 -> field shift width (wrap 32 w) = field shift width w.
Proof.
  intros. unfold field, wrap. apply Z.bits_inj'. intros n Hn. rewrite !Z.land_spec, !Z.shiftr_spec, Z.testbit_mod_pow2, Z.testbit_ones by lia.
  destruct (Z.leb_spec 0 n), (Z.ltb_spec n width); try lia; cbn [andb]; rewrite ?andb_false_r; try done. by rewrite (proj2 (Z.ltb_lt _ _)) by lia.
Qed.

