(* ===== verification/PoolSync.v ===== *)
(** * The wake-up protocol of the thread pool ([threading/ThreadPool.rs], [ThreadPool])

    [schedule] pushes its tasks and notifies; a worker waits, takes tasks until it finds none, and passes the waking on. Any
    number of threads take part, in any order of their steps. The event the idle threads sleep on is modelled by what it
    promises ([PoolEvent.event_correct]): a token that one waiter takes. Here the system and its invariant; what follows from
    them is in PoolRest. *)

From stdpp Require Import list.
From S2P Require Import Prelude Interleaving PoolWord.
Local Open Scope Z_scope.

(** ** The threads *)

Definition EMPTY : Z := 0.
Definition NOTIFIED : Z := 2.
Definition SHUTDOWN : Z := 3.

(** [bag]: the tasks that are in the queues and buffers; [busy]: the workers between [pop] and the end of their task;
    [unfinished]: the count of the wait group. [Thread::pop] is not the code here but a step on the bag: it answers a task, or
    nothing, and that it answers nothing only when the bag is empty or another worker is busy (it may hold the queue or have
    tasks in a buffer that was passed over) is an assumption on it, not derived from the queues. *)
Record pool := mkPool { sync : Z; idle_event : Z; join_event : bool; bag : Z; busy : Z; unfinished : Z }.

(** Where a thread is. [worker]: the call was made by a worker that runs a task. [seen]: the copy of the word. *)
Inductive pool_pc :=
| Outside
| Push (worker : bool) (len : Z)
| NotifyFast (worker : bool)
| NotifyLoad (worker is_waking : bool)
| NotifyLoop (worker is_waking : bool) (seen : Z)
| NotifyPost (worker : bool)
| Spawn (worker : bool)
| Unborn
| WaitLoad (is_waking : bool)
| WaitLoop (is_idle is_waking : bool) (seen : Z)
| WaitSleep
| WaitReload
| Pop (is_waking : bool)
| Moving (is_waking : bool) (taken : Z)
| Exec
| Leave
| Left_
| ShutLoad
| ShutLoop (seen : Z)
| ShutPost.

(** [CSchedule len], [CShutdown], [CWakeIdle]: calls; the rest are steps: [CTake n] and [CNone] are the answers of
    [Thread::pop], [CFail] a thread that cannot be spawned, [CSpurious] an exchange that fails for no reason. *)
Inductive pool_choice := CSchedule (len : Z) | CShutdown | CWakeIdle | CNext | CTake (n : Z) | CNone | CFail | CSpurious.

Definition with_sync (s : pool) (w : Z) : pool := mkPool w (idle_event s) (join_event s) (bag s) (busy s) (unfinished s).
Definition with_event (s : pool) (e : Z) : pool := mkPool (sync s) e (join_event s) (bag s) (busy s) (unfinished s).
Definition with_tasks (s : pool) (b m u : Z) : pool := mkPool (sync s) (idle_event s) (join_event s) b m u.

(** Back from a call: the worker goes on with its task. *)
Definition return_from (worker : bool) : pool_pc := if worker then Exec else Outside.

Section pool.
Context (max_threads : Z) (shut fails : bool).

(** One round of the loop of [notify_slow]. *)
Definition notify_round (weak worker is_waking : bool) (seen : Z) (s : pool) : pool * pool_pc :=
  let exchanged := (sync s =? seen) && negb weak in
  let again := (s, NotifyLoop worker is_waking (sync s)) in
  if decide (state seen = Shutdown) then (s, return_from worker)
  else
    let can_wake := is_waking || bool_decide (state seen = Pending) in
    let new_sync := set_notified seen true in
    if can_wake && (0 <? idle seen) then
      if exchanged then (with_sync s (set_state new_sync Signaled), NotifyPost worker) else again
    else if can_wake && (spawned seen <? max_threads) then
      if exchanged then (with_sync s (set_spawned (set_state new_sync Signaled) (spawned seen + 1)), Spawn worker) else again
    else if is_waking then
      if exchanged then (with_sync s (set_state new_sync Pending), return_from worker) else again
    else if notified seen then (s, return_from worker)
    else if exchanged then (with_sync s new_sync, return_from worker) else again.

(** One round of the loop of [wait]. *)
Definition wait_round (weak is_idle is_waking : bool) (seen : Z) (s : pool) : pool * pool_pc :=
  let exchanged := (sync s =? seen) && negb weak in
  let again := (s, WaitLoop is_idle is_waking (sync s)) in
  if decide (state seen = Shutdown) then (s, Leave)
  else if notified seen then
    let new_sync := set_notified seen false in
    let new_sync := if is_idle : bool then set_idle new_sync (idle new_sync - 1) else new_sync in
    let new_sync := if decide (state seen = Signaled) then set_state new_sync Waking else new_sync in
    if exchanged then (with_sync s new_sync, Pop (is_waking || bool_decide (state seen = Signaled))) else again
  else if negb is_idle then
    let new_sync := set_idle seen (idle seen + 1) in
    let new_sync := if is_waking : bool then set_state new_sync Pending else new_sync in
    if exchanged then (with_sync s new_sync, WaitLoop true false seen) else again
  else (s, WaitSleep).

(** One round of the loop of [shutdown]. *)
Definition shutdown_round (weak : bool) (seen : Z) (s : pool) : pool * pool_pc :=
  if decide (state seen = Shutdown) then (s, Outside)
  else if (sync s =? seen) && negb weak then
    (with_sync s (set_idle (set_state (set_notified seen true) Shutdown) 0), if 0 <? idle seen then ShutPost else Outside)
  else (s, ShutLoop (sync s)).

(** [unregister] up to the wait for the joiner: the last one of a pool that is shut down wakes it. *)
Definition unregister (s : pool) : pool :=
  mkPool (wrap 32 (sync s - one_spawned)) (idle_event s) (join_event s || (bool_decide (state (sync s) = Shutdown) && (spawned (sync s) =? 1))) (bag s) (busy s) (unfinished s).

(** What [run] does with a task that [pop] has found. *)
Definition found (is_waking : bool) (taken : Z) : pool_pc := if is_waking then NotifyLoad true true else if 1 <? taken then NotifyFast true else Exec.

(** [schedule_impl] counts the tasks for the wait group, then pushes them and notifies. *)
Definition schedule_impl (worker : bool) (len : Z) (s : pool) : option (pool * pool_pc * nat) :=
  if 0 <? len then Some (with_tasks s (bag s) (busy s) (unfinished s + len), Push worker len, 0%nat) else Some (s, return_from worker, 0%nat).

(** The fast path of [notify]: a notification that is there is enough. *)
Definition notify (worker : bool) (s : pool) : pool_pc := if notified (sync s) then return_from worker else NotifyLoad worker false.

Definition pool_step (c : pool_choice) (s : pool) (pc : pool_pc) : option (pool * pool_pc * nat) :=
  match c, pc with
  | CSchedule len, Outside => schedule_impl false len s
  | CSchedule len, Exec => schedule_impl true len s
  | CShutdown, Outside => if shut then Some (s, ShutLoad, 0%nat) else None
  | CWakeIdle, Outside => Some (with_event s NOTIFIED, Outside, 0%nat)
  | CNext, Push worker len => Some (with_tasks s (bag s + len) (busy s) (unfinished s), NotifyFast worker, 0%nat)
  | CNext, NotifyFast worker => Some (s, notify worker s, 0%nat)
  | CNext, NotifyLoad worker is_waking => Some (s, NotifyLoop worker is_waking (sync s), 0%nat)
  | CNext, NotifyLoop worker is_waking seen => Some (notify_round false worker is_waking seen s, 0%nat)
  | CSpurious, NotifyLoop worker is_waking seen => Some (notify_round true worker is_waking seen s, 0%nat)
  | CNext, NotifyPost worker => Some (with_event s NOTIFIED, return_from worker, 0%nat)
  | CNext, Spawn worker => Some (s, return_from worker, 1%nat)
  | CFail, Spawn worker => if fails then Some (unregister s, return_from worker, 0%nat) else None
  | CNext, WaitLoad is_waking => Some (s, WaitLoop false is_waking (sync s), 0%nat)
  | CNext, WaitLoop is_idle is_waking seen => Some (wait_round false is_idle is_waking seen s, 0%nat)
  | CSpurious, WaitLoop is_idle is_waking seen => Some (wait_round true is_idle is_waking seen s, 0%nat)
  | CNext, WaitSleep =>
      if idle_event s =? NOTIFIED then Some (with_event s EMPTY, WaitReload, 0%nat)
      else if idle_event s =? SHUTDOWN then Some (s, WaitReload, 0%nat) else None
  | CNext, WaitReload => Some (s, WaitLoop true false (sync s), 0%nat)
  | CTake n, Pop is_waking => if (0 <? n) && (n <=? bag s) then Some (with_tasks s (bag s - n) (busy s + 1) (unfinished s), Moving is_waking n, 0%nat) else None
  | CNone, Pop is_waking => if (bag s =? 0) || (0 <? busy s) then Some (s, WaitLoad is_waking, 0%nat) else None
  | CNext, Moving is_waking taken => Some (with_tasks s (bag s + (taken - 1)) (busy s) (unfinished s), found is_waking taken, 0%nat)
  | CNext, Exec => Some (with_tasks s (bag s) (busy s - 1) (unfinished s - 1), Pop false, 0%nat)
  | CNext, Leave => Some (unregister s, Left_, 0%nat)
  | CNext, ShutLoad => Some (s, ShutLoop (sync s), 0%nat)
  | CNext, ShutLoop seen => Some (shutdown_round false seen s, 0%nat)
  | CSpurious, ShutLoop seen => Some (shutdown_round true seen s, 0%nat)
  | CNext, ShutPost => Some (with_event s SHUTDOWN, Outside, 0%nat)
  | _, _ => None
  end.

Definition born (pc : pool_pc) : option pool_pc := match pc with Unborn => Some (WaitLoad false) | _ => None end.

#[export] Instance pool_system : System pool pool_pc pool_choice := {| step := pool_step; woken := born |}.
End pool.

(** [ThreadPool::init]: no thread has been spawned; some threads from outside. *)
Definition pool_init (max_threads clients : nat) : config pool pool_pc :=
  mkConfig (mkPool 0 EMPTY false 0 0 0) (replicate max_threads Unborn ++ replicate clients Outside).

(** ** What a round does *)

Lemma not_exchanged s seen weak : (sync s =? seen) && negb weak = false -> weak = false -> sync s <> seen.
Proof. intros E ->. rewrite andb_true_r in E. by apply Z.eqb_neq. Qed.

Section rounds.
Context (max_threads : Z) (Hmax : 1 <= max_threads < 16384).

(** A round of [notify_slow] leaves the word alone, or sets the notification, with a thread to wake or to spawn, or none. *)
Inductive notify_effect (weak worker is_waking : bool) (seen : Z) (s : pool) : pool -> pool_pc -> Prop :=
| notify_shut : state seen = Shutdown -> notify_effect weak worker is_waking seen s s (return_from worker)
| notify_noted : state seen <> Shutdown -> is_waking = false -> notified seen = true -> notify_effect weak worker is_waking seen s s (return_from worker)
| notify_again : state seen <> Shutdown -> (weak = false -> sync s <> seen) -> notify_effect weak worker is_waking seen s s (NotifyLoop worker is_waking (sync s))
| notify_wakes w :
    seen = sync s -> state seen <> Shutdown -> notified w = true -> idle w = idle seen -> (is_waking = true \/ state seen = Pending) -> state w = Signaled ->
    0 < idle seen -> spawned w = spawned seen -> notify_effect weak worker is_waking seen s (with_sync s w) (NotifyPost worker)
| notify_spawns w :
    seen = sync s -> state seen <> Shutdown -> notified w = true -> idle w = idle seen -> (is_waking = true \/ state seen = Pending) -> state w = Signaled ->
    spawned seen < max_threads -> spawned w = spawned seen + 1 -> notify_effect weak worker is_waking seen s (with_sync s w) (Spawn worker)
| notify_marks w :
    seen = sync s -> state seen <> Shutdown -> notified w = true -> idle w = idle seen -> spawned w = spawned seen ->
    (is_waking = true /\ state w = Pending \/ is_waking = false /\ notified seen = false /\ state w = state seen) ->
    (is_waking = true \/ state seen = Pending -> idle seen = 0 /\ max_threads <= spawned seen) ->
    notify_effect weak worker is_waking seen s (with_sync s w) (return_from worker).

Lemma notify_round_effect weak worker is_waking seen s : notify_effect weak worker is_waking seen s (notify_round max_threads weak worker is_waking seen s).1 (notify_round max_threads weak worker is_waking seen s).2.
Proof.
  unfold notify_round. destruct (decide (state seen = Shutdown)) as [Hs|Hs]; [by constructor|]. pose proof (idle_bound seen) as Hi. pose proof (spawned_bound seen) as Hsp.
  destruct (is_waking || bool_decide (state seen = Pending)) eqn:Hc; cbn [andb].
  - assert (Hw : is_waking = true \/ state seen = Pending) by (apply orb_true_iff in Hc as [?|?%bool_decide_eq_true]; auto).
    destruct (Z.ltb_spec 0 (idle seen)); [|destruct (Z.ltb_spec (spawned seen) max_threads); [|destruct is_waking; [|destruct (notified seen) eqn:En]]].
    all: try (by apply notify_noted).
    all: destruct ((sync s =? seen) && negb weak) eqn:Ex; [|apply notify_again; [done|by apply not_exchanged]]; apply andb_true_iff in Ex as [Ex%Z.eqb_eq _]; subst seen.
    + apply notify_wakes; autorewrite with sync_word; done.
    + apply notify_spawns; autorewrite with sync_word; try done. apply spawned_set_spawned. lia.
    + apply notify_marks; autorewrite with sync_word; try done; [by left|lia].
    + apply notify_marks; autorewrite with sync_word; try done; [by right|lia].
  - apply orb_false_iff in Hc as [-> Hp%bool_decide_eq_false]. destruct (notified seen) eqn:En; [by apply notify_noted|].
    destruct ((sync s =? seen) && negb weak) eqn:Ex; [|apply notify_again; [done|by apply not_exchanged]]; apply andb_true_iff in Ex as [Ex%Z.eqb_eq _]; subst seen.
    apply notify_marks; autorewrite with sync_word; try done; [by right|]. intros [?|?]; done.
Qed.

(** A round of [wait] leaves, takes the notification, becomes idle, or goes to sleep. *)
Inductive wait_effect (weak is_idle is_waking : bool) (seen : Z) (s : pool) : pool -> pool_pc -> Prop :=
| wait_shut : state seen = Shutdown -> wait_effect weak is_idle is_waking seen s s Leave
| wait_again : state seen <> Shutdown -> (weak = false -> sync s <> seen) -> is_idle && negb (notified seen) = false -> wait_effect weak is_idle is_waking seen s s (WaitLoop is_idle is_waking (sync s))
| wait_sleeps : state seen <> Shutdown -> notified seen = false -> is_idle = true -> wait_effect weak is_idle is_waking seen s s WaitSleep
| wait_takes w :
    seen = sync s -> state seen <> Shutdown -> notified seen = true -> notified w = false -> spawned w = spawned seen ->
    ((is_idle = true -> 0 < idle seen) -> idle w = idle seen - (if is_idle then 1 else 0)) ->
    state w = (if decide (state seen = Signaled) then Waking else state seen) ->
    wait_effect weak is_idle is_waking seen s (with_sync s w) (Pop (is_waking || bool_decide (state seen = Signaled)))
| wait_idles w :
    seen = sync s -> state seen <> Shutdown -> notified seen = false -> is_idle = false -> notified w = false -> spawned w = spawned seen ->
    (idle seen < 16383 -> idle w = idle seen + 1) -> state w = (if is_waking then Pending else state seen) ->
    wait_effect weak is_idle is_waking seen s (with_sync s w) (WaitLoop true false seen).

Lemma wait_round_effect weak is_idle is_waking seen s : wait_effect weak is_idle is_waking seen s (wait_round weak is_idle is_waking seen s).1 (wait_round weak is_idle is_waking seen s).2.
Proof.
  unfold wait_round. destruct (decide (state seen = Shutdown)) as [Hs|Hs]; [by constructor|]. pose proof (idle_bound seen) as Hi.
  destruct (notified seen) eqn:En; [|destruct is_idle; cbn [negb]; [by apply wait_sleeps|]].
  - destruct ((sync s =? seen) && negb weak) eqn:Ex; [|apply wait_again; [done|by apply not_exchanged|by rewrite En, andb_false_r]]. apply andb_true_iff in Ex as [Ex%Z.eqb_eq _]. subst seen.
    apply wait_takes; try done; destruct is_idle, (decide (state (sync s) = Signaled)); autorewrite with sync_word; try done; intros H0; try specialize (H0 eq_refl); rewrite ?idle_set_idle; autorewrite with sync_word; lia.
  - destruct ((sync s =? seen) && negb weak) eqn:Ex; [|apply wait_again; [done|by apply not_exchanged|done]]. apply andb_true_iff in Ex as [Ex%Z.eqb_eq _]. subst seen.
    apply wait_idles; try done; destruct is_waking; autorewrite with sync_word; try done; intros; rewrite idle_set_idle; lia.
Qed.

Inductive shutdown_effect (weak : bool) (seen : Z) (s : pool) : pool -> pool_pc -> Prop :=
| shutdown_was : state seen = Shutdown -> shutdown_effect weak seen s s Outside
| shutdown_again : state seen <> Shutdown -> (weak = false -> sync s <> seen) -> shutdown_effect weak seen s s (ShutLoop (sync s))
| shutdown_done w : seen = sync s -> state w = Shutdown -> spawned w = spawned seen -> shutdown_effect weak seen s (with_sync s w) (if 0 <? idle seen then ShutPost else Outside).

Lemma shutdown_round_effect weak seen s : shutdown_effect weak seen s (shutdown_round weak seen s).1 (shutdown_round weak seen s).2.
Proof.
  unfold shutdown_round. destruct (decide (state seen = Shutdown)) as [Hs|Hs]; [by constructor|].
  destruct ((sync s =? seen) && negb weak) eqn:Ex; [|apply shutdown_again; [done|by apply not_exchanged]]. apply andb_true_iff in Ex as [Ex%Z.eqb_eq _]. subst seen.
  apply shutdown_done; autorewrite with sync_word; done.
Qed.
End rounds.

Lemma unregister_word s : 0 < spawned (sync s) ->
  spawned (sync (unregister s)) = spawned (sync s) - 1 /\ idle (sync (unregister s)) = idle (sync s) /\ notified (sync (unregister s)) = notified (sync s) /\ state (sync (unregister s)) = state (sync s).
Proof.
  intros Hs. destruct (one_spawned_less (sync s) Hs) as (E1 & E2 & E3 & E4). cbn [unregister sync].
  rewrite idle_field, spawned_field, notified_field, state_field, !field_wrap by lia. rewrite <- idle_field, <- spawned_field, <- notified_field, <- state_field. by split_and!.
Qed.

Lemma unregister_rest s : idle_event (unregister s) = idle_event s /\ bag (unregister s) = bag s /\ busy (unregister s) = busy s /\ unfinished (unregister s) = unfinished s.
Proof. done. Qed.
Lemma unregister_last s : state (sync s) = Shutdown -> spawned (sync s) - 1 = 0 -> join_event (unregister s) = true.
Proof. intros Hs Hn. cbn. rewrite bool_decide_eq_true_2 by done. rewrite (proj2 (Z.eqb_eq _ _)) by lia. by rewrite orb_true_r. Qed.

(** ** The invariant *)

Definition is_unborn (pc : pool_pc) : bool := match pc with Unborn => true | _ => false end.
Definition is_left (pc : pool_pc) : bool := match pc with Left_ => true | _ => false end.
Definition is_spawn (pc : pool_pc) : bool := match pc with Spawn _ => true | _ => false end.
Definition is_post (pc : pool_pc) : bool := match pc with NotifyPost _ => true | _ => false end.
(** A worker with a task, from [pop] to the end of the task. *)
Definition is_busy (pc : pool_pc) : bool :=
  match pc with
  | Push worker _ | NotifyFast worker | NotifyLoad worker _ | NotifyLoop worker _ _ | NotifyPost worker | Spawn worker => worker
  | Moving _ _ | Exec => true
  | _ => false
  end.
Definition is_born (pc : pool_pc) : bool :=
  is_busy pc || match pc with WaitLoad _ | WaitLoop _ _ _ | WaitSleep | WaitReload | Pop _ | Leave => true | _ => false end.
(** The tasks that a thread has in its hands, and the one it runs. *)
Definition load (pc : pool_pc) : Z :=
  match pc with
  | Push worker len => len + b2z worker
  | NotifyFast worker | NotifyLoad worker _ | NotifyLoop worker _ _ | NotifyPost worker | Spawn worker => b2z worker
  | Moving _ taken => taken
  | Exec => 1
  | _ => 0
  end.
Definition is_idling (pc : pool_pc) : bool := match pc with WaitLoop true _ _ | WaitSleep | WaitReload => true | _ => false end.
Definition is_waker (pc : pool_pc) : bool :=
  match pc with NotifyLoad _ w | NotifyLoop _ w _ | WaitLoad w | WaitLoop _ w _ | Pop w | Moving w _ => w | _ => false end.
(** Asleep, or about to sleep. *)
Definition is_sleeper (pc : pool_pc) : bool := match pc with WaitSleep => true | WaitLoop true _ seen => negb (notified seen) | _ => false end.
(** Will look at the word again in [wait], wake a thread or spawn one. *)
Definition is_active (pc : pool_pc) : bool :=
  match pc with
  | NotifyPost _ | Spawn _ => true
  | NotifyLoad _ w | NotifyLoop _ w _ => is_busy pc || w
  | _ => is_born pc && negb (is_sleeper pc)
  end.
(** Will look for tasks, or notify, unless a notification is there. *)
Definition rechecks (pc : pool_pc) : bool :=
  match pc with
  | Pop _ | NotifyFast _ | NotifyLoad _ _ => true
  | NotifyLoop worker _ seen => worker || negb (notified seen)
  | _ => is_busy pc
  end.

Definition waking_state (st : SyncState) : bool := match st with Waking => true | _ => false end.

(** What a step does, case by case. *)
Ltac pool_cases Hst :=
  match goal with Hmax : 1 <= _ < 16384 |- _ =>
  match type of Hst with pool_step _ _ _ ?c ?s ?l = Some (?s', ?l', ?n) =>
    destruct c as [len| | | |taken| | |], l as [|worker len0|worker|worker waking|worker waking seen|worker|worker| |waking|is_idle waking seen| | |waking|waking held| | | | |seen|]; cbn [pool_step] in Hst; try discriminate Hst; unfold schedule_impl, notify in Hst;
    lazymatch type of Hst with
    | context [notify_round ?m ?b ?k ?w ?x ?y] => let E := fresh in pose proof (notify_round_effect m Hmax b k w x y) as E; destruct (notify_round m b k w x y); cbn [fst snd] in E; injection Hst as <- <- <-; destruct E
    | context [wait_round ?b ?i ?w ?x ?y] => let E := fresh in pose proof (wait_round_effect b i w x y) as E; destruct (wait_round b i w x y); cbn [fst snd] in E; injection Hst as <- <- <-; destruct E
    | context [shutdown_round ?b ?x ?y] => let E := fresh in pose proof (shutdown_round_effect b x y) as E; destruct (shutdown_round b x y); cbn [fst snd] in E; injection Hst as <- <- <-; destruct E
    | (if ?b then (Some _) else (if ?b2 then _ else _)) = _ => destruct b eqn:?; [|destruct b2 eqn:?; try discriminate Hst]; injection Hst as <- <- <-
    | (if ?b then _ else _) = _ => destruct b eqn:?; try discriminate Hst; injection Hst as <- <- <-
    | _ => injection Hst as <- <- <-
    end
  end end.

Section invariant.
Context (max_threads : Z) (shut fails : bool) (Hmax : 1 <= max_threads < 16384).
Implicit Types cfg : config pool pool_pc.
Local Notation sys := (pool_system max_threads shut fails).

Definition good_pc (now : SyncState) (pc : pool_pc) : Prop :=
  match pc with
  | Push _ len => 0 < len
  | NotifyLoad worker w => w = true -> worker = true
  | NotifyLoop worker w seen => (w = true -> worker = true) /\ (state seen = Shutdown -> now = Shutdown)
  | WaitLoop is_idle w seen => (is_idle = true -> w = false) /\ (state seen = Shutdown -> now = Shutdown)
  | Moving _ taken => 0 < taken
  | Leave => now = Shutdown
  | ShutLoad => shut = true
  | ShutLoop seen => shut = true /\ (state seen = Shutdown -> now = Shutdown)
  | ShutPost => shut = true /\ now = Shutdown
  | _ => True
  end.

(** While the pool is not shut down and threads can be spawned. *)
Record pool_live cfg : Prop := {
  l_idle : idle (sync (shared cfg)) = tally_if is_idling (threads cfg);
  l_waker : tally_if is_waker (threads cfg) = b2z (waking_state (state (sync (shared cfg))));
  l_signaled : state (sync (shared cfg)) = Signaled -> notified (sync (shared cfg)) = true;
  l_post : 0 < tally_if is_post (threads cfg) -> 0 < spawned (sync (shared cfg));
  l_noted : notified (sync (shared cfg)) = true -> 0 < tally_if is_active (threads cfg) \/ idle_event (shared cfg) = NOTIFIED /\ 0 < tally_if is_sleeper (threads cfg);
  l_bag : 0 < bag (shared cfg) -> notified (sync (shared cfg)) = true \/ 0 < tally_if rechecks (threads cfg);
}.

Record pool_ok cfg : Prop := {
  p_spawned : spawned (sync (shared cfg)) = tally_if is_born (threads cfg) + tally_if is_spawn (threads cfg);
  p_room : spawned (sync (shared cfg)) + tally_if is_left (threads cfg) <= max_threads;
  p_total : tally_if is_unborn (threads cfg) + tally_if is_born (threads cfg) + tally_if is_left (threads cfg) = max_threads;
  p_busy : busy (shared cfg) = tally_if is_busy (threads cfg);
  p_tasks : 0 <= bag (shared cfg) /\ unfinished (shared cfg) = bag (shared cfg) + tally load (threads cfg);
  p_good : Forall (good_pc (state (sync (shared cfg)))) (threads cfg);
  p_shut : state (sync (shared cfg)) = Shutdown -> shut = true;
  p_event : idle_event (shared cfg) = SHUTDOWN -> state (sync (shared cfg)) = Shutdown;
  p_left : 0 < tally_if is_left (threads cfg) -> state (sync (shared cfg)) = Shutdown /\ (spawned (sync (shared cfg)) = 0 -> join_event (shared cfg) = true);
  p_live : state (sync (shared cfg)) <> Shutdown -> fails = false -> pool_live cfg;
}.

Lemma init_ok (n m : nat) : max_threads = Z.of_nat n -> pool_ok (pool_init n m).
Proof.
  intros Hn. assert (T : forall p, tally_if p (replicate n Unborn ++ replicate m Outside) = b2z (p Unborn) * Z.of_nat n + b2z (p Outside) * Z.of_nat m) by (intros; by rewrite tally_if_app, !tally_if_replicate).
  assert (Tl : tally load (replicate n Unborn ++ replicate m Outside) = 0).
  { rewrite tally_app. assert (E : forall pc k, load pc = 0 -> tally load (replicate k pc) = 0) by (intros pc k H; induction k as [|k IH]; [done|]; cbn; lia). by rewrite !E. }
  split; cbn [shared threads pool_init sync idle_event join_event bag busy unfinished]; rewrite ?T, ?Tl; change (spawned 0) with 0; cbn [is_unborn is_born is_spawn is_left is_busy b2z orb]; first [done|lia|idtac].
  - apply Forall_app_2; by apply Forall_replicate.
  - intros _ _. split; cbn [shared threads sync idle_event bag]; rewrite ?T; cbn; try done; lia.
Qed.

Lemma born_inv l l' : woken (System := sys) l = Some l' -> l = Unborn /\ l' = WaitLoad false.
Proof. destruct l; intros [= <-]. by split. Qed.
Lemma born_once l l' : woken (System := sys) l = Some l' -> woken (System := sys) l' = None.
Proof. by intros [-> ->]%born_inv. Qed.
Lemma unborn_sleeps ts : tally_if (sleeps (Sys := sys)) ts = tally_if is_unborn ts.
Proof. apply tally_ext. by intros []. Qed.

Lemma good_mono now now' pc : (now = Shutdown -> now' = Shutdown) -> good_pc now pc -> good_pc now' pc.
Proof. intros H. destruct pc; cbn; try done; intuition. Qed.

Lemma spawned_pos cfg i l : pool_ok cfg -> threads cfg !! i = Some l -> is_born l || is_spawn l = true -> 0 < spawned (sync (shared cfg)).
Proof.
  intros Hok Hl [Hb|Hs]%orb_true_iff.
  - pose proof (tally_if_lookup is_born _ _ _ Hl Hb). pose proof (tally_if_nonneg is_spawn (threads cfg)). rewrite (p_spawned _ Hok). lia.
  - pose proof (tally_if_lookup is_spawn _ _ _ Hl Hs). pose proof (tally_if_nonneg is_born (threads cfg)). rewrite (p_spawned _ Hok). lia.
Qed.

(** The state of the word: once shut down it stays so, and the threads know no more than that. *)
Lemma good_step cfg i l c s' l' n :
  pool_ok cfg -> threads cfg !! i = Some l -> pool_step max_threads shut fails c (shared cfg) l = Some (s', l', n) ->
  (state (sync (shared cfg)) = Shutdown -> state (sync s') = Shutdown) /\ good_pc (state (sync s')) l' /\
  (state (sync s') = Shutdown -> state (sync (shared cfg)) = Shutdown \/ shut = true) /\ (idle_event s' = SHUTDOWN -> state (sync s') = Shutdown).
Proof.
  intros Hok Hl Hst. pose proof (Forall_lookup_1 _ _ _ _ (p_good _ Hok) Hl) as Hp. pose proof (p_event _ Hok) as He. pose proof (spawned_pos cfg i l Hok Hl) as Hpos.
  pool_cases Hst. all: rewrite ?andb_true_iff, ?Z.ltb_lt, ?Z.leb_le in *; cbn [good_pc with_sync with_event with_tasks sync idle_event] in *.
  all: try (destruct (unregister_word (shared cfg) ltac:(apply Hpos; first [reflexivity|apply orb_true_r])) as (_ & _ & _ & ->)); try (rewrite (proj1 (unregister_rest _))).
  all: try subst seen; split_and!; try done; try (intuition congruence).
  all: unfold found, return_from; repeat case_match; cbn [good_pc]; try done; try (intuition congruence); try (by intros [=]); try lia.
Qed.

Lemma good_fire cfg e cfg' : pool_ok cfg -> fire (Sys := sys) cfg e = Some cfg' ->
  Forall (good_pc (state (sync (shared cfg')))) (threads cfg') /\ (state (sync (shared cfg)) = Shutdown -> state (sync (shared cfg')) = Shutdown) /\
  (state (sync (shared cfg')) = Shutdown -> shut = true) /\ (idle_event (shared cfg') = SHUTDOWN -> state (sync (shared cfg')) = Shutdown).
Proof.
  intros Hok (l & l' & n & Hl & Hst & _ & _ & Hw & _)%fire_inv. destruct (good_step cfg _ l _ _ l' n Hok Hl Hst) as (H1 & H2 & H3 & H4). split_and!; [|done| |done].
  - assert (Hall : Forall (good_pc (state (sync (shared cfg')))) (threads cfg)) by (eapply Forall_impl; [|exact (p_good _ Hok)]; intros pc; by apply good_mono).
    eapply wake_all_Forall; [|exact Hw|by apply Forall_insert]. by intros m m' [-> ->]%born_inv.
  - intros H. destruct (H3 H); [by apply (p_shut _ Hok)|done].
Qed.

(** The sums that the step moves: a worker that is spawned is there. *)
Lemma pool_sums cfg e cfg' : pool_ok cfg -> fire (Sys := sys) cfg e = Some cfg' ->
  exists l l' n, threads cfg !! who e = Some l /\ pool_step max_threads shut fails (choice e) (shared cfg) l = Some (shared cfg', l', n) /\ length (threads cfg') = length (threads cfg) /\
    (forall p, tally_if p (threads cfg') = tally_if p (threads cfg) - b2z (p l) + b2z (p l') + (b2z (p (WaitLoad false)) - b2z (p Unborn)) * Z.of_nat n /\ b2z (p l) <= tally_if p (threads cfg)) /\
    (forall w, tally w (threads cfg') = tally w (threads cfg) - w l + w l' + (w (WaitLoad false) - w Unborn) * Z.of_nat n).
Proof.
  intros Hok (l & l' & n & Hl & Hst & Hlen & Hk & _ & Ht)%fire_inv. rewrite unborn_sleeps in Hk. assert (Es : forall l, sleeps (Sys := sys) l = is_unborn l) by (by intros []). rewrite !Es in Hk.
  assert (En : length (targets e) = n).
  { pose proof (tally_if_nonneg is_unborn (threads cfg)). pose proof (tally_if_lookup is_unborn _ _ _ Hl). pose proof (tally_if_lookup is_spawn _ _ _ Hl) as Hsp. destruct Hok as [H1 H2 H3 _ _ _ _ _ _ _].
    assert (Hz : n = 0%nat \/ n = 1%nat /\ is_spawn l = true /\ is_unborn l = false /\ is_unborn l' = false).
    { cbn [step pool_system] in Hst. revert Hst. generalize (shared cfg'). generalize (choice e). intros c s' Hst. pool_cases Hst; auto. right. by destruct worker. }
    destruct Hz as [->|(-> & Hs & Hu & Hu')]; [|rewrite Hu, Hu' in Hk; specialize (Hsp Hs); cbn in Hk; lia].
    destruct (is_unborn l); [specialize (H0 eq_refl)|]; destruct (is_unborn l'); cbn in Hk; lia. }
  rewrite En in Ht. exists l, l', n. split_and!; try done.
  - intros p. destruct (proj1 (proj2 Ht) p (b2z (p (WaitLoad false)) - b2z (p Unborn))) as [E H]; [intros ? ? [-> ->]%born_inv; lia|]. by split.
  - intros w. apply (proj1 Ht). intros ? ? [-> ->]%born_inv. lia.
Qed.

(** The counts that hold always. *)
Lemma counts_fire cfg e cfg' : pool_ok cfg -> fire (Sys := sys) cfg e = Some cfg' ->
  spawned (sync (shared cfg')) = tally_if is_born (threads cfg') + tally_if is_spawn (threads cfg') /\
  spawned (sync (shared cfg')) + tally_if is_left (threads cfg') <= max_threads /\
  tally_if is_unborn (threads cfg') + tally_if is_born (threads cfg') + tally_if is_left (threads cfg') = max_threads /\
  busy (shared cfg') = tally_if is_busy (threads cfg') /\
  0 <= bag (shared cfg') /\ unfinished (shared cfg') = bag (shared cfg') + tally load (threads cfg') /\
  (0 < tally_if is_left (threads cfg') -> state (sync (shared cfg')) = Shutdown /\ (spawned (sync (shared cfg')) = 0 -> join_event (shared cfg') = true)).
Proof.
  intros Hok Hf. destruct (good_fire cfg e cfg' Hok Hf) as (_ & Hmono & _ & _). destruct (pool_sums cfg e cfg' Hok Hf) as (l & l' & n & Hl & Hst & _ & Ht & Hw).
  pose proof (Forall_lookup_1 _ _ _ _ (p_good _ Hok) Hl) as Hp. pose proof (spawned_pos cfg _ l Hok Hl) as Hpos. specialize (Hw load).
  pose proof (Ht is_born) as [Tb _]. pose proof (Ht is_spawn) as [Ts Ls]. pose proof (Ht is_unborn) as [Tu _]. pose proof (Ht is_left) as [Tl _]. pose proof (Ht is_busy) as [Ty _]. clear Ht.
  destruct Hok as [H1 H2 H3 H4 [H5 H6] _ _ _ H7 _]. pose proof (tally_if_nonneg is_left (threads cfg)). pose proof (tally_if_nonneg is_born (threads cfg)). pose proof (tally_if_nonneg is_unborn (threads cfg)).
  destruct cfg' as [s' ts']. cbn [shared threads] in *. clear Hf Hl.
  assert (Hl0 : state (sync (shared cfg)) <> Shutdown -> tally_if is_left (threads cfg) = 0) by (intros Hs; destruct (Z.lt_ge_cases 0 (tally_if is_left (threads cfg))) as [Hp0|]; [by destruct (H7 Hp0)|lia]).
  pool_cases Hst; try destruct worker.
  all: try (lazymatch goal with |- context [unregister] => destruct (unregister_word (shared cfg) (Hpos eq_refl)) as (Eu & _ & _ & Es); destruct (unregister_rest (shared cfg)) as (_ & Eb & Ey & Ef); rewrite Eu, Es, Eb, Ey, Ef; clear Eb Ey Ef; specialize (Hpos eq_refl) end).
  all: rewrite ?andb_true_iff, ?orb_true_iff, ?Z.ltb_lt, ?Z.leb_le, ?Z.eqb_eq in *; cbn [with_sync with_event with_tasks sync idle_event join_event bag busy unfinished good_pc] in *.
  all: try subst seen; unfold found, return_from in *; repeat case_match; cbn in Tb, Ts, Tu, Tl, Ty, Hw, Ls.
  all: split_and!; try lia; try (specialize (Hl0 ltac:(assumption)); lia).
  all: try (intros _; split; [exact Hp|apply unregister_last; exact Hp]).
  all: try (intros Hl1; destruct H7 as [Hs1 Hj1]; [lia|]; split; [first [done|auto|congruence]|intros; first [apply unregister_last; assumption|apply Hj1; lia|rewrite Hj1 by lia; done|lia|idtac]]).
Qed.

(** The shares of the threads. *)
Lemma live_shares now ts : Forall (good_pc now) ts ->
  tally_if is_born ts <= tally_if is_active ts + tally_if is_sleeper ts /\ tally_if is_spawn ts <= tally_if is_active ts /\ tally_if is_sleeper ts <= tally_if is_idling ts /\
  tally_if is_idling ts <= tally_if is_born ts /\ tally_if is_busy ts <= tally_if rechecks ts /\ tally_if is_waker ts <= tally_if is_active ts.
Proof.
  intros Hg. split_and!.
  - unfold tally_if. rewrite <- tally_add. apply tally_le. intros [| | | | | | | | |[] ? seen| | | | | | | | | |]; cbn; try (by destruct worker); try (by destruct worker, is_waking); try (by destruct (notified seen)); lia.
  - apply tally_if_le. by intros [].
  - apply tally_if_le. by intros [| | | | | | | | |[]| | | | | | | | | |].
  - apply tally_if_le. by intros [| | | | | | | | |[]| | | | | | | | | |].
  - apply tally_if_le. intros []; cbn; try done. by intros ->.
  - eapply tally_le_Forall; [exact Hg|]. intros [| | |worker w|worker w seen| | | |w|[] w seen| | |w|w held| | | | | |] Hp; cbn in *; try (by destruct w); try (by destruct worker, w); try lia; try apply b2z_nonneg.
    destruct Hp as [Hw _]. rewrite (Hw eq_refl). apply b2z_nonneg.
Qed.

Lemma live_fire cfg e cfg' : pool_ok cfg -> fire (Sys := sys) cfg e = Some cfg' -> state (sync (shared cfg')) <> Shutdown -> fails = false -> pool_live cfg'.
Proof.
  intros Hok Hf Hns Hfails. destruct (good_fire cfg e cfg' Hok Hf) as (Hg' & Hmono & _ & _). destruct (pool_sums cfg e cfg' Hok Hf) as (l & l' & n & Hl & Hst & _ & Ht & _).
  pose proof (counts_fire cfg e cfg' Hok Hf) as (C1 & C2 & C3 & C4 & _).
  destruct (p_live _ Hok (fun H => Hns (Hmono H)) Hfails) as [L1 L2 L3 L4 L5 L6]. pose proof (Forall_lookup_1 _ _ _ _ (p_good _ Hok) Hl) as Hp.
  destruct (live_shares _ _ (p_good _ Hok)) as (S1 & S2 & S3 & S4 & S5 & S6). destruct (live_shares _ _ Hg') as (R1 & R2 & R3 & R4 & R5 & R6).
  pose proof (Ht is_idling) as [Ti Li]. pose proof (Ht is_waker) as [Tw Lw]. pose proof (Ht is_post) as [Tp Lp]. pose proof (Ht is_active) as [Ta La]. pose proof (Ht is_sleeper) as [Ts Ls].
  pose proof (Ht rechecks) as [Tr Lr]. clear Ht Hg'. destruct (counts_fire cfg e cfg' Hok Hf) as (_ & _ & _ & _ & _ & _ & _).
  destruct Hok as [P1 P2 P3 P4 [P5 _] _ _ _ _ _]. pose proof (tally_if_nonneg is_spawn (threads cfg)). pose proof (tally_if_nonneg is_left (threads cfg)). pose proof (tally_if_nonneg is_unborn (threads cfg)).
  pose proof (tally_if_nonneg is_sleeper (threads cfg)). pose proof (tally_if_nonneg is_active (threads cfg)). pose proof (tally_if_nonneg rechecks (threads cfg)). pose proof (tally_if_nonneg is_post (threads cfg)).
  pose proof (tally_if_nonneg is_sleeper (threads cfg')). pose proof (tally_if_nonneg is_active (threads cfg')). pose proof (tally_if_nonneg rechecks (threads cfg')). pose proof (tally_if_nonneg is_post (threads cfg')).
  pose proof (tally_if_nonneg is_spawn (threads cfg')). pose proof (tally_if_nonneg is_idling (threads cfg')).
  destruct cfg' as [s' ts']. cbn [shared threads] in *. clear Hf Hl.
  pool_cases Hst; try destruct worker; try congruence.
  all: rewrite ?andb_true_iff, ?orb_true_iff, ?Z.ltb_lt, ?Z.leb_le, ?Z.eqb_eq in *; cbn [with_sync with_event with_tasks sync idle_event join_event bag busy unfinished good_pc found return_from] in *; try congruence.
  all: try subst seen; try congruence.
  all: try (lazymatch goal with is_idle : bool |- _ => destruct is_idle end); try congruence.
  all: unfold found, return_from in *.
  all: repeat (lazymatch goal with H : context [b2z (?p (if ?b then _ else _))] |- _ => destruct b eqn:? end).
  all: cbn in Ti, Li, Tw, Lw, Tp, Lp, Ta, La, Ts, Ls, Tr, Lr.
  all: try (exfalso; by apply Hns, Hmono).
  all: try (exfalso; by apply Hns; apply Hp).
  all: clear Hmono; cbn [shared threads with_sync with_event with_tasks sync idle_event bag] in *.
  all: try (match goal with H : ?x = true /\ _ \/ ?x = false /\ _ |- _ => destruct H as [(? & ?)|(? & ? & ?)] end).
  all: destruct (notified (sync (shared cfg))) eqn:En; try congruence; try (lazymatch goal with waking : bool |- _ => destruct waking; cbn in Tw, Lw, Ta, La, Tr, Lr end); try congruence.
  all: destruct (state (sync (shared cfg))) eqn:Est; try congruence; try (exfalso; match goal with H : _ = true \/ _ = Pending |- _ => destruct H; congruence end); try (exfalso; destruct Hp as [Hp _]; discriminate (Hp eq_refl)); cbn [waking_state b2z] in L2.
  all: split; cbn [shared threads with_sync with_event with_tasks sync idle_event bag].
  all: repeat (match goal with
    | H : notified ?x = _ |- context [notified ?x] => rewrite H
    | H : state ?x = _ |- context [state ?x] => rewrite H
    | H : notified ?x = _, H' : context [notified ?x] |- _ => lazymatch H' with H => fail | _ => rewrite H in H' end
    | H : ?a = true -> _, H' : ?b = true |- _ => unify a b; specialize (H H')
    | H : ?x = ?x -> _ |- _ => specialize (H eq_refl)
    | H : context [if decide (?x = Signaled) then _ else _] |- _ => destruct (decide (x = Signaled)); try congruence
    | H : context [bool_decide (?x = Signaled)] |- _ => let b := eval vm_compute in (bool_decide (x = Signaled)) in change (bool_decide (x = Signaled)) with b in H
    | |- context [if decide (?x = Signaled) then _ else _] => destruct (decide (x = Signaled)); try congruence end).
  all: try (match goal with H : _ = true \/ _ -> _ /\ _ |- _ => first [specialize (H (or_introl eq_refl)) | specialize (H (or_intror eq_refl))] end).
  all: try match goal with H : (_ -> _ < _) -> idle ?w = _ |- _ => assert (idle w = idle (sync (shared cfg)) - 1 \/ idle w = idle (sync (shared cfg))) by (rewrite H; lia) end.
  all: cbn [b2z negb orb andb waking_state] in *.
  all: try lia.
  all: try (intros; first [congruence|done]).
Qed.

Lemma pool_ok_fire cfg e cfg' : pool_ok cfg -> fire (Sys := sys) cfg e = Some cfg' -> pool_ok cfg'.
Proof.
  intros Hok Hf. destruct (counts_fire cfg e cfg' Hok Hf) as (C1 & C2 & C3 & C4 & C5 & C6 & C7). destruct (good_fire cfg e cfg' Hok Hf) as (G1 & _ & G2 & G3).
  split; try done. intros. by apply (live_fire cfg e).
Qed.

Lemma pool_length_fire cfg e cfg' : pool_ok cfg -> fire (Sys := sys) cfg e = Some cfg' -> length (threads cfg') = length (threads cfg).
Proof. intros Hok Hf. by destruct (pool_sums cfg e cfg' Hok Hf) as (? & ? & ? & _ & _ & ? & _). Qed.

Lemma reachable_ok n m cfg : max_threads = Z.of_nat n -> reachable (Sys := sys) (pool_init n m) cfg -> pool_ok cfg.
Proof. intros Hn [es Hr]. eapply (run_invariant (Sys := sys) pool_ok); [exact pool_ok_fire|by apply init_ok|exact Hr]. Qed.

End invariant.

Arguments p_spawned {max_threads shut fails cfg} _.
Arguments p_room {max_threads shut fails cfg} _.
Arguments p_total {max_threads shut fails cfg} _.
Arguments p_busy {max_threads shut fails cfg} _.
Arguments p_tasks {max_threads shut fails cfg} _.
Arguments p_good {max_threads shut fails cfg} _.
Arguments p_shut {max_threads shut fails cfg} _ _.
Arguments p_event {max_threads shut fails cfg} _ _.
Arguments p_left {max_threads shut fails cfg} _ _.
Arguments p_live {max_threads shut fails cfg} _ _ _.
Arguments spawned_pos {max_threads shut fails} cfg i l _ _ _.
Arguments pool_sums {max_threads shut fails} Hmax cfg e cfg' _ _.
Arguments good_fire {max_threads shut fails} Hmax cfg e cfg' _ _.
Arguments pool_ok_fire {max_threads shut fails} Hmax cfg e cfg' _ _.
Arguments pool_length_fire {max_threads shut fails} Hmax cfg e cfg' _ _.
Arguments live_shares {shut now ts} _.
