(* ===== verification/PoolRest.v ===== *)
(** * The thread pool comes to rest ([threading/ThreadPool.rs], [ThreadPool])

    Whatever the order of the steps, the threads of the pool come to rest, and then no task is left behind; after a shutdown
    the threads leave. Two races that break this. *)

From stdpp Require Import list.
From S2P Require Import Prelude Interleaving PoolWord PoolSync.
Local Open Scope Z_scope.

Section progress.
Context (max_threads : Z) (shut fails : bool) (Hmax : 1 <= max_threads < 16384).
Implicit Types cfg : config pool pool_pc.
Local Notation pool_ok := (pool_ok max_threads shut fails).
Local Notation sys := (pool_system max_threads shut fails).

(** ** Every run comes to rest *)

(** The steps that the threads take by themselves. *)
Definition pool_internal (e : event pool_choice) : Prop := match choice e with CNext | CTake _ | CNone | CFail => True | _ => False end.

(** A thread that waits for a call, for a task or for ever. *)
Definition at_rest (event : Z) (pc : pool_pc) : bool :=
  match pc with Outside | Unborn | Left_ => true | WaitSleep => negb ((event =? NOTIFIED) || (event =? SHUTDOWN)) | _ => false end.
Definition pool_rests cfg : Prop := Forall (fun pc => at_rest (idle_event (shared cfg)) pc = true) (threads cfg).

(** The copy of the word is out of date. *)
Definition is_stale (word : Z) (pc : pool_pc) : bool := match pc with NotifyLoop _ _ seen | WaitLoop _ _ seen | ShutLoop seen => negb (word =? seen) | _ => false end.
Definition is_asleep (pc : pool_pc) : bool := match pc with WaitSleep => true | _ => false end.

Section measure.
Context (N : Z).
(** [D] pays for a change of the word. *)
Local Notation D := (3 * N + 1).
Local Notation base worker := (if worker : bool then 2 * D + 7 else 0).

Definition pool_weight (pc : pool_pc) : Z :=
  match pc with
  | Outside | Unborn | WaitSleep | Left_ => 0
  | Leave => D
  | WaitLoop true _ _ => D + 1
  | WaitReload => D + 2
  | WaitLoop false _ _ => 2 * D + 4
  | WaitLoad _ => 2 * D + 5
  | Pop _ => 2 * D + 6
  | Exec => 2 * D + 7
  | NotifyPost worker => D + 4 + base worker
  | Spawn worker => 2 * D + 6 + base worker
  | NotifyLoop worker _ _ => 5 * D + 11 + base worker
  | NotifyLoad worker _ => 5 * D + 12 + base worker + 3
  | NotifyFast worker => 5 * D + 13 + base worker + 3
  | Push worker len => 5 * D + 14 + base worker + 3 + len * (7 * D + 24)
  | Moving _ taken => taken * (7 * D + 24)
  | ShutPost => N * (D + 3) + 1
  | ShutLoop _ => 3 * D + 6 + N * (D + 3)
  | ShutLoad => 3 * D + 10 + N * (D + 3)
  end.

Definition pool_measure cfg : Z :=
  tally pool_weight (threads cfg) + 3 * tally_if (is_stale (sync (shared cfg))) (threads cfg) + bag (shared cfg) * (7 * D + 24) +
  (2 * D + 5) * b2z (notified (sync (shared cfg))) + (D + 3) * b2z (idle_event (shared cfg) =? NOTIFIED) +
  b2z (idle_event (shared cfg) =? SHUTDOWN) * (tally_if is_asleep (threads cfg) * (D + 3)).

Lemma pool_measure_nonneg cfg : 0 <= N -> pool_ok cfg -> 0 <= pool_measure cfg.
Proof.
  intros HN Hok. unfold pool_measure. pose proof (tally_if_nonneg (is_stale (sync (shared cfg))) (threads cfg)). pose proof (tally_if_nonneg is_asleep (threads cfg)). destruct (p_tasks Hok) as [Hb _].
  assert (0 <= tally pool_weight (threads cfg)).
  { eapply tally_nonneg_Forall; [exact (p_good Hok)|]. intros [] Hp; cbn in *; repeat case_match; nia. }
  pose proof (b2z_nonneg (notified (sync (shared cfg)))). pose proof (b2z_nonneg (idle_event (shared cfg) =? NOTIFIED)). pose proof (b2z_nonneg (idle_event (shared cfg) =? SHUTDOWN)). nia.
Qed.

Lemma pool_measure_fire cfg e cfg' : Z.of_nat (length (threads cfg)) = N -> pool_ok cfg -> pool_internal e -> fire (Sys := sys) cfg e = Some cfg' -> pool_measure cfg' < pool_measure cfg.
Proof.
  intros HN Hok He Hf. destruct (pool_sums Hmax cfg e cfg' Hok Hf) as (l & l' & n & Hl & Hst & Hlen & Ht & Hw).
  pose proof (Forall_lookup_1 _ _ _ _ (p_good Hok) Hl) as Hp. pose proof (spawned_pos cfg _ l Hok Hl) as Hpos. pose proof (p_event Hok) as Hev. specialize (Hw pool_weight).
  pose proof (Ht is_asleep) as [Ta La]. pose proof (Ht (is_stale (sync (shared cfg)))) as [Ts Ls].
  assert (Ma : 0 <= tally_if is_asleep (threads cfg') <= N) by (split; [apply tally_if_nonneg|]; rewrite <- HN, <- Hlen; apply tally_if_le_length).
  assert (Ms : forall w, tally_if (is_stale w) (threads cfg') <= N) by (intros; rewrite <- HN, <- Hlen; apply tally_if_le_length).
  pose proof (tally_if_nonneg (is_stale (sync (shared cfg))) (threads cfg)). pose proof (b2z_nonneg (notified (sync (shared cfg)))). clear Ht Hf Hl HN Hlen.
  unfold pool_measure, pool_internal in *. destruct cfg' as [s' ts']. cbn [shared threads] in *.
  pool_cases Hst; try done; try destruct worker.
  all: try (lazymatch goal with |- context [unregister] => destruct (unregister_word (shared cfg) (Hpos eq_refl)) as (_ & _ & -> & _); destruct (unregister_rest (shared cfg)) as (-> & -> & _); pose proof (Ms (sync (unregister (shared cfg)))) end).
  all: rewrite ?andb_true_iff, ?orb_true_iff, ?Z.ltb_lt, ?Z.leb_le, ?Z.eqb_eq in *; cbn [with_sync with_event with_tasks sync idle_event join_event bag busy unfinished good_pc found return_from] in *.
  all: unfold found, return_from in *; try subst seen; try (match goal with H : context [pool_weight (WaitLoop ?b _ _)] |- _ => is_var b; destruct b end); try congruence.
  all: repeat (lazymatch goal with H : context [pool_weight (if ?b then _ else _)] |- _ => destruct b eqn:? end).
  all: cbn [pool_weight is_asleep is_stale b2z] in Hw, Ta, Ts, La, Ls; rewrite ?Z.eqb_refl in *.
  all: try (lazymatch goal with |- context [is_stale ?w] => is_var w; pose proof (Ms w) end).
  all: try (match goal with H : false = false -> _ <> ?x |- _ => rewrite (proj2 (Z.eqb_neq _ x) (H eq_refl)) in * end).
  all: repeat (match goal with H : notified ?x = _ |- context [notified ?x] => rewrite H end).
  all: try (match goal with H : context [negb (_ =? ?x)] |- _ => is_var x; destruct (_ =? x) eqn:Ex; [apply Z.eqb_eq in Ex; subst x|] end).
  all: change (NOTIFIED =? SHUTDOWN) with false; change (SHUTDOWN =? NOTIFIED) with false; change (EMPTY =? SHUTDOWN) with false; change (EMPTY =? NOTIFIED) with false.
  all: destruct (idle_event (shared cfg) =? SHUTDOWN) eqn:Es, (idle_event (shared cfg) =? NOTIFIED) eqn:En; try (apply Z.eqb_eq in Es; try (exfalso; specialize (Hev Es); congruence)); try apply Z.eqb_eq in En; try (exfalso; clear - Es En; rewrite Es in En; discriminate En); destruct (notified (sync (shared cfg))); try congruence; cbn [b2z negb] in *.
  all: assert (Mk : 0 <= tally_if is_asleep ts' * (3 * N) <= N * (3 * N)) by (clear - Ma; nia); rewrite Ta in *.
  all: try (match goal with |- context [notified ?w] => destruct (notified w); cbn [b2z] end).
  all: try lia.
Qed.
End measure.

(** A thread that is not at rest can take a step. *)
Lemma pool_can_step s pc : 0 <= bag s -> at_rest (idle_event s) pc = false -> exists c r, pool_internal (mkEvent 0 c []) /\ pool_step max_threads shut fails c s pc = Some r.
Proof.
  intros Hb. destruct pc as [| | | | | | | | | | | |waking| | | | | | |]; cbn [at_rest]; try discriminate; intros Hr.
  all: try (by eexists CNext, _).
  - exists CNext. cbn [pool_step]. destruct (idle_event s =? NOTIFIED); [by eexists|]. destruct (idle_event s =? SHUTDOWN); [by eexists|done].
  - destruct (Z.ltb_spec 0 (bag s)).
    + exists (CTake 1). cbn [pool_step]. rewrite (proj2 (Z.leb_le 1 (bag s))) by lia. by eexists.
    + exists CNone. cbn [pool_step]. rewrite (proj2 (Z.eqb_eq (bag s) 0)) by lia. by eexists.
Qed.

Lemma pool_moves cfg : pool_ok cfg -> pool_rests cfg \/ exists e cfg', pool_internal e /\ fire (Sys := sys) cfg e = Some cfg'.
Proof.
  intros Hok. destruct (Z.lt_ge_cases 0 (tally_if (fun pc => negb (at_rest (idle_event (shared cfg)) pc)) (threads cfg))) as [H|H].
  - right. destruct (tally_if_pos _ _ H) as (i & l & Hl & Hr%negb_true_iff). destruct (pool_can_step _ l (proj1 (p_tasks Hok)) Hr) as (c & [[s' l'] k] & Hc & Hs).
    destruct (fire_step (Sys := sys) cfg i l c s' l' k (born_once max_threads shut fails) Hl Hs) as (ts & cfg' & Hf). by exists (mkEvent i c ts), cfg'.
  - left. apply Forall_lookup_2. intros i l Hl. destruct (at_rest _ l) eqn:E; [done|]. exfalso. apply (Z.lt_irrefl 0). eapply Z.lt_le_trans; [|exact H].
    apply (tally_if_lookup _ _ i l Hl). by rewrite E.
Qed.

(** Whatever holds of the states that internal steps reach and rest in, is reached. *)
Lemma pool_inevitable (I P : config pool pool_pc -> Prop) cfg :
  (forall c, pool_ok c -> I c -> pool_rests c -> P c) -> (forall c e c', pool_ok c -> I c -> pool_internal e -> fire (Sys := sys) c e = Some c' -> I c') ->
  pool_ok cfg -> I cfg -> inevitable (Sys := sys) P pool_internal cfg.
Proof.
  intros HP HI Hok Hi. set (N := Z.of_nat (length (threads cfg))).
  apply (inevitable_measure (Sys := sys) P (fun c => pool_ok c /\ I c /\ Z.of_nat (length (threads c)) = N) pool_internal (pool_measure N)); [| |by split_and!].
  - intros c (Hc & _ & _). apply pool_measure_nonneg; [unfold N; lia|done].
  - intros c (Hc & Hic & Hn). destruct (pool_moves c Hc) as [Hr|Hm]; [left; by apply HP|]. right. split; [done|]. intros e c' He Hf. right. split_and!.
    + by apply (pool_ok_fire Hmax c e).
    + by apply (HI c e).
    + by rewrite (pool_length_fire Hmax c e c' Hc Hf).
    + by apply (pool_measure_fire N c e).
Qed.

(** At rest nothing is in hand, and no task is left behind. *)
Lemma rests_load cfg : pool_rests cfg -> tally load (threads cfg) = 0 /\ tally_if rechecks (threads cfg) = 0.
Proof.
  unfold pool_rests. generalize (idle_event (shared cfg)). intros ev H. unfold tally_if. induction H as [|l ts Hl _ [IH1 IH2]]; [done|]. cbn [tally]. rewrite IH1, IH2. by destruct l.
Qed.

Lemma rests_active cfg : pool_rests cfg -> tally_if is_active (threads cfg) = 0 /\ (idle_event (shared cfg) = NOTIFIED \/ idle_event (shared cfg) = SHUTDOWN -> tally_if is_born (threads cfg) = 0).
Proof.
  unfold pool_rests. generalize (idle_event (shared cfg)). intros ev H. unfold tally_if. induction H as [|l ts Hl _ [IH1 IH2]]; [done|]. cbn [tally]. split.
  - rewrite IH1. by destruct l.
  - intros He. rewrite (IH2 He). destruct l; try done. cbn in Hl. destruct He as [-> | ->]; done.
Qed.

Lemma rests_served cfg : pool_ok cfg -> state (sync (shared cfg)) <> Shutdown -> fails = false -> pool_rests cfg -> unfinished (shared cfg) = 0.
Proof.
  intros Hok Hs Hfl Hr. destruct (rests_load cfg Hr) as [Hl Hc]. destruct (rests_active cfg Hr) as [Ha Hb]. destruct (p_tasks Hok) as [Hbag Hu]. destruct (p_live Hok Hs Hfl) as [_ _ _ _ L5 L6].
  rewrite Hu, Hl. destruct (Z.lt_ge_cases 0 (bag (shared cfg))) as [Hp|]; [|lia]. exfalso. destruct (L6 Hp) as [Hn|Hn]; [|lia].
  destruct (L5 Hn) as [H|[He H]]; [lia|]. destruct (live_shares (p_good Hok)) as (_ & _ & S3 & S4 & _). specialize (Hb (or_introl He)). lia.
Qed.

(** ** After a shutdown *)

Definition is_shut_post (pc : pool_pc) : bool := match pc with ShutPost => true | _ => false end.

(** The pool is shut down, and the sleepers are being told: no notification is on its way that would replace that. *)
Definition closing cfg : Prop :=
  state (sync (shared cfg)) = Shutdown /\ tally_if is_post (threads cfg) = 0 /\
  (idle_event (shared cfg) = SHUTDOWN \/ 0 < tally_if is_shut_post (threads cfg) \/ tally_if is_idling (threads cfg) = 0).

Lemma closing_fire cfg e cfg' : pool_ok cfg -> closing cfg -> pool_internal e -> fire (Sys := sys) cfg e = Some cfg' -> closing cfg'.
Proof.
  intros Hok (Hs & Hp & Hc) He Hf. destruct (good_fire Hmax cfg e cfg' Hok Hf) as (_ & Hs' & _). specialize (Hs' Hs). destruct (pool_sums Hmax cfg e cfg' Hok Hf) as (l & l' & n & Hl & Hst & _ & Ht & _).
  pose proof (Ht is_post) as [Tp Lp]. pose proof (Ht is_shut_post) as [Ts Ls]. pose proof (Ht is_idling) as [Ti Li]. split; [done|]. pose proof (tally_if_nonneg is_post (threads cfg')). pose proof (tally_if_nonneg is_idling (threads cfg')).
  clear Ht Hf Hl Hs'. unfold pool_internal in He. destruct cfg' as [s' ts']. cbn [shared threads] in *.
  pool_cases Hst; try done; cbn in Tp, Ts, Ti, Lp, Ls, Li.
  all: cbn [with_sync with_event with_tasks idle_event]; try rewrite (proj1 (unregister_rest _)); try congruence; try subst seen; try congruence.
  all: unfold found, return_from in *; repeat (match goal with H : context [b2z (?p (if ?b then _ else _))] |- _ => destruct b eqn:? end); cbn in Tp, Ts, Ti, Lp, Ls, Li.
  all: try lia; try (match type of Li with context [if ?b then _ else _] => destruct b; cbn in Li, Ti; lia end).
  match goal with H : (_ =? NOTIFIED) = true |- _ => apply Z.eqb_eq in H; rewrite H in Hc end. split; [lia|]. destruct Hc as [Hc|Hc]; [discriminate Hc|lia].
Qed.

(** Nothing was on its way when the pool was shut down, so the idle threads are told. *)
Lemma closing_enter cfg e cfg' : pool_ok cfg -> fails = false -> state (sync (shared cfg)) <> Shutdown -> tally_if is_post (threads cfg) = 0 ->
  fire (Sys := sys) cfg e = Some cfg' -> state (sync (shared cfg')) = Shutdown -> closing cfg'.
Proof.
  intros Hok Hfl Hn Hp Hf Hs. destruct (p_live Hok Hn Hfl) as [L1 _ _ _ _ _]. destruct (pool_sums Hmax cfg e cfg' Hok Hf) as (l & l' & n & Hl & Hst & _ & Ht & _).
  pose proof (Ht is_post) as [Tp _]. pose proof (Ht is_shut_post) as [Ts _]. pose proof (Ht is_idling) as [Ti _]. split; [done|]. pose proof (tally_if_nonneg is_shut_post (threads cfg)). pose proof (spawned_pos cfg _ l Hok Hl) as Hpos.
  clear Ht Hf Hl. destruct cfg' as [s' ts']. cbn [shared threads] in *.
  pool_cases Hst; try congruence; cbn [with_sync with_event with_tasks sync idle_event] in *; try congruence.
  all: try (destruct (unregister_word (shared cfg)) as (_ & _ & _ & Eu); [apply Hpos; first [reflexivity|by destruct worker]|congruence]).
  all: try subst seen; repeat (match goal with H : context [decide (?x = ?y)] |- _ => destruct (decide (x = y)) | H : context [if ?b then Pending else _] |- _ => is_var b; destruct b end); try congruence; try (intuition congruence).
  all: destruct (Z.ltb_spec 0 (idle (sync (shared cfg)))); cbn in Tp, Ts, Ti; pose proof (idle_bound (sync (shared cfg))); lia.
Qed.

Lemma closing_rests cfg : pool_ok cfg -> closing cfg -> pool_rests cfg -> spawned (sync (shared cfg)) = 0 /\ (0 < tally_if is_left (threads cfg) -> join_event (shared cfg) = true).
Proof.
  intros Hok (_ & _ & Hc) Hr. destruct (rests_active cfg Hr) as [Ha Hb]. destruct (live_shares (p_good Hok)) as (S1 & S2 & S3 & S4 & _). pose proof (tally_if_nonneg is_spawn (threads cfg)). pose proof (tally_if_nonneg is_born (threads cfg)).
  assert (Hz : tally_if is_born (threads cfg) = 0).
  { destruct Hc as [Hc|[Hc|Hc]]; [by apply Hb; right| |lia]. exfalso. destruct (tally_if_pos _ _ Hc) as (i & l & Hl & Hs). pose proof (Forall_lookup_1 _ _ _ _ Hr Hl). by destruct l. }
  assert (Hs0 : spawned (sync (shared cfg)) = 0) by (rewrite (p_spawned Hok); lia). split; [done|]. intros Hl. by apply (p_left Hok Hl).
Qed.
End progress.

(** ** Theorems *)

Lemma pool_reachable_ok n m shut fails cfg : 1 <= n < 16384 -> reachable (Sys := pool_system n shut fails) (pool_init (Z.to_nat n) m) cfg -> pool_ok n shut fails cfg.
Proof. intros Hn Hr. apply (reachable_ok n shut fails Hn (Z.to_nat n) m cfg); [lia|done]. Qed.




(** ** Runs *)

Definition nexts (i k : nat) : list (event pool_choice) := replicate k (mkEvent i CNext []).

(** A caller schedules a task: two workers are spawned, one runs it, both fall asleep. *)
Definition served_run : list (event pool_choice) :=
  mkEvent 2 (CSchedule 1) [] :: nexts 2 4 ++ mkEvent 2 CNext [0]%nat :: nexts 0 2 ++ mkEvent 0 (CTake 1) [] :: nexts 0 3 ++ mkEvent 0 CNext [1]%nat ::
  nexts 1 2 ++ mkEvent 1 CNone [] :: nexts 1 3 ++ nexts 0 1 ++ mkEvent 0 CNone [] :: nexts 0 3.

(** Then one caller schedules a task and is about to post the notification, and another starts to shut the pool down. *)
Definition shutting_run : list (event pool_choice) := served_run ++ mkEvent 3 CShutdown [] :: nexts 3 1.
Definition crossing_run : list (event pool_choice) :=
  served_run ++ mkEvent 2 (CSchedule 1) [] :: nexts 2 4 ++ mkEvent 3 CShutdown [] :: nexts 3 3 ++ nexts 2 1 ++ nexts 0 4.

(** A thread cannot be spawned, then another task is scheduled. *)
Definition failing_run : list (event pool_choice) := mkEvent 1 (CSchedule 1) [] :: nexts 1 4 ++ mkEvent 1 CFail [] :: mkEvent 1 (CSchedule 1) [] :: nexts 1 2.

Lemma crossing_run_ends : run (Sys := pool_system 2 true false) (pool_init 2 2) crossing_run = Some (mkConfig (mkPool 3758112768 EMPTY false 1 0 1) [Left_; WaitSleep; Outside; Outside]).
Proof. vm_compute. reflexivity. Qed.
Lemma failing_run_ends : run (Sys := pool_system 1 false true) (pool_init 1 1) failing_run = Some (mkConfig (mkPool 1610612736 EMPTY false 2 0 2) [Unborn; Outside]).
Proof. vm_compute. reflexivity. Qed.

(** Two races break this. A notification that is posted after the pool is shut down replaces what the event tells its sleepers: one leaves,
    the other sleeps for ever, and the joiner is not woken. And after a thread could not be spawned the word keeps the notification, so that
    a task that is scheduled later stays where it is, though threads may be spawned again. *)
Theorem pool_faults :
  (exists cfg, run (Sys := pool_system 2 true false) (pool_init 2 2) crossing_run = Some cfg /\
    pool_rests cfg /\ state (sync (shared cfg)) = Shutdown /\ spawned (sync (shared cfg)) = 1 /\ threads cfg !! 1%nat = Some WaitSleep /\ join_event (shared cfg) = false) /\
  (exists cfg, run (Sys := pool_system 1 false true) (pool_init 1 1) failing_run = Some cfg /\
    pool_rests cfg /\ state (sync (shared cfg)) = Signaled /\ notified (sync (shared cfg)) = true /\ spawned (sync (shared cfg)) = 0 /\ unfinished (shared cfg) = 2).
Proof.
  split; eexists; (split; [first [exact crossing_run_ends|exact failing_run_ends]|]); split_and!; try (vm_compute; reflexivity); unfold pool_rests; cbn; repeat constructor.
Qed.

(** ** Concrete inputs *)

Definition serving_run : list (event pool_choice) := mkEvent 2 (CSchedule 1) [] :: nexts 2 1.

Definition serving : config pool pool_pc := mkConfig (mkPool 0 EMPTY false 1 0 1) [Unborn; Unborn; NotifyFast false; Outside].

Lemma serving_reachable shut : reachable (Sys := pool_system 2 shut false) (pool_init (Z.to_nat 2) 2) serving.
Proof. exists serving_run. destruct shut; vm_compute; reflexivity. Qed.



Definition closing_one : config pool pool_pc := mkConfig (mkPool 32770 EMPTY false 0 0 0) [WaitSleep; WaitSleep; Outside; ShutLoop 32770].

Lemma closing_one_reachable : reachable (Sys := pool_system 2 true false) (pool_init (Z.to_nat 2) 2) closing_one.
Proof. exists shutting_run. vm_compute. reflexivity. Qed.

