(* ===== verification/Paths.v ===== *)
(** * Path normalisation ([paths/resolve_path.rs])

    A path is normalised into a buffer of the caller, in place: [buf_i] is how much of it is written, [dotdot] how much of
    that [..] may not take back. The code units are integers, so that the definitions cover both widths. The host is not
    Windows ([cfg!(windows)] is false); the Windows platform is still there, as a parameter of the functions. *)

From S2P Require Import Prelude.
From stdpp Require Import list.
Local Open Scope Z_scope.

Definition SEP_POSIX : Z := ch "/".
Definition SEP_WINDOWS : Z := ch "\".

Definition is_sep_any (c : Z) : bool := (c =? ch "/") || (c =? ch "\").
Definition is_sep_posix (c : Z) : bool := c =? ch "/".

Inductive Platform := Loose | Windows | Posix | Nt.

Definition is_separator (p : Platform) (c : Z) : bool := match p with Posix => is_sep_posix c | _ => is_sep_any c end.
Definition separator (p : Platform) : Z := match p with Loose | Posix => SEP_POSIX | Nt | Windows => SEP_WINDOWS end.
Definition trailing_separator (p : Platform) : bytes := match p with Nt | Windows => str ".\" | Posix | Loose => str "./" end.

Definition is_absolute_posix (p : bytes) : bool := match p with c :: _ => c =? ch "/" | [] => false end.
Definition is_absolute_windows (p : bytes) : bool :=
  match p with
  | [] => false
  | c0 :: rest =>
      (c0 =? ch "/") || (c0 =? ch "\") ||
      match rest with c1 :: c2 :: _ => (c1 =? ch ":") && ((c2 =? ch "/") || (c2 =? ch "\")) | _ => false end
  end.
Definition is_absolute (p : Platform) (path : bytes) : bool := match p with Posix => is_absolute_posix path | _ => is_absolute_windows path end.

Definition is_drive_letter (c : Z) : bool := ((ch "a" <=? c) && (c <=? ch "z")) || ((ch "A" <=? c) && (c <=? ch "Z")).
Definition to_ascii_upper (c : Z) : Z := if is_ascii_lower c then c - 32 else c.

(** [iter().rposition(f)], and the first index of a separator. *)
Fixpoint rposition (f : Z -> bool) (s : bytes) : option nat :=
  match s with
  | [] => None
  | c :: s => match rposition f s with Some i => Some (S i) | None => if f c then Some 0%nat else None end
  end.
Definition index_of_sep (s : bytes) : option nat :=
  let i := run_length (fun c => negb (is_sep_any c)) s in if (i <? length s)%nat then Some i else None.

Definition last_index_of_separator (p : Platform) (s : bytes) : option nat :=
  match p with Nt | Windows => rposition is_sep_any s | Posix | Loose => rposition is_sep_posix s end.

(** The length of the volume name and the index of the third slash of a UNC path. *)
Definition windows_volume_name_len (path : bytes) : nat * nat :=
  match path with
  | c :: c1 :: _ =>
      if (c1 =? ch ":") && is_drive_letter c then (2, 0)%nat
      else if (5 <=? length path)%nat && is_sep_any c && is_sep_any c1 && negb (is_sep_any (path !!! 2%nat)) && negb (path !!! 2%nat =? ch ".") then
        match index_of_sep (drop 3 path) with
        | Some idx =>
            if (idx + 4 <? length path)%nat && negb (is_sep_any (path !!! (idx + 4)%nat)) then
              match index_of_sep (drop (idx + 4) path) with
              | Some idx2 => (idx + idx2 + 4, idx + 3)%nat
              | None => (length path, idx + 3)%nat
              end
            else (length path, 0)%nat
        | None => (length path, 0)%nat
        end
      else (0, 0)%nat
  | _ => (0, 0)%nat
  end.

Definition leading_separator_index_posix (path : bytes) : option nat := if is_absolute_posix path then Some 0%nat else None.
Definition leading_separator_index_windows (path : bytes) : option nat :=
  match path with
  | [] => None
  | c0 :: rest =>
      if (c0 =? ch "/") || (c0 =? ch "\") then Some 0%nat
      else match rest with
      | c1 :: c2 :: _ =>
          if (ch "A" <=? c0) && (c0 <=? ch "Z") && (c1 =? ch ":") then
            if (c2 =? ch "/") || (c2 =? ch "\") then Some 2%nat else Some 1%nat
          else None
      | _ => None
      end
  end.
Definition leading_separator_index (p : Platform) (path : bytes) : option nat :=
  match p with
  | Nt | Windows => leading_separator_index_windows path
  | Posix => leading_separator_index_posix path
  | Loose => match leading_separator_index_windows path with Some i => Some i | None => leading_separator_index_posix path end
  end.

(** [buf[i..i + s.len()].copy_from_slice(s)] *)
Definition put (buf : bytes) (i : nat) (s : bytes) : outcome bytes :=
  if (i + length s <=? length buf)%nat then Ok (copy_at buf i s) else Panic.

Definition is_dotdot (slice : bytes) : bool := match slice with a :: b :: _ => (a =? ch ".") && (b =? ch ".") | _ => false end.

(** ** [normalize_string_generic_tz] *)

Section normalize.
Context (allow_above_root preserve_trailing_slash zero_terminate add_nt_prefix : bool) (sep : Z) (is_sep : Z -> bool).

(** A volume name is written first: the buffer, [buf_i], [dotdot], [path_begin], and whether there is nothing more. *)
Definition write_volume (path_ buf : bytes) : outcome (bytes * nat * nat * nat * bool) :=
  let '(vol_len, third) := windows_volume_name_len path_ in
  if (0 <? vol_len)%nat then
    '(buf, i) ← (if add_nt_prefix then buf ← put buf 0 (str "\??\"); Ok (buf, 4%nat) else Ok (buf, 0%nat));
    c1 ← index_at path_ 1;
    if negb (c1 =? ch ":") then
      '(buf, i) ← (if add_nt_prefix then buf ← put buf i (str "UNC"); buf ← store_at buf (i + 3) sep; Ok (buf, (i + 2)%nat)
                   else buf ← store_at buf i sep; buf ← store_at buf (i + 1) sep; Ok (buf, i));
      buf ← (if (0 <? third)%nat then
               server ← slice_range path_ 2 (third + 1); buf ← put buf (i + 2) server;
               buf ← store_at buf (i + third) sep;
               share ← slice_range path_ (third + 1) vol_len; put buf (i + third + 1) share
             else s ← slice_range path_ 2 vol_len; put buf (i + 2) s);
      buf ← store_at buf (i + vol_len) sep;
      Ok (buf, (i + vol_len + 1)%nat, 0%nat, (vol_len + 1)%nat, (length path_ <=? vol_len + 1)%nat)
    else
      c0 ← index_at path_ 0;
      buf ← store_at buf i (to_ascii_upper c0); buf ← store_at buf (i + 1) (ch ":");
      Ok (buf, (i + 2)%nat, (i + 2)%nat, 2%nat, false)
  else
    match path_ with
    | c :: _ => if is_sep c then buf ← store_at buf 0 sep; Ok (buf, 1%nat, 1%nat, 1%nat, false) else Ok (buf, 0%nat, 0%nat, 0%nat, false)
    | [] => Ok (buf, 0%nat, 0%nat, 0%nat, false)
    end.

(** [while buf_i > dotdot && !is_separator(buf[buf_i])] *)
Fixpoint back_up (buf : bytes) (dotdot buf_i : nat) : outcome nat :=
  match buf_i with
  | O => Ok O
  | S j => if (dotdot <? buf_i)%nat then c ← index_at buf buf_i; if is_sep c then Ok buf_i else back_up buf dotdot j else Ok buf_i
  end.

(** The path element [..]. *)
Definition take_back (buf_start : nat) (buf : bytes) (buf_i dotdot : nat) : outcome (bytes * nat * nat) :=
  if (dotdot <? buf_i)%nat then i ← back_up buf dotdot (buf_i - 1); Ok (buf, i, dotdot)
  else if allow_above_root then
    '(buf, i) ← (if (buf_start <? buf_i)%nat then buf ← store_at buf buf_i sep; buf ← store_at buf (buf_i + 1) (ch "."); buf ← store_at buf (buf_i + 2) (ch "."); Ok (buf, (buf_i + 3)%nat)
                 else buf ← store_at buf buf_i (ch "."); buf ← store_at buf (buf_i + 1) (ch "."); Ok (buf, (buf_i + 2)%nat));
    Ok (buf, i, i)
  else Ok (buf, buf_i, dotdot).

(** A real element, with a separator in front where one is needed. *)
Definition append_element (buf_start : nat) (buf : bytes) (buf_i : nat) (element : bytes) : outcome (bytes * nat) :=
  '(buf, i) ← (if negb (buf_i =? buf_start)%nat && (0 <? buf_i)%nat then
                 c ← index_at buf (buf_i - 1); if is_sep c then Ok (buf, buf_i) else buf ← store_at buf buf_i sep; Ok (buf, (buf_i + 1)%nat)
               else Ok (buf, buf_i));
  buf ← put buf i element; Ok (buf, (i + length element)%nat).

Fixpoint elements_loop (fuel : nat) (buf_start : nat) (path : bytes) (r : nat) (buf : bytes) (buf_i dotdot : nat) : outcome (bytes * nat) :=
  match fuel with
  | O => OutOfFuel
  | S fuel =>
      match drop r path with
      | [] => Ok (buf, buf_i)
      | c :: rest =>
          let ends (l : bytes) := match l with d :: _ => is_sep d | [] => true end in
          if is_sep c then elements_loop fuel buf_start path (r + 1) buf buf_i dotdot
          else if (c =? ch ".") && ends rest then elements_loop fuel buf_start path (r + 1) buf buf_i dotdot
          else if is_dotdot (c :: rest) && ends (drop 1 rest) then
            '(buf, buf_i, dotdot) ← take_back buf_start buf buf_i dotdot;
            elements_loop fuel buf_start path (r + 2) buf buf_i dotdot
          else
            let element := take (run_length (fun c => negb (is_sep c)) (c :: rest)) (c :: rest) in
            '(buf, buf_i) ← append_element buf_start buf buf_i element;
            elements_loop fuel buf_start path (r + length element) buf buf_i dotdot
      end
  end.

(** What comes behind the elements: the buffer and the length of the result. *)
Definition finish (is_windows : bool) (path_ path buf : bytes) (buf_i : nat) : outcome (bytes * nat) :=
  '(buf, buf_i) ← (if preserve_trailing_slash && (0 <? buf_i)%nat then
                     last ← index_at path_ (length path_ - 1); c ← index_at buf (buf_i - 1);
                     if (last =? sep) && negb (c =? sep) then buf ← store_at buf buf_i sep; Ok (buf, (buf_i + 1)%nat) else Ok (buf, buf_i)
                   else Ok (buf, buf_i));
  '(buf, buf_i) ← (if is_windows && (buf_i =? 2)%nat then
                     c ← index_at buf 1;
                     if c =? ch ":" then
                       buf ← store_at buf buf_i (match path with d :: _ => if d =? ch "\" then ch "\" else ch "." | [] => ch "." end); Ok (buf, (buf_i + 1)%nat)
                     else Ok (buf, buf_i)
                   else Ok (buf, buf_i));
  buf ← (if zero_terminate then store_at buf buf_i 0 else Ok buf);
  Ok (buf, buf_i).

Definition normalize_string_generic_tz (path_ buf : bytes) : outcome (bytes * nat) :=
  let is_windows := sep =? SEP_WINDOWS in
  '(buf, buf_i, dotdot, path_begin, volume_only) ← (if is_windows then write_volume path_ buf else Ok (buf, 0%nat, 0%nat, 0%nat, false));
  if (volume_only : bool) then buf ← (if zero_terminate then store_at buf buf_i 0 else Ok buf); Ok (buf, buf_i)
  else
    path ← slice_from path_ path_begin;
    let buf_start := buf_i in
    let leads := is_windows && (allow_above_root || (0 <? (windows_volume_name_len path_).1)%nat) && match path with c :: _ => is_sep c | [] => false end in
    '(r, buf, buf_i, dotdot) ← (if leads : bool then buf ← store_at buf buf_i sep; Ok (1%nat, buf, (buf_i + 1)%nat, (buf_i + 1)%nat) else Ok (0%nat, buf, buf_i, dotdot));
    '(buf, buf_i) ← elements_loop (length path + 1) buf_start path r buf buf_i dotdot;
    finish is_windows path_ path buf buf_i.

(** A path that is only the volume name of a share is returned as soon as that name is written. *)
Definition volume_only (path_ : bytes) : bool :=
  let vol_len := (windows_volume_name_len path_).1 in
  (0 <? vol_len)%nat && negb (path_ !!! 1%nat =? ch ":") && (length path_ <=? vol_len + 1)%nat.

(** The call in a build with debug assertions: for the Windows separator the path must not start with [:\], and the text
    that is returned behind the elements must not start with [\:\]. *)
Definition normalize_string_generic_tz_debug (path_ buf : bytes) : outcome (bytes * nat) :=
  let is_windows := sep =? SEP_WINDOWS in
  if is_windows && bool_decide (str ":\" `prefix_of` path_) then Panic
  else
    '(buf, n) ← normalize_string_generic_tz path_ buf;
    if is_windows && negb (volume_only path_) && bool_decide (str "\:\" `prefix_of` take n buf) then Panic else Ok (buf, n).

(** The normalised path. *)
Definition normalize_string_generic_t (path_ buf : bytes) : outcome bytes := '(buf, n) ← normalize_string_generic_tz path_ buf; slice_range buf 0 n.
End normalize.

(** ** What a path means: its elements, [.] and [..] resolved *)

(** The maximal runs without separators. *)
Fixpoint fields_by (is_sep : Z -> bool) (s : bytes) : list bytes :=
  match s with
  | [] => [[]]
  | c :: s =>
      let fs := fields_by is_sep s in
      if is_sep c then [] :: fs else match fs with f :: fs => (c :: f) :: fs | [] => [[c]] end
  end.
Definition nonempty (s : bytes) : bool := match s with [] => false | _ => true end.
Definition path_elements (is_sep : Z -> bool) (s : bytes) : list bytes := List.filter nonempty (fields_by is_sep s).

Definition DOT : bytes := [ch "."].
Definition DOTDOT : bytes := [ch "."; ch "."].

(** How many [..] lead out of where one began, and the names below that, the last one first. *)
Definition resolve_step (allow : bool) (st : nat * list bytes) (e : bytes) : nat * list bytes :=
  let '(ups, names) := st in
  if decide (e = DOT) then st
  else if decide (e = DOTDOT) then match names with _ :: names => (ups, names) | [] => (if allow then S ups else ups, []) end
  else (ups, e :: names).
Definition resolve_elements (allow : bool) (es : list bytes) : nat * list bytes := fold_left (resolve_step allow) es (0%nat, []).
Definition written_out (st : nat * list bytes) : list bytes := replicate st.1 DOTDOT ++ rev st.2.
Definition resolved (allow : bool) (es : list bytes) : list bytes := written_out (resolve_elements allow es).

Fixpoint joined (sep : Z) (es : list bytes) : bytes :=
  match es with
  | [] => []
  | [e] => e
  | e :: es => e ++ sep :: joined sep es
  end.

(** A name in a directory. *)
Definition name_ok (is_sep : Z -> bool) (e : bytes) : Prop := e <> [] /\ forallb (fun c => negb (is_sep c)) e = true.
Definition plain (is_sep : Z -> bool) (e : bytes) : Prop := name_ok is_sep e /\ e <> DOT /\ e <> DOTDOT.

Section elements.
Context (is_sep : Z -> bool).

Lemma fields_by_ne s : fields_by is_sep s <> [].
Proof. destruct s as [|c s]; cbn; [done|]. destruct (is_sep c); [done|]. by destruct (fields_by is_sep s). Qed.

Lemma elements_sep c s : is_sep c = true -> path_elements is_sep (c :: s) = path_elements is_sep s.
Proof. intros H. unfold path_elements. cbn. by rewrite H. Qed.

Lemma fields_by_app e s : forallb (fun c => negb (is_sep c)) e = true -> match s with c :: _ => is_sep c = true | [] => True end ->
  exists fs, fields_by is_sep (e ++ s) = e :: fs /\ List.filter nonempty fs = path_elements is_sep s.
Proof.
  intros He Hs. induction e as [|c e IH]; cbn [app forallb] in *.
  - destruct s as [|c s]; [by exists []|]. cbn [fields_by]. rewrite Hs. exists (fields_by is_sep s). split; [done|]. by rewrite elements_sep.
  - apply andb_true_iff in He as [Hc He]. destruct (IH He) as (fs & E & Ef). exists fs. cbn [fields_by]. rewrite E. destruct (is_sep c); [done|]. done.
Qed.

Lemma elements_app e s : name_ok is_sep e -> match s with c :: _ => is_sep c = true | [] => True end -> path_elements is_sep (e ++ s) = e :: path_elements is_sep s.
Proof.
  intros [Hne He] Hs. destruct (fields_by_app e s He Hs) as (fs & E & Ef). unfold path_elements at 1. rewrite E. cbn. destruct e; [done|]. cbn. by rewrite Ef.
Qed.

Lemma elements_name_ok s : Forall (name_ok is_sep) (path_elements is_sep s).
Proof.
  assert (H : Forall (fun f => forallb (fun c => negb (is_sep c)) f = true) (fields_by is_sep s)).
  { induction s as [|c s IH]; cbn; [by constructor|]. destruct (is_sep c) eqn:E; [by constructor|].
    destruct (fields_by is_sep s) as [|f fs]; [constructor; [|done]; cbn; by rewrite E|]. apply Forall_cons in IH as [H1 H2]. constructor; [|done]. cbn. by rewrite E, H1. }
  unfold path_elements. induction H as [|f fs Hf Hfs IH]; cbn; [done|]. destruct f as [|c f]; cbn; [done|]. constructor; [|done]. by split.
Qed.

(** The first element of a path. *)
Lemma run_split s : let n := run_length (fun c => negb (is_sep c)) s in
  forallb (fun c => negb (is_sep c)) (take n s) = true /\ match drop n s with c :: _ => is_sep c = true | [] => True end.
Proof. induction s as [|c s IH]; cbn; [done|]. destruct (is_sep c) eqn:E; cbn; [done|]. rewrite E. cbn. done. Qed.
End elements.

Section joined.
Context (sep : Z).

Lemma joined_cons e es : joined sep (e :: es) = e ++ match es with [] => [] | _ => sep :: joined sep es end.
Proof. destruct es; [by rewrite app_nil_r|done]. Qed.

Lemma joined_names_app es fs : es <> [] -> fs <> [] -> joined sep (es ++ fs) = joined sep es ++ sep :: joined sep fs.
Proof.
  intros He Hf. induction es as [|e es IH]; [done|]. destruct es as [|e' es].
  - cbn [app]. rewrite joined_cons. by destruct fs.
  - change ((e :: e' :: es) ++ fs) with (e :: (e' :: es) ++ fs). rewrite joined_cons, IH by done. cbn [app]. rewrite (joined_cons e (e' :: es)). rewrite <- app_assoc. done.
Qed.

Lemma joined_snoc es e : joined sep (es ++ [e]) = joined sep es ++ match es with [] => [] | _ => [sep] end ++ e.
Proof. destruct es as [|f es]; [done|]. rewrite joined_names_app by done. cbn [joined]. done. Qed.

Lemma elements_joined is_sep es : is_sep sep = true -> Forall (name_ok is_sep) es -> path_elements is_sep (joined sep es) = es.
Proof.
  intros Hs H. induction H as [|e es He Hes IH]; [done|]. rewrite joined_cons. rewrite elements_app; [|done|by destruct es].
  destruct es as [|f es]; [done|]. rewrite elements_sep by done. by rewrite IH.
Qed.

Lemma joined_nil es : Forall (fun e => e <> []) es -> joined sep es = [] -> es = [].
Proof. intros H. destruct H as [|e es He]; [done|]. rewrite joined_cons. by destruct e. Qed.
End joined.

(** ** The loop writes what the path means *)

Section loop.
Context (allow : bool) (sep : Z) (is_sep : Z -> bool) (Hsep : is_sep sep = true) (Hdot : is_sep (ch ".") = false).

Definition names_plain (st : nat * list bytes) : Prop := Forall (plain is_sep) st.2.

Lemma resolve_step_plain st e : name_ok is_sep e -> names_plain st -> names_plain (resolve_step allow st e).
Proof.
  intros He Hst. destruct st as [k ns]. unfold resolve_step. destruct (decide (e = DOT)); [done|]. destruct (decide (e = DOTDOT)).
  - destruct ns; [constructor|]. by apply Forall_cons in Hst as [_ ?].
  - constructor; [|done]. by split.
Qed.

Lemma dotdot_ok : name_ok is_sep DOTDOT.
Proof. split; [done|]. cbn. by rewrite Hdot. Qed.

Lemma written_out_ok st : names_plain st -> Forall (name_ok is_sep) (written_out st).
Proof.
  intros H. unfold written_out. apply Forall_app. split; [apply Forall_replicate, dotdot_ok|]. apply Forall_rev. eapply Forall_impl; [exact H|]. by intros e [? _].
Qed.

(** [buf] holds the elements that are written out so far. *)
Record holds (buf : bytes) (buf_i dotdot : nat) (st : nat * list bytes) : Prop := {
  h_plain : names_plain st;
  h_buf : take buf_i buf = joined sep (written_out st);
  h_len : buf_i = length (joined sep (written_out st));
  h_dotdot : dotdot = length (joined sep (replicate st.1 DOTDOT));
  h_fits : (buf_i <= length buf)%nat;
}.

Lemma back_up_spec buf dotdot i j :
  (j <= i)%nat -> (i < length buf)%nat -> (dotdot <= j)%nat ->
  (forall x c, (j < x <= i)%nat -> buf !! x = Some c -> is_sep c = false) -> (j = dotdot \/ exists c, buf !! j = Some c /\ is_sep c = true) ->
  back_up is_sep buf dotdot i = Ok j.
Proof.
  intros Hji Hi Hd Hno Hj. induction i as [|i IH]; cbn [back_up]; [f_equal; lia|].
  destruct (decide (j = S i)) as [->|Hne].
  - destruct (Nat.ltb_spec dotdot (S i)) as [Hlt|]; [|done]. destruct Hj as [?|(c & Hc & Hs)]; [lia|]. rewrite (index_at_ok _ _ c) by done. cbn [mbind outcome_bind]. by rewrite Hs.
  - rewrite (proj2 (Nat.ltb_lt dotdot (S i))) by lia. destruct (lookup_lt_is_Some_2 buf (S i) Hi) as [c Hc].
    rewrite (index_at_ok _ _ c) by done. cbn [mbind outcome_bind]. rewrite (Hno (S i) c) by (done || lia). apply IH; [lia|lia|]. intros x d Hx. apply Hno. lia.
Qed.

Lemma take_lookup_lt (buf s : bytes) n x : take n buf = s -> (x < n)%nat -> buf !! x = s !! x.
Proof. intros <- Hx. by rewrite lookup_take_lt. Qed.

Lemma forallb_lookup (f : Z -> bool) s x c : forallb f s = true -> s !! x = Some c -> f c = true.
Proof. intros H Hx. apply list_elem_of_lookup_2 in Hx. rewrite forallb_forall in H. apply H. by apply list_elem_of_In. Qed.

Lemma written_out_cons k e ns : written_out (k, e :: ns) = written_out (k, ns) ++ [e].
Proof. unfold written_out. cbn. by rewrite app_assoc. Qed.

(** The last name is taken back. *)
Lemma back_up_name buf buf_i dotdot k e ns :
  holds buf buf_i dotdot (k, e :: ns) -> (dotdot < buf_i)%nat /\
  exists i, back_up is_sep buf dotdot (buf_i - 1) = Ok i /\ holds buf i dotdot (k, ns).
Proof.
  intros [Hp Hb Hl Hd Hf]. apply Forall_cons in Hp as [[[He Hes] _] Hns]. rewrite written_out_cons, joined_snoc in Hb, Hl. cbn [fst] in Hd.
  set (front := written_out (k, ns)) in *. set (j := length (joined sep front)).
  assert (Hle : (dotdot <= j)%nat).
  { unfold j, front, written_out. cbn [fst snd]. rewrite Hd. destruct k as [|k]; [cbn; lia|]. destruct (rev ns) as [|f fs]; [by rewrite app_nil_r|]. rewrite joined_names_app by done. len. }
  assert (Hlen : (1 <= length e)%nat) by (destruct e; [done|cbn; lia]).
  rewrite !length_app in Hl. fold j in Hl. split; [lia|]. exists j.
  assert (Ht : take j buf = joined sep front).
  { replace j with (j `min` buf_i)%nat by lia. rewrite <- take_take, Hb. unfold j. by rewrite take_app_length. }
  split; [|by split; try done; lia].
  apply back_up_spec; [lia|lia|lia| |].
  - intros x c Hx Hc. rewrite (take_lookup_lt buf _ buf_i x Hb) in Hc by lia. rewrite lookup_app_r in Hc by (fold j; lia). fold j in Hc.
    apply negb_true_iff. destruct front as [|f fs]; cbn [app length] in *; [|rewrite lookup_cons_ne_0 in Hc by lia]; exact (forallb_lookup (fun c => negb (is_sep c)) _ _ _ Hes Hc).
  - destruct (decide (j = dotdot)); [by left|right]. exists sep. split; [|done]. rewrite (take_lookup_lt buf _ buf_i j Hb) by lia.
    rewrite lookup_app_r by (fold j; lia). fold j. rewrite Nat.sub_diag. destruct front; [|done]. cbn in j. unfold j in *. cbn in *. lia.
Qed.

Lemma store_take (buf : bytes) i x : (i < length buf)%nat -> take (i + 1) (<[i := x]> buf) = take i buf ++ [x].
Proof.
  intros Hi. rewrite Nat.add_1_r, (take_S_r _ i x) by (by rewrite list_lookup_insert_eq). by rewrite take_insert_ge.
Qed.

(** Storing behind what is written. *)
Lemma store_more (buf s : bytes) i x : take i buf = s -> i = length s -> (i < length buf)%nat ->
  store_at buf i x = Ok (<[i := x]> buf) /\ take (i + 1) (<[i := x]> buf) = s ++ [x] /\ (i + 1)%nat = length (s ++ [x]) /\ length (<[i := x]> buf) = length buf.
Proof. intros Hs Hl Hi. rewrite store_at_ok, store_take, Hs by done. split_and!; [done|done|rewrite length_app; cbn; lia|by rewrite length_insert]. Qed.

Lemma put_more (buf s e : bytes) i : take i buf = s -> i = length s -> (i + length e <= length buf)%nat ->
  put buf i e = Ok (copy_at buf i e) /\ take (i + length e) (copy_at buf i e) = s ++ e /\ length (copy_at buf i e) = length buf.
Proof. intros Hs Hl Hi. unfold put. rewrite (proj2 (Nat.leb_le _ _)) by done. by rewrite copy_at_take, Hs, copy_at_length. Qed.

Lemma joined_last es : Forall (name_ok is_sep) es -> es <> [] -> exists s c, joined sep es = s ++ [c] /\ is_sep c = false.
Proof.
  intros H Hne. destruct es as [|e es _] using rev_ind; [done|]. apply Forall_app in H as [_ [[He Hn] _]%Forall_cons].
  destruct e as [|c e _] using rev_ind; [done|]. rewrite joined_snoc, !app_assoc. eexists _, c. split; [done|].
  rewrite forallb_app in Hn. cbn in Hn. apply negb_true_iff. by destruct (is_sep c); rewrite ?andb_false_r in Hn.
Qed.

Lemma holds_last buf i d st : holds buf i d st -> (0 < i)%nat -> exists c, buf !! (i - 1)%nat = Some c /\ is_sep c = false.
Proof.
  intros [Hp Hb Hl _ Hf] Hi. destruct (joined_last (written_out st)) as (s & c & E & Hc); [by apply written_out_ok|intros E; rewrite E in Hl; cbn in Hl; lia|].
  exists c. split; [|done]. rewrite E in Hb, Hl. rewrite length_app in Hl. cbn in Hl. rewrite (take_lookup_lt buf _ i _ Hb) by lia.
  rewrite lookup_app_r by lia. by replace (i - 1 - length s)%nat with 0%nat by lia.
Qed.

Lemma holds_same buf i d st : holds buf i d st -> st.2 = [] -> d = i.
Proof. intros [_ _ Hl Hd _] E. rewrite Hl, Hd. unfold written_out. by rewrite E, app_nil_r. Qed.

Lemma take_back_spec buf i d st r :
  holds buf i d st -> (i = 0 \/ i + 1 <= r)%nat -> (r + 2 <= length buf)%nat ->
  exists buf' i' d', take_back allow sep is_sep 0 buf i d = Ok (buf', i', d') /\ holds buf' i' d' (resolve_step allow st DOTDOT) /\ (i' <= r + 2)%nat /\ length buf' = length buf.
Proof.
  intros Hh Hr Hb. destruct st as [k [|e ns]].
  - pose proof (holds_same _ _ _ _ Hh eq_refl) as ->. unfold take_back. rewrite Nat.ltb_irrefl. change (resolve_step allow (k, []) DOTDOT) with (if allow then S k else k, @nil bytes). destruct allow; [|exists buf, i, i; split_and!; try done; lia].
    destruct Hh as [Hp Ht Hl Hd Hf]. cbn [fst] in Hd. unfold written_out in *. cbn [fst snd rev] in *. rewrite app_nil_r in *.
    assert (E : joined sep (replicate (S k) DOTDOT) = joined sep (replicate k DOTDOT) ++ (if (0 <? i)%nat then [sep] else []) ++ DOTDOT).
    { rewrite replicate_S_end, joined_snoc. f_equal. f_equal. destruct k as [|k]; [by rewrite Hd|]. destruct i as [|i]; [|done]. exfalso. cbn [replicate] in Hd. rewrite joined_cons, length_app in Hd. cbn in Hd. lia. }
    assert (Hn : forall buf' n, take n buf' = joined sep (replicate (S k) DOTDOT) -> n = length (joined sep (replicate (S k) DOTDOT)) -> (n <= length buf')%nat -> holds buf' n n (S k, [])).
    { intros buf' n H1 H2 H3. split; [constructor| | |done|done]; unfold written_out; cbn [fst snd rev]; by rewrite app_nil_r. }
    rewrite E in Hn. clear E. destruct (0 <? i)%nat eqn:Ei.
    + apply Nat.ltb_lt in Ei. cbn [mbind outcome_bind].
      destruct (store_more buf _ i sep Ht Hl ltac:(lia)) as (E1 & T1 & L1 & N1). rewrite E1. cbn [mbind outcome_bind].
      destruct (store_more _ _ (i + 1) (ch ".") T1 L1 ltac:(lia)) as (E2 & T2 & L2 & N2). rewrite E2. cbn [mbind outcome_bind].
      replace (i + 2)%nat with (i + 1 + 1)%nat by lia.
      destruct (store_more _ _ (i + 1 + 1) (ch ".") T2 L2 ltac:(lia)) as (E3 & T3 & L3 & N3). rewrite E3. cbn [mbind outcome_bind].
      replace (i + 3)%nat with (i + 1 + 1 + 1)%nat by lia. do 3 eexists. split; [done|]. rewrite <- !app_assoc in T3, L3. cbn [app] in T3, L3.
      split_and!; [apply Hn; [done|done|lia]|lia|lia].
    + apply Nat.ltb_ge in Ei. cbn [mbind outcome_bind].
      destruct (store_more buf _ i (ch ".") Ht Hl ltac:(lia)) as (E1 & T1 & L1 & N1). rewrite E1. cbn [mbind outcome_bind].
      destruct (store_more _ _ (i + 1) (ch ".") T1 L1 ltac:(lia)) as (E2 & T2 & L2 & N2). rewrite E2. cbn [mbind outcome_bind].
      replace (i + 2)%nat with (i + 1 + 1)%nat by lia. do 3 eexists. split; [done|]. rewrite <- !app_assoc in T2, L2. cbn [app] in T2, L2.
      split_and!; [apply Hn; [done|done|lia]|lia|lia].
  - destruct (back_up_name buf i d k e ns Hh) as (Hd & j & Hj & Hh'). unfold take_back. rewrite (proj2 (Nat.ltb_lt _ _)) by done. rewrite Hj. cbn [mbind outcome_bind].
    exists buf, j, d. split_and!; [done|done| |done].
    pose proof (h_len _ _ _ _ Hh') as L1. pose proof (h_len _ _ _ _ Hh) as L2. rewrite written_out_cons, joined_snoc, length_app in L2. lia.
Qed.

Lemma append_element_spec buf i d st r e :
  holds buf i d st -> plain is_sep e -> (i = 0 \/ i + 1 <= r)%nat -> (r + length e <= length buf)%nat ->
  exists buf' i', append_element sep is_sep 0 buf i e = Ok (buf', i') /\ holds buf' i' d (resolve_step allow st e) /\ (i' <= r + length e)%nat /\ length buf' = length buf.
Proof.
  intros Hh He Hr Hb. destruct st as [k ns].
  assert (Es : resolve_step allow (k, ns) e = (k, e :: ns)).
  { unfold resolve_step. destruct He as (_ & H1 & H2). by rewrite !decide_False. }
  rewrite Es. unfold append_element. pose proof Hh as [Hp Ht Hl Hd Hf].
  assert (Hn : forall buf' s n, take n buf' = s ++ e -> n = length (s ++ e) -> s = joined sep (written_out (k, ns)) ++ (match written_out (k, ns) with [] => [] | _ => [sep] end) -> (n <= length buf')%nat -> holds buf' n d (k, e :: ns)).
  { intros buf' s n H1 H2 -> H3. split; [by constructor| | |done|done]; by rewrite written_out_cons, joined_snoc, app_assoc. }
  assert (Ho : written_out (k, ns) = [] <-> i = 0%nat).
  { split; [intros E; by rewrite Hl, E|]. intros E. apply (joined_nil sep); [|apply nil_length_inv; lia]. eapply Forall_impl; [by apply written_out_ok|]. by intros x [? _]. }
  destruct (Nat.eqb_spec i 0) as [->|Hi]; cbn [negb andb].
  - cbn [mbind outcome_bind]. destruct (put_more buf _ e 0 Ht Hl ltac:(lia)) as (E1 & T1 & N1). rewrite E1. cbn [mbind outcome_bind].
    do 2 eexists. split; [done|]. split_and!; [|lia|done]. apply (Hn _ (joined sep (written_out (k, ns)))); [done| | |lia].
    + rewrite length_app. lia.
    + by rewrite (proj2 Ho), app_nil_r by done.
  - rewrite (proj2 (Nat.ltb_lt 0 i)) by lia. destruct (holds_last _ _ _ _ Hh ltac:(lia)) as (c & Hc & Hcs). rewrite (index_at_ok _ _ c) by done. cbn [mbind outcome_bind]. rewrite Hcs.
    destruct (store_more buf _ i sep Ht Hl ltac:(lia)) as (E1 & T1 & L1 & N1). rewrite E1. cbn [mbind outcome_bind].
    destruct (put_more _ _ e (i + 1) T1 L1 ltac:(lia)) as (E2 & T2 & N2). rewrite E2. cbn [mbind outcome_bind].
    do 2 eexists. split; [done|]. split_and!; [|lia|lia]. apply (Hn _ (joined sep (written_out (k, ns)) ++ [sep])); [done| | |lia].
    + rewrite (length_app _ e). lia.
    + destruct (written_out (k, ns)) eqn:E; [by rewrite (proj1 Ho) in Hi|done].
Qed.

Lemma drop_cons (s : bytes) r c rest : drop r s = c :: rest -> drop (r + 1) s = rest /\ (r + 1 + length rest = length s)%nat.
Proof.
  intros H. assert (L : length (drop r s) = S (length rest)) by (by rewrite H). rewrite length_drop in L. split; [|lia].
  rewrite <- drop_drop, H. done.
Qed.

Definition ends (l : bytes) : bool := match l with d :: _ => is_sep d | [] => true end.

Lemma ends_spec l : ends l = true -> match l with d :: _ => is_sep d = true | [] => True end.
Proof. by destruct l. Qed.

(** An element that is neither [.] nor [..]. *)
Lemma element_plain c rest : let n := run_length (fun c => negb (is_sep c)) (c :: rest) in
  is_sep c = false -> (c =? ch ".") && ends rest = false -> is_dotdot (c :: rest) && ends (drop 1 rest) = false ->
  plain is_sep (take n (c :: rest)) /\ path_elements is_sep (c :: rest) = take n (c :: rest) :: path_elements is_sep (drop n (c :: rest)) /\ (1 <= n)%nat.
Proof.
  intros n Hc Hd Hdd. destruct (run_split is_sep (c :: rest)) as [H1 H2]. fold n in H1, H2.
  assert (Hn : n = S (run_length (fun c => negb (is_sep c)) rest)) by (unfold n; cbn; by rewrite Hc).
  assert (Hok : name_ok is_sep (take n (c :: rest))) by (split; [by rewrite Hn|done]).
  split_and!; [|rewrite <- (take_drop n (c :: rest)) at 1; by apply elements_app|lia].
  assert (He : forall t, match t with d :: _ => is_sep d = true | [] => True end -> ends t = true) by (by intros [|d t]).
  pose proof (take_drop n (c :: rest)) as T. apply He in H2. revert H2 T. generalize (drop n (c :: rest)). intros t H2 T. split; [done|]. split; intros E; rewrite E in T; cbn [DOT DOTDOT app] in T.
  - injection T as T1 T2. rewrite <- T1, <- T2, H2 in Hd. done.
  - injection T as T1 T2. rewrite <- T1, <- T2 in Hdd. change (drop 1 (ch "." :: t)) with t in Hdd. by rewrite H2 in Hdd.
Qed.

Lemma elements_loop_spec fuel path r buf i d st :
  holds buf i d st -> (r <= length path)%nat -> (i <= r)%nat -> match drop r path with c :: _ => is_sep c = false -> (i = 0 \/ i + 1 <= r)%nat | [] => True end ->
  (length path <= length buf)%nat -> (length path - r < fuel)%nat ->
  exists buf' n d', elements_loop allow sep is_sep fuel 0 path r buf i d = Ok (buf', n) /\
    holds buf' n d' (fold_left (resolve_step allow) (path_elements is_sep (drop r path)) st) /\ (n <= length path)%nat /\ length buf' = length buf.
Proof.
  revert r buf i d st. induction fuel as [|fuel IH]; intros r buf i d st Hh Hr Hi Hst Hb Hf; [lia|]. cbn [elements_loop].
  destruct (drop r path) as [|c rest] eqn:Ed; [exists buf, i, d; split_and!; try done; lia|].
  destruct (drop_cons _ _ _ _ Ed) as [Ed1 El]. change (match rest with | [] => true | d :: _ => is_sep d end) with (ends rest).
  change (match drop 1 rest with | [] => true | d :: _ => is_sep d end) with (ends (drop 1 rest)).
  destruct (is_sep c) eqn:Ec.
  { rewrite elements_sep, <- Ed1 by done. apply IH; [done|lia|lia| |done|lia]. destruct (drop (r + 1) path); [done|]. intros _. lia. }
  specialize (Hst eq_refl).
  destruct ((c =? ch ".") && ends rest) eqn:Edot.
  { apply andb_true_iff in Edot as [->%Z.eqb_eq He]. change (ch "." :: rest) with (DOT ++ rest). rewrite elements_app; [|split; [done|cbn; by rewrite Hdot]|by apply ends_spec].
    cbn [fold_left]. assert (Es : resolve_step allow st DOT = st) by (by destruct st). rewrite Es, <- Ed1. apply IH; [done|lia|lia| |done|lia].
    rewrite Ed1. apply ends_spec in He. destruct rest; [done|]. intros ?. congruence. }
  destruct (is_dotdot (c :: rest) && ends (drop 1 rest)) eqn:Edd.
  { apply andb_true_iff in Edd as [Hdd He]. destruct rest as [|c' rest]; [done|]. cbn in Hdd. apply andb_true_iff in Hdd as [->%Z.eqb_eq ->%Z.eqb_eq].
    destruct (drop_cons _ _ _ _ Ed1) as [Ed2 El2]. cbn [drop] in He. replace (r + 1 + 1)%nat with (r + 2)%nat in * by lia.
    change (ch "." :: ch "." :: rest) with (DOTDOT ++ rest). rewrite elements_app; [|apply dotdot_ok|by apply ends_spec]. cbn [fold_left].
    destruct (take_back_spec buf i d st r Hh Hst ltac:(lia)) as (buf1 & i1 & d1 & E1 & Hh1 & Hi1 & Hl1). rewrite E1. cbn [mbind outcome_bind].
    rewrite <- Hl1, <- Ed2. apply IH; [done|lia|lia| |lia|lia]. rewrite Ed2. apply ends_spec in He. destruct rest; [done|]. intros ?. congruence. }
  destruct (element_plain c rest Ec Edot Edd) as (Hp & Ee & Hn). set (n := run_length (fun c => negb (is_sep c)) (c :: rest)) in *.
  pose proof (run_length_le (fun c => negb (is_sep c)) (c :: rest)) as Hle. fold n in Hle. cbn [length] in Hle.
  assert (Hlen : length (take n (c :: rest)) = n) by (rewrite length_take; cbn [length]; lia).
  destruct (append_element_spec buf i d st r (take n (c :: rest)) Hh Hp Hst ltac:(lia)) as (buf1 & i1 & E1 & Hh1 & Hi1 & Hl1). rewrite E1. cbn [mbind outcome_bind].
  rewrite Ee. cbn [fold_left]. rewrite Hlen in *. rewrite <- Ed in Hh1. rewrite <- Hl1, <- Ed, drop_drop. apply IH; [done|lia|lia| |lia|lia].
  pose proof (run_split is_sep (c :: rest)) as [_ Hs]. fold n in Hs. rewrite <- Ed, drop_drop in Hs. destruct (drop (r + n) path); [done|]. intros ?. congruence.
Qed.

Lemma fold_plain (es : list bytes) st : Forall (name_ok is_sep) es -> names_plain st -> names_plain (fold_left (resolve_step allow) es st).
Proof. intros H. revert st. induction H as [|e es He Hes IH]; intros st Hst; [done|]. cbn. by apply IH, resolve_step_plain. Qed.

Lemma resolved_ok (es : list bytes) : Forall (name_ok is_sep) es -> Forall (name_ok is_sep) (resolved allow es).
Proof. intros H. apply written_out_ok. apply fold_plain; [done|constructor]. Qed.

(** Resolving again changes nothing. *)
Lemma fold_dotdots k j : allow = true -> fold_left (resolve_step allow) (replicate j DOTDOT) (k, []) = ((k + j)%nat, []).
Proof. intros Ha. revert k. induction j as [|j IH]; intros k; [by rewrite Nat.add_0_r|]. cbn [replicate fold_left]. assert (resolve_step allow (k, []) DOTDOT = (S k, [])) as -> by (cbn; by rewrite Ha). rewrite IH. f_equal. lia. Qed.

Lemma fold_names k ns ms : Forall (plain is_sep) ms -> fold_left (resolve_step allow) ms (k, ns) = (k, rev ms ++ ns).
Proof.
  intros H. revert ns. induction H as [|e ms (_ & H1 & H2) Hms IH]; intros ns; [done|]. cbn [fold_left]. unfold resolve_step at 2. rewrite !decide_False by done.
  rewrite IH. cbn [rev]. by rewrite <- app_assoc.
Qed.

Lemma fold_ups_false (es : list bytes) st : allow = false -> (fold_left (resolve_step allow) es st).1 = st.1.
Proof.
  intros Ha. revert st. induction es as [|e es IH]; intros st; [done|]. cbn. rewrite IH. destruct st as [k ns]. unfold resolve_step. rewrite Ha.
  destruct (decide (e = DOT)); [done|]. destruct (decide (e = DOTDOT)); [|done]. by destruct ns.
Qed.

Lemma resolved_resolved (es : list bytes) : Forall (name_ok is_sep) es -> resolved allow (resolved allow es) = resolved allow es.
Proof.
  intros H. unfold resolved at 2 3. pose proof (fold_plain es (0%nat, []) H ltac:(constructor)) as Hp. fold (resolve_elements allow es) in Hp. destruct (resolve_elements allow es) as [k ns] eqn:E.
  unfold resolved, resolve_elements, written_out. cbn [fst snd]. rewrite fold_left_app.
  assert (Ek : fold_left (resolve_step allow) (replicate k DOTDOT) (0%nat, []) = (k, [])).
  { destruct (Bool.bool_dec allow true) as [Ha|Ha]; [by rewrite fold_dotdots|]. apply not_true_is_false in Ha. pose proof (fold_ups_false es (0%nat, []) Ha) as Hk.
    unfold resolve_elements in E. rewrite E in Hk. cbn in Hk. by subst k. }
  rewrite Ek, fold_names by (by apply Forall_rev). cbn [fst snd]. by rewrite rev_involutive, app_nil_r.
Qed.

(** The normal form of a path. *)
Definition slash_kept (preserve : bool) (path s : bytes) : bytes := if preserve && nonempty s && bool_decide (last path = Some sep) then [sep] else [].
Definition normal (preserve : bool) (path : bytes) : bytes :=
  let s := joined sep (resolved allow (path_elements is_sep path)) in s ++ slash_kept preserve path s.

Lemma elements_trailing (es : list bytes) t : Forall (name_ok is_sep) es -> t = [] \/ t = [sep] -> path_elements is_sep (joined sep es ++ t) = es.
Proof.
  intros H Ht. induction H as [|e es He Hes IH].
  - destruct Ht as [->| ->]; [done|]. cbn [joined app]. by rewrite elements_sep.
  - rewrite joined_cons, <- app_assoc. destruct es as [|f es].
    + cbn [app]. rewrite elements_app; [|done|by destruct Ht as [->| ->]]. by destruct Ht as [->| ->]; [|rewrite elements_sep].
    + cbn [app]. rewrite elements_app, elements_sep, IH; done.
Qed.

Lemma slash_kept_cases preserve path s : slash_kept preserve path s = [] \/ slash_kept preserve path s = [sep].
Proof. unfold slash_kept. destruct (_ && _); auto. Qed.

Lemma elements_normal preserve path : path_elements is_sep (normal preserve path) = resolved allow (path_elements is_sep path).
Proof. apply elements_trailing; [apply resolved_ok, elements_name_ok|apply slash_kept_cases]. Qed.

Lemma normal_normal preserve path : normal preserve (normal preserve path) = normal preserve path.
Proof.
  unfold normal at 1. rewrite elements_normal, resolved_resolved by apply elements_name_ok. unfold normal. set (s := joined sep _). f_equal. unfold slash_kept.
  destruct preserve; cbn [andb]; [|done]. destruct (nonempty s) eqn:Es; cbn [andb]; [|done].
  destruct (decide (last path = Some sep)) as [H|H].
  - rewrite (bool_decide_eq_true_2 _ H), bool_decide_eq_true_2 by (by rewrite last_snoc). done.
  - rewrite (bool_decide_eq_false_2 _ H), app_nil_r, bool_decide_eq_false_2; [done|]. destruct (joined_last (resolved allow (path_elements is_sep path))) as (s' & c & E & Hc).
    + apply resolved_ok, elements_name_ok.
    + intros E. unfold s in Es. by rewrite E in Es.
    + fold s in E. rewrite E, last_snoc. congruence.
Qed.

Lemma last_lookup_bytes (s : bytes) : last s = s !! (length s - 1)%nat.
Proof. destruct s as [|x s _] using rev_ind; [done|]. rewrite last_snoc, length_app. cbn [length]. rewrite lookup_app_r by lia. by replace (length s + 1 - 1 - length s)%nat with 0%nat by lia. Qed.

(** The normal form is no longer than the path, and shorter if a slash at the end is left out. *)
Lemma length_resolved path : (length (joined sep (resolved allow (path_elements is_sep path))) <= length path)%nat.
Proof.
  destruct (elements_loop_spec (length path + 1) path 0 path 0 0 (0%nat, [])) as (buf1 & n & d & E & [_ _ Hl _ _] & Hn & _); [|lia|lia|destruct (drop 0 path); [done|by left]|lia|lia|].
  { split; [constructor|done|done|done|lia]. }
  change (drop 0 path) with path in Hl. unfold resolved, resolve_elements. lia.
Qed.

Lemma elements_snoc path c : is_sep c = true -> path_elements is_sep (path ++ [c]) = path_elements is_sep path.
Proof.
  intros Hc. assert (E : fields_by is_sep (path ++ [c]) = fields_by is_sep path ++ [[]]).
  { induction path as [|a path IH]; cbn [fields_by app]; [by rewrite Hc|]. rewrite IH. destruct (is_sep a); [done|]. pose proof (fields_by_ne is_sep path). by destruct (fields_by is_sep path). }
  unfold path_elements. rewrite E, List.filter_app. cbn. by rewrite app_nil_r.
Qed.

Lemma length_resolved_slash path c : last path = Some c -> is_sep c = true -> (length (joined sep (resolved allow (path_elements is_sep path))) + 1 <= length path)%nat.
Proof.
  intros Hl Hc. destruct path as [|x path _] using rev_ind; [done|]. rewrite last_snoc in Hl. injection Hl as ->. rewrite elements_snoc by done.
  pose proof (length_resolved path). rewrite length_app. cbn [length]. lia.
Qed.

Lemma normalize_spec (preserve zero_terminate nt : bool) path buf :
  sep <> SEP_WINDOWS -> (length path + (if preserve then 1 else 0) + (if zero_terminate then 1 else 0) <= length buf)%nat ->
  exists buf', normalize_string_generic_tz allow preserve zero_terminate nt sep is_sep path buf = Ok (buf', length (normal preserve path)) /\
    take (length (normal preserve path)) buf' = normal preserve path /\ length buf' = length buf /\
    (zero_terminate = true -> buf' !! length (normal preserve path) = Some 0).
Proof.
  intros Hw Hb. unfold normalize_string_generic_tz. rewrite (proj2 (Z.eqb_neq _ _)) by done. cbn [mbind outcome_bind andb]. unfold slice_from. rewrite decide_True by lia. cbn [mbind outcome_bind].
  change (drop 0 path) with path. cbn [mbind outcome_bind].
  destruct (elements_loop_spec (length path + 1) path 0 buf 0 0 (0%nat, [])) as (buf1 & n & d & E & [Hp Ht Hl Hd Hf] & Hn & Hlen); [|lia|lia|destruct (drop 0 path); [done|by left]|lia|lia|].
  { split; [constructor|done|done|done|lia]. }
  rewrite E. cbn [mbind outcome_bind]. change (drop 0 path) with path in *. fold (resolve_elements allow (path_elements is_sep path)) in *. fold (resolved allow (path_elements is_sep path)) in *.
  unfold normal. set (s := joined sep (resolved allow (path_elements is_sep path))) in *.
  assert (Hfin : forall buf2 t, t = slash_kept preserve path s -> take (n + length t) buf2 = s ++ t -> length buf2 = length buf ->
    exists buf', (buf ← (if zero_terminate then store_at buf2 (n + length t) 0 else Ok buf2); Ok (buf, (n + length t)%nat)) = Ok (buf', length (s ++ t)) /\
      take (length (s ++ t)) buf' = s ++ t /\ length buf' = length buf /\ (zero_terminate = true -> buf' !! length (s ++ t) = Some 0)).
  { intros buf2 t Et T2 L2. assert (Htl : (length t <= if preserve then 1 else 0)%nat) by (rewrite Et; unfold slash_kept; destruct preserve, (nonempty s), (bool_decide _); cbn; lia).
    assert (Hs : length (s ++ t) = (n + length t)%nat) by (rewrite length_app; lia). rewrite Hs. destruct zero_terminate.
    - rewrite store_at_ok by lia. exists (<[(n + length t)%nat := 0]> buf2). split_and!; [done|by rewrite take_insert_ge|by rewrite length_insert|]. intros _. apply list_lookup_insert_eq. lia.
    - exists buf2. by split_and!. }
  unfold finish. cbn [andb]. destruct preserve; cbn [andb].
  - destruct (Nat.ltb_spec 0 n) as [Hpos|Hz].
    + destruct (lookup_lt_is_Some_2 path (length path - 1)) as [l Hlast]; [lia|]. rewrite (index_at_ok path _ l) by done. cbn [mbind outcome_bind].
      destruct (holds_last buf1 n d (resolve_elements allow (path_elements is_sep path))) as (c & Hc & Hcs); [by split|done|]. rewrite (index_at_ok buf1 _ c) by done. cbn [mbind outcome_bind].
      assert (Hcne : c =? sep = false) by (apply Z.eqb_neq; intros ->; congruence). rewrite Hcne.
      assert (Hne : nonempty s = true) by (destruct s; [cbn in Hl; lia|done]).
      destruct (Z.eqb_spec l sep) as [->|Hls]; cbn [andb negb].
      * destruct (store_more buf1 s n sep Ht Hl ltac:(lia)) as (E1 & T1 & L1 & N1). rewrite E1. cbn [mbind outcome_bind].
        assert (Ek : slash_kept true path s = [sep]) by (unfold slash_kept; rewrite Hne, last_lookup_bytes; by rewrite bool_decide_eq_true_2).
        rewrite Ek. apply (Hfin _ [sep]); [by rewrite Ek|done|lia].
      * assert (Ek : slash_kept true path s = []) by (unfold slash_kept; rewrite Hne, last_lookup_bytes, bool_decide_eq_false_2; [done|congruence]).
        rewrite Ek. pose proof (Hfin buf1 []) as F. cbn [length] in F. rewrite Nat.add_0_r in F. apply F; [by rewrite Ek|by rewrite app_nil_r|done].
    + assert (Ek : slash_kept true path s = []) by (unfold slash_kept; destruct s; [done|cbn in Hl; lia]).
      rewrite Ek. pose proof (Hfin buf1 []) as F. cbn [length] in F. rewrite Nat.add_0_r in F. apply F; [by rewrite Ek|by rewrite app_nil_r|done].
  - pose proof (Hfin buf1 []) as F. cbn [length] in F. rewrite Nat.add_0_r in F. apply F; [done|by rewrite app_nil_r|done].
Qed.
End loop.

(** ** No panic, on any platform *)

Section returns.
Context (allow_above_root preserve_trailing_slash zero_terminate add_nt_prefix : bool) (sep : Z) (is_sep : Z -> bool).

Lemma put_returns buf i s : (i + length s <= length buf)%nat -> exists buf', put buf i s = Ok buf' /\ length buf' = length buf.
Proof. intros H. unfold put. rewrite (proj2 (Nat.leb_le _ _)) by done. eexists. split; [done|]. by apply copy_at_length. Qed.

Lemma store_returns (buf : bytes) i x : (i < length buf)%nat -> exists buf', store_at buf i x = Ok buf' /\ length buf' = length buf.
Proof. intros H. rewrite store_at_ok by done. eexists. split; [done|]. apply length_insert. Qed.

Lemma index_returns (s : bytes) i : (i < length s)%nat -> exists c, index_at s i = Ok c.
Proof. intros H. destruct (lookup_lt_is_Some_2 s i H) as [c Hc]. exists c. by apply index_at_ok. Qed.

(** The first thing that is done. *)
Ltac first_of m := lazymatch m with mbind _ ?x => first_of x | _ => m end.
Ltac step_ok :=
  match goal with
  | |- context [@eq (outcome _) ?m _] =>
      let h := first_of m in
      lazymatch h with
      | put ?b ?i ?s => let b' := fresh "buf" in let H := fresh in destruct (put_returns b i s) as (b' & H & ?); [|rewrite H; clear H; cbn [mbind outcome_bind]]
      | store_at ?b ?i ?x => let b' := fresh "buf" in let H := fresh in destruct (store_returns b i x) as (b' & H & ?); [|rewrite H; clear H; cbn [mbind outcome_bind]]
      | index_at ?s ?i => let c := fresh "c" in let H := fresh in destruct (index_returns s i) as (c & H); [|rewrite H; clear H; cbn [mbind outcome_bind]]
      | slice_range ?s ?a ?b => rewrite (slice_range_ok s a b); [cbn [mbind outcome_bind]|]
      end
  end.

Lemma back_up_returns buf dotdot i : (i < length buf)%nat -> exists j, back_up is_sep buf dotdot i = Ok j /\ (j <= i)%nat.
Proof.
  induction i as [|i IH]; intros Hi; cbn [back_up]; [by exists 0%nat|]. destruct (_ <? _)%nat; [|by eexists].
  step_ok; [done|]. destruct (is_sep c); [by eexists|]. destruct IH as (j & E & Hj); [lia|]. exists j. split; [done|lia].
Qed.

Lemma take_back_returns start buf i dotdot k :
  (i + 3 <= k)%nat -> (k <= length buf)%nat ->
  exists buf' i' d', take_back allow_above_root sep is_sep start buf i dotdot = Ok (buf', i', d') /\ (i' <= k)%nat /\ length buf' = length buf.
Proof.
  intros Hi Hk. unfold take_back. destruct (Nat.ltb_spec dotdot i).
  - destruct (back_up_returns buf dotdot (i - 1)) as (j & -> & Hj); [lia|]. cbn [mbind outcome_bind]. do 3 eexists. split_and!; [done|lia|done].
  - destruct allow_above_root; [|do 3 eexists; split_and!; [done|lia|done]]. destruct (start <? i)%nat; repeat (step_ok; [lia|]); do 3 eexists; (split_and!; [done|lia|lia]).
Qed.

Lemma append_element_returns start buf i e k :
  (i + 1 + length e <= k)%nat -> (k <= length buf)%nat ->
  exists buf' i', append_element sep is_sep start buf i e = Ok (buf', i') /\ (i' <= k)%nat /\ length buf' = length buf.
Proof.
  intros Hi Hk. unfold append_element. destruct (negb _ && _) eqn:E; cbn [mbind outcome_bind].
  - apply andb_true_iff in E as [_ H0%Nat.ltb_lt]. step_ok; [lia|]. destruct (is_sep c); cbn [mbind outcome_bind]; repeat (step_ok; [lia|]); do 2 eexists; (split_and!; [done|lia|lia]).
  - step_ok; [lia|]. do 2 eexists. split_and!; [done|lia|lia].
Qed.

Lemma elements_loop_returns fuel start path r buf i dotdot k :
  (r <= length path)%nat -> (i <= r + k)%nat -> match drop r path with c :: _ => is_sep c = false -> (i + 1 <= r + k)%nat | [] => True end ->
  (length path + k <= length buf)%nat -> (length path - r < fuel)%nat ->
  exists buf' n, elements_loop allow_above_root sep is_sep fuel start path r buf i dotdot = Ok (buf', n) /\ (n <= length path + k)%nat /\ length buf' = length buf.
Proof.
  revert r buf i dotdot. induction fuel as [|fuel IH]; intros r buf i d Hr Hi Hst Hb Hf; [lia|]. cbn [elements_loop].
  destruct (drop r path) as [|c rest] eqn:Ed; [exists buf, i; split_and!; try done; lia|].
  destruct (drop_cons _ _ _ _ Ed) as [Ed1 El]. change (match rest with | [] => true | d :: _ => is_sep d end) with (ends is_sep rest).
  change (match drop 1 rest with | [] => true | d :: _ => is_sep d end) with (ends is_sep (drop 1 rest)).
  destruct (is_sep c) eqn:Ec; [apply IH; try lia; destruct (drop (r + 1) path); [done|]; intros _; lia|]. specialize (Hst eq_refl).
  assert (Hends : forall l, ends is_sep l = true -> match l with d :: _ => is_sep d = false -> False | [] => True end) by (intros [|a l] H; [done|cbn in H; congruence]).
  destruct ((c =? ch ".") && ends is_sep rest) eqn:Edot.
  { apply andb_true_iff in Edot as [_ He%Hends]. apply IH; try lia. rewrite Ed1. destruct rest; [done|]. by intros ?%He. }
  destruct (is_dotdot (c :: rest) && ends is_sep (drop 1 rest)) eqn:Edd.
  { apply andb_true_iff in Edd as [Hdd He%Hends]. destruct rest as [|c' rest]; [done|]. destruct (drop_cons _ _ _ _ Ed1) as [Ed2 El2]. replace (r + 1 + 1)%nat with (r + 2)%nat in * by lia.
    destruct (take_back_returns start buf i d (r + 2 + k)) as (buf1 & i1 & d1 & -> & Hi1 & Hl1); [lia|lia|]. cbn [mbind outcome_bind].
    destruct (IH (r + 2)%nat buf1 i1 d1) as (buf' & n & E & Hn & Hl); [lia|lia| |lia|lia|].
    - rewrite Ed2. cbn [drop] in He. destruct rest; [done|]. by intros ?%He.
    - exists buf', n. split_and!; [done|done|lia]. }
  set (n := run_length (fun c => negb (is_sep c)) (c :: rest)) in *. pose proof (run_length_le (fun c => negb (is_sep c)) (c :: rest)) as Hle. fold n in Hle. cbn [length] in Hle.
  assert (Hlen : length (take n (c :: rest)) = n) by (rewrite length_take; cbn [length]; lia). assert (1 <= n)%nat by (unfold n; cbn; rewrite Ec; cbn; lia).
  destruct (append_element_returns start buf i (take n (c :: rest)) (r + n + k)) as (buf1 & i1 & -> & Hi1 & Hl1); [lia|lia|]. cbn [mbind outcome_bind]. rewrite Hlen.
  destruct (IH (r + n)%nat buf1 i1 d) as (buf' & m & E & Hm & Hl); [lia|lia| |lia|lia|].
  - pose proof (run_split is_sep (c :: rest)) as [_ Hs]. fold n in Hs. rewrite <- Ed, drop_drop in Hs. destruct (drop (r + n) path); [done|]. intros ?. congruence.
  - exists buf', m. split_and!; [done|done|lia].
Qed.

Lemma finish_returns w path_ path buf i :
  (i + 3 <= length buf)%nat -> path_ <> [] -> exists buf' n, finish preserve_trailing_slash zero_terminate sep w path_ path buf i = Ok (buf', n) /\ (n <= i + 2)%nat /\ length buf' = length buf.
Proof.
  intros Hi Hp. assert (Hpl : (length path_ - 1 < length path_)%nat) by (destruct path_; [done|cbn; lia]). unfold finish.
  assert (H : exists buf1 i1, (if preserve_trailing_slash && (0 <? i)%nat then
      last ← index_at path_ (length path_ - 1); c ← index_at buf (i - 1);
      if (last =? sep) && negb (c =? sep) then buf ← store_at buf i sep; Ok (buf, (i + 1)%nat) else Ok (buf, i) else Ok (buf, i)) = Ok (buf1, i1) /\ (i1 <= i + 1)%nat /\ length buf1 = length buf).
  { destruct (preserve_trailing_slash && _); [|do 2 eexists; split_and!; [done|lia|done]]. do 2 (step_ok; [lia|]). destruct (_ && _); [step_ok; [lia|]|]; do 2 eexists; (split_and!; [done|lia|lia]). }
  destruct H as (buf1 & i1 & -> & Hi1 & Hl1). cbn [mbind outcome_bind].
  assert (H : exists buf2 i2, (if w && (i1 =? 2)%nat then c ← index_at buf1 1;
      if c =? ch ":" then buf ← store_at buf1 i1 (match path with d :: _ => if d =? ch "\" then ch "\" else ch "." | [] => ch "." end); Ok (buf, (i1 + 1)%nat) else Ok (buf1, i1)
    else Ok (buf1, i1)) = Ok (buf2, i2) /\ (i2 <= i + 2)%nat /\ length buf2 = length buf).
  { destruct (w && _); [|do 2 eexists; split_and!; [done|lia|done]]. step_ok; [lia|]. destruct (_ =? _); [step_ok; [lia|]|]; do 2 eexists; (split_and!; [done|lia|lia]). }
  destruct H as (buf2 & i2 & -> & Hi2 & Hl2). cbn [mbind outcome_bind]. destruct zero_terminate; [step_ok; [lia|]|]; cbn [mbind outcome_bind]; do 2 eexists; (split_and!; [done|lia|lia]).
Qed.

Lemma index_of_sep_lt s i : index_of_sep s = Some i -> (i < length s)%nat.
Proof. unfold index_of_sep. destruct (Nat.ltb_spec (run_length (fun c => negb (is_sep_any c)) s) (length s)); [|done]. by intros [= <-]. Qed.

(** The volume name is within the path, and the third slash within a UNC name. *)
Lemma volume_bounds path v t : windows_volume_name_len path = (v, t) ->
  v = 0%nat \/ (2 <= v <= length path)%nat /\ (t = 0 \/ 3 <= t < v)%nat.
Proof.
  unfold windows_volume_name_len. destruct path as [|c [|c1 rest]]; [intros [= <- _]; by left|intros [= <- _]; by left|].
  destruct (_ && is_drive_letter c); [intros [= <- <-]; right; cbn [length]; lia|]. generalize (c :: c1 :: rest). intros path. destruct (Nat.leb_spec 5 (length path)); cbn [andb]; [|intros [= <- _]; by left].
  destruct (_ && _); [|intros [= <- _]; by left].
  destruct (index_of_sep (drop 3 path)) as [idx|] eqn:E1; [|intros [= <- <-]; right; lia]. apply index_of_sep_lt in E1. rewrite length_drop in E1.
  destruct (Nat.ltb_spec (idx + 4) (length path)); cbn [andb]; [|intros [= <- <-]; right; lia]. destruct (negb _); [|intros [= <- <-]; right; lia].
  destruct (index_of_sep (drop (idx + 4) path)) as [idx2|] eqn:E2; [|intros [= <- <-]; right; lia]. apply index_of_sep_lt in E2. rewrite length_drop in E2.
  intros [= <- <-]. right. lia.
Qed.

Lemma write_volume_returns path_ buf :
  (length path_ + 8 <= length buf)%nat ->
  exists buf' i d b only, write_volume add_nt_prefix sep is_sep path_ buf = Ok (buf', i, d, b, only) /\ length buf' = length buf /\ (i <= b + 6)%nat /\ (b <= length path_ + 1)%nat /\
    (only = false -> b <= length path_)%nat.
Proof.
  intros Hb. unfold write_volume. destruct (windows_volume_name_len path_) as [v t] eqn:E. apply volume_bounds in E.
  destruct (Nat.ltb_spec 0 v) as [Hv|]; [|destruct path_ as [|c rest]; [|destruct (is_sep c); [step_ok; [cbn in *; lia|]|]]; do 5 eexists; (split_and!; [done|done|lia|cbn; lia|cbn; lia])].
  destruct E as [->|[Hv2 Ht]]; [lia|].
  assert (H : exists buf1 i0, (if add_nt_prefix then buf ← put buf 0 (str "\??\"); Ok (buf, 4%nat) else Ok (buf, 0%nat)) = Ok (buf1, i0) /\ length buf1 = length buf /\ i0 = (if add_nt_prefix then 4 else 0)%nat).
  { destruct add_nt_prefix; [step_ok; [cbn; lia|]|]; do 2 eexists; (split_and!; [done|done|done]). }
  destruct H as (buf1 & i0 & -> & Hl1 & Hi0). cbn [mbind outcome_bind]. step_ok; [lia|]. destruct (negb (c =? ch ":")).
  - assert (H : exists buf2 i1, (if add_nt_prefix then buf ← put buf1 i0 (str "UNC"); buf ← store_at buf (i0 + 3) sep; Ok (buf, (i0 + 2)%nat)
                   else buf ← store_at buf1 i0 sep; buf ← store_at buf (i0 + 1) sep; Ok (buf, i0)) = Ok (buf2, i1) /\ length buf2 = length buf /\ (i1 <= 6)%nat).
    { destruct add_nt_prefix; repeat (step_ok; [cbn; lia|]); do 2 eexists; (split_and!; [done|lia|lia]). }
    destruct H as (buf2 & i1 & -> & Hl2 & Hi1). cbn [mbind outcome_bind].
    assert (H : exists buf3, (if (0 <? t)%nat then server ← slice_range path_ 2 (t + 1); buf ← put buf2 (i1 + 2) server; buf ← store_at buf (i1 + t) sep;
               share ← slice_range path_ (t + 1) v; put buf (i1 + t + 1) share
             else s ← slice_range path_ 2 v; put buf2 (i1 + 2) s) = Ok buf3 /\ length buf3 = length buf).
    { destruct (Nat.ltb_spec 0 t).
      - step_ok; [|lia]. step_ok; [len|]. step_ok; [lia|]. step_ok; [|lia]. match goal with |- context [put ?b _ _] => destruct (put_returns b (i1 + t + 1) (take (v - (t + 1)) (drop (t + 1) path_))) as (b5 & E5 & L5); [len|] end. exists b5. split; [done|lia].
      - step_ok; [|lia]. destruct (put_returns buf2 (i1 + 2) (take (v - 2) (drop 2 path_))) as (b5 & E5 & L5); [len|]. exists b5. split; [done|lia]. }
    destruct H as (buf3 & -> & Hl3). cbn [mbind outcome_bind]. step_ok; [lia|]. do 5 eexists. split_and!; [done|lia|lia|lia|]. intros Hle%Nat.leb_gt. lia.
  - assert (i0 <= 4)%nat by (destruct add_nt_prefix; lia). step_ok; [lia|]. step_ok; [lia|]. step_ok; [lia|]. do 5 eexists. split_and!; [done|lia|lia|lia|lia].
Qed.

(** Room for ten units more than the path has is enough, whatever the platform. *)
Lemma normalize_returns path_ buf : (length path_ + 10 <= length buf)%nat ->
  exists buf' n, normalize_string_generic_tz allow_above_root preserve_trailing_slash zero_terminate add_nt_prefix sep is_sep path_ buf = Ok (buf', n) /\ (n <= length path_ + 9)%nat /\ length buf' = length buf.
Proof.
  intros Hb. unfold normalize_string_generic_tz. destruct path_ as [|c0 rest0] eqn:Ep.
  { assert (E0 : (if sep =? SEP_WINDOWS then write_volume add_nt_prefix sep is_sep [] buf else Ok (buf, 0%nat, 0%nat, 0%nat, false)) = Ok (buf, 0%nat, 0%nat, 0%nat, false)) by (by destruct (sep =? SEP_WINDOWS)).
    rewrite E0. cbn [mbind outcome_bind]. change (slice_from [] 0) with (Ok (@nil Z)). cbn [mbind outcome_bind]. rewrite andb_false_r. cbn [mbind outcome_bind elements_loop drop length Nat.add].
    unfold finish. change (0 <? 0)%nat with false. rewrite andb_false_r. cbn [mbind outcome_bind]. change (0 =? 2)%nat with false. rewrite andb_false_r. cbn [mbind outcome_bind]. cbn in Hb.
    destruct zero_terminate; [step_ok; [lia|]|cbn [mbind outcome_bind]]; do 2 eexists; (split_and!; [done|lia|lia]). }
  rewrite <- Ep in *. assert (Hne : path_ <> []) by (by rewrite Ep). clear Ep.
  assert (H : exists buf1 i d b only, (if sep =? SEP_WINDOWS then write_volume add_nt_prefix sep is_sep path_ buf else Ok (buf, 0%nat, 0%nat, 0%nat, false)) = Ok (buf1, i, d, b, only) /\
      length buf1 = length buf /\ (i <= b + 6)%nat /\ (b <= length path_ + 1)%nat /\ (only = false -> b <= length path_)%nat).
  { destruct (sep =? SEP_WINDOWS); [apply write_volume_returns; lia|]. do 5 eexists. split_and!; [done|done|lia|lia|lia]. }
  destruct H as (buf1 & i & d & b & only & -> & Hl1 & Hi & Hbl & Ho). cbn [mbind outcome_bind].
  destruct only; [destruct zero_terminate; [step_ok; [lia|]|cbn [mbind outcome_bind]]; do 2 eexists; (split_and!; [done|lia|lia])|].
  specialize (Ho eq_refl). unfold slice_from. rewrite decide_True by lia. cbn [mbind outcome_bind]. set (path := drop b path_).
  assert (Hp : (length path = length path_ - b)%nat) by apply length_drop.
  assert (Hloop : forall r buf2 j d2, (r <= length path)%nat -> (j <= r + i)%nat -> length buf2 = length buf ->
    exists buf3 m, elements_loop allow_above_root sep is_sep (length path + 1) i path r buf2 j d2 = Ok (buf3, m) /\ (m <= length path + (i + 1))%nat /\ length buf3 = length buf).
  { intros r buf2 j d2 Hr Hj Hl2. destruct (elements_loop_returns (length path + 1) i path r buf2 j d2 (i + 1)) as (buf3 & m & E & Hm & Hl3); [done|lia|destruct (drop r path); [done|intros _; lia]|lia|lia|].
    exists buf3, m. split_and!; [done|done|lia]. }
  assert (Hfin : forall buf3 m, (m <= length path + (i + 1))%nat -> length buf3 = length buf -> path_ <> [] -> exists buf' n, finish preserve_trailing_slash zero_terminate sep (sep =? SEP_WINDOWS) path_ path buf3 m = Ok (buf', n) /\ (n <= length path_ + 9)%nat /\ length buf' = length buf).
  { intros buf3 m Hm Hl3 _. destruct (finish_returns (sep =? SEP_WINDOWS) path_ path buf3 m) as (buf' & n & E & Hn & Hl); [lia|done|]. exists buf', n. split_and!; [done|lia|lia]. }
  destruct (_ && match path with _ => _ end) eqn:El; cbn [mbind outcome_bind].
  - assert (Hpn : (1 <= length path)%nat) by (destruct path; [by rewrite andb_false_r in El|cbn; lia]). step_ok; [lia|].
    match goal with |- context [elements_loop _ _ _ _ _ _ _ ?b2 _ _] => destruct (Hloop 1%nat b2 (i + 1)%nat (i + 1)%nat) as (buf3 & m & -> & Hm & Hl3); [lia|lia|lia|] end. cbn [mbind outcome_bind]. by apply Hfin.
  - destruct (Hloop 0%nat buf1 i d) as (buf3 & m & -> & Hm & Hl3); [lia|lia|lia|]. cbn [mbind outcome_bind]. by apply Hfin.
Qed.
End returns.

(** ** The properties *)

(** (C13) Normalising a path, for a separator other than the backslash: with a buffer that has room for the path (and for
    the slash and the zero that were asked for) the call returns the normal form of the path at the front of the buffer,
    which keeps its length, with the zero behind the text when one was asked for.  The elements of the normal form are those
    of the path with every dot left out and every [..] taking back the name in front of it; without [allow_above_root] no
    dot is left, with it the dots that lead out of the start come first, and all names behind them are plain.  It is no
    longer than the path but for a slash kept at the end, and normalising it again changes nothing. *)
Theorem normalization_correct allow preserve zero nt sep is_sep path buf :
  is_sep sep = true -> is_sep (ch ".") = false -> sep <> SEP_WINDOWS ->
  (length path + (if (preserve : bool) then 1 else 0) + (if (zero : bool) then 1 else 0) <= length buf)%nat ->
  let s := normal allow sep is_sep preserve path in
  let es := path_elements is_sep s in
  normalize_string_generic_t allow preserve zero nt sep is_sep path buf = Ok s /\
  (exists buf', normalize_string_generic_tz allow preserve zero nt sep is_sep path buf = Ok (buf', length s) /\
    take (length s) buf' = s /\ length buf' = length buf /\ (zero = true -> buf' !! length s = Some 0)) /\
  es = resolved allow (path_elements is_sep path) /\
  (exists k names, es = replicate k DOTDOT ++ names /\ Forall (plain is_sep) names /\ (allow = false -> k = 0%nat)) /\
  (length (joined sep es) <= length path)%nat /\
  normal allow sep is_sep preserve s = s.
Proof.
  intros Hs Hd Hw Hb s es. destruct (normalize_spec allow sep is_sep Hs Hd preserve zero nt path buf Hw Hb) as (buf' & E & T & L & Z0). fold s in E, T, Z0.
  assert (Hle : (length s <= length buf')%nat) by (rewrite <- T, length_take; lia).
  assert (Ees : es = resolved allow (path_elements is_sep path)) by (by apply elements_normal).
  split_and!; [|by exists buf'|done| |rewrite Ees; by apply length_resolved|by apply normal_normal].
  - unfold normalize_string_generic_t. rewrite E. cbn [mbind outcome_bind]. rewrite slice_range_ok by lia. change (drop 0 buf') with buf'. by rewrite Nat.sub_0_r, T.
  - rewrite Ees. unfold resolved, written_out. pose proof (fold_plain allow is_sep (path_elements is_sep path) (0%nat, []) (elements_name_ok is_sep path) ltac:(constructor)) as Hp.
    pose proof (fold_ups_false allow (path_elements is_sep path) (0%nat, [])) as Hk. fold (resolve_elements allow (path_elements is_sep path)) in Hp, Hk.
    exists (resolve_elements allow (path_elements is_sep path)).1, (rev (resolve_elements allow (path_elements is_sep path)).2). split_and!; [done|by apply Forall_rev|exact Hk].
Qed.

Lemma normalization_correct_witness :
  normalize_string_generic_t true true true false SEP_POSIX is_sep_posix (str "a/./b//../../../c/") (replicate 20 7) = Ok (str "../c/") /\
  normalize_string_generic_t false false false false SEP_POSIX is_sep_posix (str "a/./b//../../../c/") (replicate 20 7) = Ok (str "c").
Proof.
  split.
  - eapply (normalization_correct true true true false SEP_POSIX is_sep_posix (str "a/./b//../../../c/") (replicate 20 7)); [done|done|done|vm_compute; lia].
  - eapply (normalization_correct false false false false SEP_POSIX is_sep_posix (str "a/./b//../../../c/") (replicate 20 7)); [done|done|done|vm_compute; lia].
Defined.

(** (C14) Normalising returns for every path, separator, flag and platform, Windows volumes and the NT prefix included,
    when the buffer has room for ten units more than the path: no index leaves the buffer or the path, the text is at most
    nine units longer than the path, and the buffer keeps its length.  That is the release build; a build with debug
    assertions answers the same, or aborts: with the Windows separator exactly when the path starts with [:\], or when the
    text starts with [\:\] and the path is more than the name of a share.  With any other separator it never aborts. *)
Theorem normalization_total allow preserve zero nt sep is_sep path buf : (length path + 10 <= length buf)%nat ->
  exists buf' n, normalize_string_generic_tz allow preserve zero nt sep is_sep path buf = Ok (buf', n) /\
    (n <= length path + 9)%nat /\ length buf' = length buf /\
    normalize_string_generic_t allow preserve zero nt sep is_sep path buf = Ok (take n buf') /\
    normalize_string_generic_tz_debug allow preserve zero nt sep is_sep path buf =
      (if decide (sep = SEP_WINDOWS /\ (str ":\" `prefix_of` path \/ (volume_only path = false /\ str "\:\" `prefix_of` take n buf'))) then Panic else Ok (buf', n)).
Proof.
  intros Hb. destruct (normalize_returns allow preserve zero nt sep is_sep path buf Hb) as (buf' & n & E & Hn & L). exists buf', n. split_and!; [done|lia|done| |].
  - unfold normalize_string_generic_t. rewrite E. cbn [mbind outcome_bind]. rewrite slice_range_ok by lia. change (drop 0 buf') with buf'. by rewrite Nat.sub_0_r.
  - unfold normalize_string_generic_tz_debug. rewrite E. destruct (Z.eqb_spec sep SEP_WINDOWS) as [->|]; [|rewrite decide_False by tauto; done].
    case_bool_decide; cbn [andb mbind outcome_bind]; [by rewrite decide_True by tauto|].
    destruct (volume_only path); cbn [andb negb]; [by rewrite decide_False by (intros [_ [?|[? _]]]; done)|].
    case_bool_decide; [by rewrite decide_True by tauto|rewrite decide_False; [done|tauto]].
Qed.

(** A share's path is rewritten in both builds; [\:\x] aborts the build with assertions. *)
Lemma normalization_total_witness :
  (exists buf' n, normalize_string_generic_tz_debug false true false true SEP_WINDOWS is_sep_any (str "\\server\share\a\..\b") (replicate 40 7) = Ok (buf', n) /\
    take n buf' = str "\??\UNC\server\share\b" /\ (n <= 30)%nat) /\
  normalize_string_generic_t false true false false SEP_WINDOWS is_sep_any (str "\:\x") (replicate 40 7) = Ok (str "\:\x") /\
  normalize_string_generic_tz_debug false true false false SEP_WINDOWS is_sep_any (str "\:\x") (replicate 40 7) = Panic.
Proof.
  split.
  - destruct (normalization_total false true false true SEP_WINDOWS is_sep_any (str "\\server\share\a\..\b") (replicate 40 7)) as (buf' & n & E & Hn & _ & _ & D); [vm_compute; lia|].
    vm_compute in E. injection E as <- <-. do 2 eexists. split_and!; [rewrite D; vm_compute; reflexivity|reflexivity|exact Hn].
  - destruct (normalization_total false true false false SEP_WINDOWS is_sep_any (str "\:\x") (replicate 40 7)) as (buf' & n & E & _ & _ & T & D); [vm_compute; lia|].
    vm_compute in E. injection E as <- <-. split; [rewrite T; reflexivity|rewrite D; vm_compute; reflexivity].
Defined.
