(* ===== verification/PathJoin.v ===== *)
(** * Joining and resolving paths ([paths/resolve_path.rs])

    [path.join] and [path.resolve] on top of the normalisation: the parts are concatenated in a scratch buffer, the result
    is normalised into the buffer of the caller. A slice of that buffer is the buffer, its start and its length. *)

From S2P Require Import Prelude Paths.
From stdpp Require Import list.
Local Open Scope Z_scope.

Definition JOIN_BUF_LEN : nat := 4096.
Definition MAX_PATH_BYTES : nat := 4096.

(** [buf[off..]] handed to [f], which answers the buffer and a length. *)
Definition in_tail (off : nat) (f : bytes -> outcome (bytes * nat)) (buf : bytes) : outcome (bytes * nat) :=
  tail ← slice_from buf off; '(tail, n) ← f tail; Ok (take off buf ++ tail, n).

Definition normalize_string_buf (allow_above_root preserve_trailing_slash : bool) (p : Platform) (s buf : bytes) : outcome (bytes * nat) :=
  match p with
  | Nt => Panic
  | Windows => normalize_string_generic_tz allow_above_root preserve_trailing_slash false false SEP_WINDOWS is_sep_any s buf
  | Posix | Loose => normalize_string_generic_tz allow_above_root preserve_trailing_slash false false SEP_POSIX is_sep_any s buf
  end.

Definition normalize_buf (p : Platform) (s buf : bytes) : outcome (bytes * nat) :=
  match s with
  | [] => buf ← store_at buf 0 (ch "."); Ok (buf, 1%nat)
  | _ =>
      let trailing_separator := bool_decide (last_index_of_separator p s = Some (length s - 1)%nat) in
      if is_absolute p s then normalize_string_buf true trailing_separator p s buf else normalize_string_buf false trailing_separator p s buf
  end.
Definition normalize_buf_z (p : Platform) (s buf : bytes) : outcome (bytes * nat) :=
  '(buf, n) ← normalize_buf p s buf; buf ← store_at buf n 0; Ok (buf, n).

(** Node's [path.normalize]. *)
Definition normalize_string_node (p : Platform) (s buf : bytes) : outcome (bytes * nat * nat) :=
  match last s with
  | None => buf ← store_at buf 0 (ch "."); Ok (buf, 0%nat, 1%nat)
  | Some l =>
      let absolute := is_absolute p s in
      let trailing := is_separator p l in
      let buf_off := match p with Windows => 0 | _ => 1 end%nat in
      '(buf, out_len) ← in_tail buf_off (normalize_string_generic_tz (negb absolute) false false false (separator p) (is_separator p) s) buf;
      if (out_len =? 0)%nat then
        if absolute then buf ← store_at buf 0 (separator p); Ok (buf, 0%nat, 1%nat)
        else if trailing then
          s0 ← index_at (trailing_separator p) 0; s1 ← index_at (trailing_separator p) 1;
          buf ← store_at buf 0 s0; buf ← store_at buf 1 s1; Ok (buf, 0%nat, 2%nat)
        else buf ← store_at buf 0 (ch "."); Ok (buf, 0%nat, 1%nat)
      else
        '(buf, out_len) ← (if trailing then
                             c ← index_at buf (buf_off + out_len - 1);
                             if is_separator p c then Ok (buf, out_len) else buf ← store_at buf (buf_off + out_len) (separator p); Ok (buf, (out_len + 1)%nat)
                           else Ok (buf, out_len));
        if absolute then
          match p with
          | Windows => Ok (buf, buf_off, out_len)
          | _ => buf ← store_at buf 0 (separator p); Ok (buf, 0%nat, (out_len + 1)%nat)
          end
        else Ok (buf, buf_off, out_len)
  end.

(** ** [path.join] *)

Fixpoint write_parts (sep : Z) (parts : list bytes) (temp_buf : bytes) (written : nat) : outcome (bytes * nat) :=
  match parts with
  | [] => Ok (temp_buf, written)
  | [] :: parts => write_parts sep parts temp_buf written
  | part :: parts =>
      '(temp_buf, written) ← (if (0 <? written)%nat then temp_buf ← store_at temp_buf written sep; Ok (temp_buf, (written + 1)%nat) else Ok (temp_buf, written));
      temp_buf ← put temp_buf written part;
      write_parts sep parts temp_buf (written + length part)
  end.

Definition parts_count (parts : list bytes) : nat := sum_list_with (fun part => match part with [] => 0 | _ => length part + 1 end%nat) parts.

Definition join_string_buf (p : Platform) (buf : bytes) (parts : list bytes) : outcome (bytes * nat * nat) :=
  let count := parts_count parts in
  let temp_buf := if (4096 <? count * 2)%nat then replicate (count * 2) 0 else replicate 4096 0 in
  temp_buf ← store_at temp_buf 0 0;
  '(temp_buf, written) ← write_parts (separator p) parts temp_buf 0;
  if (written =? 0)%nat then buf ← store_at buf 0 (ch "."); Ok (buf, 0%nat, 1%nat)
  else s ← slice_range temp_buf 0 written; normalize_string_node p s buf.

Definition join_z_buf (p : Platform) (buf : bytes) (parts : list bytes) : outcome (bytes * nat * nat) :=
  b ← slice_range buf 0 (length buf - 1);
  '(joined, start, len) ← join_string_buf p b parts;
  buf ← store_at (joined ++ drop (length buf - 1) buf) (start + len) 0; Ok (buf, start, len).

Definition join_needed (parts : list bytes) : nat := (sum_list_with (fun part : bytes => (length part + 1)%nat) parts + 1)%nat.

(** The slice that is returned, with the buffers as they are left. *)
Definition join_spill (p : Platform) (join_buf spill : bytes) (parts : list bytes) : outcome (bytes * bytes * bytes) :=
  if (join_needed parts <=? JOIN_BUF_LEN)%nat then
    '(b, start, len) ← join_string_buf p join_buf parts; s ← slice_range b start (start + len); Ok (s, b, spill)
  else
    let spill := if (length spill <? join_needed parts)%nat then spill ++ replicate (join_needed parts - length spill) 0 else spill in
    '(b, start, len) ← join_string_buf p spill parts; s ← slice_range b start (start + len); Ok (s, join_buf, b).

Definition join_z_buf_spill (p : Platform) (buf spill : bytes) (parts : list bytes) : outcome (bytes * bytes * bytes) :=
  if (join_needed parts <=? length buf)%nat then
    '(b, start, len) ← join_z_buf p buf parts; s ← slice_range b start (start + len); Ok (s, b, spill)
  else
    let spill := if (length spill <? join_needed parts)%nat then spill ++ replicate (join_needed parts - length spill) 0 else spill in
    '(b, start, len) ← join_z_buf p spill parts; s ← slice_range b start (start + len); Ok (s, buf, b).

(** ** [path.resolve] *)

Definition slashes_to_posix (s : bytes) : bytes := (fun c => if c =? ch "\" then ch "/" else c) <$> s.

(** [JoinScratch]: the buffer of the pool holds whatever its last user left there. *)
Definition join_scratch (pooled : bytes) (base : nat) (parts : list bytes) : bytes :=
  let total := (base + 2 + sum_list_with (fun part : bytes => (length part + 1)%nat) parts)%nat in
  if (total <=? MAX_PATH_BYTES)%nat then pooled else replicate total 0.

(** The last absolute part replaces [cwd]; the count of parts is kept in 16 bits. *)
Fixpoint last_absolute (fuel : nat) (p : Platform) (cwd : bytes) (parts : list bytes) (part_i part_len : Z) : outcome (bytes * list bytes) :=
  match fuel with
  | O => OutOfFuel
  | S fuel =>
      if part_i <? part_len then
        part ← index_at parts (Z.to_nat part_i);
        if is_absolute p part then
          let parts := drop (Z.to_nat part_i + 1) parts in last_absolute fuel p part parts 0 (wrap 16 (Z.of_nat (length parts)))
        else last_absolute fuel p cwd parts (wrap 16 (part_i + 1)) part_len
      else Ok (cwd, parts)
  end.

Fixpoint append_parts (sep : Z) (parts : list bytes) (temp_buf : bytes) (out : nat) : outcome (bytes * nat) :=
  match parts with
  | [] => Ok (temp_buf, out)
  | [] :: parts => append_parts sep parts temp_buf out
  | part :: parts =>
      '(temp_buf, out) ← (if (0 <? out)%nat then
                            c ← index_at temp_buf (out - 1);
                            if c =? sep then Ok (temp_buf, out) else temp_buf ← store_at temp_buf out sep; Ok (temp_buf, (out + 1)%nat)
                          else Ok (temp_buf, out));
      temp_buf ← put temp_buf out part;
      append_parts sep parts temp_buf (out + length part)
  end.

(** The root of the drive, the directory below it to start from, and the first part to append. *)
Fixpoint last_root (parts : list bytes) : option bytes :=
  match parts with
  | [] => None
  | part :: parts =>
      match last_root parts with
      | Some r => Some r
      | None => let len := (windows_volume_name_len part).1 in if (0 <? len)%nat then Some (take len part) else None
      end
  end.
Fixpoint last_absolute_on (root : bytes) (parts : list bytes) : option (bytes * list bytes) :=
  match parts with
  | [] => None
  | part :: parts =>
      match last_absolute_on root parts with
      | Some r => Some r
      | None =>
          let root_of_part := take (windows_volume_name_len part).1 part in
          if is_absolute_windows part && (negb (nonempty root_of_part) || bool_decide (root_of_part = root)) then Some (drop (length root_of_part) part, parts) else None
      end
  end.
Definition windows_base (cwd : bytes) (parts : list bytes) : bytes * bytes * list bytes :=
  let cwd_root := take (windows_volume_name_len cwd).1 cwd in
  let root := match last_root parts with Some r => r | None => cwd_root end in
  match last_absolute_on root parts with
  | Some (set_cwd, parts) => (root, set_cwd, parts)
  | None => if bool_decide (cwd_root = root) then (root, drop (length cwd_root) cwd, parts) else (root, str "/", parts)
  end.

Fixpoint append_parts_windows (root : bytes) (parts : list bytes) (temp_buf : bytes) (out : nat) : outcome (bytes * nat) :=
  match parts with
  | [] => Ok (temp_buf, out)
  | [] :: parts => append_parts_windows root parts temp_buf out
  | part :: parts =>
      '(temp_buf, out) ← (if (0 <? out)%nat then
                            c ← index_at temp_buf (out - 1);
                            if c =? ch "\" then Ok (temp_buf, out) else temp_buf ← store_at temp_buf out (ch "\"); Ok (temp_buf, (out + 1)%nat)
                          else Ok (temp_buf, out));
      let volume := take (windows_volume_name_len part).1 part in
      if nonempty volume && negb (bool_decide (volume = root)) then append_parts_windows root parts temp_buf out
      else
        temp_buf ← put temp_buf out (drop (length volume) part);
        append_parts_windows root parts temp_buf (out + length (drop (length volume) part))
  end.

Section join_abs.
Context (pooled : bytes).

Definition join_abs_string_buf_windows (sentinel : bool) (cwd buf : bytes) (parts : list bytes) : outcome (bytes * bytes) :=
  match parts with
  | [] => if sentinel then Panic else Ok (cwd, buf)
  | _ =>
      let '(root, set_cwd, parts) := windows_base cwd parts in
      temp_buf ← put (join_scratch pooled (length root + length set_cwd) parts) 0 root;
      temp_buf ← put temp_buf (length root) set_cwd;
      let out := (length root + length set_cwd)%nat in
      '(temp_buf, out) ← (if nonempty set_cwd then Ok (temp_buf, out) else temp_buf ← store_at temp_buf out (ch "\"); Ok (temp_buf, (out + 1)%nat));
      '(temp_buf, out) ← append_parts_windows root parts temp_buf out;
      s ← slice_range temp_buf 0 out;
      '(buf, n) ← normalize_string_buf false true Windows s buf;
      buf ← (if sentinel then store_at buf n 0 else Ok buf);
      r ← slice_range buf 0 n; Ok (r, buf)
  end.

(** The result, and the buffer as it is left. *)
Definition join_abs_string_buf_ (sentinel : bool) (p : Platform) (cwd buf : bytes) (parts : list bytes) : outcome (bytes * bytes) :=
  match p with
  | Windows => join_abs_string_buf_windows sentinel cwd buf parts
  | Nt =>
      tail ← slice_from buf 4;
      '(end_path, tail) ← join_abs_string_buf_windows sentinel cwd tail parts;
      let end_len := length end_path in
      buf ← put (take 4 buf ++ tail) 0 (str "\\?\");
      buf ← (if sentinel then store_at buf (end_len + 4) 0 else Ok buf);
      r ← slice_range buf 0 (end_len + 4); Ok (r, buf)
  | Loose | Posix =>
      match parts with
      | [] => if sentinel then Panic else Ok (cwd, buf)
      | _ =>
          if bool_decide (parts = [[SEP_POSIX]]) then
            buf ← store_at buf 0 (ch "/"); buf ← (if sentinel then store_at buf 1 0 else Ok buf); r ← slice_range buf 0 1; Ok (r, buf)
          else
            '(cwd, parts) ← last_absolute (length parts + 1) p cwd parts 0 (wrap 16 (Z.of_nat (length parts)));
            temp_buf ← put (join_scratch pooled (length cwd) parts) 0 cwd;
            '(temp_buf, out) ← append_parts (separator p) parts temp_buf (length cwd);
            text ← slice_range temp_buf 0 out;
            let leading := match leading_separator_index p text with
              | Some i => let outdir := take (i + 1) text in match p with Loose => slashes_to_posix outdir | _ => outdir end
              | None => [ch "/"]
              end in
            buf ← put buf 0 leading;
            path ← slice_from text (length leading);
            '(buf, n) ← in_tail (length leading) (normalize_string_buf false true p path) buf;
            buf ← (if sentinel then store_at buf (n + length leading) 0 else Ok buf);
            r ← slice_range buf 0 (n + length leading); Ok (r, buf)
      end
  end.

Definition join_abs_string_buf (p : Platform) (cwd buf : bytes) (parts : list bytes) : outcome (bytes * bytes) := join_abs_string_buf_ false p cwd buf parts.
Definition join_abs_string_buf_z (p : Platform) (cwd buf : bytes) (parts : list bytes) : outcome (bytes * bytes) := join_abs_string_buf_ true p cwd buf parts.

Definition join_abs_string_buf_checked (p : Platform) (cwd buf : bytes) (parts : list bytes) : outcome (option bytes * bytes) :=
  let total := (length cwd + 2 + sum_list_with (fun part : bytes => (length part + 1)%nat) parts)%nat in
  if (total <? length buf)%nat then '(r, buf) ← join_abs_string_buf p cwd buf parts; Ok (Some r, buf)
  else
    '(joined, _) ← join_abs_string_buf p cwd (replicate total 0) parts;
    if (length buf <? length joined)%nat then Ok (None, buf)
    else buf ← put buf 0 joined; Ok (Some joined, buf).
End join_abs.

(** ** What they mean *)

(** The answer is a slice of the buffer. *)
Definition shows (res : outcome (bytes * nat * nat)) (size : nat) (s : bytes) : Prop :=
  exists buf start len, res = Ok (buf, start, len) /\ take len (drop start buf) = s /\ (start + len <= length buf)%nat /\ len = length s /\ length buf = size.

(** The normal form of Node: an absolute path stays below its root, a relative one may begin with [..]; a separator at the
    end is kept, and nothing is written as a dot. *)
Definition node_normal (p : Platform) (s : bytes) : bytes :=
  let absolute := is_absolute p s in
  let trailing := match last s with Some c => is_separator p c | None => false end in
  match joined (separator p) (resolved (negb absolute) (path_elements (is_separator p) s)) with
  | [] => if absolute then [separator p] else if trailing then trailing_separator p else [ch "."]
  | body => (if absolute then [separator p] else []) ++ body ++ (if trailing then [separator p] else [])
  end.

Section posix.
Context (p : Platform) (Hp : p = Posix \/ p = Loose).

Lemma posix_sep : is_separator p (separator p) = true.
Proof. by destruct Hp as [->| ->]. Qed.
Lemma posix_dot : is_separator p (ch ".") = false.
Proof. by destruct Hp as [->| ->]. Qed.
Lemma posix_ne : separator p <> SEP_WINDOWS.
Proof. by destruct Hp as [->| ->]. Qed.

Lemma store_slice (buf s : bytes) (x : Z) n : take n buf = s -> n = length s -> (n < length buf)%nat -> take (n + 1) (<[n := x]> buf) = s ++ [x].
Proof. intros Hs Hl Hn. by rewrite store_take, Hs. Qed.

Lemma node_spec s buf : (length s + 1 <= length buf)%nat -> shows (normalize_string_node p s buf) (length buf) (node_normal p s).
Proof.
  intros Hb. unfold normalize_string_node, node_normal. destruct (last s) as [l|] eqn:El.
  2: { destruct s as [|x s _] using rev_ind; [|by rewrite last_snoc in El]. destruct buf as [|b0 buf]; [cbn in Hb; lia|].
       assert (Ha : is_absolute p [] = false) by (by destruct Hp as [->| ->]). rewrite Ha. exists (ch "." :: buf), 0%nat, 1%nat. split_and!; [done|done|cbn; lia|done|done]. }
  assert (Hoff : match p with Windows => 0%nat | _ => 1%nat end = 1%nat) by (by destruct Hp as [->| ->]). rewrite Hoff. clear Hoff.
  destruct buf as [|b0 tail]; [cbn in Hb; lia|]. cbn [length] in Hb. set (absolute := is_absolute p s). set (body := joined (separator p) (resolved (negb absolute) (path_elements (is_separator p) s))).
  assert (Hs : (1 <= length s)%nat) by (destruct s; [done|cbn; lia]).
  destruct (normalize_spec (negb absolute) (separator p) (is_separator p) posix_sep posix_dot false false false s tail posix_ne) as (t1 & E & T1 & L1 & _); [lia|].
  assert (En : normal (negb absolute) (separator p) (is_separator p) false s = body) by (unfold normal, slash_kept; cbn [andb]; by rewrite app_nil_r).
  rewrite En in E, T1. assert (Ht : in_tail 1 (normalize_string_generic_tz (negb absolute) false false false (separator p) (is_separator p) s) (b0 :: tail) = Ok (b0 :: t1, length body)).
  { unfold in_tail, slice_from. rewrite decide_True by (cbn; lia). cbn [mbind outcome_bind]. change (drop 1 (b0 :: tail)) with tail. rewrite E. done. }
  rewrite Ht. clear Ht E En. cbn [mbind outcome_bind]. pose proof (length_resolved (negb absolute) (separator p) (is_separator p) posix_sep posix_dot s) as Hlen. fold body in Hlen.
  destruct (length body =? 0)%nat eqn:Ez.
  { apply Nat.eqb_eq, nil_length_inv in Ez. rewrite Ez. rewrite !store_at_ok by (cbn; lia). cbn [mbind outcome_bind]. destruct absolute.
    { exists (separator p :: t1), 0%nat, 1%nat. split_and!; [done|done|cbn; lia|done|cbn; by rewrite L1]. }
    destruct (is_separator p l) eqn:Etr.
    - assert (Ets : trailing_separator p = [ch "."; ch "/"]) by (by destruct Hp as [->| ->]). rewrite Ets. cbn [index_at lookup list_lookup mbind outcome_bind].
      destruct t1 as [|b1 t1]; [cbn in L1; lia|]. exists (ch "." :: ch "/" :: t1), 0%nat, 2%nat. rewrite store_at_ok by (cbn; lia). cbn [mbind outcome_bind]. rewrite store_at_ok by (cbn; lia). split_and!; [done|done|cbn; lia|done|cbn in *; lia].
    - exists (ch "." :: t1), 0%nat, 1%nat. split_and!; [done|done|cbn; lia|done|cbn; by rewrite L1]. }
  apply Nat.eqb_neq in Ez.
  assert (Hbody : exists q c, body = q ++ [c] /\ is_separator p c = false).
  { apply joined_last; [apply resolved_ok, elements_name_ok; apply posix_dot|]. intros E0. unfold body in Ez. rewrite E0 in Ez. by cbn in Ez. }
  set (trail := if is_separator p l then [separator p] else []).
  assert (H : exists t2, (if is_separator p l then c ← index_at (b0 :: t1) (1 + length body - 1);
       if is_separator p c then Ok (b0 :: t1, length body) else buf ← store_at (b0 :: t1) (1 + length body) (separator p); Ok (buf, (length body + 1)%nat)
     else Ok (b0 :: t1, length body)) = Ok (b0 :: t2, length (body ++ trail)) /\ take (length (body ++ trail)) t2 = body ++ trail /\ length t2 = length t1 /\ (length (body ++ trail) <= length t1)%nat).
  { destruct Hbody as (q & c & Eb & Hc). unfold trail. destruct (is_separator p l) eqn:Etr.
    - pose proof (length_resolved_slash (negb absolute) (separator p) (is_separator p) posix_sep posix_dot s l El Etr) as Hsl. fold body in Hsl.
      assert (Hi : (b0 :: t1) !! (1 + length body - 1)%nat = Some c).
      { rewrite lookup_cons_ne_0 by lia. replace (pred (1 + length body - 1)) with (length q) by (rewrite Eb, length_app; cbn; lia).
        rewrite (take_lookup_lt t1 body (length body)) by (done || (rewrite Eb, length_app; cbn; lia)). rewrite Eb, lookup_app_r, Nat.sub_diag by lia. done. }
      rewrite (index_at_ok _ _ c Hi). cbn [mbind outcome_bind]. rewrite Hc. change (1 + length body)%nat with (S (length body)). rewrite store_at_ok by (cbn; lia). cbn [mbind outcome_bind].
      exists (<[length body := separator p]> t1). rewrite length_app. cbn [length]. split_and!; [done|by apply store_slice; [..|lia]|by rewrite length_insert|lia].
    - exists t1. rewrite app_nil_r. split_and!; [done|done|done|lia]. }
  destruct H as (t2 & -> & T2 & L2 & B2). cbn [mbind outcome_bind]. destruct body as [|x body0] eqn:Ebody; [done|]. rewrite <- Ebody in *. clear Ebody x body0. fold trail.
  destruct absolute.
  - assert (Hg : match p with Windows => Ok (b0 :: t2, 1%nat, length (body ++ trail)) | _ => buf ← store_at (b0 :: t2) 0 (separator p); Ok (buf, 0%nat, (length (body ++ trail) + 1)%nat) end =
       Ok (separator p :: t2, 0%nat, (length (body ++ trail) + 1)%nat)) by (by destruct Hp as [->| ->]).
    rewrite Hg. exists (separator p :: t2), 0%nat, (length (body ++ trail) + 1)%nat. rewrite Nat.add_1_r. cbn [take drop app length]. rewrite T2. split_and!; [done|done|lia|done|lia].
  - exists (b0 :: t2), 1%nat, (length (body ++ trail)). cbn [drop length app]. split_and!; [done|done|lia|done|lia].
Qed.

Definition nonempty_parts (parts : list bytes) : list bytes := List.filter nonempty parts.

Lemma write_parts_spec parts temp_buf written es :
  Forall (fun e => e <> []) es -> take written temp_buf = joined (separator p) es -> written = length (joined (separator p) es) -> (written + parts_count parts <= length temp_buf)%nat ->
  exists temp', write_parts (separator p) parts temp_buf written = Ok (temp', length (joined (separator p) (es ++ nonempty_parts parts))) /\
    take (length (joined (separator p) (es ++ nonempty_parts parts))) temp' = joined (separator p) (es ++ nonempty_parts parts) /\ length temp' = length temp_buf.
Proof.
  revert temp_buf written es. induction parts as [|part parts IH]; intros temp_buf written es He Ht Hl Hb; cbn [write_parts nonempty_parts List.filter].
  { rewrite app_nil_r. exists temp_buf. rewrite <- Hl. done. }
  unfold parts_count in Hb. cbn in Hb. fold (parts_count parts) in Hb. destruct part as [|c part]; [by apply IH|]. set (e := c :: part) in *. change (nonempty e) with true. cbv iota.
  assert (Hne : joined (separator p) es = [] -> es = []) by (by apply joined_nil).
  assert (H : exists temp1, (if (0 <? written)%nat then temp_buf ← store_at temp_buf written (separator p); Ok (temp_buf, (written + 1)%nat) else Ok (temp_buf, written)) =
      Ok (temp1, length (joined (separator p) es ++ match es with [] => [] | _ => [separator p] end)) /\
      take (length (joined (separator p) es ++ match es with [] => [] | _ => [separator p] end)) temp1 = joined (separator p) es ++ match es with [] => [] | _ => [separator p] end /\ length temp1 = length temp_buf).
  { destruct (Nat.ltb_spec 0 written) as [Hw|Hw].
    - destruct es as [|f es]; [cbn in Hl; lia|]. rewrite store_at_ok by lia. cbn [mbind outcome_bind]. exists (<[written := separator p]> temp_buf). rewrite length_app, <- Hl. cbn [length].
      split_and!; [done|by apply store_slice; [..|lia]|by rewrite length_insert].
    - destruct es as [|f es]; [exists temp_buf; cbn [joined app length] in *; by subst written|]. rewrite Hl in Hw. apply Nat.le_0_r, nil_length_inv, Hne in Hw. done. }
  destruct H as (temp1 & -> & T1 & L1). cbn [mbind outcome_bind]. set (w1 := length (joined (separator p) es ++ match es with [] => [] | _ => [separator p] end)) in *.
  assert (Hw1 : (w1 <= written + 1)%nat) by (unfold w1; rewrite length_app; destruct es; cbn [length]; lia).
  destruct (put_more temp1 _ e w1 T1 eq_refl) as (E2 & T2 & L2); [cbn [length] in *; lia|]. rewrite E2. cbn [mbind outcome_bind].
  assert (Ej : joined (separator p) (es ++ [e]) = (joined (separator p) es ++ match es with [] => [] | _ => [separator p] end) ++ e) by (rewrite joined_snoc; apply List.app_assoc).
  change (es ++ e :: List.filter nonempty parts) with (es ++ [e] ++ nonempty_parts parts). rewrite app_assoc, <- L1, <- L2.
  apply IH; [apply Forall_app_2; [done|by apply Forall_singleton]|by rewrite Ej|by rewrite Ej, length_app|cbn [length] in *; lia].
Qed.

Lemma length_joined_parts parts : nonempty_parts parts <> [] -> (length (joined (separator p) (nonempty_parts parts)) + 1 = parts_count parts)%nat.
Proof.
  unfold nonempty_parts, parts_count. induction parts as [|part parts IH]; [done|]. cbn. destruct part as [|c part]; [done|]. cbn [nonempty]. intros _. rewrite joined_cons, length_app.
  destruct (List.filter nonempty parts) as [|q qs] eqn:E; [|cbn [length] in *; rewrite <- IH by done; lia].
  assert (Hz : sum_list_with (fun part : bytes => match part with [] => 0%nat | _ :: _ => (length part + 1)%nat end) parts = 0%nat).
  { clear IH. induction parts as [|q parts IH]; [done|]. cbn in E |- *. destruct q; [by apply IH|done]. }
  cbn [length]. lia.
Qed.

(** [path.join]. *)
Definition join_normal (parts : list bytes) : bytes := node_normal p (joined (separator p) (nonempty_parts parts)).

(** The scratch of the stack or of the heap. *)
Lemma scratch_room m n : (1 <= m)%nat -> exists temp : bytes, (if (m <? n * 2)%nat then replicate (n * 2) 0 else replicate m 0) = temp /\ (1 <= length temp)%nat /\ (n <= length temp)%nat.
Proof. intros Hm. eexists. split; [done|]. destruct (Nat.ltb_spec m (n * 2)); rewrite length_replicate; lia. Qed.

Lemma join_spec parts buf : (length (joined (separator p) (nonempty_parts parts)) + 1 <= length buf)%nat -> shows (join_string_buf p buf parts) (length buf) (join_normal parts).
Proof.
  intros Hb. unfold join_string_buf. destruct (scratch_room 4096 (parts_count parts) ltac:(lia)) as (temp & -> & Ht).
  rewrite (store_at_ok temp) by lia. cbn [mbind outcome_bind]. destruct (write_parts_spec parts (<[0%nat := 0]> temp) 0 []) as (temp' & E & T & L); [constructor|done|done|rewrite length_insert; lia|].
  rewrite E. cbn [mbind outcome_bind app] in *. set (s := joined (separator p) (nonempty_parts parts)) in *. rewrite length_insert in L.
  destruct (Nat.eqb_spec (length s) 0) as [Hz|Hz].
  - apply nil_length_inv in Hz. assert (En : join_normal parts = [ch "."]) by (unfold join_normal; fold s; rewrite Hz; by destruct Hp as [->| ->]). rewrite En.
    rewrite store_at_ok by lia. cbn [mbind outcome_bind]. destruct buf as [|b0 buf]; [cbn in Hb; lia|]. exists (ch "." :: buf), 0%nat, 1%nat. split_and!; [done|done|cbn; lia|done|done].
  - assert (Hle : (length s <= length temp')%nat) by (rewrite <- T, length_take; lia).
    rewrite slice_range_ok by lia. cbn [mbind outcome_bind]. change (drop 0 temp') with temp'. rewrite Nat.sub_0_r, T. by apply node_spec.
Qed.

Lemma join_z_spec parts buf : (length (joined (separator p) (nonempty_parts parts)) + 2 <= length buf)%nat ->
  exists b start len, join_z_buf p buf parts = Ok (b, start, len) /\ take len (drop start b) = join_normal parts /\ b !! (start + len)%nat = Some 0 /\ len = length (join_normal parts) /\ length b = length buf.
Proof.
  intros Hb. pose proof (join_spec parts) as Hj. unfold join_z_buf. revert Hj. generalize (join_string_buf p) as f. intros f Hj.
  rewrite slice_range_ok by lia. cbn [mbind outcome_bind]. change (drop 0 buf) with buf. rewrite Nat.sub_0_r.
  destruct (Hj (take (length buf - 1) buf)) as (b & start & k & -> & E & Hle & Hlen & L); [len|]. cbn [mbind outcome_bind].
  assert (L1 : length (b ++ drop (length buf - 1) buf) = length buf) by len. assert (Lb : length b = (length buf - 1)%nat) by len.
  rewrite store_at_ok by lia. cbn [mbind outcome_bind]. eexists _, start, k. split_and!; [done| |apply list_lookup_insert_eq; lia|done|by rewrite length_insert].
  rewrite take_drop_commute, take_insert_ge by lia. rewrite <- take_drop_commute. rewrite drop_app_le by lia. rewrite take_app_le by (rewrite length_drop; lia). done.
Qed.

Lemma slice_of_shows (b s : bytes) start len : take len (drop start b) = s -> (start + len <= length b)%nat -> slice_range b start (start + len) = Ok s.
Proof. intros <- H. rewrite slice_range_ok by lia. f_equal. f_equal. lia. Qed.

Lemma join_needed_ge parts : parts <> [] -> (length (joined (separator p) (nonempty_parts parts)) + 2 <= join_needed parts)%nat.
Proof.
  intros Hne. unfold join_needed. assert (H : (parts_count parts <= sum_list_with (fun part : bytes => (length part + 1)%nat) parts)%nat).
  { unfold parts_count. clear. induction parts as [|part parts IH]; [done|]. cbn. destruct part; cbn [length]; lia. }
  destruct (nonempty_parts parts) as [|q qs] eqn:E; [destruct parts; [done|cbn; lia]|].
  pose proof (length_joined_parts parts) as Hl. rewrite E in Hl. specialize (Hl ltac:(done)). lia.
Qed.

Lemma grown (spill : bytes) n : (n <= length (if (length spill <? n)%nat then spill ++ replicate (n - length spill) 0%Z else spill))%nat.
Proof. destruct (Nat.ltb_spec (length spill) n); [rewrite length_app, length_replicate|]; lia. Qed.

Lemma join_spill_spec parts join_buf spill : length join_buf = JOIN_BUF_LEN -> exists jb sp, join_spill p join_buf spill parts = Ok (join_normal parts, jb, sp).
Proof.
  intros Hj. unfold join_spill. destruct (Nat.leb_spec (join_needed parts) JOIN_BUF_LEN) as [Hle|Hgt].
  - destruct (join_spec parts join_buf) as (b & start & k & -> & E & Hb & _).
    + destruct parts as [|part parts]; [rewrite Hj; cbn; unfold JOIN_BUF_LEN; lia|]. pose proof (join_needed_ge (part :: parts) ltac:(done)). lia.
    + cbn [mbind outcome_bind]. rewrite (slice_of_shows b _ start k E Hb). cbn [mbind outcome_bind]. eauto.
  - destruct (join_spec parts (if (length spill <? join_needed parts)%nat then spill ++ replicate (join_needed parts - length spill) 0 else spill)) as (b & start & k & -> & E & Hb & _).
    + pose proof (grown spill (join_needed parts)). destruct parts as [|part parts]; [unfold JOIN_BUF_LEN in Hgt; cbn in Hgt; lia|]. pose proof (join_needed_ge (part :: parts) ltac:(done)). lia.
    + cbn [mbind outcome_bind]. rewrite (slice_of_shows b _ start k E Hb). cbn [mbind outcome_bind]. eauto.
Qed.

Lemma join_z_buf_spill_spec parts buf spill : parts <> [] -> exists b sp, join_z_buf_spill p buf spill parts = Ok (join_normal parts, b, sp).
Proof.
  intros Hne. pose proof (join_needed_ge parts Hne) as Hn. unfold join_z_buf_spill. destruct (Nat.leb_spec (join_needed parts) (length buf)) as [Hle|Hgt].
  - destruct (join_z_spec parts buf) as (b & start & k & -> & E & Hz & Hk & L); [lia|]. cbn [mbind outcome_bind]. apply lookup_lt_Some in Hz. rewrite (slice_of_shows b _ start k E) by lia. cbn [mbind outcome_bind]. eauto.
  - destruct (join_z_spec parts (if (length spill <? join_needed parts)%nat then spill ++ replicate (join_needed parts - length spill) 0 else spill)) as (b & start & k & -> & E & Hz & Hk & L).
    + pose proof (grown spill (join_needed parts)). lia.
    + cbn [mbind outcome_bind]. apply lookup_lt_Some in Hz. rewrite (slice_of_shows b _ start k E) by lia. cbn [mbind outcome_bind]. eauto.
Qed.
End posix.

(** ** [path.resolve]: what it means *)

Section resolve.
Implicit Types (parts : list bytes) (s acc : bytes).

Lemma fields_by_sep (is_sep : Z -> bool) (a b : bytes) c : is_sep c = true -> fields_by is_sep (a ++ c :: b) = fields_by is_sep a ++ fields_by is_sep b.
Proof.
  intros Hc. induction a as [|x a IH]; cbn [fields_by app]; [by rewrite Hc|]. rewrite IH. destruct (is_sep x); [done|].
  pose proof (fields_by_ne is_sep a). by destruct (fields_by is_sep a).
Qed.

Lemma elements_mid (is_sep : Z -> bool) (a b : bytes) c : is_sep c = true -> path_elements is_sep (a ++ c :: b) = path_elements is_sep a ++ path_elements is_sep b.
Proof. intros Hc. unfold path_elements. by rewrite (fields_by_sep _ _ _ _ Hc), List.filter_app. Qed.

(** The text that the parts are written to. *)
Fixpoint appended acc parts : bytes :=
  match parts with
  | [] => acc
  | [] :: parts => appended acc parts
  | part :: parts => appended (acc ++ (if nonempty acc && negb (bool_decide (last acc = Some SEP_POSIX)) then [SEP_POSIX] else []) ++ part) parts
  end.

Lemma appended_step acc part : part <> [] -> nonempty acc = true ->
  path_elements is_sep_any (acc ++ (if nonempty acc && negb (bool_decide (last acc = Some SEP_POSIX)) then [SEP_POSIX] else []) ++ part) =
  path_elements is_sep_any acc ++ path_elements is_sep_any part.
Proof.
  intros Hp Ha. rewrite Ha. cbn [andb]. case_bool_decide as H; cbn [negb app].
  - destruct acc as [|x acc _] using rev_ind; [done|]. rewrite last_snoc in H. injection H as ->. rewrite <- app_assoc. cbn [app]. by rewrite elements_mid, elements_snoc by done.
  - by rewrite elements_mid.
Qed.

Lemma elements_appended acc parts : nonempty acc = true -> path_elements is_sep_any (appended acc parts) = path_elements is_sep_any acc ++ concat (path_elements is_sep_any <$> parts).
Proof.
  revert acc. induction parts as [|part parts IH]; intros acc Ha; cbn [appended fmap list_fmap concat]; [by rewrite app_nil_r|]. destruct part as [|c part]; [by rewrite IH|].
  rewrite IH by (by destruct acc). rewrite appended_step by done. by rewrite <- app_assoc.
Qed.

Lemma appended_prefix acc parts : exists t, appended acc parts = acc ++ t.
Proof.
  revert acc. induction parts as [|part parts IH]; intros acc; cbn [appended]; [exists []; by rewrite app_nil_r|]. destruct part; [done|]. destruct (IH (acc ++ (if nonempty acc && negb (bool_decide (last acc = Some SEP_POSIX)) then [SEP_POSIX] else []) ++ (z :: part))) as [t E].
  rewrite E. rewrite <- !app_assoc. eauto.
Qed.

(** Whether the text ends in a slash. *)
Fixpoint last_nonempty acc parts : bytes := match parts with [] => acc | [] :: parts => last_nonempty acc parts | part :: parts => last_nonempty part parts end.

Lemma last_appended acc parts : last (appended acc parts) = last (last_nonempty acc parts).
Proof.
  revert acc. induction parts as [|part parts IH]; intros acc; cbn [appended last_nonempty]; [done|]. destruct part as [|c part]; [done|]. rewrite IH. clear IH.
  revert acc. induction parts as [|q parts IH]; intros acc; cbn [last_nonempty]; [|destruct q; [apply IH|done]].
  assert (Hx : exists l y, c :: part = l ++ [y]) by (destruct (exists_last (l := c :: part)) as (l & y & E); [done|eauto]). destruct Hx as (l & y & ->). by rewrite !app_assoc, !last_snoc.
Qed.

Lemma append_parts_spec parts temp_buf out acc :
  take out temp_buf = acc -> out = length acc -> (out + sum_list_with (fun part : bytes => (length part + 1)%nat) parts <= length temp_buf)%nat ->
  exists temp', append_parts SEP_POSIX parts temp_buf out = Ok (temp', length (appended acc parts)) /\ take (length (appended acc parts)) temp' = appended acc parts /\
    length temp' = length temp_buf /\ (length (appended acc parts) <= out + sum_list_with (fun part : bytes => (length part + 1)%nat) parts)%nat.
Proof.
  revert temp_buf out acc. induction parts as [|part parts IH]; intros temp_buf out acc Ht Hl Hb; cbn [append_parts appended sum_list_with] in *; [exists temp_buf; rewrite <- Hl; split_and!; try done; lia|].
  destruct part as [|c part]; [destruct (IH temp_buf out acc Ht Hl) as (t & ? & ? & ? & ?); [cbn [length] in Hb; lia|]; exists t; split_and!; try done; cbn [length]; lia|]. set (e := c :: part) in *.
  set (gap := if nonempty acc && negb (bool_decide (last acc = Some SEP_POSIX)) then [SEP_POSIX] else []).
  assert (Hg : (length gap <= 1)%nat) by (unfold gap; destruct (_ && _); cbn; lia).
  assert (H : exists temp1, (if (0 <? out)%nat then c ← index_at temp_buf (out - 1); if c =? SEP_POSIX then Ok (temp_buf, out) else temp_buf ← store_at temp_buf out SEP_POSIX; Ok (temp_buf, (out + 1)%nat) else Ok (temp_buf, out)) =
      Ok (temp1, length (acc ++ gap)) /\ take (length (acc ++ gap)) temp1 = acc ++ gap /\ length temp1 = length temp_buf).
  { destruct acc as [|x acc0 _] using rev_ind.
    - cbn in Hl. subst out. exists temp_buf. done.
    - assert (Hne : nonempty (acc0 ++ [x]) = true) by (by destruct acc0). unfold gap. rewrite Hne, last_snoc. rewrite length_app in Hl. cbn [length] in Hl. rewrite (proj2 (Nat.ltb_lt 0 out)) by lia.
      rewrite (index_at_ok temp_buf _ x); [|rewrite (take_lookup_lt temp_buf _ out _ Ht) by lia; rewrite lookup_app_r by lia; by replace (out - 1 - length acc0)%nat with 0%nat by lia].
      cbn [mbind outcome_bind andb]. destruct (Z.eqb_spec x SEP_POSIX) as [->|Hx].
      + rewrite bool_decide_eq_true_2 by done. cbn [negb]. rewrite app_nil_r. exists temp_buf. rewrite length_app. cbn [length]. by rewrite <- Hl.
      + rewrite bool_decide_eq_false_2 by congruence. cbn [negb]. rewrite store_at_ok by (unfold e in Hb; cbn [length] in Hb; lia). cbn [mbind outcome_bind]. exists (<[out := SEP_POSIX]> temp_buf).
        rewrite !length_app. cbn [length]. rewrite <- Hl. split_and!; [done| |by rewrite length_insert]. rewrite store_take by (unfold e in Hb; cbn [length] in Hb; lia). by rewrite Ht. }
  destruct H as (temp1 & -> & T1 & L1). cbn [mbind outcome_bind].
  destruct (put_more temp1 _ e (length (acc ++ gap)) T1 eq_refl) as (E2 & T2 & L2); [rewrite length_app; unfold e in *; cbn [length] in *; lia|]. rewrite E2. cbn [mbind outcome_bind].
  destruct (IH (copy_at temp1 (length (acc ++ gap)) e) (length (acc ++ gap) + length e)%nat (acc ++ gap ++ e)) as (t & E & T & L & B).
  - by rewrite T2, <- app_assoc.
  - rewrite !length_app. lia.
  - rewrite L2, length_app. lia.
  - exists t. split_and!; [done|done|lia|]. etrans; [exact B|]. rewrite length_app. lia.
Qed.

(** The last absolute part, and what follows it. *)
Fixpoint from_last_absolute (p : Platform) parts : option (bytes * list bytes) :=
  match parts with
  | [] => None
  | part :: parts =>
      match from_last_absolute p parts with
      | Some r => Some r
      | None => if is_absolute p part then Some (part, parts) else None
      end
  end.
Definition base_of (p : Platform) (cwd : bytes) parts : bytes * list bytes := match from_last_absolute p parts with Some r => r | None => (cwd, parts) end.

Lemma base_of_cons p cwd part parts : is_absolute p part = true -> base_of p cwd (part :: parts) = base_of p part parts.
Proof. intros H. unfold base_of. cbn. rewrite H. by destruct (from_last_absolute p parts). Qed.

Lemma base_of_skip p cwd pre parts : Forall (fun part => is_absolute p part = false) pre -> base_of p cwd (pre ++ parts) = match from_last_absolute p parts with Some r => r | None => (cwd, pre ++ parts) end.
Proof.
  intros H. unfold base_of. enough (from_last_absolute p (pre ++ parts) = from_last_absolute p parts) as -> by done.
  induction H as [|part pre Hp Hpre IH]; [done|]. cbn. rewrite IH, Hp. by destruct (from_last_absolute p parts).
Qed.

Lemma last_absolute_spec fuel p cwd pre parts :
  Forall (fun part => is_absolute p part = false) pre -> (length parts < fuel)%nat -> Z.of_nat (length (pre ++ parts)) < 2 ^ 16 ->
  last_absolute fuel p cwd (pre ++ parts) (Z.of_nat (length pre)) (Z.of_nat (length (pre ++ parts))) = Ok (base_of p cwd (pre ++ parts)).
Proof.
  revert cwd pre parts. induction fuel as [|fuel IH]; intros cwd pre parts Hpre Hf Hn; [lia|]. cbn [last_absolute]. rewrite base_of_skip by done. rewrite length_app in *.
  assert (Hw : forall x, 0 <= x < 2 ^ 16 -> wrap 16 x = x) by (intros; unfold wrap; by apply Z.mod_small).
  destruct parts as [|part parts]; cbn [length] in *.
  - rewrite (proj2 (Z.ltb_ge _ _)) by lia. by cbn.
  - rewrite (proj2 (Z.ltb_lt _ _)) by lia. rewrite Nat2Z.id. rewrite (index_at_ok _ _ part) by (by rewrite lookup_app_r, Nat.sub_diag by lia). cbn [mbind outcome_bind from_last_absolute].
    destruct (is_absolute p part) eqn:Ea.
    + assert (Ed : drop (length pre + 1) (pre ++ part :: parts) = parts) by (rewrite drop_app_ge by lia; replace (length pre + 1 - length pre)%nat with 1%nat by lia; done).
      rewrite Ed, Hw by lia. etrans; [refine (IH part [] parts _ _ _); [constructor|lia|cbn; lia]|]. unfold base_of. cbn [app]. by destruct (from_last_absolute p parts).
    + rewrite Hw by lia. replace (Z.of_nat (length pre) + 1) with (Z.of_nat (length (pre ++ [part]))) by (rewrite length_app; cbn; lia).
      change (pre ++ part :: parts) with (pre ++ [part] ++ parts). rewrite app_assoc. replace (Z.of_nat (length pre + S (length parts))) with (Z.of_nat (length ((pre ++ [part]) ++ parts))) by (rewrite !length_app; cbn; lia).
      rewrite IH; [|by apply Forall_app_2, Forall_singleton|lia|rewrite !length_app; cbn; lia].
      rewrite base_of_skip by (by apply Forall_app_2, Forall_singleton). by destruct (from_last_absolute p parts).
Qed.

(** The resolved path: below the root, a slash at the end of the last part kept. *)
Definition resolve_normal (cwd : bytes) parts : bytes :=
  let '(base, rest) := base_of Posix cwd parts in
  let es := resolved false (path_elements is_sep_any base ++ concat (path_elements is_sep_any <$> rest)) in
  SEP_POSIX :: joined SEP_POSIX es ++ (if negb (bool_decide (es = [])) && bool_decide (last (last_nonempty base rest) = Some SEP_POSIX) then [SEP_POSIX] else []).

Lemma base_absolute cwd parts : is_absolute_posix cwd = true -> is_absolute_posix (base_of Posix cwd parts).1 = true.
Proof.
  intros H. unfold base_of. destruct (from_last_absolute Posix parts) as [[base rest]|] eqn:E; [|done]. cbn [fst].
  induction parts as [|part parts IH]; [done|]. cbn in E. destruct (from_last_absolute Posix parts) as [r|]; [injection E as ->; by apply IH|].
  destruct (is_absolute_posix part) eqn:Ea; [|done]. by injection E as <- _.
Qed.

Lemma base_length p cwd parts : (length (base_of p cwd parts).1 + sum_list_with (fun part : bytes => (length part + 1)%nat) (base_of p cwd parts).2 <= length cwd + sum_list_with (fun part : bytes => (length part + 1)%nat) parts)%nat.
Proof.
  unfold base_of. destruct (from_last_absolute p parts) as [[base rest]|] eqn:E; [|done]. cbn [fst snd].
  enough (length base + sum_list_with (fun part : bytes => (length part + 1)%nat) rest <= sum_list_with (fun part : bytes => (length part + 1)%nat) parts)%nat by lia. clear cwd.
  revert E. induction parts as [|part parts IH]; [done|]. cbn. destruct (from_last_absolute p parts) as [r|]; [intros [= ->]; specialize (IH eq_refl); lia|].
  destruct (is_absolute p part); [|done]. intros [= <- <-]. lia.
Qed.

Lemma resolve_text base rest : is_absolute_posix base = true ->
  exists path, appended base rest = SEP_POSIX :: path /\
    SEP_POSIX :: normal false SEP_POSIX is_sep_any true path =
    (let es := resolved false (path_elements is_sep_any base ++ concat (path_elements is_sep_any <$> rest)) in
     SEP_POSIX :: joined SEP_POSIX es ++ (if negb (bool_decide (es = [])) && bool_decide (last (last_nonempty base rest) = Some SEP_POSIX) then [SEP_POSIX] else [])).
Proof.
  intros Ha. destruct base as [|c base]; [done|]. cbn in Ha. apply Z.eqb_eq in Ha as ->. destruct (appended_prefix (ch "/" :: base) rest) as [t Et]. exists (base ++ t). split; [done|].
  cbv zeta. f_equal. rewrite <- (elements_appended (ch "/" :: base) rest eq_refl), <- last_appended, Et. cbn [app]. rewrite elements_sep by done. unfold normal. set (es := resolved false (path_elements is_sep_any (base ++ t))).
  f_equal. unfold slash_kept. cbn [andb]. assert (Hn : nonempty (joined SEP_POSIX es) = negb (bool_decide (es = []))).
  { case_bool_decide as H; [by rewrite H|]. destruct (joined SEP_POSIX es) eqn:E; [|done]. apply joined_nil in E; [done|]. eapply Forall_impl; [apply resolved_ok, elements_name_ok; done|]. by intros ? [? _]. }
  rewrite Hn. case_bool_decide as H; cbn [negb andb]; [done|].
  assert (Hne : base ++ t <> []). { intros E. apply H. unfold es. by rewrite E. }
  destruct (base ++ t) as [|x l]; [done|]. cbn [last]. done.
Qed.

Lemma put_front (buf s : bytes) : (length s <= length buf)%nat -> put buf 0 s = Ok (s ++ drop (length s) buf).
Proof. intros H. unfold put. rewrite (proj2 (Nat.leb_le _ _)) by lia. done. Qed.

Lemma length_normal (preserve : bool) path : (length (normal false SEP_POSIX is_sep_any preserve path) <= length path + 1)%nat.
Proof.
  unfold normal. rewrite length_app. pose proof (length_resolved false SEP_POSIX is_sep_any eq_refl eq_refl path). destruct (slash_kept_cases SEP_POSIX preserve path (joined SEP_POSIX (resolved false (path_elements is_sep_any path)))) as [->| ->]; cbn; lia.
Qed.

Lemma resolve_spec (pooled : bytes) (sentinel : bool) (cwd buf : bytes) parts :
  length pooled = MAX_PATH_BYTES -> is_absolute_posix cwd = true -> parts <> [] -> Z.of_nat (length parts) < 2 ^ 16 ->
  (length cwd + 2 + sum_list_with (fun part : bytes => (length part + 1)%nat) parts <= length buf)%nat ->
  exists buf', join_abs_string_buf_ pooled sentinel Posix cwd buf parts = Ok (resolve_normal cwd parts, buf') /\ length buf' = length buf /\
    (length (resolve_normal cwd parts) < length buf)%nat /\ (sentinel = true -> buf' !! length (resolve_normal cwd parts) = Some 0).
Proof.
  intros Hpool Hcwd Hne Hn Hb. unfold join_abs_string_buf_.
  assert (Hm : forall A (x y : A), match parts with [] => x | _ :: _ => y end = y) by (by destruct parts). rewrite Hm. clear Hm.
  case_bool_decide as Hroot.
  { subst parts. destruct buf as [|b0 [|b1 buf]]; [cbn in Hb; lia|cbn in Hb; lia|]. exists (ch "/" :: (if sentinel then 0 else b1) :: buf).
    rewrite store_at_ok by (cbn; lia). cbn [mbind outcome_bind]. change (resolve_normal cwd [[SEP_POSIX]]) with [SEP_POSIX].
    destruct sentinel; [rewrite store_at_ok by (cbn; lia)|]; cbn [mbind outcome_bind]; rewrite slice_range_ok by (cbn; lia); (split_and!; [done|done|cbn; lia|done]). }
  destruct (is_absolute_posix cwd) eqn:Hc; [|done]. clear Hcwd.
  pose proof (last_absolute_spec (length parts + 1) Posix cwd [] parts ltac:(constructor) ltac:(lia) Hn) as E. cbn [app length] in E. change (Z.of_nat 0) with 0 in E.
  assert (Hw : wrap 16 (Z.of_nat (length parts)) = Z.of_nat (length parts)) by (unfold wrap; apply Z.mod_small; lia). rewrite Hw, E. clear E Hw. cbn [mbind outcome_bind].
  pose proof (base_absolute cwd parts Hc) as Hba. pose proof (base_length Posix cwd parts) as Hbl. unfold resolve_normal. destruct (base_of Posix cwd parts) as [base rest]. cbn [fst snd] in *. cbn [mbind outcome_bind].
  set (temp := join_scratch pooled (length base) rest).
  assert (Ht : (length base + sum_list_with (fun part : bytes => (length part + 1)%nat) rest + 2 <= length temp)%nat).
  { unfold temp, join_scratch. destruct (Nat.leb_spec (length base + 2 + sum_list_with (fun part : bytes => (length part + 1)%nat) rest) MAX_PATH_BYTES); [lia|rewrite length_replicate; lia]. }
  rewrite (put_front temp) by lia. cbn [mbind outcome_bind].
  destruct (append_parts_spec rest (base ++ drop (length base) temp) (length base) base) as (temp2 & E2 & T2 & L2 & B2); [by rewrite take_app_length|done|rewrite length_app, length_drop; lia|].
  change (separator Posix) with SEP_POSIX. rewrite E2. cbn [mbind outcome_bind]. clear E2. rewrite length_app, length_drop in L2.
  rewrite slice_range_ok by lia. cbn [mbind outcome_bind]. change (drop 0 temp2) with temp2. rewrite Nat.sub_0_r, T2. clear T2.
  destruct (resolve_text base rest Hba) as (path & Etext & Er). cbv zeta in Er |- *. rewrite <- Er. clear Er. rewrite Etext in *. cbn [length] in B2.
  change (leading_separator_index Posix (SEP_POSIX :: path)) with (Some 0%nat). cbv iota. change (take (0 + 1) (SEP_POSIX :: path)) with [SEP_POSIX].
  rewrite put_front by (cbn; lia). destruct buf as [|b0 tail]; [cbn in Hb; lia|]. cbn [length] in Hb. cbn [mbind outcome_bind length app drop].
  unfold slice_from at 1. rewrite decide_True by (cbn; lia). change (drop 1 (SEP_POSIX :: path)) with path. cbn [mbind outcome_bind].
  destruct (normalize_spec false SEP_POSIX is_sep_any eq_refl eq_refl true false false path tail ltac:(done)) as (t1 & E & T1 & L1 & _); [cbn; lia|].
  set (r := normal false SEP_POSIX is_sep_any true path) in *. pose proof (length_normal true path) as Hlr. fold r in Hlr.
  assert (Hin : in_tail 1 (normalize_string_buf false true Posix path) (SEP_POSIX :: tail) = Ok (SEP_POSIX :: t1, length r)).
  { unfold in_tail, slice_from. rewrite decide_True by (cbn; lia). cbn [mbind outcome_bind]. change (drop 1 (SEP_POSIX :: tail)) with tail. unfold normalize_string_buf. rewrite E. done. }
  change (drop 0 tail) with tail. rewrite Hin. cbn [mbind outcome_bind]. rewrite Nat.add_1_r.
  assert (Hfin : forall t2, take (length r) t2 = r -> length t2 = length tail -> slice_range (SEP_POSIX :: t2) 0 (S (length r)) = Ok (SEP_POSIX :: r)).
  { intros t2 T L. rewrite slice_range_ok by (cbn; lia). cbn [drop Nat.sub take]. by rewrite T. }
  destruct sentinel.
  - rewrite store_at_ok by (cbn; lia). cbn [mbind outcome_bind]. change (<[S (length r):=0]> (SEP_POSIX :: t1)) with (SEP_POSIX :: <[length r := 0]> t1).
    rewrite Hfin by (rewrite ?take_insert_ge, ?length_insert by lia; done). cbn [mbind outcome_bind]. eexists. split; [done|]. cbn [length]. split_and!; [by rewrite length_insert, L1|lia|].
    intros _. cbn. apply list_lookup_insert_eq. lia.
  - cbn [mbind outcome_bind]. rewrite Hfin by done. cbn [mbind outcome_bind]. eexists. split; [done|]. cbn [length]. split_and!; [by rewrite L1|lia|done].
Qed.

(** With a buffer of any size: nothing when the result does not fit. *)
Lemma checked_spec (pooled : bytes) (cwd buf : bytes) parts :
  length pooled = MAX_PATH_BYTES -> is_absolute_posix cwd = true -> parts <> [] -> Z.of_nat (length parts) < 2 ^ 16 ->
  exists buf', join_abs_string_buf_checked pooled Posix cwd buf parts = Ok (if (length buf <? length (resolve_normal cwd parts))%nat then None else Some (resolve_normal cwd parts), buf') /\ length buf' = length buf.
Proof.
  intros Hpool Hcwd Hne Hn. unfold join_abs_string_buf_checked, join_abs_string_buf. set (total := (length cwd + 2 + sum_list_with (fun part : bytes => (length part + 1)%nat) parts)%nat).
  destruct (Nat.ltb_spec total (length buf)).
  - destruct (resolve_spec pooled false cwd buf parts Hpool Hcwd Hne Hn) as (buf' & E & L & B & _); [lia|]. rewrite E. cbn [mbind outcome_bind]. exists buf'. rewrite (proj2 (Nat.ltb_ge _ _)) by lia. done.
  - destruct (resolve_spec pooled false cwd (replicate total 0) parts Hpool Hcwd Hne Hn) as (buf' & E & L & B & _); [rewrite length_replicate; lia|]. rewrite E. cbn [mbind outcome_bind].
    destruct (Nat.ltb_spec (length buf) (length (resolve_normal cwd parts))); [by exists buf|]. rewrite put_front by lia. cbn [mbind outcome_bind]. eexists. split; [done|]. rewrite length_app, length_drop. lia.
Qed.
End resolve.

(** ** The properties *)

Section properties.
Context (p : Platform) (Hp : p = Posix \/ p = Loose).

Lemma elements_node s :
  path_elements (is_separator p) (node_normal p s) =
  match resolved (negb (is_absolute p s)) (path_elements (is_separator p) s) with [] => if is_absolute p s then [] else [DOT] | es => es end.
Proof.
  pose proof (posix_sep p Hp) as Hs. pose proof (posix_dot p Hp) as Hd. unfold node_normal.
  pose proof (resolved_ok (negb (is_absolute p s)) (is_separator p) Hd _ (elements_name_ok (is_separator p) s)) as Hok.
  destruct (resolved (negb (is_absolute p s)) (path_elements (is_separator p) s)) as [|e es] eqn:Er.
  - cbn [joined]. destruct (is_absolute p s); [by rewrite elements_sep|]. by destruct Hp as [->| ->]; destruct (match last s with Some c => _ | None => false end).
  - pose proof (joined_nil (separator p) (e :: es)) as Hn. destruct (joined (separator p) (e :: es)) as [|c body] eqn:Ej.
    { discriminate Hn; [|done]. eapply Forall_impl; [exact Hok|]. by intros ? [? _]. }
    rewrite <- Ej. clear Hn. assert (Ht : forall t, t = [] \/ t = [separator p] -> path_elements (is_separator p) (joined (separator p) (e :: es) ++ t) = e :: es) by (intros; by apply elements_trailing).
    destruct (is_absolute p s); cbn [app]; [rewrite elements_sep by done|]; apply Ht; destruct (match last s with Some c => _ | None => false end); auto.
Qed.

Lemma elements_parts parts : path_elements (is_separator p) (joined (separator p) (nonempty_parts parts)) = concat (path_elements (is_separator p) <$> parts).
Proof.
  induction parts as [|[|c part] parts IH]; [done|exact IH|]. unfold nonempty_parts. cbn [List.filter nonempty]. fold (nonempty_parts parts). rewrite joined_cons. cbn [fmap list_fmap concat]. rewrite <- IH.
  destruct (nonempty_parts parts) as [|q qs]; [by rewrite !app_nil_r|]. apply elements_mid, posix_sep, Hp.
Qed.

(** (C15) [path.join] on a platform with slashes: the four entry points give the same text when their buffers have room
    for the parts (the spilling ones always have), a slice of the buffer with the zero behind it where one was asked for.
    The elements of the text are the elements of all parts in order, resolved: below the root when the joined text is
    absolute, with the leading [..] kept when it is not, and a lone dot when nothing is left. *)
Theorem join_correct parts buf small spill join_buf : length join_buf = JOIN_BUF_LEN -> parts <> [] -> (join_needed parts <= length buf)%nat ->
  let s := join_normal p parts in
  let absolute := is_absolute p (joined (separator p) (nonempty_parts parts)) in
  shows (join_string_buf p buf parts) (length buf) s /\
  (exists b start, join_z_buf p buf parts = Ok (b, start, length s) /\ take (length s) (drop start b) = s /\ b !! (start + length s)%nat = Some 0 /\ length b = length buf) /\
  (exists b sp, join_z_buf_spill p small spill parts = Ok (s, b, sp)) /\
  (exists b sp, join_spill p join_buf spill parts = Ok (s, b, sp)) /\
  path_elements (is_separator p) s = match resolved (negb absolute) (concat (path_elements (is_separator p) <$> parts)) with [] => if absolute then [] else [DOT] | es => es end.
Proof.
  intros Hj Hne Hb s absolute. pose proof (join_needed_ge p parts Hne). split_and!.
  - apply join_spec; [done|lia].
  - destruct (join_z_spec p Hp parts buf) as (b & start & k & E & T & Hz & -> & L); [lia|]. by exists b, start.
  - by apply join_z_buf_spill_spec.
  - by apply join_spill_spec.
  - unfold s, join_normal. by rewrite elements_node, elements_parts.
Qed.
End properties.

Lemma join_correct_witness :
  path_elements is_sep_posix (join_normal Posix [str "/a"; []; str "b/..//c/"; str "../../../d/"]) = [str "d"] /\
  join_normal Posix [str "/a"; []; str "b/..//c/"; str "../../../d/"] = str "/d/" /\
  shows (join_string_buf Loose (replicate 60 7) [str "a"; str "../../b"]) 60 (str "../b").
Proof.
  split_and!; [|by vm_compute|].
  - refine (_ (join_correct Posix _ [str "/a"; []; str "b/..//c/"; str "../../../d/"] (replicate 60 7) [] [] (replicate 4096 7) _ _ _)); [|by left|done|done|vm_compute; lia].
    intros (_ & _ & _ & _ & E). change (is_separator Posix) with is_sep_posix in E. rewrite E. by vm_compute.
  - refine (_ (join_correct Loose _ [str "a"; str "../../b"] (replicate 60 7) [] [] (replicate 4096 7) _ _ _)); [|by right|done|done|vm_compute; lia]. by intros (H & _).
Defined.

(** *** Node's [path.resolve] for the posix platform, on texts: from the right, each part is put in front with a slash until
    an absolute one is there, the directory last; the names between slashes are resolved below the root. *)
Fixpoint node_resolve_text (cwd : bytes) (parts_reversed : list bytes) (text : bytes) : bytes :=
  match parts_reversed with
  | [] => cwd ++ SEP_POSIX :: text
  | [] :: parts_reversed => node_resolve_text cwd parts_reversed text
  | part :: parts_reversed =>
      let text := part ++ SEP_POSIX :: text in
      if is_absolute_posix part then text else node_resolve_text cwd parts_reversed text
  end.
Definition path_resolve (cwd : bytes) (parts : list bytes) : bytes :=
  SEP_POSIX :: joined SEP_POSIX (resolved false (path_elements is_sep_posix (node_resolve_text cwd (rev parts) []))).

Definition no_backslash (s : bytes) : Prop := ch "\" ∉ s.
#[export] Instance no_backslash_dec s : Decision (no_backslash s) := _.

Lemma base_of_snoc cwd parts part :
  base_of Posix cwd (parts ++ [part]) = if is_absolute_posix part then (part, []) else ((base_of Posix cwd parts).1, (base_of Posix cwd parts).2 ++ [part]).
Proof.
  unfold base_of. assert (E : from_last_absolute Posix (parts ++ [part]) =
    if is_absolute_posix part then Some (part, []) else match from_last_absolute Posix parts with Some (b, r) => Some (b, r ++ [part]) | None => None end).
  { induction parts as [|q parts IH]; cbn [from_last_absolute app]; [by cbn; destruct (is_absolute_posix part)|]. rewrite IH. destruct (is_absolute_posix part); [done|].
    destruct (from_last_absolute Posix parts) as [[b r]|]; [done|]. by destruct (is_absolute Posix q). }
  rewrite E. destruct (is_absolute_posix part); [done|]. by destruct (from_last_absolute Posix parts) as [[b r]|].
Qed.

Lemma elements_node_text cwd parts_reversed text :
  let '(base, rest) := base_of Posix cwd (rev parts_reversed) in
  path_elements is_sep_posix (node_resolve_text cwd parts_reversed text) =
  path_elements is_sep_posix base ++ concat (path_elements is_sep_posix <$> rest) ++ path_elements is_sep_posix text.
Proof.
  revert text. induction parts_reversed as [|part ps IH]; intros text; [change (base_of Posix cwd (rev [])) with (cwd, @nil bytes); cbn [node_resolve_text fmap list_fmap concat app]; by apply elements_mid|].
  cbn [rev]. rewrite base_of_snoc. destruct (base_of Posix cwd (rev ps)) as [base rest]. destruct part as [|c part]; cbn [node_resolve_text fst snd].
  - cbn [is_absolute_posix]. rewrite fmap_app, concat_app. cbn [fmap list_fmap concat]. change (path_elements is_sep_posix []) with (@nil bytes). rewrite !app_nil_r. apply IH.
  - destruct (is_absolute_posix (c :: part)); [by rewrite elements_mid by done|].
    rewrite IH, elements_mid by done. rewrite fmap_app, concat_app. cbn [fmap list_fmap concat]. by rewrite app_nil_r, <- !app_assoc.
Qed.

Lemma elements_no_backslash s : no_backslash s -> path_elements is_sep_any s = path_elements is_sep_posix s.
Proof.
  intros H. unfold path_elements. f_equal. induction s as [|c s IH]; [done|]. apply not_elem_of_cons in H as [Hc H]. cbn [fields_by]. rewrite (IH H).
  replace (is_sep_any c) with (is_sep_posix c); [done|]. unfold is_sep_any, is_sep_posix. rewrite (proj2 (Z.eqb_neq c (ch "\"))) by congruence. by rewrite orb_false_r.
Qed.

Lemma base_of_Forall (P : bytes -> Prop) cwd parts : P cwd -> Forall P parts -> P (base_of Posix cwd parts).1 /\ Forall P (base_of Posix cwd parts).2.
Proof.
  intros Hc. induction parts as [|part parts IH] using rev_ind; [by intros _; split; [|constructor]|]. intros [H1 H2]%Forall_app. rewrite base_of_snoc. rewrite Forall_singleton in H2. destruct (IH H1) as [Hb Hr].
  destruct (is_absolute_posix part); cbn [fst snd]; [split; [done|constructor]|]. split; [done|]. apply Forall_app_2; [done|by apply Forall_singleton].
Qed.

Lemma last_nonempty_base cwd parts : let '(base, rest) := base_of Posix cwd parts in last_nonempty base rest = last_nonempty cwd parts.
Proof.
  unfold base_of. destruct (from_last_absolute Posix parts) as [[base rest]|] eqn:E; [|done]. revert cwd E.
  induction parts as [|part parts IH]; intros cwd; cbn [from_last_absolute last_nonempty]; [done|].
  destruct (from_last_absolute Posix parts) as [r|]; [intros [= ->]; destruct part; by apply IH|].
  destruct part as [|c part]; [done|]. destruct (is_absolute Posix (c :: part)); [|done]. by intros [= <- <-].
Qed.

(** Without backslashes the text is that of [path.resolve], with the slash of the last part behind it. *)
Lemma resolve_normal_node cwd parts : no_backslash cwd -> Forall no_backslash parts ->
  resolve_normal cwd parts = path_resolve cwd parts \/
  (last (last_nonempty cwd parts) = Some SEP_POSIX /\ resolve_normal cwd parts = path_resolve cwd parts ++ [SEP_POSIX]).
Proof.
  intros Hc Hps. unfold resolve_normal, path_resolve. pose proof (elements_node_text cwd (rev parts) []) as He. pose proof (last_nonempty_base cwd parts) as Hl.
  pose proof (base_of_Forall no_backslash cwd parts Hc Hps) as [Hb Hr]. rewrite rev_involutive in He. destruct (base_of Posix cwd parts) as [base rest]. cbn [fst snd] in Hb, Hr.
  assert (Er : concat (path_elements is_sep_any <$> rest) = concat (path_elements is_sep_posix <$> rest)).
  { clear -Hr. induction Hr as [|part rest Hp Hr IH]; [done|]. cbn. by rewrite IH, elements_no_backslash. }
  rewrite He, Er, (elements_no_backslash base Hb), Hl. cbn [path_elements fields_by List.filter nonempty]. rewrite app_nil_r. cbv zeta.
  destruct (bool_decide_reflect (last (last_nonempty cwd parts) = Some SEP_POSIX)) as [E|]; [|rewrite andb_false_r, app_nil_r; by left].
  destruct (negb _); cbn [andb]; [right; by split|left; by rewrite app_nil_r].
Qed.


