(* ===== verification/PathRelative.v ===== *)
(** * Relative paths ([paths/resolve_path.rs])

    The longest common directory of some paths, and the path that leads from one to another. *)

From S2P Require Import Prelude Paths PathJoin.
From stdpp Require Import list.
Local Open Scope Z_scope.

(** ** Equality of code units, up to the case of ASCII letters on Windows *)

Definition to_ascii_lower (c : Z) : Z := if is_ascii_upper c then c + 32 else c.
Definition eq_unit (p : Platform) (a b : Z) : bool := match p with Windows => to_ascii_lower a =? to_ascii_lower b | _ => a =? b end.
Definition eql_ignore_case (a b : bytes) : bool := bool_decide (to_ascii_lower <$> a = to_ascii_lower <$> b).

Definition windows_filesystem_root (path : bytes) : bytes :=
  match path with
  | [] => []
  | [c] => if is_sep_any c then [c] else []
  | c :: c1 :: rest =>
      if (c1 =? ch ":") && is_drive_letter c then
        match rest with c2 :: _ => if is_sep_any c2 then take 3 path else take 2 path | [] => take 2 path end
      else if (5 <=? length path)%nat && is_sep_any c && is_sep_any c1 && negb (is_sep_any (path !!! 2%nat)) then
        if (path !!! 2%nat =? ch ".") && is_sep_any (path !!! 3%nat) then take 4 path
        else match index_of_sep (drop 3 path) with
        | Some idx => match index_of_sep (drop (4 + idx) path) with Some idx_second => take (idx + idx_second + 4 + 1) path | None => path end
        | None => path
        end
      else if is_sep_any c then [c] else []
  end.

(** ** [longest_common_path_generic] *)

Section common.
Context (p : Platform) (input : list bytes).

Definition first_path : bytes := match input with s :: _ => s | [] => [] end.
Definition nql_at_index (index : nat) : bool := existsb (fun s => negb (eq_unit p (first_path !!! index) (s !!! index))) (drop 1 input).
Definition min_length : nat := foldr Nat.min (length first_path) (length <$> input).

(** Up to eight paths: all at once. The index of the first difference and that of the last common separator. *)
Fixpoint scan_all (n index last_common : nat) : nat * nat :=
  match n with
  | O => (index, last_common)
  | S n =>
      if nql_at_index index then (index, last_common)
      else scan_all n (S index) (if is_separator p (first_path !!! index) then index else last_common)
  end.

(** More paths: one after another, the index is kept. *)
Fixpoint scan_one (n index : nat) (s : bytes) : nat :=
  match n with
  | O => index
  | S n => if eq_unit p (first_path !!! index) (s !!! index) then scan_one n (S index) s else index
  end.
Fixpoint scan_each (others : list bytes) (index last_common : nat) : outcome (nat * nat) :=
  match others with
  | [] => Ok (index, last_common)
  | s :: others =>
      let index := scan_one (min_length - index) index s in
      if (index =? min_length)%nat && (index =? 0)%nat then Panic
      else
        let index := if (index =? min_length)%nat then (index - 1)%nat else index in
        c ← index_at first_path index;
        scan_each others index (if is_separator p c then index else last_common)
  end.

(** All paths that go on have a separator there: the last of them. *)
Fixpoint all_separated (index : nat) (l : list bytes) (found : option bytes) : option bytes :=
  match l with
  | [] => found
  | s :: l => match s !! index with Some c => if is_separator p c then all_separated index l (Some s) else None | None => all_separated index l found end
  end.

Definition longest_common_path_generic : outcome bytes :=
  match input with
  | [] => Ok []
  | [s] => Ok s
  | s0 :: others =>
      if match p with Windows => existsb (fun s => negb (eql_ignore_case (windows_filesystem_root s0) (windows_filesystem_root s))) others | _ => false end then Ok []
      else
        '(index, last_common) ← (if (length input <=? 8)%nat then Ok (scan_all min_length 0 0) else scan_each others 0 0);
        if (index =? 0)%nat then Ok [separator p]
        else match all_separated index input None with
        | Some s => Ok (take (index + 1) s)
        | None => slice_range s0 0 (last_common + 1)
        end
  end.
End common.

(** ** [relative_to_common_path] *)

Section relative.
Context (p : Platform).

(** One [..] for every name of [from] behind the common path. *)
Fixpoint write_ups (n i : nat) (from buf : bytes) (out_len : nat) : outcome (bytes * nat) :=
  match n with
  | O => Ok (buf, out_len)
  | S n =>
      if (i =? length from)%nat || (match from !! i with Some c => c =? separator p | None => false end && (i + 1 <? length from)%nat) then
        '(buf, out_len) ← (if (out_len =? 0)%nat then buf ← put buf 0 (str ".."); Ok (buf, 2%nat)
                           else buf ← store_at buf out_len (separator p); buf ← put buf (out_len + 1) (str ".."); Ok (buf, (out_len + 3)%nat));
        write_ups n (i + 1) from buf out_len
      else write_ups n (i + 1) from buf out_len
  end.

(** The answer is [to] itself, or in the buffer when it is always copied: its text, and the buffer. *)
Definition answer (always_copy : bool) (s buf : bytes) : outcome (bytes * bytes) :=
  if always_copy then buf ← put buf 0 s; Ok (s, buf) else Ok (s, buf).

Definition is_windows : bool := match p with Windows => true | _ => false end.
Definition without_slash (s : bytes) : bytes := if is_windows && (3 <? length s)%nat && bool_decide (last s = Some (separator p)) then take (length s - 1) s else s.

Definition relative_to_common_path (always_copy : bool) (common_path_ normalized_from_ normalized_to_ buf : bytes) : outcome (bytes * bytes) :=
  let from_root := windows_filesystem_root normalized_from_ in
  let to_root := windows_filesystem_root normalized_to_ in
  if is_windows && negb (nonempty common_path_) && negb (eql_ignore_case from_root to_root) then
    answer always_copy (if (length to_root <? length normalized_to_)%nat && bool_decide (last normalized_to_ = Some (ch "\")) then take (length normalized_to_ - 1) normalized_to_ else normalized_to_) buf
  else
    let normalized_from := if is_windows then drop (length from_root) normalized_from_ else normalized_from_ in
    let normalized_to := if is_windows then drop (length to_root) normalized_to_ else normalized_to_ in
    common_path ← (if is_windows then slice_from common_path_ (length from_root) else Ok (if is_absolute_posix common_path_ then drop 1 common_path_ else common_path_));
    let general :=
      let last_common := default 0%nat (rposition (fun c => c =? separator p) (if is_windows then common_path else common_path_)) in
      '(buf, out_len) ← match normalized_from with
        | [] => Ok (buf, 0%nat)
        | c :: _ => let i := ((if is_separator p c then 1 else 0) + 1 + last_common)%nat in write_ups (length normalized_from + 1 - i) i normalized_from buf 0
        end;
      '(buf, out_len) ← (if (last_common + 1 <? length normalized_to)%nat then
          let tail := drop last_common normalized_to in
          let at_end := nonempty normalized_from && ((last_common =? length normalized_from)%nat || (last_common =? length normalized_from - 1)%nat) in
          t0 ← index_at tail 0;
          let tail := if at_end && is_separator p t0 then drop 1 tail else tail in
          t0 ← index_at tail 0;
          insert ← (if negb (is_separator p t0) && (0 <? out_len)%nat then c ← index_at buf (out_len - 1); Ok (negb (is_separator p c)) else Ok false);
          '(buf, out_len) ← (if (insert : bool) then buf ← store_at buf out_len (separator p); Ok (buf, (out_len + 1)%nat) else Ok (buf, out_len));
          buf ← put buf out_len tail; Ok (buf, (out_len + length tail)%nat)
        else Ok (buf, out_len));
      out_len ← (if (3 <? out_len)%nat then c ← index_at buf (out_len - 1); Ok (if c =? separator p then (out_len - 1)%nat else out_len) else Ok out_len);
      s ← slice_range buf 0 out_len; Ok (s, buf) in
    if (Nat.min (length normalized_from) (length normalized_to) =? length common_path)%nat && (length normalized_from <=? length normalized_to)%nat then
      if negb (nonempty common_path) then answer always_copy (without_slash normalized_to) buf
      else
        c ← index_at normalized_to (length common_path - 1);
        if c =? separator p then answer always_copy (without_slash (drop (length common_path) normalized_to)) buf else general
    else general.

Definition relative_normalized_buf (always_copy : bool) (buf from to : bytes) : outcome (bytes * bytes) :=
  if match p with Windows => eql_ignore_case from to | _ => bool_decide (from = to) end then Ok ([], buf)
  else common_path ← longest_common_path_generic p [from; to]; relative_to_common_path always_copy common_path from to buf.
End relative.

Section relative_platform.
Context (pooled top_level_dir : bytes) (p : Platform).

(** An absolute path is normalised in the buffer of its own; a relative one in [scratch], then resolved. *)
Definition normalized_side (path own scratch : bytes) : outcome (bytes * bytes * bytes) :=
  if is_absolute p path then
    '(own, path_len) ← in_tail 1 (normalize_string_buf true true p path) own;
    match p with
    | Windows => s ← slice_range own 1 (1 + path_len); Ok (s, own, scratch)
    | _ => own ← store_at own 0 (separator p); s ← slice_range own 0 (path_len + 1); Ok (s, own, scratch)
    end
  else
    '(scratch, norm_len) ← normalize_string_buf true true p path scratch;
    part ← slice_range scratch 0 norm_len;
    '(s, own) ← join_abs_string_buf pooled p top_level_dir own [part]; Ok (s, own, scratch).

Definition relative_platform_buf (always_copy : bool) (buf from_buf to_buf from to : bytes) : outcome (bytes * bytes) :=
  '(normalized_from, from_buf, to_buf) ← normalized_side from from_buf to_buf;
  '(normalized_to, to_buf, buf) ← normalized_side to to_buf buf;
  relative_normalized_buf p always_copy buf normalized_from normalized_to.
End relative_platform.

(** ** [is_parent_or_equal], [dirname], [basename] *)

Inductive ParentEqual := Parent | Equal | Unrelated.

Fixpoint contains_at (hay needle : bytes) : bool :=
  bool_decide (take (length needle) hay = needle) || match hay with [] => false | _ :: hay => contains_at hay needle end.
(** [strings::contains]: an empty needle is not found. *)
Definition contains (hay needle : bytes) : bool := nonempty needle && contains_at hay needle.

Fixpoint trim_seps (n : nat) (s : bytes) : bytes :=
  match n with
  | O => s
  | S n => match last s with Some c => if is_sep_any c then trim_seps n (removelast s) else s | None => s end
  end.

Definition is_parent_or_equal (parent_ child : bytes) : ParentEqual :=
  let parent := trim_seps (length parent_) parent_ in
  if negb (contains child parent) then Unrelated
  else if (length child =? length parent)%nat then Equal
  else match child !! length parent with
  | Some c => if (length parent <? length child)%nat && is_sep_any c then Parent else Unrelated
  | None => Unrelated
  end.

Fixpoint dirname_posix (fuel : nat) (s : bytes) : outcome bytes :=
  match fuel with
  | O => OutOfFuel
  | S fuel =>
      match rposition is_sep_posix s with
      | None => Ok []
      | Some i => if (i =? 0)%nat then Ok (str "/") else if (i =? length s - 1)%nat then dirname_posix fuel (take (length s - 1) s) else Ok (take i s)
      end
  end.

(** [basename]: the start and the end of the name. *)
Definition basename (path : bytes) : bytes :=
  let trimmed := trim_seps (length path) path in
  match path, trimmed with
  | [], _ => []
  | _, [] => str "/"
  | _, _ => match rposition is_sep_any trimmed with Some i => drop (i + 1) trimmed | None => trimmed end
  end.

(** ** Absolute paths as lists of names *)

Definition slashed (es : list bytes) : bytes := flat_map (cons SEP_POSIX) es.
Definition absolute_path (es : list bytes) : bytes := SEP_POSIX :: joined SEP_POSIX es.
Notation names := (Forall (name_ok is_sep_posix)).

Fixpoint common_names (fs ts : list bytes) : nat :=
  match fs, ts with f :: fs, t :: ts => if decide (f = t) then S (common_names fs ts) else 0%nat | _, _ => 0%nat end.
(** Up from [fs] to the common directory, down to [ts]. *)
Definition relative_names (fs ts : list bytes) : list bytes := let k := common_names fs ts in replicate (length fs - k) DOTDOT ++ drop k ts.

Lemma slashed_app es fs : slashed (es ++ fs) = slashed es ++ slashed fs.
Proof. apply flat_map_app. Qed.

Lemma slashed_joined es : es <> [] -> slashed es = absolute_path es.
Proof.
  intros Hne. unfold absolute_path. induction es as [|e es IH]; [done|]. cbn [slashed flat_map]. fold (slashed es). rewrite joined_cons. cbn [app]. f_equal. f_equal.
  destruct es as [|e' es]; [done|]. by rewrite IH.
Qed.

Lemma elements_absolute es : names es -> path_elements is_sep_posix (absolute_path es) = es.
Proof. intros H. unfold absolute_path. rewrite elements_sep by done. by apply elements_joined. Qed.

Lemma common_split fs ts : exists cs fs' ts', fs = cs ++ fs' /\ ts = cs ++ ts' /\ common_names fs ts = length cs /\ match fs', ts' with f :: _, t :: _ => f <> t | _, _ => True end.
Proof.
  revert ts. induction fs as [|f fs IH]; intros ts; [exists [], [], ts; by destruct ts|]. destruct ts as [|t ts]; [by exists [], (f :: fs), []|]. cbn [common_names].
  destruct (decide (f = t)) as [<-|Hne]; [|by exists [], (f :: fs), (t :: ts)]. destruct (IH ts) as (cs & fs' & ts' & -> & -> & -> & H). by exists (f :: cs), fs', ts'.
Qed.

(** ** The common path *)

Section common_proofs.
Variables (A R1 R2 : bytes).
Hypothesis Hdiff : match R1, R2 with x :: _, y :: _ => x <> y | _, _ => True end.

Lemma scan_spec A' B l : A = B ++ A' ->
  scan_all Posix [A ++ R1; A ++ R2] (length A' + Nat.min (length R1) (length R2)) (length B) l = (length A, match rposition is_sep_posix A' with Some k => (length B + k)%nat | None => l end).
Proof.
  revert B l. induction A' as [|c A' IH]; intros B l E.
  - rewrite app_nil_r in E. subst B. cbn [length Nat.add rposition]. destruct R1 as [|x r1], R2 as [|y r2]; try done. cbn [length Nat.min scan_all].
    unfold nql_at_index, first_path. cbn [drop existsb]. rewrite !list_lookup_total_middle by done. cbn [eq_unit]. rewrite (proj2 (Z.eqb_neq x y)) by done. done.
  - cbn [length Nat.add scan_all rposition]. unfold nql_at_index at 1, first_path at 1 2. cbn [drop existsb]. rewrite E, <- !app_assoc. cbn [app].
    rewrite !list_lookup_total_middle by done. cbn [eq_unit]. rewrite Z.eqb_refl. cbn [negb orb].
    change (B ++ c :: A' ++ R1) with (B ++ [c] ++ A' ++ R1). change (B ++ c :: A' ++ R2) with (B ++ [c] ++ A' ++ R2). rewrite !(app_assoc B [c]), !(app_assoc (B ++ [c])).
    assert (E' : A = (B ++ [c]) ++ A') by (rewrite E, <- app_assoc; done). rewrite <- E'.
    replace (S (length B)) with (length (B ++ [c])) by (rewrite length_app; cbn; lia). rewrite (IH (B ++ [c]) _ E'). f_equal; [by rewrite <- E|]. cbn [is_separator].
    rewrite length_app. cbn [length]. destruct (rposition is_sep_posix A'); [lia|]. by destruct (is_sep_posix c); [rewrite Nat.add_0_r|].
Qed.

Lemma scan_both : scan_all Posix [A ++ R1; A ++ R2] (min_length [A ++ R1; A ++ R2]) 0 0 = (length A, default 0%nat (rposition is_sep_posix A)).
Proof.
  assert (E : min_length [A ++ R1; A ++ R2] = (length A + Nat.min (length R1) (length R2))%nat) by (unfold min_length; cbn; rewrite !length_app; lia).
  rewrite E. etrans; [exact (scan_spec A [] 0 eq_refl)|]. by destruct (rposition is_sep_posix A).
Qed.
End common_proofs.

Lemma rposition_app (f : Z -> bool) (a b : bytes) : rposition f (a ++ b) = match rposition f b with Some i => Some (length a + i)%nat | None => rposition f a end.
Proof. induction a as [|c a IH]; cbn [rposition app length Nat.add]; [by destruct (rposition f b)|]. rewrite IH. by destruct (rposition f b). Qed.

Lemma rposition_none (f : Z -> bool) s : forallb (fun c => negb (f c)) s = true -> rposition f s = None.
Proof. induction s as [|c s IH]; cbn; [done|]. intros [Hc Hs]%andb_true_iff. rewrite IH by done. by destruct (f c). Qed.

(** The paths part within a name. *)
Lemma common_in_name (C q a b : bytes) :
  forallb (fun c => negb (is_sep_posix c)) q = true -> match a, b with x :: _, y :: _ => x <> y | _, _ => True end ->
  (exists x a', a = x :: a' /\ is_sep_posix x = false) \/ (exists y b', b = y :: b' /\ is_sep_posix y = false) ->
  longest_common_path_generic Posix [C ++ SEP_POSIX :: q ++ a; C ++ SEP_POSIX :: q ++ b] = Ok (C ++ [SEP_POSIX]).
Proof.
  intros Hq Hd Hn. set (A := C ++ SEP_POSIX :: q). unfold longest_common_path_generic.
  assert (Ea : forall r, C ++ SEP_POSIX :: q ++ r = A ++ r) by (intros r; unfold A; by rewrite <- app_assoc). rewrite !Ea. cbn [length Nat.leb]. rewrite scan_both by done. cbn [mbind outcome_bind].
  assert (Hlast : default 0%nat (rposition is_sep_posix A) = length C).
  { unfold A. rewrite rposition_app. cbn [rposition]. rewrite rposition_none by done. cbn. lia. }
  assert (Hlen : (length A =? 0)%nat = false) by (apply Nat.eqb_neq; unfold A; rewrite length_app; cbn; lia). rewrite Hlen, Hlast.
  assert (Hsep : all_separated Posix (length A) [A ++ a; A ++ b] None = None).
  { cbn [all_separated]. rewrite !lookup_app_r by lia. rewrite Nat.sub_diag. destruct a as [|x a'], b as [|y b']; cbn [lookup list_lookup is_separator].
    - destruct Hn as [(? & ? & ? & _)|(? & ? & ? & _)]; done.
    - destruct Hn as [(? & ? & ? & _)|(? & ? & [= -> ->] & ->)]; done.
    - destruct Hn as [(? & ? & [= -> ->] & ->)|(? & ? & ? & _)]; done.
    - destruct Hn as [(? & ? & [= -> ->] & ->)|(? & ? & [= -> ->] & ->)]; [done|]. by destruct (is_sep_posix x). }
  rewrite Hsep. rewrite slice_range_ok by (unfold A; rewrite !length_app; cbn; lia). f_equal. cbn [drop]. rewrite Nat.sub_0_r. unfold A. rewrite <- app_assoc. cbn [app].
  change (C ++ SEP_POSIX :: q ++ a) with (C ++ [SEP_POSIX] ++ q ++ a). rewrite app_assoc. apply take_app_length'. rewrite length_app. cbn. lia.
Qed.

(** One path is the directory of the other. *)
Lemma common_dir (C T : bytes) : C <> [] ->
  longest_common_path_generic Posix [C; C ++ SEP_POSIX :: T] = Ok (C ++ [SEP_POSIX]) /\ longest_common_path_generic Posix [C ++ SEP_POSIX :: T; C] = Ok (C ++ [SEP_POSIX]).
Proof.
  intros Hne. assert (Hlen : (length C =? 0)%nat = false) by (apply Nat.eqb_neq; by destruct C).
  assert (Ht : take (length C + 1) (C ++ SEP_POSIX :: T) = C ++ [SEP_POSIX]).
  { change (C ++ SEP_POSIX :: T) with (C ++ [SEP_POSIX] ++ T). rewrite app_assoc. apply take_app_length'. rewrite length_app. cbn. lia. }
  assert (Hl : (C ++ SEP_POSIX :: T) !! length C = Some SEP_POSIX) by (rewrite lookup_app_r, Nat.sub_diag by lia; done). assert (Hc : C !! length C = None) by (by apply lookup_ge_None).
  pose proof (scan_both C [] (SEP_POSIX :: T) I) as S1. pose proof (scan_both C (SEP_POSIX :: T) [] I) as S2. rewrite app_nil_r in S1, S2.
  unfold longest_common_path_generic. cbn [length Nat.leb]. rewrite S1, S2. cbn [mbind outcome_bind]. rewrite Hlen. cbn [all_separated]. rewrite Hl, Hc. cbn [is_separator]. change (is_sep_posix SEP_POSIX) with true. cbv iota. by rewrite Ht.
Qed.

(** Two names that differ part after a common beginning. *)
Lemma names_part f t (r s : bytes) :
  f <> t -> forallb (fun c => negb (is_sep_posix c)) f = true -> forallb (fun c => negb (is_sep_posix c)) t = true ->
  match r with c :: _ => is_sep_posix c = true | [] => True end -> match s with c :: _ => is_sep_posix c = true | [] => True end ->
  exists q a b, f ++ r = q ++ a /\ t ++ s = q ++ b /\ forallb (fun c => negb (is_sep_posix c)) q = true /\ match a, b with x :: _, y :: _ => x <> y | _, _ => True end /\
    ((exists x a', a = x :: a' /\ is_sep_posix x = false) \/ (exists y b', b = y :: b' /\ is_sep_posix y = false)).
Proof.
  revert t. induction f as [|x f IH]; intros t Hne Hf Ht Hr Hs.
  - destruct t as [|y t]; [done|]. cbn in Ht. apply andb_true_iff in Ht as [Hy%negb_true_iff _]. exists [], r, (y :: t ++ s). split_and!; try done; [|right; eauto].
    destruct r as [|c r]; [done|]. intros ->. congruence.
  - cbn in Hf. apply andb_true_iff in Hf as [Hx Hf]. destruct t as [|y t].
    + apply negb_true_iff in Hx. exists [], (x :: f ++ r), s. split_and!; try done; [|left; eauto]. destruct s as [|c s]; [done|]. intros ->. congruence.
    + cbn in Ht. apply andb_true_iff in Ht as [Hy Ht]. destruct (decide (x = y)) as [<-|Hxy].
      * destruct (IH t) as (q & a & b & E1 & E2 & Hq & Hd & Hn); try done; [congruence|]. exists (x :: q), a, b. cbn [app forallb]. rewrite E1, E2, Hx, Hq. done.
      * exists [], (x :: f ++ r), (y :: t ++ s). split_and!; try done. left. apply negb_true_iff in Hx. eauto.
Qed.

Lemma slashed_head es : match slashed es with c :: _ => is_sep_posix c = true | [] => True end.
Proof. by destruct es. Qed.

Lemma absolute_path_cons (cs : list bytes) e es : absolute_path (cs ++ e :: es) = slashed cs ++ SEP_POSIX :: e ++ slashed es.
Proof. rewrite <- slashed_joined by (by destruct cs). rewrite slashed_app. done. Qed.

(** The common path is the directory of the common names. *)
Lemma common_path_spec cs fs ts :
  names fs -> names ts -> fs <> ts -> match fs, ts with f :: _, t :: _ => f <> t | _, _ => True end ->
  longest_common_path_generic Posix [absolute_path (cs ++ fs); absolute_path (cs ++ ts)] = Ok (slashed cs ++ [SEP_POSIX]).
Proof.
  intros Hf Ht Hne Hd.
  assert (Hroot : forall e es, name_ok is_sep_posix e -> longest_common_path_generic Posix [[SEP_POSIX]; SEP_POSIX :: e ++ es] = Ok [SEP_POSIX] /\ longest_common_path_generic Posix [SEP_POSIX :: e ++ es; [SEP_POSIX]] = Ok [SEP_POSIX]).
  { intros e es [He Hn]. destruct e as [|c e]; [done|]. cbn in Hn. apply andb_true_iff in Hn as [Hc%negb_true_iff _].
    split; [apply (common_in_name [] [] [] (c :: e ++ es))|apply (common_in_name [] [] (c :: e ++ es) [])]; try done; [right|left]; eauto. }
  destruct fs as [|f fs], ts as [|t ts]; [done| | |].
  - rewrite app_nil_r, absolute_path_cons. apply Forall_cons in Ht as [Ht _]. destruct cs as [|c cs]; [by apply Hroot|]. rewrite <- slashed_joined by done. by apply common_dir.
  - rewrite app_nil_r, absolute_path_cons. apply Forall_cons in Hf as [Hf _]. destruct cs as [|c cs]; [by apply Hroot|]. rewrite <- slashed_joined by done. by apply common_dir.
  - rewrite !absolute_path_cons. apply Forall_cons in Hf as [[_ Hf] _]. apply Forall_cons in Ht as [[_ Ht] _].
    destruct (names_part f t (slashed fs) (slashed ts)) as (q & a & b & E1 & E2 & Hq & Hh & Hn); try done; [apply slashed_head|apply slashed_head|].
    rewrite E1, E2. by apply common_in_name.
Qed.

(** ** The way up and down *)

(** The separators that have something behind them. *)
Fixpoint inner_seps (s : bytes) : nat :=
  match s with
  | [] => 0
  | c :: s => ((if (c =? SEP_POSIX)%Z && nonempty s then 1 else 0) + inner_seps s)%nat
  end.

Lemma inner_seps_run (g s : bytes) : forallb (fun c => negb (is_sep_posix c)) g = true -> inner_seps (g ++ s) = inner_seps s.
Proof. induction g as [|c g IH]; cbn [forallb app inner_seps]; [done|]. intros [Hc%negb_true_iff Hg]%andb_true_iff. unfold is_sep_posix in Hc. unfold SEP_POSIX. rewrite Hc. by apply IH. Qed.

Lemma inner_seps_slashed es : names es -> inner_seps (slashed es) = length es.
Proof.
  induction 1 as [|e es [He Hn] Hes IH]; [done|]. change (slashed (e :: es)) with (SEP_POSIX :: e ++ slashed es). cbn [inner_seps length]. rewrite inner_seps_run, IH by done. by destruct e.
Qed.

Definition ups (k : nat) : bytes := joined SEP_POSIX (replicate k DOTDOT).

Lemma write_ups_spec from n i buf k :
  (i <= length from)%nat -> n = (length from + 1 - i)%nat -> (0 < i)%nat -> take (length (ups k)) buf = ups k -> (3 * (k + 1 + inner_seps (drop i from)) <= length buf)%nat ->
  exists buf', write_ups Posix n i from buf (length (ups k)) = Ok (buf', length (ups (k + 1 + inner_seps (drop i from)))) /\
    take (length (ups (k + 1 + inner_seps (drop i from)))) buf' = ups (k + 1 + inner_seps (drop i from)) /\ length buf' = length buf.
Proof.
  assert (Hup : forall k, (length (ups k) <= 3 * k)%nat /\ (length (ups k) = 0%nat <-> k = 0%nat) /\ ups (k + 1)%nat = ups k ++ (if (length (ups k) =? 0)%nat then [] else [SEP_POSIX]) ++ DOTDOT).
  { clear. intros k. assert (H : (length (ups k) + 1 = 3 * k \/ k = 0 /\ ups k = [])%nat).
    { unfold ups. induction k as [|k IH]; [by right|left]. destruct k as [|k]; [done|]. destruct IH as [IH|[? _]]; [|done]. change (replicate (S (S k)) DOTDOT) with ([DOTDOT] ++ replicate (S k) DOTDOT).
      rewrite joined_names_app, length_app by done. cbn [joined]. change (length (SEP_POSIX :: joined SEP_POSIX (replicate (S k) DOTDOT))) with (S (length (joined SEP_POSIX (replicate (S k) DOTDOT)))). change (length DOTDOT) with 2%nat. lia. }
    split; [destruct H as [H|[-> ->]]; cbn; lia|]. split; [destruct H as [H|[-> ->]]; [lia|done]|]. unfold ups at 1. rewrite Nat.add_1_r, replicate_S_end, joined_snoc. fold (ups k). f_equal. f_equal.
    destruct H as [H|[-> ->]]; [|done]. destruct k; [cbn in H; lia|]. cbn [replicate]. destruct (Nat.eqb_spec (length (ups (S k))) 0); [lia|done]. }
  assert (Hstep : forall buf k, take (length (ups k)) buf = ups k -> (3 * (k + 1) <= length buf)%nat ->
    exists buf', (if (length (ups k) =? 0)%nat then buf ← put buf 0 (str ".."); Ok (buf, 2%nat) else buf ← store_at buf (length (ups k)) SEP_POSIX; buf ← put buf (length (ups k) + 1) (str ".."); Ok (buf, (length (ups k) + 3)%nat)) = Ok (buf', length (ups (k + 1)%nat)) /\
      take (length (ups (k + 1)%nat)) buf' = ups (k + 1)%nat /\ length buf' = length buf).
  { clear -Hup. intros buf k Ht Hb. destruct (Hup k) as (H1 & H2 & H3). rewrite H3. change (str "..") with DOTDOT. destruct (Nat.eqb_spec (length (ups k)) 0) as [Hz|Hz].
    - apply nil_length_inv in Hz. rewrite Hz in *. destruct (put_more buf [] DOTDOT 0 eq_refl eq_refl) as (E & T & L); [cbn; lia|]. rewrite E. cbn [mbind outcome_bind]. by eexists.
    - destruct (store_more buf (ups k) (length (ups k)) SEP_POSIX Ht eq_refl) as (E & T & L & N); [lia|]. rewrite E. cbn [mbind outcome_bind].
      destruct (put_more _ _ DOTDOT (length (ups k) + 1) T L) as (E2 & T2 & N2); [cbn; lia|]. rewrite E2. cbn [mbind outcome_bind]. eexists.
      assert (Hl : length (ups k ++ [SEP_POSIX] ++ DOTDOT) = (length (ups k) + 3)%nat) by (rewrite !length_app; cbn [length]; change (length DOTDOT) with 2%nat; lia).
      rewrite Hl. change (length DOTDOT) with 2%nat in T2. rewrite <- app_assoc in T2. replace (length (ups k) + 1 + 2)%nat with (length (ups k) + 3)%nat in T2 by lia. split_and!; [done|done|lia]. }
  revert i buf k. induction n as [|n IH]; intros i buf k Hi Hn Hi0 Ht Hb; [lia|]. cbn [write_ups]. change (separator Posix) with SEP_POSIX.
  destruct (decide (i = length from)) as [->|Hne].
  - rewrite Nat.eqb_refl. cbn [orb]. rewrite drop_all in *. cbn [inner_seps] in *. rewrite Nat.add_0_r in *. destruct (Hstep buf k Ht ltac:(lia)) as (buf1 & E & T & L). rewrite E. cbn [mbind outcome_bind].
    replace n with 0%nat by lia. cbn [write_ups]. by exists buf1.
  - rewrite (proj2 (Nat.eqb_neq _ _)) by done. destruct (lookup_lt_is_Some_2 from i ltac:(lia)) as [c Hc]. rewrite Hc. rewrite (drop_S _ c i Hc) in *. cbn [orb inner_seps] in *. change (separator Posix) with SEP_POSIX.
    assert (Hlast : (i + 1 <? length from)%nat = nonempty (drop (S i) from)).
    { destruct (Nat.ltb_spec (i + 1) (length from)); destruct (drop (S i) from) eqn:Ed; try done; apply (f_equal length) in Ed; rewrite length_drop in Ed; cbn in Ed; lia. }
    rewrite Hlast. replace (i + 1)%nat with (S i) by lia. destruct ((c =? SEP_POSIX) && nonempty (drop (S i) from)) eqn:Es.
    + destruct (Hstep buf k Ht ltac:(lia)) as (buf1 & E & T & L). rewrite E. cbn [mbind outcome_bind]. destruct (IH (S i) buf1 (k + 1)%nat) as (buf2 & E2 & T2 & L2); [lia|lia|lia|done|lia|].
      rewrite E2. replace (k + 1 + (1 + inner_seps (drop (S i) from)))%nat with (k + 1 + 1 + inner_seps (drop (S i) from))%nat by lia. exists buf2. split_and!; [done|done|lia].
    + apply IH; [lia|lia|lia|done|lia].
Qed.

Lemma slashed_names_last cs : names cs -> cs <> [] -> exists s c, slashed cs = s ++ [c] /\ is_sep_posix c = false.
Proof.
  intros H Hne. destruct (joined_last SEP_POSIX is_sep_posix cs H Hne) as (s & c & E & Hc). rewrite slashed_joined by done. unfold absolute_path. rewrite E. exists (SEP_POSIX :: s), c. done.
Qed.

Lemma length_absolute cs es : (length (absolute_path (cs ++ es)) = match es with [] => Nat.max 1 (length (slashed cs)) | e :: es => length (slashed cs) + 1 + length e + length (slashed es) end)%nat.
Proof.
  destruct es as [|e es].
  - rewrite app_nil_r. destruct cs as [|c cs]; [done|]. rewrite <- slashed_joined by done. cbn [slashed flat_map app length]. lia.
  - rewrite absolute_path_cons, length_app. cbn [length]. rewrite length_app. lia.
Qed.

(** The ups of the general case. *)
Lemma ups_phase cs fs (buf : bytes) :
  names cs -> names fs -> (3 * length fs <= length buf)%nat ->
  let from := absolute_path (cs ++ fs) in let i := (1 + 1 + length (slashed cs))%nat in
  exists buf', write_ups Posix (length from + 1 - i) i from buf 0 = Ok (buf', length (ups (length fs))) /\ take (length (ups (length fs))) buf' = ups (length fs) /\ length buf' = length buf.
Proof.
  intros Hcs Hfs Hb from i. pose proof (length_absolute cs fs) as Hl. fold from in Hl. destruct fs as [|f fs].
  - replace (length from + 1 - i)%nat with 0%nat by (unfold i; lia). by exists buf.
  - apply Forall_cons in Hfs as [[Hf Hfn] Hfs]. destruct f as [|c f]; [done|]. cbn in Hfn. apply andb_true_iff in Hfn as [_ Hfn].
    assert (Ed : drop i from = f ++ slashed fs).
    { unfold from, i. rewrite absolute_path_cons. rewrite drop_app_ge by lia. replace (1 + 1 + length (slashed cs) - length (slashed cs))%nat with 2%nat by lia. done. }
    destruct (write_ups_spec from (length from + 1 - i) i buf 0) as (buf' & E & T & L); [cbn [length] in Hl; unfold i; lia|done|unfold i; lia|done| |].
    + rewrite Ed, inner_seps_run, inner_seps_slashed by done. cbn [length] in Hb. lia.
    + rewrite Ed, inner_seps_run, inner_seps_slashed in E, T by done. exists buf'. cbn [length]. done.
Qed.

Lemma relative_to_common_spec (always_copy : bool) cs fs ts buf :
  names cs -> names fs -> names ts -> (fs <> [] \/ ts <> []) -> (3 * length fs + length (slashed ts) + 1 <= length buf)%nat ->
  exists buf', relative_to_common_path Posix always_copy (slashed cs ++ [SEP_POSIX]) (absolute_path (cs ++ fs)) (absolute_path (cs ++ ts)) buf =
    Ok (joined SEP_POSIX (replicate (length fs) DOTDOT ++ ts), buf') /\ length buf' = length buf.
Proof.
  intros Hcs Hfs Hts Hne Hb. set (C := slashed cs). unfold relative_to_common_path. cbn [is_windows andb].
  assert (Habs : is_absolute_posix (C ++ [SEP_POSIX]) = true) by (unfold C; by destruct cs). rewrite Habs. cbn [mbind outcome_bind].
  assert (Hlc : length (drop 1 (C ++ [SEP_POSIX])) = length C) by (rewrite length_drop, length_app; cbn; lia).
  set (from := absolute_path (cs ++ fs)). set (to := absolute_path (cs ++ ts)).
  pose proof (length_absolute cs fs) as Lf. pose proof (length_absolute cs ts) as Lt. fold from C in Lf. fold to C in Lt.
  assert (Hlast : default 0%nat (rposition (fun c => c =? separator Posix) (C ++ [SEP_POSIX])) = length C).
  { rewrite rposition_app. cbn. lia. }
  (* the shortcut for a common path that is one of the two is not taken: its last unit belongs to a name *)
  match goal with |- context [if ?b then (if _ then _ else (index_at _ _ ≫= _)) else ?g] => set (general := g) end.
  enough (Hg : exists buf', general = Ok (joined SEP_POSIX (replicate (length fs) DOTDOT ++ ts), buf') /\ length buf' = length buf).
  { clearbody general. destruct ((Nat.min (length from) (length to) =? length (drop 1 (C ++ [SEP_POSIX])))%nat && (length from <=? length to)%nat) eqn:Esh; [|exact Hg]. apply andb_true_iff in Esh as [Esh%Nat.eqb_eq _]. rewrite Hlc in Esh.
    destruct cs as [|c0 cs0]; [exfalso; unfold C in *; cbn [slashed flat_map length] in *; destruct fs, ts; cbn [length] in *; lia|].
    destruct (slashed_names_last (c0 :: cs0) Hcs ltac:(done)) as (s & c & Ec & Hc). fold C in Ec.
    assert (Hnc : nonempty (drop 1 (C ++ [SEP_POSIX])) = true) by (destruct (drop 1 (C ++ [SEP_POSIX])) eqn:E0; [rewrite Ec, length_app in Hlc; cbn in Hlc; lia|done]).
    rewrite Hnc. cbn [negb]. rewrite Hlc.
    assert (Hi : to !! (length C - 1)%nat = Some c).
    { assert (Ep : exists r, to = C ++ r) by (unfold to, C; destruct ts as [|t ts0]; [exists []; rewrite !app_nil_r; by rewrite slashed_joined|rewrite absolute_path_cons; eauto]).
      destruct Ep as [r ->]. rewrite Ec, <- app_assoc. rewrite length_app. cbn [length]. rewrite lookup_app_r by lia. by replace (length s + 1 - 1 - length s)%nat with 0%nat by lia. }
    rewrite (index_at_ok _ _ c Hi). cbn [mbind outcome_bind]. unfold is_sep_posix in Hc. change (separator Posix) with (ch "/"). rewrite Hc. exact Hg. }
  unfold general. clear general. cbv zeta. rewrite Hlast.
  assert (Hhd : exists r, from = SEP_POSIX :: r) by (unfold from, absolute_path; eauto). destruct Hhd as [r Er].
  assert (Hup : exists buf', match from with [] => Ok (buf, 0%nat) | c :: _ => write_ups Posix (length from + 1 - ((if is_separator Posix c then 1 else 0) + 1 + length C)) ((if is_separator Posix c then 1 else 0) + 1 + length C) from buf 0 end =
     Ok (buf', length (ups (length fs))) /\ take (length (ups (length fs))) buf' = ups (length fs) /\ length buf' = length buf).
  { destruct (ups_phase cs fs buf Hcs Hfs ltac:(lia)) as (buf' & E & T & L). fold from C in E. exists buf'. rewrite Er in *. done. }
  destruct Hup as (buf1 & -> & T1 & L1). cbn [mbind outcome_bind].
  set (X := joined SEP_POSIX (replicate (length fs) DOTDOT ++ ts)).
  assert (Hfin : forall buf2, take (length X) buf2 = X -> length buf2 = length buf ->
    exists buf', (out_len ← (if (3 <? length X)%nat then c ← index_at buf2 (length X - 1); Ok (if c =? separator Posix then (length X - 1)%nat else length X) else Ok (length X));
      s ← slice_range buf2 0 out_len; Ok (s, buf2)) = Ok (X, buf') /\ length buf' = length buf).
  { intros buf2 T2 L2. destruct (joined_last SEP_POSIX is_sep_posix (replicate (length fs) DOTDOT ++ ts)) as (s & c & Ec & Hc).
    { apply Forall_app_2; [apply Forall_replicate; split; done|done]. }
    { destruct Hne; [by destruct fs|by destruct ts; [|destruct (replicate _ _)]]. }
    fold X in Ec. assert (Hle : (length X <= length buf2)%nat) by (apply (f_equal length) in T2; rewrite length_take in T2; lia).
    assert (Hcut : (if (3 <? length X)%nat then c ← index_at buf2 (length X - 1); Ok (if c =? separator Posix then (length X - 1)%nat else length X) else Ok (length X)) = Ok (length X)).
    { destruct (Nat.ltb_spec 3 (length X)); [|done]. rewrite (index_at_ok _ _ c).
      - cbn [mbind outcome_bind]. unfold is_sep_posix in Hc. change (separator Posix) with (ch "/"). by rewrite Hc.
      - rewrite (take_lookup_lt buf2 _ _ _ T2) by lia. rewrite Ec, length_app. cbn [length]. rewrite lookup_app_r by lia. by replace (length s + 1 - 1 - length s)%nat with 0%nat by lia. }
    rewrite Hcut. cbn [mbind outcome_bind]. rewrite slice_range_ok by lia. cbn [mbind outcome_bind]. change (drop 0 buf2) with buf2. rewrite Nat.sub_0_r, T2. by exists buf2. }
  assert (Hups : (length (ups (length fs)) <= 3 * length fs)%nat).
  { unfold ups. clear. induction (length fs) as [|n IH]; [cbn; lia|]. cbn [replicate]. rewrite joined_cons, length_app. destruct (replicate n DOTDOT); cbn [length] in *; change (length DOTDOT) with 2%nat; lia. }
  destruct ts as [|t ts].
  - rewrite (proj2 (Nat.ltb_ge (length C + 1) (length to))) by lia. cbn [mbind outcome_bind]. assert (EX : ups (length fs) = X) by (unfold X, ups; by rewrite app_nil_r). rewrite EX in *. by apply Hfin.
  - apply Forall_cons in Hts as [[Ht Htn] Hts]. assert (Etail : drop (length C) to = SEP_POSIX :: joined SEP_POSIX (t :: ts)).
    { unfold to. rewrite absolute_path_cons. fold C. rewrite drop_app_length. change (SEP_POSIX :: t ++ slashed ts) with (slashed (t :: ts)). by rewrite slashed_joined. }
    set (T := joined SEP_POSIX (t :: ts)) in *. assert (LT : (length T + 1 = length (slashed (t :: ts)))%nat) by (rewrite slashed_joined by done; change (absolute_path (t :: ts)) with (SEP_POSIX :: T); cbn [length]; lia).
    assert (Ht1 : (1 <= length t)%nat) by (destruct t; [done|cbn; lia]). rewrite (proj2 (Nat.ltb_lt (length C + 1) (length to))) by lia. rewrite Etail. cbn [index_at lookup list_lookup mbind outcome_bind]. change (is_separator Posix SEP_POSIX) with true. rewrite andb_true_r.
    assert (Hfrom : nonempty from = true) by (by rewrite Er). rewrite Hfrom. cbn [andb].
    destruct fs as [|f fs].
    + assert (Hend : ((length C =? length from) || (length C =? length from - 1))%nat = true).
      { apply orb_true_iff. rewrite !Nat.eqb_eq. lia. }
      rewrite Hend. cbn [drop]. assert (HT : exists c r', T = c :: r' /\ is_sep_posix c = false).
      { destruct t as [|c t]; [done|]. cbn in Htn. apply andb_true_iff in Htn as [Hc%negb_true_iff _]. unfold T. rewrite joined_cons. cbn [app]. eauto. }
      destruct HT as (c & r' & ET & Hc). assert (Hi : index_at T 0 = Ok c) by (by rewrite ET). change (drop 0 T) with T. rewrite Hi. cbn [mbind outcome_bind length]. change (length (ups 0)) with 0%nat. change (0 <? 0)%nat with false. rewrite andb_false_r. cbn [mbind outcome_bind].
      destruct (put_more buf1 [] T 0 eq_refl eq_refl) as (E2 & T2 & L2); [lia|]. rewrite E2. cbn [mbind outcome_bind]. apply Hfin; [exact T2|lia].
    + assert (Hend : ((length C =? length from) || (length C =? length from - 1))%nat = false).
      { apply orb_false_iff. rewrite !Nat.eqb_neq. apply Forall_cons in Hfs as [[Hf _] _]. destruct f; [done|]. cbn [length] in Lf. lia. }
      rewrite Hend. cbn [index_at lookup list_lookup mbind outcome_bind]. change (is_separator Posix SEP_POSIX) with true. cbn [negb andb mbind outcome_bind].
      destruct (put_more buf1 _ (SEP_POSIX :: T) _ T1 eq_refl) as (E2 & T2 & L2); [cbn [length] in *; lia|]. rewrite E2. cbn [mbind outcome_bind].
      assert (EX : X = ups (length (f :: fs)) ++ SEP_POSIX :: T) by (unfold X, ups, T; apply joined_names_app; done).
      assert (LX : (length (ups (length (f :: fs))) + length (SEP_POSIX :: T))%nat = length X) by (rewrite EX; by rewrite length_app). rewrite LX in T2 |- *. apply Hfin; [etrans; [exact T2|by symmetry]|lia].
Qed.

(** Between two absolute paths: up to the directory that they share, and down. *)
Lemma relative_spec (always_copy : bool) fs ts buf :
  names fs -> names ts -> (3 * length fs + length (absolute_path ts) + 1 <= length buf)%nat ->
  exists buf', relative_normalized_buf Posix always_copy buf (absolute_path fs) (absolute_path ts) = Ok (joined SEP_POSIX (relative_names fs ts), buf') /\ length buf' = length buf.
Proof.
  intros Hfs Hts Hb. unfold relative_normalized_buf, relative_names. destruct (common_split fs ts) as (cs & fs' & ts' & -> & -> & -> & Hd).
  rewrite length_app. replace (length cs + length fs' - length cs)%nat with (length fs') by lia. rewrite drop_app_length.
  pose proof Hfs as [Hcs Hfs']%Forall_app. apply Forall_app in Hts as Hts0. destruct Hts0 as [_ Hts'].
  case_bool_decide as Heq.
  - assert (E : cs ++ fs' = cs ++ ts') by (rewrite <- (elements_absolute (cs ++ fs')), <- (elements_absolute (cs ++ ts')) by done; by rewrite Heq). apply app_inv_head in E. subst ts'.
    destruct fs' as [|f fs']; [|done]. exists buf. done.
  - assert (Hne : fs' <> ts') by congruence. rewrite common_path_spec by done. cbn [mbind outcome_bind].
    apply relative_to_common_spec; try done.
    + destruct fs', ts'; [done|by right|by left|by left].
    + rewrite length_absolute, length_app in Hb. destruct ts' as [|t ts']; [cbn [slashed flat_map length]; lia|]. change (slashed (t :: ts')) with (SEP_POSIX :: t ++ slashed ts'). cbn [length]. rewrite length_app. lia.
Qed.

(** ** Resolving what was computed *)

Lemma name_any_posix e : name_ok is_sep_any e -> name_ok is_sep_posix e.
Proof.
  intros [Hne Hs]. split; [done|]. clear Hne. induction e as [|c e IH]; [done|]. cbn in *. apply andb_true_iff in Hs as [Hc Hs]. rewrite IH by done. unfold is_sep_any in Hc. unfold is_sep_posix.
  destruct (c =? ch "/"); [done|]. done.
Qed.

Lemma fold_back n ns : (n <= length ns)%nat -> fold_left (resolve_step false) (replicate n DOTDOT) (0%nat, ns) = (0%nat, drop n ns).
Proof.
  revert ns. induction n as [|n IH]; intros ns Hn; [by rewrite drop_0|]. destruct ns as [|x ns]; [cbn in Hn; lia|]. cbn [replicate fold_left]. change (resolve_step false (0%nat, x :: ns) DOTDOT) with (0%nat, ns).
  apply IH. cbn in Hn. lia.
Qed.

Lemma resolved_relative fs ts : Forall (plain is_sep_any) fs -> Forall (plain is_sep_any) ts -> resolved false (fs ++ relative_names fs ts) = ts.
Proof.
  intros Hf Ht. unfold relative_names. destruct (common_split fs ts) as (cs & fs' & ts' & -> & -> & -> & _). apply Forall_app in Ht as [_ Ht']. pose proof Hf as [Hcs _]%Forall_app.
  rewrite length_app. replace (length cs + length fs' - length cs)%nat with (length fs') by lia. rewrite drop_app_length.
  unfold resolved, resolve_elements. rewrite !fold_left_app. rewrite (fold_names false is_sep_any 0 [] cs), (fold_names false is_sep_any) by (by apply Forall_app in Hf as [_ ?]).
  rewrite app_nil_r, fold_back by (rewrite length_app, length_rev; lia). rewrite drop_app_length' by (by rewrite length_rev). rewrite (fold_names false is_sep_any) by done. unfold written_out. cbn [fst snd replicate app]. by rewrite rev_app_distr, !rev_involutive.
Qed.

Lemma relative_names_ok fs ts : Forall (plain is_sep_any) fs -> Forall (plain is_sep_any) ts -> Forall (name_ok is_sep_any) (relative_names fs ts).
Proof.
  intros Hf Ht. apply Forall_app_2; [apply Forall_replicate; by split|]. apply Forall_drop. eapply Forall_impl; [exact Ht|]. by intros e [? _].
Qed.

Lemma joined_not_absolute es : Forall (name_ok is_sep_any) es -> is_absolute_posix (joined SEP_POSIX es) = false.
Proof.
  intros H. destruct H as [|e es [He Hn] Hes]; [done|]. rewrite joined_cons. destruct e as [|c e]; [done|]. cbn in *. apply andb_true_iff in Hn as [Hc _]. unfold is_sep_any in Hc. by destruct (c =? ch "/").
Qed.

Lemma resolve_relative fs ts : Forall (plain is_sep_any) fs -> Forall (plain is_sep_any) ts ->
  resolve_normal (absolute_path fs) [joined SEP_POSIX (relative_names fs ts)] = absolute_path ts.
Proof.
  intros Hf Ht. pose proof (relative_names_ok fs ts Hf Ht) as Hr. set (rel := joined SEP_POSIX (relative_names fs ts)).
  assert (Hfn : Forall (name_ok is_sep_any) fs) by (eapply Forall_impl; [exact Hf|]; by intros e [? _]).
  unfold resolve_normal, base_of. cbn [from_last_absolute]. change (is_absolute Posix rel) with (is_absolute_posix rel). rewrite (joined_not_absolute _ Hr : is_absolute_posix rel = false). cbn [fmap list_fmap concat]. rewrite app_nil_r.
  assert (E1 : path_elements is_sep_any (absolute_path fs) = fs) by (unfold absolute_path; rewrite elements_sep by done; by apply elements_joined).
  assert (E2 : path_elements is_sep_any rel = relative_names fs ts) by (by apply elements_joined). rewrite E1, E2, resolved_relative by done.
  unfold absolute_path at 2. f_equal. destruct ts as [|t ts]; [done|]. rewrite (bool_decide_eq_false_2 (t :: ts = [])) by done. cbn [negb andb].
  rewrite bool_decide_eq_false_2; [by rewrite app_nil_r|]. cbn [last_nonempty].
  assert (Hl : forall es, Forall (name_ok is_sep_any) es -> es <> [] -> last (joined SEP_POSIX es) <> Some SEP_POSIX).
  { intros es He Hne. destruct (joined_last SEP_POSIX is_sep_any es He Hne) as (s & c & -> & Hc). rewrite last_snoc. intros [= ->]. done. }
  destruct (decide (relative_names fs (t :: ts) = [])) as [En|En].
  - assert (Er : rel = []) by (unfold rel; by rewrite En). rewrite Er. cbn [last_nonempty].
    assert (Efs : fs = t :: ts) by (pose proof (resolved_relative fs (t :: ts) Hf Ht) as R; rewrite En, app_nil_r in R; rewrite <- R; unfold resolved, resolve_elements; rewrite (fold_names false is_sep_any) by done; unfold written_out; cbn; by rewrite app_nil_r, rev_involutive).
    rewrite Efs in *. unfold absolute_path. specialize (Hl (t :: ts) Hfn ltac:(done)). destruct (joined SEP_POSIX (t :: ts)) eqn:Ej; [|exact Hl]. apply joined_nil in Ej; [done|]. eapply Forall_impl; [exact Hfn|]. by intros e [? _].
  - specialize (Hl _ Hr En). fold rel in Hl. destruct rel as [|c r]; [|exact Hl]. exfalso. apply En. apply (joined_nil SEP_POSIX); [|reflexivity || done].
    eapply Forall_impl; [exact Hr|]. by intros e [? _].
Qed.

(** ** The properties *)

(** A text of plain names is its own normal form. *)
Lemma normal_plain allow preserve es : Forall (plain is_sep_any) es -> normal allow SEP_POSIX is_sep_any preserve (absolute_path es) = joined SEP_POSIX es.
Proof.
  intros He. assert (Hn : Forall (name_ok is_sep_any) es) by (eapply Forall_impl; [exact He|]; by intros e [? _]).
  unfold normal, absolute_path. rewrite elements_sep, elements_joined by done. unfold resolved, resolve_elements. rewrite (fold_names allow is_sep_any) by done.
  unfold written_out. cbn [fst snd replicate app]. rewrite app_nil_r, rev_involutive. set (s := joined SEP_POSIX es). enough (E : slash_kept SEP_POSIX preserve (SEP_POSIX :: s) s = []) by (by rewrite E, app_nil_r).
  unfold slash_kept. destruct preserve; [|done]. cbn [andb]. destruct (decide (es = [])) as [->|Hne]; [done|]. destruct (joined_last SEP_POSIX is_sep_any es Hn Hne) as (l & c & E & Hc). fold s in E. rewrite E.
  rewrite app_comm_cons, last_snoc, bool_decide_eq_false_2; [by rewrite andb_false_r|]. intros [= ->]. done.
Qed.

Lemma side_plain pooled top es own scratch : Forall (plain is_sep_any) es -> (length (absolute_path es) + 2 <= length own)%nat ->
  exists own', normalized_side pooled top Posix (absolute_path es) own scratch = Ok (absolute_path es, own', scratch) /\ length own' = length own.
Proof.
  intros He Hb. unfold normalized_side. change (is_absolute Posix (absolute_path es)) with true. cbv iota. unfold in_tail, slice_from. rewrite decide_True by lia. cbn [mbind outcome_bind]. unfold normalize_string_buf.
  destruct (normalize_spec true SEP_POSIX is_sep_any eq_refl eq_refl true false false (absolute_path es) (drop 1 own) ltac:(done)) as (t & E & T & L & _); [rewrite length_drop; lia|].
  rewrite normal_plain in E, T by done. rewrite E. cbn [mbind outcome_bind]. destruct own as [|x own]; [cbn in Hb; lia|]. cbn [drop length] in L, Hb. cbn [take app]. rewrite store_at_ok by (cbn; lia). cbn [mbind outcome_bind].
  change (<[0%nat := separator Posix]> (x :: take 0 own ++ t)) with (SEP_POSIX :: t). change (drop 0 own) with own in L. assert (Hle : (length (joined SEP_POSIX es) <= length t)%nat) by (apply (f_equal length) in T; rewrite length_take in T; lia).
  rewrite slice_range_ok by (cbn [length]; lia). cbn [mbind outcome_bind drop]. rewrite Nat.sub_0_r, Nat.add_1_r. cbn [take]. rewrite T. eexists. split; [done|]. cbn [length]. lia.
Qed.

(** (C17) The way from one absolute path to another, both made of plain names: no name is a dot or two, none has a slash or a
    backslash in it, and no slash is at the end of the path.  With buffers that have room, relative (on
    normal paths, and the call that normalises first) answers one [..] for every name of the first behind the names that
    both begin with, then the names of the second behind those; the answer is empty exactly for equal paths.  Resolving the
    answer from the first path gives the second path back. *)
Theorem relative_roundtrip (pooled top : bytes) (always_copy : bool) (fs ts : list bytes) (buf from_buf to_buf out : bytes) :
  Forall (plain is_sep_any) fs -> Forall (plain is_sep_any) ts -> length pooled = MAX_PATH_BYTES ->
  (3 * length fs + length (absolute_path ts) + 1 <= length buf)%nat -> (length (absolute_path fs) + 2 <= length from_buf)%nat -> (length (absolute_path ts) + 2 <= length to_buf)%nat ->
  let rel := joined SEP_POSIX (relative_names fs ts) in
  (length (absolute_path fs) + length rel + 3 <= length out)%nat ->
  (exists b, relative_normalized_buf Posix always_copy buf (absolute_path fs) (absolute_path ts) = Ok (rel, b) /\ length b = length buf) /\
  (exists b, relative_platform_buf pooled top Posix always_copy buf from_buf to_buf (absolute_path fs) (absolute_path ts) = Ok (rel, b) /\ length b = length buf) /\
  (rel = [] <-> fs = ts) /\
  (exists out', join_abs_string_buf pooled Posix (absolute_path fs) out [rel] = Ok (absolute_path ts, out')).
Proof.
  intros Hf Ht Hpool Hb Hbf Hbt rel Ho.
  assert (Hn : forall es, Forall (plain is_sep_any) es -> names es) by (intros es H; eapply Forall_impl; [exact H|]; intros e [? _]; by apply name_any_posix).
  pose proof (relative_spec always_copy fs ts buf (Hn _ Hf) (Hn _ Ht) Hb) as Hr. fold rel in Hr. split_and!; [exact Hr| | |].
  - unfold relative_platform_buf. destruct (side_plain pooled top fs from_buf to_buf Hf Hbf) as (b1 & -> & _). cbn [mbind outcome_bind]. destruct (side_plain pooled top ts to_buf buf Ht Hbt) as (b2 & -> & _). cbn [mbind outcome_bind]. exact Hr.
  - pose proof (resolved_relative fs ts Hf Ht) as R. pose proof (relative_names_ok fs ts Hf Ht) as Hok. split.
    + intros E. apply joined_nil in E; [|eapply Forall_impl; [exact Hok|]; by intros e [? _]]. rewrite E, app_nil_r in R. unfold resolved, resolve_elements in R. rewrite (fold_names false is_sep_any) in R by done.
      unfold written_out in R. cbn [fst snd replicate app] in R. by rewrite app_nil_r, rev_involutive in R.
    + intros ->. unfold rel, relative_names. destruct (common_split ts ts) as (cs & a & b & E1 & E2 & -> & Hd). rewrite E1 in E2. apply app_inv_head in E2 as <-. destruct a; [|done]. rewrite app_nil_r in E1. subst cs. by rewrite Nat.sub_diag, drop_all.
  - destruct (resolve_spec pooled false (absolute_path fs) out [rel]) as (out' & E & _); [done|done|done|done|cbn [sum_list_with]; lia|]. unfold rel in E. rewrite resolve_relative in E by done. by exists out'.
Qed.

Lemma relative_roundtrip_witness :
  let fs := [str "a"; str "b.js"; str "c"] in let ts := [str "a"; str "b"; str "..d"] in
  joined SEP_POSIX (relative_names fs ts) = str "../../b/..d" /\
  (exists b, relative_normalized_buf Posix true (replicate 50 7) (str "/a/b.js/c") (str "/a/b/..d") = Ok (str "../../b/..d", b) /\ length b = 50%nat) /\
  (exists out', join_abs_string_buf (replicate MAX_PATH_BYTES 7) Posix (str "/a/b.js/c") (replicate 60 7) [str "../../b/..d"] = Ok (str "/a/b/..d", out')).
Proof.
  intros fs ts. split; [by vm_compute|].
  destruct (relative_roundtrip (replicate MAX_PATH_BYTES 7) [] true fs ts (replicate 50 7) (replicate 50 7) (replicate 50 7) (replicate 60 7)) as (H1 & _ & _ & H4);
    [repeat constructor; done|repeat constructor; done|apply length_replicate|vm_compute; lia|vm_compute; lia|vm_compute; lia|vm_compute; lia|]. by split.
Defined.

(** ** Directories and names *)

Lemma names_any es : Forall (plain is_sep_any) es -> Forall (name_ok is_sep_any) es.
Proof. intros H. eapply Forall_impl; [exact H|]. by intros e [? _]. Qed.

(** The last unit of a path with a name is no separator. *)
Lemma absolute_last es : Forall (name_ok is_sep_any) es -> es <> [] -> exists s c, absolute_path es = s ++ [c] /\ is_sep_any c = false.
Proof.
  intros H Hne. destruct (joined_last SEP_POSIX is_sep_any es H Hne) as (s & c & E & Hc). unfold absolute_path. rewrite E. by exists (SEP_POSIX :: s), c.
Qed.

Lemma trim_seps_spec n k s : (k <= n)%nat -> match last s with Some c => is_sep_any c = false | None => True end -> trim_seps n (s ++ replicate k SEP_POSIX) = s.
Proof.
  revert n. induction k as [|k IH]; intros n Hn Hl.
  - rewrite app_nil_r. destruct n; [done|]. cbn [trim_seps]. destruct (last s); [by rewrite Hl|done].
  - destruct n as [|n]; [lia|]. cbn [trim_seps]. rewrite replicate_S_end, app_assoc, last_snoc, removelast_last. change (is_sep_any SEP_POSIX) with true. cbv iota. apply IH; [lia|done].
Qed.

Lemma trim_absolute n k es : Forall (name_ok is_sep_any) es -> es <> [] -> (k <= n)%nat -> trim_seps n (absolute_path es ++ replicate k SEP_POSIX) = absolute_path es.
Proof. intros H Hne Hk. apply trim_seps_spec; [done|]. destruct (absolute_last es H Hne) as (s & c & -> & Hc). by rewrite last_snoc. Qed.

Lemma contains_prefix (s t : bytes) : nonempty s = true -> contains (s ++ t) s = true.
Proof. intros H. unfold contains. rewrite H. destruct (s ++ t) eqn:E; cbn [contains_at]; rewrite <- E, take_app_length; by rewrite bool_decide_eq_true_2. Qed.

Lemma dirname_spec es e k fuel : Forall (name_ok is_sep_any) (es ++ [e]) -> (k < fuel)%nat ->
  dirname_posix fuel (absolute_path (es ++ [e]) ++ replicate k SEP_POSIX) = Ok (absolute_path es).
Proof.
  intros [Hes [[He Hn]%name_any_posix _]%Forall_cons]%Forall_app. revert k. induction fuel as [|fuel IH]; intros k Hk; [lia|]. cbn [dirname_posix]. destruct k as [|k].
  - rewrite app_nil_r, absolute_path_cons. cbn [slashed flat_map]. rewrite app_nil_r, rposition_app. cbn [rposition]. rewrite rposition_none by done. change (is_sep_posix SEP_POSIX) with true. cbn iota. rewrite Nat.add_0_r.
    destruct (Nat.eqb_spec (length (slashed es)) 0) as [Hz|Hz]; [apply nil_length_inv in Hz; by destruct es|].
    assert (1 <= length e)%nat by (destruct e; [done|cbn; lia]). rewrite (proj2 (Nat.eqb_neq _ _)) by (rewrite length_app; cbn [length]; lia).
    rewrite take_app_length. f_equal. apply slashed_joined. by intros ->.
  - rewrite replicate_S_end, app_assoc. set (s := absolute_path (es ++ [e]) ++ replicate k SEP_POSIX). rewrite rposition_app. cbn [rposition]. change (is_sep_posix SEP_POSIX) with true. cbn iota. rewrite Nat.add_0_r.
    rewrite length_app. cbn [length]. assert (Hl : (1 <= length s)%nat) by (unfold s; rewrite length_app; cbn [length absolute_path]; lia).
    rewrite (proj2 (Nat.eqb_neq _ _)), (proj2 (Nat.eqb_eq _ _)) by lia. rewrite take_app_le, take_ge by lia. apply IH. lia.
Qed.

Lemma basename_spec es e k n : Forall (name_ok is_sep_any) (es ++ [e]) -> (k <= n)%nat -> n = length (absolute_path (es ++ [e]) ++ replicate k SEP_POSIX) ->
  basename (absolute_path (es ++ [e]) ++ replicate k SEP_POSIX) = e.
Proof.
  intros Hpe Hk ->. set (path := absolute_path (es ++ [e]) ++ replicate k SEP_POSIX) in *.
  unfold basename. assert (Ep : exists c s, path = c :: s) by (unfold path, absolute_path; eauto). destruct Ep as (c & s & Ep). rewrite Ep at 1. cbv iota.
  assert (Et : trim_seps (length path) path = absolute_path (es ++ [e])) by (apply trim_absolute; [done|by destruct es|done]). rewrite Et.
  apply Forall_app in Hpe as [_ [[He Hen] _]%Forall_cons]. rewrite absolute_path_cons. cbn [slashed flat_map]. rewrite app_nil_r.
  rewrite rposition_app. cbn [rposition]. rewrite rposition_none by done. change (is_sep_any SEP_POSIX) with true. cbn iota. rewrite Nat.add_0_r.
  destruct (slashed es ++ SEP_POSIX :: e) eqn:E; [by destruct (slashed es)|]. rewrite <- E. rewrite drop_app_ge by lia. by replace (length (slashed es) + 1 - length (slashed es))%nat with 1%nat by lia.
Qed.

(** A path behind which names or slashes follow. *)
Lemma child_spec ps fs j : ps <> [] -> let P := absolute_path ps in let child := absolute_path (ps ++ fs) ++ replicate j SEP_POSIX in
  (if negb (contains child P) then Unrelated
   else if (length child =? length P)%nat then Equal
   else match child !! length P with Some c => if (length P <? length child)%nat && is_sep_any c then Parent else Unrelated | None => Unrelated end) =
  (if bool_decide (fs = []) && (j =? 0)%nat then Equal else Parent).
Proof.
  intros Hne P child. assert (Ec : child = P ++ slashed fs ++ replicate j SEP_POSIX).
  { unfold child, P. destruct fs as [|f fs]; [by rewrite app_nil_r|]. rewrite absolute_path_cons, <- app_assoc. by rewrite (slashed_joined ps) by done. }
  rewrite Ec, contains_prefix by done. cbn [negb]. rewrite !length_app, length_replicate. destruct fs as [|f fs].
  - rewrite bool_decide_eq_true_2 by done. cbn [slashed flat_map length app andb]. destruct j as [|j]; [by rewrite Nat.add_0_r, Nat.eqb_refl|].
    rewrite (proj2 (Nat.eqb_neq _ _)) by lia. rewrite lookup_app_r, Nat.sub_diag by lia. cbn [lookup list_lookup replicate]. by rewrite (proj2 (Nat.ltb_lt _ _)) by lia.
  - rewrite bool_decide_eq_false_2 by done. cbn [andb slashed flat_map]. cbn [length app]. rewrite (proj2 (Nat.eqb_neq _ _)) by lia. rewrite lookup_app_r, Nat.sub_diag by lia. cbn [lookup list_lookup]. by rewrite (proj2 (Nat.ltb_lt _ _)) by lia.
Qed.

Lemma elements_slashes es k : Forall (name_ok is_sep_posix) es -> path_elements is_sep_posix (absolute_path es ++ replicate k SEP_POSIX) = es.
Proof.
  intros H. induction k as [|k IH].
  - rewrite app_nil_r. unfold absolute_path. rewrite elements_sep by done. by apply elements_joined.
  - by rewrite replicate_S_end, app_assoc, elements_snoc.
Qed.

Lemma contains_at_split hay needle : contains_at hay needle = true -> exists a b, hay = a ++ needle ++ b.
Proof.
  induction hay as [|c hay IH]; cbn [contains_at]; intros [H%bool_decide_eq_true|H]%orb_true_iff.
  - exists [], []. rewrite <- H. by rewrite take_nil.
  - done.
  - exists [], (drop (length needle) (c :: hay)). rewrite <- H at 1. by rewrite take_drop.
  - destruct (IH H) as (a & b & ->). by exists (c :: a), b.
Qed.

(** A path is found in another one only where a name of the other begins with its last name. *)
Lemma contains_name es e gs k : name_ok is_sep_posix e -> Forall (name_ok is_sep_posix) gs ->
  contains (absolute_path gs ++ replicate k SEP_POSIX) (absolute_path (es ++ [e])) = true -> Exists (fun g => e `prefix_of` g) gs.
Proof.
  intros [Hne He] Hgs [_ (a & b & E)%contains_at_split]%andb_true_iff. rewrite absolute_path_cons in E. cbn [slashed flat_map] in E. rewrite app_nil_r in E.
  pose proof (elements_slashes gs k Hgs) as Eg. rewrite E, <- (app_assoc (slashed es)), app_assoc in Eg. cbn [app] in Eg. rewrite elements_mid in Eg by done.
  destruct (run_split is_sep_posix b) as (Hb & Hr). set (n := run_length (fun c => negb (is_sep_posix c)) b) in *.
  rewrite <- (take_drop n b), app_assoc, (elements_app is_sep_posix (e ++ take n b)) in Eg; [|split; [by intros [? _]%app_nil|by rewrite forallb_app, He]|done].
  rewrite <- Eg. apply Exists_app. right. left. by exists (take n b).
Qed.

(** (C18) The directory and the name of an absolute path other than the root, with plain names and whatever slashes are at
    its end: dirname answers the path of the names but the last, within as many calls as there are slashes, basename the last
    one.  A path that begins with all the names of such a path counts as its child, with the same names and no slash behind
    them as equal; a path is unrelated to it when none of its names begins with the last name of the parent, or when it
    agrees with the parent but that last name goes on. *)
Theorem dirname_basename (es fs : list bytes) (e : bytes) (k j : nat) :
  Forall (plain is_sep_any) (es ++ e :: fs) ->
  let path := absolute_path (es ++ [e]) ++ replicate k SEP_POSIX in
  dirname_posix (length path) path = Ok (absolute_path es) /\
  basename path = e /\
  is_parent_or_equal path (absolute_path (es ++ e :: fs) ++ replicate j SEP_POSIX) =
    (if bool_decide (fs = []) && (j =? 0)%nat then Equal else Parent) /\
  (forall gs, Forall (plain is_sep_any) gs -> Forall (fun g => ~ e `prefix_of` g) gs ->
    is_parent_or_equal path (absolute_path gs ++ replicate j SEP_POSIX) = Unrelated) /\
  (forall more, plain is_sep_any (e ++ more) -> more <> [] ->
    is_parent_or_equal path (absolute_path (es ++ (e ++ more) :: fs) ++ replicate j SEP_POSIX) = Unrelated).
Proof.
  intros H path. apply names_any in H as Hn. change (e :: fs) with ([e] ++ fs) in *. rewrite app_assoc in *. pose proof Hn as [Hpe Hfs]%Forall_app.
  pose proof Hpe as [Hes [He _]%Forall_cons]%Forall_app. apply name_any_posix in He.
  assert (Hne : es ++ [e] <> []) by (by destruct es). assert (Lp : (k <= length path)%nat) by (unfold path; rewrite length_app, length_replicate; lia).
  assert (Et : trim_seps (length path) path = absolute_path (es ++ [e])) by (by apply trim_absolute). split_and!.
  - apply dirname_spec; [done|]. unfold path. rewrite length_app, length_replicate. cbn [length absolute_path]. lia.
  - by apply (basename_spec es e k (length path)).
  - unfold is_parent_or_equal. rewrite Et. by apply child_spec.
  - intros gs Hgs Hno. unfold is_parent_or_equal. rewrite Et. destruct (contains _ _) eqn:Ec; [|done]. apply contains_name in Ec; [|done|by eapply Forall_impl; [apply names_any, Hgs|apply name_any_posix]].
    exfalso. apply Exists_exists in Ec as (g & Hg & Hp). by apply (proj1 (Forall_forall _ _) Hno g Hg).
  - intros more [[_ Hm] _] Hmore. unfold is_parent_or_equal. rewrite Et. destruct more as [|c more]; [done|]. rewrite forallb_app in Hm. apply andb_true_iff in Hm as [_ [Hc _]%andb_true_iff].
    rewrite !absolute_path_cons. cbn [slashed flat_map]. rewrite app_nil_r. set (P := slashed es ++ SEP_POSIX :: e).
    assert (EP : (slashed es ++ SEP_POSIX :: (e ++ c :: more) ++ slashed fs) ++ replicate j SEP_POSIX = P ++ c :: more ++ slashed fs ++ replicate j SEP_POSIX) by (unfold P; repeat (rewrite <- !app_assoc; cbn [app]); done).
    rewrite EP, contains_prefix by (unfold P; by destruct (slashed es)). cbn [negb]. rewrite length_app. cbn [length]. rewrite (proj2 (Nat.eqb_neq _ _)) by lia.
    rewrite lookup_app_r, Nat.sub_diag by lia. cbn [lookup list_lookup]. apply negb_true_iff in Hc. by rewrite Hc, andb_false_r.
Qed.

Lemma dirname_basename_witness :
  dirname_posix 10 (str "/usr/lib//") = Ok (str "/usr") /\ basename (str "/usr/lib//") = str "lib" /\ is_parent_or_equal (str "/usr/lib//") (str "/usr/lib/a.js") = Parent /\
  is_parent_or_equal (str "/usr/lib//") (str "/bin/a.js") = Unrelated /\ is_parent_or_equal (str "/usr/lib//") (str "/usr/lib64/a.js") = Unrelated.
Proof.
  destruct (dirname_basename [str "usr"] [str "a.js"] (str "lib") 2 0 ltac:(repeat constructor; done)) as (H1 & H2 & H3 & H4 & H5). split_and!; [exact H1|exact H2|exact H3| |].
  - apply (H4 [str "bin"; str "a.js"]); [repeat constructor; done|repeat constructor; by apply (bool_decide_unpack _); vm_compute].
  - apply (H5 (str "64")); [repeat constructor; done|done].
Defined.

(** What a call answers, without the buffer. *)
Definition text {A} (m : outcome (bytes * A)) : outcome bytes := '(s, _) ← m; Ok s.
Definition relative_text (size : nat) (from to : bytes) : outcome bytes :=
  text (relative_platform_buf [] (str "/") Posix true (replicate size 0) (replicate size 0) (replicate size 0) from to).
Definition shown (buf : nat) (m : bytes -> outcome (bytes * nat)) : outcome bytes := '(b, n) ← m (replicate buf 0); slice_range b 0 n.

(** Where the path functions do not do what they say.
    Normalising a Windows path takes [..] out of a UNC share, unlike out of a drive.
    [normalize_buf] hands the flag for paths above the root over the wrong way round: the absolute path keeps a leading
    [..], the relative one loses it.
    The common path of nine paths or more is cut short by the last ones only: it may be no prefix of the first paths, and an
    empty path makes it panic.
    A path counts as the parent of another when it occurs anywhere in it and a separator stands at its length;
    the root is the parent of nothing.
    The posix [path.resolve] takes a backslash for a separator.
    A relative answer of up to three units keeps the slash at the end, a longer one loses it (["/"] to ["/a/"] and to
    ["/abc/"] from ["/x"]); an absolute path above the root is not cut off before; and though
    all buffers hold a path of 4096 units, the answer to a first path of short names can be longer than that (here, with
    buffers of 40 units, 13 names fit and 14 do not) and the call panics. *)
Theorem path_faults :
  normalize_string_generic_t false true false false SEP_WINDOWS is_sep_any (str "\\server\share\a\..\..\..\c") (replicate 60 0) = Ok (str "\c") /\
  normalize_string_generic_t false true false false SEP_WINDOWS is_sep_any (str "C:\a\..\..\..\c") (replicate 60 0) = Ok (str "C:\c") /\
  shown 60 (normalize_buf Posix (str "/a/../../b")) = Ok (str "../b") /\
  shown 60 (normalize_buf Posix (str "a/../../b")) = Ok (str "b") /\
  longest_common_path_generic Posix [str "/aa/"; str "/bb/"] = Ok (str "/") /\
  longest_common_path_generic Posix (replicate 8 (str "/aa/") ++ [str "/bb/"]) = Ok (str "/bb/") /\
  longest_common_path_generic Posix (replicate 8 (str "/aa/") ++ [[]]) = Panic /\
  is_parent_or_equal (str "/ab") (str "/xy/ab") = Parent /\
  is_parent_or_equal (str "/") (str "/ab") = Unrelated /\
  text (join_abs_string_buf (replicate 60 0) Posix (str "/w") (replicate 60 0) [str "a\b"; str "..\..\c"]) = Ok (str "/w/c") /\
  relative_text 40 (str "/") (str "/a/") = Ok (str "a/") /\
  relative_text 40 (str "/x") (str "/abc/") = Ok (str "../abc") /\
  relative_text 40 (str "/../a") (str "/b") = Ok (str "../../b") /\
  relative_text 40 (concat (replicate 13 (str "/a"))) (str "/b") = Ok (concat (replicate 13 (str "../")) ++ str "b") /\
  relative_text 40 (concat (replicate 14 (str "/a"))) (str "/b") = Panic.
Proof. vm_compute. repeat split. Qed.
